(* ===== verification/_CoqProject ===== *)
-Q . S2P
Prelude.v
Wire.v
Text.v
LandRecords.v
LandRecordsCorrect.v
LandLease.v
LandHost.v
LandCensus.v
LandLock.v
LandRun.v
LandLogic.v
LandLockCorrect.v
LandProtocol.v
LandRefine.v
LandCalm.v
LandCensusCorrect.v
LandSamples.v
ValidateLock.v
ValidateRun.v
ValidateLockCorrect.v
ValidateRunCorrect.v
ValidateSamples.v
Ledger.v
LedgerCorrect.v
ValidateStatus.v
ValidateStatusCorrect.v
History.v
HistoryCorrect.v
TestSelection.v
TestSelectionCorrect.v
TestSelectionSamples.v
Sha256.v
Relay.v
Calendar.v
RelayCorrect.v
StatusLog.v
StatusLogCorrect.v
StatusLogSamples.v
Watchdog.v
WatchdogCorrect.v
BuckAdmit.v
BuckAdmitCorrect.v
Conc.v
Layout.v
Offset.v
Mapping.v
MappingCorrect.v
Snzi.v
SnziInv.v
SnziCorrect.v
Admission.v
AdmissionCorrect.v
Csnzi.v
CsnziInv.v
CsnziCorrect.v
Injection.v
InjectionCorrect.v
Compose.v
Migration.v
MigrationInv.v
MigrationCorrect.v
Sync.v
SyncCorrect.v
FixedAllocator.v
FixedAllocatorCorrect.v
PodApi.v
Image.v
ImageCorrect.v
OffsetTable.v
OffsetTableCorrect.v
Loader.v
LoaderCorrect.v
Reloc.v
RelocInv.v
Collections.v
CollectionsCorrect.v
