(* ===== verification/Prelude.v ===== *)
(** * A verification of the [shmem-pod] library and of the CI hub's locks and ledger

    Two systems of the repository carry its core logic.  The crate
    [src/shmem_exec_obj/v2/src] is a library of shared-memory objects: objects
    without pointers that live in one mapping, are shared by processes that map it
    at different addresses, and are used concurrently; [v2/poc] builds executable
    images and a hash table on it.  [src/ci-hub/lib] holds the two locks that
    serialize landings and validations on a box, leases in shared files with the
    quarantine of payloads that outlive their supervisor, and the ledger of the
    validations, with the predicate that decides which of them count and the queries
    over it.  Of [src/scripts], [anchored-test-selection.rs] narrows a test run to what
    changed since a green commit of that ledger, two scripts drive and log the hourly
    report, and two guard the box against a dead coordinator and uncapped builds.  This
    development models them and proves what they promise.

    ** The shared-memory library and the files that model it

    - [Prelude]  integers of 8 to 128 bits as [Z] with their wrapping and checked
      operations, bytes, bit lemmas, Rust's [Result], shared tactics and hints.
    - [Wire]  fixed-width fields in byte strings, shared by the wire formats.
    - [Conc]  what [core::sync::atomic] gives the crate: a [prog] is a tree of
      atomic read-modify-write steps on shared cells.  The same definition is run
      alone ([run], [solo]), interleaved with any number of other threads
      ([pstep]) and verified with a weakest-precondition logic over multisets of
      ghost tokens ([wp], [adequacy]).
    - [Compose]  components side by side: the cells and tokens of one component
      embedded into those of another.
    - [Layout]  [layout.rs] and the fingerprint mixer of [lib.rs]: layout
      descriptors, their 80-byte wire form, and the handshake that compares them.
    - [Offset]  [offset.rs]: relative offsets and their resolution in a region.
    - [Mapping], [MappingCorrect]  [mapping.rs]: the header of a mapping, the
      packed lifecycle word (phase, attachments, entered guards) and the handles
      [Mapping], [Attachment], [Guard], [Exclusive], [Owner] with their destructors.
    - [Snzi], [SnziInv], [SnziCorrect]  [snzi.rs]: the scalable nonzero indicator,
      a four-way tree of packed counters over a root counter.
    - [Admission], [AdmissionCorrect]  [admission.rs]: the closeable barrier, a
      gate word in front of a [Snzi].  Its cells are the [Ext] cells of the
      indicator, so the client is proved against the specifications of [SnziInv].
    - [Csnzi], [CsnziInv], [CsnziCorrect]  [csnzi.rs]: the closable indicator.
    - [Injection], [InjectionCorrect]  [injection.rs]: the bootstrap context of an
      injected process and the gate in front of its hooks.
    - [Migration], [MigrationInv], [MigrationCorrect]  [migration.rs]: the one-shot
      migration of an object to a new schema behind the admission barrier.
    - [Sync], [SyncCorrect]  [sync.rs]: spin, futex and bounded futex mutexes.
    - [FixedAllocator], [FixedAllocatorCorrect]  [fixed_allocator.rs]: the allocator
      at an agreed address, over the third-party allocator Talc.
    - [PodApi]  [pod_api.rs]: the method tables of an executable object.
    - [Reloc], [RelocInv]  [reloc_allocator.rs]: the relocatable allocator, slots
      of a fixed arena behind a free bitmap, a generation and a metadata record
      per slot, and one bounded operation lock.
    - [Collections], [CollectionsCorrect]  [collections.rs]: [SharedBox] and
      [SharedVec], descriptors of allocations that processes hold and exchange.
    - [Image], [ImageCorrect]  [poc/api]: the header of an executable image.
    - [OffsetTable], [OffsetTableCorrect]  [poc/code]: the hash table that runs
      inside an image, over an arena of offsets.
    - [Loader], [LoaderCorrect]  [poc/runtime]: verification of an artifact, method
      resolution and the envelope that pairs a state with an image.

    A shared object is a type of cells (one constructor per field of the Rust
    struct); its operations keep the names of the Rust methods and are [prog]s
    over those cells, with one [Rmw] node per atomic access of the source and in
    the source's order.  Errors are values of [result]; a Rust panic is [Panic].
    Private state of a process (handles, tokens, descriptors) is a record passed
    and returned.  Memory is sequentially consistent: the [Ordering] arguments
    are not modelled.

    ** The locks of the hub and the files that model them

    [landing_lock.rs] and [validate_lock.rs] implement the same lease engine over
    two holder records (the second file says that it mirrors the first exactly).

    - [Text]  Rust's [str] as a list of scalar values: lines, splitting, trimming,
      decimal numbers and their parsers.
    - [LandRecords], [LandRecordsCorrect]  the records on disk: holder, owner
      process, queue and cleanup record, with their parsers and printers.
    - [LandLease]  the interface [Lease]: what the two locks differ in.  [landing]
      and [ValidateLock.validation] are its instances; [LandRefine.LeaseLaws] states
      what an instance promises, and both discharge it.
    - [LandHost]  the disk, the host and the monad [M] of a process that acts on
      them: every event may succeed, fail with or without taking effect, or be the
      one at which the process is killed.
    - [LandCensus], [LandCensusCorrect]  the census of a payload: descendants in the
      process table, freezing, control groups.
    - [LandLock]  paths, claims of the box, critical sections and the operations of a
      lease, over the interface; [LandRun]  the landing lock's run and commands.
    - [ValidateLock]  the validation lock's records, the admission of a head and the
      authority snapshot; [ValidateRun]  its operations, run and commands.
    - [LandLogic]  the reasoning on [M]: what a program reads, returns, keeps, and how
      it may end; [LandLockCorrect], [LandProtocol], [LandRefine], [LandCalm],
      [ValidateLockCorrect], [ValidateRunCorrect] the theorems; [LandSamples],
      [ValidateSamples] the hosts and files they are tried on.

    The environment ([Env]) answers each event of a process: faults, clock, host
    name, process table, signals, file locks.  Operations inside [with_guard] are
    atomic towards other processes because the kernel's lock of the guard file
    excludes them; what the others did before is the function [others] of the
    environment, applied on entry, and the theorems ask of it what the property says
    of every process.

    ** The validation ledger and the files that model it

    - [Ledger], [LedgerCorrect]  [records.rs] and [qualifying_receipt.rs]: rows, gates,
      obligations, the qualifying predicate and the qualification of a row.
    - [ValidateStatus], [ValidateStatusCorrect]  [validate_status.rs]: the disposition
      of a red, the verdict on a commit, abbreviated commits, the ledger's lines.
    - [History], [HistoryCorrect]  [history_queries.rs]: the newest green commit, the
      first bad commit, test cells from retained logs and their cache.

    - [TestSelection], [TestSelectionCorrect], [TestSelectionSamples]
      [anchored-test-selection.rs]: globs, the graph of CI steps, the rules from paths to
      steps, anchors, changed paths and the run of the subset.

    The predicate in force is an argument; the verifier of cross-field evidence is the
    class [Verifier].  JSON text is parsed by a parameter; the rows are its values.  The
    hub and git are the class [Commands] of the selection.

    ** The hourly report and the files that model it

    [src/scripts/hourly-status-relay.rs] claims each hour in a file, wakes a coordinator
    and records its acknowledgement; [src/scripts/status-log.rs] appends the report that
    was sent to a log that is shared through git.

    - [Sha256]  the digest the driver computes, checked against published vectors and
      with its tables checked against the roots of primes.
    - [Relay]  hours, claims, the rule, the tick ([execute]), acknowledgements, and both
      again as processes that interleave on the claim file ([advance], [step]).
    - [Calendar]  the dates and the order of hours; [RelayCorrect]  the driver's theorems.
    - [StatusLog]  workstreams, task states, counts, the command line, the row, freshness
      and reconciliation of copies, the append; [StatusLogCorrect], [StatusLogSamples]  the
      theorems and the inputs they are tried on.

    The exit status of the relay, the clock and the answers of the file system are the
    fields of [TickEnv], [AckEnv] and [World]; TaskGraph, GitHub, [date] and git answer
    through [World].  JSON is parsed and printed by parameters.

    ** The guards of the box and the files that model them

    - [Watchdog], [WatchdogCorrect]  [orc-liveness-watchdog.rs]: session rows checked
      against the process table, the verdict, alerts and their cooldown, the health log.
    - [BuckAdmit], [BuckAdmitCorrect]  [fbsource-buck-admit.rs]: the reading of a build's
      command line, the rule of admission, the cap in the launched command, the lock of
      the host, the watch over the child.

    ** What the theorems show

    - Isolation and reclamation, in every interleaving of any number of threads:
      two boxes never share a slot and a descriptor whose box was destroyed never
      resolves again ([box_isolation]); the payload of a mapping is read only
      while it is constructed, with the type it was constructed with, and is torn
      down exclusively ([mapping_payload_protected]); once a drain is reported no
      participant is inside ([admission_no_use_after_reclaim],
      [csnzi_no_use_after_drain]); the indicator never reads idle while a
      participant holds a token ([snzi_presence_never_missed]); hooks never see a
      retired context, migrations never a destroyed source.
    - Mutual exclusion of the three mutexes, whatever the kernel answers.
    - Conservation: a tree whose tokens have all departed is idle, the counts of
      a mapping return to zero when the handles are gone, an allocator's live blocks
      are those of its client.
    - Refinement: the migration record implements a one-shot machine, the hash table
      a finite map of wrapping counters, an attempt to acquire a lease one step of an
      abstract lease with a FIFO queue.
    - Functional behaviour and codecs: vectors as stacks, exact bounds of offset
      resolution, exact acceptance of artifacts, canonical wire formats, records of
      the locks that parse back.
    - The locks, when file operations fail and whenever a process dies: a live lease is
      never taken away as long as [stat] answers ([landing_exclusive],
      [validation_exclusive]; what a failing [stat] does is in
      [stat_failure_displaces_holder]), nobody passes a quarantine ([quarantine_holds],
      [validation_quarantine]), the cleanup record disappears on evidence or an
      operator's attestation only ([cleanup_protocol], [validation_protocol]), an
      admissible authority snapshot is backed by what it names ([authority_sound]),
      a stale head never reaches the box ([stale_head_refused]).
    - The ledger: a row qualifies exactly on the clauses of the predicate
      ([qualification_exact]); a commit is validated exactly on a qualifying row and
      condemned exactly on complete, attributable and uncontended red evidence
      ([assess_exact]); the newest green commit and the newest change of a test from
      pass to fail are those of the whole ledger ([newest_green_exact],
      [first_bad_exact]); cells of the cache never override the ledger's
      ([merge_retained_exact]).
    - The test selection: a step is left out only with a proved anchor, when no changed
      path maps to it and nothing selected depends on it ([selection_sound]); an anchor
      is a commit that the ledger validates in full ([anchor_is_full_green]); what runs
      is what was selected ([subset_run_exact]); a glob matches what its pattern means
      ([glob_inner_iff]) and the closure is the set of dependencies
      ([close_over_deps_exact]).
    - The status driver: the key of an hour is its Gregorian date and hour
      ([hour_key_exact]); ticks and acknowledgements that race for a fresh hour wake
      once ([fresh_hour_one_wake]); the wakes of an hour are bounded and counted
      ([wakes_bounded]); an acknowledged hour stays closed ([acked_hour_closed]).  The
      lemmas behind these say where the protocol does not give more.
    - The log of reports: an appended row is backed by the task states, counts and text it
      names ([entry_backed]); the log only grows and keeps every row, the landed
      ones too, but for a last line without a line feed ([log_append_only]); copies reconcile without loss ([reconcile_exact]); a late row
      says so ([late_entry_declared]); and its digest is that of the acknowledged message
      ([digests_agree]).
    - The guards: the watchdog's status is what the database and the process table say,
      where an unreadable command line counts as dead ([liveness_exact]), and its alerts
      are a cooldown apart as long as the stamp can be read ([alerts_spaced]); a build is
      launched with the cap it was admitted with, which is positive where the limit is, and
      whole subtrees one at a time ([launched_capped]).
    - Completion: a lone arrival ends within the stated number of iterations, a
      closed indicator drains, a run on a calm host returns the status of its child
      and leaves the lease free ([landing_run_completes],
      [validation_run_completes]).

    ** Bounds and fuel

    Every [loop] of the source that retries on contention takes a [fuel], the
    number of iterations it may use, and is [Spin] after that.  The safety
    theorems hold for every fuel: a thread that exhausts it is one that is still
    retrying, and a spinning thread has kept all it owes.  The completion theorems
    say which fuel is enough for an operation that runs alone.  The polling loops of
    the locks get [polls] iterations and are [Looping] after that; safety holds for
    every number, completion for every number but zero.  The scan of the process
    table needs one pass per process, the closure of test steps one round per name of
    the graph; both are proved to end.  Bounded loops ([for], scans of the tree, the
    lock's attempt limit) are structural and need no fuel.  Integers are kept at the
    width of the source; where the source's arithmetic can wrap, the wrap is written
    out.

    ** What is not modelled

    [Display] and [Debug] implementations and the commands that only print,
    compile-time layout assertions, fault-injection and loom test hooks, and weak
    memory.  Code that is generic over a value type [T] is modelled for values that
    fit one cell, with [size_of::<T>()] and [align_of::<T>()] as parameters.  Talc,
    the kernel's futexes, SHA-256 in the loader, the layout of [repr(Rust)] types, the target's
    configuration, the admission program of the validation lock, the verifier of
    receipts, the JSON parser and printer, the rounding and printing of floating-point
    numbers and the formatting of local time are parameters, and so are git, [run-dag.sh] and the hub's answers to the
    test selection.  The contacts of the loader with the kernel
    (descriptors, [mmap], [mprotect], sealing) are left out.  Of an error the
    variant and the identities in it are kept, not the wording.  The heartbeat of a
    run is another process as far as the critical sections are concerned.  The other
    components of the repository are listed in the manifest with the reason each is
    left out. *)

(** Machine integers, byte strings, results and the shared automation. *)

From stdpp Require Export base list relations gmultiset.
From Stdlib Require String Ascii.
From Stdlib Require Export ZArith Lia.
Export String.StringSyntax.
Delimit Scope string_scope with string.
Open Scope Z_scope.

(** ** Results: Rust's [Result<A, E>] *)

Inductive result (A E : Type) : Type :=
| Ok (a : A)
| Err (e : E).
Arguments Ok {A E} _.
Arguments Err {A E} _.

Definition result_bind {A B E} (r : result A E) (k : A -> result B E) : result B E :=
  match r with Ok a => k a | Err e => Err e end.

Definition map_err {A E F} (f : E -> F) (r : result A E) : result A F :=
  match r with Ok a => Ok a | Err e => Err (f e) end.

Definition ok_or {A E} (o : option A) (e : E) : result A E :=
  match o with Some a => Ok a | None => Err e end.

Definition is_ok {A E} (r : result A E) : bool :=
  match r with Ok _ => true | Err _ => false end.

Declare Scope pod_scope.
Delimit Scope pod_scope with pod.
Open Scope pod_scope.

(** Rust's [let x = e?; k] on pure results, and [if c { return Err(e) }; k]. *)
Notation "'let?' x := e 'in' k" := (result_bind e (fun x => k))
  (at level 10, x name, e at level 99, k at level 200) : pod_scope.
Notation "'reject' c 'with' e ';;' k" := (if c then Err e else k)
  (at level 10, c at level 99, e at level 99, k at level 200) : pod_scope.

Lemma result_bind_ok {A B E} (r : result A E) (k : A -> result B E) b :
  result_bind r k = Ok b <-> exists a, r = Ok a /\ k a = Ok b.
Proof. destruct r as [a|e]; cbn; naive_solver. Qed.

Lemma ok_or_ok {A E} (o : option A) (e : E) a : ok_or o e = Ok a <-> o = Some a.
Proof. destruct o; cbn; naive_solver. Qed.

(** ** Machine integers: a w-bit unsigned integer is a [Z] in [0 .. 2^w - 1] *)

Definition in_width (w x : Z) : Prop := 0 <= x < 2 ^ w.
Definition wrap (w x : Z) : Z := x mod 2 ^ w.
Definition u64_max : Z := 2 ^ 64 - 1.
Definition u32_max : Z := 2 ^ 32 - 1.

Definition checked_add (w x y : Z) : option Z :=
  if x + y <? 2 ^ w then Some (x + y) else None.
Definition checked_mul (w x y : Z) : option Z :=
  if x * y <? 2 ^ w then Some (x * y) else None.
Definition wrapping_add (w x y : Z) : Z := wrap w (x + y).
Definition wrapping_mul (w x y : Z) : Z := wrap w (x * y).
Definition not_bits (w x : Z) : Z := 2 ^ w - 1 - x.
Definition rotate_left (w x n : Z) : Z :=
  Z.lor (wrap w (Z.shiftl x n)) (Z.shiftr x (w - n)).
Definition is_power_of_two (x : Z) : bool := (0 <? x) && (x =? 2 ^ Z.log2 x).

(** The width of [usize] is a property of the compilation target; the crate is
    built for 32-bit and 64-bit pointers. *)
Class Target : Type := {
  usize_bits : Z;
  usize_bits_ok : usize_bits = 32 \/ usize_bits = 64
}.
Definition usize_max `{Target} : Z := 2 ^ usize_bits - 1.
Definition isize_max `{Target} : Z := 2 ^ (usize_bits - 1) - 1.
Definition usize_try_from `{Target} (x : Z) : option Z :=
  if x <=? usize_max then Some x else None.

#[export] Instance target64 : Target | 10 := {| usize_bits := 64; usize_bits_ok := or_intror eq_refl |}.
Definition target32 : Target := {| usize_bits := 32; usize_bits_ok := or_introl eq_refl |}.

Lemma checked_add_some w x y z : checked_add w x y = Some z <-> z = x + y /\ x + y < 2 ^ w.
Proof. unfold checked_add. destruct (Z.ltb_spec (x + y) (2 ^ w)); naive_solver lia. Qed.

Lemma checked_mul_some w x y z : checked_mul w x y = Some z <-> z = x * y /\ x * y < 2 ^ w.
Proof. unfold checked_mul. destruct (Z.ltb_spec (x * y) (2 ^ w)); naive_solver lia. Qed.

Lemma is_power_of_two_spec x : is_power_of_two x = true <-> exists k, 0 <= k /\ x = 2 ^ k.
Proof.
  unfold is_power_of_two. rewrite andb_true_iff, Z.ltb_lt, Z.eqb_eq. split.
  - intros [Hpos Heq]. exists (Z.log2 x). split; [apply Z.log2_nonneg | exact Heq].
  - intros (k & Hk & ->). rewrite Z.log2_pow2 by exact Hk. split; [lia | reflexivity].
Qed.

(** ** Bit fields *)

Lemma ones_mask k : 0 <= k -> 2 ^ k - 1 = Z.ones k.
Proof. intros Hk. rewrite Z.ones_equiv. lia. Qed.

Lemma land_mask x k : 0 <= k -> Z.land x (2 ^ k - 1) = x mod 2 ^ k.
Proof. intros Hk. rewrite ones_mask by exact Hk. apply Z.land_ones. exact Hk. Qed.

Lemma testbit_small x k n : 0 <= x < 2 ^ k -> k <= n -> Z.testbit x n = false.
Proof.
  intros Hx Hn. destruct (Z.eq_dec x 0) as [->|Hne]; [apply Z.testbit_0_l|].
  apply Z.bits_above_log2; [lia|]. apply Z.log2_lt_pow2; [lia|].
  apply Z.lt_le_trans with (2 ^ k); [lia|]. apply Z.pow_le_mono_r; lia.
Qed.


Lemma lor_disjoint a b : Z.land a b = 0 -> Z.lor a b = a + b.
Proof. intros Hz. pose proof (Z.add_lor_land a b). lia. Qed.

Lemma testbit_pack a b k n : 0 <= k -> 0 <= b < 2 ^ k -> 0 <= n ->
  Z.testbit (a * 2 ^ k + b) n = if n <? k then Z.testbit b n else Z.testbit a (n - k).
Proof.
  intros Hk Hb Hn. destruct (Z.ltb_spec n k) as [Hlt|Hge].
  - rewrite <- (Z.mod_pow2_bits_low _ k n) by exact Hlt.
    rewrite Z.add_comm, Z.mod_add, Z.mod_small by lia. reflexivity.
  - replace n with ((n - k) + k) at 1 by lia.
    rewrite <- Z.div_pow2_bits by lia.
    rewrite Z.div_add_l, Z.div_small, Z.add_0_r by lia. reflexivity.
Qed.

(** A low field [b] below a shifted high field [a] is addition. *)
Lemma lor_shiftl_add a b k : 0 <= k -> 0 <= b < 2 ^ k ->
  Z.lor (Z.shiftl a k) b = a * 2 ^ k + b.
Proof.
  intros Hk Hb. rewrite lor_disjoint; [by rewrite Z.shiftl_mul_pow2 by exact Hk|].
  apply Z.bits_inj'. intros n Hn. rewrite Z.land_spec, Z.bits_0.
  destruct (Z.lt_ge_cases n k).
  - rewrite Z.shiftl_spec_low by lia. reflexivity.
  - rewrite (testbit_small b k n) by lia. apply andb_false_r.
Qed.

Lemma land_bit x k : 0 <= k -> Z.land x (2 ^ k) = if Z.testbit x k then 2 ^ k else 0.
Proof.
  intros Hk. apply Z.bits_inj'. intros n Hn. rewrite Z.land_spec, Z.pow2_bits_eqb by exact Hk.
  destruct (Z.eqb_spec k n) as [->|Hne].
  - destruct (Z.testbit x n) eqn:E; [|by rewrite Z.bits_0].
    rewrite Z.pow2_bits_true by exact Hn. reflexivity.
  - rewrite andb_false_r. destruct (Z.testbit x k); [|by rewrite Z.bits_0].
    rewrite Z.pow2_bits_false by exact Hne. reflexivity.
Qed.

Lemma land_bit_eqb x k : 0 <= k -> (Z.land x (2 ^ k) =? 0) = negb (Z.testbit x k).
Proof.
  intros Hk. rewrite land_bit by exact Hk. destruct (Z.testbit x k); cbn; [|reflexivity].
  apply Z.eqb_neq. lia.
Qed.

Lemma land_low_bound b b' k : 0 <= k -> 0 <= b < 2 ^ k -> 0 <= b' < 2 ^ k -> 0 <= Z.land b b' < 2 ^ k.
Proof.
  intros Hk Hb Hb'. split; [apply Z.land_nonneg; lia|].
  rewrite <- (Z.mod_small b' (2 ^ k)), <- land_mask by lia.
  rewrite Z.land_assoc, land_mask by lia. apply Z.mod_pos_bound. lia.
Qed.

Lemma lor_low_bound b b' k : 0 <= k -> 0 <= b < 2 ^ k -> 0 <= b' < 2 ^ k -> 0 <= Z.lor b b' < 2 ^ k.
Proof.
  intros Hk Hb Hb'. split; [apply Z.lor_nonneg; lia|].
  destruct (Z.eq_dec (Z.lor b b') 0) as [->|Hne]; [lia|].
  assert (0 <= Z.lor b b') by (apply Z.lor_nonneg; lia).
  apply Z.log2_lt_pow2; [lia|]. rewrite Z.log2_lor by lia.
  apply Z.max_lub_lt.
  - destruct (Z.eq_dec b 0) as [->|]; [|apply Z.log2_lt_pow2; lia].
    destruct (Z.eq_dec k 0) as [->|]; [|cbn; lia]. cbn in *. assert (b' = 0) as -> by lia. done.
  - destruct (Z.eq_dec b' 0) as [->|]; [|apply Z.log2_lt_pow2; lia].
    destruct (Z.eq_dec k 0) as [->|]; [|cbn; lia]. cbn in *. assert (b = 0) as -> by lia. done.
Qed.

(** Bitwise operations act field by field on packed words. *)
Lemma land_pack a b a' b' k : 0 <= k -> 0 <= b < 2 ^ k -> 0 <= b' < 2 ^ k ->
  Z.land (a * 2 ^ k + b) (a' * 2 ^ k + b') = Z.land a a' * 2 ^ k + Z.land b b'.
Proof.
  intros Hk Hb Hb'. apply Z.bits_inj'. intros n Hn.
  rewrite Z.land_spec, !testbit_pack by auto using land_low_bound.
  destruct (n <? k); by rewrite Z.land_spec.
Qed.

Lemma lor_pack a b a' b' k : 0 <= k -> 0 <= b < 2 ^ k -> 0 <= b' < 2 ^ k ->
  Z.lor (a * 2 ^ k + b) (a' * 2 ^ k + b') = Z.lor a a' * 2 ^ k + Z.lor b b'.
Proof.
  intros Hk Hb Hb'. apply Z.bits_inj'. intros n Hn.
  rewrite Z.lor_spec, !testbit_pack by auto using lor_low_bound.
  destruct (n <? k); by rewrite Z.lor_spec.
Qed.

Lemma shiftr_div x k : 0 <= k -> Z.shiftr x k = x / 2 ^ k.
Proof. apply Z.shiftr_div_pow2. Qed.

Lemma not_bits_testbit w x i : 0 <= w -> 0 <= x < 2 ^ w -> 0 <= i ->
  Z.testbit (not_bits w x) i = (i <? w) && negb (Z.testbit x i).
Proof.
  intros Hw Hx Hi. unfold not_bits. rewrite ones_mask by exact Hw.
  rewrite Z.sub_nocarry_ldiff.
  - rewrite Z.ldiff_spec, Z.testbit_ones_nonneg by lia. done.
  - apply Z.bits_inj'. intros n Hn. rewrite Z.ldiff_spec, Z.bits_0, Z.testbit_ones_nonneg by lia.
    destruct (Z.ltb_spec n w); [apply andb_false_r|]. by rewrite (testbit_small x w n) by lia.
Qed.

(** [x & !(2^k - 1)] rounds down to a multiple of [2^k]. *)
Lemma land_not_mask w x k : 0 <= k <= w -> 0 <= x < 2 ^ w ->
  Z.land x (not_bits w (2 ^ k - 1)) = x - x mod 2 ^ k.
Proof.
  intros Hk Hx. assert (Hm : not_bits w (2 ^ k - 1) = (2 ^ (w - k) - 1) * 2 ^ k + 0).
  { unfold not_bits. rewrite Z.mul_sub_distr_r, <- Z.pow_add_r by lia. replace (w - k + k) with w by lia. lia. }
  assert (Hd : 0 <= x / 2 ^ k < 2 ^ (w - k)).
  { split; [apply Z.div_pos; lia|]. apply Z.div_lt_upper_bound; [lia|].
    rewrite <- Z.pow_add_r by lia. replace (k + (w - k)) with w by lia. lia. }
  pose proof (Z.mod_pos_bound x (2 ^ k)) as Hr. pose proof (Z.div_mod x (2 ^ k)) as Hx'.
  rewrite Hm. replace x with (x / 2 ^ k * 2 ^ k + x mod 2 ^ k) at 1 by lia.
  rewrite land_pack, Z.land_0_r, land_mask, Z.mod_small by lia. lia.
Qed.

(** ** Little-endian byte strings; a byte is a [Z] in [0 .. 255] *)

Fixpoint to_le_bytes (n : nat) (x : Z) : list Z :=
  match n with
  | O => []
  | S n => x mod 256 :: to_le_bytes n (x / 256)
  end.

Fixpoint of_le_bytes (bs : list Z) : Z :=
  match bs with
  | [] => 0
  | b :: bs => b + 256 * of_le_bytes bs
  end.

Definition byte (b : Z) : Prop := 0 <= b < 256.

Lemma to_le_bytes_length n x : length (to_le_bytes n x) = n.
Proof. revert x. induction n as [|n IH]; intros x; cbn; [reflexivity | by rewrite IH]. Qed.

Lemma to_le_bytes_byte n x : Forall byte (to_le_bytes n x).
Proof.
  revert x. induction n as [|n IH]; intros x; cbn; constructor; [|apply IH].
  apply Z.mod_pos_bound. lia.
Qed.

Lemma of_to_le_bytes n x : 0 <= x < 2 ^ (8 * Z.of_nat n) -> of_le_bytes (to_le_bytes n x) = x.
Proof.
  revert x. induction n as [|n IH]; intros x Hx.
  - change (2 ^ (8 * Z.of_nat 0)) with 1 in Hx. cbn. lia.
  - cbn [to_le_bytes of_le_bytes]. rewrite IH.
    + pose proof (Z.div_mod x 256). lia.
    + replace (8 * Z.of_nat (S n)) with (8 + 8 * Z.of_nat n) in Hx by lia.
      rewrite Z.pow_add_r in Hx by lia. change (2 ^ 8) with 256 in Hx.
      split; [apply Z.div_pos; lia|]. apply Z.div_lt_upper_bound; lia.
Qed.

Lemma to_of_le_bytes bs : Forall byte bs -> to_le_bytes (length bs) (of_le_bytes bs) = bs.
Proof.
  induction 1 as [|b bs Hb Hbs IH]; cbn [length to_le_bytes of_le_bytes]; [reflexivity|].
  unfold byte in Hb. rewrite Z.mul_comm, Z.mod_add, Z.mod_small by lia.
  rewrite Z.div_add, Z.div_small, Z.add_0_l by lia. by rewrite IH.
Qed.

Lemma of_le_bytes_bound bs : Forall byte bs -> 0 <= of_le_bytes bs < 2 ^ (8 * Z.of_nat (length bs)).
Proof.
  induction 1 as [|b bs Hb Hbs IH]; cbn [length of_le_bytes]; [cbn; lia|].
  replace (8 * Z.of_nat (S (length bs))) with (8 + 8 * Z.of_nat (length bs)) by lia.
  rewrite Z.pow_add_r by lia. change (2 ^ 8) with 256. unfold byte in Hb. lia.
Qed.

(** A Rust byte string literal [b"..."]. *)
Definition b_str (s : String.string) : list Z :=
  map (fun c => Z.of_N (Ascii.N_of_ascii c)) (String.list_ascii_of_string s).
Arguments b_str s%_string_scope.

(** [bytes[i..j]], [bytes.copy_from_slice] into a fixed range. *)
Definition slice (i j : nat) (bs : list Z) : list Z := take (j - i) (drop i bs).
Definition copy_at (i : nat) (src bs : list Z) : list Z :=
  take i bs ++ src ++ drop (i + length src) bs.

(** ** Tactics *)

(** [lia] with the defining equations of [/] and [mod]. *)
Ltac dlia := Z.to_euclidean_division_equations; lia.

(** Case analysis on every boolean comparison of a hypothesis or the goal. *)
Ltac zb_case :=
  repeat match goal with
  | |- context [Z.eqb ?a ?b] => destruct (Z.eqb_spec a b)
  | |- context [Z.ltb ?a ?b] => destruct (Z.ltb_spec a b)
  | |- context [Z.leb ?a ?b] => destruct (Z.leb_spec a b)
  | H : context [Z.eqb ?a ?b] |- _ => destruct (Z.eqb_spec a b)
  | H : context [Z.ltb ?a ?b] |- _ => destruct (Z.ltb_spec a b)
  | H : context [Z.leb ?a ?b] |- _ => destruct (Z.leb_spec a b)
  end.

(** Split a hypothesis [(if b then Err e else k) = Ok x] into its conditions. *)
Ltac ok_inv H :=
  repeat match type of H with
  | (if ?b then Err _ else _) = Ok _ =>
      let E := fresh "Hguard" in destruct b eqn:E; [discriminate H|]
  | result_bind _ _ = Ok _ =>
      let x := fresh "x" in let E := fresh "Hbind" in
      apply result_bind_ok in H as (x & E & H)
  end.

Create HintDb pod discriminated.
#[export] Hint Resolve to_le_bytes_length to_le_bytes_byte : pod.
#[export] Hint Resolve Z.mod_pos_bound Z.pow_pos_nonneg : pod.
