(* ===== verification/Wire.v ===== *)
(** Wire formats: lemmas on little-endian fields and on byte strings that are cut
    into fields, shared by the codecs. *)

From S2P Require Import Prelude.

(** ** Little-endian fields *)

Lemma of_to_le_bytes_mod n x : of_le_bytes (to_le_bytes n x) = x mod 2 ^ (8 * Z.of_nat n).
Proof.
  revert x. induction n as [|n IH]; intros x.
  - cbn. by rewrite Z.mod_1_r.
  - cbn [to_le_bytes of_le_bytes]. rewrite IH.
    replace (8 * Z.of_nat (S n)) with (8 + 8 * Z.of_nat n) by lia.
    rewrite Z.pow_add_r, (Z.rem_mul_r x (2 ^ 8)) by lia. done.
Qed.

Lemma to_le_bytes_mod n x : to_le_bytes n (x mod 2 ^ (8 * Z.of_nat n)) = to_le_bytes n x.
Proof.
  rewrite <- of_to_le_bytes_mod. pose proof (to_of_le_bytes (to_le_bytes n x) (to_le_bytes_byte n x)) as H.
  by rewrite to_le_bytes_length in H.
Qed.

Lemma u_to_of n bs : Forall byte bs -> length bs = n ->
  to_le_bytes n (of_le_bytes bs) = bs /\ in_width (8 * Z.of_nat n) (of_le_bytes bs).
Proof.
  intros Hb <-. split; [by apply to_of_le_bytes | by apply of_le_bytes_bound].
Qed.

(** ** Strings of fields *)

(** Field [k] of a string cut at the given lengths. *)
Fixpoint cut (lengths : list nat) (bs : list Z) : list (list Z) :=
  match lengths with
  | [] => []
  | n :: lengths => take n bs :: cut lengths (drop n bs)
  end.

Lemma cut_concat lengths bs : length bs = sum_list lengths -> concat (cut lengths bs) = bs.
Proof.
  revert bs. induction lengths as [|n ls IH]; intros bs Hl; cbn in *.
  - by destruct bs.
  - rewrite IH; [apply take_drop|]. rewrite length_drop. lia.
Qed.

Lemma concat_cut_take lengths bs : concat (cut lengths bs) = take (sum_list lengths) bs.
Proof.
  revert bs. induction lengths as [|n ls IH]; intros bs; cbn; [done|]. by rewrite IH, take_take_drop.
Qed.

Lemma concat_cut fs : cut (length <$> fs) (concat fs) = fs.
Proof.
  induction fs as [|f fs IH]; cbn; [done|]. by rewrite take_app_length, drop_app_length, IH.
Qed.

Lemma cut_concat_app fs rest : cut (length <$> fs) (concat fs ++ rest) = fs.
Proof.
  induction fs as [|f fs IH]; cbn; [done|].
  by rewrite <- app_assoc, take_app_length, drop_app_length, IH.
Qed.

(** Writing the next field behind the fields already written. *)
Lemma copy_next i pre src k : i = length pre -> (length src <= k)%nat ->
  copy_at i src (pre ++ replicate k 0) = (pre ++ src) ++ replicate (k - length src) 0.
Proof.
  intros Hi Hk. unfold copy_at. rewrite Hi, take_app_length.
  rewrite drop_app_ge by lia. replace (length pre + length src - length pre)%nat with (length src) by lia.
  by rewrite drop_replicate, app_assoc.
Qed.

Lemma slice_bytes i j bs : Forall byte bs -> Forall byte (slice i j bs).
Proof. intros Hb. unfold slice. by apply Forall_take, Forall_drop. Qed.

Lemma length_slice i j bs : (j <= length bs)%nat -> length (slice i j bs) = (j - i)%nat.
Proof. intros Hl. unfold slice. rewrite length_take, length_drop. lia. Qed.

Lemma list_cons_eq {A} (x y : A) l k : x :: l = y :: k -> x = y /\ l = k.
Proof. by intros [=]. Qed.

Lemma slice_split i j k bs : (i <= j <= k)%nat -> slice i k bs = slice i j bs ++ slice j k bs.
Proof.
  intros Hij. unfold slice. rewrite <- (take_drop (j - i) (take (k - i) (drop i bs))) at 1.
  rewrite take_take, skipn_firstn_comm, drop_drop. f_equal; [f_equal; lia|]. f_equal; [lia|]. f_equal. lia.
Qed.

Lemma Forall_zero_replicate bs : Forall (eq 0) bs -> bs = replicate (length bs) 0.
Proof. induction 1 as [|b bs <- _ IH]; cbn; [done|]. by rewrite <- IH. Qed.

(** ** Overwriting a field in place *)

Lemma copy_at_length i src bs : (i + length src <= length bs)%nat -> length (copy_at i src bs) = length bs.
Proof. intros Hl. unfold copy_at. rewrite !length_app, length_take, length_drop. lia. Qed.

Lemma slice_copy_same i src bs : (i + length src <= length bs)%nat ->
  slice i (i + length src) (copy_at i src bs) = src.
Proof.
  intros Hl. unfold slice, copy_at. rewrite drop_app_ge by (rewrite length_take; lia).
  rewrite length_take, Nat.min_l, Nat.sub_diag by lia. rewrite drop_0. rewrite take_app_le by lia.
  rewrite take_ge by lia. done.
Qed.

Lemma slice_copy_other i src bs j k : (i + length src <= length bs)%nat ->
  (k <= i \/ i + length src <= j)%nat -> slice j k (copy_at i src bs) = slice j k bs.
Proof.
  intros Hl Hjk. apply list_eq. intros n. unfold slice.
  destruct (decide (n < k - j)%nat) as [Hn|Hn]; [|by rewrite !lookup_take_ge by lia].
  rewrite !lookup_take_lt, !lookup_drop by lia. unfold copy_at. destruct Hjk.
  - rewrite lookup_app_l by (rewrite length_take; lia). apply lookup_take_lt. lia.
  - rewrite lookup_app_r by (rewrite length_take; lia). rewrite length_take, Nat.min_l by lia.
    rewrite lookup_app_r by lia. rewrite lookup_drop. f_equal. lia.
Qed.

Lemma forallb_byte bs : forallb (fun b => (0 <=? b) && (b <? 256)) bs = true -> Forall byte bs.
Proof.
  induction bs as [|b bs IH]; cbn; [constructor|]. rewrite !andb_true_iff, Z.leb_le, Z.ltb_lt.
  intros [Hb Hbs]. constructor; [exact Hb | by apply IH].
Qed.

Lemma forallb_zero bs : forallb (fun b => b =? 0) bs = true <-> Forall (eq 0) bs.
Proof.
  induction bs as [|b bs IH]; cbn.
  - split; [constructor | done].
  - rewrite andb_true_iff, IH, Z.eqb_eq, Forall_cons_iff. intuition congruence.
Qed.

(** ** Chains of checks *)

Lemma reject_ok {A E} (b : bool) (e : E) (k : result A E) x :
  (if b then Err e else k) = Ok x <-> b = false /\ k = Ok x.
Proof. destruct b; naive_solver. Qed.

Lemma bind_ok {A E} (p : result unit E) (k : unit -> result A E) x :
  result_bind p k = Ok x <-> p = Ok tt /\ k tt = Ok x.
Proof. destruct p as [[]|]; naive_solver. Qed.
