(* ===== verification/Text.v ===== *)
(** Rust's [str] as far as the hub's record files use it: a string is the list of
    its Unicode scalar values, with the splitting, trimming, parsing and printing
    functions of the standard library, and the round trips between them. *)

From S2P Require Import Prelude Wire.

Declare Scope text_scope.
String Notation String.string String.string_of_list_byte String.list_byte_of_string : text_scope.
Open Scope text_scope.

Definition str : Type := list Z.

(** An ASCII literal of the source. *)
Definition lit (s : String.string) : str :=
  map (fun c => Z.of_N (Ascii.N_of_ascii c)) (String.list_ascii_of_string s).
Arguments lit : simpl never.
Coercion lit : String.string >-> str.

Notation "a +++ b" := (@app Z (a : str) (b : str)) (at level 60, right associativity, only parsing).

Definition NL : Z := 10.
Definition CR : Z := 13.
Definition TAB : Z := 9.
Definition nl : str := [NL].
Definition tab : str := [TAB].

Definition str_eqb (a b : str) : bool := bool_decide (a = b).

Lemma str_eqb_spec a b : reflect (a = b) (str_eqb a b).
Proof. apply bool_decide_reflect. Qed.

Lemma str_eqb_refl a : str_eqb a a = true.
Proof. by apply bool_decide_eq_true. Qed.

(** ** Splitting *)

(** [str::split_inclusive('\n')] *)
Fixpoint split_inclusive (s : str) : list str :=
  match s with
  | [] => []
  | c :: s =>
      if c =? NL then [c] :: split_inclusive s
      else match split_inclusive s with
           | [] => [[c]]
           | l :: ls => (c :: l) :: ls
           end
  end.

(** [str::strip_suffix] and [str::strip_prefix] *)
Definition strip_suffix (c : Z) (s : str) : option str :=
  match rev s with
  | d :: r => if d =? c then Some (rev r) else None
  | [] => None
  end.

Fixpoint strip_prefix (p s : str) : option str :=
  match p, s with
  | [], _ => Some s
  | c :: p, d :: s => if c =? d then strip_prefix p s else None
  | _ :: _, [] => None
  end.

Definition starts_with (p s : str) : bool := if strip_prefix p s is Some _ then true else false.
Definition ends_with (p s : str) : bool := starts_with (rev p) (rev s).

(** [str::lines]: a line ends with a line feed or with a carriage return and a line
    feed; the last one may end with the string. *)
Definition line_of (l : str) : str :=
  match strip_suffix NL l with
  | None => l
  | Some l => match strip_suffix CR l with None => l | Some l => l end
  end.

Definition lines (s : str) : list str := map line_of (split_inclusive s).

(** [str::split_once(c)] *)
Fixpoint split_once (c : Z) (s : str) : option (str * str) :=
  match s with
  | [] => None
  | d :: s =>
      if d =? c then Some ([], s)
      else match split_once c s with
           | Some (a, b) => Some (d :: a, b)
           | None => None
           end
  end.

(** [str::split(c)]: never empty. *)
Fixpoint split (c : Z) (s : str) : list str :=
  match s with
  | [] => [[]]
  | d :: s =>
      if d =? c then [] :: split c s
      else match split c s with
           | l :: ls => (d :: l) :: ls
           | [] => [[d]]
           end
  end.

(** [str::splitn(n, c)] *)
Fixpoint splitn (n : nat) (c : Z) (s : str) : list str :=
  match n with
  | O => []
  | S O => [s]
  | S n => match split_once c s with
           | Some (a, b) => a :: splitn n c b
           | None => [s]
           end
  end.

(** [str::split_once(pattern)] for a string pattern: the first occurrence. *)
Fixpoint split_once_str (p s : str) : option (str * str) :=
  match strip_prefix p s with
  | Some rest => Some ([], rest)
  | None =>
      match s with
      | [] => None
      | d :: s =>
          match split_once_str p s with
          | Some (a, b) => Some (d :: a, b)
          | None => None
          end
      end
  end.

Definition contains (p s : str) : bool := if split_once_str p s is Some _ then true else false.

(** [char::is_whitespace]: the characters with the Unicode property White_Space. *)
Definition is_whitespace (c : Z) : bool :=
  ((9 <=? c) && (c <=? 13)) || (c =? 32) || (c =? 133) || (c =? 160) || (c =? 5760) ||
  ((8192 <=? c) && (c <=? 8202)) || (c =? 8232) || (c =? 8233) || (c =? 8239) || (c =? 8287) ||
  (c =? 12288).

Fixpoint trim_start (s : str) : str :=
  match s with
  | c :: r => if is_whitespace c then trim_start r else s
  | [] => []
  end.

Definition trim (s : str) : str := rev (trim_start (rev (trim_start s))).

(** [str::split_whitespace]: the maximal runs of other characters. *)
Fixpoint split_whitespace (s : str) : list str :=
  match s with
  | [] => []
  | c :: r =>
      if is_whitespace c then split_whitespace r
      else match r with
           | d :: _ =>
               if is_whitespace d then [c] :: split_whitespace r
               else match split_whitespace r with
                    | l :: ls => (c :: l) :: ls
                    | [] => [[c]]
                    end
           | [] => [[c]]
           end
  end.

(** What follows the last occurrence of [c]: [s.rfind(c)] and [&s[i + 1..]]. *)
Fixpoint after_last (c : Z) (s : str) : option str :=
  match s with
  | [] => None
  | d :: s =>
      match after_last c s with
      | Some rest => Some rest
      | None => if d =? c then Some s else None
      end
  end.

(** [[String]::join] *)
Fixpoint join (sep : str) (l : list str) : str :=
  match l with
  | [] => []
  | [s] => s
  | s :: l => s ++ sep ++ join sep l
  end.

(** ** Integers *)

Definition is_digit (c : Z) : bool := (48 <=? c) && (c <=? 57).

(** The digit loop of [from_str_radix(10)]: checked multiplication and addition (or
    subtraction after a minus sign), so an intermediate overflow is an error. *)
Fixpoint parse_digits (lo hi sign acc : Z) (s : str) : option Z :=
  match s with
  | [] => Some acc
  | c :: s =>
      if negb (is_digit c) then None
      else
        let m := acc * 10 in
        if (m <? lo) || (hi <? m) then None
        else
          let v := m + sign * (c - 48) in
          if (v <? lo) || (hi <? v) then None else parse_digits lo hi sign v s
  end.

(** [str::parse] for an integer type whose values are [lo .. hi]; only a signed type
    accepts a minus sign. *)
Definition parse_int (lo hi : Z) (s : str) : option Z :=
  match s with
  | [] => None
  | [c] => if (c =? 43) || (c =? 45) then None else parse_digits lo hi 1 0 s
  | c :: r =>
      if c =? 43 then parse_digits lo hi 1 0 r
      else if (c =? 45) && (lo <? 0) then parse_digits lo hi (-1) 0 r
      else parse_digits lo hi 1 0 s
  end.

Definition parse_u32 : str -> option Z := parse_int 0 (2 ^ 32 - 1).
Definition parse_u64 : str -> option Z := parse_int 0 (2 ^ 64 - 1).
Definition parse_i64 : str -> option Z := parse_int (- 2 ^ 63) (2 ^ 63 - 1).

(** [Display] of an integer. *)
Fixpoint digits (k : nat) (n : Z) : str :=
  match k with
  | O => [48 + n mod 10]
  | S k => if n <? 10 then [48 + n] else digits k (n / 10) ++ [48 + n mod 10]
  end.

Definition dec (n : Z) : str :=
  let d := digits (Z.to_nat (Z.log2 (Z.abs n))) (Z.abs n) in
  if n <? 0 then 45 :: d else d.

(** ** Lines *)

(** A value that occupies one line: no line feed, and no carriage return at its end. *)
Definition clean (s : str) : bool :=
  forallb (fun c => negb (c =? NL)) s && negb (if strip_suffix CR s is Some _ then true else false).

Lemma strip_suffix_snoc c s : strip_suffix c (s ++ [c]) = Some s.
Proof. unfold strip_suffix. rewrite rev_app_distr. cbn. by rewrite Z.eqb_refl, rev_involutive. Qed.

Lemma strip_suffix_some c s r : strip_suffix c s = Some r <-> s = r ++ [c].
Proof.
  split; [|intros ->; apply strip_suffix_snoc].
  unfold strip_suffix. destruct (rev s) as [|d l] eqn:E; [done|].
  destruct (Z.eqb_spec d c) as [->|]; [|done]. intros [= <-].
  rewrite <- (rev_involutive s), E. done.
Qed.

Lemma strip_suffix_other c d s : d <> c -> strip_suffix c (s ++ [d]) = None.
Proof.
  intros Hd. unfold strip_suffix. rewrite rev_app_distr. cbn.
  by destruct (Z.eqb_spec d c).
Qed.

Lemma split_inclusive_line l s : forallb (fun c => negb (c =? NL)) l ->
  split_inclusive (l ++ NL :: s) = (l ++ [NL]) :: split_inclusive s.
Proof.
  induction l as [|c l IH]; cbn; [done|].
  destruct (Z.eqb_spec c NL); [done|]. cbn. intros H. by rewrite IH.
Qed.

Lemma lines_cons l s : clean l -> lines (l ++ NL :: s) = l :: lines s.
Proof.
  unfold clean. intros [Hn Hc]%andb_prop_elim. unfold lines.
  rewrite split_inclusive_line by done. cbn. f_equal. unfold line_of.
  rewrite strip_suffix_snoc. by destruct (strip_suffix CR l).
Qed.

Lemma lines_nil : lines [] = [].
Proof. done. Qed.

Lemma clean_last s : clean s -> strip_suffix CR s = None.
Proof. unfold clean. intros [_ H]%andb_prop_elim. by destruct (strip_suffix CR s). Qed.

Lemma strip_suffix_app c a b : b <> [] -> strip_suffix c (a ++ b) = match strip_suffix c b with
  | Some r => Some (a ++ r) | None => None end.
Proof.
  intros Hb. destruct (exists_last Hb) as (b' & d & ->).
  destruct (decide (d = c)) as [->|Hd].
  - by rewrite (assoc (++)), !strip_suffix_snoc.
  - by rewrite (assoc (++)), !strip_suffix_other.
Qed.

Lemma clean_app a b : clean a -> clean b -> clean (a ++ b).
Proof.
  intros Ha Hb. pose proof (clean_last _ Ha) as La. pose proof (clean_last _ Hb) as Lb.
  unfold clean in *. apply andb_prop_elim in Ha as [Ha _], Hb as [Hb _].
  rewrite forallb_app. apply andb_prop_intro. split; [by apply andb_prop_intro|].
  destruct b as [|c b].
  - rewrite app_nil_r. by rewrite La.
  - rewrite strip_suffix_app by done. by rewrite Lb.
Qed.

(** ** Keys and values *)

Lemma split_once_key c k v : Forall (fun d => d <> c) k -> split_once c (k ++ c :: v) = Some (k, v).
Proof.
  induction 1 as [|d k Hd _ IH]; cbn; [by rewrite Z.eqb_refl|].
  destruct (Z.eqb_spec d c); [done|]. by rewrite IH.
Qed.

Lemma split_once_some c s k v : split_once c s = Some (k, v) ->
  s = k ++ c :: v /\ Forall (fun d => d <> c) k.
Proof.
  revert k v. induction s as [|d s IH]; intros k v; cbn; [done|].
  destruct (Z.eqb_spec d c) as [->|Hd]; [intros [= <- <-]; done|].
  destruct (split_once c s) as [[a b]|] eqn:E; [|done]. intros [= <- <-].
  destruct (IH a b eq_refl) as [-> Ha]. by split; [|constructor].
Qed.

Lemma split_join c s : Forall (fun d => d <> c) s -> split c s = [s].
Proof.
  induction 1 as [|d s Hd _ IH]; cbn; [done|]. destruct (Z.eqb_spec d c); [done|]. by rewrite IH.
Qed.

Lemma split_cons c a s : Forall (fun d => d <> c) a -> split c (a ++ c :: s) = a :: split c s.
Proof.
  induction 1 as [|d a Hd _ IH]; cbn; [by rewrite Z.eqb_refl|].
  destruct (Z.eqb_spec d c); [done|]. by rewrite IH.
Qed.

(** ** Decimal round trip *)

Lemma parse_digits_app lo hi sign acc a b :
  parse_digits lo hi sign acc (a ++ b) =
  match parse_digits lo hi sign acc a with Some v => parse_digits lo hi sign v b | None => None end.
Proof.
  revert acc. induction a as [|c a IH]; intros acc; cbn; [done|].
  repeat case_match; try done; by rewrite IH; simplify_option_eq.
Qed.

Lemma digits_are_digits k n : 0 <= n -> Forall (fun c => 48 <= c <= 57) (digits k n).
Proof.
  revert n. induction k as [|k IH]; intros n Hn; cbn.
  - repeat constructor; dlia.
  - case_match eqn:E; [repeat constructor; lia|].
    apply Forall_app. split; [apply IH; dlia | repeat constructor; dlia].
Qed.

Lemma parse_digits_digits lo hi sign k n : (sign = 1 \/ sign = -1) -> lo <= 0 <= hi ->
  0 <= n < 10 ^ (Z.of_nat k + 1) -> lo <= sign * n <= hi ->
  parse_digits lo hi sign 0 (digits k n) = Some (sign * n).
Proof.
  intros Hs Hl. revert n. induction k as [|k IH]; intros n Hn Hr.
  - cbn in *. rewrite Z.mod_small by lia.
    unfold is_digit. replace (48 + n - 48) with n by lia.
    repeat case_match; try done; lia.
  - cbn [digits]. rewrite Nat2Z.inj_succ in Hn.
    replace (Z.succ (Z.of_nat k) + 1) with (Z.succ (Z.of_nat k + 1)) in Hn by lia.
    rewrite Z.pow_succ_r in Hn by lia.
    case_match eqn:E.
    + cbn. unfold is_digit. replace (48 + n - 48) with n by lia.
      repeat case_match; try done; lia.
    + rewrite parse_digits_app, IH by (destruct Hs as [-> | ->]; dlia).
      cbn. unfold is_digit. replace (48 + n mod 10 - 48) with (n mod 10) by lia.
      pose proof (Z.div_mod n 10 ltac:(lia)). pose proof (Z.mod_pos_bound n 10 ltac:(lia)).
      destruct Hs as [-> | ->]; repeat case_match; try (f_equal; lia); try lia; done.
Qed.

Lemma digits_length_bound n : 0 <= n -> n < 10 ^ (Z.of_nat (Z.to_nat (Z.log2 n)) + 1).
Proof.
  intros Hn. pose proof (Z.log2_nonneg n). rewrite Z2Nat.id by done.
  destruct (decide (n = 0)) as [->|H0]; [cbn; lia|].
  pose proof (Z.log2_spec n ltac:(lia)) as [_ H2].
  pose proof (Z.pow_le_mono_l 2 10 (Z.log2 n + 1) ltac:(lia)).
  replace (Z.succ (Z.log2 n)) with (Z.log2 n + 1) in H2 by lia. lia.
Qed.

Lemma digits_nonempty k n : digits k n <> [].
Proof. destruct k; cbn; [done|]. case_match; [done|]. by intros [_ ?]%app_eq_nil. Qed.

(** Parsing what [Display] prints gives the number back. *)
Lemma parse_dec lo hi n : lo <= 0 -> lo <= n <= hi -> 0 <= hi -> parse_int lo hi (dec n) = Some n.
Proof.
  intros Hl Hn Hh. unfold dec. set (d := digits _ _).
  assert (Hd : Forall (fun c => 48 <= c <= 57) d) by (apply digits_are_digits; lia).
  assert (Hne : d <> []) by apply digits_nonempty.
  assert (Hp : forall sign, (sign = 1 \/ sign = -1) -> lo <= sign * Z.abs n <= hi ->
    parse_digits lo hi sign 0 d = Some (sign * Z.abs n)).
  { intros. apply parse_digits_digits; [done | lia | | done].
    split; [lia | apply digits_length_bound; lia]. }
  clearbody d. destruct d as [|c r]; [done|]. apply Forall_cons_iff in Hd as [Hc _].
  destruct (Z.ltb_spec n 0).
  - unfold parse_int. replace (45 =? 43) with false by done. replace (45 =? 45) with true by done.
    destruct (Z.ltb_spec lo 0); [|lia]. cbn [andb]. rewrite (Hp (-1)) by lia. f_equal. lia.
  - unfold parse_int. destruct (Z.eqb_spec c 43); [lia|]. destruct (Z.eqb_spec c 45); [lia|].
    cbn [orb andb]. rewrite (Hp 1) by lia. destruct r; f_equal; lia.
Qed.

(** Printed numbers stay on their line and between their separators. *)
Lemma dec_chars n : Forall (fun c => 45 <= c <= 57) (dec n).
Proof.
  unfold dec. assert (H : Forall (fun c => 48 <= c <= 57)
    (digits (Z.to_nat (Z.log2 (Z.abs n))) (Z.abs n))) by (apply digits_are_digits; lia).
  assert (Forall (fun c => 45 <= c <= 57) (digits (Z.to_nat (Z.log2 (Z.abs n))) (Z.abs n)))
    by (eapply list.Forall_impl; [exact H | cbn; lia]).
  destruct (n <? 0); [constructor; [lia | done] | done].
Qed.

Lemma dec_avoids c n : c < 45 \/ 57 < c -> Forall (fun d => d <> c) (dec n).
Proof. intros. eapply list.Forall_impl; [apply dec_chars | cbn; lia]. Qed.

Lemma clean_dec n : clean (dec n).
Proof.
  unfold clean. apply andb_prop_intro. split.
  - apply Is_true_true, forallb_forall. intros c Hc.
    pose proof (dec_chars n) as H. rewrite list.Forall_forall in H. apply list_elem_of_In in Hc.
    specialize (H c Hc). unfold NL. destruct (Z.eqb_spec c 10); [lia | done].
  - destruct (strip_suffix CR (dec n)) as [r|] eqn:E; [|done].
    apply strip_suffix_some in E. pose proof (dec_chars n) as H. rewrite E in H.
    apply Forall_app in H as [_ H]. apply Forall_cons_iff in H as [H _]. unfold CR in H. lia.
Qed.

#[export] Hint Resolve clean_dec clean_app : pod.
