(* ===== verification/LandRecords.v ===== *)
(** The durable records of the landing lock ([landing_lock.rs]): the holder of the
    lease, its owner process, the FIFO queue and the cleanup authority of a
    supervised payload, each with the text it is stored as.

    Diagnostics are left out: an error keeps its variant and the identities in it,
    not the wording of its message. *)

From stdpp Require Import functions sorting.
From S2P Require Import Prelude Text.

(** ** Errors *)

(** The errors of the two locks of the hub.  The last three are raised by the
    validation lock only; the others are common to both. *)
Inductive LockError : Type :=
| Io
| InvalidState
| GuardTimeout
| RenewNotOwner (agent : str)
| ReleaseNotOwner (agent holder : str)
| EmptyChild
| UnboundedChildDeadline
| ProcessNotOwner (pid : Z)
| ReclaimNotProven
| CleanupQuarantined
| BadMax
| StaleBase
| RecoveryNotProven.

Definition exit_code (e : LockError) : Z :=
  match e with
  | RenewNotOwner _ | ReleaseNotOwner _ _ | ProcessNotOwner _ | ReclaimNotProven
  | CleanupQuarantined | GuardTimeout | InvalidState | StaleBase | RecoveryNotProven => 3
  | Io | EmptyChild | UnboundedChildDeadline | BadMax => 2
  end.

Definition parse_integer (value : str) : result Z LockError :=
  ok_or (parse_i64 value) InvalidState.

Definition parse_unsigned (value : str) : result Z LockError :=
  ok_or (parse_u64 value) InvalidState.

Definition required {A} (value : option A) : result A LockError := ok_or value InvalidState.

(** One [key=value] line of a record. *)
Definition key_value (k v : str) : str := k ++ 61 :: v ++ nl.

(** ** The holder of the lease *)

Module Holder.

Record LockState : Type := {
  agent : str;
  repo : option str;
  operation : option str;
  pending_mutation : option str;
  pending_attempt : option str;
  pending_call_count : option Z;
  pending_call_id : option str;
  pr : str;
  host : str;
  acquired_at : Z;
  acquired_human : str;
  expires_at : Z;
  reclaimed_from : option str
}.

(** The local variables of [parse], by the type of their values. *)
Inductive text_field : Type :=
| Agent | Repo | Operation | PendingMutation | PendingAttempt | PendingCallId | Pr | Host
| AcquiredHuman | ReclaimedFrom.
Inductive int_field : Type := PendingCallCount | AcquiredAt | ExpiresAt.

#[global] Instance holder_text_field_eq : EqDecision text_field.
Proof. solve_decision. Defined.
#[global] Instance holder_int_field_eq : EqDecision int_field.
Proof. solve_decision. Defined.

Record slots : Type := { texts : text_field -> option str; ints : int_field -> option Z }.
Definition no_slots : slots := {| texts := fun _ => None; ints := fun _ => None |}.
Definition set_text (f : text_field) (v : str) (s : slots) : slots :=
  {| texts := <[f := Some v]> (texts s); ints := ints s |}.
Definition set_int (f : int_field) (v : Z) (s : slots) : slots :=
  {| texts := texts s; ints := <[f := Some v]> (ints s) |}.

(** [match key { .. }] *)
Definition field (key value : str) (s : slots) : result slots LockError :=
  if str_eqb key "agent" then Ok (set_text Agent value s)
  else if str_eqb key "repo" then Ok (set_text Repo value s)
  else if str_eqb key "operation" then Ok (set_text Operation value s)
  else if str_eqb key "pending_mutation" then Ok (set_text PendingMutation value s)
  else if str_eqb key "pending_attempt" then Ok (set_text PendingAttempt value s)
  else if str_eqb key "pending_call_count" then
    let? v := parse_unsigned value in Ok (set_int PendingCallCount v s)
  else if str_eqb key "pending_call_id" then Ok (set_text PendingCallId value s)
  else if str_eqb key "pr" then Ok (set_text Pr value s)
  else if str_eqb key "host" then Ok (set_text Host value s)
  else if str_eqb key "acquired_at" then let? v := parse_integer value in Ok (set_int AcquiredAt v s)
  else if str_eqb key "acquired_human" then Ok (set_text AcquiredHuman value s)
  else if str_eqb key "expires_at" then let? v := parse_integer value in Ok (set_int ExpiresAt v s)
  else if str_eqb key "reclaimed_from" then Ok (set_text ReclaimedFrom value s)
  else Err InvalidState.

Fixpoint parse_lines (ls : list str) (s : slots) : result slots LockError :=
  match ls with
  | [] => Ok s
  | line :: ls =>
      let? kv := ok_or (split_once 61 line) InvalidState in
      let? s := field kv.1 kv.2 s in
      parse_lines ls s
  end.

Definition parse (content : str) : result LockState LockError :=
  let? s := parse_lines (lines content) no_slots in
  let? agent := required (texts s Agent) in
  let? pr := required (texts s Pr) in
  let? host := required (texts s Host) in
  let? acquired_at := required (ints s AcquiredAt) in
  let? acquired_human := required (texts s AcquiredHuman) in
  let? expires_at := required (ints s ExpiresAt) in
  Ok {| agent := agent;
        repo := texts s Repo;
        operation := texts s Operation;
        pending_mutation := texts s PendingMutation;
        pending_attempt := texts s PendingAttempt;
        pending_call_count := ints s PendingCallCount;
        pending_call_id := texts s PendingCallId;
        pr := pr;
        host := host;
        acquired_at := acquired_at;
        acquired_human := acquired_human;
        expires_at := expires_at;
        reclaimed_from := texts s ReclaimedFrom |}.

(** [if let Some(value) = value { .. push_str(&format!("{key}={value}\n")) }] *)
Definition optional (k : str) (v : option str) : str :=
  match v with Some v => key_value k v | None => [] end.

Definition render (h : LockState) : str :=
  key_value "agent" (agent h) ++
  optional "repo" (repo h) ++
  optional "operation" (operation h) ++
  optional "pending_mutation" (pending_mutation h) ++
  optional "pending_attempt" (pending_attempt h) ++
  optional "pending_call_count" (dec <$> pending_call_count h) ++
  optional "pending_call_id" (pending_call_id h) ++
  key_value "pr" (pr h) ++
  key_value "host" (host h) ++
  key_value "acquired_at" (dec (acquired_at h)) ++
  key_value "acquired_human" (acquired_human h) ++
  key_value "expires_at" (dec (expires_at h)) ++
  optional "reclaimed_from" (reclaimed_from h).

(** The copies [renewed] makes after [new_holder]. *)
Definition carry (h fresh : LockState) : LockState :=
  {| agent := agent fresh;
     repo := repo h;
     operation := operation h;
     pending_mutation := pending_mutation h;
     pending_attempt := pending_attempt h;
     pending_call_count := pending_call_count h;
     pending_call_id := pending_call_id h;
     pr := pr fresh;
     host := host fresh;
     acquired_at := acquired_at fresh;
     acquired_human := acquired_human fresh;
     expires_at := expires_at fresh;
     reclaimed_from := reclaimed_from fresh |}.

End Holder.

(** ** The process that owns a supervised lease *)

Module Owner.

Record ProcessOwner : Type := { host : str; boot_id : str; pid : Z; start_ticks : Z }.

#[global] Instance ProcessOwner_eq : EqDecision ProcessOwner.
Proof. solve_decision. Defined.

(** The local variables of [parse]. *)
Record slots : Type := {
  s_host : option str; s_boot_id : option str; s_pid : option Z; s_start_ticks : option Z }.

Definition field (key value : str) (s : slots) : result slots LockError :=
  let '(Build_slots h b p t) := s in
  if str_eqb key "host" then Ok (Build_slots (Some value) b p t)
  else if str_eqb key "boot_id" then Ok (Build_slots h (Some value) p t)
  else if str_eqb key "pid" then let? v := parse_unsigned value in Ok (Build_slots h b (Some v) t)
  else if str_eqb key "start_ticks" then
    let? v := parse_unsigned value in Ok (Build_slots h b p (Some v))
  else Err InvalidState.

Fixpoint parse_lines (ls : list str) (s : slots) : result slots LockError :=
  match ls with
  | [] => Ok s
  | line :: ls =>
      let? kv := ok_or (split_once 61 line) InvalidState in
      let? s := field kv.1 kv.2 s in
      parse_lines ls s
  end.

Definition parse (content : str) : result ProcessOwner LockError :=
  let? s := parse_lines (lines content) (Build_slots None None None None) in
  let? host := required (s_host s) in
  let? boot_id := required (s_boot_id s) in
  let? pid := required (s_pid s) in
  reject 2 ^ 32 <=? pid with InvalidState ;;
  let? start_ticks := required (s_start_ticks s) in
  Ok {| host := host; boot_id := boot_id; pid := pid; start_ticks := start_ticks |}.

Definition render (o : ProcessOwner) : str :=
  key_value "host" (host o) ++ key_value "boot_id" (boot_id o) ++ key_value "pid" (dec (pid o)) ++
  key_value "start_ticks" (dec (start_ticks o)).

End Owner.

(** ** The queue *)

Module Queue.

Record QueueEntry : Type := { enqueued_at : Z; agent : str; pr : str }.

Definition parse (line : str) : result QueueEntry LockError :=
  match split TAB line with
  | [t; a; p] => let? at_ := parse_integer t in Ok {| enqueued_at := at_; agent := a; pr := p |}
  | _ => Err InvalidState
  end.

Definition render (e : QueueEntry) : str :=
  dec (enqueued_at e) ++ tab ++ agent e ++ tab ++ pr e ++ nl.

(** [collect::<Result<Vec<_>, _>>()] *)
Fixpoint parse_all (ls : list str) : result (list QueueEntry) LockError :=
  match ls with
  | [] => Ok []
  | l :: ls => let? e := parse l in let? es := parse_all ls in Ok (e :: es)
  end.

(** The text of [read_queue]. *)
Definition parse_content (content : str) : result (list QueueEntry) LockError :=
  parse_all (filter (fun l => l <> []) (lines content)).

(** The text of [write_queue]. *)
Definition render_content (q : list QueueEntry) : str := concat (map render q).

End Queue.

(** ** The cleanup authority of a supervised payload *)

Module Cleanup.

Record ProcessIdentity : Type := { pid : Z; start_ticks : Z }.

#[global] Instance ProcessIdentity_eq : EqDecision ProcessIdentity.
Proof. solve_decision. Defined.

(** The derived order: by pid, then by start time. *)
Definition identity_le (a b : ProcessIdentity) : Prop :=
  pid a < pid b \/ pid a = pid b /\ start_ticks a <= start_ticks b.

#[global] Instance identity_le_dec : RelDecision identity_le.
Proof. intros a b. unfold identity_le. apply _. Defined.

Inductive CleanupPhase : Type :=
| Armed
| Published (leader : ProcessIdentity) (pgid : Z)
| CensusPending (leader : ProcessIdentity) (pgid : Z)
| Residual (pgid : Z) (domain_complete : bool) (residuals : list ProcessIdentity).

Record CleanupRecord : Type := {
  agent : str;
  operation : str;
  host : str;
  boot_id : str;
  phase : CleanupPhase;
  cgroup : option str
}.

(** The messages of [parse], without their wording. *)
Inductive RecordError : Type :=
| NotKeyValue
| UnknownField
| DuplicateField
| InvalidIdentity
| InvalidPgid
| InvalidDomainComplete
| CgroupOnVersion2
| UnsupportedVersion
| IncompatibleFields
| MissingField.

Definition set_once {A} (slot : option A) (value : A) : result (option A) RecordError :=
  match slot with
  | Some _ => Err DuplicateField
  | None => Ok (Some value)
  end.

Definition parse_process_identity (value : str) : result ProcessIdentity RecordError :=
  let? pt := ok_or (split_once 58 value) InvalidIdentity in
  let? p := ok_or (parse_u32 pt.1) InvalidIdentity in
  let? t := ok_or (parse_u64 pt.2) InvalidIdentity in
  Ok {| pid := p; start_ticks := t |}.

Inductive text_field : Type := Version | Agent | Operation | Host | BootId | Phase | Cgroup.

#[global] Instance cleanup_text_field_eq : EqDecision text_field.
Proof. solve_decision. Defined.

(** The local variables of [parse]. *)
Record slots : Type := {
  texts : text_field -> option str;
  leader : option ProcessIdentity;
  s_pgid : option Z;
  s_domain_complete : option bool;
  s_residuals : list ProcessIdentity
}.

Definition no_slots : slots :=
  {| texts := fun _ => None; leader := None; s_pgid := None; s_domain_complete := None;
     s_residuals := [] |}.

Definition set_text (f : text_field) (v : str) (s : slots) : result slots RecordError :=
  let '(Build_slots t l g d r) := s in
  let? o := set_once (t f) v in Ok (Build_slots (<[f := o]> t) l g d r).

Definition field (key value : str) (s : slots) : result slots RecordError :=
  let '(Build_slots t l g d r) := s in
  if str_eqb key "version" then set_text Version value s
  else if str_eqb key "agent" then set_text Agent value s
  else if str_eqb key "operation" then set_text Operation value s
  else if str_eqb key "host" then set_text Host value s
  else if str_eqb key "boot_id" then set_text BootId value s
  else if str_eqb key "phase" then set_text Phase value s
  else if str_eqb key "leader" then
    let? identity := parse_process_identity value in
    let? l := set_once l identity in Ok (Build_slots t l g d r)
  else if str_eqb key "pgid" then
    let? v := ok_or (parse_u32 value) InvalidPgid in
    let? g := set_once g v in Ok (Build_slots t l g d r)
  else if str_eqb key "domain_complete" then
    let? parsed := (if str_eqb value "true" then Ok true
                    else if str_eqb value "false" then Ok false
                    else Err InvalidDomainComplete) in
    let? d := set_once d parsed in Ok (Build_slots t l g d r)
  else if str_eqb key "residual" then
    let? identity := parse_process_identity value in
    Ok (Build_slots t l g d (r ++ [identity]))
  else if str_eqb key "cgroup" then set_text Cgroup value s
  else Err UnknownField.

Fixpoint parse_lines (ls : list str) (s : slots) : result slots RecordError :=
  match ls with
  | [] => Ok s
  | line :: ls =>
      let? kv := ok_or (split_once 61 line) NotKeyValue in
      let? s := field kv.1 kv.2 s in
      parse_lines ls s
  end.

(** [Vec::dedup]: of equal neighbours the first stays. *)
Fixpoint dedup (l : list ProcessIdentity) : list ProcessIdentity :=
  match l with
  | a :: (b :: _) as tl => if decide (a = b) then dedup tl else a :: dedup tl
  | _ => l
  end.

(** [residuals.sort(); residuals.dedup();] *)
Definition normalize (l : list ProcessIdentity) : list ProcessIdentity :=
  dedup (merge_sort identity_le l).

Definition check_version (version cgroup : option str) : result () RecordError :=
  match version with
  | Some v =>
      if str_eqb v "2" then if cgroup is Some _ then Err CgroupOnVersion2 else Ok ()
      else if str_eqb v "3" then Ok ()
      else Err UnsupportedVersion
  | None => Err UnsupportedVersion
  end.

(** The [match] that builds the phase. *)
Definition build_phase (phase : option str) (leader : option ProcessIdentity) (pgid : option Z)
    (domain_complete : option bool) (residuals : list ProcessIdentity) :
    result CleanupPhase RecordError :=
  let bare := match domain_complete, residuals with None, [] => true | _, _ => false end in
  match phase with
  | Some v =>
      if str_eqb v "armed" && bare &&
         match leader, pgid with None, None => true | _, _ => false end then Ok Armed
      else if str_eqb v "published" && bare then
        let? leader := ok_or leader MissingField in
        let? pgid := ok_or pgid MissingField in
        Ok (Published leader pgid)
      else if str_eqb v "census-pending" && bare then
        let? leader := ok_or leader MissingField in
        let? pgid := ok_or pgid MissingField in
        Ok (CensusPending leader pgid)
      else if str_eqb v "residual" && match leader with None => true | Some _ => false end then
        let? pgid := ok_or pgid MissingField in
        let? domain_complete := ok_or domain_complete MissingField in
        Ok (Residual pgid domain_complete residuals)
      else Err IncompatibleFields
  | None => Err MissingField
  end.

Definition parse (content : str) : result CleanupRecord RecordError :=
  let? s := parse_lines (lines content) no_slots in
  let? _ := check_version (texts s Version) (texts s Cgroup) in
  let residuals := normalize (s_residuals s) in
  let? phase := build_phase (texts s Phase) (leader s) (s_pgid s) (s_domain_complete s) residuals in
  let? agent := ok_or (texts s Agent) MissingField in
  let? operation := ok_or (texts s Operation) MissingField in
  let? host := ok_or (texts s Host) MissingField in
  let? boot_id := ok_or (texts s BootId) MissingField in
  Ok {| agent := agent; operation := operation; host := host; boot_id := boot_id;
        phase := phase; cgroup := texts s Cgroup |}.

Definition render_identity (i : ProcessIdentity) : str :=
  dec (pid i) ++ 58 :: dec (start_ticks i).

Definition render_phase (p : CleanupPhase) : str :=
  match p with
  | Armed => key_value "phase" "armed"
  | Published leader pgid =>
      key_value "phase" "published" ++ key_value "leader" (render_identity leader) ++
      key_value "pgid" (dec pgid)
  | CensusPending leader pgid =>
      key_value "phase" "census-pending" ++ key_value "leader" (render_identity leader) ++
      key_value "pgid" (dec pgid)
  | Residual pgid domain_complete residuals =>
      key_value "phase" "residual" ++ key_value "pgid" (dec pgid) ++
      key_value "domain_complete" (if domain_complete then "true" else "false") ++
      concat (map (fun i => key_value "residual" (render_identity i)) residuals)
  end.

Definition render (r : CleanupRecord) : str :=
  key_value "version" (dec (match cgroup r with Some _ => 3 | None => 2 end)) ++
  key_value "agent" (agent r) ++
  key_value "operation" (operation r) ++
  key_value "host" (host r) ++
  key_value "boot_id" (boot_id r) ++
  match cgroup r with Some c => key_value "cgroup" c | None => [] end ++
  render_phase (phase r).

End Cleanup.
