(* ===== verification/LandRecordsCorrect.v ===== *)
(** The records of the landing lock are read back as they were written. *)

From stdpp Require Import functions sorting.
From S2P Require Import Prelude Text LandRecords.

(** ** One line at a time *)

(** A key of a record: it stays on its line and contains no equals sign. *)
Definition keyed (k : str) : bool := clean k && forallb (fun c => negb (c =? 61)) k.

Lemma keyed_split k v : keyed k -> split_once 61 (k ++ 61 :: v) = Some (k, v).
Proof.
  unfold keyed. intros [_ H]%andb_prop_elim. apply split_once_key, list.Forall_forall.
  intros c Hc ->. apply Is_true_true, forallb_forall with (x := 61) in H; [done|].
  by apply list_elem_of_In.
Qed.

Lemma lines_key_value k v s : keyed k -> clean v ->
  lines (key_value k v ++ s) = (k ++ 61 :: v) :: lines s.
Proof.
  unfold keyed. intros [Hk _]%andb_prop_elim Hv. unfold key_value, nl.
  replace ((k ++ 61 :: v ++ [NL]) ++ s) with ((k ++ [61] ++ v) ++ NL :: s)
    by (cbn; rewrite <- !(assoc (++)); cbn; by rewrite <- (assoc (++))).
  rewrite lines_cons; [done|]. apply clean_app; [done|]. by apply clean_app.
Qed.

(** Decide the comparisons of two literals. *)
Ltac keys :=
  repeat match goal with
  | |- context [str_eqb (lit ?a) (lit ?b)] =>
      let v := eval vm_compute in (str_eqb (lit a) (lit b)) in
      change (str_eqb (lit a) (lit b)) with v
  end; cbn [result_bind ok_or andb].

Definition clean_opt (v : option str) : bool := match v with Some v => clean v | None => true end.

(** ** The holder *)

Definition i64 (x : Z) : Prop := - 2 ^ 63 <= x <= 2 ^ 63 - 1.

Lemma parse_integer_dec x : i64 x -> parse_integer (dec x) = Ok x.
Proof. intros H. unfold parse_integer, parse_i64. rewrite parse_dec; [done | lia | exact H | lia]. Qed.

Lemma parse_unsigned_dec x : in_width 64 x -> parse_unsigned (dec x) = Ok x.
Proof.
  intros H. unfold parse_unsigned, parse_u64. unfold in_width in H. rewrite parse_dec; [done | lia..].
Qed.

Module HolderCodec.
Import Holder.

(** A holder whose fields each fit on a line and whose integers have their width. *)
Record wf (h : LockState) : Prop := {
  wf_agent : clean (agent h);
  wf_repo : clean_opt (repo h);
  wf_operation : clean_opt (operation h);
  wf_mutation : clean_opt (pending_mutation h);
  wf_attempt : clean_opt (pending_attempt h);
  wf_count : from_option (in_width 64) True (pending_call_count h);
  wf_call : clean_opt (pending_call_id h);
  wf_pr : clean (pr h);
  wf_host : clean (host h);
  wf_acquired : i64 (acquired_at h);
  wf_human : clean (acquired_human h);
  wf_expires : i64 (expires_at h);
  wf_reclaimed : clean_opt (reclaimed_from h)
}.

Lemma holder_line k v rest s : keyed k -> clean v ->
  parse_lines (lines (key_value k v ++ rest)) s =
  result_bind (field k v s) (parse_lines (lines rest)).
Proof.
  intros Hk Hv. rewrite lines_key_value by done. cbn [parse_lines].
  rewrite keyed_split by done. done.
Qed.

Lemma holder_optional k v f rest s : keyed k -> clean_opt v ->
  (forall v s, field k v s = Ok (set_text f v s)) ->
  parse_lines (lines (optional k v ++ rest)) s =
  parse_lines (lines rest) (match v with Some v => set_text f v s | None => s end).
Proof.
  intros Hk Hv Hf. destruct v as [v|]; cbn [optional]; [|done].
  by rewrite holder_line, Hf by done.
Qed.

Lemma holder_count c rest s : from_option (in_width 64) True c ->
  parse_lines (lines (optional "pending_call_count" (dec <$> c) ++ rest)) s =
  parse_lines (lines rest) (match c with Some v => set_int PendingCallCount v s | None => s end).
Proof.
  intros Hc. destruct c as [c|]; cbn [optional fmap option_fmap option_map]; [|done].
  rewrite holder_line by (done || apply clean_dec). unfold field. keys.
  by rewrite parse_unsigned_dec.
Qed.

Lemma holder_int k f x rest s : keyed k -> i64 x ->
  (forall v s, field k v s = let? v := parse_integer v in Ok (set_int f v s)) ->
  parse_lines (lines (key_value k (dec x) ++ rest)) s = parse_lines (lines rest) (set_int f x s).
Proof.
  intros Hk Hx Hf. rewrite holder_line by (done || apply clean_dec).
  by rewrite Hf, parse_integer_dec.
Qed.

Lemma parse_render_holder h : wf h -> parse (render h) = Ok h.
Proof.
  intros []. destruct h as [a rp op pm pa pc pi p ho aa ah ex rf]; cbn [agent repo operation
    pending_mutation pending_attempt pending_call_count pending_call_id pr host acquired_at
    acquired_human expires_at reclaimed_from] in *.
  unfold parse, render. cbn [agent repo operation pending_mutation pending_attempt
    pending_call_count pending_call_id pr host acquired_at acquired_human expires_at
    reclaimed_from].
  rewrite <- (app_nil_r (optional "reclaimed_from" rf)).
  rewrite (holder_optional "agent" (Some a) Agent) by done.
  rewrite (holder_optional "repo" rp Repo) by done.
  rewrite (holder_optional "operation" op Operation) by done.
  rewrite (holder_optional "pending_mutation" pm PendingMutation) by done.
  rewrite (holder_optional "pending_attempt" pa PendingAttempt) by done.
  rewrite holder_count by done.
  rewrite (holder_optional "pending_call_id" pi PendingCallId) by done.
  rewrite (holder_optional "pr" (Some p) Pr) by done.
  rewrite (holder_optional "host" (Some ho) Host) by done.
  rewrite (holder_int "acquired_at" AcquiredAt) by done.
  rewrite (holder_optional "acquired_human" (Some ah) AcquiredHuman) by done.
  rewrite (holder_int "expires_at" ExpiresAt) by done.
  rewrite (holder_optional "reclaimed_from" rf ReclaimedFrom) by done.
  destruct rp, op, pm, pa, pc, pi, rf; reflexivity.
Qed.

End HolderCodec.

(** ** The owner process *)

Module OwnerCodec.
Import Owner.

Record wf (o : ProcessOwner) : Prop := {
  wf_host : clean (host o);
  wf_boot : clean (boot_id o);
  wf_pid : in_width 32 (pid o);
  wf_ticks : in_width 64 (start_ticks o)
}.

Lemma owner_line k v rest s : keyed k -> clean v ->
  parse_lines (lines (key_value k v ++ rest)) s =
  result_bind (field k v s) (parse_lines (lines rest)).
Proof.
  intros Hk Hv. rewrite lines_key_value by done. cbn [parse_lines].
  rewrite keyed_split by done. done.
Qed.

Lemma parse_render_owner o : wf o -> parse (render o) = Ok o.
Proof.
  intros [Hh Hb Hp Ht]. destruct o as [h b p t]; cbn [host boot_id pid start_ticks] in *.
  unfold parse, render; cbn [host boot_id pid start_ticks].
  rewrite <- (app_nil_r (key_value "start_ticks" (dec t))).
  do 2 (rewrite owner_line by done; unfold field at 1; keys).
  rewrite owner_line by (done || apply clean_dec). unfold field at 1. keys.
  unfold in_width in *. rewrite parse_unsigned_dec by (unfold in_width; lia). cbn [result_bind].
  rewrite owner_line by (done || apply clean_dec). unfold field at 1. keys.
  rewrite parse_unsigned_dec by done.
  cbn [result_bind lines split_inclusive map parse_lines required ok_or s_host s_boot_id s_pid
    s_start_ticks].
  destruct (Z.leb_spec (2 ^ 32) p); [lia | done].
Qed.

End OwnerCodec.

(** ** The queue *)

Module QueueCodec.
Import Queue.

(** A field between two tabs. *)
Definition cell (s : str) : bool := clean s && forallb (fun c => negb (c =? TAB)) s.

Record wf (e : QueueEntry) : Prop := {
  wf_time : i64 (enqueued_at e);
  wf_agent : cell (agent e);
  wf_pr : cell (pr e)
}.

Lemma cell_avoids s : cell s -> Forall (fun c => c <> TAB) s.
Proof.
  unfold cell. intros [_ H]%andb_prop_elim. apply list.Forall_forall. intros c Hc ->.
  apply Is_true_true, forallb_forall with (x := TAB) in H; [done|]. by apply list_elem_of_In.
Qed.

Lemma cell_clean s : cell s -> clean s.
Proof. unfold cell. by intros [? _]%andb_prop_elim. Qed.

(** The line of an entry, without its line feed. *)
Definition entry_line (e : QueueEntry) : str := dec (enqueued_at e) ++ TAB :: agent e ++ TAB :: pr e.

Lemma parse_entry_line e : wf e -> parse (entry_line e) = Ok e.
Proof.
  intros [Ht Ha Hp]. unfold parse, entry_line.
  rewrite split_cons by (apply dec_avoids; unfold TAB; lia).
  rewrite split_cons by (by apply cell_avoids). rewrite split_join by (by apply cell_avoids).
  rewrite parse_integer_dec by done. by destruct e.
Qed.

Lemma render_entry_line e s : render e ++ s = entry_line e ++ NL :: s.
Proof.
  unfold render, entry_line, tab, nl. repeat (rewrite <- (assoc (++)); cbn [app]). done.
Qed.

Lemma clean_entry_line e : wf e -> clean (entry_line e).
Proof.
  intros [_ Ha Hp]. unfold entry_line.
  apply clean_app; [apply clean_dec|]. apply (clean_app [TAB]); [done|].
  apply clean_app; [by apply cell_clean|]. apply (clean_app [TAB]); [done | by apply cell_clean].
Qed.

Lemma entry_line_nonempty e : entry_line e <> [].
Proof. unfold entry_line. intros [_ ?]%app_eq_nil. done. Qed.

Lemma parse_render_queue q : Forall wf q -> parse_content (render_content q) = Ok q.
Proof.
  unfold parse_content, render_content. induction 1 as [|e q He _ IH]; [done|].
  cbn [map concat]. rewrite render_entry_line, lines_cons by (by apply clean_entry_line).
  rewrite filter_cons_True by apply entry_line_nonempty. cbn [parse_all].
  rewrite parse_entry_line by done. cbn [result_bind]. unfold str in *. by rewrite IH.
Qed.

End QueueCodec.

(** ** The cleanup record *)

Module CleanupCodec.
Import Cleanup.

Definition wf_identity (i : ProcessIdentity) : Prop :=
  in_width 32 (pid i) /\ in_width 64 (start_ticks i).

(** Residual identities are kept in strictly ascending order. *)
Definition identity_lt (a b : ProcessIdentity) : Prop := identity_le a b /\ a <> b.

Definition wf_phase (p : CleanupPhase) : Prop :=
  match p with
  | Armed => True
  | Published leader pgid | CensusPending leader pgid => wf_identity leader /\ in_width 32 pgid
  | Residual pgid _ residuals =>
      in_width 32 pgid /\ Forall wf_identity residuals /\ StronglySorted identity_lt residuals
  end.

Record wf (r : CleanupRecord) : Prop := {
  wf_agent : clean (agent r);
  wf_operation : clean (operation r);
  wf_host : clean (host r);
  wf_boot : clean (boot_id r);
  wf_phase_ok : wf_phase (phase r);
  wf_cgroup : clean_opt (cgroup r)
}.

#[global] Instance identity_le_trans : Transitive identity_le.
Proof. intros a b c. unfold identity_le. lia. Qed.
#[global] Instance identity_le_total : Total identity_le.
Proof. intros a b. unfold identity_le. lia. Qed.
#[global] Instance identity_le_antisymm : AntiSymm (=) identity_le.
Proof.
  intros [p t] [p' t']. unfold identity_le; cbn. intros. f_equal; lia.
Qed.

Lemma dedup_sorted l : StronglySorted identity_lt l -> dedup l = l.
Proof.
  induction 1 as [|a l Hs IH Hf]; [done|]. destruct l as [|b l]; [done|].
  apply Forall_cons_iff in Hf as [[_ Hab] _]. cbn [dedup] in *. rewrite decide_False by done.
  by rewrite IH.
Qed.

Lemma normalize_sorted l : StronglySorted identity_lt l -> normalize l = l.
Proof.
  intros Hs. unfold normalize. rewrite <- (dedup_sorted l Hs) at 2. f_equal.
  eapply (StronglySorted_unique identity_le).
  - apply StronglySorted_merge_sort; apply _.
  - clear -Hs. induction Hs as [|a l Hs IH Hf]; constructor; [done|].
    eapply list.Forall_impl; [exact Hf | by intros b [? _]].
  - apply merge_sort_Permutation.
Qed.

Lemma parse_render_identity i : wf_identity i -> parse_process_identity (render_identity i) = Ok i.
Proof.
  intros [Hp Ht]. unfold in_width in *. unfold parse_process_identity, render_identity.
  rewrite split_once_key by (apply dec_avoids; lia). cbn [ok_or result_bind fst snd].
  unfold parse_u32, parse_u64. rewrite !parse_dec by lia. by destruct i.
Qed.

Lemma clean_identity i : clean (render_identity i).
Proof. unfold render_identity. apply clean_app; [apply clean_dec|]. apply (clean_app [58]); [done | apply clean_dec]. Qed.

Lemma cleanup_line k v rest s : keyed k -> clean v ->
  parse_lines (lines (key_value k v ++ rest)) s =
  result_bind (field k v s) (parse_lines (lines rest)).
Proof.
  intros Hk Hv. rewrite lines_key_value by done. cbn [parse_lines].
  rewrite keyed_split by done. done.
Qed.

Lemma residual_lines t l g d r rs : Forall wf_identity rs ->
  parse_lines (lines (concat (map (fun i => key_value "residual" (render_identity i)) rs)))
    (Build_slots t l g d r) = Ok (Build_slots t l g d (r ++ rs)).
Proof.
  intros Hrs. revert r. induction Hrs as [|i rs Hi _ IH]; intros r; cbn [map concat].
  - by rewrite app_nil_r.
  - rewrite cleanup_line by (done || apply clean_identity). unfold field at 1. keys.
    rewrite parse_render_identity by done. cbn [result_bind]. rewrite IH.
    by rewrite <- (assoc (++)).
Qed.

(** The slots a phase fills, in the order [render] prints them. *)
Definition phase_slots (t : text_field -> option str) (p : CleanupPhase) : slots :=
  match p with
  | Armed => Build_slots (<[Phase := Some (lit "armed")]> t) None None None []
  | Published leader pgid =>
      Build_slots (<[Phase := Some (lit "published")]> t) (Some leader) (Some pgid) None []
  | CensusPending leader pgid =>
      Build_slots (<[Phase := Some (lit "census-pending")]> t) (Some leader) (Some pgid) None []
  | Residual pgid complete residuals =>
      Build_slots (<[Phase := Some (lit "residual")]> t) None (Some pgid) (Some complete) residuals
  end.

Lemma phase_lines t p : wf_phase p -> t Phase = None ->
  parse_lines (lines (render_phase p)) (Build_slots t None None None []) = Ok (phase_slots t p).
Proof.
  intros Hp Ht. destruct p as [|l g|l g|g d rs]; cbn [render_phase wf_phase] in *.
  - rewrite <- (app_nil_r (key_value _ _)), cleanup_line by done.
    unfold field. keys. unfold set_text. by rewrite Ht.
  - destruct Hp as [Hl Hg]. rewrite <- (app_nil_r (key_value "pgid" _)).
    rewrite cleanup_line by done. unfold field at 1. keys. unfold set_text. rewrite Ht.
    cbn [set_once result_bind].
    rewrite cleanup_line by (done || apply clean_identity). unfold field at 1. keys.
    rewrite parse_render_identity by done. cbn [set_once result_bind].
    rewrite cleanup_line by (done || apply clean_dec). unfold field at 1. keys.
    unfold parse_u32, in_width in *. rewrite parse_dec by lia. done.
  - destruct Hp as [Hl Hg]. rewrite <- (app_nil_r (key_value "pgid" _)).
    rewrite cleanup_line by done. unfold field at 1. keys. unfold set_text. rewrite Ht.
    cbn [set_once result_bind].
    rewrite cleanup_line by (done || apply clean_identity). unfold field at 1. keys.
    rewrite parse_render_identity by done. cbn [set_once result_bind].
    rewrite cleanup_line by (done || apply clean_dec). unfold field at 1. keys.
    unfold parse_u32, in_width in *. rewrite parse_dec by lia. done.
  - destruct Hp as (Hg & Hrs & _).
    rewrite cleanup_line by done. unfold field at 1. keys. unfold set_text. rewrite Ht.
    cbn [set_once result_bind].
    rewrite cleanup_line by (done || apply clean_dec). unfold field at 1. keys.
    unfold parse_u32, in_width in *. rewrite parse_dec by lia. cbn [ok_or set_once result_bind].
    rewrite cleanup_line by (done || by destruct d). unfold field at 1. keys.
    replace (if str_eqb (if d then "true" else "false") "true" then Ok true
             else if str_eqb (if d then "true" else "false") "false" then Ok false
                  else Err InvalidDomainComplete) with (Ok (E := RecordError) d) by (by destruct d).
    cbn [set_once result_bind]. by rewrite residual_lines.
Qed.

Lemma build_phase_slots t p : wf_phase p ->
  let s := phase_slots t p in
  build_phase (texts s Phase) (leader s) (s_pgid s) (s_domain_complete s) (normalize (s_residuals s))
  = Ok p.
Proof.
  intros Hp. destruct p as [|l g|l g|g d rs]; cbn [phase_slots texts leader s_pgid s_domain_complete
    s_residuals]; rewrite fn_lookup_insert; try done.
  destruct Hp as (_ & _ & Hs). rewrite normalize_sorted by done.
  unfold build_phase. keys. done.
Qed.

Lemma phase_slots_texts t p f : f <> Phase -> texts (phase_slots t p) f = t f.
Proof. intros Hf. destruct p; cbn; by rewrite fn_lookup_insert_ne. Qed.

(** The lines before the phase. *)
Lemma header_lines a o h b c rest : clean a -> clean o -> clean h -> clean b -> clean_opt c ->
  exists t,
    t Version = Some (dec (match c with Some _ => 3 | None => 2 end)) /\
    t Agent = Some a /\ t Operation = Some o /\ t Host = Some h /\ t BootId = Some b /\
    t Cgroup = c /\ t Phase = None /\
    parse_lines (lines (key_value "version" (dec (match c with Some _ => 3 | None => 2 end)) ++
      key_value "agent" a ++ key_value "operation" o ++ key_value "host" h ++
      key_value "boot_id" b ++
      match c with Some c => key_value "cgroup" c | None => [] end ++ rest)) no_slots =
    parse_lines (lines rest) (Build_slots t None None None []).
Proof.
  intros Ha Ho Hh Hb Hc.
  rewrite cleanup_line by (done || apply clean_dec). unfold field at 1. keys.
  cbn [set_text no_slots set_once result_bind].
  do 4 (rewrite cleanup_line by done; unfold field at 1; keys; cbn [set_text set_once result_bind];
    rewrite ?fn_lookup_insert_ne by done; cbn [set_once result_bind]).
  destruct c as [c|]; [|eexists; split_and!; [..|reflexivity]; reflexivity].
  rewrite cleanup_line by done. unfold field at 1. keys. cbn [set_text set_once result_bind].
  rewrite ?fn_lookup_insert_ne by done. cbn [set_once result_bind].
  eexists; split_and!; [..|reflexivity]; reflexivity.
Qed.

Lemma parse_render_cleanup r : wf r -> parse (render r) = Ok r.
Proof.
  intros [Ha Ho Hh Hb Hp Hc]. destruct r as [a o h b p c]; cbn [agent operation host boot_id phase
    cgroup] in *.
  unfold parse, render; cbn [agent operation host boot_id phase cgroup].
  destruct (header_lines a o h b c (render_phase p)) as (t & Hv & Hta & Hto & Hth & Htb & Htc & Htp & ->);
    [done..|].
  rewrite phase_lines by done. cbn [result_bind].
  rewrite build_phase_slots by done. rewrite !phase_slots_texts by done.
  rewrite Hv, Hta, Hto, Hth, Htb, Htc. by destruct c.
Qed.

End CleanupCodec.

(** What the landing lock writes it reads back: holders, owner processes, queues
    and cleanup records whose fields each stay on their line, in the widths of the
    source and with residual identities in ascending order, parse from their rendered
    text to themselves. *)
Theorem land_records_roundtrip h o q r :
  HolderCodec.wf h -> OwnerCodec.wf o -> Forall QueueCodec.wf q -> CleanupCodec.wf r ->
  Holder.parse (Holder.render h) = Ok h /\
  Owner.parse (Owner.render o) = Ok o /\
  Queue.parse_content (Queue.render_content q) = Ok q /\
  Cleanup.parse (Cleanup.render r) = Ok r.
Proof.
  intros Hh Ho Hq Hr. split_and!.
  - by apply HolderCodec.parse_render_holder.
  - by apply OwnerCodec.parse_render_owner.
  - by apply QueueCodec.parse_render_queue.
  - by apply CleanupCodec.parse_render_cleanup.
Qed.

Definition sample_holder : Holder.LockState :=
  {| Holder.agent := "agent-7"; Holder.repo := Some (lit "hermit"); Holder.operation := None;
     Holder.pending_mutation := None; Holder.pending_attempt := None;
     Holder.pending_call_count := Some 3; Holder.pending_call_id := None; Holder.pr := "412";
     Holder.host := "box"; Holder.acquired_at := 1786000000;
     Holder.acquired_human := "2026-08-06T07:06:40+0000"; Holder.expires_at := 1786000900;
     Holder.reclaimed_from := None |}.

Definition sample_owner : Owner.ProcessOwner :=
  {| Owner.host := "box"; Owner.boot_id := "b0"; Owner.pid := 4242; Owner.start_ticks := 991 |}.

Definition sample_cleanup : Cleanup.CleanupRecord :=
  {| Cleanup.agent := "agent-7"; Cleanup.operation := "pr:412"; Cleanup.host := "box";
     Cleanup.boot_id := "b0";
     Cleanup.phase := Cleanup.Residual 4300 true
       [Cleanup.Build_ProcessIdentity 4301 995; Cleanup.Build_ProcessIdentity 4302 996];
     Cleanup.cgroup := Some (lit "/user.slice/run.scope") |}.

Lemma land_records_roundtrip_witness :
  Holder.parse (Holder.render sample_holder) = Ok sample_holder /\
  Owner.parse (Owner.render sample_owner) = Ok sample_owner /\
  Queue.parse_content (Queue.render_content [Queue.Build_QueueEntry 5 "a" "1"]) =
    Ok [Queue.Build_QueueEntry 5 "a" "1"] /\
  Cleanup.parse (Cleanup.render sample_cleanup) = Ok sample_cleanup.
Proof.
  apply land_records_roundtrip.
  - split; cbn; unfold i64, in_width; (done || lia).
  - split; cbn; unfold in_width; (done || lia).
  - constructor; [|done]. split; cbn; unfold i64; (done || lia).
  - split; try done. split; [split; cbn; lia|]. split.
    + repeat constructor; cbn; lia.
    + repeat constructor; unfold Cleanup.identity_le; cbn; (done || lia).
Defined.

(** ** Names that do not fit *)

(** Agents and pull requests are not checked.  A tab in a name makes the line of its
    queue entry unreadable, and with it the whole queue: nobody can queue up or
    acquire until the file is repaired by hand. *)
Lemma queue_poisoned_by_tab q :
  Forall QueueCodec.wf q ->
  Queue.parse_content (Queue.render_content (q ++ [Queue.Build_QueueEntry 5 [97; TAB; 98] "1"])) =
  Err InvalidState.
Proof.
  unfold Queue.parse_content, Queue.render_content. induction 1 as [|e q He _ IH]; [by vm_compute|].
  cbn [app map concat].
  rewrite QueueCodec.render_entry_line, lines_cons by (by apply QueueCodec.clean_entry_line).
  rewrite filter_cons_True by apply QueueCodec.entry_line_nonempty. cbn [Queue.parse_all].
  rewrite QueueCodec.parse_entry_line by done. cbn [result_bind]. unfold str in *. by rewrite IH.
Qed.

(** A line feed in an agent's name makes the holder file unreadable the same way. *)
Lemma holder_poisoned_by_newline :
  Holder.parse (Holder.render (Holder.Build_LockState [97; NL; 98] None None None None None None "1"
    "box" 0 "t" 9 None)) = Err InvalidState.
Proof. by vm_compute. Qed.
