(* ===== verification/LandLease.v ===== *)
(** What the locks of the hub have in common.  The landing lock and the validation
    lock are written twice in the source, over different holder records; the
    operations of [LandLock.v] are written once, over this interface, and each lock
    is an instance of it. *)

From S2P Require Import Prelude Text LandRecords.

(** The record of a holder, what a lease is taken for, and how the one states the
    other. *)
Class Lease : Type := {
  holder_state : Type;
  purpose : Type;
  holder_parse : str -> result holder_state LockError;
  holder_render : holder_state -> str;
  holder_agent : holder_state -> str;
  holder_acquired : holder_state -> Z;
  holder_expires : holder_state -> Z;
  (** the operation that the cleanup record of a run names *)
  holder_operation : holder_state -> str;
  purpose_operation : purpose -> str;
  (** the last column of the queue *)
  purpose_column : purpose -> str;
  holder_purpose : holder_state -> result purpose LockError;
  holder_is_for : holder_state -> purpose -> bool;
  (** agent, purpose, host, time of acquisition, the same for people, expiry, and from
      whom the lease was reclaimed *)
  holder_new : str -> purpose -> str -> Z -> str -> Z -> option str -> holder_state;
  (** what a renewal keeps of the old record *)
  holder_carry : holder_state -> holder_state -> holder_state;
  (** the error that refuses a census *)
  census_refusal : LockError
}.

Definition live_at {L : Lease} (h : holder_state) (now : Z) : bool := now <? holder_expires h.

(** ** The landing lock *)

(** [format!("pr:{}", pr)] *)
Definition operation_of (pr : str) : str := "pr:" +++ pr.

Definition landing : Lease := {|
  holder_state := Holder.LockState;
  purpose := str;
  holder_parse := Holder.parse;
  holder_render := Holder.render;
  holder_agent := Holder.agent;
  holder_acquired := Holder.acquired_at;
  holder_expires := Holder.expires_at;
  holder_operation := fun h => operation_of (Holder.pr h);
  purpose_operation := operation_of;
  purpose_column := fun pr => pr;
  holder_purpose := fun h => Ok (Holder.pr h);
  holder_is_for := fun h pr => str_eqb (Holder.pr h) pr;
  holder_new := fun agent pr host acquired_at acquired_human expires_at reclaimed_from =>
    {| Holder.agent := agent;
       Holder.repo := None;
       Holder.operation := None;
       Holder.pending_mutation := None;
       Holder.pending_attempt := None;
       Holder.pending_call_count := None;
       Holder.pending_call_id := None;
       Holder.pr := pr;
       Holder.host := host;
       Holder.acquired_at := acquired_at;
       Holder.acquired_human := acquired_human;
       Holder.expires_at := expires_at;
       Holder.reclaimed_from := reclaimed_from |};
  holder_carry := Holder.carry;
  census_refusal := ReclaimNotProven
|}.
