(* ===== verification/LandHost.v ===== *)
(** The host the landing lock runs on, and what it reads from it
    ([ci-hub/lib/landing_lock.rs]): clock, host and boot identity, processes and
    process groups, and the verification of a cleanup record against them.

    An operation is a program over the files and the host.  Every contact with the
    outside is an event: the [n]-th event of a process sees the environment [env_at n],
    which answers the clock, the host name, the process table, the kernel's locks,
    and says whether the event succeeds, fails or is the last one because the process
    is killed.  Failures and kills may happen at every event, before or after the
    event took effect, and a write in place may be torn.  What other processes do
    between two critical sections is the [others] of the environment; inside one
    the exclusive lock on the guard file keeps them out. *)

From stdpp Require Import gmap functions sorting.
From S2P Require Import Prelude Text LandRecords.

(** ** Files, events and programs *)

(** A file that is not valid UTF-8 cannot be read as text. *)
Inductive file : Type :=
| Text (s : str)
| Garbled.

(** Files by path; a temporary that only serves to replace another file is left out. *)
Abbreviation Disk := (gmap str file).

Inductive fault : Type :=
| Fine
| Failed (effect : bool)
| Killed (effect : bool).

Inductive flock_answer : Type := Granted | WouldBlock | LockFailed.

(** [kill(target, signal)] *)
Inductive kill_answer : Type := Delivered | ESRCH | KillFailed.

(** Reading a file of the host. *)
Inductive read_answer : Type :=
| Missing
| Unreadable
| Content (s : str).

(** [symlink_metadata] *)
Inductive stat_answer : Type := StatMissing | StatFailed | NotDirectory | Directory.

(** [read_dir]: each entry with whether it is a directory, or an error. *)
Inductive list_answer : Type :=
| ListMissing
| ListFailed
| Entries (l : list (option (str * bool))).

(** [Child::try_wait] and what follows it, for a supervised child. *)
Inductive wait_answer : Type :=
| Running
| Exited (code : option Z) (signal : option Z)
| WaitFailed.

Record Env : Type := {
  io : fault;
  torn : file;                       (* what a failed write in place leaves *)
  stat_fails : bool;                 (* an error of [stat] *)
  unix_seconds : option Z;           (* [SystemTime::now()], [None] before the epoch *)
  instant : Z;                       (* [Instant::now()] in milliseconds *)
  hostname : option str;             (* standard output of a successful [hostname -s] *)
  boot_id_file : option str;         (* [/proc/sys/kernel/random/boot_id] *)
  local_time : Z -> option str;      (* chrono's rendering of a time *)
  self_pid : Z;
  stat_file : Z -> read_answer;      (* [/proc/<pid>/stat] *)
  cgroup_file : Z -> option str;     (* [/proc/<pid>/cgroup] *)
  proc_names : option (list str);    (* [read_dir] of [/proc] *)
  kill : Z -> Z -> kill_answer;
  pidfd_open : Z -> kill_answer;
  pidfd_send_signal : Z -> Z -> kill_answer;
  flock : flock_answer;
  listing : option (list str);       (* [read_dir] of the claims directory *)
  cg_stat : str -> stat_answer;      (* the cgroup file system, by path *)
  cg_procs : str -> read_answer;
  cg_entries : str -> list_answer;
  preflight : str -> option (option Z); (* exit code of the admission check of a head *)
  spawned : option Z;                (* pid of a start-gated child that leads its group *)
  waited : wait_answer;
  signalled : Z;                     (* first termination signal of this process, or 0 *)
  others : Disk -> Disk              (* what other processes did meanwhile *)
}.

Inductive outcome (A : Type) : Type :=
| Done (a : A)
| Fail (e : LockError)
| Dead       (* the process was killed *)
| Looping.   (* a polling loop used the iterations it was given *)
Arguments Done {A} _.
Arguments Fail {A} _.
Arguments Dead {A}.
Arguments Looping {A}.

(** What a process meets: the environment of each of its events, and how many
    iterations its polling loops get before they count as still running. *)
Class World : Type := { env_at : nat -> Env; polls : nat }.

Definition M (A : Type) : Type := nat -> Disk -> outcome A * nat * Disk.

Definition ret {A} (a : A) : M A := fun t d => (Done a, t, d).
Definition throw {A} (e : LockError) : M A := fun t d => (Fail e, t, d).
Definition spin {A} : M A := fun t d => (Looping, t, d).
Definition mbind_ {A B} (m : M A) (k : A -> M B) : M B :=
  fun t d =>
    let '(o, t, d) := m t d in
    match o with
    | Done a => k a t d
    | Fail e => (Fail e, t, d)
    | Dead => (Dead, t, d)
    | Looping => (Looping, t, d)
    end.

Definition from_result {A} (r : result A LockError) : M A :=
  match r with Ok a => ret a | Err e => throw e end.
Definition from_option_ {A} (o : option A) (e : LockError) : M A :=
  match o with Some a => ret a | None => throw e end.

(** [let _ = operation] and [if let Err(error) = operation]: the failure as a value. *)
Definition attempt {A} (m : M A) : M (result A LockError) :=
  fun t d =>
    let '(o, t, d) := m t d in
    match o with
    | Done a => (Done (Ok a), t, d)
    | Fail e => (Done (Err e), t, d)
    | Dead => (Dead, t, d)
    | Looping => (Looping, t, d)
    end.

Notation "'let*' x := m 'in' k" := (mbind_ m (fun x => k))
  (at level 10, x name, m at level 99, k at level 200) : pod_scope.
Notation "'do*' m ';;' k" := (mbind_ m (fun _ => k))
  (at level 10, m at level 99, k at level 200) : pod_scope.

Section Host.
Context {W : World}.

(** ** Events *)

(** Look at the host. *)
Definition observe : M Env :=
  fun t d => (match io (env_at t) with Killed _ => Dead | _ => Done (env_at t) end, S t, d).

(** [Path::exists]: an error of the system call counts as absence. *)
Definition path_exists (p : str) : M bool :=
  fun t d =>
    match io (env_at t) with
    | Killed _ => (Dead, S t, d)
    | _ => (Done (negb (stat_fails (env_at t)) && bool_decide (is_Some (d !! p))), S t, d)
    end.

(** [fs::read_to_string] *)
Definition fs_read (p : str) : M read_answer :=
  fun t d =>
    match io (env_at t) with
    | Fine => (Done (match d !! p with
                     | None => Missing
                     | Some Garbled => Unreadable
                     | Some (Text s) => Content s
                     end), S t, d)
    | Failed _ => (Done Unreadable, S t, d)
    | Killed _ => (Dead, S t, d)
    end.

(** An event that changes the disk: by [whole] when it succeeds, by [failed] when it
    reports an error after it took effect, by [killed] when the process dies after
    it took effect. *)
Definition change (whole : Disk -> Disk) (failed killed : Env -> Disk -> Disk) : M () :=
  fun t d =>
    match io (env_at t) with
    | Fine => (Done (), S t, whole d)
    | Failed effect => (Fail Io, S t, if effect then failed (env_at t) d else d)
    | Killed effect => (Dead, S t, if effect then killed (env_at t) d else d)
    end.

Definition read_to_string (p : str) : M str :=
  let* r := fs_read p in
  match r with Content s => ret s | Missing | Unreadable => throw Io end.

(** Open with truncation, write, flush: an error may leave any part of the text. *)
Definition write_truncated (p s : str) : M () :=
  change (<[p := Text s]>) (fun e => <[p := torn e]>) (fun e => <[p := torn e]>).

(** An absent file is no error. *)
Definition remove_if_exists (p : str) : M () :=
  change (delete p) (fun _ d => d) (fun _ => delete p).

(** The temporary is renamed over the record, then the directory is synced: an error
    of the latter leaves the new record. *)
Definition write_cleanup_record (p : str) (r : Cleanup.CleanupRecord) : M () :=
  let s := Text (Cleanup.render r) in
  change (<[p := s]>) (fun _ => <[p := s]>) (fun _ => <[p := s]>).

Definition remove_cleanup_record (p : str) : M () :=
  change (delete p) (fun _ => delete p) (fun _ => delete p).

(** ** The host *)

Definition epoch_seconds : M Z :=
  let* e := observe in
  match unix_seconds e with
  | None => throw InvalidState
  | Some s => if 2 ^ 63 <=? s then throw InvalidState else ret s
  end.

Definition current_host : M str :=
  let* e := observe in
  ret (match hostname e with
       | Some out => let h := trim out in if str_eqb h [] then lit "unknown" else h
       | None => lit "unknown"
       end).

(** [read_current_boot_id] *)
Definition read_current_boot_id : M (option str) :=
  let* e := observe in ret (trim <$> boot_id_file e).

Definition current_boot_id : M str :=
  let* b := read_current_boot_id in from_option_ b Io.

(** The fields of a [stat] line: state, parent and start time. *)
Definition parse_stat (stat : str) : option (Z * Z * Z) :=
  rest ← after_last 41 stat;
  let fields := split_whitespace rest in
  state ← (first ← head fields; head first);
  parent ← fields !! 1%nat;
  start_ticks ← fields !! 19%nat;
  parent ← parse_u32 parent;
  start_ticks ← parse_u64 start_ticks;
  Some (state, parent, start_ticks).

(** The [io::Error]s of [process_stat_fields] by what callers ask: [NotFound] or not. *)
Inductive proc_answer (A : Type) : Type := Found (a : A) | NotFound | OtherError.
Arguments Found {A} _.
Arguments NotFound {A}.
Arguments OtherError {A}.

Definition process_stat_fields (pid : Z) : M (proc_answer (Z * Z * Z)) :=
  let* e := observe in
  ret (match stat_file e pid with
       | Missing => NotFound
       | Unreadable => OtherError
       | Content s => match parse_stat s with Some f => Found f | None => OtherError end
       end).

Definition process_start_ticks (pid : Z) : M (proc_answer Z) :=
  let* r := process_stat_fields pid in
  ret (match r with
       | Found (_, _, start_ticks) => Found start_ticks
       | NotFound => NotFound
       | OtherError => OtherError
       end).

(** [None] is an error. *)
Definition exact_process_liveness (i : Cleanup.ProcessIdentity) : M (option bool) :=
  let* r := process_start_ticks (Cleanup.pid i) in
  ret (match r with
       | Found t => Some (t =? Cleanup.start_ticks i)
       | NotFound => Some false
       | OtherError => None
       end).

Definition process_group_target (pgid : Z) : option Z :=
  if 2 ^ 31 <=? pgid then None else if 1 <? pgid then Some (- pgid) else None.

Inductive ProcessGroupLiveness : Type := GroupActive | GroupAbsent | GroupUnknown.

Definition process_group_liveness (pgid : Z) : M ProcessGroupLiveness :=
  match process_group_target pgid with
  | None => ret GroupUnknown
  | Some target =>
      let* e := observe in
      ret (match kill e target 0 with
           | Delivered => GroupActive
           | ESRCH => GroupAbsent
           | KillFailed => GroupUnknown
           end)
  end.

Definition process_group_exists (pgid : Z) : M bool :=
  let* l := process_group_liveness pgid in
  ret (match l with GroupAbsent => false | GroupActive | GroupUnknown => true end).

Definition current_process_owner : M Owner.ProcessOwner :=
  let* e := observe in
  let pid := self_pid e in
  let* r := process_start_ticks pid in
  match r with
  | Found start_ticks =>
      let* host := current_host in
      let* boot_id := current_boot_id in
      ret {| Owner.host := host; Owner.boot_id := boot_id; Owner.pid := pid;
             Owner.start_ticks := start_ticks |}
  | NotFound | OtherError => throw Io
  end.

(** ** Verifying a cleanup record *)

Inductive CleanupVerification : Type :=
| VNone
| VArmed (record : Cleanup.CleanupRecord)
| VActive (record : Cleanup.CleanupRecord)
| VUncensused (record : Cleanup.CleanupRecord)
| VRecoverable (record : Cleanup.CleanupRecord)
| VUnknown (record : option Cleanup.CleanupRecord).

(** The loop over residual identities: is one active, and is one unverifiable? *)
Fixpoint probe_residuals (l : list Cleanup.ProcessIdentity) (active unknown : bool) :
    M (bool * bool) :=
  match l with
  | [] => ret (active, unknown)
  | i :: l =>
      let* r := exact_process_liveness i in
      match r with
      | Some true => probe_residuals l true unknown
      | Some false => probe_residuals l active unknown
      | None => probe_residuals l active true
      end
  end.

(** The probes of a phase: the recorded identities and the process group. *)
Definition probe (l : list Cleanup.ProcessIdentity) (pgid : Z) : M (bool * bool) :=
  let* au := probe_residuals l false false in
  let* g := process_group_liveness pgid in
  ret (match g with
       | GroupActive => (true, au.2)
       | GroupAbsent => au
       | GroupUnknown => (au.1, true)
       end).

Definition verify_phase (record : Cleanup.CleanupRecord) : M CleanupVerification :=
  match Cleanup.phase record with
  | Cleanup.Armed => ret (VArmed record)
  | Cleanup.Published leader pgid | Cleanup.CensusPending leader pgid =>
      let* au := probe [leader] pgid in
      ret (if au.1 then VActive record else VUncensused record)
  | Cleanup.Residual pgid domain_complete residuals =>
      if negb domain_complete then ret (VUnknown (Some record))
      else
        let* au := probe residuals pgid in
        ret (if au.1 then VActive record
             else if au.2 then VUnknown (Some record) else VRecoverable record)
  end.

Definition verify_cleanup_record (path : str) (expected : option (str * str)) :
    M CleanupVerification :=
  let* content := fs_read path in
  match content with
  | Missing => ret VNone
  | Unreadable => ret (VUnknown None)
  | Content s =>
      match Cleanup.parse s with
      | Err _ => ret (VUnknown None)
      | Ok record =>
          match expected with
          | None => ret (VUnknown (Some record))
          | Some (agent, operation) =>
              if negb (str_eqb (Cleanup.agent record) agent) ||
                 negb (str_eqb (Cleanup.operation record) operation)
              then ret (VUnknown (Some record))
              else
                let* host := current_host in
                if str_eqb host "unknown" || negb (str_eqb (Cleanup.host record) host)
                then ret (VUnknown (Some record))
                else
                  let* boot := read_current_boot_id in
                  match boot with
                  | None => ret (VUnknown (Some record))
                  | Some boot_id =>
                      if negb (str_eqb (Cleanup.boot_id record) boot_id)
                      then ret (VRecoverable record)
                      else verify_phase record
                  end
          end
      end
  end.

End Host.

Arguments Found {A} _.
Arguments NotFound {A}.
Arguments OtherError {A}.
