(* ===== verification/LandCensus.v ===== *)
(** Taking the census of a payload's processes ([ci-hub/lib/landing_lock.rs]): the
    descendants of the supervisor, frozen until two scans agree, and, when the
    supervisor is gone, the population of the recorded control groups. *)

From stdpp Require Import gmap functions sorting.
From S2P Require Import Prelude Text LandRecords LandHost.

Definition CGROUP_MOUNT : str := "/sys/fs/cgroup".
Definition SIGSTOP : Z := 19.

(** ** Ordered sets and maps: [BTreeSet<u32>] and [BTreeMap<u32, V>] as ascending lists *)

Fixpoint bset_insert (x : Z) (l : list Z) : list Z :=
  match l with
  | [] => [x]
  | y :: r => if x <? y then x :: l else if x =? y then l else y :: bset_insert x r
  end.

Fixpoint bmap_insert {V} (k : Z) (v : V) (l : list (Z * V)) : list (Z * V) :=
  match l with
  | [] => [(k, v)]
  | (k', v') :: r =>
      if k <? k' then (k, v) :: l
      else if k =? k' then (k, v) :: r
      else (k', v') :: bmap_insert k v r
  end.

Fixpoint bmap_get {V} (k : Z) (l : list (Z * V)) : option V :=
  match l with
  | [] => None
  | (k', v) :: r => if k =? k' then Some v else bmap_get k r
  end.

Definition contains_pid (x : Z) (l : list Z) : bool := existsb (Z.eqb x) l.

(** ** Descendants of a process *)

(** Parent and start time of each process. *)
Definition table : Type := list (Z * (Z * Z)).

(** One pass over the table: a process whose parent is in the domain joins it. *)
Definition widen (processes : table) (domain : list Z) : list Z :=
  fold_left (fun domain p => if contains_pid p.2.1 domain then bset_insert p.1 domain else domain)
    processes domain.

(** [loop { .. if domain.len() == before { break } }] *)
Fixpoint widen_loop (fuel : nat) (processes : table) (domain : list Z) : option (list Z) :=
  match fuel with
  | O => None
  | S fuel =>
      let wider := widen processes domain in
      if decide (length wider = length domain) then Some wider
      else widen_loop fuel processes wider
  end.

Definition collect (processes : table) (domain : list Z) : list Cleanup.ProcessIdentity :=
  omap (fun pid => p ← bmap_get pid processes;
                   Some (Cleanup.Build_ProcessIdentity pid p.2)) domain.

(** Each pass but the last adds a process of the table, so the table bounds them. *)
Definition descendants (root_pid : Z) (processes : table) : option (list Cleanup.ProcessIdentity) :=
  domain ← widen_loop (S (length processes)) processes [root_pid];
  Some (collect processes (filter (fun p => p <> root_pid) domain)).

Section Census.
Context {W : World}.

(** The loop over [/proc]: [None] is an error. *)
Fixpoint scan_proc (names : list str) (processes : table) : M (option table) :=
  match names with
  | [] => ret (Some processes)
  | name :: names =>
      match parse_u32 name with
      | None => scan_proc names processes
      | Some pid =>
          let* r := process_stat_fields pid in
          match r with
          | Found (_, parent, start_ticks) =>
              scan_proc names (bmap_insert pid (parent, start_ticks) processes)
          | NotFound => scan_proc names processes
          | OtherError => ret None
          end
      end
  end.

Definition scan_descendants (root_pid : Z) : M (option (list Cleanup.ProcessIdentity)) :=
  let* e := observe in
  match proc_names e with
  | None => ret None
  | Some names =>
      let* processes := scan_proc names [] in
      ret (processes ← processes; descendants root_pid processes)
  end.

(** Signal a process through a pidfd taken before its identity is checked; [None] is
    an error, [Some false] says that the process is gone. *)
Definition signal_exact_process (i : Cleanup.ProcessIdentity) (signal : Z) : M (option bool) :=
  if 2 ^ 31 <=? Cleanup.pid i then ret None
  else
    let* e := observe in
    match pidfd_open e (Cleanup.pid i) with
    | ESRCH => ret (Some false)
    | KillFailed => ret None
    | Delivered =>
        let* live := exact_process_liveness i in
        match live with
        | None => ret None
        | Some false => ret (Some false)
        | Some true =>
            let* e := observe in
            ret (match pidfd_send_signal e (Cleanup.pid i) signal with
                 | Delivered => Some true
                 | ESRCH => Some false
                 | KillFailed => None
                 end)
        end
    end.

Record ResidualCapture : Type := {
  complete : bool;
  identities : list Cleanup.ProcessIdentity
}.

Fixpoint stop_all (l : list Cleanup.ProcessIdentity) (all_stopped : bool) : M bool :=
  match l with
  | [] => ret all_stopped
  | i :: l =>
      let* r := signal_exact_process i SIGSTOP in
      stop_all l (if r is Some _ then all_stopped else false)
  end.

(** ['T'], ['t'] and ['Z']: stopped, traced or a zombie. *)
Definition is_stopped (state : Z) : bool := (state =? 84) || (state =? 116) || (state =? 90).

Fixpoint check_stopped (l : list Cleanup.ProcessIdentity) (all_stopped : bool) : M bool :=
  match l with
  | [] => ret all_stopped
  | i :: l =>
      let* r := process_stat_fields (Cleanup.pid i) in
      check_stopped l
        (match r with
         | Found (state, _, start_ticks) =>
             if start_ticks =? Cleanup.start_ticks i then all_stopped && is_stopped state
             else all_stopped
         | NotFound => all_stopped
         | OtherError => false
         end)
  end.

(** [for _ in 0..4] *)
Fixpoint capture_rounds (rounds : nat) (supervisor_pid : Z) (prior : list Cleanup.ProcessIdentity) :
    M ResidualCapture :=
  match rounds with
  | O => ret {| complete := false; identities := prior |}
  | S rounds =>
      let* scanned := scan_descendants supervisor_pid in
      match scanned with
      | None => ret {| complete := false; identities := prior |}
      | Some found =>
          let* stopped := stop_all found true in
          let* stopped := check_stopped found stopped in
          if bool_decide (found = prior) && stopped
          then ret {| complete := true; identities := found |}
          else capture_rounds rounds supervisor_pid found
      end
  end.

Definition capture_and_freeze_residuals (supervisor_pid : Z) : M ResidualCapture :=
  capture_rounds 4 supervisor_pid [].

(** ** Control groups *)

(** [Empty]'s flag says that the group itself is gone. *)
Inductive CgroupCensus : Type :=
| Empty (absent : bool)
| Populated (pids : list Z)
| CensusUnknown.

(** The loop over the lines of [/proc/<pid>/cgroup]; a short line ends the search. *)
Fixpoint cgroup_line (ls : list str) : option str :=
  match ls with
  | [] => None
  | line :: ls =>
      match splitn 3 58 line with
      | [hierarchy; controllers; path] =>
          if str_eqb hierarchy "0" && str_eqb controllers [] && starts_with "/" path
          then Some path else cgroup_line ls
      | _ => None
      end
  end.

Definition process_cgroup (pid : Z) : M (option str) :=
  let* e := observe in
  ret (content ← cgroup_file e pid; cgroup_line (lines content)).

Definition payload_cgroup_anchor (leader_pid : Z) : M (option str) := process_cgroup leader_pid.

(** [PathBuf::join] of a relative name. *)
Definition join_path (p q : str) : str := p +++ "/" +++ q.

Fixpoint trim_start_matches (c : Z) (s : str) : str :=
  match s with
  | d :: r => if d =? c then trim_start_matches c r else s
  | [] => []
  end.

(** The lines of one [cgroup.procs]; [None] when a line is no pid. *)
Fixpoint parse_procs (ls : list str) (pids : list Z) : option (list Z) :=
  match ls with
  | [] => Some pids
  | line :: ls =>
      let line := trim line in
      if str_eqb line [] then parse_procs ls pids
      else pid ← parse_u32 line; parse_procs ls (pids ++ [pid])
  end.

(** The nested groups among the entries, pushed one after the other; [None] when an
    entry cannot be read. *)
Fixpoint push_directories (directory : str) (es : list (option (str * bool))) (pending : list str) :
    option (list str) :=
  match es with
  | [] => Some pending
  | None :: _ => None
  | Some (name, is_dir) :: es =>
      push_directories directory es
        (if is_dir : bool then join_path directory name :: pending else pending)
  end.

(** [Vec::dedup] after [sort_unstable]. *)
Fixpoint dedup_pids (l : list Z) : list Z :=
  match l with
  | a :: (b :: _) as tl => if a =? b then dedup_pids tl else a :: dedup_pids tl
  | _ => l
  end.

(** [while let Some(directory) = pending.pop()]: the head of [pending] is the top. *)
Fixpoint walk (fuel : nat) (pending : list str) (pids : list Z) : M CgroupCensus :=
  match pending with
  | [] =>
      let pids := dedup_pids (merge_sort Z.le pids) in
      ret (match pids with [] => Empty false | _ => Populated pids end)
  | directory :: pending =>
      match fuel with
      | O => spin
      | S fuel =>
          let* e := observe in
          match cg_procs e (join_path directory "cgroup.procs") with
          | Missing => walk fuel pending pids
          | Unreadable => ret CensusUnknown
          | Content s =>
              match parse_procs (lines s) pids with
              | None => ret CensusUnknown
              | Some pids =>
                  let* e := observe in
                  match cg_entries e directory with
                  | ListMissing => walk fuel pending pids
                  | ListFailed => ret CensusUnknown
                  | Entries es =>
                      match push_directories directory es pending with
                      | None => ret CensusUnknown
                      | Some pending => walk fuel pending pids
                      end
                  end
              end
          end
      end
  end.

Definition cgroup_population (relative : str) : M CgroupCensus :=
  if negb (starts_with "/" relative) || contains ".." relative then ret CensusUnknown
  else
    let root := join_path CGROUP_MOUNT (trim_start_matches 47 relative) in
    let* e := observe in
    match cg_stat e root with
    | StatMissing => ret (Empty true)
    | StatFailed | NotDirectory => ret CensusUnknown
    | Directory => walk polls [root] []
    end.

Definition safe_ci_slice_for (payload_cgroup : str) : option str :=
  marker ← List.find (fun segment => starts_with "user@" segment && ends_with ".service" segment)
             (split 47 payload_cgroup);
  halves ← split_once_str marker payload_cgroup;
  Some (halves.1 +++ marker +++ "/safe.slice/safe-ci.slice").

Inductive DomainEvidence : Type :=
| ProvenEmpty
| DomainPopulated
| Unproven.

Definition census_recorded_domain (cgroup : option str) : M DomainEvidence :=
  match cgroup with
  | None => ret Unproven
  | Some payload =>
      let* c := cgroup_population payload in
      match c with
      | Populated _ => ret DomainPopulated
      | CensusUnknown => ret Unproven
      | Empty _ =>
          match safe_ci_slice_for payload with
          | None => ret Unproven
          | Some safe_ci =>
              let* c := cgroup_population safe_ci in
              ret (match c with
                   | Populated _ => DomainPopulated
                   | CensusUnknown => Unproven
                   | Empty _ => ProvenEmpty
                   end)
          end
      end
  end.

End Census.

(** What the transcript calls the evidence that discharged a quarantine. *)
Inductive Disposition : Type :=
| Proven
| AttestedOverPopulated (evidence : str)
| Attested (evidence : str).

(** [None] is the refusal. *)
Definition census_disposition (domain : DomainEvidence) (attested : bool) (evidence : str) :
    option Disposition :=
  match domain with
  | ProvenEmpty => Some Proven
  | DomainPopulated =>
      if negb attested then None
      else if str_eqb (trim evidence) [] then None
      else Some (AttestedOverPopulated (trim evidence))
  | Unproven =>
      if negb attested then None
      else if str_eqb (trim evidence) [] then None
      else Some (Attested (trim evidence))
  end.

(** [<pid>:<start_ticks>] as an operator restates it. *)
Definition parse_leader_identity (value : str) : result Cleanup.ProcessIdentity LockError :=
  let? pt := ok_or (split_once 58 (trim value)) ReclaimNotProven in
  let? p := ok_or (parse_u32 pt.1) ReclaimNotProven in
  let? t := ok_or (parse_u64 pt.2) ReclaimNotProven in
  Ok {| Cleanup.pid := p; Cleanup.start_ticks := t |}.
