(* ===== verification/LandLock.v ===== *)
(** The locks of the hub ([ci-hub/lib/landing_lock.rs], repeated with another holder
    record in [validate_lock.rs]): a lease in shared files with a FIFO queue, the
    quarantine of a supervised payload that outlives its run, and the claims that make
    it visible to the other repositories of the box. *)

From stdpp Require Import gmap functions sorting.
From S2P Require Import Prelude Text LandRecords LandLease LandHost LandCensus.

Definition DEFAULT_WAIT_SECONDS : Z := 1800.
Definition DEFAULT_HOLD_SECONDS : Z := 900.
Definition POLL_SECONDS : Z := 3.
Definition GUARD_WAIT_SECONDS : Z := 30.
Definition DEFAULT_CHILD_DEADLINE_SECONDS : Z := 2160.
Definition CHILD_DEADLINE_EXIT_CODE : Z := 124.
Definition REFUSED_EXIT_CODE : Z := 1.

(** ** Paths *)

(** The anchor of the box is the file [kind] in a directory derived from the user id. *)
Class LockPaths : Type := { lock : str; anchor_dir : str; kind : str }.

Definition suffix (path s : str) : str := path ++ s.

Section Operations.
Context {W : World} {P : LockPaths} {L : Lease}.

Definition guard : str := suffix lock ".guard".
Definition queue : str := suffix lock ".queue".
Definition owner : str := suffix lock ".owner".
Definition cleanup : str := suffix lock ".cleanup-required".
Definition anchor : str := anchor_dir +++ "/" +++ kind.

(** ** Claims of the box *)

Definition box_claim_dir : str := anchor_dir +++ "/" +++ kind +++ ".claims".

Definition is_ascii_alphanumeric (c : Z) : bool :=
  is_digit c || ((65 <=? c) && (c <=? 90)) || ((97 <=? c) && (c <=? 122)).

Definition claim_name (cleanup : str) : str :=
  map (fun c => if is_ascii_alphanumeric c then c else 95) cleanup +++ ".claim".

(** An entry of the directory. *)
Definition claim_path (name : str) : str := box_claim_dir +++ "/" +++ name.

Definition box_claim_file (cleanup : str) : str := claim_path (claim_name cleanup).

(** Best effort: the directory or the file may fail. *)
Definition register_box_claim (agent operation : str) : M () :=
  let* e := observe in
  match io e with
  | Failed _ => ret ()
  | _ =>
      let* host := current_host in
      let body := key_value "version" "1" ++ key_value "cleanup" cleanup ++
                  key_value "agent" agent ++ key_value "operation" operation ++
                  key_value "host" host in
      let* _r := attempt (write_truncated (box_claim_file cleanup) body) in
      ret ()
  end.

Definition clear_box_claim : M () :=
  let* _r := attempt (remove_if_exists (box_claim_file cleanup)) in ret ().

(** The record goes first; its claim is dropped whatever comes of that. *)
Definition remove_cleanup_record_and_claim : M () :=
  let* outcome := attempt (remove_cleanup_record cleanup) in
  do* clear_box_claim ;;
  from_result outcome.

Fixpoint find_map {A B} (f : A -> option B) (l : list A) : option B :=
  match l with
  | [] => None
  | x :: l => match f x with Some y => Some y | None => find_map f l end
  end.

Definition parse_claim_cleanup (body : str) : option str :=
  find_map (strip_prefix "cleanup=") (lines body).

(** [Path::extension] of a file name: what follows its last dot, unless nothing
    precedes that dot. *)
Definition extension (name : str) : option str :=
  e ← after_last 46 name;
  if decide (length name = S (length e)) then None else Some e.

(** The loop over the entries of the claims directory: [true] when a record of
    another repository is outstanding. *)
Fixpoint foreign_claims (entries : list str) : M bool :=
  match entries with
  | [] => ret false
  | name :: entries =>
      if negb (bool_decide (extension name = Some (lit "claim"))) then foreign_claims entries
      else
        let* body := fs_read (claim_path name) in
        match body with
        | Missing | Unreadable => foreign_claims entries
        | Content body =>
            match parse_claim_cleanup body with
            | None => let* _r := attempt (remove_if_exists (claim_path name)) in foreign_claims entries
            | Some record =>
                if str_eqb record cleanup then foreign_claims entries
                else
                  let* v := verify_cleanup_record record None in
                  match v with
                  | VNone =>
                      let* _r := attempt (remove_if_exists (claim_path name)) in foreign_claims entries
                  | _ => ret true
                  end
            end
        end
  end.

Definition foreign_box_claim : M bool :=
  let* e := observe in
  match listing e with
  | None => ret false
  | Some entries => foreign_claims entries
  end.

(** ** Guarded operations *)

(** Poll a lock until it is granted or the deadline has passed. *)
Inductive flock_outcome : Type := Locked | TimedOut | FlockError.

Fixpoint flock_loop (fuel : nat) (deadline : Z) : M flock_outcome :=
  match fuel with
  | O => spin
  | S fuel =>
      let* e := observe in
      match flock e with
      | Granted => ret Locked
      | LockFailed => ret FlockError
      | WouldBlock =>
          let* e := observe in
          if deadline <=? instant e then ret TimedOut else flock_loop fuel deadline
      end
  end.

(** What the other processes have done reaches this one when it enters. *)
Definition interfere : M () := fun t d => (Done (), S t, others (env_at t) d).

(** Opening the guard and unlocking it may fail; an error of the operation goes
    before one of the unlocking. *)
Definition with_guard {A} (operation : M A) : M A :=
  let* e := observe in
  match io e with
  | Failed _ => throw Io
  | _ =>
      let* e := observe in
      let* l := flock_loop polls (instant e + GUARD_WAIT_SECONDS * 1000) in
      match l with
      | FlockError => throw Io
      | TimedOut => throw GuardTimeout
      | Locked =>
          do* interfere ;;
          let* r := attempt operation in
          let* e := observe in
          match r with
          | Err error => throw error
          | Ok value => match io e with Failed _ => throw Io | _ => ret value end
          end
      end
  end.

Definition read_holder : M (option holder_state) :=
  let* there := path_exists lock in
  if negb there then ret None
  else
    let* content := read_to_string lock in
    let* h := from_result (holder_parse content) in
    ret (Some h).

Definition read_process_owner : M (option Owner.ProcessOwner) :=
  let* there := path_exists owner in
  if negb there then ret None
  else
    let* content := read_to_string owner in
    let* o := from_result (Owner.parse content) in
    ret (Some o).

Definition write_current_process_owner : M () :=
  let* o := current_process_owner in
  write_truncated owner (Owner.render o).

Inductive OwnerLiveness : Type :=
| Alive
| DeadOwner (reason : str)
| UnknownOwner.

Definition owner_liveness : M OwnerLiveness :=
  let* o := read_process_owner in
  match o with
  | None => ret UnknownOwner
  | Some o =>
      let* host := current_host in
      if negb (str_eqb (Owner.host o) host) then ret UnknownOwner
      else
        let* boot_id := current_boot_id in
        if negb (str_eqb (Owner.boot_id o) boot_id) then
          ret (DeadOwner ("host rebooted (owner boot_id=" +++ Owner.boot_id o +++ " current=" +++
                          boot_id +++ ")"))
        else
          let* r := process_start_ticks (Owner.pid o) in
          match r with
          | Found start_ticks =>
              if start_ticks =? Owner.start_ticks o then ret Alive
              else ret (DeadOwner ("pid " +++ dec (Owner.pid o) +++
                                   " was reused (owner start_ticks=" +++
                                   dec (Owner.start_ticks o) +++ " current=" +++
                                   dec start_ticks +++ ")"))
          | NotFound => ret (DeadOwner ("pid " +++ dec (Owner.pid o) +++ " is absent"))
          | OtherError => ret UnknownOwner
          end
  end.

Definition assert_current_process_owner : M () :=
  let* o := read_process_owner in
  match o with
  | None => ret ()
  | Some o =>
      let* current := current_process_owner in
      if decide (o = current) then ret () else throw (ProcessNotOwner (Owner.pid o))
  end.

Definition write_holder (h : holder_state) : M () := write_truncated lock (holder_render h).

Definition read_queue : M (list Queue.QueueEntry) :=
  let* there := path_exists queue in
  if negb there then ret []
  else
    let* content := read_to_string queue in
    from_result (Queue.parse_content content).

(** A temporary renamed over the queue. *)
Definition write_queue (q : list Queue.QueueEntry) : M () :=
  let s := Text (Queue.render_content q) in
  change (<[queue := s]>) (fun _ d => d) (fun _ => <[queue := s]>).

Definition remove_from_queue (agent : str) : M () :=
  let* q := read_queue in
  write_queue (filter (fun e => Queue.agent e <> agent) q).

(** [hold as i64] and [saturating_add]. *)
Definition as_i64 (x : Z) : Z := if x <? 2 ^ 63 then x else x - 2 ^ 64.
Definition saturating_add_i64 (a b : Z) : Z := Z.max (- 2 ^ 63) (Z.min (2 ^ 63 - 1) (a + b)).

Definition new_holder (agent : str) (p : purpose) (hold : Z) (reclaimed_from : option str) :
    M holder_state :=
  let* acquired_at := epoch_seconds in
  let* e := observe in
  let* human := from_option_ (local_time e acquired_at) InvalidState in
  let* host := current_host in
  ret (holder_new agent p host acquired_at human
         (saturating_add_i64 acquired_at (as_i64 hold)) reclaimed_from).

Definition renewed (h : holder_state) (hold : Z) : M holder_state :=
  let* p := from_result (holder_purpose h) in
  let* fresh := new_holder (holder_agent h) p hold None in
  ret (holder_carry h fresh).

Definition cleanup_verification (holder : option holder_state) : M CleanupVerification :=
  verify_cleanup_record cleanup
    ((fun h => (holder_agent h, holder_operation h)) <$> holder).

Definition require_no_cleanup (holder : option holder_state) : M () :=
  let* v := cleanup_verification holder in
  match v with
  | VNone => ret ()
  | VArmed _ | VActive _ | VUncensused _ | VRecoverable _ | VUnknown _ =>
      throw CleanupQuarantined
  end.

(** ** The lease *)

Record AcquireArgs : Type := { a_agent : str; a_purpose : purpose; a_wait : Z; a_hold : Z }.

Inductive AcquireToken : Type :=
| Acquired
| AcquiredReclaimed (previous : str)
| Held (agent : str) (seconds_left : Z)
| WaitTurn (head : str).

(** The queue with the caller in it and without the entries older than the cutoff. *)
Definition enqueue (args : AcquireArgs) (now : Z) (q : list Queue.QueueEntry) :
    list Queue.QueueEntry :=
  let q := if existsb (fun e => str_eqb (Queue.agent e) (a_agent args)) q then q
           else q ++ [{| Queue.enqueued_at := now; Queue.agent := a_agent args;
                         Queue.pr := purpose_column (a_purpose args) |}] in
  let cutoff := now - 2 * DEFAULT_WAIT_SECONDS in
  filter (fun e => cutoff <= Queue.enqueued_at e) q.

(** The lease is free: it goes to the first in line. *)
Definition take_turn (args : AcquireArgs) (holder : option holder_state)
    (dead_owner : option str) (q : list Queue.QueueEntry) : M AcquireToken :=
  let take :=
    let reclaimed :=
      (fun h => match dead_owner with
                | Some reason => holder_agent h +++ " (dead owner: " +++ reason +++ ")"
                | None => holder_agent h
                end) <$> holder in
    let* fresh := new_holder (a_agent args) (a_purpose args) (a_hold args) reclaimed in
    do* write_holder fresh ;;
    do* remove_if_exists owner ;;
    do* write_queue (filter (fun e => Queue.agent e <> a_agent args) q) ;;
    ret (match reclaimed with
         | Some previous => if str_eqb previous [] then Acquired else AcquiredReclaimed previous
         | None => Acquired
         end) in
  match q with
  | head :: _ =>
      if negb (str_eqb (Queue.agent head) (a_agent args)) then
        do* write_queue q ;;
        ret (WaitTurn (Queue.agent head))
      else take
  | [] => take
  end.

Definition try_acquire (args : AcquireArgs) : M AcquireToken :=
  let* now := epoch_seconds in
  let* holder := read_holder in
  do* require_no_cleanup holder ;;
  let* q := read_queue in
  let q := enqueue args now q in
  let held := match holder with Some h => live_at h now | None => false end in
  let* dead_owner :=
    (if held then
       let* l := owner_liveness in
       ret (match l with DeadOwner reason => Some reason | Alive | UnknownOwner => None end)
     else ret None) in
  match holder, held, dead_owner with
  | Some h, true, None =>
      do* write_queue q ;;
      ret (Held (holder_agent h) (holder_expires h - now))
  | _, _, _ => take_turn args holder dead_owner q
  end.

(** [loop { .. thread::sleep(POLL_SECONDS) }] *)
Fixpoint acquire_loop (fuel : nat) (args : AcquireArgs) (started : Z) : M Z :=
  match fuel with
  | O => spin
  | S fuel =>
      let* token := with_guard (try_acquire args) in
      match token with
      | Acquired | AcquiredReclaimed _ => ret 0
      | Held _ _ | WaitTurn _ =>
          let* e := observe in
          if a_wait args * 1000 <=? instant e - started then
            do* with_guard (remove_from_queue (a_agent args)) ;;
            ret 1
          else
            let* _e := observe in
            acquire_loop fuel args started
      end
  end.

Definition acquire (args : AcquireArgs) : M Z :=
  let* e := observe in acquire_loop polls args (instant e).

Definition renew (agent : str) (hold : Z) : M () :=
  with_guard (
    let* holder := read_holder in
    let* h := from_option_ holder (RenewNotOwner agent) in
    do* require_no_cleanup (Some h) ;;
    if negb (str_eqb (holder_agent h) agent) then throw (RenewNotOwner agent)
    else
      do* assert_current_process_owner ;;
      let* fresh := renewed h hold in
      write_holder fresh).

(** Whether a lease was released, and who is next. *)
Definition release (agent : str) : M (bool * option str) :=
  with_guard (
    let* holder := read_holder in
    do* require_no_cleanup holder ;;
    match holder with
    | None => do* remove_if_exists owner ;; ret (false, None)
    | Some h =>
        if negb (str_eqb (holder_agent h) agent) then
          throw (ReleaseNotOwner agent (holder_agent h))
        else
          do* assert_current_process_owner ;;
          do* remove_if_exists lock ;;
          do* remove_if_exists owner ;;
          do* remove_from_queue agent ;;
          let* q := read_queue in
          ret (true, Queue.agent <$> head q)
    end).

(** ** The authority of a supervised run *)

(** [CleanupRecord::new] *)
Definition new_record (agent operation : str) (phase : Cleanup.CleanupPhase) :
    M Cleanup.CleanupRecord :=
  let* host := current_host in
  if str_eqb host "unknown" then throw Io
  else
    let* boot := read_current_boot_id in
    let* boot_id := from_option_ boot Io in
    ret {| Cleanup.agent := agent; Cleanup.operation := operation; Cleanup.host := host;
           Cleanup.boot_id := boot_id; Cleanup.phase := phase; Cleanup.cgroup := None |}.

(** The holder of the lease, when it is this operation's. *)
Definition current_operation (agent : str) (p : purpose) (none other : LockError) : M holder_state :=
  let* holder := read_holder in
  let* h := from_option_ holder none in
  if negb (str_eqb (holder_agent h) agent) || negb (holder_is_for h p) then throw other
  else ret h.

Definition arm_run (agent : str) (p : purpose) : M () :=
  let* record := new_record agent (purpose_operation p) Cleanup.Armed in
  with_guard (
    let* h := current_operation agent p InvalidState InvalidState in
    do* require_no_cleanup (Some h) ;;
    do* write_cleanup_record cleanup record ;;
    register_box_claim agent (purpose_operation p)).

Definition set_phase (r : Cleanup.CleanupRecord) (p : Cleanup.CleanupPhase)
    (cgroup : option str) : Cleanup.CleanupRecord :=
  {| Cleanup.agent := Cleanup.agent r; Cleanup.operation := Cleanup.operation r;
     Cleanup.host := Cleanup.host r; Cleanup.boot_id := Cleanup.boot_id r; Cleanup.phase := p;
     Cleanup.cgroup := match cgroup with Some c => Some c | None => Cleanup.cgroup r end |}.

Definition transition_run_cleanup (agent : str) (p : purpose) (expected : Cleanup.CleanupPhase -> bool)
    (next : Cleanup.CleanupPhase) (cgroup : option str) : M () :=
  with_guard (
    let* h := current_operation agent p InvalidState InvalidState in
    let* v := cleanup_verification (Some h) in
    match v with
    | VArmed record | VActive record | VUncensused record | VRecoverable record =>
        if negb (expected (Cleanup.phase record)) then throw InvalidState
        else write_cleanup_record cleanup (set_phase record next cgroup)
    | VNone => throw InvalidState
    | VUnknown _ => throw CleanupQuarantined
    end).

Record GatedChild : Type := { g_leader : Cleanup.ProcessIdentity; g_pgid : Z }.

Definition is_armed (p : Cleanup.CleanupPhase) : bool :=
  match p with Cleanup.Armed => true | _ => false end.
Definition is_published (p : Cleanup.CleanupPhase) : bool :=
  match p with Cleanup.Published _ _ => true | _ => false end.
Definition is_census_pending (p : Cleanup.CleanupPhase) : bool :=
  match p with Cleanup.CensusPending _ _ => true | _ => false end.

Definition publish_run (agent : str) (p : purpose) (gated : GatedChild) : M () :=
  let* cgroup := payload_cgroup_anchor (Cleanup.pid (g_leader gated)) in
  transition_run_cleanup agent p is_armed
    (Cleanup.Published (g_leader gated) (g_pgid gated)) cgroup.

Definition clear_unstarted_run (agent : str) (p : purpose) : M () :=
  with_guard (
    let* h := current_operation agent p InvalidState InvalidState in
    let* v := cleanup_verification (Some h) in
    match v with
    | VArmed _ =>
        do* assert_current_process_owner ;;
        remove_cleanup_record_and_claim
    | VNone | VActive _ | VUncensused _ | VRecoverable _ | VUnknown _ => throw InvalidState
    end).

Definition record_residuals (agent : str) (p : purpose) (pgid : Z) (capture : ResidualCapture) : M () :=
  transition_run_cleanup agent p is_census_pending
    (Cleanup.Residual pgid (complete capture) (identities capture)) None.

Definition begin_run_census (agent : str) (p : purpose) (gated : GatedChild) : M () :=
  transition_run_cleanup agent p is_published
    (Cleanup.CensusPending (g_leader gated) (g_pgid gated)) None.

Definition clear_proven_run (agent : str) (p : purpose) (pgid : Z) : M () :=
  do* record_residuals agent p pgid {| complete := true; identities := [] |} ;;
  with_guard (
    let* holder := read_holder in
    let* h := from_option_ holder InvalidState in
    let* v := cleanup_verification (Some h) in
    match v with
    | VRecoverable _ => remove_cleanup_record_and_claim
    | VNone | VArmed _ | VActive _ | VUncensused _ | VUnknown _ => throw InvalidState
    end).

(** The heartbeat of a run. *)
Definition renew_run_lease (agent : str) (p : purpose) (hold : Z) : M () :=
  with_guard (
    let* h := current_operation agent p (RenewNotOwner agent) (RenewNotOwner agent) in
    let* v := cleanup_verification (Some h) in
    match v with
    | VActive record =>
        if is_published (Cleanup.phase record) then
          do* assert_current_process_owner ;;
          let* fresh := renewed h hold in
          write_holder fresh
        else throw CleanupQuarantined
    | VNone | VArmed _ | VUncensused _ | VRecoverable _ | VUnknown _ => throw CleanupQuarantined
    end).

(** ** Recovery *)

Record CensusOrphanedDomainArgs : Type := {
  c_agent : str; c_operation : str; c_leader : str; c_pgid : Z;
  c_attest_domain_empty : bool; c_evidence : str }.

Definition census_orphaned_domain (args : CensusOrphanedDomainArgs) : M Z :=
  let* restated := from_result (parse_leader_identity (c_leader args)) in
  do* with_guard (
    let* holder := read_holder in
    let* h := from_option_ holder census_refusal in
    let* v := cleanup_verification (Some h) in
    match v with
    | VUncensused record =>
        match Cleanup.phase record with
        | Cleanup.Published leader pgid | Cleanup.CensusPending leader pgid =>
            if negb (str_eqb (Cleanup.agent record) (c_agent args)) then throw census_refusal
            else if negb (str_eqb (Cleanup.operation record) (c_operation args)) then
              throw census_refusal
            else if negb (bool_decide (leader = restated)) then throw census_refusal
            else if negb (pgid =? c_pgid args) then throw census_refusal
            else
              let* l := owner_liveness in
              match l with
              | Alive | UnknownOwner => throw census_refusal
              | DeadOwner _ =>
                  let* live := exact_process_liveness leader in
                  match live with
                  | Some true | None => throw census_refusal
                  | Some false =>
                      let* group := process_group_exists pgid in
                      if group : bool then throw census_refusal
                      else
                        let* domain := census_recorded_domain (Cleanup.cgroup record) in
                        match census_disposition domain (c_attest_domain_empty args)
                                (c_evidence args) with
                        | None => throw census_refusal
                        | Some _ =>
                            write_cleanup_record cleanup
                              (set_phase record (Cleanup.Residual pgid true []) None)
                        end
                  end
              end
        | Cleanup.Armed | Cleanup.Residual _ _ _ => throw census_refusal
        end
    | VNone | VRecoverable _ | VActive _ | VArmed _ | VUnknown _ => throw census_refusal
    end) ;;
  ret 0.

Definition reclaim_dead : M Z :=
  do* with_guard (
    let* holder := read_holder in
    match holder with
    | None =>
        let* v := cleanup_verification None in
        match v with
        | VNone => remove_if_exists owner
        | VArmed _ | VActive _ | VUncensused _ | VUnknown _ | VRecoverable _ =>
            throw ReclaimNotProven
        end
    | Some h =>
        let* v := cleanup_verification (Some h) in
        match v with
        | VArmed _ | VActive _ | VUncensused _ | VUnknown _ => throw ReclaimNotProven
        | VRecoverable _ | VNone =>
            let* l := owner_liveness in
            match l with
            | DeadOwner _ =>
                do* remove_if_exists lock ;;
                do* remove_if_exists owner ;;
                remove_cleanup_record_and_claim
            | Alive | UnknownOwner => throw ReclaimNotProven
            end
        end
    end) ;;
  ret 0.

End Operations.
