(* ===== verification/LandRun.v ===== *)
(** A supervised landing ([ci-hub/lib/landing_lock.rs]): the box anchor, the
    start-gated child and its deadline, the run that arms, publishes, takes the
    census and clears or keeps the quarantine, and the dispatch of the commands. *)

From stdpp Require Import gmap functions sorting.
From S2P Require Import Prelude Text LandRecords LandLease LandHost LandCensus LandLock.

Definition CHILD_TERM_GRACE_SECONDS : Z := 5.
Definition CHILD_POLL_MILLIS : Z := 500.
Definition SIGTERM : Z := 15.
Definition SIGKILL : Z := 9.

#[local] Existing Instance landing.

Section Run.
Context {W : World} {P : LockPaths}.

(** ** The box anchor *)

(** [BoxExclusionAnchor::take]: opening it may fail; [false] when another process has
    it until the deadline.  What is written into the anchor is for people only. *)
Definition anchor_take (wait_seconds : Z) : M bool :=
  let* e := observe in
  match io e with
  | Failed _ => throw Io
  | _ =>
      let* e := observe in
      let* l := flock_loop polls (instant e + wait_seconds * 1000) in
      match l with
      | Locked => ret true
      | TimedOut => ret false
      | FlockError => throw Io
      end
  end.

(** [BoxExclusionAnchor::held_by_another] *)
Definition held_by_another : M bool :=
  let* e := observe in
  match io e with
  | Failed _ => ret false
  | _ => ret (match flock e with WouldBlock => true | Granted | LockFailed => false end)
  end.

(** ** The child *)

(** The child waits at its start gate; on an error it finds the gate closed. *)
Definition spawn_gated_child : M (option GatedChild) :=
  let* e := observe in
  match spawned e with
  | None => ret None
  | Some pid =>
      let* r := process_start_ticks pid in
      ret (match r with
           | Found t => Some {| g_leader := Cleanup.Build_ProcessIdentity pid t; g_pgid := pid |}
           | NotFound | OtherError => None
           end)
  end.

(** [GatedChild::release] *)
Definition release_gate : M () :=
  let* e := observe in
  match io e with Failed _ => throw Io | _ => ret () end.

Inductive ChildOutcome : Type :=
| ChildExited (code signal : option Z)
| ChildTimedOut
| ChildUncertain.

Definition exit_status_code (code signal : option Z) : Z :=
  match code, signal with
  | Some code, _ => code
  | None, Some signal => 128 + signal
  | None, None => 1
  end.

Definition signal_group (signal pgid : Z) : M bool :=
  match process_group_target pgid with
  | None => ret false
  | Some target =>
      let* e := observe in
      ret (match kill e target signal with Delivered => true | ESRCH | KillFailed => false end)
  end.

(** [while Instant::now() < until { if stop { break } sleep }] *)
Fixpoint sleep_until (fuel : nat) (until : Z) (stop : M bool) : M () :=
  match fuel with
  | O => spin
  | S fuel =>
      let* e := observe in
      if until <=? instant e then ret ()
      else
        let* s := stop in
        if s : bool then ret () else sleep_until fuel until stop
  end.

Definition child_gone (child_reaped : bool) (pgid : Z) : M bool :=
  if child_reaped then let* group := process_group_exists pgid in ret (negb group) else ret false.

Definition terminate_child_group (pgid : Z) : M () :=
  let* _sent := signal_group SIGTERM pgid in
  let* e := observe in
  do* sleep_until polls (instant e + CHILD_TERM_GRACE_SECONDS * 1000) (ret false) ;;
  let* kill_sent := signal_group SIGKILL pgid in
  let* e := observe in
  let child_reaped :=
    if kill_sent : bool then match waited e with WaitFailed => false | _ => true end
    else match waited e with Exited _ _ => true | Running | WaitFailed => false end in
  let* e := observe in
  sleep_until polls (instant e + CHILD_TERM_GRACE_SECONDS * 1000) (child_gone child_reaped pgid).

Fixpoint supervise_loop (fuel : nat) (pgid deadline : Z) : M ChildOutcome :=
  match fuel with
  | O => spin
  | S fuel =>
      let* e := observe in
      match waited e with
      | Exited code signal => ret (ChildExited code signal)
      | WaitFailed =>
          let* e := observe in
          ret (match waited e with
               | Exited code signal => ChildExited code signal
               | Running | WaitFailed => ChildUncertain
               end)
      | Running =>
          let* e := observe in
          if deadline <=? instant e then
            do* terminate_child_group pgid ;;
            ret ChildTimedOut
          else supervise_loop fuel pgid deadline
      end
  end.

Definition supervise_child (pgid deadline_secs : Z) : M ChildOutcome :=
  let* e := observe in
  supervise_loop polls pgid (instant e + deadline_secs * 1000).

(** ** The run *)

Record RunArgs : Type := {
  r_agent : str; r_pr : str; r_wait : Z; r_hold : Z; r_child_deadline : Z; r_child : list str }.

(** After the child has ended: no more heartbeats, then the census, which clears the
    authority only when the domain is empty. *)
Definition finish_run (args : RunArgs) (gated : GatedChild) (outcome : ChildOutcome) : M Z :=
  do* begin_run_census (r_agent args) (r_pr args) gated ;;
  let pgid := g_pgid gated in
  let* e := observe in
  let* capture := capture_and_freeze_residuals (self_pid e) in
  let* group := process_group_exists pgid in
  let domain_empty :=
    negb group && complete capture && match identities capture with [] => true | _ => false end in
  if negb domain_empty then
    do* record_residuals (r_agent args) (r_pr args) pgid capture ;;
    throw CleanupQuarantined
  else
    do* clear_proven_run (r_agent args) (r_pr args) pgid ;;
    let* _r := release (r_agent args) in
    match outcome with
    | ChildExited code signal => ret (exit_status_code code signal)
    | ChildTimedOut => ret CHILD_DEADLINE_EXIT_CODE
    | ChildUncertain => throw InvalidState
    end.

(** With the lease and the owner record in place: arm, spawn, publish, open the gate. *)
Definition supervised (args : RunArgs) : M Z :=
  do* arm_run (r_agent args) (r_pr args) ;;
  let* gated := spawn_gated_child in
  match gated with
  | None =>
      do* clear_unstarted_run (r_agent args) (r_pr args) ;;
      let* _r := release (r_agent args) in
      throw Io
  | Some gated =>
      do* publish_run (r_agent args) (r_pr args) gated ;;
      do* release_gate ;;
      let* outcome := supervise_child (g_pgid gated) (r_child_deadline args) in
      finish_run args gated outcome
  end.

Definition run (args : RunArgs) : M Z :=
  match r_child args with
  | [] => throw EmptyChild
  | _ :: _ =>
      if r_child_deadline args =? 0 then throw UnboundedChildDeadline
      else
        let* e := observe in
        match io e with
        | Failed _ => throw Io
        | _ =>
            let* taken := anchor_take (r_wait args) in
            if negb taken then ret REFUSED_EXIT_CODE
            else
              let* foreign := foreign_box_claim in
              if foreign : bool then ret REFUSED_EXIT_CODE
              else
                let* acquire_status :=
                  acquire {| a_agent := r_agent args; a_purpose := r_pr args; a_wait := r_wait args;
                             a_hold := r_hold args |} in
                if negb (acquire_status =? 0) then ret acquire_status
                else
                  let* owned := attempt (with_guard write_current_process_owner) in
                  match owned with
                  | Err error =>
                      let* _r := attempt (release (r_agent args)) in
                      throw error
                  | Ok _ => supervised args
                  end
        end
  end.

(** ** Commands *)

Inductive LandLockCommand : Type :=
| Acquire (args : AcquireArgs)
| Renew (agent : str) (hold : Z)
| Release (agent : str)
| ReclaimDead
| CensusOrphanedDomain (args : CensusOrphanedDomainArgs)
| Run (args : RunArgs).

Definition consumes_meaningful_time (c : LandLockCommand) : bool :=
  match c with Acquire _ | Run _ => true | _ => false end.

Definition execute (c : LandLockCommand) : M Z :=
  match c with
  | Acquire args =>
      let* held := held_by_another in
      if held : bool then ret REFUSED_EXIT_CODE
      else
        let* foreign := foreign_box_claim in
        if foreign : bool then ret REFUSED_EXIT_CODE else acquire args
  | Renew agent hold => do* renew agent hold ;; ret 0
  | Release agent => let* _r := release agent in ret 0
  | ReclaimDead => reclaim_dead
  | CensusOrphanedDomain args => census_orphaned_domain args
  | Run args => run args
  end.

End Run.
