(* ===== verification/LandLogic.v ===== *)
(** Reasoning about programs of the landing lock: what a program reads, returns and
    leaves on the disk, whatever fails and whenever it is killed, and what the kernel has
    shown when it reports that a process, a group or a whole domain is gone. *)

From stdpp Require Import gmap functions sorting.
From S2P Require Import Prelude Text LandRecords LandLease LandHost LandCensus LandLock LandRun.

(** The program leaves every disk as it is. *)
Definition reads {A : Type} (m : M A) : Prop := forall t d, (m t d).2 = d.

(** If it returns from the disk [d], its result satisfies [phi]. *)
Definition returns {A : Type} (m : M A) (d : Disk) (phi : A -> Prop) : Prop :=
  forall t, match (m t d).1.1 with Done a => phi a | _ => True end.

(** However it ends, the disk satisfies [R]. *)
Definition ends {A : Type} (m : M A) (R : Disk -> Prop) (d : Disk) : Prop := forall t, R (m t d).2.

(** It keeps the invariant, however it ends. *)
Definition safe {A : Type} (I : Disk -> Prop) (m : M A) : Prop := forall d, I d -> ends m I d.

Create HintDb land discriminated.

(** ** Composition *)

Lemma reads_ret {A : Type} (a : A) : reads (ret a).
Proof. done. Qed.
Lemma reads_throw {A : Type} e : reads (throw (A := A) e).
Proof. done. Qed.
Lemma reads_spin {A : Type} : reads (spin (A := A)).
Proof. done. Qed.

Lemma reads_bind {A B : Type} (m : M A) (k : A -> M B) : reads m -> (forall a, reads (k a)) -> reads (mbind_ m k).
Proof.
  intros Hm Hk t d. unfold mbind_. specialize (Hm t d). destruct (m t d) as [[o t'] d'].
  cbn in Hm. subst d'. destruct o; [apply Hk | done..].
Qed.

Lemma reads_attempt {A : Type} (m : M A) : reads m -> reads (attempt m).
Proof.
  intros Hm t d. unfold attempt. specialize (Hm t d). destruct (m t d) as [[o t'] d'].
  cbn in Hm. subst d'. by destruct o.
Qed.

Lemma reads_from_result {A : Type} (r : result A LockError) : reads (from_result r).
Proof. by destruct r. Qed.
Lemma reads_from_option {A : Type} (o : option A) e : reads (from_option_ o e).
Proof. by destruct o. Qed.

Lemma safe_reads {A : Type} I (m : M A) : reads m -> safe I m.
Proof. intros Hm d Hd t. by rewrite Hm. Qed.

Lemma safe_bind {A B : Type} I (m : M A) (k : A -> M B) :
  safe I m -> (forall a, safe I (k a)) -> safe I (mbind_ m k).
Proof.
  intros Hm Hk d Hd t. unfold mbind_. specialize (Hm d Hd t). destruct (m t d) as [[o t'] d'].
  cbn in Hm. destruct o; [by apply Hk | done..].
Qed.

Lemma safe_attempt {A : Type} I (m : M A) : safe I m -> safe I (attempt m).
Proof.
  intros Hm d Hd t. unfold attempt. specialize (Hm d Hd t). destruct (m t d) as [[o t'] d'].
  cbn in Hm. by destruct o.
Qed.

(** After a reading step its result is known. *)
Lemma ends_bind_reads {A B : Type} (R : Disk -> Prop) (m : M A) (k : A -> M B) phi d :
  reads m -> returns m d phi -> R d -> (forall a, phi a -> ends (k a) R d) -> ends (mbind_ m k) R d.
Proof.
  intros Hm Hphi Hd Hk t. unfold mbind_. specialize (Hm t d). specialize (Hphi t).
  destruct (m t d) as [[o t'] d']. cbn in *. subst d'. destruct o; [by apply Hk | done..].
Qed.

(** A step that never returns ends the program. *)
Lemma ends_bind_stop {A B : Type} (R : Disk -> Prop) (m : M A) (k : A -> M B) d :
  reads m -> returns m d (fun _ => False) -> R d -> ends (mbind_ m k) R d.
Proof. intros Hm Hf Hd. eapply ends_bind_reads; [done..|]. by intros. Qed.

Lemma ends_reads {A : Type} (R : Disk -> Prop) (m : M A) d : reads m -> R d -> ends m R d.
Proof. intros Hm Hd t. by rewrite Hm. Qed.

Lemma returns_any {A : Type} (m : M A) d : returns m d (fun _ => True).
Proof. intros t. by destruct (m t d).1.1. Qed.

Lemma returns_impl {A : Type} (m : M A) d (phi psi : A -> Prop) :
  returns m d phi -> (forall a, phi a -> psi a) -> returns m d psi.
Proof. intros Hm Hi t. specialize (Hm t). destruct (m t d).1.1; auto. Qed.

Lemma returns_ret {A : Type} (a : A) d (phi : A -> Prop) : phi a -> returns (ret a) d phi.
Proof. by intros H t. Qed.

Lemma returns_throw {A : Type} e d (phi : A -> Prop) : returns (throw e) d phi.
Proof. by intros t. Qed.

Lemma returns_bind {A B : Type} (m : M A) (k : A -> M B) d phi psi :
  reads m -> returns m d phi -> (forall a, phi a -> returns (k a) d psi) -> returns (mbind_ m k) d psi.
Proof.
  intros Hm Hphi Hk t. unfold mbind_. specialize (Hm t d). specialize (Hphi t).
  destruct (m t d) as [[o t'] d']. cbn in *. subst d'. destruct o; [by apply Hk | done..].
Qed.

#[export] Hint Resolve reads_ret reads_throw reads_spin reads_attempt reads_from_result
  reads_from_option : land.

(** Split a program along its binds, matches and conditionals. *)
Ltac reads_step :=
  first
    [ assumption
    | solve [eauto 2 with land]
    | simple apply reads_bind; [|intros]
    | match goal with
      | |- reads (match ?x with _ => _ end) => destruct x
      | |- reads ?m => progress cbv beta zeta
      end ].
Ltac solve_reads := intros; repeat reads_step.

Section Logic.
Context {W : World}.

(** ** Events *)

Lemma reads_observe : reads observe.
Proof. intros t d. unfold observe. done. Qed.

Lemma returns_observe d (phi : Env -> Prop) : (forall n, phi (env_at n)) -> returns observe d phi.
Proof. intros H t. unfold observe. cbn. destruct (io (env_at t)); [apply H..|done]. Qed.

Lemma reads_exists p : reads (path_exists p).
Proof. intros t d. unfold path_exists. by destruct (io (env_at t)). Qed.

Lemma reads_fs_read p : reads (fs_read p).
Proof. intros t d. unfold fs_read. by destruct (io (env_at t)). Qed.

(** What reading a file finds when nothing fails. *)
Definition content_at (d : Disk) (p : str) : read_answer :=
  match d !! p with None => Missing | Some Garbled => Unreadable | Some (Text s) => Content s end.

Lemma returns_fs_read p d :
  returns (fs_read p) d (fun a =>
    a = content_at d p \/ a = Unreadable /\ exists n b, io (env_at n) = Failed b).
Proof.
  intros t. unfold fs_read. destruct (io (env_at t)) eqn:Hio; cbn; [by left | | done].
  right. split; [done | by eexists _, _].
Qed.

Lemma safe_change I whole failed killed :
  (forall d, I d -> I (whole d)) -> (forall n d, I d -> I (failed (env_at n) d)) ->
  (forall n d, I d -> I (killed (env_at n) d)) -> safe I (change whole failed killed).
Proof.
  intros Hw Hf Hk d Hd t. unfold change.
  destruct (io (env_at t)) as [|[]|[]]; cbn; auto.
Qed.

Lemma safe_write_truncated I p s : (forall f d, I d -> I (<[p := f]> d)) -> safe I (write_truncated p s).
Proof. intros H. by apply safe_change; auto. Qed.

Lemma safe_remove_if_exists I p : (forall d, I d -> I (delete p d)) -> safe I (remove_if_exists p).
Proof. intros H. by apply safe_change; auto. Qed.

Lemma safe_write_cleanup_record I p r :
  (forall d, I d -> I (<[p := Text (Cleanup.render r)]> d)) -> safe I (write_cleanup_record p r).
Proof. intros H. by apply safe_change; auto. Qed.

Lemma safe_remove_cleanup_record I p : (forall d, I d -> I (delete p d)) -> safe I (remove_cleanup_record p).
Proof. intros H. by apply safe_change; auto. Qed.

#[local] Hint Resolve reads_observe reads_exists reads_fs_read : land.

(** ** The host *)

Lemma reads_read_to_string p : reads (read_to_string p).
Proof. unfold read_to_string. solve_reads. Qed.
Lemma reads_epoch_seconds : reads epoch_seconds.
Proof. unfold epoch_seconds. solve_reads. Qed.
Lemma reads_current_host : reads current_host.
Proof. unfold current_host. solve_reads. Qed.
Lemma reads_read_boot_id : reads read_current_boot_id.
Proof. unfold read_current_boot_id. solve_reads. Qed.
#[local] Hint Resolve reads_read_to_string reads_epoch_seconds reads_current_host reads_read_boot_id : land.

Lemma reads_current_boot_id : reads current_boot_id.
Proof. unfold current_boot_id. solve_reads. Qed.
Lemma reads_stat pid : reads (process_stat_fields pid).
Proof. unfold process_stat_fields. solve_reads. Qed.
#[local] Hint Resolve reads_current_boot_id reads_stat : land.
Lemma reads_start_ticks pid : reads (process_start_ticks pid).
Proof. unfold process_start_ticks. solve_reads. Qed.
#[local] Hint Resolve reads_start_ticks : land.
Lemma reads_exact_liveness i : reads (exact_process_liveness i).
Proof. unfold exact_process_liveness. solve_reads. Qed.
Lemma reads_group pgid : reads (process_group_liveness pgid).
Proof. unfold process_group_liveness. solve_reads. Qed.
#[local] Hint Resolve reads_exact_liveness reads_group : land.
Lemma reads_group_exists pgid : reads (process_group_exists pgid).
Proof. unfold process_group_exists. solve_reads. Qed.
Lemma reads_current_owner : reads current_process_owner.
Proof. unfold current_process_owner. solve_reads. Qed.
#[local] Hint Resolve reads_group_exists reads_current_owner : land.

Lemma reads_probe_residuals l a u : reads (probe_residuals l a u).
Proof. revert a u. induction l as [|i l IH]; intros a u; cbn [probe_residuals]; solve_reads; apply IH. Qed.
#[local] Hint Resolve reads_probe_residuals : land.
Lemma reads_probe l pgid : reads (probe l pgid).
Proof. unfold probe. solve_reads. Qed.
#[local] Hint Resolve reads_probe : land.
Lemma reads_verify_phase r : reads (verify_phase r).
Proof. unfold verify_phase. solve_reads. Qed.
#[local] Hint Resolve reads_verify_phase : land.
Lemma reads_verify p x : reads (verify_cleanup_record p x).
Proof. unfold verify_cleanup_record. solve_reads. Qed.
#[local] Hint Resolve reads_verify : land.

(** ** The census *)

Lemma reads_scan_proc names ps : reads (scan_proc names ps).
Proof. revert ps. induction names as [|n names IH]; intros ps; cbn [scan_proc]; solve_reads; apply IH. Qed.
#[local] Hint Resolve reads_scan_proc : land.
Lemma reads_scan pid : reads (scan_descendants pid).
Proof. unfold scan_descendants. solve_reads. Qed.
Lemma reads_signal i s : reads (signal_exact_process i s).
Proof. unfold signal_exact_process. solve_reads. Qed.
#[local] Hint Resolve reads_scan reads_signal : land.
Lemma reads_stop_all l b : reads (stop_all l b).
Proof. revert b. induction l as [|i l IH]; intros b; cbn [stop_all]; solve_reads; apply IH. Qed.
Lemma reads_check_stopped l b : reads (check_stopped l b).
Proof. revert b. induction l as [|i l IH]; intros b; cbn [check_stopped]; solve_reads; apply IH. Qed.
#[local] Hint Resolve reads_stop_all reads_check_stopped : land.
Lemma reads_capture n pid prior : reads (capture_rounds n pid prior).
Proof. revert prior. induction n as [|n IH]; intros prior; cbn [capture_rounds]; solve_reads; apply IH. Qed.
Lemma reads_walk fuel pending pids : reads (walk fuel pending pids).
Proof.
  revert pending pids. induction fuel as [|n IH]; intros [|dir pending] pids; cbn [walk]; solve_reads; apply IH.
Qed.
#[local] Hint Resolve reads_capture reads_walk : land.
Lemma reads_capture_and_freeze pid : reads (capture_and_freeze_residuals pid).
Proof. apply reads_capture. Qed.
Lemma reads_cgroup pid : reads (payload_cgroup_anchor pid).
Proof. unfold payload_cgroup_anchor, process_cgroup. solve_reads. Qed.
Lemma reads_population p : reads (cgroup_population p).
Proof. unfold cgroup_population. solve_reads. Qed.
#[local] Hint Resolve reads_population : land.
Lemma reads_census c : reads (census_recorded_domain c).
Proof. unfold census_recorded_domain. solve_reads. Qed.

End Logic.

#[export] Hint Resolve reads_observe reads_exists reads_fs_read reads_read_to_string
  reads_epoch_seconds reads_current_host reads_read_boot_id reads_current_boot_id reads_stat
  reads_start_ticks reads_exact_liveness reads_group reads_group_exists reads_current_owner
  reads_probe_residuals reads_probe reads_verify_phase reads_verify reads_scan reads_signal
  reads_capture_and_freeze reads_cgroup reads_population reads_census : land.

(** ** What verification has seen *)

Section Evidence.
Context {W : World}.

(** The process is absent, or its pid belongs to another one by now. *)
Definition gone (e : Env) (i : Cleanup.ProcessIdentity) : Prop :=
  stat_file e (Cleanup.pid i) = Missing \/
  exists s state parent t, stat_file e (Cleanup.pid i) = Content s /\
    parse_stat s = Some (state, parent, t) /\ t <> Cleanup.start_ticks i.

Definition group_gone (e : Env) (pgid : Z) : Prop :=
  exists target, process_group_target pgid = Some target /\ kill e target 0 = ESRCH.

(** The file holds this record. *)
Definition record_at (d : Disk) (p : str) (r : Cleanup.CleanupRecord) : Prop :=
  exists s, d !! p = Some (Text s) /\ Cleanup.parse s = Ok r.

(** Nothing of the payload is left: the host has booted since, or the census was
    complete and every identity in it, and the process group, were seen to be gone. *)
Definition absence_proven (r : Cleanup.CleanupRecord) : Prop :=
  (exists n b, boot_id_file (env_at n) = Some b /\ trim b <> Cleanup.boot_id r) \/
  (exists pgid residuals, Cleanup.phase r = Cleanup.Residual pgid true residuals /\
     Forall (fun i => exists n, gone (env_at n) i) residuals /\
     exists n, group_gone (env_at n) pgid).

(** The kernel has shown the group and everything below it to hold no process: it was
    gone when it was looked at, or its list of processes was empty and so was, in turn,
    each group among its entries. *)
Inductive seen_empty : str -> Prop :=
| seen_missing dir n :
    cg_procs (env_at n) (join_path dir "cgroup.procs") = Missing -> seen_empty dir
| seen_vanished dir n m s :
    cg_procs (env_at n) (join_path dir "cgroup.procs") = Content s ->
    parse_procs (lines s) [] = Some [] ->
    cg_entries (env_at m) dir = ListMissing -> seen_empty dir
| seen_entries dir n m s es :
    cg_procs (env_at n) (join_path dir "cgroup.procs") = Content s ->
    parse_procs (lines s) [] = Some [] ->
    cg_entries (env_at m) dir = Entries es -> None ∉ es ->
    (forall name, Some (name, true) ∈ es -> seen_empty (join_path dir name)) ->
    seen_empty dir.

(** A recorded group is empty, or absent from the mounted hierarchy. *)
Definition group_empty (relative : str) : Prop :=
  exists root, root = join_path CGROUP_MOUNT (trim_start_matches 47 relative) /\
    ((exists n, cg_stat (env_at n) root = StatMissing) \/
     (exists n, cg_stat (env_at n) root = Directory) /\ seen_empty root).

(** The recorded domain is empty: the group of the payload and the slice it may have
    moved to. *)
Definition domain_empty (cgroup : option str) : Prop :=
  exists payload slice, cgroup = Some payload /\ safe_ci_slice_for payload = Some slice /\
    group_empty payload /\ group_empty slice.

(** A scan of the process table for the descendants of a supervisor found these. *)
Definition scan_found (l : list Cleanup.ProcessIdentity) : Prop :=
  exists n t d, (scan_descendants (self_pid (env_at n)) t d).1.1 = Done (Some l).

Definition verified (d : Disk) (p : str) (v : CleanupVerification) : Prop :=
  match v with
  | VNone => d !! p = None
  | VArmed r => record_at d p r /\ Cleanup.phase r = Cleanup.Armed
  | VActive r => record_at d p r
  | VUncensused r => record_at d p r /\
      exists leader pgid, Cleanup.phase r = Cleanup.Published leader pgid \/
                          Cleanup.phase r = Cleanup.CensusPending leader pgid
  | VRecoverable r => record_at d p r /\ absence_proven r
  | VUnknown _ => is_Some (d !! p) \/ exists n b, io (env_at n) = Failed b
  end.

(** What a process's start time was read from. *)
Lemma returns_ticks i d :
  returns (process_start_ticks (Cleanup.pid i)) d (fun r =>
    match r with
    | NotFound => exists n, stat_file (env_at n) (Cleanup.pid i) = Missing
    | Found t => exists n s state parent, stat_file (env_at n) (Cleanup.pid i) = Content s /\
        parse_stat s = Some (state, parent, t)
    | OtherError => True
    end).
Proof.
  unfold process_start_ticks, process_stat_fields.
  eapply returns_bind; [solve_reads| |].
  - eapply returns_bind; [solve_reads| |].
    + apply (returns_observe _ (fun e => exists n, e = env_at n)); eauto.
    + intros e [n ->]. apply (returns_ret _ _ (fun r =>
        match r with
        | NotFound => exists n, stat_file (env_at n) (Cleanup.pid i) = Missing
        | Found (_, _, t) => exists n s state parent, stat_file (env_at n) (Cleanup.pid i) = Content s /\
            parse_stat s = Some (state, parent, t)
        | OtherError => True end)).
      destruct (stat_file (env_at n) (Cleanup.pid i)) as [| |s] eqn:Hs; [by exists n | done |].
      destruct (parse_stat s) as [[[st pa] t]|] eqn:Hp; [|done]. by exists n, s, st, pa.
  - intros r Hr. apply returns_ret. by destruct r as [[[? ?] ?]| |].
Qed.

Lemma returns_liveness i d :
  returns (exact_process_liveness i) d (fun r => r = Some false -> exists n, gone (env_at n) i).
Proof.
  unfold exact_process_liveness. eapply returns_bind; [solve_reads | apply returns_ticks|].
  intros r Hr. apply returns_ret. destruct r as [t| |]; [|intros _|done].
  - intros [= Ht%Z.eqb_neq]. destruct Hr as (n & s & st & pa & Hs & Hp).
    exists n. right. eauto 8.
  - destruct Hr as [n Hn]. exists n. by left.
Qed.

Lemma returns_group pgid d :
  returns (process_group_liveness pgid) d
    (fun r => r = GroupAbsent -> exists n, group_gone (env_at n) pgid).
Proof.
  unfold process_group_liveness. destruct (process_group_target pgid) as [t|] eqn:Ht.
  - eapply returns_bind; [solve_reads | apply (returns_observe _ (fun e => exists n, e = env_at n)); eauto|].
    intros e [n ->]. apply returns_ret. destruct (kill (env_at n) t 0) eqn:Hk; [done| |done].
    intros _. exists n, t. done.
  - by apply returns_ret.
Qed.

(** What a census of control groups has seen, on a host that changes meanwhile. *)

Lemma parse_procs_app ls pids :
  parse_procs ls pids = (l ← parse_procs ls []; Some (pids ++ l)).
Proof.
  revert pids. induction ls as [|line ls IH]; intros pids; cbn; [by rewrite app_nil_r|].
  case_match; [apply IH|]. destruct (parse_u32 (trim line)) as [pid|]; cbn; [|done].
  rewrite (IH (pids ++ [pid])), (IH [pid]). destruct (parse_procs ls []); cbn; [|done].
  by rewrite <- (assoc (++)).
Qed.

Lemma push_directories_all dir es pending l : push_directories dir es pending = Some l ->
  (None ∉ es) /\ (forall x, x ∈ pending -> x ∈ l) /\
  (forall name, Some (name, true) ∈ es -> join_path dir name ∈ l).
Proof.
  revert pending. induction es as [|[[name is_dir]|] es IH]; intros pending; cbn; [|intros H|done].
  - intros [= ->]. set_solver.
  - destruct (IH _ H) as (Hn & Hp & Hd). split; [set_solver|]. split.
    + intros x Hx. apply Hp. destruct is_dir; set_solver.
    + intros name' [[= -> <-]|Hin]%elem_of_cons; [apply Hp; set_solver | by apply Hd].
Qed.

Lemma dedup_pids_nil l : dedup_pids l = [] -> l = [].
Proof.
  induction l as [|a [|b l] IH]; [done..|]. cbn [dedup_pids] in *.
  destruct (a =? b); [|done]. intros H. by specialize (IH H).
Qed.

Lemma returns_self {A : Type} (m : M A) d : returns m d (fun a => exists t d, (m t d).1.1 = Done a).
Proof. intros t. destruct (m t d).1.1 eqn:E; eauto. Qed.

(** A capture is complete only when a scan found what it lists. *)
Lemma returns_capture_rounds k n prior d :
  returns (capture_rounds k (self_pid (env_at n)) prior) d
    (fun c => complete c = true -> scan_found (identities c)).
Proof.
  revert prior. induction k as [|k IH]; intros prior; cbn [capture_rounds]; [by apply returns_ret|].
  eapply returns_bind; [solve_reads | apply returns_self|]. intros [found|] (t & d' & Hs); [|by apply returns_ret].
  eapply returns_bind; [apply reads_stop_all | apply returns_any|]. intros s1 _.
  eapply returns_bind; [apply reads_check_stopped | apply returns_any|]. intros s2 _.
  case_match; [|apply IH]. apply returns_ret. intros _. by exists n, t, d'.
Qed.

Lemma returns_env d : returns observe d (fun e => exists n, e = env_at n).
Proof. apply returns_observe. eauto. Qed.

Lemma returns_walk fuel pending pids d :
  returns (walk fuel pending pids) d (fun r => forall b, r = Empty b ->
    pids = [] /\ forall dir, dir ∈ pending -> seen_empty dir).
Proof.
  revert pending pids. induction fuel as [|fuel IH]; intros [|dir pending] pids; cbn [walk];
    [|by intros t| |].
  1, 2: apply returns_ret; destruct (dedup_pids _) eqn:E; [|done]; intros b _;
    apply dedup_pids_nil in E; split; [|set_solver];
    apply Permutation_nil_r; by rewrite <- E, merge_sort_Permutation.
  eapply returns_bind; [solve_reads | apply returns_env|]. intros e [n ->].
  destruct (cg_procs (env_at n) (join_path dir "cgroup.procs")) as [| |s] eqn:Hc; [|by apply returns_ret|].
  { eapply returns_impl; [apply IH|]. intros r Hr b Hb. destruct (Hr b Hb) as [-> Hp]. split; [done|].
    intros x [->|Hx]%elem_of_cons; [by eapply seen_missing | by apply Hp]. }
  rewrite parse_procs_app. destruct (parse_procs (lines s) []) as [l|] eqn:Hl; cbn; [|by apply returns_ret].
  eapply returns_bind; [solve_reads | apply returns_env|]. intros e [m ->].
  destruct (cg_entries (env_at m) dir) as [| |es] eqn:He; [|by apply returns_ret|].
  - eapply returns_impl; [apply IH|]. intros r Hr b Hb. destruct (Hr b Hb) as [[-> ->]%app_eq_nil Hp].
    split; [done|]. intros x [->|Hx]%elem_of_cons; [by eapply seen_vanished | by apply Hp].
  - destruct (push_directories dir es pending) as [l'|] eqn:Hd; [|by apply returns_ret].
    apply push_directories_all in Hd as (Hn & Hi & Hs).
    eapply returns_impl; [apply IH|]. intros r Hr b Hb. destruct (Hr b Hb) as [[-> ->]%app_eq_nil Hp].
    split; [done|]. intros x [->|Hx]%elem_of_cons; [eapply seen_entries; eauto | auto].
Qed.

Lemma returns_population relative d :
  returns (cgroup_population relative) d (fun r => forall b, r = Empty b -> group_empty relative).
Proof.
  unfold cgroup_population. case_match; [by apply returns_ret|]. cbv zeta.
  eapply returns_bind; [solve_reads | apply returns_env|]. intros e [n ->].
  destruct (cg_stat (env_at n) _) eqn:Hs; try (by apply returns_ret).
  - apply returns_ret. intros b _. eexists. split; [done|]. eauto.
  - eapply returns_impl; [apply returns_walk|]. intros r Hr b Hb. destruct (Hr b Hb) as [_ Hp].
    eexists. split; [done|]. right. split; [eauto|]. apply Hp. set_solver.
Qed.

(** An empty domain is reported on the kernel's word only. *)
Lemma returns_census cgroup d :
  returns (census_recorded_domain cgroup) d (fun r => r = ProvenEmpty -> domain_empty cgroup).
Proof.
  unfold census_recorded_domain. destruct cgroup as [payload|]; [|by apply returns_ret].
  eapply returns_bind; [solve_reads | apply returns_population|]. intros [b| |] Hp; try by apply returns_ret.
  destruct (safe_ci_slice_for payload) as [slice|] eqn:Hs; [|by apply returns_ret].
  eapply returns_bind; [solve_reads | apply returns_population|]. intros [b'| |] Hq; apply returns_ret; try done.
  intros _. exists payload, slice. split_and!; eauto.
Qed.

(** A quarantine is discharged by an empty domain, or by an attestation that names its
    evidence. *)
Lemma census_disposition_exact domain attested evidence :
  is_Some (census_disposition domain attested evidence) <->
  domain = ProvenEmpty \/ attested = true /\ trim evidence <> [].
Proof.
  unfold census_disposition. destruct (str_eqb_spec (trim evidence) []) as [Ht|Ht];
    destruct domain, attested; cbn; split; try (intros [? ?]; done); naive_solver.
Qed.

Lemma returns_probe_residuals l d a u :
  returns (probe_residuals l a u) d (fun r =>
    (a = true -> r.1 = true) /\ (u = true -> r.2 = true) /\
    (r = (false, false) -> Forall (fun i => exists n, gone (env_at n) i) l)).
Proof.
  revert a u. induction l as [|i l IH]; intros a u; cbn [probe_residuals].
  - apply returns_ret. naive_solver.
  - eapply returns_bind; [solve_reads | apply returns_liveness |].
    intros r Hr. destruct r as [[]|]; (eapply returns_impl; [apply IH|]);
      intros [x y] (Ha & Hu & Hn); cbn in *; (split; [auto|]; split; [auto|]); intros [= -> ->].
    + discriminate (Ha eq_refl).
    + constructor; [by apply Hr | by apply Hn].
    + discriminate (Hu eq_refl).
Qed.

Lemma returns_probe l pgid d :
  returns (probe l pgid) d (fun r => r = (false, false) ->
    Forall (fun i => exists n, gone (env_at n) i) l /\ exists n, group_gone (env_at n) pgid).
Proof.
  unfold probe. eapply returns_bind; [solve_reads | apply returns_probe_residuals|].
  intros [a u] (_ & _ & Hl). eapply returns_bind; [solve_reads | apply returns_group|].
  intros g Hg. apply returns_ret. destruct g; cbn; try done. intros H. split; [by apply Hl | by apply Hg].
Qed.

Lemma returns_verify_phase p d r : record_at d p r -> returns (verify_phase r) d (verified d p).
Proof.
  intros Hr. assert (Hs : is_Some (d !! p)) by (destruct Hr as (s & Hs & _); by exists (Text s)).
  unfold verify_phase. destruct (Cleanup.phase r) as [|l g|l g|g [] rs] eqn:Hp; cbn [negb].
  - by apply returns_ret.
  - eapply returns_bind; [solve_reads | apply returns_any|]. intros au _. apply returns_ret.
    destruct (au.1); cbn; eauto 8.
  - eapply returns_bind; [solve_reads | apply returns_any|]. intros au _. apply returns_ret.
    destruct (au.1); cbn; eauto 8.
  - eapply returns_bind; [solve_reads | apply returns_probe|]. intros [[] []] Hau; apply returns_ret; cbn; auto.
    split; [done|]. right. exists g, rs. destruct (Hau eq_refl). done.
  - apply returns_ret. cbn. auto.
Qed.

Lemma returns_verify p x d : returns (verify_cleanup_record p x) d (verified d p).
Proof.
  unfold verify_cleanup_record. eapply returns_bind; [solve_reads | apply returns_fs_read|].
  intros a [-> | [-> Hf]]; [|by apply returns_ret; right]. unfold content_at.
  destruct (d !! p) as [[s|]|] eqn:Hp; [|apply returns_ret; left; by rewrite Hp | by apply returns_ret].
  assert (Hs : is_Some (d !! p)) by (by rewrite Hp).
  destruct (Cleanup.parse s) as [r|] eqn:Hr; [|apply returns_ret; by left].
  assert (Hrec : record_at d p r) by (by exists s).
  destruct x as [[a o]|]; [|apply returns_ret; by left]. case_match; [apply returns_ret; by left|].
  eapply returns_bind; [solve_reads | apply returns_any|]. intros h _.
  case_match; [apply returns_ret; cbn; eauto|].
  eapply returns_bind; [solve_reads| |].
  - unfold read_current_boot_id. eapply returns_bind; [solve_reads|
      apply (returns_observe _ (fun e => exists n, e = env_at n)); eauto|].
    intros e [n ->]. apply (returns_ret _ _ (fun b => forall x, b = Some x ->
      exists n b, boot_id_file (env_at n) = Some b /\ trim b = x)).
    intros x. destruct (boot_id_file (env_at n)) as [b|] eqn:Hb; cbn; [intros [= <-]; eauto | done].
  - intros [b|] Hb; [|apply returns_ret; cbn; eauto].
    destruct (str_eqb_spec (Cleanup.boot_id r) b) as [_|Hne]; cbn [negb];
      [by apply returns_verify_phase|].
    apply returns_ret. cbn. split; [done|]. left. destruct (Hb b eq_refl) as (n & b' & Hn & <-).
    exists n, b'. by split.
Qed.

End Evidence.
