(* ===== verification/LandLockCorrect.v ===== *)
(** Correctness of the locks: the lease of a live holder and the quarantine of
    a payload are never taken away, whatever fails and whenever a process dies. *)

From stdpp Require Import gmap functions sorting.
From S2P Require Import Prelude Text LandRecords LandLease LandHost LandCensus LandLock LandRun LandLogic.

(** [keeps I m phi]: from a disk that satisfies [I] the program leaves one that does,
    however it ends, and what it returns satisfies [phi]. *)
Definition keeps {A : Type} (I : Disk -> Prop) (m : M A) (phi : A -> Prop) : Prop :=
  forall d t, I d -> I (m t d).2 /\ match (m t d).1.1 with Done a => phi a | _ => True end.

Lemma keeps_bind {A B : Type} I (m : M A) (k : A -> M B) phi psi :
  keeps I m phi -> (forall a, phi a -> keeps I (k a) psi) -> keeps I (mbind_ m k) psi.
Proof.
  intros Hm Hk d t Hd. unfold mbind_. destruct (Hm d t Hd) as [H1 H2].
  destruct (m t d) as [[o t'] d']. cbn in *. destruct o; [by apply Hk | done..].
Qed.

Lemma keeps_reads {A : Type} I (m : M A) phi : reads m -> (forall d, I d -> returns m d phi) -> keeps I m phi.
Proof. intros Hm Hr d t Hd. rewrite Hm. split; [done | by apply Hr]. Qed.

Lemma keeps_any {A : Type} I (m : M A) : reads m -> keeps I m (fun _ => True).
Proof. intros Hm. apply keeps_reads; [done|]. intros. apply returns_any. Qed.

Lemma keeps_ret {A : Type} I (a : A) (phi : A -> Prop) : phi a -> keeps I (ret a) phi.
Proof. by intros H d t Hd. Qed.

Lemma keeps_throw {A : Type} I e (phi : A -> Prop) : keeps I (throw e) phi.
Proof. by intros d t Hd. Qed.

Lemma keeps_spin {A : Type} I (phi : A -> Prop) : keeps I (spin (A := A)) phi.
Proof. by intros d t Hd. Qed.

Lemma keeps_safe {A : Type} I (m : M A) : safe I m -> keeps I m (fun _ => True).
Proof. intros Hm d t Hd. split; [by apply Hm | by destruct (m t d).1.1]. Qed.

Lemma keeps_impl {A : Type} I (m : M A) (phi psi : A -> Prop) :
  keeps I m phi -> (forall a, phi a -> psi a) -> keeps I m psi.
Proof.
  intros Hm Hi d t Hd. destruct (Hm d t Hd) as [H1 H2]. split; [done|].
  destruct (m t d).1.1; auto.
Qed.

Lemma safe_keeps {A : Type} I (m : M A) phi : keeps I m phi -> safe I m.
Proof. intros Hm d Hd t. by apply Hm. Qed.

(** A result is only looked at when there is one. *)
Lemma keeps_attempt {A : Type} I (m : M A) (phi : A -> Prop) : keeps I m phi ->
  keeps I (attempt m) (fun r => match r with Ok a => phi a | Err _ => True end).
Proof.
  intros Hm d t Hd. unfold attempt. destruct (Hm d t Hd) as [H1 H2].
  destruct (m t d) as [[o t'] d']. cbn in *. by destruct o.
Qed.

Lemma keeps_from_option {A : Type} I (o : option A) e : keeps I (from_option_ o e) (fun a => o = Some a).
Proof. destruct o; [by apply keeps_ret | apply keeps_throw]. Qed.

Lemma keeps_from_result {A : Type} I (r : result A LockError) :
  keeps I (from_result r) (fun a => r = Ok a).
Proof. destruct r; [by apply keeps_ret | apply keeps_throw]. Qed.

(** Step through a program whose results do not matter. *)
Ltac keeps_step :=
  first
    [ assumption
    | apply keeps_throw | apply keeps_spin
    | solve [eauto 2 with land]
    | apply keeps_ret; solve [auto]
    | eapply keeps_bind; [solve [eauto 3 with land] | intros ? _]
    | match goal with |- keeps _ (match ?x with _ => _ end) _ => destruct x end
    | match goal with |- keeps _ ?m _ => progress cbv beta zeta end ].
Ltac solve_keeps := intros; repeat keeps_step.

#[export] Hint Resolve keeps_any : land.

Section Paths.
Context {P : LockPaths}.

Lemma suffix_ne a s t : s <> t -> suffix a s <> suffix a t.
Proof. unfold suffix. intros Hst H. by apply app_inv_head in H. Qed.

Lemma suffix_self a s : s <> [] -> suffix a s <> a.
Proof. unfold suffix. intros Hs H. rewrite <- (app_nil_r a) in H at 2. by apply app_inv_head in H. Qed.

Lemma owner_lock : owner <> lock. Proof. by apply suffix_self. Qed.
Lemma queue_lock : queue <> lock. Proof. by apply suffix_self. Qed.
Lemma cleanup_lock : cleanup <> lock. Proof. by apply suffix_self. Qed.
Lemma queue_owner : queue <> owner. Proof. by apply suffix_ne. Qed.
Lemma cleanup_owner : cleanup <> owner. Proof. by apply suffix_ne. Qed.
Lemma cleanup_queue : cleanup <> queue. Proof. by apply suffix_ne. Qed.

(** The claims directory of the box holds no file of the lease. *)
Definition claims_apart : Prop :=
  forall name p, p ∈ [lock; owner; queue; cleanup] -> p <> claim_path name.

End Paths.

#[export] Hint Resolve owner_lock queue_lock cleanup_lock queue_owner cleanup_owner cleanup_queue : land.

Section Reads.
Context {W : World} {P : LockPaths} {L : Lease}.

Lemma reads_flock_loop fuel t : reads (flock_loop fuel t).
Proof. induction fuel as [|n IH]; cbn [flock_loop]; solve_reads. Qed.
Lemma reads_holder : reads read_holder.
Proof. unfold read_holder. solve_reads. Qed.
Lemma reads_process_owner : reads read_process_owner.
Proof. unfold read_process_owner. solve_reads. Qed.
#[local] Hint Resolve reads_flock_loop reads_holder reads_process_owner : land.
Lemma reads_owner_liveness : reads owner_liveness.
Proof. unfold owner_liveness. solve_reads. Qed.
Lemma reads_assert_owner : reads assert_current_process_owner.
Proof. unfold assert_current_process_owner. solve_reads. Qed.
Lemma reads_queue : reads read_queue.
Proof. unfold read_queue. solve_reads. Qed.
Lemma reads_new_holder a p h r : reads (new_holder a p h r).
Proof. unfold new_holder. solve_reads. Qed.
#[local] Hint Resolve reads_owner_liveness reads_assert_owner reads_queue reads_new_holder : land.
Lemma reads_renewed h x : reads (renewed h x).
Proof. unfold renewed. solve_reads. Qed.
Lemma reads_cleanup_verification h : reads (cleanup_verification h).
Proof. apply reads_verify. Qed.
#[local] Hint Resolve reads_renewed reads_cleanup_verification : land.
Lemma reads_require_no_cleanup h : reads (require_no_cleanup h).
Proof. unfold require_no_cleanup. solve_reads. Qed.
Lemma reads_new_record a o p : reads (new_record a o p).
Proof. unfold new_record. solve_reads. Qed.
Lemma reads_current_operation a p x y : reads (current_operation a p x y).
Proof. unfold current_operation. solve_reads. Qed.
#[local] Hint Resolve reads_require_no_cleanup reads_new_record reads_current_operation : land.
Lemma reads_anchor_take w : reads (anchor_take w).
Proof. unfold anchor_take. solve_reads. Qed.
Lemma reads_held_by_another : reads held_by_another.
Proof. unfold held_by_another. solve_reads. Qed.
Lemma reads_spawn : reads spawn_gated_child.
Proof. unfold spawn_gated_child. solve_reads. Qed.
Lemma reads_gate : reads release_gate.
Proof. unfold release_gate. solve_reads. Qed.
Lemma reads_signal_group s g : reads (signal_group s g).
Proof. unfold signal_group. solve_reads. Qed.
Lemma reads_sleep n u stop : reads stop -> reads (sleep_until n u stop).
Proof. intros Hs. induction n as [|n IH]; cbn [sleep_until]; solve_reads. Qed.
Lemma reads_child_gone r g : reads (child_gone r g).
Proof. unfold child_gone. solve_reads. Qed.
#[local] Hint Resolve reads_signal_group reads_sleep reads_child_gone : land.
Lemma reads_terminate g : reads (terminate_child_group g).
Proof. unfold terminate_child_group. solve_reads. Qed.
#[local] Hint Resolve reads_terminate : land.
Lemma reads_supervise_loop n g t : reads (supervise_loop n g t).
Proof. induction n as [|n IH]; cbn [supervise_loop]; solve_reads. Qed.
#[local] Hint Resolve reads_supervise_loop : land.
Lemma reads_supervise g t : reads (supervise_child g t).
Proof. unfold supervise_child. solve_reads. Qed.

End Reads.

#[export] Hint Resolve reads_flock_loop reads_holder reads_process_owner reads_owner_liveness
  reads_assert_owner reads_queue reads_new_holder reads_renewed reads_cleanup_verification
  reads_require_no_cleanup reads_new_record reads_current_operation reads_anchor_take
  reads_held_by_another reads_spawn reads_gate reads_supervise : land.

(** ** Critical sections *)

Section Guard.
Context {W : World} {P : LockPaths} {L : Lease}.
Context (I : Disk -> Prop) (rely : forall n d, I d -> I (others (env_at n) d)).

Lemma keeps_interfere : keeps I interfere (fun _ => True).
Proof. intros d t Hd. split; [by apply rely | done]. Qed.

Lemma keeps_with_guard {A : Type} (m : M A) phi : keeps I m phi -> keeps I (with_guard m) phi.
Proof.
  intros Hm. unfold with_guard.
  eapply keeps_bind; [apply keeps_any; solve_reads | intros e _].
  assert (H : keeps I (let* e := observe in
      let* l := flock_loop polls (instant e + GUARD_WAIT_SECONDS * 1000) in
      match l with
      | FlockError => throw Io
      | TimedOut => throw GuardTimeout
      | Locked =>
          do* interfere ;;
          let* r := attempt m in
          let* e := observe in
          match r with
          | Err error => throw error
          | Ok value => match io e with Failed _ => throw Io | _ => ret value end
          end
      end) phi); [|destruct (io e); [done | apply keeps_throw | done]].
  eapply keeps_bind; [apply keeps_any; solve_reads | intros e' _].
  eapply keeps_bind; [apply keeps_any; solve_reads | intros l _].
  destruct l; [|apply keeps_throw..].
  eapply keeps_bind; [apply keeps_interfere | intros _ _].
  eapply keeps_bind; [by apply keeps_attempt | intros r Hr].
  eapply keeps_bind; [apply keeps_any; solve_reads | intros e'' _].
  destruct r as [a|x]; [|apply keeps_throw].
  destruct (io e''); first [apply keeps_throw | by apply keeps_ret].
Qed.

Lemma keeps_write_queue q : (forall f d, I d -> I (<[queue := f]> d)) ->
  keeps I (write_queue q) (fun _ => True).
Proof. intros H. apply keeps_safe, safe_change; auto. Qed.

Lemma keeps_remove_from_queue a : (forall f d, I d -> I (<[queue := f]> d)) ->
  keeps I (remove_from_queue a) (fun _ => True).
Proof.
  intros H. unfold remove_from_queue. eapply keeps_bind; [apply keeps_any; solve_reads | intros q _].
  by apply keeps_write_queue.
Qed.

Lemma keeps_foreign_claims es :
  (forall name d, I d -> I (delete (claim_path name) d)) ->
  keeps I (foreign_claims es) (fun _ => True).
Proof.
  intros H. induction es as [|name es IH]; cbn [foreign_claims]; [by apply keeps_ret|].
  case_match; [done|].
  assert (Hr : keeps I (let* _r := attempt (remove_if_exists (claim_path name)) in
                        foreign_claims es) (fun _ => True)).
  { eapply keeps_bind; [|intros _ _; done].
    eapply keeps_impl; [apply keeps_attempt, keeps_safe, safe_remove_if_exists; auto | done]. }
  eapply keeps_bind; [apply keeps_any; solve_reads | intros body _].
  destruct body as [| |body]; [done..|].
  destruct (parse_claim_cleanup body) as [record|]; [|done].
  case_match; [done|].
  eapply keeps_bind; [apply keeps_any; solve_reads | intros v _].
  destruct v; [done | by apply keeps_ret..].
Qed.

Lemma keeps_foreign_box_claim :
  (forall name d, I d -> I (delete (claim_path name) d)) ->
  keeps I foreign_box_claim (fun _ => True).
Proof.
  intros H. unfold foreign_box_claim. eapply keeps_bind; [apply keeps_any; solve_reads | intros e _].
  destruct (listing e); [by apply keeps_foreign_claims | by apply keeps_ret].
Qed.

(** Acquisition without success: if no attempt gets the lease, the command ends with
    a status that is not zero. *)
Lemma keeps_acquire args :
  (forall f d, I d -> I (<[queue := f]> d)) ->
  keeps I (try_acquire args)
    (fun token => match token with Acquired | AcquiredReclaimed _ => False | _ => True end) ->
  keeps I (acquire args) (fun s => s <> 0).
Proof.
  intros Hq Ht. unfold acquire. eapply keeps_bind; [apply keeps_any; solve_reads | intros e _].
  generalize (instant e). intros started. clear e.
  induction polls as [|n IH]; cbn [acquire_loop]; [apply keeps_spin|].
  eapply keeps_bind; [by apply keeps_with_guard | intros token Htok].
  assert (Hwait : keeps I (let* e := observe in
      if a_wait args * 1000 <=? instant e - started then
        do* with_guard (remove_from_queue (a_agent args)) ;; ret 1
      else let* _e := observe in acquire_loop n args started) (fun s => s <> 0)).
  { eapply keeps_bind; [apply keeps_any; solve_reads | intros e' _]. case_match.
    - eapply keeps_bind; [by apply keeps_with_guard, keeps_remove_from_queue | intros _ _].
      by apply keeps_ret.
    - eapply keeps_bind; [apply keeps_any; solve_reads | intros _ _]. exact IH. }
  by destruct token.
Qed.

(** The tests that precede an acquisition. *)
Lemma keeps_admission code (m : M Z) :
  code <> 0 -> (forall name d, I d -> I (delete (claim_path name) d)) ->
  keeps I m (fun s => s <> 0) ->
  keeps I (let* held := held_by_another in
    if held : bool then ret code
    else
      let* foreign := foreign_box_claim in
      if foreign : bool then ret code else m) (fun s => s <> 0).
Proof.
  intros Hne Hc Hm. eapply keeps_bind; [apply keeps_any; solve_reads | intros held _].
  case_match; [by apply keeps_ret|].
  eapply keeps_bind; [by apply keeps_foreign_box_claim | intros foreign _].
  case_match; [by apply keeps_ret | done].
Qed.

Lemma keeps_nonzero (m : M Z) d t : keeps I m (fun s => s <> 0) -> I d ->
  I (m t d).2 /\ (m t d).1.1 <> Done 0.
Proof.
  intros Hm Hd. destruct (Hm d t Hd) as [H1 H2]. split; [done|]. intros He. by rewrite He in H2.
Qed.

End Guard.

(** ** Quarantine *)

Section Quarantine.
Context {W : World} {P : LockPaths} {L : Lease}.

(** The files of the lease are these. *)
Definition fixed (F O : option file) (C : file) (d : Disk) : Prop :=
  d !! lock = F /\ d !! owner = O /\ d !! cleanup = Some C.

Lemma fixed_queue F O C f d : fixed F O C d -> fixed F O C (<[queue := f]> d).
Proof.
  unfold fixed. rewrite !lookup_insert_ne; auto with land.
Qed.

Lemma fixed_claims F O C name d : claims_apart -> fixed F O C d ->
  fixed F O C (delete (claim_path name) d).
Proof.
  intros Ha. unfold fixed. rewrite !lookup_delete_ne; try done;
    apply not_eq_sym, Ha; set_solver.
Qed.

(** While the record is there, nobody passes. *)
Lemma require_no_cleanup_refuses h d :
  is_Some (d !! cleanup) -> returns (require_no_cleanup h) d (fun _ => False).
Proof.
  intros [f Hf]. unfold require_no_cleanup. eapply returns_bind; [solve_reads | apply returns_verify|].
  intros v Hv. destruct v; try apply returns_throw. cbn in Hv. congruence.
Qed.

Lemma quarantined_refuses {A : Type} F O C h (k : () -> M A) phi :
  keeps (fixed F O C) (mbind_ (require_no_cleanup h) k) phi.
Proof.
  apply (keeps_bind _ _ _ (fun _ => False)); [|done]. apply keeps_reads; [solve_reads|].
  intros d (_ & _ & Hc). apply require_no_cleanup_refuses. by rewrite Hc.
Qed.

Lemma quarantined_try_acquire F O C args phi : keeps (fixed F O C) (try_acquire args) phi.
Proof.
  unfold try_acquire. eapply keeps_bind; [apply keeps_any; solve_reads | intros now _].
  eapply keeps_bind; [apply keeps_any; solve_reads | intros h _]. apply quarantined_refuses.
Qed.

Section Fixed.
Context (F O : option file) (C : file).
Context (rely : forall n d, fixed F O C d -> fixed F O C (others (env_at n) d)).

Lemma quarantined_acquire args : keeps (fixed F O C) (acquire args) (fun s => s <> 0).
Proof.
  apply keeps_acquire; [done | intros; by apply fixed_queue | apply quarantined_try_acquire].
Qed.

Lemma quarantined_renew agent hold : keeps (fixed F O C) (renew agent hold) (fun _ => False).
Proof.
  apply keeps_with_guard; [done|].
  eapply keeps_bind; [apply keeps_any; solve_reads | intros holder _].
  eapply keeps_bind; [apply keeps_any; solve_reads | intros x _]. apply quarantined_refuses.
Qed.

Lemma quarantined_release agent : keeps (fixed F O C) (release agent) (fun _ => False).
Proof.
  apply keeps_with_guard; [done|].
  eapply keeps_bind; [apply keeps_any; solve_reads | intros holder _]. apply quarantined_refuses.
Qed.

End Fixed.

End Quarantine.

(** ** Exclusion *)

Section Exclusion.
Context {W : World} {P : LockPaths} {L : Lease}.

(** A process of this host that is not the recorded one, or a later boot. *)
Definition proven_dead (o : Owner.ProcessOwner) : Prop :=
  (exists n b, boot_id_file (env_at n) = Some b /\ trim b <> Owner.boot_id o) \/
  (exists n, gone (env_at n) (Cleanup.Build_ProcessIdentity (Owner.pid o) (Owner.start_ticks o))).

(** The lease files: a holder, and an owner record or none. *)
Definition leased (s : str) (O : option file) (d : Disk) : Prop :=
  d !! lock = Some (Text s) /\ d !! owner = O.

Lemma leased_queue s O f d : leased s O d -> leased s O (<[queue := f]> d).
Proof. unfold leased. rewrite !lookup_insert_ne; auto with land. Qed.

Lemma leased_claims s O name d : claims_apart -> leased s O d ->
  leased s O (delete (claim_path name) d).
Proof.
  intros Ha. unfold leased. rewrite !lookup_delete_ne; try done; apply not_eq_sym, Ha; set_solver.
Qed.

(** The owner file, read by someone who may be unable to. *)
Lemma returns_read_to_string p d :
  returns (read_to_string p) d (fun s => d !! p = Some (Text s)).
Proof.
  unfold read_to_string. eapply returns_bind; [solve_reads | apply returns_fs_read|].
  intros a [-> | [-> _]]; [|apply returns_throw]. unfold content_at.
  destruct (d !! p) as [[s|]|] eqn:E; [by apply returns_ret | apply returns_throw..].
Qed.

Lemma returns_from_result {A : Type} (r : result A LockError) d :
  returns (from_result r) d (fun a => r = Ok a).
Proof. destruct r; [by apply returns_ret | apply returns_throw]. Qed.

Lemma returns_exists p d : (forall n, stat_fails (env_at n) = false) ->
  returns (path_exists p) d (fun b => b = bool_decide (is_Some (d !! p))).
Proof.
  intros Hs t. unfold path_exists. destruct (io (env_at t)); cbn; [by rewrite Hs.. | done].
Qed.

Lemma returns_read_holder d s h : (forall n, stat_fails (env_at n) = false) ->
  d !! lock = Some (Text s) -> holder_parse s = Ok h ->
  returns read_holder d (fun x => x = Some h).
Proof.
  intros Hs Hl Hp. unfold read_holder.
  eapply returns_bind; [solve_reads | by apply returns_exists|]. intros b ->.
  rewrite bool_decide_eq_true_2 by (by rewrite Hl). cbn [negb].
  eapply returns_bind; [solve_reads | apply returns_read_to_string|]. intros s' Hs'.
  rewrite Hl in Hs'. simplify_eq.
  eapply returns_bind; [solve_reads | apply returns_from_result|]. intros h' Hh'.
  apply returns_ret. congruence.
Qed.

Lemma returns_read_owner d :
  returns read_process_owner d (fun x => forall o, x = Some o ->
    exists s, d !! owner = Some (Text s) /\ Owner.parse s = Ok o).
Proof.
  unfold read_process_owner.
  eapply returns_bind; [solve_reads | apply returns_any|]. intros b _.
  destruct (negb b); [by apply returns_ret|].
  eapply returns_bind; [solve_reads | apply returns_read_to_string|]. intros s Hs.
  eapply returns_bind; [solve_reads | apply returns_from_result|]. intros o Ho.
  apply returns_ret. intros o' Heq. exists s. split; congruence.
Qed.

Lemma returns_boot d :
  returns current_boot_id d (fun x => exists n b, boot_id_file (env_at n) = Some b /\ trim b = x).
Proof.
  unfold current_boot_id, read_current_boot_id.
  eapply returns_bind; [solve_reads| |].
  - eapply returns_bind; [solve_reads | apply (returns_observe _ (fun e => exists n, e = env_at n)); eauto|].
    intros e [n ->]. apply (returns_ret _ _ (fun b => forall x, b = Some x ->
      exists n b, boot_id_file (env_at n) = Some b /\ trim b = x)).
    intros x. destruct (boot_id_file (env_at n)) as [b|] eqn:Hb; cbn; [intros [= <-]; eauto | done].
  - intros [b|] Hb; [apply returns_ret; by apply Hb | apply returns_throw].
Qed.

(** The verdict of [owner_liveness]: dead only on evidence. *)
Lemma returns_owner_liveness d :
  returns owner_liveness d (fun l => forall r, l = DeadOwner r ->
    exists s o, d !! owner = Some (Text s) /\ Owner.parse s = Ok o /\ proven_dead o).
Proof.
  unfold owner_liveness. eapply returns_bind; [solve_reads | apply returns_read_owner|].
  intros [o|] Ho; [|by apply returns_ret]. destruct (Ho o eq_refl) as (s & Hs & Hp).
  eapply returns_bind; [solve_reads | apply returns_any|]. intros host _.
  case_match; [by apply returns_ret|].
  eapply returns_bind; [solve_reads | apply returns_boot|]. intros boot (n & b & Hb & Hbt).
  destruct (str_eqb_spec (Owner.boot_id o) boot) as [_|Hne]; cbn [negb].
  - eapply returns_bind; [solve_reads | apply (returns_ticks (Cleanup.Build_ProcessIdentity
      (Owner.pid o) (Owner.start_ticks o)))|].
    intros [ticks| |] Ht; cbn in Ht.
    + destruct (Z.eqb_spec ticks (Owner.start_ticks o)) as [|Hne]; apply returns_ret; [done|].
      intros r _. exists s, o. split_and!; [done..|]. right.
      destruct Ht as (m & s' & st & pa & H1 & H2). exists m. right. cbn. eauto 8.
    + apply returns_ret. intros r _. exists s, o. split_and!; [done..|]. right.
      destruct Ht as [m Hm]. exists m. by left.
    + by apply returns_ret.
  - apply returns_ret. intros r _. exists s, o. split_and!; [done..|]. left. exists n, b.
    split; [done|]. by rewrite Hbt.
Qed.

(** Outsiders: they act under another name, or in a process that is not the owner. *)
Definition outsider (h : holder_state) (O : option file) (agent : str) : Prop :=
  agent <> holder_agent h \/
  exists s o, O = Some (Text s) /\ Owner.parse s = Ok o /\
    forall n, self_pid (env_at n) <> Owner.pid o.

Section Held.
Context (s : str) (h : holder_state) (O : option file).
Context (stat_works : forall n, stat_fails (env_at n) = false).
Context (Hparse : holder_parse s = Ok h).
Context (live : forall n x, unix_seconds (env_at n) = Some x -> live_at h x = true).
Context (owner_lives : forall so o, O = Some (Text so) -> Owner.parse so = Ok o -> ~ proven_dead o).

#[local] Abbreviation I := (leased s O).

Lemma keeps_read_holder : keeps I read_holder (fun x => x = Some h).
Proof.
  apply keeps_reads; [solve_reads|]. intros d [Hl _]. by eapply returns_read_holder.
Qed.

Lemma keeps_owner_liveness : keeps I owner_liveness (fun l => forall r, l <> DeadOwner r).
Proof.
  apply keeps_reads; [solve_reads|]. intros d [_ Ho].
  eapply returns_impl; [apply returns_owner_liveness|]. intros l Hl r ->.
  destruct (Hl r eq_refl) as (so & o & Hso & Hp & Hd). rewrite Ho in Hso.
  by apply (owner_lives so o).
Qed.

Lemma keeps_epoch : keeps I epoch_seconds (fun now => live_at h now = true).
Proof.
  apply keeps_reads; [solve_reads|]. intros d _. unfold epoch_seconds.
  eapply returns_bind; [solve_reads | apply (returns_observe _ (fun e => exists n, e = env_at n)); eauto|].
  intros e [n ->]. destruct (unix_seconds (env_at n)) as [x|] eqn:Hx; [|apply returns_throw].
  case_match; [apply returns_throw|]. apply returns_ret. by eapply live.
Qed.

Lemma keeps_try_acquire args : keeps I (try_acquire args)
  (fun token => match token with Acquired | AcquiredReclaimed _ => False | _ => True end).
Proof.
  unfold try_acquire. eapply keeps_bind; [apply keeps_epoch | intros now Hnow].
  eapply keeps_bind; [apply keeps_read_holder | intros x ->]. cbv beta iota zeta. rewrite Hnow.
  eapply keeps_bind; [apply keeps_any; solve_reads | intros _ _].
  eapply keeps_bind; [apply keeps_any; solve_reads | intros q _].
  apply (keeps_bind _ _ _ (fun x => x = None)).
  - eapply keeps_bind; [apply keeps_owner_liveness | intros l Hl]. apply keeps_ret.
    destruct l as [|r|]; [done | by destruct (Hl r) | done].
  - intros x ->. eapply keeps_bind; [|intros _ _; by apply keeps_ret].
    apply keeps_write_queue. intros. by apply leased_queue.
Qed.

(** A recorded owner refuses every process but itself. *)
Lemma keeps_assert_refuses so o : O = Some (Text so) -> Owner.parse so = Ok o ->
  (forall n, self_pid (env_at n) <> Owner.pid o) ->
  keeps I assert_current_process_owner (fun _ => False).
Proof.
  intros HO Hp Hpid. apply keeps_reads; [solve_reads|]. intros d [_ Ho].
  unfold assert_current_process_owner, read_process_owner.
  eapply returns_bind; [solve_reads| |].
  - eapply returns_bind; [solve_reads | by apply returns_exists|]. intros b ->.
    rewrite Ho, HO, bool_decide_eq_true_2 by done. cbn [negb].
    eapply returns_bind; [solve_reads | apply returns_read_to_string|]. intros s' Hs'.
    eapply returns_bind; [solve_reads | apply returns_from_result|]. intros o' Ho'.
    apply (returns_ret _ _ (fun x => x = Some o)). congruence.
  - intros x ->. eapply returns_bind; [solve_reads| |].
    + unfold current_process_owner.
      eapply returns_bind; [solve_reads | apply (returns_observe _ (fun e => exists n, e = env_at n)); eauto|].
      intros e [n ->]. eapply returns_bind; [solve_reads | apply returns_any|]. intros r _.
      destruct r as [ticks| |]; [|apply returns_throw..].
      eapply returns_bind; [solve_reads | apply returns_any|]. intros host _.
      eapply returns_bind; [solve_reads | apply returns_any|]. intros boot _.
      apply (returns_ret _ _ (fun c => Owner.pid c <> Owner.pid o)). apply Hpid.
    + intros c Hc. cbn beta in Hc. case_decide as Heq; [by subst c | apply returns_throw].
Qed.

Context (rely : forall n d, I d -> I (others (env_at n) d)).

Lemma keeps_renew_outsider agent hold : outsider h O agent ->
  keeps I (renew agent hold) (fun _ => False).
Proof.
  intros Hout. apply keeps_with_guard; [done|].
  eapply keeps_bind; [apply keeps_read_holder | intros x ->].
  eapply keeps_bind; [by apply (keeps_ret _ h (fun x => x = h)) | intros x ->].
  eapply keeps_bind; [apply keeps_any; solve_reads | intros _ _].
  destruct (str_eqb_spec (holder_agent h) agent) as [Heq|_]; [|apply keeps_throw].
  destruct Hout as [Hne | (so & o & HO & Hp & Hpid)]; [by destruct Hne|].
  eapply keeps_bind; [by eapply keeps_assert_refuses | done].
Qed.

Lemma keeps_release_outsider agent : outsider h O agent ->
  keeps I (release agent) (fun _ => False).
Proof.
  intros Hout. apply keeps_with_guard; [done|].
  eapply keeps_bind; [apply keeps_read_holder | intros x ->].
  eapply keeps_bind; [apply keeps_any; solve_reads | intros _ _].
  destruct (str_eqb_spec (holder_agent h) agent) as [Heq|_]; [|apply keeps_throw].
  destruct Hout as [Hne | (so & o & HO & Hp & Hpid)]; [by destruct Hne|].
  eapply keeps_bind; [by eapply keeps_assert_refuses | done].
Qed.

Lemma keeps_reclaim_dead : keeps I reclaim_dead (fun _ => False).
Proof.
  unfold reclaim_dead. apply (keeps_bind _ _ _ (fun _ => False)); [|done].
  apply keeps_with_guard; [done|].
  eapply keeps_bind; [apply keeps_read_holder | intros x ->].
  eapply keeps_bind; [apply keeps_any; solve_reads | intros v _].
  assert (H : keeps I (let* l := owner_liveness in
    match l with
    | DeadOwner _ => do* remove_if_exists lock ;; do* remove_if_exists owner ;; remove_cleanup_record_and_claim
    | Alive | UnknownOwner => throw ReclaimNotProven
    end) (fun _ => False)).
  { eapply keeps_bind; [apply keeps_owner_liveness | intros l Hl].
    destruct l as [|r|]; [apply keeps_throw | by destruct (Hl r) | apply keeps_throw]. }
  destruct v; first [exact H | apply keeps_throw].
Qed.

Lemma keeps_census args : keeps I (census_orphaned_domain args) (fun _ => False).
Proof.
  unfold census_orphaned_domain. eapply keeps_bind; [apply keeps_any; solve_reads | intros restated _].
  apply (keeps_bind _ _ _ (fun _ => False)); [|done].
  apply keeps_with_guard; [done|].
  eapply keeps_bind; [apply keeps_read_holder | intros x ->].
  eapply keeps_bind; [apply keeps_any; solve_reads | intros h' _].
  eapply keeps_bind; [apply keeps_any; solve_reads | intros v _].
  destruct v as [|r|r|r|r|r]; try apply keeps_throw.
  destruct (Cleanup.phase r) as [|l g|l g|g dc rs]; try apply keeps_throw;
    repeat (case_match; [apply keeps_throw|]);
    (eapply keeps_bind; [apply keeps_owner_liveness | intros lv Hl];
     destruct lv as [|x|]; [apply keeps_throw | by destruct (Hl x) | apply keeps_throw]).
Qed.

Lemma held_acquire args : keeps I (acquire args) (fun x => x <> 0).
Proof. apply keeps_acquire; [done | intros; by apply leased_queue | apply keeps_try_acquire]. Qed.

End Held.

End Exclusion.

(** ** The landing lock *)

Section Landing.
#[local] Existing Instance landing.
Context {W : World} {P : LockPaths}.

(** A run whose acquisition cannot succeed does not start. *)
Lemma keeps_run I args :
  (forall name d, I d -> I (delete (claim_path name) d)) ->
  (forall a, keeps I (acquire a) (fun s => s <> 0)) -> keeps I (run args) (fun s => s <> 0).
Proof.
  intros Hc Ha. unfold run. destruct (r_child args); [apply keeps_throw|].
  case_match; [apply keeps_throw|].
  eapply keeps_bind; [apply keeps_any; solve_reads | intros e _].
  match goal with |- keeps _ (match io e with Fine => ?x | _ => _ end) _ =>
    assert (H1 : keeps I x (fun s => s <> 0)); [|destruct (io e); [done | apply keeps_throw | done]] end.
  eapply keeps_bind; [apply keeps_any; solve_reads | intros taken _].
  case_match; [by apply keeps_ret|].
  eapply keeps_bind; [by apply keeps_foreign_box_claim | intros foreign _].
  case_match; [by apply keeps_ret|].
  eapply keeps_bind; [apply Ha | intros status Hs]. destruct (Z.eqb_spec status 0); [done|].
  by apply keeps_ret.
Qed.

(** The commands of the ordinary life of a lease. *)
Definition routine (c : LandLockCommand) : Prop :=
  match c with ReclaimDead | CensusOrphanedDomain _ => False | _ => True end.

(** C18.  While a cleanup record lies on the disk, whatever it contains, the lease is
    in quarantine: no acquisition, renewal, release or new run succeeds, for any
    agent, and none changes the holder, its owner or the record, even when file
    operations fail or the process is killed in the middle.  Only the recovery
    commands are left. *)
Theorem quarantine_holds F O C c d t :
  claims_apart ->
  (forall n d, fixed F O C d -> fixed F O C (others (env_at n) d)) ->
  routine c -> fixed F O C d ->
  fixed F O C (execute c t d).2 /\ (execute c t d).1.1 <> Done 0.
Proof.
  intros Ha Hr Hc Hd.
  assert (Hcl : forall name d, fixed F O C d -> fixed F O C (delete (claim_path name) d))
    by (intros; by apply fixed_claims).
  apply keeps_nonzero; [|done].
  destruct c as [args|a h|a| |args|args]; cbn [execute routine] in *; try done.
  - apply keeps_admission; [done | done | by apply quarantined_acquire].
  - eapply keeps_bind; [by apply quarantined_renew | done].
  - eapply keeps_bind; [by apply quarantined_release | done].
  - apply keeps_run; [done | intros; by apply quarantined_acquire].
Qed.

(** The commands that could take the lease away. *)
Definition by_outsider (h : holder_state) (O : option file) (c : LandLockCommand) : Prop :=
  match c with
  | Renew agent _ | Release agent => outsider h O agent
  | Acquire _ | ReclaimDead | CensusOrphanedDomain _ | Run _ => True
  end.

(** C17.  Mutual exclusion, as long as every [stat] of the holder file answers.  While a
    lease has not expired and its owner process is not proven dead, no command of an
    outsider succeeds: every acquisition, run, recovery or census, by whatever name, and
    every renewal or release under another name or from another process, ends with an
    error or a status that is not zero, and leaves the holder and its owner as they are,
    even when any other file operation fails or the process is killed in the middle.
    The condition on [stat] is needed: the code takes an error of [stat] for an absent
    holder, and an outsider's acquisition then succeeds
    ([stat_failure_displaces_holder] of [LandSamples]). *)
Theorem landing_exclusive s h O c d t :
  (forall n, stat_fails (env_at n) = false) ->
  claims_apart ->
  holder_parse s = Ok h ->
  (forall n x, unix_seconds (env_at n) = Some x -> live_at h x = true) ->
  (forall so o, O = Some (Text so) -> Owner.parse so = Ok o -> ~ proven_dead o) ->
  (forall n d, leased s O d -> leased s O (others (env_at n) d)) ->
  by_outsider h O c -> leased s O d ->
  leased s O (execute c t d).2 /\ (execute c t d).1.1 <> Done 0.
Proof.
  intros Hst Ha Hp Hlive Hown Hr Hc Hd.
  assert (Hcl : forall name d, leased s O d -> leased s O (delete (claim_path name) d))
    by (intros; by apply leased_claims).
  apply keeps_nonzero; [|done].
  destruct c as [args|a hold|a| |args|args]; cbn [execute by_outsider] in *.
  - apply keeps_admission; [done | done | by apply (held_acquire s h O)].
  - eapply keeps_bind; [by apply (keeps_renew_outsider s h O) | done].
  - eapply keeps_bind; [by apply (keeps_release_outsider s h O) | done].
  - eapply keeps_impl; [by apply (keeps_reclaim_dead s h O) | done].
  - eapply keeps_impl; [by apply (keeps_census s h O) | done].
  - apply keeps_run; [done | intros; by apply (held_acquire s h O)].
Qed.

End Landing.
