(* ===== verification/LandProtocol.v ===== *)
(** The protocol of the cleanup record: whatever is done to the lease, and however
    it ends, the record moves along its phases and disappears on evidence only. *)

From stdpp Require Import gmap functions sorting.
From S2P Require Import Prelude Text LandRecords LandLease LandHost LandCensus LandLock LandRun LandLogic.
From S2P Require Import LandLockCorrect.

(** Walk through a program whose parts are safe, entering critical sections with [enter]. *)
Ltac safe_step enter :=
  first
    [ solve [eauto 5 using not_eq_sym with land]
    | solve [apply safe_reads; solve_reads]
    | enter
    | simple apply safe_attempt
    | simple apply safe_bind; [|intros]
    | match goal with
      | |- safe _ (match ?x with _ => _ end) => destruct x
      | |- safe _ _ => progress cbv beta zeta
      end ].

Section Protocol.
Context {W : World} {P : LockPaths} {L : Lease}.

Definition holds (f : option file) (r : Cleanup.CleanupRecord) : Prop :=
  exists s, f = Some (Text s) /\ Cleanup.parse s = Ok r.

(** The statements of operators that a payload's domain is empty, by the evidence they
    name. *)
Context (attested : str -> Prop).

(** One move of the record.  [step_residual] is the census of the supervisor, which may
    call itself complete when a scan of the process table found what it lists; [step_orphan] is the census after the supervisor's death,
    which takes a dead leader, an absent process group and a domain that the kernel shows
    to be empty, or else an operator who attests that it is and names the evidence;
    [step_clear] takes the absence of the whole payload. *)
Inductive cleanup_step : option file -> option file -> Prop :=
| step_arm r : Cleanup.phase r = Cleanup.Armed ->
    cleanup_step None (Some (Text (Cleanup.render r)))
| step_unarm f r : holds f r -> Cleanup.phase r = Cleanup.Armed -> cleanup_step f None
| step_publish f r leader pgid cg : holds f r -> Cleanup.phase r = Cleanup.Armed ->
    cleanup_step f (Some (Text (Cleanup.render (set_phase r (Cleanup.Published leader pgid) cg))))
| step_census f r leader pgid : holds f r -> is_published (Cleanup.phase r) = true ->
    cleanup_step f (Some (Text (Cleanup.render (set_phase r (Cleanup.CensusPending leader pgid) None))))
| step_residual f r pgid complete residuals : holds f r ->
    is_census_pending (Cleanup.phase r) = true ->
    (complete = true -> scan_found residuals) ->
    cleanup_step f
      (Some (Text (Cleanup.render (set_phase r (Cleanup.Residual pgid complete residuals) None))))
| step_orphan f r leader pgid : holds f r ->
    (Cleanup.phase r = Cleanup.Published leader pgid \/
     Cleanup.phase r = Cleanup.CensusPending leader pgid) ->
    (exists n, gone (env_at n) leader) -> (exists n, group_gone (env_at n) pgid) ->
    domain_empty (Cleanup.cgroup r) \/ (exists evidence, attested evidence /\ trim evidence <> []) ->
    cleanup_step f (Some (Text (Cleanup.render (set_phase r (Cleanup.Residual pgid true []) None))))
| step_clear f r : holds f r -> absence_proven r -> cleanup_step f None.

Context (f0 : option file).

Definition reached (d : Disk) : Prop := rtc cleanup_step f0 (d !! cleanup).

Lemma reached_insert p f d : p <> cleanup -> reached d -> reached (<[p := f]> d).
Proof. intros Hp Hd. unfold reached. by rewrite lookup_insert_ne. Qed.

Lemma reached_delete p d : p <> cleanup -> reached d -> reached (delete p d).
Proof. intros Hp Hd. unfold reached. by rewrite lookup_delete_ne. Qed.

Lemma reached_step p d f : p = cleanup -> reached d -> cleanup_step (d !! cleanup) (Some f) ->
  reached (<[p := f]> d).
Proof. intros -> Hd Hs. unfold reached. rewrite lookup_insert_eq. by eapply rtc_r. Qed.

Lemma reached_clear d : reached d -> d !! cleanup = None \/ cleanup_step (d !! cleanup) None ->
  reached (delete cleanup d).
Proof.
  intros Hd Hs. unfold reached. rewrite lookup_delete_eq. destruct Hs as [Hn|Hs].
  - by rewrite <- Hn.
  - by eapply rtc_r.
Qed.

(** ** The programs *)

(** A change is a move, whenever it takes effect. *)
Lemma ends_change (whole : Disk -> Disk) failed killed R d :
  R d -> R (whole d) -> (forall n, R (failed (env_at n) d)) -> (forall n, R (killed (env_at n) d)) ->
  ends (change whole failed killed) R d.
Proof. intros Hd Hw Hf Hk t. unfold change. destruct (io (env_at t)) as [|[]|[]]; cbn; auto. Qed.

Lemma ends_bind {A B : Type} (R1 R : Disk -> Prop) (m : M A) (k : A -> M B) d :
  ends m R1 d -> (forall d', R1 d' -> R d') -> (forall a d', R1 d' -> ends (k a) R d') ->
  ends (mbind_ m k) R d.
Proof.
  intros Hm HR Hk t. unfold mbind_. specialize (Hm t). destruct (m t d) as [[o t'] d'].
  cbn in Hm. destruct o; [by apply Hk | auto..].
Qed.

Lemma ends_write_record r d : reached d ->
  cleanup_step (d !! cleanup) (Some (Text (Cleanup.render r))) ->
  ends (write_cleanup_record cleanup r) reached d.
Proof. intros Hd Hs. apply ends_change; [done | intros; by apply reached_step..]. Qed.

Context (apart : claims_apart).

Lemma claim_ne name : claim_path name <> cleanup.
Proof. apply not_eq_sym, apart. set_solver. Qed.

Lemma safe_clear_claim : safe reached clear_box_claim.
Proof.
  apply safe_bind; [|intros; apply safe_reads; solve_reads].
  apply safe_attempt, safe_remove_if_exists. intros. apply reached_delete; [apply claim_ne | done].
Qed.

Lemma ends_remove_record_and_claim d :
  reached d -> d !! cleanup = None \/ cleanup_step (d !! cleanup) None ->
  ends remove_cleanup_record_and_claim reached d.
Proof.
  intros Hd Hs t. unfold remove_cleanup_record_and_claim, mbind_ at 1, attempt, remove_cleanup_record, change.
  assert (Hrest : forall (r : result () LockError) d t, reached d -> reached ((do* clear_box_claim ;; from_result r) t d).2).
  { intros r d' t' Hd'. apply (safe_bind reached clear_box_claim); [apply safe_clear_claim | | done].
    intros. apply safe_reads. solve_reads. }
  assert (Hc : reached (delete cleanup d)) by (by apply reached_clear).
  destruct (io (env_at t)) as [|[]|[]]; first [by apply Hrest | done].
Qed.

Lemma safe_register_claim a o : safe reached (register_box_claim a o).
Proof.
  unfold register_box_claim. apply safe_bind; [apply safe_reads; solve_reads | intros e].
  assert (H : safe reached (let* host := current_host in
      let body := key_value "version" "1" ++ key_value "cleanup" cleanup ++
                  key_value "agent" a ++ key_value "operation" o ++ key_value "host" host in
      let* _r := attempt (write_truncated (box_claim_file cleanup) body) in ret ())).
  { apply safe_bind; [apply safe_reads; solve_reads | intros host].
    apply safe_bind; [|intros; apply safe_reads; solve_reads].
    apply safe_attempt, safe_write_truncated. intros. apply reached_insert; [apply claim_ne | done]. }
  destruct (io e); [exact H | apply safe_reads; solve_reads | exact H].
Qed.

Lemma require_no_cleanup_none h d :
  returns (require_no_cleanup h) d (fun _ => d !! cleanup = None).
Proof.
  unfold require_no_cleanup. eapply returns_bind; [solve_reads | apply returns_verify|].
  intros v Hv. destruct v; try apply returns_throw. by apply returns_ret.
Qed.

Context (rely : forall n d, rtc cleanup_step (d !! cleanup) (others (env_at n) d !! cleanup)).

Lemma rely_reached n d : reached d -> reached (others (env_at n) d).
Proof. intros Hd. unfold reached. etrans; [exact Hd | apply rely]. Qed.

Lemma safe_guard {A : Type} (m : M A) : safe reached m -> safe reached (with_guard m).
Proof.
  intros Hm. eapply safe_keeps, keeps_with_guard; [apply rely_reached | by apply keeps_safe].
Qed.

(** What is read first does not move the record. *)
Lemma ends_after {A B : Type} (m : M A) (k : A -> M B) d :
  reads m -> reached d -> (forall a, ends (k a) reached d) -> ends (mbind_ m k) reached d.
Proof.
  intros Hm Hd Hk. eapply ends_bind_reads; [done | apply returns_any | done |]. intros a _. apply Hk.
Qed.

Lemma ends_stop {A : Type} e d : reached d -> ends (throw (A := A) e) reached d.
Proof. by intros Hd t. Qed.

Lemma safe_arm a p : safe reached (arm_run a p).
Proof.
  unfold arm_run. intros d Hd. eapply ends_bind_reads; [solve_reads | | done |].
  - unfold new_record. eapply returns_bind; [solve_reads | apply returns_any|]. intros host _.
    case_match; [apply returns_throw|].
    eapply returns_bind; [solve_reads | apply returns_any|]. intros boot _.
    eapply returns_bind; [solve_reads | apply returns_any|]. intros b _.
    by apply (returns_ret _ _ (fun r => Cleanup.phase r = Cleanup.Armed)).
  - intros record Hrec. revert d Hd. apply safe_guard. intros d Hd.
    apply ends_after; [solve_reads | done | intros h].
    eapply ends_bind_reads; [solve_reads | apply require_no_cleanup_none | done | intros u Hn].
    intros t. unfold mbind_.
    assert (H : reached (write_cleanup_record cleanup record t d).2)
      by (apply ends_write_record; [done | rewrite Hn; by constructor]).
    destruct (write_cleanup_record cleanup record t d) as [[o t'] d']. cbn in H.
    destruct o; [by apply safe_register_claim | done..].
Qed.

(** After a reading step its result is known. *)
Lemma safe_after {A B : Type} (phi : A -> Prop) (m : M A) (k : A -> M B) :
  reads m -> (forall d, returns m d phi) -> (forall a, phi a -> safe reached (k a)) ->
  safe reached (mbind_ m k).
Proof. intros Hm Hphi Hk d Hd. eapply ends_bind_reads; [done | apply Hphi | done |]. intros a Ha. by apply Hk. Qed.

Lemma safe_transition a p expected next cg :
  (forall r f, holds f r -> expected (Cleanup.phase r) = true ->
     cleanup_step f (Some (Text (Cleanup.render (set_phase r next cg))))) ->
  safe reached (transition_run_cleanup a p expected next cg).
Proof.
  intros Hstep. apply safe_guard. intros d Hd.
  apply ends_after; [solve_reads | done | intros h].
  eapply ends_bind_reads; [solve_reads | apply returns_verify | done | intros v Hv].
  assert (Hgo : forall r, record_at d cleanup r ->
    ends (if negb (expected (Cleanup.phase r)) then throw InvalidState
          else write_cleanup_record cleanup (set_phase r next cg)) reached d).
  { intros r Hr. destruct (expected (Cleanup.phase r)) eqn:He; cbn [negb]; [|by apply ends_stop].
    apply ends_write_record; [done | by apply Hstep]. }
  destruct v; cbn in Hv; first [by apply ends_stop | apply Hgo; tauto].
Qed.

Lemma safe_publish a p g : safe reached (publish_run a p g).
Proof.
  apply safe_bind; [apply safe_reads; solve_reads | intros cg]. apply safe_transition.
  intros r f Hr He. destruct (Cleanup.phase r) eqn:Hp; try done. by eapply step_publish.
Qed.

Lemma safe_begin_census a p g : safe reached (begin_run_census a p g).
Proof. apply safe_transition. intros. by eapply step_census. Qed.

Lemma safe_record_residuals a p g c : (complete c = true -> scan_found (identities c)) ->
  safe reached (record_residuals a p g c).
Proof. intros Hc. apply safe_transition. intros. by eapply step_residual. Qed.

Lemma safe_clear_unstarted a p : safe reached (clear_unstarted_run a p).
Proof.
  apply safe_guard. intros d Hd. apply ends_after; [solve_reads | done | intros h].
  eapply ends_bind_reads; [solve_reads | apply returns_verify | done | intros v Hv].
  destruct v as [|r|r|r|r|r]; try by apply ends_stop.
  apply ends_after; [solve_reads | done | intros _].
  apply ends_remove_record_and_claim; [done | right]. destruct Hv as [Hr Ha]. by eapply step_unarm.
Qed.

Lemma safe_clear_proven a p g : scan_found [] -> safe reached (clear_proven_run a p g).
Proof.
  intros Hs. apply safe_bind; [by apply safe_record_residuals | intros _].
  apply safe_guard. intros d Hd. apply ends_after; [solve_reads | done | intros holder].
  apply ends_after; [solve_reads | done | intros h].
  eapply ends_bind_reads; [solve_reads | apply returns_verify | done | intros v Hv].
  destruct v as [|r|r|r|r|r]; try by apply ends_stop.
  apply ends_remove_record_and_claim; [done | right]. destruct Hv as [Hr Ha]. by eapply step_clear.
Qed.

(** The end of a run: what the census of the supervisor saw decides. *)
Lemma safe_run_census {A : Type} (begin : M ()) pgid (record : ResidualCapture -> M ()) (clear : M ()) (rest : M A) :
  safe reached begin ->
  (forall c, (complete c = true -> scan_found (identities c)) -> safe reached (record c)) ->
  (scan_found [] -> safe reached clear) -> safe reached rest ->
  safe reached (
    do* begin ;;
    let* e := observe in
    let* capture := capture_and_freeze_residuals (self_pid e) in
    let* group := process_group_exists pgid in
    if negb (negb group && complete capture && match identities capture with [] => true | _ => false end)
    then do* record capture ;; throw CleanupQuarantined
    else do* clear ;; rest).
Proof.
  intros Hb Hr Hc Hk. apply safe_bind; [done | intros _].
  apply (safe_after (fun e => exists n, e = env_at n)); [solve_reads | apply returns_env|]. intros e [n ->].
  apply (safe_after (fun c => complete c = true -> scan_found (identities c)));
    [solve_reads | intros; apply returns_capture_rounds|]. intros c Hcap.
  apply safe_bind; [apply safe_reads; solve_reads | intros group].
  destruct (negb group && complete c && _) eqn:Hempty; cbn [negb].
  - apply andb_true_iff in Hempty as [[_ Hcomp]%andb_true_iff Hnil].
    specialize (Hcap Hcomp). destruct (identities c); [|done].
    apply safe_bind; [by apply Hc | by intros].
  - apply safe_bind; [by apply Hr | intros; apply safe_reads; solve_reads].
Qed.

Lemma safe_write_queue q : safe reached (write_queue q).
Proof.
  eapply safe_keeps, keeps_write_queue. intros. apply reached_insert; auto using not_eq_sym with land.
Qed.

Lemma safe_write_holder h : safe reached (write_holder h).
Proof. apply safe_write_truncated. intros. apply reached_insert; auto using not_eq_sym with land. Qed.

Lemma safe_remove p : p <> cleanup -> safe reached (remove_if_exists p).
Proof. intros. apply safe_remove_if_exists. intros. by apply reached_delete. Qed.

Lemma safe_remove_from_queue a : safe reached (remove_from_queue a).
Proof. apply safe_bind; [apply safe_reads; solve_reads | intros; apply safe_write_queue]. Qed.

#[local] Hint Resolve safe_write_queue safe_write_holder safe_remove safe_remove_from_queue
  safe_arm safe_publish safe_begin_census safe_record_residuals safe_clear_unstarted
  safe_clear_proven : land.

#[local] Ltac solve_safe := intros; repeat safe_step ltac:(simple apply safe_guard).

Lemma safe_take_turn args h r q : safe reached (take_turn args h r q).
Proof. unfold take_turn. solve_safe. Qed.
#[local] Hint Resolve safe_take_turn : land.

Lemma safe_try_acquire args : safe reached (try_acquire args).
Proof. unfold try_acquire. solve_safe. Qed.
#[local] Hint Resolve safe_try_acquire : land.

Lemma safe_acquire args : safe reached (acquire args).
Proof.
  unfold acquire. apply safe_bind; [apply safe_reads; solve_reads | intros e].
  generalize (instant e). intros started. induction polls as [|n IH]; cbn [acquire_loop]; solve_safe.
Qed.

Lemma safe_renew a h : safe reached (renew a h).
Proof. unfold renew. solve_safe. Qed.
Lemma safe_release a : safe reached (release a).
Proof. unfold release. solve_safe. Qed.
#[local] Hint Resolve safe_acquire safe_renew safe_release : land.

Lemma safe_foreign : safe reached foreign_box_claim.
Proof.
  eapply safe_keeps, keeps_foreign_box_claim. intros. apply reached_delete; [apply claim_ne | done].
Qed.
#[local] Hint Resolve safe_foreign : land.

Lemma safe_write_owner : safe reached write_current_process_owner.
Proof.
  apply safe_bind; [apply safe_reads; solve_reads | intros o]. apply safe_write_truncated.
  intros. apply reached_insert; auto using not_eq_sym with land.
Qed.
#[local] Hint Resolve safe_write_owner : land.

(** Removing another file leaves the record where it is. *)
Lemma ends_remove_other p d : p <> cleanup -> reached d ->
  d !! cleanup = None \/ cleanup_step (d !! cleanup) None ->
  ends (remove_if_exists p)
    (fun d' => reached d' /\ (d' !! cleanup = None \/ cleanup_step (d' !! cleanup) None)) d.
Proof.
  intros Hp Hd Hs. apply ends_change; [done | | done |]; intros;
    unfold reached; by rewrite lookup_delete_ne.
Qed.

Lemma safe_reclaim : safe reached reclaim_dead.
Proof.
  apply safe_bind; [|intros; apply safe_reads; solve_reads].
  apply safe_guard. intros d Hd. apply ends_after; [solve_reads | done | intros [h|]].
  - eapply ends_bind_reads; [solve_reads | apply returns_verify | done | intros v Hv].
    assert (Hgo : (d !! cleanup = None \/ cleanup_step (d !! cleanup) None) ->
      ends (let* l := owner_liveness in
        match l with
        | DeadOwner _ => do* remove_if_exists lock ;; do* remove_if_exists owner ;; remove_cleanup_record_and_claim
        | Alive | UnknownOwner => throw ReclaimNotProven
        end) reached d).
    { intros Hs. apply ends_after; [solve_reads | done | intros l].
      destruct l; [by apply ends_stop | | by apply ends_stop].
      apply (ends_bind (fun d' : Disk => reached d' /\ (d' !! cleanup = None \/ cleanup_step (d' !! cleanup) None)));
        [|by intros ? []|].
      { apply ends_remove_other; auto using not_eq_sym with land. }
      intros _ d1 [Hd1 Hs1].
      apply (ends_bind (fun d' : Disk => reached d' /\ (d' !! cleanup = None \/ cleanup_step (d' !! cleanup) None)));
        [|by intros ? []|].
      { apply ends_remove_other; auto using not_eq_sym with land. }
      intros _ d2 [Hd2 Hs2]. by apply ends_remove_record_and_claim. }
    destruct v as [|r|r|r|r|r]; try by apply ends_stop.
    + apply Hgo. by left.
    + apply Hgo. right. destruct Hv as [Hr Ha]. by eapply step_clear.
  - eapply ends_bind_reads; [solve_reads | apply returns_any | done | intros v _].
    destruct v; try by apply ends_stop. apply safe_remove; auto using not_eq_sym with land.
Qed.

Lemma returns_group_exists pgid d :
  returns (process_group_exists pgid) d (fun b => b = false -> exists n, group_gone (env_at n) pgid).
Proof.
  unfold process_group_exists. eapply returns_bind; [solve_reads | apply returns_group|].
  intros l Hl. apply returns_ret. by destruct l; auto.
Qed.

(** The census of an orphan, once the caller has named it. *)
Lemma ends_orphan r leader pgid attest evidence d : reached d -> record_at d cleanup r ->
  (attest = true -> attested evidence) ->
  (Cleanup.phase r = Cleanup.Published leader pgid \/
   Cleanup.phase r = Cleanup.CensusPending leader pgid) ->
  ends (let* l := owner_liveness in
    match l with
    | Alive | UnknownOwner => throw census_refusal
    | DeadOwner _ =>
        let* live := exact_process_liveness leader in
        match live with
        | Some true | None => throw census_refusal
        | Some false =>
            let* group := process_group_exists pgid in
            if group : bool then throw census_refusal
            else
              let* domain := census_recorded_domain (Cleanup.cgroup r) in
              match census_disposition domain attest evidence with
              | None => throw census_refusal
              | Some _ =>
                  write_cleanup_record cleanup (set_phase r (Cleanup.Residual pgid true []) None)
              end
        end
    end) reached d.
Proof.
  intros Hd Hr Ha Hp. apply ends_after; [solve_reads | done | intros l].
  destruct l; [by apply ends_stop | | by apply ends_stop].
  eapply ends_bind_reads; [solve_reads | apply returns_liveness | done | intros live Hlive].
  destruct live as [[]|]; [by apply ends_stop | | by apply ends_stop].
  eapply ends_bind_reads; [solve_reads | apply returns_group_exists | done | intros group Hgroup].
  destruct group; [by apply ends_stop|].
  eapply ends_bind_reads; [solve_reads | apply returns_census | done | intros domain Hdom].
  destruct (census_disposition domain attest evidence) eqn:Hc; [|by apply ends_stop].
  apply ends_write_record; [done|].
  destruct (proj1 (census_disposition_exact _ _ _) (mk_is_Some _ _ Hc)) as [->|[-> He]];
    eapply step_orphan; eauto.
Qed.

Lemma safe_census args : (c_attest_domain_empty args = true -> attested (c_evidence args)) ->
  safe reached (census_orphaned_domain args).
Proof.
  intros Ha. unfold census_orphaned_domain. apply safe_bind; [apply safe_reads; solve_reads | intros restated].
  apply safe_bind; [|intros; apply safe_reads; solve_reads].
  apply safe_guard. intros d Hd. apply ends_after; [solve_reads | done | intros holder].
  apply ends_after; [solve_reads | done | intros h].
  eapply ends_bind_reads; [solve_reads | apply returns_verify | done | intros v Hv].
  destruct v as [|r|r|r|r|r]; try by apply ends_stop. destruct Hv as [Hr _].
  destruct (Cleanup.phase r) as [|l g|l g|g dc rs] eqn:Hp; try by apply ends_stop.
  - repeat (case_match; [by apply ends_stop|]). apply ends_orphan; auto.
  - repeat (case_match; [by apply ends_stop|]). apply ends_orphan; auto.
Qed.

End Protocol.

#[export] Hint Resolve safe_remove_from_queue safe_try_acquire safe_acquire safe_renew safe_release
  safe_foreign safe_write_owner safe_arm safe_publish safe_begin_census safe_record_residuals
  safe_clear_unstarted safe_clear_proven safe_reclaim safe_census : land.

Ltac solve_safe := intros; repeat safe_step ltac:(simple apply safe_guard; [assumption|]).

(** ** The landing lock *)

(** The command carries an operator's attestation. *)
Definition attests (c : LandLockCommand) (evidence : str) : Prop :=
  exists args, c = CensusOrphanedDomain args /\ c_attest_domain_empty args = true /\
    c_evidence args = evidence.

Section Landing.
#[local] Existing Instance landing.
Context {W : World} {P : LockPaths} (attested : str -> Prop) (f0 : option file) (apart : claims_apart).
Context (rely : forall n d,
  rtc (cleanup_step attested) (d !! cleanup) (others (env_at n) d !! cleanup)).

Lemma safe_finish args g o : safe (reached attested f0) (finish_run args g o).
Proof.
  unfold finish_run. cbv zeta.
  eapply (safe_run_census attested f0 _ _ (fun c => record_residuals _ _ _ c)); solve_safe.
Qed.
#[local] Hint Resolve safe_finish : land.
Lemma safe_supervised args : safe (reached attested f0) (supervised args).
Proof. unfold supervised. solve_safe. Qed.
#[local] Hint Resolve safe_supervised : land.
Lemma safe_run args : safe (reached attested f0) (run args).
Proof. unfold run. solve_safe. Qed.
#[local] Hint Resolve safe_run : land.
Lemma safe_execute c : (forall evidence, attests c evidence -> attested evidence) ->
  safe (reached attested f0) (execute c).
Proof.
  intros Ha. destruct c; cbn [execute]; try solve_safe.
  apply safe_census; [done..|]. intros. apply Ha. eexists. eauto.
Qed.

End Landing.


(** C19.  The cleanup record follows its protocol.  Whatever command runs, whatever
    fails and wherever the process is killed, the record on the disk goes through
    moves of the protocol only.  It is armed when there is none, published while armed,
    awaits its census after it was published and is concluded by that census, which is
    called complete only when a scan of the process table found exactly what it lists, or
    by the census of an orphan.  That one takes three things: the leader was seen to be gone,
    its process group was seen to be gone, and the kernel showed the recorded control
    group and the slice it may have moved to, with everything below them, to hold no
    process; an operator who attests that the domain is empty and names evidence stands
    in for the last of them, whatever the kernel says.  The record is removed only while
    armed, that is before any payload ran, or once it says so and the kernel agrees: the
    host has booted since, or the census was complete and each identity in it and the
    process group were seen to be gone. *)
Theorem cleanup_protocol `{W : World, P : LockPaths} (attested : str -> Prop) c d t :
  claims_apart ->
  (forall evidence, attests c evidence -> attested evidence) ->
  (forall n d, rtc (cleanup_step attested) (d !! cleanup) (others (env_at n) d !! cleanup)) ->
  rtc (cleanup_step attested) (d !! cleanup) ((execute c t d).2 !! cleanup).
Proof.
  intros Ha Hc Hr. exact (safe_execute attested (d !! cleanup) Ha Hr c Hc d (rtc_refl _ _) t).
Qed.
