(* ===== verification/LandRefine.v ===== *)
(** The lease as its clients see it: a holder, an owner process and a queue.  On a
    calm host, where file operations succeed, an attempt to acquire does to the files
    what one step of this lease does to its state. *)

From stdpp Require Import gmap functions sorting.
From S2P Require Import Prelude Text LandRecords LandRecordsCorrect LandLease LandHost LandCensus LandLock.
From S2P Require Import LandRun LandLogic LandLockCorrect.

(** ** What a lock promises of its records *)

(** [holder_wf] and [purpose_wf] say which records fit their files. *)
Class LeaseLaws (L : Lease) : Type := {
  holder_wf : holder_state -> Prop;
  purpose_wf : purpose -> Prop;
  holder_roundtrip h : holder_wf h -> holder_parse (holder_render h) = Ok h;
  holder_clean h : holder_wf h -> clean (holder_agent h);
  purpose_cell p : purpose_wf p -> QueueCodec.cell (purpose_column p);
  purpose_clean p : purpose_wf p -> clean (purpose_operation p);
  holder_new_wf agent p host acquired human expires reclaimed :
    clean agent -> purpose_wf p -> clean host -> i64 acquired -> clean human -> i64 expires ->
    clean_opt reclaimed -> holder_wf (holder_new agent p host acquired human expires reclaimed);
  holder_new_fields agent p host acquired human expires reclaimed :
    let h := holder_new agent p host acquired human expires reclaimed in
    holder_agent h = agent /\ holder_is_for h p = true /\ holder_acquired h = acquired /\
    holder_expires h = expires;
  (** a holder that is for [p] names [p], in its record and in its cleanup record *)
  holder_names_purpose h p : holder_is_for h p = true -> holder_purpose h = Ok p;
  holder_names_operation h p : holder_is_for h p = true -> holder_operation h = purpose_operation p
}.

(** ** The abstract lease *)

Section Lease.
Context {L : Lease}.

Record lease : Type := {
  l_holder : option holder_state;
  l_owner : option Owner.ProcessOwner;
  l_queue : list Queue.QueueEntry
}.

(** The lease can be taken: nobody has it, it has expired, or its owner is dead. *)
Definition available (now : Z) (verdict : OwnerLiveness) (l : lease) : Prop :=
  match l_holder l with
  | None => True
  | Some h => holder_expires h <= now \/ exists r, verdict = DeadOwner r
  end.

(** Whoever stands in line for longer than twice the default wait has left. *)
Definition waiting (now : Z) (q : list Queue.QueueEntry) : list Queue.QueueEntry :=
  filter (fun e => now - 2 * DEFAULT_WAIT_SECONDS <= Queue.enqueued_at e) q.

(** The caller keeps its place, or joins at the end. *)
Definition joined (args : AcquireArgs) (now : Z) (q : list Queue.QueueEntry) :
    list Queue.QueueEntry :=
  if decide (Exists (fun e => Queue.agent e = a_agent args) q) then waiting now q
  else waiting now (q ++ [Queue.Build_QueueEntry now (a_agent args)
                          (purpose_column (a_purpose args))]).

Inductive lease_step (args : AcquireArgs) (now : Z) (verdict : OwnerLiveness) :
    lease -> AcquireToken -> lease -> Prop :=
| lease_held l h :
    l_holder l = Some h -> ~ available now verdict l ->
    lease_step args now verdict l (Held (holder_agent h) (holder_expires h - now))
      {| l_holder := l_holder l; l_owner := l_owner l; l_queue := joined args now (l_queue l) |}
| lease_wait l first rest :
    available now verdict l -> joined args now (l_queue l) = first :: rest ->
    Queue.agent first <> a_agent args ->
    lease_step args now verdict l (WaitTurn (Queue.agent first))
      {| l_holder := l_holder l; l_owner := l_owner l; l_queue := first :: rest |}
| lease_take l token h :
    available now verdict l ->
    (forall first, head (joined args now (l_queue l)) = Some first -> Queue.agent first = a_agent args) ->
    (token = Acquired \/ exists previous, token = AcquiredReclaimed previous) ->
    holder_agent h = a_agent args -> holder_is_for h (a_purpose args) = true ->
    holder_acquired h = now ->
    holder_expires h = saturating_add_i64 now (as_i64 (a_hold args)) ->
    lease_step args now verdict l token
      {| l_holder := Some h; l_owner := None;
         l_queue := filter (fun e => Queue.agent e <> a_agent args) (joined args now (l_queue l)) |}.

End Lease.

(** ** The files *)

Section Files.
Context {P : LockPaths} {L : Lease} {LL : LeaseLaws L}.

Definition absent_or (d : Disk) (p : str) (s : option str) : Prop := d !! p = Text <$> s.

Record represents (d : Disk) (l : lease) : Prop := {
  rep_holder : absent_or d lock (holder_render <$> l_holder l);
  rep_owner : absent_or d owner (Owner.render <$> l_owner l);
  rep_queue : d !! queue = Some (Text (Queue.render_content (l_queue l))) \/
              d !! queue = None /\ l_queue l = [];
  rep_cleanup : d !! cleanup = None;
  rep_wf_holder : from_option holder_wf True (l_holder l);
  rep_wf_owner : from_option OwnerCodec.wf True (l_owner l);
  rep_wf_queue : Forall QueueCodec.wf (l_queue l)
}.

End Files.

(** [m] returns [a] and leaves [d'], from [d]. *)
Definition becomes {A : Type} (m : M A) (d : Disk) (a : A) (d' : Disk) : Prop :=
  forall t, exists t', m t d = (Done a, t', d').

Lemma becomes_ret {A : Type} (a : A) d : becomes (ret a) d a d.
Proof. intros t. by exists t. Qed.

Lemma becomes_bind {A B : Type} (m : M A) (k : A -> M B) d a d1 b d2 :
  becomes m d a d1 -> becomes (k a) d1 b d2 -> becomes (mbind_ m k) d b d2.
Proof.
  intros Hm Hk t. unfold mbind_. destruct (Hm t) as [t' ->]. apply Hk.
Qed.

Lemma forall_filter {A : Type} (Q : A -> Prop) (R : A -> Prop) `{!forall x, Decision (R x)} l :
  Forall Q l -> Forall Q (filter R l).
Proof.
  rewrite !list.Forall_forall. intros Hl x Hx. apply list_elem_of_filter in Hx as [_ Hx]. by apply Hl.
Qed.

Section Calm.
Context {W : World} {P : LockPaths} {L : Lease} {LL : LeaseLaws L} (e : Env).
Context (steady : forall n, env_at n = e) (fine : io e = Fine) (stats : stat_fails e = false).

Lemma becomes_observe d : becomes observe d e d.
Proof. intros t. exists (S t). unfold observe. by rewrite steady, fine. Qed.

Lemma becomes_exists p d : becomes (path_exists p) d (bool_decide (is_Some (d !! p))) d.
Proof. intros t. exists (S t). unfold path_exists. by rewrite steady, fine, stats. Qed.

Lemma becomes_fs_read p d : becomes (fs_read p) d (content_at d p) d.
Proof. intros t. exists (S t). unfold fs_read. by rewrite steady, fine. Qed.

Lemma becomes_change whole failed killed d : becomes (change whole failed killed) d () (whole d).
Proof. intros t. exists (S t). unfold change. by rewrite steady, fine. Qed.

Lemma becomes_read_to_string p d s : d !! p = Some (Text s) -> becomes (read_to_string p) d s d.
Proof.
  intros Hp. eapply becomes_bind; [apply becomes_fs_read|]. unfold content_at. rewrite Hp.
  apply becomes_ret.
Qed.

(** The host as pure functions. *)
Definition host_of : str :=
  match hostname e with
  | Some out => let h := trim out in if str_eqb h [] then lit "unknown" else h
  | None => lit "unknown"
  end.

Lemma becomes_host d : becomes current_host d host_of d.
Proof. eapply becomes_bind; [apply becomes_observe | apply becomes_ret]. Qed.

Lemma becomes_epoch now d : unix_seconds e = Some now -> now < 2 ^ 63 -> becomes epoch_seconds d now d.
Proof.
  intros Hn Hlt. eapply becomes_bind; [apply becomes_observe|]. rewrite Hn.
  destruct (Z.leb_spec (2 ^ 63) now); [lia | apply becomes_ret].
Qed.

Lemma becomes_read_holder d l : represents d l -> becomes read_holder d (l_holder l) d.
Proof.
  intros [Hh _ _ _ Hw _ _]. unfold absent_or in Hh. unfold read_holder.
  eapply becomes_bind; [apply becomes_exists|]. rewrite Hh.
  destruct (l_holder l) as [h|]; cbn in Hw |- *; [|by apply becomes_ret].
  eapply becomes_bind; [apply becomes_read_to_string, Hh|].
  eapply becomes_bind; [|apply becomes_ret]. rewrite holder_roundtrip by done.
  apply becomes_ret.
Qed.

Lemma becomes_read_queue d l : represents d l -> becomes read_queue d (l_queue l) d.
Proof.
  intros [_ _ Hq _ _ _ Hw]. unfold read_queue.
  eapply becomes_bind; [apply becomes_exists|]. destruct Hq as [Hq | [Hq ->]]; rewrite Hq; cbn.
  - eapply becomes_bind; [apply becomes_read_to_string, Hq|].
    rewrite QueueCodec.parse_render_queue by done. apply becomes_ret.
  - apply becomes_ret.
Qed.

Lemma becomes_read_owner d l : represents d l -> becomes read_process_owner d (l_owner l) d.
Proof.
  intros [_ Ho _ _ _ Hw _]. unfold absent_or in Ho. unfold read_process_owner.
  eapply becomes_bind; [apply becomes_exists|]. rewrite Ho.
  destruct (l_owner l) as [o|]; cbn in Hw |- *; [|by apply becomes_ret].
  eapply becomes_bind; [apply becomes_read_to_string, Ho|].
  eapply becomes_bind; [|apply becomes_ret]. rewrite OwnerCodec.parse_render_owner by done.
  apply becomes_ret.
Qed.

Lemma becomes_no_cleanup d h : d !! cleanup = None -> becomes (require_no_cleanup h) d () d.
Proof.
  intros Hc. apply (becomes_bind _ _ _ VNone d); [|apply becomes_ret].
  eapply becomes_bind; [apply becomes_fs_read|]. unfold content_at. rewrite Hc. apply becomes_ret.
Qed.

(** The verdict on an owner of the abstract state. *)
Definition verdict (boot : str) (o : option Owner.ProcessOwner) : OwnerLiveness :=
  match o with
  | None => UnknownOwner
  | Some o =>
      if negb (str_eqb (Owner.host o) host_of) then UnknownOwner
      else if negb (str_eqb (Owner.boot_id o) (trim boot)) then
        DeadOwner ("host rebooted (owner boot_id=" +++ Owner.boot_id o +++ " current=" +++
                   trim boot +++ ")")
      else
        match stat_file e (Owner.pid o) with
        | Missing => DeadOwner ("pid " +++ dec (Owner.pid o) +++ " is absent")
        | Unreadable => UnknownOwner
        | Content s =>
            match parse_stat s with
            | None => UnknownOwner
            | Some (_, _, ticks) =>
                if ticks =? Owner.start_ticks o then Alive
                else DeadOwner ("pid " +++ dec (Owner.pid o) +++ " was reused (owner start_ticks=" +++
                                dec (Owner.start_ticks o) +++ " current=" +++ dec ticks +++ ")")
            end
        end
  end.

Lemma becomes_owner_liveness d l boot : represents d l -> boot_id_file e = Some boot ->
  becomes owner_liveness d (verdict boot (l_owner l)) d.
Proof.
  intros Hr Hb. unfold owner_liveness. eapply becomes_bind; [by apply becomes_read_owner|].
  unfold verdict. destruct (l_owner l) as [o|]; [|apply becomes_ret].
  eapply becomes_bind; [apply becomes_host|]. case_match; [apply becomes_ret|].
  eapply (becomes_bind _ _ _ (trim boot)).
  { eapply (becomes_bind _ _ _ (Some (trim boot))); [|apply becomes_ret].
    eapply becomes_bind; [apply becomes_observe|]. rewrite Hb. apply becomes_ret. }
  case_match; [apply becomes_ret|].
  eapply becomes_bind.
  { eapply becomes_bind; [|apply becomes_ret].
    eapply becomes_bind; [apply becomes_observe | apply becomes_ret]. }
  destruct (stat_file e (Owner.pid o)) as [| |s]; [apply becomes_ret..|].
  destruct (parse_stat s) as [[[st pa] ticks]|]; [|apply becomes_ret].
  case_match; apply becomes_ret.
Qed.

(** ** One attempt *)

Lemma enqueue_joined args now q : enqueue args now q = joined args now q.
Proof.
  unfold enqueue, joined, waiting. cbv zeta. case_decide as Hx.
  - replace (existsb _ q) with true; [done|]. symmetry. apply existsb_exists.
    apply list.Exists_exists in Hx as (x & Hin & Hx). exists x.
    split; [by apply list_elem_of_In | by rewrite Hx, str_eqb_refl].
  - replace (existsb _ q) with false; [done|]. symmetry. apply not_true_iff_false. intros Hb.
    apply Hx. apply existsb_exists in Hb as (x & Hin & Hb). apply list.Exists_exists. exists x.
    split; [by apply list_elem_of_In|]. by destruct (str_eqb_spec (Queue.agent x) (a_agent args)).
Qed.

Lemma joined_wf args now q : i64 now -> QueueCodec.cell (a_agent args) ->
  QueueCodec.cell (purpose_column (a_purpose args)) ->
  Forall QueueCodec.wf q -> Forall QueueCodec.wf (joined args now q).
Proof.
  intros Hn Ha Hp Hq. unfold joined, waiting. case_decide; apply forall_filter; [done|].
  apply Forall_app. split; [done|]. by constructor.
Qed.

(** What the caller must supply: names that fit the files, and a host whose answers do. *)
Record presentable (args : AcquireArgs) (now : Z) (human boot : str) : Prop := {
  pr_clock : unix_seconds e = Some now;
  pr_now : 0 <= now < 2 ^ 63;
  pr_human : local_time e now = Some human;
  pr_clean : clean human;
  pr_boot : boot_id_file e = Some boot;
  pr_boot_clean : clean (trim boot);
  pr_host : clean host_of;
  pr_agent : QueueCodec.cell (a_agent args);
  pr_purpose : purpose_wf (a_purpose args)
}.

Context (args : AcquireArgs) (now : Z) (human boot : str) (Hpr : presentable args now human boot).

Lemma dead_inj a b : DeadOwner a = DeadOwner b -> a = b.
Proof. congruence. Qed.

Lemma verdict_clean o r : from_option OwnerCodec.wf True o -> verdict boot o = DeadOwner r -> clean r.
Proof.
  intros Ho. destruct Hpr. unfold verdict. destruct o as [o|]; [|done]. destruct Ho as [Hh Hb _ _].
  case_match; [done|]. case_match; [intros <-%dead_inj|].
  { repeat (apply clean_app; [first [done | apply clean_dec]|]). done. }
  destruct (stat_file e (Owner.pid o)) as [| |s]; [intros <-%dead_inj | done |].
  { repeat (apply clean_app; [first [done | apply clean_dec]|]). done. }
  destruct (parse_stat s) as [[[st pa] ticks]|]; [|done].
  case_match; [done|]. intros <-%dead_inj.
  repeat (apply clean_app; [first [done | apply clean_dec]|]). done.
Qed.

Definition fresh (reclaimed : option str) : holder_state :=
  holder_new (a_agent args) (a_purpose args) host_of now human
    (saturating_add_i64 now (as_i64 (a_hold args))) reclaimed.

Lemma becomes_new_holder r d :
  becomes (new_holder (a_agent args) (a_purpose args) (a_hold args) r) d (fresh r) d.
Proof.
  destruct Hpr. unfold new_holder. eapply becomes_bind; [apply becomes_epoch; [done | lia]|].
  eapply becomes_bind; [apply becomes_observe|].
  eapply becomes_bind; [rewrite pr_human0; apply becomes_ret|].
  eapply becomes_bind; [apply becomes_host | apply becomes_ret].
Qed.

Lemma fresh_wf r : clean_opt r -> holder_wf (fresh r).
Proof.
  intros Hr. destruct Hpr. apply holder_new_wf; try done.
  - by apply QueueCodec.cell_clean.
  - unfold i64. lia.
  - unfold i64, saturating_add_i64. lia.
Qed.

(** Writing the queue back changes the queue. *)
Lemma becomes_write_queue d l q : represents d l -> Forall QueueCodec.wf q ->
  exists d', becomes (write_queue q) d () d' /\
    represents d' {| l_holder := l_holder l; l_owner := l_owner l; l_queue := q |}.
Proof.
  intros [Hh Ho _ Hc Hwh Hwo _] Hq. eexists. split; [apply becomes_change|].
  unfold absent_or in *.
  split; cbn; unfold absent_or; rewrite ?lookup_insert_ne by auto with land; try done.
  left. by rewrite lookup_insert_eq.
Qed.

Definition reclaimed_name (dead : option str) (h : option holder_state) : option str :=
  (fun h => match dead with
            | Some reason => holder_agent h +++ " (dead owner: " +++ reason +++ ")"
            | None => holder_agent h
            end) <$> h.

(** Taking the lease. *)
Lemma becomes_take d l q dead : represents d l -> Forall QueueCodec.wf q -> clean_opt dead ->
  exists d' token,
    becomes (let* fresh := new_holder (a_agent args) (a_purpose args) (a_hold args)
                             (reclaimed_name dead (l_holder l)) in
             do* write_holder fresh ;;
             do* remove_if_exists owner ;;
             do* write_queue (filter (fun e => Queue.agent e <> a_agent args) q) ;;
             ret (match reclaimed_name dead (l_holder l) with
                  | Some previous => if str_eqb previous [] then Acquired else AcquiredReclaimed previous
                  | None => Acquired
                  end)) d token d' /\
    (token = Acquired \/ exists previous, token = AcquiredReclaimed previous) /\
    represents d' {| l_holder := Some (fresh (reclaimed_name dead (l_holder l))); l_owner := None;
                     l_queue := filter (fun e => Queue.agent e <> a_agent args) q |}.
Proof.
  intros [Hh Ho Hq0 Hc Hwh Hwo _] Hq Hd. unfold absent_or in *.
  assert (Hr : clean_opt (reclaimed_name dead (l_holder l))).
  { destruct (l_holder l) as [h|]; cbn in *; [|done]. apply holder_clean in Hwh.
    destruct dead as [r|]; [|done]. apply clean_app; [done|]. apply clean_app; [done|].
    by apply clean_app. }
  eexists _, _. split; [|split].
  - eapply becomes_bind; [apply becomes_new_holder|].
    eapply becomes_bind; [apply becomes_change|].
    eapply becomes_bind; [apply becomes_change|].
    eapply becomes_bind; [apply becomes_change | apply becomes_ret].
  - destruct (reclaimed_name dead (l_holder l)); [case_match|]; eauto.
  - pose proof owner_lock. pose proof queue_lock. pose proof cleanup_lock. pose proof queue_owner.
    pose proof cleanup_owner. pose proof cleanup_queue.
    split; cbn; unfold absent_or.
    + rewrite lookup_insert_ne, lookup_delete_ne, lookup_insert_eq by done. done.
    + rewrite lookup_insert_ne, lookup_delete_eq by done. done.
    + left. by rewrite lookup_insert_eq.
    + rewrite lookup_insert_ne, lookup_delete_ne, lookup_insert_ne by done. done.
    + by apply fresh_wf.
    + done.
    + by apply forall_filter.
Qed.

(** The free lease goes to the first in line. *)
Lemma becomes_turn d l dead : represents d l -> clean_opt dead ->
  available now (verdict boot (l_owner l)) l ->
  exists token d' l', becomes (take_turn args (l_holder l) dead (joined args now (l_queue l))) d token d' /\
    represents d' l' /\ lease_step args now (verdict boot (l_owner l)) l token l'.
Proof.
  intros Hd Hc Hav. assert (Hq : Forall QueueCodec.wf (joined args now (l_queue l))).
  { destruct Hpr, Hd. apply joined_wf; [unfold i64; lia | done | by apply purpose_cell | done]. }
  assert (Htake : (forall first, head (joined args now (l_queue l)) = Some first ->
      Queue.agent first = a_agent args) -> exists token d' l',
    becomes (let* fresh := new_holder (a_agent args) (a_purpose args) (a_hold args)
                             (reclaimed_name dead (l_holder l)) in
             do* write_holder fresh ;;
             do* remove_if_exists owner ;;
             do* write_queue (filter (fun e => Queue.agent e <> a_agent args)
                                (joined args now (l_queue l))) ;;
             ret (match reclaimed_name dead (l_holder l) with
                  | Some previous => if str_eqb previous [] then Acquired else AcquiredReclaimed previous
                  | None => Acquired
                  end)) d token d' /\
    represents d' l' /\ lease_step args now (verdict boot (l_owner l)) l token l').
  { intros Hhead. destruct (becomes_take d l _ dead Hd Hq Hc) as (d' & token & Hb & Ht & Hr).
    eexists token, d', _. split; [exact Hb|]. split; [exact Hr|].
    destruct (holder_new_fields (a_agent args) (a_purpose args) host_of now human
      (saturating_add_i64 now (as_i64 (a_hold args))) (reclaimed_name dead (l_holder l)))
      as (Ha & Hf & Hat & Hx). by apply lease_take. }
  unfold take_turn. destruct (joined args now (l_queue l)) as [|first rest] eqn:Hj; [by apply Htake|].
  destruct (str_eqb_spec (Queue.agent first) (a_agent args)) as [Heq|Hne]; cbn [negb].
  - apply Htake. by intros ? [= <-].
  - destruct (becomes_write_queue d l (first :: rest) Hd Hq) as (d' & Hb & Hr).
    eexists _, d', _. split; [|split; [exact Hr | by apply lease_wait]].
    eapply becomes_bind; [exact Hb | apply becomes_ret].
Qed.

Lemma try_acquire_steps d l : represents d l ->
  exists token d' l', becomes (try_acquire args) d token d' /\ represents d' l' /\
    lease_step args now (verdict boot (l_owner l)) l token l'.
Proof.
  intros Hd. pose proof Hpr as [Hclk Hnow _ _ Hboot _ _ _ _]. unfold try_acquire.
  assert (Hpre : forall (k : Z -> option holder_state -> list Queue.QueueEntry -> M AcquireToken),
    (exists token d' l', becomes (k now (l_holder l) (l_queue l)) d token d' /\ represents d' l' /\
       lease_step args now (verdict boot (l_owner l)) l token l') ->
    exists token d' l', becomes (let* now := epoch_seconds in let* holder := read_holder in
       do* require_no_cleanup holder ;; let* q := read_queue in k now holder q) d token d' /\
       represents d' l' /\ lease_step args now (verdict boot (l_owner l)) l token l').
  { intros k (token & d' & l' & Hk & Hrest). exists token, d', l'. split; [|done].
    eapply becomes_bind; [apply becomes_epoch; [done | lia]|].
    eapply becomes_bind; [by apply becomes_read_holder|].
    eapply becomes_bind; [apply becomes_no_cleanup, Hd|].
    eapply becomes_bind; [by apply becomes_read_queue | done]. }
  apply (Hpre (fun now holder q => _)). clear Hpre. rewrite enqueue_joined.
  destruct (l_holder l) as [h|] eqn:Hh.
  2: { destruct (becomes_turn d l None Hd I) as (token & d' & l' & Hb & Hrest).
       { unfold available. by rewrite Hh. }
       rewrite Hh in Hb. exists token, d', l'. split; [|done].
       by eapply becomes_bind; [apply becomes_ret|]. }
  unfold live_at. destruct (Z.ltb_spec now (holder_expires h)).
  2: { destruct (becomes_turn d l None Hd I) as (token & d' & l' & Hb & Hrest).
       { unfold available. rewrite Hh. by left. }
       rewrite Hh in Hb. exists token, d', l'. split; [|done].
       by eapply becomes_bind; [apply becomes_ret|]. }
  pose proof (becomes_owner_liveness d l boot Hd Hboot) as Hlive.
  destruct (verdict boot (l_owner l)) as [|r|] eqn:Hv.
  2: { destruct (becomes_turn d l (Some r) Hd) as (token & d' & l' & Hb & Hrest).
       { by eapply verdict_clean; [apply Hd|]. }
       { unfold available. rewrite Hh, Hv. right. by eexists. }
       rewrite Hh in Hb. rewrite Hv in Hrest. exists token, d', l'. split; [|done].
       eapply becomes_bind; [eapply becomes_bind; [exact Hlive | apply becomes_ret] | exact Hb]. }
  all: destruct (becomes_write_queue d l (joined args now (l_queue l)) Hd) as (d' & Hb & Hr);
    [apply joined_wf; [unfold i64; lia | apply Hpr | apply purpose_cell, Hpr | apply Hd] |].
  all: eexists _, d', _; split; [|split; [exact Hr | apply lease_held; [done|]]].
  all: try (unfold available; rewrite Hh; intros [? | [? ?]]; [lia | done]).
  all: eapply becomes_bind; [eapply becomes_bind; [exact Hlive | apply becomes_ret]|].
  all: eapply becomes_bind; [exact Hb | apply becomes_ret].
Qed.

(** C20.  One attempt to acquire refines one step of the lease.  On a calm host, from
    files that represent a lease without a cleanup record, the attempt returns, and
    does what the lease does: it answers that the lease is held as long as it is not
    available, that it is another's turn when the first in line is another, and
    otherwise takes the lease, with a fresh expiry and without an owner record,
    leaving the line.  The files again represent the lease. *)
Theorem try_acquire_refines d l : represents d l ->
  exists token d' l', becomes (try_acquire args) d token d' /\ represents d' l' /\
    lease_step args now (verdict boot (l_owner l)) l token l'.
Proof. apply try_acquire_steps. Qed.

End Calm.

(** ** Quarantines of other repositories *)

Section Foreign.
#[local] Existing Instance landing.
Context {W : World} {P : LockPaths} (e : Env).
Context (steady : forall n, env_at n = e) (fine : io e = Fine).

(** The disk holds a claim, in the file [name], to the record [r] of another
    repository, and the record is still there. *)
Record outstanding (d : Disk) (name r : str) : Prop := {
  out_name : extension name = Some (lit "claim");
  out_claim : exists body, d !! (claim_path name) = Some (Text body) /\
                           parse_claim_cleanup body = Some r;
  out_foreign : r <> cleanup;
  out_apart : forall name, r <> claim_path name;
  out_record : is_Some (d !! r)
}.

Lemma claim_path_inj a b : claim_path a = claim_path b -> a = b.
Proof. by intros H%app_inv_head%app_inv_head. Qed.

Lemma outstanding_pruned d name r other : other <> name -> outstanding d name r ->
  outstanding (delete (claim_path other) d) name r.
Proof.
  intros Hne [Hn (body & Hb & Hp) Hf Ha Hr]. split; try done.
  - exists body. split; [|done]. rewrite lookup_delete_ne; [done|]. by intros Heq%claim_path_inj.
  - rewrite lookup_delete_ne; [done | by apply not_eq_sym].
Qed.

(** Dereferencing a claim: nothing but an absent record discharges it. *)
Lemma becomes_deref d r : exists v, becomes (verify_cleanup_record r None) d v d /\
  (v = VNone <-> d !! r = None).
Proof.
  unfold verify_cleanup_record.
  assert (Hread : becomes (fs_read r) d (content_at d r) d)
    by (exact (becomes_fs_read e steady fine r d)).
  unfold content_at in Hread. destruct (d !! r) as [[s|]|].
  - destruct (Cleanup.parse s) as [record|] eqn:Hp.
    + exists (VUnknown (Some record)). split; [|done].
      eapply becomes_bind; [exact Hread|]. cbv iota. rewrite Hp. apply becomes_ret.
    + exists (VUnknown None). split; [|done].
      eapply becomes_bind; [exact Hread|]. cbv iota. rewrite Hp. apply becomes_ret.
  - exists (VUnknown None). split; [|done]. eapply becomes_bind; [exact Hread | apply becomes_ret].
  - exists VNone. split; [|done]. eapply becomes_bind; [exact Hread | apply becomes_ret].
Qed.

Lemma becomes_prune p d : exists r, becomes (attempt (remove_if_exists p)) d r (delete p d).
Proof.
  exists (Ok ()). intros t. exists (S t). unfold attempt, remove_if_exists, change.
  by rewrite steady, fine.
Qed.

Lemma foreign_claims_block entries d name r : name ∈ entries -> outstanding d name r ->
  exists d', becomes (foreign_claims entries) d true d'.
Proof.
  revert d. induction entries as [|n entries IH]; intros d Hin Hout; [set_solver|].
  assert (Hrest : forall d', n <> name -> outstanding d' name r ->
    exists d2, becomes (foreign_claims entries) d' true d2).
  { intros d' Hne Hout'. apply IH; [set_solver | done]. }
  cbn [foreign_claims]. destruct (bool_decide _) eqn:Hext; cbn [negb].
  2: { apply bool_decide_eq_false in Hext. apply Hrest; [|done]. intros ->. by destruct Hout. }
  assert (Hread : becomes (fs_read (claim_path n)) d
    (content_at d (claim_path n)) d) by (exact (becomes_fs_read e steady fine _ d)).
  destruct (decide (n = name)) as [->|Hne].
  - destruct Hout as [_ (body & Hb & Hp) Hf _ [f Hr]].
    destruct (becomes_deref d r) as (v & Hv & Hnone).
    exists d. eapply becomes_bind; [exact Hread|]. unfold content_at. rewrite Hb. cbv beta iota. rewrite Hp.
    destruct (str_eqb_spec r cleanup); [done|]. eapply becomes_bind; [exact Hv|].
    destruct v; try apply becomes_ret. destruct Hnone as [Hnone _]. by rewrite Hnone in Hr.
  - assert (Hprune : exists d', becomes (let* _r := attempt (remove_if_exists (claim_path n)) in
      foreign_claims entries) d true d').
    { destruct (becomes_prune (claim_path n) d) as [x Hx].
      destruct (Hrest _ Hne (outstanding_pruned _ _ _ _ Hne Hout)) as [d' Hd'].
      exists d'. by eapply becomes_bind. }
    destruct (Hrest d Hne Hout) as [d1 Hd1]. destruct Hprune as [d2 Hd2].
    destruct (content_at d (claim_path n)) as [| |body] eqn:Hc.
    + exists d1. eapply becomes_bind; [exact Hread|]. cbv beta iota. exact Hd1.
    + exists d1. eapply becomes_bind; [exact Hread|]. cbv beta iota. exact Hd1.
    + destruct (parse_claim_cleanup body) as [r'|] eqn:Hp.
      2: { exists d2. eapply becomes_bind; [exact Hread|]. cbv beta iota. rewrite Hp. exact Hd2. }
      destruct (str_eqb r' cleanup) eqn:Hr'.
      { exists d1. eapply becomes_bind; [exact Hread|]. cbv beta iota. rewrite Hp, Hr'. exact Hd1. }
      destruct (becomes_deref d r') as (v & Hv & _).
      assert (Hcase : v = VNone \/ v <> VNone) by (destruct v; auto).
      destruct Hcase as [->|Hvn].
      * exists d2. eapply becomes_bind; [exact Hread|]. cbv beta iota. rewrite Hp, Hr'. by eapply becomes_bind.
      * exists d. eapply becomes_bind; [exact Hread|]. cbv beta iota. rewrite Hp, Hr'. eapply becomes_bind; [exact Hv|].
        destruct v; [done | apply becomes_ret..].
Qed.

(** Another repository's quarantine closes the box.  On a calm host, when a claim
    in the directory of the box points to the cleanup record of another repository and
    that record is still there, readable or not, an acquisition is refused, and a run
    that gets the anchor of the box is refused too. *)
Theorem foreign_quarantine_refuses d name r entries c :
  listing e = Some entries -> name ∈ entries -> outstanding d name r ->
  flock e = Granted -> polls <> 0%nat ->
  match c with
  | Acquire _ => True
  | Run args => r_child args <> [] /\ r_child_deadline args <> 0
  | _ => False
  end ->
  exists d', becomes (execute c) d REFUSED_EXIT_CODE d'.
Proof.
  intros Hl Hin Hout Hflock Hpolls Hc.
  assert (Hobs : forall d, becomes observe d e d) by (intros; by eapply becomes_observe).
  destruct (foreign_claims_block entries d name r Hin Hout) as [d' Hd'].
  assert (Hf : becomes foreign_box_claim d true d').
  { eapply becomes_bind; [apply Hobs|]. by rewrite Hl. }
  exists d'. destruct c as [args|a hold|a| |args|args]; try done; cbn [execute].
  - eapply (becomes_bind _ _ _ false).
    { eapply becomes_bind; [apply Hobs|]. rewrite fine, Hflock. apply becomes_ret. }
    eapply becomes_bind; [exact Hf | apply becomes_ret].
  - destruct Hc as [Hch Hdl]. unfold run. destruct (r_child args); [done|].
    destruct (Z.eqb_spec (r_child_deadline args) 0); [done|].
    eapply becomes_bind; [apply Hobs|]. rewrite fine.
    eapply (becomes_bind _ _ _ true).
    { eapply becomes_bind; [apply Hobs|]. rewrite fine. eapply becomes_bind; [apply Hobs|].
      eapply (becomes_bind _ _ _ Locked); [|apply becomes_ret].
      destruct polls as [|fuel]; [done|]. cbn [flock_loop].
      eapply becomes_bind; [apply Hobs|]. rewrite Hflock. apply becomes_ret. }
    eapply becomes_bind; [exact Hf | apply becomes_ret].
Qed.

End Foreign.

(** ** The landing lock keeps the promises *)

#[export] Instance landing_laws : LeaseLaws landing.
Proof.
  refine {| holder_wf := HolderCodec.wf : @holder_state landing -> Prop;
            purpose_wf := QueueCodec.cell : @purpose landing -> Prop |}; cbn.
  - apply HolderCodec.parse_render_holder.
  - by intros h [].
  - done.
  - intros p Hp. apply clean_app; [done | by apply QueueCodec.cell_clean].
  - intros. constructor; cbn; try done. by apply QueueCodec.cell_clean.
  - intros. cbn. by rewrite str_eqb_refl.
  - intros h p. by destruct (str_eqb_spec (Holder.pr h) p) as [->|].
  - intros h p. by destruct (str_eqb_spec (Holder.pr h) p) as [->|].
Defined.
