(* ===== verification/LandCalm.v ===== *)
(** A supervised run on a calm host, from beginning to end: the lease is taken, the
    payload armed, published, waited for and accounted for, and the lease given back. *)

From stdpp Require Import gmap functions sorting.
From S2P Require Import Prelude Text LandRecords LandRecordsCorrect LandLease LandHost LandCensus.
From S2P Require Import LandLock LandRun LandLogic LandLockCorrect LandRefine.

Section Calm.
Context {W : World} {P : LockPaths} {L : Lease} {LL : LeaseLaws L} (e : Env).

(** Nothing fails and nobody else is there. *)
Record calm : Prop := {
  steady : forall n, env_at n = e;
  fine : io e = Fine;
  stats : stat_fails e = false;
  alone : forall d, others e d = d;
  granted : flock e = Granted;
  patient : polls <> 0%nat
}.

Context (Hcalm : calm).

Ltac calm_lemmas := destruct Hcalm as [Hsteady Hfine Hstats Halone Hgranted Hpolls].

Lemma calm_observe d : becomes observe d e d.
Proof. calm_lemmas. by apply becomes_observe. Qed.

Lemma calm_flock d deadline : becomes (flock_loop polls deadline) d Locked d.
Proof.
  calm_lemmas. destruct polls as [|fuel]; [done|]. cbn [flock_loop].
  eapply becomes_bind; [apply calm_observe|]. rewrite Hgranted. apply becomes_ret.
Qed.

Lemma becomes_attempt {A : Type} (m : M A) d a d' :
  becomes m d a d' -> becomes (attempt m) d (Ok a) d'.
Proof. intros H t. destruct (H t) as [t' Ht]. exists t'. unfold attempt. by rewrite Ht. Qed.

(** A critical section does what its operation does. *)
Lemma calm_guard {A : Type} (m : M A) d a d' : becomes m d a d' -> becomes (with_guard m) d a d'.
Proof.
  intros Hm. unfold with_guard. eapply becomes_bind; [apply calm_observe|].
  pose proof (fine Hcalm) as Hfine. rewrite Hfine.
  eapply becomes_bind; [apply calm_observe|].
  eapply becomes_bind; [apply calm_flock|]. cbv beta iota.
  apply (becomes_bind _ _ _ () d).
  { intros t. exists (S t). unfold interfere. by rewrite (steady Hcalm), (alone Hcalm). }
  eapply becomes_bind; [apply becomes_attempt, Hm|].
  eapply becomes_bind; [apply calm_observe|]. rewrite Hfine. apply becomes_ret.
Qed.

Lemma calm_read p s d : d !! p = Some (Text s) -> becomes (read_to_string p) d s d.
Proof. calm_lemmas. by apply (becomes_read_to_string e). Qed.

Lemma calm_exists p d : becomes (path_exists p) d (bool_decide (is_Some (d !! p))) d.
Proof. calm_lemmas. by apply (becomes_exists e). Qed.

Lemma calm_change whole failed killed d : becomes (change whole failed killed) d () (whole d).
Proof. calm_lemmas. by apply (becomes_change e). Qed.

Lemma calm_host d : becomes current_host d (host_of e) d.
Proof. calm_lemmas. by apply becomes_host. Qed.

(** ** The files of a lease that is held *)

Definition empty_queue (d : Disk) : Prop :=
  d !! queue = Some (Text (Queue.render_content [])) \/ d !! queue = None.

Record files (d : Disk) (h : holder_state) (o : Owner.ProcessOwner) : Prop := {
  f_lock : d !! lock = Some (Text (holder_render h));
  f_owner : d !! owner = Some (Text (Owner.render o));
  f_queue : empty_queue d
}.

Definition elsewhere (p : str) : Prop := p <> lock /\ p <> owner /\ p <> queue.

Lemma files_insert d h o p f : elsewhere p -> files d h o -> files (<[p := f]> d) h o.
Proof. intros (H1 & H2 & H3) []. by split; unfold empty_queue; rewrite lookup_insert_ne. Qed.

Lemma files_delete d h o p : elsewhere p -> files d h o -> files (delete p d) h o.
Proof. intros (H1 & H2 & H3) []. by split; unfold empty_queue; rewrite lookup_delete_ne. Qed.

Lemma calm_queue d : empty_queue d -> becomes read_queue d [] d.
Proof.
  intros Hl. unfold read_queue. eapply becomes_bind; [apply calm_exists|].
  destruct Hl as [Hl | Hl]; rewrite Hl; cbn; [|apply becomes_ret].
  eapply becomes_bind; [by apply calm_read|]. apply becomes_ret.
Qed.

Lemma cleanup_elsewhere : elsewhere cleanup.
Proof. split_and!; auto with land. Qed.

Lemma claim_elsewhere name : claims_apart -> elsewhere (claim_path name).
Proof. intros Ha. split_and!; apply not_eq_sym, Ha; set_solver. Qed.

Context (h : holder_state) (o : Owner.ProcessOwner) (Hh : holder_wf h) (Ho : OwnerCodec.wf o).

Lemma calm_holder d : files d h o -> becomes read_holder d (Some h) d.
Proof.
  intros [Hl _ _]. unfold read_holder. eapply becomes_bind; [apply calm_exists|].
  rewrite Hl. cbn. eapply becomes_bind; [by apply calm_read|].
  eapply becomes_bind; [|apply becomes_ret]. rewrite holder_roundtrip by done. apply becomes_ret.
Qed.

Lemma calm_owner d : files d h o -> becomes read_process_owner d (Some o) d.
Proof.
  intros [_ Hl _]. unfold read_process_owner. eapply becomes_bind; [apply calm_exists|].
  rewrite Hl. cbn. eapply becomes_bind; [by apply calm_read|].
  eapply becomes_bind; [|apply becomes_ret]. rewrite OwnerCodec.parse_render_owner by done.
  apply becomes_ret.
Qed.

(** ** The host *)

Context (boot : str) (Hboot : boot_id_file e = Some boot).
Context (Hknown : host_of e <> lit "unknown").

Lemma calm_boot d : becomes read_current_boot_id d (Some (trim boot)) d.
Proof. eapply becomes_bind; [apply calm_observe|]. rewrite Hboot. apply becomes_ret. Qed.

Lemma calm_ticks d pid s st pa ticks :
  stat_file e pid = Content s -> parse_stat s = Some (st, pa, ticks) ->
  becomes (process_start_ticks pid) d (Found ticks) d.
Proof.
  intros Hs Hp. apply (becomes_bind _ _ _ (Found (st, pa, ticks)) d); [|apply becomes_ret].
  eapply becomes_bind; [apply calm_observe|]. rewrite Hs, Hp. apply becomes_ret.
Qed.

(** This process owns the lease. *)
Context (own_stat : str) (own_state own_parent : Z).
Context (Hown : stat_file e (self_pid e) = Content own_stat).
Context (Hparse : parse_stat own_stat = Some (own_state, own_parent, Owner.start_ticks o)).
Context (Hself : o = Owner.Build_ProcessOwner (host_of e) (trim boot) (self_pid e) (Owner.start_ticks o)).

Lemma calm_current_owner d : becomes current_process_owner d o d.
Proof.
  unfold current_process_owner. eapply becomes_bind; [apply calm_observe|].
  eapply becomes_bind; [by eapply calm_ticks|].
  eapply becomes_bind; [apply calm_host|].
  eapply becomes_bind; [|rewrite Hself; apply becomes_ret].
  eapply becomes_bind; [apply calm_boot | apply becomes_ret].
Qed.

Lemma calm_assert_owner d : files d h o -> becomes assert_current_process_owner d () d.
Proof.
  intros Hd. eapply becomes_bind; [by apply calm_owner|].
  eapply becomes_bind; [apply calm_current_owner|]. rewrite decide_True by done. apply becomes_ret.
Qed.

(** ** The cleanup record *)

Context (p : purpose) (Hfor : holder_is_for h p = true).

Lemma calm_operation d x y : files d h o -> becomes (current_operation (holder_agent h) p x y) d h d.
Proof.
  intros Hd. unfold current_operation. eapply becomes_bind; [by apply calm_holder|].
  eapply becomes_bind; [apply becomes_ret|]. rewrite str_eqb_refl, Hfor. apply becomes_ret.
Qed.

(** A record of this very operation. *)
Record bound (r : Cleanup.CleanupRecord) : Prop := {
  b_wf : CleanupCodec.wf r;
  b_agent : Cleanup.agent r = holder_agent h;
  b_operation : Cleanup.operation r = holder_operation h;
  b_host : Cleanup.host r = host_of e;
  b_boot : Cleanup.boot_id r = trim boot
}.

Definition recorded (d : Disk) (r : Cleanup.CleanupRecord) : Prop :=
  files d h o /\ bound r /\ d !! cleanup = Some (Text (Cleanup.render r)).

Lemma calm_verify d r v : recorded d r -> becomes (verify_phase r) d v d ->
  becomes (cleanup_verification (Some h)) d v d.
Proof.
  intros (_ & [Hwf Ha Hop Hho Hb] & Hc) Hv. unfold cleanup_verification, verify_cleanup_record.
  eapply becomes_bind; [destruct Hcalm; by apply (becomes_fs_read e)|].
  unfold content_at. rewrite Hc. cbv beta iota. rewrite CleanupCodec.parse_render_cleanup by done.
  cbn [fmap option_fmap option_map]. rewrite Ha, Hop, !str_eqb_refl. cbn [negb orb].
  eapply becomes_bind; [apply calm_host|].
  destruct (str_eqb_spec (host_of e) "unknown"); [done|]. rewrite Hho, str_eqb_refl. cbn [negb orb].
  eapply becomes_bind; [apply calm_boot|]. cbv beta iota. rewrite Hb, str_eqb_refl. exact Hv.
Qed.

Lemma recorded_write d r r' : recorded d r -> bound r' ->
  recorded (<[cleanup := Text (Cleanup.render r')]> d) r'.
Proof.
  intros (Hd & _ & _) Hb. split_and!; [|done | by rewrite lookup_insert_eq].
  apply files_insert; [apply cleanup_elsewhere | done].
Qed.

Lemma bound_phase r phase cg : bound r -> CleanupCodec.wf_phase phase -> clean_opt cg ->
  bound (set_phase r phase cg).
Proof.
  intros [[] ? ? ? ?] Hp Hc. split; cbn; try done. constructor; cbn; try done. by destruct cg.
Qed.

(** A transition from the expected phase. *)
Lemma calm_transition d r v expected next cg :
  recorded d r -> becomes (verify_phase r) d v d ->
  v = VArmed r \/ v = VActive r \/ v = VUncensused r -> expected (Cleanup.phase r) = true ->
  CleanupCodec.wf_phase next -> clean_opt cg ->
  exists d', becomes (transition_run_cleanup (holder_agent h) p expected next cg) d () d' /\
    recorded d' (set_phase r next cg).
Proof.
  intros Hr Hv Hcase He Hn Hc. eexists. split; [apply calm_guard|].
  - eapply becomes_bind; [apply calm_operation, Hr|].
    eapply becomes_bind; [by eapply calm_verify|].
    destruct Hcase as [-> | [-> | ->]]; cbv beta iota; rewrite He; apply calm_change.
  - eapply recorded_write; [done|]. apply bound_phase; [apply Hr | done | done].
Qed.

(** The probes of a payload whose process group is gone. *)
Context (pid : Z) (Hpid : 1 < pid < 2 ^ 31) (Hgone : kill e (- pid) 0 = ESRCH).
Context (child_stat : str) (child_state child_parent ticks : Z).
Context (Hchild : stat_file e pid = Content child_stat).
Context (Hcparse : parse_stat child_stat = Some (child_state, child_parent, ticks)).
Context (Hticks : in_width 64 ticks).

Lemma calm_group d : becomes (process_group_liveness pid) d GroupAbsent d.
Proof.
  unfold process_group_liveness, process_group_target.
  destruct (Z.leb_spec (2 ^ 31) pid); [lia|]. destruct (Z.ltb_spec 1 pid); [|lia].
  eapply becomes_bind; [apply calm_observe|]. rewrite Hgone. apply becomes_ret.
Qed.

Definition leader : Cleanup.ProcessIdentity := Cleanup.Build_ProcessIdentity pid ticks.

Lemma calm_probe_leader d r :
  Cleanup.phase r = Cleanup.Published leader pid \/ Cleanup.phase r = Cleanup.CensusPending leader pid ->
  becomes (verify_phase r) d (VActive r) d.
Proof.
  assert (Hprobe : becomes (probe [leader] pid) d (true, false) d).
  { unfold probe. cbn [probe_residuals]. apply (becomes_bind _ _ _ (true, false) d).
    - apply (becomes_bind _ _ _ (Some true) d); [|apply becomes_ret].
      apply (becomes_bind _ _ _ (Found ticks) d); [by eapply calm_ticks|].
      cbn. rewrite Z.eqb_refl. apply becomes_ret.
    - eapply becomes_bind; [apply calm_group | apply becomes_ret]. }
  unfold verify_phase. intros [-> | ->]; (eapply becomes_bind; [exact Hprobe | apply becomes_ret]).
Qed.

Lemma calm_probe_empty d r : Cleanup.phase r = Cleanup.Residual pid true [] ->
  becomes (verify_phase r) d (VRecoverable r) d.
Proof.
  intros Hp. unfold verify_phase. rewrite Hp. cbn [negb].
  apply (becomes_bind _ _ _ (false, false) d); [|apply becomes_ret].
  unfold probe. cbn [probe_residuals]. eapply becomes_bind; [apply becomes_ret|].
  eapply becomes_bind; [apply calm_group | apply becomes_ret].
Qed.

(** ** The phases of a run *)

Context (Hp : purpose_wf p) (Hapart : claims_apart).
Context (Hhost : clean (host_of e)) (Hbc : clean (trim boot)).

Definition armed_record : Cleanup.CleanupRecord :=
  {| Cleanup.agent := holder_agent h; Cleanup.operation := purpose_operation p;
     Cleanup.host := host_of e; Cleanup.boot_id := trim boot; Cleanup.phase := Cleanup.Armed;
     Cleanup.cgroup := None |}.

Lemma armed_bound : bound armed_record.
Proof.
  split; cbn; try done; [|by rewrite (holder_names_operation h p)].
  constructor; cbn; try done; [by apply holder_clean | by apply purpose_clean].
Qed.

Lemma claim_not_cleanup name : claim_path name <> cleanup.
Proof. apply not_eq_sym, Hapart. set_solver. Qed.

Lemma calm_claim d agent operation r : recorded d r ->
  exists d', becomes (register_box_claim agent operation) d () d' /\ recorded d' r.
Proof.
  intros (Hd & Hb & Hc). eexists. split.
  - unfold register_box_claim. eapply becomes_bind; [apply calm_observe|].
    rewrite (fine Hcalm). eapply becomes_bind; [apply calm_host|].
    eapply becomes_bind; [apply becomes_attempt, calm_change | apply becomes_ret].
  - split_and!; [|done|].
    + apply files_insert; [by apply claim_elsewhere | done].
    + rewrite lookup_insert_ne by apply claim_not_cleanup. done.
Qed.

Lemma calm_arm d : files d h o -> d !! cleanup = None ->
  exists d', becomes (arm_run (holder_agent h) p) d () d' /\ recorded d' armed_record.
Proof.
  intros Hd Hnone. set (d1 := <[cleanup := Text (Cleanup.render armed_record)]> d).
  assert (Hd1 : recorded d1 armed_record).
  { split_and!; [apply files_insert; [apply cleanup_elsewhere | done] | apply armed_bound |].
    unfold d1. by rewrite lookup_insert_eq. }
  destruct (calm_claim d1 (holder_agent h) (purpose_operation p) armed_record Hd1) as (d' & Hc & Hd').
  exists d'. split; [|done]. unfold arm_run.
  apply (becomes_bind _ _ _ armed_record d).
  { unfold new_record. eapply becomes_bind; [apply calm_host|].
    destruct (str_eqb_spec (host_of e) "unknown"); [done|].
    eapply becomes_bind; [apply calm_boot|].
    eapply becomes_bind; [apply becomes_ret | apply becomes_ret]. }
  apply calm_guard. eapply becomes_bind; [by apply calm_operation|].
  eapply becomes_bind; [destruct Hcalm; by apply (becomes_no_cleanup e)|].
  eapply becomes_bind; [apply calm_change | exact Hc].
Qed.

Definition anchored : option str := content ← cgroup_file e pid; cgroup_line (lines content).

Context (Hcg : clean_opt anchored).

Definition child : GatedChild := {| g_leader := leader; g_pgid := pid |}.

Lemma leader_wf : CleanupCodec.wf_identity leader /\ in_width 32 pid.
Proof. unfold CleanupCodec.wf_identity, in_width in *; cbn. lia. Qed.

Lemma calm_publish d : recorded d armed_record ->
  exists d', becomes (publish_run (holder_agent h) p child) d () d' /\
    recorded d' (set_phase armed_record (Cleanup.Published leader pid) anchored).
Proof.
  intros Hd. destruct (calm_transition d armed_record (VArmed armed_record) is_armed
    (Cleanup.Published leader pid) anchored) as (d' & Hb & Hd');
    [done | apply becomes_ret | by left | done | apply leader_wf | done |].
  exists d'. split; [|done]. unfold publish_run. eapply becomes_bind; [|exact Hb].
  eapply becomes_bind; [apply calm_observe | apply becomes_ret].
Qed.

Lemma calm_begin_census d r : recorded d r -> Cleanup.phase r = Cleanup.Published leader pid ->
  exists d', becomes (begin_run_census (holder_agent h) p child) d () d' /\
    recorded d' (set_phase r (Cleanup.CensusPending leader pid) None).
Proof.
  intros Hd Hph. apply calm_transition with (v := VActive r); try done.
  - apply calm_probe_leader. by left.
  - auto.
  - by rewrite Hph.
  - apply leader_wf.
Qed.

Lemma calm_record_empty d r : recorded d r -> Cleanup.phase r = Cleanup.CensusPending leader pid ->
  exists d', becomes (record_residuals (holder_agent h) p pid {| complete := true; identities := [] |})
      d () d' /\
    recorded d' (set_phase r (Cleanup.Residual pid true []) None).
Proof.
  intros Hd Hph. apply calm_transition with (v := VActive r); try done.
  - apply calm_probe_leader. by right.
  - auto.
  - by rewrite Hph.
  - split_and!; [unfold in_width; lia | constructor | constructor].
Qed.

Lemma calm_remove_record d : files d h o ->
  exists d', becomes remove_cleanup_record_and_claim d () d' /\ files d' h o /\ d' !! cleanup = None.
Proof.
  intros Hd. eexists. split; [|split].
  - unfold remove_cleanup_record_and_claim.
    eapply becomes_bind; [apply becomes_attempt, calm_change|].
    eapply becomes_bind; [|apply becomes_ret].
    eapply becomes_bind; [apply becomes_attempt, calm_change | apply becomes_ret].
  - apply files_delete; [by apply claim_elsewhere|].
    apply files_delete; [apply cleanup_elsewhere | done].
  - rewrite lookup_delete_ne by apply claim_not_cleanup. apply lookup_delete_eq.
Qed.

Lemma calm_clear d r : recorded d r -> Cleanup.phase r = Cleanup.CensusPending leader pid ->
  exists d', becomes (clear_proven_run (holder_agent h) p pid) d () d' /\ files d' h o /\
    d' !! cleanup = None.
Proof.
  intros Hd Hph. destruct (calm_record_empty d r Hd Hph) as (d1 & Hb1 & Hd1).
  destruct (calm_remove_record d1) as (d2 & Hb2 & Hd2); [apply Hd1|].
  exists d2. split; [|done]. unfold clear_proven_run. eapply becomes_bind; [exact Hb1|].
  apply calm_guard. eapply becomes_bind; [apply calm_holder, Hd1|].
  eapply becomes_bind; [apply becomes_ret|].
  eapply becomes_bind; [eapply calm_verify; [exact Hd1 | by apply calm_probe_empty]|].
  exact Hb2.
Qed.

(** ** Giving the lease back *)

Definition free : lease := {| l_holder := None; l_owner := None; l_queue := [] |}.

Lemma calm_release d : files d h o -> d !! cleanup = None ->
  exists d', becomes (release (holder_agent h)) d (true, None) d' /\ represents d' free.
Proof.
  intros Hd Hnone. set (d2 := delete owner (delete lock d)).
  assert (Hq : empty_queue d2).
  { unfold empty_queue, d2. rewrite !lookup_delete_ne by auto using not_eq_sym with land. apply Hd. }
  set (d3 := <[queue := Text (Queue.render_content [])]> d2). exists d3. split.
  - apply calm_guard. eapply becomes_bind; [by apply calm_holder|].
    eapply becomes_bind; [destruct Hcalm; by apply (becomes_no_cleanup e)|].
    cbv beta iota. rewrite str_eqb_refl. cbn [negb].
    eapply becomes_bind; [by apply calm_assert_owner|].
    eapply becomes_bind; [apply calm_change|]. eapply becomes_bind; [apply calm_change|].
    apply (becomes_bind _ _ _ () d3).
    + apply (becomes_bind _ _ _ [] d2); [by apply calm_queue | apply calm_change].
    + apply (becomes_bind _ _ _ [] d3); [apply calm_queue; left; apply lookup_insert_eq | apply becomes_ret].
  - pose proof owner_lock. pose proof queue_lock. pose proof cleanup_lock. pose proof queue_owner.
    pose proof cleanup_owner. pose proof cleanup_queue.
    split; cbn; try done; unfold absent_or, d3, d2; cbn.
    + rewrite lookup_insert_ne, lookup_delete_ne by done. apply lookup_delete_eq.
    + rewrite lookup_insert_ne by done. apply lookup_delete_eq.
    + left. by rewrite lookup_insert_eq.
    + by rewrite lookup_insert_ne, !lookup_delete_ne by done.
Qed.

End Calm.

(** ** The host of a run *)

(** The child is spawned, ends, and leaves nothing behind: its process group is gone
    and the scan of the process table finds no descendants. *)
Record quiet {W : World} {P : LockPaths} {L : Lease} {LL : LeaseLaws L} (e : Env) (args : AcquireArgs)
    (code signal : option Z) : Prop := {
  q_calm : calm e;
  q_apart : claims_apart;
  q_unclaimed : from_option (fun entries => entries = []) True (listing e);
  q_present : exists now human boot, presentable e args now human boot;
  q_known : host_of e <> lit "unknown";
  q_self : exists s state parent ticks, stat_file e (self_pid e) = Content s /\
    parse_stat s = Some (state, parent, ticks) /\ in_width 64 ticks /\ in_width 32 (self_pid e);
  q_child : exists pid s state parent ticks, spawned e = Some pid /\ 1 < pid < 2 ^ 31 /\
    stat_file e pid = Content s /\ parse_stat s = Some (state, parent, ticks) /\ in_width 64 ticks /\
    kill e (- pid) 0 = ESRCH /\ clean_opt (anchored e pid);
  q_exit : waited e = Exited code signal;
  q_barren : forall d, becomes (scan_descendants (self_pid e)) d (Some []) d
}.

Section Quiet.
Context {W : World} {P : LockPaths} {L : Lease} {LL : LeaseLaws L} (e : Env) (args : AcquireArgs).

Lemma joined_alone now : joined args now [] =
  [Queue.Build_QueueEntry now (a_agent args) (purpose_column (a_purpose args))].
Proof.
  unfold joined, waiting. rewrite decide_False by (by inversion 1). cbn [app].
  rewrite filter_cons_True, filter_nil; [done|]. cbn. unfold DEFAULT_WAIT_SECONDS. lia.
Qed.

(** A free lease without a queue is taken at once. *)
Lemma calm_try_acquire now human boot d : calm e -> presentable e args now human boot ->
  represents d free -> exists token d1 h, becomes (try_acquire args) d token d1 /\
    (token = Acquired \/ exists previous, token = AcquiredReclaimed previous) /\
    represents d1 {| l_holder := Some h; l_owner := None; l_queue := [] |} /\
    holder_agent h = a_agent args /\ holder_is_for h (a_purpose args) = true.
Proof.
  intros [Hst Hf Hs _ _ _] Hpr Hd.
  destruct (try_acquire_steps e Hst Hf Hs args now human boot Hpr d free Hd)
    as (token & d1 & l1 & Hb & Hd1 & Hstep).
  exists token, d1. inversion Hstep as [? h Hh | ? first rest Hav Hj Hne | ? ? h ? ? Htok Ha Hf'];
    subst; cbn in *; [done | |].
  - rewrite joined_alone in Hj. injection Hj as <- _. by destruct Hne.
  - exists h. split_and!; try done. rewrite joined_alone in Hd1.
    by rewrite filter_cons_False, filter_nil in Hd1 by (cbn; auto).
Qed.

Lemma calm_acquire now human boot d : calm e -> presentable e args now human boot ->
  represents d free -> exists d1 h, becomes (acquire args) d 0 d1 /\
    represents d1 {| l_holder := Some h; l_owner := None; l_queue := [] |} /\
    holder_agent h = a_agent args /\ holder_is_for h (a_purpose args) = true.
Proof.
  intros Hc Hpr Hd.
  destruct (calm_try_acquire now human boot d Hc Hpr Hd) as (token & d1 & h & Hb & Htok & Hrest).
  exists d1, h. split; [|done]. unfold acquire.
  eapply becomes_bind; [by apply calm_observe|]. pose proof (patient _ Hc).
  destruct polls as [|fuel]; [done|]. cbn [acquire_loop].
  eapply becomes_bind; [by eapply calm_guard|].
  destruct Htok as [-> | [previous ->]]; apply becomes_ret.
Qed.

Lemma calm_foreign d : calm e -> from_option (fun entries => entries = []) True (listing e) ->
  becomes foreign_box_claim d false d.
Proof.
  intros Hc Hl. eapply becomes_bind; [by apply calm_observe|].
  destruct (listing e); cbn in Hl; subst; apply becomes_ret.
Qed.

Lemma calm_anchor d wait : calm e -> becomes (anchor_take wait) d true d.
Proof.
  intros Hc. unfold anchor_take. eapply becomes_bind; [by apply calm_observe|].
  rewrite (fine _ Hc). eapply becomes_bind; [by apply calm_observe|].
  eapply becomes_bind; [by eapply calm_flock | apply becomes_ret].
Qed.

Lemma calm_capture d : (forall d, becomes (scan_descendants (self_pid e)) d (Some []) d) ->
  becomes (capture_and_freeze_residuals (self_pid e)) d {| complete := true; identities := [] |} d.
Proof.
  intros Hs. unfold capture_and_freeze_residuals. cbn [capture_rounds].
  eapply becomes_bind; [apply Hs|]. cbv beta iota. cbn [stop_all check_stopped].
  eapply becomes_bind; [apply becomes_ret|]. eapply becomes_bind; [apply becomes_ret|].
  rewrite bool_decide_eq_true_2 by done. apply becomes_ret.
Qed.

(** ** From the lease to the open gate and back *)

Context (code signal : option Z) (Hq : quiet e args code signal).

(** The disks a run goes through, once it has the lease. *)
Lemma quiet_session d1 h :
  represents d1 {| l_holder := Some h; l_owner := None; l_queue := [] |} ->
  holder_agent h = a_agent args -> holder_is_for h (a_purpose args) = true ->
  exists gated d2 d3 d4 d5 d6 d7,
    becomes (with_guard write_current_process_owner) d1 () d2 /\
    becomes (arm_run (a_agent args) (a_purpose args)) d2 () d3 /\
    becomes spawn_gated_child d3 (Some gated) d3 /\
    becomes (publish_run (a_agent args) (a_purpose args) gated) d3 () d4 /\
    becomes (begin_run_census (a_agent args) (a_purpose args) gated) d4 () d5 /\
    becomes (process_group_exists (g_pgid gated)) d5 false d5 /\
    becomes (clear_proven_run (a_agent args) (a_purpose args) (g_pgid gated)) d5 () d6 /\
    becomes (release (a_agent args)) d6 (true, None) d7 /\ represents d7 free.
Proof.
  intros Hd1 <- Hfor. destruct Hq as [Hc Hapart _ (now & human & boot & Hpr) Hknown
    (s0 & st0 & pa0 & tk0 & Hs0 & Hp0 & Hw0 & Hpid0) (pid & s1 & st1 & pa1 & tk1 & Hspawn & Hpid &
    Hs1 & Hp1 & Hw1 & Hkill & Hcg) _ _].
  pose proof Hpr as [_ _ _ _ Hboot Hbc Hhost _ Hpurp].
  set (o := Owner.Build_ProcessOwner (host_of e) (trim boot) (self_pid e) tk0).
  assert (Ho : OwnerCodec.wf o) by (by constructor).
  assert (Hh : holder_wf h) by (apply Hd1).
  set (d2 := <[owner := Text (Owner.render o)]> d1).
  assert (Hfiles : files d2 h o /\ d2 !! cleanup = None).
  { destruct Hd1 as [Hl _ Hqu Hcl _ _ _]. unfold absent_or in Hl. cbn in *. unfold d2. split.
    - split; unfold empty_queue; rewrite ?lookup_insert_eq, ?lookup_insert_ne by auto with land;
        try done. tauto.
    - by rewrite lookup_insert_ne by auto with land. }
  destruct Hfiles as [Hf2 Hn2].
  assert (Hself : o = Owner.Build_ProcessOwner (host_of e) (trim boot) (self_pid e)
    (Owner.start_ticks o)) by done.
  edestruct (calm_arm e Hc h o) as (d3 & Hb3 & Hd3); [eassumption..|].
  edestruct (calm_publish e Hc h o) as (d4 & Hb4 & Hd4); [eassumption..|].
  edestruct (calm_begin_census e Hc h o) as (d5 & Hb5 & Hd5); [eassumption.. | reflexivity|].
  edestruct (calm_clear e Hc h o) as (d6 & Hb6 & Hf6 & Hn6); [eassumption.. | reflexivity|].
  edestruct (calm_release e Hc h o) as (d7 & Hb7 & Hd7); [eassumption..|].
  exists (child pid tk1), d2, d3, d4, d5, d6, d7. split_and!; try done.
  - apply calm_guard with e; [done|]. eapply becomes_bind; [|apply (calm_change e Hc)].
    by eapply (calm_current_owner e Hc o).
  - unfold spawn_gated_child. eapply becomes_bind; [by apply calm_observe|]. rewrite Hspawn.
    eapply becomes_bind; [by eapply calm_ticks | apply becomes_ret].
  - eapply becomes_bind; [by eapply calm_group | apply becomes_ret].
Qed.

End Quiet.

(** ** A landing *)

Section Landing.
#[local] Existing Instance landing.
Context {W : World} {P : LockPaths}.

Definition request (args : RunArgs) : AcquireArgs :=
  {| a_agent := r_agent args; a_purpose := r_pr args; a_wait := r_wait args; a_hold := r_hold args |}.

(** A landing that goes well is brought to its end.  On a calm host, with a free
    lease and a child that exits and leaves no process behind, a run returns the
    child's exit status, and the lease is free again: no holder, no owner, no cleanup
    record and nobody in line. *)
Theorem landing_run_completes e args code signal d :
  quiet e (request args) code signal -> r_child args <> [] -> r_child_deadline args <> 0 ->
  represents d free ->
  exists d', becomes (run args) d (exit_status_code code signal) d' /\ represents d' free.
Proof.
  intros Hq Hchild Hdl Hd. pose proof Hq as [Hc _ Hun (now & human & boot & Hpr) _ _ _ Hexit Hbar].
  assert (Hobs : forall d, becomes observe d e d) by (intros; by apply calm_observe).
  pose proof (fine _ Hc) as Hfine.
  destruct (calm_acquire e (request args) now human boot d Hc Hpr Hd) as (d1 & h & Hb1 & Hd1 & Ha & Hf).
  destruct (quiet_session e (request args) code signal Hq d1 h Hd1 Ha Hf)
    as (g & d2 & d3 & d4 & d5 & d6 & d7 & Hb2 & Hb3 & Hsp & Hb4 & Hb5 & Hgr & Hb6 & Hb7 & Hfree).
  exists d7. split; [|done]. unfold run. destruct (r_child args); [done|].
  destruct (Z.eqb_spec (r_child_deadline args) 0); [done|].
  eapply becomes_bind; [apply Hobs|]. rewrite Hfine.
  eapply becomes_bind; [by eapply calm_anchor|]. cbn [negb].
  eapply becomes_bind; [by eapply calm_foreign|]. cbv beta iota.
  eapply becomes_bind; [exact Hb1|]. cbn [Z.eqb negb].
  eapply becomes_bind; [apply becomes_attempt, Hb2|]. cbv beta iota. unfold supervised.
  eapply becomes_bind; [exact Hb3|]. eapply becomes_bind; [exact Hsp|]. cbv beta iota.
  eapply becomes_bind; [exact Hb4|].
  eapply becomes_bind; [eapply becomes_bind; [apply Hobs | rewrite Hfine; apply becomes_ret]|].
  apply (becomes_bind _ _ _ (ChildExited code signal) d4).
  { eapply becomes_bind; [apply Hobs|]. pose proof (patient _ Hc).
    destruct polls as [|fuel]; [done|]. cbn [supervise_loop].
    eapply becomes_bind; [apply Hobs|]. rewrite Hexit. apply becomes_ret. }
  unfold finish_run. eapply becomes_bind; [exact Hb5|]. cbv zeta.
  eapply becomes_bind; [apply Hobs|]. eapply becomes_bind; [by apply calm_capture|].
  eapply becomes_bind; [exact Hgr|]. cbn [negb andb complete identities].
  eapply becomes_bind; [exact Hb6|]. eapply becomes_bind; [exact Hb7|]. apply becomes_ret.
Qed.

End Landing.
