(* ===== verification/LandCensusCorrect.v ===== *)
(** The census is exact: the scan of the process table finds the descendants of the
    supervisor and nothing else, and the walk over control groups the processes in them. *)

From stdpp Require Import gmap functions sorting.
From S2P Require Import Prelude Text LandRecords LandRecordsCorrect LandHost LandCensus LandLogic.

(** ** Ordered sets and maps *)

Definition ascending : list Z -> Prop := StronglySorted Z.lt.

Lemma pids_nodup l : ascending l -> NoDup l.
Proof.
  induction 1 as [|x l Hs IH Hf]; constructor; [|done]. rewrite list.Forall_forall in Hf.
  intros Hin. specialize (Hf x Hin). lia.
Qed.

Lemma elem_of_bset_insert x y l : x ∈ bset_insert y l <-> x = y \/ x ∈ l.
Proof.
  induction l as [|z l IH]; cbn; [set_solver|].
  case_match; [set_solver|]. case_match eqn:E; [apply Z.eqb_eq in E; set_solver|].
  rewrite !elem_of_cons, IH. tauto.
Qed.

Lemma bset_insert_ascending x l : ascending l -> ascending (bset_insert x l).
Proof.
  induction 1 as [|y l Hs IH Hf]; cbn; [by repeat constructor|].
  destruct (Z.ltb_spec x y).
  - constructor; [by constructor|]. constructor; [done|].
    eapply list.Forall_impl; [exact Hf | cbn; lia].
  - destruct (Z.eqb_spec x y); [by constructor|]. constructor; [done|].
    rewrite list.Forall_forall in Hf |- *. intros z [->|Hz]%elem_of_bset_insert; [lia | by apply Hf].
Qed.

Lemma bset_insert_in x l : ascending l -> x ∈ l -> bset_insert x l = l.
Proof.
  induction 1 as [|y l Hs IH Hf]; cbn; [set_solver|]. intros Hx.
  destruct (Z.ltb_spec x y).
  - exfalso. apply elem_of_cons in Hx as [->|Hx]; [lia|]. rewrite list.Forall_forall in Hf.
    specialize (Hf x Hx). lia.
  - destruct (Z.eqb_spec x y) as [->|]; [done|]. f_equal. apply IH.
    apply elem_of_cons in Hx as [->|]; done.
Qed.

Lemma bset_insert_length x l : x ∉ l -> length (bset_insert x l) = S (length l).
Proof.
  induction l as [|y l IH]; cbn; [done|]. intros Hx. case_match; [done|].
  destruct (Z.eqb_spec x y) as [->|]; [set_solver|]. cbn. rewrite IH; [done | set_solver].
Qed.

Lemma contains_pid_spec x l : contains_pid x l = true <-> x ∈ l.
Proof.
  unfold contains_pid. rewrite existsb_exists. split.
  - intros (y & Hy & ->%Z.eqb_eq). by apply list_elem_of_In.
  - intros Hx. exists x. split; [by apply list_elem_of_In | apply Z.eqb_refl].
Qed.

(** ** Descendants *)

(** [p] has the process [root] among its ancestors, by the table. *)
Inductive descends (ps : table) (root : Z) : Z -> Prop :=
| descends_child p t : (p, (root, t)) ∈ ps -> descends ps root p
| descends_more p q t : (p, (q, t)) ∈ ps -> descends ps root q -> descends ps root p.

(** A pass over some of the processes. *)
Lemma widen_grows l D : ascending D ->
  ascending (widen l D) /\ D ⊆ widen l D /\ (length D <= length (widen l D))%nat /\
  (length (widen l D) = length D -> widen l D = D).
Proof.
  unfold widen. revert D. induction l as [|[p [q t]] l IH]; intros D HD; cbn; [by split_and!|].
  destruct (contains_pid q D); [|by apply IH].
  destruct (IH (bset_insert p D)) as (H1 & H2 & H3 & H4); [by apply bset_insert_ascending|].
  assert (Hsub : D ⊆ bset_insert p D) by (intros x Hx; apply elem_of_bset_insert; by right).
  destruct (decide (p ∈ D)) as [Hp|Hp].
  - rewrite bset_insert_in in * by done. by split_and!.
  - rewrite (bset_insert_length p D Hp) in H3. split_and!; [done | set_solver | lia | lia].
Qed.

(** A pass that adds nothing has found every child. *)
Lemma widen_closed l D p q t : ascending D -> widen l D = D -> (p, (q, t)) ∈ l -> q ∈ D -> p ∈ D.
Proof.
  intros HD Hw Hin Hq. unfold widen in Hw.
  enough (H : forall l D', ascending D' -> D ⊆ D' -> (p, (q, t)) ∈ l -> p ∈ widen l D').
  { specialize (H l D HD (reflexivity _) Hin). unfold widen in H. by rewrite Hw in H. }
  clear l Hw Hin. induction l as [|[p' [q' t']] l IH]; intros D' HD' Hsub Hin; [set_solver|].
  cbn. unfold widen; cbn. apply elem_of_cons in Hin as [[= <- <- <-]|Hin].
  - replace (contains_pid q D') with true by (symmetry; apply contains_pid_spec; auto).
    apply (widen_grows l (bset_insert p D')); [by apply bset_insert_ascending|].
    apply elem_of_bset_insert. by left.
  - destruct (contains_pid q' D'); [|by apply IH].
    apply IH; [by apply bset_insert_ascending | | done].
    intros x Hx. apply elem_of_bset_insert. auto.
Qed.

(** Everything a pass finds descends from the root. *)
Lemma widen_sound ps root l D : l ⊆ ps -> (forall x, x ∈ D -> x = root \/ descends ps root x) ->
  forall x, x ∈ widen l D -> x = root \/ descends ps root x.
Proof.
  unfold widen. revert D. induction l as [|[p [q t]] l IH]; intros D Hl HD x; cbn; [apply HD|].
  apply IH; [set_solver|]. intros y. destruct (contains_pid q D) eqn:E; [|apply HD].
  intros [->|Hy]%elem_of_bset_insert; [|by apply HD]. right.
  assert (Hin : (p, (q, t)) ∈ ps) by set_solver.
  apply contains_pid_spec, HD in E as [->|Hq]; [by eapply descends_child | by eapply descends_more].
Qed.

Lemma widen_bound l D x : x ∈ widen l D -> x ∈ D \/ x ∈ l.*1.
Proof.
  unfold widen. revert D. induction l as [|[p [q t]] l IH]; intros D; cbn; [auto|].
  intros [Hx|Hx]%IH; [|set_solver]. destruct (contains_pid q D); [|auto].
  apply elem_of_bset_insert in Hx as [->|]; set_solver.
Qed.

Lemma widen_loop_exact ps root n D : ascending D -> root ∈ D -> D ⊆ root :: ps.*1 ->
  (forall x, x ∈ D -> x = root \/ descends ps root x) ->
  (S (length ps) < n + length D)%nat ->
  exists D', widen_loop n ps D = Some D' /\ ascending D' /\
    forall x, x ∈ D' <-> x = root \/ descends ps root x.
Proof.
  revert D. induction n as [|n IH]; intros D HD Hr Hsub Hs Hn.
  - exfalso. pose proof (submseteq_length D (root :: ps.*1)
      (NoDup_submseteq _ _ (pids_nodup _ HD) Hsub)) as Hle.
    cbn in Hle. rewrite length_fmap in Hle. lia.
  - cbn [widen_loop]. destruct (widen_grows ps D HD) as (H1 & H2 & H3 & H4). case_decide as Hlen.
    + specialize (H4 Hlen). rewrite H4. exists D. split_and!; [done..|]. intros x. split; [apply Hs|].
      intros [->|Hx]; [done|]. induction Hx as [p t Hin|p q t Hin _ IHx].
      * by eapply widen_closed.
      * by eapply widen_closed.
    + apply IH; [done | auto | | | lia].
      * intros x [Hx|Hx]%widen_bound; [by apply Hsub | set_solver].
      * by apply widen_sound.
Qed.

Lemma bmap_get_in {V : Type} k (v : V) l : NoDup l.*1 -> bmap_get k l = Some v <-> (k, v) ∈ l.
Proof.
  induction l as [|[k' v'] l IH]; cbn; [set_solver|]. intros [Hk Hl]%list.NoDup_cons.
  destruct (Z.eqb_spec k k') as [->|Hne].
  - split; [intros [= ->]; set_solver|]. intros [[= ->]|Hin]%elem_of_cons; [done|].
    exfalso. apply Hk, list_elem_of_fmap. by exists (k', v).
  - rewrite IH by done. rewrite elem_of_cons. naive_solver.
Qed.

(** C21.  The census of a supervisor is exact.  On a process table, one entry per pid,
    the scan ends, and it lists, by ascending pid and with their start times, exactly
    the processes other than the supervisor whose chain of parents leads to it. *)
Theorem descendants_exact ps root : NoDup ps.*1 ->
  exists l, descendants root ps = Some l /\ ascending (Cleanup.pid <$> l) /\
    forall i, i ∈ l <-> Cleanup.pid i <> root /\ descends ps root (Cleanup.pid i) /\
      exists parent, (Cleanup.pid i, (parent, Cleanup.start_ticks i)) ∈ ps.
Proof.
  intros Hnd. unfold descendants.
  destruct (widen_loop_exact ps root (S (length ps)) [root]) as (D & -> & HD & Hin).
  { by repeat constructor. } { set_solver. } { set_solver. } { set_solver. } { cbn. lia. }
  eexists. split; [reflexivity|].
  assert (Hmem : forall i, i ∈ collect ps (filter (fun p => p <> root) D) <->
    Cleanup.pid i <> root /\ descends ps root (Cleanup.pid i) /\
      exists parent, (Cleanup.pid i, (parent, Cleanup.start_ticks i)) ∈ ps).
  { intros [p t]. unfold collect. rewrite list_elem_of_omap. cbn. split.
    - intros (x & [Hx Hx']%list_elem_of_filter & Hi).
      apply bind_Some in Hi as ([q t'] & Hg & [= -> ->]). apply bmap_get_in in Hg; [|done].
      apply Hin in Hx' as [->|Hx']; [done|]. eauto.
    - intros (Hp & Hd & q & Hq). exists p. split.
      + apply list_elem_of_filter. split; [done|]. apply Hin. by right.
      + apply bind_Some. exists (q, t). by rewrite bmap_get_in. }
  split; [|exact Hmem]. unfold collect.
  assert (Hf : ascending (filter (fun p => p <> root) D)).
  { clear -HD. induction HD as [|x l Hs IH Hfa]; [constructor|]. rewrite filter_cons. case_decide; [|done].
    constructor; [done|]. rewrite list.Forall_forall in Hfa |- *.
    intros y [_ Hy]%list_elem_of_filter. by apply Hfa. }
  clear -Hf. induction Hf as [|x l Hs IH Hfa]; [constructor|]. cbn.
  destruct (bmap_get x ps) as [[q t]|]; cbn; [|done].
  constructor; [done|]. rewrite list.Forall_forall in Hfa |- *.
  intros y ([p t'] & -> & Hy)%list_elem_of_fmap. apply list_elem_of_omap in Hy as (z & Hz & Hzy).
  apply bind_Some in Hzy as (? & _ & [= -> _]). by apply Hfa.
Qed.

Definition sample_table : table := [(1, (0, 5)); (7, (42, 9)); (42, (1, 6)); (50, (7, 11)); (60, (1, 12))].

Lemma descendants_exact_witness :
  (exists l, descendants 42 sample_table = Some l /\ ascending (Cleanup.pid <$> l) /\
    forall i, i ∈ l <-> Cleanup.pid i <> 42 /\ descends sample_table 42 (Cleanup.pid i) /\
      exists parent, (Cleanup.pid i, (parent, Cleanup.start_ticks i)) ∈ sample_table) /\
  descendants 42 sample_table =
    Some [Cleanup.Build_ProcessIdentity 7 9; Cleanup.Build_ProcessIdentity 50 11].
Proof. split; [|reflexivity]. apply descendants_exact. apply (bool_decide_unpack (NoDup (fst <$> sample_table))). exact I. Defined.

Lemma bmap_insert_ascending {V : Type} k (v : V) l : ascending l.*1 -> ascending (bmap_insert k v l).*1.
Proof.
  intros H. replace ((bmap_insert k v l).*1) with (bset_insert k l.*1); [by apply bset_insert_ascending|].
  clear H. induction l as [|[k' v'] l IH]; cbn; [done|].
  repeat case_match; cbn; try done; [|by f_equal]. apply Z.eqb_eq in H0. by subst.
Qed.

Section Census.
Context {W : World}.

(** The table the scan builds has one entry per pid. *)
Lemma scan_proc_table names ps d : ascending ps.*1 ->
  returns (scan_proc names ps) d (fun r => forall ps', r = Some ps' -> NoDup ps'.*1).
Proof.
  revert ps. induction names as [|name names IH]; intros ps Hps; cbn [scan_proc].
  - apply returns_ret. intros ps' [= <-]. by apply pids_nodup.
  - destruct (parse_u32 name) as [pid|]; [|by apply IH].
    eapply returns_bind; [solve_reads | apply returns_any|]. intros r _.
    destruct r as [[[st pa] t]| |]; [|by apply IH|by apply returns_ret].
    by apply IH, bmap_insert_ascending.
Qed.

(** ** Control groups *)

Context (e : Env) (steady : forall n, env_at n = e).

(** The pids in the file of a group. *)
Definition procs_of (dir : str) : option (list Z) :=
  match cg_procs e (join_path dir "cgroup.procs") with
  | Content s => parse_procs (lines s) []
  | _ => None
  end.

(** A group below another one, through groups that are still there. *)
Inductive below : str -> str -> Prop :=
| below_refl dir : below dir dir
| below_child dir es name sub : is_Some (procs_of dir) -> cg_entries e dir = Entries es ->
    Some (name, true) ∈ es -> below (join_path dir name) sub -> below dir sub.

Definition populated_by (dirs : list str) (pid : Z) : Prop :=
  exists dir sub l, dir ∈ dirs /\ below dir sub /\ procs_of sub = Some l /\ pid ∈ l.

Lemma push_directories_in dir es pending l : push_directories dir es pending = Some l ->
  forall x, x ∈ l <-> x ∈ pending \/ exists name, Some (name, true) ∈ es /\ x = join_path dir name.
Proof.
  revert pending. induction es as [|[[name is_dir]|] es IH]; intros pending; cbn; [|intros H x|done].
  - intros [= <-] x. set_solver.
  - rewrite (IH _ H). destruct is_dir; [rewrite elem_of_cons|]; set_solver.
Qed.

Lemma elem_of_dedup_pids x l : x ∈ dedup_pids l <-> x ∈ l.
Proof.
  induction l as [|a [|b l] IH]; [done..|]. cbn [dedup_pids] in *.
  destruct (Z.eqb_spec a b) as [->|]; [rewrite IH; set_solver|].
  rewrite elem_of_cons, IH. set_solver.
Qed.

Lemma populated_cons dir dirs x :
  populated_by (dir :: dirs) x <->
  (exists l, procs_of dir = Some l /\ x ∈ l) \/
  (exists es name, is_Some (procs_of dir) /\ cg_entries e dir = Entries es /\
     Some (name, true) ∈ es /\ populated_by [join_path dir name] x) \/
  populated_by dirs x.
Proof.
  split.
  - intros (r & sub & l & [->|Hr]%elem_of_cons & Hb & Hl & Hx); [|right; right; by exists r, sub, l].
    destruct Hb as [dir|dir es name sub Hs He Hn Hb]; [left; eauto|].
    right; left. exists es, name. split_and!; try done. exists (join_path dir name), sub, l. set_solver.
  - intros [(l & Hl & Hx) | [(es & name & Hs & He & Hn & r & sub & l & ->%list_elem_of_singleton & Hb & Hl & Hx)
      | (r & sub & l & Hr & Hb & Hl & Hx)]].
    + exists dir, dir, l. split_and!; try done; [set_solver | constructor].
    + exists dir, sub, l. split_and!; try done; [set_solver | by eapply below_child].
    + exists r, sub, l. set_solver.
Qed.

Lemma populated_elem dirs dirs' x : (forall y, y ∈ dirs -> y ∈ dirs') ->
  populated_by dirs x -> populated_by dirs' x.
Proof. intros Hd (r & sub & l & Hr & H). exists r, sub, l. auto. Qed.

(** Looking into a group replaces it by the groups in it. *)
Lemma populated_push dir es pending pending' l x : procs_of dir = Some l ->
  cg_entries e dir = Entries es -> push_directories dir es pending = Some pending' ->
  populated_by (dir :: pending) x <-> x ∈ l \/ populated_by pending' x.
Proof.
  intros Hl He Hp. pose proof (push_directories_in _ _ _ _ Hp) as Hin. rewrite populated_cons. split.
  - intros [(l' & Hl' & Hx) | [(es' & name & _ & He' & Hn & Hx) | Hx]].
    + left. congruence.
    + right. eapply populated_elem; [|exact Hx]. intros y ->%list_elem_of_singleton.
      apply Hin. right. exists name. split; [congruence | done].
    + right. eapply populated_elem; [|exact Hx]. intros y Hy. apply Hin. by left.
  - intros [Hx | (r & sub & l' & [Hr | (name & Hn & ->)]%Hin & Hb & Hl' & Hx)].
    + left. eauto.
    + right; right. by exists r, sub, l'.
    + right; left. exists es, name. split; [by rewrite Hl|]. split; [done|]. split; [done|].
      exists (join_path dir name), sub, l'. set_solver.
Qed.

Definition walk_answer (pending : list str) (pids : list Z) (r : CgroupCensus) : Prop :=
  match r with
  | CensusUnknown => True
  | Empty _ => pids = [] /\ forall x, ~ populated_by pending x
  | Populated l => forall x, x ∈ l <-> x ∈ pids \/ populated_by pending x
  end.

Lemma walk_answer_change pending pids pending' pids' r :
  (forall x, x ∈ pids' \/ populated_by pending' x <-> x ∈ pids \/ populated_by pending x) ->
  walk_answer pending' pids' r -> walk_answer pending pids r.
Proof.
  intros Hx. destruct r as [absent|l|]; cbn; [| |done].
  - intros [-> Hn]. assert (Hno : forall x, ~ (x ∈ pids \/ populated_by pending x)).
    { intros x Hor%Hx. destruct Hor as [Hin|Hin]; [set_solver | by apply (Hn x)]. }
    split; [|intros x H; apply (Hno x); auto].
    destruct pids as [|x pids]; [done|]. destruct (Hno x). left. set_solver.
  - intros H x. by rewrite H, Hx.
Qed.

Lemma populated_nil x : ~ populated_by [] x.
Proof. intros (r & sub & l & Hr & _). set_solver. Qed.

Lemma walk_done pids : walk_answer [] pids
  (match dedup_pids (merge_sort Z.le pids) with
   | [] => Empty false | _ => Populated (dedup_pids (merge_sort Z.le pids)) end).
Proof.
  assert (Hin : forall x, x ∈ dedup_pids (merge_sort Z.le pids) <-> x ∈ pids).
  { intros x. rewrite elem_of_dedup_pids. by rewrite merge_sort_Permutation. }
  destruct (dedup_pids (merge_sort Z.le pids)) as [|y l] eqn:E; cbn.
  - split; [|intros x; apply populated_nil]. destruct pids as [|y pids]; [done|].
    exfalso. assert (H : y ∈ []) by (apply Hin; set_solver). set_solver.
  - intros x. rewrite Hin. pose proof (populated_nil x). tauto.
Qed.

(** A census that reports a group as empty has looked everywhere.  On a steady
    host, the walk over the groups below the ones it starts from answers "empty" only
    when none of them has a process, and otherwise lists exactly the processes in
    them; what it could not read is reported as unknown, never as empty. *)
Theorem cgroup_walk_exact fuel pending pids d :
  returns (walk fuel pending pids) d (walk_answer pending pids).
Proof.
  revert pending pids. induction fuel as [|fuel IH]; intros [|dir pending] pids; cbn [walk].
  - apply returns_ret, walk_done.
  - by intros t.
  - apply returns_ret, walk_done.
  - eapply returns_bind; [solve_reads | by apply (returns_observe _ (fun x => x = e))|]. intros ? ->.
    assert (Hp : procs_of dir = match cg_procs e (join_path dir "cgroup.procs") with
      | Content s => parse_procs (lines s) [] | _ => None end) by done.
    destruct (cg_procs e (join_path dir "cgroup.procs")) as [| |s] eqn:Hc.
    + eapply returns_impl; [apply IH|]. intros r. apply walk_answer_change. intros x.
      rewrite populated_cons, Hp. naive_solver.
    + by apply returns_ret.
    + rewrite parse_procs_app. destruct (parse_procs (lines s) []) as [l|]; cbn; [|by apply returns_ret].
      eapply returns_bind; [solve_reads | by apply (returns_observe _ (fun x => x = e))|]. intros ? ->.
      destruct (cg_entries e dir) as [| |es] eqn:He; [|by apply returns_ret|].
      * eapply returns_impl; [apply IH|]. intros r. apply walk_answer_change. intros x.
        rewrite populated_cons, Hp, elem_of_app. rewrite He. naive_solver.
      * destruct (push_directories dir es pending) as [pending'|] eqn:Hpush; [|by apply returns_ret].
        eapply returns_impl; [apply IH|]. intros r. apply walk_answer_change. intros x.
        rewrite (populated_push dir es pending pending' l x) by done. rewrite elem_of_app. tauto.
Qed.

End Census.

(** ** The policy *)

(** An attestation also overrides a domain that the kernel says is populated. *)
Lemma populated_overridden evidence : trim evidence <> [] ->
  census_disposition DomainPopulated true evidence = Some (AttestedOverPopulated (trim evidence)).
Proof. intros H. cbn. by destruct (str_eqb_spec (trim evidence) []). Qed.
