(* ===== verification/LandSamples.v ===== *)
(** The theorems on the landing lock at work: a host, a repository and its files. *)

From stdpp Require Import gmap functions sorting.
From S2P Require Import Prelude Text LandRecords LandRecordsCorrect LandLease LandHost LandCensus LandLock.
From S2P Require Import LandRun LandLogic LandLockCorrect LandProtocol LandRefine LandCalm.

#[local] Existing Instance landing.

(** ** A host *)

Definition sample_stat : str := "4242 (ci-hub) S 1 2 3 4 5 6 7 8 9 10 11 12 13 14 15 16 17 18 991 0".

Definition sample_env (stat_error : bool) : Env := {|
  io := Fine;
  torn := Garbled;
  stat_fails := stat_error;
  unix_seconds := Some 1786000100;
  instant := 0;
  hostname := Some (lit "box" ++ nl);
  boot_id_file := Some (lit "b0" ++ nl);
  local_time := fun _ => Some (lit "2026-08-06T07:08:20+0000");
  self_pid := 77;
  stat_file := fun pid => if pid =? 4242 then Content sample_stat else Missing;
  cgroup_file := fun _ => None;
  proc_names := Some [];
  kill := fun _ _ => ESRCH;
  pidfd_open := fun _ => ESRCH;
  pidfd_send_signal := fun _ _ => ESRCH;
  flock := Granted;
  listing := Some [lit "_x_cleanup.claim"];
  cg_stat := fun _ => StatMissing;
  cg_procs := fun _ => Missing;
  cg_entries := fun _ => ListMissing;
  preflight := fun _ => Some (Some 0);
  spawned := None;
  waited := Running;
  signalled := 0;
  others := fun d => d
|}.

Definition sample_world : World := {| env_at := fun _ => sample_env false; polls := 3 |}.
Definition broken_stat_world : World := {| env_at := fun _ => sample_env true; polls := 3 |}.

Definition sample_paths : LockPaths :=
  {| lock := "/w/.landing-lock"; anchor_dir := "/run/ci"; kind := "landing-box.lock" |}.

Lemma sample_apart : claims_apart (P := sample_paths).
Proof.
  intros name p Hp Heq. apply (f_equal (fun s : str => s !! 1%nat)) in Heq.
  repeat (apply elem_of_cons in Hp as [->|Hp]; [vm_compute in Heq; discriminate Heq|]).
  by apply elem_of_nil in Hp.
Qed.

(** ** Its files *)

Section Files.
#[local] Existing Instance sample_paths.

Definition held_disk : Disk :=
  <[lock := Text (Holder.render sample_holder)]> (<[owner := Text (Owner.render sample_owner)]> ∅).

Definition quarantined_disk : Disk := <[cleanup := Text "anything"]> held_disk.

(** A run whose supervisor died while its payload was published. *)
Definition orphan : Cleanup.CleanupRecord :=
  {| Cleanup.agent := "agent-7"; Cleanup.operation := "pr:412"; Cleanup.host := "box";
     Cleanup.boot_id := "b0";
     Cleanup.phase := Cleanup.Published (Cleanup.Build_ProcessIdentity 4300 995) 4300;
     Cleanup.cgroup := Some (lit "/user.slice/user@1000.service/app.slice/run.scope") |}.

Definition orphaned_disk : Disk :=
  <[cleanup := Text (Cleanup.render orphan)]>
    (<[lock := Text (Holder.render sample_holder)]>
      (<[owner := Text (Owner.render (Owner.Build_ProcessOwner "box" "b0" 4243 991))]> ∅)).

Definition orphan_args (attest : bool) : CensusOrphanedDomainArgs :=
  {| c_agent := "agent-7"; c_operation := "pr:412"; c_leader := "4300:995"; c_pgid := 4300;
     c_attest_domain_empty := attest; c_evidence := "systemd-cgls" |}.

(** A free lease with another agent in line. *)
Definition queued_lease : lease :=
  {| l_holder := None; l_owner := None;
     l_queue := [Queue.Build_QueueEntry 1786000000 "agent-3" "9"] |}.

Definition queued_disk : Disk :=
  <[queue := Text (Queue.render_content (l_queue queued_lease))]> ∅.

Definition sample_args : AcquireArgs :=
  {| a_agent := "agent-8"; a_purpose := lit "413"; a_wait := 0; a_hold := 900 |}.

Definition claimed_disk : Disk :=
  <[claim_path "_x_cleanup.claim" := Text (lit "version=1" ++ nl ++ lit "cleanup=/x/cleanup" ++ nl)]>
    (<[lit "/x/cleanup" := Garbled]> ∅).

End Files.

Lemma sample_owner_alive o :
  Owner.parse (Owner.render sample_owner) = Ok o -> ~ proven_dead (W := sample_world) o.
Proof.
  vm_compute (Owner.parse _). intros [= <-] [(n & b & [= <-] & Hb) | [n [Hm|Hs]]].
  - by apply Hb.
  - discriminate Hm.
  - destruct Hs as (s & st & pa & t & [= <-] & Hp & Ht). vm_compute in Hp. injection Hp as _ _ <-.
    by apply Ht.
Qed.

(** ** Witnesses *)

Lemma landing_exclusive_witness :
  leased (P := sample_paths) (Holder.render sample_holder) (Some (Text (Owner.render sample_owner)))
    (execute (W := sample_world) (P := sample_paths) (Acquire sample_args) 0%nat held_disk).2 /\
  (execute (W := sample_world) (P := sample_paths) (Acquire sample_args) 0%nat held_disk).1.1 <> Done 0.
Proof.
  apply (landing_exclusive (W := sample_world) (P := sample_paths) (Holder.render sample_holder)
    sample_holder).
  - done.
  - apply sample_apart.
  - vm_compute. reflexivity.
  - intros n x [= <-]. reflexivity.
  - intros so o [= <-]. apply sample_owner_alive.
  - done.
  - exact I.
  - split; vm_compute; reflexivity.
Defined.

Lemma quarantine_holds_witness :
  fixed (P := sample_paths) (Some (Text (Holder.render sample_holder)))
    (Some (Text (Owner.render sample_owner))) (Text "anything")
    (execute (W := sample_world) (P := sample_paths) (Release "agent-7") 0%nat quarantined_disk).2 /\
  (execute (W := sample_world) (P := sample_paths) (Release "agent-7") 0%nat quarantined_disk).1.1
    <> Done 0.
Proof.
  apply (quarantine_holds (W := sample_world) (P := sample_paths)).
  - apply sample_apart.
  - done.
  - exact I.
  - split_and!; vm_compute; reflexivity.
Defined.

(** The census of an orphan concludes a record whose groups are gone, without an
    attestation. *)
Lemma cleanup_protocol_witness :
  (execute (W := sample_world) (P := sample_paths) (CensusOrphanedDomain (orphan_args false)) 0%nat
     orphaned_disk).2 !! cleanup (P := sample_paths) =
  Some (Text (Cleanup.render (set_phase orphan (Cleanup.Residual 4300 true []) None))) /\
  rtc (cleanup_step (W := sample_world) (fun _ => False))
    (orphaned_disk !! cleanup (P := sample_paths))
    ((execute (W := sample_world) (P := sample_paths) (CensusOrphanedDomain (orphan_args false)) 0%nat
        orphaned_disk).2 !! cleanup (P := sample_paths)).
Proof.
  split; [vm_compute; reflexivity|].
  apply (cleanup_protocol (W := sample_world) (P := sample_paths)).
  - apply sample_apart.
  - intros evidence (args & [= <-] & [=] & _).
  - intros n d. apply rtc_refl.
Defined.

Lemma try_acquire_refines_witness :
  exists token d' l',
    becomes (try_acquire (W := sample_world) (P := sample_paths) sample_args) queued_disk token d' /\
    represents (P := sample_paths) d' l' /\
    lease_step sample_args 1786000100 UnknownOwner queued_lease token l'.
Proof.
  apply (try_acquire_refines (W := sample_world) (P := sample_paths) (sample_env false)
    (fun _ => eq_refl) eq_refl eq_refl sample_args 1786000100 "2026-08-06T07:08:20+0000"
    (lit "b0" ++ nl)) with (d := queued_disk) (l := queued_lease).
  - split; try reflexivity; try (vm_compute; exact I). lia.
  - split; try reflexivity; try (vm_compute; exact I).
    + left. reflexivity.
    + constructor; [|done]. split; try (vm_compute; exact I). unfold i64. cbn. lia.
Defined.

Lemma foreign_quarantine_refuses_witness :
  exists d', becomes (execute (W := sample_world) (P := sample_paths) (Acquire sample_args))
    claimed_disk REFUSED_EXIT_CODE d'.
Proof.
  apply (foreign_quarantine_refuses (W := sample_world) (P := sample_paths) (sample_env false)
    (fun _ => eq_refl) eq_refl claimed_disk "_x_cleanup.claim" "/x/cleanup" [lit "_x_cleanup.claim"]).
  - reflexivity.
  - by left.
  - split; try (vm_compute; reflexivity).
    + eexists. split; [vm_compute; reflexivity|]. vm_compute. reflexivity.
    + by vm_compute.
    + intros name Heq. apply (f_equal (fun s : str => s !! 1%nat)) in Heq. by vm_compute in Heq.
    + eexists. vm_compute. reflexivity.
  - reflexivity.
  - discriminate.
  - exact I.
Defined.

(** ** A [stat] that fails *)

(** [Path::exists] takes an error for absence: when [stat] fails, a lease that is held
    by a live owner is handed out again. *)
Lemma stat_failure_displaces_holder :
  (execute (W := broken_stat_world) (P := sample_paths) (Acquire sample_args) 0%nat held_disk).1.1 =
  Done 0.
Proof. vm_compute. reflexivity. Qed.

(** ** A domain that is not empty *)

Definition populated_env : Env := {|
  io := Fine; torn := Garbled; stat_fails := false; unix_seconds := Some 1786000100; instant := 0;
  hostname := Some (lit "box" ++ nl); boot_id_file := Some (lit "b0" ++ nl);
  local_time := fun _ => Some (lit "2026-08-06T07:08:20+0000"); self_pid := 77;
  stat_file := fun pid => if pid =? 4242 then Content sample_stat else Missing;
  cgroup_file := fun _ => None; proc_names := Some []; kill := fun _ _ => ESRCH;
  pidfd_open := fun _ => ESRCH; pidfd_send_signal := fun _ _ => ESRCH; flock := Granted;
  listing := Some []; cg_stat := fun _ => Directory; cg_procs := fun _ => Content "4301";
  cg_entries := fun _ => Entries []; preflight := fun _ => Some (Some 0); spawned := None;
  waited := Running; signalled := 0; others := fun d => d
|}.
Definition populated_world : World := {| env_at := fun _ => populated_env; polls := 3 |}.

(** A process that is left in the domain stops the census, unless the operator attests:
    then the record is concluded although the kernel names a process. *)
Lemma attestation_buries_a_live_domain :
  (execute (W := populated_world) (P := sample_paths) (CensusOrphanedDomain (orphan_args false)) 0%nat
     orphaned_disk).1.1 = Fail census_refusal /\
  (execute (W := populated_world) (P := sample_paths) (CensusOrphanedDomain (orphan_args true)) 0%nat
     orphaned_disk).1.1 = Done 0.
Proof. split; vm_compute; reflexivity. Qed.

(** ** A run *)

(** A host where a child is spawned, exits with status 7 and is gone. *)
Definition child_stat : str := "4300 (cargo) Z 77 2 3 4 5 6 7 8 9 10 11 12 13 14 15 16 17 18 995 0".
Definition self_stat : str := "77 (ci-hub) S 1 2 3 4 5 6 7 8 9 10 11 12 13 14 15 16 17 18 640 0".

Definition quiet_env : Env := {|
  io := Fine;
  torn := Garbled;
  stat_fails := false;
  unix_seconds := Some 1786000100;
  instant := 0;
  hostname := Some (lit "box" ++ nl);
  boot_id_file := Some (lit "b0" ++ nl);
  local_time := fun _ => Some (lit "2026-08-06T07:08:20+0000");
  self_pid := 77;
  stat_file := fun pid => if pid =? 77 then Content self_stat
                          else if pid =? 4300 then Content child_stat else Missing;
  cgroup_file := fun _ => Some (lit "0::/user.slice/run.scope");
  proc_names := Some [lit "77"; lit "self"];
  kill := fun _ _ => ESRCH;
  pidfd_open := fun _ => ESRCH;
  pidfd_send_signal := fun _ _ => ESRCH;
  flock := Granted;
  listing := Some [];
  cg_stat := fun _ => StatMissing;
  cg_procs := fun _ => Missing;
  cg_entries := fun _ => ListMissing;
  preflight := fun _ => Some (Some 0);
  spawned := Some 4300;
  waited := Exited (Some 7) None;
  signalled := 0;
  others := fun d => d
|}.

Definition quiet_world : World := {| env_at := fun _ => quiet_env; polls := 3 |}.

Definition landing_args : RunArgs :=
  {| r_agent := "agent-8"; r_pr := "413"; r_wait := 0; r_hold := 900; r_child_deadline := 60;
     r_child := [lit "cargo"] |}.

Lemma quiet_calm : calm (W := quiet_world) quiet_env.
Proof. by split. Qed.

Lemma quiet_scan d : becomes (scan_descendants (W := quiet_world) (self_pid quiet_env)) d (Some []) d.
Proof. intros t. eexists. vm_compute. reflexivity. Qed.

(** What the two requests below share. *)
Lemma quiet_sample {L : Lease} {LL : LeaseLaws L} {P : LockPaths} (args : AcquireArgs) :
  claims_apart -> QueueCodec.cell (a_agent args) -> purpose_wf (a_purpose args) ->
  quiet (W := quiet_world) quiet_env args (Some 7) None.
Proof.
  intros Ha Hag Hp. split; [apply quiet_calm | done | done | | | | | |]; try done.
  - exists 1786000100, (lit "2026-08-06T07:08:20+0000"), (lit "b0" ++ nl).
    split; try done; vm_compute; done.
  - exists self_stat, 83, 1, 640. unfold in_width. split_and!; done.
  - exists 4300, child_stat, 90, 77, 995. unfold in_width. split_and!; done.
  - apply quiet_scan.
Qed.

Lemma free_empty `{P : LockPaths, L : Lease, !LeaseLaws L} : represents ∅ free.
Proof. split; try done. by right. Qed.

Lemma landing_run_completes_witness :
  exists d', becomes (run (W := quiet_world) (P := sample_paths) landing_args) ∅ 7 d' /\
    represents (P := sample_paths) d' free.
Proof.
  apply (landing_run_completes (W := quiet_world) (P := sample_paths) quiet_env landing_args (Some 7) None).
  - apply quiet_sample; [apply sample_apart | vm_compute; done..].
  - discriminate.
  - discriminate.
  - apply free_empty.
Defined.
