(* ===== verification/ValidateLock.v ===== *)
(** The validation lock ([ci-hub/lib/validate_lock.rs]): its holder record, the
    admission of a head, and the canonical authority snapshot that receipts are
    bound to.  Owner and cleanup records, the queue, the host and the paths are those
    of the landing lock, whose helpers the source shares or repeats; the lease engine,
    which mirrors the landing lock's, is that of [LandLock.v] at the instance
    [validation]. *)

From stdpp Require Import gmap functions sorting.
From S2P Require Import Prelude Text LandRecords LandLease LandHost LandCensus LandLock.

(** The cap on box-exclusive jobs. *)
Definition BOX_EXCLUSIVE_CAP : Z := 1.

Inductive Kind : Type := Validate | Bench.

#[global] Instance Kind_eq : EqDecision Kind.
Proof. solve_decision. Defined.

Definition kind_as_str (k : Kind) : str :=
  match k with Validate => "validate" | Bench => "bench" end.

Definition kind_parse (value : str) : result Kind LockError :=
  if str_eqb value "validate" then Ok Validate
  else if str_eqb value "bench" then Ok Bench
  else Err InvalidState.

(** ** The holder *)

Module Validated.

Record ValidateLockState : Type := {
  agent : str;
  kind : str;
  target : str;
  host : str;
  acquired_at : Z;
  acquired_human : str;
  expires_at : Z;
  reclaimed_from : option str
}.

(** The local variables of [parse]. *)
Inductive text_field : Type := Agent | Kind_ | Target | Host | AcquiredHuman | ReclaimedFrom.
Inductive int_field : Type := AcquiredAt | ExpiresAt.

#[global] Instance validated_text_field_eq : EqDecision text_field.
Proof. solve_decision. Defined.
#[global] Instance validated_int_field_eq : EqDecision int_field.
Proof. solve_decision. Defined.

Record slots : Type := { texts : text_field -> option str; ints : int_field -> option Z }.
Definition no_slots : slots := {| texts := fun _ => None; ints := fun _ => None |}.
Definition set_text (f : text_field) (v : str) (s : slots) : slots :=
  {| texts := <[f := Some v]> (texts s); ints := ints s |}.
Definition set_int (f : int_field) (v : Z) (s : slots) : slots :=
  {| texts := texts s; ints := <[f := Some v]> (ints s) |}.

Definition field (key value : str) (s : slots) : result slots LockError :=
  if str_eqb key "agent" then Ok (set_text Agent value s)
  else if str_eqb key "kind" then Ok (set_text Kind_ value s)
  else if str_eqb key "target" then Ok (set_text Target value s)
  else if str_eqb key "host" then Ok (set_text Host value s)
  else if str_eqb key "acquired_at" then let? v := parse_integer value in Ok (set_int AcquiredAt v s)
  else if str_eqb key "acquired_human" then Ok (set_text AcquiredHuman value s)
  else if str_eqb key "expires_at" then let? v := parse_integer value in Ok (set_int ExpiresAt v s)
  else if str_eqb key "reclaimed_from" then Ok (set_text ReclaimedFrom value s)
  else Err InvalidState.

Fixpoint parse_lines (ls : list str) (s : slots) : result slots LockError :=
  match ls with
  | [] => Ok s
  | line :: ls =>
      let? kv := ok_or (split_once 61 line) InvalidState in
      let? s := field kv.1 kv.2 s in
      parse_lines ls s
  end.

Definition parse (content : str) : result ValidateLockState LockError :=
  let? s := parse_lines (lines content) no_slots in
  let? agent := required (texts s Agent) in
  let? kind := required (texts s Kind_) in
  let? target := required (texts s Target) in
  let? host := required (texts s Host) in
  let? acquired_at := required (ints s AcquiredAt) in
  let? acquired_human := required (texts s AcquiredHuman) in
  let? expires_at := required (ints s ExpiresAt) in
  Ok {| agent := agent; kind := kind; target := target; host := host; acquired_at := acquired_at;
        acquired_human := acquired_human; expires_at := expires_at;
        reclaimed_from := texts s ReclaimedFrom |}.

Definition render (h : ValidateLockState) : str :=
  key_value "agent" (agent h) ++
  key_value "kind" (kind h) ++
  key_value "target" (target h) ++
  key_value "host" (host h) ++
  key_value "acquired_at" (dec (acquired_at h)) ++
  key_value "acquired_human" (acquired_human h) ++
  key_value "expires_at" (dec (expires_at h)) ++
  match reclaimed_from h with Some r => key_value "reclaimed_from" r | None => [] end.

End Validated.

(** ** The lease *)

(** [format!("{}:{}", kind, target)] *)
Definition named (kind target : str) : str := kind +++ ":" +++ target.

Definition validation : Lease := {|
  holder_state := Validated.ValidateLockState;
  purpose := Kind * str;
  holder_parse := Validated.parse;
  holder_render := Validated.render;
  holder_agent := Validated.agent;
  holder_acquired := Validated.acquired_at;
  holder_expires := Validated.expires_at;
  holder_operation := fun h => named (Validated.kind h) (Validated.target h);
  purpose_operation := fun p => named (kind_as_str p.1) p.2;
  purpose_column := snd;
  holder_purpose := fun h =>
    let? k := kind_parse (Validated.kind h) in Ok (k, Validated.target h);
  holder_is_for := fun h p =>
    str_eqb (Validated.kind h) (kind_as_str p.1) && str_eqb (Validated.target h) p.2;
  holder_new := fun agent p host acquired_at acquired_human expires_at reclaimed_from =>
    {| Validated.agent := agent;
       Validated.kind := kind_as_str p.1;
       Validated.target := p.2;
       Validated.host := host;
       Validated.acquired_at := acquired_at;
       Validated.acquired_human := acquired_human;
       Validated.expires_at := expires_at;
       Validated.reclaimed_from := reclaimed_from |};
  holder_carry := fun _ fresh => fresh;
  census_refusal := RecoveryNotProven
|}.

(** ** Admission of a head *)

Definition reject_bad_max (max : Z) : result () LockError :=
  if negb (max =? BOX_EXCLUSIVE_CAP) then Err BadMax else Ok ().

(** [u8::is_ascii_hexdigit] without the upper-case letters.  The length is that of the
    UTF-8 encoding; characters beyond ASCII are refused by the second test. *)
Definition is_lower_hex (c : Z) : bool := is_digit c || ((97 <=? c) && (c <=? 102)).

Definition is_full_sha (target : str) : bool :=
  (Z.of_nat (length target) =? 40) && forallb is_lower_hex target.

Section Authority.
#[local] Existing Instance validation.
Context {W : World} {P : LockPaths}.

(** The predicate itself is the preflight program; only its exit code zero admits. *)
Definition base_admission_check (target : str) (kind : Kind) (skip : bool) : M () :=
  if negb (bool_decide (kind = Validate)) then ret ()
  else if skip then throw StaleBase
  else if negb (is_full_sha target) then throw StaleBase
  else
    let* e := observe in
    match preflight e target with
    | None => throw StaleBase
    | Some (Some code) => if code =? 0 then ret () else throw StaleBase
    | Some None => throw StaleBase
    end.

(** ** The authority snapshot *)

Inductive AuthorityState : Type := SHeld | SFree | SLapsed | SOrphaned | SQuarantined | SIndeterminate.

Inductive AuthorityCleanupState : Type :=
| CNone | CActiveBound | CArmed | CRecoverable | CUncensused | CUnknown.

Inductive AuthorityOwnerLiveness : Type := LAlive | LDead | LUnknown.

Record AuthorityHolder : Type := {
  h_agent : str; h_kind : str; h_target : str; h_host : str; h_acquired_at : Z; h_expires_at : Z }.

Definition authority_holder (h : Validated.ValidateLockState) : AuthorityHolder :=
  {| h_agent := Validated.agent h; h_kind := Validated.kind h; h_target := Validated.target h;
     h_host := Validated.host h; h_acquired_at := Validated.acquired_at h;
     h_expires_at := Validated.expires_at h |}.

Record AuthorityOwner : Type := {
  o_host : str; o_boot_id : str; o_pid : Z; o_start_ticks : Z; o_liveness : AuthorityOwnerLiveness }.

Definition from_process (o : Owner.ProcessOwner) (l : AuthorityOwnerLiveness) : AuthorityOwner :=
  {| o_host := Owner.host o; o_boot_id := Owner.boot_id o; o_pid := Owner.pid o;
     o_start_ticks := Owner.start_ticks o; o_liveness := l |}.

Record AuthorityStatus : Type := {
  schema_version : Z;
  admissible : bool;
  state : AuthorityState;
  reason_code : option str;
  s_holder : option AuthorityHolder;
  s_owner : option AuthorityOwner;
  anchor_held : bool;
  cleanup_state : AuthorityCleanupState
}.

Definition refused (state : AuthorityState) (reason_code : str) (holder : option AuthorityHolder)
    (owner : option AuthorityOwner) (anchor_held : bool) (cleanup_state : AuthorityCleanupState) :
    AuthorityStatus :=
  {| schema_version := 1; admissible := false; state := state; reason_code := Some reason_code;
     s_holder := holder; s_owner := owner; anchor_held := anchor_held;
     cleanup_state := cleanup_state |}.

Definition admitted (holder : AuthorityHolder) (owner : AuthorityOwner)
    (cleanup_state : AuthorityCleanupState) : AuthorityStatus :=
  {| schema_version := 1; admissible := true; state := SHeld; reason_code := None;
     s_holder := Some holder; s_owner := Some owner; anchor_held := true;
     cleanup_state := cleanup_state |}.

Inductive AuthorityRecord (A : Type) : Type := RMissing | RPresent (a : A) | RMalformed.
Arguments RMissing {A}.
Arguments RPresent {A} _.
Arguments RMalformed {A}.

(** A record that vanished between the test and the reading counts as malformed. *)
Definition read_authority {A} (p : str) (parse : str -> result A LockError) : M (AuthorityRecord A) :=
  let* there := path_exists p in
  if negb there then ret RMissing
  else
    let* content := fs_read p in
    match content with
    | Missing => ret RMalformed
    | Unreadable => throw Io
    | Content s => match parse s with Ok a => ret (RPresent a) | Err _ => ret RMalformed end
    end.

Definition read_authority_holder : M (AuthorityRecord Validated.ValidateLockState) :=
  read_authority lock Validated.parse.
Definition read_authority_owner : M (AuthorityRecord Owner.ProcessOwner) :=
  read_authority owner Owner.parse.

(** Opening the anchor, which is not created. *)
Definition open_anchor : M bool :=
  fun t d =>
    match io (env_at t) with
    | Fine => (Done (bool_decide (is_Some (d !! anchor))), S t, d)
    | Failed _ => (Fail Io, S t, d)
    | Killed _ => (Dead, S t, d)
    end.

Definition canonical_anchor_held : M bool :=
  let* opened := open_anchor in
  if negb opened then ret false
  else
    let* e := observe in
    match flock e with
    | WouldBlock => ret true
    | LockFailed => throw Io
    | Granted =>
        let* e := observe in
        match io e with Failed _ => throw Io | _ => ret false end
    end.

(** The state of the cleanup record, and the reason to refuse for it. *)
Definition classify_cleanup (v : CleanupVerification) : AuthorityCleanupState * option str :=
  match v with
  | VNone => (CNone, None)
  | VActive record =>
      match Cleanup.phase record with
      | Cleanup.Published _ _ => (CActiveBound, None)
      | Cleanup.CensusPending _ _ => (CActiveBound, Some (lit "canonical-cleanup-census-pending"))
      | Cleanup.Residual _ _ _ => (CActiveBound, Some (lit "canonical-cleanup-residual-active"))
      | Cleanup.Armed => (CUnknown, Some (lit "canonical-cleanup-phase-inconsistent"))
      end
  | VArmed _ => (CArmed, Some (lit "canonical-cleanup-armed"))
  | VRecoverable _ => (CRecoverable, Some (lit "canonical-cleanup-recoverable"))
  | VUncensused _ => (CUncensused, Some (lit "canonical-cleanup-uncensused"))
  | VUnknown _ => (CUnknown, Some (lit "canonical-cleanup-indeterminate"))
  end.

(** The owner as it is reported, and the reason to refuse for it. *)
Definition classify_owner (host : str) (o : AuthorityRecord Owner.ProcessOwner) :
    M (option AuthorityOwner * option (AuthorityState * str)) :=
  match o with
  | RMissing => ret (None, None)
  | RMalformed => ret (None, Some (SIndeterminate, lit "canonical-owner-malformed"))
  | RPresent o =>
      if str_eqb host "unknown" then
        ret (Some (from_process o LUnknown),
             Some (SIndeterminate, lit "canonical-current-host-unavailable"))
      else if negb (str_eqb (Owner.host o) host) then
        ret (Some (from_process o LUnknown),
             Some (SIndeterminate, lit "canonical-owner-host-mismatch"))
      else
        let* boot_id := current_boot_id in
        if negb (str_eqb (Owner.boot_id o) boot_id) then
          ret (Some (from_process o LDead), Some (SOrphaned, lit "canonical-owner-boot-id-mismatch"))
        else
          let* r := process_start_ticks (Owner.pid o) in
          match r with
          | Found observed =>
              if observed =? Owner.start_ticks o then ret (Some (from_process o LAlive), None)
              else ret (Some (from_process o LDead),
                        Some (SOrphaned, lit "canonical-owner-start-ticks-mismatch"))
          | NotFound =>
              ret (Some (from_process o LDead), Some (SOrphaned, lit "canonical-owner-pid-absent"))
          | OtherError =>
              ret (Some (from_process o LUnknown),
                   Some (SIndeterminate, lit "canonical-owner-liveness-indeterminate"))
          end
  end.

Definition authority_status_guarded : M AuthorityStatus :=
  let* anchor_before := canonical_anchor_held in
  let* now := epoch_seconds in
  let* host := current_host in
  let* holder_record := read_authority_holder in
  let holder_ref := match holder_record with RPresent h => Some h | RMissing | RMalformed => None end in
  let* v := cleanup_verification holder_ref in
  let* owner_record := read_authority_owner in
  let '(cleanup_state, cleanup_refusal) := classify_cleanup v in
  let* classified := classify_owner host owner_record in
  let '(owner, owner_refusal) := classified in
  let* anchor_after := canonical_anchor_held in
  let anchor_held := anchor_before && anchor_after in
  let holder := authority_holder <$> holder_ref in
  if negb (Bool.eqb anchor_before anchor_after) then
    ret (refused SIndeterminate "canonical-anchor-raced" holder owner false cleanup_state)
  else
  match holder_record, cleanup_refusal with
  | RMalformed, _ =>
      ret (refused SIndeterminate "canonical-holder-malformed" None owner anchor_held cleanup_state)
  | _, Some reason => ret (refused SQuarantined reason holder owner anchor_held cleanup_state)
  | RMissing, None =>
      match owner_record with
      | RMissing =>
          ret (if anchor_held then
                 refused SIndeterminate "canonical-holder-missing" None None anchor_held cleanup_state
               else
                 refused SFree "canonical-lock-not-held" None None anchor_held cleanup_state)
      | _ =>
          ret (refused SIndeterminate "canonical-owner-without-holder" None owner anchor_held
                 cleanup_state)
      end
  | RPresent h, None =>
      let holder := authority_holder h in
      if negb (live_at (L := validation) h now) then
        ret (refused SLapsed "canonical-holder-lapsed" (Some holder) owner anchor_held cleanup_state)
      else if negb anchor_held then
        ret (refused SOrphaned "canonical-anchor-not-held" (Some holder) owner false cleanup_state)
      else if negb (str_eqb (Validated.kind h) (kind_as_str Validate)) then
        ret (refused SHeld "canonical-holder-kind-not-validate" (Some holder) owner true cleanup_state)
      else if str_eqb host "unknown" then
        ret (refused SIndeterminate "canonical-current-host-unavailable" (Some holder) owner true
               cleanup_state)
      else if negb (str_eqb (Validated.host h) host) then
        ret (refused SIndeterminate "canonical-holder-host-mismatch" (Some holder) owner true
               cleanup_state)
      else
        match owner_record with
        | RMissing =>
            ret (refused SIndeterminate "canonical-owner-missing" (Some holder) None true cleanup_state)
        | _ =>
            match owner_refusal with
            | Some (state, reason) =>
                ret (refused state reason (Some holder) owner true cleanup_state)
            | None =>
                match owner with
                | None => throw InvalidState
                | Some owner => ret (admitted holder owner cleanup_state)
                end
            end
        end
  end.

(** The command: the snapshot is taken inside a critical section. *)
Definition authority_status : M AuthorityStatus := with_guard authority_status_guarded.

End Authority.

Arguments RMissing {A}.
Arguments RPresent {A} _.
Arguments RMalformed {A}.
