(* ===== verification/ValidateRun.v ===== *)
(** The operations of the validation lock ([ci-hub/lib/validate_lock.rs]): the lease
    engine at its own records, the run that survives termination signals, and the
    dispatch of its commands. *)

From stdpp Require Import gmap functions sorting.
From S2P Require Import Prelude Text LandRecords LandLease LandHost LandCensus LandLock LandRun.
From S2P Require Import ValidateLock.

Module VLock.

Definition DEFAULT_CHILD_DEADLINE_SECONDS : Z := 3600.
Definition REFUSED_EXIT_CODE : Z := 3.
Definition STALE_BASE_EXIT_CODE : Z := 3.

#[local] Existing Instance validation.

Section Operations.
Context {W : World} {P : LockPaths}.

(** ** The lease engine *)

Definition read_holder : M (option Validated.ValidateLockState) := LandLock.read_holder.
Definition write_holder : Validated.ValidateLockState -> M () := LandLock.write_holder.

Definition new_holder (agent : str) (kind : Kind) (target : str) (hold : Z)
    (reclaimed_from : option str) : M Validated.ValidateLockState :=
  LandLock.new_holder agent (kind, target) hold reclaimed_from.

Definition cleanup_verification (holder : option Validated.ValidateLockState) :
    M CleanupVerification := LandLock.cleanup_verification holder.
Definition require_no_cleanup (holder : option Validated.ValidateLockState) : M () :=
  LandLock.require_no_cleanup holder.

Definition try_acquire (agent : str) (kind : Kind) (target : str) (hold : Z) : M AcquireToken :=
  LandLock.try_acquire {| a_agent := agent; a_purpose := (kind, target); a_wait := 0; a_hold := hold |}.

Definition acquire (agent : str) (kind : Kind) (target : str) (wait hold : Z) : M Z :=
  LandLock.acquire {| a_agent := agent; a_purpose := (kind, target); a_wait := wait; a_hold := hold |}.

Definition renew (agent : str) (hold : Z) : M () := LandLock.renew agent hold.
Definition release (agent : str) : M (bool * option str) := LandLock.release agent.

Definition arm_run (agent : str) (kind : Kind) (target : str) : M () :=
  LandLock.arm_run agent (kind, target).
Definition transition_run_cleanup (agent : str) (kind : Kind) (target : str)
    (expected : Cleanup.CleanupPhase -> bool) (next : Cleanup.CleanupPhase) (cgroup : option str) :
    M () := LandLock.transition_run_cleanup agent (kind, target) expected next cgroup.
Definition publish_run (agent : str) (kind : Kind) (target : str) (gated : GatedChild) : M () :=
  LandLock.publish_run agent (kind, target) gated.
Definition clear_unstarted_run (agent : str) (kind : Kind) (target : str) : M () :=
  LandLock.clear_unstarted_run agent (kind, target).
Definition record_residuals (agent : str) (kind : Kind) (target : str) (pgid : Z)
    (capture : ResidualCapture) : M () :=
  LandLock.record_residuals agent (kind, target) pgid capture.
Definition begin_run_census (agent : str) (kind : Kind) (target : str) (gated : GatedChild) : M () :=
  LandLock.begin_run_census agent (kind, target) gated.
Definition clear_proven_run (agent : str) (kind : Kind) (target : str) (pgid : Z) : M () :=
  LandLock.clear_proven_run agent (kind, target) pgid.

(** The source builds the renewed record from the arguments, which are those of the
    holder once it has been compared with them ([holder_names_purpose]). *)
Definition renew_run_lease (agent : str) (kind : Kind) (target : str) (hold : Z) : M () :=
  LandLock.renew_run_lease agent (kind, target) hold.

Definition reclaim_dead : M Z := LandLock.reclaim_dead.
Definition census_orphaned_domain (args : CensusOrphanedDomainArgs) : M Z :=
  LandLock.census_orphaned_domain args.

(** ** The run *)

Inductive ChildOutcome : Type :=
| Exited (code signal : option Z)
| TimedOut
| Signalled (signal : Z)
| Uncertain.

(** The handlers record the first signal, which every poll looks at before the clock. *)
Definition install_termination_handlers : M () :=
  let* e := observe in
  match io e with Failed _ => throw Io | _ => ret () end.

Fixpoint supervise_loop (fuel : nat) (pgid deadline : Z) : M ChildOutcome :=
  match fuel with
  | O => spin
  | S fuel =>
      let* e := observe in
      match waited e with
      | LandHost.Exited code signal => ret (Exited code signal)
      | WaitFailed =>
          let* e := observe in
          ret (match waited e with
               | LandHost.Exited code signal => Exited code signal
               | Running | WaitFailed => Uncertain
               end)
      | Running =>
          let* e := observe in
          if negb (signalled e =? 0) then
            do* terminate_child_group pgid ;;
            ret (Signalled (signalled e))
          else
            let* e := observe in
            if deadline <=? instant e then
              do* terminate_child_group pgid ;;
              ret TimedOut
            else supervise_loop fuel pgid deadline
      end
  end.

Definition supervise_child (pgid deadline_secs : Z) : M ChildOutcome :=
  let* e := observe in
  supervise_loop polls pgid (instant e + deadline_secs * 1000).

Record RunArgs : Type := {
  r_agent : str; r_kind : Kind; r_target : str; r_no_wait : bool; r_wait : Z; r_hold : Z;
  r_child_deadline : Z; r_max : Z; r_skip_base_check : bool; r_child : list str }.

Definition finish_run (args : RunArgs) (gated : GatedChild) (outcome : ChildOutcome) : M Z :=
  let agent := r_agent args in let kind := r_kind args in let target := r_target args in
  do* begin_run_census agent kind target gated ;;
  let pgid := g_pgid gated in
  let* e := observe in
  let* capture := capture_and_freeze_residuals (self_pid e) in
  let* group := process_group_exists pgid in
  let domain_empty :=
    negb group && complete capture && match identities capture with [] => true | _ => false end in
  if negb domain_empty then
    do* record_residuals agent kind target pgid capture ;;
    throw CleanupQuarantined
  else
    do* clear_proven_run agent kind target pgid ;;
    let* _r := release agent in
    match outcome with
    | Exited code signal => ret (exit_status_code code signal)
    | TimedOut => ret CHILD_DEADLINE_EXIT_CODE
    | Signalled signal => ret (128 + signal)
    | Uncertain => throw InvalidState
    end.

(** With the lease and the owner record in place: arm, spawn, publish, open the gate. *)
Definition supervised (args : RunArgs) : M Z :=
  let agent := r_agent args in let kind := r_kind args in let target := r_target args in
  do* install_termination_handlers ;;
  do* arm_run agent kind target ;;
  let* gated := spawn_gated_child in
  match gated with
  | None =>
      do* clear_unstarted_run agent kind target ;;
      let* _r := release agent in
      throw Io
  | Some gated =>
      do* publish_run agent kind target gated ;;
      do* release_gate ;;
      let* outcome := supervise_child (g_pgid gated) (r_child_deadline args) in
      finish_run args gated outcome
  end.

(** [--no-wait] asks once; the answer is [None] when the lease was taken. *)
Definition admission (args : RunArgs) : M (option Z) :=
  if r_no_wait args then
    let* token := with_guard (try_acquire (r_agent args) (r_kind args) (r_target args) (r_hold args)) in
    match token with
    | Acquired | AcquiredReclaimed _ => ret None
    | Held _ _ | WaitTurn _ => ret (Some REFUSED_EXIT_CODE)
    end
  else
    let* status := acquire (r_agent args) (r_kind args) (r_target args) (r_wait args) (r_hold args) in
    ret (if negb (status =? 0) then Some status else None).

(** Once the head has been admitted. *)
Definition occupy (args : RunArgs) : M Z :=
  let wait_budget := if r_no_wait args then 0 else r_wait args in
  let* taken := anchor_take wait_budget in
  if negb taken then ret REFUSED_EXIT_CODE
  else
    let* foreign := foreign_box_claim in
    if foreign : bool then ret REFUSED_EXIT_CODE
    else
      let* refused := admission args in
      match refused with
      | Some status => ret status
      | None =>
          let* owned := attempt (with_guard write_current_process_owner) in
          match owned with
          | Err error =>
              let* _r := attempt (release (r_agent args)) in
              throw error
          | Ok _ => supervised args
          end
      end.

Definition run (args : RunArgs) : M Z :=
  match r_child args with
  | [] => throw EmptyChild
  | _ :: _ =>
      if r_child_deadline args =? 0 then throw UnboundedChildDeadline
      else
        do* from_result (reject_bad_max (r_max args)) ;;
        let* e := observe in
        match io e with
        | Failed _ => throw Io
        | _ =>
            let* admitted :=
              attempt (base_admission_check (r_target args) (r_kind args) (r_skip_base_check args)) in
            match admitted with
            | Err StaleBase => ret STALE_BASE_EXIT_CODE
            | Err other => throw other
            | Ok _ => occupy args
            end
        end
  end.

(** ** Commands *)

Record AcquireArgs : Type := {
  q_agent : str; q_kind : Kind; q_target : str; q_wait : Z; q_hold : Z; q_max : Z;
  q_skip_base_check : bool }.

(** [Status] and [AuthorityStatus] only print; the snapshot behind the latter is
    [ValidateLock.authority_status]. *)
Inductive ValidateLockCommand : Type :=
| Acquire (args : AcquireArgs)
| Renew (agent : str) (hold : Z)
| Release (agent : str)
| ReclaimDead
| CensusOrphanedDomain (args : CensusOrphanedDomainArgs)
| Run (args : RunArgs).

Definition consumes_meaningful_time (c : ValidateLockCommand) : bool :=
  match c with Acquire _ | Run _ => true | _ => false end.

Definition execute (c : ValidateLockCommand) : M Z :=
  match c with
  | Acquire args =>
      do* from_result (reject_bad_max (q_max args)) ;;
      do* base_admission_check (q_target args) (q_kind args) (q_skip_base_check args) ;;
      let* held := held_by_another in
      if held : bool then ret REFUSED_EXIT_CODE
      else
        let* foreign := foreign_box_claim in
        if foreign : bool then ret REFUSED_EXIT_CODE
        else acquire (q_agent args) (q_kind args) (q_target args) (q_wait args) (q_hold args)
  | Renew agent hold => do* renew agent hold ;; ret 0
  | Release agent => let* _r := release agent in ret 0
  | ReclaimDead => reclaim_dead
  | CensusOrphanedDomain args => census_orphaned_domain args
  | Run args => run args
  end.

End Operations.

End VLock.
