(* ===== verification/ValidateLockCorrect.v ===== *)
(** The authority of the validation lock: what an admissible snapshot proves. *)

From stdpp Require Import gmap functions sorting.
From S2P Require Import Prelude Text LandRecords LandRecordsCorrect LandLease LandHost LandCensus LandLock.
From S2P Require Import LandRun LandLogic LandLockCorrect LandProtocol LandRefine LandSamples ValidateLock.

(** ** The holder record *)

Module ValidatedCodec.
Import Validated.

Record wf (h : ValidateLockState) : Prop := {
  wf_agent : clean (agent h);
  wf_kind : clean (kind h);
  wf_target : clean (target h);
  wf_host : clean (host h);
  wf_acquired : i64 (acquired_at h);
  wf_human : clean (acquired_human h);
  wf_expires : i64 (expires_at h);
  wf_reclaimed : clean_opt (reclaimed_from h)
}.

Lemma validated_line k v rest s : keyed k -> clean v ->
  parse_lines (lines (key_value k v ++ rest)) s =
  result_bind (field k v s) (parse_lines (lines rest)).
Proof.
  intros Hk Hv. rewrite lines_key_value by done. cbn [parse_lines].
  rewrite keyed_split by done. done.
Qed.

Lemma parse_render_validated h : wf h -> parse (render h) = Ok h.
Proof.
  intros []. destruct h as [a k g ho aa ah ex rf]; cbn [agent kind target host acquired_at
    acquired_human expires_at reclaimed_from] in *.
  unfold parse, render. cbn [agent kind target host acquired_at acquired_human expires_at
    reclaimed_from].
  do 4 (rewrite validated_line by done; unfold field at 1; keys).
  rewrite validated_line by (done || apply clean_dec). unfold field at 1. keys.
  rewrite parse_integer_dec by done. cbn [result_bind].
  rewrite validated_line by done. unfold field at 1. keys.
  rewrite validated_line by (done || apply clean_dec). unfold field at 1. keys.
  rewrite parse_integer_dec by done. cbn [result_bind].
  destruct rf as [r|]; [|reflexivity].
  rewrite <- (app_nil_r (key_value "reclaimed_from" r)).
  rewrite validated_line by done. unfold field at 1. keys. reflexivity.
Qed.

End ValidatedCodec.

(** ** Evidence *)

Section Authority.
#[local] Existing Instance validation.
Context {W : World} {P : LockPaths}.

Lemma returns_and {A : Type} (m : M A) d (phi psi : A -> Prop) :
  returns m d phi -> returns m d psi -> returns m d (fun a => phi a /\ psi a).
Proof. intros H1 H2 t. specialize (H1 t). specialize (H2 t). by destruct (m t d).1.1. Qed.

Lemma reads_read_authority {A : Type} p (f : str -> result A LockError) : reads (read_authority p f).
Proof. unfold read_authority. solve_reads. Qed.

Lemma returns_read_authority {A : Type} p (f : str -> result A LockError) d :
  returns (read_authority p f) d (fun r => forall a, r = RPresent a ->
    exists s, d !! p = Some (Text s) /\ f s = Ok a).
Proof.
  unfold read_authority. eapply returns_bind; [solve_reads | apply returns_any|]. intros there _.
  case_match; [by apply returns_ret|].
  eapply returns_bind; [solve_reads | apply returns_fs_read|].
  intros a [-> | [-> _]]; [|apply returns_throw]. unfold content_at.
  destruct (d !! p) as [[s|]|]; [|apply returns_throw|by apply returns_ret].
  destruct (f s) as [b|] eqn:Hf; apply returns_ret; [|done]. intros ? [= <-]. eauto.
Qed.

Lemma reads_anchor : reads canonical_anchor_held.
Proof.
  unfold canonical_anchor_held. apply reads_bind; [|solve_reads].
  intros t d. unfold open_anchor. by destruct (io (env_at t)).
Qed.

Lemma returns_anchor d :
  returns canonical_anchor_held d (fun b => b = true -> exists n, flock (env_at n) = WouldBlock).
Proof.
  unfold canonical_anchor_held. eapply returns_bind; [|apply returns_any|].
  { intros t d'. unfold open_anchor. by destruct (io (env_at t)). }
  intros opened _. case_match; [by apply returns_ret|].
  eapply returns_bind; [solve_reads | apply (returns_observe _ (fun e => exists n, e = env_at n)); eauto|].
  intros e [n ->]. destruct (flock (env_at n)) eqn:Hf; [|apply returns_ret; eauto|apply returns_throw].
  eapply returns_bind; [solve_reads | apply returns_any|]. intros e _.
  destruct (io e); by (apply returns_ret || apply returns_throw).
Qed.

(** The name [hostname -s] gave at some point. *)
Definition observed_host (h : str) : Prop :=
  exists n, h = match hostname (env_at n) with
                | Some out => let x := trim out in if str_eqb x [] then lit "unknown" else x
                | None => lit "unknown"
                end.

Lemma returns_host d : returns current_host d observed_host.
Proof.
  unfold current_host.
  eapply returns_bind; [solve_reads | apply (returns_observe _ (fun e => exists n, e = env_at n)); eauto|].
  intros e [n ->]. apply returns_ret. by exists n.
Qed.

Lemma returns_epoch d :
  returns epoch_seconds d (fun now => exists n, unix_seconds (env_at n) = Some now).
Proof.
  unfold epoch_seconds.
  eapply returns_bind; [solve_reads | apply (returns_observe _ (fun e => exists n, e = env_at n)); eauto|].
  intros e [n ->]. destruct (unix_seconds (env_at n)) as [x|] eqn:Hx; [|apply returns_throw].
  case_match; [apply returns_throw|]. apply returns_ret. eauto.
Qed.

(** Verification only calls a record active that is bound to the given operation. *)
Lemma returns_verify_bound p x d :
  returns (verify_cleanup_record p x) d (fun v => forall r, v = VActive r ->
    x = Some (Cleanup.agent r, Cleanup.operation r)).
Proof.
  unfold verify_cleanup_record. eapply returns_bind; [solve_reads | apply returns_any|].
  intros [| |s] _; try by apply returns_ret.
  destruct (Cleanup.parse s) as [r|]; [|by apply returns_ret].
  destruct x as [[a o]|]; [|by apply returns_ret].
  destruct (str_eqb_spec (Cleanup.agent r) a) as [<-|]; cbn [negb orb]; [|by apply returns_ret].
  destruct (str_eqb_spec (Cleanup.operation r) o) as [<-|]; cbn [negb]; [|by apply returns_ret].
  eapply returns_bind; [solve_reads | apply returns_any|]. intros h _.
  case_match; [by apply returns_ret|].
  eapply returns_bind; [solve_reads | apply returns_any|]. intros [b|] _; [|by apply returns_ret].
  case_match; [by apply returns_ret|]. unfold verify_phase.
  destruct (Cleanup.phase r) as [|l g|l g|g [] rs]; cbn [negb]; try by apply returns_ret.
  all: eapply returns_bind; [solve_reads | apply returns_any|]; intros au _; apply returns_ret;
    intros r' Hr'; destruct (au.1); [congruence|]; try done; by destruct (au.2).
Qed.

(** The process recorded as owner was seen alive. *)
Definition seen_alive (o : Owner.ProcessOwner) : Prop :=
  observed_host (Owner.host o) /\
  (exists n b, boot_id_file (env_at n) = Some b /\ trim b = Owner.boot_id o) /\
  (exists n s state parent, stat_file (env_at n) (Owner.pid o) = Content s /\
     parse_stat s = Some (state, parent, Owner.start_ticks o)).

Lemma reads_classify_owner h o : reads (classify_owner h o).
Proof. unfold classify_owner. solve_reads. Qed.

Lemma returns_classify_owner h o d : observed_host h ->
  returns (classify_owner h o) d (fun r => forall a, r = (Some a, None) ->
    exists p, o = RPresent p /\ a = from_process p LAlive /\ Owner.host p = h /\ seen_alive p).
Proof.
  intros Hh. unfold classify_owner. destruct o as [|p|]; try by apply returns_ret.
  case_match; [by apply returns_ret|].
  destruct (str_eqb_spec (Owner.host p) h) as [Hph|]; cbn [negb]; [|by apply returns_ret].
  eapply returns_bind; [solve_reads | apply returns_boot|]. intros boot Hb.
  destruct (str_eqb_spec (Owner.boot_id p) boot) as [Hboot|]; cbn [negb]; [|by apply returns_ret].
  eapply returns_bind; [solve_reads | apply (returns_ticks (Cleanup.Build_ProcessIdentity
    (Owner.pid p) (Owner.start_ticks p)))|].
  intros [ticks| |] Ht; try by apply returns_ret.
  destruct (Z.eqb_spec ticks (Owner.start_ticks p)) as [Hticks|]; apply returns_ret; [|done].
  intros a [= <-]. exists p. split_and!; [done..|]. split; [by rewrite Hph|]. subst. split; done.
Qed.

(** What an admissible snapshot says of the disk and of the host. *)
Record authority (d : Disk) (s : AuthorityStatus) : Prop := {
  au_holder : exists text h, d !! lock = Some (Text text) /\ Validated.parse text = Ok h /\
    s_holder s = Some (authority_holder h) /\ Validated.kind h = kind_as_str Validate /\
    (exists n now, unix_seconds (env_at n) = Some now /\ now < Validated.expires_at h) /\
    observed_host (Validated.host h) /\
    (d !! cleanup = None \/ exists r leader pgid, record_at d cleanup r /\
       Cleanup.phase r = Cleanup.Published leader pgid /\ Cleanup.agent r = Validated.agent h /\
       Cleanup.operation r = Validated.kind h +++ ":" +++ Validated.target h);
  au_owner : exists text o, d !! owner = Some (Text text) /\ Owner.parse text = Ok o /\
    s_owner s = Some (from_process o LAlive) /\ seen_alive o;
  au_anchor : anchor_held s = true /\ exists n, flock (env_at n) = WouldBlock;
  au_reason : state s = SHeld /\ reason_code s = None
}.

Lemma classify_none v c : classify_cleanup v = (c, None) ->
  v = VNone \/ exists r l g, v = VActive r /\ Cleanup.phase r = Cleanup.Published l g.
Proof.
  destruct v as [|r|r|r|r|r]; cbn; try done; [by left|].
  destruct (Cleanup.phase r) eqn:Hp; try done. right. eauto.
Qed.

Lemma returns_authority d :
  returns authority_status_guarded d (fun s => admissible s = true -> authority d s).
Proof.
  unfold authority_status_guarded.
  eapply returns_bind; [apply reads_anchor | apply returns_anchor|]. intros before Hbefore.
  eapply returns_bind; [solve_reads | apply returns_epoch|]. intros now Hnow.
  eapply returns_bind; [solve_reads | apply returns_host|]. intros host Hhost.
  eapply returns_bind; [apply reads_read_authority | apply returns_read_authority|].
  intros holder Hholder. set (href := match holder with RPresent h => Some h | _ => None end).
  eapply returns_bind; [apply reads_verify | apply returns_and; [apply returns_verify | apply returns_verify_bound]|].
  intros v [Hv Hbound].
  eapply returns_bind; [apply reads_read_authority | apply returns_read_authority|].
  intros orec Horec. destruct (classify_cleanup v) as [cs cref] eqn:Hcl.
  eapply returns_bind; [apply reads_classify_owner | by apply returns_classify_owner|].
  intros [ow oref] How.
  eapply returns_bind; [apply reads_anchor | apply returns_any|]. intros after _.
  destruct (Bool.eqb before after) eqn:Heq; cbn [negb]; [|by apply returns_ret].
  destruct holder as [|h|]; [| |by apply returns_ret].
  { destruct cref; [by apply returns_ret|]. destruct orec; try by apply returns_ret.
    apply returns_ret. by destruct (before && after). }
  destruct cref as [|]; [by apply returns_ret|]. cbv zeta.
  destruct (live_at (L := validation) h now) eqn:Hlive; cbn [negb]; [|by apply returns_ret].
  destruct (before && after) eqn:Hanchor; cbn [negb]; [|by apply returns_ret].
  destruct (str_eqb_spec (Validated.kind h) (kind_as_str Validate)) as [Hkind|]; cbn [negb];
    [|by apply returns_ret].
  case_match; [by apply returns_ret|].
  destruct (str_eqb_spec (Validated.host h) host) as [Hhh|]; cbn [negb]; [|by apply returns_ret].
  assert (Hadm : forall a, ow = Some a -> oref = None ->
    returns (ret (admitted (authority_holder h) a cs)) d (fun s => admissible s = true -> authority d s)).
  { intros a -> ->. apply returns_ret. intros _.
    destruct (How a eq_refl) as (o & -> & -> & _ & Halive).
    destruct (Hholder h eq_refl) as (text & Htext & Hparse).
    destruct (Horec o eq_refl) as (otext & Hotext & Hoparse).
    apply andb_true_iff in Hanchor as [-> _]. split; [|by eauto 10|by auto|done].
    exists text, h. split_and!; try done; [|by rewrite Hhh|].
    - destruct Hnow as [n Hn]. exists n, now. split; [done|]. by apply Z.ltb_lt.
    - destruct (classify_none _ _ Hcl) as [-> | (r & l & g & -> & Hphase)]; [by left|right].
      specialize (Hbound r eq_refl) as [= Hag Hop]. by exists r, l, g. }
  destruct orec as [|o|]; [by apply returns_ret | |].
  all: destruct oref as [[st rs]|]; [by apply returns_ret|];
    destruct ow as [a|]; [by apply (Hadm a) | apply returns_throw].
Qed.

(** C22.  An admissible authority snapshot is backed by evidence: the holder file parses
    to the reported holder, whose kind is [validate], whose lease had not expired at
    the time the clock gave and whose host is this one; the owner file parses to the
    reported owner, seen alive under the same boot and start time; the anchor was found
    locked by another process; and no cleanup record is left over, unless it is the
    published record of that very operation. *)
Theorem authority_sound d t s :
  (authority_status_guarded t d).1.1 = Done s -> admissible s = true -> authority d s.
Proof. intros Hd. pose proof (returns_authority d t) as H. by rewrite Hd in H. Qed.

End Authority.

(** ** A snapshot that is admitted *)

Definition contended_env : Env := {|
  io := Fine; torn := Garbled; stat_fails := false; unix_seconds := Some 1786000100; instant := 0;
  hostname := Some (lit "box" ++ nl); boot_id_file := Some (lit "b0" ++ nl);
  local_time := fun _ => Some (lit "2026-08-06T07:08:20+0000"); self_pid := 77;
  stat_file := fun pid => if pid =? 4242 then Content sample_stat else Missing;
  cgroup_file := fun _ => None; proc_names := Some []; kill := fun _ _ => ESRCH;
  pidfd_open := fun _ => ESRCH; pidfd_send_signal := fun _ _ => ESRCH; flock := WouldBlock;
  listing := Some []; cg_stat := fun _ => StatMissing; cg_procs := fun _ => Missing;
  cg_entries := fun _ => ListMissing; preflight := fun _ => Some (Some 0); spawned := None;
  waited := Running; signalled := 0; others := fun d => d |}.

Definition contended_world : World := {| env_at := fun _ => contended_env; polls := 3 |}.

Definition validate_paths : LockPaths :=
  {| lock := "/w/.validate-lock"; anchor_dir := "/run/ci"; LandLock.kind := "validate-box.lock" |}.

Definition sample_validation : Validated.ValidateLockState :=
  {| Validated.agent := "agent-7"; Validated.kind := "validate"; Validated.target := "0a1b";
     Validated.host := "box"; Validated.acquired_at := 1786000000;
     Validated.acquired_human := "2026-08-06T07:06:40+0000"; Validated.expires_at := 1786000900;
     Validated.reclaimed_from := None |}.

Definition validating_disk : Disk :=
  <[lock (LockPaths := validate_paths) := Text (Validated.render sample_validation)]>
    (<[owner (P := validate_paths) := Text (Owner.render sample_owner)]>
      (<[anchor (P := validate_paths) := Text []]> ∅)).

Lemma authority_sound_witness :
  authority (W := contended_world) (P := validate_paths) validating_disk
    (admitted (authority_holder sample_validation) (from_process sample_owner LAlive) CNone).
Proof.
  apply (authority_sound (W := contended_world) (P := validate_paths) validating_disk 0%nat).
  - vm_compute. reflexivity.
  - reflexivity.
Defined.
