(* ===== verification/ValidateRunCorrect.v ===== *)
(** Correctness of the validation lock: the interface of the lease engine holds for its
    records, so that exclusion, quarantine, the protocol of the cleanup record and the
    refinement of the lease carry over; and stale heads never reach the box. *)

From stdpp Require Import gmap functions sorting.
From S2P Require Import Prelude Text LandRecords LandRecordsCorrect LandLease LandHost LandCensus.
From S2P Require Import LandLock LandRun LandLogic LandLockCorrect LandProtocol LandRefine LandCalm.
From S2P Require Import LandSamples ValidateLock ValidateRun ValidateLockCorrect.

Lemma kind_roundtrip k : kind_parse (kind_as_str k) = Ok k.
Proof. by destruct k; vm_compute. Qed.

Lemma kind_clean k : clean (kind_as_str k).
Proof. by destruct k; vm_compute. Qed.

#[export] Instance validation_laws : LeaseLaws validation.
Proof.
  refine {| holder_wf := ValidatedCodec.wf : @holder_state validation -> Prop;
            purpose_wf := (fun p => QueueCodec.cell p.2) : @purpose validation -> Prop |}; cbn.
  - apply ValidatedCodec.parse_render_validated.
  - by intros h [].
  - done.
  - intros p Hp. apply clean_app; [apply kind_clean|]. apply clean_app; [done|].
    by apply QueueCodec.cell_clean.
  - intros. constructor; cbn; try done; [apply kind_clean | by apply QueueCodec.cell_clean].
  - intros. cbn. by rewrite !str_eqb_refl.
  - intros h [k target]. cbn. destruct (str_eqb_spec (Validated.kind h) (kind_as_str k)) as [->|];
      [|done]. rewrite kind_roundtrip. by destruct (str_eqb_spec (Validated.target h) target) as [->|].
  - intros h [k target]. cbn. destruct (str_eqb_spec (Validated.kind h) (kind_as_str k)) as [->|];
      [|done]. by destruct (str_eqb_spec (Validated.target h) target) as [->|].
Defined.

Section Validation.
#[local] Existing Instance validation.
Context {W : World} {P : LockPaths}.

Lemma reads_admission target kind skip : reads (base_admission_check target kind skip).
Proof. unfold base_admission_check. solve_reads. Qed.
Lemma reads_reject max : reads (from_result (reject_bad_max max)).
Proof. solve_reads. Qed.
Lemma reads_vsupervise g s : reads (VLock.supervise_child g s).
Proof.
  unfold VLock.supervise_child. apply reads_bind; [solve_reads | intros e].
  generalize (instant e + s * 1000). intros deadline. induction polls as [|n IH];
    cbn [VLock.supervise_loop]; solve_reads; apply reads_terminate.
Qed.
Lemma reads_handlers : reads VLock.install_termination_handlers.
Proof. unfold VLock.install_termination_handlers. solve_reads. Qed.
#[local] Hint Resolve reads_admission reads_reject reads_vsupervise reads_handlers : land.

(** ** Refused commands *)

(** A command that cannot get the lease ends with a status that is not zero. *)
Section Refused.
Context (I : Disk -> Prop) (rely : forall n d, I d -> I (others (env_at n) d)).
Context (prune : forall name d, I d -> I (delete (claim_path name) d)).
Context (enqueue : forall f d, I d -> I (<[queue := f]> d)).
Context (denied : forall args, keeps I (try_acquire args)
  (fun token => match token with Acquired | AcquiredReclaimed _ => False | _ => True end)).

Lemma keeps_vacquire agent kind target wait hold :
  keeps I (VLock.acquire agent kind target wait hold) (fun s => s <> 0).
Proof. by apply keeps_acquire. Qed.

Lemma keeps_vadmission args :
  keeps I (VLock.admission args) (fun r => exists status, r = Some status /\ status <> 0).
Proof.
  unfold VLock.admission. destruct (VLock.r_no_wait args).
  - eapply keeps_bind; [by apply keeps_with_guard, denied | intros token Ht].
    destruct token; try done; apply keeps_ret; by eexists.
  - eapply keeps_bind; [apply keeps_vacquire | intros status Hs].
    destruct (Z.eqb_spec status 0); [done|]. apply keeps_ret. by eexists.
Qed.

Lemma keeps_vrun args : keeps I (VLock.run args) (fun s => s <> 0).
Proof.
  unfold VLock.run. destruct (VLock.r_child args); [apply keeps_throw|].
  case_match; [apply keeps_throw|].
  eapply keeps_bind; [apply keeps_any; solve_reads | intros _ _].
  eapply keeps_bind; [apply keeps_any; solve_reads | intros e _].
  match goal with |- keeps _ (match io e with Fine => ?x | _ => _ end) _ =>
    assert (H1 : keeps I x (fun s => s <> 0)); [|destruct (io e); [done | apply keeps_throw | done]] end.
  eapply keeps_bind; [apply keeps_any; solve_reads | intros [u|err] _].
  2: { destruct err; first [apply keeps_throw | by apply keeps_ret]. }
  unfold VLock.occupy. eapply keeps_bind; [apply keeps_any; solve_reads | intros taken _].
  case_match; [by apply keeps_ret|].
  eapply keeps_bind; [by apply keeps_foreign_box_claim | intros foreign _].
  case_match; [by apply keeps_ret|].
  eapply keeps_bind; [apply keeps_vadmission | intros r (status & -> & Hne)]. by apply keeps_ret.
Qed.

Lemma keeps_vacquire_command args : keeps I (VLock.execute (VLock.Acquire args)) (fun s => s <> 0).
Proof.
  cbn [VLock.execute]. eapply keeps_bind; [apply keeps_any; solve_reads | intros _ _].
  eapply keeps_bind; [apply keeps_any; solve_reads | intros _ _].
  apply keeps_admission; [done | done | apply keeps_vacquire].
Qed.

End Refused.

Definition vroutine (c : VLock.ValidateLockCommand) : Prop :=
  match c with VLock.ReclaimDead | VLock.CensusOrphanedDomain _ => False | _ => True end.

(** The validation lock is in quarantine while its cleanup record lies on the disk:
    no acquisition, renewal, release or run succeeds, under any name, and none changes
    the holder, its owner or the record. *)
Theorem validation_quarantine F O C c d t :
  claims_apart ->
  (forall n d, fixed F O C d -> fixed F O C (others (env_at n) d)) ->
  vroutine c -> fixed F O C d ->
  fixed F O C (VLock.execute c t d).2 /\ (VLock.execute c t d).1.1 <> Done 0.
Proof.
  intros Ha Hr Hc Hd.
  assert (Hcl : forall name d, fixed F O C d -> fixed F O C (delete (claim_path name) d))
    by (intros; by apply fixed_claims).
  assert (Hq : forall f d, fixed F O C d -> fixed F O C (<[queue := f]> d))
    by (intros; by apply fixed_queue).
  apply keeps_nonzero; [|done]. destruct c as [args|a h|a| |args|args]; try done.
  - apply keeps_vacquire_command; [done..|]. intros. apply quarantined_try_acquire.
  - eapply keeps_bind; [by apply quarantined_renew | done].
  - eapply keeps_bind; [by apply quarantined_release | done].
  - apply keeps_vrun; [done..|]. intros. apply quarantined_try_acquire.
Qed.

Definition by_voutsider (h : Validated.ValidateLockState) (O : option file)
    (c : VLock.ValidateLockCommand) : Prop :=
  match c with
  | VLock.Renew agent _ | VLock.Release agent => outsider (L := validation) h O agent
  | _ => True
  end.

(** The box is exclusive, as long as every [stat] answers.  While the lease of a validation or benchmark has not
    expired and its owner is not proven dead, no command of an outsider succeeds,
    whatever its kind, waiting or not, and none changes the holder or its owner, even
    when other file operations fail or the process is killed in the middle. *)
Theorem validation_exclusive s h O c d t :
  (forall n, stat_fails (env_at n) = false) ->
  claims_apart ->
  Validated.parse s = Ok h ->
  (forall n x, unix_seconds (env_at n) = Some x -> x < Validated.expires_at h) ->
  (forall so o, O = Some (Text so) -> Owner.parse so = Ok o -> ~ proven_dead o) ->
  (forall n d, leased s O d -> leased s O (others (env_at n) d)) ->
  by_voutsider h O c -> leased s O d ->
  leased s O (VLock.execute c t d).2 /\ (VLock.execute c t d).1.1 <> Done 0.
Proof.
  intros Hst Ha Hp Hlive Hown Hr Hc Hd.
  assert (Hlv : forall n x, unix_seconds (env_at n) = Some x -> live_at (L := validation) h x = true)
    by (intros n x Hx; apply Z.ltb_lt; by eapply Hlive).
  assert (Hcl : forall name d, leased s O d -> leased s O (delete (claim_path name) d))
    by (intros; by apply leased_claims).
  assert (Hq : forall f d, leased s O d -> leased s O (<[queue := f]> d))
    by (intros; by apply leased_queue).
  apply keeps_nonzero; [|done]. destruct c as [args|a hold|a| |args|args].
  - apply keeps_vacquire_command; [done..|]. intros. by apply (keeps_try_acquire (L := validation) s h O).
  - eapply keeps_bind; [by apply (keeps_renew_outsider (L := validation) s h O) | done].
  - eapply keeps_bind; [by apply (keeps_release_outsider (L := validation) s h O) | done].
  - eapply keeps_impl; [by apply (keeps_reclaim_dead (L := validation) s h O) | done].
  - eapply keeps_impl; [by apply (keeps_census (L := validation) s h O) | done].
  - apply keeps_vrun; [done..|]. intros. by apply (keeps_try_acquire (L := validation) s h O).
Qed.

(** ** Stale heads *)

(** A head that the floors refuse, that is not a full commit name, or whose check was
    to be skipped. *)
Definition stale (target : str) (skip : bool) : Prop :=
  skip = true \/ is_full_sha target = false \/
  forall n, preflight (env_at n) target <> Some (Some 0).

Lemma returns_stale target skip d : stale target skip ->
  returns (attempt (base_admission_check target Validate skip)) d (fun r => r = Err StaleBase).
Proof.
  intros Hs t. unfold attempt, base_admission_check. rewrite bool_decide_eq_true_2 by done. cbn [negb].
  destruct skip; [done|]. destruct (is_full_sha target) eqn:Hsha; cbn [negb]; [|done].
  destruct Hs as [Hs | [Hs | Hs]]; [done | congruence |].
  unfold mbind_, observe. specialize (Hs t).
  destruct (io (env_at t)); cbn; try done.
  all: destruct (preflight (env_at t) target) as [[code|]|]; cbn; try done.
  all: destruct (Z.eqb_spec code 0) as [->|]; by cbn.
Qed.

(** What an attempt never returns, the operation never returns. *)
Lemma returns_attempt {A : Type} (m : M A) d e :
  returns (attempt m) d (fun r => r = Err e) -> returns m d (fun _ => False).
Proof.
  intros H t. specialize (H t). unfold attempt in H. destruct (m t d) as [[[]]]; cbn in *; done.
Qed.

Definition stale_request (c : VLock.ValidateLockCommand) : Prop :=
  match c with
  | VLock.Acquire args =>
      VLock.q_kind args = Validate /\ stale (VLock.q_target args) (VLock.q_skip_base_check args)
  | VLock.Run args =>
      VLock.r_kind args = Validate /\ stale (VLock.r_target args) (VLock.r_skip_base_check args)
  | _ => False
  end.

(** C23.  Stale heads never reach the box.  A request to validate a head that is not a
    full commit name, whose check is to be skipped, or which the admission check does
    not pass, touches no file, and the only status it can end with is the one for a
    stale base. *)
Theorem stale_head_refused c d t : stale_request c ->
  (VLock.execute c t d).2 = d /\
  match (VLock.execute c t d).1.1 with Done s => s = VLock.STALE_BASE_EXIT_CODE | _ => True end.
Proof.
  intros Hc. cut (keeps (fun d' => d' = d) (VLock.execute c) (fun s => s = VLock.STALE_BASE_EXIT_CODE));
    [intros H; by apply H|].
  destruct c as [args|a hold|a| |args|args]; try done; destruct Hc as [Hk Hs];
    cbn [VLock.execute]; unfold VLock.run; rewrite Hk.
  - eapply keeps_bind; [apply keeps_any; solve_reads | intros _ _].
    apply (keeps_bind _ _ _ (fun _ => False)); [|done].
    apply keeps_reads; [solve_reads|]. intros d' _. by eapply returns_attempt, returns_stale.
  - destruct (VLock.r_child args); [apply keeps_throw|]. case_match; [apply keeps_throw|].
    eapply keeps_bind; [apply keeps_any; solve_reads | intros _ _].
    eapply keeps_bind; [apply keeps_any; solve_reads | intros e _].
    match goal with |- keeps _ (match io e with Fine => ?x | _ => _ end) ?Q =>
      assert (H1 : keeps (fun d' => d' = d) x Q);
        [|destruct (io e); [done | apply keeps_throw | done]] end.
    eapply keeps_bind; [apply keeps_reads; [solve_reads|]; intros d' _; by apply returns_stale|].
    intros r ->. by apply keeps_ret.
Qed.

(** ** The cleanup record *)

(** The command carries an operator's attestation. *)
Definition vattests (c : VLock.ValidateLockCommand) (evidence : str) : Prop :=
  exists args, c = VLock.CensusOrphanedDomain args /\ c_attest_domain_empty args = true /\
    c_evidence args = evidence.

Section Protocol.
Context (attested : str -> Prop) (f0 : option file) (apart : claims_apart).
Context (rely : forall n d,
  rtc (cleanup_step attested) (d !! cleanup) (others (env_at n) d !! cleanup)).

Lemma safe_vfinish args g o : safe (reached attested f0) (VLock.finish_run args g o).
Proof.
  unfold VLock.finish_run. cbv zeta.
  eapply (safe_run_census attested f0 _ _ (fun c => VLock.record_residuals _ _ _ _ c));
    unfold VLock.begin_run_census, VLock.record_residuals, VLock.clear_proven_run, VLock.release;
    solve_safe.
Qed.
#[local] Hint Resolve safe_vfinish : land.
Lemma safe_vsupervised args : safe (reached attested f0) (VLock.supervised args).
Proof.
  unfold VLock.supervised, VLock.arm_run, VLock.clear_unstarted_run, VLock.release, VLock.publish_run.
  solve_safe.
Qed.
#[local] Hint Resolve safe_vsupervised : land.
Lemma safe_voccupy args : safe (reached attested f0) (VLock.occupy args).
Proof.
  unfold VLock.occupy, VLock.admission, VLock.try_acquire, VLock.acquire, VLock.release. solve_safe.
Qed.
#[local] Hint Resolve safe_voccupy : land.
Lemma safe_vrun args : safe (reached attested f0) (VLock.run args).
Proof. unfold VLock.run. solve_safe. Qed.
#[local] Hint Resolve safe_vrun : land.
Lemma safe_vexecute c : (forall evidence, vattests c evidence -> attested evidence) ->
  safe (reached attested f0) (VLock.execute c).
Proof.
  intros Ha. destruct c; cbn [VLock.execute]; unfold VLock.acquire, VLock.renew, VLock.release,
    VLock.reclaim_dead, VLock.census_orphaned_domain; try solve_safe.
  apply safe_census; [done..|]. intros. apply Ha. eexists. eauto.
Qed.

End Protocol.

(** Whatever command of the validation lock runs and however it ends, its cleanup
    record goes through moves of the protocol only: no payload of a validation that
    may still be alive is ever forgotten, unless an operator attests that it is not. *)
Theorem validation_protocol (attested : str -> Prop) c d t :
  claims_apart ->
  (forall evidence, vattests c evidence -> attested evidence) ->
  (forall n d, rtc (cleanup_step attested) (d !! cleanup) (others (env_at n) d !! cleanup)) ->
  rtc (cleanup_step attested) (d !! cleanup) ((VLock.execute c t d).2 !! cleanup).
Proof. intros Ha Hc Hr. exact (safe_vexecute attested (d !! cleanup) Ha Hr c Hc d (rtc_refl _ _) t). Qed.

(** ** A validation that goes well *)

Definition vrequest (args : VLock.RunArgs) : AcquireArgs :=
  {| a_agent := VLock.r_agent args; a_purpose := (VLock.r_kind args, VLock.r_target args);
     a_wait := if VLock.r_no_wait args then 0 else VLock.r_wait args; a_hold := VLock.r_hold args |}.

(** A request in order: the only cap, a child, a deadline, and a head that passes. *)
Record in_order (e : Env) (args : VLock.RunArgs) : Prop := {
  i_child : VLock.r_child args <> [];
  i_deadline : VLock.r_child_deadline args <> 0;
  i_max : VLock.r_max args = BOX_EXCLUSIVE_CAP;
  i_head : VLock.r_kind args = Validate ->
    VLock.r_skip_base_check args = false /\ is_full_sha (VLock.r_target args) = true /\
    preflight e (VLock.r_target args) = Some (Some 0)
}.

Lemma admission_passes e args d : calm e -> in_order e args ->
  becomes (base_admission_check (VLock.r_target args) (VLock.r_kind args)
             (VLock.r_skip_base_check args)) d () d.
Proof.
  intros Hc [_ _ _ Hhead]. unfold base_admission_check. case_bool_decide as Hk; cbn [negb].
  - destruct (Hhead Hk) as (-> & -> & Hp). cbn [negb].
    eapply becomes_bind; [by apply calm_observe|]. rewrite Hp. apply becomes_ret.
  - apply becomes_ret.
Qed.

Lemma vadmission_takes e args now human boot d :
  calm e -> presentable (LL := validation_laws) e (vrequest args) now human boot ->
  represents d free -> exists d1 h, becomes (VLock.admission args) d None d1 /\
    represents d1 {| l_holder := Some h; l_owner := None; l_queue := [] |} /\
    holder_agent h = VLock.r_agent args /\
    holder_is_for h (VLock.r_kind args, VLock.r_target args) = true.
Proof.
  intros Hc Hpr Hd. unfold VLock.admission, vrequest in *. destruct (VLock.r_no_wait args).
  - edestruct calm_try_acquire as (token & d1 & h & Hb & Htok & Hd1 & Ha & Hf); [done.. | |].
    { exact Hd. }
    exists d1, h. split; [|done]. eapply becomes_bind; [eapply calm_guard; [done | exact Hb]|].
    destruct Htok as [-> | [previous ->]]; apply becomes_ret.
  - edestruct calm_acquire as (d1 & h & Hb & Hd1 & Ha & Hf); [done.. | |].
    { exact Hd. }
    exists d1, h. split; [|done]. eapply becomes_bind; [exact Hb | apply becomes_ret].
Qed.

(** C24.  A validation that goes well is brought to its end.  On a calm host, with a free
    box, a request in order, waiting or not, and a child that exits and leaves no
    process behind, a run returns the child's exit status and the box is free again. *)
Theorem validation_run_completes e args code signal d :
  quiet (LL := validation_laws) e (vrequest args) code signal -> in_order e args ->
  represents d free ->
  exists d', becomes (VLock.run args) d (exit_status_code code signal) d' /\ represents d' free.
Proof.
  intros Hq Hin Hd. pose proof Hq as [Hc _ Hun (now & human & boot & Hpr) _ _ _ Hexit Hbar].
  assert (Hobs : forall d, becomes observe d e d) by (intros; by apply calm_observe).
  pose proof (fine _ Hc) as Hfine. pose proof Hin as [Hchild Hdl Hmax _].
  destruct (vadmission_takes e args now human boot d Hc Hpr Hd) as (d1 & h & Hb1 & Hd1 & Ha & Hf).
  destruct (quiet_session e (vrequest args) code signal Hq d1 h Hd1 Ha Hf)
    as (g & d2 & d3 & d4 & d5 & d6 & d7 & Hb2 & Hb3 & Hsp & Hb4 & Hb5 & Hgr & Hb6 & Hb7 & Hfree).
  exists d7. split; [|done]. unfold VLock.run. destruct (VLock.r_child args); [done|].
  destruct (Z.eqb_spec (VLock.r_child_deadline args) 0); [done|].
  eapply becomes_bind; [rewrite Hmax; apply becomes_ret|].
  eapply becomes_bind; [apply Hobs|]. rewrite Hfine.
  eapply becomes_bind; [by eapply becomes_attempt, admission_passes|]. cbv beta iota.
  unfold VLock.occupy. eapply becomes_bind; [by eapply calm_anchor|]. cbn [negb].
  eapply becomes_bind; [by eapply calm_foreign|]. cbv beta iota.
  eapply becomes_bind; [exact Hb1|]. cbv beta iota.
  eapply becomes_bind; [apply becomes_attempt, Hb2|]. cbv beta iota. unfold VLock.supervised. cbv zeta.
  eapply becomes_bind; [eapply becomes_bind; [apply Hobs | rewrite Hfine; apply becomes_ret]|].
  eapply becomes_bind; [exact Hb3|]. eapply becomes_bind; [exact Hsp|]. cbv beta iota.
  eapply becomes_bind; [exact Hb4|].
  eapply becomes_bind; [eapply becomes_bind; [apply Hobs | rewrite Hfine; apply becomes_ret]|].
  apply (becomes_bind _ _ _ (VLock.Exited code signal) d4).
  { eapply becomes_bind; [apply Hobs|]. pose proof (patient _ Hc).
    destruct polls as [|fuel]; [done|]. cbn [VLock.supervise_loop].
    eapply becomes_bind; [apply Hobs|]. rewrite Hexit. apply becomes_ret. }
  unfold VLock.finish_run. cbv zeta. eapply becomes_bind; [exact Hb5|].
  eapply becomes_bind; [apply Hobs|]. eapply becomes_bind; [by apply calm_capture|].
  eapply becomes_bind; [exact Hgr|]. cbn [negb andb complete identities].
  eapply becomes_bind; [exact Hb6|]. eapply becomes_bind; [exact Hb7|]. apply becomes_ret.
Qed.

End Validation.
