(* ===== verification/ValidateSamples.v ===== *)
(** The theorems on the validation lock at work. *)

From stdpp Require Import gmap functions sorting.
From S2P Require Import Prelude Text LandRecords LandRecordsCorrect LandLease LandHost LandCensus.
From S2P Require Import LandLock LandRun LandLogic LandLockCorrect LandProtocol LandRefine LandCalm.
From S2P Require Import LandSamples ValidateLock ValidateRun ValidateLockCorrect ValidateRunCorrect.

#[local] Existing Instance validation.

Lemma validate_apart : claims_apart (P := validate_paths).
Proof.
  intros name p Hp Heq. apply (f_equal (fun s : str => s !! 1%nat)) in Heq.
  repeat (apply elem_of_cons in Hp as [->|Hp]; [vm_compute in Heq; discriminate Heq|]).
  by apply elem_of_nil in Hp.
Qed.

Definition sample_sha : str := "0123456789abcdef0123456789abcdef01234567".

Definition run_args (no_wait : bool) : VLock.RunArgs :=
  {| VLock.r_agent := "agent-8"; VLock.r_kind := Validate; VLock.r_target := sample_sha;
     VLock.r_no_wait := no_wait; VLock.r_wait := 0; VLock.r_hold := 900;
     VLock.r_child_deadline := 60; VLock.r_max := 1; VLock.r_skip_base_check := false;
     VLock.r_child := [lit "cargo"] |}.

Definition quarantined_validation : Disk :=
  <[cleanup (P := validate_paths) := Text "anything"]> validating_disk.

Lemma validation_quarantine_witness :
  fixed (P := validate_paths) (Some (Text (Validated.render sample_validation)))
    (Some (Text (Owner.render sample_owner))) (Text "anything")
    (VLock.execute (W := sample_world) (P := validate_paths) (VLock.Run (run_args true)) 0%nat
       quarantined_validation).2 /\
  (VLock.execute (W := sample_world) (P := validate_paths) (VLock.Run (run_args true)) 0%nat
     quarantined_validation).1.1 <> Done 0.
Proof.
  apply (validation_quarantine (W := sample_world) (P := validate_paths)).
  - apply validate_apart.
  - done.
  - exact I.
  - split_and!; vm_compute; reflexivity.
Defined.

Lemma validation_exclusive_witness :
  leased (P := validate_paths) (Validated.render sample_validation)
    (Some (Text (Owner.render sample_owner)))
    (VLock.execute (W := sample_world) (P := validate_paths) (VLock.Run (run_args true)) 0%nat
       validating_disk).2 /\
  (VLock.execute (W := sample_world) (P := validate_paths) (VLock.Run (run_args true)) 0%nat
     validating_disk).1.1 <> Done 0.
Proof.
  apply (validation_exclusive (W := sample_world) (P := validate_paths)
    (Validated.render sample_validation) sample_validation).
  - done.
  - apply validate_apart.
  - vm_compute. reflexivity.
  - intros n x [= <-]. reflexivity.
  - intros so o [= <-]. apply sample_owner_alive.
  - done.
  - exact I.
  - split; vm_compute; reflexivity.
Defined.

Lemma stale_head_refused_witness :
  (VLock.execute (W := sample_world) (P := validate_paths)
     (VLock.Acquire (VLock.Build_AcquireArgs "agent-8" Validate "main" 0 900 1 false)) 0%nat ∅).2 = ∅ /\
  match (VLock.execute (W := sample_world) (P := validate_paths)
     (VLock.Acquire (VLock.Build_AcquireArgs "agent-8" Validate "main" 0 900 1 false)) 0%nat ∅).1.1 with
  | Done s => s = VLock.STALE_BASE_EXIT_CODE | _ => True end.
Proof.
  apply (stale_head_refused (W := sample_world) (P := validate_paths)).
  split; [reflexivity|]. right. left. vm_compute. reflexivity.
Defined.

Lemma validation_protocol_witness :
  rtc (cleanup_step (W := sample_world) (fun _ => False)) (quarantined_validation !! cleanup (P := validate_paths))
    ((VLock.execute (W := sample_world) (P := validate_paths) VLock.ReclaimDead 0%nat
        quarantined_validation).2 !! cleanup (P := validate_paths)).
Proof.
  apply (validation_protocol (W := sample_world) (P := validate_paths)).
  - apply validate_apart.
  - intros evidence (args & [=] & _).
  - intros n d. apply rtc_refl.
Defined.

Lemma validation_run_completes_witness :
  exists d', becomes (VLock.run (W := quiet_world) (P := validate_paths) (run_args true)) ∅ 7 d' /\
    represents (P := validate_paths) d' free.
Proof.
  apply (validation_run_completes (W := quiet_world) (P := validate_paths) quiet_env (run_args true)
    (Some 7) None).
  - apply quiet_sample; [apply validate_apart | vm_compute; done..].
  - split; [discriminate | discriminate | reflexivity|]. intros _. vm_compute. done.
  - apply free_empty.
Defined.

(** ** A refusal that stays in line *)

(** A run that is refused because it does not wait stays in the queue: the box is then
    free, and another agent is told that it is not its turn. *)
Lemma no_wait_keeps_its_place :
  let d1 := (VLock.run (W := sample_world) (P := validate_paths) (run_args true) 0%nat validating_disk) in
  let d2 := delete (owner (P := validate_paths)) (delete (lock (LockPaths := validate_paths)) d1.2) in
  d1.1.1 = Done VLock.REFUSED_EXIT_CODE /\
  (VLock.try_acquire (W := sample_world) (P := validate_paths) "agent-9" Bench "x" 900 0%nat d2).1.1 =
    Done (WaitTurn "agent-8").
Proof. split; vm_compute; reflexivity. Qed.
