(* ===== verification/Ledger.v ===== *)
(** The validation ledger: the typed rows of [ci-hub/lib/records.rs], and the
    qualifying-receipt predicate of [ci-hub/lib/qualifying_receipt.rs] that decides
    which of them are green.

    Numbers of type [f64] in a row come from JSON and are finite: they are rationals
    here, and the comparisons of the source are exact on them. *)

From stdpp Require Import gmap sorting.
From Stdlib Require Import QArith_base.
From S2P Require Import Prelude Text.

#[local] Open Scope Z_scope.

(** ** JSON values ([serde_json::Value]) *)

Inductive Value : Type :=
| JNull
| JBool (b : bool)
| JInteger (n : Z)
| JFloat (q : Q)
| JString (s : str)
| JArray (l : list Value)
| JObject (m : list (str * Value)).

Definition as_str (v : Value) : option str := match v with JString s => Some s | _ => None end.
Definition as_bool (v : Value) : option bool := match v with JBool b => Some b | _ => None end.
Definition as_u64 (v : Value) : option Z :=
  match v with JInteger n => if (0 <=? n) && (n <? 2 ^ 64) then Some n else None | _ => None end.
Definition as_array (v : Value) : option (list Value) := match v with JArray l => Some l | _ => None end.
Definition as_object (v : Value) : option (list (str * Value)) :=
  match v with JObject m => Some m | _ => None end.
Definition is_string (v : Value) : bool := if as_str v is Some _ then true else false.

(** [Map::get] *)
Fixpoint get (k : str) (m : list (str * Value)) : option Value :=
  match m with
  | [] => None
  | (k', v) :: m => if str_eqb k k' then Some v else get k m
  end.

Abbreviation Extra := (gmap str Value).

(** ** Rows *)

Record CoverageRow : Type := {
  planned_test_nodes : Z;
  executed_test_nodes : Z;
  zero_executed_nodes : option (list str);
  absent_nodes : option (list str)
}.

Record GateHistoryRow : Type := {
  g_name : str;
  g_result : option str;
  g_kind : option str;
  g_exit_code : option Z;
  g_real_seconds : option Q;
  g_source_node : option str;
  g_failure_origin : option str;
  g_failed_substeps : list str;
  g_extra : Extra
}.

Record HistoryRow : Type := {
  schema_version : option Z;
  started_at : option str;
  finished_at : option str;
  host : option str;
  slot : option str;
  repo : option str;
  cwd : option str;
  profile : option str;
  selection_mode : option str;
  commit : option str;
  commit_anchored : option bool;
  tree_dirty : option bool;
  result_ : option str;
  exit_code : option Z;
  executed_tests : option Z;
  filtered_tests : option Z;
  coverage : option CoverageRow;
  full_coverage : option bool;
  checks : option Z;
  gates_run : option Z;
  gates_expected : option Z;
  failures : option Z;
  dag_jobs : option Z;
  concurrent_validates : option Z;
  known_flaky_failure : option bool;
  solo_rerun_confirmation : option bool;
  real_seconds : option Q;
  user_seconds : option Q;
  sys_seconds : option Q;
  log_file : option str;
  source : option str;
  gates : list GateHistoryRow;
  extra : Extra
}.

(** ** Obligations *)

Record VerificationState : Type := { vs_state : str; vs_extra : Extra }.
Record Recommendation : Type := { action : option str; rec_extra : Extra }.
Record DispatchState : Type := {
  ds_state : option str;
  ds_target : option str;
  acknowledged_by : option str;
  acknowledged_session : option str;
  ds_extra : Extra
}.
Record RemediationState : Type := {
  rs_state : option str;
  dispatch : option DispatchState;
  rs_extra : Extra
}.

Record ObligationRecord : Type := {
  ob_schema_version : Z;
  obligation_id : str;
  ob_repo : str;
  landed_sha : str;
  opened_at : str;
  overall_state : str;
  local : VerificationState;
  github : VerificationState;
  failure_summary : option str;
  recommendation : option Recommendation;
  remediation : option RemediationState;
  ob_extra : Extra
}.

Definition is_closed (o : ObligationRecord) : bool :=
  str_eqb (overall_state o) "satisfied" || str_eqb (overall_state o) "remediated".
Definition remediation_required (o : ObligationRecord) : bool :=
  str_eqb (overall_state o) "remediation_required".
Definition recommendation_action (o : ObligationRecord) : str :=
  default (lit "-") (r ← recommendation o; action r).
Definition dispatch_state (o : ObligationRecord) : str :=
  default (lit "-") (r ← remediation o; d ← dispatch r; ds_state d).

(** ** Tests on fields *)

(** [x.as_deref() == Some("..")] and [matches!(x, Some(".." | ".."))] *)
Definition is_lit (x : option str) (s : str) : bool :=
  match x with Some v => str_eqb v s | None => false end.
Definition is_one_of (x : option str) (l : list str) : bool := existsb (is_lit x) l.
Definition is_bool (x : option bool) (b : bool) : bool :=
  match x with Some v => Bool.eqb v b | None => false end.
Definition is_z (x : option Z) (n : Z) : bool := match x with Some v => v =? n | None => false end.
Definition is_some_and {A : Type} (x : option A) (f : A -> bool) : bool :=
  match x with Some v => f v | None => false end.
Definition is_some {A : Type} (x : option A) : bool := if x is Some _ then true else false.

(** ** The predicate *)

Record RequireClause : Type := {
  req_commit_anchored : bool;
  req_tree_dirty : bool;
  req_profile : str;
  req_selection_mode : str;
  req_result : str;
  failures_max : Z;
  executed_tests_min : Z
}.

Record CoverageClause : Type := { cov_applies_at_schema_min : Z; per_node : bool }.
Record BaseClause : Type := { base_applies_at_schema_min : Z; branch : str }.

Record AdmissionClause : Type := {
  adm_applies_at_schema_min : Z;
  required_admission : str;
  required_concurrent_validates : Z;
  required_concurrency_proof : str;
  require_registered_producer : bool
}.

Record ProducerClause : Type := {
  required : bool;
  applies_from_finished_at : option str;
  known : list str
}.

Definition default_producer : ProducerClause :=
  {| required := false; applies_from_finished_at := None; known := [] |}.

Record QualifyingPredicate : Type := {
  counts_schema : Z;
  require : RequireClause;
  gate_filtered_tests : bool;
  accepts_green_class : list str;
  cov_clause : CoverageClause;
  base_clause : BaseClause;
  admission : AdmissionClause;
  producer : ProducerClause
}.

(** ** Provenance *)

Inductive ProducerVerdict : Type := ProducerOk | Grandfathered | ProducerMissing | UnknownWriter.

(** [str]'s order: that of the scalar values, as of the UTF-8 bytes. *)
Fixpoint str_leb (a b : str) : bool :=
  match a, b with
  | [], _ => true
  | _ :: _, [] => false
  | x :: a, y :: b => if x <? y then true else if x =? y then str_leb a b else false
  end.

(** Byte positions; the test is false beyond ASCII, where they differ from those of the
    scalar values, because a byte of such a character is no digit and no separator. *)
Definition is_rfc3339_z (ts : str) : bool :=
  (Z.of_nat (length ts) =? 20) &&
  is_z (ts !! 4%nat) 45 && is_z (ts !! 7%nat) 45 && is_z (ts !! 10%nat) 84 &&
  is_z (ts !! 13%nat) 58 && is_z (ts !! 16%nat) 58 && is_z (ts !! 19%nat) 90 &&
  forallb (fun i => is_some_and (ts !! i) is_digit)
    [0; 1; 2; 3; 5; 6; 8; 9; 11; 12; 14; 15; 17; 18]%nat.

Definition producer_enforced_for (row : HistoryRow) (pred : QualifyingPredicate) : bool :=
  if negb (required (producer pred)) then false
  else
    match applies_from_finished_at (producer pred) with
    | None => false
    | Some epoch =>
        if str_eqb epoch [] then false
        else
          match finished_at row with
          | Some ts => if is_rfc3339_z ts then str_leb epoch ts else true
          | None => true
          end
    end.

Definition producer_verdict (row : HistoryRow) (pred : QualifyingPredicate) : ProducerVerdict :=
  match v ← extra row !! lit "producer"; as_str v with
  | Some (c :: name) =>
      let name := c :: name in
      if match known (producer pred) with [] => true | _ => false end ||
         existsb (fun k => str_eqb k name) (known (producer pred))
      then ProducerOk
      else UnknownWriter
  | Some [] | None => if producer_enforced_for row pred then ProducerMissing else Grandfathered
  end.

(** ** Coverage *)

Inductive CoverageVerdict : Type := Satisfied | Unsatisfied | Unavailable (why : str).

Definition coverage_verdict (cov : CoverageRow) : CoverageVerdict :=
  match zero_executed_nodes cov, absent_nodes cov with
  | Some zero, Some absent =>
      if planned_test_nodes cov =? 0 then
        Unavailable "planned_test_nodes == 0: no planned set to cover"
      else match zero, absent with [], [] => Satisfied | _, _ => Unsatisfied end
  | _, _ =>
      Unavailable (lit "coverage omitted zero_executed_nodes and/or absent_nodes; " ++
                   lit "an unreported list is unknown, not empty")
  end.

Definition coverage_satisfied (cov : CoverageRow) : bool :=
  match coverage_verdict cov with Satisfied => true | _ => false end.

(** ** The green class *)

Definition delta_kinds : list str :=
  [lit "rebase-only"; lit "rebase-plus-upstream"; lit "new-branch-commits"].

(** The class of a receipt that was inherited from another head. *)
Definition inherited_class (inherited : option Value) : option str :=
  m ← (v ← inherited; as_object v);
  kind ← (v ← get "delta_kind" m; as_str v);
  if negb (existsb (fun k => str_eqb k kind) delta_kinds) then None
  else
    branch_commits ← (v ← get "branch_commits" m; as_u64 v);
    force_full ← (match get "force_full_paths" m with
                  | None => Some []
                  | Some v => as_array v
                  end);
    if negb (forallb is_string force_full) then None
    else
      upstream ← (match get "upstream_commits" m with None => Some 0 | Some v => as_u64 v end);
      if str_eqb kind "new-branch-commits" || (0 <? branch_commits) then Some (lit "not-green")
      else if str_eqb kind "rebase-only" then
        if negb (upstream =? 0) then None else Some (lit "soft-rebase-only")
      else
        if upstream =? 0 then None
        else match force_full with
             | [] => Some (lit "soft-upstream-delta")
             | _ => Some (lit "soft-force-full-touched")
             end.

Definition derived_green_class (row : HistoryRow) : option str :=
  commit ← commit row;
  if str_eqb commit "unknown" then None
  else
    validated ← (match extra row !! lit "validated_head_sha" with
                 | None => Some commit
                 | Some value => as_str value
                 end);
    let inherited := extra row !! lit "inherited_from" in
    derived ← (if str_eqb validated commit then
                 if inherited is Some _ then None else Some (lit "hard")
               else inherited_class inherited);
    match extra row !! lit "green_class" with
    | Some label => if is_lit (as_str label) derived then Some derived else None
    | None => Some derived
    end.

(** ** The verifier of cross-field evidence *)

Record AdmissionReport : Type := {
  accepted : bool;
  admission_satisfied : option bool;
  admission_status : str;
  base_satisfied : option bool;
  base_status : str;
  coverage_schema_satisfied : option bool;
  coverage_schema_status : str
}.

Record BaseBoundaryReport : Type := {
  bb_accepted : bool;
  bb_base_satisfied : option bool;
  bb_base_status : str
}.

(** The program [qualifying_receipt.py]: its exit code and its report, or [None] when it
    could not be run or did not answer with a report.  With [--merge-boundary] it is
    given the two bases and the two checkouts. *)
Class Verifier : Type := {
  verifier_answer : HistoryRow -> QualifyingPredicate -> option (option Z * AdmissionReport);
  boundary_answer : HistoryRow -> str -> str -> str -> str -> option (option Z * BaseBoundaryReport) }.

Definition status_matches (status : str) (satisfied : option bool) : bool :=
  if str_eqb status "satisfied" then is_bool satisfied true
  else if str_eqb status "grandfathered-unknown" then negb (is_some satisfied)
  else is_bool satisfied false.

Definition shared_evidence_accepts `{Verifier} (row : HistoryRow) (pred : QualifyingPredicate) : bool :=
  match verifier_answer row pred with
  | None => false
  | Some (code, report) =>
      let exit_matches :=
        match code with
        | Some c => if c =? 0 then accepted report else if c =? 1 then negb (accepted report) else false
        | None => false
        end in
      exit_matches &&
      status_matches (admission_status report) (admission_satisfied report) &&
      status_matches (base_status report) (base_satisfied report) &&
      status_matches (coverage_schema_status report) (coverage_schema_satisfied report) &&
      accepted report
  end.

(** An unknown status never passes at the boundary. *)
Definition shared_base_boundary_accepts `{Verifier} (row : HistoryRow)
    (current_base current_reverie_base repo_checkout reverie_checkout : str) : bool :=
  match boundary_answer row current_base current_reverie_base repo_checkout reverie_checkout with
  | None => false
  | Some (code, report) =>
      is_z code 0 && bb_accepted report &&
      (if str_eqb (bb_base_status report) "satisfied" then is_bool (bb_base_satisfied report) true
       else if str_eqb (bb_base_status report) "grandfathered-unknown"
       then negb (is_some (bb_base_satisfied report))
       else false)
  end.

(** ** Qualification *)

Inductive Qualification : Type :=
| FullCoverage
| CountsOnlyGrandfathered (schema : Z)
| Refused (why : str).

Definition is_accepted (q : Qualification) : bool := match q with Refused _ => false | _ => true end.
Definition coverage_demonstrated (q : Qualification) : bool :=
  match q with FullCoverage => true | _ => false end.

(** What the gates after the value clauses make of a qualification. *)
Definition provenance_gates `{Verifier} (row : HistoryRow) (pred : QualifyingPredicate)
    (q : Qualification) : Qualification :=
  let refused_writer :=
    if producer_enforced_for row pred then
      match producer_verdict row pred with
      | ProducerMissing => Some (lit "producer missing")
      | UnknownWriter => Some (lit "producer unknown-writer")
      | ProducerOk | Grandfathered => None
      end
    else None in
  match refused_writer with
  | Some why => Refused why
  | None =>
      if negb (shared_evidence_accepts row pred) then Refused "shared evidence contract not satisfied"
      else
        match derived_green_class row with
        | None => Refused "no derivable green class"
        | Some green_class =>
            if negb (existsb (fun a => str_eqb a green_class) (accepts_green_class pred)) then
              Refused "green class not accepted by predicate"
            else q
        end
  end.

Definition row_qualification `{Verifier} (row : HistoryRow) (sha : str) (pred : QualifyingPredicate) :
    Qualification :=
  let req := require pred in
  if negb (is_lit (commit row) sha &&
           is_bool (commit_anchored row) (req_commit_anchored req) &&
           is_bool (tree_dirty row) (req_tree_dirty req) &&
           is_lit (selection_mode row) (req_selection_mode req) &&
           is_lit (profile row) (req_profile req) &&
           is_lit (result_ row) (req_result req))
  then Refused "identity/result clause"
  else if failures_max req <? default 0 (failures row) then Refused "failures > failures_max"
  else if is_z (executed_tests row) 0 then Refused "executed_tests == 0"
  else if gate_filtered_tests pred && negb (is_z (filtered_tests row) 0) then
    Refused "filtered_tests != 0"
  else
    let schema := default 0 (schema_version row) in
    let count_capable := counts_schema pred <=? schema in
    let counts_present := is_some (executed_tests row) && is_some (filtered_tests row) in
    let executed_ok := is_some_and (executed_tests row) (fun n => executed_tests_min req <=? n) in
    if count_capable then
      if negb executed_ok then Refused "executed_tests below executed_tests_min"
      else if negb (per_node (cov_clause pred)) ||
              (schema <? cov_applies_at_schema_min (cov_clause pred))
      then FullCoverage
      else
        match coverage_verdict <$> coverage row with
        | Some Satisfied => provenance_gates row pred FullCoverage
        | Some Unsatisfied => Refused "coverage reported inert or absent nodes"
        | Some (Unavailable why) => Refused why
        | None =>
            Refused (lit "count-capable receipt carries no coverage object; unavailable coverage " ++
                     lit "is refused, never accepted")
        end
    else if counts_present then
      if executed_ok then provenance_gates row pred (CountsOnlyGrandfathered schema)
      else Refused "pre-coverage receipt below executed_tests_min"
    else Refused "no counts: receipt proves nothing".

Definition row_qualifies `{Verifier} (row : HistoryRow) (sha : str) (pred : QualifyingPredicate) : bool :=
  is_accepted (row_qualification row sha pred).
