(* ===== verification/LedgerCorrect.v ===== *)
(** What a green receipt has shown: the qualifying-receipt predicate, exactly. *)

From stdpp Require Import gmap sorting.
From Stdlib Require Import QArith_base.
From S2P Require Import Prelude Text Ledger.

#[local] Open Scope Z_scope.

(** ** Tests on optional fields *)

Lemma is_lit_iff x s : is_lit x s = true <-> x = Some s.
Proof. destruct x as [v|]; cbn; [destruct (str_eqb_spec v s)|]; naive_solver. Qed.
Lemma is_bool_iff x b : is_bool x b = true <-> x = Some b.
Proof. destruct x as [[]|], b; cbn; naive_solver. Qed.
Lemma is_z_iff x n : is_z x n = true <-> x = Some n.
Proof. destruct x as [v|]; cbn; [rewrite Z.eqb_eq|]; naive_solver. Qed.
Lemma is_some_iff {A : Type} (x : option A) : is_some x = true <-> is_Some x.
Proof. unfold is_Some. destruct x; cbn; naive_solver. Qed.
Lemma is_some_and_iff {A : Type} (x : option A) f :
  is_some_and x f = true <-> exists a, x = Some a /\ f a = true.
Proof. destruct x; cbn; naive_solver. Qed.
Lemma is_one_of_iff x l : is_one_of x l = true <-> exists s, x = Some s /\ s ∈ l.
Proof.
  unfold is_one_of. rewrite existsb_exists. split.
  - intros (s & Hs & Hx). apply is_lit_iff in Hx. exists s. by rewrite list_elem_of_In.
  - intros (s & -> & Hs). exists s. rewrite <- list_elem_of_In, is_lit_iff. done.
Qed.
Lemma existsb_str (s : str) l : existsb (fun k => str_eqb k s) l = true <-> s ∈ l.
Proof.
  rewrite existsb_exists. split.
  - intros (k & Hk & He). destruct (str_eqb_spec k s) as [->|]; [by apply list_elem_of_In | done].
  - intros Hs. exists s. by rewrite <- list_elem_of_In, str_eqb_refl.
Qed.

Create Rewrite HintDb ledger.

#[export] Hint Rewrite is_lit_iff is_bool_iff is_z_iff @is_some_iff @is_some_and_iff is_one_of_iff
  existsb_str andb_true_iff orb_true_iff Z.leb_le Z.ltb_lt : ledger.

Section Qualification.
Context `{Verifier}.

(** ** The clauses *)

(** The receipt is a counted pass of this very commit. *)
Record value_clauses (row : HistoryRow) (sha : str) (pred : QualifyingPredicate) : Prop := {
  v_commit : commit row = Some sha;
  v_anchored : commit_anchored row = Some (req_commit_anchored (require pred));
  v_clean : tree_dirty row = Some (req_tree_dirty (require pred));
  v_selection : selection_mode row = Some (req_selection_mode (require pred));
  v_profile : profile row = Some (req_profile (require pred));
  v_result : result_ row = Some (req_result (require pred));
  v_failures : default 0 (failures row) <= failures_max (require pred);
  v_executed : executed_tests row <> Some 0;
  v_filtered : gate_filtered_tests pred = true -> filtered_tests row = Some 0
}.

(** It names a registered writer. *)
Definition attributable (row : HistoryRow) (pred : QualifyingPredicate) : Prop :=
  exists name, extra row !! lit "producer" = Some (JString name) /\ name <> [] /\
    (known (producer pred) = [] \/ name ∈ known (producer pred)).

(** Every planned test node ran and executed tests. *)
Definition covered (row : HistoryRow) : Prop :=
  exists cov, coverage row = Some cov /\ planned_test_nodes cov <> 0 /\
    zero_executed_nodes cov = Some [] /\ absent_nodes cov = Some [].

Record provenance_clauses (row : HistoryRow) (pred : QualifyingPredicate) : Prop := {
  p_writer : producer_enforced_for row pred = true -> attributable row pred;
  p_evidence : shared_evidence_accepts row pred = true;
  p_class : exists c, derived_green_class row = Some c /\ c ∈ accepts_green_class pred
}.

(** The predicate does not ask this row for coverage. *)
Definition waived (row : HistoryRow) (pred : QualifyingPredicate) : Prop :=
  per_node (cov_clause pred) = false \/
  default 0 (schema_version row) < cov_applies_at_schema_min (cov_clause pred).

(** ** What the functions decide *)

Lemma coverage_verdict_satisfied cov : coverage_verdict cov = Satisfied <->
  planned_test_nodes cov <> 0 /\ zero_executed_nodes cov = Some [] /\ absent_nodes cov = Some [].
Proof.
  unfold coverage_verdict. destruct (zero_executed_nodes cov) as [[]|], (absent_nodes cov) as [[]|];
    try naive_solver; destruct (Z.eqb_spec (planned_test_nodes cov) 0); naive_solver.
Qed.

Lemma string_field row k s :
  (v ← extra row !! k; as_str v) = Some s <-> extra row !! k = Some (JString s).
Proof. destruct (extra row !! k) as [[]|]; naive_solver. Qed.

Lemma producer_attributable row pred : producer_verdict row pred = ProducerOk <-> attributable row pred.
Proof.
  unfold producer_verdict, attributable.
  assert (Hname : forall name, (match known (producer pred) with [] => true | _ => false end ||
    existsb (fun k => str_eqb k name) (known (producer pred))) = true <->
    (known (producer pred) = [] \/ name ∈ known (producer pred))).
  { intros name. rewrite orb_true_iff, existsb_str. destruct (known (producer pred)); naive_solver. }
  pose proof (string_field row "producer") as Hf.
  destruct (v ← extra row !! lit "producer"; as_str v) as [[|c name]|] eqn:Hn.
  - specialize (Hf []). destruct (producer_enforced_for row pred); naive_solver.
  - specialize (Hname (c :: name)). specialize (Hf (c :: name)). destruct (_ || _) eqn:Hb.
    + naive_solver.
    + split; [done|]. intros (name' & Hx & _ & Hk).
      apply string_field in Hx. rewrite Hn in Hx. injection Hx as <-. apply Hname in Hk. congruence.
  - destruct (producer_enforced_for row pred); naive_solver.
Qed.

Lemma enforced_verdict row pred : producer_enforced_for row pred = true ->
  producer_verdict row pred <> Grandfathered.
Proof.
  intros He. unfold producer_verdict. rewrite He.
  destruct (v ← extra row !! lit "producer"; as_str v) as [[|c name]|]; try done. by case_match.
Qed.

Lemma gates_accept row pred q : is_accepted q = true ->
  is_accepted (provenance_gates row pred q) = true <-> provenance_clauses row pred.
Proof.
  intros Hq. unfold provenance_gates.
  assert (Hw : (if producer_enforced_for row pred then
      match producer_verdict row pred with
      | ProducerMissing => Some (lit "producer missing")
      | UnknownWriter => Some (lit "producer unknown-writer")
      | ProducerOk | Grandfathered => None
      end else None) = None <-> (producer_enforced_for row pred = true -> attributable row pred)).
  { destruct (producer_enforced_for row pred) eqn:He; [|done].
    rewrite <- producer_attributable. pose proof (enforced_verdict row pred He).
    destruct (producer_verdict row pred); naive_solver. }
  revert Hw. generalize (if producer_enforced_for row pred then
      match producer_verdict row pred with
      | ProducerMissing => Some (lit "producer missing")
      | UnknownWriter => Some (lit "producer unknown-writer")
      | ProducerOk | Grandfathered => None
      end else None). intros [why|] Hw.
  { split; [done|]. intros [Hp _ _]. by apply Hw in Hp. }
  pose proof (proj1 Hw eq_refl) as Hp.
  destruct (shared_evidence_accepts row pred) eqn:Hs; cbn [negb].
  2: { split; [done|]. intros [_ He _]. congruence. }
  destruct (derived_green_class row) as [c|] eqn:Hc.
  2: { split; [done|]. intros [_ _ (c & ? & _)]. congruence. }
  destruct (existsb _ _) eqn:Hg; cbn [negb].
  - rewrite Hq. split; [|done]. intros _. split; try done. exists c. by rewrite <- existsb_str.
  - split; [done|]. intros [_ _ (c' & Hc' & Hin)]. simplify_eq. apply existsb_str in Hin. congruence.
Qed.

Lemma value_clauses_iff row sha pred :
  value_clauses row sha pred <->
  (is_lit (commit row) sha && is_bool (commit_anchored row) (req_commit_anchored (require pred)) &&
   is_bool (tree_dirty row) (req_tree_dirty (require pred)) &&
   is_lit (selection_mode row) (req_selection_mode (require pred)) &&
   is_lit (profile row) (req_profile (require pred)) &&
   is_lit (result_ row) (req_result (require pred))) = true /\
  (failures_max (require pred) <? default 0 (failures row)) = false /\
  is_z (executed_tests row) 0 = false /\
  (gate_filtered_tests pred && negb (is_z (filtered_tests row) 0)) = false.
Proof.
  autorewrite with ledger. rewrite Z.ltb_ge, <- !not_true_iff_false. autorewrite with ledger.
  rewrite negb_true_iff, <- not_true_iff_false. autorewrite with ledger.
  split; [intros []; tauto|]. intros (Hid & Hf & He & Hg). destruct_and!. split; try done.
  intros Hgate. destruct (decide (filtered_tests row = Some 0)); tauto.
Qed.

Lemma qualification_iff row sha pred :
  row_qualifies row sha pred = true <->
  value_clauses row sha pred /\
  (exists n, executed_tests row = Some n /\ executed_tests_min (require pred) <= n) /\
  (counts_schema pred <= default 0 (schema_version row) /\
     (~ waived row pred /\ covered row /\ provenance_clauses row pred \/ waived row pred) \/
   default 0 (schema_version row) < counts_schema pred /\ is_Some (filtered_tests row) /\
     provenance_clauses row pred).
Proof.
  unfold row_qualifies, row_qualification. rewrite value_clauses_iff. cbv zeta.
  destruct (is_lit (commit row) sha && _ && _ && _ && _ && _); cbn [negb]; [|naive_solver].
  destruct (failures_max (require pred) <? _); [naive_solver|].
  destruct (is_z (executed_tests row) 0); [naive_solver|].
  destruct (gate_filtered_tests pred && _); [naive_solver|].
  destruct (is_some_and (executed_tests row) _) eqn:Hex.
  2: { split; [repeat case_match; naive_solver|]. intros (_ & (n & Hn & Hle) & _).
       rewrite Hn in Hex. cbn in Hex. apply Z.leb_gt in Hex. lia. }
  assert (Hn : exists n, executed_tests row = Some n /\ executed_tests_min (require pred) <= n).
  { revert Hex. autorewrite with ledger. intros (n & ? & ?%Z.leb_le). eauto. }
  destruct (Z.leb_spec (counts_schema pred) (default 0 (schema_version row))); cbn [negb].
  - transitivity (~ waived row pred /\ covered row /\ provenance_clauses row pred \/ waived row pred);
      [|split; [tauto | intros (_ & _ & [[_ ?] | [? _]]); [done | lia]]].
    assert (Hwv : (negb (per_node (cov_clause pred)) ||
      (default 0 (schema_version row) <? cov_applies_at_schema_min (cov_clause pred))) = true <->
      waived row pred) by (rewrite orb_true_iff, negb_true_iff, Z.ltb_lt; done).
    destruct (negb (per_node (cov_clause pred)) || _); [tauto|].
    assert (Hnw : ~ waived row pred) by (rewrite <- Hwv; done).
    transitivity (covered row /\ provenance_clauses row pred); [|tauto]. unfold covered.
    destruct (coverage row) as [cov|]; cbn; [|naive_solver].
    pose proof (coverage_verdict_satisfied cov) as Hcov.
    destruct (coverage_verdict cov); [rewrite gates_accept by done | ..]; naive_solver.
  - transitivity (is_Some (filtered_tests row) /\ provenance_clauses row pred);
      [|split; [tauto | intros (_ & _ & [[? _] | [_ ?]]); [lia | done]]].
    destruct Hn as (n & -> & _). cbn [is_some andb].
    destruct (filtered_tests row) as [f|]; cbn [is_some].
    + rewrite gates_accept by done. unfold is_Some. naive_solver.
    + split; [done|]. by intros [[] _].
Qed.

(** C25.  What a green receipt has shown, exactly.  A row qualifies for a commit iff it is
    a clean, anchored, full pass of that commit within the failure bound, with a
    measured count of executed tests that reaches the minimum, and either its writer
    is count-capable and the row has coverage of all planned test nodes and passes the
    provenance gates (a registered writer where one is demanded, the shared evidence
    contract, an accepted green class), or the writer is older, both counts are there
    and the gates pass.  The last disjunct of the first case is the exception the code
    makes: where the predicate waives coverage for a count-capable row, the row is
    accepted without the provenance gates. *)
Theorem qualification_exact row sha pred :
  row_qualifies row sha pred = true <->
  value_clauses row sha pred /\
  (exists n, executed_tests row = Some n /\ executed_tests_min (require pred) <= n) /\
  (counts_schema pred <= default 0 (schema_version row) /\
     (~ waived row pred /\ covered row /\ provenance_clauses row pred \/ waived row pred) \/
   default 0 (schema_version row) < counts_schema pred /\ is_Some (filtered_tests row) /\
     provenance_clauses row pred).
Proof. apply qualification_iff. Qed.

(** Where coverage is demanded of every count-capable row, as the shipped predicate
    does, no row is green without its provenance. *)
Lemma green_has_provenance row sha pred :
  per_node (cov_clause pred) = true -> cov_applies_at_schema_min (cov_clause pred) <= counts_schema pred ->
  row_qualifies row sha pred = true -> provenance_clauses row pred.
Proof.
  intros Hpn Hle Hq. apply qualification_iff in Hq as (_ & _ & [[Hs [Hc | Hw]] | Ho]); [tauto | | tauto].
  destruct Hw as [Hw | Hw]; [congruence | lia].
Qed.

End Qualification.

(** ** A waiver that waives more *)

Definition sample_row : HistoryRow := {|
  schema_version := Some 5; started_at := None; finished_at := Some (lit "2026-08-07T20:15:31Z");
  host := None; slot := None; repo := None; cwd := None; profile := Some (lit "full");
  selection_mode := Some (lit "full"); commit := Some (lit "c0ffee"); commit_anchored := Some true;
  tree_dirty := Some false; result_ := Some (lit "pass"); exit_code := Some 0;
  executed_tests := Some 12; filtered_tests := Some 3;
  coverage := Some {| planned_test_nodes := 4; executed_test_nodes := 4;
                      zero_executed_nodes := Some []; absent_nodes := Some [] |};
  full_coverage := None; checks := None; gates_run := None; gates_expected := None;
  failures := Some 0; dag_jobs := None; concurrent_validates := None; known_flaky_failure := None;
  solo_rerun_confirmation := None; real_seconds := None; user_seconds := None; sys_seconds := None;
  log_file := None; source := None; gates := []; extra := ∅ |}.

(** The predicate that is shipped, with the obligation of coverage as an argument. *)
Definition shipped (obliged : bool) : QualifyingPredicate := {|
  counts_schema := 5;
  require := {| req_commit_anchored := true; req_tree_dirty := false; req_profile := "full";
                req_selection_mode := "full"; req_result := "pass"; failures_max := 0;
                executed_tests_min := 1 |};
  gate_filtered_tests := false;
  accepts_green_class := [lit "hard"];
  cov_clause := {| cov_applies_at_schema_min := 5; per_node := obliged |};
  base_clause := {| base_applies_at_schema_min := 5; branch := "main" |};
  admission := {| adm_applies_at_schema_min := 5; required_admission := "ci-hub-validate-lock";
                  required_concurrent_validates := 0;
                  required_concurrency_proof := "validate_lock_owner_ancestry";
                  require_registered_producer := true |};
  producer := {| required := true; applies_from_finished_at := None; known := [lit "hermit-validate-sh"] |}
|}.

Definition refusing : Verifier :=
  {| verifier_answer := fun _ _ => None; boundary_answer := fun _ _ _ _ _ => None |}.

(** A verifier that refuses everything refuses this row; without the obligation of
    coverage the row is green all the same. *)
Lemma waiver_skips_provenance :
  row_qualifies (H := refusing) sample_row "c0ffee" (shipped true) = false /\
  row_qualifies (H := refusing) sample_row "c0ffee" (shipped false) = true.
Proof. split; vm_compute; reflexivity. Qed.
