(* ===== verification/ValidateStatus.v ===== *)
(** The verdict on a commit ([ci-hub/lib/validate_status.rs]): which rows of the
    validation ledger count as a pass, which reds condemn a commit, and which say
    nothing about it. *)

From stdpp Require Import gmap sorting.
From Stdlib Require Import QArith_base.
From S2P Require Import Prelude Text Ledger.

#[local] Open Scope Z_scope.

Inductive Verdict : Type :=
| Validated | FailedOnRecord | TruncatedV | NeedsRerunV | NoResultV | NotValidated.

#[global] Instance Verdict_eq : EqDecision Verdict.
Proof. solve_decision. Defined.

Definition verdict_exit_code (v : Verdict) : Z :=
  match v with
  | Validated => 0
  | FailedOnRecord => 3
  | TruncatedV | NeedsRerunV | NoResultV | NotValidated => 4
  end.

Definition verdict_as_str (v : Verdict) : str :=
  match v with
  | Validated => "VALIDATED"
  | FailedOnRecord => "FAILED"
  | TruncatedV => "TRUNCATED"
  | NeedsRerunV => "NEEDS-RERUN"
  | NoResultV => "NO-RESULT"
  | NotValidated => "NOT-VALIDATED"
  end.

Definition field_bool (row : HistoryRow) (key : str) : option bool :=
  if str_eqb key "commit_anchored" then commit_anchored row
  else if str_eqb key "tree_dirty" then tree_dirty row
  else v ← extra row !! key; as_bool v.

Definition field_str (row : HistoryRow) (key : str) : option str :=
  if str_eqb key "selection_mode" then selection_mode row
  else v ← extra row !! key; as_str v.

Definition is_clean_full_coverage (row : HistoryRow) (sha : str) : bool :=
  is_lit (commit row) sha &&
  is_bool (field_bool row "commit_anchored") true &&
  is_bool (field_bool row "tree_dirty") false &&
  is_lit (field_str row "selection_mode") "full" &&
  is_lit (profile row) "full".

Definition FULL_GATES_EXPECTED : Z := 5.
Definition EXIT_COMMAND_NOT_FOUND : Z := 127.

(** ** Reds *)

Inductive FailureDisposition : Type := NotFailure | Truncated | NeedsRerun | NoResult | Failed.

#[global] Instance FailureDisposition_eq : EqDecision FailureDisposition.
Proof. solve_decision. Defined.

Definition red_words : list str := [lit "fail"; lit "failed"; lit "timeout"].

Definition gate_is_red (g : GateHistoryRow) : bool :=
  is_one_of (g_result g) red_words || is_one_of (g_kind g) red_words.

(** [s > 0.0] and [s <= 1.0] *)
Definition positive (s : Q) : bool := negb (Qle_bool s 0).
Definition at_most_one (s : Q) : bool := Qle_bool s 1.

Definition is_env_fault_red (row : HistoryRow) (failed_gates : list GateHistoryRow) : bool :=
  match failed_gates with
  | [] => false
  | _ :: _ =>
      let any_genuine_red :=
        existsb (fun g => negb (is_z (g_exit_code g) EXIT_COMMAND_NOT_FOUND) &&
                          is_some_and (g_real_seconds g) positive) failed_gates in
      let any_command_not_found :=
        existsb (fun g => is_z (g_exit_code g) EXIT_COMMAND_NOT_FOUND) failed_gates in
      let command_not_found_storm := any_command_not_found && negb any_genuine_red in
      let subsecond_collapse :=
        is_some_and (real_seconds row) at_most_one &&
        match gates row with [] => false | _ => true end && forallb gate_is_red (gates row) in
      command_not_found_storm || subsecond_collapse
  end.

(** [row.gates_run.or(row.checks)], and the contract of five gates of a full row. *)
Definition ran (row : HistoryRow) : option Z :=
  match gates_run row with Some n => Some n | None => checks row end.
Definition expected (row : HistoryRow) : option Z :=
  match gates_expected row with
  | Some n => Some n
  | None =>
      if is_lit (profile row) "full" && is_some_and (schema_version row) (fun v => 3 <=? v)
      then Some FULL_GATES_EXPECTED else None
  end.

(** [gates_expected.zip(gates_run).is_some_and(..)] *)
Definition zip_and (x y : option Z) (f : Z -> Z -> bool) : bool :=
  match x, y with Some a, Some b => f a b | _, _ => false end.

Definition origin_bound_gate (g : GateHistoryRow) : bool :=
  if is_lit (g_failure_origin g) "outer_gate" then true
  else if is_lit (g_failure_origin g) "lane_substep" then
    match g_failed_substeps g with [] => false | _ => true end
  else false.

Definition failure_disposition (row : HistoryRow) (sha : str) : FailureDisposition :=
  if is_lit (result_ row) "truncated" then Truncated
  else if is_one_of (result_ row) [lit "needs-rerun"; lit "needs_rerun"] then NeedsRerun
  else if negb (is_clean_full_coverage row sha) || negb (is_one_of (result_ row) red_words) then
    NotFailure
  else
    let gates_run := ran row in
    let gates_expected := expected row in
    let failed_gates := filter (fun g => gate_is_red g = true) (gates row) in
    if is_env_fault_red row failed_gates then NoResult
    else
      let none_failed := match failed_gates with [] => true | _ => false end in
      let has_real_failure := is_some_and (failures row) (fun f => 1 <=? f) || negb none_failed in
      if zip_and gates_expected gates_run (fun e r => (0 <? e) && (r <? e)) ||
         (negb has_real_failure &&
          (is_z (exit_code row) 130 || (is_z (failures row) 0 && none_failed)))
      then Truncated
      else if negb has_real_failure then NoResult
      else
        let complete := zip_and gates_expected gates_run (fun e r => (0 <? e) && (e <=? r)) in
        let conditions_present :=
          is_some (dag_jobs row) && is_some (concurrent_validates row) &&
          is_some (known_flaky_failure row) in
        let origin_bound := negb none_failed && forallb origin_bound_gate failed_gates in
        if negb complete || negb conditions_present || negb origin_bound then NeedsRerun
        else
          let contended :=
            is_some_and (concurrent_validates row) (fun c => 0 <? c) ||
            is_some_and (dag_jobs row) (fun j => 4 <? j) in
          let flaky := is_bool (known_flaky_failure row) true in
          let confirmed :=
            is_bool (solo_rerun_confirmation row) true && is_z (dag_jobs row) 4 &&
            is_z (concurrent_validates row) 0 in
          if (contended || flaky) && negb confirmed then NeedsRerun else Failed.

Section Assess.
(** The predicate in force ([qualifying_receipt::active]) and its verifier. *)
Context `{Verifier} (active : QualifyingPredicate).

Definition is_clean_full_pass (row : HistoryRow) (sha : str) : bool := row_qualifies row sha active.

(** ** Assessment *)

Record Assessment : Type := {
  a_sha : str;
  verdict : Verdict;
  qualifying : list HistoryRow;
  disqualified : list HistoryRow;
  failed_records : Z;
  withheld_nonpass_records : Z
}.

(** The local variables of the loop. *)
Record tally : Type := {
  t_qualifying : list HistoryRow;
  t_disqualified : list HistoryRow;
  t_failed : Z;
  t_withheld : Z;
  saw_failed : bool;
  saw_needs_rerun : bool;
  saw_truncated : bool;
  saw_no_result : bool
}.

Definition no_tally : tally :=
  {| t_qualifying := []; t_disqualified := []; t_failed := 0; t_withheld := 0; saw_failed := false;
     saw_needs_rerun := false; saw_truncated := false; saw_no_result := false |}.

(** One row of the loop. *)
Definition tally_row (sha : str) (t : tally) (row : HistoryRow) : tally :=
  if negb (is_lit (commit row) sha) then t
  else if is_clean_full_pass row sha then
    {| t_qualifying := t_qualifying t ++ [row]; t_disqualified := t_disqualified t;
       t_failed := t_failed t; t_withheld := t_withheld t; saw_failed := saw_failed t;
       saw_needs_rerun := saw_needs_rerun t; saw_truncated := saw_truncated t;
       saw_no_result := saw_no_result t |}
  else
    let withheld := if is_clean_full_coverage row sha then t_withheld t + 1 else t_withheld t in
    let d := failure_disposition row sha in
    {| t_qualifying := t_qualifying t;
       t_disqualified := t_disqualified t ++ [row];
       t_failed := match d with Failed => t_failed t + 1 | _ => t_failed t end;
       t_withheld := match d with NeedsRerun | Truncated | NoResult => withheld
                     | Failed | NotFailure => t_withheld t end;
       saw_failed := match d with Failed => true | _ => saw_failed t end;
       saw_needs_rerun := match d with NeedsRerun => true | _ => saw_needs_rerun t end;
       saw_truncated := match d with Truncated => true | _ => saw_truncated t end;
       saw_no_result := match d with NoResult => true | _ => saw_no_result t end |}.

Definition assess (rows : list HistoryRow) (sha : str) : Assessment :=
  let t := fold_left (tally_row sha) rows no_tally in
  {| a_sha := sha;
     verdict :=
       match t_qualifying t with
       | _ :: _ => Validated
       | [] =>
           if saw_failed t then FailedOnRecord
           else if saw_needs_rerun t then NeedsRerunV
           else if saw_truncated t then TruncatedV
           else if saw_no_result t then NoResultV
           else NotValidated
       end;
     qualifying := t_qualifying t;
     disqualified := t_disqualified t;
     failed_records := t_failed t;
     withheld_nonpass_records := t_withheld t |}.

End Assess.

(** ** Queries *)

(** [finished_at.as_deref().unwrap_or("")] *)
Definition finished (row : HistoryRow) : str := default [] (finished_at row).

(** [Iterator::max_by]: the last of the greatest. *)
Fixpoint max_from (best : HistoryRow) (rows : list HistoryRow) : HistoryRow :=
  match rows with
  | [] => best
  | row :: rows => max_from (if str_leb (finished best) (finished row) then row else best) rows
  end.

Definition newest (rows : list HistoryRow) : option HistoryRow :=
  match rows with [] => None | row :: rows => Some (max_from row rows) end.

(** [char::is_ascii_hexdigit] and [to_ascii_lowercase]. *)
Definition is_ascii_hexdigit (c : Z) : bool :=
  is_digit c || ((65 <=? c) && (c <=? 70)) || ((97 <=? c) && (c <=? 102)).
Definition ascii_lower (c : Z) : Z := if (65 <=? c) && (c <=? 90) then c + 32 else c.

Inductive ResolveError : Type := NotHex | TooLong | NoMatch | Ambiguous (n : Z).

(** [BTreeSet<String>] of the commits: what matters is how many there are. *)
Definition matching_commits (rows : list HistoryRow) (prefix : str) : list str :=
  remove_dups (omap (fun row => c ← commit row; if starts_with prefix c then Some c else None) rows).

Definition resolve_sha (rows : list HistoryRow) (input : str) : result str ResolveError :=
  let lc := map ascii_lower input in
  let is_hex := match lc with [] => false | _ => forallb is_ascii_hexdigit lc end in
  if negb is_hex then Err NotHex
  else if Z.of_nat (length lc) =? 40 then Ok lc
  else if 40 <? Z.of_nat (length lc) then Err TooLong
  else
    match matching_commits rows lc with
    | [c] => Ok c
    | [] => Err NoMatch
    | cs => Err (Ambiguous (Z.of_nat (length cs)))
    end.

(** Lines that [serde_json] does not accept are skipped and counted. *)
Fixpoint parse_lines_ledger (from_str : str -> option HistoryRow) (ls : list str) :
    list HistoryRow * Z :=
  match ls with
  | [] => ([], 0)
  | line :: ls =>
      let '(rows, skipped) := parse_lines_ledger from_str ls in
      let line := trim line in
      match line with
      | [] => (rows, skipped)
      | _ :: _ =>
          match from_str line with
          | Some row => (row :: rows, skipped)
          | None => (rows, skipped + 1)
          end
      end
  end.

Definition parse_ledger (from_str : str -> option HistoryRow) (buf : str) : list HistoryRow * Z :=
  parse_lines_ledger from_str (lines buf).
