(* ===== verification/ValidateStatusCorrect.v ===== *)
(** The verdict on a commit depends on the set of its rows only, a pass wins, and a
    commit is condemned on complete, attributable and uncontended evidence only. *)

From stdpp Require Import gmap sorting.
From Stdlib Require Import QArith_base.
From S2P Require Import Prelude Text Ledger LedgerCorrect ValidateStatus.

#[local] Open Scope Z_scope.

(** ** Condemning a commit *)

(** The red gates of a row. *)
Definition red_gates (row : HistoryRow) : list GateHistoryRow :=
  filter (fun g => gate_is_red g = true) (gates row).

(** The red gate names its origin. *)
Definition bound_origin (g : GateHistoryRow) : Prop :=
  g_failure_origin g = Some (lit "outer_gate") \/
  g_failure_origin g = Some (lit "lane_substep") /\ g_failed_substeps g <> [].

Lemma origin_bound_gate_iff g : origin_bound_gate g = true <-> bound_origin g.
Proof.
  unfold origin_bound_gate, bound_origin.
  destruct (is_lit (g_failure_origin g) "outer_gate") eqn:H1; [apply is_lit_iff in H1; naive_solver|].
  destruct (is_lit (g_failure_origin g) "lane_substep") eqn:H2.
  - apply is_lit_iff in H2. rewrite H2. destruct (g_failed_substeps g); naive_solver.
  - apply not_true_iff_false in H1, H2. rewrite is_lit_iff in H1, H2. naive_solver.
Qed.

(** A row that condemns its commit: a clean full red of this commit that is no fault of
    the environment, ran all the gates it should have, with red gates that all name
    their origin, under recorded conditions; if these were contended or the failure is
    known to be flaky, it is the confirming rerun, alone and at the safe width. *)
Record condemns (row : HistoryRow) (sha : str) : Prop := {
  c_clean : is_clean_full_coverage row sha = true;
  c_red : exists r, result_ row = Some r /\ r ∈ red_words;
  c_exercised : is_env_fault_red row (red_gates row) = false;
  c_complete : exists e r, expected row = Some e /\ ran row = Some r /\ 0 < e <= r;
  c_origin : red_gates row <> [] /\ Forall bound_origin (red_gates row);
  c_conditions : exists jobs peers flaky, dag_jobs row = Some jobs /\
    concurrent_validates row = Some peers /\ known_flaky_failure row = Some flaky /\
    (0 < peers \/ 4 < jobs \/ flaky = true ->
     solo_rerun_confirmation row = Some true /\ jobs = 4 /\ peers = 0)
}.

Lemma zip_and_iff x y f : zip_and x y f = true <-> exists a b, x = Some a /\ y = Some b /\ f a b = true.
Proof. destruct x, y; cbn; naive_solver. Qed.

Lemma forallb_origin l : forallb origin_bound_gate l = true <-> Forall bound_origin l.
Proof.
  rewrite forallb_forall, list.Forall_forall. setoid_rewrite origin_bound_gate_iff.
  by setoid_rewrite list_elem_of_In.
Qed.

(** The last test of [failure_disposition]. *)
Lemma conditions_iff row :
  is_some (dag_jobs row) && is_some (concurrent_validates row) && is_some (known_flaky_failure row) =
    true /\
  (is_some_and (concurrent_validates row) (fun c => 0 <? c) ||
   is_some_and (dag_jobs row) (fun j => 4 <? j) || is_bool (known_flaky_failure row) true) &&
  negb (is_bool (solo_rerun_confirmation row) true && is_z (dag_jobs row) 4 &&
        is_z (concurrent_validates row) 0) = false <->
  exists jobs peers flaky, dag_jobs row = Some jobs /\ concurrent_validates row = Some peers /\
    known_flaky_failure row = Some flaky /\
    (0 < peers \/ 4 < jobs \/ flaky = true ->
     solo_rerun_confirmation row = Some true /\ jobs = 4 /\ peers = 0).
Proof.
  destruct (dag_jobs row) as [j|]; [|cbn; naive_solver].
  destruct (concurrent_validates row) as [c|]; [|cbn; naive_solver].
  destruct (known_flaky_failure row) as [f|]; [|cbn; naive_solver].
  cbn [is_some is_some_and is_bool is_z andb].
  rewrite andb_false_iff, negb_false_iff, !orb_false_iff, !andb_true_iff, is_bool_iff, !Z.ltb_ge, !Z.eqb_eq.
  split.
  - intros [_ Hc]. exists j, c, f. split_and!; try done. intros Hcont.
    destruct Hc as [[[H1 H2] H3] | Hc]; [|tauto]. destruct f; cbn in H3; [done|]. naive_solver lia.
  - intros (j' & c' & f' & [= <-] & [= <-] & [= <-] & Hc). split; [done|].
    destruct (decide (0 < c \/ 4 < j \/ f = true)) as [Hd|Hd]; [right; naive_solver|].
    left. split_and!; [lia | lia | by destruct f; [tauto|]].
Qed.


Lemma red_word_cases r : r ∈ red_words -> r = lit "fail" \/ r = lit "failed" \/ r = lit "timeout".
Proof. unfold red_words. rewrite !elem_of_cons, elem_of_nil. tauto. Qed.

Lemma failed_iff row sha : failure_disposition row sha = Failed <-> condemns row sha.
Proof.
  unfold failure_disposition. fold (red_gates row). cbv zeta.
  destruct (is_lit (result_ row) "truncated") eqn:Ht.
  { apply is_lit_iff in Ht. split; [done|]. intros [_ (r & Hr & Hin) _ _ _ _].
    rewrite Ht in Hr. injection Hr as <-. by apply red_word_cases in Hin as [? | [? | ?]]. }
  destruct (is_one_of (result_ row) [lit "needs-rerun"; lit "needs_rerun"]) eqn:Hn.
  { split; [done|]. intros [_ (r & Hr & Hin) _ _ _ _]. rewrite Hr in Hn.
    apply red_word_cases in Hin as [-> | [-> | ->]]; by vm_compute in Hn. }
  destruct (is_clean_full_coverage row sha) eqn:Hc; cbn [negb orb]; [|split; [done | intros []; congruence]].
  destruct (is_one_of (result_ row) red_words) eqn:Hr; cbn [negb].
  2: { split; [done|]. intros [_ Hred _ _ _ _]. apply is_one_of_iff in Hred. congruence. }
  apply is_one_of_iff in Hr.
  destruct (is_env_fault_red row (red_gates row)) eqn:He; [split; [done | intros []; congruence]|].
  destruct (red_gates row) as [|g gs] eqn:Hg.
  { split; [|intros [_ _ _ _ [Hne _] _]; congruence].
    cbv iota. cbn [negb andb]. rewrite !orb_true_r. repeat case_match; done. }
  cbn [negb]. rewrite !orb_true_r. cbn [negb andb]. rewrite !orb_false_r.
  destruct (zip_and (expected row) (ran row) (fun e r => (0 <? e) && (r <? e))) eqn:Hz.
  { apply zip_and_iff in Hz as (e & r & Hx & Hy & [? ?]%andb_true_iff). split; [done|].
    intros [_ _ _ (e' & r' & ? & ? & ?) _ _]. simplify_eq. lia. }
  destruct (zip_and (expected row) (ran row) (fun e r => (0 <? e) && (e <=? r))) eqn:Hcomp; cbn [negb orb].
  2: { split; [done|]. intros [_ _ _ (e & r & Hx & Hy & Hle) _ _].
       assert (Hz' : zip_and (expected row) (ran row) (fun e r => (0 <? e) && (e <=? r)) = true)
         by (apply zip_and_iff; exists e, r; split_and!; try done; apply andb_true_iff; lia).
       congruence. }
  apply zip_and_iff in Hcomp as (e & r & Hx & Hy & [? ?]%andb_true_iff).
  rewrite <- Hg. pose proof (conditions_iff row) as Hcond. pose proof (forallb_origin (red_gates row)) as Hor.
  destruct (is_some (dag_jobs row) && _ && _) eqn:Hp; cbn [negb orb].
  2: { split; [done|]. intros [_ _ _ _ _ Hcd]. apply Hcond in Hcd as [? _]. done. }
  destruct (forallb origin_bound_gate (red_gates row)) eqn:Ho; cbn [negb orb].
  2: { split; [done|]. intros [_ _ _ _ [_ Hf] _]. apply Hor in Hf. done. }
  destruct ((_ || _ || _) && negb _) eqn:Hconf.
  { split; [done|]. intros [_ _ _ _ _ Hcd]. apply Hcond in Hcd as [_ ?]. done. }
  split; [|done]. intros _. split; try done.
  - by rewrite Hg.
  - exists e, r. split_and!; try done; lia.
  - split; [by rewrite Hg | by apply Hor].
  - by apply Hcond.
Qed.

(** ** The assessment *)

Section Assess.
Context `{Verifier} (active : QualifyingPredicate) (sha : str).

(** The rows of the commit that are green, and those that are not. *)
Definition green (r : HistoryRow) : bool := is_lit (commit r) sha && is_clean_full_pass active r sha.
Definition other (r : HistoryRow) : bool :=
  is_lit (commit r) sha && negb (is_clean_full_pass active r sha).

Definition disposed (d : FailureDisposition) (r : HistoryRow) : bool :=
  other r && bool_decide (failure_disposition r sha = d).

(** A clean full row that is no pass and says nothing about the commit. *)
Definition withheld (r : HistoryRow) : bool :=
  is_clean_full_coverage r sha &&
  (disposed NeedsRerun r || disposed Truncated r || disposed NoResult r).

Definition count (f : HistoryRow -> bool) (rows : list HistoryRow) : Z :=
  Z.of_nat (length (List.filter f rows)).

(** What the loop has gathered. *)
Record gathered (rows : list HistoryRow) (t : tally) : Prop := {
  ga_greens : t_qualifying t = List.filter green rows;
  ga_others : t_disqualified t = List.filter other rows;
  ga_failed : t_failed t = count (disposed Failed) rows;
  ga_withheld : t_withheld t = count withheld rows;
  ga_saw_failed : saw_failed t = existsb (disposed Failed) rows;
  ga_saw_rerun : saw_needs_rerun t = existsb (disposed NeedsRerun) rows;
  ga_saw_truncated : saw_truncated t = existsb (disposed Truncated) rows;
  ga_saw_none : saw_no_result t = existsb (disposed NoResult) rows
}.

Lemma count_snoc f rows row : count f (rows ++ [row]) = count f rows + (if f row then 1 else 0).
Proof. unfold count. rewrite List.filter_app, length_app. cbn. destruct (f row); cbn; lia. Qed.

Lemma gathered_row rows t row : gathered rows t ->
  gathered (rows ++ [row]) (tally_row active sha t row).
Proof.
  intros [Hg Ho Hf Hw H1 H2 H3 H4]. unfold tally_row.
  destruct (is_lit (commit row) sha) eqn:Hc; cbn [negb];
    [destruct (is_clean_full_pass active row sha) eqn:Hp|];
    split; cbn; rewrite ?List.filter_app, ?existsb_app, ?count_snoc;
    rewrite <- ?Hg, <- ?Ho, <- ?Hf, <- ?Hw, <- ?H1, <- ?H2, <- ?H3, <- ?H4; cbn;
    unfold withheld, disposed, green, other; rewrite ?Hc, ?Hp; cbn;
    rewrite ?app_nil_r, ?orb_false_r, ?andb_false_r, ?Z.add_0_r; try congruence;
    destruct (failure_disposition row sha); cbn; rewrite ?orb_false_r, ?orb_true_r, ?Z.add_0_r;
    try congruence; try lia;
    destruct (is_clean_full_coverage row sha); cbn; rewrite ?Z.add_0_r; done.
Qed.

Lemma gathered_all rows : gathered rows (fold_left (tally_row active sha) rows no_tally).
Proof.
  induction rows as [|row rows IH] using rev_ind; [by split|].
  rewrite fold_left_app. by apply gathered_row.
Qed.

(** The verdict by the kinds of rows there are. *)
Definition ranked (rows : list HistoryRow) : Verdict :=
  if existsb green rows then Validated
  else if existsb (disposed Failed) rows then FailedOnRecord
  else if existsb (disposed NeedsRerun) rows then NeedsRerunV
  else if existsb (disposed Truncated) rows then TruncatedV
  else if existsb (disposed NoResult) rows then NoResultV
  else NotValidated.

Lemma assess_spec rows : assess active rows sha =
  {| a_sha := sha; verdict := ranked rows; qualifying := List.filter green rows;
     disqualified := List.filter other rows; failed_records := count (disposed Failed) rows;
     withheld_nonpass_records := count withheld rows |}.
Proof.
  unfold assess. destruct (gathered_all rows) as [Hg Ho Hf Hw H1 H2 H3 H4].
  rewrite Hg, Ho, Hf, Hw, H1, H2, H3, H4. f_equal. unfold ranked.
  assert (Hx : forall l : list HistoryRow, existsb green l = match List.filter green l with [] => false | _ => true end).
  { induction l as [|x l IH]; [done|]. cbn. destruct (green x); [done | exact IH]. }
  rewrite Hx. by destruct (List.filter green rows).
Qed.

Lemma filter_perm {A : Type} (f : A -> bool) l l' : l ≡ₚ l' -> List.filter f l ≡ₚ List.filter f l'.
Proof.
  induction 1 as [| x l l' _ IH | x y l | l l' l'' _ IH1 _ IH2]; cbn.
  - done.
  - destruct (f x); [by apply Permutation_cons | done].
  - destruct (f x), (f y); try done. apply Permutation_swap.
  - by etrans.
Qed.

Lemma existsb_perm {A : Type} (f : A -> bool) l l' : l ≡ₚ l' -> existsb f l = existsb f l'.
Proof.
  intros Hp. apply eq_true_iff_eq. rewrite !existsb_exists.
  split; intros (x & Hx & Hf); exists x; split; try done.
  - by rewrite <- Hp.
  - by rewrite Hp.
Qed.

Lemma ranked_perm rows rows' : rows ≡ₚ rows' -> ranked rows = ranked rows'.
Proof. intros Hp. unfold ranked. by rewrite !(existsb_perm _ _ _ Hp). Qed.

Lemma count_perm f rows rows' : rows ≡ₚ rows' -> count f rows = count f rows'.
Proof. intros Hp. unfold count. by rewrite (filter_perm _ _ _ Hp). Qed.

Lemma existsb_elem {A : Type} (f : A -> bool) l : existsb f l = true <-> exists x, x ∈ l /\ f x = true.
Proof. rewrite existsb_exists. by setoid_rewrite list_elem_of_In. Qed.

Lemma green_iff r : green r = true <-> commit r = Some sha /\ row_qualifies r sha active = true.
Proof. unfold green, is_clean_full_pass. by rewrite andb_true_iff, is_lit_iff. Qed.

(** Without a green row, the condemning rows are those counted as failed. *)
Lemma condemned_iff rows : existsb green rows = false ->
  existsb (disposed Failed) rows = true <-> exists r, r ∈ rows /\ condemns r sha.
Proof.
  intros Hg. rewrite existsb_elem. split; intros (r & Hr & Hd); exists r; (split; [done|]).
  - unfold disposed in Hd. apply andb_true_iff in Hd as [_ Hd%bool_decide_eq_true]. by apply failed_iff.
  - pose proof Hd as [Hc _ _ _ _ _]. apply failed_iff in Hd. unfold disposed, other.
    rewrite (bool_decide_eq_true_2 _ Hd), andb_true_r. unfold is_clean_full_coverage in Hc.
    rewrite !andb_true_iff in Hc. destruct Hc as [[[[-> _] _] _] _]. cbn. apply negb_true_iff.
    apply not_true_iff_false. intros Hp. apply not_true_iff_false in Hg. apply Hg, existsb_elem.
    exists r. split; [done|]. apply green_iff.
    split; [|done]. apply failed_iff in Hd. destruct Hd as [Hcl _ _ _ _ _].
    unfold is_clean_full_coverage in Hcl. rewrite !andb_true_iff, is_lit_iff in Hcl. tauto.
Qed.

Lemma filter_both {A : Type} (f g : A -> bool) l :
  List.filter g (List.filter f l) = List.filter (fun x => f x && g x) l.
Proof.
  induction l as [|x l IH]; [done|]. cbn. destruct (f x); cbn; [|exact IH].
  destruct (g x); by rewrite IH.
Qed.

(** Failed records are the condemning ones among the others. *)
Lemma count_failed b rows : (forall r, b r = true <-> condemns r sha) ->
  count (disposed Failed) rows = Z.of_nat (length (List.filter b (List.filter other rows))).
Proof.
  intros Hb. unfold count. rewrite filter_both. do 2 f_equal. apply List.filter_ext. intros r.
  unfold disposed. f_equal. apply eq_true_iff_eq. by rewrite bool_decide_eq_true, failed_iff, Hb.
Qed.

(** The row is the commit's and qualifies; it is the commit's and does not. *)
Definition qualifies_for (r : HistoryRow) : bool :=
  bool_decide (commit r = Some sha) && row_qualifies r sha active.
Definition fails_to_qualify (r : HistoryRow) : bool :=
  bool_decide (commit r = Some sha) && negb (row_qualifies r sha active).

Lemma commit_bool r : is_lit (commit r) sha = bool_decide (commit r = Some sha).
Proof. apply eq_true_iff_eq. by rewrite is_lit_iff, bool_decide_eq_true. Qed.

(** C26.  The assessment of a commit.  It is validated exactly when one of its rows
    qualifies, whatever else is on record; failed on record exactly when none does and
    some row condemns it.  The qualifying rows of the assessment are the rows of the
    commit that qualify and its disqualified rows are the rows of the commit that do
    not, both in the order of the ledger; the failed records are the disqualified rows
    that condemn the commit; and verdict and counts do not depend on the order of the
    ledger. *)
Theorem assess_exact rows :
  (verdict (assess active rows sha) = Validated <->
     exists r, r ∈ rows /\ commit r = Some sha /\ row_qualifies r sha active = true) /\
  (verdict (assess active rows sha) = FailedOnRecord <->
     (forall r, r ∈ rows -> commit r = Some sha -> row_qualifies r sha active = false) /\
     exists r, r ∈ rows /\ condemns r sha) /\
  qualifying (assess active rows sha) = List.filter qualifies_for rows /\
  disqualified (assess active rows sha) = List.filter fails_to_qualify rows /\
  (forall b, (forall r, b r = true <-> condemns r sha) ->
     failed_records (assess active rows sha) =
       Z.of_nat (length (List.filter b (disqualified (assess active rows sha))))) /\
  (forall rows', rows ≡ₚ rows' ->
     verdict (assess active rows' sha) = verdict (assess active rows sha) /\
     failed_records (assess active rows' sha) = failed_records (assess active rows sha) /\
     withheld_nonpass_records (assess active rows' sha) =
       withheld_nonpass_records (assess active rows sha)).
Proof.
  setoid_rewrite assess_spec. cbn.
  assert (Hgreen : existsb green rows = true <-> exists r, r ∈ rows /\ commit r = Some sha /\
    row_qualifies r sha active = true) by (rewrite existsb_elem; by setoid_rewrite green_iff).
  split_and!.
  - rewrite <- Hgreen. unfold ranked. destruct (existsb green rows); [done|]. by repeat case_match.
  - unfold ranked. destruct (existsb green rows) eqn:Hg.
    + split; [done|]. intros [Hnone _]. destruct (proj1 Hgreen eq_refl) as (r & Hr & Hc & Hq).
      specialize (Hnone r Hr Hc). congruence.
    + rewrite <- condemned_iff by done.
      assert (Hnone : forall r, r ∈ rows -> commit r = Some sha -> row_qualifies r sha active = false).
      { intros r Hr Hc. apply not_true_iff_false. intros Hq. enough (false = true) by done. naive_solver. }
      destruct (existsb (disposed Failed) rows); [done|]. split; [by repeat case_match | naive_solver].
  - apply List.filter_ext. intros r. unfold green, qualifies_for. by rewrite commit_bool.
  - apply List.filter_ext. intros r. unfold other, fails_to_qualify. by rewrite commit_bool.
  - intros b Hb. by apply count_failed.
  - intros rows' Hp. split_and!; symmetry; [by apply ranked_perm | by apply count_perm..].
Qed.

End Assess.

(** ** Queries *)

Lemma str_leb_refl a : str_leb a a = true.
Proof. induction a as [|x a IH]; cbn; [done|]. by rewrite Z.ltb_irrefl, Z.eqb_refl. Qed.

Lemma str_leb_trans a b c : str_leb a b = true -> str_leb b c = true -> str_leb a c = true.
Proof.
  revert b c. induction a as [|x a IH]; intros [|y b] [|z c]; cbn; try done.
  destruct (Z.ltb_spec x y), (Z.ltb_spec y z), (Z.ltb_spec x z), (Z.eqb_spec x y), (Z.eqb_spec y z),
    (Z.eqb_spec x z); try lia; try done. apply IH.
Qed.

Lemma str_leb_total a b : str_leb a b = true \/ str_leb b a = true.
Proof.
  revert b. induction a as [|x a IH]; intros [|y b]; cbn; [by left..|by right|].
  destruct (Z.ltb_spec x y), (Z.ltb_spec y x), (Z.eqb_spec x y), (Z.eqb_spec y x); try lia; auto.
Qed.

Lemma max_from_spec best rows :
  max_from best rows ∈ best :: rows /\
  forall r, r ∈ best :: rows -> str_leb (finished r) (finished (max_from best rows)) = true.
Proof.
  revert best. induction rows as [|row rows IH]; intros best; cbn [max_from].
  - split; [set_solver|]. intros r ->%list_elem_of_singleton. apply str_leb_refl.
  - specialize (IH (if str_leb (finished best) (finished row) then row else best)) as [Hin Hmax].
    destruct (str_leb (finished best) (finished row)) eqn:Hle.
    + split; [set_solver|]. intros r [-> | Hr]%elem_of_cons; [|by apply Hmax].
      eapply str_leb_trans; [exact Hle | apply Hmax; set_solver].
    + split; [set_solver|]. intros r [-> | [-> | Hr]%elem_of_cons]%elem_of_cons; [apply Hmax; set_solver | |
        apply Hmax; set_solver].
      destruct (str_leb_total (finished best) (finished row)); [congruence|].
      eapply str_leb_trans; [eassumption | apply Hmax; set_solver].
Qed.

(** The newest row is one of the rows and none finished later. *)
Lemma newest_spec rows r : newest rows = Some r ->
  r ∈ rows /\ forall r', r' ∈ rows -> str_leb (finished r') (finished r) = true.
Proof. destruct rows as [|row rows]; [done|]. intros [= <-]. apply max_from_spec. Qed.

Lemma newest_some rows : rows <> [] -> is_Some (newest rows).
Proof. destruct rows; [done | by eexists]. Qed.

Lemma elem_of_matching rows p c : c ∈ matching_commits rows p <->
  (exists r, r ∈ rows /\ commit r = Some c) /\ starts_with p c = true.
Proof.
  unfold matching_commits. rewrite elem_of_remove_dups, list_elem_of_omap. split.
  - intros (r & Hr & Hc). destruct (commit r) as [c'|] eqn:Hcm; [|done]. cbn in Hc.
    destruct (starts_with p c') eqn:Hs; [|done]. simplify_eq. eauto.
  - intros [(r & Hr & Hc) Hs]. exists r. rewrite Hc. cbn. by rewrite Hs.
Qed.

(** A full name stands for itself; a prefix for the one commit of the ledger it fits. *)
Lemma resolve_sha_exact rows input c :
  let lc := map ascii_lower input in
  resolve_sha rows input = Ok c <->
  lc <> [] /\ forallb is_ascii_hexdigit lc = true /\
  (Z.of_nat (length lc) = 40 /\ c = lc \/
   Z.of_nat (length lc) < 40 /\ (exists r, r ∈ rows /\ commit r = Some c) /\ starts_with lc c = true /\
   forall r c', r ∈ rows -> commit r = Some c' -> starts_with lc c' = true -> c' = c).
Proof.
  intros lc. unfold resolve_sha. fold lc. cbv zeta.
  assert (Hne : lc = [] \/ lc <> []) by (destruct lc; auto). destruct Hne as [-> | Hne]; [naive_solver|].
  replace (match lc with [] => false | _ => forallb is_ascii_hexdigit lc end)
    with (forallb is_ascii_hexdigit lc) by (by destruct lc). destruct (forallb is_ascii_hexdigit lc) eqn:Hh; cbn [negb]; [|naive_solver].
  destruct (Z.eqb_spec (Z.of_nat (length lc)) 40).
  { split; [intros [= <-]; naive_solver | intros (_ & _ & [[_ ->] | [? _]]); [done | lia]]. }
  destruct (Z.ltb_spec 40 (Z.of_nat (length lc))); [split; [done | naive_solver lia]|].
  pose proof (elem_of_matching rows lc) as Hm.
  assert (Hnd : NoDup (matching_commits rows lc)) by apply NoDup_remove_dups.
  destruct (matching_commits rows lc) as [|a [|b l]].
  - split; [done|]. intros (_ & _ & [[? _] | (_ & Hr & Hs & _)]); [lia|].
    exfalso. apply (proj1 (elem_of_nil c)), Hm. done.
  - split.
    + intros [= <-]. split_and!; [done | done|]. right. destruct (proj1 (Hm a)) as [Hr Hs]; [set_solver|].
      split_and!; [lia | done | done|]. intros r c' Hr' Hc' Hs'.
      assert (Hin : c' ∈ [a]) by (apply Hm; eauto). set_solver.
    + intros (_ & _ & [[? _] | (_ & Hr & Hs & _)]); [lia|].
      assert (Hin : c ∈ [a]) by (apply Hm; eauto). f_equal. set_solver.
  - split; [done|]. intros (_ & _ & [[? _] | (_ & Hr & Hs & Hu)]); [lia|].
    destruct (proj1 (Hm a)) as [(ra & ? & ?) ?]; [set_solver|].
    destruct (proj1 (Hm b)) as [(rb & ? & ?) ?]; [set_solver|].
    assert (a = c) by eauto. assert (b = c) by eauto. subst. apply list.NoDup_cons in Hnd. set_solver.
Qed.
