(* ===== verification/History.v ===== *)
(** Queries over the validation ledger and the branch ([ci-hub/lib/history_queries.rs]):
    the newest green commit, the newest transition of a test from pass to fail, and the
    detail of test cells that is taken from retained logs and kept in a cache. *)

From Stdlib Require Import QArith_base.
From stdpp Require Import gmap sorting.
From S2P Require Import Prelude Text Ledger ValidateStatus.

#[local] Open Scope Z_scope.

(** ** Evidence *)

Inductive CoverageStrength : Type := Full | SmartSelection | NarrowerProfile.

Definition strength_as_str (c : CoverageStrength) : str :=
  match c with
  | Full => "full" | SmartSelection => "smart-selection" | NarrowerProfile => "narrower-profile"
  end.

Record ValidationEvidence : Type := {
  e_sha : str;
  e_finished_at : option str;
  e_profile : str;
  e_selection_mode : str;
  e_coverage : option CoverageStrength;
  e_coverage_satisfied : option bool;
  e_coverage_status : str;
  e_result : str;
  e_log_file : option str
}.

Definition scope_strength (row : HistoryRow) : CoverageStrength :=
  if is_lit (profile row) "full" then
    if is_lit (selection_mode row) "full" then Full else SmartSelection
  else NarrowerProfile.

Definition gate_passed (g : GateHistoryRow) : bool :=
  is_lit (g_result g) "pass" || is_lit (g_kind g) "pass".

Definition gate_failed (g : GateHistoryRow) : bool :=
  is_one_of (g_result g) [lit "fail"; lit "failed"] || is_one_of (g_kind g) [lit "fail"; lit "timeout"].

(** [ch.is_ascii_alphanumeric()], lowered. *)
Definition is_alphanumeric (c : Z) : bool :=
  is_digit c || ((65 <=? c) && (c <=? 90)) || ((97 <=? c) && (c <=? 122)).
Definition normalize (value : str) : str := map ascii_lower (List.filter is_alphanumeric value).

(** ** Logs *)

(** [strip_ansi]: [ESC \[] opens a sequence that ends with the first of [@..~]. *)
Fixpoint strip_ansi (inside : bool) (line : str) : str :=
  match line with
  | [] => []
  | c :: rest =>
      if inside then strip_ansi (negb ((64 <=? c) && (c <=? 126))) rest
      else
        match rest with
        | d :: rest' => if (c =? 27) && (d =? 91) then strip_ansi true rest' else c :: strip_ansi false rest
        | [] => [c]
        end
  end.

Definition CHECK : str := [10003] +++ " PASS".
Definition CROSS : str := [10007] +++ " FAIL".

Definition observation (name result : str) (source_node : option str) : GateHistoryRow :=
  {| g_name := name; g_result := Some result; g_kind := None; g_exit_code := None;
     g_real_seconds := None; g_source_node := source_node; g_failure_origin := None;
     g_failed_substeps := []; g_extra := ∅ |}.

(** One line of a log: the terminal line of a DAG node, and the line of a Rust test. *)
Definition observe_line (raw_line : str) : list GateHistoryRow :=
  let line := strip_ansi false raw_line in
  let source_node := rest ← strip_prefix "[" line; kv ← split_once 93 rest; Some kv.1 in
  let node :=
    match source_node with
    | None => []
    | Some node =>
        if contains CHECK line then [observation node "pass" (Some node)]
        else if contains CROSS line then [observation node "fail" (Some node)]
        else []
    end in
  let test :=
    match split_once_str "test " line with
    | None => []
    | Some (_, test) =>
        match split_once_str " ... " test with
        | None => []
        | Some (name, suffix) =>
            if str_eqb name "result:" || str_eqb name [] then []
            else if starts_with "ok" suffix then [observation name "pass" source_node]
            else if starts_with "FAILED" suffix then [observation name "fail" source_node]
            else []
        end
    end in
  node ++ test.

Definition parse_log_observations (raw : str) : list GateHistoryRow := concat (map observe_line (lines raw)).

Definition scoped_error_excerpt (raw : str) (g : GateHistoryRow) : list str :=
  let keep line :=
    let belongs :=
      contains (g_name g) line ||
      match g_source_node g with Some node => starts_with ("[" +++ node +++ "]") line | None => false end in
    let diagnostic :=
      contains (g_name g) line || contains "panicked at" line || contains "error:" line ||
      contains CROSS line in
    belongs && diagnostic in
  take 20 (map (take 300) (List.filter keep (map (strip_ansi false) (lines raw)))).

(** ** Cells *)

(** [(normalize(&gate.name), gate.result.clone().unwrap_or_default())] *)
Definition cell_key (g : GateHistoryRow) : str * str := (normalize (g_name g), default [] (g_result g)).

Definition set_gates (row : HistoryRow) (gs : list GateHistoryRow) : HistoryRow :=
  {| schema_version := schema_version row; started_at := started_at row; finished_at := finished_at row;
     host := host row; slot := slot row; repo := repo row; cwd := cwd row; profile := profile row;
     selection_mode := selection_mode row; commit := commit row; commit_anchored := commit_anchored row;
     tree_dirty := tree_dirty row; result_ := result_ row; exit_code := exit_code row;
     executed_tests := executed_tests row; filtered_tests := filtered_tests row; coverage := coverage row;
     full_coverage := full_coverage row; checks := checks row; gates_run := gates_run row;
     gates_expected := gates_expected row; failures := failures row; dag_jobs := dag_jobs row;
     concurrent_validates := concurrent_validates row; known_flaky_failure := known_flaky_failure row;
     solo_rerun_confirmation := solo_rerun_confirmation row; real_seconds := real_seconds row;
     user_seconds := user_seconds row; sys_seconds := sys_seconds row; log_file := log_file row;
     source := source row; gates := gs; extra := extra row |}.

(** [names.insert(key)] guards the push: the cells whose keys are new. *)
Fixpoint push_new (seen : gset (str * str)) (acc new : list GateHistoryRow) : list GateHistoryRow :=
  match new with
  | [] => acc
  | g :: new =>
      if decide (cell_key g ∈ seen) then push_new seen acc new
      else push_new ({[cell_key g]} ∪ seen) (acc ++ [g]) new
  end.

Definition keys_of (gs : list GateHistoryRow) : gset (str * str) := list_to_set (map cell_key gs).

(** [existing.extra.extend(gate.extra)] on the first cell of that name and result. *)
Definition extend_extra (g : GateHistoryRow) (more : Extra) : GateHistoryRow :=
  {| g_name := g_name g; g_result := g_result g; g_kind := g_kind g; g_exit_code := g_exit_code g;
     g_real_seconds := g_real_seconds g; g_source_node := g_source_node g;
     g_failure_origin := g_failure_origin g; g_failed_substeps := g_failed_substeps g;
     g_extra := more ∪ g_extra g |}.

Fixpoint extend_first (g : GateHistoryRow) (gs : list GateHistoryRow) : list GateHistoryRow :=
  match gs with
  | [] => []
  | x :: gs =>
      if bool_decide (normalize (g_name x) = normalize (g_name g) /\ g_result x = g_result g)
      then extend_extra x (g_extra g) :: gs
      else x :: extend_first g gs
  end.

(** A failing cell carries the lines of the log that explain it. *)
Definition with_excerpt (raw : str) (g : GateHistoryRow) : GateHistoryRow :=
  if gate_failed g then
    match scoped_error_excerpt raw g with
    | [] => g
    | excerpt => extend_extra g {[lit "error_excerpt" := JArray (map JString excerpt)]}
    end
  else g.

Fixpoint enrich_gates (raw : str) (seen : gset (str * str)) (acc new : list GateHistoryRow) :
    list GateHistoryRow :=
  match new with
  | [] => acc
  | g :: new =>
      let g := with_excerpt raw g in
      if decide (cell_key g ∈ seen) then enrich_gates raw seen (extend_first g acc) new
      else enrich_gates raw ({[cell_key g]} ∪ seen) (acc ++ [g]) new
  end.

Section Logs.
(** [std::fs::read_to_string] on a log; [None] is an error. *)
Context (read_log : str -> option str).

Definition enrich_row (row : HistoryRow) : HistoryRow :=
  match path ← log_file row; read_log path with
  | None => row
  | Some raw => set_gates row (enrich_gates raw (keys_of (gates row)) (gates row) (parse_log_observations raw))
  end.

Definition enrich_rows_from_logs (rows : list HistoryRow) : list HistoryRow := map enrich_row rows.

Definition error_excerpt (row : HistoryRow) (query : str) : list str :=
  let named := find (fun g => str_eqb (normalize (g_name g)) (normalize query)) (gates row) in
  match g ← named; v ← g_extra g !! lit "error_excerpt"; as_array v with
  | Some lines => omap as_str lines
  | None =>
      match path ← log_file row; read_log path with
      | None => []
      | Some raw => scoped_error_excerpt raw (default (observation query "fail" None) named)
      end
  end.

End Logs.

Record RetainedCellEvidence : Type := {
  rc_commit : str; rc_finished_at : option str; rc_gates : list GateHistoryRow }.

Record CellEvidenceCache : Type := { cc_schema_version : Z; cc_records : list RetainedCellEvidence }.

(** Collecting into a map: the last record of a key counts. *)
Definition retained (cache : CellEvidenceCache) (commit : str) (finished_at : option str) :
    option RetainedCellEvidence :=
  list.last (List.filter (fun r => bool_decide (rc_commit r = commit /\ rc_finished_at r = finished_at))
          (cc_records cache)).

Definition merge_row (cache : CellEvidenceCache) (row : HistoryRow) : HistoryRow :=
  match c ← commit row; retained cache c (finished_at row) with
  | None => row
  | Some record => set_gates row (push_new (keys_of (gates row)) (gates row) (rc_gates record))
  end.

Definition merge_retained_cell_evidence (rows : list HistoryRow) (cache : CellEvidenceCache) :
    list HistoryRow := map (merge_row cache) rows.

Definition retained_cell_evidence (rows : list HistoryRow) : CellEvidenceCache :=
  {| cc_schema_version := 2;
     cc_records :=
       omap (fun row => c ← commit row;
               Some {| rc_commit := c; rc_finished_at := finished_at row;
                       rc_gates := List.filter (fun g => is_some (g_source_node g)) (gates row) |}) rows |}.

(** ** Evidence of a row *)

Section Queries.
(** The predicate in force, and the verifier of cross-field evidence. *)
Context `{Verifier} (active : QualifyingPredicate).

(** [coverage]: the strength, whether it is satisfied, and the word for it. *)
Definition row_coverage (row : HistoryRow) : option CoverageStrength * option bool * str :=
  let schema := default 0 (schema_version row) in
  if negb (per_node (cov_clause active)) || (schema <? cov_applies_at_schema_min (cov_clause active))
  then (None, None, lit "grandfathered-unknown")
  else
    match coverage_verdict <$> coverage row with
    | Some Satisfied => (Some (scope_strength row), Some true, lit "satisfied")
    | Some Unsatisfied => (None, Some false, lit "unsatisfied")
    | Some (Unavailable _) | None => (None, None, lit "unavailable")
    end.

Definition evidence (sha : str) (row : HistoryRow) : ValidationEvidence :=
  let '(c, satisfied, status) := row_coverage row in
  {| e_sha := sha;
     e_finished_at := finished_at row;
     e_profile := default (lit "unknown") (profile row);
     e_selection_mode := default (lit "unknown") (selection_mode row);
     e_coverage := c;
     e_coverage_satisfied := satisfied;
     e_coverage_status := status;
     e_result := default (lit "unknown") (result_ row);
     e_log_file := log_file row |}.

(** [gate.result.or(gate.kind)] *)
Definition outcome_word (g : GateHistoryRow) : option str :=
  match g_result g with Some r => Some r | None => g_kind g end.

Definition gate_evidence (sha : str) (row : HistoryRow) (g : GateHistoryRow) : ValidationEvidence :=
  let value := evidence sha row in
  {| e_sha := e_sha value; e_finished_at := e_finished_at value; e_profile := e_profile value;
     e_selection_mode := e_selection_mode value; e_coverage := e_coverage value;
     e_coverage_satisfied := e_coverage_satisfied value;
     e_coverage_status := e_coverage_status value;
     e_result := default (lit "unknown") (outcome_word g);
     e_log_file := e_log_file value |}.

(** ** The engine *)

Record HistoryQueryEngine : Type := {
  commits : list str;
  rows_by_commit : gmap str (list HistoryRow)
}.

(** [entry(commit).or_default().push(row)] for the commits of the branch. *)
Definition index_row (main : gset str) (m : gmap str (list HistoryRow)) (row : HistoryRow) :
    gmap str (list HistoryRow) :=
  match commit row with
  | None => m
  | Some c => if decide (c ∈ main) then <[c := default [] (m !! c) ++ [row]]> m else m
  end.

Definition engine_new (cs : list str) (rows : list HistoryRow) : HistoryQueryEngine :=
  {| commits := cs; rows_by_commit := fold_left (index_row (list_to_set cs)) rows ∅ |}.

(** ** The newest green commit *)

Record NewestGreenReport : Type := {
  ng_schema_version : Z;
  ng_branch : str;
  ng_branch_ref : str;
  ng_branch_tip : str;
  ng_gate_schema : str;
  ng_gate_schema_floor : str;
  range_oldest_commit : str;
  branch_commits_in_range : nat;
  trustworthy_recorded_commits_in_range : nat;
  full_green_commits_in_range : nat;
  ng_green : ValidationEvidence;
  commits_after_green : nat;
  commits_without_any_record : nat;
  commits_with_records : nat
}.

Inductive NewestGreenOutcome : Type :=
| NewestFound (report : NewestGreenReport)
| FailedOnly (branch_tip : str) (recorded commits_in_range : nat)
| NoGreenEvidence (branch_tip : str) (commits_in_range recorded : nat).

(** The local variables of the scan. *)
Record green_scan : Type := {
  trustworthy_recorded : nat;
  failed_recorded : nat;
  full_green_commits : nat;
  newest_full_green : option (nat * str * HistoryRow)
}.

Definition scan_start : green_scan :=
  {| trustworthy_recorded := 0; failed_recorded := 0; full_green_commits := 0;
     newest_full_green := None |}.

Definition partial_pass (row : HistoryRow) : bool :=
  is_bool (commit_anchored row) true && is_bool (tree_dirty row) false && is_lit (result_ row) "pass".

(** One commit of the scan; [None] is the panic of [expect]. *)
Definition scan_commit (eng : HistoryQueryEngine) (index : nat) (sha : str) (s : green_scan) :
    option green_scan :=
  match rows_by_commit eng !! sha with
  | None => Some s
  | Some rows =>
      let assessment := assess active rows sha in
      match verdict assessment with
      | Validated =>
          found ← (match newest_full_green s with
                   | None => row ← newest (qualifying assessment); Some (index, sha, row)
                   | Some found => Some found
                   end);
          Some {| trustworthy_recorded := S (trustworthy_recorded s);
                  failed_recorded := failed_recorded s;
                  full_green_commits := S (full_green_commits s);
                  newest_full_green := Some found |}
      | FailedOnRecord =>
          Some {| trustworthy_recorded := S (trustworthy_recorded s);
                  failed_recorded := S (failed_recorded s);
                  full_green_commits := full_green_commits s;
                  newest_full_green := newest_full_green s |}
      | NotValidated =>
          Some {| trustworthy_recorded :=
                    (if existsb partial_pass rows then S else id) (trustworthy_recorded s);
                  failed_recorded := failed_recorded s;
                  full_green_commits := full_green_commits s;
                  newest_full_green := newest_full_green s |}
      | TruncatedV | NeedsRerunV | NoResultV => Some s
      end
  end.

Fixpoint scan_commits (eng : HistoryQueryEngine) (index : nat) (cs : list str) (s : green_scan) :
    option green_scan :=
  match cs with
  | [] => Some s
  | sha :: cs => s ← scan_commit eng index sha s; scan_commits eng (S index) cs s
  end.

Definition newest_green (eng : HistoryQueryEngine)
    (branch branch_ref gate_schema gate_schema_floor : str) : option NewestGreenOutcome :=
  let branch_tip := default [] (head (commits eng)) in
  s ← scan_commits eng 0 (commits eng) scan_start;
  Some match newest_full_green s with
       | Some (index, sha, row) =>
           let newer := take index (commits eng) in
           let missing :=
             length (List.filter (fun c => negb (is_some (rows_by_commit eng !! c))) newer) in
           NewestFound
             {| ng_schema_version := 4;
                ng_branch := branch;
                ng_branch_ref := branch_ref;
                ng_branch_tip := branch_tip;
                ng_gate_schema := gate_schema;
                ng_gate_schema_floor := gate_schema_floor;
                range_oldest_commit := default [] (list.last (commits eng));
                branch_commits_in_range := length (commits eng);
                trustworthy_recorded_commits_in_range := trustworthy_recorded s;
                full_green_commits_in_range := full_green_commits s;
                ng_green := evidence sha row;
                commits_after_green := length newer;
                commits_without_any_record := missing;
                commits_with_records := length newer - missing |}
       | None =>
           if (0 <? Z.of_nat (failed_recorded s))
           then FailedOnly branch_tip (trustworthy_recorded s) (length (commits eng))
           else NoGreenEvidence branch_tip (length (commits eng)) (trustworthy_recorded s)
       end.

(** ** Reports as JSON *)

Definition json_opt {A : Type} (f : A -> Value) (x : option A) : Value :=
  match x with Some v => f v | None => JNull end.
Definition json_nat (n : nat) : Value := JInteger (Z.of_nat n).

Definition evidence_json (e : ValidationEvidence) : Value := JObject [
  (lit "sha", JString (e_sha e));
  (lit "finished_at", json_opt JString (e_finished_at e));
  (lit "profile", JString (e_profile e));
  (lit "selection_mode", JString (e_selection_mode e));
  (lit "coverage", json_opt (fun c => JString (strength_as_str c)) (e_coverage e));
  (lit "coverage_satisfied", json_opt JBool (e_coverage_satisfied e));
  (lit "coverage_status", JString (e_coverage_status e));
  (lit "result", JString (e_result e));
  (lit "log_file", json_opt JString (e_log_file e))].

Definition report_json (r : NewestGreenReport) : Value := JObject [
  (lit "schema_version", JInteger (ng_schema_version r));
  (lit "branch", JString (ng_branch r));
  (lit "branch_ref", JString (ng_branch_ref r));
  (lit "branch_tip", JString (ng_branch_tip r));
  (lit "gate_schema", JString (ng_gate_schema r));
  (lit "gate_schema_floor", JString (ng_gate_schema_floor r));
  (lit "range_oldest_commit", JString (range_oldest_commit r));
  (lit "branch_commits_in_range", json_nat (branch_commits_in_range r));
  (lit "trustworthy_recorded_commits_in_range", json_nat (trustworthy_recorded_commits_in_range r));
  (lit "full_green_commits_in_range", json_nat (full_green_commits_in_range r));
  (lit "green", evidence_json (ng_green r));
  (lit "commits_after_green", json_nat (commits_after_green r));
  (lit "commits_without_any_record", json_nat (commits_without_any_record r));
  (lit "commits_with_records", json_nat (commits_with_records r))].

(** [print_newest_green] with [--json]: the value that is printed. *)
Definition print_newest_green (report : NewestGreenReport) (cache_hit : bool) : Value :=
  JObject [(lit "cache_hit", JBool cache_hit); (lit "report", report_json report)].

(** ** The first bad commit *)

Record Observation : Type := {
  o_index : nat;
  o_sha : str;
  o_gate : GateHistoryRow;
  o_row : HistoryRow
}.

Record FirstBadReport : Type := {
  fb_schema_version : Z;
  fb_branch : str;
  fb_branch_ref : str;
  fb_query : str;
  fb_matched_name : str;
  fb_first_bad : ValidationEvidence;
  fb_last_good : ValidationEvidence;
  commits_between : nat;
  commits_without_cell_record : nat;
  first_bad_commit_has_mixed_outcomes : bool;
  files_touched : list str;
  plausibility : str;
  fb_source_node : option str;
  fb_error_excerpt : list str;
  fb_load_context : option str
}.

Inductive FirstBadOutcome : Type :=
| BadFound (report : FirstBadReport)
| FailureWithoutKnownGood (query matched_name : str) (failure : ValidationEvidence)
| NoBadEvidence (query : str) (available_names : list str)
| NoTransition (query matched_name : str) (observations : nat).

Definition clean_row (row : HistoryRow) : bool :=
  is_bool (commit_anchored row) true && is_bool (tree_dirty row) false.

Definition named (normalized : str) (g : GateHistoryRow) : bool :=
  str_eqb (normalize (g_name g)) normalized.

(** The clean rows of the branch with their position and commit, newest commit first. *)
Fixpoint clean_rows (eng : HistoryQueryEngine) (index : nat) (cs : list str) :
    list (nat * str * HistoryRow) :=
  match cs with
  | [] => []
  | sha :: cs =>
      map (fun row => (index, sha, row))
        (List.filter clean_row (default [] (rows_by_commit eng !! sha))) ++
      clean_rows eng (S index) cs
  end.

Definition observe (normalized : str) (r : nat * str * HistoryRow) : option Observation :=
  let '(index, sha, row) := r in
  g ← find (named normalized) (gates row);
  Some {| o_index := index; o_sha := sha; o_gate := g; o_row := row |}.

(** [BTreeSet::insert] *)
Fixpoint btree_insert (x : str) (l : list str) : list str :=
  match l with
  | [] => [x]
  | y :: l' => if str_eqb x y then l else if str_leb x y then x :: l else y :: btree_insert x l'
  end.

Definition suggestions (normalized : str) (rs : list (nat * str * HistoryRow)) : list str :=
  let available := foldr btree_insert [] (map g_name (concat (map (fun r => gates r.2) rs))) in
  take 12 (List.filter (fun name => let candidate := normalize name in
                          contains normalized candidate || contains candidate normalized) available).

(** The order of [sort_by]: older commits first, then by the end of the run. *)
Definition before (a b : Observation) : bool :=
  (Z.of_nat (o_index b) <? Z.of_nat (o_index a)) ||
  ((Z.of_nat (o_index a) =? Z.of_nat (o_index b)) &&
   str_leb (finished (o_row a)) (finished (o_row b))).

(** [sort_by] is stable: the sort by insertion. *)
Fixpoint insert_sorted (a : Observation) (l : list Observation) : list Observation :=
  match l with
  | [] => [a]
  | b :: l' => if before a b then a :: l else b :: insert_sorted a l'
  end.

Definition sort_observations (l : list Observation) : list Observation := foldr insert_sorted [] l.

(** The local variables of the loop over the observations. *)
Record epochs : Type := {
  latest_transition : option (Observation * Observation);
  open_failure_epoch : option (Observation * Observation);
  last_good : option Observation
}.

Definition no_epochs : epochs :=
  {| latest_transition := None; open_failure_epoch := None; last_good := None |}.

Definition epoch_step (e : epochs) (o : Observation) : epochs :=
  if gate_passed (o_gate o) then
    {| latest_transition :=
         match open_failure_epoch e with Some epoch => Some epoch | None => latest_transition e end;
       open_failure_epoch := None;
       last_good := Some o |}
  else if gate_failed (o_gate o) && negb (is_some (open_failure_epoch e)) then
    match last_good e with
    | Some good =>
        {| latest_transition := latest_transition e; open_failure_epoch := Some (good, o);
           last_good := last_good e |}
    | None => e
    end
  else e.

Definition transition (l : list Observation) : option (Observation * Observation) :=
  let e := fold_left epoch_step l no_epochs in
  match open_failure_epoch e with Some epoch => Some epoch | None => latest_transition e end.

(** [std::fs::read_to_string] on a log, [Value::to_string], and [format!("{:.1}")] of the
    [f64] quotient of the CPU seconds (user and system) by the wall seconds. *)
Context (read_log : str -> option str) (json_text : Value -> str) (cpu_over_wall : Q -> Q -> Q -> str).

Definition load_context (row : HistoryRow) : option str :=
  match json_text <$> extra row !! lit "load_context" with
  | Some text => Some text
  | None =>
      user ← user_seconds row;
      sys ← sys_seconds row;
      wall ← real_seconds row;
      if positive wall then
        Some (lit "run CPU/wall=" ++ cpu_over_wall user sys wall ++
              lit "; host-load-at-run-time not retained")
      else None
  end.

Definition first_bad (eng : HistoryQueryEngine) (query branch branch_ref : str) : FirstBadOutcome :=
  let normalized := normalize query in
  let rs := clean_rows eng 0 (commits eng) in
  match sort_observations (omap (observe normalized) rs) with
  | [] => NoBadEvidence query (suggestions normalized rs)
  | (first :: _) as observations =>
      match transition observations with
      | Some (good, bad) =>
          let lower := Nat.min (o_index bad) (o_index good) in
          let upper := Nat.max (o_index bad) (o_index good) in
          let seen i := existsb (fun o => Nat.eqb (o_index o) i) observations in
          let bad_results :=
            omap (fun o => outcome_word (o_gate o))
              (List.filter (fun o => Nat.eqb (o_index o) (o_index bad)) observations) in
          let has w := existsb (str_eqb w) bad_results in
          BadFound
            {| fb_schema_version := 1;
               fb_branch := branch;
               fb_branch_ref := branch_ref;
               fb_query := query;
               fb_matched_name := g_name (o_gate bad);
               fb_first_bad := gate_evidence (o_sha bad) (o_row bad) (o_gate bad);
               fb_last_good := gate_evidence (o_sha good) (o_row good) (o_gate good);
               commits_between := upper - (lower + 1);
               commits_without_cell_record :=
                 length (List.filter (fun i => negb (seen i)) (seq (lower + 1) (upper - (lower + 1))));
               first_bad_commit_has_mixed_outcomes := has "pass" && (has "fail" || has "timeout");
               files_touched := [];
               plausibility := "not-assessed";
               fb_source_node := g_source_node (o_gate bad);
               fb_error_excerpt := error_excerpt read_log (o_row bad) (g_name (o_gate bad));
               fb_load_context := load_context (o_row bad) |}
      | None =>
          match find (fun o => gate_failed (o_gate o)) (rev observations) with
          | Some o =>
              FailureWithoutKnownGood query (g_name (o_gate first))
                (gate_evidence (o_sha o) (o_row o) (o_gate o))
          | None => NoTransition query (g_name (o_gate first)) (length observations)
          end
      end
  end.

(** ** The cache of the newest green commit *)

Record NewestGreenCache : Type := {
  nc_schema_version : Z;
  nc_branch : str;
  nc_branch_ref : str;
  nc_branch_tip : str;
  nc_gate_schema_floor : str;
  nc_ledger_path : str;
  nc_ledger_len : Z;
  nc_ledger_modified_ns : Z;
  nc_report : NewestGreenReport
}.

Definition cache_matches (c : NewestGreenCache) (branch branch_ref branch_tip gate_schema_floor : str)
    (ledger_path : str) (ledger_len ledger_modified_ns : Z) : bool :=
  (nc_schema_version c =? 5) &&
  str_eqb (nc_branch c) branch &&
  str_eqb (nc_branch_ref c) branch_ref &&
  str_eqb (nc_branch_tip c) branch_tip &&
  str_eqb (nc_gate_schema_floor c) gate_schema_floor &&
  str_eqb (nc_ledger_path c) ledger_path &&
  (nc_ledger_len c =? ledger_len) &&
  (nc_ledger_modified_ns c =? ledger_modified_ns).

End Queries.
