(* ===== verification/HistoryCorrect.v ===== *)
(** The queries answer over the whole ledger: the newest green commit is the first of the
    branch that the ledger validates, and the first bad commit is the newest change of a
    test from pass to fail. *)

From Stdlib Require Import QArith_base.
From stdpp Require Import gmap sorting.
From S2P Require Import Prelude Text Ledger LedgerCorrect ValidateStatus ValidateStatusCorrect History.

#[local] Open Scope Z_scope.
#[local] Arguments assess : simpl never.

(** ** The index *)

(** The rows of a commit, in the order of the ledger. *)
Definition rows_of (rows : list HistoryRow) (c : str) : list HistoryRow :=
  List.filter (fun r => is_lit (commit r) c) rows.

Lemma rows_of_cons r rows c :
  rows_of (r :: rows) c = if is_lit (commit r) c then r :: rows_of rows c else rows_of rows c.
Proof. done. Qed.

Lemma index_lookup main rows m c :
  fold_left (index_row main) rows m !! c =
  if decide (c ∈ main) then
    match rows_of rows c with [] => m !! c | l => Some (default [] (m !! c) ++ l) end
  else m !! c.
Proof.
  revert m. induction rows as [|r rows IH]; intros m; cbn [fold_left]; [by case_decide|].
  rewrite IH, rows_of_cons. unfold index_row, is_lit. destruct (commit r) as [c'|]; [|done].
  destruct (decide (c' = c)) as [->|Hne].
  - rewrite str_eqb_refl. repeat case_decide; try done.
    rewrite lookup_insert_eq. cbn. destruct (rows_of rows c); cbn; [done|]. by rewrite <- app_assoc.
  - destruct (str_eqb_spec c' c) as [He|_]; [done|].
    repeat case_decide; rewrite ?lookup_insert_ne by done; done.
Qed.

Lemma engine_lookup cs rows c : c ∈ cs ->
  rows_by_commit (engine_new cs rows) !! c = match rows_of rows c with [] => None | l => Some l end.
Proof.
  intros Hc. unfold engine_new. cbn. rewrite index_lookup, decide_True by set_solver.
  rewrite lookup_empty. by destruct (rows_of rows c).
Qed.

Lemma rows_of_nil rows c : rows_of rows c = [] <-> forall r, r ∈ rows -> commit r <> Some c.
Proof.
  unfold rows_of. split.
  - intros He r Hr Hc. apply is_lit_iff in Hc.
    assert (Hin : r ∈ List.filter (fun r => is_lit (commit r) c) rows).
    { apply list_elem_of_In, filter_In. by rewrite <- list_elem_of_In. }
    rewrite He in Hin. by apply not_elem_of_nil in Hin.
  - intros Hn. destruct (List.filter _ rows) as [|r l] eqn:He; [done|].
    assert (Hin : r ∈ List.filter (fun r => is_lit (commit r) c) rows) by (rewrite He; left).
    apply list_elem_of_In, filter_In in Hin as [Hin Hc].
    destruct (Hn r); [by apply list_elem_of_In | by apply is_lit_iff].
Qed.

Section Green.
Context `{Verifier} (active : QualifyingPredicate).

(** Rows of other commits do not matter to an assessment. *)
Lemma tally_rows_of sha rows t :
  fold_left (tally_row active sha) (rows_of rows sha) t = fold_left (tally_row active sha) rows t.
Proof.
  revert t. induction rows as [|r rows IH]; intros t; cbn; [done|].
  destruct (is_lit (commit r) sha) eqn:Hc; cbn; rewrite IH; [done|].
  unfold tally_row at 3. by rewrite Hc.
Qed.

Lemma assess_rows_of sha rows : assess active (rows_of rows sha) sha = assess active rows sha.
Proof. unfold assess. by rewrite tally_rows_of. Qed.

(** ** The scan *)

Definition is_verdict (rows : list HistoryRow) (v : Verdict) (c : str) : bool :=
  bool_decide (verdict (assess active rows c) = v).

(** A commit with evidence of its state: validated, condemned, or passed in part. *)
Definition trustworthy (rows : list HistoryRow) (c : str) : bool :=
  match verdict (assess active rows c) with
  | Validated | FailedOnRecord => true
  | NotValidated => existsb partial_pass (rows_of rows c)
  | _ => false
  end.

Definition count_of (f : str -> bool) (cs : list str) : nat := length (List.filter f cs).

(** The first commit that the ledger validates, with its newest qualifying row. *)
Fixpoint first_green (rows : list HistoryRow) (index : nat) (cs : list str) :
    option (nat * str * HistoryRow) :=
  match cs with
  | [] => None
  | c :: cs =>
      if is_verdict rows Validated c
      then (fun row => (index, c, row)) <$> newest (qualifying (assess active rows c))
      else first_green rows (S index) cs
  end.

Lemma validated_qualifying rows c :
  verdict (assess active rows c) = Validated -> qualifying (assess active rows c) <> [].
Proof. unfold assess. cbn. destruct (t_qualifying _); [|done]. by repeat case_match. Qed.

Lemma validated_newest rows c : verdict (assess active rows c) = Validated ->
  is_Some (newest (qualifying (assess active rows c))).
Proof. intros Hv. by apply newest_some, validated_qualifying. Qed.

Lemma assess_nil c : verdict (assess active [] c) = NotValidated.
Proof. done. Qed.

(** One commit of the scan, over the whole ledger. *)
Lemma scan_commit_spec all rows index c s : c ∈ all ->
  scan_commit active (engine_new all rows) index c s =
  Some {| trustworthy_recorded := (if trustworthy rows c then 1 else 0) + trustworthy_recorded s;
          failed_recorded := (if is_verdict rows FailedOnRecord c then 1 else 0) + failed_recorded s;
          full_green_commits := (if is_verdict rows Validated c then 1 else 0) + full_green_commits s;
          newest_full_green :=
            match newest_full_green s with
            | Some found => Some found
            | None =>
                if is_verdict rows Validated c
                then (fun row => (index, c, row)) <$> newest (qualifying (assess active rows c))
                else None
            end |}.
Proof.
  intros Hc. unfold scan_commit, trustworthy, is_verdict. rewrite engine_lookup by done.
  rewrite <- (assess_rows_of c rows).
  destruct (rows_of rows c) as [|r l] eqn:Hr.
  { rewrite assess_nil. cbn. destruct s as [? ? ? [?|]]; done. }
  rewrite <- Hr.
  destruct (verdict (assess active (rows_of rows c) c)) eqn:Hv;
    try (destruct s as [? ? ? [?|]]; cbn; by repeat case_match).
  apply validated_newest in Hv as [row Hrow].
  rewrite Hrow. by destruct (newest_full_green s).
Qed.

Lemma scan_commits_spec all rows cs index s : (forall c, c ∈ cs -> c ∈ all) ->
  scan_commits active (engine_new all rows) index cs s =
  Some {| trustworthy_recorded := count_of (trustworthy rows) cs + trustworthy_recorded s;
          failed_recorded := count_of (is_verdict rows FailedOnRecord) cs + failed_recorded s;
          full_green_commits := count_of (is_verdict rows Validated) cs + full_green_commits s;
          newest_full_green :=
            match newest_full_green s with
            | Some found => Some found
            | None => first_green rows index cs
            end |}.
Proof.
  revert index s. induction cs as [|c cs IH]; intros index s Hall; cbn [scan_commits first_green].
  { destruct s as [? ? ? [?|]]; done. }
  rewrite scan_commit_spec by (apply Hall; left). cbn [mbind option_bind].
  rewrite IH by (intros c' Hc'; apply Hall; by right).
  cbn [newest_full_green trustworthy_recorded failed_recorded full_green_commits].
  unfold count_of. cbn [List.filter]. f_equal. f_equal.
  - destruct (trustworthy rows c); cbn; lia.
  - destruct (is_verdict rows FailedOnRecord c); cbn; lia.
  - destruct (is_verdict rows Validated c); cbn; lia.
  - destruct (newest_full_green s); [done|].
    destruct (is_verdict rows Validated c) eqn:Hv; [|done].
    apply bool_decide_eq_true, validated_newest in Hv as [row ->]. done.
Qed.

Lemma first_green_none rows index cs :
  first_green rows index cs = None <-> forall c, c ∈ cs -> verdict (assess active rows c) <> Validated.
Proof.
  revert index. induction cs as [|c cs IH]; intros index; cbn; [set_solver|].
  unfold is_verdict. case_bool_decide as Hv.
  - pose proof (validated_newest _ _ Hv) as [row ->]. cbn. split; [done|]. set_solver.
  - rewrite IH. set_solver.
Qed.

Lemma first_green_some rows index cs i c row : first_green rows index cs = Some (i, c, row) ->
  exists newer older, cs = newer ++ c :: older /\ i = (index + length newer)%nat /\
    verdict (assess active rows c) = Validated /\
    (forall c', c' ∈ newer -> verdict (assess active rows c') <> Validated) /\
    newest (qualifying (assess active rows c)) = Some row.
Proof.
  revert index. induction cs as [|c' cs IH]; intros index; cbn; [done|].
  unfold is_verdict. case_bool_decide as Hv.
  - destruct (newest (qualifying (assess active rows c'))) as [row'|] eqn:Hr; [|done].
    intros [= <- <- <-]. exists [], cs. cbn. split_and!; first [done | lia | set_solver].
  - intros Hf. apply IH in Hf as (newer & older & -> & -> & Hval & Hn & Hrow).
    exists (c' :: newer), older. cbn. split_and!; first [done | lia | set_solver].
Qed.

Lemma qualifying_iff rows c r : r ∈ qualifying (assess active rows c) <->
  r ∈ rows /\ commit r = Some c /\ row_qualifies r c active = true.
Proof.
  rewrite assess_spec. cbn. rewrite list_elem_of_In, filter_In, <- list_elem_of_In.
  by rewrite green_iff.
Qed.

Lemma filter_le {A : Type} (f : A -> bool) l : (length (List.filter f l) <= length l)%nat.
Proof. induction l as [|x l IH]; cbn; [done|]. destruct (f x); cbn; lia. Qed.

(** The commits of a list of which the ledger has no row. *)
Definition unrecorded (rows : list HistoryRow) (c : str) : bool :=
  match rows_of rows c with [] => true | _ => false end.

Lemma missing_unrecorded cs rows newer : (forall c, c ∈ newer -> c ∈ cs) ->
  List.filter (fun c => negb (is_some (rows_by_commit (engine_new cs rows) !! c))) newer =
  List.filter (unrecorded rows) newer.
Proof.
  intros Hin. apply filter_ext_in. intros c Hc%list_elem_of_In.
  rewrite engine_lookup by auto. unfold unrecorded. by destruct (rows_of rows c).
Qed.

(** What an answer means, in terms of the whole ledger. *)
Definition answers (cs : list str) (rows : list HistoryRow) (out : NewestGreenOutcome) : Prop :=
  match out with
  | NewestFound report =>
      exists newer sha older row,
        cs = newer ++ sha :: older /\
        verdict (assess active rows sha) = Validated /\
        (forall c, c ∈ newer -> verdict (assess active rows c) <> Validated) /\
        row ∈ rows /\ commit row = Some sha /\ row_qualifies row sha active = true /\
        (forall r, r ∈ rows -> commit r = Some sha -> row_qualifies r sha active = true ->
           str_leb (finished r) (finished row) = true) /\
        ng_green report = evidence active sha row /\
        commits_after_green report = length newer /\
        commits_without_any_record report = count_of (unrecorded rows) newer /\
        (commits_with_records report + commits_without_any_record report)%nat = length newer /\
        full_green_commits_in_range report = count_of (is_verdict rows Validated) cs /\
        trustworthy_recorded_commits_in_range report = count_of (trustworthy rows) cs
  | FailedOnly _ recorded total =>
      (forall c, c ∈ cs -> verdict (assess active rows c) <> Validated) /\
      (exists c, c ∈ cs /\ verdict (assess active rows c) = FailedOnRecord) /\
      recorded = count_of (trustworthy rows) cs /\ total = length cs
  | NoGreenEvidence _ total recorded =>
      (forall c, c ∈ cs -> verdict (assess active rows c) <> Validated /\
                           verdict (assess active rows c) <> FailedOnRecord) /\
      recorded = count_of (trustworthy rows) cs /\ total = length cs
  end.

Lemma newest_green_spec cs rows branch branch_ref gate_schema floor :
  exists out, newest_green active (engine_new cs rows) branch branch_ref gate_schema floor = Some out /\
    answers cs rows out.
Proof.
  unfold newest_green. change (commits (engine_new cs rows)) with cs.
  rewrite scan_commits_spec by done. cbn [mbind option_bind newest_full_green scan_start].
  eexists. split; [reflexivity|]. unfold answers.
  destruct (first_green rows 0 cs) as [[[i sha] row]|] eqn:Hf.
  - apply first_green_some in Hf as (newer & older & Hcs & -> & Hv & Hn & Hrow).
    apply newest_spec in Hrow as [Hin Hmax]. apply qualifying_iff in Hin as (Hin & Hc & Hq).
    exists newer, sha, older, row. cbn -[engine_new].
    assert (Htake : take (length newer) cs = newer) by (by rewrite Hcs, take_app_length).
    rewrite Htake, missing_unrecorded by (subst cs; set_solver).
    pose proof (filter_le (unrecorded rows) newer). rewrite !Nat.add_0_r. unfold count_of.
    split_and!; try done; [|lia].
    intros r Hr Hrc Hrq. apply Hmax, qualifying_iff. done.
  - pose proof (proj1 (first_green_none _ _ _) Hf) as Hnone. cbn. rewrite !Nat.add_0_r.
    unfold count_of at 1.
    destruct (List.filter (is_verdict rows FailedOnRecord) cs) as [|c l] eqn:Hfail; cbn.
    + split_and!; try done. intros c Hc. split; [by apply Hnone|]. intros Hbad.
      enough (Hx : c ∈ List.filter (is_verdict rows FailedOnRecord) cs)
        by (rewrite Hfail in Hx; by apply not_elem_of_nil in Hx).
      apply list_elem_of_In, filter_In. split; [by apply list_elem_of_In | by apply bool_decide_eq_true].
    + split_and!; try done. exists c.
      assert (Hx : c ∈ List.filter (is_verdict rows FailedOnRecord) cs) by (rewrite Hfail; left).
      apply list_elem_of_In, filter_In in Hx as [Hx Hb]. apply bool_decide_eq_true in Hb.
      split; [by apply list_elem_of_In | done].
Qed.

(** C27.  [newest_green] always answers, and answers for the whole ledger, not only for
    the rows it has indexed.  A report names the first commit of the branch, newest
    first, that the ledger validates, with the newest of its qualifying rows as the
    evidence; it counts the commits after it, those of them without any row, and the
    validated and the trustworthy commits of the branch.  [FailedOnly] is the answer
    when no commit is validated and one is condemned, and no evidence when none is
    either. *)
Theorem newest_green_exact cs rows branch branch_ref gate_schema floor :
  exists out, newest_green active (engine_new cs rows) branch branch_ref gate_schema floor = Some out /\
    answers cs rows out.
Proof. apply newest_green_spec. Qed.

End Green.

(** ** Chronology *)

Definition passed (o : Observation) : bool := gate_passed (o_gate o).
Definition red (o : Observation) : bool := gate_failed (o_gate o) && negb (gate_passed (o_gate o)).

Lemma before_total a b : before a b = true \/ before b a = true.
Proof.
  unfold before. destruct (str_leb_total (finished (o_row a)) (finished (o_row b))) as [-> | ->];
    rewrite !andb_true_r; lia.
Qed.

Lemma before_trans a b c : before a b = true -> before b c = true -> before a c = true.
Proof.
  unfold before. intros Hab Hbc.
  apply orb_true_iff in Hab as [Hab|[Hab Hf]%andb_true_iff], Hbc as [Hbc|[Hbc Hg]%andb_true_iff];
    try (apply orb_true_iff; left; lia).
  apply orb_true_iff. right. apply andb_true_iff. split; [lia|]. by eapply str_leb_trans.
Qed.

Lemma before_index a b : before a b = true -> (o_index b <= o_index a)%nat.
Proof. unfold before. intros [|[? _]%andb_true_iff]%orb_true_iff; lia. Qed.

Lemma insert_sorted_perm a l : insert_sorted a l ≡ₚ a :: l.
Proof.
  induction l as [|b l IH]; cbn; [done|]. destruct (before a b); [done|].
  rewrite IH. apply Permutation_swap.
Qed.

Lemma sort_perm l : sort_observations l ≡ₚ l.
Proof. induction l as [|a l IH]; cbn; [done|]. by rewrite insert_sorted_perm, IH. Qed.

Abbreviation ordered := (StronglySorted (fun a b => before a b = true)).

Lemma insert_sorted_ordered a l : ordered l -> ordered (insert_sorted a l).
Proof.
  induction 1 as [|b l Hl IH Hb]; cbn; [by repeat constructor|].
  destruct (before a b) eqn:Hab.
  - constructor; [by constructor|]. constructor; [done|].
    eapply list.Forall_impl; [exact Hb|]. intros c Hc. by eapply before_trans.
  - constructor; [done|]. rewrite insert_sorted_perm. constructor; [|done].
    by destruct (before_total a b); [congruence|].
Qed.

Lemma sort_ordered l : ordered (sort_observations l).
Proof. induction l; cbn; [constructor | by apply insert_sorted_ordered]. Qed.

(** Observations of one commit with one end of run. *)
Definition same_time (a b : Observation) : bool := before a b && before b a.

Lemma insert_sorted_stable k a l :
  List.filter (same_time k) (insert_sorted a l) = List.filter (same_time k) (a :: l).
Proof.
  induction l as [|b l IH]; cbn [insert_sorted]; [done|]. destruct (before a b) eqn:Hab; [done|].
  cbn. rewrite IH. cbn.
  destruct (same_time k a) eqn:Ha, (same_time k b) eqn:Hb; try done.
  apply andb_true_iff in Ha as [_ Ha], Hb as [Hb _].
  rewrite (before_trans a k b) in Hab by done. done.
Qed.

Lemma sort_stable k l :
  List.filter (same_time k) (sort_observations l) = List.filter (same_time k) l.
Proof.
  induction l as [|a l IH]; [done|]. cbn [sort_observations foldr].
  rewrite insert_sorted_stable. cbn. by rewrite <- IH.
Qed.

(** ** The newest transition *)

(** No test goes from pass to fail. *)
Definition settled (l : list Observation) : Prop :=
  forall l1 p l2 x, l = l1 ++ p :: l2 -> passed p = true -> x ∈ l2 -> red x = false.

(** The last change from pass to fail: nothing between them passed or failed, and none follows. *)
Definition newest_transition (l : list Observation) (good bad : Observation) : Prop :=
  exists l1 m rest, l = l1 ++ good :: m ++ bad :: rest /\ passed good = true /\ red bad = true /\
    Forall (fun o => passed o = false /\ red o = false) m /\ settled rest.

Lemma settled_no_pass l : Forall (fun o => passed o = false) l -> settled l.
Proof.
  intros Hl l1 p l2 x -> Hp _. apply Forall_app in Hl as [_ Hl]. apply list.Forall_cons in Hl as [Hl _].
  congruence.
Qed.

Lemma settled_snoc l x : settled l -> (red x = true -> Forall (fun o => passed o = false) l) ->
  settled (l ++ [x]).
Proof.
  intros Hl Hx l1 p l2 y He Hp Hy. destruct l2 as [|z l2' _] using rev_ind; [by apply not_elem_of_nil in Hy|].
  rewrite app_comm_cons, app_assoc in He. apply app_inj_tail in He as [He <-].
  apply elem_of_app in Hy as [Hy|Hy%list_elem_of_singleton]; [by eapply Hl|]. subst y.
  destruct (red x) eqn:Hr; [|done]. specialize (Hx eq_refl). rewrite He in Hx.
  apply Forall_app in Hx as [_ Hx]. apply list.Forall_cons in Hx as [Hx _]. congruence.
Qed.

(** What the loop knows: whether a failure is open, and the best answer so far. *)
Definition epochs_of (l : list Observation) (e : epochs) : Prop :=
  match last_good e, open_failure_epoch e with
  | None, None => latest_transition e = None /\ Forall (fun o => passed o = false) l
  | None, Some _ => False
  | Some good, None =>
      (exists l1 m, l = l1 ++ good :: m /\ passed good = true /\
         Forall (fun o => passed o = false /\ red o = false) m) /\
      match latest_transition e with
      | None => settled l
      | Some (g, b) => newest_transition l g b
      end
  | Some _, Some (g, b) =>
      exists l1 m rest, l = l1 ++ g :: m ++ b :: rest /\ passed g = true /\ red b = true /\
        Forall (fun o => passed o = false /\ red o = false) m /\
        Forall (fun o => passed o = false) rest
  end.

Lemma newest_transition_snoc l x g b : newest_transition l g b -> red x = false ->
  newest_transition (l ++ [x]) g b.
Proof.
  intros (l1 & m & rest & -> & Hg & Hb & Hm & Hs) Hx. exists l1, m, (rest ++ [x]).
  split_and!; try done; [by simplify_list_eq|]. apply settled_snoc; [done | congruence].
Qed.

Lemma epoch_passed l e o : epochs_of l e -> passed o = true -> epochs_of (l ++ [o]) (epoch_step e o).
Proof.
  intros He Hp. assert (Hr : red o = false) by (unfold red; unfold passed in Hp; by rewrite Hp, andb_false_r).
  unfold epoch_step. unfold passed in Hp. rewrite Hp. unfold epochs_of. cbn.
  split; [by exists l, []|]. unfold epochs_of in He.
  destruct (last_good e) as [good|], (open_failure_epoch e) as [[g b]|]; try done.
  - destruct He as (l1 & m & rest & -> & Hg & Hb & Hm & Hs). exists l1, m, (rest ++ [o]).
    split_and!; try done; [by simplify_list_eq|]. apply settled_snoc; [by apply settled_no_pass | congruence].
  - destruct He as [_ He]. destruct (latest_transition e) as [[g b]|].
    + by apply newest_transition_snoc.
    + apply settled_snoc; [done | congruence].
  - destruct He as [-> He]. apply settled_snoc; [by apply settled_no_pass | congruence].
Qed.

Lemma epoch_red l e o : epochs_of l e -> red o = true -> epochs_of (l ++ [o]) (epoch_step e o).
Proof.
  intros He Hr. pose proof Hr as Hr'. unfold red in Hr'.
  apply andb_true_iff in Hr' as [Hf Hp%negb_true_iff].
  unfold epoch_step. rewrite Hp, Hf. unfold epochs_of in *.
  destruct (last_good e) as [good|] eqn:Hg, (open_failure_epoch e) as [[g b]|] eqn:Ho; cbn; try done.
  - rewrite Hg, Ho. destruct He as (l1 & m & rest & -> & He). exists l1, m, (rest ++ [o]).
    split; [by simplify_list_eq|]. rewrite Forall_app. naive_solver.
  - destruct He as [(l1 & m & -> & He) _]. exists l1, m, []. split; [by simplify_list_eq|]. naive_solver.
  - rewrite Hg, Ho. destruct He as [-> He]. split; [done|]. rewrite Forall_app. auto.
Qed.

Lemma epoch_neutral l e o : epochs_of l e -> passed o = false -> red o = false ->
  epochs_of (l ++ [o]) (epoch_step e o).
Proof.
  intros He Hp Hr. pose proof Hr as Hr'. unfold red, passed in *. rewrite Hp, andb_true_r in Hr'.
  unfold epoch_step. rewrite Hp, Hr'. cbn. unfold epochs_of in *.
  destruct (last_good e) as [good|], (open_failure_epoch e) as [[g b]|]; try done.
  - destruct He as (l1 & m & rest & -> & He). exists l1, m, (rest ++ [o]).
    split; [by simplify_list_eq|]. rewrite Forall_app. naive_solver.
  - destruct He as [(l1 & m & Hl & Hg & Hm) He]. split.
    + exists l1, (m ++ [o]). rewrite Hl. split; [by simplify_list_eq|]. rewrite Forall_app. naive_solver.
    + destruct (latest_transition e) as [[g b]|]; [by apply newest_transition_snoc|].
      apply settled_snoc; [done|]. unfold red. by rewrite Hr.
  - destruct He as [He1 He]. split; [done|]. rewrite Forall_app. auto.
Qed.

Lemma epochs_all l : epochs_of l (fold_left epoch_step l no_epochs).
Proof.
  induction l as [|o l IH] using rev_ind; [done|]. rewrite fold_left_app. cbn.
  destruct (passed o) eqn:Hp; [by apply epoch_passed|].
  destruct (red o) eqn:Hr; [by apply epoch_red | by apply epoch_neutral].
Qed.

Lemma newest_transition_spec l :
  match transition l with
  | Some (good, bad) => newest_transition l good bad
  | None => settled l
  end.
Proof.
  unfold transition. pose proof (epochs_all l) as He. unfold epochs_of in He.
  destruct (last_good _) as [good|], (open_failure_epoch _) as [[g b]|]; try done.
  - destruct He as (l1 & m & rest & Hl & Hg & Hb & Hm & Hs). exists l1, m, rest.
    split_and!; try done. by apply settled_no_pass.
  - by destruct He.
  - destruct He as [-> He]. by apply settled_no_pass.
Qed.

(** ** The observations *)

(** A cell of that name, in a clean row of a commit of the branch. *)
Definition observed (cs : list str) (rows : list HistoryRow) (query : str) (o : Observation) : Prop :=
  cs !! o_index o = Some (o_sha o) /\ o_row o ∈ rows /\ commit (o_row o) = Some (o_sha o) /\
  clean_row (o_row o) = true /\ find (named (normalize query)) (gates (o_row o)) = Some (o_gate o).

Definition chronology (eng : HistoryQueryEngine) (query : str) : list Observation :=
  sort_observations (omap (observe (normalize query)) (clean_rows eng 0 (commits eng))).

Lemma rows_of_elem rows c r : r ∈ rows_of rows c <-> r ∈ rows /\ commit r = Some c.
Proof.
  unfold rows_of. rewrite list_elem_of_In, filter_In, <- list_elem_of_In. by rewrite is_lit_iff.
Qed.

Lemma engine_rows cs rows c : c ∈ cs ->
  default [] (rows_by_commit (engine_new cs rows) !! c) = rows_of rows c.
Proof. intros Hc. rewrite engine_lookup by done. by destruct (rows_of rows c). Qed.

Lemma clean_rows_elem all rows cs index i sha row : (forall c, c ∈ cs -> c ∈ all) ->
  (i, sha, row) ∈ clean_rows (engine_new all rows) index cs <->
  exists j, i = (index + j)%nat /\ cs !! j = Some sha /\ row ∈ rows /\ commit row = Some sha /\
    clean_row row = true.
Proof.
  revert index. induction cs as [|c cs IH]; intros index Hall; cbn [clean_rows].
  { rewrite elem_of_nil. split; [done|]. intros (j & _ & Hj & _). done. }
  rewrite elem_of_app, engine_rows by (apply Hall; left).
  rewrite IH by (intros c' Hc'; apply Hall; by right). rewrite list_elem_of_In, in_map_iff. split.
  - intros [(row' & [= <- <- <-] & Hin)|(j & -> & Hj)].
    + apply filter_In in Hin as [Hin Hcl]. apply list_elem_of_In, rows_of_elem in Hin as [Hin Hc].
      exists 0%nat. split_and!; first [done | lia].
    + exists (S j). cbn. split; [lia | done].
  - intros ([|j] & -> & Hj & Hrow & Hc & Hcl); cbn in Hj.
    + injection Hj as ->. left. exists row. rewrite Nat.add_0_r. split; [done|].
      apply filter_In. split; [|done]. by apply list_elem_of_In, rows_of_elem.
    + right. exists j. split; [lia | done].
Qed.

Lemma chronology_elem cs rows query o :
  o ∈ chronology (engine_new cs rows) query <-> observed cs rows query o.
Proof.
  unfold chronology. rewrite sort_perm, list_elem_of_omap. unfold observed. split.
  - intros ([[i sha] row] & Hin & Ho). apply clean_rows_elem in Hin as (j & -> & Hj & Hin); [|done].
    cbn in Ho. destruct (find _ (gates row)) as [g|] eqn:Hg; [|done]. injection Ho as <-. cbn. naive_solver.
  - intros (Hi & Hrow & Hc & Hcl & Hg). exists (o_index o, o_sha o, o_row o). split.
    + apply clean_rows_elem; [done|]. by exists (o_index o).
    + cbn. rewrite Hg. by destruct o.
Qed.

(** Later in the chronology is newer on the branch. *)
Lemma transition_index l good bad : ordered l -> newest_transition l good bad ->
  (o_index bad <= o_index good)%nat.
Proof.
  intros Ho (l1 & m & rest & -> & _). apply StronglySorted_app_1_r in Ho. inversion Ho as [|? ? _ Hf]; subst.
  apply before_index. apply (proj1 (list.Forall_forall _ _) Hf). set_solver.
Qed.

(** ** The first bad commit *)

Lemma find_app_first {A : Type} (f : A -> bool) l x : find f l = Some x ->
  exists l1 l2, l = l1 ++ x :: l2 /\ f x = true /\ Forall (fun y => f y = false) l1.
Proof.
  induction l as [|y l IH]; cbn; [done|]. destruct (f y) eqn:Hy.
  - intros [= <-]. by exists [], l.
  - intros (l1 & l2 & -> & Hx & Hl)%IH. exists (y :: l1), l2. by repeat constructor.
Qed.

(** The last failing observation. *)
Lemma find_last l o : find (fun o => gate_failed (o_gate o)) (rev l) = Some o ->
  exists l1 l2, l = l1 ++ o :: l2 /\ gate_failed (o_gate o) = true /\
    Forall (fun y => gate_failed (o_gate y) = false) l2.
Proof.
  intros (l1 & l2 & He & Ho & Hl)%find_app_first. exists (rev l2), (rev l1).
  rewrite <- (rev_involutive l), He, rev_app_distr. cbn. rewrite <- app_assoc. split_and!; try done.
  rewrite list.Forall_forall in *. intros y Hy. apply Hl. by apply list_elem_of_In, in_rev, list_elem_of_In.
Qed.

Lemma gap_indices (f : nat -> bool) lo n i :
  i ∈ List.filter f (seq lo n) <-> (lo <= i < lo + n)%nat /\ f i = true.
Proof. by rewrite list_elem_of_In, filter_In, in_seq. Qed.

Section FirstBad.
Context (active : QualifyingPredicate) (read_log : str -> option str) (json_text : Value -> str)
  (cpu_over_wall : Q -> Q -> Q -> str).

(** What a report says of the transition from [good] to [bad]. *)
Definition reports (obs : list Observation) (good bad : Observation) (r : FirstBadReport) : Prop :=
  fb_first_bad r = gate_evidence active (o_sha bad) (o_row bad) (o_gate bad) /\
  fb_last_good r = gate_evidence active (o_sha good) (o_row good) (o_gate good) /\
  fb_matched_name r = g_name (o_gate bad) /\
  (o_index bad <= o_index good)%nat /\
  commits_between r = (o_index good - o_index bad - 1)%nat /\
  exists gaps : list nat,
    NoDup gaps /\ commits_without_cell_record r = length gaps /\
    forall i, i ∈ gaps <->
      (o_index bad < i < o_index good)%nat /\ forall o, o ∈ obs -> o_index o <> i.

(** C28.  [first_bad] answers over the clean rows of the branch's commits that carry a
    cell of that name, older commits first and the runs of a commit in the order they
    ended.  A report names the newest change from pass to fail: the good observation
    passed, the bad one failed, nothing between them did either, and no change follows;
    it counts the commits between the two and those of them without an observation.
    Without a change, the answer is the last failure if there is one. *)
Theorem first_bad_exact cs rows query branch branch_ref :
  let obs := chronology (engine_new cs rows) query in
  ordered obs /\
  (forall o, o ∈ obs <-> observed cs rows query o) /\
  match first_bad active read_log json_text cpu_over_wall (engine_new cs rows) query branch branch_ref with
  | BadFound r => exists good bad, newest_transition obs good bad /\ reports obs good bad r
  | FailureWithoutKnownGood _ _ e =>
      settled obs /\
      exists l1 bad l2, obs = l1 ++ bad :: l2 /\ gate_failed (o_gate bad) = true /\
        Forall (fun o => gate_failed (o_gate o) = false) l2 /\
        e = gate_evidence active (o_sha bad) (o_row bad) (o_gate bad)
  | NoBadEvidence _ _ => obs = []
  | NoTransition _ _ n =>
      obs <> [] /\ n = length obs /\ Forall (fun o => gate_failed (o_gate o) = false) obs
  end.
Proof.
  intros obs. assert (Ho : ordered obs) by apply sort_ordered.
  split; [done|]. split; [intros o; apply chronology_elem|].
  unfold first_bad. change (sort_observations _) with obs.
  pose proof (newest_transition_spec obs) as Ht.
  clearbody obs. destruct obs as [|first l]; [done|]. cbv beta iota zeta.
  remember (first :: l) as obs eqn:Hobs. destruct (transition obs) as [[good bad]|].
  - exists good, bad. split; [done|]. pose proof (transition_index _ _ _ Ho Ht) as Hle.
    unfold reports. cbn. rewrite Nat.min_l, Nat.max_r by done. split_and!; try done; [lia|].
    eexists. split_and!; [|reflexivity|]; [apply base.NoDup_ListNoDup, List.NoDup_filter, List.seq_NoDup|].
    intros i. rewrite gap_indices, negb_true_iff, <- not_true_iff_false, existsb_elem.
    setoid_rewrite Nat.eqb_eq. split; [intros [? Hn] | intros [? Hn]]; (split; [lia|]); naive_solver.
  - destruct (find _ (rev obs)) as [o|] eqn:Hf.
    + split; [done|]. apply find_last in Hf as (l1 & l2 & He & Hb & Hn). by exists l1, o, l2.
    + split_and!; [by rewrite Hobs | done |]. rewrite list.Forall_forall. intros o Hin.
      apply (find_none _ _ Hf). apply in_rev. rewrite rev_involutive. by apply list_elem_of_In.
Qed.

End FirstBad.

(** ** Retained cells *)

(** The cells that are pushed: in order, with new keys, one of each. *)
Lemma push_new_spec seen acc new : exists added, push_new seen acc new = acc ++ added /\
  added `sublist_of` new /\ NoDup (map cell_key added) /\ (forall g, g ∈ added -> cell_key g ∉ seen) /\
  (forall g, g ∈ new -> cell_key g ∈ seen \/ cell_key g ∈ map cell_key added).
Proof.
  revert seen acc. induction new as [|g new IH]; intros seen acc; cbn [push_new].
  { exists []. rewrite app_nil_r. split_and!; try done; [constructor | set_solver..]. }
  case_decide as Hg.
  - destruct (IH seen acc) as (added & -> & Hs & Hd & Hn & Hall). exists added.
    split_and!; try done; [by constructor|]. intros g' [->|Hg']%elem_of_cons; auto.
  - destruct (IH ({[cell_key g]} ∪ seen) (acc ++ [g])) as (added & -> & Hs & Hd & Hn & Hall).
    exists (g :: added). rewrite <- app_assoc. split_and!; [done | by constructor | | |].
    + cbn. constructor; [|done]. intros (g' & Hk & Hin)%list_elem_of_In%in_map_iff.
      apply (Hn g'); [by apply list_elem_of_In|].
      apply elem_of_union_l, elem_of_singleton. done.
    + intros g' [->|Hg']%elem_of_cons; [done|]. intros Hk.
      apply (Hn g' Hg'). by apply elem_of_union_r.
    + intros g' [->|Hg']%elem_of_cons; [right; left|]. destruct (Hall g' Hg') as [[Hk|Hk]%elem_of_union|Hk].
      * apply elem_of_singleton in Hk. cbn. rewrite Hk. right; left.
      * by left.
      * right. cbn. by right.
Qed.

Lemma push_new_known seen acc new : (forall g, g ∈ new -> cell_key g ∈ seen) -> push_new seen acc new = acc.
Proof.
  induction new as [|g new IH]; intros Hall; cbn; [done|].
  rewrite decide_True by (apply Hall; left). apply IH. intros g' Hg'. apply Hall. by right.
Qed.

Lemma find_app_some {A : Type} (f : A -> bool) l l' x : find f l = Some x -> find f (l ++ l') = Some x.
Proof. induction l as [|y l IH]; cbn; [done|]. by destruct (f y). Qed.

Lemma elem_of_keys_of gs k : k ∈ keys_of gs <-> k ∈ map cell_key gs.
Proof. unfold keys_of. by rewrite elem_of_list_to_set. Qed.

(** The record of the cache for a row: that of its commit and run. *)
Definition record_of (cache : CellEvidenceCache) (row : HistoryRow) : option RetainedCellEvidence :=
  c ← commit row; retained cache c (finished_at row).

Lemma merge_row_record cache row : merge_row cache row =
  match record_of cache row with
  | None => row
  | Some record => set_gates row (push_new (keys_of (gates row)) (gates row) (rc_gates record))
  end.
Proof. done. Qed.

(** Merging cells of the cache into a row of the ledger: the cells of the ledger
    stay first and unchanged, so that a lookup by name that they answer is answered by
    them; the cells that are added come from the cache's record of the same commit and
    run, one for each name and result that the row lacks, and none that the record has
    is missing; merging the same cache again changes nothing. *)
Lemma merge_retained_exact cache row :
  exists added,
    merge_row cache row = set_gates row (gates row ++ added) /\
    (forall query g, find (named query) (gates row) = Some g ->
       find (named query) (gates (merge_row cache row)) = Some g) /\
    NoDup (map cell_key added) /\
    (forall g, g ∈ added -> cell_key g ∉ map cell_key (gates row)) /\
    (forall record, record_of cache row = Some record ->
       added `sublist_of` rc_gates record /\
       forall g, g ∈ rc_gates record -> cell_key g ∈ map cell_key (gates row ++ added)) /\
    merge_row cache (merge_row cache row) = merge_row cache row.
Proof.
  destruct (record_of cache row) as [record|] eqn:Hr.
  - destruct (push_new_spec (keys_of (gates row)) (gates row) (rc_gates record))
      as (added & He & Hs & Hd & Hn & Hall).
    assert (Hm : merge_row cache row = set_gates row (gates row ++ added)).
    { rewrite merge_row_record, Hr. by rewrite He. }
    assert (Hkeys : forall g, g ∈ rc_gates record -> cell_key g ∈ map cell_key (gates row ++ added)).
    { intros g Hg. rewrite map_app. destruct (Hall g Hg) as [Hk|Hk]; [apply elem_of_keys_of in Hk|];
      apply elem_of_app; tauto. }
    exists added. rewrite Hm. split_and!; try done.
    + intros query g Hg. cbn. by apply find_app_some.
    + intros g Hg Hk. apply (Hn g Hg). by apply elem_of_keys_of.
    + by intros ? [= <-].
    + rewrite merge_row_record. change (record_of cache (set_gates _ _)) with (record_of cache row).
      rewrite Hr. cbn. rewrite push_new_known; [done|]. intros g Hg. apply elem_of_keys_of. auto.
  - assert (Hm : merge_row cache row = row) by (by rewrite merge_row_record, Hr).
    exists []. rewrite !Hm, app_nil_r.
    split_and!; [by destruct row | done | constructor | by intros g ?%not_elem_of_nil | done | done].
Qed.

(** ** Words for a failure *)

Definition cell (result : str) : GateHistoryRow := observation "unit" result None.

Definition run_at (sha finished : str) (word : str) : HistoryRow :=
  {| schema_version := Some 5; started_at := None; finished_at := Some finished; host := None;
     slot := None; repo := None; cwd := None; profile := None; selection_mode := None;
     commit := Some sha; commit_anchored := Some true; tree_dirty := Some false; result_ := None;
     exit_code := None; executed_tests := None; filtered_tests := None; coverage := None;
     full_coverage := None; checks := None; gates_run := None; gates_expected := None;
     failures := None; dag_jobs := None; concurrent_validates := None; known_flaky_failure := None;
     solo_rerun_confirmation := None; real_seconds := None; user_seconds := None; sys_seconds := None;
     log_file := None; source := None; gates := [cell word]; extra := ∅ |}.

Definition mixed_flag (word : str) : option bool :=
  let eng := engine_new [lit "new"; lit "old"]
    [run_at "old" "1" "pass"; run_at "new" "2" word; run_at "new" "3" "pass"] in
  match first_bad (shipped true) (fun _ => None) (fun _ => []) (fun _ _ _ => []) eng "unit" "main" "main" with
  | BadFound r => Some (first_bad_commit_has_mixed_outcomes r)
  | _ => None
  end.

(** A commit that failed and then passed is flagged as mixed when the word is [fail],
    and not when it is [failed], though both are failures to the query. *)
Lemma mixed_flag_misses_failed : mixed_flag "fail" = Some true /\ mixed_flag "failed" = Some false.
Proof. split; vm_compute; reflexivity. Qed.

(** The word [timeout] in a result is a red gate to the assessment and no failure to the query. *)
Lemma timeout_result_differs :
  gate_is_red (cell "timeout") = true /\ gate_failed (cell "timeout") = false.
Proof. split; vm_compute; reflexivity. Qed.
