(* ===== verification/TestSelection.v ===== *)
(** Anchored, one-hop test selection ([scripts/anchored-test-selection.rs]): from the
    paths that changed since a full green commit to the steps of the CI graph that run.

    The program reads the graph of two lanes, finds an anchor, asks git for the changed
    paths, maps each path by the first rule that matches it, closes the steps over their
    dependencies and runs the subset.  A [None] of type [option] is its [fail]: exit
    status 2.  What it prints is left out; the reasons of a selection are a data type. *)

From Stdlib Require Import QArith_base.
From stdpp Require Import gmap sorting.
From S2P Require Import Prelude Text Ledger History.

#[local] Open Scope Z_scope.

(** ** Globs *)

(** [str::as_bytes] *)
Definition utf8_char (c : Z) : list Z :=
  if c <? 128 then [c]
  else if c <? 2048 then [192 + c / 64; 128 + c mod 64]
  else if c <? 65536 then [224 + c / 4096; 128 + c / 64 mod 64; 128 + c mod 64]
  else [240 + c / 262144; 128 + c / 4096 mod 64; 128 + c / 64 mod 64; 128 + c mod 64].
Definition as_bytes (s : str) : list Z := concat (map utf8_char s).

Definition STAR : Z := 42.
Definition SLASH : Z := 47.
Definition QUESTION : Z := 63.

(** The [loop]s: the rest of the pattern against a suffix of the text; [stop] ends the
    search behind a byte it holds of. *)
Fixpoint glob_loop (rest : list Z -> bool) (stop : Z -> bool) (t : list Z) : bool :=
  rest t ||
  match t with
  | [] => false
  | c :: t => if stop c then false else glob_loop rest stop t
  end.

Fixpoint glob_inner (p : list Z) (t : list Z) : bool :=
  match p with
  | [] => match t with [] => true | _ => false end
  | c :: p1 =>
      if c =? STAR then
        match p1 with
        | d :: p2 =>
            if d =? STAR then
              match p2 with
              | e :: p3 =>
                  if e =? SLASH then glob_loop (glob_inner p3) (fun _ => false) t
                  else glob_loop (glob_inner p2) (fun _ => false) t
              | [] => glob_loop (glob_inner p2) (fun _ => false) t
              end
            else glob_loop (glob_inner p1) (fun b => b =? SLASH) t
        | [] => glob_loop (glob_inner p1) (fun b => b =? SLASH) t
        end
      else
        match t with
        | [] => false
        | b :: t1 =>
            if c =? QUESTION then negb (b =? SLASH) && glob_inner p1 t1
            else (c =? b) && glob_inner p1 t1
        end
  end.

Definition glob_match (pattern text : str) : bool := glob_inner (as_bytes pattern) (as_bytes text).
Definition matches_any (globs : list str) (file : str) : bool := existsb (fun g => glob_match g file) globs.

(** ** The graph *)

Record Node : Type := { n_id : str; n_lane : str; n_deps : list str; n_est_s : Z }.

Abbreviation Dag := (gmap str Node).

(** [v["key"]]: [Null] where there is no such member. *)
Definition index (v : Value) (key : str) : Value :=
  match v with JObject m => default JNull (get key m) | _ => JNull end.

Definition str_or (d : str) (v : Value) : str := default d (as_str v).
Definition job_of (step : Value) : str :=
  str_or [] (index step "group") +++ "." +++ str_or [] (index step "job").
Definition steps_of (v : Value) : list Value := default [] (as_array (index v "steps")).
Definition deps_of (step : Value) : list Value := default [] (as_array (index step "deps")).

(** [format!("{lane}:{job}")] *)
Definition qualified (lane job : str) : str := lane +++ ":" +++ job.

Definition step_node (lane : str) (s : Value) : Node :=
  {| n_id := qualified lane (job_of s); n_lane := lane;
     n_deps := map (qualified lane) (omap as_str (deps_of s));
     n_est_s := default 0 (as_u64 (index (index s "hint") "est_duration_s")) |}.

Definition load_step (lane : str) (nodes : Dag) (s : Value) : Dag :=
  <[qualified lane (job_of s) := step_node lane s]> nodes.

Definition LANES : list str := [lit "portable"; lit "privileged"].

Definition all_ids (dag : Dag) : gset str := dom dag.

(** One round of [close_over_deps]: the dependencies of a node that are not in yet. *)
Fixpoint add_deps (deps : list str) (out : gset str) (stack : list str) : gset str * list str :=
  match deps with
  | [] => (out, stack)
  | d :: deps =>
      if decide (d ∈ out) then add_deps deps out stack
      else add_deps deps ({[d]} ∪ out) (d :: stack)
  end.

Fixpoint close_loop (dag : Dag) (fuel : nat) (out : gset str) (stack : list str) : option (gset str) :=
  match stack with
  | [] => Some out
  | n :: stack =>
      match fuel with
      | O => None
      | S fuel =>
          match dag !! n with
          | None => close_loop dag fuel out stack
          | Some node =>
              let '(out, stack) := add_deps (n_deps node) out stack in
              close_loop dag fuel out stack
          end
      end
  end.

(** Every name is on the stack once: the seed and the dependencies of the graph. *)
Definition all_deps (dag : Dag) : list str := concat (map (fun kv => n_deps kv.2) (map_to_list dag)).
Definition close_fuel (dag : Dag) (seed : gset str) : nat := size seed + length (all_deps dag).

Definition close_over_deps (dag : Dag) (seed : gset str) : option (gset str) :=
  close_loop dag (close_fuel dag seed) seed (elements seed).

Definition in_manifest_gate (id : str) : bool :=
  let job := default [] (split 58 id !! 1%nat) in
  starts_with "e2e.manifest_" job || str_eqb job "build.manifest_guests".
Definition manifest_gate (ids : gset str) : gset str := filter (fun id => in_manifest_gate id = true) ids.

(** ** Rules *)

Inductive Action : Type := ActFull | ActIrrelevant | ActSteps (steps : list str).

(** Of [why] the first words are kept. *)
Record Rule : Type := { globs : list str; r_action : Action; r_why : str }.

Definition kvm_steps : list str :=
  [lit "privileged:e2e.manifest_backend_parity_c"; lit "privileged:e2e.manifest_applications"].
Definition dbi_steps : list str :=
  [lit "portable:test.dbi_parity"; lit "portable:e2e.manifest_backend_parity_c"].
Definition sabre_steps : list str :=
  [lit "portable:test.sabre_examples"; lit "portable:e2e.manifest_backend_parity_c"].
Definition liteinst_steps : list str :=
  [lit "portable:test.liteinst_strict"; lit "portable:build.liteinst_runtime_release";
   lit "portable:e2e.manifest_backend_parity_c"].
Definition e9patch_steps : list str :=
  [lit "portable:e2e.manifest_backend_parity_c"; lit "privileged:e2e.manifest_backend_parity_c"].

Definition PREFLIGHT : list str :=
  [lit "portable:lint.rustfmt"; lit "portable:check.backend_abstraction";
   lit "portable:check.portability_paths"].

Definition rules : list Rule := [
  {| globs := [lit "Cargo.toml"; lit "Cargo.lock"; lit "rust-toolchain.toml"; lit ".cargo/**"; lit "ci/**";
               lit "validate.sh"; lit "scripts/lib/**"; lit ".github/workflows/ci-portable.yml";
               lit ".github/workflows/ci-privileged.yml"; lit ".github/workflows/merge-gate.yml"];
     r_action := ActFull; r_why := "build/CI machinery" |};
  {| globs := [lit "**/*.md"; lit "docs/**"; lit "ai_docs/**"; lit "experiments/**"; lit "LICENSE";
               lit "CODEOWNERS"; lit ".gitignore"; lit "**/.gitignore"; lit ".gitattributes";
               lit ".editorconfig"; lit "**/*.png"; lit "**/*.svg"; lit "**/*.jpg"];
     r_action := ActIrrelevant; r_why := "docs/notes" |};
  {| globs := [lit "reverie/reverie-kvm/**"]; r_action := ActSteps kvm_steps; r_why := "reverie-kvm" |};
  {| globs := [lit "reverie/reverie-dbi/**"; lit "detcore-dbi/**"]; r_action := ActSteps dbi_steps;
     r_why := "DBI" |};
  {| globs := [lit "reverie/reverie-liteinst/**"]; r_action := ActSteps liteinst_steps;
     r_why := "reverie-liteinst" |};
  {| globs := [lit "reverie/reverie-e9patch/**"]; r_action := ActSteps e9patch_steps;
     r_why := "reverie-e9patch" |};
  {| globs := [lit "detcore-sabre/**"]; r_action := ActSteps sabre_steps; r_why := "detcore-sabre" |};
  {| globs := [lit "reverie/**"]; r_action := ActFull; r_why := "reverie CORE" |}
].

Fixpoint classify_by (rs : list Rule) (path : str) : Action * str :=
  match rs with
  | [] => (ActFull, lit "unmapped path")
  | r :: rs => if matches_any (globs r) path then (r_action r, r_why r) else classify_by rs path
  end.

Definition classify (path : str) : Action * str := classify_by rules path.

(** ** Selection *)

Inductive Decision : Type := Skip | Selective | DFull.

#[global] Instance Decision_eq : EqDecision Decision.
Proof. solve_decision. Defined.

Definition decision_str (d : Decision) : str :=
  match d with Skip => "skip" | Selective => "selective" | DFull => "full" end.

(** Why a selection is what it is; the source formats these as text. *)
Inductive Reason : Type :=
| NoPathInformation
| PathInert (file why : str)
| PathSteps (file : str) (steps : list str) (why : str)
| PathFull (file why : str)
| WholeSuiteForced
| NothingToRun
| NoStepsMapped
| StaleMap (missing : gset str)
| Closed (leaves closed total : nat)
| NoAnchorNoFiles
| NoAnchor.

Record Selection : Type := { decision : Decision; selected : gset str; reasons : list Reason }.

Definition whole_suite (dag : Dag) (rs : list Reason) : Selection :=
  {| decision := DFull; selected := all_ids dag; reasons := rs |}.

(** The local variables of the loop over the paths. *)
Record gather : Type := {
  ga_reasons : list Reason;
  ga_steps : gset str;
  any_full : bool;
  any_narrowing : bool;
  all_inert : bool;
  full_reasons : list Reason
}.

Definition gather_start : gather :=
  {| ga_reasons := []; ga_steps := ∅; any_full := false; any_narrowing := false; all_inert := true;
     full_reasons := [] |}.

Definition gather_path (g : gather) (f : str) : gather :=
  let '(action, why) := classify f in
  match action with
  | ActFull =>
      {| ga_reasons := ga_reasons g; ga_steps := ga_steps g; any_full := true;
         any_narrowing := any_narrowing g; all_inert := false;
         full_reasons := full_reasons g ++ [PathFull f why] |}
  | ActIrrelevant =>
      {| ga_reasons := ga_reasons g ++ [PathInert f why]; ga_steps := ga_steps g; any_full := any_full g;
         any_narrowing := any_narrowing g; all_inert := all_inert g; full_reasons := full_reasons g |}
  | ActSteps s =>
      {| ga_reasons := ga_reasons g ++ [PathSteps f s why]; ga_steps := list_to_set s ∪ ga_steps g;
         any_full := any_full g; any_narrowing := true; all_inert := false;
         full_reasons := full_reasons g |}
  end.

(** The last part of [select]: preflight, the check for stale steps, the closure. *)
Definition select_steps (dag : Dag) (rs : list Reason) (steps : gset str) : option Selection :=
  let steps := filter (fun pf => is_Some (dag !! pf)) (list_to_set PREFLIGHT) ∪ steps in
  let missing := filter (fun s => dag !! s = None) steps in
  if decide (missing = ∅) then
    closed ← close_over_deps dag steps;
    Some {| decision := Selective; selected := closed;
            reasons := rs ++ [Closed (size steps) (size closed) (size dag)] |}
  else Some (whole_suite dag (rs ++ [StaleMap missing])).

(** [None] would be the closure out of fuel. *)
Definition select (dag : Dag) (files : list str) : option Selection :=
  match files with
  | [] => Some (whole_suite dag [NoPathInformation])
  | _ :: _ =>
      let g := fold_left gather_path files gather_start in
      if any_full g then Some (whole_suite dag (ga_reasons g ++ full_reasons g ++ [WholeSuiteForced]))
      else if negb (any_narrowing g) && all_inert g then
        Some {| decision := Skip; selected := ∅; reasons := ga_reasons g ++ [NothingToRun] |}
      else if decide (ga_steps g = ∅) then Some (whole_suite dag (ga_reasons g ++ [NoStepsMapped]))
      else select_steps dag (ga_reasons g) (ga_steps g)
  end.

(** ** Anchors *)

Record Anchor : Type := { an_sha : str; an_overridden : option str }.

(** [s.find(c)] and [s.rfind(c)], as positions of scalar values. *)
Fixpoint find_char (c : Z) (s : str) : option nat :=
  match s with
  | [] => None
  | d :: s => if d =? c then Some 0%nat else S <$> find_char c s
  end.
Definition rfind_char (c : Z) (s : str) : option nat :=
  i ← find_char c (rev s); Some (length s - 1 - i)%nat.

(** [&s[a..=b]]: a panic where [a] is beyond the end of the range. *)
Definition slice_incl (s : str) (a b : nat) : option str :=
  if (a <=? S b)%nat then Some (take (S b - a) (drop a s)) else None.

Section Program.
(** [serde_json::from_str]. *)
Context (from_str : str -> option Value).

(** The answer of a program: its success and its output, or [None] when it cannot be run. *)
Class Commands : Type := {
  newest_green_cmd : str -> bool -> option (bool * str);
  validate_status_cmd : str -> option str;
  git : str -> list str -> option (bool * str)
}.

Inductive Resolved : Type := RPanic | RNone | RSome (sha : str).

(** [resolve_anchor] on the output of the hub: a report of a full green, or nothing. *)
Definition interpret_newest_green (stdout : str) : Resolved :=
  match find_char 123 stdout, rfind_char 125 stdout with
  | Some a, Some b =>
      match slice_incl stdout a b with
      | None => RPanic
      | Some body =>
          match from_str body with
          | None => RNone
          | Some v =>
              let green := index (index v "report") "green" in
              match as_str (index green "sha") with
              | None => RNone
              | Some sha =>
                  if negb (str_eqb (str_or [] (index green "selection_mode")) "full") ||
                     negb (str_eqb (str_or [] (index green "coverage")) "full") ||
                     negb (str_eqb (str_or [] (index green "result")) "pass")
                  then RNone else RSome sha
              end
          end
      end
  | _, _ => RNone
  end.

Inductive StatusError : Type :=
| NoJsonObject
| UnparseableJson
| WrongVerdict (verdict : str)
| Incomplete (missing : list (str * str)).

Definition interpret_validate_status (sha json : str) : result str StatusError :=
  match find_char 123 json, rfind_char 125 json with
  | Some a, Some b =>
      if (b <? a)%nat then Err NoJsonObject
      else
        match from_str (take (S b - a) (drop a json)) with
        | None => Err UnparseableJson
        | Some v =>
            let verdict := str_or "<absent>" (index v "verdict") in
            let resolved := str_or sha (index v "sha") in
            if negb (str_eqb verdict "VALIDATED") then Err (WrongVerdict verdict)
            else
              let rec := index v "newest_qualifying" in
              let field k := str_or "<absent>" (index rec k) in
              let missing :=
                List.filter (fun kv => negb (str_eqb (field kv.1) kv.2))
                  [(lit "result", lit "pass"); (lit "profile", lit "full");
                   (lit "selection_mode", lit "full")] in
              match missing with [] => Ok resolved | _ => Err (Incomplete missing) end
        end
  | _, _ => Err NoJsonObject
  end.

Context `{Commands}.

Definition resolve_anchor (branch : str) (no_fetch : bool) : Resolved :=
  match newest_green_cmd branch no_fetch with
  | Some (true, stdout) => interpret_newest_green stdout
  | _ => RNone
  end.

(** The exit status of the hub is not looked at: its output decides. *)
Definition verify_anchor_override (sha : str) : option Anchor :=
  stdout ← validate_status_cmd sha;
  match interpret_validate_status sha stdout with
  | Ok resolved => Some {| an_sha := resolved; an_overridden := Some sha |}
  | Err _ => None
  end.

(** ** Changed paths *)

Definition trimmed_lines (s : str) : list str :=
  List.filter (fun l => match l with [] => false | _ => true end) (map trim (lines s)).

Definition git_lines (repo : str) (args : list str) : option (list str) :=
  match git repo args with
  | Some (true, stdout) => Some (trimmed_lines stdout)
  | _ => None
  end.

Definition is_work_tree (repo : str) : bool :=
  match git repo [lit "rev-parse"; lit "--is-inside-work-tree"] with
  | Some (success, stdout) => success && str_eqb (trim stdout) "true"
  | None => false
  end.

(** [BTreeSet<String>] as the sorted list of its elements. *)
Definition insert_all (l : list str) (set : list str) : list str :=
  fold_left (fun set f => btree_insert f set) l set.

Definition changed_since (repo anchor : str) : option (list str) :=
  committed ← git_lines repo [lit "diff"; lit "--name-only"; anchor +++ "..HEAD"];
  if is_work_tree repo then
    uncommitted ← git_lines repo [lit "diff"; lit "--name-only"; lit "HEAD"];
    untracked ← git_lines repo [lit "ls-files"; lit "--others"; lit "--exclude-standard"];
    Some (insert_all untracked (insert_all uncommitted (insert_all committed [])))
  else Some (insert_all committed []).

Definition is_hex_digit (c : Z) : bool :=
  is_digit c || ((65 <=? c) && (c <=? 70)) || ((97 <=? c) && (c <=? 102)).

Fixpoint take_while (f : Z -> bool) (s : str) : str :=
  match s with
  | [] => []
  | c :: s => if f c then c :: take_while f s else []
  end.

Definition rev_in_line (line : str) : option str :=
  match split_once_str "reverie.git?rev=" line with
  | None => None
  | Some (_, rest) =>
      let hex := take_while is_hex_digit rest in
      if (7 <=? length hex)%nat then Some hex else None
  end.

Definition parse_reverie_rev (text : str) : option str := head (omap rev_in_line (lines text)).

Definition reverie_pin_at (hermit anchor : str) : option str :=
  match git hermit [lit "show"; anchor +++ ":Cargo.lock"] with
  | Some (true, stdout) => parse_reverie_rev stdout
  | _ => None
  end.

Definition UNRESOLVED : str := "reverie/__UNRESOLVED_BASELINE__/marker".

Definition changed_cross_repo (hermit reverie anchor : str) : option (list str) :=
  set ← changed_since hermit anchor;
  match reverie_pin_at hermit anchor with
  | None => Some (btree_insert UNRESOLVED set)
  | Some rev =>
      let present :=
        match git reverie [lit "cat-file"; lit "-e"; rev +++ "^{commit}"] with
        | Some (success, _) => success
        | None => false
        end in
      if present then
        rfiles ← changed_since reverie rev;
        Some (insert_all (map (fun f => "reverie/" +++ f) rfiles) set)
      else Some (btree_insert UNRESOLVED set)
  end.

(** ** The program *)

Record Options : Type := {
  o_hermit : str;
  o_ci_hub : str;
  o_branch : str;
  o_format : str;
  explicit_files : option (list str);
  anchor_override : option str;
  no_fetch : bool;
  emit_dag_lane : option str;
  out_path : option str;
  o_reverie : str;
  o_run : bool;
  o_verb : str;
  o_run_dag : option str;
  passthrough : list str
}.

(** What [main] has found when it reports: the anchor, the paths and the selection.  An
    anchor that is given must be proved, one that is not given may be missing. *)
Definition find_anchor (o : Options) : option (option Anchor) :=
  match anchor_override o with
  | Some sha => Some <$> verify_anchor_override sha
  | None =>
      match resolve_anchor (o_branch o) (no_fetch o) with
      | RPanic => None
      | RNone => Some None
      | RSome sha => Some (Some {| an_sha := sha; an_overridden := None |})
      end
  end.

Definition main_selection (dag : Dag) (o : Options) : option (option Anchor * list str * Selection) :=
  anchor ← find_anchor o;
  fs ← (match explicit_files o, anchor with
        | Some f, _ => s ← select dag f; Some (f, s)
        | None, Some a =>
            f ← changed_cross_repo (o_hermit o) (o_reverie o) (an_sha a);
            s ← select dag f;
            Some (f, s)
        | None, None => Some ([], whole_suite dag [NoAnchorNoFiles])
        end);
  let '(files, sel) := fs in
  let sel :=
    match anchor with
    | None => if decide (decision sel = DFull) then sel else whole_suite dag [NoAnchor]
    | Some _ => sel
    end in
  Some (anchor, files, sel).

End Program.

(** ** Running the subset *)

(** [v["key"] = x] on an object; [Null] becomes one. *)
Fixpoint put (k : str) (x : Value) (m : list (str * Value)) : list (str * Value) :=
  match m with
  | [] => [(k, x)]
  | (k', v) :: m => if str_eqb k k' then (k', x) :: m else (k', v) :: put k x m
  end.
Definition set_key (k : str) (x v : Value) : Value :=
  match v with JObject m => JObject (put k x m) | JNull => JObject [(k, x)] | _ => v end.

Definition keep_of (lane : str) (sel : Selection) : gset str :=
  list_to_set (omap (fun id => strip_prefix (lane +++ ":") id) (elements (selected sel))).

Definition prune_step (keep : gset str) (s : Value) : option Value :=
  if decide (job_of s ∈ keep) then
    Some match as_array (index s "deps") with
         | Some deps =>
             set_key "deps" (JArray (List.filter (fun d => match as_str d with
                                                           | Some d => bool_decide (d ∈ keep)
                                                           | None => false
                                                           end) deps)) s
         | None => s
         end
  else None.

(** [emit_dag]: the graph of a lane with the selected steps only.  (A graph that is
    neither an object nor [Null] has no steps and is not emitted by a run.) *)
Definition emit_dag (v : Value) (lane : str) (sel : Selection) : Value * nat :=
  let kept := omap (prune_step (keep_of lane sel)) (steps_of v) in
  (set_key "steps" (JArray kept) v, length kept).

Section Run.
(** The graph of a lane, [run-dag.sh] on a lane (with the file that overrides its graph),
    and what other processes leave of the file before it is read. *)
Context (graph : str -> Value) (runner : str -> option Value -> Z) (others : str -> Value -> Value).

Definition combine_rc (overall rc : Z) : Z := if rc =? 0 then overall else rc.

Definition has_lane (lane : str) (sel : Selection) : bool :=
  existsb (fun id => starts_with (lane +++ ":") id) (elements (selected sel)).

(** The lanes that are run, with their graphs. *)
Definition invocations (sel : Selection) : list (str * option Value) :=
  match decision sel with
  | Skip => []
  | DFull => map (fun lane => (lane, None)) LANES
  | Selective =>
      map (fun lane => (lane, Some (others lane (emit_dag (graph lane) lane sel).1)))
        (List.filter (fun lane => has_lane lane sel) LANES)
  end.

Definition run_selection (sel : Selection) : Z :=
  fold_left combine_rc (map (fun inv => runner inv.1 inv.2) (invocations sel)) 0.

End Run.

(** [Dag::load]: the steps of the two lanes; [None] when there are none. *)
Definition load_lane (lane : str) (v : Value) (nodes : Dag) : Dag := fold_left (load_step lane) (steps_of v) nodes.
Definition load (graph : str -> Value) : option Dag :=
  let nodes := fold_left (fun nodes lane => load_lane lane (graph lane) nodes) LANES ∅ in
  if decide (nodes = ∅) then None else Some nodes.
