(* ===== verification/TestSelectionCorrect.v ===== *)
(** The selection is sound: a step that is left out is hit by no changed path and needed
    by no selected step, and nothing is left out without a proved anchor. *)

From Stdlib Require Import QArith_base.
From stdpp Require Import gmap sorting.
From S2P Require Import Prelude Text Ledger LedgerCorrect ValidateStatus ValidateStatusCorrect History HistoryCorrect TestSelection.

#[local] Open Scope Z_scope.

(** ** Globs *)

(** What a pattern means: [**] matches anything and takes a slash behind it along, [*]
    matches anything without a slash, [?] one byte that is no slash. *)
Inductive Glob : list Z -> list Z -> Prop :=
| Glob_nil : Glob [] []
| Glob_any_dir p s t : Glob p t -> Glob (STAR :: STAR :: SLASH :: p) (s ++ t)
| Glob_any p s t : head p <> Some SLASH -> Glob p t -> Glob (STAR :: STAR :: p) (s ++ t)
| Glob_star p s t : head p <> Some STAR -> SLASH ∉ s -> Glob p t -> Glob (STAR :: p) (s ++ t)
| Glob_one p c t : c <> SLASH -> Glob p t -> Glob (QUESTION :: p) (c :: t)
| Glob_char p c t : c <> STAR -> c <> QUESTION -> Glob p t -> Glob (c :: p) (c :: t).

Lemma glob_loop_spec rest stop t : glob_loop rest stop t = true <->
  exists s t', t = s ++ t' /\ Forall (fun c => stop c = false) s /\ rest t' = true.
Proof.
  induction t as [|c t IH]; cbn; rewrite orb_true_iff.
  - split; [intros [Hr|]; [by exists [], []|done]|].
    intros (s & t' & He & _ & Hr). destruct s, t'; [by left|done..].
  - split.
    + intros [Hr|Hl]; [by exists [], (c :: t)|]. destruct (stop c) eqn:Hc; [done|].
      apply IH in Hl as (s & t' & -> & Hs & Hr). exists (c :: s), t'. split_and!; [done| |done]. by constructor.
    + intros (s & t' & He & Hs & Hr). destruct s as [|c' s]; cbn in He.
      * left. by rewrite He.
      * injection He as -> ->. apply list.Forall_cons in Hs as [Hc Hs]. right. rewrite Hc.
        apply IH. by exists s, t'.
Qed.

Lemma glob_loop_any rest t : glob_loop rest (fun _ => false) t = true <->
  exists s t', t = s ++ t' /\ rest t' = true.
Proof.
  rewrite glob_loop_spec. split; intros (s & t' & He & H); exists s, t'; [tauto|].
  split_and!; try done. by apply list.Forall_true.
Qed.

Lemma glob_loop_star rest t : glob_loop rest (fun b => b =? SLASH) t = true <->
  exists s t', t = s ++ t' /\ (SLASH ∉ s) /\ rest t' = true.
Proof.
  rewrite glob_loop_spec. split; intros (s & t' & He & Hs & Hr); exists s, t'; split_and!; try done.
  - intros Hin. rewrite list.Forall_forall in Hs. by specialize (Hs _ Hin).
  - apply list.Forall_forall. intros c Hc. apply Z.eqb_neq. by intros ->.
Qed.

(** Induction on patterns by their shape. *)
Lemma glob_inner_sound p t : glob_inner p t = true -> Glob p t.
Proof.
  revert t. induction p as [p IH] using (well_founded_induction (Wf_nat.well_founded_ltof _ length)).
  unfold Wf_nat.ltof in IH. intros t. destruct p as [|c p1]; cbn [glob_inner].
  { destruct t; [constructor | done]. }
  destruct (Z.eqb_spec c STAR) as [->|Hc].
  - assert (Hstar : forall q, q = p1 -> head q <> Some STAR ->
      glob_loop (glob_inner q) (fun b => b =? SLASH) t = true -> Glob (STAR :: p1) t).
    { intros q -> Hh (s & t' & -> & Hs & Hr)%glob_loop_star. apply Glob_star; auto. }
    destruct p1 as [|d p2]; [by apply Hstar|].
    destruct (Z.eqb_spec d STAR) as [->|Hd]; [|apply Hstar; [done | cbn; congruence]].
    destruct p2 as [|e p3].
    + intros (s & t' & -> & Hr)%glob_loop_any. apply Glob_any; [done|]. apply IH; [cbn; lia | done].
    + destruct (Z.eqb_spec e SLASH) as [->|He]; intros (s & t' & -> & Hr)%glob_loop_any.
      * apply Glob_any_dir, IH; [cbn; lia | done].
      * apply Glob_any; [cbn; congruence|]. apply IH; [cbn; lia | done].
  - destruct t as [|b t]; [done|]. destruct (Z.eqb_spec c QUESTION) as [->|Hq].
    + intros [Hb%negb_true_iff Hr]%andb_true_iff. apply Z.eqb_neq in Hb. apply Glob_one; [done|]. auto.
    + intros [->%Z.eqb_eq Hr]%andb_true_iff. apply Glob_char; auto.
Qed.

Lemma glob_inner_complete p t : Glob p t -> glob_inner p t = true.
Proof.
  induction 1 as [|p s t _ IH|p s t Hh _ IH|p s t Hh Hs _ IH|p c t Hc _ IH|p c t Hc Hq _ IH]; cbn.
  - done.
  - apply glob_loop_any. by exists s, t.
  - assert (Hl : glob_loop (glob_inner p) (fun _ => false) (s ++ t) = true) by (apply glob_loop_any; by exists s, t).
    destruct p as [|e p]; [done|]. cbn in Hh. destruct (Z.eqb_spec e SLASH) as [->|]; done.
  - assert (Hl : glob_loop (glob_inner p) (fun b => b =? SLASH) (s ++ t) = true)
      by (apply glob_loop_star; by exists s, t).
    destruct p as [|d p]; [done|]. cbn in Hh. destruct (Z.eqb_spec d STAR) as [->|]; done.
  - rewrite IH. apply Z.eqb_neq in Hc. by rewrite Hc.
  - apply Z.eqb_neq in Hc, Hq. by rewrite Hc, Hq, Z.eqb_refl.
Qed.

Lemma glob_inner_iff p t : glob_inner p t = true <-> Glob p t.
Proof. split; [apply glob_inner_sound | apply glob_inner_complete]. Qed.

(** ** The closure *)

Definition depends (dag : Dag) (x y : str) : Prop :=
  exists node, dag !! x = Some node /\ y ∈ n_deps node.

Lemma add_deps_spec deps out stack out' stack' : add_deps deps out stack = (out', stack') ->
  exists new, stack' = new ++ stack /\ out' = list_to_set new ∪ out /\ NoDup new /\
    (forall d, d ∈ new -> d ∈ deps /\ d ∉ out) /\ (forall d, d ∈ deps -> d ∈ out').
Proof.
  revert out stack. induction deps as [|d deps IH]; intros out stack; cbn [add_deps].
  { intros [= <- <-]. exists []. split_and!; [done | set_solver | constructor | set_solver..]. }
  case_decide as Hd.
  - intros (new & -> & -> & Hnd & Hnew & Hall)%IH. exists new. split_and!; try done; set_solver.
  - intros (new & -> & -> & Hnd & Hnew & Hall)%IH. exists (new ++ [d]).
    rewrite <- app_assoc. split_and!; try done.
    + rewrite list_to_set_app_L. set_solver.
    + apply list.NoDup_app. split_and!; [done | set_solver | apply list.NoDup_singleton].
    + set_solver.
    + set_solver.
Qed.

Abbreviation dep_names dag := (list_to_set (all_deps dag) : gset str).

Lemma depends_names dag x node d : dag !! x = Some node -> d ∈ n_deps node -> d ∈ dep_names dag.
Proof.
  intros Hx Hd. apply elem_of_list_to_set. unfold all_deps. apply list_elem_of_In, in_concat.
  exists (n_deps node). split; [|by apply list_elem_of_In].
  apply in_map_iff. exists (x, node). split; [done|]. by apply list_elem_of_In, elem_of_map_to_list.
Qed.

(** What is pushed is taken from the names that are not in yet. *)
Lemma new_names_size (names out : gset str) new : NoDup new ->
  (forall d, d ∈ new -> d ∈ names /\ d ∉ out) ->
  (length new + size (names ∖ (list_to_set new ∪ out)) <= size (names ∖ out))%nat.
Proof.
  intros Hnd Hnew.
  rewrite <- (size_list_to_set (C := gset str) new) by done.
  rewrite <- size_union by set_solver. apply subseteq_size. set_solver.
Qed.

Lemma close_loop_exact dag fuel out stack :
  (length stack + size (dep_names dag ∖ out) <= fuel)%nat ->
  (forall x, x ∈ stack -> x ∈ out) ->
  (forall x y, x ∈ out -> x ∉ stack -> depends dag x y -> y ∈ out) ->
  exists out', close_loop dag fuel out stack = Some out' /\ out ⊆ out' /\
    (forall y, y ∈ out' -> exists x, x ∈ out /\ rtc (depends dag) x y) /\
    (forall x y, x ∈ out' -> depends dag x y -> y ∈ out').
Proof.
  revert out stack. induction fuel as [|fuel IH]; intros out [|n stack] Hfuel Hstack Hdone; cbn [close_loop].
  1, 3: exists out; split_and!; [done | done | intros y Hy; by exists y | intros x y Hx; apply Hdone; [done | set_solver]].
  { cbn in Hfuel. lia. }
  cbn in Hfuel. destruct (dag !! n) as [node|] eqn:Hn.
  - destruct (add_deps (n_deps node) out stack) as [out1 stack1] eqn:Ha.
    apply add_deps_spec in Ha as (new & -> & -> & Hnd & Hnew & Hall).
    assert (Hnames : forall d, d ∈ new -> d ∈ dep_names dag /\ d ∉ out).
    { intros d Hd. destruct (Hnew d Hd). split; [by eapply depends_names | done]. }
    pose proof (new_names_size (dep_names dag) out new Hnd Hnames).
    destruct (IH (list_to_set new ∪ out) (new ++ stack)) as (out' & He & Hsub & Hreach & Hcl).
    + rewrite length_app. lia.
    + clear -Hstack. set_solver.
    + intros x y Hx Hns (node' & Hx' & Hy). destruct (decide (x = n)) as [->|Hne].
      * rewrite Hn in Hx'. injection Hx' as <-. by apply Hall.
      * apply elem_of_union_r, (Hdone x); [set_solver..|]. by exists node'.
    + exists out'. split_and!; [done | set_solver | | done]. intros y (x & Hx & Hr)%Hreach.
      apply elem_of_union in Hx as [Hx%elem_of_list_to_set|Hx]; [|by exists x].
      exists n. split; [apply Hstack; left|]. eapply rtc_l; [|exact Hr]. exists node. split; [done|]. by apply Hnew.
  - apply IH; [lia | set_solver |]. intros x y Hx Hns Hd. apply (Hdone x); [done | | done].
    intros [->|Hin]%elem_of_cons; [|done]. destruct Hd as (node & Hx' & _). congruence.
Qed.

Lemma names_size (l : list str) : (size (list_to_set l : gset str) <= length l)%nat.
Proof.
  induction l as [|x l IH]; cbn; [by rewrite size_empty|].
  destruct (decide (x ∈ (list_to_set l : gset str))).
  - rewrite subseteq_union_1_L by set_solver. lia.
  - rewrite size_union, size_singleton by set_solver. lia.
Qed.

(** The closure ends, with what the seed depends on and nothing else. *)
Lemma close_over_deps_exact dag seed : exists closed, close_over_deps dag seed = Some closed /\
  forall y, y ∈ closed <-> exists x, x ∈ seed /\ rtc (depends dag) x y.
Proof.
  destruct (close_loop_exact dag (close_fuel dag seed) seed (elements seed)) as (out & He & Hsub & Hr & Hcl).
  - unfold close_fuel. change (length (elements seed)) with (size seed).
    assert (Hle : (size (dep_names dag ∖ seed) <= length (all_deps dag))%nat); [|lia].
    etrans; [apply (subseteq_size _ (dep_names dag)); set_solver | apply names_size].
  - set_solver.
  - set_solver.
  - exists out. split; [done|]. intros y. split; [apply Hr|]. intros (x & Hx & Hxy).
    apply Hsub in Hx. clear -Hx Hxy Hcl. induction Hxy; eauto.
Qed.

(** ** The selection *)

Definition action (f : str) : Action := (classify f).1.

(** A step that a changed path is mapped to. *)
Definition mapped (files : list str) (s : str) : Prop :=
  exists f steps, f ∈ files /\ action f = ActSteps steps /\ s ∈ steps.

(** The steps a narrowed run starts from. *)
Definition leaf (dag : Dag) (files : list str) (s : str) : Prop :=
  mapped files s \/ s ∈ PREFLIGHT /\ is_Some (dag !! s).

Definition is_full (a : Action) : bool := if a is ActFull then true else false.
Definition is_inert (a : Action) : bool := if a is ActIrrelevant then true else false.
Definition is_steps (a : Action) : bool := if a is ActSteps _ then true else false.

Lemma classify_steps rs f steps : Forall (fun r => r_action r <> ActSteps []) rs ->
  (classify_by rs f).1 = ActSteps steps -> steps <> [].
Proof.
  induction 1 as [|r rs Hr _ IH]; cbn; [done|]. destruct (matches_any (globs r) f); [|done].
  cbn. congruence.
Qed.

(** The rules name steps, so a path that narrows adds at least one. *)
Lemma action_steps f steps : action f = ActSteps steps -> steps <> [].
Proof. apply classify_steps. repeat constructor; done. Qed.

Record path_facts (files : list str) (g : gather) : Prop := {
  gs_full : any_full g = existsb (fun f => is_full (action f)) files;
  gs_narrow : any_narrowing g = existsb (fun f => is_steps (action f)) files;
  gs_inert : all_inert g = forallb (fun f => is_inert (action f)) files;
  gs_steps : forall s, s ∈ ga_steps g <-> mapped files s
}.

Lemma mapped_snoc files f s : mapped (files ++ [f]) s <->
  mapped files s \/ exists steps, action f = ActSteps steps /\ s ∈ steps.
Proof.
  unfold mapped. split.
  - intros (f' & steps & [Hf|Hf%list_elem_of_singleton]%elem_of_app & Ha & Hs); [left | subst; right]; eauto.
  - intros [(f' & steps & Hf & Hr)|(steps & Hr)];
      [exists f', steps | exists f, steps]; (split; [apply elem_of_app | done]); [by left | right; by left].
Qed.

Lemma path_facts_step files g f : path_facts files g -> path_facts (files ++ [f]) (gather_path g f).
Proof.
  intros [Hf Hn Hi Hs]. unfold gather_path. destruct (classify f) as [a why] eqn:Hc.
  assert (Ha : action f = a) by (unfold action; by rewrite Hc).
  destruct a; split; cbn; rewrite ?existsb_app, ?forallb_app, <- ?Hf, <- ?Hn, <- ?Hi; cbn;
    rewrite ?Ha; cbn; rewrite ?orb_false_r, ?orb_true_r, ?andb_true_r, ?andb_false_r; try done;
    intros s; rewrite mapped_snoc, <- Hs, Ha.
  1, 2: split; [by left | intros [?|(? & ? & _)]; done].
  rewrite elem_of_union, elem_of_list_to_set. split.
  - intros [?|?]; [right; by exists steps | by left].
  - intros [?|(? & [= <-] & ?)]; [by right | by left].
Qed.

Lemma path_facts_all files : path_facts files (fold_left gather_path files gather_start).
Proof.
  induction files as [|f files IH] using rev_ind.
  - split; try done. intros s. cbn. split; [set_solver | intros (f & ? & Hf & _); by apply not_elem_of_nil in Hf].
  - rewrite fold_left_app. by apply path_facts_step.
Qed.

(** A narrowed selection: from the leaves, when they all are steps of the graph. *)
Lemma select_steps_exact dag rs files steps : (forall s, s ∈ steps <-> mapped files s) ->
  exists sel, select_steps dag rs steps = Some sel /\
    ((exists s, mapped files s /\ dag !! s = None) /\ decision sel = DFull /\ selected sel = all_ids dag \/
     (forall s, mapped files s -> is_Some (dag !! s)) /\ decision sel = Selective /\
     forall y, y ∈ selected sel <-> exists x, leaf dag files x /\ rtc (depends dag) x y).
Proof.
  intros Hsteps. unfold select_steps. set (all := filter _ _ ∪ steps).
  assert (Hall : forall s, s ∈ all <-> leaf dag files s).
  { intros s. unfold all, leaf. rewrite elem_of_union, elem_of_filter, elem_of_list_to_set, Hsteps. tauto. }
  clearbody all. case_decide as Hm.
  - destruct (close_over_deps_exact dag all) as (closed & -> & Hclosed). cbn. eexists. split; [done|]. right.
    split_and!; [|done|].
    + intros s Hs. destruct (dag !! s) eqn:He; [by eexists|].
      apply (f_equal (fun X => s ∈ X)) in Hm. destruct (not_elem_of_empty (C := gset str) s).
      rewrite <- Hm. apply elem_of_filter. split; [done|]. apply Hall. by left.
    + intros y. cbn. rewrite Hclosed. by setoid_rewrite Hall.
  - eexists. split; [done|]. left. split_and!; try done.
    apply set_choose_L in Hm as (s & Hs). apply elem_of_filter in Hs as [Hn Hs].
    apply Hall in Hs as [Hs|[_ Hs]]; [by exists s|]. rewrite Hn in Hs. by destruct Hs.
Qed.

Lemma existsb_action (f : Action -> bool) files : existsb (fun p => f (action p)) files = true <->
  exists p, p ∈ files /\ f (action p) = true.
Proof. apply (existsb_elem (fun p => f (action p))). Qed.

Lemma select_exact dag files : exists sel, select dag files = Some sel /\
  (decision sel = DFull <->
     files = [] \/ (exists f, f ∈ files /\ action f = ActFull) \/ exists s, mapped files s /\ dag !! s = None) /\
  (decision sel = Skip <-> files <> [] /\ forall f, f ∈ files -> action f = ActIrrelevant) /\
  match decision sel with
  | DFull => selected sel = all_ids dag
  | Skip => selected sel = ∅
  | Selective => forall y, y ∈ selected sel <-> exists x, leaf dag files x /\ rtc (depends dag) x y
  end.
Proof.
  unfold select. destruct files as [|f0 fs] eqn:Hfiles.
  { eexists. split; [done|]. cbn. split_and!; [naive_solver.. | done]. }
  rewrite <- Hfiles. assert (Hne : files <> []) by congruence. clear Hfiles.
  destruct (path_facts_all files) as [Hf Hn Hi Hs]. set (g := fold_left _ _ _) in *.
  rewrite Hf, Hn, Hi.
  destruct (existsb _ files) eqn:Hfull.
  { apply existsb_action in Hfull as (p & Hp & Ha). destruct (action p) eqn:Hap; try done.
    eexists. split; [done|]. cbn. split_and!; [naive_solver | | done].
    split; [done|]. intros [_ Hall]. specialize (Hall p Hp). congruence. }
  assert (Hnofull : forall p, p ∈ files -> action p <> ActFull).
  { intros p Hp Ha. enough (existsb (fun f => is_full (action f)) files = true) by congruence.
    apply existsb_action. exists p. by rewrite Ha. }
  destruct (existsb (fun f => is_steps (action f)) files) eqn:Hnarrow; cbn [negb andb].
  - apply existsb_action in Hnarrow as (p & Hp & Ha). destruct (action p) as [| |steps] eqn:Hap; try done.
    assert (Hex : exists s, s ∈ ga_steps g).
    { pose proof (action_steps _ _ Hap) as Hst. destruct steps as [|s steps]; [done|]. exists s. apply Hs.
      exists p, (s :: steps). split_and!; [done | done | left]. }
    rewrite decide_False by set_solver.
    destruct (select_steps_exact dag (ga_reasons g) files (ga_steps g) Hs) as (sel & -> & Hcases).
    exists sel. split; [done|].
    assert (Hskip : ~ (files <> [] /\ forall f, f ∈ files -> action f = ActIrrelevant))
      by (intros [_ Hall]; specialize (Hall p Hp); congruence).
    destruct Hcases as [(Hst & Hd & Hsel)|(Hst & Hd & Hsel)]; rewrite Hd; (split_and!; [| |done]);
      split; try done; try tauto.
    intros [He|[(q & Hq & Haq)|(s & Hms & Hns)]]; [done | by destruct (Hnofull q Hq) |].
    destruct (Hst s Hms). congruence.
  - assert (Hinert : forall p, p ∈ files -> action p = ActIrrelevant).
    { intros p Hp. specialize (Hnofull p Hp). destruct (action p) eqn:Hap; try done.
      enough (existsb (fun f => is_steps (action f)) files = true) by congruence.
      apply existsb_action. exists p. by rewrite Hap. }
    assert (Hall : forallb (fun f => is_inert (action f)) files = true).
    { apply forallb_forall. intros p Hp%list_elem_of_In. by rewrite Hinert. }
    rewrite Hall. eexists. split; [done|]. cbn. split_and!; [|naive_solver|done].
    split; [done|]. intros [He|[(q & Hq & Haq)|(s & (q & st & Hq & Haq & _) & _)]]; [done| |];
      specialize (Hinert q Hq); congruence.
Qed.

(** ** The program *)

Lemma unresolved_full : action UNRESOLVED = ActFull.
Proof. vm_compute. reflexivity. Qed.

Lemma btree_insert_elem x l y : y ∈ btree_insert x l <-> y = x \/ y ∈ l.
Proof.
  induction l as [|z l IH]; cbn [btree_insert]; [set_solver|].
  destruct (str_eqb_spec x z) as [->|Hne]; [set_solver|].
  destruct (str_leb x z); [set_solver|]. rewrite !elem_of_cons, IH. tauto.
Qed.

Lemma insert_all_elem l set y : y ∈ insert_all l set <-> y ∈ l \/ y ∈ set.
Proof.
  unfold insert_all. revert set. induction l as [|x l IH]; intros set; cbn [fold_left]; [set_solver|].
  rewrite IH, btree_insert_elem, elem_of_cons. tauto.
Qed.

(** What the program says of a narrowed run. *)
Definition narrowed (dag : Dag) (files : list str) (chosen : gset str) : Prop :=
  files <> [] /\
  (forall f, f ∈ files -> action f <> ActFull) /\
  (forall s, mapped files s -> is_Some (dag !! s) /\ s ∈ chosen) /\
  (forall x y, x ∈ chosen -> depends dag x y -> y ∈ chosen) /\
  (forall y, y ∈ chosen -> exists x, leaf dag files x /\ rtc (depends dag) x y).

Lemma select_narrowed dag files sel : select dag files = Some sel -> decision sel <> DFull ->
  narrowed dag files (selected sel).
Proof.
  destruct (select_exact dag files) as (sel' & -> & Hfull & Hskip & Hsel). intros [= ->] Hd.
  assert (Hno : ~ (files = [] \/ (exists f, f ∈ files /\ action f = ActFull) \/
                   exists s, mapped files s /\ dag !! s = None)) by tauto.
  split_and!; [tauto | naive_solver | | |].
  - intros s Hs. assert (His : is_Some (dag !! s)) by (destruct (dag !! s) eqn:He; [by eexists | naive_solver]).
    split; [done|]. destruct (decision sel) eqn:Hdec; [|apply Hsel; exists s; split; [by left | done]|done].
    destruct (proj1 Hskip eq_refl) as [_ Hin]. destruct Hs as (f & st & Hf & Ha & _).
    specialize (Hin f Hf). congruence.
  - intros x y Hx Hxy. destruct (decision sel); [rewrite Hsel in Hx; set_solver| |done].
    apply Hsel in Hx as (l & Hl & Hr). apply Hsel. exists l. split; [done|]. by eapply rtc_r.
  - intros y Hy. destruct (decision sel); [rewrite Hsel in Hy; set_solver| |done]. by apply Hsel.
Qed.

Lemma select_full dag files sel : select dag files = Some sel -> decision sel = DFull ->
  selected sel = all_ids dag.
Proof. destruct (select_exact dag files) as (sel' & -> & _ & _ & Hsel). intros [= ->] Hd. by rewrite Hd in Hsel. Qed.

Section Main.
Context `{Commands} (from_str : str -> option Value).

(** A base of Reverie that is not known forces the whole suite. *)
Lemma unknown_base_full hermit reverie anchor files :
  changed_cross_repo hermit reverie anchor = Some files -> reverie_pin_at hermit anchor = None ->
  exists f, f ∈ files /\ action f = ActFull.
Proof.
  unfold changed_cross_repo. destruct (changed_since hermit anchor) as [set|]; [|done]. cbn.
  intros He Hp. rewrite Hp in He. injection He as <-. exists UNRESOLVED.
  split; [apply btree_insert_elem; by left | apply unresolved_full].
Qed.

(** C29.  A narrowed run leaves out nothing that matters.  Whatever the hub and git
    answer, when the program goes on with a selection it is either the whole graph, or
    it has an anchor and changed paths, no path forces the whole suite, every step a
    path is mapped to is in the graph and selected, the selection is closed under
    dependencies, and holds nothing but the mapped steps, the preflight and what they
    depend on.  A base of Reverie that cannot be told makes it the whole graph. *)
Theorem selection_sound dag o anchor files sel :
  main_selection from_str dag o = Some (anchor, files, sel) ->
  (decision sel = DFull -> selected sel = all_ids dag) /\
  (decision sel <> DFull -> is_Some anchor /\ narrowed dag files (selected sel)) /\
  (explicit_files o = None -> forall a, anchor = Some a ->
     changed_cross_repo (o_hermit o) (o_reverie o) (an_sha a) = Some files /\
     (reverie_pin_at (o_hermit o) (an_sha a) = None -> decision sel = DFull)).
Proof.
  unfold main_selection. destruct (find_anchor from_str o) as [anchor'|]; [|done]. cbn.
  destruct (explicit_files o) as [fs|] eqn:Hex.
  - destruct (select dag fs) as [s|] eqn:Hs; [|done]. cbn. destruct anchor' as [a|].
    + intros [= <- <- <-]. split_and!; [by eapply select_full | | done]. intros Hd.
      split; [done | by eapply select_narrowed].
    + case_decide as Hd; intros [= <- <- <-]; (split_and!; [| | done]); try done. by eapply select_full.
  - destruct anchor' as [a|].
    + destruct (changed_cross_repo (o_hermit o) (o_reverie o) (an_sha a)) as [fs|] eqn:Hc; [|done]. cbn.
      destruct (select dag fs) as [s|] eqn:Hs; [|done]. cbn. intros [= <- <- <-].
      split_and!; [by eapply select_full | |].
      * intros Hd. split; [done | by eapply select_narrowed].
      * intros _ a' [= <-]. split; [done|]. intros Hp.
        destruct (unknown_base_full _ _ _ _ Hc Hp) as (f & Hf & Ha).
        destruct (select_exact dag fs) as (s' & Hs' & Hfull & _). rewrite Hs in Hs'. injection Hs' as <-.
        apply Hfull. right; left. by exists f.
    + intros [= <- <- <-]. split_and!; [done.. |]. intros _ a [=].
Qed.

End Main.

(** ** The anchor *)

Lemma row_coverage_full active row : (row_coverage active row).1.1 = Some Full ->
  profile row = Some (lit "full") /\ selection_mode row = Some (lit "full") /\
  coverage_verdict <$> coverage row = Some Satisfied.
Proof.
  unfold row_coverage. destruct (_ || _); [done|].
  destruct (coverage_verdict <$> coverage row) as [[]|]; try done. cbn. unfold scope_strength.
  destruct (is_lit (profile row) "full") eqn:Hp; [|done].
  destruct (is_lit (selection_mode row) "full") eqn:Hm; [|done].
  apply is_lit_iff in Hp, Hm. done.
Qed.

Lemma strength_full c : strength_as_str c = lit "full" -> c = Full.
Proof. by destruct c; [| vm_compute; congruence..]. Qed.

(** What the tool takes from a report: the commit of a full green, or nothing. *)
Definition accepted_green (e : ValidationEvidence) : Prop :=
  e_selection_mode e = lit "full" /\ e_coverage e = Some Full /\ e_result e = lit "pass".

Lemma green_fields e :
  index (evidence_json e) "sha" = JString (e_sha e) /\
  index (evidence_json e) "selection_mode" = JString (e_selection_mode e) /\
  index (evidence_json e) "coverage" = json_opt (fun c => JString (strength_as_str c)) (e_coverage e) /\
  index (evidence_json e) "result" = JString (e_result e).
Proof. split_and!; vm_compute; reflexivity. Qed.

Lemma printed_green hit r :
  index (index (print_newest_green r hit) "report") "green" = evidence_json (ng_green r).
Proof. vm_compute. reflexivity. Qed.

Lemma interpret_printed from_str stdout hit r a b body sha :
  find_char 123 stdout = Some a -> rfind_char 125 stdout = Some b -> slice_incl stdout a b = Some body ->
  from_str body = Some (print_newest_green r hit) ->
  interpret_newest_green from_str stdout = RSome sha -> sha = e_sha (ng_green r) /\ accepted_green (ng_green r).
Proof.
  intros Ha Hb Hs Hf. unfold interpret_newest_green. rewrite Ha, Hb, Hs, Hf. cbv zeta.
  rewrite printed_green. destruct (green_fields (ng_green r)) as (-> & -> & -> & ->). cbn [as_str].
  unfold str_or, accepted_green. cbn [as_str from_option id].
  destruct (str_eqb_spec (e_selection_mode (ng_green r)) "full"); cbn [negb orb]; [|done].
  destruct (str_eqb_spec (e_result (ng_green r)) "pass"); cbn [negb]; [|by rewrite orb_true_r].
  destruct (e_coverage (ng_green r)) as [c|] eqn:Hc; cbn [json_opt as_str from_option id];
    [|by vm_compute].
  destruct (str_eqb_spec (strength_as_str c) "full") as [Hfull|]; cbn; [|done].
  intros [= <-]. split; [done|]. apply strength_full in Hfull as ->. done.
Qed.

Lemma evidence_sha active sha row : e_sha (evidence active sha row) = sha.
Proof. unfold evidence. by destruct (row_coverage active row) as [[? ?] ?]. Qed.

Lemma evidence_coverage active sha row : e_coverage (evidence active sha row) = (row_coverage active row).1.1.
Proof. unfold evidence. by destruct (row_coverage active row) as [[? ?] ?]. Qed.

(** C30.  The tool anchors on full greens of the ledger only.  When the hub answers
    [newest-green] from a ledger and prints its report, and the tool finds an anchor in
    that output, then the anchor is a commit of the branch that the ledger validates, by
    a qualifying row with the full profile, the full selection, a pass and satisfied
    per-node coverage, and no newer commit of the branch is validated. *)
Theorem anchor_is_full_green `{Verifier} active cs rows branch branch_ref schema floor report hit
    from_str stdout a b body sha :
  newest_green active (engine_new cs rows) branch branch_ref schema floor = Some (NewestFound report) ->
  find_char 123 stdout = Some a -> rfind_char 125 stdout = Some b -> slice_incl stdout a b = Some body ->
  from_str body = Some (print_newest_green report hit) ->
  interpret_newest_green from_str stdout = RSome sha ->
  verdict (assess active rows sha) = Validated /\
  (exists row, row ∈ rows /\ commit row = Some sha /\ row_qualifies row sha active = true /\
     profile row = Some (lit "full") /\ selection_mode row = Some (lit "full") /\
     coverage_verdict <$> coverage row = Some Satisfied) /\
  exists newer older, cs = newer ++ sha :: older /\
    forall c, c ∈ newer -> verdict (assess active rows c) <> Validated.
Proof.
  intros Hng Ha Hb Hs Hf Hi.
  destruct (interpret_printed _ _ _ _ _ _ _ _ Ha Hb Hs Hf Hi) as [-> (_ & Hcov & _)].
  destruct (newest_green_spec active cs rows branch branch_ref schema floor) as (out & Ho & Hout).
  rewrite Hng in Ho. injection Ho as <-.
  destruct Hout as (newer & sha & older & row & Hcs & Hv & Hn & Hrow & Hc & Hq & _ & Hgreen & _).
  rewrite Hgreen in Hcov |- *. rewrite evidence_coverage in Hcov. rewrite evidence_sha.
  apply row_coverage_full in Hcov as (Hp & Hm & Hsat).
  split_and!; [done | by exists row | by exists newer, older].
Qed.

(** ** The run *)

Lemma strip_prefix_iff p s r : strip_prefix p s = Some r <-> s = p ++ r.
Proof.
  revert s. induction p as [|c p IH]; intros [|d s]; cbn; try naive_solver.
  destruct (Z.eqb_spec c d) as [->|Hne]; [rewrite IH; naive_solver | naive_solver].
Qed.

Lemma keep_of_iff lane sel d : d ∈ keep_of lane sel <-> qualified lane d ∈ selected sel.
Proof.
  unfold keep_of, qualified. rewrite elem_of_list_to_set, list_elem_of_omap.
  setoid_rewrite strip_prefix_iff. setoid_rewrite <- app_assoc. setoid_rewrite elem_of_elements.
  split; [intros (id & Hid & ->) | eexists]; eauto.
Qed.

Lemma has_lane_iff lane sel : has_lane lane sel = true <-> exists job, qualified lane job ∈ selected sel.
Proof.
  unfold has_lane. rewrite existsb_elem. unfold starts_with. setoid_rewrite elem_of_elements. split.
  - intros (id & Hid & Hp). destruct (strip_prefix _ id) as [job|] eqn:He; [|done].
    apply strip_prefix_iff in He. rewrite <- app_assoc in He. exists job. by rewrite He in Hid.
  - intros (job & Hj). exists (qualified lane job). split; [done|].
    replace (strip_prefix _ _) with (Some job); [done|]. symmetry. apply strip_prefix_iff.
    by rewrite <- app_assoc.
Qed.

Lemma get_put_eq k x m : get k (put k x m) = Some x.
Proof.
  induction m as [|[k' v] m IH]; cbn; [by rewrite str_eqb_refl|].
  destruct (str_eqb_spec k k') as [->|Hne]; cbn; [by rewrite str_eqb_refl|].
  destruct (str_eqb_spec k k'); done.
Qed.

Lemma get_put_ne k k' x m : k <> k' -> get k (put k' x m) = get k m.
Proof.
  intros Hne. induction m as [|[k2 v] m IH]; cbn.
  - by destruct (str_eqb_spec k k').
  - destruct (str_eqb_spec k' k2) as [->|Hne2]; cbn; [by destruct (str_eqb_spec k k2)|]. by rewrite IH.
Qed.

(** What the runner reads of a step: its name and its dependencies. *)
Definition reads (s : Value) : str * list str := (job_of s, omap as_str (deps_of s)).

Lemma set_deps_reads s deps : as_array (index s "deps") = Some deps -> forall deps',
  omap as_str deps' = omap as_str deps -> reads (set_key "deps" (JArray deps') s) = reads s.
Proof.
  intros Hd deps' He. destruct s as [| | | | | |m]; try done. unfold reads, job_of, deps_of, set_key, index in *.
  cbn in Hd. rewrite !get_put_ne, get_put_eq by (vm_compute; congruence). cbn.
  f_equal. rewrite He. by rewrite Hd.
Qed.

Lemma steps_of_set v l : steps_of v <> [] -> steps_of (set_key "steps" (JArray l) v) = l.
Proof.
  destruct v as [| | | | | |m]; try done. intros _. unfold steps_of, set_key, index. by rewrite get_put_eq.
Qed.

Lemma filter_strings (keep : str -> bool) deps :
  (forall d, d ∈ omap as_str deps -> keep d = true) ->
  omap as_str (List.filter (fun v => match as_str v with Some d => keep d | None => false end) deps) =
  omap as_str deps.
Proof.
  induction deps as [|v deps IH]; intros Hk; [done|]. cbn in *. destruct (as_str v) as [d|] eqn:Hv; cbn.
  - rewrite (Hk d) by left. cbn. rewrite Hv. f_equal. apply IH. intros d' Hd'. apply Hk. by right.
  - by apply IH.
Qed.

(** A kept step keeps its dependencies when they are kept. *)
Lemma prune_step_reads keep s s' : prune_step keep s = Some s' ->
  (forall d, d ∈ omap as_str (deps_of s) -> d ∈ keep) -> reads s' = reads s.
Proof.
  unfold prune_step. case_decide as Hk; [|done]. intros [= <-] Hd.
  destruct (as_array (index s "deps")) as [deps|] eqn:Ha; [|done].
  apply (set_deps_reads _ _ Ha). apply (filter_strings (fun d => bool_decide (d ∈ keep))).
  intros d Hin. apply bool_decide_eq_true, Hd. unfold deps_of. by rewrite Ha.
Qed.

Lemma omap_prune_reads keep steps :
  (forall s, s ∈ steps -> job_of s ∈ keep -> forall d, d ∈ omap as_str (deps_of s) -> d ∈ keep) ->
  map reads (omap (prune_step keep) steps) =
  map reads (List.filter (fun s => bool_decide (job_of s ∈ keep)) steps).
Proof.
  induction steps as [|s steps IH]; intros Hk; [done|]. cbn.
  assert (IH' := IH (fun s' Hs' => Hk s' (list_elem_of_further _ _ _ Hs'))). clear IH.
  destruct (prune_step keep s) as [s'|] eqn:Hs.
  - assert (Hj : job_of s ∈ keep) by (unfold prune_step in Hs; by case_decide).
    rewrite bool_decide_eq_true_2 by done. cbn. rewrite IH'. f_equal.
    apply (prune_step_reads _ _ _ Hs). apply Hk; [left | done].
  - assert (Hj : job_of s ∉ keep) by (unfold prune_step in Hs; by case_decide).
    rewrite bool_decide_eq_false_2 by done. done.
Qed.

(** The jobs of a lane have different names. *)
Definition unique_jobs (graph : str -> Value) : Prop :=
  forall lane, lane ∈ LANES -> NoDup (map job_of (steps_of (graph lane))).

Lemma qualified_job lane j j' : qualified lane j = qualified lane j' -> j = j'.
Proof. unfold qualified. intros He%app_inv_head%app_inv_head. done. Qed.

Lemma load_steps_other lane steps m k : (forall s, s ∈ steps -> qualified lane (job_of s) <> k) ->
  fold_left (load_step lane) steps m !! k = m !! k.
Proof.
  revert m. induction steps as [|s steps IH]; intros m Hk; cbn [fold_left]; [done|].
  rewrite IH by (intros s' Hs'; apply Hk; by right). unfold load_step.
  apply lookup_insert_ne, Hk. left.
Qed.

Lemma load_steps_lookup lane steps m s : NoDup (map job_of steps) -> s ∈ steps ->
  fold_left (load_step lane) steps m !! qualified lane (job_of s) = Some (step_node lane s).
Proof.
  revert m. induction steps as [|s' steps IH]; intros m Hnd Hs; [by apply not_elem_of_nil in Hs|].
  cbn in Hnd. apply list.NoDup_cons in Hnd as [Hn Hnd]. cbn [fold_left].
  apply elem_of_cons in Hs as [->|Hs]; [|by apply IH].
  rewrite load_steps_other; [apply lookup_insert_eq|].
  intros s2 Hs2 He%qualified_job. apply Hn. rewrite <- He. apply list_elem_of_In, in_map, list_elem_of_In. done.
Qed.

Lemma lanes_apart j j' : qualified "portable" j <> qualified "privileged" j'.
Proof. unfold qualified, lit. vm_compute. congruence. Qed.

Lemma load_lookup graph dag lane s : load graph = Some dag -> unique_jobs graph -> lane ∈ LANES ->
  s ∈ steps_of (graph lane) -> dag !! qualified lane (job_of s) = Some (step_node lane s).
Proof.
  unfold load. case_decide; [done|]. intros [= <-] Hu Hl Hs. specialize (Hu lane Hl).
  unfold load_lane. cbn [fold_left LANES].
  apply elem_of_cons in Hl as [->|Hl%list_elem_of_singleton]; [|subst lane; by apply load_steps_lookup].
  rewrite load_steps_other; [by apply load_steps_lookup|]. intros s' _ He. by apply (lanes_apart (job_of s) (job_of s')).
Qed.

(** The overall status is zero when all are. *)
Lemma combine_rc_zero rcs acc : fold_left combine_rc rcs acc = 0 <-> acc = 0 /\ Forall (fun rc => rc = 0) rcs.
Proof.
  revert acc. induction rcs as [|rc rcs IH]; intros acc; cbn [fold_left]; [split; [by split | tauto]|].
  rewrite IH, list.Forall_cons. unfold combine_rc. destruct (Z.eqb_spec rc 0); naive_solver.
Qed.

Section Run.
Context (graph : str -> Value) (runner : str -> option Value -> Z).

(** A narrowed run runs the selection.  When nothing else writes its file, each
    lane with a selected step is run, and no other; its graph has exactly the selected
    steps of the lane, in their order and each with all its dependencies; and the
    program ends with status zero exactly when every lane did. *)
Theorem subset_run_exact dag files sel :
  load graph = Some dag -> unique_jobs graph -> select dag files = Some sel -> decision sel = Selective ->
  (forall lane, lane ∈ map fst (invocations graph (fun _ v => v) sel) <->
     lane ∈ LANES /\ exists job, qualified lane job ∈ selected sel) /\
  (forall lane v, (lane, Some v) ∈ invocations graph (fun _ v => v) sel ->
     map reads (steps_of v) =
     map reads (List.filter (fun s => bool_decide (qualified lane (job_of s) ∈ selected sel))
                  (steps_of (graph lane)))) /\
  (run_selection graph runner (fun _ v => v) sel = 0 <->
     forall lane v, (lane, v) ∈ invocations graph (fun _ v => v) sel -> runner lane v = 0).
Proof.
  intros Hload Hu Hsel Hd.
  assert (Hclosed : forall x y, x ∈ selected sel -> depends dag x y -> y ∈ selected sel).
  { pose proof (select_narrowed dag files sel Hsel) as Hn. rewrite Hd in Hn. by apply Hn. }
  split_and!.
  - intros lane. unfold invocations. rewrite Hd, map_map, (map_ext _ (fun lane => lane)), map_id by done.
    rewrite list_elem_of_In, filter_In, <- list_elem_of_In. by rewrite has_lane_iff.
  - intros lane v. unfold invocations. rewrite Hd. intros Hin. apply list_elem_of_In, in_map_iff in Hin.
    destruct Hin as (l & [= -> <-] & Hin). apply filter_In in Hin as [Hl%list_elem_of_In _].
    destruct (decide (steps_of (graph lane) = [])) as [He|Hne].
    + unfold emit_dag. cbn [fst]. rewrite !He. clear -He. destruct (graph lane); try done.
      unfold steps_of, set_key, index. by rewrite get_put_eq.
    + unfold emit_dag. cbn [fst]. rewrite steps_of_set by done. rewrite omap_prune_reads.
      * f_equal. apply filter_ext. intros s. apply bool_decide_ext, keep_of_iff.
      * intros s Hs Hj d Hdep. apply keep_of_iff in Hj. apply keep_of_iff. apply (Hclosed _ _ Hj).
        exists (step_node lane s). split; [by apply (load_lookup graph)|].
        cbn. apply list_elem_of_In, in_map, list_elem_of_In. done.
  - unfold run_selection. rewrite combine_rc_zero, list.Forall_forall. split.
    + intros [_ Hall] lane v Hin. apply Hall. apply list_elem_of_In, in_map_iff. exists (lane, v).
      split; [done|]. by apply list_elem_of_In.
    + intros Hall. split; [done|]. intros rc Hrc. apply list_elem_of_In, in_map_iff in Hrc as ([lane v] & <- & Hin).
      apply Hall. by apply list_elem_of_In.
Qed.

End Run.
