(* ===== verification/TestSelectionSamples.v ===== *)
(** The test selection on a small graph and ledger, and three behaviours of it that the
    comments of the source do not promise. *)

From Stdlib Require Import QArith_base.
From stdpp Require Import gmap sorting.
From S2P Require Import Prelude Text Ledger LedgerCorrect ValidateStatus ValidateStatusCorrect History HistoryCorrect TestSelection TestSelectionCorrect.

#[local] Open Scope Z_scope.

(** ** A graph and a ledger *)

Definition step (group job : str) (deps : list str) : Value :=
  JObject [(lit "group", JString group); (lit "job", JString job); (lit "deps", JArray (map JString deps))].

Definition sample_graph (lane : str) : Value :=
  if str_eqb lane "portable" then
    JObject [(lit "steps", JArray [step "lint" "rustfmt" []; step "test" "dbi_parity" [lit "lint.rustfmt"];
                                   step "e2e" "manifest_backend_parity_c" []])]
  else
    JObject [(lit "steps", JArray [step "build" "guests" []; step "build" "unused" [];
                                   step "e2e" "manifest_backend_parity_c" [lit "build.guests"];
                                   step "e2e" "manifest_applications" [lit "build.guests"]])].

Definition sample_dag : Dag := default ∅ (load sample_graph).

(** A verifier that finds every row in order. *)
Definition accepting : Verifier := {|
  verifier_answer := fun _ _ => Some (Some 0,
    {| accepted := true; admission_satisfied := Some true; admission_status := "satisfied";
       base_satisfied := Some true; base_status := "satisfied";
       coverage_schema_satisfied := Some true; coverage_schema_status := "satisfied" |});
  boundary_answer := fun _ _ _ _ _ => None |}.

Definition sample_answer : option NewestGreenOutcome :=
  newest_green (H := accepting) (shipped true)
    (engine_new [lit "beef"; lit "c0ffee"; lit "old"] [sample_row]) "main" "origin/main" "s" "f".

Definition sample_report : NewestGreenReport :=
  match sample_answer with
  | Some (NewestFound r) => r
  | _ => {| ng_schema_version := 0; ng_branch := []; ng_branch_ref := []; ng_branch_tip := [];
            ng_gate_schema := []; ng_gate_schema_floor := []; range_oldest_commit := [];
            branch_commits_in_range := 0; trustworthy_recorded_commits_in_range := 0;
            full_green_commits_in_range := 0; ng_green := evidence (shipped true) [] sample_row;
            commits_after_green := 0; commits_without_any_record := 0; commits_with_records := 0 |}
  end.

(** A parser that reads the printed report, whatever the text. *)
Definition reads_report (_ : str) : option Value := Some (print_newest_green sample_report false).

Lemma anchor_is_full_green_witness :
  verdict (assess (H := accepting) (shipped true) [sample_row] "c0ffee") = Validated.
Proof.
  apply (anchor_is_full_green (H := accepting) (shipped true) [lit "beef"; lit "c0ffee"; lit "old"] [sample_row]
    "main" "origin/main" "s" "f" sample_report false reads_report "# COST {} " 7 8 "{}");
    vm_compute; reflexivity.
Defined.

(** ** A narrowed run *)

(** The hub answers with the report; git is not asked. *)
Definition sample_commands : Commands := {|
  newest_green_cmd := fun _ _ => Some (true, lit "{}");
  validate_status_cmd := fun _ => None;
  git := fun _ _ => None |}.

Definition sample_options (files : list str) : Options := {|
  o_hermit := "hermit"; o_ci_hub := "ci-hub/ci-hub"; o_branch := "main"; o_format := "human";
  explicit_files := Some files; anchor_override := None; no_fetch := true; emit_dag_lane := None;
  out_path := None; o_reverie := "reverie"; o_run := true; o_verb := "run"; o_run_dag := None;
  passthrough := [] |}.

Definition kvm_change : list str := [lit "reverie/reverie-kvm/src/lib.rs"; lit "README.md"].

Definition kvm_selection : Selection := default (whole_suite ∅ []) (select sample_dag kvm_change).

Lemma kvm_selection_is : select sample_dag kvm_change = Some kvm_selection.
Proof. unfold kvm_selection. by destruct (select_exact sample_dag kvm_change) as (sel & -> & _). Qed.

Lemma load_sample : load sample_graph = Some sample_dag.
Proof.
  assert (Hs : is_some (load sample_graph) = true) by (vm_compute; reflexivity).
  unfold sample_dag. by destruct (load sample_graph).
Qed.

Lemma kvm_main : main_selection (H := sample_commands) reads_report sample_dag (sample_options kvm_change) =
  Some (Some {| an_sha := "c0ffee"; an_overridden := None |}, kvm_change, kvm_selection).
Proof.
  unfold main_selection.
  replace (find_anchor _ _) with (Some (Some {| an_sha := lit "c0ffee"; an_overridden := None |}))
    by (vm_compute; reflexivity).
  cbn [mbind option_bind explicit_files sample_options]. by rewrite kvm_selection_is.
Qed.

(** The KVM steps, what they build on, and the preflight that is there. *)
Lemma kvm_selection_steps : selected kvm_selection =
  {[lit "privileged:e2e.manifest_backend_parity_c"; lit "privileged:e2e.manifest_applications";
    lit "privileged:build.guests"; lit "portable:lint.rustfmt"]}.
Proof. apply (bool_decide_unpack _). vm_compute. exact I. Qed.

Lemma selection_sound_witness : narrowed sample_dag kvm_change (selected kvm_selection).
Proof.
  refine (proj2 (proj1 (proj2 (selection_sound (H := sample_commands) reads_report sample_dag
    (sample_options kvm_change) (Some {| an_sha := "c0ffee"; an_overridden := None |}) kvm_change
    kvm_selection _)) _)).
  - exact kvm_main.
  - vm_compute. discriminate.
Defined.

Lemma subset_run_exact_witness :
  run_selection sample_graph (fun _ _ => 0) (fun _ v => v) kvm_selection = 0.
Proof.
  apply (subset_run_exact sample_graph (fun _ _ => 0) sample_dag kvm_change kvm_selection).
  - exact load_sample.
  - intros lane Hl. apply (bool_decide_unpack _). revert Hl. unfold LANES.
    rewrite !elem_of_cons, elem_of_nil. intros [->|[->|[]]]; vm_compute; exact I.
  - exact kvm_selection_is.
  - vm_compute. reflexivity.
  - done.
Defined.

(** ** Behaviours worth knowing *)

(** The subset is written to a file of a fixed name: when another run replaces it before
    it is read, the run is green although it ran none of its steps. *)
Definition counts_steps (_ : str) (v : option Value) : Z :=
  match v with Some v => Z.of_nat (length (steps_of v)) | None => 1 end.

Lemma subset_replaced :
  run_selection sample_graph counts_steps (fun _ v => v) kvm_selection <> 0 /\
  run_selection sample_graph counts_steps (fun _ _ => JNull) kvm_selection = 0.
Proof. split; [vm_compute; discriminate | vm_compute; reflexivity]. Qed.

(** An output whose last closing brace comes before its first opening one makes the
    lookup of the anchor panic; the check of an explicit anchor reports it. *)
Lemma braces_out_of_order :
  interpret_newest_green reads_report "} {" = RPanic /\
  interpret_validate_status reads_report "c0ffee" "} {" = Err NoJsonObject.
Proof. split; vm_compute; reflexivity. Qed.

(** [**/] takes part of a name along: a file that only ends in [.gitignore] is inert. *)
Lemma gitignore_suffix_inert : action "detcore/src/rules.gitignore" = ActIrrelevant.
Proof. vm_compute. reflexivity. Qed.
