(* ===== verification/Sha256.v ===== *)
(** The SHA-256 that [scripts/hourly-status-relay.rs] implements in place
    ([sha256_hex]), on lists of bytes, with its published vectors. *)

From stdpp Require Import list.
From S2P Require Import Prelude Text.

#[local] Open Scope Z_scope.

Definition rotate_right (x n : Z) : Z := Z.lor (Z.shiftr x n) (wrap 32 (Z.shiftl x (32 - n))).
Definition add32 (x y : Z) : Z := wrapping_add 32 x y.

(** The tables of the source, in decimal. *)
Definition K : list Z := [
  1116352408; 1899447441; 3049323471; 3921009573; 961987163; 1508970993; 2453635748; 2870763221;
  3624381080; 310598401; 607225278; 1426881987; 1925078388; 2162078206; 2614888103; 3248222580;
  3835390401; 4022224774; 264347078; 604807628; 770255983; 1249150122; 1555081692; 1996064986;
  2554220882; 2821834349; 2952996808; 3210313671; 3336571891; 3584528711; 113926993; 338241895;
  666307205; 773529912; 1294757372; 1396182291; 1695183700; 1986661051; 2177026350; 2456956037;
  2730485921; 2820302411; 3259730800; 3345764771; 3516065817; 3600352804; 4094571909; 275423344;
  430227734; 506948616; 659060556; 883997877; 958139571; 1322822218; 1537002063; 1747873779;
  1955562222; 2024104815; 2227730452; 2361852424; 2428436474; 2756734187; 3204031479; 3329325298].

Definition H0 : list Z := [
  1779033703; 3144134277; 1013904242; 2773480762; 1359893119; 2600822924; 528734635; 1541459225].

(** [u64::to_be_bytes] and [u32::from_be_bytes] *)
Fixpoint be_bytes (n : nat) (x : Z) : list Z :=
  match n with O => [] | S n => (x / 256 ^ Z.of_nat n) mod 256 :: be_bytes n x end.
Definition of_be_bytes (bs : list Z) : Z := fold_left (fun acc b => acc * 256 + b) bs 0.

(** [while msg.len() % 64 != 56 { msg.push(0) }]: at most 63 bytes. *)
Definition pad_zeros (len : nat) : nat := Z.to_nat ((56 - Z.of_nat len) mod 64).
Definition padded (bytes : list Z) : list Z :=
  let msg := bytes ++ [128] in
  msg ++ replicate (pad_zeros (length msg)) 0 ++
  be_bytes 8 (wrapping_mul 64 (wrap 64 (Z.of_nat (length bytes))) 8).

(** [msg.chunks(n)], with one element of fuel for each chunk. *)
Fixpoint chunks (fuel n : nat) (l : list Z) : list (list Z) :=
  match fuel, l with
  | S fuel, _ :: _ => take n l :: chunks fuel n (drop n l)
  | _, _ => []
  end.

(** The message schedule, from its end: [w] holds the words so far, the last one first. *)
Fixpoint extend (k : nat) (w : list Z) : list Z :=
  match k with
  | O => w
  | S k =>
      let at_ i := nth (Z.to_nat i) w 0 in
      let s0 := Z.lxor (Z.lxor (rotate_right (at_ 14) 7) (rotate_right (at_ 14) 18)) (Z.shiftr (at_ 14) 3) in
      let s1 := Z.lxor (Z.lxor (rotate_right (at_ 1) 17) (rotate_right (at_ 1) 19)) (Z.shiftr (at_ 1) 10) in
      extend k (add32 (add32 (add32 (at_ 15) s0) (at_ 6)) s1 :: w)
  end.
Definition schedule (chunk : list Z) : list Z := rev (extend 48 (rev (map of_be_bytes (chunks 16 4 chunk)))).

(** One of the 64 rounds on [a .. h]. *)
Definition round (v : list Z) (kw : Z * Z) : list Z :=
  match v with
  | [a; b; c; d; e; f; g; hh] =>
      let s1 := Z.lxor (Z.lxor (rotate_right e 6) (rotate_right e 11)) (rotate_right e 25) in
      let ch := Z.lxor (Z.land e f) (Z.land (not_bits 32 e) g) in
      let t1 := add32 (add32 (add32 (add32 hh s1) ch) kw.1) kw.2 in
      let s0 := Z.lxor (Z.lxor (rotate_right a 2) (rotate_right a 13)) (rotate_right a 22) in
      let maj := Z.lxor (Z.lxor (Z.land a b) (Z.land a c)) (Z.land b c) in
      let t2 := add32 s0 maj in
      [add32 t1 t2; a; b; c; add32 d t1; e; f; g]
  | _ => v
  end.

Definition compress (h chunk : list Z) : list Z :=
  zip_with add32 h (fold_left round (combine K (schedule chunk)) h).

(** [{w:08x}] *)
Definition hex_digit (n : Z) : Z := if n <? 10 then 48 + n else 87 + n.
Definition hex32 (w : Z) : str :=
  map (fun i => hex_digit (Z.land (Z.shiftr w (4 * i)) 15)) [7; 6; 5; 4; 3; 2; 1; 0].

Definition sha256_hex (bytes : list Z) : str :=
  let msg := padded bytes in
  concat (map hex32 (fold_left compress (chunks (length msg) 64 msg) H0)).

(** ** Constants *)

Definition primes : list Z := [
  2; 3; 5; 7; 11; 13; 17; 19; 23; 29; 31; 37; 41; 43; 47; 53;
  59; 61; 67; 71; 73; 79; 83; 89; 97; 101; 103; 107; 109; 113; 127; 131;
  137; 139; 149; 151; 157; 163; 167; 173; 179; 181; 191; 193; 197; 199; 211; 223;
  227; 229; 233; 239; 241; 251; 257; 263; 269; 271; 277; 281; 283; 293; 307; 311].

(** The first 32 bits of the fraction of a root: [k] extends the integer part [i]. *)
Definition cube_root_bits (p k : Z) : bool :=
  existsb (fun i => let r := i * 2 ^ 32 + k in (r ^ 3 <=? p * 2 ^ 96) && (p * 2 ^ 96 <? (r + 1) ^ 3))
    [1; 2; 3; 4; 5; 6].
Definition square_root_bits (p k : Z) : bool :=
  existsb (fun i => let r := i * 2 ^ 32 + k in (r ^ 2 <=? p * 2 ^ 64) && (p * 2 ^ 64 <? (r + 1) ^ 2))
    [1; 2; 3; 4].

(** The tables are the ones of the standard. *)
Lemma tables_standard :
  forallb (fun pk => cube_root_bits pk.1 pk.2) (combine primes K) = true /\ length K = 64%nat /\
  forallb (fun pk => square_root_bits pk.1 pk.2) (combine primes H0) = true /\ length H0 = 8%nat.
Proof. vm_compute. done. Qed.

(** ** Vectors *)

Lemma sha256_empty : sha256_hex [] = lit "e3b0c44298fc1c149afbf4c8996fb92427ae41e4649b934ca495991b7852b855".
Proof. vm_compute. reflexivity. Qed.

Lemma sha256_abc :
  sha256_hex (lit "abc") = lit "ba7816bf8f01cfea414140de5dae2223b00361a396177a9cb410ff61f20015ad".
Proof. vm_compute. reflexivity. Qed.

(** Two blocks. *)
Lemma sha256_two_blocks :
  sha256_hex (lit "abcdbcdecdefdefgefghfghighijhijkijkljklmklmnlmnomnopnopq") =
  lit "248d6a61d20638b8e5c026930c3e6039a33ce45964ff2167f6ecedd419db06c1".
Proof. vm_compute. reflexivity. Qed.

(** ** Shape *)

(** The padded message is a whole number of blocks. *)
Lemma padded_blocks bytes : Z.of_nat (length (padded bytes)) mod 64 = 0.
Proof.
  unfold padded, pad_zeros. cbv zeta. rewrite !length_app, length_replicate. cbn [length be_bytes].
  set (n := length bytes). rewrite !Nat2Z.inj_add, Z2Nat.id by (apply Z.mod_pos_bound; lia).
  change (Z.of_nat 1) with 1. change (Z.of_nat 8) with 8.
  pose proof (Z.div_mod (56 - (Z.of_nat n + 1)) 64 ltac:(lia)) as Hd.
  apply Z.mod_divide; [lia|]. exists (1 - (56 - (Z.of_nat n + 1)) / 64). lia.
Qed.

Lemma compress_length h chunk : length h = 8%nat -> length (compress h chunk) = 8%nat.
Proof.
  intros Hh. unfold compress. rewrite length_zip_with.
  assert (Hr : forall kws v, length v = 8%nat -> length (fold_left round kws v) = 8%nat); [|rewrite Hr; lia].
  induction kws as [|kw kws IH]; intros v Hv; [done|]. cbn [fold_left]. apply IH.
  do 9 (destruct v as [|? v]; try done).
Qed.

(** A digest has 64 digits. *)
Lemma sha256_length bytes : length (sha256_hex bytes) = 64%nat.
Proof.
  unfold sha256_hex.
  assert (Hf : forall cs h, length h = 8%nat -> length (fold_left compress cs h) = 8%nat).
  { induction cs as [|c cs IH]; intros h Hh; [done|]. apply IH, compress_length, Hh. }
  specialize (Hf (chunks (length (padded bytes)) 64 (padded bytes)) H0 eq_refl).
  set (h := fold_left _ _ _) in *. clearbody h.
  do 9 (destruct h as [|? h]; try done).
Qed.
