(* ===== verification/Relay.v ===== *)
(** The hourly status driver ([scripts/hourly-status-relay.rs]): a timer fires it, it
    claims the hour in a file, wakes the coordinator through a relay, and closes the hour
    when the coordinator acknowledges with the record of a sent message.

    The claim file of an hour is shared by all invocations.  A tick is modelled twice: as
    the function [execute], and as a process ([proc], [advance]) whose accesses to the
    file are separate steps, so that ticks and acknowledgements can interleave.  What is
    written to the log and to the status file is left out; that such a write can fail is
    not.  Messages of errors are left out.  The creation of the file and the write of its
    text are one step: a reader between the two finds text that is no claim, and stops as
    it does for any such text. *)

From stdpp Require Import gmap.
From S2P Require Import Prelude Text Sha256.

#[local] Open Scope Z_scope.

(** ** Time *)

(** [civil_from_days]: Rust's [/] truncates, and every quotient here is of a number that
    is not negative, the first one apart, where the numerator is adjusted. *)
Definition civil_from_days (days : Z) : Z * Z * Z :=
  let z := days + 719468 in
  let era := Z.quot (if 0 <=? z then z else z - 146096) 146097 in
  let doe := z - era * 146097 in
  let yoe := Z.quot (doe - Z.quot doe 1460 + Z.quot doe 36524 - Z.quot doe 146096) 365 in
  let y := yoe + era * 400 in
  let doy := doe - (365 * yoe + Z.quot yoe 4 - Z.quot yoe 100) in
  let mp := Z.quot (5 * doy + 2) 153 in
  let d := doy - Z.quot (153 * mp + 2) 5 + 1 in
  let m := if mp <? 10 then mp + 3 else mp - 9 in
  ((if m <=? 2 then y + 1 else y), m, d).

(** [{n:0w}] of a number that is not negative. *)
Definition pad (w : nat) (n : Z) : str := let d := dec n in replicate (w - length d) 48 ++ d.

Definition hour_bucket (epoch : Z) : str :=
  let '(year, month, day) := civil_from_days (epoch / 86400) in
  let hour := epoch mod 86400 / 3600 in
  pad 4 year +++ "-" +++ pad 2 month +++ "-" +++ pad 2 day +++ "T" +++ pad 2 hour.

Definition format_utc (epoch : Z) : str :=
  let '(year, month, day) := civil_from_days (epoch / 86400) in
  let seconds_of_day := epoch mod 86400 in
  pad 4 year +++ "-" +++ pad 2 month +++ "-" +++ pad 2 day +++ "T" +++
  pad 2 (seconds_of_day / 3600) +++ ":" +++ pad 2 (seconds_of_day mod 3600 / 60) +++ ":" +++
  pad 2 (seconds_of_day mod 60) +++ "Z".

(** ** Claims *)

Definition STATE_PENDING : str := "pending".
Definition STATE_WAKE_ACCEPTED : str := "wake_accepted".
Definition STATE_GCHAT_DELIVERED : str := "gchat_delivered".
Definition STATE_DELIVERED : str := "delivered".
Definition DEFAULT_STALE_PENDING_SECS : Z := 900.
Definition DEFAULT_ACK_WAIT_SECS : Z := 600.
Definition DEFAULT_MAX_WAKE_ATTEMPTS : Z := 3.

Record Claim : Type := {
  c_hour : str;
  state : str;
  claimed_at : Z;
  claimed_by_pid : Z;
  delivered_at : option Z;
  detail : option str;
  wake_accepted_at : option Z;
  wake_attempts : Z;
  gchat_message_name : option str;
  gchat_space : option str;
  gchat_thread : option str;
  gchat_text_sha256 : option str;
  gchat_text_bytes : option Z;
  gchat_acked_at : option Z
}.

Definition claim_new (hour st : str) (now pid : Z) : Claim := {|
  c_hour := hour; state := st; claimed_at := now; claimed_by_pid := pid; delivered_at := None;
  detail := None; wake_accepted_at := None; wake_attempts := 0; gchat_message_name := None;
  gchat_space := None; gchat_thread := None; gchat_text_sha256 := None; gchat_text_bytes := None;
  gchat_acked_at := None |}.

Definition non_empty (field : option str) : bool :=
  match field with Some s => match trim s with [] => false | _ => true end | None => false end.

Definition has_gchat_ack (c : Claim) : bool :=
  str_eqb (state c) STATE_GCHAT_DELIVERED && non_empty (gchat_message_name c) &&
  non_empty (gchat_space c) && non_empty (gchat_thread c) && non_empty (gchat_text_sha256 c).

(** The file of an hour: none, a claim that was written, or text that is none. *)
Inductive ClaimRead : Type := Absent | Valid (c : Claim) | Corrupt.

(** ** The rule *)

Inductive Decision : Type :=
| Deliver
| ReclaimStale (age_secs : Z)
| DuplicateHour
| AwaitingAck (age_secs attempts : Z)
| RewakeNoAck (age_secs attempts : Z)
| AckExhausted (age_secs attempts : Z)
| InFlight (age_secs : Z)
| CorruptClaim.

Definition proceeds (d : Decision) : bool :=
  match d with Deliver | ReclaimStale _ | RewakeNoAck _ _ => true | _ => false end.

Definition saturating_sub (a b : Z) : Z := Z.max 0 (a - b).

Definition decide_hour (existing : ClaimRead) (now stale_pending_secs ack_wait_secs max_wake_attempts : Z) :
    Decision :=
  match existing with
  | Absent => Deliver
  | Corrupt => CorruptClaim
  | Valid claim =>
      if str_eqb (state claim) STATE_DELIVERED then DuplicateHour
      else if str_eqb (state claim) STATE_GCHAT_DELIVERED then
        if negb (has_gchat_ack claim) then CorruptClaim else DuplicateHour
      else if str_eqb (state claim) STATE_WAKE_ACCEPTED then
        let age := saturating_sub now (default (claimed_at claim) (wake_accepted_at claim)) in
        let attempts := wake_attempts claim in
        if max_wake_attempts <=? attempts then AckExhausted age attempts
        else if age <? ack_wait_secs then AwaitingAck age attempts
        else RewakeNoAck age attempts
      else
        let age := saturating_sub now (claimed_at claim) in
        if (0 <? stale_pending_secs) && (stale_pending_secs <=? age) then ReclaimStale age
        else InFlight age
  end.

(** ** A tick *)

Record Args : Type := {
  relay_command : bool;
  hour_arg : option str;
  now_arg : option Z;
  stale_pending_secs : Z;
  ack_wait_secs : Z;
  max_wake_attempts : Z;
  release_on_failure : bool;
  dry_run : bool
}.

Inductive Create : Type := CreateFails | WriteFails | Created.

(** What a tick meets: the clock, its process, the files it looks for, the prompt, the
    answers of the file system, and the exit status and output of the relay. *)
Record TickEnv : Type := {
  te_now : Z;
  te_pid : Z;
  prompt_is_file : bool;
  relay_is_file : bool;
  socket_exists : bool;
  heartbeat_ok : bool;
  prompt_body : option str;
  mkdir_ok : bool;
  remove_ok : bool;
  create : Create;
  message_ok : bool;
  relay_answer : Z * str;
  write_ok : bool
}.

Inductive Outcome : Type :=
| Skipped (reason : str)
| CorruptClaimO
| DuplicateHourO (delivered_at : option Z)
| InFlightO (age_secs : Z)
| AwaitingAckO (age_secs attempts : Z)
| AckMissing (age_secs attempts : Z)
| DryRun (reclaimed : bool)
| LostClaimRace
| WakeAccepted (attempts : Z)
| WakeFailed (rc : Z) (released : bool).

Definition check_preconditions (a : Args) (e : TickEnv) : option str :=
  if negb (prompt_is_file e) then Some (lit "prompt-unreadable")
  else if relay_command a then None
  else if negb (relay_is_file e) then Some (lit "relay-missing")
  else if negb (socket_exists e) then Some (lit "no-tmux-socket")
  else None.

Definition tick_now (a : Args) (e : TickEnv) : Z := default (te_now e) (now_arg a).
Definition tick_hour (a : Args) (e : TickEnv) : str := default (hour_bucket (tick_now a e)) (hour_arg a).

Inductive Plan : Type :=
| Stop (r : result Outcome unit)
| Go (claim : Claim) (replace : bool).

(** [execute] up to the claim: what the tick reads and decides. *)
Definition plan (a : Args) (e : TickEnv) (existing : ClaimRead) : Plan :=
  let now := tick_now a e in
  if negb (dry_run a) && negb (heartbeat_ok e) then Stop (Err tt)
  else
    match check_preconditions a e with
    | Some reason => Stop (Ok (Skipped reason))
    | None =>
        let decision :=
          decide_hour existing now (stale_pending_secs a) (ack_wait_secs a) (max_wake_attempts a) in
        match decision with
        | CorruptClaim => Stop (Ok CorruptClaimO)
        | DuplicateHour =>
            Stop (Ok (DuplicateHourO (match existing with Valid c => delivered_at c | _ => None end)))
        | InFlight age => Stop (Ok (InFlightO age))
        | AwaitingAck age attempts => Stop (Ok (AwaitingAckO age attempts))
        | AckExhausted age attempts => Stop (Ok (AckMissing age attempts))
        | Deliver | ReclaimStale _ | RewakeNoAck _ _ =>
            let reclaimed := match decision with ReclaimStale _ => true | _ => false end in
            let rewake := match decision with RewakeNoAck _ _ => true | _ => false end in
            let prior_attempts := match existing with Valid c => wake_attempts c | _ => 0 end in
            match prompt_body e with
            | None => Stop (Err tt)
            | Some _ =>
                if dry_run a then Stop (Ok (DryRun reclaimed))
                else
                  let new := claim_new (tick_hour a e) STATE_PENDING now (te_pid e) in
                  Go {| c_hour := c_hour new; state := state new; claimed_at := claimed_at new;
                        claimed_by_pid := claimed_by_pid new; delivered_at := delivered_at new;
                        detail :=
                          if reclaimed then Some (lit "reclaimed a stale pending claim")
                          else if rewake then
                            Some ("re-waking: " +++ dec prior_attempts +++
                                  " previous wake(s) produced no GChat acknowledgement")
                          else None;
                        wake_accepted_at := wake_accepted_at new; wake_attempts := prior_attempts;
                        gchat_message_name := gchat_message_name new; gchat_space := gchat_space new;
                        gchat_thread := gchat_thread new; gchat_text_sha256 := gchat_text_sha256 new;
                        gchat_text_bytes := gchat_text_bytes new; gchat_acked_at := gchat_acked_at new |}
                     (reclaimed || rewake)
            end
        end
    end.

(** [try_claim]: the removal, and the creation that succeeds only without a file. *)
Definition remove_claim (e : TickEnv) (replace : bool) (file : ClaimRead) : ClaimRead :=
  if replace && remove_ok e then Absent else file.

Definition create_claim (e : TickEnv) (claim : Claim) (file : ClaimRead) : ClaimRead * result bool unit :=
  match file with
  | Absent =>
      match create e with
      | CreateFails => (Absent, Err tt)
      | WriteFails => (Corrupt, Err tt)
      | Created => (Valid claim, Ok true)
      end
  | _ => (file, Ok false)
  end.

Definition try_claim (e : TickEnv) (claim : Claim) (replace : bool) (file : ClaimRead) :
    ClaimRead * result bool unit :=
  if negb (mkdir_ok e) then (file, Err tt) else create_claim e claim (remove_claim e replace file).

(** [write_claim]: the file is replaced by a rename, or stays as it is. *)
Definition write_claim (ok : bool) (claim : Claim) (file : ClaimRead) : ClaimRead * bool :=
  if ok then (Valid claim, true) else (file, false).

Definition with_wake (c : Claim) (now : Z) : Claim := {|
  c_hour := c_hour c; state := STATE_WAKE_ACCEPTED; claimed_at := claimed_at c;
  claimed_by_pid := claimed_by_pid c; delivered_at := None; detail := None;
  wake_accepted_at := Some now; wake_attempts := Z.min u32_max (wake_attempts c + 1);
  gchat_message_name := gchat_message_name c; gchat_space := gchat_space c;
  gchat_thread := gchat_thread c; gchat_text_sha256 := gchat_text_sha256 c;
  gchat_text_bytes := gchat_text_bytes c; gchat_acked_at := gchat_acked_at c |}.

Definition with_detail (c : Claim) (d : str) : Claim := {|
  c_hour := c_hour c; state := state c; claimed_at := claimed_at c; claimed_by_pid := claimed_by_pid c;
  delivered_at := delivered_at c; detail := Some d; wake_accepted_at := wake_accepted_at c;
  wake_attempts := wake_attempts c; gchat_message_name := gchat_message_name c;
  gchat_space := gchat_space c; gchat_thread := gchat_thread c;
  gchat_text_sha256 := gchat_text_sha256 c; gchat_text_bytes := gchat_text_bytes c;
  gchat_acked_at := gchat_acked_at c |}.

(** [execute] behind the relay. *)
Definition conclude (a : Args) (e : TickEnv) (claim : Claim) (file : ClaimRead) :
    ClaimRead * result Outcome unit :=
  let '(rc, summary) := relay_answer e in
  if rc =? 0 then
    let woken := with_wake claim (tick_now a e) in
    let '(file, ok) := write_claim (write_ok e) woken file in
    (file, if ok then Ok (WakeAccepted (wake_attempts woken)) else Err tt)
  else if release_on_failure a then
    match file with
    | Absent => (Absent, Ok (WakeFailed rc false))
    | _ => if remove_ok e then (Absent, Ok (WakeFailed rc true)) else (file, Ok (WakeFailed rc false))
    end
  else
    let '(file, ok) :=
      write_claim (write_ok e) (with_detail claim ("wake failed rc=" +++ dec rc +++ ": " +++ summary)) file in
    (file, if ok then Ok (WakeFailed rc false) else Err tt).

(** The whole tick: the file, whether the relay was run and with which status. *)
Definition execute (a : Args) (e : TickEnv) (file : ClaimRead) :
    ClaimRead * list Z * result Outcome unit :=
  match plan a e file with
  | Stop r => (file, [], r)
  | Go claim replace =>
      match try_claim e claim replace file with
      | (file, Err _) => (file, [], Err tt)
      | (file, Ok false) => (file, [], Ok LostClaimRace)
      | (file, Ok true) =>
          if negb (message_ok e) then (file, [], Err tt)
          else
            let '(file, r) := conclude a e claim file in
            (file, [(relay_answer e).1], r)
      end
  end.

(** ** Acknowledgements *)

Definition canonical_text_bytes (text : list Z) : list Z :=
  match rev text with
  | 10 :: 13 :: r => rev r
  | 10 :: r => rev r
  | _ => text
  end.

Record AckArgs : Type := {
  ack_hour : str;
  message_name : str;
  ack_space : str;
  ack_thread : str;
  expect_sha256 : option str
}.

Definition count_char (c : Z) (s : str) : nat := length (List.filter (fun d => d =? c) s).

Definition names_in (prefix s : str) : bool := starts_with prefix s && negb (length s =? length prefix)%nat.

Definition validate_gchat_identity (message space thread : str) : bool :=
  forallb (fun v => match trim v with [] => false | _ => true end) [message; space; thread] &&
  starts_with "spaces/" space && (count_char 47 space =? 1)%nat &&
  names_in (space +++ "/messages/") message &&
  names_in (space +++ "/threads/") thread.

Definition ascii_fold (s : str) : str := map (fun c => if (65 <=? c) && (c <=? 90) then c + 32 else c) s.

(** What an acknowledgement meets: the clock, the text file and the file system. *)
Record AckEnv : Type := { ae_now : Z; text : option (list Z); ack_write_ok : bool; ack_log_ok : bool }.

(** The text and its digest, before the claim is read. *)
Definition ack_digest (k : AckArgs) (e : AckEnv) : option (list Z * str) :=
  if negb (validate_gchat_identity (message_name k) (ack_space k) (ack_thread k)) then None
  else
    raw ← text e;
    let t := canonical_text_bytes raw in
    match t with
    | [] => None
    | _ :: _ =>
        let digest := sha256_hex t in
        match expect_sha256 k with
        | Some expected => if str_eqb (ascii_fold expected) (ascii_fold digest) then Some (t, digest) else None
        | None => Some (t, digest)
        end
    end.

Inductive AckPlan : Type := AckStop (r : result bool unit) | AckWrite (c : Claim).

(** The claim that records an acknowledgement. *)
Definition acked_claim (k : AckArgs) (e : AckEnv) (claim : Claim) (t : list Z) (digest : str) : Claim := {|
  c_hour := c_hour claim; state := STATE_GCHAT_DELIVERED; claimed_at := claimed_at claim;
  claimed_by_pid := claimed_by_pid claim;
  delivered_at := match delivered_at claim with Some t => Some t | None => Some (ae_now e) end;
  detail := None; wake_accepted_at := wake_accepted_at claim;
  wake_attempts := wake_attempts claim; gchat_message_name := Some (message_name k);
  gchat_space := Some (ack_space k); gchat_thread := Some (ack_thread k);
  gchat_text_sha256 := Some digest; gchat_text_bytes := Some (Z.of_nat (length t));
  gchat_acked_at := Some (ae_now e) |}.

(** [Ok false] is the repetition of a recorded acknowledgement. *)
Definition ack_plan (k : AckArgs) (e : AckEnv) (existing : ClaimRead) : AckPlan :=
  match ack_digest k e with
  | None => AckStop (Err tt)
  | Some (t, digest) =>
      match existing with
      | Absent | Corrupt => AckStop (Err tt)
      | Valid claim =>
          match gchat_message_name claim with
          | Some name => AckStop (if str_eqb name (message_name k) then Ok false else Err tt)
          | None => AckWrite (acked_claim k e claim t digest)
          end
      end
  end.

Definition ack_commit (e : AckEnv) (c : Claim) (file : ClaimRead) : ClaimRead * result bool unit :=
  let '(file, ok) := write_claim (ack_write_ok e) c file in
  (file, if ok && ack_log_ok e then Ok true else Err tt).

Definition apply_ack (k : AckArgs) (e : AckEnv) (file : ClaimRead) : ClaimRead * result bool unit :=
  match ack_plan k e file with
  | AckStop r => (file, r)
  | AckWrite c => ack_commit e c file
  end.

(** ** Processes *)

(** An invocation between two accesses to the claim file. *)
Inductive proc : Type :=
| TStart (a : Args) (e : TickEnv)
| TRemove (a : Args) (e : TickEnv) (claim : Claim) (replace : bool)
| TCreate (a : Args) (e : TickEnv) (claim : Claim)
| TRelay (a : Args) (e : TickEnv) (claim : Claim)
| TConclude (a : Args) (e : TickEnv) (claim : Claim)
| TDone (r : result Outcome unit)
| AStart (k : AckArgs) (e : AckEnv)
| ACommit (e : AckEnv) (c : Claim)
| ADone (r : result bool unit).

(** One access, with the statuses of the relay runs in it. *)
Definition advance (p : proc) (file : ClaimRead) : proc * ClaimRead * list Z :=
  match p with
  | TStart a e =>
      match plan a e file with
      | Stop r => (TDone r, file, [])
      | Go claim replace => if mkdir_ok e then (TRemove a e claim replace, file, []) else (TDone (Err tt), file, [])
      end
  | TRemove a e claim replace => (TCreate a e claim, remove_claim e replace file, [])
  | TCreate a e claim =>
      match create_claim e claim file with
      | (file, Err _) => (TDone (Err tt), file, [])
      | (file, Ok false) => (TDone (Ok LostClaimRace), file, [])
      | (file, Ok true) => (if message_ok e then TRelay a e claim else TDone (Err tt), file, [])
      end
  | TRelay a e claim => (TConclude a e claim, file, [(relay_answer e).1])
  | TConclude a e claim => let '(file, r) := conclude a e claim file in (TDone r, file, [])
  | AStart k e =>
      match ack_plan k e file with
      | AckStop r => (ADone r, file, [])
      | AckWrite c => (ACommit e c, file, [])
      end
  | ACommit e c => let '(file, r) := ack_commit e c file in (ADone r, file, [])
  | TDone _ | ADone _ => (p, file, [])
  end.

(** The invocations of an hour, its claim file, and the relay runs so far. *)
Record system : Type := { procs : list proc; file : ClaimRead; relays : list Z }.

Inductive step : system -> system -> Prop :=
| step_at s i p p' f w :
    procs s !! i = Some p -> advance p (file s) = (p', f, w) ->
    step s {| procs := <[i := p']> (procs s); file := f; relays := relays s ++ w |}.

(** Following a schedule: the indices of the processes that move. *)
Fixpoint follow (schedule : list nat) (s : system) : system :=
  match schedule with
  | [] => s
  | i :: schedule =>
      follow schedule
        match procs s !! i with
        | None => s
        | Some p =>
            let '(p', f, w) := advance p (file s) in
            {| procs := <[i := p']> (procs s); file := f; relays := relays s ++ w |}
        end
  end.
