(* ===== verification/Calendar.v ===== *)
(** The civil calendar of the scripts ([civil_from_days] of
    [scripts/hourly-status-relay.rs]) is the Gregorian one, and the key of an hour tells
    hours apart. *)

From stdpp Require Import list.
From S2P Require Import Prelude Text Ledger Sha256 Relay.

#[local] Open Scope Z_scope.

(** ** The Gregorian calendar *)

Definition leap (y : Z) : bool := ((y mod 4 =? 0) && negb (y mod 100 =? 0)) || (y mod 400 =? 0).

Definition days_in_month (y m : Z) : Z :=
  if m =? 2 then if leap y then 29 else 28
  else if (m =? 4) || (m =? 6) || (m =? 9) || (m =? 11) then 30 else 31.

Definition valid_date (date : Z * Z * Z) : bool :=
  let '(y, m, d) := date in (1 <=? m) && (m <=? 12) && (1 <=? d) && (d <=? days_in_month y m).

(** The days from 1 January of year 1 to that of year [y], and to the first of a month. *)
Definition days_before_year (y : Z) : Z := 365 * (y - 1) + (y - 1) / 4 - (y - 1) / 100 + (y - 1) / 400.
Definition days_before_month (y m : Z) : Z :=
  fold_right Z.add 0 (map (days_in_month y) (map Z.of_nat (seq 1 (Z.to_nat (m - 1))))).

(** The number of a date, counted from 1 January 1970. *)
Definition day_number (date : Z * Z * Z) : Z :=
  let '(y, m, d) := date in days_before_year y + days_before_month y m + (d - 1) - 719162.

(** ** Checks by computation *)

Fixpoint check_from (k : nat) (z : Z) (f : Z -> bool) : bool :=
  match k with O => true | S k => f z && check_from k (z + 1) f end.

Lemma check_from_spec k z f n : check_from k z f = true -> z <= n < z + Z.of_nat k -> f n = true.
Proof.
  revert z. induction k as [|k IH]; intros z; cbn [check_from]; [lia|].
  intros [Hz Hk]%andb_true_iff Hn. destruct (decide (n = z)) as [->|]; [done|]. apply (IH (z + 1)); [done | lia].
Qed.

(** ** All eras *)

Definition shift_years (k : Z) (date : Z * Z * Z) : Z * Z * Z :=
  let '(y, m, d) := date in (y + 400 * k, m, d).

Lemma leap_shift y k : leap (y + 400 * k) = leap y.
Proof.
  unfold leap. replace (y + 400 * k) with (y + (100 * k) * 4) by lia. rewrite Z.mod_add by lia.
  replace (y + 100 * k * 4) with (y + (4 * k) * 100) by lia. rewrite Z.mod_add by lia.
  replace (y + 4 * k * 100) with (y + k * 400) by lia. by rewrite Z.mod_add by lia.
Qed.

Lemma days_in_month_shift y k m : days_in_month (y + 400 * k) m = days_in_month y m.
Proof. unfold days_in_month. by rewrite leap_shift. Qed.

Lemma valid_shift k date : valid_date (shift_years k date) = valid_date date.
Proof. destruct date as [[y m] d]. cbn. by rewrite days_in_month_shift. Qed.

Lemma days_before_year_shift y k : days_before_year (y + 400 * k) = days_before_year y + 146097 * k.
Proof.
  unfold days_before_year. replace (y + 400 * k - 1) with (y - 1 + 400 * k) by lia.
  replace (y - 1 + 400 * k) with (y - 1 + (100 * k) * 4) at 2 by lia. rewrite Z.div_add by lia.
  replace (y - 1 + 400 * k) with (y - 1 + (4 * k) * 100) at 2 by lia. rewrite Z.div_add by lia.
  replace (y - 1 + 400 * k) with (y - 1 + k * 400) at 2 by lia. rewrite Z.div_add by lia. lia.
Qed.

Lemma day_number_shift k date : day_number (shift_years k date) = day_number date + 146097 * k.
Proof.
  destruct date as [[y m] d]. unfold day_number, shift_years, days_before_month. rewrite days_before_year_shift.
  rewrite (map_ext _ (days_in_month y)) by (intros; apply days_in_month_shift). lia.
Qed.

(** The era of the source is the quotient rounded down. *)
Lemma era_div z : Z.quot (if 0 <=? z then z else z - 146096) 146097 = z / 146097.
Proof.
  destruct (Z.leb_spec 0 z) as [Hz|Hz]; [by rewrite Z.quot_div_nonneg by lia|].
  replace (z - 146096) with (- (146096 - z)) by lia. rewrite Z.quot_opp_l, Z.quot_div_nonneg by lia.
  pose proof (Z.div_mod z 146097 ltac:(lia)). pose proof (Z.mod_pos_bound z 146097 ltac:(lia)).
  enough ((146096 - z) / 146097 = - (z / 146097)) by lia.
  symmetry. apply (Z.div_unique _ _ _ (146096 - z mod 146097)); lia.
Qed.

(** A day of an era, with the number of the era. *)
Definition in_era (doe era : Z) : Z * Z * Z :=
  let yoe := Z.quot (doe - Z.quot doe 1460 + Z.quot doe 36524 - Z.quot doe 146096) 365 in
  let doy := doe - (365 * yoe + Z.quot yoe 4 - Z.quot yoe 100) in
  let mp := Z.quot (5 * doy + 2) 153 in
  let m := if mp <? 10 then mp + 3 else mp - 9 in
  ((if m <=? 2 then yoe + era * 400 + 1 else yoe + era * 400), m, doy - Z.quot (153 * mp + 2) 5 + 1).

Lemma civil_in_era z : civil_from_days (z - 719468) = in_era (z mod 146097) (z / 146097).
Proof.
  pose proof (Z.div_mod z 146097 ltac:(lia)).
  unfold civil_from_days. rewrite Z.sub_add, era_div.
  replace (z - z / 146097 * 146097) with (z mod 146097) by lia. reflexivity.
Qed.

Lemma in_era_shift doe k : in_era doe k = shift_years k (in_era doe 0).
Proof.
  unfold in_era. cbv zeta. set (m := if _ <? 10 then _ else _). clearbody m.
  unfold shift_years. f_equal. f_equal. destruct (m <=? 2); lia.
Qed.

(** ** One era

    The years of an era start in March: year [y] of it starts at day [year_start y] and
    has the leap day of the calendar year [y + 1] at its end. *)

Definition year_of (doe : Z) : Z :=
  Z.quot (doe - Z.quot doe 1460 + Z.quot doe 36524 - Z.quot doe 146096) 365.
Definition year_start (y : Z) : Z := 365 * y + y / 4 - y / 100 + y / 400.
Definition year_days (y : Z) : Z := if leap (y + 1) then 366 else 365.

Definition month_of (doy : Z) : Z := let mp := Z.quot (5 * doy + 2) 153 in if mp <? 10 then mp + 3 else mp - 9.
Definition day_of (doy : Z) : Z := doy - Z.quot (153 * Z.quot (5 * doy + 2) 153 + 2) 5 + 1.

(** The formula for the year is right at both ends of a year, and the years of the
    calendar start where they should. *)
Definition year_ok (y : Z) : bool :=
  (year_of (year_start y) =? y) && (year_of (year_start y + year_days y - 1) =? y) &&
  (year_start (y + 1) =? year_start y + year_days y) &&
  (days_before_year y + 59 + (if leap y then 1 else 0) =? year_start y - 306) &&
  (days_before_year (y + 1) =? year_start y) &&
  (365 * y + Z.quot y 4 - Z.quot y 100 =? year_start y).

Lemma years_checked : check_from 400 0 year_ok = true.
Proof. vm_compute. reflexivity. Qed.

(** A year like [y], of those that have a leap day and those that have none. *)
Definition like (l : bool) : Z := if l then 4 else 1.

Lemma days_in_month_like y m : days_in_month y m = days_in_month (like (leap y)) m.
Proof. unfold days_in_month. by destruct (leap y). Qed.

Lemma days_before_month_like y m : days_before_month y m = days_before_month (like (leap y)) m.
Proof. unfold days_before_month. by rewrite (map_ext _ _ (days_in_month_like y)). Qed.

(** A day of a year that starts in March, in a calendar year that is leap or not: its
    month and day are valid and count to it. *)
Definition day_ok (l : bool) (doy : Z) : bool :=
  let m := month_of doy in
  let d := day_of doy in
  let days := days_before_month (like l) m + (d - 1) in
  (1 <=? m) && (m <=? 12) && (1 <=? d) &&
  if m <=? 2 then (days =? doy - 306) && ((d <=? days_in_month (like l) m) || ((doy =? 365) && negb l))
  else (days =? doy + 59 + (if l then 1 else 0)) && (d <=? days_in_month (like l) m).

Lemma days_checked l : check_from 366 0 (day_ok l) = true.
Proof. destruct l; vm_compute; reflexivity. Qed.

Lemma quot_div_step a b : 0 < b -> 0 <= a -> Z.quot a b <= Z.quot (a + 1) b <= Z.quot a b + 1.
Proof.
  intros Hb Ha. rewrite !Z.quot_div_nonneg by lia.
  pose proof (Z.div_mod a b ltac:(lia)). pose proof (Z.mod_pos_bound a b ltac:(lia)).
  pose proof (Z.div_mod (a + 1) b ltac:(lia)). pose proof (Z.mod_pos_bound (a + 1) b ltac:(lia)). nia.
Qed.

(** The formula for the year never decreases within an era. *)
Lemma year_of_mono doe k : 0 <= doe -> doe + Z.of_nat k < 146097 -> year_of doe <= year_of (doe + Z.of_nat k).
Proof.
  intros Hd. induction k as [|k IH]; intros Hk; [by rewrite Z.add_0_r|]. etrans; [apply IH; lia|].
  replace (doe + Z.of_nat (S k)) with (doe + Z.of_nat k + 1) by lia. set (n := doe + Z.of_nat k) in *.
  unfold year_of. pose proof (quot_div_step n 1460 ltac:(lia) ltac:(lia)).
  pose proof (quot_div_step n 36524 ltac:(lia) ltac:(lia)).
  assert (Hlast : Z.quot (n + 1) 146096 = Z.quot n 146096 \/ n = 146095).
  { destruct (decide (n = 146095)); [by right|]. left. rewrite !Z.quot_small by lia. done. }
  destruct Hlast as [Hl|Hl]; [|rewrite Hl; vm_compute; discriminate].
  assert (Hg : 0 <= n - Z.quot n 1460 + Z.quot n 36524 - Z.quot n 146096).
  { rewrite !Z.quot_div_nonneg by lia. pose proof (Z.div_le_upper_bound n 1460 n ltac:(lia) ltac:(lia)).
    destruct (decide (n < 146096)); [rewrite (Z.div_small n 146096) by lia; pose proof (Z.div_pos n 36524); lia|].
    assert (n = 146096) as -> by lia. vm_compute. discriminate. }
  rewrite !Z.quot_div_nonneg by lia. apply Z.div_le_mono; [lia|]. rewrite <- !Z.quot_div_nonneg by lia. lia.
Qed.

(** Every day of an era lies in one of its years. *)
Lemma year_exists doe : 0 <= doe < 146097 ->
  exists y, 0 <= y < 400 /\ year_start y <= doe < year_start y + year_days y /\ year_ok y = true.
Proof.
  intros Hd. assert (Hfind : forall k, (k <= 400)%nat -> doe < year_start (Z.of_nat k) ->
    exists y, 0 <= y < 400 /\ year_start y <= doe < year_start y + year_days y /\ year_ok y = true).
  { induction k as [|k IH]; intros Hk Hlt; [change (year_start (Z.of_nat 0)) with 0 in Hlt; lia|].
    assert (Hok : year_ok (Z.of_nat k) = true) by (apply (check_from_spec _ _ _ _ years_checked); lia).
    destruct (Z_lt_le_dec doe (year_start (Z.of_nat k))) as [Hl|Hl]; [apply IH; [lia | done]|].
    exists (Z.of_nat k). pose proof Hok as Hok'. unfold year_ok in Hok'. rewrite !andb_true_iff in Hok'.
    replace (Z.of_nat (S k)) with (Z.of_nat k + 1) in Hlt by lia. split; [lia|]. split; [lia | done]. }
  apply (Hfind 400%nat); [done|]. change (year_start (Z.of_nat 400)) with 146097. lia.
Qed.

(** The date of a day of an era, by its year and its day in the year. *)
Lemma in_era_year doe : 0 <= doe < 146097 -> exists y doy,
  0 <= y < 400 /\ 0 <= doy < year_days y /\ doe = year_start y + doy /\ year_ok y = true /\
  in_era doe 0 = ((if month_of doy <=? 2 then y + 1 else y), month_of doy, day_of doy).
Proof.
  intros Hd. destruct (year_exists doe Hd) as (y & Hy & Hrange & Hok). exists y, (doe - year_start y).
  split; [done|]. split; [lia|]. split; [lia|]. split; [done|].
  unfold year_ok in Hok. rewrite !andb_true_iff, !Z.eqb_eq in Hok. destruct Hok as (((((Hs & He) & Hn) & _) & _) & Hq).
  assert (H0 : 0 <= year_start y).
  { unfold year_start. rewrite <- (Z.quot_div_nonneg y 400) by lia. rewrite (Z.quot_small y 400) by lia.
    pose proof (Z.div_le_upper_bound y 100 y ltac:(lia) ltac:(lia)). pose proof (Z.div_pos y 4). lia. }
  assert (Hend : year_start y + year_days y <= 146097).
  { clear -Hy. assert (Hb : check_from 400 0 (fun y => year_start y + year_days y <=? 146097) = true)
      by (vm_compute; reflexivity). pose proof (check_from_spec _ _ _ y Hb ltac:(lia)) as H. cbn beta in H. lia. }
  assert (Hyear : year_of doe = y).
  { pose proof (year_of_mono (year_start y) (Z.to_nat (doe - year_start y)) ltac:(lia) ltac:(lia)) as H1.
    pose proof (year_of_mono doe (Z.to_nat (year_start y + year_days y - 1 - doe)) ltac:(lia) ltac:(lia)) as H2.
    rewrite Z2Nat.id in H1, H2 by lia. replace (year_start y + (doe - year_start y)) with doe in H1 by lia.
    replace (doe + (year_start y + year_days y - 1 - doe)) with (year_start y + year_days y - 1) in H2 by lia. lia. }
  unfold in_era. fold (year_of doe). rewrite Hyear, Hq. cbv zeta. fold (day_of (doe - year_start y)).
  fold (month_of (doe - year_start y)). rewrite Z.mul_0_l, Z.add_0_r. done.
Qed.

Lemma leap_days y doy : 0 <= doy < year_days y -> doy = 365 -> leap (y + 1) = true.
Proof. unfold year_days. destruct (leap (y + 1)); [done | lia]. Qed.

Lemma in_era_exact doe : 0 <= doe < 146097 ->
  valid_date (in_era doe 0) = true /\ day_number (in_era doe 0) = doe - 719468.
Proof.
  intros Hd. destruct (in_era_year doe Hd) as (y & doy & Hy & Hdoy & -> & Hok & ->).
  unfold year_ok in Hok. rewrite !andb_true_iff, !Z.eqb_eq in Hok. destruct Hok as ((((_ & _) & Hleap) & Hnext) & _).
  assert (H366 : 0 <= doy < 366) by (unfold year_days in Hdoy; destruct (leap (y + 1)); lia).
  pose proof (leap_days y doy Hdoy) as H365.
  destruct (Z.leb_spec (month_of doy) 2) as [Hm|Hm].
  - pose proof (check_from_spec _ _ _ doy (days_checked (leap (y + 1))) ltac:(lia)) as Hc. unfold day_ok in Hc.
    rewrite (proj2 (Z.leb_le (month_of doy) 2) Hm) in Hc. rewrite !andb_true_iff, orb_true_iff, Z.eqb_eq in Hc.
    destruct Hc as (((H1 & H2) & H3) & Hn & Hv). split.
    + cbn. rewrite (days_in_month_like (y + 1)), H1, H2, H3. cbn. destruct Hv as [Hv|[He Hl]%andb_true_iff]; [done|].
      rewrite H365 in Hl by lia. done.
    + cbn. rewrite days_before_month_like, Hnext. lia.
  - pose proof (check_from_spec _ _ _ doy (days_checked (leap y)) ltac:(lia)) as Hc. unfold day_ok in Hc.
    rewrite (proj2 (Z.leb_gt (month_of doy) 2) Hm) in Hc. rewrite !andb_true_iff, Z.eqb_eq in Hc.
    destruct Hc as (((H1 & H2) & H3) & Hn & Hv). split.
    + cbn. rewrite (days_in_month_like y), H1, H2, H3. done.
    + cbn. rewrite days_before_month_like. lia.
Qed.

(** The dates are those of the calendar, on every day. *)
Lemma civil_exact days : valid_date (civil_from_days days) = true /\ day_number (civil_from_days days) = days.
Proof.
  pose proof (civil_in_era (days + 719468)) as Hs. rewrite Z.add_simpl_r in Hs. rewrite Hs.
  set (z := days + 719468) in *.
  pose proof (Z.div_mod z 146097 ltac:(lia)). pose proof (Z.mod_pos_bound z 146097 ltac:(lia)) as Hb.
  rewrite in_era_shift. destruct (in_era_exact _ Hb) as [Hv Hn].
  rewrite valid_shift, day_number_shift. split; [done|]. lia.
Qed.

Lemma civil_inj d d' : civil_from_days d = civil_from_days d' -> d = d'.
Proof. intros He. rewrite <- (proj2 (civil_exact d)), <- (proj2 (civil_exact d')). by rewrite He. Qed.

(** ** The key of an hour *)

Definition num (s : str) : Z := fold_left (fun acc c => acc * 10 + (c - 48)) s 0.

Lemma num_snoc s c : num (s ++ [c]) = num s * 10 + (c - 48).
Proof. unfold num. by rewrite fold_left_app. Qed.

Lemma num_zeros k s : num (replicate k 48 ++ s) = num s.
Proof.
  unfold num. rewrite fold_left_app. f_equal. induction k as [|k IH]; [done|]. cbn [replicate fold_left]. done.
Qed.

Lemma num_digits k n : 0 <= n < 2 ^ (Z.of_nat k + 1) -> num (digits k n) = n.
Proof.
  revert n. induction k as [|k IH]; intros n Hn; cbn [digits].
  - assert (n = 0 \/ n = 1) as [->| ->] by (cbn in Hn; lia); reflexivity.
  - destruct (Z.ltb_spec n 10); [unfold num; cbn; lia|]. rewrite num_snoc, IH.
    + pose proof (Z.div_mod n 10 ltac:(lia)). lia.
    + replace (Z.of_nat (S k) + 1) with (1 + (Z.of_nat k + 1)) in Hn by lia.
      rewrite Z.pow_add_r in Hn by lia. split; [apply Z.div_pos; lia|].
      apply Z.div_lt_upper_bound; lia.
Qed.

Lemma num_pad w n : 0 <= n -> num (pad w n) = n.
Proof.
  intros Hn. unfold pad. rewrite num_zeros. unfold dec. rewrite Z.abs_eq by done.
  destruct (Z.ltb_spec n 0); [lia|]. apply num_digits. rewrite Z2Nat.id by apply Z.log2_nonneg.
  destruct (decide (n = 0)) as [->|]; [done|]. pose proof (Z.log2_spec n ltac:(lia)). lia.
Qed.

Lemma digits_length k n j : 0 <= n < 10 ^ (Z.of_nat j + 1) -> (length (digits k n) <= j + 1)%nat.
Proof.
  revert n j. induction k as [|k IH]; intros n j Hn; cbn [digits]; [cbn; lia|].
  destruct (Z.ltb_spec n 10) as [|Hge]; [cbn; lia|]. destruct j as [|j]; [cbn in Hn; lia|].
  rewrite length_app. cbn [length]. specialize (IH (n / 10) j).
  replace (Z.of_nat (S j) + 1) with (1 + (Z.of_nat j + 1)) in Hn by lia. rewrite Z.pow_add_r in Hn by lia.
  assert (0 <= n / 10 < 10 ^ (Z.of_nat j + 1)) by (split; [apply Z.div_pos; lia | apply Z.div_lt_upper_bound; lia]).
  specialize (IH ltac:(done)). lia.
Qed.

Lemma pad_length w n : 0 <= n < 10 ^ (Z.of_nat w + 1) -> length (pad (S w) n) = S w.
Proof.
  intros Hn. unfold pad. rewrite length_app, length_replicate. enough (length (dec n) <= S w)%nat by lia.
  unfold dec. rewrite Z.abs_eq by lia. destruct (Z.ltb_spec n 0); [lia|].
  pose proof (digits_length (Z.to_nat (Z.log2 n)) n w Hn). lia.
Qed.

Lemma pad2_length n : 0 <= n < 100 -> length (pad 2 n) = 2%nat.
Proof. apply (pad_length 1). Qed.

Lemma pad_inj w n n' : 0 <= n -> 0 <= n' -> pad w n = pad w n' -> n = n'.
Proof. intros Hn Hn' He. rewrite <- (num_pad w n), <- (num_pad w n') by done. by rewrite He. Qed.

(** The parts of a key are told apart by their lengths. *)
Lemma key_parts_inj y m d h y' m' d' h' :
  length m = 2%nat -> length d = 2%nat -> length h = 2%nat ->
  length m' = 2%nat -> length d' = 2%nat -> length h' = 2%nat ->
  y +++ "-" +++ m +++ "-" +++ d +++ "T" +++ h = y' +++ "-" +++ m' +++ "-" +++ d' +++ "T" +++ h' ->
  y = y' /\ m = m' /\ d = d' /\ h = h'.
Proof.
  intros Hm Hd Hh Hm' Hd' Hh' He.
  apply app_inj_2 in He as [-> He]; [|rewrite !length_app; lia].
  apply app_inv_head in He. apply app_inj_1 in He as [-> He]; [|lia].
  apply app_inv_head in He. apply app_inj_1 in He as [-> He]; [|lia].
  apply app_inv_head in He. done.
Qed.

Lemma date_bounds date : valid_date date = true ->
  let '(y, m, d) := date in 1 <= m <= 12 /\ 1 <= d <= 31.
Proof.
  destruct date as [[y m] d]. cbn. intros [[[H1 H2]%andb_true_iff H3]%andb_true_iff H4]%andb_true_iff.
  split; [lia|]. split; [lia|]. apply Z.leb_le in H4. unfold days_in_month in H4. by repeat case_match; lia.
Qed.

(** The years of days since 1970 are positive. *)
Lemma year_positive days : 0 <= days -> 0 <= (civil_from_days days).1.1.
Proof.
  intros Hd. destruct (civil_exact days) as [Hv Hn]. destruct (civil_from_days days) as [[y m] d].
  pose proof (date_bounds _ Hv) as [Hm Hdd]. cbn in Hn |- *.
  assert (Hbm : days_before_month y m <= 372).
  { unfold days_before_month. assert (Hk : (Z.to_nat (m - 1) <= 11)%nat) by lia. clear -Hk.
    set (k := Z.to_nat (m - 1)) in *. clearbody k.
    assert (Hg : forall l, fold_right Z.add 0 (map (days_in_month y) l) <= 31 * Z.of_nat (length l)).
    { induction l as [|x l IH]; cbn [map fold_right length]; [lia|].
      assert (days_in_month y x <= 31) by (unfold days_in_month; repeat case_match; lia). lia. }
    specialize (Hg (map Z.of_nat (seq 1 k))). rewrite length_map, length_seq in Hg. lia. }
  destruct (Z_lt_le_dec y 0) as [Hy|]; [|done]. unfold days_before_year in Hn.
  pose proof (Z.div_mod (y - 1) 4 ltac:(lia)). pose proof (Z.mod_pos_bound (y - 1) 4 ltac:(lia)).
  pose proof (Z.div_mod (y - 1) 100 ltac:(lia)). pose proof (Z.mod_pos_bound (y - 1) 100 ltac:(lia)).
  pose proof (Z.div_mod (y - 1) 400 ltac:(lia)). pose proof (Z.mod_pos_bound (y - 1) 400 ltac:(lia)). lia.
Qed.

(** An instant is its day and its second. *)
Lemma same_hour e e' : 0 <= e -> 0 <= e' ->
  e / 3600 = e' / 3600 <-> e / 86400 = e' / 86400 /\ e mod 86400 / 3600 = e' mod 86400 / 3600.
Proof.
  intros _ _. assert (Hq : forall x, x / 3600 = 24 * (x / 86400) + x mod 86400 / 3600).
  { intros x. rewrite (Z.div_mod x 86400) at 1 by lia.
    replace (86400 * (x / 86400) + x mod 86400) with (x mod 86400 + (24 * (x / 86400)) * 3600) by lia.
    rewrite Z.div_add by lia. lia. }
  assert (Hb : forall x, 0 <= x mod 86400 / 3600 < 24).
  { intros x. pose proof (Z.mod_pos_bound x 86400 ltac:(lia)). split; [apply Z.div_pos; lia|].
    apply Z.div_lt_upper_bound; lia. }
  rewrite (Hq e), (Hq e'). pose proof (Hb e). pose proof (Hb e'). lia.
Qed.

(** The key of an hour.  On every day the driver computes the date of the Gregorian
    calendar: a valid date whose number is that day.  And two instants have the same key
    exactly when they lie in the same hour, so the claim file of an hour is shared by the
    ticks of that hour and by no others. *)
Theorem hour_key_exact e e' : 0 <= e -> 0 <= e' ->
  (valid_date (civil_from_days (e / 86400)) = true /\ day_number (civil_from_days (e / 86400)) = e / 86400) /\
  (hour_bucket e = hour_bucket e' <-> e / 3600 = e' / 3600).
Proof.
  intros He He'. split; [apply civil_exact|]. rewrite same_hour by done. unfold hour_bucket. split.
  - destruct (civil_exact (e / 86400)) as [Hv _], (civil_exact (e' / 86400)) as [Hv' _].
    pose proof (year_positive (e / 86400) ltac:(apply Z.div_pos; lia)) as Hy.
    pose proof (year_positive (e' / 86400) ltac:(apply Z.div_pos; lia)) as Hy'.
    pose proof (civil_inj (e / 86400) (e' / 86400)) as Hinj.
    destruct (civil_from_days (e / 86400)) as [[y m] d], (civil_from_days (e' / 86400)) as [[y' m'] d'].
    apply date_bounds in Hv, Hv'. cbn in Hy, Hy'.
    assert (Hb : forall x, 0 <= x mod 86400 / 3600 < 100).
    { intros x. pose proof (Z.mod_pos_bound x 86400 ltac:(lia)). split; [apply Z.div_pos; lia|].
      apply Z.div_lt_upper_bound; lia. }
    intros Hkey. apply key_parts_inj in Hkey as (Hky & Hkm & Hkd & Hkh);
      [| apply pad2_length; first [lia | apply Hb]..].
    apply pad_inj in Hky, Hkm, Hkd, Hkh; try lia; try apply Hb.
    split; [apply Hinj; congruence | done].
  - intros [-> ->]. done.
Qed.

Lemma hour_key_exact_witness : hour_bucket 1786147199 = hour_bucket 1786143600.
Proof. apply (hour_key_exact 1786147199 1786143600); [lia | lia | reflexivity]. Defined.

(** ** The order of hours *)

Definition date_code (date : Z * Z * Z) : Z := let '(y, m, d) := date in (y * 100 + m) * 100 + d.

(** The part of the code within a year that starts in March. *)
Definition month_code (doy : Z) : Z := (if month_of doy <=? 2 then 10000 else 0) + month_of doy * 100 + day_of doy.

Definition code_grows (doy : Z) : bool := (month_code doy <? month_code (doy + 1)) && (month_code doy <? 10301).

Lemma codes_checked : check_from 366 0 code_grows = true.
Proof. vm_compute. reflexivity. Qed.

Lemma in_era_code doe : 0 <= doe < 146097 -> exists y doy,
  0 <= y < 400 /\ 0 <= doy < year_days y /\ doe = year_start y + doy /\ year_ok y = true /\
  date_code (in_era doe 0) = y * 10000 + month_code doy.
Proof.
  intros Hd. destruct (in_era_year doe Hd) as (y & doy & Hy & Hdoy & He & Hok & ->). exists y, doy.
  split_and!; try done; try lia. unfold date_code, month_code. destruct (month_of doy <=? 2); lia.
Qed.

(** The start of a year tells the years apart. *)
Lemma year_unique y y' doy doy' : 0 <= y < 400 -> 0 <= y' < 400 -> 0 <= doy < year_days y -> 0 <= doy' < year_days y' ->
  year_ok y = true -> year_start y + doy + 1 = year_start y' + doy' ->
  y = y' /\ doy' = doy + 1 \/ y' = y + 1 /\ doy' = 0.
Proof.
  intros Hy Hy' Hd Hd' Hok He. unfold year_ok in Hok. rewrite !andb_true_iff, !Z.eqb_eq in Hok.
  destruct Hok as (((((_ & _) & Hn) & _) & _) & _).
  assert (Hmono : forall u v, u < v -> year_start u + 365 <= year_start v).
  { intros u v Huv. unfold year_start. pose proof (Z.div_le_mono u v 400 ltac:(lia) ltac:(lia)).
    pose proof (Z.div_mod u 4 ltac:(lia)). pose proof (Z.mod_pos_bound u 4 ltac:(lia)).
    pose proof (Z.div_mod v 4 ltac:(lia)). pose proof (Z.mod_pos_bound v 4 ltac:(lia)).
    pose proof (Z.div_mod u 100 ltac:(lia)). pose proof (Z.mod_pos_bound u 100 ltac:(lia)).
    pose proof (Z.div_mod v 100 ltac:(lia)). pose proof (Z.mod_pos_bound v 100 ltac:(lia)). lia. }
  assert (Hlen : forall u, year_days u <= 366) by (intros u; unfold year_days; destruct (leap (u + 1)); lia).
  destruct (Z.lt_trichotomy y y') as [Hlt|[->|Hgt]].
  - right. destruct (decide (y' = y + 1)) as [->|Hne]; [lia|].
    pose proof (Hmono (y + 1) y' ltac:(lia)). lia.
  - left. lia.
  - pose proof (Hmono y' y Hgt) as Hm. pose proof (Hlen y'). exfalso. lia.
Qed.

(** A later day has a later date. *)
Lemma date_code_succ z : date_code (civil_from_days z) < date_code (civil_from_days (z + 1)).
Proof.
  set (n := z + 719468). pose proof (Z.div_mod n 146097 ltac:(lia)). pose proof (Z.mod_pos_bound n 146097 ltac:(lia)) as Hb.
  set (doe := n mod 146097) in *. set (k := n / 146097) in *.
  assert (Hcode : forall doe k, date_code (in_era doe k) = date_code (in_era doe 0) + 4000000 * k).
  { intros. rewrite in_era_shift. destruct (in_era doe0 0) as [[y m] d]. cbn. lia. }
  replace z with (n - 719468) by lia. replace (n - 719468 + 1) with (n + 1 - 719468) by lia.
  rewrite !civil_in_era. fold doe k. destruct (in_era_code doe Hb) as (y & doy & Hy & Hdoy & He & Hok & Hc).
  assert (H366 : 0 <= doy < 366) by (unfold year_days in Hdoy; destruct (leap (y + 1)); lia).
  pose proof (check_from_spec _ _ _ doy codes_checked ltac:(lia)) as Hg.
  apply andb_true_iff in Hg as [Hg1%Z.ltb_lt Hg2%Z.ltb_lt].
  destruct (decide (doe = 146096)) as [Hlast|Hlast].
  - replace ((n + 1) mod 146097) with 0 by (apply (Z.mod_unique _ _ (k + 1)); lia).
    replace ((n + 1) / 146097) with (k + 1) by (apply (Z.div_unique _ _ _ 0); lia).
    rewrite (Hcode doe k), (Hcode 0 (k + 1)), Hc. change (date_code (in_era 0 0)) with 301. lia.
  - replace ((n + 1) mod 146097) with (doe + 1) by (apply (Z.mod_unique _ _ k); lia).
    replace ((n + 1) / 146097) with k by (apply (Z.div_unique _ _ _ (doe + 1)); lia).
    destruct (in_era_code (doe + 1) ltac:(lia)) as (y' & doy' & Hy' & Hdoy' & He' & _ & Hc').
    rewrite (Hcode doe k), (Hcode (doe + 1) k), Hc, Hc'.
    destruct (year_unique y y' doy doy' Hy Hy' Hdoy Hdoy' Hok ltac:(lia)) as [[<- ->]|[-> ->]]; [lia|].
    change (month_code 0) with 301. lia.
Qed.

Lemma date_code_lt z z' : z < z' -> date_code (civil_from_days z) < date_code (civil_from_days z').
Proof.
  intros Hz. replace z' with (z + 1 + Z.of_nat (Z.to_nat (z' - z - 1))) by lia. clear Hz.
  induction (Z.to_nat (z' - z - 1)) as [|k IH]; [rewrite Z.add_0_r; apply date_code_succ|].
  etrans; [exact IH|]. pose proof (date_code_succ (z + 1 + Z.of_nat k)) as Hs.
  by replace (z + 1 + Z.of_nat (S k)) with (z + 1 + Z.of_nat k + 1) by lia.
Qed.

(** ** The order of digits *)

Definition digit_string (s : str) : Prop := Forall (fun c => 48 <= c <= 57) s.

Lemma num_cons c s : num (c :: s) = (c - 48) * 10 ^ Z.of_nat (length s) + num s.
Proof.
  induction s as [|d s IH] using rev_ind; [unfold num; cbn; lia|].
  rewrite app_comm_cons, !num_snoc, IH, length_app. cbn [length].
  rewrite Nat2Z.inj_add, Z.pow_add_r by lia. lia.
Qed.

Lemma num_bound s : digit_string s -> 0 <= num s < 10 ^ Z.of_nat (length s).
Proof.
  induction 1 as [|c s Hc _ IH]; [done|]. rewrite num_cons. cbn [length]. rewrite Nat2Z.inj_succ, Z.pow_succ_r by lia. nia.
Qed.

(** Digits of one length compare like the numbers. *)
Lemma str_leb_num a b : digit_string a -> digit_string b -> length a = length b -> str_leb a b = (num a <=? num b).
Proof.
  intros Ha. revert b. induction Ha as [|c a Hc Ha IH]; intros [|d b] Hb Hl; try done.
  apply list.Forall_cons in Hb as [Hd Hb]. injection Hl as Hl. cbn [str_leb].
  pose proof (num_bound a Ha). pose proof (num_bound b Hb). rewrite !num_cons, Hl in *.
  destruct (Z.ltb_spec c d); [symmetry; apply Z.leb_le; nia|].
  destruct (Z.eqb_spec c d) as [->|].
  - rewrite IH by done. destruct (Z.leb_spec (num a) (num b)); symmetry; [apply Z.leb_le | apply Z.leb_gt]; lia.
  - symmetry. apply Z.leb_gt. nia.
Qed.

Lemma str_leb_app a b x y : length a = length b ->
  str_leb (a ++ x) (b ++ y) = if str_eqb a b then str_leb x y else str_leb a b.
Proof.
  revert b. induction a as [|c a IH]; intros [|d b] Hl; try done. injection Hl as Hl. cbn [app str_leb].
  rewrite (IH b Hl). destruct (Z.ltb_spec c d).
  - destruct (str_eqb_spec (c :: a) (d :: b)); [simplify_eq; lia | done].
  - destruct (Z.eqb_spec c d) as [->|].
    + destruct (str_eqb_spec a b) as [->|]; [by rewrite str_eqb_refl|].
      destruct (str_eqb_spec (d :: a) (d :: b)); [by simplify_eq | done].
    + destruct (str_eqb_spec (c :: a) (d :: b)); [by simplify_eq | done].
Qed.

Lemma pad_digits w n : 0 <= n -> digit_string (pad w n).
Proof.
  intros Hn. unfold pad, digit_string. apply Forall_app. split; [apply Forall_replicate; lia|].
  unfold dec. rewrite Z.abs_eq by done. destruct (Z.ltb_spec n 0); [lia|]. by apply digits_are_digits.
Qed.

Lemma pad4_length n : 0 <= n < 10000 -> length (pad 4 n) = 4%nat.
Proof. apply (pad_length 3). Qed.

Lemma pad_leb w n n' x y : 0 <= n -> 0 <= n' -> length (pad w n) = length (pad w n') ->
  str_leb (pad w n ++ x) (pad w n' ++ y) = if n =? n' then str_leb x y else n <=? n'.
Proof.
  intros Hn Hn' Hl. rewrite str_leb_app by done.
  rewrite (str_leb_num (pad w n)) by (try apply pad_digits; done).
  rewrite !num_pad by done. destruct (Z.eqb_spec n n') as [->|Hne]; [by rewrite str_eqb_refl|].
  destruct (str_eqb_spec (pad w n) (pad w n')) as [He|]; [|done]. by apply pad_inj in He.
Qed.

(** The first second of the year 10000. *)
Definition END : Z := 253402300800.

Lemma year_bound days : 0 <= days < END / 86400 -> 0 <= (civil_from_days days).1.1 < 10000.
Proof.
  intros Hd. split; [apply year_positive; lia|]. pose proof (date_code_lt days (END / 86400) ltac:(lia)) as Hc.
  destruct (civil_exact days) as [Hv _]. destruct (civil_from_days days) as [[y m] d]. apply date_bounds in Hv.
  change (date_code (civil_from_days (END / 86400))) with 100000101 in Hc. cbn in *. lia.
Qed.

Lemma hour_split x : x / 3600 = 24 * (x / 86400) + x mod 86400 / 3600.
Proof.
  rewrite (Z.div_mod x 86400) at 1 by lia.
  replace (86400 * (x / 86400) + x mod 86400) with (x mod 86400 + (24 * (x / 86400)) * 3600) by lia.
  rewrite Z.div_add by lia. lia.
Qed.

Lemma hour_of_day x : 0 <= x mod 86400 / 3600 < 24.
Proof.
  pose proof (Z.mod_pos_bound x 86400 ltac:(lia)). split; [apply Z.div_pos; lia|].
  apply Z.div_lt_upper_bound; lia.
Qed.

Lemma day_bound x : 0 <= x < END -> 0 <= x / 86400 < END / 86400.
Proof.
  intros Hx. change (END / 86400) with 2932897. unfold END in Hx.
  split; [apply Z.div_pos; lia | apply Z.div_lt_upper_bound; lia].
Qed.

(** Before the year 10000 the keys compare like the hours. *)
Lemma hour_order e e' : 0 <= e < END -> 0 <= e' < END ->
  str_leb (hour_bucket e) (hour_bucket e') = (e / 3600 <=? e' / 3600).
Proof.
  intros He He'. rewrite (hour_split e), (hour_split e'). pose proof (hour_of_day e) as Hh. pose proof (hour_of_day e') as Hh'.
  pose proof (year_bound _ (day_bound e He)) as Hy. pose proof (year_bound _ (day_bound e' He')) as Hy'.
  pose proof (date_code_lt (e / 86400) (e' / 86400)) as Hlt. pose proof (date_code_lt (e' / 86400) (e / 86400)) as Hgt.
  destruct (civil_exact (e / 86400)) as [Hv _], (civil_exact (e' / 86400)) as [Hv' _].
  assert (Heq : e / 86400 = e' / 86400 -> civil_from_days (e / 86400) = civil_from_days (e' / 86400)) by (by intros ->).
  unfold hour_bucket. destruct (civil_from_days (e / 86400)) as [[y m] d], (civil_from_days (e' / 86400)) as [[y' m'] d'].
  apply date_bounds in Hv, Hv'. cbn [fst snd date_code] in *.
  set (h := e mod 86400 / 3600) in *. set (h' := e' mod 86400 / 3600) in *.
  assert (Hord : str_leb (pad 2 h) (pad 2 h') = (h <=? h')).
  { rewrite str_leb_num by (try apply pad_digits; try lia; by rewrite !pad2_length by lia). by rewrite !num_pad by lia. }
  rewrite pad_leb by (rewrite ?pad4_length by lia; done || lia). cbn [lit].
  rewrite (str_leb_app (lit "-") (lit "-")), str_eqb_refl by done.
  rewrite pad_leb by (rewrite ?pad2_length by lia; done || lia).
  rewrite (str_leb_app (lit "-") (lit "-")), str_eqb_refl by done.
  rewrite pad_leb by (rewrite ?pad2_length by lia; done || lia).
  rewrite (str_leb_app (lit "T") (lit "T")), str_eqb_refl, Hord by done.
  set (q := e / 86400) in *. set (q' := e' / 86400) in *. clearbody q q' h h'. clear Hord He He'.
  destruct (Z.lt_trichotomy q q') as [Hq|[Hq|Hq]].
  - specialize (Hlt Hq). destruct (Z.eqb_spec y y'), (Z.eqb_spec m m'), (Z.eqb_spec d d'); lia.
  - specialize (Heq Hq). simplify_eq. rewrite !Z.eqb_refl. lia.
  - specialize (Hgt Hq). destruct (Z.eqb_spec y y'), (Z.eqb_spec m m'), (Z.eqb_spec d d'); lia.
Qed.

Lemma hour_bucket_length t : 0 <= t < END -> length (hour_bucket t) = 13%nat.
Proof.
  intros Ht. pose proof (year_bound _ (day_bound t Ht)) as Hy. destruct (civil_exact (t / 86400)) as [Hv _].
  pose proof (hour_of_day t). unfold hour_bucket. destruct (civil_from_days (t / 86400)) as [[y m] d].
  apply date_bounds in Hv. cbn [fst snd] in Hy. rewrite !length_app, pad4_length, !pad2_length by lia. done.
Qed.

(** A written instant starts with its hour and ends with a letter. *)
Lemma format_utc_parts t : exists rest, format_utc t = hour_bucket t ++ rest ++ [90].
Proof.
  unfold format_utc, hour_bucket. destruct (civil_from_days (t / 86400)) as [[y m] d].
  exists (":" +++ pad 2 (t mod 86400 mod 3600 / 60) +++ ":" +++ pad 2 (t mod 86400 mod 60)).
  by rewrite <- !app_assoc.
Qed.
