(* ===== verification/RelayCorrect.v ===== *)
(** The driver of the hourly status: an acknowledged hour stays closed, wakes are bounded,
    and ticks that race for a fresh hour wake the coordinator once. *)

From stdpp Require Import gmap.
From S2P Require Import Prelude Text Sha256 Relay.

#[local] Open Scope Z_scope.

(** ** A tick alone *)

Definition alone (p : proc) (f : ClaimRead) : system := {| procs := [p]; file := f; relays := [] |}.

(** A process that runs alone does what [execute] does, in at most five steps. *)
Lemma execute_alone a e f :
  let '(f', w, r) := execute a e f in
  follow [0; 0; 0; 0; 0]%nat (alone (TStart a e) f) = {| procs := [TDone r]; file := f'; relays := w |}.
Proof.
  unfold execute, try_claim, alone. cbn. destruct (plan a e f) as [r|claim replace] eqn:Hp; [done|].
  destruct (mkdir_ok e); cbn; [|done].
  destruct (create_claim e claim (remove_claim e replace f)) as [f1 [[]|[]]]; cbn; try done.
  destruct (message_ok e); cbn; [|done]. by destruct (conclude a e claim f1).
Qed.

Lemma apply_ack_alone k e f :
  let '(f', r) := apply_ack k e f in
  follow [0; 0]%nat (alone (AStart k e) f) = {| procs := [ADone r]; file := f'; relays := [] |}.
Proof.
  unfold apply_ack, alone. cbn. destruct (ack_plan k e f) as [r|c] eqn:Hp; [done|]. cbn.
  by destruct (ack_commit e c f).
Qed.

(** ** Sequences of invocations *)

Inductive op : Type := Tick (a : Args) (e : TickEnv) | Ack (k : AckArgs) (e : AckEnv).

Definition run_op (o : op) (f : ClaimRead) : ClaimRead * list Z :=
  match o with
  | Tick a e => (execute a e f).1
  | Ack k e => ((apply_ack k e f).1, [])
  end.

Fixpoint run_ops (os : list op) (f : ClaimRead) : ClaimRead * list Z :=
  match os with
  | [] => (f, [])
  | o :: os =>
      let '(f, w) := run_op o f in
      let '(f, w') := run_ops os f in
      (f, w ++ w')
  end.

(** The decisions that send: on no claim, and on one that is old and not closed. *)
Lemma plan_go a e f claim replace : plan a e f = Go claim replace ->
  proceeds (decide_hour f (tick_now a e) (stale_pending_secs a) (ack_wait_secs a) (max_wake_attempts a)) = true /\
  claimed_at claim = tick_now a e /\ state claim = STATE_PENDING /\ wake_accepted_at claim = None /\
  wake_attempts claim = (match f with Valid c => wake_attempts c | _ => 0 end) /\
  (replace = false <-> f = Absent).
Proof.
  unfold plan. destruct (negb (dry_run a) && negb (heartbeat_ok e)); [done|].
  destruct (check_preconditions a e); [done|].
  destruct (decide_hour f _ _ _ _) eqn:Hd; try done;
    (destruct (prompt_body e); [|done]); (destruct (dry_run a); [done|]); intros [= <- <-]; cbn;
    split_and!; try done; destruct f; try done; cbn in Hd; by repeat case_match.
Qed.

Lemma has_gchat_ack_inv c : has_gchat_ack c = true ->
  state c = STATE_GCHAT_DELIVERED /\ is_Some (gchat_message_name c).
Proof.
  unfold has_gchat_ack. intros [[[[Hs Hn]%andb_true_iff _]%andb_true_iff _]%andb_true_iff _]%andb_true_iff.
  split; [by destruct (str_eqb_spec (state c) STATE_GCHAT_DELIVERED)|].
  unfold non_empty in Hn. destruct (gchat_message_name c); [by eexists | done].
Qed.

Lemma decide_acked c now stale wait max : has_gchat_ack c = true ->
  decide_hour (Valid c) now stale wait max = DuplicateHour.
Proof.
  intros Ha. pose proof (has_gchat_ack_inv c Ha) as [Hs _]. unfold decide_hour. rewrite Hs, Ha.
  by rewrite str_eqb_refl.
Qed.

Lemma run_op_acked o c : has_gchat_ack c = true -> run_op o (Valid c) = (Valid c, []).
Proof.
  intros Ha. destruct o as [a e|k e]; cbn.
  - unfold execute. destruct (plan a e (Valid c)) as [r|claim replace] eqn:Hp; [done|].
    apply plan_go in Hp as [Hp _]. by rewrite decide_acked in Hp.
  - destruct (has_gchat_ack_inv c Ha) as [_ [name Hn]]. unfold apply_ack, ack_plan.
    destruct (ack_digest k e) as [[t digest]|]; [|done]. by rewrite Hn.
Qed.

(** ** What an acknowledgement records *)

Lemma trim_start_nil s : trim_start s = [] -> forall c, c ∈ s -> is_whitespace c = true.
Proof.
  induction s as [|d s IH]; intros Ht c Hc; [by apply not_elem_of_nil in Hc|]. cbn in Ht.
  destruct (is_whitespace d) eqn:Hd; [|done]. apply elem_of_cons in Hc as [->|Hc]; [done | auto].
Qed.

Lemma trim_start_keeps s c : c ∈ s -> is_whitespace c = false -> c ∈ trim_start s.
Proof.
  induction s as [|d s IH]; intros Hc Hw; [done|]. cbn. destruct (is_whitespace d) eqn:Hd; [|done].
  apply elem_of_cons in Hc as [->|Hc]; [congruence | auto].
Qed.

(** A text with a character that is no white space does not trim to nothing. *)
Lemma trim_nonempty s c : c ∈ s -> is_whitespace c = false -> trim s <> [].
Proof.
  intros Hc Hw He. unfold trim in He. apply (f_equal (@rev Z)) in He. rewrite rev_involutive in He. cbn in He.
  assert (Hin : c ∈ rev (trim_start s)).
  { apply list_elem_of_In, in_rev. rewrite rev_involutive. apply list_elem_of_In. by apply trim_start_keeps. }
  pose proof (trim_start_nil _ He c Hin). congruence.
Qed.

Lemma hex_digit_black n : 0 <= n < 16 -> is_whitespace (hex_digit n) = false.
Proof.
  intros Hn. assert (Hall : forallb (fun n => negb (is_whitespace (hex_digit n))) (map Z.of_nat (seq 0 16)) = true)
    by (vm_compute; reflexivity).
  rewrite forallb_forall in Hall. specialize (Hall n). apply negb_true_iff, Hall, in_map_iff.
  exists (Z.to_nat n). split; [lia|]. apply in_seq. lia.
Qed.

(** A digest starts with a digit. *)
Lemma digest_black bytes : exists c, c ∈ sha256_hex bytes /\ is_whitespace c = false.
Proof.
  pose proof (sha256_length bytes) as Hl. unfold sha256_hex in *. set (h := fold_left _ _ _) in *.
  destruct h as [|w h]; [done|]. exists (hex_digit (Z.land (Z.shiftr w (4 * 7)) 15)). split.
  - cbn. left.
  - apply hex_digit_black. change 15 with (Z.ones 4). rewrite Z.land_ones by lia. apply Z.mod_pos_bound. lia.
Qed.

Lemma validated_names message space thread : validate_gchat_identity message space thread = true ->
  non_empty (Some message) = true /\ non_empty (Some space) = true /\ non_empty (Some thread) = true.
Proof.
  unfold validate_gchat_identity, non_empty. cbn [forallb].
  destruct (trim message), (trim space), (trim thread); done.
Qed.

Lemma ack_digest_inv k e t digest : ack_digest k e = Some (t, digest) ->
  validate_gchat_identity (message_name k) (ack_space k) (ack_thread k) = true /\
  canonical_text_bytes <$> text e = Some t /\ digest = sha256_hex t.
Proof.
  unfold ack_digest. destruct (validate_gchat_identity _ _ _); [|done]. cbn [negb].
  destruct (text e) as [raw|]; [|done]. cbn [mbind option_bind fmap option_fmap option_map].
  destruct (canonical_text_bytes raw) as [|b t']; [done|].
  destruct (expect_sha256 k); [case_match; [|done]|]; by intros [= <- <-].
Qed.

Lemma acked_claim_acked k e claim t :
  validate_gchat_identity (message_name k) (ack_space k) (ack_thread k) = true ->
  has_gchat_ack (acked_claim k e claim t (sha256_hex t)) = true.
Proof.
  intros (Hm & Hs & Hth)%validated_names. destruct (digest_black t) as (c & Hin & Hw).
  pose proof (trim_nonempty _ c Hin Hw) as Hd. revert Hd. unfold has_gchat_ack, acked_claim.
  cbn [state gchat_message_name gchat_space gchat_thread gchat_text_sha256].
  generalize (sha256_hex t). intros d Hd. rewrite Hm, Hs, Hth, str_eqb_refl. unfold non_empty. cbn [andb].
  by destruct (trim d).
Qed.

(** A recorded acknowledgement closes the hour with the record it was given. *)
Lemma ack_closes k e f f' : apply_ack k e f = (f', Ok true) ->
  exists c t, f' = Valid c /\ has_gchat_ack c = true /\ gchat_message_name c = Some (message_name k) /\
    canonical_text_bytes <$> text e = Some t /\ gchat_text_sha256 c = Some (sha256_hex t).
Proof.
  unfold apply_ack, ack_plan. destruct (ack_digest k e) as [[t digest]|] eqn:Hd; [|done].
  apply ack_digest_inv in Hd as (Hv & Ht & ->).
  destruct f as [|claim|]; [done| |done]. destruct (gchat_message_name claim); [by case_match|].
  unfold ack_commit, write_claim. destruct (ack_write_ok e); [|done]. cbn [andb].
  destruct (ack_log_ok e); [|done]. intros [= <-]. exists (acked_claim k e claim t (sha256_hex t)), t.
  split_and!; [done | by apply acked_claim_acked | done | done | done].
Qed.

Lemma run_ops_acked os c : has_gchat_ack c = true -> run_ops os (Valid c) = (Valid c, []).
Proof. intros Ha. induction os as [|o os IH]; cbn; [done|]. by rewrite run_op_acked, IH. Qed.

(** C32.  A recorded acknowledgement closes its hour for good: the claim names the message
    that was sent and carries the digest of its text, and whatever ticks and further
    acknowledgements follow, at any time and under any settings, the claim stays as it
    is and the coordinator is not woken again. *)
Theorem acked_hour_closed k e f f' os : apply_ack k e f = (f', Ok true) ->
  run_ops os f' = (f', []) /\
  exists c t, f' = Valid c /\ gchat_message_name c = Some (message_name k) /\
    canonical_text_bytes <$> text e = Some t /\ gchat_text_sha256 c = Some (sha256_hex t).
Proof.
  intros (c & t & -> & Ha & Hn & Ht & Hd)%ack_closes. split; [by apply run_ops_acked | by exists c, t].
Qed.

(** ** Wakes in sequence *)

(** The wakes that the relay accepted. *)
Definition wakes (w : list Z) : nat := length (List.filter (fun rc => rc =? 0) w).

Lemma wakes_app w w' : wakes (w ++ w') = (wakes w + wakes w')%nat.
Proof. unfold wakes. by rewrite List.filter_app, length_app. Qed.

(** A tick that keeps the claim of a wake that failed, and whose writes succeed. *)
Definition steady (m : Z) (o : op) : Prop :=
  match o with
  | Tick a e => max_wake_attempts a = m /\ release_on_failure a = false /\ write_ok e = true /\ create e <> CreateFails
  | Ack _ _ => True
  end.

(** The claim counts the wakes, and one that can be tried again is below the bound. *)
Definition counted (m n : Z) (f : ClaimRead) : Prop :=
  0 <= n <= Z.max 1 m /\
  match f with
  | Absent => n = 0
  | Valid c =>
      wake_attempts c = n /\
      (state c = STATE_PENDING /\ (n = 0 \/ n < m) \/ state c = STATE_WAKE_ACCEPTED \/ state c = STATE_GCHAT_DELIVERED)
  | Corrupt => True
  end.

Lemma plan_counted m n a e f claim replace : max_wake_attempts a = m -> counted m n f ->
  plan a e f = Go claim replace -> counted m n (Valid claim) /\ (n = 0 \/ n < m) /\ state claim = STATE_PENDING.
Proof.
  intros Hm [Hn Hf] (Hd & _ & Hs & _ & Hw & _)%plan_go.
  assert (Hlt : n = 0 \/ n < m).
  { destruct f as [|c|]; [by left | | done]. destruct Hf as [Ha [[Hp Hlt]|[Hp|Hp]]]; [done| |].
    - unfold decide_hour in Hd. rewrite Hp in Hd. cbn in Hd. rewrite Hm, Ha in Hd.
      destruct (m <=? n) eqn:Hle; [done|]. right. lia.
    - unfold decide_hour in Hd. rewrite Hp in Hd. cbn in Hd. by destruct (has_gchat_ack c). }
  split_and!; try done. split; [done|]. split; [|left; by rewrite Hs].
  rewrite Hw. destruct f; [done | by destruct Hf | done].
Qed.

Lemma execute_counted m n a e f : 0 <= m <= u32_max -> steady m (Tick a e) -> counted m n f ->
  let '(f', w, _) := execute a e f in counted m (n + Z.of_nat (wakes w)) f'.
Proof.
  intros Hu (Hm & Hrel & Hwr & Hcr) Hf. unfold execute.
  destruct (plan a e f) as [r|claim replace] eqn:Hp; [by rewrite Z.add_0_r|].
  destruct (plan_counted m n a e f claim replace Hm Hf Hp) as (Hc & Hlt & Hs).
  unfold try_claim. destruct (mkdir_ok e); cbn [negb]; [|by rewrite Z.add_0_r].
  assert (Hrm : remove_claim e replace f = Absent \/ remove_claim e replace f = f)
    by (unfold remove_claim; destruct (_ && _); auto).
  unfold create_claim. destruct (remove_claim e replace f) as [|c|] eqn:Hf0.
  2,3: destruct Hrm as [Hrm|Hrm]; [done|]; rewrite Hrm; by rewrite Z.add_0_r.
  destruct (create e); [done | rewrite Z.add_0_r; by split; [destruct Hc|] |].
  destruct (message_ok e); cbn [negb]; [|by rewrite Z.add_0_r].
  unfold conclude. destruct (relay_answer e) as [rc summary]. cbn [fst]. rewrite Hrel. unfold write_claim.
  rewrite Hwr. destruct (rc =? 0) eqn:Hrc; unfold wakes; cbn; rewrite Hrc; cbn.
  - destruct Hc as [Hn [Ha _]]. split; [lia|]. cbn. unfold u32_max in *. split; [lia | auto].
  - rewrite Z.add_0_r. destruct Hc as [Hn [Ha Hst]]. by split.
Qed.

Lemma apply_ack_counted m n k e f : counted m n f -> counted m n (apply_ack k e f).1.
Proof.
  intros [Hn Hf]. unfold apply_ack, ack_plan. destruct (ack_digest k e) as [[t digest]|]; [|done].
  destruct f as [|c|]; [done| |done]. destruct (gchat_message_name c); [done|].
  unfold ack_commit, write_claim. destruct (ack_write_ok e); [|done]. split; [done|].
  destruct Hf as [Ha _]. split; [done | by right; right].
Qed.

Lemma run_ops_counted m os : 0 <= m <= u32_max -> Forall (steady m) os -> forall n f, counted m n f ->
  let '(f', w) := run_ops os f in counted m (n + Z.of_nat (wakes w)) f'.
Proof.
  intros Hu. induction 1 as [|o os Ho _ IH]; intros n f Hf; cbn [run_ops]; [by rewrite Z.add_0_r|].
  assert (Hop : let '(f', w) := run_op o f in counted m (n + Z.of_nat (wakes w)) f').
  { destruct o as [a e|k e]; cbn.
    - pose proof (execute_counted m n a e f Hu Ho Hf). by destruct (execute a e f) as [[? ?] ?].
    - rewrite Z.add_0_r. by apply apply_ack_counted. }
  destruct (run_op o f) as [f1 w1]. specialize (IH _ _ Hop). destruct (run_ops os f1) as [f2 w2].
  by rewrite wakes_app, Nat2Z.inj_add, Z.add_assoc.
Qed.

(** The bound on wakes: over any sequence of ticks and acknowledgements of an hour,
    where the ticks keep the claim of a failed wake and the file system does not fail
    them, the coordinator is woken at most [max_wake_attempts] times (once where that is
    zero), and the claim counts the wakes exactly. *)
Theorem wakes_bounded m os f w : 0 <= m <= u32_max -> Forall (steady m) os -> run_ops os Absent = (f, w) ->
  Z.of_nat (wakes w) <= Z.max 1 m /\ forall c, f = Valid c -> wake_attempts c = Z.of_nat (wakes w).
Proof.
  intros Hu Hos Hrun. pose proof (run_ops_counted m os Hu Hos 0 Absent) as Hc. rewrite Hrun in Hc.
  destruct Hc as [Hn Hf]; [split; [lia | done]|]. split; [lia|]. intros c ->. by destruct Hf.
Qed.

(** ** Ticks that race *)

Section Race.
Context (t0 w : Z).

(** A tick whose clock is in the window, where a claim of the window is not old. *)
Definition in_window (a : Args) (e : TickEnv) : Prop :=
  t0 <= tick_now a e < t0 + w /\ w <= ack_wait_secs a /\ (stale_pending_secs a <= 0 \/ w <= stale_pending_secs a).

Definition recent (c : Claim) : Prop :=
  t0 <= claimed_at c /\ match wake_accepted_at c with Some t => t0 <= t | None => True end.

Definition file_recent (f : ClaimRead) : Prop := match f with Valid c => recent c | _ => True end.

Definition proc_recent (p : proc) : Prop :=
  match p with
  | TStart a e => in_window a e
  | TRemove a e c replace => in_window a e /\ recent c /\ replace = false
  | TCreate a e c | TRelay a e c | TConclude a e c => in_window a e /\ recent c
  | ACommit _ c => recent c
  | _ => True
  end.

(** An invocation that created the claim and has not written its result. *)
Definition holder (p : proc) : bool := match p with TRelay _ _ _ | TConclude _ _ _ => true | _ => false end.

(** A holder that woke the coordinator. *)
Definition woke (p : proc) : Prop := match p with TConclude _ e _ => (relay_answer e).1 = 0 | _ => False end.

Lemma plan_recent a e f claim replace : in_window a e -> file_recent f -> plan a e f = Go claim replace ->
  recent claim /\ f = Absent /\ replace = false.
Proof.
  intros (Hnow & Hwait & Hstale) Hf (Hd & Hc & _ & Hw & _ & Hr)%plan_go.
  assert (f = Absent) as ->.
  { destruct f as [|c|]; [done| |done]. destruct Hf as [Hca Hwa]. exfalso. revert Hd.
    unfold decide_hour, saturating_sub. repeat (case_match; try done); intros _;
      rewrite ?andb_true_iff in *; cbn in *; lia. }
  split; [|split; [done | by apply Hr]]. split; [lia | by rewrite Hw].
Qed.

Lemma advance_recent p f p' f' v : proc_recent p -> file_recent f -> advance p f = (p', f', v) ->
  proc_recent p' /\ file_recent f'.
Proof.
  intros Hp Hf. destruct p as [a e|a e c replace|a e c|a e c|a e c|r|k e|e c|r]; cbn.
  - destruct (plan a e f) as [r|claim replace] eqn:Hpl; [by intros [= <- <- <-]|].
    destruct (plan_recent a e f claim replace Hp Hf Hpl) as (Hc & -> & ->).
    destruct (mkdir_ok e); by intros [= <- <- <-].
  - destruct Hp as (Hw & Hc & ->). by intros [= <- <- <-].
  - destruct Hp as [Hw Hc]. destruct f; cbn; [destruct (create e); [| |destruct (message_ok e)]| |];
      by intros [= <- <- <-].
  - by intros [= <- <- <-].
  - destruct Hp as [Hw Hc]. unfold conclude, write_claim. destruct (relay_answer e) as [rc summary].
    repeat case_match; intros [= <- <- <-]; simplify_eq; try done; (split; [done|]); destruct Hc; split; try done.
    cbn. by destruct Hw as [[? _] _].
  - by intros [= <- <- <-].
  - unfold ack_plan. destruct (ack_digest k e) as [[t digest]|]; [|by intros [= <- <- <-]].
    destruct f; try by intros [= <- <- <-]. destruct (gchat_message_name c); by intros [= <- <- <-].
  - unfold ack_commit, write_claim. destruct (ack_write_ok e); by intros [= <- <- <-].
  - by intros [= <- <- <-].
Qed.

(** How a step of the window changes who holds the hour. *)
Inductive shift (p p' : proc) (f f' : ClaimRead) (v : list Z) : Prop :=
| shift_idle : holder p = false -> holder p' = false -> v = [] -> (f <> Absent -> f' <> Absent) -> shift p p' f f' v
| shift_take : holder p = false -> f = Absent -> f' <> Absent -> v = [] -> ~ woke p' -> shift p p' f f' v
| shift_relay rc : holder p = true -> ~ woke p -> f' = f -> v = [rc] -> (woke p' <-> rc = 0) -> shift p p' f f' v
| shift_end : holder p' = false -> holder p = true -> v = [] -> (woke p -> f <> Absent -> f' <> Absent) -> shift p p' f f' v.

Lemma advance_shift p f p' f' v : proc_recent p -> advance p f = (p', f', v) -> shift p p' f f' v.
Proof.
  intros Hp. destruct p as [a e|a e c replace|a e c|a e c|a e c|r|k e|e c|r]; cbn.
  - destruct (plan a e f); [|destruct (mkdir_ok e)]; intros [= <- <- <-]; by apply shift_idle.
  - destruct Hp as (_ & _ & ->). intros [= <- <- <-]. by apply shift_idle.
  - destruct f; cbn; [destruct (create e); [| |destruct (message_ok e)]| |]; intros [= <- <- <-];
      first [by apply shift_idle | by apply shift_take; cbn; auto].
  - intros [= <- <- <-]. by apply (shift_relay _ _ _ _ _ (relay_answer e).1); cbn; auto.
  - destruct (conclude a e c f) as [f1 r] eqn:Hc. intros [= <- <- <-]. apply shift_end; try done.
    cbn. intros Hw Hf. unfold conclude in Hc. destruct (relay_answer e) as [rc summary]. cbn in Hw. subst rc.
    cbn in Hc. unfold write_claim in Hc. destruct (write_ok e); by simplify_eq.
  - intros [= <- <- <-]. by apply shift_idle.
  - destruct (ack_plan k e f); intros [= <- <- <-]; by apply shift_idle.
  - unfold ack_commit, write_claim. destruct (ack_write_ok e); intros [= <- <- <-]; by apply shift_idle.
  - intros [= <- <- <-]. by apply shift_idle.
Qed.

(** The invariant: recent claims, one holder, and behind the first wake no other. *)
Record race_inv (s : system) : Prop := {
  ri_procs i p : procs s !! i = Some p -> proc_recent p;
  ri_file : file_recent (file s);
  ri_one i j p q : procs s !! i = Some p -> procs s !! j = Some q -> holder p = true -> holder q = true -> i = j;
  ri_held i p : procs s !! i = Some p -> holder p = true -> file s <> Absent;
  ri_fresh i p : procs s !! i = Some p -> woke p -> wakes (relays s) = 1%nat;
  ri_woken : wakes (relays s) <> 0%nat ->
    wakes (relays s) = 1%nat /\ file s <> Absent /\
    forall i p, procs s !! i = Some p -> holder p = true -> woke p
}.

Lemma woke_holder p : woke p -> holder p = true.
Proof. by destruct p. Qed.

Lemma race_step s s' : step s s' -> race_inv s -> race_inv s'.
Proof.
  intros [s0 i p p' f v Hi Ha] [Hps Hf Hone Hheld Hfresh Hwoken].
  destruct (advance_recent p (file s0) p' f v (Hps i p Hi) Hf Ha) as [Hp' Hf'].
  pose proof (advance_shift p (file s0) p' f v (Hps i p Hi) Ha) as Hsh.
  assert (Hlook : forall j q, <[i := p']> (procs s0) !! j = Some q -> j = i /\ q = p' \/ j <> i /\ procs s0 !! j = Some q).
  { intros j q Hj. apply list_lookup_insert_Some in Hj. naive_solver. }
  assert (Hw : wakes (relays s0 ++ v) = (wakes (relays s0) + wakes v)%nat) by apply wakes_app.
  constructor; cbn [procs file relays]; try done.
  - intros j q [[-> ->]|[_ Hj]]%Hlook; [done | by apply (Hps j)].
  - intros j1 j2 q1 q2 [[-> ->]|[Hn1 Hj1]]%Hlook [[-> ->]|[Hn2 Hj2]]%Hlook H1 H2; try done; [| |by eauto].
    + destruct Hsh; try congruence; [by destruct (Hheld j2 q2) | by apply (Hone i j2 p q2)].
    + destruct Hsh; try congruence; [by destruct (Hheld j1 q1) | by apply (Hone j1 i q1 p)].
  - intros j q [[-> ->]|[Hn Hj]]%Hlook Hh.
    + destruct Hsh; try congruence. subst f. by apply (Hheld i p).
    + destruct Hsh as [? ? ? Hk|? ? ? ? ?|rc ? ? -> ? ?|? Hhp ? ?]; [apply Hk; by eapply Hheld | done | by eapply Hheld |].
      destruct Hn. by apply (Hone j i q p).
  - intros j q [[-> ->]|[Hn Hj]]%Hlook Hq.
    + pose proof (woke_holder _ Hq) as Hh. destruct Hsh as [| |rc Hhp Hnw Hff Hv Hz|]; try congruence.
      rewrite Hw, Hv. apply Hz in Hq as ->. destruct (decide (wakes (relays s0) = 0%nat)) as [->|Hne]; [done|].
      destruct (Hwoken Hne) as (_ & _ & Hall). destruct Hnw. by eapply Hall.
    + pose proof (Hfresh _ _ Hj Hq) as H1. rewrite Hw, H1.
      destruct Hsh as [? ? -> ?|? ? ? -> ?|rc Hhp Hnw Hff Hv Hz|? ? -> ?]; [done | done | | done].
      destruct Hnw. destruct Hwoken as (_ & _ & Hall); [lia|]. by eapply Hall.
  - intros Hne. rewrite Hw in *. destruct (decide (wakes (relays s0) = 0%nat)) as [Hz0|Hnz].
    + rewrite Hz0 in *. destruct Hsh as [? ? -> ?|? ? ? -> ?|rc Hhp Hnw -> -> Hz|? ? -> ?]; try done.
      unfold wakes in *. cbn in *. destruct (rc =? 0) eqn:Hrc; [|done]. split; [done|]. split; [by apply (Hheld i p)|].
      intros j q [[-> ->]|[Hn Hj]]%Hlook Hq; [apply Hz; lia|]. destruct Hn. by apply (Hone j i q p).
    + destruct (Hwoken Hnz) as (H1 & Hfile & Hall). rewrite H1.
      destruct Hsh as [? ? -> Hk|? ? ? -> ?|rc Hhp Hnw -> -> Hz|? Hhp -> Hk]; [| done | by destruct Hnw; eapply Hall |].
      * split_and!; [done | by apply Hk |]. intros j q [[-> ->]|[Hn Hj]]%Hlook Hq; [congruence | by eapply Hall].
      * split_and!; [done | apply Hk; [by eapply Hall | done] |].
        intros j q [[-> ->]|[Hn Hj]]%Hlook Hq; [congruence | by eapply Hall].
Qed.
End Race.

(** The invocations at the start of an hour: ticks of the window and acknowledgements. *)
Definition fresh (t0 w : Z) (p : proc) : Prop :=
  match p with TStart a e => in_window t0 w a e | AStart _ _ => True | _ => False end.

(** C31.  An hour is claimed once: however the file accesses of any number of ticks and
    acknowledgements interleave, where no claim can grow old within the window of their
    clocks, at most one wake is accepted, also where ticks crash on errors, fail to
    write, or give a failed hour back. *)
Theorem fresh_hour_one_wake t0 w ps s : Forall (fresh t0 w) ps ->
  rtc step {| procs := ps; file := Absent; relays := [] |} s -> (wakes (relays s) <= 1)%nat.
Proof.
  intros Hps Hrun. assert (Hinit : race_inv t0 w {| procs := ps; file := Absent; relays := [] |}).
  { rewrite list.Forall_forall in Hps.
    assert (Hno : forall i p, ps !! i = Some p -> fresh t0 w p) by (intros i p Hi; by apply Hps, (list_elem_of_lookup_2 _ i)).
    constructor; cbn; try done.
    - intros i p Hi. specialize (Hno i p Hi). by destruct p.
    - intros i j p q Hi _ Hh. specialize (Hno i p Hi). by destruct p.
    - intros i p Hi Hh. specialize (Hno i p Hi). by destruct p.
    - intros i p Hi Hh. specialize (Hno i p Hi). by destruct p. }
  assert (Hinv : race_inv t0 w s) by (clear Hps; induction Hrun; eauto using race_step).
  destruct (decide (wakes (relays s) = 0%nat)) as [->|Hne]; [lia|]. destruct (ri_woken _ _ _ Hinv Hne); lia.
Qed.

(** ** Samples *)

Definition sample_args (release : bool) : Args := {|
  relay_command := false; hour_arg := None; now_arg := None;
  stale_pending_secs := DEFAULT_STALE_PENDING_SECS; ack_wait_secs := DEFAULT_ACK_WAIT_SECS;
  max_wake_attempts := DEFAULT_MAX_WAKE_ATTEMPTS; release_on_failure := release; dry_run := false |}.

Definition sample_env (now rc : Z) : TickEnv := {|
  te_now := now; te_pid := 7; prompt_is_file := true; relay_is_file := true; socket_exists := true;
  heartbeat_ok := true; prompt_body := Some (lit "report"); mkdir_ok := true; remove_ok := true;
  create := Created; message_ok := true; relay_answer := (rc, []); write_ok := true |}.

Definition sample_ack : AckArgs := {|
  ack_hour := lit "2026-08-07T01"; message_name := lit "spaces/A/messages/m"; ack_space := lit "spaces/A";
  ack_thread := lit "spaces/A/threads/t"; expect_sha256 := None |}.

Definition sample_ack_env (now : Z) : AckEnv := {|
  ae_now := now; text := Some (lit "all green"); ack_write_ok := true; ack_log_ok := true |}.

(** 2026-08-07T01:00:00Z. *)
Definition t_sample : Z := 1786064400.

Definition woken_file : ClaimRead := (execute (sample_args false) (sample_env t_sample 0) Absent).1.1.

Lemma acked_hour_closed_witness :
  run_ops [Tick (sample_args false) (sample_env (t_sample + 3000) 0)]
    (apply_ack sample_ack (sample_ack_env (t_sample + 60)) woken_file).1 =
  ((apply_ack sample_ack (sample_ack_env (t_sample + 60)) woken_file).1, []).
Proof.
  apply (acked_hour_closed sample_ack (sample_ack_env (t_sample + 60)) woken_file).
  vm_compute. reflexivity.
Defined.

(** Five ticks, eleven minutes apart: three of them wake. *)
Definition sample_ticks : list op :=
  map (fun i => Tick (sample_args false) (sample_env (t_sample + 660 * i) 0)) [0; 1; 2; 3; 4].

Lemma wakes_bounded_witness : Z.of_nat (wakes (run_ops sample_ticks Absent).2) <= Z.max 1 3 /\
  (run_ops sample_ticks Absent).2 = [0; 0; 0].
Proof.
  split; [|vm_compute; reflexivity].
  apply (wakes_bounded 3 sample_ticks (run_ops sample_ticks Absent).1 (run_ops sample_ticks Absent).2).
  - unfold u32_max. lia.
  - repeat constructor; discriminate.
  - by destruct (run_ops sample_ticks Absent).
Defined.

Definition sample_procs : list proc :=
  [TStart (sample_args true) (sample_env t_sample 0); TStart (sample_args true) (sample_env (t_sample + 5) 0);
   AStart sample_ack (sample_ack_env (t_sample + 9))].

Lemma follow_rtc sched s : rtc step s (follow sched s).
Proof.
  revert s. induction sched as [|i sched IH]; intros s; cbn; [done|].
  destruct (procs s !! i) as [p|] eqn:Hi; [|apply IH]. destruct (advance p (file s)) as [[p' f] w] eqn:Ha.
  eapply rtc_l; [by eapply step_at | apply IH].
Qed.

Lemma fresh_hour_one_wake_witness :
  (wakes (relays (follow [0; 1; 0; 1; 0; 1; 0; 0; 2; 2]%nat {| procs := sample_procs; file := Absent; relays := [] |})) <= 1)%nat.
Proof.
  apply (fresh_hour_one_wake t_sample 600 sample_procs); [|apply follow_rtc].
  repeat constructor; cbn; unfold DEFAULT_ACK_WAIT_SECS, DEFAULT_STALE_PENDING_SECS; lia.
Defined.

(** ** Outside the window *)

Definition is_acked (f : ClaimRead) : bool := match f with Valid c => has_gchat_ack c | _ => false end.

(** A tick decides to wake again, the acknowledgement of the first wake is recorded, and
    the tick removes the claim that carries it: the hour is open again and is woken
    twice. *)
Lemma rewake_erases_ack :
  let s := {| procs := [TStart (sample_args true) (sample_env (t_sample + 700) 0);
                        AStart sample_ack (sample_ack_env (t_sample + 700))];
              file := woken_file; relays := [] |} in
  let acked := follow [0; 1; 1]%nat s in
  let final := follow [0; 0; 0; 0]%nat acked in
  is_acked (file acked) = true /\ procs acked !! 1%nat = Some (ADone (Ok true)) /\
  is_acked (file final) = false /\ relays final = [0].
Proof. vm_compute. auto. Qed.

(** An acknowledgement that is recorded while the relay runs is overwritten by the claim
    the tick writes behind it. *)
Lemma wake_overwrites_ack :
  let s := {| procs := [TStart (sample_args true) (sample_env t_sample 0);
                        AStart sample_ack (sample_ack_env (t_sample + 2))];
              file := Absent; relays := [] |} in
  let acked := follow [0; 0; 0; 0; 1; 1]%nat s in
  let final := follow [0]%nat acked in
  is_acked (file acked) = true /\ procs acked !! 1%nat = Some (ADone (Ok true)) /\ is_acked (file final) = false.
Proof. vm_compute. auto. Qed.

(** Two ticks that find the same old claim both remove and create it, and both wake. *)
Lemma two_rewakes_both_wake :
  let s := {| procs := [TStart (sample_args true) (sample_env (t_sample + 700) 0);
                        TStart (sample_args true) (sample_env (t_sample + 700) 0)];
              file := woken_file; relays := [] |} in
  relays (follow [0; 1; 0; 0; 1; 1; 0; 1; 0; 1]%nat s) = [0; 0].
Proof. vm_compute. reflexivity. Qed.

(** A failed wake that gives the hour back forgets the wakes before it: five wakes are
    accepted in one hour where the setting allows three. *)
Lemma release_forgets_attempts :
  let tick i rc := Tick (sample_args true) (sample_env (t_sample + 600 * i) rc) in
  max_wake_attempts (sample_args true) = 3 /\
  wakes (run_ops [tick 0 0; tick 1 0; tick 2 1; tick 3 0; tick 4 0; tick 5 0] Absent).2 = 5%nat.
Proof. vm_compute. auto. Qed.
