(* ===== verification/StatusLog.v ===== *)
(** The log of the hourly reports ([scripts/status-log.rs]): one JSON row per report, with
    the work in flight, counts with the set they were taken over, the hour that is
    described, and the text that was sent.

    The TaskGraph, GitHub, [date], git and the file system answer through the record
    [World]; the parser and the printer of JSON are arguments.  Every refusal of the
    program ends it with status 2 and is [None] here: the messages are left out.  Hours
    and timestamps are ASCII, so their bytes are their characters. *)

From stdpp Require Import gmap.
From S2P Require Import Prelude Text Ledger ValidateStatus TestSelection Sha256.

#[local] Open Scope Z_scope.

(** ** Constants *)

Definition BASIS_TOTAL_OPEN : str := "total-open-including-drafts".
Definition BASIS_READY : str := "ready-non-draft".
Definition COUNT_SEMANTICS_SCHEMA : Z := 2.
Definition SCHEMA_VERSION : Z := 4.
Definition COVERAGE_SCHEMA : Z := 4.
Definition IMPLEMENTED_TAG : str := "implemented".
Definition GH_PR_LIST_LIMIT : nat := 1000.

Definition PLACEHOLDER_VALUES : list str := [] :: map lit
  ["-"; "--"; "?"; "n/a"; "na"; "none"; "null"; "nil"; "tbd"; "todo"; "unknown"; "unassigned"; "someone"; "agent";
   "various"; "multiple"; "misc"; "other"; "pending"]%string.

Definition ORDINAL_PREFIXES : list str := map lit
  ["phase"; "step"; "round"; "wave"; "option"; "batch"; "part"; "stage"; "iteration"; "attempt"; "pass"; "try"; "run";
   "week"; "day"; "sprint"; "milestone"; "item"; "task"; "slot"; "group"]%string.

(** ** Workstreams *)

Record Workstream : Type := { slug : str; agent : str; task : str; ws_cwd : str }.

Inductive TaskState : Type := Active | AwaitingLanding | Closed | Missing.
#[export] Instance TaskState_eq_dec : EqDecision TaskState.
Proof. solve_decision. Defined.

Definition to_ascii_lowercase (s : str) : str := map ascii_lower s.
Definition eq_ignore_ascii_case (a b : str) : bool := str_eqb (to_ascii_lowercase a) (to_ascii_lowercase b).

Definition one_of (l : list str) (s : str) : bool := existsb (str_eqb s) l.

Definition classify_task (status : str) (tags : list str) : TaskState :=
  if existsb (fun t => eq_ignore_ascii_case (trim t) IMPLEMENTED_TAG) tags then AwaitingLanding
  else if one_of (map lit ["closed"; "resolved"; "done"; "complete"; "completed"]%string) (to_ascii_lowercase (trim status))
  then Closed else Active.

Definition is_placeholder (value : str) : bool := one_of PLACEHOLDER_VALUES (to_ascii_lowercase (trim value)).

Definition normalize_identifier (value : str) : str :=
  map (fun c => if (c =? 95) || (c =? 47) || (c =? 32) then 45 else c) (to_ascii_lowercase (trim value)).

Fixpoint trim_start_matches (d : Z) (s : str) : str :=
  match s with c :: r => if c =? d then trim_start_matches d r else s | [] => [] end.

Definition is_ascii_alphabetic (c : Z) : bool := ((65 <=? c) && (c <=? 90)) || ((97 <=? c) && (c <=? 122)).

Definition is_ordinal_segment (segment : str) : bool :=
  forallb is_digit segment ||
  match strip_prefix "v" segment with
  | Some ((_ :: _) as rest) => forallb is_digit rest
  | _ => false
  end ||
  existsb (fun prefix =>
    match strip_prefix prefix segment with
    | Some rest =>
        let rest := trim_start_matches 45 rest in
        match rest with
        | [] => true
        | [c] => is_digit c || is_ascii_alphabetic c
        | _ => forallb is_digit rest
        end
    | None => false
    end) ORDINAL_PREFIXES.

Definition slug_char (c : Z) : bool := ((97 <=? c) && (c <=? 122)) || is_digit c || (c =? 45).

Definition valid_segment (segment : str) : bool :=
  negb (str_eqb segment []) && forallb slug_char segment &&
  negb (starts_with "-" segment || ends_with "-" segment) && negb (is_placeholder segment) &&
  negb (is_ordinal_segment segment) && (3 <=? length segment)%nat.

Definition validate_slug (s task : str) : bool :=
  negb (str_eqb (trim s) []) && str_eqb s (trim s) &&
  (2 <=? length (split 47 s))%nat && forallb valid_segment (split 47 s) &&
  negb (str_eqb (normalize_identifier s) (normalize_identifier task)).

(** A member of a worker's object: a string that is not empty and names something. *)
Definition worker_field (worker : list (str * Value)) (field : str) : option str :=
  value ← (v ← get field worker; as_str v);
  let value := trim value in
  if str_eqb value [] || is_placeholder value then None else Some value.

Definition validate_workstream (s : str) (worker : Value) : option Workstream :=
  worker ← as_object worker;
  agent ← worker_field worker "agent";
  task ← worker_field worker "task";
  cwd ← worker_field worker "cwd";
  if negb (contains "/" cwd) then None
  else if negb (validate_slug s task) then None
  else Some {| slug := s; agent := agent; task := task; ws_cwd := cwd |}.

(** [sort_by] and [sort_by_key]: a stable sort. *)
Section Sort.
Context {A : Type} (key : A -> str).
Fixpoint insert_by (a : A) (l : list A) : list A :=
  match l with
  | [] => [a]
  | b :: l' => if str_leb (key a) (key b) then a :: l else b :: insert_by a l'
  end.
Definition sort_by (l : list A) : list A := foldr insert_by [] l.
End Sort.

Definition parse_mapping (value : Value) : option (list Workstream) :=
  mapping ← as_object value;
  rows ← mapM (fun kv => validate_workstream kv.1 kv.2) mapping;
  Some (sort_by slug rows).

(** One row: the slug is added to those of its agent. *)
Fixpoint note_agent (row : Workstream) (seen : list (str * list str)) : list (str * list str) :=
  match seen with
  | [] => [(agent row, [slug row])]
  | (a, slugs) :: seen =>
      if str_eqb a (agent row) then (a, slugs ++ [slug row]) :: seen else (a, slugs) :: note_agent row seen
  end.

Definition validate_one_workstream_per_agent (rows : list Workstream) : bool :=
  let seen := fold_left (fun seen row => note_agent row seen) rows [] in
  forallb (fun e => negb (1 <? length (snd e))%nat) seen.

Definition validate_task_states (rows : list Workstream) (states : gmap str TaskState) (expect_active : bool) : bool :=
  forallb (fun row =>
    let state := default Missing (states !! task row) in
    if expect_active then bool_decide (state = Active) else bool_decide (state = AwaitingLanding)) rows.

(** ** JSON objects *)

(** [Map::insert]: the members are kept in the order of their names. *)
Fixpoint obj_insert (k : str) (v : Value) (m : list (str * Value)) : list (str * Value) :=
  match m with
  | [] => [(k, v)]
  | (k', v') :: m' =>
      if str_eqb k k' then (k, v) :: m' else if str_leb k k' then (k, v) :: m else (k', v') :: obj_insert k v m'
  end.

Definition obj (l : list (str * Value)) : list (str * Value) := fold_left (fun m kv => obj_insert kv.1 kv.2 m) l [].

Definition rows_to_json (rows : list Workstream) : Value :=
  JObject (obj (map (fun row => (slug row,
    JObject (obj [(lit "agent", JString (agent row)); (lit "task", JString (task row)); (lit "cwd", JString (ws_cwd row))])))
    rows)).

(** ** Repositories and counts *)

Definition valid_repo (name : str) : bool :=
  match split 47 name with
  | [owner; repo] => negb (str_eqb owner []) && negb (str_eqb repo [])
  | _ => false
  end.

(** The names of [--repos], each once and in order. *)
Fixpoint collect_repos (parts repos : list str) : option (list str) :=
  match parts with
  | [] => Some repos
  | part :: parts =>
      let name := trim part in
      if str_eqb name [] then None
      else if negb (valid_repo name) then None
      else collect_repos parts (if one_of repos name then repos else repos ++ [name])
  end.

Definition parse_repos (raw : str) : option (list str) :=
  repos ← collect_repos (split 44 raw) [];
  match repos with [] => None | _ => Some repos end.

Definition check_not_truncated (returned limit : nat) : bool := negb (limit <=? returned)%nat.

Definition check_open_prs (declared observed : Z) : bool := declared =? observed.

Definition validate_auto_mode (auto : bool) (declared : option Z) (no_verify : bool) (basis : str)
    (supplied_observation : option Z) : bool :=
  negb auto ||
  (negb (is_some declared) && negb no_verify && str_eqb basis BASIS_TOTAL_OPEN && negb (is_some supplied_observation)).

(** Every other basis is refused, the known names of subsets with a message of their own. *)
Definition validate_open_prs_basis (basis : str) : bool := str_eqb basis BASIS_TOTAL_OPEN.

Record Observation : Type := {
  total : Z;
  per_repo : list (str * Z);
  window_start : str;
  window_end : str
}.

(** ** The command line *)

Record Args : Type := {
  mapping_json : option str;
  awaiting_landing_json : option str;
  task_states_json : option str;
  repos : option str;
  open_prs : option Z;
  open_prs_basis : option str;
  open_prs_auto : bool;
  open_prs_observed : option Z;
  no_verify_counts : bool;
  ready_prs : option Z;
  genuine_reds : option Z;
  fleet_count : option Z;
  status_file : option str;
  covers_hour : option str;
  recovery_for : option str;
  expect_sha256 : option str;
  expect_bytes : option Z;
  log_file : option str;
  describe_log : bool;
  allow_stale_log : bool;
  print_reconciled : bool;
  check_freshness : bool
}.

Definition default_args : Args :=
  Build_Args None None None None None None false None false None None None None None None None None None
    false false false false.

(** An assignment to a field of the arguments. *)
Inductive Field : Type :=
| FMapping (v : str) | FAwaiting (v : str) | FStates (v : str) | FRepos (v : str) | FPrs (v : Z) | FBasis (v : str)
| FAuto | FObserved (v : Z) | FNoVerify | FReady (v : Z) | FReds (v : Z) | FFleet (v : Z) | FStatus (v : str)
| FCovers (v : str) | FRecovery (v : str) | FSha (v : str) | FBytes (v : Z) | FLog (v : str)
| FDescribe | FStale | FReconciled | FFreshness.

Definition set_field (p : Args) (f : Field) : Args :=
  let pick {A : Type} (x : option A) (old : option A) := match x with Some v => Some v | None => old end in
  Build_Args
    (pick (if f is FMapping v then Some v else None) (mapping_json p))
    (pick (if f is FAwaiting v then Some v else None) (awaiting_landing_json p))
    (pick (if f is FStates v then Some v else None) (task_states_json p))
    (pick (if f is FRepos v then Some v else None) (repos p))
    (pick (if f is FPrs v then Some v else None) (open_prs p))
    (pick (if f is FBasis v then Some v else None) (open_prs_basis p))
    (if f is FAuto then true else open_prs_auto p)
    (pick (if f is FObserved v then Some v else None) (open_prs_observed p))
    (if f is FNoVerify then true else no_verify_counts p)
    (pick (if f is FReady v then Some v else None) (ready_prs p))
    (pick (if f is FReds v then Some v else None) (genuine_reds p))
    (pick (if f is FFleet v then Some v else None) (fleet_count p))
    (pick (if f is FStatus v then Some v else None) (status_file p))
    (pick (if f is FCovers v then Some v else None) (covers_hour p))
    (pick (if f is FRecovery v then Some v else None) (recovery_for p))
    (pick (if f is FSha v then Some v else None) (expect_sha256 p))
    (pick (if f is FBytes v then Some v else None) (expect_bytes p))
    (pick (if f is FLog v then Some v else None) (log_file p))
    (if f is FDescribe then true else describe_log p)
    (if f is FStale then true else allow_stale_log p)
    (if f is FReconciled then true else print_reconciled p)
    (if f is FFreshness then true else check_freshness p).

Definition all_digits (s : str) : bool := forallb is_digit s.

(** [value[a..b]], where the value is known to be long enough. *)
Definition slice (a b : nat) (s : str) : str := take (b - a) (drop a s).

Definition hour_shaped (value : str) : bool :=
  (length value =? 13)%nat && all_digits (slice 0 4 value) && str_eqb (slice 4 5 value) "-" &&
  all_digits (slice 5 7 value) && str_eqb (slice 7 8 value) "-" && all_digits (slice 8 10 value) &&
  str_eqb (slice 10 11 value) "T" && all_digits (slice 11 13 value).

Definition parse_hour_bucket (value : str) : option str :=
  if negb (hour_shaped value) then None
  else
    let month := default 0 (parse_u32 (slice 5 7 value)) in
    let day := default 0 (parse_u32 (slice 8 10 value)) in
    let hour := default 99 (parse_u32 (slice 11 13 value)) in
    if negb ((1 <=? month) && (month <=? 12)) || negb ((1 <=? day) && (day <=? 31)) || (23 <? hour) then None
    else Some value.

(** What a flag assigns, given the argument behind it: the flags without a value do not
    look at it. *)
Inductive Flag : Type := Bare (f : Field) | Valued (parse : str -> option Field).

Definition flags : list (str * Flag) := [
  (lit "--mapping-json", Valued (fun v => Some (FMapping v)));
  (lit "--awaiting-landing-json", Valued (fun v => Some (FAwaiting v)));
  (lit "--task-states-json", Valued (fun v => Some (FStates v)));
  (lit "--repos", Valued (fun v => Some (FRepos v)));
  (lit "--open-prs", Valued (fun v => if eq_ignore_ascii_case v "auto" then Some FAuto else FPrs <$> parse_u64 v));
  (lit "--open-prs-basis", Valued (fun v => Some (FBasis v)));
  (lit "--open-prs-observed", Valued (fun v => FObserved <$> parse_u64 v));
  (lit "--no-verify-counts", Bare FNoVerify);
  (lit "--ready-prs", Valued (fun v => FReady <$> parse_u64 v));
  (lit "--describe-log", Bare FDescribe);
  (lit "--genuine-reds", Valued (fun v => FReds <$> parse_u64 v));
  (lit "--fleet-count", Valued (fun v => FFleet <$> parse_u64 v));
  (lit "--status-file", Valued (fun v => Some (FStatus v)));
  (lit "--covers-hour", Valued (fun v => FCovers <$> parse_hour_bucket v));
  (lit "--recovery-for", Valued (fun v => FRecovery <$> parse_hour_bucket v));
  (lit "--expect-sha256", Valued (fun v => Some (FSha v)));
  (lit "--expect-bytes", Valued (fun v => FBytes <$> parse_u64 v));
  (lit "--log-file", Valued (fun v => Some (FLog v)));
  (lit "--allow-stale-log", Bare FStale);
  (lit "--print-reconciled", Bare FReconciled);
  (lit "--check-freshness", Bare FFreshness)].

Fixpoint find_flag (arg : str) (l : list (str * Flag)) : option Flag :=
  match l with [] => None | (name, f) :: l => if str_eqb arg name then Some f else find_flag arg l end.

Inductive Parsed : Type := Usage | Dies | Run (a : Args).

Fixpoint parse_args (args : list str) (parsed : Args) : Parsed :=
  match args with
  | [] => Run parsed
  | arg :: rest =>
      if one_of (map lit ["-h"; "--help"]%string) arg then Usage
      else
        match find_flag arg flags with
        | None => Dies
        | Some (Bare f) => parse_args rest (set_field parsed f)
        | Some (Valued parse) =>
            match rest with
            | [] => Dies
            | v :: rest => match parse v with None => Dies | Some f => parse_args rest (set_field parsed f) end
            end
        end
  end.

(** ** Rows of the log *)

Definition log_rows (text : str) : list str := List.filter (fun l => negb (str_eqb (trim l) [])) (lines text).

Definition missing_landed_rows (local landed : str) : list str :=
  let mine := log_rows local in List.filter (fun row => negb (one_of mine row)) (log_rows landed).

(** The first occurrence of every row. *)
Fixpoint keep_first (seen rows : list str) : list str :=
  match rows with
  | [] => []
  | row :: rows => if one_of seen row then keep_first seen rows else row :: keep_first (row :: seen) rows
  end.

(** [Ok] counts the landed rows. *)
Definition check_log_freshness (local landed : str) : option nat :=
  match missing_landed_rows local landed with [] => Some (length (log_rows landed)) | _ => None end.

(** ** The text *)

Definition canonical_status_text (text : str) : str :=
  match strip_suffix NL text with
  | Some text => match strip_suffix CR text with Some text => text | None => text end
  | None => text
  end.

Definition hour_of_timestamp (timestamp : str) : option str :=
  if (length timestamp <? 13)%nat then None else Some (take 13 timestamp).

Definition trim_end (s : str) : str := rev (trim_start (rev s)).

(** ** The program *)

(** What the program meets.  A command is [None] where it cannot be run, and otherwise
    its success and its output; a date that fails ends the program. *)
Record World : Type := {
  task_states_text : option str;
  tg_sql : str -> option (bool * str);
  gh_pr_list : str -> option (bool * str);
  date_started : option str;
  date_ended : option str;
  date_written : option str;
  status_input : option str;
  log_dir_ok : bool;
  log_readable : bool;
  log_in_root : bool;
  git_show : option (bool * option str);
  open_ok : bool;
  torn : option nat
}.

Definition timestamp_from_date (answer : option str) : option str := trim_end <$> answer.

Definition read_status_text (w : World) : option str :=
  text ← status_input w;
  let text := canonical_status_text text in
  match text with [] => None | _ => Some text end.

Definition landed_log (w : World) : option str :=
  if log_in_root w then
    match git_show w with Some (true, text) => text | _ => None end
  else None.

Inductive Outcome : Type :=
| Died
| Help
| Reconciled (rows : list str)
| Publishable (local_rows landed_rows : nat)
| Described (lines : list str)
| Appended.

Section Program.
Context (from_str : str -> option Value) (to_string : Value -> str).

(** *** Task states *)

Fixpoint double_quotes (s : str) : str :=
  match s with [] => [] | c :: s => if c =? 39 then 39 :: 39 :: double_quotes s else c :: double_quotes s end.

Definition states_query (ids : list str) : str :=
  "SELECT local_id, status, tags FROM tasks WHERE local_id IN (" +++
  join "," (map (fun id => [39] +++ double_quotes id +++ [39]) ids) +++ ")".

(** [serde_json::from_str::<Vec<String>>] with a default. *)
Definition parse_tags (text : str) : list str :=
  default [] (v ← from_str text; l ← as_array v; mapM as_str l).

Definition tg_row (states : gmap str TaskState) (line : str) : gmap str TaskState :=
  let trimmed := trim line in
  if str_eqb trimmed [] || starts_with "local_id" trimmed || starts_with "-" trimmed || starts_with "(" trimmed
  then states
  else
    match map trim (split 124 trimmed) with
    | id :: status :: tags :: _ => <[id := classify_task status (parse_tags tags)]> states
    | _ => states
    end.

Definition parse_tg_sql_rows (text : str) : gmap str TaskState := fold_left tg_row (lines text) ∅.

Definition load_task_states_from_taskgraph (w : World) (ids : list str) : option (gmap str TaskState) :=
  match ids with
  | [] => Some ∅
  | _ :: _ =>
      match tg_sql w (states_query ids) with
      | Some (true, text) => Some (parse_tg_sql_rows text)
      | _ => None
      end
  end.

Definition member (key : str) (v : Value) : option Value := m ← as_object v; get key m.

Definition string_list (v : Value) : option (list str) := l ← as_array v; Some (omap as_str (l : list Value)).

Definition json_row (states : gmap str TaskState) (row : str * Value) : gmap str TaskState :=
  let status := default (lit "open") (v ← member "status" row.2; as_str v) in
  let tags := default [] (v ← member "tags" row.2; string_list v) in
  <[row.1 := classify_task status tags]> states.

Definition parse_task_states_json (text : str) : option (gmap str TaskState) :=
  value ← from_str text;
  object ← as_object value;
  Some (fold_left json_row object ∅).

(** *** Counts *)

Definition dereference_open_prs (w : World) (repo : str) : option Z :=
  match gh_pr_list w repo with
  | Some (true, text) =>
      parsed ← from_str (trim text);
      array ← as_array parsed;
      if check_not_truncated (length array) GH_PR_LIST_LIMIT then Some (Z.of_nat (length array)) else None
  | _ => None
  end.

Definition observed_open_prs (w : World) (repos : list str) : option Observation :=
  started ← timestamp_from_date (date_started w);
  counts ← mapM (dereference_open_prs w) repos;
  ended ← timestamp_from_date (date_ended w);
  Some {| total := fold_left Z.add counts 0; per_repo := combine repos counts;
          window_start := started; window_end := ended |}.

(** *** Descriptions of rows *)

Definition describe_coverage (entry : Value) : str :=
  let schema := default 0 (v ← member "schema_version" entry; as_u64 v) in
  if schema <? COVERAGE_SCHEMA then "covers=unknown pre-schema-" +++ dec COVERAGE_SCHEMA +++ "-entry"
  else
    let covers := default (lit "<absent>") (v ← member "covers_hour" entry; as_str v) in
    match v ← member "recovery_for" entry; as_str v with
    | Some hour => "covers=" +++ covers +++ " kind=recovery recovery_for=" +++ hour
    | None => "covers=" +++ covers +++ " kind=current"
    end.

Definition describe_entry (index : nat) (entry : Value) : str :=
  let timestamp := default (lit "<no-timestamp>") (v ← member "timestamp" entry; as_str v) in
  let prs := default (lit "<absent>") (to_string <$> member "open_prs" entry) in
  match s ← member "count_semantics" entry; member "open_prs" s with
  | Some open =>
      let basis := default (lit "<no-basis>") (v ← member "basis" open; as_str v) in
      let repos := default (lit "<no-repos>") (v ← member "repos" open; join "+" <$> string_list v) in
      dec (Z.of_nat index) +++ " " +++ timestamp +++ " open_prs=" +++ prs +++ " basis=" +++ basis +++
      " repos=" +++ repos +++ " " +++ describe_coverage entry
  | None =>
      dec (Z.of_nat index) +++ " " +++ timestamp +++ " open_prs=" +++ prs +++
      " basis=unknown repos=unknown denominator=unknown pre-schema-" +++ dec COUNT_SEMANTICS_SCHEMA +++ "-entry " +++
      describe_coverage entry
  end.

(** *** Reconciliation *)

Definition row_timestamp (row : str) : str :=
  default [] (v ← from_str row; t ← member "timestamp" v; as_str t).

Definition reconcile_rows (local landed : str) : list str :=
  sort_by row_timestamp (keep_first [] (log_rows landed ++ log_rows local)).

(** *** The row *)

Definition parse_mapping_flag (raw : str) : option (list Workstream) :=
  value ← from_str raw;
  rows ← parse_mapping value;
  if validate_one_workstream_per_agent rows then Some rows else None.

(** [Vec::dedup]: of equal neighbours the first is kept. *)
Fixpoint dedup_ids (l : list str) : list str :=
  match l with
  | a :: ((b :: _) as r) => if str_eqb a b then dedup_ids r else a :: dedup_ids r
  | _ => l
  end.

Definition load_states (a : Args) (w : World) (ids : list str) : option (gmap str TaskState) :=
  match task_states_json a with
  | Some _ => text ← task_states_text w; parse_task_states_json text
  | None => load_task_states_from_taskgraph w ids
  end.

(** The work in flight and the work that waits, each checked against the task states. *)
Definition checked_work (a : Args) (w : World) : option (list Workstream * list Workstream) :=
  raw ← mapping_json a;
  active ← parse_mapping_flag raw;
  awaiting ← match awaiting_landing_json a with Some raw => parse_mapping_flag raw | None => Some [] end;
  if existsb (fun row => existsb (fun x => str_eqb (slug x) (slug row)) active) awaiting then None
  else
    let ids := dedup_ids (sort_by (fun id => id) (map task (active ++ awaiting))) in
    states ← load_states a w ids;
    if validate_task_states active states true && validate_task_states awaiting states false
    then Some (active, awaiting) else None.

Record Count : Type := {
  n_open : Z;
  verified : bool;
  source : str;
  count_window : option (str * str);
  observed_detail : option (list (str * Z))
}.

Definition observed_count (obs : Observation) (n : Z) (src : str) : Count := {|
  n_open := n; verified := true; source := src;
  count_window := Some (window_start obs, window_end obs); observed_detail := Some (per_repo obs) |}.

Definition count_prs (a : Args) (w : World) (rs : list str) (basis : str) : option Count :=
  if open_prs_auto a then
    obs ← observed_open_prs w rs;
    Some (observed_count obs (total obs) "dereferenced-auto")
  else
    declared ← open_prs a;
    if str_eqb basis BASIS_TOTAL_OPEN && negb (no_verify_counts a) then
      match open_prs_observed a with
      | Some injected =>
          if check_open_prs declared injected then
            Some {| n_open := declared; verified := true; source := "declared-and-verified-supplied-observation";
                    count_window := None; observed_detail := None |}
          else None
      | None =>
          obs ← observed_open_prs w rs;
          if check_open_prs declared (total obs) then Some (observed_count obs declared "declared-and-verified") else None
      end
    else
      Some {| n_open := declared; verified := false;
              source := if no_verify_counts a then "declared-unverified" else "declared-and-verified";
              count_window := None; observed_detail := None |}.

Definition json_repos (rs : list str) : Value := JArray (map JString rs).

(** The members of an object that are there only sometimes. *)
Definition insert_opt {A : Type} (k : str) (x : option A) (f : A -> Value) (m : list (str * Value)) :
    list (str * Value) :=
  match x with Some a => obj_insert k (f a) m | None => m end.

Definition open_prs_semantics (rs : list str) (c : Count) : Value :=
  let m := obj [(lit "basis", JString BASIS_TOTAL_OPEN); (lit "includes_drafts", JBool true); (lit "repos", json_repos rs);
                (lit "verified", JBool (verified c)); (lit "source", JString (source c))] in
  let m := insert_opt "observed_window" (count_window c)
    (fun sw => JObject (obj [(lit "start", JString sw.1); (lit "end", JString sw.2)])) m in
  JObject (insert_opt "observed_per_repo" (observed_detail c)
    (fun l => JObject (obj (map (fun rn => (rn.1, JInteger rn.2)) l))) m).

Definition count_semantics (rs : list str) (c : Count) (ready : option Z) : Value :=
  JObject (insert_opt "ready_prs" ready
    (fun _ => JObject (obj [(lit "basis", JString BASIS_READY); (lit "includes_drafts", JBool false);
                            (lit "repos", json_repos rs)]))
    (obj [(lit "open_prs", open_prs_semantics rs c)])).

(** The hour the row describes, against the hour it is written in. *)
Definition coverage_ok (covers write_hour : str) (recovery : option str) : bool :=
  str_leb covers write_hour &&
  match recovery with Some hour => str_eqb hour covers | None => str_eqb write_hour covers end.

Definition text_ok (a : Args) (text : str) : bool :=
  match expect_sha256 a with Some e => eq_ignore_ascii_case e (sha256_hex (as_bytes text)) | None => true end &&
  match expect_bytes a with Some n => n =? Z.of_nat (length (as_bytes text)) | None => true end.

Definition build_entry (a : Args) (written covers text : str) (work : list Workstream * list Workstream)
    (rs : list str) (c : Count) (reds fleet : Z) : list (str * Value) :=
  let m := obj [
    (lit "schema_version", JInteger SCHEMA_VERSION); (lit "timestamp", JString written);
    (lit "written_at", JString written); (lit "covers_hour", JString covers);
    (lit "mapping_observed_at", JString written); (lit "workstream_to_worker", rows_to_json work.1);
    (lit "open_prs", JInteger (n_open c)); (lit "genuine_reds", JInteger reds); (lit "fleet_count", JInteger fleet);
    (lit "status_text", JString text); (lit "status_text_bytes", JInteger (Z.of_nat (length (as_bytes text))));
    (lit "status_text_sha256", JString (sha256_hex (as_bytes text)))] in
  let m := insert_opt "ready_prs" (ready_prs a) JInteger m in
  let m := insert_opt "recovery_for" (recovery_for a) JString m in
  let m := match work.2 with [] => m | _ => obj_insert "awaiting_landing_to_worker" (rows_to_json work.2) m end in
  obj_insert "count_semantics" (count_semantics rs c (ready_prs a)) m.

(** Everything [main] checks before it looks at the log. *)
Definition checked_entry (a : Args) (w : World) : option (list (str * Value)) :=
  work ← checked_work a w;
  raw ← repos a;
  rs ← parse_repos raw;
  let basis := default BASIS_TOTAL_OPEN (open_prs_basis a) in
  if negb (validate_open_prs_basis basis) then None
  else if negb (validate_auto_mode (open_prs_auto a) (open_prs a) (no_verify_counts a) basis (open_prs_observed a)) then None
  else
    c ← count_prs a w rs basis;
    reds ← genuine_reds a;
    fleet ← fleet_count a;
    text ← read_status_text w;
    if negb (text_ok a text) then None
    else if negb (log_dir_ok w) then None
    else
      written ← timestamp_from_date (date_written w);
      write_hour ← hour_of_timestamp written;
      covers ← covers_hour a;
      if coverage_ok covers write_hour (recovery_for a)
      then Some (build_entry a written covers text work rs c reds fleet) else None.

Definition json_count (n : nat) : Value := JInteger (Z.of_nat n).

(** The comparison with the landed log, recorded in the row. *)
Definition freshness (a : Args) (local_now : str) (landed : option str) : option Value :=
  match landed with
  | Some landed =>
      match check_log_freshness local_now landed with
      | Some landed_rows =>
          Some (JObject (obj [(lit "checked", JBool true); (lit "landed_rows", json_count landed_rows);
                              (lit "local_rows", json_count (length (log_rows local_now)));
                              (lit "missing_landed_rows", JInteger 0)]))
      | None =>
          if allow_stale_log a then
            Some (JObject (obj [(lit "checked", JBool true); (lit "overridden", JBool true);
                                (lit "missing_landed_rows", json_count (length (missing_landed_rows local_now landed)))]))
          else None
      end
  | None =>
      Some (JObject (obj [(lit "checked", JBool false);
                          (lit "reason", JString "no origin/main copy of the log to compare against")]))
  end.

(** The log as the program reads it: empty where it cannot. *)
Definition local_log (w : World) (log : option str) : str := if log_readable w then default [] log else [].

(** The append: all of the line and its end, or some of it and an error. *)
Definition append_line (w : World) (line : str) (log : option str) : option str * Outcome :=
  if negb (open_ok w) then (log, Died)
  else
    let old := default [] log in
    match torn w with
    | Some n => (Some (old ++ take n (line ++ nl)), Died)
    | None => (Some (old ++ line ++ nl), Appended)
    end.

Definition describe_line (index : nat) (line : str) : str :=
  match from_str line with
  | Some entry => describe_entry index entry
  | None => dec (Z.of_nat index) +++ " <unparseable entry> denominator=unknown"
  end.

(** [main], behind the parsing of the command line: the log and what the program did. *)
Definition run_main (a : Args) (w : World) (log : option str) : option str * Outcome :=
  if check_freshness a || print_reconciled a then
    match landed_log w with
    | None => (log, Died)
    | Some landed =>
        let local := local_log w log in
        if print_reconciled a then (log, Reconciled (reconcile_rows local landed))
        else
          match check_log_freshness local landed with
          | Some landed_rows => (log, Publishable (length (log_rows local)) landed_rows)
          | None => (log, Died)
          end
    end
  else if describe_log a then
    match log with
    | Some text => if log_readable w then (log, Described (imap describe_line (log_rows text))) else (log, Died)
    | None => (log, Died)
    end
  else
    match checked_entry a w with
    | None => (log, Died)
    | Some m =>
        match freshness a (local_log w log) (landed_log w) with
        | None => (log, Died)
        | Some f => append_line w (to_string (JObject (obj_insert "log_freshness" f m))) log
        end
    end.

Definition main (argv : list str) (w : World) (log : option str) : option str * Outcome :=
  match parse_args argv default_args with
  | Usage => (log, Help)
  | Dies => (log, Died)
  | Run a => run_main a w log
  end.
End Program.
