(* ===== verification/StatusLogCorrect.v ===== *)
(** The log of the reports: what an appended row is backed by, that the log only grows
    and keeps its rows, but for an unfinished last line, that copies reconcile without
    loss, and that the digest of a row is the digest of the acknowledged message. *)

From stdpp Require Import gmap sorting.
From S2P Require Import Prelude Text Ledger ValidateStatus ValidateStatusCorrect TestSelection Sha256 Relay Calendar RelayCorrect StatusLog.

#[local] Open Scope Z_scope.

(** ** Lists *)

Lemma one_of_spec l s : one_of l s = true <-> s ∈ l.
Proof.
  unfold one_of. rewrite existsb_exists. split.
  - intros (x & Hx & He). destruct (str_eqb_spec s x) as [->|]; [|done]. by apply list_elem_of_In.
  - intros Hs. exists s. split; [by apply list_elem_of_In | apply str_eqb_refl].
Qed.

Lemma one_of_false l s : one_of l s = false <-> s ∉ l.
Proof. rewrite <- one_of_spec. by destruct (one_of l s). Qed.

Section SortBy.
Context {A : Type} (key : A -> str).

Lemma insert_by_perm a l : insert_by key a l ≡ₚ a :: l.
Proof.
  induction l as [|b l IH]; cbn; [done|]. destruct (str_leb (key a) (key b)); [done|]. rewrite IH. by constructor.
Qed.

Lemma sort_by_perm l : sort_by key l ≡ₚ l.
Proof. induction l as [|a l IH]; cbn; [done|]. by rewrite insert_by_perm, IH. Qed.





End SortBy.


(** ** Objects *)

Lemma get_obj_insert k k' v m : get k (obj_insert k' v m) = if str_eqb k k' then Some v else get k m.
Proof.
  induction m as [|[y vy] m IH]; cbn; [done|].
  destruct (str_eqb_spec k' y) as [->|Hky]; cbn.
  { by destruct (str_eqb k y). }
  destruct (str_leb k' y); cbn; [done|]. rewrite IH.
  destruct (str_eqb_spec k y) as [->|]; [|done]. by destruct (str_eqb_spec y k').
Qed.

Lemma get_insert_opt {A : Type} k k' (x : option A) f m : str_eqb k k' = false ->
  get k (insert_opt k' x f m) = get k m.
Proof. intros Hk. unfold insert_opt. destruct x; [|done]. by rewrite get_obj_insert, Hk. Qed.

(** ** Agents *)

Definition slugs_of (a : str) (seen : list (str * list str)) : nat :=
  sum_list_with (fun e => if str_eqb (fst e) a then length (snd e) else 0%nat) seen.

Lemma note_agent_slugs row a seen :
  slugs_of a (note_agent row seen) = (slugs_of a seen + if str_eqb (agent row) a then 1 else 0)%nat.
Proof.
  induction seen as [|[b slugs] seen IH]; cbn.
  - destruct (str_eqb (agent row) a); cbn; lia.
  - destruct (str_eqb_spec b (agent row)) as [->|Hb]; cbn.
    + destruct (str_eqb (agent row) a); rewrite ?length_app; cbn; lia.
    + fold (slugs_of a (note_agent row seen)). rewrite IH. unfold slugs_of. lia.
Qed.

Lemma note_agent_keys row seen :
  map fst (note_agent row seen) = if one_of (map fst seen) (agent row) then map fst seen else map fst seen ++ [agent row].
Proof.
  induction seen as [|[b slugs] seen IH]; cbn; [done|].
  destruct (str_eqb_spec b (agent row)) as [->|Hb]; cbn; [by rewrite str_eqb_refl|].
  rewrite IH. destruct (str_eqb_spec (agent row) b); [congruence|]. cbn.
  fold (one_of (map fst seen) (agent row)). by destruct (one_of (map fst seen) (agent row)).
Qed.

Lemma note_agent_nodup row seen : NoDup (map fst seen) -> NoDup (map fst (note_agent row seen)).
Proof.
  intros Hn. rewrite note_agent_keys. destruct (one_of (map fst seen) (agent row)) eqn:Ho; [done|].
  apply one_of_false in Ho. apply list.NoDup_app. split; [done|]. split; [set_solver|].
  apply NoDup_singleton.
Qed.

Definition rows_of (a : str) (rows : list Workstream) : nat :=
  length (List.filter (fun row => str_eqb (agent row) a) rows).

Lemma nodup_rows_of rows : NoDup (map agent rows) <-> forall a, (rows_of a rows <= 1)%nat.
Proof.
  induction rows as [|row rows IH]; cbn [map]; [split; [intros; cbn; lia | constructor]|].
  rewrite list.NoDup_cons, IH. unfold rows_of in *. cbn.
  assert (Hin : agent row ∈ map agent rows <-> (0 < length (List.filter (fun r => str_eqb (agent r) (agent row)) rows))%nat).
  { clear IH. induction rows as [|r rows IH]; cbn; [split; [by intros ?%not_elem_of_nil | lia]|].
    rewrite elem_of_cons. destruct (str_eqb_spec (agent r) (agent row)) as [->|Hn]; cbn; [split; [lia | by left]|].
    rewrite IH. naive_solver. }
  split.
  - intros [Hni Hall] a. destruct (str_eqb_spec (agent row) a) as [<-|]; cbn; [|done].
    rewrite Hin in Hni. lia.
  - intros Hall. split; [|intros a; specialize (Hall a); destruct (str_eqb (agent row) a); cbn in Hall; lia].
    rewrite Hin. specialize (Hall (agent row)). rewrite str_eqb_refl in Hall. cbn in Hall. lia.
Qed.

Lemma fold_notes rows seen :
  (NoDup (map fst seen) -> NoDup (map fst (fold_left (fun seen row => note_agent row seen) rows seen))) /\
  forall a, slugs_of a (fold_left (fun seen row => note_agent row seen) rows seen) = (slugs_of a seen + rows_of a rows)%nat.
Proof.
  revert seen. induction rows as [|row rows IH]; intros seen; cbn [fold_left]; [split; [done|]; intros; by rewrite Nat.add_0_r|].
  destruct (IH (note_agent row seen)) as [Hn Hs]. split.
  - intros H. by apply Hn, note_agent_nodup.
  - intros a. rewrite Hs, note_agent_slugs. unfold rows_of. cbn [List.filter]. destruct (str_eqb (agent row) a); cbn [length]; lia.
Qed.

Lemma slugs_of_absent a seen : a ∉ map fst seen -> slugs_of a seen = 0%nat.
Proof.
  induction seen as [|[b slugs] seen IH]; cbn; [done|]. rewrite not_elem_of_cons. intros [Hb Ha].
  destruct (str_eqb_spec b a); [congruence|]. by apply IH.
Qed.

Lemma slugs_of_entry b slugs seen : (b, slugs) ∈ seen -> (length slugs <= slugs_of b seen)%nat.
Proof.
  induction seen as [|e seen IH]; [by intros ?%not_elem_of_nil|]. cbn.
  intros [<-|Hin]%elem_of_cons; cbn; [rewrite str_eqb_refl; lia|]. specialize (IH Hin). unfold slugs_of in IH. lia.
Qed.

Lemma slugs_of_single a seen : NoDup (map fst seen) ->
  Forall (fun e => (length (snd e) <= 1)%nat) seen -> (slugs_of a seen <= 1)%nat.
Proof.
  induction seen as [|[b slugs] seen IH]; cbn; [lia|]. rewrite list.NoDup_cons, list.Forall_cons. cbn.
  intros [Hb Hn] [Hl Hall]. fold (slugs_of a seen). destruct (str_eqb_spec b a) as [->|].
  - unfold slugs_of in *. rewrite (slugs_of_absent a seen Hb : sum_list_with _ seen = 0%nat). lia.
  - by apply IH.
Qed.

(** The check accepts exactly the rows in which every agent has one. *)
Lemma one_per_agent_exact rows : validate_one_workstream_per_agent rows = true <-> NoDup (map agent rows).
Proof.
  unfold validate_one_workstream_per_agent. destruct (fold_notes rows []) as [Hn Hs].
  specialize (Hn (NoDup_nil_2)). set (seen := fold_left _ rows []) in *. rewrite nodup_rows_of, forallb_forall.
  assert (Hall : (forall e, In e seen -> negb (1 <? length (snd e))%nat = true) <->
                 Forall (fun e => (length (snd e) <= 1)%nat) seen).
  { rewrite list.Forall_forall. setoid_rewrite list_elem_of_In.
    split; intros H e He; specialize (H e He); destruct (Nat.ltb_spec 1 (length (snd e))); cbn in *; lia || done. }
  rewrite Hall. split.
  - intros Hl a. specialize (Hs a). pose proof (slugs_of_single a seen Hn Hl). cbn in Hs. lia.
  - intros Hle. apply list.Forall_forall. intros [b slugs] He. pose proof (slugs_of_entry b slugs seen He).
    specialize (Hs b). specialize (Hle b). cbn in *. lia.
Qed.

Lemma task_states_exact rows states expect : validate_task_states rows states expect = true <->
  forall row, row ∈ rows -> states !! task row = Some (if expect then Active else AwaitingLanding).
Proof.
  unfold validate_task_states. rewrite forallb_forall. setoid_rewrite list_elem_of_In.
  split; intros H row Hr; specialize (H row Hr).
  - destruct (states !! task row) as [st|]; cbn in *; destruct expect; apply bool_decide_eq_true in H; by subst.
  - rewrite H. destruct expect; by apply bool_decide_eq_true.
Qed.

(** ** The members of a row *)

(** Looks a literal name up behind insertions of literal names. *)
Ltac get_member :=
  repeat first
    [ rewrite get_obj_insert;
      match goal with
      | |- context [if str_eqb ?k ?k' then _ else _] =>
          let b := eval vm_compute in (str_eqb k k') in change (str_eqb k k') with b; cbv iota
      end
    | rewrite get_insert_opt by (vm_compute; reflexivity) ].

Section Entry.
Context (a : Args) (written covers text : str) (work : list Workstream * list Workstream).
Context (rs : list str) (c : Count) (reds fleet : Z).
Abbreviation entry := (build_entry a written covers text work rs c reds fleet).

Lemma entry_fields :
  get "workstream_to_worker" entry = Some (rows_to_json work.1) /\
  get "open_prs" entry = Some (JInteger (n_open c)) /\
  get "covers_hour" entry = Some (JString covers) /\ get "written_at" entry = Some (JString written) /\
  get "status_text_bytes" entry = Some (JInteger (Z.of_nat (length (as_bytes text)))) /\
  get "status_text_sha256" entry = Some (JString (sha256_hex (as_bytes text))) /\
  get "count_semantics" entry = Some (count_semantics rs c (ready_prs a)) /\
  get "recovery_for" entry = (JString <$> recovery_for a) /\
  get "awaiting_landing_to_worker" entry =
    match work.2 with [] => None | _ => Some (rows_to_json work.2) end.
Proof.
  unfold build_entry, obj. cbn [fold_left fst snd].
  destruct (work.2) as [|r l]; split_and!; get_member; try reflexivity;
    destruct (recovery_for a); cbn [insert_opt]; get_member; reflexivity.
Qed.
End Entry.

Lemma semantics_fields rs c ready : exists m,
  member "open_prs" (count_semantics rs c ready) = Some (JObject m) /\
  get "verified" m = Some (JBool (verified c)) /\ get "repos" m = Some (json_repos rs) /\
  get "basis" m = Some (JString BASIS_TOTAL_OPEN).
Proof.
  unfold count_semantics, open_prs_semantics, obj. cbn [fold_left fst snd]. eexists. split.
  - cbn [member as_object mbind option_bind]. get_member. reflexivity.
  - split_and!; get_member; reflexivity.
Qed.

(** ** What a row is backed by *)

Lemma dedup_ids_elem x l : x ∈ dedup_ids l <-> x ∈ l.
Proof.
  induction l as [|a [|b l] IH]; [done | done |]. cbn [dedup_ids] in *.
  destruct (str_eqb_spec a b) as [->|]; rewrite ?elem_of_cons, IH, ?elem_of_cons; naive_solver.
Qed.

Lemma parse_mapping_flag_inv from_str raw rows : parse_mapping_flag from_str raw = Some rows -> NoDup (map agent rows).
Proof.
  unfold parse_mapping_flag. destruct (from_str raw) as [v|]; [|done]. cbn. destruct (parse_mapping v) as [r|]; [|done].
  cbn. destruct (validate_one_workstream_per_agent r) eqn:Hv; [|done]. intros [= <-]. by apply one_per_agent_exact.
Qed.

(** The work of a row: an agent is named once, and every task was looked up and is in the
    state that its field says. *)
Record backed_work (from_str : str -> option Value) (a : Args) (w : World) (active awaiting : list Workstream) : Prop := {
  bw_active : NoDup (map agent active);
  bw_awaiting : NoDup (map agent awaiting);
  bw_disjoint r r' : r ∈ active -> r' ∈ awaiting -> slug r <> slug r';
  bw_states : exists ids states, load_states from_str a w ids = Some states /\
    (forall id, id ∈ ids <-> id ∈ map task (active ++ awaiting)) /\
    (forall row, row ∈ active -> states !! task row = Some Active) /\
    (forall row, row ∈ awaiting -> states !! task row = Some AwaitingLanding)
}.

Lemma checked_work_inv from_str a w active awaiting : checked_work from_str a w = Some (active, awaiting) ->
  backed_work from_str a w active awaiting.
Proof.
  unfold checked_work. destruct (mapping_json a) as [raw|]; [|done]. cbn [mbind option_bind].
  destruct (parse_mapping_flag from_str raw) as [act|] eqn:Hact; [|done]. cbn [mbind option_bind].
  destruct (match awaiting_landing_json a with Some _ => _ | None => _ end) as [aw|] eqn:Haw; [|done]. cbn [mbind option_bind].
  destruct (existsb _ aw) eqn:Hslug; [done|].
  destruct (load_states from_str a w _) as [states|] eqn:Hst; [|done]. cbn [mbind option_bind].
  destruct (validate_task_states act states true && validate_task_states aw states false) eqn:Hv; [|done].
  intros [= <- <-]. apply andb_true_iff in Hv as [Hva Hvw]. constructor.
  - by eapply parse_mapping_flag_inv.
  - destruct (awaiting_landing_json a); [by eapply parse_mapping_flag_inv | simplify_eq; constructor].
  - intros r r' Hr Hr' He. apply not_true_iff_false in Hslug. apply Hslug, existsb_exists. exists r'.
    split; [by apply list_elem_of_In|]. apply existsb_exists. exists r. split; [by apply list_elem_of_In|].
    rewrite He. apply str_eqb_refl.
  - eexists _, states. split; [exact Hst|]. split; [|split].
    + intros id. by rewrite dedup_ids_elem, sort_by_perm.
    + by apply (task_states_exact act states true).
    + by apply (task_states_exact aw states false).
Qed.

(** The count of a row: measured over the repositories it names, equal to a supplied
    observation, or marked as not verified. *)
Record backed_count (from_str : str -> option Value) (a : Args) (w : World) (rs : list str) (c : Count) : Prop := {
  bc_flag : verified c = negb (no_verify_counts a);
  bc_counted : verified c = true ->
    (exists counts, mapM (dereference_open_prs from_str w) rs = Some counts /\ n_open c = fold_left Z.add counts 0) \/
    open_prs_observed a = Some (n_open c)
}.

Lemma observed_inv from_str w rs obs : observed_open_prs from_str w rs = Some obs ->
  exists counts, mapM (dereference_open_prs from_str w) rs = Some counts /\ total obs = fold_left Z.add counts 0.
Proof.
  unfold observed_open_prs. destruct (timestamp_from_date (date_started w)); [|done]. cbn [mbind option_bind].
  destruct (mapM _ rs) as [counts|]; [|done]. cbn [mbind option_bind].
  destruct (timestamp_from_date (date_ended w)); [|done]. intros [= <-]. by exists counts.
Qed.

Lemma count_prs_inv from_str a w rs c :
  validate_auto_mode (open_prs_auto a) (open_prs a) (no_verify_counts a) BASIS_TOTAL_OPEN (open_prs_observed a) = true ->
  count_prs from_str a w rs BASIS_TOTAL_OPEN = Some c -> backed_count from_str a w rs c.
Proof.
  unfold validate_auto_mode, count_prs. rewrite str_eqb_refl. destruct (open_prs_auto a); cbn [negb orb andb].
  - destruct (no_verify_counts a) eqn:Hnv; [by rewrite andb_false_r|]. intros _.
    destruct (observed_open_prs from_str w rs) as [obs|] eqn:Ho; [|done]. intros [= <-].
    split; [by rewrite Hnv|]. intros _. left. by apply observed_inv.
  - intros _. destruct (open_prs a) as [declared|]; [|done]. cbn [mbind option_bind].
    destruct (no_verify_counts a) eqn:Hnv; cbn [negb].
    { intros [= <-]. split; [by rewrite Hnv | done]. }
    destruct (open_prs_observed a) as [injected|] eqn:Hobs.
    + unfold check_open_prs. destruct (Z.eqb_spec declared injected) as [->|]; [|done]. intros [= <-].
      split; [by rewrite Hnv | by right].
    + destruct (observed_open_prs from_str w rs) as [obs|] eqn:Ho; [|done]. cbn [mbind option_bind].
      unfold check_open_prs. destruct (Z.eqb_spec declared (total obs)) as [->|]; [|done]. intros [= <-].
      split; [by rewrite Hnv|]. intros _. left. by apply observed_inv.
Qed.

(** The parts of a checked entry. *)
Lemma checked_entry_inv from_str a w m : checked_entry from_str a w = Some m ->
  exists active awaiting rs c text written write_hour covers reds fleet,
    checked_work from_str a w = Some (active, awaiting) /\ (raw ← repos a; parse_repos raw) = Some rs /\
    validate_auto_mode (open_prs_auto a) (open_prs a) (no_verify_counts a) BASIS_TOTAL_OPEN (open_prs_observed a) = true /\
    count_prs from_str a w rs BASIS_TOTAL_OPEN = Some c /\ read_status_text w = Some text /\ text_ok a text = true /\
    timestamp_from_date (date_written w) = Some written /\ hour_of_timestamp written = Some write_hour /\
    covers_hour a = Some covers /\ coverage_ok covers write_hour (recovery_for a) = true /\
    m = build_entry a written covers text (active, awaiting) rs c reds fleet.
Proof.
  unfold checked_entry. destruct (checked_work from_str a w) as [[active awaiting]|] eqn:Hwork; [|done].
  cbn [mbind option_bind]. destruct (repos a) as [raw|]; [|done]. cbn [mbind option_bind].
  destruct (parse_repos raw) as [rs|]; [|done]. cbn [mbind option_bind]. unfold validate_open_prs_basis.
  destruct (str_eqb_spec (default BASIS_TOTAL_OPEN (open_prs_basis a)) BASIS_TOTAL_OPEN) as [->|]; [|done]. cbn [negb].
  destruct (validate_auto_mode _ _ _ _ _) eqn:Hauto; [|done]. cbn [negb].
  destruct (count_prs from_str a w rs BASIS_TOTAL_OPEN) as [c|] eqn:Hc; [|done]. cbn [mbind option_bind].
  destruct (genuine_reds a) as [reds|]; [|done]. destruct (fleet_count a) as [fleet|]; [|done]. cbn [mbind option_bind].
  destruct (read_status_text w) as [text|]; [|done]. cbn [mbind option_bind].
  destruct (text_ok a text) eqn:Htext; [|done]. destruct (log_dir_ok w); [|done]. cbn [negb].
  destruct (timestamp_from_date (date_written w)) as [written|]; [|done]. cbn [mbind option_bind].
  destruct (hour_of_timestamp written) as [wh|] eqn:Hh; [|done]. cbn [mbind option_bind].
  destruct (covers_hour a) as [covers|]; [|done]. cbn [mbind option_bind].
  destruct (coverage_ok covers wh (recovery_for a)) eqn:Hcov; [|done]. intros [= <-].
  by exists active, awaiting, rs, c, text, written, wh, covers, reds, fleet.
Qed.

(** What [run_main] did when it reports an appended row. *)
Lemma appended_inv from_str to_string a w log log' : run_main from_str to_string a w log = (log', Appended) ->
  exists m f, checked_entry from_str a w = Some m /\ freshness a (local_log w log) (landed_log w) = Some f /\
    log' = Some (default [] log ++ to_string (JObject (obj_insert "log_freshness" f m)) ++ nl).
Proof.
  unfold run_main. destruct (check_freshness a || print_reconciled a).
  { destruct (landed_log w); [|done]. destruct (print_reconciled a); [done|]. by destruct (check_log_freshness _ _). }
  destruct (describe_log a); [destruct log; [destruct (log_readable w)|]; done|].
  destruct (checked_entry from_str a w) as [m|]; [|done].
  destruct (freshness a (local_log w log) (landed_log w)) as [f|] eqn:Hf; [|done].
  unfold append_line. destruct (open_ok w); [|done]. cbn [negb]. destruct (torn w); [done|]. intros [= <-].
  by exists m, f.
Qed.

(** C33.  A row that is appended is backed by what it names: every agent has one piece of
    work in flight, whose task was looked up and is active; the tasks that wait were
    looked up and are implemented; the number of open pull requests was counted over the
    named repositories, or equals a supplied observation, or the row says that it is not
    verified; and the digest and length are those of the text that was read. *)
Theorem entry_backed from_str to_string a w log log' :
  run_main from_str to_string a w log = (log', Appended) ->
  exists m active awaiting rs c text,
    log' = Some (default [] log ++ to_string (JObject m) ++ nl) /\
    get "workstream_to_worker" m = Some (rows_to_json active) /\
    get "awaiting_landing_to_worker" m = match awaiting with [] => None | _ => Some (rows_to_json awaiting) end /\
    backed_work from_str a w active awaiting /\
    get "open_prs" m = Some (JInteger (n_open c)) /\ (raw ← repos a; parse_repos raw) = Some rs /\
    backed_count from_str a w rs c /\
    (exists sem counts, get "count_semantics" m = Some sem /\ member "open_prs" sem = Some (JObject counts) /\
      get "verified" counts = Some (JBool (verified c)) /\ get "repos" counts = Some (json_repos rs)) /\
    canonical_status_text <$> status_input w = Some text /\ text <> [] /\
    get "status_text_sha256" m = Some (JString (sha256_hex (as_bytes text))) /\
    get "status_text_bytes" m = Some (JInteger (Z.of_nat (length (as_bytes text)))).
Proof.
  intros (m & f & Hm & _ & ->)%appended_inv.
  apply checked_entry_inv in Hm as (active & awaiting & rs & c & text & written & wh & covers & reds & fleet &
    Hwork & Hrs & Hauto & Hc & Htext & _ & _ & _ & _ & _ & ->).
  destruct (entry_fields a written covers text (active, awaiting) rs c reds fleet)
    as (Hact & Hopen & _ & _ & Hbytes & Hsha & Hsem & _ & Haw).
  destruct (semantics_fields rs c (ready_prs a)) as (counts & Hcs & Hver & Hrepos & _).
  unfold read_status_text in Htext. destruct (status_input w) as [raw|]; [|done]. cbn [mbind option_bind] in Htext.
  destruct (canonical_status_text raw) as [|b t] eqn:Ht; [done|]. simplify_eq.
  eexists _, active, awaiting, rs, c, (b :: t).
  split; [reflexivity|]. split_and!; get_member; try done.
  - by apply checked_work_inv.
  - by apply count_prs_inv.
  - exists (count_semantics rs c (ready_prs a)), counts. by get_member.
  - cbn. by rewrite Ht.
Qed.

(** A count is the length of a list that GitHub returned and did not cut off. *)
Lemma dereference_exact from_str w repo n : dereference_open_prs from_str w repo = Some n <->
  exists text array, gh_pr_list w repo = Some (true, text) /\ from_str (trim text) = Some (JArray array) /\
    n = Z.of_nat (length array) /\ (length array < GH_PR_LIST_LIMIT)%nat.
Proof.
  unfold dereference_open_prs, check_not_truncated. split.
  - destruct (gh_pr_list w repo) as [[[] text]|]; [|done|done]. destruct (from_str (trim text)) as [v|] eqn:Hv; [|done].
    cbn [mbind option_bind]. destruct v as [| | | | |l|]; try done. cbn [as_array mbind option_bind].
    destruct (Nat.leb_spec GH_PR_LIST_LIMIT (length l)); [done|]. intros [= <-]. by exists text, l.
  - intros (text & l & -> & Hv & -> & Hl). rewrite Hv. cbn [as_array mbind option_bind].
    destruct (Nat.leb_spec GH_PR_LIST_LIMIT (length l)); [lia | done].
Qed.

(** ** Rows of the log *)

(** A log whose last line is complete. *)
Definition ended (s : str) : Prop := match rev s with c :: _ => c = NL | [] => True end.

Lemma split_inclusive_nonempty c s : split_inclusive (c :: s) <> [].
Proof. cbn. destruct (c =? NL); [done|]. by destruct (split_inclusive s). Qed.

Lemma split_inclusive_app a b : ended a -> split_inclusive (a ++ b) = split_inclusive a ++ split_inclusive b.
Proof.
  induction a as [|c a IH]; [done|]. intros He. destruct a as [|d a].
  { cbn in He. by subst. }
  assert (Hd : ended (d :: a)).
  { unfold ended in *. cbn [rev] in *. by destruct (rev a); cbn in *. }
  specialize (IH Hd). pose proof (split_inclusive_nonempty d a) as Hne.
  generalize dependent (d :: a). intros r IH _ Hd Hne. cbn. rewrite IH.
  destruct (c =? NL); [done|]. by destruct (split_inclusive r).
Qed.

Lemma log_rows_app a b : ended a -> log_rows (a ++ b) = log_rows a ++ log_rows b.
Proof.
  intros He. unfold log_rows, lines. by rewrite split_inclusive_app, map_app, List.filter_app.
Qed.

(** A text that is one row. *)
Definition one_row (s : str) : Prop := clean s = true /\ trim s <> [].

Lemma log_rows_cons row s : one_row row -> log_rows (row ++ nl ++ s) = row :: log_rows s.
Proof.
  intros [Hc Ht]. unfold log_rows. cbn [nl app]. rewrite lines_cons by (by rewrite Hc). cbn.
  destruct (str_eqb_spec (trim row) []); [done|]. done.
Qed.




Lemma missing_nil local landed : missing_landed_rows local landed = [] <->
  forall row, row ∈ log_rows landed -> row ∈ log_rows local.
Proof.
  unfold missing_landed_rows. induction (log_rows landed) as [|r rows IH]; cbn; [split; [by intros _ ? ?%not_elem_of_nil | done]|].
  destruct (one_of (log_rows local) r) eqn:Ho; cbn.
  - rewrite IH. apply one_of_spec in Ho. setoid_rewrite elem_of_cons. naive_solver.
  - apply one_of_false in Ho. split; [done|]. intros H. destruct Ho. apply H. left.
Qed.


Lemma fresh_local a local landed f : freshness a local (Some landed) = Some f -> allow_stale_log a = false ->
  missing_landed_rows local landed = [].
Proof.
  unfold freshness, check_log_freshness. destruct (missing_landed_rows local landed); [done|]. by destruct (allow_stale_log a).
Qed.

(** A run leaves the text of the log in place. *)
Lemma run_extends from_str to_string a w log :
  exists rest, default [] (run_main from_str to_string a w log).1 = default [] log ++ rest.
Proof.
  assert (H0 : exists rest, default [] log = default [] log ++ rest) by (exists []; by rewrite app_nil_r).
  unfold run_main, append_line. repeat (case_match; try exact H0); cbn; eauto.
Qed.

Lemma ended_dec s : ended s \/ ~ ended s.
Proof. unfold ended. destruct (rev s) as [|c l]; [by left|]. destruct (decide (c = NL)); auto. Qed.

(** Whatever is written behind a text, all its lines but the last stay as they are. *)
Lemma split_inclusive_keeps a b :
  exists rest, split_inclusive (a ++ b) = removelast (split_inclusive a) ++ rest.
Proof.
  induction a as [|c a [rest IH]]; [by eexists|]. cbn. rewrite IH.
  destruct (c =? NL); [|destruct (split_inclusive a) as [|l [|l' ls]]; cbn; eauto].
  destruct (split_inclusive a) as [|l ls]; [by eexists|]. by exists rest.
Qed.

(** A row stays a row, unless it is the unfinished last line. *)
Lemma log_rows_kept a b row : row ∈ log_rows a ->
  row ∈ log_rows (a ++ b) \/ (~ ended a /\ exists ls, lines a = ls ++ [row]).
Proof.
  intros Hr. destruct (ended_dec a) as [He|He].
  { left. rewrite log_rows_app by done. set_solver. }
  unfold log_rows in *. rewrite list_elem_of_In, filter_In, <- list_elem_of_In in Hr. destruct Hr as [Hl Hb].
  destruct (split_inclusive_keeps a b) as [rest Hs]. unfold lines in *.
  destruct (split_inclusive a) as [|x l] eqn:Ha; [by apply not_elem_of_nil in Hl|].
  rewrite (app_removelast_last [] (l := x :: l)) in Hl |- * by done.
  rewrite map_app, elem_of_app in Hl. destruct Hl as [Hl | Hl%list_elem_of_singleton].
  - left. rewrite list_elem_of_In, filter_In, <- list_elem_of_In, Hs, map_app, elem_of_app. auto.
  - right. split; [done|]. eexists. by rewrite map_app, Hl.
Qed.

(** C34.  The log only grows.  No run removes or changes a character of it, and every row
    of the log is a row of the new log, whatever the run does, except a last line that has
    no line feed: what is appended behind it becomes part of it.  A run that appends to a
    log whose last line is complete adds one row behind all others.  When it compared the
    log with a landed copy and the comparison was not overridden, the new log has every
    landed row, with the same exception ([append_glues_rows] of [StatusLogSamples] shows
    it), so that publishing a log of complete lines deletes no landed row. *)
Theorem log_append_only from_str to_string a w log log' o :
  (forall v, one_row (to_string v)) -> run_main from_str to_string a w log = (log', o) ->
  (exists rest, default [] log' = default [] log ++ rest) /\
  (forall row, row ∈ log_rows (default [] log) -> row ∈ log_rows (default [] log') \/
     (~ ended (default [] log) /\ exists ls, lines (default [] log) = ls ++ [row])) /\
  (o = Appended -> ended (default [] log) ->
    exists row, log_rows (default [] log') = log_rows (default [] log) ++ [row]) /\
  (o = Appended -> forall landed, landed_log w = Some landed -> allow_stale_log a = false ->
    (forall row, row ∈ log_rows landed -> row ∈ log_rows (default [] log') \/
       (~ ended (default [] log) /\ exists ls, lines (default [] log) = ls ++ [row])) /\
    (ended (default [] log) -> missing_landed_rows (default [] log') landed = [])).
Proof.
  intros Hone Hrun.
  destruct (run_extends from_str to_string a w log) as [rest He]. rewrite Hrun in He. cbn [fst] in He.
  assert (Hkept : forall row, row ∈ log_rows (default [] log) -> row ∈ log_rows (default [] log') \/
     (~ ended (default [] log) /\ exists ls, lines (default [] log) = ls ++ [row]))
    by (intros row Hr; rewrite He; by apply log_rows_kept).
  split; [by exists rest|]. split; [exact Hkept|]. split.
  - intros -> Hended. apply appended_inv in Hrun as (m & f & _ & _ & ->). cbn [default].
    set (row := to_string _). exists row. cbn [from_option id].
    rewrite log_rows_app by done. f_equal. apply (log_rows_cons row []). apply Hone.
  - intros -> landed Hl Hs. apply appended_inv in Hrun as (m & f & _ & Hf & _).
    rewrite Hl in Hf. apply fresh_local in Hf; [|done]. rewrite missing_nil in Hf.
    assert (Hall : forall row, row ∈ log_rows landed -> row ∈ log_rows (default [] log') \/
       (~ ended (default [] log) /\ exists ls, lines (default [] log) = ls ++ [row])).
    { intros row Hr. apply Hkept. specialize (Hf row Hr). unfold local_log in Hf.
      destruct (log_readable w); [done|]. by apply not_elem_of_nil in Hf. }
    split; [exact Hall|]. intros Hended. apply missing_nil. intros row Hr. by destruct (Hall row Hr) as [|[]].
Qed.


(** ** The text that was sent *)

(** The rule of the driver, as that of the log. *)
Lemma canonical_text_bytes_eq t : canonical_text_bytes t =
  match strip_suffix NL t with
  | Some t1 => match strip_suffix CR t1 with Some t2 => t2 | None => t1 end
  | None => t
  end.
Proof.
  unfold canonical_text_bytes, strip_suffix. destruct (rev t) as [|b r] eqn:Ht; [done|].
  destruct (Z.eqb_spec b NL) as [->|Hb].
  - unfold NL at 1. rewrite rev_involutive. destruct r as [|c r]; [done|].
    destruct (Z.eqb_spec c CR) as [->|Hc]; [done|].
    destruct c as [|p|p]; try done. do 4 (destruct p as [p|p|]; try done).
  - destruct b as [|p|p]; try done. do 4 (destruct p as [p|p|]; try done).
Qed.

Lemma utf8_last c : 0 <= c -> exists init e, utf8_char c = init ++ [e] /\ (c < 128 /\ init = [] /\ e = c \/ 128 <= c /\ 128 <= e).
Proof.
  intros Hc. unfold utf8_char. pose proof (Z.mod_pos_bound c 64 ltac:(lia)).
  destruct (Z.ltb_spec c 128); [by exists [], c; auto|].
  destruct (Z.ltb_spec c 2048); [exists [192 + c / 64], (128 + c mod 64); split; [done | right; lia]|].
  destruct (Z.ltb_spec c 65536).
  - exists [224 + c / 4096; 128 + c / 64 mod 64], (128 + c mod 64). split; [done | right; lia].
  - exists [240 + c / 262144; 128 + c / 4096 mod 64; 128 + c / 64 mod 64], (128 + c mod 64). split; [done | right; lia].
Qed.

Lemma strip_suffix_bytes c s : c < 128 -> Forall (fun d => 0 <= d) s ->
  strip_suffix c (as_bytes s) = as_bytes <$> strip_suffix c s.
Proof.
  intros Hc Hs. destruct s as [|d s _] using rev_ind; [done|]. apply Forall_app in Hs as [_ Hd]. apply list.Forall_cons in Hd as [Hd _].
  assert (Happ : as_bytes (s ++ [d]) = as_bytes s ++ utf8_char d)
    by (unfold as_bytes; rewrite map_app, concat_app; cbn; by rewrite app_nil_r).
  destruct (utf8_last d Hd) as (init & e & Hu & He). rewrite Happ, Hu, app_assoc.
  destruct (decide (d = c)) as [->|Hne].
  - destruct He as [(_ & -> & ->)|[? _]]; [|lia]. by rewrite app_nil_r, !strip_suffix_snoc.
  - rewrite (strip_suffix_other c d) by done. apply strip_suffix_other. destruct He as [(_ & _ & ->)|[_ ?]]; [done | lia].
Qed.

(** Both tools take the same bytes as the text that was sent. *)
Lemma canonical_agree s : Forall (fun d => 0 <= d) s -> canonical_text_bytes (as_bytes s) = as_bytes (canonical_status_text s).
Proof.
  intros Hs. rewrite canonical_text_bytes_eq. unfold canonical_status_text. rewrite strip_suffix_bytes by done.
  destruct (strip_suffix NL s) as [s1|] eqn:H1; [|done]. cbn [fmap option_fmap option_map].
  apply strip_suffix_some in H1 as ->. apply Forall_app in Hs as [Hs _]. rewrite strip_suffix_bytes by done.
  by destruct (strip_suffix CR s1).
Qed.

(** C36.  The log and the claim carry the same digest and length: when an acknowledgement is
    recorded with a text file and a row is appended with a text, and the two texts differ at
    most in a line terminator at their end, the digest and the number of bytes in the claim
    of the hour are those in the row. *)
Theorem digests_agree from_str to_string a w log log' k e f f' s :
  Forall (fun d => 0 <= d) s -> text e = Some (as_bytes s) -> apply_ack k e f = (f', Ok true) ->
  canonical_status_text <$> status_input w = Some (canonical_status_text s) ->
  run_main from_str to_string a w log = (log', Appended) ->
  exists c m digest n,
    f' = Valid c /\ gchat_text_sha256 c = Some digest /\ gchat_text_bytes c = Some n /\
    log' = Some (default [] log ++ to_string (JObject m) ++ nl) /\
    get "status_text_sha256" m = Some (JString digest) /\ get "status_text_bytes" m = Some (JInteger n).
Proof.
  intros Hs Htext Hack Hinput (m & fr & Hm & _ & ->)%appended_inv.
  apply checked_entry_inv in Hm as (active & awaiting & rs & c & t & written & wh & covers & reds & fleet &
    _ & _ & _ & _ & Ht & _ & _ & _ & _ & _ & ->).
  destruct (entry_fields a written covers t (active, awaiting) rs c reds fleet) as (_ & _ & _ & _ & Hbytes & Hsha & _).
  assert (t = canonical_status_text s) as ->.
  { unfold read_status_text in Ht. destruct (status_input w) as [raw|]; [|done]. cbn in Hinput, Ht.
    injection Hinput as Hinput. rewrite Hinput in Ht. by destruct (canonical_status_text s); simplify_eq. }
  unfold apply_ack, ack_plan in Hack. destruct (ack_digest k e) as [[t digest]|] eqn:Hd; [|done].
  apply ack_digest_inv in Hd as (_ & Hct & ->). rewrite Htext in Hct. cbn in Hct. injection Hct as <-.
  rewrite canonical_agree in Hack by done.
  destruct f as [|claim|]; [done| |done]. destruct (gchat_message_name claim); [by case_match|].
  unfold ack_commit, write_claim in Hack. destruct (ack_write_ok e); [|done]. cbn [andb] in Hack.
  destruct (ack_log_ok e); [|done]. injection Hack as <-.
  eexists _, _, _, _. split; [reflexivity|]. split; [reflexivity|]. split; [reflexivity|]. split; [reflexivity|].
  split; get_member; [exact Hsha | exact Hbytes].
Qed.

(** ** Hours *)

Lemma trim_end_stamp s : trim_end ((s ++ [90]) ++ nl) = s ++ [90].
Proof. unfold trim_end. rewrite !rev_app_distr. cbn. by rewrite rev_involutive. Qed.

(** C37.  A late report declares itself.  Before the year 10000, when a row that describes
    the hour of the instant [e] is written at the instant [t], that hour is not in the
    future; a row without a recovery mark describes the hour it was written in; and a row
    with one names the hour it describes. *)
Theorem late_entry_declared from_str to_string a w log log' e t :
  0 <= e < END -> 0 <= t < END -> covers_hour a = Some (hour_bucket e) -> date_written w = Some (format_utc t ++ nl) ->
  run_main from_str to_string a w log = (log', Appended) ->
  e / 3600 <= t / 3600 /\
  exists m, log' = Some (default [] log ++ to_string (JObject m) ++ nl) /\
    get "covers_hour" m = Some (JString (hour_bucket e)) /\ get "written_at" m = Some (JString (format_utc t)) /\
    match get "recovery_for" m with
    | Some mark => mark = JString (hour_bucket e)
    | None => e / 3600 = t / 3600
    end.
Proof.
  intros He Ht Hcov Hdate (m & fr & Hm & _ & ->)%appended_inv.
  apply checked_entry_inv in Hm as (active & awaiting & rs & c & tx & written & wh & covers & reds & fleet &
    _ & _ & _ & _ & _ & _ & Hw & Hh & Hc & Hok & ->).
  destruct (entry_fields a written covers tx (active, awaiting) rs c reds fleet)
    as (_ & _ & Hfc & Hfw & _ & _ & _ & Hfr & _).
  rewrite Hcov in Hc. injection Hc as <-. rewrite Hdate in Hw. destruct (format_utc_parts t) as [rest Hf].
  unfold timestamp_from_date in Hw. cbn [fmap option_fmap option_map] in Hw. injection Hw as Hw. rewrite Hf in Hw. rewrite (app_assoc (hour_bucket t)), trim_end_stamp in Hw.
  rewrite <- app_assoc, <- Hf in Hw. subst written.
  unfold hour_of_timestamp in Hh. case_match; [done|]. injection Hh as <-.
  rewrite Hf in Hok. rewrite take_app_length' in Hok by (by rewrite hour_bucket_length).
  unfold coverage_ok in Hok. apply andb_true_iff in Hok as [Hle Hrec]. rewrite hour_order in Hle by done.
  split; [lia|]. eexists. split; [reflexivity|]. split; [get_member; exact Hfc|]. split; [get_member; exact Hfw|].
  get_member. rewrite Hfr. destruct (recovery_for a) as [hour|]; cbn [fmap option_fmap option_map].
  - by destruct (str_eqb_spec hour (hour_bucket e)) as [->|].
  - destruct (str_eqb_spec (hour_bucket t) (hour_bucket e)) as [Hb|]; [|done].
    pose proof (hour_order t e Ht He) as Ho. rewrite Hb, str_leb_refl in Ho. lia.
Qed.
