(* ===== verification/StatusLogSamples.v ===== *)
(** A report that is logged, the theorems of [StatusLogCorrect] on it, and inputs on which
    the program does less than it says. *)

From stdpp Require Import gmap sorting.
From S2P Require Import Prelude Text Ledger ValidateStatus TestSelection Sha256 Relay Calendar RelayCorrect StatusLog StatusLogCorrect.

#[local] Open Scope Z_scope.

(** ** A report *)

(** A parser that knows four texts, and a printer. *)
Definition sample_value (s : str) : option Value :=
  if str_eqb s "work" then
    Some (JObject [(lit "backend-parity/stack-hash", JObject [(lit "agent", JString "w3"); (lit "task", JString "t1");
                                                             (lit "cwd", JString "worktrees/w3")])])
  else if str_eqb s "landing" then
    Some (JObject [(lit "backend-parity/fork-order", JObject [(lit "agent", JString "w3"); (lit "task", JString "t2");
                                                             (lit "cwd", JString "worktrees/w3")])])
  else if str_eqb s "states" then
    Some (JObject [(lit "t1", JObject [(lit "status", JString "in_progress")]);
                   (lit "t2", JObject [(lit "tags", JArray [JString "Implemented"])])])
  else if str_eqb s "prs" then Some (JArray [JNull; JNull])
  else None.

Definition sample_print (v : Value) : str := lit "{}".

Definition sample_argv (recovery : list str) : list str :=
  map lit ["--mapping-json"; "work"; "--awaiting-landing-json"; "landing"; "--task-states-json"; "states.json"; "--repos";
           "o/hermit, o/reverie,o/hermit"; "--open-prs"; "auto"; "--genuine-reds"; "0"; "--fleet-count"; "2"; "--covers-hour";
           "2026-08-07T01"]%string ++ recovery.

Definition sample_log_args (recovery : list str) : StatusLog.Args :=
  match parse_args (sample_argv recovery) default_args with Run a => a | _ => default_args end.

Definition sample_world (t : Z) : World := {|
  task_states_text := Some (lit "states");
  tg_sql := fun _ => None;
  gh_pr_list := fun _ => Some (true, lit "prs" ++ nl);
  date_started := Some (format_utc t ++ nl);
  date_ended := Some (format_utc t ++ nl);
  date_written := Some (format_utc t ++ nl);
  status_input := Some (lit "all green" ++ nl);
  log_dir_ok := true; log_readable := true; log_in_root := true;
  git_show := Some (true, Some (lit "{1}" ++ nl));
  open_ok := true; torn := None |}.

Definition sample_log : option str := Some (lit "{1}" ++ nl).

Abbreviation sample_run t recovery :=
  (run_main sample_value sample_print (sample_log_args recovery) (sample_world t) sample_log).

Definition recovery_flag : list str := map lit ["--recovery-for"; "2026-08-07T01"]%string.

Lemma entry_backed_witness : exists m active awaiting,
  (sample_run t_sample []).1 = Some (default [] sample_log ++ sample_print (JObject m) ++ nl) /\
  backed_work sample_value (sample_log_args []) (sample_world t_sample) active awaiting.
Proof.
  destruct (entry_backed sample_value sample_print (sample_log_args []) (sample_world t_sample) sample_log
              (sample_run t_sample []).1) as (m & active & awaiting & rs & c & text & Hl & _ & _ & Hw & _).
  - vm_compute. reflexivity.
  - exists m, active, awaiting. split; [exact Hl | exact Hw].
Defined.

Lemma log_append_only_witness : exists row,
  log_rows (default [] (sample_run t_sample []).1) = log_rows (default [] sample_log) ++ [row].
Proof.
  destruct (log_append_only sample_value sample_print (sample_log_args []) (sample_world t_sample) sample_log
              (sample_run t_sample []).1 Appended) as (_ & _ & H & _).
  - intros v. split; [reflexivity | discriminate].
  - vm_compute. reflexivity.
  - exact (H eq_refl eq_refl).
Defined.


Lemma digests_agree_witness : exists c m digest,
  (apply_ack sample_ack (sample_ack_env (t_sample + 60)) woken_file).1 = Valid c /\ gchat_text_sha256 c = Some digest /\
  (sample_run t_sample []).1 = Some (default [] sample_log ++ sample_print (JObject m) ++ nl) /\
  get "status_text_sha256" m = Some (JString digest).
Proof.
  destruct (digests_agree sample_value sample_print (sample_log_args []) (sample_world t_sample) sample_log
              (sample_run t_sample []).1 sample_ack (sample_ack_env (t_sample + 60)) woken_file
              (apply_ack sample_ack (sample_ack_env (t_sample + 60)) woken_file).1 (lit "all green"))
    as (c & m & digest & n & Hf & Hd & _ & Hl & Hm & _).
  - apply list.Forall_forall. intros d Hd. apply list_elem_of_In in Hd. vm_compute in Hd. lia.
  - reflexivity.
  - vm_compute. reflexivity.
  - reflexivity.
  - vm_compute. reflexivity.
  - exists c, m, digest. auto.
Defined.

(** A report that is written an hour late. *)
Lemma late_entry_declared_witness : t_sample / 3600 <= (t_sample + 4000) / 3600 /\ snd (sample_run (t_sample + 4000) []) = Died.
Proof.
  split; [|vm_compute; reflexivity].
  apply (late_entry_declared sample_value sample_print (sample_log_args recovery_flag) (sample_world (t_sample + 4000))
           sample_log (sample_run (t_sample + 4000) recovery_flag).1 t_sample (t_sample + 4000)).
  - unfold t_sample, END. lia.
  - unfold t_sample, END. lia.
  - vm_compute. reflexivity.
  - reflexivity.
  - vm_compute. reflexivity.
Defined.

(** ** Where the program does less than it says *)

(** A log whose last line is not complete: the new row is glued to it, and a landed row
    that the program has just found is no row of the log any more. *)
Lemma append_glues_rows :
  let w := sample_world t_sample in
  let log := Some (lit "{1}") in
  let landed := lit "{1}" ++ nl in
  missing_landed_rows (local_log w log) landed = [] /\
  snd (run_main sample_value sample_print (sample_log_args []) w log) = Appended /\
  missing_landed_rows (default [] (fst (run_main sample_value sample_print (sample_log_args []) w log))) landed = [lit "{1}"].
Proof. vm_compute. auto. Qed.

(** The tags of a task in the table of the TaskGraph, of which one has a bar in it. *)
Definition barred_tags : str := [91; 34] +++ "a|b" +++ [34; 44; 34] +++ "implemented" +++ [34; 93].

(** A row whose tags do not parse because they were cut at a bar is an active task,
    although it is tagged as implemented. *)
Lemma cut_tags_are_active from_str : from_str ([91; 34] +++ "a") = None ->
  parse_tg_sql_rows from_str ("t1|in_progress|" +++ barred_tags) !! lit "t1" = Some Active /\
  classify_task "in_progress" [lit "a|b"; lit "implemented"] = AwaitingLanding.
Proof.
  intros Hf. split; [|vm_compute; reflexivity].
  unfold parse_tg_sql_rows. change (lines ("t1|in_progress|" +++ barred_tags)) with ["t1|in_progress|" +++ barred_tags].
  cbn [fold_left]. unfold tg_row.
  change (map trim (split 124 (trim ("t1|in_progress|" +++ barred_tags))))
    with [lit "t1"; lit "in_progress"; [91; 34] +++ "a"; "b" +++ [34; 44; 34] +++ "implemented" +++ [34; 93]].
  unfold parse_tags. rewrite Hf. cbn. apply lookup_insert_eq.
Qed.

(** A closed task that still carries the tag waits for landing. *)
Lemma closed_task_awaits : classify_task "closed" [lit "implemented"] = AwaitingLanding.
Proof. reflexivity. Qed.

(** An hour of a day that does not exist is accepted. *)
Lemma february_31 : parse_hour_bucket "2026-02-31T05" = Some (lit "2026-02-31T05").
Proof. reflexivity. Qed.

(** A plural is taken for an ordinal. *)
Lemma plural_is_ordinal : is_ordinal_segment "slots" = true /\ is_ordinal_segment "passes" = false.
Proof. vm_compute. auto. Qed.
