(* ===== verification/Watchdog.v ===== *)
(** The liveness watchdog ([scripts/orc-liveness-watchdog.rs]): the session rows of a
    database are claims, which it checks against [/proc]; it logs every check and alerts
    when no session is live, at most once in a cooldown.

    The database client, the process table, the clock, the shell and the file system
    answer through the records [Db] and [World]; the parser of JSON and the lossy decoding
    of bytes are arguments.  The text of summaries and the line of the status file are left
    out.  Paths of files are not modelled, their contents are. *)

From stdpp Require Import list.
From S2P Require Import Prelude Text Ledger TestSelection Relay.

#[local] Open Scope Z_scope.

Definition DEFAULT_COOLDOWN_SECS : Z := 3600.
Definition EXIT_LIVE : Z := 0.
Definition EXIT_DEAD : Z := 1.
Definition EXIT_UNKNOWN : Z := 2.
Definition EXIT_ERROR : Z := 3.

(** ** Data *)

Record SessionRow : Type := {
  id : str;
  name : str;
  pid : option Z;
  row_cwd : option str;
  updated_at : option str
}.

Record ProcObservation : Type := {
  pid_alive : bool;
  cmdline_argv0 : option str;
  cmdline_basename : option str;
  is_expected_command : bool;
  starttime_ticks : option Z
}.

Inductive SessionVerdict : Type := VLive | StalePid | PidRecycled | NoPid.
#[export] Instance SessionVerdict_eq_dec : EqDecision SessionVerdict.
Proof. solve_decision. Defined.

Record Observation : Type := { o_session : SessionRow; o_proc : ProcObservation; verdict : SessionVerdict }.

Inductive State : Type :=
| Live | DeadStalePid | DeadPidRecycled | DeadNoPid | DeadNoActiveSession | UnknownDbMissing | UnknownDbUnreadable.
#[export] Instance State_eq_dec : EqDecision State.
Proof. solve_decision. Defined.

Definition is_healthy (s : State) : bool := match s with Live => true | _ => false end.

Definition exit_code (s : State) : Z :=
  match s with
  | Live => EXIT_LIVE
  | UnknownDbMissing | UnknownDbUnreadable => EXIT_UNKNOWN
  | _ => EXIT_DEAD
  end.

(** ** Processes *)

(** What [/proc] holds of a process. *)
Record ProcDir : Type := { cmdline : option (list Z); is_dir : bool; stat : option str }.

(** [Path::file_name]: the last component, unless it names a parent. *)
Definition file_name (s : str) : option str :=
  match rev (List.filter (fun c => negb (str_eqb c []) && negb (str_eqb c ".")) (split 47 s)) with
  | c :: _ => if str_eqb c ".." then None else Some c
  | [] => None
  end.

(** Field 22 of the status, behind the last parenthesis. *)
Definition read_starttime (d : ProcDir) : option Z :=
  text ← stat d;
  i ← rfind_char 41 text;
  field ← split_whitespace (drop (S i) text) !! 19%nat;
  parse_u64 field.

Fixpoint before_nul (bytes : list Z) : list Z :=
  match bytes with [] => [] | b :: r => if b =? 0 then [] else b :: before_nul r end.

Section Program.
Context (lossy : list Z -> str) (from_str : str -> option Value).

Definition observe_pid (d : ProcDir) (expect : str) : ProcObservation :=
  match cmdline d with
  | None => {| pid_alive := is_dir d; cmdline_argv0 := None; cmdline_basename := None;
               is_expected_command := false; starttime_ticks := read_starttime d |}
  | Some bytes =>
      let argv0 := match lossy (before_nul bytes) with [] => None | s => Some s end in
      let basename := (fun value => default value (file_name value)) <$> argv0 in
      {| pid_alive := true; cmdline_argv0 := argv0; cmdline_basename := basename;
         is_expected_command := match basename with Some b => str_eqb b expect | None => false end;
         starttime_ticks := read_starttime d |}
  end.

Definition verdict_for (p : option Z) (proc : ProcObservation) : SessionVerdict :=
  match p with
  | None => NoPid
  | Some p =>
      if p <=? 0 then NoPid
      else if negb (pid_alive proc) then StalePid
      else if is_expected_command proc then VLive
      else PidRecycled
  end.

Definition no_observation : ProcObservation := {|
  pid_alive := false; cmdline_argv0 := None; cmdline_basename := None; is_expected_command := false;
  starttime_ticks := None |}.

Definition observe_sessions (rows : list SessionRow) (proc_root : Z -> ProcDir) (expect : str) : list Observation :=
  map (fun row =>
    let proc :=
      match pid row with
      | Some p => if 0 <? p then observe_pid (proc_root p) expect else no_observation
      | None => no_observation
      end in
    {| o_session := row; o_proc := proc; verdict := verdict_for (pid row) proc |}) rows.

(** ** The database *)

(** The database: whether its file exists, and the client's answer: no start, or its exit
    status and output. *)
Record Db : Type := { db_exists : bool; sqlite3 : result (Z * str) str }.

(** A field of type [Option<T>]: absent, null, or a value of the type. *)
Definition opt_field {A : Type} (f : Value -> option A) (k : str) (m : list (str * Value)) : option (option A) :=
  match get k m with
  | None | Some JNull => Some None
  | Some v => a ← f v; Some (Some a)
  end.

Definition as_i64 (v : Value) : option Z :=
  match v with JInteger n => if (- 2 ^ 63 <=? n) && (n <? 2 ^ 63) then Some n else None | _ => None end.

Definition session_row (v : Value) : option SessionRow :=
  m ← as_object v;
  i ← (v ← get "id" m; as_str v);
  n ← match get "name" m with None => Some [] | Some v => as_str v end;
  p ← opt_field as_i64 "pid" m;
  c ← opt_field as_str "cwd" m;
  u ← opt_field as_str "updated_at" m;
  Some {| id := i; name := n; pid := p; row_cwd := c; updated_at := u |}.

Definition session_rows (text : str) : option (list SessionRow) :=
  v ← from_str text; l ← as_array v; mapM session_row l.

(** The rows, or the message why there are none. *)
Definition load_active_sessions (db : Db) : option (list SessionRow) * option str :=
  if negb (db_exists db) then (None, Some (lit "index database not found: "))
  else
    match sqlite3 db with
    | Err error => (None, Some ("start sqlite3: " +++ error))
    | Ok (status, stdout) =>
        if negb (status =? 0) then (None, Some ("sqlite3 exited " +++ dec status))
        else
          match trim stdout with
          | [] => (Some [], None)
          | text =>
              match session_rows text with
              | Some rows => (Some rows, None)
              | None => (None, Some (lit "parse sqlite3 JSON output: "))
              end
          end
    end.

Definition any_verdict (v : SessionVerdict) (obs : list Observation) : bool :=
  existsb (fun o => bool_decide (verdict o = v)) obs.

Definition classify (rows : option (list SessionRow)) (db_error : option str) (obs : list Observation) : State :=
  match rows with
  | None =>
      match db_error with
      | Some message => if starts_with "index database not found" message then UnknownDbMissing else UnknownDbUnreadable
      | None => UnknownDbUnreadable
      end
  | Some [] => DeadNoActiveSession
  | Some (_ :: _) =>
      if any_verdict VLive obs then Live
      else if any_verdict PidRecycled obs then DeadPidRecycled
      else if any_verdict StalePid obs then DeadStalePid
      else DeadNoPid
  end.

(** ** A check *)

Record Args : Type := {
  cooldown_secs : Z;
  expect_command : str;
  alert_command : option str;
  restart_command : option str;
  dry_run : bool
}.

Record World : Type := {
  db : Db;
  proc_root : Z -> ProcDir;
  now : option Z;
  stamp_readable : bool;   (* [read_to_string] of the stamp, where there is one *)
  stamp_ok : bool;         (* its replacement *)
  log_ok : bool;
  status_ok : bool;
  run_shell : str -> option Z
}.

Record HealthRecord : Type := {
  checked_at_epoch : Z;
  state : State;
  healthy : bool;
  active_session_count : nat;
  live_session_count : nat;
  observations : list Observation;
  db_error : option str;
  alerted : bool;
  alert_suppressed_by_cooldown : bool;
  alert_command_exit : option Z;
  restart_command_exit : option Z
}.

(** [fs::read_to_string]: no file and a failing read are both an error. *)
Definition read_stamp (readable : bool) (stamp : option str) : result str unit :=
  match stamp with Some text => if readable then Ok text else Err tt | None => Err tt end.

(** [.ok().and_then(..).unwrap_or(0)]: an error counts as an alert at time zero. *)
Definition cooldown_elapsed (read : result str unit) (t cooldown : Z) : bool :=
  if cooldown =? 0 then true
  else
    let last := match read with Ok text => default 0 (parse_u64 (trim text)) | Err _ => 0 end in
    cooldown <=? Z.max 0 (t - last).

(** The files between two checks. *)
Record files : Type := { stamp : option str; log : list HealthRecord; status : option HealthRecord }.

(** The commands of an alert: those that were run, their exits, or the failure to start one. *)
Definition alert_commands (a : Args) (w : World) (s : State) : list str * result (option Z * option Z) unit :=
  match alert_command a with
  | Some c =>
      match run_shell w c with
      | None => ([], Err tt)
      | Some code =>
          match restart_command a with
          | Some r =>
              if exit_code s =? EXIT_DEAD then
                match run_shell w r with
                | None => ([c], Err tt)
                | Some code' => ([c; r], Ok (Some code, Some code'))
                end
              else ([c], Ok (Some code, None))
          | None => ([c], Ok (Some code, None))
          end
      end
  | None =>
      match restart_command a with
      | Some r =>
          if exit_code s =? EXIT_DEAD then
            match run_shell w r with
            | None => ([], Err tt)
            | Some code' => ([r], Ok (None, Some code'))
            end
          else ([], Ok (None, None))
      | None => ([], Ok (None, None))
      end
  end.

(** What a check did: the files, the commands it ran, and its exit status. *)
Record Done : Type := { files_after : files; commands : list str; printed : option HealthRecord; exit_status : Z }.

Definition fails (f : files) (cs : list str) : Done :=
  {| files_after := f; commands := cs; printed := None; exit_status := EXIT_ERROR |}.

(** The record, its log and the status. *)
Definition publish (a : Args) (w : World) (f : files) (cs : list str) (r : HealthRecord) : Done :=
  if dry_run a then {| files_after := f; commands := cs; printed := Some r; exit_status := exit_code (state r) |}
  else if negb (log_ok w) then fails f cs
  else
    let f := {| stamp := stamp f; log := log f ++ [r]; status := status f |} in
    if negb (status_ok w) then fails f cs
    else
      {| files_after := {| stamp := stamp f; log := log f; status := Some r |}; commands := cs; printed := None;
         exit_status := exit_code (state r) |}.

(** [run], behind the arguments. *)
Definition run (a : Args) (w : World) (f : files) : Done :=
  let '(rows, error) := load_active_sessions (db w) in
  let obs := match rows with Some rows => observe_sessions rows (proc_root w) (expect_command a) | None => [] end in
  let s := classify rows error obs in
  match now w with
  | None => fails f []
  | Some t =>
      let record (alerted suppressed : bool) (exits : option Z * option Z) : HealthRecord := {|
        checked_at_epoch := t; state := s; healthy := is_healthy s;
        active_session_count := match rows with Some rows => length rows | None => 0%nat end;
        live_session_count := length (List.filter (fun o => bool_decide (verdict o = VLive)) obs);
        observations := obs; db_error := error; alerted := alerted; alert_suppressed_by_cooldown := suppressed;
        alert_command_exit := exits.1; restart_command_exit := exits.2 |} in
      if is_healthy s then publish a w f [] (record false false (None, None))
      else if dry_run a then publish a w f [] (record true false (None, None))
      else if cooldown_elapsed (read_stamp (stamp_readable w) (stamp f)) t (cooldown_secs a) then
        if negb (stamp_ok w) then fails f []
        else
          let f := {| stamp := Some (dec t ++ nl); log := log f; status := status f |} in
          match alert_commands a w s with
          | (cs, Err _) => fails f cs
          | (cs, Ok exits) => publish a w f cs (record true false exits)
          end
      else publish a w f [] (record false true (None, None))
  end.
End Program.
