(* ===== verification/WatchdogCorrect.v ===== *)
(** The liveness watchdog: its exit status says what the database and [/proc] say, alerts
    are spaced by the cooldown as long as the stamp can be read, and every check that ends in order is logged. *)

From stdpp Require Import list sorting.
From S2P Require Import Prelude Text Ledger TestSelection Relay Watchdog.

#[local] Open Scope Z_scope.

(** A process that runs the expected command. *)
Definition runs_command (lossy : list Z -> str) (d : ProcDir) (expect : str) : Prop :=
  exists bytes argv0, cmdline d = Some bytes /\ lossy (before_nul bytes) = argv0 /\ argv0 <> [] /\
    default argv0 (file_name argv0) = expect.

(** A session of the database whose process runs the expected command. *)
Definition observed_live (lossy : list Z -> str) (from_str : str -> option Value) (a : Args) (w : World) : Prop :=
  exists rows row p, fst (load_active_sessions from_str (db w)) = Some rows /\ row ∈ rows /\ pid row = Some p /\ 0 < p /\
    runs_command lossy (proc_root w p) (expect_command a).

Section Program.
Context (lossy : list Z -> str) (from_str : str -> option Value).
Abbreviation observe_pid := (observe_pid lossy).
Abbreviation observe_sessions := (observe_sessions lossy).
Abbreviation run := (run lossy from_str).

Lemma observe_pid_expected d expect : is_expected_command (observe_pid d expect) = true <-> runs_command lossy d expect.
Proof.
  unfold Watchdog.observe_pid, runs_command. destruct (cmdline d) as [bytes|]; cbn [is_expected_command].
  - split.
    + destruct (lossy (before_nul bytes)) as [|c s] eqn:Hs; [done|]. cbn [fmap option_fmap option_map].
      intros He. exists bytes, (c :: s). split_and!; [done | done | done|]. by apply bool_decide_eq_true in He.
    + intros (b & argv0 & [= <-] & Hl & Hne & He). rewrite Hl. destruct argv0; [done|]. cbn [fmap option_fmap option_map].
      rewrite He. apply str_eqb_refl.
  - split; [done|]. by intros (? & ? & ? & _).
Qed.

(** A process that runs a command was there. *)
Lemma expected_alive d expect : is_expected_command (observe_pid d expect) = true -> pid_alive (observe_pid d expect) = true.
Proof. unfold Watchdog.observe_pid. by destruct (cmdline d). Qed.

Lemma verdict_live row w expect o : o ∈ observe_sessions [row] w expect ->
  verdict o = VLive <-> exists p, pid row = Some p /\ 0 < p /\ runs_command lossy (w p) expect.
Proof.
  cbn. intros ->%list_elem_of_singleton. cbn. unfold verdict_for. destruct (pid row) as [p|]; [|by split; [|intros (? & ? & _)]].
  destruct (Z.leb_spec p 0) as [Hp|Hp]; [split; [done|]; intros (? & [= <-] & ? & _); lia|].
  destruct (Z.ltb_spec 0 p); [|lia].
  destruct (is_expected_command (observe_pid (w p) expect)) eqn:He.
  - rewrite (expected_alive _ _ He). cbn. split; [|done]. intros _. exists p.
    split_and!; [done | done | by apply observe_pid_expected].
  - split; [by destruct (negb _)|]. intros (? & [= <-] & _ & Hr%observe_pid_expected). congruence.
Qed.

Lemma observe_sessions_in rows w expect o : o ∈ observe_sessions rows w expect <->
  exists row, row ∈ rows /\ o ∈ observe_sessions [row] w expect.
Proof.
  unfold Watchdog.observe_sessions. rewrite list_elem_of_fmap. cbn [map].
  setoid_rewrite list_elem_of_singleton. naive_solver.
Qed.

Lemma any_live rows w expect : any_verdict VLive (observe_sessions rows w expect) = true <->
  exists row p, row ∈ rows /\ pid row = Some p /\ 0 < p /\ runs_command lossy (w p) expect.
Proof.
  unfold any_verdict. rewrite existsb_exists. setoid_rewrite <- list_elem_of_In. split.
  - intros (o & Ho & Hv%bool_decide_eq_true). apply observe_sessions_in in Ho as (row & Hr & Ho).
    apply (verdict_live row w expect) in Hv as (p & Hp); [|done]. exists row, p. naive_solver.
  - intros (row & p & Hr & Hp). eexists. split; [apply observe_sessions_in; exists row; split; [exact Hr | by left]|].
    apply bool_decide_eq_true, (verdict_live row w expect); [by left | by exists p].
Qed.

(** The state that a check computes. *)
Definition state_of (a : Args) (w : World) : State :=
  let '(rows, error) := load_active_sessions from_str (db w) in
  classify rows error (match rows with Some rows => observe_sessions rows (proc_root w) (expect_command a) | None => [] end).

Lemma classify_live rows error obs : classify rows error obs = Live <->
  (exists rs, rows = Some rs /\ rs <> []) /\ any_verdict VLive obs = true.
Proof.
  unfold classify. destruct rows as [[|r rs]|].
  - split; [done|]. intros [(? & [= <-] & ?) _]. done.
  - destruct (any_verdict VLive obs); [split; [|done]; intros _; split; [by eexists | done]|].
    split; [by repeat case_match | by intros [_ ?]].
  - split; [|by intros [(? & ? & _) _]]. by repeat case_match.
Qed.

Lemma state_live a w : state_of a w = Live <-> observed_live lossy from_str a w.
Proof.
  unfold state_of, observed_live. destruct (load_active_sessions from_str (db w)) as [rows error]. rewrite classify_live.
  cbn [fst]. split.
  - intros [(rs & -> & _) (row & p & Hp)%any_live]. exists rs, row, p. naive_solver.
  - intros (rs & row & p & -> & Hr & Hp). split; [exists rs; split; [done|]; by intros ->; apply not_elem_of_nil in Hr|].
    apply any_live. exists row, p. naive_solver.
Qed.

Lemma state_unknown a w : exit_code (state_of a w) = EXIT_UNKNOWN <-> fst (load_active_sessions from_str (db w)) = None.
Proof.
  unfold state_of. destruct (load_active_sessions from_str (db w)) as [rows error]. cbn [fst]. unfold classify.
  destruct rows as [[|r rs]|]; [done| |]; repeat case_match; done.
Qed.

Lemma exit_code_live s : exit_code s = EXIT_LIVE <-> s = Live.
Proof. by destruct s. Qed.

Lemma publish_exit a w f cs r : exit_status (publish a w f cs r) = exit_code (state r) \/
  exit_status (publish a w f cs r) = EXIT_ERROR.
Proof. unfold publish. repeat case_match; auto. Qed.

(** The exit status is that of the state, or the one of errors. *)
Lemma run_exit a w f : exit_status (run a w f) = exit_code (state_of a w) \/ exit_status (run a w f) = EXIT_ERROR.
Proof.
  unfold Watchdog.run, state_of. destruct (load_active_sessions from_str (db w)) as [rows error].
  set (obs := match rows with Some _ => _ | None => _ end). destruct (now w); [|by right].
  repeat (case_match; try (by right)); apply publish_exit.
Qed.

(** A check whose clock, files and commands do not fail. *)
Definition in_order (w : World) : Prop :=
  is_Some (now w) /\ stamp_ok w = true /\ log_ok w = true /\ status_ok w = true /\ forall c, is_Some (run_shell w c).

Lemma alert_commands_ok a w s : (forall c, is_Some (run_shell w c)) -> exists cs exits, alert_commands a w s = (cs, Ok exits).
Proof.
  intros Hs. unfold alert_commands.
  destruct (alert_command a) as [c|]; [destruct (Hs c) as [code ->]|]; (destruct (restart_command a) as [r|]; [|by eauto]);
    (destruct (exit_code s =? EXIT_DEAD); [destruct (Hs r) as [code' ->]|]); by eauto.
Qed.

Lemma publish_ok a w f cs r : log_ok w = true -> status_ok w = true ->
  exit_status (publish a w f cs r) = exit_code (state r).
Proof. unfold publish. intros -> ->. by destruct (dry_run a). Qed.

Lemma run_in_order a w f : in_order w -> exit_status (run a w f) = exit_code (state_of a w).
Proof.
  intros ([t Ht] & Hst & Hl & Hs & Hsh). unfold Watchdog.run, state_of. destruct (load_active_sessions from_str (db w)) as [rows error].
  set (obs := match rows with Some _ => _ | None => _ end). rewrite Ht, Hst. cbn [negb].
  destruct (alert_commands_ok a w (classify rows error obs) Hsh) as (cs & exits & Ha). rewrite Ha.
  repeat case_match; by apply publish_ok.
Qed.
End Program.

(** ** What a dead verdict rests on *)

(** Nothing answers for the process: no command line and no directory. *)
Definition absent (d : ProcDir) : Prop := cmdline d = None /\ is_dir d = false.

(** The process is there and its command line cannot be read. *)
Definition unreadable (d : ProcDir) : Prop := cmdline d = None /\ is_dir d = true.

(** Its command line names another program, or none. *)
Definition runs_other (lossy : list Z -> str) (d : ProcDir) (expect : str) : Prop :=
  exists bytes, cmdline d = Some bytes /\
    (lossy (before_nul bytes) = [] \/
     default (lossy (before_nul bytes)) (file_name (lossy (before_nul bytes))) <> expect).

Inductive not_live (lossy : list Z -> str) (a : Args) (w : World) (row : SessionRow) : Prop :=
| no_number : (forall p, pid row = Some p -> p <= 0) -> not_live lossy a w row
| process_absent p : pid row = Some p -> absent (proc_root w p) -> not_live lossy a w row
| other_program p : pid row = Some p -> runs_other lossy (proc_root w p) (expect_command a) -> not_live lossy a w row
| line_unreadable p : pid row = Some p -> unreadable (proc_root w p) -> not_live lossy a w row.

Lemma runs_command_dec lossy d expect :
  runs_command lossy d expect \/ absent d \/ runs_other lossy d expect \/ unreadable d.
Proof.
  unfold runs_command, absent, unreadable, runs_other.
  destruct (cmdline d) as [bytes|]; [|destruct (is_dir d); auto].
  destruct (decide (lossy (before_nul bytes) = [])) as [He|He]; [right; right; left; eauto|].
  destruct (decide (default (lossy (before_nul bytes)) (file_name (lossy (before_nul bytes))) = expect));
    [left; eauto 8 | right; right; left; eauto].
Qed.

Lemma not_running lossy d expect :
  absent d \/ runs_other lossy d expect \/ unreadable d -> ~ runs_command lossy d expect.
Proof.
  intros Hd (bytes & argv0 & Hc & Hl & Hne & He).
  destruct Hd as [[Hd _] | [(b & Hb & Hd) | [Hd _]]]; try congruence.
  rewrite Hc in Hb. injection Hb as <-. rewrite Hl in Hd. by destruct Hd.
Qed.

(** The database answered and no session is live, row by row. *)
Definition every_dead (lossy : list Z -> str) (from_str : str -> option Value) (a : Args) (w : World) : Prop :=
  exists rows, fst (load_active_sessions from_str (db w)) = Some rows /\ forall row, row ∈ rows -> not_live lossy a w row.

Lemma every_dead_iff lossy from_str a w : every_dead lossy from_str a w <->
  fst (load_active_sessions from_str (db w)) <> None /\ ~ observed_live lossy from_str a w.
Proof.
  unfold every_dead, observed_live. destruct (fst (load_active_sessions from_str (db w))) as [rows|].
  2: { split; [by intros (? & ? & _) | by intros []]. }
  split.
  - intros (? & [= <-] & Hd). split; [done|]. intros (? & row & p & [= <-] & Hr & Hp & Hpos & Hrun).
    destruct (Hd row Hr) as [H|q Hq H|q Hq H|q Hq H]; [specialize (H p Hp); lia|..];
      (rewrite Hp in Hq; injection Hq as <-; eapply not_running; [|exact Hrun]; auto).
  - intros [_ Hn]. exists rows. split; [done|]. intros row Hr. destruct (pid row) as [p|] eqn:Hp.
    + destruct (Z.leb_spec p 0); [apply no_number; intros q Hq; congruence|].
      destruct (runs_command_dec lossy (proc_root w p) (expect_command a)) as [Hc|[Hc|[Hc|Hc]]].
      * destruct Hn. exists rows, row, p. auto.
      * by apply (process_absent _ _ _ _ p).
      * by apply (other_program _ _ _ _ p).
      * by apply (line_unreadable _ _ _ _ p).
    + apply no_number. congruence.
Qed.

(** C38.  What the watchdog's status means, an unreadable process included.  Whatever
    fails, exit status 0 is given only when the database names an active session with a
    positive process number whose command line in [/proc] names the expected program;
    status 1 only when the database answered and each of its sessions has no positive
    number, or a process that is absent, or one that runs another program, or one whose
    command line cannot be read; status 2 only when the database gave no answer; and where
    the clock, files and commands do not fail, these conditions decide the status.  An
    unreadable command line thus counts as dead, although a comment of the code says that
    it does not ([unreadable_is_dead]). *)
Theorem liveness_exact lossy from_str a w f :
  let status := exit_status (run lossy from_str a w f) in
  let unanswered := fst (load_active_sessions from_str (db w)) = None in
  (status = EXIT_LIVE -> observed_live lossy from_str a w) /\
  (status = EXIT_DEAD -> every_dead lossy from_str a w) /\
  (status = EXIT_UNKNOWN -> unanswered) /\
  (in_order w -> (observed_live lossy from_str a w -> status = EXIT_LIVE) /\
     (every_dead lossy from_str a w -> status = EXIT_DEAD) /\ (unanswered -> status = EXIT_UNKNOWN)).
Proof.
  intros status unanswered. pose proof (run_exit lossy from_str a w f) as He. fold status in He.
  pose proof (run_in_order lossy from_str a w f) as Ho. fold status in Ho.
  rewrite every_dead_iff. unfold unanswered.
  rewrite <- (state_unknown lossy from_str a w), <- (state_live lossy from_str a w), <- exit_code_live.
  set (code := exit_code (state_of lossy from_str a w)) in *.
  assert (Hcode : code = EXIT_LIVE \/ code = EXIT_DEAD \/ code = EXIT_UNKNOWN)
    by (unfold code; destruct (state_of lossy from_str a w); auto).
  unfold EXIT_LIVE, EXIT_DEAD, EXIT_UNKNOWN, EXIT_ERROR in *.
  split_and!; intros; try (apply Ho in H); lia.
Qed.

(** ** Alerts *)

Lemma stamp_reads t : 0 <= t < 2 ^ 64 -> parse_u64 (trim (dec t ++ nl)) = Some t.
Proof.
  intros Ht. assert (Htrim : trim (dec t ++ nl) = dec t).
  { pose proof (dec_chars t) as Hc. destruct (dec t) as [|c s] eqn:Hd.
    { exfalso. pose proof (digits_nonempty (Z.to_nat (Z.log2 (Z.abs t))) (Z.abs t)). unfold dec in Hd. by destruct (t <? 0). }
    assert (Hblack : forall d, 45 <= d <= 57 -> is_whitespace d = false).
    { intros d Hdd. unfold is_whitespace. repeat (rewrite orb_false_iff || rewrite andb_false_iff). lia. }
    apply list.Forall_cons in Hc as [Hc Hs]. unfold trim.
    change (trim_start ((c :: s) ++ nl)) with (if is_whitespace c then trim_start (s ++ nl) else c :: s ++ nl).
    rewrite (Hblack c Hc). change (c :: s ++ nl) with ((c :: s) ++ nl). rewrite rev_app_distr. cbn [nl rev app trim_start].
    change (is_whitespace NL) with true. cbv iota.
    destruct (rev (c :: s)) as [|d r] eqn:Hr; [by apply (f_equal (@rev Z)) in Hr; rewrite rev_involutive in Hr|].
    assert (Hd2 : 45 <= d <= 57).
    { assert (Hin : d ∈ c :: s) by (apply list_elem_of_In, in_rev; rewrite Hr; by left).
      apply elem_of_cons in Hin as [->|Hin]; [done|]. rewrite list.Forall_forall in Hs. by apply Hs. }
    cbn [rev app] in Hr. rewrite Hr. cbn [trim_start]. rewrite (Hblack d Hd2). rewrite <- Hr.
    change (rev (rev (c :: s)) = c :: s). apply rev_involutive. }
  rewrite Htrim. apply parse_dec; lia.
Qed.

(** The time of the last alert, as a check reads it. *)
Definition last_alert (f : files) : Z := match stamp f with Some text => default 0 (parse_u64 (trim text)) | None => 0 end.

(** What a check does to the files: nothing, a record without an alert, or an alert that is
    due, which moves the stamp and adds at most its record. *)
Inductive effect (a : Args) (w : World) (f f' : files) : Prop :=
| effect_none : f' = f -> effect a w f f'
| effect_quiet r : stamp f' = stamp f -> log f' = log f ++ [r] -> alerted r = false -> effect a w f f'
| effect_alert t rs : now w = Some t -> cooldown_elapsed (read_stamp (stamp_readable w) (stamp f)) t (cooldown_secs a) = true ->
    stamp f' = Some (dec t ++ nl) -> log f' = log f ++ rs ->
    (rs = [] \/ exists r, rs = [r] /\ checked_at_epoch r = t) -> effect a w f f'.

Lemma publish_quiet a w f cs r : alerted r = false -> effect a w f (files_after (publish a w f cs r)).
Proof.
  intros Hr. unfold publish, fails. repeat case_match; first [by apply effect_none | by apply (effect_quiet _ _ _ _ r)].
Qed.

Lemma publish_files a w f cs r : dry_run a = false ->
  stamp (files_after (publish a w f cs r)) = stamp f /\
  (log (files_after (publish a w f cs r)) = log f \/ log (files_after (publish a w f cs r)) = log f ++ [r]).
Proof. intros Hdry. unfold publish, fails. rewrite Hdry. repeat case_match; cbn; auto. Qed.

Lemma run_effect lossy from_str a w f : effect a w f (files_after (run lossy from_str a w f)).
Proof.
  unfold run. destruct (load_active_sessions from_str (db w)) as [rows error].
  set (obs := match rows with Some _ => _ | None => _ end). destruct (now w) as [t|] eqn:Ht; [|by apply effect_none].
  destruct (is_healthy _); [by apply publish_quiet|]. destruct (dry_run a) eqn:Hdry.
  { apply effect_none. unfold publish. by rewrite Hdry. }
  destruct (cooldown_elapsed _ t (cooldown_secs a)) eqn:Hc; [|by apply publish_quiet].
  destruct (stamp_ok w); cbn [negb]; [|by apply effect_none].
  destruct (alert_commands a w _) as [cs [exits|]].
  2: { apply (effect_alert _ _ _ _ t []); try done; cbn; [by rewrite app_nil_r | by left]. }
  set (r := {| checked_at_epoch := t |}).
  destruct (publish_files a w {| stamp := Some (dec t ++ nl); log := log f; status := status f |} cs r Hdry) as [Hs [Hl|Hl]].
  - apply (effect_alert _ _ _ _ t []); try done; [by rewrite app_nil_r | by left].
  - apply (effect_alert _ _ _ _ t [r]); try done. right. by exists r.
Qed.

Fixpoint checks (lossy : list Z -> str) (from_str : str -> option Value) (a : Args) (ws : list World) (f : files) : files :=
  match ws with [] => f | w :: ws => checks lossy from_str a ws (files_after (run lossy from_str a w f)) end.

(** Two records in the order of the log: their alerts are a cooldown apart. *)
Definition apart (cooldown : Z) (r r' : HealthRecord) : Prop :=
  alerted r = true -> alerted r' = true -> checked_at_epoch r + cooldown <= checked_at_epoch r'.

(** The stamp is not before any alert. *)
Definition spaced (cooldown : Z) (f : files) : Prop :=
  StronglySorted (apart cooldown) (log f) /\
  forall r, r ∈ log f -> alerted r = true -> checked_at_epoch r <= last_alert f.

Lemma sorted_snoc {A : Type} (R : A -> A -> Prop) l x : StronglySorted R l -> (forall y, y ∈ l -> R y x) ->
  StronglySorted R (l ++ [x]).
Proof.
  induction 1 as [|y l Hs IH Hy]; intros Hx; cbn; [by repeat constructor|].
  constructor; [apply IH; intros z Hz; apply Hx; by right|]. apply Forall_app. split; [done|].
  apply list.Forall_singleton, Hx. by left.
Qed.

Lemma due_after_cooldown f t cooldown : 0 < cooldown ->
  cooldown_elapsed (read_stamp true (stamp f)) t cooldown = true -> cooldown <= Z.max 0 (t - last_alert f).
Proof.
  intros Hcd. unfold cooldown_elapsed, last_alert. destruct (Z.eqb_spec cooldown 0); [lia|].
  intros H%Z.leb_le. by destruct (stamp f).
Qed.

Lemma effect_spaced a w f f' : 0 < cooldown_secs a -> stamp_readable w = true -> (forall t, now w = Some t -> 0 <= t < 2 ^ 64) ->
  effect a w f f' -> spaced (cooldown_secs a) f -> spaced (cooldown_secs a) f'.
Proof.
  intros Hcd Hread Hclock Heff [Hsort Hlast]. destruct Heff as [->|r Hs Hl Hr|t rs Ht Hc Hs Hl Hrs]; [done| |].
  - unfold spaced, last_alert. rewrite Hs, Hl. split.
    + apply sorted_snoc; [done|]. intros y _ _ Hy. congruence.
    + intros y [Hy|Hy%list_elem_of_singleton]%elem_of_app Ha; [by apply Hlast | congruence].
  - specialize (Hclock t Ht). rewrite Hread in Hc. apply due_after_cooldown in Hc; [|done].
    assert (Hnew : last_alert f' = t) by (unfold last_alert; rewrite Hs; by rewrite stamp_reads).
    unfold spaced. rewrite Hl, Hnew. destruct Hrs as [->|(r & -> & Hrt)].
    + rewrite app_nil_r. split; [done|]. intros y Hy Ha. specialize (Hlast y Hy Ha). lia.
    + split.
      * apply sorted_snoc; [done|]. intros y Hy Ha _. specialize (Hlast y Hy Ha). lia.
      * intros y [Hy|Hy%list_elem_of_singleton]%elem_of_app Ha; [specialize (Hlast y Hy Ha); lia | subst; lia].
Qed.

(** C39.  Alerts are spaced, as long as the stamp of the last alert can be read: over any
    sequence of checks with a cooldown, each of which can read the stamp that is there, two
    alerts in the log are at least the cooldown apart, in the order of the log, whatever the
    clock does and whatever else fails: the database, the commands, the replacement of the
    stamp, the log or the status file.  The condition is needed: a read that fails counts as
    an alert at time zero ([unreadable_stamp_alerts_early]). *)
Theorem alerts_spaced lossy from_str a ws st : 0 < cooldown_secs a ->
  Forall (fun w => stamp_readable w = true /\ forall t, now w = Some t -> 0 <= t < 2 ^ 64) ws ->
  StronglySorted (apart (cooldown_secs a))
    (log (checks lossy from_str a ws {| stamp := st; log := []; status := None |})).
Proof.
  intros Hcd Hws. assert (H0 : spaced (cooldown_secs a) {| stamp := st; log := []; status := None |}).
  { split; [constructor|]. by intros r ?%not_elem_of_nil. }
  revert H0. generalize {| stamp := st; log := []; status := None |}.
  induction Hws as [|w ws [Hr Hw] _ IH]; intros f Hf; cbn; [by destruct Hf|].
  apply IH. eapply effect_spaced; [done | exact Hr | exact Hw | apply run_effect | done].
Qed.

(** A check that ends in order adds one record, of its state, and an unhealthy one is
    alerted or was alerted within the cooldown. *)
Lemma completed_logged lossy from_str a w f : dry_run a = false -> exit_status (run lossy from_str a w f) <> EXIT_ERROR ->
  exists r, log (files_after (run lossy from_str a w f)) = log f ++ [r] /\ state r = state_of lossy from_str a w /\
    (state r <> Live -> alerted r = true \/ alert_suppressed_by_cooldown r = true).
Proof.
  intros Hdry. unfold run, state_of. destruct (load_active_sessions from_str (db w)) as [rows error].
  set (obs := match rows with Some _ => _ | None => _ end). destruct (now w) as [t|]; [|done].
  assert (Hp : forall f cs r, exit_status (publish a w f cs r) <> EXIT_ERROR ->
    log (files_after (publish a w f cs r)) = log f ++ [r]).
  { intros f' cs r. unfold publish, fails. rewrite Hdry. by repeat case_match. }
  destruct (is_healthy _) eqn:Hh.
  { intros He. eexists. split; [by apply Hp|]. split; [done|]. cbn. by destruct (classify rows error obs). }
  rewrite Hdry. destruct (cooldown_elapsed _ _ _).
  - destruct (stamp_ok w); [|done]. cbn [negb]. destruct (alert_commands a w _) as [cs [exits|]]; [|done].
    intros He. eexists. split; [by rewrite Hp|]. split; [done | by left].
  - intros He. eexists. split; [by apply Hp|]. split; [done | by right].
Qed.

(** The restart command runs only for a session that the database lets be called dead. *)
Lemma restart_only_dead a w s r : restart_command a = Some r -> alert_command a <> Some r ->
  r ∈ fst (alert_commands a w s) -> exit_code s = EXIT_DEAD.
Proof.
  intros Hr Hne. unfold alert_commands. rewrite Hr. destruct (Z.eqb_spec (exit_code s) EXIT_DEAD); [done|].
  destruct (alert_command a) as [c|]; [destruct (run_shell w c)|]; cbn; set_solver.
Qed.

(** ** Samples *)

Definition sample_lossy (bytes : list Z) : str := bytes.

(** A client that answers with one session, of process 7. *)
Definition sample_from_str (s : str) : option Value :=
  Some (JArray [JObject [(lit "id", JString "s1"); (lit "name", JString "main"); (lit "pid", JInteger 7)]]).

Definition sample_args : Args := {|
  cooldown_secs := 3600; expect_command := "orc"; alert_command := Some (lit "page"); restart_command := Some (lit "restart");
  dry_run := false |}.

Definition sample_check (t : Z) (d : ProcDir) : World := {|
  db := {| db_exists := true; sqlite3 := Ok (0, lit "rows") |}; proc_root := fun _ => d; now := Some t;
  stamp_readable := true; stamp_ok := true; log_ok := true; status_ok := true; run_shell := fun _ => Some 0 |}.

Definition gone : ProcDir := {| cmdline := None; is_dir := false; stat := None |}.
Definition running : ProcDir := {| cmdline := Some ("/usr/bin/orc" +++ [0] +++ "serve"); is_dir := true; stat := None |}.
Definition no_files : files := {| stamp := None; log := []; status := None |}.

Lemma liveness_exact_witness :
  exit_status (run sample_lossy sample_from_str sample_args (sample_check 100000 running) no_files) = EXIT_LIVE.
Proof.
  apply (liveness_exact sample_lossy sample_from_str sample_args (sample_check 100000 running) no_files).
  - repeat split; by eexists.
  - eexists _, _, 7. split_and!; [reflexivity | left | reflexivity | lia|].
    eexists _, _. split_and!; [reflexivity | reflexivity | discriminate | reflexivity].
Defined.

(** Three checks of a dead coordinator in two hours: two alerts. *)
Definition sample_checks : list World := map (fun t => sample_check t gone) [100000; 101800; 103600].

Lemma alerts_spaced_witness :
  StronglySorted (apart 3600) (log (checks sample_lossy sample_from_str sample_args sample_checks no_files)) /\
  map alerted (log (checks sample_lossy sample_from_str sample_args sample_checks no_files)) = [true; false; true].
Proof.
  split; [|vm_compute; reflexivity].
  apply (alerts_spaced sample_lossy sample_from_str sample_args sample_checks None); [done|].
  apply list.Forall_forall. intros w Hw. unfold sample_checks in Hw. cbn [map] in Hw.
  rewrite !elem_of_cons in Hw. destruct Hw as [->|[->|[->|Hw]]]; [..|by apply not_elem_of_nil in Hw];
    (split; [reflexivity | intros t [= <-]; lia]).
Defined.

(** ** Where the watchdog does less than it says *)

(** A stamp that cannot be written: the check of a dead coordinator ends without an alert
    and without a record. *)
Lemma stamp_failure_is_silent :
  let w := {| db := db (sample_check 0 gone); proc_root := fun _ => gone; now := Some 100000; stamp_readable := true; stamp_ok := false;
              log_ok := true; status_ok := true; run_shell := fun _ => Some 0 |} in
  let d := run sample_lossy sample_from_str sample_args w no_files in
  log (files_after d) = [] /\ commands d = [] /\ exit_status d = EXIT_ERROR.
Proof. vm_compute. auto. Qed.

(** A command line that cannot be read, of a process that is there: it is called dead, and
    the restart command is run. *)
Lemma unreadable_is_dead :
  let d := run sample_lossy sample_from_str sample_args (sample_check 100000 {| cmdline := None; is_dir := true; stat := None |})
             no_files in
  exit_status d = EXIT_DEAD /\ commands d = [lit "page"; lit "restart"].
Proof. vm_compute. auto. Qed.

(** A stamp that cannot be read: a second alert, and a second restart, half an hour after
    the first, inside a cooldown of an hour. *)
Definition unreadable_stamp_check (t : Z) : World := {|
  db := db (sample_check t gone); proc_root := fun _ => gone; now := Some t; stamp_readable := false;
  stamp_ok := true; log_ok := true; status_ok := true; run_shell := fun _ => Some 0 |}.

Lemma unreadable_stamp_alerts_early :
  let f := files_after (run sample_lossy sample_from_str sample_args (sample_check 100000 gone) no_files) in
  let d := run sample_lossy sample_from_str sample_args (unreadable_stamp_check 101800) f in
  stamp f = Some (lit "100000" ++ nl) /\ commands d = [lit "page"; lit "restart"] /\
  map (fun r => (checked_at_epoch r, alerted r)) (log (files_after d)) = [(100000, true); (101800, true)].
Proof. vm_compute. auto. Qed.
