(* ===== verification/BuckAdmit.v ===== *)
(** The admission guard for heavy builds ([scripts/fbsource-buck-admit.rs]): a command line
    is read, admitted with a cap on its jobs or refused, serialized with others where it
    names a whole subtree, and launched with the cap written into it.

    The lock of the host, the clock, [/proc], [systemd-run] and the files answer through
    the records and lists below; the parser of decimal fractions is an argument, and the
    value it gives is a rational.  The text that is printed is left out. *)

From stdpp Require Import gmap.
From Stdlib Require Import QArith_base.
From S2P Require Import Prelude Text Ledger TestSelection Relay Watchdog.

#[local] Open Scope Z_scope.

Definition DEFAULT_MAX_JOBS : Z := 16.
Definition DEFAULT_DSTATE_THRESHOLD : Z := 32.
Definition BUCK_EXIT_OK : Z := 0.
Definition BUCK_EXIT_REFUSED : Z := 2.
Definition BUCK_EXIT_QUEUED : Z := 4.
Definition BUCK_EXIT_ERROR : Z := 3.

(** ** Command lines *)

Record BuckPlan : Type := {
  subcommand : option str;
  patterns : list str;
  explicit_jobs : option Z;
  recursive : bool
}.

Definition is_recursive_pattern (token : str) : bool :=
  if starts_with "-" token then false else str_eqb token "..." || ends_with "/..." token.

(** [-jN] with digits only. *)
Definition glued_jobs (token : str) : option str :=
  match strip_prefix "-j" token with
  | Some ((_ :: _) as rest) => if forallb is_digit rest then Some rest else None
  | _ => None
  end.

Definition is_jobs_flag (token : str) : bool := str_eqb token "-j" || str_eqb token "--num-threads".

Definition with_jobs (p : BuckPlan) (jobs : option Z) : BuckPlan := {|
  subcommand := subcommand p; patterns := patterns p; explicit_jobs := jobs; recursive := recursive p |}.

(** A word that is no spelling of a cap: an option, the subcommand, or a pattern. *)
Definition plain_word (p : BuckPlan) (token : str) : BuckPlan :=
  if starts_with "-" token then p
  else
    match subcommand p with
    | None => {| subcommand := Some token; patterns := patterns p; explicit_jobs := explicit_jobs p; recursive := recursive p |}
    | Some _ => {| subcommand := subcommand p; patterns := patterns p ++ [token]; explicit_jobs := explicit_jobs p;
                   recursive := recursive p |}
    end.

(** The loop over the words; a flag at the end, without a value, is a word like others. *)
Fixpoint parse_words (words : list str) (plan : BuckPlan) : BuckPlan :=
  match words with
  | [] => plan
  | token :: rest =>
      if is_jobs_flag token then
        match rest with
        | value :: rest => parse_words rest (with_jobs plan (parse_u32 value))
        | [] => parse_words rest (plain_word plan token)
        end
      else
        match strip_prefix "--num-threads=" token with
        | Some value => parse_words rest (with_jobs plan (parse_u32 value))
        | None =>
            match glued_jobs token with
            | Some value => parse_words rest (with_jobs plan (parse_u32 value))
            | None => parse_words rest (plain_word plan token)
            end
        end
  end.

Definition is_buck (first : str) : bool :=
  let base := default first (file_name first) in str_eqb base "buck" || str_eqb base "buck2".

Definition parse_buck_command (argv : list str) : BuckPlan :=
  let empty := {| subcommand := None; patterns := []; explicit_jobs := None; recursive := false |} in
  let plan :=
    match argv with
    | first :: rest => parse_words (if is_buck first then rest else argv) empty
    | [] => empty
    end in
  {| subcommand := subcommand plan; patterns := patterns plan; explicit_jobs := explicit_jobs plan;
     recursive := existsb is_recursive_pattern (patterns plan) |}.

(** ** Admission *)

Inductive Admission : Type := Admit (jobs : Z) (overridden : bool) | Refuse.

Definition admit_decide (plan : BuckPlan) (max_jobs : Z) (allow_unbounded : bool) : Admission :=
  match explicit_jobs plan with
  | None =>
      if recursive plan then if allow_unbounded then Admit max_jobs true else Refuse
      else Admit max_jobs false
  | Some jobs =>
      if jobs =? 0 then Refuse
      else if max_jobs <? jobs then if allow_unbounded then Admit jobs true else Refuse
      else Admit jobs false
  end.

(** The words without the job caps: a cap at the end loses its value to nothing. *)
Fixpoint strip_jobs (words : list str) : list str :=
  match words with
  | [] => []
  | token :: rest =>
      if is_jobs_flag token then match rest with _ :: rest => strip_jobs rest | [] => [] end
      else if starts_with "--num-threads=" token || (if glued_jobs token is Some _ then true else false)
      then strip_jobs rest
      else token :: strip_jobs rest
  end.

Definition inject_jobs (command : list str) (jobs : Z) : list str :=
  let out := strip_jobs command in
  take 2 out ++ [lit "-j"; dec jobs] ++ drop 2 out.

Definition ascii_alphanumeric (c : Z) : bool := is_digit c || ((65 <=? c) && (c <=? 90)) || ((97 <=? c) && (c <=? 122)).

Fixpoint trim_hyphens (s : str) : str := match s with c :: r => if c =? 45 then trim_hyphens r else s | [] => [] end.

Definition sanitize (text : str) : str :=
  rev (trim_hyphens (rev (trim_hyphens (map (fun c => if ascii_alphanumeric c then c else 45) text)))).

(** ** The state of the host *)

Section Telemetry.
Context (parse_f64 : str -> option Q).

(** The first [avg10] of the first line [full] that has one. *)
Fixpoint avg10_field (fields : list str) : option str :=
  match fields with
  | [] => None
  | field :: fields => match strip_prefix "avg10=" field with Some value => Some value | None => avg10_field fields end
  end.

Fixpoint full_line (ls : list str) : option Q :=
  match ls with
  | [] => None
  | line :: ls =>
      match strip_prefix "full " line with
      | Some rest =>
          match avg10_field (split_whitespace rest) with Some value => parse_f64 value | None => full_line ls end
      | None => full_line ls
      end
  end.

Definition read_io_pressure (pressure : option str) : option Q := text ← pressure; full_line (lines text).
End Telemetry.

(** An entry of [/proc]: its name, the status and the wait channel, where they can be read. *)
Record ProcEntry : Type := { pe_name : option str; pe_stat : option str; pe_wchan : option str }.

(** The state behind the last parenthesis and one more character: a panic where there is
    none. *)
Inductive StatState : Type := SPanic | SNone | SState (s : str).

Definition stat_state (text : str) : StatState :=
  match rfind_char 41 text with
  | None => SNone
  | Some i => if (i + 2 <=? length text)%nat then
                match split 32 (drop (i + 2) text) with s :: _ => SState s | [] => SNone end
              else SPanic
  end.

Definition census_entry (census : gmap str Z) (e : ProcEntry) : option (gmap str Z) :=
  match pe_name e with
  | Some name =>
      if negb (forallb is_digit name) then Some census
      else
        match pe_stat e with
        | None => Some census
        | Some text =>
            match stat_state text with
            | SPanic => None
            | SNone => Some census
            | SState s =>
                if negb (str_eqb s "D") then Some census
                else
                  let wchan := default [] (trim <$> pe_wchan e) in
                  let key := match wchan with [] => lit "unknown" | _ => wchan end in
                  Some (<[key := default 0 (census !! key) + 1]> census)
            end
        end
  | None => Some census
  end.

Fixpoint census_entries (census : gmap str Z) (entries : list ProcEntry) : option (gmap str Z) :=
  match entries with
  | [] => Some census
  | e :: entries => match census_entry census e with Some census => census_entries census entries | None => None end
  end.

(** [dstate_census]: empty where [/proc] cannot be listed. *)
Definition dstate_census (proc : option (list ProcEntry)) : option (gmap str Z) :=
  match proc with None => Some ∅ | Some entries => census_entries ∅ entries end.

Definition is_btrfs (channel : str) : bool := contains "btrfs" channel || contains "folio_wait" channel.

Definition btrfs_dstate_count (census : gmap str Z) : Z :=
  map_fold (fun channel n acc => if is_btrfs channel then n + acc else acc) 0 census.

Definition threshold_tripped (psi_full : option Q) (btrfs_dstate : Z) (psi_limit : Q) (dstate_limit : Z) : bool :=
  match psi_full with Some p => Qle_bool psi_limit p | None => false end || (dstate_limit <=? btrfs_dstate).

(** ** The semaphore *)

(** An attempt: the result of [flock], and the clock behind it. *)
Fixpoint acquire_loop (attempts : list (bool * Z)) (deadline : Z) : option bool :=
  match attempts with
  | [] => None
  | (locked, t) :: attempts =>
      if locked then Some true else if deadline <=? t then Some false else acquire_loop attempts deadline
  end.

(** ** A run *)

Record BuckArgs : Type := {
  b_task : str;
  b_agent : str;
  max_jobs : Z;
  allow_unbounded : bool;
  b_wait_seconds : Z;
  psi_threshold : Q;
  dstate_threshold : Z;
  b_dry_run : bool;
  b_command : list str
}.

(** A sample of the watch over a child: pressure, processes, and whether evidence can be
    written. *)
Record Sample : Type := { s_pressure : option str; s_proc : option (list ProcEntry); s_write_ok : bool }.

(** What a run meets: its process, the lock (whether its file opens, the clock, the
    attempts), the directory, the start of the child, and the samples until it ends. *)
Record BuckWorld : Type := {
  bw_pid : Z;
  lock_opens : bool;
  bw_now : Z;
  attempts : list (bool * Z);
  evidence_dir_ok : bool;
  spawn_ok : bool;
  samples : list Sample
}.

Record Evidence : Type := {
  ev_command : list str;
  effective_jobs : Z;
  scope_unit : str;
  io_psi_full_avg10 : option Q;
  btrfs_dstate_tasks : Z;
  dstate_by_wchan : gmap str Z
}.

(** What a run did: whether it held the lock, the command it launched, the evidence. *)
Inductive BuckExit : Type := Exit (code : Z) | Panics | StillWaiting.

Record BuckDone : Type := {
  held : bool;
  launched : option (list str);
  evidence : list Evidence;
  ended : BuckExit
}.

Section Run.
Context (parse_f64 : str -> option Q).

(** The watch: it takes samples until the child has ended, and never signals it. *)
Fixpoint watch (a : BuckArgs) (unit_name : str) (command : list str) (jobs : Z) (ss : list Sample) (acc : list Evidence) :
    list Evidence * BuckExit :=
  match ss with
  | [] => (acc, Exit BUCK_EXIT_OK)
  | s :: ss =>
      let psi := read_io_pressure parse_f64 (s_pressure s) in
      match dstate_census (s_proc s) with
      | None => (acc, Panics)
      | Some census =>
          let btrfs := btrfs_dstate_count census in
          if threshold_tripped psi btrfs (psi_threshold a) (dstate_threshold a) then
            if s_write_ok s then
              watch a unit_name command jobs ss
                (acc ++ [{| ev_command := command; effective_jobs := jobs; scope_unit := unit_name;
                            io_psi_full_avg10 := psi; btrfs_dstate_tasks := btrfs; dstate_by_wchan := census |}])
            else (acc, Exit BUCK_EXIT_ERROR)
          else watch a unit_name command jobs ss acc
      end
  end.

Definition unit_of (a : BuckArgs) (w : BuckWorld) : str :=
  "heavywork-" +++ sanitize (b_task a) +++ "-" +++ sanitize (b_agent a) +++ "-" +++ dec (bw_pid w).

Definition stops (held : bool) (e : BuckExit) : BuckDone :=
  {| held := held; launched := None; evidence := []; ended := e |}.

(** [launch] *)
Definition launch (a : BuckArgs) (w : BuckWorld) (hold : bool) (jobs : Z) : BuckDone :=
  let command := inject_jobs (b_command a) jobs in
  if negb (evidence_dir_ok w) then stops hold (Exit BUCK_EXIT_ERROR)
  else if negb (spawn_ok w) then stops hold (Exit BUCK_EXIT_ERROR)
  else
    let '(ev, e) := watch a (unit_of a w) command jobs (samples w) [] in
    {| held := hold; launched := Some command; evidence := ev; ended := e |}.

(** [try_acquire]: an error, or whether the lock is held. *)
Definition try_acquire (a : BuckArgs) (w : BuckWorld) : result (option bool) unit :=
  if negb (lock_opens w) then Err tt else Ok (acquire_loop (attempts w) (bw_now w + b_wait_seconds a)).

(** [run], behind the arguments. *)
Definition buck_run (a : BuckArgs) (w : BuckWorld) : BuckDone :=
  let plan := parse_buck_command (b_command a) in
  match admit_decide plan (max_jobs a) (allow_unbounded a) with
  | Refuse => stops false (Exit BUCK_EXIT_REFUSED)
  | Admit jobs _ =>
      if b_dry_run a then stops false (Exit BUCK_EXIT_OK)
      else if recursive plan then
        match try_acquire a w with
        | Err _ => stops false (Exit BUCK_EXIT_ERROR)
        | Ok None => stops false StillWaiting
        | Ok (Some false) => stops false (Exit BUCK_EXIT_QUEUED)
        | Ok (Some true) => launch a w true jobs
        end
      else launch a w false jobs
  end.
End Run.
