(* ===== verification/BuckAdmitCorrect.v ===== *)
(** The admission guard: the command that is launched reads as the admitted plan with its
    cap, whole subtrees hold the lock, and evidence is captured on every sample over a
    threshold. *)

From stdpp Require Import gmap.
From Stdlib Require Import QArith_base.
From S2P Require Import Prelude Text Ledger TestSelection Relay Watchdog BuckAdmit.

#[local] Open Scope Z_scope.

(** ** Words *)

(** A word that is no spelling of a job cap. *)
Definition plain (token : str) : Prop :=
  is_jobs_flag token = false /\ strip_prefix "--num-threads=" token = None /\ glued_jobs token = None.

Lemma strip_jobs_plain_aux k words : (length words <= k)%nat -> Forall plain (strip_jobs words).
Proof.
  revert words. induction k as [|k IH]; intros [|token rest] Hk; cbn in Hk; try lia; try constructor. cbn [strip_jobs].
  destruct (is_jobs_flag token) eqn:Hf; [destruct rest; [constructor | apply IH; cbn in *; lia]|].
  unfold starts_with. destruct (strip_prefix (lit "--num-threads=") token) eqn:Hp; [apply IH; lia|].
  destruct (glued_jobs token) eqn:Hg; [apply IH; lia|]. cbn [orb]. constructor; [done | apply IH; lia].
Qed.

Lemma strip_jobs_plain words : Forall plain (strip_jobs words).
Proof. by apply (strip_jobs_plain_aux (length words)). Qed.

Lemma strip_jobs_id words : Forall plain words -> strip_jobs words = words.
Proof.
  induction 1 as [|token words (Hf & Hp & Hg) _ IH]; [done|]. cbn [strip_jobs]. rewrite Hf. unfold starts_with.
  rewrite Hp, Hg. cbn [orb]. by rewrite IH.
Qed.

Lemma parse_plain words p : Forall plain words -> parse_words words p = fold_left plain_word words p.
Proof.
  intros Hw. revert p. induction Hw as [|token words (Hf & Hp & Hg) _ IH]; intros p; [done|].
  cbn [parse_words fold_left]. by rewrite Hf, Hp, Hg, IH.
Qed.

Lemma parse_plain_app words rest p : Forall plain words ->
  parse_words (words ++ rest) p = parse_words rest (fold_left plain_word words p).
Proof.
  intros Hw. revert p. induction Hw as [|token words (Hf & Hp & Hg) _ IH]; intros p; [done|].
  cbn [app parse_words fold_left]. by rewrite Hf, Hp, Hg, IH.
Qed.

Lemma plain_word_jobs p token jobs : plain_word (with_jobs p jobs) token = with_jobs (plain_word p token) jobs.
Proof. unfold plain_word, with_jobs. cbn. destruct (starts_with "-" token); [done|]. by destruct (subcommand p). Qed.

Lemma fold_words_jobs words p jobs : fold_left plain_word words (with_jobs p jobs) = with_jobs (fold_left plain_word words p) jobs.
Proof. revert p. induction words as [|token words IH]; intros p; cbn; [done|]. by rewrite plain_word_jobs, IH. Qed.

Lemma with_jobs_twice p j j' : with_jobs (with_jobs p j) j' = with_jobs p j'.
Proof. done. Qed.

(** Reading the words and then forgetting the cap is reading the words without caps. *)
Lemma parse_strip_aux k words p jobs : (length words <= k)%nat ->
  with_jobs (parse_words words p) jobs = with_jobs (parse_words (strip_jobs words) p) jobs.
Proof.
  intros Hk. rewrite (parse_plain (strip_jobs words)) by apply strip_jobs_plain. revert words p Hk.
  induction k as [|k IH]; intros [|token rest] p Hk; cbn in Hk; try lia; try done. cbn [parse_words strip_jobs].
  destruct (is_jobs_flag token) eqn:Hf.
  - destruct rest as [|value rest].
    + cbn [parse_words fold_left]. assert (Hd : starts_with "-" token = true); [|by unfold plain_word; rewrite Hd].
      unfold is_jobs_flag in Hf. apply orb_true_iff in Hf as [Hf|Hf]; apply bool_decide_eq_true in Hf; by subst token.
    + rewrite IH by (cbn in *; lia). by rewrite (fold_words_jobs (strip_jobs rest) p), with_jobs_twice.
  - unfold starts_with. destruct (strip_prefix (lit "--num-threads=") token) as [value|] eqn:Hp.
    { cbn [orb]. rewrite IH by lia. by rewrite (fold_words_jobs (strip_jobs rest) p), with_jobs_twice. }
    destruct (glued_jobs token) as [value|] eqn:Hg; cbn [orb].
    { rewrite IH by lia. by rewrite (fold_words_jobs (strip_jobs rest) p), with_jobs_twice. }
    cbn [fold_left]. rewrite IH by lia. done.
Qed.

Lemma parse_strip words p jobs :
  with_jobs (parse_words words p) jobs = with_jobs (parse_words (strip_jobs words) p) jobs.
Proof. by apply (parse_strip_aux (length words)). Qed.

Lemma dec_u32 n : 0 <= n <= u32_max -> parse_u32 (dec n) = Some n.
Proof. intros Hn. unfold u32_max in Hn. apply parse_dec; lia. Qed.

(** A cap among plain words. *)
Lemma parse_with_cap l r p n : Forall plain l -> Forall plain r -> 0 <= n <= u32_max ->
  parse_words (l ++ [lit "-j"; dec n] ++ r) p = with_jobs (parse_words (l ++ r) p) (Some n).
Proof.
  intros Hl Hr Hn. rewrite (parse_plain_app l), (parse_plain_app l r) by done. cbn [app parse_words].
  change (is_jobs_flag (lit "-j")) with true. cbv iota. rewrite dec_u32 by done.
  rewrite !parse_plain by done. by rewrite fold_words_jobs.
Qed.

Lemma strip_plain_app l r : Forall plain l -> strip_jobs (l ++ r) = l ++ strip_jobs r.
Proof.
  induction 1 as [|token l (Hf & Hp & Hg) _ IH]; [done|]. rewrite <- !app_comm_cons. cbn [strip_jobs].
  rewrite Hf. unfold starts_with. rewrite Hp, Hg. cbn [orb]. by rewrite IH.
Qed.

Lemma strip_with_cap l r n : Forall plain l -> Forall plain r -> strip_jobs (l ++ [lit "-j"; dec n] ++ r) = l ++ r.
Proof.
  intros Hl Hr. rewrite strip_plain_app by done. cbn [app strip_jobs]. change (is_jobs_flag (lit "-j")) with true.
  cbv iota. by rewrite strip_jobs_id.
Qed.

(** The words of the command, without those of the cap, are those that were given. *)
Lemma inject_keeps command n : 0 <= n <= u32_max -> strip_jobs (inject_jobs command n) = strip_jobs command.
Proof.
  intros Hn. unfold inject_jobs. pose proof (strip_jobs_plain command) as Hp. set (out := strip_jobs command) in *.
  rewrite strip_with_cap by (first [by apply Forall_take | by apply Forall_drop]). apply take_drop.
Qed.


(** The command with its cap reads as the plan that was admitted, with the cap. *)
Lemma inject_parses first rest n : plain first -> 0 <= n <= u32_max ->
  parse_buck_command (inject_jobs (first :: rest) n) = with_jobs (parse_buck_command (first :: rest)) (Some n).
Proof.
  intros Hfirst Hn. assert (Hstrip : strip_jobs (first :: rest) = first :: strip_jobs rest).
  { destruct Hfirst as (Hf & Hp & Hg). cbn [strip_jobs]. rewrite Hf. unfold starts_with. rewrite Hp, Hg. done. }
  assert (Hwords : forall words p, Forall plain (take 1 words) -> Forall plain (drop 1 words) ->
    parse_words (take 1 words ++ [lit "-j"; dec n] ++ drop 1 words) p = with_jobs (parse_words words p) (Some n)).
  { intros words p Hl Hr. rewrite parse_with_cap by done. by rewrite take_drop. }
  unfold inject_jobs. rewrite Hstrip. pose proof (strip_jobs_plain rest) as Hrest.
  pose proof (parse_strip rest) as Hread. pose proof (parse_strip (first :: rest)) as Hread'. rewrite Hstrip in Hread'.
  set (out := strip_jobs rest) in *. cbn [take drop app]. unfold parse_buck_command.
  set (p0 := {| subcommand := None |}). assert (Hplan : forall q, existsb is_recursive_pattern (patterns q) =
    existsb is_recursive_pattern (patterns (with_jobs q (Some n)))) by done.
  destruct (is_buck first).
  - rewrite (Hwords out) by (first [by apply Forall_take | by apply Forall_drop]).
    rewrite <- Hread. done.
  - change (first :: take 1 out ++ lit "-j" :: dec n :: drop 1 out) with ((first :: take 1 out) ++ [lit "-j"; dec n] ++ drop 1 out).
    rewrite parse_with_cap; [|constructor; [done | by apply Forall_take] | by apply Forall_drop | done].
    cbn [app]. rewrite take_drop, <- Hread'. done.
Qed.

Lemma parse_int_range lo hi s n : lo <= 0 -> 0 <= hi -> parse_int lo hi s = Some n -> lo <= n <= hi.
Proof.
  intros Hlo Hhi. assert (Hd : forall sign acc s n, lo <= acc <= hi -> parse_digits lo hi sign acc s = Some n -> lo <= n <= hi).
  { intros sign acc s'. revert acc. induction s' as [|c s' IH]; intros acc m Ha; cbn; [intros [= <-]; done|].
    repeat (case_match; try done). intros Hm. eapply IH; [|exact Hm]. lia. }
  unfold parse_int. repeat (case_match; try done); by apply Hd.
Qed.

(** ** Admission *)

(** The rule: an unstated cap is the limit, and a stated one is kept; a subtree without a
    cap, a cap of zero, and one over the limit are refused, the first and the last unless
    overridden. *)
Lemma admit_exact plan limit allow n o : admit_decide plan limit allow = Admit n o <->
  (n = default limit (explicit_jobs plan) /\ explicit_jobs plan <> Some 0 /\
   (recursive plan = true -> explicit_jobs plan = None -> allow = true) /\
   (forall j, explicit_jobs plan = Some j -> limit < j -> allow = true)) /\
  o = match explicit_jobs plan with Some j => limit <? j | None => recursive plan end.
Proof.
  unfold admit_decide. destruct (explicit_jobs plan) as [j|]; cbn.
  - destruct (Z.eqb_spec j 0) as [->|Hj]; [split; [done | by intros [(_ & ? & _) _]]|].
    destruct (Z.ltb_spec limit j) as [Hl|Hl]; [destruct allow|]; split; try (by intros [= <- <-]; naive_solver lia);
      try (by intros [(-> & _) ->]); try done. intros [(_ & _ & _ & Hall) _]. by specialize (Hall j eq_refl Hl).
  - destruct (recursive plan); [destruct allow|]; split; try (by intros [= <- <-]; naive_solver); try (by intros [(-> & _) ->]);
      try done. intros [(_ & _ & Hr & _) _]. by specialize (Hr eq_refl eq_refl).
Qed.

Lemma explicit_range argv n : explicit_jobs (parse_buck_command argv) = Some n -> 0 <= n <= u32_max.
Proof.
  assert (Hk : forall k words p, (length words <= k)%nat ->
    (forall m, explicit_jobs p = Some m -> 0 <= m <= u32_max) ->
    forall m, explicit_jobs (parse_words words p) = Some m -> 0 <= m <= u32_max).
  { induction k as [|k IH]; intros [|token rest] p Hl Hp; cbn in Hl; try lia; try exact Hp.
    assert (Hw : forall m, explicit_jobs (plain_word p token) = Some m -> 0 <= m <= u32_max)
      by (unfold plain_word; repeat case_match; exact Hp).
    assert (Hv : forall v m, explicit_jobs (with_jobs p (parse_u32 v)) = Some m -> 0 <= m <= u32_max).
    { intros v m Hm. cbn in Hm. unfold u32_max. apply parse_int_range in Hm; lia. }
    cbn [parse_words]. destruct (is_jobs_flag token).
    { destruct rest as [|v rest].
      - apply (IH []); [cbn; lia | exact Hw].
      - apply (IH rest); [cbn in Hl; lia | apply Hv]. }
    destruct (strip_prefix _ token); [apply IH; [lia | apply Hv]|].
    destruct (glued_jobs token); apply IH; try lia; [apply Hv | exact Hw]. }
  unfold parse_buck_command. cbn [explicit_jobs]. destruct argv as [|first rest]; [done|].
  intros Hn. destruct (is_buck first); by eapply (Hk _ _ _ (Nat.le_refl _)) in Hn.
Qed.

Lemma launch_inv parse_f64 a w hold jobs cmd : launched (launch parse_f64 a w hold jobs) = Some cmd ->
  cmd = inject_jobs (b_command a) jobs /\ held (launch parse_f64 a w hold jobs) = hold.
Proof.
  unfold launch. destruct (evidence_dir_ok w); [|done]. destruct (spawn_ok w); [|done]. cbn [negb].
  destruct (watch _ _ _ _ _ _ _). by intros [= <-].
Qed.

(** C40.  What is launched is what was admitted.  Where the first word of a command is no
    job option and a command is launched, that command has the words that were given, apart
    from job options, and reads as the given plan with a cap: the one the command names, or
    else the limit.  The cap is at most the limit unless overridden; it is never negative
    and is zero exactly when the limit is zero and the command names no cap, so a positive
    limit gives a positive cap ([zero_limit_launches] shows the other case); and a command
    that names a whole subtree runs under the lock of the host, and named its cap unless
    overridden. *)
Theorem launched_capped parse_f64 a w cmd first rest :
  b_command a = first :: rest -> plain first -> 0 <= max_jobs a <= u32_max ->
  launched (buck_run parse_f64 a w) = Some cmd ->
  exists n, parse_buck_command cmd = with_jobs (parse_buck_command (b_command a)) (Some n) /\
    strip_jobs cmd = strip_jobs (b_command a) /\ (allow_unbounded a = false -> n <= max_jobs a) /\
    n = default (max_jobs a) (explicit_jobs (parse_buck_command (b_command a))) /\
    0 <= n /\ (n = 0 <-> max_jobs a = 0 /\ explicit_jobs (parse_buck_command (b_command a)) = None) /\
    (recursive (parse_buck_command (b_command a)) = true ->
      held (buck_run parse_f64 a w) = true /\
      (allow_unbounded a = false -> explicit_jobs (parse_buck_command (b_command a)) = Some n)).
Proof.
  intros Hcmd Hfirst Hmax. unfold buck_run. set (plan := parse_buck_command (b_command a)).
  destruct (admit_decide plan (max_jobs a) (allow_unbounded a)) as [n o|] eqn:Hd; [|done].
  apply admit_exact in Hd as [(Hn & H0 & Hrec & Hover) _].
  assert (Hrange : 0 <= n <= u32_max /\ (n = 0 <-> max_jobs a = 0 /\ explicit_jobs plan = None)).
  { pose proof (explicit_range (b_command a)) as Hr. fold plan in Hr. destruct (explicit_jobs plan) as [j|]; cbn in Hn; subst n.
    - specialize (Hr j eq_refl). assert (j <> 0) by congruence. split; [lia|]. split; [lia | by intros []].
    - split; [lia|]. tauto. }
  destruct Hrange as [Hrange Hzero]. destruct (b_dry_run a); [done|].
  assert (Hgo : forall hold, launched (launch parse_f64 a w hold n) = Some cmd -> exists m,
    parse_buck_command cmd = with_jobs plan (Some m) /\ strip_jobs cmd = strip_jobs (b_command a) /\
    (allow_unbounded a = false -> m <= max_jobs a) /\
    m = default (max_jobs a) (explicit_jobs plan) /\ 0 <= m /\
    (m = 0 <-> max_jobs a = 0 /\ explicit_jobs plan = None) /\
    (recursive plan = true -> held (launch parse_f64 a w hold n) = hold /\
      (allow_unbounded a = false -> explicit_jobs plan = Some m))).
  { intros hold Hl. apply launch_inv in Hl as [-> Hheld]. exists n. split; [unfold plan; rewrite Hcmd; by apply inject_parses|].
    split; [by apply inject_keeps|]. split; [|split; [done|]; split; [lia|]; split; [done|]].
    - intros Ha. destruct (explicit_jobs plan) as [j|]; cbn in Hn; subst n; [|lia].
      destruct (Z_lt_le_dec (max_jobs a) j) as [Hj|]; [|done]. specialize (Hover j eq_refl Hj). congruence.
    - intros Hr. split; [done|]. intros Ha. destruct (explicit_jobs plan) as [j|]; cbn in Hn; [by subst|].
      specialize (Hrec Hr eq_refl). congruence. }
  destruct (recursive plan) eqn:Hr.
  - destruct (try_acquire a w) as [[[]|]|]; [|done..]. intros Hl. destruct (Hgo true Hl) as (m & H1 & H2 & H3 & H4 & H5 & H6 & H7).
    exists m. auto 10.
  - intros Hl. destruct (Hgo false Hl) as (m & H1 & H2 & H3 & H4 & H5 & H6 & _). exists m. by split_and!.
Qed.

(** The lock is given up only behind the deadline, when every attempt had failed. *)
Lemma acquire_gives_up l deadline : acquire_loop l deadline = Some false ->
  exists before t rest, l = before ++ (false, t) :: rest /\ deadline <= t /\ Forall (fun x => fst x = false) before.
Proof.
  induction l as [|[[] t] l IH]; cbn; [done | done |]. destruct (Z.leb_spec deadline t) as [Hd|Hd].
  - intros _. by exists [], t, l.
  - intros (before & t' & rest & -> & Ht & Hb)%IH. exists ((false, t) :: before), t', rest. split_and!; [done | done|].
    by constructor.
Qed.

(** ** The census *)

(** An entry that is counted under a channel of the file system. *)
Definition counts_btrfs (e : ProcEntry) : bool :=
  match pe_name e, pe_stat e with
  | Some name, Some text =>
      forallb is_digit name &&
      match stat_state text with
      | SState s => str_eqb s "D" &&
          let wchan := default [] (trim <$> pe_wchan e) in is_btrfs (match wchan with [] => lit "unknown" | _ => wchan end)
      | _ => false
      end
  | _, _ => false
  end.

Lemma btrfs_insert census k n : census !! k = None ->
  btrfs_dstate_count (<[k := n]> census) = (if is_btrfs k then n else 0) + btrfs_dstate_count census.
Proof.
  intros Hk. unfold btrfs_dstate_count. rewrite map_fold_insert_L; [by destruct (is_btrfs k) | | done].
  intros j1 j2 z1 z2 y _ _ _. destruct (is_btrfs j1), (is_btrfs j2); lia.
Qed.

Lemma btrfs_count_one census k : btrfs_dstate_count (<[k := default 0 (census !! k) + 1]> census) =
  btrfs_dstate_count census + (if is_btrfs k then 1 else 0).
Proof.
  destruct (census !! k) as [n|] eqn:Hk; cbn [default from_option].
  - rewrite <- insert_delete_eq, btrfs_insert by apply lookup_delete_eq.
    rewrite <- (insert_delete_id census k n Hk) at 2. rewrite btrfs_insert by apply lookup_delete_eq.
    unfold Datatypes.id. destruct (is_btrfs k); lia.
  - rewrite btrfs_insert by done. unfold Datatypes.id. destruct (is_btrfs k); lia.
Qed.

(** The census counts every waiting task once. *)
Lemma census_exact entries census census' : census_entries census entries = Some census' ->
  btrfs_dstate_count census' = btrfs_dstate_count census + Z.of_nat (length (List.filter counts_btrfs entries)).
Proof.
  revert census. induction entries as [|e entries IH]; intros census; cbn [census_entries List.filter].
  { intros [= <-]. cbn. lia. }
  destruct (census_entry census e) as [c|] eqn:He; [|done]. intros ->%IH.
  assert (Hone : btrfs_dstate_count c = btrfs_dstate_count census + if counts_btrfs e then 1 else 0).
  { unfold census_entry, counts_btrfs in *. destruct (pe_name e) as [name|]; [|simplify_eq; lia].
    destruct (forallb is_digit name); cbn [negb andb] in *; [|simplify_eq; destruct (pe_stat e); lia].
    destruct (pe_stat e) as [text|]; [|simplify_eq; lia].
    destruct (stat_state text) as [| |s]; [done | simplify_eq; lia|].
    destruct (str_eqb s "D"); cbn [negb andb] in *; [|simplify_eq; lia].
    injection He as <-. apply btrfs_count_one. }
  rewrite Hone. destruct (counts_btrfs e); cbn [length]; lia.
Qed.

(** The evidence that a sample calls for. *)
Definition evidence_of (parse_f64 : str -> option Q) (a : BuckArgs) (u : str) (cmd : list str) (jobs : Z) (s : Sample) :
    option Evidence :=
  census ← dstate_census (s_proc s);
  let psi := read_io_pressure parse_f64 (s_pressure s) in
  if threshold_tripped psi (btrfs_dstate_count census) (psi_threshold a) (dstate_threshold a) then
    Some {| ev_command := cmd; effective_jobs := jobs; scope_unit := u; io_psi_full_avg10 := psi;
            btrfs_dstate_tasks := btrfs_dstate_count census; dstate_by_wchan := census |}
  else None.

(** A watch that ends with its child has captured the evidence of every sample over a
    threshold, in order, and of no other. *)
Lemma watch_exact parse_f64 a u cmd jobs ss acc ev : watch parse_f64 a u cmd jobs ss acc = (ev, Exit BUCK_EXIT_OK) ->
  ev = acc ++ omap (evidence_of parse_f64 a u cmd jobs) ss.
Proof.
  revert acc. induction ss as [|s ss IH]; intros acc; cbn; [intros [= <-]; by rewrite app_nil_r|].
  unfold evidence_of at 1. destruct (dstate_census (s_proc s)) as [census|]; [|done]. cbn [mbind option_bind].
  destruct (threshold_tripped _ _ _ _); [|apply IH]. destruct (s_write_ok s); [|done].
  intros ->%IH. by rewrite <- app_assoc.
Qed.

(** ** Samples *)

Definition sample_buck (command : list String.string) (limit : Z) : BuckArgs := {|
  b_task := "t1"; b_agent := "w3"; max_jobs := limit; allow_unbounded := false; b_wait_seconds := 0;
  psi_threshold := 50; dstate_threshold := 32; b_dry_run := false; b_command := map lit command |}.

Definition sample_host (locked : bool) : BuckWorld := {|
  bw_pid := 7; lock_opens := true; bw_now := 100; attempts := [(locked, 100)]; evidence_dir_ok := true; spawn_ok := true;
  samples := [{| s_pressure := None; s_proc := Some []; s_write_ok := true |}] |}.

Abbreviation run_sample c limit locked := (buck_run (fun _ => None) (sample_buck c%string limit) (sample_host locked)).

Lemma launched_capped_witness : exists n,
  parse_buck_command (map lit ["buck2"; "test"; "-j"; "8"; "//x/..."]%string) =
    with_jobs (parse_buck_command (map lit ["buck2"; "test"; "//x/..."; "--num-threads=8"]%string)) (Some n) /\ n <= 16.
Proof.
  destruct (launched_capped (fun _ => None) (sample_buck ["buck2"; "test"; "//x/..."; "--num-threads=8"]%string 16) (sample_host true)
              (map lit ["buck2"; "test"; "-j"; "8"; "//x/..."]%string) (lit "buck2")
              (map lit ["test"; "//x/..."; "--num-threads=8"]%string)) as (n & Hp & _ & Hn & _).
  - reflexivity.
  - repeat split.
  - cbn. unfold u32_max. lia.
  - vm_compute. reflexivity.
  - exists n. split; [exact Hp | apply Hn; reflexivity].
Defined.

(** The run of the incident, and its repetition while another run holds the lock. *)
Example incident_refused :
  ended (run_sample ["buck2"; "test"; "fbcode//hermit/..."] 16 true) = Exit BUCK_EXIT_REFUSED /\
  ended (run_sample ["buck2"; "test"; "-j4"; "fbcode//hermit/..."] 16 false) = Exit BUCK_EXIT_QUEUED.
Proof. vm_compute. auto. Qed.

(** ** Where the guard does less than it says *)

(** A limit of zero is accepted, and a command without a cap is launched with the cap that
    the guard itself calls unbounded. *)
Lemma zero_limit_launches :
  launched (run_sample ["buck2"; "build"; "//x:y"] 0 true) = Some (map lit ["buck2"; "build"; "-j"; "0"; "//x:y"]%string).
Proof. vm_compute. reflexivity. Qed.

(** A spelling of the cap that is not recognised is launched as it is, beside the cap. *)
Lemma equals_spelling_kept :
  launched (run_sample ["buck2"; "test"; "-j"; "4"; "//x/..."; "-j=900"] 16 true) =
    Some (map lit ["buck2"; "test"; "-j"; "4"; "//x/..."; "-j=900"]%string) /\
  explicit_jobs (parse_buck_command (map lit ["buck2"; "test"; "-j=900"]%string)) = None.
Proof. vm_compute. auto. Qed.

(** The cap is put behind the second word, also where that is an option whose value
    follows. *)
Lemma cap_splits_option :
  launched (run_sample ["buck2"; "--isolation-dir"; "iso"; "test"; "//x:y"] 16 true) =
    Some (map lit ["buck2"; "--isolation-dir"; "-j"; "16"; "iso"; "test"; "//x:y"]%string).
Proof. vm_compute. reflexivity. Qed.

(** The arguments of the program that is run are read and stripped like those of the
    build. *)
Lemma program_arguments_stripped :
  launched (run_sample ["buck2"; "run"; "//x:y"; "--"; "-j"; "4"; "in"] 16 true) =
    Some (map lit ["buck2"; "run"; "-j"; "4"; "//x:y"; "--"; "in"]%string).
Proof. vm_compute. reflexivity. Qed.
