(* ===== verification/Conc.v ===== *)
(** Programs over shared atomic cells, their interleaving semantics and a small
    resource logic for them.

    Every operation of the crate that touches shared memory is written once, as
    a [prog]: a tree of atomic read-modify-write steps.  The same definition is
    run alone ([run], executable), interleaved with any number of other threads
    ([pstep], [rtc pstep]) and verified ([wp], [adequacy]). *)

From S2P Require Import Prelude.

(** ** Programs *)

(** [Rmw l f k] atomically reads [v] from cell [l], writes [w] when [f v] is
    [Some w], and continues with [k v].  [Choose] is a choice of the hardware (a
    spurious failure of a weak compare-exchange).  [Panic] is a Rust panic.
    [Spin] stands for a retry loop that has used the iterations it was given:
    the thread is still looping and takes no further step of interest. *)
Inductive prog (L A : Type) : Type :=
| Ret (a : A)
| Panic
| Spin
| Rmw (l : L) (f : Z -> option Z) (k : Z -> prog L A)
| Choose (k : bool -> prog L A).
Arguments Ret {L A} _.
Arguments Panic {L A}.
Arguments Spin {L A}.
Arguments Rmw {L A} _ _ _.
Arguments Choose {L A} _.

Fixpoint bind {L A B} (p : prog L A) (k : A -> prog L B) : prog L B :=
  match p with
  | Ret a => k a
  | Panic => Panic
  | Spin => Spin
  | Rmw l f c => Rmw l f (fun v => bind (c v) k)
  | Choose c => Choose (fun b => bind (c b) k)
  end.

(** Rust's [?] inside an operation. *)
Definition try_bind {L A B E} (p : prog L (result A E)) (k : A -> prog L (result B E)) :
    prog L (result B E) :=
  bind p (fun r => match r with Ok a => k a | Err e => Ret (Err e) end).

Notation "'let!' x := p 'in' k" := (bind p (fun x => k))
  (at level 10, x name, p at level 99, k at level 200) : pod_scope.
Notation "'let!?' x := p 'in' k" := (try_bind p (fun x => k))
  (at level 10, x name, p at level 99, k at level 200) : pod_scope.
Notation "'do!' p ';;' k" := (bind p (fun _ => k))
  (at level 10, p at level 99, k at level 200) : pod_scope.
Notation "'do!?' p ';;' k" := (try_bind p (fun _ => k))
  (at level 10, p at level 99, k at level 200) : pod_scope.

(** The outcome of calling code that may unwind. *)
Inductive unwind (A : Type) := Returned (a : A) | Unwound.
Arguments Returned {A} _.
Arguments Unwound {A}.

(** [loop { ... }]: the body continues with a new loop state ([inl]) or returns
    ([inr]); [fuel] bounds the number of iterations. *)
Fixpoint loop {L St A} (fuel : nat) (body : St -> prog L (St + A)) (s : St) : prog L A :=
  match fuel with
  | O => Spin
  | S n => bind (body s) (fun r => match r with inl s' => loop n body s' | inr a => Ret a end)
  end.

(** Rust's [?] inside the body of a retry loop: the error leaves the loop. *)
Definition try_loop {L St A B E} (p : prog L (result A E)) (k : A -> prog L (St + result B E)) :
    prog L (St + result B E) :=
  bind p (fun r => match r with Ok a => k a | Err e => Ret (inr (Err e)) end).
Notation "'do!^' p ';;' k" := (try_loop p (fun _ => k))
  (at level 10, p at level 99, k at level 200) : pod_scope.
Notation "'let!^' x := p 'in' k" := (try_loop p (fun x => k))
  (at level 10, x name, p at level 99, k at level 200) : pod_scope.

(** [for i in lo .. lo + n { body }] with an early [return]. *)
Fixpoint for_loop {L A} (n : nat) (lo : Z) (body : Z -> prog L (option A)) (done : prog L A) :
    prog L A :=
  match n with
  | O => done
  | S n => bind (body lo) (fun r =>
      match r with Some a => Ret a | None => for_loop n (lo + 1) body done end)
  end.

(** ** The atomic operations of [core::sync::atomic] *)

Definition load {L} (l : L) : prog L Z := Rmw l (fun _ => None) Ret.
Definition store {L} (l : L) (v : Z) : prog L unit := Rmw l (fun _ => Some v) (fun _ => Ret tt).
Definition swap {L} (l : L) (v : Z) : prog L Z := Rmw l (fun _ => Some v) Ret.
Definition fetch_or {L} (l : L) (v : Z) : prog L Z := Rmw l (fun x => Some (Z.lor x v)) Ret.
Definition fetch_and {L} (l : L) (v : Z) : prog L Z := Rmw l (fun x => Some (Z.land x v)) Ret.
Definition fetch_add {L} (w : Z) (l : L) (v : Z) : prog L Z :=
  Rmw l (fun x => Some (wrap w (x + v))) Ret.
Definition fetch_sub {L} (w : Z) (l : L) (v : Z) : prog L Z :=
  Rmw l (fun x => Some (wrap w (x - v))) Ret.
Definition compare_exchange {L} (l : L) (old new : Z) : prog L (result Z Z) :=
  Rmw l (fun x => if x =? old then Some new else None)
        (fun x => Ret (if x =? old then Ok x else Err x)).
Definition compare_exchange_weak {L} (l : L) (old new : Z) : prog L (result Z Z) :=
  Choose (fun spurious =>
    if spurious then Rmw l (fun _ => None) (fun x => Ret (Err x))
    else compare_exchange l old new).

(** Non-atomic accesses to several words, one word at a time. *)
Fixpoint store_all {L} (ws : list (L * Z)) : prog L unit :=
  match ws with
  | [] => Ret tt
  | (l, v) :: ws => do! store l v ;; store_all ws
  end.
Fixpoint load_all {L} (ls : list L) : prog L (list Z) :=
  match ls with
  | [] => Ret []
  | l :: ls => let! v := load l in let! vs := load_all ls in Ret (v :: vs)
  end.

(** ** Memory and execution *)

Section Semantics.
Context {L : Type} `{EqDecision L}.
Implicit Types (m : L -> Z) (l : L).

Definition upd m l (v : Z) : L -> Z := fun l' => if decide (l' = l) then v else m l'.

Definition apply_rmw m l (f : Z -> option Z) : L -> Z :=
  match f (m l) with Some v => upd m l v | None => m end.

Lemma upd_eq m l v : upd m l v l = v.
Proof. unfold upd. by rewrite decide_True. Qed.

Lemma upd_ne m l l' v : l' <> l -> upd m l v l' = m l'.
Proof. intros. unfold upd. by rewrite decide_False. Qed.

(** Running one program alone; weak compare-exchanges do not fail spuriously. *)
Inductive outcome (A : Type) := Done (a : A) | Panicked | Spinning.
#[global] Arguments Done {A} _.
#[global] Arguments Panicked {A}.
#[global] Arguments Spinning {A}.

Fixpoint run {A} (p : prog L A) m : outcome A * (L -> Z) :=
  match p with
  | Ret a => (Done a, m)
  | Panic => (Panicked, m)
  | Spin => (Spinning, m)
  | Rmw l f k => run (k (m l)) (apply_rmw m l f)
  | Choose k => run (k false) m
  end.

(** [solo p m Φ]: running [p] alone from [m], whatever the spurious failures,
    ends in a result and a memory that satisfy [Φ]; it neither panics nor runs
    out of loop iterations. *)
Fixpoint solo {A} (p : prog L A) m (Φ : A -> (L -> Z) -> Prop) : Prop :=
  match p with
  | Ret a => Φ a m
  | Panic => False
  | Spin => False
  | Rmw l f k => solo (k (m l)) (apply_rmw m l f) Φ
  | Choose k => forall b, solo (k b) m Φ
  end.

Lemma solo_run {A} (p : prog L A) m Φ : solo p m Φ ->
  exists a m', run p m = (Done a, m') /\ Φ a m'.
Proof.
  revert m. induction p as [a| | |l f k IH|k IH]; cbn; intros m H; try done.
  - by exists a, m.
  - apply IH, H.
  - apply IH, H.
Qed.

Lemma solo_bind {A B} (p : prog L A) (k : A -> prog L B) m Φ :
  solo (bind p k) m Φ <-> solo p m (fun a m' => solo (k a) m' Φ).
Proof.
  revert m. induction p as [a| | |l f c IH|c IH]; cbn; intros m; try done.
  split; intros H b; apply IH, H.
Qed.

Lemma solo_mono {A} (p : prog L A) m (Φ Ψ : A -> (L -> Z) -> Prop) :
  (forall a m', Φ a m' -> Ψ a m') -> solo p m Φ -> solo p m Ψ.
Proof.
  intros HΦ. revert m. induction p as [a| | |l f c IH|c IH]; cbn; intros m; eauto.
Qed.

Lemma solo_loop {St A} n (body : St -> prog L (St + A)) s m Φ :
  solo (loop (S n) body s) m Φ <->
  solo (body s) m (fun x m' =>
    match x with inl s' => solo (loop n body s') m' Φ | inr a => Φ a m' end).
Proof. cbn. rewrite solo_bind. split; apply solo_mono; by intros [s'|a] m'. Qed.

Lemma solo_for {A} (J : Z -> (L -> Z) -> Prop) n lo (body : Z -> prog L (option A)) fin m Φ :
  (forall i m, lo <= i < lo + Z.of_nat n -> J i m -> solo (body i) m (fun x m' =>
     match x with None => J (i + 1) m' | Some a => Φ a m' end)) ->
  (forall m, J (lo + Z.of_nat n) m -> solo fin m Φ) ->
  J lo m -> solo (for_loop n lo body fin) m Φ.
Proof.
  revert lo m. induction n as [|n IH]; intros lo m Hbody Hfin HJ; cbn [for_loop].
  - apply Hfin. by replace (lo + Z.of_nat 0) with lo by lia.
  - rewrite solo_bind. eapply solo_mono, Hbody, HJ; [|lia]. intros [a|] m' Hx; [done|].
    apply IH; [|intros m0 HJ0; apply Hfin|exact Hx].
    + intros i m0 Hi. apply Hbody. lia.
    + by replace (lo + Z.of_nat (S n)) with (lo + 1 + Z.of_nat n) by lia.
Qed.

Lemma solo_try_bind {A B E} (p : prog L (result A E)) (k : A -> prog L (result B E)) m Φ :
  solo (try_bind p k) m Φ <->
  solo p m (fun x m' => match x with Ok a => solo (k a) m' Φ | Err e => Φ (Err e) m' end).
Proof. unfold try_bind. rewrite solo_bind. split; apply solo_mono; by intros [a|e] m'. Qed.

Lemma solo_load l m Φ : solo (load l) m Φ <-> Φ (m l) m.
Proof. done. Qed.

Lemma solo_store l v m Φ : solo (store l v) m Φ <-> Φ tt (upd m l v).
Proof. done. Qed.

Lemma solo_fetch_or l v m Φ : solo (fetch_or l v) m Φ <-> Φ (m l) (upd m l (Z.lor (m l) v)).
Proof. done. Qed.

Lemma solo_cas l old new m Φ : solo (compare_exchange l old new) m Φ <->
  (if m l =? old then Φ (Ok (m l)) (upd m l new) else Φ (Err (m l)) m).
Proof. cbn. unfold apply_rmw. by destruct (m l =? old). Qed.

(** Runs of word-by-word accesses. *)
Definition write_all m (ws : list (L * Z)) : L -> Z := foldl (fun m w => upd m w.1 w.2) m ws.

Lemma solo_store_all ws m Φ : solo (store_all ws) m Φ <-> Φ tt (write_all m ws).
Proof.
  revert m. induction ws as [|[l v] ws IH]; intros m; [done|].
  cbn [store_all]. rewrite solo_bind, solo_store. apply IH.
Qed.

Lemma solo_load_all ls m Φ : solo (load_all ls) m Φ <-> Φ (map m ls) m.
Proof.
  revert Φ. induction ls as [|l ls IH]; intros Φ; [done|].
  cbn [load_all map]. rewrite solo_bind, solo_load, solo_bind. apply (IH (fun vs m => Φ (m l :: vs) m)) || (rewrite IH; done).
Qed.

Lemma write_all_notin ws m l : l ∉ map fst ws -> write_all m ws l = m l.
Proof.
  revert m. induction ws as [|[l' v] ws IH]; intros m; [done|].
  cbn. rewrite not_elem_of_cons. intros [Hne Hin]. rewrite IH by done. by apply upd_ne.
Qed.

Lemma write_all_combine ls vs m : NoDup ls -> length ls = length vs ->
  map (write_all m (combine ls vs)) ls = vs.
Proof.
  revert vs m. induction ls as [|l ls IH]; intros [|v vs] m Hnd Hlen; try done.
  inversion Hnd as [|? ? Hnin Hnd0]; subst. cbn. f_equal.
  - fold (write_all (upd m l v) (combine ls vs)). rewrite write_all_notin; [apply upd_eq|].
    intros Hin. apply Hnin. apply list_elem_of_In in Hin. apply list_elem_of_In.
    apply in_map_iff in Hin as ([l' v'] & <- & Hc). by apply in_combine_l in Hc.
  - fold (write_all (upd m l v) (combine ls vs)). apply IH; [done|]. cbn in Hlen. lia.
Qed.

(** Threads: one step of one thread, then of a pool of threads.  A thread that
    dies is a thread that is never scheduled again. *)
Inductive tstep {A} : (L -> Z) * prog L A -> (L -> Z) * prog L A -> Prop :=
| tstep_rmw m l f k : tstep (m, Rmw l f k) (apply_rmw m l f, k (m l))
| tstep_choose m k b : tstep (m, Choose k) (m, k b).

Inductive pstep {A} : (L -> Z) * list (prog L A) -> (L -> Z) * list (prog L A) -> Prop :=
| pstep_thread m m' ts i p p' :
    ts !! i = Some p -> tstep (m, p) (m', p') -> pstep (m, ts) (m', <[i := p']> ts).

(** Executing a given schedule: the list of the threads that take the steps. *)
Definition step_thread {A} (c : (L -> Z) * list (prog L A)) (i : nat) :
    (L -> Z) * list (prog L A) :=
  match c.2 !! i with
  | Some (Rmw l f k) => (apply_rmw c.1 l f, <[i := k (c.1 l)]> c.2)
  | Some (Choose k) => (c.1, <[i := k false]> c.2)
  | _ => c
  end.

Definition run_schedule {A} (c : (L -> Z) * list (prog L A)) (sched : list nat) :
    (L -> Z) * list (prog L A) := foldl step_thread c sched.

Lemma run_schedule_steps {A} (c : (L -> Z) * list (prog L A)) sched :
  rtc pstep c (run_schedule c sched).
Proof.
  revert c. induction sched as [|i sched IH]; intros [m ts]; cbn; [done|].
  unfold step_thread at 2. cbn. destruct (ts !! i) as [[a| | |l f k|k]|] eqn:Hi; try apply IH.
  - eapply rtc_l, IH. econstructor; [done | constructor].
  - eapply rtc_l, IH. econstructor; [done | constructor].
Qed.
End Semantics.

(** [n] rounds over the threads [0 .. k-1]. *)
Definition round_robin (k n : nat) : list nat := concat (replicate n (seq 0 k)).

Arguments upd : simpl never.

(** The number of copies of a token. *)
Definition mult {T} `{Countable T} (t : T) (r : gmultiset T) : Z := Z.of_nat (multiplicity t r).

Lemma mult_union {T} `{Countable T} (t : T) r1 r2 : mult t (r1 ⊎ r2) = mult t r1 + mult t r2.
Proof. unfold mult. rewrite multiplicity_disj_union. lia. Qed.

Lemma mult_single {T} `{Countable T} (t t' : T) :
  mult t {[+ t' +]} = if decide (t = t') then 1 else 0.
Proof. unfold mult. rewrite multiplicity_singleton. by case_decide. Qed.

Lemma mult_empty {T} `{Countable T} (t : T) : mult t ∅ = 0.
Proof. done. Qed.

Lemma mult_nonneg {T} `{Countable T} (t : T) r : 0 <= mult t r.
Proof. unfold mult. lia. Qed.

Create Rewrite HintDb mult.
#[export] Hint Rewrite @mult_union @mult_single @mult_empty : mult.

(** ** The resource logic *)

Section Logic.
Context {L : Type} `{EqDecision L} {T : Type} `{Countable T}.
Implicit Types (m : L -> Z) (r fr : gmultiset T).

(** The invariant relates the shared memory to the multiset of tokens held by
    all threads together. *)
Variable I : (L -> Z) -> gmultiset T -> Prop.

(** [wp p r Φ]: a thread about to run [p] and holding the tokens [r], whatever
    the others ([fr]) hold, keeps the invariant at each of its atomic steps
    (possibly exchanging its own tokens), never panics, and ends with [Φ]. *)
Fixpoint wp {A} (p : prog L A) r (Φ : A -> gmultiset T -> Prop) : Prop :=
  match p with
  | Ret a => Φ a r
  | Panic => False
  | Spin => True
  | Rmw l f k => forall m fr, I m (r ⊎ fr) ->
      exists r', I (apply_rmw m l f) (r' ⊎ fr) /\ wp (k (m l)) r' Φ
  | Choose k => forall b, wp (k b) r Φ
  end.

Lemma wp_mono {A} (p : prog L A) r (Φ Ψ : A -> gmultiset T -> Prop) :
  (forall a r', Φ a r' -> Ψ a r') -> wp p r Φ -> wp p r Ψ.
Proof.
  intros HΦ. revert r. induction p as [a| | |l f c IH|c IH]; cbn; intros r Hp; eauto.
  intros m fr HI. destruct (Hp m fr HI) as (r' & HI' & Hk). eauto.
Qed.

Lemma wp_bind {A B} (p : prog L A) (k : A -> prog L B) r Φ :
  wp p r (fun a r' => wp (k a) r' Φ) -> wp (bind p k) r Φ.
Proof.
  revert r. induction p as [a| | |l f c IH|c IH]; cbn; intros r Hp; eauto.
  intros m fr HI. destruct (Hp m fr HI) as (r' & HI' & Hk). eauto.
Qed.

Lemma wp_try_bind {A B E} (p : prog L (result A E)) (k : A -> prog L (result B E)) r Φ :
  wp p r (fun x r' => match x with Ok a => wp (k a) r' Φ | Err e => Φ (Err e) r' end) ->
  wp (try_bind p k) r Φ.
Proof. intros Hp. apply wp_bind. eapply wp_mono, Hp. by intros [a|e] r' Hx. Qed.

Lemma wp_ret {A} (a : A) r (Φ : A -> gmultiset T -> Prop) : Φ a r -> wp (Ret a) r Φ.
Proof. done. Qed.

(** A loop keeps its loop invariant [J]. *)
Lemma wp_loop {St A} (J : St -> gmultiset T -> Prop) fuel (body : St -> prog L (St + A)) s r Φ :
  (forall s r, J s r -> wp (body s) r (fun x r' =>
     match x with inl s' => J s' r' | inr a => Φ a r' end)) ->
  J s r -> wp (loop fuel body s) r Φ.
Proof.
  intros Hbody. revert s r. induction fuel as [|n IH]; intros s r HJ; cbn; [done|].
  apply wp_bind. eapply wp_mono, Hbody, HJ. intros [s'|a] r' Hx; [by apply IH | done].
Qed.

Lemma wp_for {A} (J : Z -> gmultiset T -> Prop) n lo (body : Z -> prog L (option A)) fin r Φ :
  (forall i r, lo <= i < lo + Z.of_nat n -> J i r -> wp (body i) r (fun x r' =>
     match x with None => J (i + 1) r' | Some a => Φ a r' end)) ->
  (forall r, J (lo + Z.of_nat n) r -> wp fin r Φ) ->
  J lo r -> wp (for_loop n lo body fin) r Φ.
Proof.
  revert lo r. induction n as [|n IH]; intros lo r Hbody Hfin HJ; cbn.
  - apply Hfin. by replace (lo + Z.of_nat 0) with lo by lia.
  - apply wp_bind. eapply wp_mono, Hbody, HJ; [|lia]. intros [a|] r' Hx; [done|].
    apply IH; [|intros r0 HJ0; apply Hfin|exact Hx].
    + intros i r0 Hi. apply Hbody. lia.
    + by replace (lo + Z.of_nat (S n)) with (lo + 1 + Z.of_nat n) by lia.
Qed.

(** The atomic operations. *)
Lemma wp_load l r Φ :
  (forall m fr, I m (r ⊎ fr) -> exists r', I m (r' ⊎ fr) /\ Φ (m l) r') -> wp (load l) r Φ.
Proof. intros Hl m fr HI. cbn. eauto. Qed.

Lemma wp_store l v r Φ :
  (forall m fr, I m (r ⊎ fr) -> exists r', I (upd m l v) (r' ⊎ fr) /\ Φ tt r') ->
  wp (store l v) r Φ.
Proof. intros Hl m fr HI. cbn. eauto. Qed.

Lemma wp_fetch_or l v r Φ :
  (forall m fr, I m (r ⊎ fr) -> exists r', I (upd m l (Z.lor (m l) v)) (r' ⊎ fr) /\ Φ (m l) r') ->
  wp (fetch_or l v) r Φ.
Proof. intros Hl m fr HI. cbn. eauto. Qed.

Lemma wp_fetch_and l v r Φ :
  (forall m fr, I m (r ⊎ fr) -> exists r', I (upd m l (Z.land (m l) v)) (r' ⊎ fr) /\ Φ (m l) r') ->
  wp (fetch_and l v) r Φ.
Proof. intros Hl m fr HI. cbn. eauto. Qed.

Lemma wp_fetch_add w l v r Φ :
  (forall m fr, I m (r ⊎ fr) -> exists r', I (upd m l (wrap w (m l + v))) (r' ⊎ fr) /\ Φ (m l) r') ->
  wp (fetch_add w l v) r Φ.
Proof. intros Hl m fr HI. cbn. eauto. Qed.

Lemma wp_fetch_sub w l v r Φ :
  (forall m fr, I m (r ⊎ fr) -> exists r', I (upd m l (wrap w (m l - v))) (r' ⊎ fr) /\ Φ (m l) r') ->
  wp (fetch_sub w l v) r Φ.
Proof. intros Hl m fr HI. cbn. eauto. Qed.

Lemma wp_swap l v r Φ :
  (forall m fr, I m (r ⊎ fr) -> exists r', I (upd m l v) (r' ⊎ fr) /\ Φ (m l) r') ->
  wp (swap l v) r Φ.
Proof. intros Hl m fr HI. cbn. eauto. Qed.

Lemma wp_cas l old new r Φ :
  (forall m fr, I m (r ⊎ fr) -> m l = old ->
     exists r', I (upd m l new) (r' ⊎ fr) /\ Φ (Ok old) r') ->
  (forall m fr, I m (r ⊎ fr) -> m l <> old ->
     exists r', I m (r' ⊎ fr) /\ Φ (Err (m l)) r') ->
  wp (compare_exchange l old new) r Φ.
Proof.
  intros Hok Herr m fr HI. cbn. unfold apply_rmw.
  destruct (Z.eqb_spec (m l) old) as [Heq|Hne]; [|by apply Herr].
  rewrite Heq. by apply Hok.
Qed.

Lemma wp_cas_weak l old new r Φ :
  (forall m fr, I m (r ⊎ fr) -> m l = old ->
     exists r', I (upd m l new) (r' ⊎ fr) /\ Φ (Ok old) r') ->
  (forall m fr, I m (r ⊎ fr) -> exists r', I m (r' ⊎ fr) /\ Φ (Err (m l)) r') ->
  wp (compare_exchange_weak l old new) r Φ.
Proof.
  intros Hok Herr [|].
  - intros m fr HI. cbn. by apply Herr.
  - apply wp_cas; [exact Hok|]. intros m fr HI _. by apply Herr.
Qed.

(** Changing the tokens of one thread of a pool. *)
Lemma disj_union_list_insert (rs : list (gmultiset T)) i r :
  rs !! i = Some r -> exists fr, ⋃+ rs = r ⊎ fr /\ forall r', ⋃+ (<[i := r']> rs) = r' ⊎ fr.
Proof.
  revert i. induction rs as [|r0 rs IH]; intros [|i] Hi; simplify_eq/=.
  - by exists (⋃+ rs).
  - destruct (IH i Hi) as (fr & Heq & Hins). exists (r0 ⊎ fr). rewrite Heq. split.
    + multiset_solver.
    + intros r'. rewrite Hins. multiset_solver.
Qed.

Definition pool_ok {A} (Φ : A -> gmultiset T -> Prop) (c : (L -> Z) * list (prog L A)) : Prop :=
  exists rs, Forall2 (fun p r => wp p r Φ) c.2 rs /\ I c.1 (⋃+ rs).

Lemma pstep_pool_ok {A} Φ (c c' : (L -> Z) * list (prog L A)) :
  pstep c c' -> pool_ok Φ c -> pool_ok Φ c'.
Proof.
  intros [m m' ts i p p' Hi Hstep] (rs & Hall & HI). cbn in *.
  destruct (Forall2_lookup_l _ _ _ _ _ Hall Hi) as (r & Hr & Hwp).
  destruct (disj_union_list_insert rs i r Hr) as (fr & Heq & Hins).
  assert (exists r', I m' (r' ⊎ fr) /\ wp p' r' Φ) as (r' & HI' & Hwp').
  { inversion Hstep; subst.
    - apply Hwp. by rewrite <- Heq.
    - exists r. split; [by rewrite <- Heq | apply Hwp]. }
  exists (<[i := r']> rs). cbn. split; [by apply Forall2_insert|]. by rewrite Hins.
Qed.

(** Soundness: verified threads keep the invariant in every interleaving. *)
Theorem pool_adequacy {A} Φ (c c' : (L -> Z) * list (prog L A)) :
  rtc pstep c c' -> pool_ok Φ c -> pool_ok Φ c'.
Proof. induction 1 as [|c1 c2 c3 Hstep _ IH]; eauto using pstep_pool_ok. Qed.

Corollary pool_no_panic {A} Φ (c c' : (L -> Z) * list (prog L A)) i :
  rtc pstep c c' -> pool_ok Φ c -> c'.2 !! i <> Some Panic.
Proof.
  intros Hsteps Hok Hi. destruct (pool_adequacy _ _ _ Hsteps Hok) as (rs & Hall & _).
  by destruct (Forall2_lookup_l _ _ _ _ _ Hall Hi) as (r & _ & Hwp).
Qed.

(** A pool whose threads start with no tokens. *)
Lemma pool_ok_start {A} Φ m (ts : list (prog L A)) :
  I m ∅ -> Forall (fun p => wp p ∅ Φ) ts -> pool_ok Φ (m, ts).
Proof.
  intros HI Hts. exists (replicate (length ts) ∅). cbn. split.
  - by apply Forall2_replicate_r.
  - assert (⋃+ replicate (length ts) (∅ : gmultiset T) = ∅) as ->; [|done].
    induction (length ts) as [|n IH]; cbn; [done|]. rewrite IH. multiset_solver.
Qed.
End Logic.
