(* ===== verification/Layout.v ===== *)
(** Layout descriptors: the structural fingerprint mixer of
    [shmem_exec_obj/v2/src/lib.rs] and the wire descriptors of
    [shmem_exec_obj/v2/src/layout.rs]. *)

From S2P Require Import Prelude.

(** ** The fingerprint mixer (lib.rs, [__private]) *)

Definition FINGERPRINT_SEED : Z := 0x6c62272e07bb014262b821756295c58d.
Definition FINGERPRINT_MULTIPLIER : Z := 0x0000000001000000000000000000013b.

Definition mix_u128 (state value : Z) : Z :=
  wrapping_mul 128
    (wrapping_add 128 (rotate_left 128 state 29)
       (Z.lxor value 0xa0761d6478bd642f6eed0e9da4d94a4f))
    FINGERPRINT_MULTIPLIER.

Definition mix_usize (state value : Z) : Z := mix_u128 state value.

Fixpoint mix_each (state : Z) (bytes : list Z) : Z :=
  match bytes with
  | [] => state
  | b :: bytes => mix_each (mix_u128 state b) bytes
  end.
Definition mix_bytes (state : Z) (bytes : list Z) : Z :=
  mix_u128 (mix_each state bytes) (Z.of_nat (length bytes)).

Definition finish (state : Z) : Z :=
  let state := Z.lxor state (Z.shiftr state 47) in
  let state := wrapping_mul 128 state 0x9e3779b97f4a7c156eed0e9da4d94a4f in
  Z.lxor state (Z.shiftr state 53).

Definition primitive (tag : list Z) (size alignment : Z) : Z :=
  let state := mix_bytes FINGERPRINT_SEED (b_str "shmem-pod-value-primitive-v1") in
  let state := mix_bytes state tag in
  let state := mix_usize state size in
  finish (mix_usize state alignment).

(** [<[T; N] as FixedAddressPodValue>::FINGERPRINT]; the compiler's layout of the
    array ([size], [alignment]) and the fingerprint of [T] are arguments. *)
Definition array_fingerprint (size alignment n element : Z) : Z :=
  let state := mix_bytes FINGERPRINT_SEED (b_str "shmem-pod-array-v1") in
  let state := mix_usize state size in
  let state := mix_usize state alignment in
  let state := mix_usize state n in
  finish (mix_u128 state element).

(** ** Struct fingerprints: [offset_of!], [size_of] and [align_of] of a field are
    what the compiler chose for it *)

Record FieldLayout := { field_offset : Z; field_size : Z; field_align : Z }.

Definition mix_field (state : Z) (name : list Z) (f : FieldLayout) (fp : Z) : Z :=
  let state := mix_bytes state name in
  let state := mix_usize state (field_offset f) in
  let state := mix_usize state (field_size f) in
  let state := mix_usize state (field_align f) in
  mix_u128 state fp.

(** ** Descriptors *)

Definition MAGIC_START : nat := 0.
Definition MAGIC_END : nat := 8.
Definition VERSION_START : nat := 8.
Definition VERSION_END : nat := 10.
Definition RESERVED_START : nat := 10.
Definition RESERVED_END : nat := 16.
Definition FINGERPRINT_START : nat := 16.
Definition FINGERPRINT_END : nat := 32.
Definition SIZE_START : nat := 32.
Definition SIZE_END : nat := 40.
Definition ALIGNMENT_START : nat := 40.
Definition ALIGNMENT_END : nat := 48.

Record LayoutDescriptor := { fingerprint : Z; size : Z; alignment : Z }.
#[export] Instance LayoutDescriptor_eq_dec : EqDecision LayoutDescriptor.
Proof. solve_decision. Defined.

(** [*b"SHMPODL\0"] *)
Definition MAGIC : list Z := b_str "SHMPODL" ++ [0].
Definition VERSION : Z := 1.
Definition ENCODED_LEN : nat := ALIGNMENT_END.

(** What [LayoutDescriptor::of::<T>()] reads from the compiled type [T]. *)
Class PodType := { FINGERPRINT : Z; size_of : Z; align_of : Z }.

Definition layout_of `{PodType} : LayoutDescriptor :=
  {| fingerprint := FINGERPRINT; size := size_of; alignment := align_of |}.

Definition matches `{PodType} (d : LayoutDescriptor) : bool :=
  (fingerprint d =? fingerprint layout_of) && (size d =? size layout_of) && (alignment d =? alignment layout_of).

Inductive LayoutField := Fingerprint | Size | Alignment.

Record LayoutMismatch := {
  field : LayoutField;
  expected : LayoutDescriptor;
  found : LayoutDescriptor
}.

Definition validate `{PodType} (d : LayoutDescriptor) : result unit LayoutMismatch :=
  let mismatch f := Err {| field := f; expected := layout_of; found := d |} in
  if negb (fingerprint d =? fingerprint layout_of) then mismatch Fingerprint
  else if negb (size d =? size layout_of) then mismatch Size
  else if negb (alignment d =? alignment layout_of) then mismatch Alignment
  else Ok tt.

Inductive DecodeError :=
| Truncated (expected actual : Z)
| TrailingBytes (expected actual : Z)
| BadMagic (found : list Z)
| UnsupportedVersion (found : Z)
| NonzeroReserved (offset value : Z)
| SizeOutOfRange (size : Z)
| InvalidAlignment (alignment : Z).

Definition encode (d : LayoutDescriptor) : list Z :=
  let encoded := replicate ENCODED_LEN 0 in
  let encoded := copy_at MAGIC_START MAGIC encoded in
  let encoded := copy_at VERSION_START (to_le_bytes 2 VERSION) encoded in
  let encoded := copy_at FINGERPRINT_START (to_le_bytes 16 (fingerprint d)) encoded in
  let encoded := copy_at SIZE_START (to_le_bytes 8 (size d)) encoded in
  copy_at ALIGNMENT_START (to_le_bytes 8 (alignment d)) encoded.

(** The first nonzero byte of the reserved range, with its offset. *)
Fixpoint first_nonzero (offset : Z) (bytes : list Z) : option (Z * Z) :=
  match bytes with
  | [] => None
  | b :: bytes => if negb (b =? 0) then Some (offset, b) else first_nonzero (offset + 1) bytes
  end.

Definition decode `{Target} (encoded : list Z) : result LayoutDescriptor DecodeError :=
  if Nat.ltb (length encoded) ENCODED_LEN then
    Err (Truncated (Z.of_nat ENCODED_LEN) (Z.of_nat (length encoded)))
  else if Nat.ltb ENCODED_LEN (length encoded) then
    Err (TrailingBytes (Z.of_nat ENCODED_LEN) (Z.of_nat (length encoded)))
  else
    let magic := slice MAGIC_START MAGIC_END encoded in
    if negb (bool_decide (magic = MAGIC)) then Err (BadMagic magic)
    else
      let version := of_le_bytes (slice VERSION_START VERSION_END encoded) in
      if negb (version =? VERSION) then Err (UnsupportedVersion version)
      else
        match first_nonzero (Z.of_nat RESERVED_START) (slice RESERVED_START RESERVED_END encoded) with
        | Some (offset, value) => Err (NonzeroReserved offset value)
        | None =>
            let fingerprint := of_le_bytes (slice FINGERPRINT_START FINGERPRINT_END encoded) in
            let size := of_le_bytes (slice SIZE_START SIZE_END encoded) in
            if usize_max <? size then Err (SizeOutOfRange size)
            else
              let alignment := of_le_bytes (slice ALIGNMENT_START ALIGNMENT_END encoded) in
              if negb (is_power_of_two alignment) || (usize_max <? alignment) then
                Err (InvalidAlignment alignment)
              else Ok {| fingerprint := fingerprint; size := size; alignment := alignment |}
        end.

(** ** Theorems *)

(** The values the fields of a Rust descriptor can take, when the descriptor
    describes a type of this target. *)
Definition describes_local `{Target} (d : LayoutDescriptor) : Prop :=
  0 <= fingerprint d < 2 ^ 128 /\ 0 <= size d <= usize_max /\
  is_power_of_two (alignment d) = true /\ alignment d <= usize_max.

Lemma usize_max_64 `{Target} : usize_max < 2 ^ 64.
Proof. unfold usize_max. destruct usize_bits_ok as [->| ->]; lia. Qed.

Lemma encode_bytes d : encode d =
  MAGIC ++ to_le_bytes 2 VERSION ++ replicate 6 0 ++ to_le_bytes 16 (fingerprint d)
  ++ to_le_bytes 8 (size d) ++ to_le_bytes 8 (alignment d).
Proof. destruct d as [f s a]. reflexivity. Qed.

Lemma slice_app (pre mid post : list Z) i j : i = length pre -> j = (length pre + length mid)%nat ->
  slice i j (pre ++ mid ++ post) = mid.
Proof.
  intros -> ->. unfold slice. rewrite drop_app_length. replace (_ - _)%nat with (length mid) by lia.
  apply take_app_length.
Qed.

(** Any 48-byte string, cut at the field boundaries. *)
Lemma encoded_split (bs : list Z) : length bs = ENCODED_LEN ->
  bs = slice 0 8 bs ++ slice 8 10 bs ++ slice 10 16 bs ++ slice 16 32 bs ++ slice 32 40 bs ++ slice 40 48 bs.
Proof.
  intros Hl. unfold slice. cbn [Nat.sub].
  rewrite <- (take_drop 8 bs) at 1. f_equal.
  rewrite <- (take_drop 2 (drop 8 bs)) at 1. f_equal. rewrite drop_drop. cbn [Nat.add].
  rewrite <- (take_drop 6 (drop 10 bs)) at 1. f_equal. rewrite drop_drop. cbn [Nat.add].
  rewrite <- (take_drop 16 (drop 16 bs)) at 1. f_equal. rewrite drop_drop. cbn [Nat.add].
  rewrite <- (take_drop 8 (drop 32 bs)) at 1. f_equal. rewrite drop_drop. cbn [Nat.add].
  symmetry. apply take_ge. rewrite length_drop, Hl. done.
Qed.

Lemma slice_length i j (bs : list Z) : (i <= j <= length bs)%nat -> length (slice i j bs) = (j - i)%nat.
Proof. intros H. unfold slice. rewrite length_take, length_drop. lia. Qed.

Lemma slice_byte i j bs : Forall byte bs -> Forall byte (slice i j bs).
Proof. intros H. unfold slice. by apply Forall_take, Forall_drop. Qed.

Lemma first_nonzero_none o bs : first_nonzero o bs = None <-> bs = replicate (length bs) 0.
Proof.
  revert o. induction bs as [|b bs IH]; intros o; cbn; [done|].
  destruct (Z.eqb_spec b 0) as [->|Hne]; cbn; [rewrite IH|]; split; intros Heq; try congruence.
Qed.

(** ** The mixer loses nothing *)

Lemma wrapping_mul_inj w m inv x y : 0 <= w -> (m * inv) mod 2 ^ w = 1 mod 2 ^ w ->
  in_width w x -> in_width w y -> wrapping_mul w x m = wrapping_mul w y m -> x = y.
Proof.
  unfold wrapping_mul, wrap, in_width. intros Hw Hinv Hx Hy Heq.
  assert (Hback : forall z, 0 <= z < 2 ^ w -> ((z * m) mod 2 ^ w * inv) mod 2 ^ w = z).
  { intros z Hz. rewrite Z.mul_mod_idemp_l by lia. rewrite <- Z.mul_assoc.
    rewrite <- Z.mul_mod_idemp_r by lia. rewrite Hinv, Z.mul_mod_idemp_r, Z.mul_1_r by lia.
    by apply Z.mod_small. }
  rewrite <- (Hback x Hx), <- (Hback y Hy). by rewrite Heq.
Qed.

Lemma wrapping_add_inj_r w c x y : in_width w x -> in_width w y ->
  wrapping_add w c x = wrapping_add w c y -> x = y.
Proof.
  unfold wrapping_add, wrap, in_width. intros Hx Hy Heq.
  assert (((c + x) - (c + y)) mod 2 ^ w = 0) as Hd.
  { rewrite Zminus_mod, Heq, Z.sub_diag. apply Z.mod_0_l. lia. }
  apply Z.mod_divide in Hd as [q Hq]; [|lia]. assert (q = 0) by nia. lia.
Qed.

Lemma lxor_inj_l c x y : Z.lxor x c = Z.lxor y c -> x = y.
Proof.
  intros Heq. rewrite <- (Z.lxor_0_r x), <- (Z.lxor_0_r y), <- (Z.lxor_nilpotent c).
  by rewrite <- !Z.lxor_assoc, Heq.
Qed.

Lemma lxor_width w x y : 0 <= w -> in_width w x -> in_width w y -> in_width w (Z.lxor x y).
Proof.
  unfold in_width. intros Hw Hx Hy.
  assert (Hz : Z.lxor x y = Z.lxor x y mod 2 ^ w).
  { apply Z.bits_inj'. intros n Hn. rewrite Z.lxor_spec. destruct (Z.lt_ge_cases n w).
    - rewrite Z.mod_pow2_bits_low, Z.lxor_spec by lia. done.
    - rewrite Z.mod_pow2_bits_high by lia. rewrite (testbit_small x w n), (testbit_small y w n) by lia. done. }
  rewrite Hz. apply Z.mod_pos_bound. lia.
Qed.

Lemma rotate_left_add w x n : 0 <= n <= w -> in_width w x ->
  rotate_left w x n = (x mod 2 ^ (w - n)) * 2 ^ n + x / 2 ^ (w - n).
Proof.
  unfold in_width, rotate_left, wrap. intros Hn Hx.
  rewrite Z.shiftl_mul_pow2, shiftr_div by lia.
  assert (Hw : 2 ^ w = 2 ^ (w - n) * 2 ^ n) by (rewrite <- Z.pow_add_r by lia; f_equal; lia).
  rewrite Hw, Z.mul_mod_distr_r by lia. rewrite <- Z.shiftl_mul_pow2 by lia.
  rewrite lor_shiftl_add; [by rewrite Z.shiftl_mul_pow2 by lia|lia|].
  split; [apply Z.div_pos; lia | apply Z.div_lt_upper_bound; lia].
Qed.

Lemma rotate_left_inj w n x y : 0 <= n <= w -> in_width w x -> in_width w y ->
  rotate_left w x n = rotate_left w y n -> x = y.
Proof.
  intros Hn Hx Hy. rewrite !rotate_left_add by done. unfold in_width in *. intros Heq.
  assert (Hw : 2 ^ w = 2 ^ (w - n) * 2 ^ n) by (rewrite <- Z.pow_add_r by lia; f_equal; lia).
  assert (Hlow : forall z, 0 <= z < 2 ^ w -> 0 <= z / 2 ^ (w - n) < 2 ^ n).
  { intros z Hz. split; [apply Z.div_pos; lia | apply Z.div_lt_upper_bound; lia]. }
  pose proof (Hlow x Hx). pose proof (Hlow y Hy).
  assert (x mod 2 ^ (w - n) = y mod 2 ^ (w - n) /\ x / 2 ^ (w - n) = y / 2 ^ (w - n)) as [Hm Hd]
    by (apply (Z.div_mod_unique (2 ^ n)); lia).
  rewrite (Z.div_mod x (2 ^ (w - n))), (Z.div_mod y (2 ^ (w - n))) by lia. by rewrite Hm, Hd.
Qed.

Lemma rotate_left_width w n x : 0 <= n <= w -> in_width w x -> in_width w (rotate_left w x n).
Proof.
  intros Hn Hx. rewrite rotate_left_add by done. unfold in_width in *.
  assert (Hw : 2 ^ w = 2 ^ (w - n) * 2 ^ n) by (rewrite <- Z.pow_add_r by lia; f_equal; lia).
  pose proof (Z.mod_pos_bound x (2 ^ (w - n))). pose proof (Z.div_pos x (2 ^ (w - n))).
  assert (x / 2 ^ (w - n) < 2 ^ n) by (apply Z.div_lt_upper_bound; lia). nia.
Qed.

(** [s ^ (s >> k)] is a bijection: the difference of two colliding states is
    its own right shift. *)
Lemma xorshift_inj k x y : 0 < k -> 0 <= x -> 0 <= y ->
  Z.lxor x (Z.shiftr x k) = Z.lxor y (Z.shiftr y k) -> x = y.
Proof.
  intros Hk Hx Hy Heq. apply Z.lxor_eq. set (d := Z.lxor x y).
  assert (Hd : Z.lxor d (Z.shiftr d k) = 0).
  { subst d. rewrite Z.shiftr_lxor.
    transitivity (Z.lxor (Z.lxor x (Z.shiftr x k)) (Z.lxor y (Z.shiftr y k)));
      [|rewrite Heq; apply Z.lxor_nilpotent].
    rewrite !Z.lxor_assoc. f_equal. rewrite <- !Z.lxor_assoc. f_equal. apply Z.lxor_comm. }
  apply Z.lxor_eq in Hd. rewrite shiftr_div in Hd by lia.
  assert (0 <= d) by (apply Z.lxor_nonneg; lia).
  assert (2 <= 2 ^ k) by (change 2 with (2 ^ 1) at 1; apply Z.pow_le_mono_r; lia).
  destruct (Z.eq_dec d 0); [done|]. assert (d / 2 ^ k < d) by (apply Z.div_lt; lia). lia.
Qed.

(** Inverses of the two odd multipliers modulo [2^128]. *)
Definition FINISH_INVERSE : Z := 0xfcbd5b6e86da0f832f72b4215a3d8caf.
Definition MULTIPLIER_INVERSE : Z := 0xb1041ad2562ff2ff2ff2ff2ff2ff2ff3.

Lemma finish_inj x y : in_width 128 x -> in_width 128 y -> finish x = finish y -> x = y.
Proof.
  intros Hx Hy. unfold finish. intros Heq. pose proof Hx as Hx'. pose proof Hy as Hy'. unfold in_width in Hx', Hy'.
  assert (Hsh : forall z, in_width 128 z -> in_width 128 (Z.lxor z (Z.shiftr z 47))).
  { intros z Hz. apply lxor_width; [lia|done|]. unfold in_width in *. rewrite shiftr_div by lia.
    split; [apply Z.div_pos; lia | apply Z.div_lt_upper_bound; lia]. }
  apply xorshift_inj in Heq; [|lia|apply Z.mod_pos_bound; lia..].
  apply (wrapping_mul_inj 128 _ FINISH_INVERSE) in Heq; [|lia|vm_compute; done|by apply Hsh..].
  apply xorshift_inj in Heq; lia.
Qed.

Lemma finish_width x : in_width 128 (finish x).
Proof.
  apply lxor_width; [lia|apply Z.mod_pos_bound; lia|]. unfold in_width. rewrite shiftr_div by lia.
  unfold wrapping_mul, wrap. set (y := _ mod _). assert (0 <= y < 2 ^ 128) by (apply Z.mod_pos_bound; lia).
  split; [apply Z.div_pos; lia|apply Z.div_lt_upper_bound; lia].
Qed.

Lemma mix_width s v : in_width 128 (mix_u128 s v).
Proof. apply Z.mod_pos_bound. lia. Qed.

Lemma mix_inj_value s v v' : in_width 128 v -> in_width 128 v' -> mix_u128 s v = mix_u128 s v' -> v = v'.
Proof.
  intros Hv Hv' Heq. apply (wrapping_mul_inj 128 _ MULTIPLIER_INVERSE) in Heq;
    [|lia|vm_compute; done|apply Z.mod_pos_bound; lia..].
  apply wrapping_add_inj_r in Heq; [by apply lxor_inj_l in Heq|apply lxor_width; try done; unfold in_width; lia..].
Qed.

Lemma mix_inj_state v s s' : in_width 128 s -> in_width 128 s' -> mix_u128 s v = mix_u128 s' v -> s = s'.
Proof.
  intros Hs Hs' Heq. apply (wrapping_mul_inj 128 _ MULTIPLIER_INVERSE) in Heq;
    [|lia|vm_compute; done|apply Z.mod_pos_bound; lia..].
  unfold wrapping_add in Heq. rewrite !(Z.add_comm (rotate_left _ _ _)) in Heq.
  apply wrapping_add_inj_r in Heq; [|apply rotate_left_width; lia || done..].
  by apply rotate_left_inj in Heq.
Qed.

Lemma to_of_slice n i bs : Forall byte bs -> (i + n <= length bs)%nat ->
  to_le_bytes n (of_le_bytes (slice i (i + n) bs)) = slice i (i + n) bs.
Proof.
  intros Hb Hl. rewrite <- (to_of_le_bytes (slice i (i + n) bs)) at 2 by (by apply slice_byte).
  rewrite slice_length by lia. by replace (i + n - i)%nat with n by lia.
Qed.

Lemma of_slice_bound n i bs : Forall byte bs -> (i + n <= length bs)%nat ->
  0 <= of_le_bytes (slice i (i + n) bs) < 2 ^ (8 * Z.of_nat n).
Proof.
  intros Hb Hl. pose proof (of_le_bytes_bound (slice i (i + n) bs) (slice_byte _ _ _ Hb)) as Hbd.
  rewrite slice_length in Hbd by lia. by replace (i + n - i)%nat with n in Hbd by lia.
Qed.

(** The checks a successful decode has passed. *)
Lemma decode_fields `{Target} bs d : decode bs = Ok d ->
  length bs = ENCODED_LEN /\ slice 0 8 bs = MAGIC /\ of_le_bytes (slice 8 10 bs) = VERSION /\
  slice 10 16 bs = replicate 6 0 /\
  fingerprint d = of_le_bytes (slice 16 32 bs) /\ size d = of_le_bytes (slice 32 40 bs) /\
  alignment d = of_le_bytes (slice 40 48 bs) /\
  size d <= usize_max /\ is_power_of_two (alignment d) = true /\ alignment d <= usize_max.
Proof.
  unfold decode. intros Hd.
  destruct (Nat.ltb_spec (length bs) ENCODED_LEN); [discriminate|].
  destruct (Nat.ltb_spec ENCODED_LEN (length bs)); [discriminate|].
  assert (Hl : length bs = ENCODED_LEN) by lia.
  destruct (bool_decide_reflect (slice MAGIC_START MAGIC_END bs = MAGIC)) as [Hm|]; [|discriminate]. cbn [negb] in Hd.
  destruct (Z.eqb_spec (of_le_bytes (slice VERSION_START VERSION_END bs)) VERSION) as [Hv|]; [|discriminate].
  cbn [negb] in Hd.
  destruct (first_nonzero _ _) as [[]|] eqn:Hr; [discriminate|]. apply first_nonzero_none in Hr.
  rewrite slice_length in Hr by (rewrite Hl; cbv; lia).
  destruct (Z.ltb_spec usize_max (of_le_bytes (slice SIZE_START SIZE_END bs))); [discriminate|].
  destruct (is_power_of_two _) eqn:Hp; [|discriminate]. cbn [negb orb] in Hd.
  destruct (Z.ltb_spec usize_max (of_le_bytes (slice ALIGNMENT_START ALIGNMENT_END bs))); [discriminate|].
  injection Hd as <-. cbn [fingerprint size alignment]. repeat split; done.
Qed.

Lemma decode_encode `{Target} d : describes_local d -> decode (encode d) = Ok d.
Proof.
  intros (Hf & Hs & Hp & Ha). pose proof usize_max_64.
  assert (0 <= alignment d) by (apply is_power_of_two_spec in Hp as (k & Hk & ->); lia).
  assert (Hsl : forall i n x (pre post : list Z), i = length pre ->
    slice i (i + n) (pre ++ to_le_bytes n x ++ post) = to_le_bytes n x).
  { intros i n x pre post ->. apply slice_app; [done|by rewrite to_le_bytes_length]. }
  assert (Hfs : slice 16 32 (encode d) = to_le_bytes 16 (fingerprint d)).
  { rewrite encode_bytes. apply (Hsl 16%nat 16%nat _ (MAGIC ++ to_le_bytes 2 VERSION ++ replicate 6 0)). done. }
  assert (Hss : slice 32 40 (encode d) = to_le_bytes 8 (size d)).
  { rewrite encode_bytes. apply (Hsl 32%nat 8%nat _ (MAGIC ++ to_le_bytes 2 VERSION ++ replicate 6 0 ++ to_le_bytes 16 (fingerprint d))). done. }
  assert (Has : slice 40 48 (encode d) = to_le_bytes 8 (alignment d)).
  { rewrite encode_bytes, <- (app_nil_r (to_le_bytes 8 (alignment d))) at 1.
    apply (Hsl 40%nat 8%nat _ (MAGIC ++ to_le_bytes 2 VERSION ++ replicate 6 0 ++ to_le_bytes 16 (fingerprint d) ++ to_le_bytes 8 (size d))). done. }
  unfold decode. cbn [FINGERPRINT_START FINGERPRINT_END SIZE_START SIZE_END ALIGNMENT_START ALIGNMENT_END].
  unfold FINGERPRINT_START, FINGERPRINT_END, SIZE_START, SIZE_END, ALIGNMENT_START, ALIGNMENT_END.
  rewrite Hfs, Hss, Has, !of_to_le_bytes by (cbn; lia).
  change (Nat.ltb (length (encode d)) ENCODED_LEN) with false.
  change (Nat.ltb ENCODED_LEN (length (encode d))) with false.
  change (slice MAGIC_START MAGIC_END (encode d)) with MAGIC.
  change (slice VERSION_START VERSION_END (encode d)) with (to_le_bytes 2 VERSION).
  change (slice RESERVED_START RESERVED_END (encode d)) with (replicate 6 0).
  rewrite bool_decide_true by done. cbn [negb]. change (of_le_bytes (to_le_bytes 2 VERSION) =? VERSION) with true.
  cbn [negb]. change (first_nonzero _ (replicate 6 0)) with (@None (Z * Z)).
  rewrite Hp, (proj2 (Z.ltb_ge usize_max (size d))), (proj2 (Z.ltb_ge usize_max (alignment d))) by lia.
  by destruct d.
Qed.

(** Conversion unfolds the derived mixers before these two. *)
#[global] Strategy 100 [mix_u128 finish mix_each].

Lemma mix_bytes_width s bs : in_width 128 (mix_bytes s bs).
Proof. unfold mix_bytes. apply mix_width. Qed.

Lemma mix_chain_inj st s a n e s' a' n' e' : in_width 128 st ->
  in_width 128 s -> in_width 128 a -> in_width 128 n -> in_width 128 e ->
  in_width 128 s' -> in_width 128 a' -> in_width 128 n' -> in_width 128 e' ->
  finish (mix_u128 (mix_usize (mix_usize (mix_usize st s) a) n) e) =
  finish (mix_u128 (mix_usize (mix_usize (mix_usize st s') a') n') e') ->
  (s = s' -> a = a' -> n = n' -> e = e') /\ (s = s' -> a = a' -> e = e' -> n = n') /\
  (s = s' -> n = n' -> e = e' -> a = a') /\ (a = a' -> n = n' -> e = e' -> s = s').
Proof.
  unfold mix_usize. intros Hst Hs Ha Hn He Hs' Ha' Hn' He' Heq.
  apply finish_inj in Heq; [|apply mix_width..].
  split; [|split; [|split]]; intros; subst.
  - by apply mix_inj_value in Heq.
  - apply mix_inj_state in Heq; [|apply mix_width..]. by apply mix_inj_value in Heq.
  - do 2 (apply mix_inj_state in Heq; [|apply mix_width..]). by apply mix_inj_value in Heq.
  - do 3 (apply mix_inj_state in Heq; [|apply mix_width..]). by apply mix_inj_value in Heq.
Qed.

(** ** Claims *)

(** C6.  The wire format is canonical: a byte string decodes to a descriptor
    exactly when it is the encoding of that descriptor and the descriptor can
    describe a type of this target (size and alignment fit [usize], alignment
    is a power of two).  So decoding undoes encoding, and no two byte strings
    decode to the same descriptor. *)
Theorem layout_wire_canonical `{Target} (bs : list Z) (d : LayoutDescriptor) :
  Forall byte bs -> (decode bs = Ok d <-> bs = encode d /\ describes_local d).
Proof.
  intros Hb. split; [|intros [-> Hd]; by apply decode_encode].
  intros (Hl & Hm & Hv & Hr & Hf & Hs & Ha & Hsz & Hp & Hal)%decode_fields. split.
  - rewrite encode_bytes, Hf, Hs, Ha, <- Hm, <- Hv, <- Hr.
    rewrite (to_of_slice 2 8), (to_of_slice 16 16), (to_of_slice 8 32), (to_of_slice 8 40)
      by (try done; rewrite Hl; cbv; lia).
    by apply encoded_split.
  - pose proof (of_slice_bound 16 16 bs Hb). pose proof (of_slice_bound 8 32 bs Hb).
    cbn [Nat.add] in *. rewrite Hl in *. unfold ENCODED_LEN, ALIGNMENT_END in *.
    unfold describes_local. rewrite Hf. repeat split; [lia..|done|done].
Qed.

Lemma layout_wire_canonical_witness :
  let d := {| fingerprint := 77; size := 24; alignment := 8 |} in
  decode (encode d) = Ok d /\ (decode (encode d) = Ok d <-> encode d = encode d /\ describes_local d).
Proof.
  intros d. split; [vm_compute; reflexivity|].
  apply (layout_wire_canonical (encode d) d). apply (bool_decide_unpack _). vm_compute. exact I.
Defined.

Lemma validate_ok `{PodType} d : validate d = Ok tt -> d = layout_of.
Proof.
  unfold validate. destruct d as [f s a], H as [cf cs ca]. cbn.
  destruct (Z.eqb_spec f cf) as [->|]; [|done]. destruct (Z.eqb_spec s cs) as [->|]; [|done].
  destruct (Z.eqb_spec a ca) as [->|]; done.
Qed.

(** A consumer that decodes the descriptor a producer encoded for its own
    type and validates it against the consumer's type accepts it exactly when
    fingerprint, size and alignment agree, and otherwise names the first
    differing field in wire order. *)
Theorem layout_handshake `{Target} (producer consumer : PodType) :
  describes_local (layout_of (H := producer)) ->
  let received := let? d := map_err inl (decode (encode (layout_of (H := producer)))) in
                  map_err inr (validate (H := consumer) d) in
  received = Ok tt /\ layout_of (H := producer) = layout_of (H := consumer) \/
  exists f, received = Err (inr {| field := f; expected := layout_of (H := consumer); found := layout_of (H := producer) |}) /\
    match f with
    | Fingerprint => FINGERPRINT (PodType := producer) <> FINGERPRINT (PodType := consumer)
    | Size => FINGERPRINT (PodType := producer) = FINGERPRINT (PodType := consumer) /\
              size_of (PodType := producer) <> size_of (PodType := consumer)
    | Alignment => FINGERPRINT (PodType := producer) = FINGERPRINT (PodType := consumer) /\
              size_of (PodType := producer) = size_of (PodType := consumer) /\
              align_of (PodType := producer) <> align_of (PodType := consumer)
    end.
Proof.
  intros Hl received. subst received. rewrite decode_encode by done. cbn [map_err result_bind].
  destruct producer as [pf ps pa], consumer as [cf cs ca]. unfold validate, layout_of. cbn.
  destruct (Z.eqb_spec pf cf) as [->|]; cbn; [|right; by exists Fingerprint].
  destruct (Z.eqb_spec ps cs) as [->|]; cbn; [|right; by exists Size].
  destruct (Z.eqb_spec pa ca) as [->|]; cbn; [by left|right; by exists Alignment].
Qed.

Lemma layout_handshake_witness :
  exists f, validate (H := {| FINGERPRINT := 5; size_of := 16; align_of := 8 |})
     (layout_of (H := {| FINGERPRINT := 5; size_of := 24; align_of := 8 |})) =
     Err {| field := f; expected := {| fingerprint := 5; size := 16; alignment := 8 |};
            found := {| fingerprint := 5; size := 24; alignment := 8 |} |} /\ f = Size.
Proof.
  destruct (layout_handshake {| FINGERPRINT := 5; size_of := 24; align_of := 8 |}
    {| FINGERPRINT := 5; size_of := 16; align_of := 8 |}) as [[_ Heq]|(f & Hf & _)].
  - vm_compute. repeat split; discriminate.
  - discriminate Heq.
  - exists f. vm_compute in Hf. injection Hf as <-. split; reflexivity.
Defined.

(** Array fingerprints inherit distinctness: two array types of the same
    size, alignment and length have equal fingerprints only when their element
    fingerprints are equal, and changing exactly one of size, alignment or
    length always changes the fingerprint. *)
Theorem array_fingerprint_injective (s a n e s' a' n' e' : Z) :
  in_width 128 s -> in_width 128 a -> in_width 128 n -> in_width 128 e ->
  in_width 128 s' -> in_width 128 a' -> in_width 128 n' -> in_width 128 e' ->
  array_fingerprint s a n e = array_fingerprint s' a' n' e' ->
  (s = s' -> a = a' -> n = n' -> e = e') /\ (s = s' -> a = a' -> e = e' -> n = n') /\
  (s = s' -> n = n' -> e = e' -> a = a') /\ (a = a' -> n = n' -> e = e' -> s = s').
Proof.
  intros Hs Ha Hn He Hs' Ha' Hn' He' Heq.
  exact (mix_chain_inj _ s a n e s' a' n' e' (mix_bytes_width _ _) Hs Ha Hn He Hs' Ha' Hn' He' Heq).
Qed.

Lemma array_fingerprint_injective_witness :
  array_fingerprint 16 8 2 7 <> array_fingerprint 16 8 2 9.
Proof.
  intros Heq. apply (array_fingerprint_injective 16 8 2 7 16 8 2 9) in Heq;
    [|split; vm_compute; congruence..].
  destruct Heq as [He _]. discriminate (He eq_refl eq_refl eq_refl).
Defined.
