(* ===== verification/Offset.v ===== *)
(** Relative offsets and region resolution: [shmem_exec_obj/v2/src/offset.rs].
    An [Offset<T>] is its stored [u64]; a [PodRegion] is the numeric base address
    and length of a mapping.  Addresses are the target's [usize].  A resolution
    that would panic in an [expect] is [None]. *)

From S2P Require Import Prelude Layout.

Definition NULL_OFFSET : Z := u64_max.

Record Offset := { raw : Z }.
#[export] Instance Offset_eq_dec : EqDecision Offset.
Proof. solve_decision. Defined.

Definition offset_from_raw (r : Z) : Offset := {| raw := r |}.
Definition offset_to_raw (o : Offset) : Z := raw o.
Definition offset_new (bytes : Z) : option Offset :=
  if bytes =? NULL_OFFSET then None else Some (offset_from_raw bytes).
Definition offset_null : Offset := offset_from_raw NULL_OFFSET.
Definition offset_is_null (o : Offset) : bool := raw o =? NULL_OFFSET.
Definition offset_cast (o : Offset) : Offset := offset_from_raw (raw o).

Record OffsetSlice := { offset : Offset; len : Z }.
#[export] Instance OffsetSlice_eq_dec : EqDecision OffsetSlice.
Proof. solve_decision. Defined.

Definition slice_new (o : Offset) (len : Z) : option OffsetSlice :=
  if offset_is_null o then None else Some {| offset := o; len := len |}.
Definition slice_null : OffsetSlice := {| offset := offset_null; len := 0 |}.
Definition slice_from_raw (o len : Z) : OffsetSlice := {| offset := offset_from_raw o; len := len |}.
Definition slice_is_null (s : OffsetSlice) : bool := offset_is_null (offset s).
Definition slice_is_empty (s : OffsetSlice) : bool := len s =? 0.
Definition slice_to_raw (s : OffsetSlice) : Z * Z := (offset_to_raw (offset s), len s).

Inductive ResolveError :=
| NullRegion
| RegionTooLarge
| AddressOverflow
| OffsetTooLarge
| ExtentOverflow
| LengthOverflow
| NullWithNonzeroLength
| Misaligned (address required : Z)
| OutOfBounds (offset byte_len region_len : Z).

Record PodRegion := { base : Z; region_len : Z }.

(** A computation that may panic: [None] is the panic. *)
Definition panicking (A E : Type) : Type := option (result A E).

Section resolve.
Context `{Target}.

Definition from_raw_parts (base len : Z) : result PodRegion ResolveError :=
  reject base =? 0 with NullRegion ;;
  reject isize_max <? len with RegionTooLarge ;;
  let? _ := ok_or (checked_add usize_bits base len) AddressOverflow in
  Ok {| base := base; region_len := len |}.

(** [NonNull::new(address).expect(..)] *)
Definition non_null_expect (address : Z) : panicking (option Z) ResolveError :=
  if address =? 0 then None else Some (Ok (Some address)).

Definition address (r : PodRegion) (raw_offset byte_len alignment : Z) :
    panicking (option Z) ResolveError :=
  if raw_offset =? NULL_OFFSET then Some (Ok None)
  else match usize_try_from raw_offset with
  | None => Some (Err OffsetTooLarge)
  | Some offset =>
      match checked_add usize_bits offset byte_len with
      | None => Some (Err ExtentOverflow)
      | Some end_ =>
          if region_len r <? end_ then Some (Err (OutOfBounds raw_offset byte_len (region_len r)))
          else
            let address := base r + offset in
            if alignment =? 0 then None (* remainder by zero *)
            else if negb (address mod alignment =? 0) then Some (Err (Misaligned address alignment))
            else non_null_expect address
      end
  end.

Context `{PodType}.

Definition get (r : PodRegion) (o : Offset) : panicking (option Z) ResolveError :=
  address r (offset_to_raw o) size_of align_of.

(** The resolved slice is its address and its element count. *)
Definition get_slice (r : PodRegion) (s : OffsetSlice) : panicking (option (Z * Z)) ResolveError :=
  if offset_is_null (offset s) then
    Some (if len s =? 0 then Ok None else Err NullWithNonzeroLength)
  else match usize_try_from (len s) with
  | None => Some (Err LengthOverflow)
  | Some len =>
      if isize_max <? len then Some (Err LengthOverflow)
      else match checked_mul usize_bits size_of len with
      | None => Some (Err LengthOverflow)
      | Some bytes =>
          if isize_max <? bytes then Some (Err LengthOverflow)
          else match address r (offset_to_raw (offset s)) bytes align_of with
          | Some (Ok (Some address)) => Some (Ok (Some (address, len)))
          | Some (Ok None) => None (* expect("non-null offset was checked above") *)
          | Some (Err e) => Some (Err e)
          | None => None
          end
      end
  end.

(** [get_mut] and [get_slice_mut] perform the same checks. *)
Definition get_mut := get.
Definition get_slice_mut := get_slice.
End resolve.

(** ** Fingerprints.  The compiler's layout of the two descriptor structs and of
    [u64] are arguments. *)

Definition offset_fingerprint (size align u64_fingerprint : Z) (raw marker : FieldLayout) (element : Z) : Z :=
  let state := mix_bytes FINGERPRINT_SEED (b_str "shmem-pod-relative-offset-v1") in
  let state := mix_usize state size in
  let state := mix_usize state align in
  let state := mix_field state (b_str "raw") raw u64_fingerprint in
  finish (mix_field state (b_str "marker") marker element).

Definition slice_fingerprint (size align u64_fingerprint : Z) (offset len : FieldLayout) (offset_fp : Z) : Z :=
  let state := mix_bytes FINGERPRINT_SEED (b_str "shmem-pod-relative-slice-v1") in
  let state := mix_usize state size in
  let state := mix_usize state align in
  let state := mix_field state (b_str "offset") offset offset_fp in
  finish (mix_field state (b_str "len") len u64_fingerprint).

(** ** Lemmas *)

Section facts.
Context `{Target}.

(** A region as [from_raw_parts] accepts it. *)
Definition region_ok (r : PodRegion) : Prop :=
  0 < base r /\ 0 <= region_len r <= isize_max /\ base r + region_len r <= usize_max.

(** What Rust guarantees of the layout of every type. *)
Definition pod_layout_ok (t : PodType) : Prop :=
  0 <= size_of (PodType := t) <= isize_max /\ 0 < align_of (PodType := t) /\
  size_of (PodType := t) mod align_of (PodType := t) = 0.

Lemma isize_usize : 0 < isize_max < usize_max.
Proof. unfold isize_max, usize_max. destruct usize_bits_ok as [->| ->]; lia. Qed.

Lemma from_raw_parts_ok b l r : in_width usize_bits b -> in_width usize_bits l ->
  from_raw_parts b l = Ok r <-> r = {| base := b; region_len := l |} /\ region_ok r.
Proof.
  unfold from_raw_parts, region_ok, in_width, usize_max. intros Hb Hl. split.
  - intros Hf. ok_inv Hf. apply ok_or_ok, checked_add_some in Hbind as [-> Hs]. injection Hf as <-.
    cbn. zb_case; try discriminate. split; [done|lia].
  - intros [-> (? & ? & ?)]. cbn in *. destruct (Z.eqb_spec b 0); [lia|].
    destruct (Z.ltb_spec isize_max l); [lia|]. unfold checked_add.
    destruct (Z.ltb_spec (b + l) (2 ^ usize_bits)); [done|lia].
Qed.

(** [address] on a valid region: it never panics, and its success is exactly
    containment and alignment. *)
Lemma address_spec r o n al : region_ok r -> 0 <= o -> 0 <= n -> 0 < al ->
  match address r o n al with
  | Some (Ok None) => o = NULL_OFFSET
  | Some (Ok (Some a)) => o <> NULL_OFFSET /\ a = base r + o /\ o + n <= region_len r /\ a mod al = 0
  | Some (Err (OutOfBounds o' n' l')) =>
      o <> NULL_OFFSET /\ o' = o /\ n' = n /\ l' = region_len r /\ region_len r < o + n
  | Some (Err (Misaligned a al')) =>
      o <> NULL_OFFSET /\ o + n <= region_len r /\ a = base r + o /\ al' = al /\ a mod al <> 0
  | Some (Err OffsetTooLarge) => o <> NULL_OFFSET /\ usize_max < o
  | Some (Err ExtentOverflow) => o <> NULL_OFFSET /\ usize_max < o + n
  | Some (Err _) => False
  | None => False
  end.
Proof.
  intros (Hb & Hl & Hend) Ho Hn Hal. unfold address, usize_try_from, non_null_expect, checked_add.
  destruct (Z.eqb_spec o NULL_OFFSET); [done|].
  destruct (Z.leb_spec o usize_max); [|done].
  destruct (Z.ltb_spec (o + n) (2 ^ usize_bits)); [|unfold usize_max; split; [done|lia]].
  destruct (Z.ltb_spec (region_len r) (o + n)); [done|].
  destruct (Z.eqb_spec al 0); [lia|].
  destruct (Z.eqb_spec ((base r + o) mod al) 0); cbn [negb]; [|done].
  destruct (Z.eqb_spec (base r + o) 0); [lia|]. done.
Qed.

Lemma address_some r o n al a : region_ok r -> 0 <= o -> 0 <= n -> 0 < al ->
  address r o n al = Some (Ok (Some a)) <->
  o <> NULL_OFFSET /\ a = base r + o /\ o + n <= region_len r /\ a mod al = 0.
Proof.
  intros Hr Ho Hn Hal. pose proof (address_spec r o n al Hr Ho Hn Hal) as Hs.
  destruct Hr as (Hb & Hl & Hend). pose proof isize_usize. split.
  - intros Ha. by rewrite Ha in Hs.
  - intros (Hne & -> & Hin & Hmod).
    destruct (address r o n al) as [[[a|]|e]|]; [by destruct Hs as (_ & -> & _)|done|destruct e; destruct_and?; subst; lia || congruence|done].
Qed.
End facts.

(** ** Claims *)

Section claims.
Context `{Target}.

(** C7.  Resolving a typed offset in an accepted region never panics, and it
    yields an address exactly when the offset is not null, the whole value lies
    inside the mapping and the address is aligned for the type; the address is
    then the mapping base plus the displacement.  Null resolves to [None]. *)
Theorem region_get_exact (t : PodType) (b l : Z) (r : PodRegion) (o : Offset) :
  in_width usize_bits b -> in_width usize_bits l -> from_raw_parts b l = Ok r ->
  pod_layout_ok t -> in_width 64 (raw o) ->
  get r o <> None /\ (get r o = Some (Ok None) <-> o = offset_null) /\
  forall a, get r o = Some (Ok (Some a)) <->
    o <> offset_null /\ a = b + raw o /\ raw o + size_of <= l /\ a mod align_of = 0.
Proof.
  intros Hb Hl [-> Hr]%from_raw_parts_ok (Hs & Ha & _) [Ho _]; [|done..]. unfold get, offset_to_raw.
  pose proof (address_spec _ (raw o) size_of align_of Hr Ho (proj1 Hs) Ha) as Hspec.
  assert (Hnull : o = offset_null <-> raw o = NULL_OFFSET).
  { destruct o as [x]. unfold offset_null, offset_from_raw. cbn. split; [by intros [= ->]|by intros ->]. }
  split; [|split].
  - by intros E; rewrite E in Hspec.
  - rewrite Hnull. split; [by intros E; rewrite E in Hspec|].
    intros E. unfold address. by rewrite E, Z.eqb_refl.
  - intros a. rewrite address_some by (done || lia). rewrite Hnull. done.
Qed.

(** Position independence: when the same shared bytes are mapped at two
    bases that agree modulo the alignment, an offset resolves in one mapping
    exactly when it resolves in the other, to the same displacement. *)
Theorem region_position_independent (t : PodType) (r1 r2 : PodRegion) (o : Offset) (a : Z) :
  region_ok r1 -> region_ok r2 -> region_len r1 = region_len r2 -> pod_layout_ok t ->
  base r1 mod align_of = base r2 mod align_of -> in_width 64 (raw o) ->
  get r1 o = Some (Ok (Some (base r1 + a))) <-> get r2 o = Some (Ok (Some (base r2 + a))).
Proof.
  intros H1 H2 Hlen (Hs & Ha & _) Hmod [Ho _]. unfold get, offset_to_raw.
  rewrite !address_some by (done || lia). rewrite Hlen.
  assert (Heq : (base r1 + raw o) mod align_of = (base r2 + raw o) mod align_of)
    by (rewrite <- (Zplus_mod_idemp_l (base r1)), <- (Zplus_mod_idemp_l (base r2)); by rewrite Hmod).
  split; intros (Hn & Hx & Hle & Hal); replace a with (raw o) in * by lia; rewrite Heq in * || rewrite <- Heq in *; done.
Qed.

(** A slice that resolves is made of elements that resolve: it never
    panics, its address and count are the recorded ones, and element [i] is what
    [get] returns for the offset of element [i]. *)
Theorem region_slice_elements (t : PodType) (r : PodRegion) (s : OffsetSlice) :
  region_ok r -> pod_layout_ok t -> in_width 64 (raw (offset s)) -> in_width 64 (len s) ->
  get_slice r s <> None /\
  forall a n, get_slice r s = Some (Ok (Some (a, n))) ->
    n = len s /\ a = base r + raw (offset s) /\ a + n * size_of <= base r + region_len r /\
    forall i, 0 <= i < n ->
      get r (offset_from_raw (raw (offset s) + i * size_of)) = Some (Ok (Some (a + i * size_of))).
Proof.
  intros Hr (Hs & Ha & Hsz) [Ho _] [Hlen _]. unfold get_slice, get, offset_to_raw, offset_is_null.
  destruct (Z.eqb_spec (raw (offset s)) NULL_OFFSET) as [|Hnn]; [destruct (len s =? 0); split; done|].
  unfold usize_try_from. destruct (Z.leb_spec (len s) usize_max); [|done].
  destruct (Z.ltb_spec isize_max (len s)); [done|].
  destruct (checked_mul _ _ _) as [bytes|] eqn:Hmul; [|done]. apply checked_mul_some in Hmul as [-> Hmul].
  destruct (Z.ltb_spec isize_max (size_of * len s)); [done|].
  assert (Hbytes : 0 <= size_of * len s) by nia.
  pose proof (address_spec r (raw (offset s)) _ align_of Hr Ho Hbytes Ha) as Hspec.
  destruct (address r _ _ _) as [[[a'|]|e]|]; [|done..]. split; [done|].
  intros a n [= <- <-]. destruct Hspec as (_ & -> & Hin & Hmod). split; [done|]. split; [done|]. split; [lia|].
  intros i Hi. assert (Hi' : 0 <= i * size_of) by nia. assert (i * size_of + size_of <= size_of * len s) by nia.
  cbn [offset_from_raw raw]. destruct Hr as (Hb & Hl & Hend). pose proof isize_usize.
  rewrite address_some by (done || lia). split.
  - unfold NULL_OFFSET, u64_max. pose proof usize_max_64. assert (size_of = 0 \/ 0 < size_of) as [E|E] by lia; [|lia].
    rewrite E in *. rewrite Z.mul_0_r in *. unfold NULL_OFFSET, u64_max in Hnn. lia.
  - split; [lia|]. split; [lia|]. rewrite <- (Z.add_mod_idemp_r _ (i * size_of)) by lia.
    rewrite <- Z.mul_mod_idemp_r, Hsz, Z.mul_0_r, Z.mod_0_l, Z.add_0_r by lia. done.
Qed.
End claims.

Definition u32_type : PodType := {| FINGERPRINT := 1; size_of := 4; align_of := 4 |}.

Lemma region_get_exact_witness :
  get (H0 := u32_type) {| base := 4096; region_len := 64 |} {| raw := 60 |} = Some (Ok (Some 4156)) /\
  get (H0 := u32_type) {| base := 4096; region_len := 64 |} {| raw := 61 |} = Some (Err (OutOfBounds 61 4 64)).
Proof.
  split; [|reflexivity].
  destruct (region_get_exact u32_type 4096 64 {| base := 4096; region_len := 64 |} {| raw := 60 |})
    as (_ & _ & Hg); [vm_compute; repeat split; congruence..| |vm_compute; repeat split; congruence|].
  - vm_compute. repeat split; congruence.
  - apply Hg. vm_compute. repeat split; congruence.
Defined.

Lemma region_position_independent_witness :
  get (H0 := u32_type) {| base := 8192; region_len := 64 |} {| raw := 60 |} = Some (Ok (Some 8252)).
Proof.
  apply (region_position_independent u32_type {| base := 4096; region_len := 64 |}
    {| base := 8192; region_len := 64 |} {| raw := 60 |} 60);
    vm_compute; repeat split; congruence.
Defined.

Lemma region_slice_elements_witness :
  get (H0 := u32_type) {| base := 4096; region_len := 64 |} {| raw := 40 |} = Some (Ok (Some 4136)).
Proof.
  destruct (region_slice_elements u32_type {| base := 4096; region_len := 64 |} (slice_from_raw 32 8))
    as (_ & Hs); [vm_compute; repeat split; congruence..|].
  destruct (Hs 4128 8) as (_ & _ & _ & Hi); [reflexivity|].
  apply (Hi 2). vm_compute. split; congruence.
Defined.
