(* ===== verification/Mapping.v ===== *)
(** The typed lifecycle of one shared mapping:
    [shmem_exec_obj/v2/src/mapping.rs].

    The mapping header is a set of shared cells (the lifecycle word, the
    geometry, the identities); [Payload off] stands for the payload bytes at
    displacement [off].  A handle ([Mapping]) carries the base address and the
    length of the mapping in one process, so that two processes may map the same
    cells at different bases.  Destructors ([Drop]) are programs of their own. *)

From S2P Require Import Prelude Conc Layout.

(** [*b"SHMPODM\0"] *)
Definition MAGIC : list Z := b_str "SHMPODM" ++ [0].
Definition VERSION : Z := 1.

Definition ATTACHMENT_BITS : Z := 28.
Definition ACTIVE_BITS : Z := 28.
Definition ATTACHMENT_MASK : Z := Z.shiftl 1 ATTACHMENT_BITS - 1.
Definition ACTIVE_SHIFT : Z := ATTACHMENT_BITS.
Definition ACTIVE_MASK : Z := Z.shiftl (Z.shiftl 1 ACTIVE_BITS - 1) ACTIVE_SHIFT.
Definition PHASE_SHIFT : Z := ATTACHMENT_BITS + ACTIVE_BITS.
Definition ATTACHMENT_ONE : Z := 1.
Definition ACTIVE_ONE : Z := Z.shiftl 1 ACTIVE_SHIFT.
Definition MAX_COUNT : Z := Z.shiftl 1 ATTACHMENT_BITS - 1.

Inductive Phase := Uninitialized | Initializing | Open | Draining | Closed | Poisoned.
#[export] Instance Phase_eq_dec : EqDecision Phase.
Proof. solve_decision. Defined.

(** [phase as u64] *)
Definition phase_raw (p : Phase) : Z :=
  match p with
  | Uninitialized => 0 | Initializing => 1 | Open => 2
  | Draining => 3 | Closed => 4 | Poisoned => 5
  end.

Definition phase_from_raw (raw : Z) : option Phase :=
  match raw with
  | 0 => Some Uninitialized
  | 1 => Some Initializing
  | 2 => Some Open
  | 3 => Some Draining
  | 4 => Some Closed
  | 5 => Some Poisoned
  | _ => None
  end.

Record LifecycleSnapshot := { phase : Phase; attachments : Z; admissions : Z }.

Inductive MappingError :=
| NullMapping
| MappingTooLarge
| AddressOverflow
| MappingTooSmall (required actual : Z)
| MisalignedMapping (required address : Z)
| BadMagic (found : list Z)
| UnsupportedVersion (found : Z)
| HeaderLength (expected found : Z)
| MappingLength (expected found : Z)
| BuildIdentity
| InstanceIdentity
| CorruptLifecycle (raw : Z)
| WrongPhase (expected actual : Phase)
| GeometryOverflow
| PayloadExtent (offset length mapping_length : Z)
| MisalignedPayload (required address : Z)
| PayloadLength (expected found : Z)
| LayoutEncoding (e : DecodeError)
| LayoutMismatchError (e : LayoutMismatch)
| AttachmentLimit
| AdmissionLimit
| NotDrained.

Definition pack (phase : Phase) (attachments admissions : Z) : Z :=
  Z.lor (Z.lor (Z.shiftl (phase_raw phase) PHASE_SHIFT) (Z.shiftl admissions ACTIVE_SHIFT)) attachments.

Definition with_phase (value : Z) (phase : Phase) : Z :=
  Z.lor (Z.land value (Z.shiftl 1 PHASE_SHIFT - 1)) (Z.shiftl (phase_raw phase) PHASE_SHIFT).

Definition decode (value : Z) : result LifecycleSnapshot MappingError :=
  let raw_phase := wrap 8 (Z.shiftr value PHASE_SHIFT) in
  let? phase := ok_or (phase_from_raw raw_phase) (CorruptLifecycle value) in
  Ok {| phase := phase;
        attachments := wrap 32 (Z.land value ATTACHMENT_MASK);
        admissions := wrap 32 (Z.shiftr (Z.land value ACTIVE_MASK) ACTIVE_SHIFT) |}.

Definition wrong_phase (expected : Phase) (actual : Z) : MappingError :=
  match decode actual with
  | Ok snapshot => WrongPhase expected (phase snapshot)
  | Err error => error
  end.

(** The cells of a mapping: the fields of [MappingHeader] and its [Geometry],
    byte arrays byte by byte, and the payload. *)
Inductive mcell :=
| HMagic (i : nat) | HVersion | HHeaderLen | HMappingLen
| HBuild (i : nat) | HInstance (i : nat)
| GPayloadOffset | GPayloadLen | GDescriptor (i : nat)
| Lifecycle
| Payload (off : Z).
#[export] Instance mcell_eq_dec : EqDecision mcell.
Proof. solve_decision. Defined.

(** [size_of] and [align_of] of the [repr(C, align(64))] header. *)
Definition HEADER_SIZE : Z := 192.
Definition HEADER_ALIGN : Z := 64.

Record Mapping := { base : Z; len : Z }.
Record Attachment := { mapping : Mapping; payload : Z }.
Record ClosedMapping := { closed_base : Z; closed_len : Z }.

Definition bytes_at (cell : nat -> mcell) (n : nat) : list mcell := map cell (seq 0 n).

Section Operations.
Context `{Target}.
Variable fuel : nat.
#[local] Abbreviation prog := (prog mcell).

(** ** [RawMapping] *)

(** The modelled [RawMapping] is its checked base and length. *)
Definition raw_from_raw_parts (base len : Z) : result Mapping MappingError :=
  reject base =? 0 with NullMapping ;;
  reject isize_max <? len with MappingTooLarge ;;
  let? _ := ok_or (checked_add usize_bits base len) AddressOverflow in
  reject negb (base mod HEADER_ALIGN =? 0) with MisalignedMapping HEADER_ALIGN base ;;
  reject len <? HEADER_SIZE with MappingTooSmall HEADER_SIZE len ;;
  Ok {| base := base; len := len |}.

Definition prepare (raw : Mapping) (build_identity instance_identity : list Z) : prog Mapping :=
  do! store_all (combine (bytes_at HMagic 8) MAGIC) ;;
  do! store HVersion VERSION ;;
  do! store HHeaderLen HEADER_SIZE ;;
  do! store HMappingLen (len raw) ;;
  do! store_all (combine (bytes_at HBuild 32) build_identity) ;;
  do! store_all (combine (bytes_at HInstance 16) instance_identity) ;;
  do! store GPayloadOffset 0 ;;
  do! store GPayloadLen 0 ;;
  do! store_all (combine (bytes_at GDescriptor ENCODED_LEN) (replicate ENCODED_LEN 0)) ;;
  do! store Lifecycle (pack Uninitialized 0 0) ;;
  Ret raw.

Definition validate_header (self : Mapping) (expected_build expected_instance : list Z) :
    prog (result unit MappingError) :=
  let! magic := load_all (bytes_at HMagic 8) in
  if negb (bool_decide (magic = MAGIC)) then Ret (Err (BadMagic magic))
  else
  let! version := load HVersion in
  if negb (version =? VERSION) then Ret (Err (UnsupportedVersion version))
  else
  let! header_len := load HHeaderLen in
  if negb (header_len =? HEADER_SIZE) then Ret (Err (HeaderLength HEADER_SIZE header_len))
  else
  let! mapping_len := load HMappingLen in
  if negb (mapping_len =? len self) then Ret (Err (MappingLength (len self) mapping_len))
  else
  let! build_identity := load_all (bytes_at HBuild 32) in
  if negb (bool_decide (build_identity = expected_build)) then Ret (Err BuildIdentity)
  else
  let! instance_identity := load_all (bytes_at HInstance 16) in
  if negb (bool_decide (instance_identity = expected_instance)) then Ret (Err InstanceIdentity)
  else
  let! word := load Lifecycle in
  Ret (let? _ := decode word in Ok tt).

Definition open_existing (raw : Mapping) (expected_build expected_instance : list Z) :
    prog (result Mapping MappingError) :=
  do!? validate_header raw expected_build expected_instance ;;
  Ret (Ok raw).

(** ** The shared lifecycle word *)

Definition snapshot : prog (result LifecycleSnapshot MappingError) :=
  let! word := load Lifecycle in Ret (decode word).

Definition transition_to_draining_body (current : Z) : prog (Z + result unit MappingError) :=
  match decode current with
  | Err e => Ret (inr (Err e))
  | Ok snapshot =>
      if negb (bool_decide (phase snapshot = Open)) then
        Ret (inr (Err (WrongPhase Open (phase snapshot))))
      else
        let! x := compare_exchange_weak Lifecycle current (with_phase current Draining) in
        match x with Ok _ => Ret (inr (Ok tt)) | Err actual => Ret (inl actual) end
  end.
Definition transition_to_draining : prog (result unit MappingError) :=
  let! current := load Lifecycle in loop fuel transition_to_draining_body current.

Definition poison_header_body (current : Z) : prog (Z + result unit MappingError) :=
  match decode current with
  | Err e => Ret (inr (Err e))
  | Ok snapshot =>
      if bool_decide (phase snapshot = Poisoned) then Ret (inr (Ok tt))
      else if bool_decide (phase snapshot = Closed) then Ret (inr (Err (WrongPhase Open Closed)))
      else
        let! x := compare_exchange_weak Lifecycle current (with_phase current Poisoned) in
        match x with Ok _ => Ret (inr (Ok tt)) | Err actual => Ret (inl actual) end
  end.
Definition poison_header : prog (result unit MappingError) :=
  let! current := load Lifecycle in loop fuel poison_header_body current.

(** [Mapping::poison] *)
Definition poison : prog (result unit MappingError) := poison_header.

(** [Drop for InitializationPoison] while armed *)
Definition initialization_poison_drop : prog unit := store Lifecycle (pack Poisoned 0 0).

(** ** Typed operations; [T] is a [PodType] *)

Context `{PodType}.

Definition checked_payload (self : Mapping) (raw_offset : Z) : result Z MappingError :=
  let? offset := ok_or (usize_try_from raw_offset) GeometryOverflow in
  let? end_ := ok_or (checked_add usize_bits offset size_of) GeometryOverflow in
  reject (offset <? HEADER_SIZE) || (len self <? end_)
    with PayloadExtent raw_offset size_of (len self) ;;
  let pointer := base self + offset in
  reject negb (pointer mod align_of =? 0) with MisalignedPayload align_of pointer ;;
  Ok pointer.

Definition payload_for (self : Mapping) : result Z MappingError :=
  let alignment := align_of in
  let? sum := ok_or (checked_add usize_bits HEADER_SIZE (alignment - 1)) GeometryOverflow in
  let offset := Z.land sum (not_bits usize_bits (alignment - 1)) in
  checked_payload self offset.

Definition validate_payload (self : Mapping) : prog (result Z MappingError) :=
  let!? snapshot := snapshot in
  if negb (bool_decide (phase snapshot = Open)) then Ret (Err (WrongPhase Open (phase snapshot)))
  else
  let! payload_offset := load GPayloadOffset in
  let! payload_len := load GPayloadLen in
  let! descriptor := load_all (bytes_at GDescriptor ENCODED_LEN) in
  Ret (let? descriptor := map_err LayoutEncoding (Layout.decode descriptor) in
       let? _ := map_err LayoutMismatchError (validate descriptor) in
       reject negb (payload_len =? size_of) with PayloadLength size_of payload_len ;;
       checked_payload self payload_offset).

(** The closure writes through its pointer, given as a displacement into the
    mapping; [Unwound] when it panics. *)
Definition try_initialize_in_place (self : Mapping) (initialize : Z -> prog (unwind unit)) :
    prog (unwind (result Attachment MappingError)) :=
  match payload_for self with
  | Err e => Ret (Returned (Err e))
  | Ok payload =>
      let! x := compare_exchange Lifecycle (pack Uninitialized 0 0) (pack Initializing 0 0) in
      match x with
      | Err actual => Ret (Returned (Err (wrong_phase Uninitialized actual)))
      | Ok _ =>
          do! store GPayloadOffset (payload - base self) ;;
          do! store GPayloadLen size_of ;;
          do! store_all (combine (bytes_at GDescriptor ENCODED_LEN) (encode layout_of)) ;;
          let! u := initialize (payload - base self) in
          match u with
          | Unwound => do! initialization_poison_drop ;; Ret Unwound
          | Returned _ =>
              let! y := compare_exchange Lifecycle (pack Initializing 0 0) (pack Open 1 0) in
              match y with
              | Err actual =>
                  do! initialization_poison_drop ;;
                  Ret (Returned (Err (wrong_phase Initializing actual)))
              | Ok _ => Ret (Returned (Ok {| mapping := self; payload := payload |}))
              end
          end
      end
  end.

(** [target.write(value)] is one store here: nothing reads the payload before
    it is published. *)
Definition try_initialize (self : Mapping) (value : Z) :
    prog (unwind (result Attachment MappingError)) :=
  try_initialize_in_place self (fun target => do! store (Payload target) value ;; Ret (Returned tt)).

Definition attach_body (self : Mapping) (payload : Z) (current : Z) :
    prog (Z + result Attachment MappingError) :=
  match decode current with
  | Err e => Ret (inr (Err e))
  | Ok snapshot =>
      if negb (bool_decide (phase snapshot = Open)) then
        Ret (inr (Err (WrongPhase Open (phase snapshot))))
      else if attachments snapshot =? MAX_COUNT then Ret (inr (Err AttachmentLimit))
      else
        let! x := compare_exchange_weak Lifecycle current (current + ATTACHMENT_ONE) in
        match x with
        | Ok _ => Ret (inr (Ok {| mapping := self; payload := payload |}))
        | Err actual => Ret (inl actual)
        end
  end.
Definition attach (self : Mapping) : prog (result Attachment MappingError) :=
  let!? payload := validate_payload self in
  let! current := load Lifecycle in
  loop fuel (attach_body self payload) current.

(** ** Guards *)

(** [Attachment::try_enter]: the [AdmissionGuard] borrows the attachment. *)
Definition try_enter_body (current : Z) : prog (Z + result unit MappingError) :=
  match decode current with
  | Err e => Ret (inr (Err e))
  | Ok snapshot =>
      if negb (bool_decide (phase snapshot = Open)) then
        Ret (inr (Err (WrongPhase Open (phase snapshot))))
      else if admissions snapshot =? MAX_COUNT then Ret (inr (Err AdmissionLimit))
      else
        let! x := compare_exchange_weak Lifecycle current (current + ACTIVE_ONE) in
        match x with Ok _ => Ret (inr (Ok tt)) | Err actual => Ret (inl actual) end
  end.
Definition try_enter (self : Attachment) : prog (result unit MappingError) :=
  let! current := load Lifecycle in loop fuel try_enter_body current.

(** [Deref for AdmissionGuard], reading the payload. *)
Definition guard_deref (self : Attachment) : prog Z :=
  load (Payload (payload self - base (mapping self))).

(** [Drop for AdmissionGuard]; the [debug_assert_ne!] panics on underflow. *)
Definition guard_drop : prog unit :=
  let! previous := fetch_sub 64 Lifecycle ACTIVE_ONE in
  if Z.land previous ACTIVE_MASK =? 0 then Panic else Ret tt.

(** [Drop for Attachment] *)
Definition attachment_drop : prog unit :=
  let! previous := fetch_sub 64 Lifecycle ATTACHMENT_ONE in
  if Z.land previous ATTACHMENT_MASK =? 0 then Panic else Ret tt.

(** [Drop for Owner] and [Drop for Draining], holding their attachment: poison,
    then drop the attachment field. *)
Definition owner_drop : prog unit := do! poison_header ;; attachment_drop.
Definition draining_drop : prog unit := do! poison_header ;; attachment_drop.

(** [Owner::try_enter] *)
Definition owner_try_enter (self : Attachment) : prog (result unit MappingError) := try_enter self.

(** [Owner::begin_drain]: on failure the consumed owner is dropped. *)
Definition begin_drain (self : Attachment) : prog (result Attachment MappingError) :=
  let! x := transition_to_draining in
  match x with
  | Err e => do! owner_drop ;; Ret (Err e)
  | Ok _ => Ret (Ok self)
  end.

Definition is_drained : prog (result bool MappingError) :=
  let!? snapshot := snapshot in
  Ret (Ok (bool_decide (phase snapshot = Draining)
           && (attachments snapshot =? 1) && (admissions snapshot =? 0))).

(** The exclusive payload reference is the displacement it may be used at. *)
Definition try_payload_mut (self : Attachment) : prog (result Z MappingError) :=
  let!? drained := is_drained in
  if negb drained then Ret (Err NotDrained)
  else Ret (Ok (payload self - base (mapping self))).

Definition try_close (self : Attachment) : prog (result ClosedMapping (MappingError * Attachment)) :=
  let expected := pack Draining 1 0 in
  let! x := compare_exchange Lifecycle expected (pack Closed 0 0) in
  match x with
  | Err actual =>
      let error :=
        match decode actual with
        | Ok snapshot =>
            if bool_decide (phase snapshot = Draining)
               && (negb (attachments snapshot =? 1) || negb (admissions snapshot =? 0))
            then NotDrained
            else WrongPhase Draining (phase snapshot)
        | Err error => error
        end in
      Ret (Err (error, self))
  | Ok _ => Ret (Ok {| closed_base := base (mapping self); closed_len := len (mapping self) |})
  end.
End Operations.

(** ** The lifecycle word: a phase above two 28-bit counts *)

Definition word (ph : Phase) (a n : Z) : Z := phase_raw ph * 2 ^ 56 + (n * 2 ^ 28 + a).
Definition count_ok (c : Z) : Prop := 0 <= c < 2 ^ 28.

Lemma phase_raw_bound p : 0 <= phase_raw p <= 5.
Proof. destruct p; cbn; lia. Qed.

Lemma phase_raw_from p : phase_from_raw (phase_raw p) = Some p.
Proof. by destruct p. Qed.

Lemma counts_low a n : count_ok a -> count_ok n -> 0 <= n * 2 ^ 28 + a < 2 ^ 56.
Proof. unfold count_ok. lia. Qed.

Lemma pack_word p a n : count_ok a -> count_ok n -> pack p a n = word p a n.
Proof.
  intros Ha Hn. unfold pack, word, PHASE_SHIFT, ACTIVE_SHIFT, ATTACHMENT_BITS, ACTIVE_BITS.
  cbn [Z.add Pos.add Pos.succ]. rewrite <- Z.lor_assoc, (lor_shiftl_add n a) by (done || lia).
  apply lor_shiftl_add; [lia|]. by apply counts_low.
Qed.

Lemma with_phase_word p p' a n : count_ok a -> count_ok n -> with_phase (word p a n) p' = word p' a n.
Proof.
  intros Ha Hn. pose proof (counts_low a n Ha Hn). unfold with_phase, word, PHASE_SHIFT.
  change (Z.shiftl 1 (ATTACHMENT_BITS + ACTIVE_BITS) - 1) with (2 ^ 56 - 1).
  change (ATTACHMENT_BITS + ACTIVE_BITS) with 56.
  rewrite land_mask, Z.add_comm, Z.mod_add, Z.mod_small by (done || lia).
  rewrite Z.lor_comm. apply lor_shiftl_add; [lia|done].
Qed.

Lemma attachment_field p a n : count_ok a -> count_ok n -> Z.land (word p a n) ATTACHMENT_MASK = a.
Proof.
  unfold count_ok. intros Ha Hn. change ATTACHMENT_MASK with (2 ^ 28 - 1). rewrite land_mask by lia.
  unfold word. replace (phase_raw p * 2 ^ 56 + (n * 2 ^ 28 + a)) with (a + (phase_raw p * 2 ^ 28 + n) * 2 ^ 28) by lia.
  rewrite Z.mod_add, Z.mod_small by lia. done.
Qed.

Lemma active_field p a n : count_ok a -> count_ok n -> Z.land (word p a n) ACTIVE_MASK = n * 2 ^ 28.
Proof.
  unfold count_ok. intros Ha Hn. change ACTIVE_MASK with ((2 ^ 28 - 1) * 2 ^ 28 + 0).
  unfold word. replace (phase_raw p * 2 ^ 56 + (n * 2 ^ 28 + a)) with ((phase_raw p * 2 ^ 28 + n) * 2 ^ 28 + a) by lia.
  rewrite land_pack, Z.land_0_r, land_mask by lia. rewrite Z.add_comm, Z.add_0_l.
  rewrite Z.add_comm, Z.mod_add, Z.mod_small by lia. done.
Qed.

Lemma decode_word p a n : count_ok a -> count_ok n ->
  decode (word p a n) = Ok {| phase := p; attachments := a; admissions := n |}.
Proof.
  intros Ha Hn. pose proof (counts_low a n Ha Hn). unfold decode.
  rewrite attachment_field, active_field by done.
  assert (Hp : wrap 8 (Z.shiftr (word p a n) PHASE_SHIFT) = phase_raw p).
  { change PHASE_SHIFT with 56. rewrite shiftr_div by lia. unfold word, wrap.
    rewrite Z.div_add_l, (Z.div_small (_ + a)), Z.add_0_r by lia.
    pose proof (phase_raw_bound p). apply Z.mod_small. lia. }
  rewrite Hp, phase_raw_from. cbn [ok_or result_bind]. unfold count_ok in *. do 2 f_equal.
  - unfold wrap. apply Z.mod_small. lia.
  - change ACTIVE_SHIFT with 28. rewrite shiftr_div, Z.div_mul by lia. unfold wrap. apply Z.mod_small. lia.
Qed.

Lemma word_inj p a n p' a' n' : count_ok a -> count_ok n -> count_ok a' -> count_ok n' ->
  word p a n = word p' a' n' -> p = p' /\ a = a' /\ n = n'.
Proof.
  intros Ha Hn Ha' Hn' Heq. pose proof (decode_word p a n Ha Hn) as Hd.
  rewrite Heq, decode_word in Hd by done. by injection Hd as -> -> ->.
Qed.

Lemma word_bound p a n : count_ok a -> count_ok n -> 0 <= word p a n < 2 ^ 64.
Proof. unfold word, count_ok. pose proof (phase_raw_bound p). lia. Qed.

(** The packed lifecycle word: packing and decoding are inverse on every
    phase and all counts up to the limit, a phase change keeps both counts, the
    count fields move by one without touching each other or the phase, and a
    word is refused exactly when its phase byte names no phase. *)
Theorem mapping_word_codec (p p' : Phase) (a n v : Z) :
  0 <= a <= MAX_COUNT -> 0 <= n <= MAX_COUNT -> 0 <= v < 2 ^ 64 ->
  decode (pack p a n) = Ok {| phase := p; attachments := a; admissions := n |} /\
  with_phase (pack p a n) p' = pack p' a n /\
  (a < MAX_COUNT -> pack p a n + ATTACHMENT_ONE = pack p (a + 1) n) /\
  (n < MAX_COUNT -> pack p a n + ACTIVE_ONE = pack p a (n + 1)) /\
  (decode v = Err (CorruptLifecycle v) <-> 6 <= v / 2 ^ 56).
Proof.
  change MAX_COUNT with (2 ^ 28 - 1). change ATTACHMENT_ONE with 1. change ACTIVE_ONE with (2 ^ 28).
  intros Ha Hn Hv. assert (count_ok a /\ count_ok n) as [Ca Cn] by (unfold count_ok; lia).
  rewrite !pack_word by done. split; [by apply decode_word|]. split; [by apply with_phase_word|].
  split; [|split]; [intros; rewrite pack_word by (done || unfold count_ok; lia); unfold word; lia..|].
  unfold decode. change PHASE_SHIFT with 56. rewrite shiftr_div by lia. unfold wrap at 1.
  assert (0 <= v / 2 ^ 56 < 256) by (split; [apply Z.div_pos|apply Z.div_lt_upper_bound]; lia).
  rewrite (Z.mod_small (v / 2 ^ 56)) by lia.
  set (q := v / 2 ^ 56) in *. clearbody q. split.
  - destruct (Z.le_gt_cases 6 q); [done|].
    assert (q = 0 \/ q = 1 \/ q = 2 \/ q = 3 \/ q = 4 \/ q = 5) as [->|[->|[->|[->|[->| ->]]]]] by lia; done.
  - intros Hq. assert (phase_from_raw q = None) as ->; [|done].
    unfold phase_from_raw. destruct q as [|[[[]|[]|]|[[]|[]|]|]|]; done || lia.
Qed.

Lemma mapping_word_codec_witness :
  decode (pack Draining 3 MAX_COUNT) = Ok {| phase := Draining; attachments := 3; admissions := MAX_COUNT |} /\
  with_phase (pack Draining 3 MAX_COUNT) Poisoned = pack Poisoned 3 MAX_COUNT.
Proof.
  destruct (mapping_word_codec Draining Poisoned 3 MAX_COUNT 0) as (Hd & Hw & _); [vm_compute; split; congruence..|].
  split; assumption.
Defined.

(** ** Payload placement *)

Section Placement.
Context `{Target}.

(** A mapping handle as [RawMapping::from_raw_parts] accepts it. *)
Definition mapping_ok (self : Mapping) : Prop :=
  0 < base self /\ HEADER_SIZE <= len self <= isize_max /\ base self + len self <= usize_max /\
  base self mod HEADER_ALIGN = 0.

Lemma raw_from_raw_parts_ok b l self : in_width usize_bits b -> in_width usize_bits l ->
  raw_from_raw_parts b l = Ok self <-> self = {| base := b; len := l |} /\ mapping_ok self.
Proof.
  unfold raw_from_raw_parts, mapping_ok, in_width, usize_max. intros Hb Hl. split.
  - intros Hf. ok_inv Hf. apply ok_or_ok, checked_add_some in Hbind as [-> Hs]. injection Hf as <-.
    cbn. apply negb_false_iff in Hguard1. zb_case; try discriminate. split; [done|]. repeat split; lia.
  - intros [-> (? & ? & ? & ?)]. cbn in *. destruct (Z.eqb_spec b 0); [lia|].
    destruct (Z.ltb_spec isize_max l); [lia|]. unfold checked_add.
    destruct (Z.ltb_spec (b + l) (2 ^ usize_bits)); [|lia]. cbn.
    destruct (Z.eqb_spec (b mod HEADER_ALIGN) 0); [|lia]. cbn.
    destruct (Z.ltb_spec l HEADER_SIZE); [lia|done].
Qed.

Context `{PodType}.

(** The displacement [payload_for] chooses. *)
Definition payload_displacement (alignment : Z) : Z :=
  Z.land (HEADER_SIZE + (alignment - 1)) (not_bits usize_bits (alignment - 1)).

Lemma checked_payload_ok self o p : checked_payload self o = Ok p ->
  p = base self + o /\ HEADER_SIZE <= o /\ o + size_of <= len self /\ p mod align_of = 0.
Proof.
  unfold checked_payload, usize_try_from. intros Hc. ok_inv Hc. injection Hc as <-.
  apply ok_or_ok in Hbind. destruct (o <=? usize_max); [|done]. injection Hbind as ->.
  apply ok_or_ok, checked_add_some in Hbind0 as [-> _].
  apply orb_false_iff in Hguard as [?%Z.ltb_ge ?%Z.ltb_ge]. apply negb_false_iff, Z.eqb_eq in Hguard0. done.
Qed.

Lemma payload_for_ok self p : payload_for self = Ok p ->
  p = base self + payload_displacement align_of /\
  payload_displacement align_of + size_of <= len self.
Proof.
  unfold payload_for. intros Hp. ok_inv Hp. apply ok_or_ok, checked_add_some in Hbind as [-> _].
  apply checked_payload_ok in Hp as (-> & _ & Hl & _). done.
Qed.

Lemma payload_displacement_round al : is_power_of_two al = true -> HEADER_SIZE + (al - 1) <= usize_max ->
  HEADER_SIZE <= payload_displacement al < HEADER_SIZE + al /\ payload_displacement al mod al = 0.
Proof.
  intros (k & Hk & ->)%is_power_of_two_spec Hle. unfold payload_displacement.
  assert (Hw : k <= usize_bits).
  { unfold usize_max, HEADER_SIZE in Hle. destruct (Z.le_gt_cases k usize_bits); [done|].
    pose proof (Z.pow_lt_mono_r 2 usize_bits k). lia. }
  unfold HEADER_SIZE, usize_max in *. rewrite land_not_mask by (lia || (pose proof (Z.pow_pos_nonneg 2 k); lia)).
  pose proof (Z.pow_pos_nonneg 2 k). pose proof (Z.mod_pos_bound (192 + (2 ^ k - 1)) (2 ^ k)). split; [lia|].
  rewrite Zminus_mod_idemp_r, Z.sub_diag. apply Z.mod_0_l. lia.
Qed.
End Placement.

(** The payload is placed behind the header: in an accepted mapping whose
    base suits the payload type, the chosen address is the first aligned one
    after the header, the whole value lies inside the mapping, and placement
    fails with [PayloadExtent] exactly when it would not. *)
Theorem mapping_payload_placement `{Target} (t : PodType) (b l : Z) (self : Mapping) :
  in_width usize_bits b -> in_width usize_bits l -> raw_from_raw_parts b l = Ok self ->
  is_power_of_two align_of = true -> 0 <= size_of <= isize_max -> align_of <= 2 ^ 29 ->
  b mod align_of = 0 ->
  let off := payload_displacement align_of in
  HEADER_SIZE <= off < HEADER_SIZE + align_of /\ off mod align_of = 0 /\
  (payload_for self = Ok (b + off) <-> off + size_of <= l) /\
  (payload_for self = Err (PayloadExtent off size_of l) <-> l < off + size_of).
Proof.
  intros Hb Hl [-> Hm]%raw_from_raw_parts_ok Hp Hs Hal Hmod off; [|done..].
  assert (Hbits : 2 ^ 31 <= isize_max + 1 /\ 2 ^ usize_bits = 2 * (isize_max + 1)).
  { unfold isize_max. destruct usize_bits_ok as [->| ->]; lia. }
  assert (Hsum : HEADER_SIZE + (align_of - 1) <= usize_max) by (unfold HEADER_SIZE, usize_max; lia).
  destruct (payload_displacement_round align_of Hp Hsum) as [Hr Hm0]. fold off in Hr, Hm0.
  split; [done|]. split; [done|].
  assert (Ha : 0 < align_of) by (apply is_power_of_two_spec in Hp as (k & Hk & ->); lia).
  assert (Hmod' : (b + off) mod align_of = 0) by (rewrite Z.add_mod, Hmod, Hm0 by lia; apply Z.mod_0_l; lia).
  assert (Heq : payload_for {| base := b; len := l |} =
                if l <? off + size_of then Err (PayloadExtent off size_of l) else Ok (b + off)).
  { unfold payload_for, checked_payload, checked_add, usize_try_from. unfold HEADER_SIZE, usize_max in *.
    destruct (Z.ltb_spec (192 + (align_of - 1)) (2 ^ usize_bits)); [|lia]. cbn [ok_or result_bind].
    change (Z.land (192 + (align_of - 1)) (not_bits usize_bits (align_of - 1))) with off.
    destruct (Z.leb_spec off (2 ^ usize_bits - 1)); [|lia]. cbn [ok_or result_bind].
    destruct (Z.ltb_spec (off + size_of) (2 ^ usize_bits)); [|lia]. cbn [ok_or result_bind base len].
    destruct (Z.ltb_spec off 192); [lia|]. cbn [orb]. destruct (l <? off + size_of); [done|].
    rewrite Hmod'. done. }
  rewrite Heq. destruct (Z.ltb_spec l (off + size_of)); split; split; try done; lia.
Qed.

Lemma mapping_payload_placement_witness :
  payload_for (H0 := {| FINGERPRINT := 9; size_of := 8; align_of := 128 |}) {| base := 4096; len := 512 |} = Ok 4352.
Proof.
  destruct (mapping_payload_placement {| FINGERPRINT := 9; size_of := 8; align_of := 128 |} 4096 512
    {| base := 4096; len := 512 |}) as (_ & _ & Hp & _); [vm_compute; (split; congruence) || congruence..|].
  apply Hp. vm_compute. congruence.
Defined.

(** ** Preparing and opening *)

Lemma bytes_at_nodup (cell : nat -> mcell) n : Inj eq eq cell -> NoDup (bytes_at cell n).
Proof. intros Hinj. apply NoDup_fmap; [done|]. apply NoDup_seq. Qed.

Lemma bytes_at_length (cell : nat -> mcell) n : length (bytes_at cell n) = n.
Proof. unfold bytes_at. by rewrite length_map, length_seq. Qed.

(** Byte arrays of a header written by [prepare]. *)
Lemma read_written (cell : nat -> mcell) n vs (m : mcell -> Z) ws : Inj eq eq cell -> length vs = n ->
  (forall i, cell i ∉ map fst ws) ->
  map (write_all (write_all m (combine (bytes_at cell n) vs)) ws) (bytes_at cell n) = vs.
Proof.
  intros Hinj Hlen Hnin. rewrite <- (write_all_combine (bytes_at cell n) vs m) at 2;
    [|by apply bytes_at_nodup|by rewrite bytes_at_length].
  apply map_ext_in. intros l Hin. apply write_all_notin. unfold bytes_at in Hin.
  apply in_map_iff in Hin as (i & <- & _). apply Hnin.
Qed.

(** Everything [prepare] writes, in order. *)
Definition header_writes (raw : Mapping) (build instance : list Z) : list (mcell * Z) :=
  combine (bytes_at HMagic 8) MAGIC
  ++ [(HVersion, VERSION); (HHeaderLen, HEADER_SIZE); (HMappingLen, len raw)]
  ++ combine (bytes_at HBuild 32) build ++ combine (bytes_at HInstance 16) instance
  ++ [(GPayloadOffset, 0); (GPayloadLen, 0)]
  ++ combine (bytes_at GDescriptor ENCODED_LEN) (replicate ENCODED_LEN 0)
  ++ [(Lifecycle, pack Uninitialized 0 0)].

Lemma write_all_app ws ws' (m : mcell -> Z) : write_all m (ws ++ ws') = write_all (write_all m ws) ws'.
Proof. apply foldl_app. Qed.

Lemma solo_prepare raw build instance m Φ :
  solo (prepare raw build instance) m Φ <-> Φ raw (write_all m (header_writes raw build instance)).
Proof.
  unfold prepare, header_writes.
  repeat first [rewrite solo_bind | rewrite solo_store_all | rewrite solo_store].
  rewrite !write_all_app. done.
Qed.

Lemma read_field (cell : nat -> mcell) n vs (m : mcell -> Z) pre post : Inj eq eq cell -> length vs = n ->
  (forall i, cell i ∉ map fst post) ->
  map (write_all m (pre ++ combine (bytes_at cell n) vs ++ post)) (bytes_at cell n) = vs.
Proof. intros Hinj Hlen Hnin. rewrite !write_all_app. by apply read_written. Qed.

Lemma read_word (l : mcell) v (m : mcell -> Z) pre post : l ∉ map fst post ->
  write_all m (pre ++ (l, v) :: post) l = v.
Proof.
  intros Hnin. rewrite (write_all_app pre). change (write_all ?m ((l, v) :: post)) with (write_all (upd m l v) post).
  rewrite write_all_notin by done. apply upd_eq.
Qed.

Lemma in_header_fst (cell : nat -> mcell) n (vs : list Z) l : l ∈ map fst (combine (bytes_at cell n) vs) -> exists i, l = cell i.
Proof.
  rewrite list_elem_of_In, in_map_iff. intros ([l' v] & <- & Hin). apply in_combine_l in Hin.
  unfold bytes_at in Hin. apply in_map_iff in Hin as (i & <- & _). by exists i.
Qed.

(** Splits membership in the cells of a list of writes. *)
Ltac notin_writes :=
  lazymatch goal with
  | |- _ ∉ map _ (combine _ _) => intros [? ?]%in_header_fst; discriminate
  | |- _ ∉ map _ (_ :: _) => rewrite map_cons; apply not_elem_of_cons; split; [discriminate | notin_writes]
  | |- _ ∉ map _ [] => apply not_elem_of_nil
  | |- _ ∉ map _ (_ ++ _) => rewrite map_app, not_elem_of_app; split; notin_writes
  | |- _ ∉ _ :: _ => apply not_elem_of_cons; split; [discriminate | notin_writes]
  | |- _ ∉ [] => apply not_elem_of_nil
  end.

(** What [open_existing] finds in a prepared header. *)
Definition open_verdict (raw : Mapping) (build instance : list Z) (self : Mapping) (build' instance' : list Z) :
    result Mapping MappingError :=
  if negb (len raw =? len self) then Err (MappingLength (len self) (len raw))
  else if negb (bool_decide (build = build')) then Err BuildIdentity
  else if negb (bool_decide (instance = instance')) then Err InstanceIdentity
  else Ok self.

(** A process that opens a prepared mapping gets a handle exactly when its
    mapped length, its build identity and its instance identity are those of
    [prepare]; otherwise it gets the error of the first field that differs, in
    that order, and it never writes. *)
Theorem mapping_open_after_prepare (raw self : Mapping) (build instance build' instance' : list Z) (m : mcell -> Z) :
  length build = 32%nat -> length instance = 16%nat ->
  solo (do! prepare raw build instance ;; open_existing self build' instance') m
    (fun r m' => r = open_verdict raw build instance self build' instance' /\
                 m' = write_all m (header_writes raw build instance)).
Proof.
  intros Hb Hi. rewrite solo_bind, solo_prepare. set (m' := write_all _ _).
  assert (HM : map m' (bytes_at HMagic 8) = MAGIC)
    by (subst m'; unfold header_writes; apply (read_field _ _ _ _ []); [by intros ?? [=]|done|intros i; notin_writes]).
  assert (HB : map m' (bytes_at HBuild 32) = build).
  { subst m'. unfold header_writes. rewrite app_assoc.
    apply read_field; [by intros ?? [=]|done|intros i; notin_writes]. }
  assert (HI : map m' (bytes_at HInstance 16) = instance).
  { subst m'. unfold header_writes. rewrite 2!app_assoc.
    apply read_field; [by intros ?? [=]|done|intros i; notin_writes]. }
  assert (HV : m' HVersion = VERSION).
  { subst m'. unfold header_writes. cbn [app]. apply (read_word _ _ _ (combine _ _)). notin_writes. }
  assert (HH : m' HHeaderLen = HEADER_SIZE).
  { subst m'. unfold header_writes. cbn [app]. rewrite (cons_middle (HVersion, VERSION)), app_assoc.
    apply (read_word _ _ _ (combine _ _ ++ [_])). notin_writes. }
  assert (HL : m' HMappingLen = len raw).
  { subst m'. unfold header_writes. cbn [app].
    rewrite (cons_middle (HVersion, VERSION)), app_assoc, (cons_middle (HHeaderLen, HEADER_SIZE)), app_assoc.
    apply (read_word _ _ _ ((combine _ _ ++ [_]) ++ [_])). notin_writes. }
  assert (HW : m' Lifecycle = pack Uninitialized 0 0).
  { subst m'. unfold header_writes. rewrite !app_assoc. apply read_word. notin_writes. }
  unfold open_existing, validate_header, open_verdict.
  rewrite solo_try_bind, solo_bind, solo_load_all, HM, bool_decide_true by done. cbn [negb].
  rewrite solo_bind, solo_load, HV. cbn [negb Z.eqb VERSION Pos.eqb].
  rewrite solo_bind, solo_load, HH. cbn [negb Z.eqb HEADER_SIZE Pos.eqb].
  rewrite solo_bind, solo_load, HL. destruct (len raw =? len self); [|done]. cbn [negb].
  rewrite solo_bind, solo_load_all, HB. destruct (bool_decide (build = build')); [|done]. cbn [negb].
  rewrite solo_bind, solo_load_all, HI. destruct (bool_decide (instance = instance')); [|done]. cbn [negb].
  rewrite solo_bind, solo_load, HW. done.
Qed.

Lemma mapping_open_after_prepare_witness :
  let raw := {| base := 4096; len := 512 |} in
  let self := {| base := 8192; len := 512 |} in
  fst (run (do! prepare raw (replicate 32 7) (replicate 16 1) ;; open_existing self (replicate 32 7) (replicate 16 1))
         (fun _ => 0)) = Done (Ok self).
Proof.
  intros raw self.
  destruct (solo_run _ _ _ (mapping_open_after_prepare raw self (replicate 32 7) (replicate 16 1)
    (replicate 32 7) (replicate 16 1) (fun _ => 0) eq_refl eq_refl)) as (a & m' & Hrun & -> & _).
  rewrite Hrun. reflexivity.
Defined.
