(* ===== verification/MappingCorrect.v ===== *)
(** Safety of the mapping lifecycle in every interleaving: the payload is only
    read while it is constructed, by participants of the type it was constructed
    with, and teardown is exclusive. *)

From stdpp Require Import countable.
From S2P Require Import Prelude Conc Layout Mapping.

(** ** Tokens *)

(** [TInit d k]: the initializer of a payload of layout [d] that has done [k] of
    its writes.  [THold h d]: the owner, the draining owner, the draining owner
    that borrows the payload exclusively, an attachment, an admission, and the
    knowledge that a payload of layout [d] has been published or closed. *)
Inductive hold := HOwner | HDrain | HExcl | HAtt | HAdm | HSeen | HDone.
#[export] Instance hold_eq_dec : EqDecision hold.
Proof. solve_decision. Defined.
Inductive mtok := TInit (d : LayoutDescriptor) (k : nat) | THold (h : hold) (d : LayoutDescriptor).
#[export] Instance mtok_eq_dec : EqDecision mtok.
Proof. solve_decision. Defined.

Definition hold_nat (h : hold) : nat :=
  match h with HOwner => 0 | HDrain => 1 | HExcl => 2 | HAtt => 3 | HAdm => 4 | HSeen => 5 | HDone => 6 end.
Definition nat_hold (n : nat) : hold :=
  match n with 0 => HOwner | 1 => HDrain | 2 => HExcl | 3 => HAtt | 4 => HAdm | 5 => HSeen | _ => HDone end%nat.
#[export] Instance hold_countable : Countable hold.
Proof. apply (inj_countable' hold_nat nat_hold). by intros []. Defined.
#[export] Instance LayoutDescriptor_countable : Countable LayoutDescriptor.
Proof.
  apply (inj_countable' (fun d => (fingerprint d, size d, alignment d))
    (fun x => {| fingerprint := x.1.1; size := x.1.2; alignment := x.2 |})). by intros [].
Defined.
#[export] Instance mtok_countable : Countable mtok.
Proof.
  apply (inj_countable'
    (fun t => match t with TInit d k => inl (d, k) | THold h d => inr (h, d) end)
    (fun s => match s with inl (d, k) => TInit d k | inr (h, d) => THold h d end)).
  by intros [].
Defined.

#[local] Abbreviation toks := (gmultiset mtok).
#[local] Abbreviation mem := (mcell -> Z).

Section Lifecycle.
Context `{Target}.

(** ** The invariant *)

Definition off (d : LayoutDescriptor) : Z := payload_displacement (alignment d).

(** The payload value that participants of layout [d] store and recognize. *)
Definition valid_value (d : LayoutDescriptor) : Z := fingerprint d + 1.

Definition geometry_writes (d : LayoutDescriptor) : list (mcell * Z) :=
  (GPayloadOffset, off d) :: (GPayloadLen, size d)
  :: combine (bytes_at GDescriptor ENCODED_LEN) (encode d).
Definition init_writes (d : LayoutDescriptor) : list (mcell * Z) :=
  geometry_writes d ++ [(Payload (off d), valid_value d)].

Definition holds_values (m : mem) (ws : list (mcell * Z)) : Prop := Forall (fun w => m w.1 = w.2) ws.

(** The counts of the lifecycle word against the handles that exist. *)
Record live (d : LayoutDescriptor) (m : mem) (r : toks) (ph : Phase) (a n : Z) : Prop := {
  live_local : describes_local d;
  live_geometry : holds_values m (geometry_writes d);
  live_init : forall d' k, mult (TInit d' k) r = 0;
  live_only : forall h d', d' <> d -> mult (THold h d') r = 0;
  live_a : a = mult (THold HAtt d) r + mult (THold HOwner d) r + mult (THold HDrain d) r + mult (THold HExcl d) r;
  live_n : n = mult (THold HAdm d) r;
  live_one : mult (THold HOwner d) r + mult (THold HDrain d) r + mult (THold HExcl d) r <= 1;
  live_excl : 0 < mult (THold HExcl d) r -> mult (THold HAtt d) r = 0 /\ mult (THold HAdm d) r = 0;
  live_phase : match ph with
    | Open => mult (THold HDrain d) r = 0 /\ mult (THold HExcl d) r = 0
    | Closed => a = 0 /\ n = 0
    | Draining | Poisoned => True
    | Uninitialized | Initializing => False
    end;
  live_done : 0 < mult (THold HDone d) r -> ph = Closed;
  live_valid : mult (THold HExcl d) r = 0 -> ph <> Closed -> m (Payload (off d)) = valid_value d
}.

Inductive life (m : mem) (r : toks) : Phase -> Z -> Z -> Prop :=
| life_fresh ph : ph = Uninitialized \/ ph = Poisoned -> (forall t, mult t r = 0) -> life m r ph 0 0
| life_init ph d k : ph = Initializing \/ ph = Poisoned -> describes_local d ->
    (forall t, mult t r = if decide (t = TInit d k) then 1 else 0) ->
    holds_values m (take k (init_writes d)) -> life m r ph 0 0
| life_live ph d a n : live d m r ph a n -> life m r ph a n.

Definition inv (m : mem) (r : toks) : Prop :=
  exists ph a n, m Lifecycle = word ph a n /\ count_ok a /\ count_ok n /\ life m r ph a n.

(** Multiplicities in explicit multisets. *)
Ltac mult_pos :=
  repeat match goal with
  | H : context [mult ?t ?r] |- _ =>
      lazymatch goal with _ : 0 <= mult t r |- _ => fail | _ => pose proof (mult_nonneg t r) end
  end.
Ltac toks_simp :=
  autorewrite with mult in *; repeat (case_decide; simplify_eq); try tauto; try lia;
  try match goal with
  | H : 0 < _ -> ?P |- ?P => apply H; lia
  | H : 0 < _ -> @eq Phase _ _ |- _ => discriminate H; lia
  | |- _ /\ _ => split; [lia | first [lia | done]]
  | |- _ => mult_pos; lia
  end.

Lemma holds_upd m l v ws : l ∉ map fst ws -> holds_values m ws -> holds_values (upd m l v) ws.
Proof.
  intros Hnin. induction 1 as [|[l' v'] ws Hw Hws IH]; [constructor|]. cbn in Hnin.
  apply not_elem_of_cons in Hnin as [Hne Hnin]. constructor; [|by apply IH]. cbn. by rewrite upd_ne.
Qed.

Lemma geometry_notin d l : (forall i, l <> GDescriptor i) -> l <> GPayloadOffset -> l <> GPayloadLen ->
  l ∉ map fst (geometry_writes d).
Proof.
  intros Hd Ho Hl. unfold geometry_writes. rewrite !map_cons, !not_elem_of_cons. split; [done|]. split; [done|].
  intros [i ->]%in_header_fst. by apply (Hd i).
Qed.

Lemma init_notin d k l : (forall i, l <> GDescriptor i) -> l <> GPayloadOffset -> l <> GPayloadLen ->
  (forall o, l <> Payload o) -> l ∉ map fst (take k (init_writes d)).
Proof.
  intros Hd Ho Hl Hp Hin. apply list_elem_of_In, in_map_iff in Hin as (w & <- & Hin).
  apply list_elem_of_In, elem_of_take in Hin as (i & Hw & _). apply list_elem_of_lookup_2 in Hw. unfold init_writes in Hw. apply elem_of_app in Hw as [Hw|Hw].
  - apply (geometry_notin d w.1); [done..|]. apply list_elem_of_In, in_map. by apply list_elem_of_In.
  - apply list_elem_of_singleton in Hw as ->. by apply (Hp (off d)).
Qed.

Lemma inv_word m r : inv m r -> exists ph a n, m Lifecycle = word ph a n /\ count_ok a /\ count_ok n.
Proof. intros (ph & a & n & ? & ? & ? & _). by exists ph, a, n. Qed.

Lemma inv_at m r ph a n : inv m r -> m Lifecycle = word ph a n -> count_ok a -> count_ok n -> life m r ph a n.
Proof.
  intros (ph' & a' & n' & Hw & Ha' & Hn' & Hl) Hm Ha Hn. rewrite Hw in Hm.
  apply word_inj in Hm as (-> & -> & ->); done.
Qed.

(** A thread that holds a handle knows that the payload is live, and its
    layout. *)
Lemma life_handle m r ph a n h d : life m r ph a n -> 0 < mult (THold h d) r -> live d m r ph a n.
Proof.
  intros [ph' Hph Ht|ph' d' k Hph Hl Ht Hw|ph' d' a' n' Hl] Hh.
  - rewrite Ht in Hh. lia.
  - rewrite Ht in Hh. case_decide; [discriminate|lia].
  - destruct (decide (d' = d)) as [->|Hne]; [done|].
    rewrite (live_only _ _ _ _ _ _ Hl h d) in Hh by congruence. lia.
Qed.

Lemma inv_handle m r h d : inv m r -> 0 < mult (THold h d) r ->
  exists ph a n, m Lifecycle = word ph a n /\ count_ok a /\ count_ok n /\ live d m r ph a n.
Proof.
  intros (ph & a & n & Hw & Ha & Hn & Hl) Hh. exists ph, a, n. split; [done|]. split; [done|]. split; [done|]. by eapply life_handle.
Qed.

(** Moving the lifecycle word of a live payload. *)
Lemma live_move d m r ph a n r' ph' a' n' w : live d m r ph a n ->
  (forall d' k, mult (TInit d' k) r' = 0) -> (forall h d', d' <> d -> mult (THold h d') r' = 0) ->
  (mult (THold HExcl d) r' = 0 -> ph' <> Closed -> mult (THold HExcl d) r = 0 /\ ph <> Closed) ->
  a' = mult (THold HAtt d) r' + mult (THold HOwner d) r' + mult (THold HDrain d) r' + mult (THold HExcl d) r' ->
  n' = mult (THold HAdm d) r' ->
  mult (THold HOwner d) r' + mult (THold HDrain d) r' + mult (THold HExcl d) r' <= 1 ->
  (0 < mult (THold HExcl d) r' -> mult (THold HAtt d) r' = 0 /\ mult (THold HAdm d) r' = 0) ->
  match ph' with
  | Open => mult (THold HDrain d) r' = 0 /\ mult (THold HExcl d) r' = 0
  | Closed => a' = 0 /\ n' = 0
  | Draining | Poisoned => True
  | Uninitialized | Initializing => False
  end ->
  (0 < mult (THold HDone d) r' -> ph' = Closed) ->
  live d (upd m Lifecycle w) r' ph' a' n'.
Proof.
  intros [L1 L2 L3 L4 L5 L6 L7 L8 L9 L10 L11] ? ? Hv **. constructor; try done.
  - apply holds_upd; [|done]. by apply geometry_notin.
  - intros He Hc. destruct (Hv He Hc). rewrite upd_ne by done. by apply L11.
Qed.

(** ** Reading the word *)

Lemma wp_word r (Φ : Z -> toks -> Prop) :
  (forall ph a n, count_ok a -> count_ok n -> Φ (word ph a n) r) -> wp inv (load Lifecycle) r Φ.
Proof.
  intros HΦ. apply wp_load. intros m fr HI. exists r. split; [done|].
  destruct (inv_word _ _ HI) as (ph & a & n & -> & Ha & Hn). by apply HΦ.
Qed.

(** A retry loop on the lifecycle word: the loop state is always a word, and a
    failed exchange hands back a word. *)
Definition is_word (w : Z) : Prop := exists ph a n, w = word ph a n /\ count_ok a /\ count_ok n.

Lemma wp_word_loop {A} fuel (body : Z -> prog mcell (Z + A)) r Φ :
  (forall ph a n, count_ok a -> count_ok n -> wp inv (body (word ph a n)) r (fun x r' =>
     match x with inl w => is_word w /\ r' = r | inr v => Φ v r' end)) ->
  wp inv (let! current := load Lifecycle in loop fuel body current) r Φ.
Proof.
  intros Hbody. apply wp_bind, wp_word. intros ph a n Ha Hn.
  apply (wp_loop inv (fun w r' => is_word w /\ r' = r)); [|split; [by exists ph, a, n|done]].
  intros w r' [(ph' & a' & n' & -> & Ha' & Hn') ->]. by apply Hbody.
Qed.

(** The exchange of such a loop. *)
Lemma wp_word_cas {A} w w' (ok : A) r r' Φ :
  (forall m fr, inv m (r ⊎ fr) -> m Lifecycle = w -> inv (upd m Lifecycle w') (r' ⊎ fr)) ->
  Φ ok r' ->
  wp inv (let! x := compare_exchange_weak Lifecycle w w' in
          match x with Ok _ => Ret (inr ok) | Err actual => Ret (inl actual) end) r
    (fun x r' => match x with inl w => is_word w /\ r' = r | inr v => Φ v r' end).
Proof.
  intros Hok HΦ. apply wp_bind, wp_cas_weak.
  - intros m fr HI Hm. exists r'. split; [by apply Hok|]. by apply wp_ret.
  - intros m fr HI. exists r. split; [done|]. apply wp_ret. split; [|done]. by eapply inv_word.
Qed.

(** The lifecycle word after a move of a live payload. *)
Lemma inv_live d m r ph a n : m Lifecycle = word ph a n -> count_ok a -> count_ok n ->
  live d m r ph a n -> inv m r.
Proof. intros Hm Ha Hn Hl. exists ph, a, n. split; [done|]. split; [done|]. split; [done|]. by eapply life_live. Qed.

Lemma inv_live_upd d m r ph a n : count_ok a -> count_ok n ->
  live d (upd m Lifecycle (word ph a n)) r ph a n -> inv (upd m Lifecycle (word ph a n)) r.
Proof. intros Ha Hn Hl. eapply inv_live; [apply upd_eq|done..]. Qed.

(** Discharges the conditions of [live_move] for explicit token changes. *)
Ltac live_tac Hl :=
  let L3 := fresh in let L4 := fresh in let L5 := fresh in let L6 := fresh in
  let L7 := fresh in let L8 := fresh in let L9 := fresh in let L10 := fresh in
  pose proof Hl as [_ _ L3 L4 L5 L6 L7 L8 L9 L10 _];
  eapply live_move; [exact Hl
    | let d' := fresh in let k := fresh in intros d' k; specialize (L3 d' k)
    | let h := fresh in let d' := fresh in let Hne := fresh in
      intros h d' Hne; specialize (L4 h d' Hne)
    | clear L3 L4 ..]; try intros; toks_simp.

(** ** Poisoning *)

Lemma inv_poison m r ph a n : inv m r -> m Lifecycle = word ph a n -> count_ok a -> count_ok n -> ph <> Closed ->
  inv (upd m Lifecycle (word Poisoned a n)) r.
Proof.
  intros HI Hm Ha Hn Hc. exists Poisoned, a, n. rewrite upd_eq. split; [done|]. split; [done|]. split; [done|].
  destruct (inv_at _ _ _ _ _ HI Hm Ha Hn) as [ph' Hph Ht|ph' d' k Hph Hl Ht Hw|ph' d' a' n' Hl].
  - apply life_fresh; [by right|done].
  - apply (life_init _ _ _ d' k); [by right|done|done|]. apply holds_upd; [|done].
    by apply init_notin.
  - apply (life_live _ _ _ d'). destruct Hl as [L1 L2 L3 L4 L5 L6 L7 L8 L9 L10 L11].
    eapply live_move; [by constructor|..]; try done. by intros ?%L10.
Qed.

Lemma poison_header_spec fuel r : wp inv (poison_header fuel) r (fun _ r' => r' = r).
Proof.
  apply wp_word_loop. intros ph a n Ha Hn. unfold poison_header_body. rewrite decode_word by done. cbn [phase].
  destruct (bool_decide_reflect (ph = Poisoned)) as [->|_]; [done|].
  destruct (bool_decide_reflect (ph = Closed)) as [->|Hc]; [done|].
  rewrite with_phase_word by done. apply (wp_word_cas _ _ _ r r); [|done].
  intros m fr HI Hm. by eapply inv_poison.
Qed.

(** ** Admissions *)

Lemma mapping_enter_spec fuel att h d r : 0 < mult (THold h d) r ->
  wp inv (try_enter fuel att) r (fun x r' =>
    match x with Ok _ => r' = r ⊎ {[+ THold HAdm d +]} | Err _ => r' = r end).
Proof.
  intros Hh. apply wp_word_loop. intros ph a n Ha Hn. unfold try_enter_body. rewrite decode_word by done.
  cbn [phase admissions]. destruct (bool_decide_reflect (ph = Open)) as [->|_]; [|done]. cbn [negb].
  destruct (Z.eqb_spec n MAX_COUNT) as [|Hmax]; [done|]. change MAX_COUNT with (2 ^ 28 - 1) in Hmax.
  assert (Hn' : count_ok (n + 1)) by (unfold count_ok in *; lia).
  replace (word Open a n + ACTIVE_ONE) with (word Open a (n + 1))
    by (change ACTIVE_ONE with (2 ^ 28); unfold word; lia).
  apply (wp_word_cas _ _ _ r (r ⊎ {[+ THold HAdm d +]})); [|done].
  intros m fr HI Hm. assert (Hl : live d m (r ⊎ fr) Open a n).
  { apply (life_handle _ _ _ _ _ h); [by apply inv_at|]. rewrite mult_union. pose proof (mult_nonneg (THold h d) fr). lia. }
  apply (inv_live_upd d); [done..|]. live_tac Hl.
Qed.

(** The word keeps its range when a handle it counts goes away. *)
Lemma word_sub_active ph a n : count_ok a -> count_ok n -> 1 <= n -> wrap 64 (word ph a n - ACTIVE_ONE) = word ph a (n - 1).
Proof.
  intros Ha Hn H1. change ACTIVE_ONE with (2 ^ 28). replace (word ph a n - 2 ^ 28) with (word ph a (n - 1)) by (unfold word; lia).
  apply Z.mod_small, word_bound; [done|]. unfold count_ok in *. lia.
Qed.

Lemma word_sub_attachment ph a n : count_ok a -> count_ok n -> 1 <= a -> wrap 64 (word ph a n - ATTACHMENT_ONE) = word ph (a - 1) n.
Proof.
  intros Ha Hn H1. change ATTACHMENT_ONE with 1. replace (word ph a n - 1) with (word ph (a - 1) n) by (unfold word; lia).
  apply Z.mod_small, word_bound; [|done]. unfold count_ok in *. lia.
Qed.

Lemma handle_in (t : mtok) r fr : 0 < mult t (r ⊎ {[+ t +]} ⊎ fr).
Proof.
  rewrite !mult_union, mult_single, decide_True by done.
  pose proof (mult_nonneg t r). pose proof (mult_nonneg t fr). lia.
Qed.

Lemma guard_deref_spec att d r : payload att - base (mapping att) = off d -> 0 < mult (THold HAdm d) r ->
  wp inv (guard_deref att) r (fun v r' => v = valid_value d /\ r' = r).
Proof.
  intros Ho Hh. unfold guard_deref. rewrite Ho. apply wp_load. intros m fr HI. exists r. split; [done|]. split; [|done].
  assert (Hp : 0 < mult (THold HAdm d) (r ⊎ fr)) by (rewrite mult_union; pose proof (mult_nonneg (THold HAdm d) fr); lia).
  destruct (inv_handle _ _ _ _ HI Hp) as (ph & a & n & _ & _ & _ & Hl).
  destruct Hl as [L1 L2 L3 L4 L5 L6 L7 L8 L9 L10 L11]. apply L11.
  - pose proof (mult_nonneg (THold HExcl d) (r ⊎ fr)). lia.
  - intros ->. lia.
Qed.

Lemma guard_drop_spec d r : wp inv guard_drop (r ⊎ {[+ THold HAdm d +]}) (fun _ r' => r' = r).
Proof.
  apply wp_bind, wp_fetch_sub. intros m fr HI. exists r.
  destruct (inv_handle _ _ HAdm d HI (handle_in _ _ _)) as (ph & a & n & Hm & Ha & Hn & Hl).
  assert (1 <= n) by (rewrite (live_n _ _ _ _ _ _ Hl); pose proof (handle_in (THold HAdm d) r fr); lia).
  rewrite Hm, word_sub_active, active_field by done. split.
  - apply (inv_live_upd d); [done|unfold count_ok in *; lia|]. destruct ph; live_tac Hl.
  - destruct (Z.eqb_spec (n * 2 ^ 28) 0); [lia|done].
Qed.

Lemma attachment_drop_spec h d r : h = HAtt \/ h = HOwner \/ h = HDrain ->
  wp inv attachment_drop (r ⊎ {[+ THold h d +]}) (fun _ r' => r' = r).
Proof.
  intros Hh. apply wp_bind, wp_fetch_sub. intros m fr HI. exists r.
  destruct (inv_handle _ _ h d HI (handle_in _ _ _)) as (ph & a & n & Hm & Ha & Hn & Hl).
  assert (1 <= a).
  { rewrite (live_a _ _ _ _ _ _ Hl). pose proof (handle_in (THold h d) r fr).
    pose proof (mult_nonneg (THold HAtt d) (r ⊎ {[+ THold h d +]} ⊎ fr)).
    pose proof (mult_nonneg (THold HOwner d) (r ⊎ {[+ THold h d +]} ⊎ fr)).
    pose proof (mult_nonneg (THold HDrain d) (r ⊎ {[+ THold h d +]} ⊎ fr)).
    pose proof (mult_nonneg (THold HExcl d) (r ⊎ {[+ THold h d +]} ⊎ fr)).
    destruct Hh as [->|[->| ->]]; lia. }
  rewrite Hm, word_sub_attachment, attachment_field by done. split.
  - apply (inv_live_upd d); [unfold count_ok in *; lia|done|]. destruct Hh as [->|[->| ->]]; destruct ph; live_tac Hl.
  - destruct (Z.eqb_spec a 0); [lia|done].
Qed.

(** ** Draining and closing *)

Lemma transition_spec fuel d r : wp inv (transition_to_draining fuel) (r ⊎ {[+ THold HOwner d +]}) (fun x r' =>
    match x with Ok _ => r' = r ⊎ {[+ THold HDrain d +]} | Err _ => r' = r ⊎ {[+ THold HOwner d +]} end).
Proof.
  apply wp_word_loop. intros ph a n Ha Hn. unfold transition_to_draining_body. rewrite decode_word by done.
  cbn [phase]. destruct (bool_decide_reflect (ph = Open)) as [->|_]; [|done]. cbn [negb].
  rewrite with_phase_word by done.
  apply (wp_word_cas _ _ _ _ (r ⊎ {[+ THold HDrain d +]})); [|done].
  intros m fr HI Hm. pose proof (inv_at _ _ _ _ _ HI Hm Ha Hn) as Hl.
  apply (life_handle _ _ _ _ _ HOwner d) in Hl; [|apply handle_in].
  apply (inv_live_upd d); [done..|]. live_tac Hl.
Qed.

Lemma owner_drop_spec fuel h d r : h = HOwner \/ h = HDrain ->
  wp inv (owner_drop fuel) (r ⊎ {[+ THold h d +]}) (fun _ r' => r' = r).
Proof.
  intros Hh. apply wp_bind. eapply wp_mono, poison_header_spec. intros x r' ->.
  apply attachment_drop_spec. tauto.
Qed.

Lemma begin_drain_spec fuel att d r : wp inv (begin_drain fuel att) (r ⊎ {[+ THold HOwner d +]}) (fun x r' =>
    match x with Ok att' => att' = att /\ r' = r ⊎ {[+ THold HDrain d +]} | Err _ => r' = r end).
Proof.
  apply wp_bind. eapply wp_mono, transition_spec. intros [[]|e] r' ->; [done|].
  apply wp_bind. eapply wp_mono, owner_drop_spec; [|by left]. by intros _ r' ->.
Qed.

(** The borrow of a drained payload takes the exclusive token. *)
Lemma try_payload_mut_spec att d r : payload att - base (mapping att) = off d ->
  wp inv (try_payload_mut att) (r ⊎ {[+ THold HDrain d +]}) (fun x r' =>
    match x with Ok o => o = off d /\ r' = r ⊎ {[+ THold HExcl d +]} | Err _ => r' = r ⊎ {[+ THold HDrain d +]} end).
Proof.
  intros Ho. unfold try_payload_mut, is_drained, snapshot.
  apply wp_try_bind, wp_try_bind, wp_bind, wp_load. intros m fr HI.
  destruct (inv_handle _ _ HDrain d HI (handle_in _ _ _)) as (ph & a & n & Hm & Ha & Hn & Hl).
  destruct (decide (ph = Draining /\ a = 1 /\ n = 0)) as [(-> & -> & ->)|Hno].
  - exists (r ⊎ {[+ THold HExcl d +]}). rewrite Hm, decode_word by done. split.
    + exists Draining, 1, 0. split; [done|]. split; [done|]. split; [done|]. apply (life_live _ _ _ d).
      pose proof Hl as [L1 L2 L3 L4 L5 L6 L7 L8 L9 L10 L11]. constructor; try done.
      all: try (intros d' k; specialize (L3 d' k); toks_simp).
      all: try (intros h d' Hne; specialize (L4 h d' Hne); toks_simp).
      all: try intros; clear L3 L4 Ha Hn; toks_simp; mult_pos; try split; try lia.
    + apply wp_ret. cbn. apply wp_ret. done.
  - exists (r ⊎ {[+ THold HDrain d +]}). split; [done|]. rewrite Hm, decode_word by done.
    apply wp_ret. cbn [phase attachments admissions].
    destruct (bool_decide_reflect (ph = Draining)), (Z.eqb_spec a 1), (Z.eqb_spec n 0); try done. tauto.
Qed.

Lemma try_close_spec att d r : wp inv (try_close att) (r ⊎ {[+ THold HDrain d +]}) (fun x r' =>
    match x with Ok _ => r' = r ⊎ {[+ THold HDone d +]} | Err (_, att') => att' = att /\ r' = r ⊎ {[+ THold HDrain d +]} end).
Proof.
  unfold try_close. rewrite !pack_word by done. apply wp_bind, wp_cas.
  - intros m fr HI Hm. exists (r ⊎ {[+ THold HDone d +]}). split; [|done].
    pose proof (inv_at m _ Draining 1 0 HI Hm ltac:(done) ltac:(done)) as Hl.
    apply (life_handle _ _ _ _ _ HDrain d) in Hl; [|apply handle_in].
    apply (inv_live_upd d); [done..|]. live_tac Hl; mult_pos; lia.
  - intros m fr HI _. eexists. split; [done|]. by apply wp_ret.
Qed.

(** ** Payload stores *)

Lemma payload_upd d m r ph a n r' v :
  live d m r ph a n ->
  (forall d' k, mult (TInit d' k) r' = mult (TInit d' k) r) ->
  (forall h d', d' <> d -> mult (THold h d') r' = mult (THold h d') r) ->
  (forall h, h <> HExcl -> h <> HDrain -> mult (THold h d) r' = mult (THold h d) r) ->
  mult (THold HDrain d) r' + mult (THold HExcl d) r' = mult (THold HDrain d) r + mult (THold HExcl d) r ->
  mult (THold HExcl d) r' <= mult (THold HExcl d) r ->
  ph <> Open -> (mult (THold HExcl d) r' = 0 -> ph <> Closed -> v = valid_value d) ->
  live d (upd m (Payload (off d)) v) r' ph a n.
Proof.
  intros [L1 L2 L3 L4 L5 L6 L7 L8 L9 L10 L11] Hi Hh Hs Hsum Hle Hph Hv.
  constructor; rewrite ?(Hs HAtt), ?(Hs HOwner), ?(Hs HAdm), ?(Hs HDone) by done; try lia.
  - done.
  - apply holds_upd; [|done]. by apply geometry_notin.
  - intros d' k. by rewrite Hi.
  - intros h d' Hne. rewrite Hh by done. auto.
  - destruct ph; done.
  - done.
  - intros He Hc. rewrite upd_eq. auto.
Qed.

Lemma inv_payload d m ph a n r' v : m Lifecycle = word ph a n -> count_ok a -> count_ok n ->
  live d (upd m (Payload (off d)) v) r' ph a n -> inv (upd m (Payload (off d)) v) r'.
Proof. intros Hm Ha Hn Hl. apply (inv_live d _ _ ph a n); [by rewrite upd_ne|done..]. Qed.

(** While borrowed exclusively the payload may be overwritten with anything; the
    borrow ends with the store of a valid value. *)
Lemma excl_store_spec d r v : wp inv (store (Payload (off d)) v) (r ⊎ {[+ THold HExcl d +]})
  (fun _ r' => r' = r ⊎ {[+ THold HExcl d +]}).
Proof.
  apply wp_store. intros m fr HI. exists (r ⊎ {[+ THold HExcl d +]}). split; [|done].
  destruct (inv_handle _ _ HExcl d HI (handle_in _ _ _)) as (ph & a & n & Hm & Ha & Hn & Hl).
  pose proof (handle_in (THold HExcl d) r fr).
  eapply inv_payload; [done..|]. eapply payload_upd; [exact Hl|try done..|intros; lia].
  intros ->. destruct (live_phase _ _ _ _ _ _ Hl). lia.
Qed.

Lemma excl_return_spec d r : wp inv (store (Payload (off d)) (valid_value d)) (r ⊎ {[+ THold HExcl d +]})
  (fun _ r' => r' = r ⊎ {[+ THold HDrain d +]}).
Proof.
  apply wp_store. intros m fr HI. exists (r ⊎ {[+ THold HDrain d +]}). split; [|done].
  destruct (inv_handle _ _ HExcl d HI (handle_in _ _ _)) as (ph & a & n & Hm & Ha & Hn & Hl).
  pose proof (handle_in (THold HExcl d) r fr).
  eapply inv_payload; [done..|]. eapply payload_upd; [exact Hl|..|done].
  1-5: intros; toks_simp.
  intros ->. destruct (live_phase _ _ _ _ _ _ Hl). lia.
Qed.

(** After the close the host may reuse the bytes. *)
Lemma reclaim_spec d r v : wp inv (store (Payload (off d)) v) (r ⊎ {[+ THold HDone d +]})
  (fun _ r' => r' = r ⊎ {[+ THold HDone d +]}).
Proof.
  apply wp_store. intros m fr HI. exists (r ⊎ {[+ THold HDone d +]}). split; [|done].
  destruct (inv_handle _ _ HDone d HI (handle_in _ _ _)) as (ph & a & n & Hm & Ha & Hn & Hl).
  pose proof (live_done _ _ _ _ _ _ Hl (handle_in _ _ _)) as ->.
  eapply inv_payload; [done..|]. eapply payload_upd; [exact Hl|done..].
Qed.

(** ** Attaching *)

Lemma wp_geometry l v h d r : (l, v) ∈ geometry_writes d -> 0 < mult (THold h d) r ->
  wp inv (load l) r (fun x r' => x = v /\ r' = r).
Proof.
  intros Hin Hh. apply wp_load. intros m fr HI. exists r. split; [done|]. split; [|done].
  assert (Hp : 0 < mult (THold h d) (r ⊎ fr)) by (rewrite mult_union; pose proof (mult_nonneg (THold h d) fr); lia).
  destruct (inv_handle _ _ _ _ HI Hp) as (ph & a & n & _ & _ & _ & Hl).
  pose proof (live_geometry _ _ _ _ _ _ Hl) as Hg. unfold holds_values in Hg. rewrite Forall_forall in Hg.
  apply (Hg (l, v)). by apply list_elem_of_In.
Qed.

Lemma wp_geometry_bytes ls vs h d r : length ls = length vs ->
  (forall w, w ∈ combine ls vs -> w ∈ geometry_writes d) -> 0 < mult (THold h d) r ->
  wp inv (load_all ls) r (fun xs r' => xs = vs /\ r' = r).
Proof.
  intros Hlen Hin Hh. revert vs Hlen Hin. induction ls as [|l ls IH]; intros [|v vs] Hlen Hin; try done.
  cbn [load_all]. apply wp_bind. eapply wp_mono, (wp_geometry l v h d); [|apply Hin; left|done].
  intros x r' [-> ->]. apply wp_bind. eapply wp_mono, (IH vs).
  - intros xs r' [-> ->]. apply wp_ret. done.
  - cbn in Hlen. lia.
  - intros w Hw. apply Hin. by right.
Qed.

Lemma encode_length d : length (encode d) = ENCODED_LEN.
Proof. by destruct d. Qed.

(** What a participant of type [t] learns: the payload it was given is the
    published one, at its displacement, and of its own layout. *)
Lemma validate_payload_spec (t : PodType) self r :
  wp inv (validate_payload (H0 := t) self) r (fun x r' =>
    match x with
    | Ok p => p - base self = off (layout_of (H := t)) /\ r' = r ⊎ {[+ THold HSeen (layout_of (H := t)) +]}
    | Err _ => r' = r \/ exists d, r' = r ⊎ {[+ THold HSeen d +]}
    end).
Proof.
  unfold validate_payload, snapshot. apply wp_try_bind, wp_bind, wp_load. intros m fr HI.
  destruct (inv_word _ _ HI) as (ph & a & n & Hm & Ha & Hn). rewrite Hm, decode_word by done.
  destruct (decide (ph = Open)) as [->|Hne].
  - pose proof (inv_at _ _ _ _ _ HI Hm Ha Hn) as Hlife. inversion Hlife as [? [|]|? ? ? [|]|? d ? ? Hl]; subst; try done.
    exists (r ⊎ {[+ THold HSeen d +]}). split.
    { eapply inv_live; [done..|]. pose proof Hl as [L1 L2 L3 L4 L5 L6 L7 L8 L9 L10 L11]. constructor; try done.
      all: try (intros d' k; specialize (L3 d' k); toks_simp).
      all: try (intros h d' Hne; specialize (L4 h d' Hne); toks_simp).
      all: try intros; clear L3 L4 Ha Hn; toks_simp. }
    apply wp_ret. cbn [phase]. rewrite bool_decide_true by done. cbn [negb].
    assert (Hh : 0 < mult (THold HSeen d) (r ⊎ {[+ THold HSeen d +]})).
    { rewrite mult_union, mult_single, decide_True by done. pose proof (mult_nonneg (THold HSeen d) r). lia. }
    apply wp_bind. eapply wp_mono, (wp_geometry _ (off d) HSeen d); [|left|done]. intros x r' [-> ->].
    apply wp_bind. eapply wp_mono, (wp_geometry _ (size d) HSeen d); [|right; left|done]. intros x r' [-> ->].
    apply wp_bind. eapply wp_mono, (wp_geometry_bytes _ (encode d) HSeen d);
      [|by rewrite bytes_at_length, encode_length|intros w Hw; by right; right|done].
    intros xs r' [-> ->]. apply wp_ret. rewrite decode_encode by apply (live_local _ _ _ _ _ _ Hl).
    cbn [map_err result_bind]. destruct (validate d) as [[]|e] eqn:Hv; cbn [map_err result_bind]; [|by right; exists d].
    apply validate_ok in Hv as ->.
    destruct (negb (size layout_of =? size_of)); [by right; exists layout_of|].
    destruct (checked_payload self (off layout_of)) as [p|e] eqn:Hp; [|by right; exists layout_of].
    apply checked_payload_ok in Hp as (-> & _). split; [lia|done].
  - exists r. split; [done|]. apply wp_ret. cbn [phase]. rewrite bool_decide_false by done. cbn. by left.
Qed.

Lemma attach_spec fuel (t : PodType) self r :
  wp inv (attach fuel (H0 := t) self) r (fun x r' =>
    match x with
    | Ok att => payload att - base (mapping att) = off (layout_of (H := t)) /\
                r' = r ⊎ {[+ THold HAtt (layout_of (H := t)) +]}
    | Err _ => r' = r \/ exists d, r' = r ⊎ {[+ THold HSeen d +]}
    end).
Proof.
  apply wp_try_bind. eapply wp_mono, validate_payload_spec. intros [p|e] r'; [|done]. intros [Hp ->].
  set (d := layout_of). apply wp_word_loop. intros ph a n Ha Hn. unfold attach_body. rewrite decode_word by done.
  cbn [phase attachments]. destruct (bool_decide_reflect (ph = Open)) as [->|_]; [|by right; exists d]. cbn [negb].
  destruct (Z.eqb_spec a MAX_COUNT) as [|Hmax]; [by right; exists d|]. change MAX_COUNT with (2 ^ 28 - 1) in Hmax.
  assert (Ha' : count_ok (a + 1)) by (unfold count_ok in *; lia).
  replace (word Open a n + ATTACHMENT_ONE) with (word Open (a + 1) n)
    by (change ATTACHMENT_ONE with 1; unfold word; lia).
  apply (wp_word_cas _ _ _ _ (r ⊎ {[+ THold HAtt d +]})); [|done].
  intros m fr HI Hm. pose proof (inv_at _ _ _ _ _ HI Hm Ha Hn) as Hl.
  apply (life_handle _ _ _ _ _ HSeen d) in Hl; [|apply handle_in].
  apply (inv_live_upd d); [done..|]. live_tac Hl.
Qed.

(** ** Initializing *)

(** The write sequence of an initializer. *)
Lemma init_writes_nodup d i j w w' : init_writes d !! i = Some w -> init_writes d !! j = Some w' ->
  w.1 = w'.1 -> i = j.
Proof.
  intros Hi Hj Heq.
  assert (Hnd : NoDup (map fst (init_writes d))).
  { assert (map fst (init_writes d) = GPayloadOffset :: GPayloadLen :: bytes_at GDescriptor ENCODED_LEN ++ [Payload (off d)]) as ->.
    { by destruct d. }
    generalize (off d). intros o. apply (bool_decide_unpack _). vm_compute. exact I. }
  eapply NoDup_lookup; [exact Hnd|..]; change (map fst ?x) with (fst <$> x); rewrite list_lookup_fmap.
  - rewrite Hi. done.
  - rewrite Hj. cbn. by rewrite Heq.
Qed.

Lemma life_initializing m r fr ph a n d k : life m (r ⊎ {[+ TInit d k +]} ⊎ fr) ph a n ->
  (ph = Initializing \/ ph = Poisoned) /\ a = 0 /\ n = 0 /\ describes_local d /\
  (forall t, mult t r + mult t fr = 0) /\ holds_values m (take k (init_writes d)).
Proof.
  intros Hl. pose proof (handle_in (TInit d k) r fr) as Hin.
  inversion Hl as [? Hph Ht|? d' k' Hph Hloc Ht Hw|? ? ? ? Hlive]; subst.
  - rewrite Ht in Hin. lia.
  - rewrite Ht in Hin. case_decide as E; [injection E as <- <-|lia]. do 4 (split; [done|]). split; [|done].
    intros t. specialize (Ht t). autorewrite with mult in Ht. case_decide; mult_pos; lia.
  - rewrite (live_init _ _ _ _ _ _ Hlive) in Hin. lia.
Qed.

Lemma init_store_spec d k l v r : init_writes d !! k = Some (l, v) ->
  wp inv (store l v) (r ⊎ {[+ TInit d k +]}) (fun _ r' => r' = r ⊎ {[+ TInit d (S k) +]}).
Proof.
  intros Hk. apply wp_store. intros m fr (ph & a & n & Hm & Ha & Hn & Hl). exists (r ⊎ {[+ TInit d (S k) +]}). split; [|done].
  apply life_initializing in Hl as (Hph & -> & -> & Hloc & Ht & Hw).
  assert (Hne : l <> Lifecycle).
  { intros ->. eapply (init_notin d (S k)); [..|apply list_elem_of_In, (in_map fst _ (Lifecycle, v)), list_elem_of_In]; try done.
    apply elem_of_take. exists k. split; [done|lia]. }
  exists ph, 0, 0. rewrite upd_ne by done. do 3 (split; [done|]).
  apply (life_init _ _ _ d (S k)); [done|done|..].
  - intros t. specialize (Ht t). autorewrite with mult. case_decide; lia.
  - erewrite take_S_r by done. apply Forall_app. split; [|constructor; [apply upd_eq|constructor]].
    apply holds_upd; [|done]. intros Hin. apply list_elem_of_In, in_map_iff in Hin as (w & Hfst & Hin).
    apply list_elem_of_In, elem_of_take in Hin as (i & Hi & Hlt).
    pose proof (init_writes_nodup d i k w (l, v) Hi Hk Hfst). lia.
Qed.

Lemma init_store_all_spec d ws k r : (forall i w, ws !! i = Some w -> init_writes d !! (k + i)%nat = Some w) ->
  wp inv (store_all ws) (r ⊎ {[+ TInit d k +]}) (fun _ r' => r' = r ⊎ {[+ TInit d (k + length ws) +]}).
Proof.
  revert k. induction ws as [|[l v] ws IH]; intros k Hws.
  - apply wp_ret. cbn. by rewrite Nat.add_0_r.
  - cbn [store_all]. apply wp_bind. eapply wp_mono, init_store_spec; cycle 1.
    { rewrite <- (Nat.add_0_r k). by apply Hws. }
    intros [] r' ->. cbn [length]. rewrite <- Nat.add_succ_comm. apply IH.
    intros i w Hi. rewrite Nat.add_succ_comm. by apply Hws.
Qed.

Lemma init_poison_spec d k r : wp inv initialization_poison_drop (r ⊎ {[+ TInit d k +]}) (fun _ r' => r' = r).
Proof.
  unfold initialization_poison_drop. rewrite pack_word by done. apply wp_store.
  intros m fr (ph & a & n & Hm & Ha & Hn & Hl). exists r. split; [|done].
  apply life_initializing in Hl as (Hph & -> & -> & Hloc & Ht & Hw).
  exists Poisoned, 0, 0. rewrite upd_eq. do 3 (split; [done|]). apply life_fresh; [by right|].
  intros t. rewrite mult_union. apply Ht.
Qed.

Lemma init_count d : length (init_writes d) = 51%nat.
Proof. by destruct d. Qed.

(** Publication. *)
Lemma mapping_publish d m r fr : inv m (r ⊎ {[+ TInit d 51 +]} ⊎ fr) -> m Lifecycle = word Initializing 0 0 ->
  inv (upd m Lifecycle (word Open 1 0)) (r ⊎ {[+ THold HOwner d +]} ⊎ fr).
Proof.
  intros HI Hm. pose proof (inv_at _ _ _ _ _ HI Hm ltac:(done) ltac:(done)) as Hl.
  apply life_initializing in Hl as (_ & _ & _ & Hloc & Ht & Hw).
  rewrite take_ge in Hw by (rewrite init_count; lia). apply Forall_app in Hw as [Hg Hp].
  apply Forall_inv in Hp. cbn in Hp.
  apply (inv_live_upd d); [done..|]. constructor; try done.
  - apply holds_upd; [|done]. by apply geometry_notin.
  - intros d' k. specialize (Ht (TInit d' k)). toks_simp.
  - intros h d' Hne. specialize (Ht (THold h d')). toks_simp.
  - pose proof (Ht (THold HAtt d)). pose proof (Ht (THold HOwner d)). pose proof (Ht (THold HDrain d)).
    pose proof (Ht (THold HExcl d)). clear Ht. toks_simp.
  - pose proof (Ht (THold HAdm d)). clear Ht. toks_simp.
  - pose proof (Ht (THold HOwner d)). pose proof (Ht (THold HDrain d)).
    pose proof (Ht (THold HExcl d)). clear Ht. toks_simp.
  - pose proof (Ht (THold HExcl d)). clear Ht. intros. toks_simp.
  - pose proof (Ht (THold HDrain d)). pose proof (Ht (THold HExcl d)). clear Ht. toks_simp.
  - pose proof (Ht (THold HDone d)). clear Ht. intros. toks_simp.
Qed.

Lemma try_initialize_spec (t : PodType) self r : describes_local (layout_of (H := t)) ->
  let d := layout_of (H := t) in
  wp inv (try_initialize (H0 := t) self (valid_value d)) r (fun x r' =>
    match x with
    | Returned (Ok att) => payload att - base (mapping att) = off d /\ r' = r ⊎ {[+ THold HOwner d +]}
    | _ => r' = r
    end).
Proof.
  intros Hloc d. unfold try_initialize, try_initialize_in_place.
  destruct (payload_for self) as [p|e] eqn:Hp; [|done]. apply payload_for_ok in Hp as [-> _].
  replace (base self + payload_displacement align_of - base self) with (off d) by (unfold off; cbn; lia).
  rewrite !pack_word by done. apply wp_bind, wp_cas; [|intros m fr HI _; exists r; split; [done|]; by apply wp_ret].
  intros m fr HI Hm. exists (r ⊎ {[+ TInit d 0 +]}). split.
  { pose proof (inv_at _ _ _ _ _ HI Hm ltac:(done) ltac:(done)) as Hl.
    inversion Hl as [? _ Ht|? ? ? [|]|? ? ? ? Hlive]; subst; [|done..|by destruct (live_phase _ _ _ _ _ _ Hlive)].
    exists Initializing, 0, 0. rewrite upd_eq. do 3 (split; [done|]).
    apply (life_init _ _ _ d 0); [by left|done| |constructor].
    intros t'. specialize (Ht t'). autorewrite with mult in *. case_decide; lia. }
  apply wp_bind. eapply wp_mono, (init_store_spec d 0); [|done]. intros [] r' ->.
  apply wp_bind. eapply wp_mono, (init_store_spec d 1); [|done]. intros [] r' ->.
  apply wp_bind. eapply wp_mono, (init_store_all_spec d _ 2).
  2: { intros i w Hi. cbn [Nat.add]. unfold init_writes, geometry_writes. cbn [app lookup list_lookup].
       apply lookup_app_l_Some. exact Hi. }
  intros [] r' ->. rewrite length_combine, bytes_at_length, encode_length.
  apply wp_bind, wp_bind. eapply wp_mono, (init_store_spec d 50); [|by destruct d].
  intros [] r' ->. apply wp_ret, wp_bind, wp_cas.
  - intros m' fr' HI' Hm'. exists (r ⊎ {[+ THold HOwner d +]}). split; [by apply mapping_publish|].
    apply wp_ret. cbn [payload mapping]. split; [unfold off; cbn; lia|done].
  - intros m' fr' HI' _. exists (r ⊎ {[+ TInit d 51 +]}). split; [done|].
    apply wp_bind. eapply wp_mono, init_poison_spec. by intros [] r' ->.
Qed.
End Lifecycle.

(** ** Participants *)

(** A participant maps the shared bytes at its own base and has its own idea of
    the payload type; several may race to initialize. *)
Inductive role :=
| RUser (self : Mapping) (t : PodType) (reads : nat)
| ROwner (self : Mapping) (t : PodType) (reads polls : nat) (drain : bool)
| RPoison.

Section Participants.
Context `{Target}.
Variable fuel : nat.

(** Enters, reads the payload through the guard and leaves, [n] times; a value
    that is not a constructed payload of layout [d] is a panic. *)
Fixpoint visits (att : Attachment) (d : LayoutDescriptor) (n : nat) : prog mcell unit :=
  match n with
  | O => Ret tt
  | S n =>
      let! x := try_enter fuel att in
      match x with
      | Err _ => visits att d n
      | Ok _ =>
          let! v := guard_deref att in
          if negb (v =? valid_value d) then Panic
          else do! guard_drop ;; visits att d n
      end
  end.

(** Polls for the end of the drain; tears the payload down and rebuilds it under
    the exclusive borrow, then closes, and reclaims the bytes once closed. *)
Fixpoint teardown (dr : Attachment) (d : LayoutDescriptor) (polls : nat) : prog mcell unit :=
  match polls with
  | O => draining_drop fuel
  | S polls =>
      let! x := try_payload_mut dr in
      do! match x with
          | Ok o => do! store (Payload o) 0 ;; store (Payload o) (valid_value d)
          | Err _ => Ret tt
          end ;;
      let! y := try_close dr in
      match y with
      | Ok _ => store (Payload (payload dr - base (mapping dr))) 0
      | Err (_, dr) => teardown dr d polls
      end
  end.

Definition participant (ro : role) : prog mcell unit :=
  match ro with
  | RUser self t reads =>
      let! x := attach fuel (H0 := t) self in
      match x with
      | Err _ => Ret tt
      | Ok att => do! visits att (layout_of (H := t)) reads ;; attachment_drop
      end
  | ROwner self t reads polls drain =>
      let! u := try_initialize (H0 := t) self (valid_value (layout_of (H := t))) in
      match u with
      | Returned (Ok att) =>
          do! visits att (layout_of (H := t)) reads ;;
          if drain then
            let! x := begin_drain fuel att in
            match x with
            | Ok dr => teardown dr (layout_of (H := t)) polls
            | Err _ => Ret tt
            end
          else owner_drop fuel
      | _ => Ret tt
      end
  | RPoison => do! poison fuel ;; Ret tt
  end.

Definition role_ok (ro : role) : Prop :=
  match ro with
  | ROwner _ t _ _ _ => describes_local (layout_of (H := t))
  | _ => True
  end.

(** Holding no handle: only knowledge of the past. *)
Definition no_handle (r : toks) : Prop :=
  forall t, (forall d, t <> THold HSeen d) -> (forall d, t <> THold HDone d) -> mult t r = 0.

Lemma visits_spec att h d n r : payload att - base (mapping att) = off d -> 0 < mult (THold h d) r ->
  wp inv (visits att d n) r (fun _ r' => r' = r).
Proof.
  intros Ho Hh. induction n as [|n IH]; cbn [visits]; [by apply wp_ret|].
  apply wp_bind. eapply wp_mono, mapping_enter_spec, Hh. intros [[]|e] r' ->; [|exact IH].
  assert (Ha : 0 < mult (THold HAdm d) (r ⊎ {[+ THold HAdm d +]})).
  { rewrite mult_union, mult_single, decide_True by done. pose proof (mult_nonneg (THold HAdm d) r). lia. }
  apply wp_bind. eapply wp_mono, (guard_deref_spec att d); [|done..]. intros v r' [-> ->].
  rewrite Z.eqb_refl. cbn [negb]. apply wp_bind. eapply wp_mono, guard_drop_spec. intros [] r' ->. exact IH.
Qed.

Lemma teardown_spec dr d polls r : payload dr - base (mapping dr) = off d -> no_handle r ->
  wp inv (teardown dr d polls) (r ⊎ {[+ THold HDrain d +]}) (fun _ r' => no_handle r').
Proof.
  intros Ho Hr. induction polls as [|polls IH]; cbn [teardown].
  { eapply wp_mono, owner_drop_spec; [|by right]. by intros [] r' ->. }
  apply wp_bind. eapply wp_mono, try_payload_mut_spec, Ho. intros x r' Hx. apply wp_bind.
  assert (Hmid : wp inv match x with
      | Ok o => do! store (Payload o) 0 ;; store (Payload o) (valid_value d)
      | Err _ => Ret tt end r' (fun _ r' => r' = r ⊎ {[+ THold HDrain d +]})).
  { destruct x as [o|e]; [destruct Hx as [-> ->]|by apply wp_ret].
    apply wp_bind. eapply wp_mono, excl_store_spec. intros [] r' ->. apply excl_return_spec. }
  eapply wp_mono, Hmid. intros [] r'' ->. apply wp_bind. eapply wp_mono, try_close_spec.
  intros [c|[e dr']] r2; [intros ->|intros [-> ->]; exact IH].
  rewrite Ho. eapply wp_mono, reclaim_spec. intros [] r3 -> t Hs Hd. by rewrite mult_union, Hr, mult_single, decide_False.
Qed.

Lemma handle_only (t : mtok) : 0 < mult t (∅ ⊎ {[+ t +]}).
Proof. rewrite mult_union, mult_empty, mult_single, decide_True by done. lia. Qed.

Lemma no_handle_seen r d : no_handle r -> no_handle (r ⊎ {[+ THold HSeen d +]}).
Proof. intros Hr t Hs Hd. by rewrite mult_union, Hr, mult_single, decide_False. Qed.

Lemma no_handle_all (ts : list (prog mcell unit)) rs :
  Forall2 (fun p r => wp inv p r (fun _ r' => no_handle r')) ts rs -> Forall (fun p => p = Ret tt) ts ->
  no_handle (⋃+ rs).
Proof.
  induction 1 as [|p r ts rs Hp _ IH]; intros Hdone; [done|].
  inversion Hdone as [|? ? -> Hts]; subst. intros t Hs Hd. cbn. rewrite mult_union, IH by done.
  rewrite (Hp t) by done. done.
Qed.

(** Without handles the lifecycle word counts nothing. *)
Lemma no_handle_word m r : inv m r -> no_handle r -> exists ph, m Lifecycle = pack ph 0 0 /\ ph <> Initializing.
Proof.
  intros (ph & a & n & Hw & Ha & Hn & Hl) Hr. exists ph.
  inversion Hl as [? [->| ->]|? d k Hph Hloc Ht|? d ? ? Hlive]; subst; try (rewrite pack_word; done).
  - specialize (Ht (TInit d k)). rewrite decide_True, Hr in Ht; done.
  - destruct Hlive as [L1 L2 L3 L4 L5 L6 L7 L8 L9 L10 L11]. rewrite !Hr in L5 by done. rewrite Hr in L6 by done.
    subst. rewrite pack_word by done. split; [done|]. by intros ->.
Qed.

Lemma role_spec ro : role_ok ro -> wp inv (participant ro) ∅ (fun _ r' => no_handle r').
Proof.
  assert (He : no_handle ∅) by done. intros Hok. destruct ro as [self t reads|self t reads polls drain|]; cbn [participant].
  - apply wp_bind. eapply wp_mono, attach_spec. intros [att|e] r'.
    + intros [Ho ->]. apply wp_bind. eapply wp_mono, (visits_spec att HAtt); [|done|apply handle_only].
      intros [] r' ->. eapply wp_mono, attachment_drop_spec; [|by left]. by intros [] r' ->.
    + intros [->|[d ->]]; apply wp_ret; [done|]. by apply no_handle_seen.
  - apply wp_bind. eapply wp_mono, try_initialize_spec, Hok. intros [[att|e]|] r' Hx; [|subst; by apply wp_ret..].
    destruct Hx as [Ho ->]. apply wp_bind. eapply wp_mono, (visits_spec att HOwner); [|done|apply handle_only].
    intros [] r' ->. destruct drain.
    + apply wp_bind. eapply wp_mono, begin_drain_spec. intros [dr|e] r'; [|intros ->; by apply wp_ret].
      intros [-> ->]. by apply teardown_spec.
    + eapply wp_mono, owner_drop_spec; [|by left]. by intros [] r' ->.
  - apply wp_bind. eapply wp_mono, poison_header_spec. intros x r' ->. by apply wp_ret.
Qed.

Lemma participants_ok roles m : Forall role_ok roles -> m Lifecycle = pack Uninitialized 0 0 ->
  pool_ok inv (fun _ r' => no_handle r') (m, participant <$> roles).
Proof.
  intros Hok Hm. apply pool_ok_start.
  - exists Uninitialized, 0, 0. rewrite Hm, pack_word by done. do 3 (split; [done|]).
    apply life_fresh; [by left|]. intros t. apply mult_empty.
  - apply Forall_fmap. eapply Forall_impl, Hok. intros ro. apply role_spec.
Qed.
End Participants.

(** C2.  In every interleaving of any number of participants that race to
    initialize one mapping, attach to it from different bases and with different
    types, read the payload, drain, tear down, poison or stop anywhere: an
    admitted participant only ever reads a fully constructed payload of its own
    layout, never one that is being built, exclusively borrowed or reclaimed, and
    no attachment or admission count underflows. *)
Theorem mapping_payload_protected `{Target} fuel (roles : list role) m0 m ts i :
  Forall role_ok roles -> m0 Lifecycle = pack Uninitialized 0 0 ->
  rtc pstep (m0, participant fuel <$> roles) (m, ts) -> ts !! i <> Some Panic.
Proof.
  intros Hok Hm Hs. apply (pool_no_panic _ _ _ (m, ts) i Hs (participants_ok fuel roles m0 Hok Hm)).
Qed.

(** When all participants have returned, every attachment and admission has
    been given back: the lifecycle word carries two zero counts, whatever the
    phase the race ended in. *)
Theorem mapping_counts_return_to_zero `{Target} fuel (roles : list role) m0 m ts :
  Forall role_ok roles -> m0 Lifecycle = pack Uninitialized 0 0 ->
  rtc pstep (m0, participant fuel <$> roles) (m, ts) -> Forall (fun p => p = Ret tt) ts ->
  exists ph, m Lifecycle = pack ph 0 0 /\ ph <> Initializing.
Proof.
  intros Hok Hm Hs Hdone.
  destruct (pool_adequacy _ _ _ _ Hs (participants_ok fuel roles m0 Hok Hm)) as (rs & Hall & HI).
  eapply no_handle_word, no_handle_all; done.
Qed.

(** Two owners race, one user maps the bytes elsewhere, one has the wrong type. *)
Definition demo_roles : list role :=
  let t := {| FINGERPRINT := 41; size_of := 8; align_of := 8 |} in
  let t' := {| FINGERPRINT := 17; size_of := 8; align_of := 8 |} in
  [ROwner {| base := 4096; len := 512 |} t 1 2 true;
   ROwner {| base := 8192; len := 512 |} t' 1 2 true;
   RUser {| base := 65536; len := 512 |} t 2;
   RUser {| base := 4096; len := 512 |} t' 2].
Definition demo_init : mcell -> Z := fun _ => 0.
Definition demo_sched : list nat := replicate 60 0%nat ++ round_robin 4 150.
Definition demo_mapping : (mcell -> Z) * list (prog mcell unit) :=
  run_schedule (demo_init, participant 5 <$> demo_roles) demo_sched.

Lemma demo_roles_ok : Forall role_ok demo_roles.
Proof. repeat constructor; cbn; try lia; vm_compute; congruence. Qed.

Lemma mapping_payload_protected_witness : demo_mapping.2 !! 2%nat <> Some Panic.
Proof.
  apply (mapping_payload_protected 5 demo_roles demo_init demo_mapping.1 demo_mapping.2 2 demo_roles_ok eq_refl).
  rewrite <- surjective_pairing. apply run_schedule_steps.
Defined.

Lemma mapping_counts_return_to_zero_witness : exists ph, demo_mapping.1 Lifecycle = pack ph 0 0 /\ ph <> Initializing.
Proof.
  apply (mapping_counts_return_to_zero 5 demo_roles demo_init demo_mapping.1 demo_mapping.2 demo_roles_ok eq_refl).
  - rewrite <- surjective_pairing. apply run_schedule_steps.
  - replace demo_mapping.2 with (replicate 4 (Ret tt : prog mcell unit)) by (vm_compute; reflexivity).
    repeat constructor.
Defined.
