(* ===== verification/Snzi.v ===== *)
(** The hierarchical scalable nonzero indicator of [shmem_exec_obj/v2/src/snzi.rs].

    A [Snzi<NODES>] is a root counter, a poison word and [NODES] packed node
    words stored breadth first with fanout four.  The object is usually a field
    of a larger shared object, so its cells are [Root], [Poison] and [Node i]
    of a cell type that also has the cells [Ext y] of the surrounding object.
    The retry loops take a bound [fuel] on their iterations; the recursion over
    the tree is bounded by the node index, which decreases at each parent. *)

From S2P Require Import Prelude Conc.

(** ** Constants and packed words *)

Definition FANOUT : Z := 4.
Definition COUNT_BITS : Z := 16.
Definition COUNT_MASK : Z := 2 ^ COUNT_BITS - 1.
Definition HALF_BIT : Z := 2 ^ COUNT_BITS.
Definition VERSION_SHIFT : Z := COUNT_BITS + 1.
Definition VERSION_BITS : Z := 64 - VERSION_SHIFT.
Definition VERSION_MASK : Z := 2 ^ VERSION_BITS - 1.
Definition TOKEN_LEAF_BITS : Z := 16.
Definition TOKEN_LEAF_MASK : Z := 2 ^ TOKEN_LEAF_BITS - 1.
Definition TOKEN_GENERATION_SHIFT : Z := TOKEN_LEAF_BITS.
Definition TOKEN_RESERVED_BIT : Z := 2 ^ 63.
Definition MAX_LEAVES : Z := 2 ^ TOKEN_LEAF_BITS.
Definition POISON_NONE : Z := 0.

Definition state_count (state : Z) : Z := Z.land state COUNT_MASK.
Definition state_is_half (state : Z) : bool := negb (Z.land state HALF_BIT =? 0).
Definition state_generation (state : Z) : Z := Z.shiftr state VERSION_SHIFT.
Definition state_with_count (generation count : Z) : Z :=
  Z.lor (Z.shiftl generation VERSION_SHIFT) count.
Definition state_half (generation : Z) : Z := Z.lor (Z.shiftl generation VERSION_SHIFT) HALF_BIT.

(** ** Poison reasons and errors *)

Inductive PoisonReason :=
| NodeCountOverflow
| GenerationExhausted
| RootCountOverflow
| InvariantViolation
| CompensationOverflow.

Definition code (reason : PoisonReason) : Z :=
  match reason with
  | NodeCountOverflow => 1
  | GenerationExhausted => 2
  | RootCountOverflow => 3
  | InvariantViolation => 4
  | CompensationOverflow => 5
  end.

Definition from_code (c : Z) : option PoisonReason :=
  if c =? 0 then None
  else if c =? 1 then Some NodeCountOverflow
  else if c =? 2 then Some GenerationExhausted
  else if c =? 3 then Some RootCountOverflow
  else if c =? 4 then Some InvariantViolation
  else if c =? 5 then Some CompensationOverflow
  else Some InvariantViolation.

Inductive SnziError :=
| InvalidLeaf (leaf leaf_count : Z)
| MalformedToken
| GenerationMismatch (leaf token_generation current_generation : Z)
| InactiveToken (leaf generation : Z)
| Poisoned (reason : PoisonReason).

(** ** Arrival tokens and their scalar encoding *)

Record ArrivalToken := { leaf : Z; generation : Z }.

Definition into_raw (t : ArrivalToken) : Z :=
  Z.lor (wrap 64 (Z.shiftl (generation t) TOKEN_GENERATION_SHIFT)) (leaf t).

Definition decode_raw (raw : Z) : result (Z * Z) SnziError :=
  if negb (Z.land raw TOKEN_RESERVED_BIT =? 0) then Err MalformedToken
  else
    let generation := Z.shiftr raw TOKEN_GENERATION_SHIFT in
    if (generation =? 0) || (VERSION_MASK <? generation) then Err MalformedToken
    else Ok (Z.land raw TOKEN_LEAF_MASK, generation).

(** ** The tree geometry *)

Fixpoint valid_levels (fuel : nat) (NODES total level_width : Z) : bool :=
  match fuel with
  | O => false
  | S fuel =>
      if total =? NODES then level_width <=? MAX_LEAVES
      else if (NODES <? total) || (MAX_LEAVES / FANOUT <? level_width) then false
      else
        let level_width := level_width * FANOUT in
        if NODES - total <? level_width then false
        else valid_levels fuel NODES (total + level_width) level_width
  end.

(** Level widths quadruple and are at most [MAX_LEAVES = 4^8]: nine iterations
    are enough for the loop to return. *)
Definition is_valid_node_count (NODES : Z) : bool :=
  if NODES <? FANOUT then false else valid_levels 9 NODES FANOUT FANOUT.

Definition layout_leaf_count (NODES : Z) : Z :=
  if negb (is_valid_node_count NODES) then 0 else NODES - (NODES - FANOUT) / FANOUT.

Definition leaf_start (NODES : Z) : Z := (NODES - FANOUT) / FANOUT.

(** ** Cells and operations *)

Inductive cell (Y : Type) :=
| Root
| Poison
| Node (i : Z)
| Ext (y : Y).
Arguments Root {Y}.
Arguments Poison {Y}.
Arguments Node {Y} _.
Arguments Ext {Y} _.

#[export] Instance cell_eq_dec `{EqDecision Y} : EqDecision (cell Y).
Proof. solve_decision. Defined.

Record SnziSnapshot := {
  root_count : Z;
  active_nodes : Z;
  half_nodes : Z;
  local_count_sum : Z;
  invalid_nodes : Z;
  poison : option PoisonReason
}.

Definition snapshot_is_quiescent (s : SnziSnapshot) : bool :=
  (root_count s =? 0) && (active_nodes s =? 0) && (half_nodes s =? 0)
  && (invalid_nodes s =? 0) && (match poison s with None => true | Some _ => false end).

Section Operations.
Context {Y : Type}.
Variable NODES : Z.
Variable fuel : nat.
#[local] Abbreviation prog := (prog (cell Y)).

Definition leaf_count : Z := layout_leaf_count NODES.

Definition leaf_node (leaf : Z) : result Z SnziError :=
  if leaf_count <=? leaf then Err (InvalidLeaf leaf leaf_count)
  else Ok (leaf_start NODES + leaf).

(** [&self.nodes[index]]: an index out of range panics. *)
Definition node_at (index : Z) : prog (cell Y) :=
  if (0 <=? index) && (index <? NODES) then Ret (Node index) else Panic.

Definition poison_reason : prog (option PoisonReason) :=
  let! c := load Poison in Ret (from_code c).

Definition ensure_healthy : prog (result unit SnziError) :=
  let! reason := poison_reason in
  match reason with
  | Some reason => Ret (Err (Poisoned reason))
  | None => Ret (Ok tt)
  end.

Definition poison_with (reason : PoisonReason) : prog SnziError :=
  let! _ignored := compare_exchange Poison POISON_NONE (code reason) in
  let! recorded := poison_reason in
  Ret (Poisoned (match recorded with Some r => r | None => reason end)).

Definition root_arrive_body (_ : unit) : prog (unit + result unit SnziError) :=
  do!^ ensure_healthy ;;
  let! count := load Root in
  if count =? u64_max then
    let! e := poison_with RootCountOverflow in Ret (inr (Err e))
  else
    let! x := compare_exchange Root count (count + 1) in
    match x with Ok _ => Ret (inr (Ok tt)) | Err _ => Ret (inl tt) end.
Definition root_arrive : prog (result unit SnziError) := loop fuel root_arrive_body tt.

Definition root_depart_body (_ : unit) : prog (unit + result unit SnziError) :=
  do!^ ensure_healthy ;;
  let! count := load Root in
  if count =? 0 then
    let! e := poison_with InvariantViolation in Ret (inr (Err e))
  else
    let! x := compare_exchange Root count (count - 1) in
    match x with Ok _ => Ret (inr (Ok tt)) | Err _ => Ret (inl tt) end.
Definition root_depart : prog (result unit SnziError) := loop fuel root_depart_body tt.

(** One iteration of [depart_node]; [depart_parent] is the recursive call. *)
Definition depart_node_body (depart_parent : prog (result unit SnziError))
    (node : Z) (expected : option (Z * Z)) (_ : unit) : prog (unit + result unit SnziError) :=
  do!^ ensure_healthy ;;
  let! nd := node_at node in
  let! state := load nd in
  let count := state_count state in
  let generation := state_generation state in
  let half := state_is_half state in
  if half && negb (count =? 0) then
    let! e := poison_with InvariantViolation in Ret (inr (Err e))
  else
    do!^ (match expected with
          | Some (leaf, expected_generation) =>
              if negb (generation =? expected_generation) then
                Ret (Err (GenerationMismatch leaf expected_generation generation))
              else if half || (count =? 0) then
                Ret (Err (InactiveToken leaf expected_generation))
              else Ret (Ok tt)
          | None =>
              if half || (count =? 0) then
                let! e := poison_with InvariantViolation in Ret (Err e)
              else Ret (Ok tt)
          end) ;;
    let decremented := state_with_count generation (count - 1) in
    let! x := compare_exchange nd state decremented in
    match x with
    | Ok _ =>
        if count =? 1 then do!^ depart_parent ;; Ret (inr (Ok tt))
        else Ret (inr (Ok tt))
    | Err _ => Ret (inl tt)
    end.

Fixpoint depart_node_at (depth : nat) (node : Z) (expected : option (Z * Z)) :
    prog (result unit SnziError) :=
  match depth with
  | O => Spin
  | S depth =>
      let depart_parent :=
        if node <? FANOUT then root_depart
        else depart_node_at depth ((node - FANOUT) / FANOUT) None in
      loop fuel (depart_node_body depart_parent node expected) tt
  end.

(** The recursion depth: the parent of node [i] has a smaller index. *)
Definition depart_node (node : Z) (expected : option (Z * Z)) : prog (result unit SnziError) :=
  depart_node_at (S (Z.to_nat node)) node expected.

Definition depart_parent (node : Z) : prog (result unit SnziError) :=
  if node <? FANOUT then root_depart
  else depart_node ((node - FANOUT) / FANOUT) None.

Definition bump_redundant (redundant : Z) : prog (result Z SnziError) :=
  match checked_add usize_bits redundant 1 with
  | Some n => Ret (Ok n)
  | None => let! e := poison_with CompensationOverflow in Ret (Err e)
  end.

(** One iteration of the arrival loop; the loop state is the pair of
    [arrived_generation] and [redundant_parent_arrivals]. *)
Definition arrive_node_body (arrive_parent : prog (result unit SnziError))
    (node : Z) (st : option Z * Z) :
    prog ((option Z * Z) + result (Z * Z) SnziError) :=
  match st with
  | (Some arrived, redundant) => Ret (inr (Ok (arrived, redundant)))
  | (None, redundant) =>
      do!^ ensure_healthy ;;
      let! nd := node_at node in
      let! state := load nd in
      let count := state_count state in
      let generation := state_generation state in
      if state_is_half state then
        if negb (count =? 0) then
          let! e := poison_with InvariantViolation in Ret (inr (Err e))
        else
          do!^ arrive_parent ;;
          let active := state_with_count generation 1 in
          let! x := compare_exchange nd state active in
          match x with
          | Ok _ => Ret (inl (None, redundant))
          | Err _ => let!^ r := bump_redundant redundant in Ret (inl (None, r))
          end
      else if count =? 0 then
        if generation =? VERSION_MASK then
          let! e := poison_with GenerationExhausted in Ret (inr (Err e))
        else
          let next_generation := generation + 1 in
          let half := state_half next_generation in
          let! x := compare_exchange nd state half in
          match x with
          | Err _ => Ret (inl (None, redundant))
          | Ok _ =>
              do!^ arrive_parent ;;
              let active := state_with_count next_generation 1 in
              let! y := compare_exchange nd half active in
              match y with
              | Ok _ => Ret (inl (Some next_generation, redundant))
              | Err _ => let!^ r := bump_redundant redundant in Ret (inl (Some next_generation, r))
              end
          end
      else if count =? COUNT_MASK then
        let! e := poison_with NodeCountOverflow in Ret (inr (Err e))
      else
        let incremented := state_with_count generation (count + 1) in
        let! x := compare_exchange nd state incremented in
        match x with
        | Ok _ => Ret (inl (Some generation, redundant))
        | Err _ => Ret (inl (None, redundant))
        end
  end.

(** [while redundant_parent_arrivals != 0 { self.depart_parent(node)?; ... }] *)
Fixpoint compensate (node : Z) (redundant : nat) : prog (result unit SnziError) :=
  match redundant with
  | O => Ret (Ok tt)
  | S n => do!? depart_parent node ;; compensate node n
  end.

Fixpoint arrive_node_at (depth : nat) (node : Z) : prog (result Z SnziError) :=
  match depth with
  | O => Spin
  | S depth =>
      let arrive_parent :=
        if node <? FANOUT then root_arrive
        else do!? arrive_node_at depth ((node - FANOUT) / FANOUT) ;; Ret (Ok tt) in
      let!? x := loop fuel (arrive_node_body arrive_parent node) (None, 0) in
      do!? compensate node (Z.to_nat x.2) ;;
      Ret (Ok x.1)
  end.

Definition arrive_node (node : Z) : prog (result Z SnziError) :=
  arrive_node_at (S (Z.to_nat node)) node.

Definition arrive (leaf : Z) : prog (result ArrivalToken SnziError) :=
  let!? node := Ret (leaf_node leaf) in
  do!? ensure_healthy ;;
  let!? generation := arrive_node node in
  do!? ensure_healthy ;;
  Ret (Ok {| leaf := wrap 16 leaf; generation := generation |}).

Definition depart_token (leaf generation : Z) : prog (result unit SnziError) :=
  let!? node := Ret (leaf_node leaf) in
  do!? ensure_healthy ;;
  do!? depart_node node (Some (leaf, generation)) ;;
  ensure_healthy.

(** [ArrivalToken::depart] *)
Definition depart (t : ArrivalToken) : prog (result unit SnziError) :=
  depart_token (leaf t) (generation t).

Definition depart_raw (raw : Z) : prog (result unit SnziError) :=
  let!? lg := Ret (decode_raw raw) in
  depart_token lg.1 lg.2.

Definition query : prog bool :=
  let! count := load Root in
  if negb (count =? 0) then Ret true
  else let! p := load Poison in Ret (negb (p =? POISON_NONE)).

(** The scan of [debug_snapshot], from node [index], [n] nodes to go. *)
Fixpoint snapshot_nodes (n : nat) (index active half sum invalid : Z) :
    prog (Z * Z * Z * Z) :=
  match n with
  | O => Ret (active, half, sum, invalid)
  | S n =>
      let! nd := node_at index in
      let! state := load nd in
      let count := state_count state in
      if state_is_half state then
        snapshot_nodes n (index + 1) active (half + 1) sum
          (if negb (count =? 0) then invalid + 1 else invalid)
      else if negb (count =? 0) then
        snapshot_nodes n (index + 1) (active + 1) half (Z.min (sum + count) u64_max) invalid
      else snapshot_nodes n (index + 1) active half sum invalid
  end.

Definition debug_snapshot : prog SnziSnapshot :=
  let! c := snapshot_nodes (Z.to_nat NODES) 0 0 0 0 0 in
  let! rc := load Root in
  let! pr := poison_reason in
  match c with
  | (active, half, sum, invalid) =>
      Ret {| root_count := rc; active_nodes := active; half_nodes := half;
             local_count_sum := sum; invalid_nodes := invalid; poison := pr |}
  end.

Definition is_quiescent : prog bool :=
  let! s := debug_snapshot in Ret (snapshot_is_quiescent s).
End Operations.

(** A freshly constructed indicator. *)
Definition new {Y} : cell Y -> Z := fun _ => 0.

(** ** Geometry of the supported trees *)

(** [4 + 16 + ... + 4^k] nodes, for the supported depths [k = 1 .. 8]. *)
Definition level_nodes (k : Z) : Z := (4 ^ (k + 1) - 4) / 3.

Lemma valid_levels_step fuel N k : 1 <= k <= 8 -> 0 <= N ->
  valid_levels (S fuel) N (level_nodes k) (4 ^ k) =
    if level_nodes k =? N then true
    else if (k =? 8) || (N <? level_nodes (k + 1)) then false
    else valid_levels fuel N (level_nodes (k + 1)) (4 ^ (k + 1)).
Proof.
  intros Hk HN. cbn [valid_levels].
  assert (k = 1 \/ k = 2 \/ k = 3 \/ k = 4 \/ k = 5 \/ k = 6 \/ k = 7 \/ k = 8) as Hcases by lia.
  destruct Hcases as [->|[->|[->|[->|[->|[->|[->| ->]]]]]]];
    match goal with |- context [level_nodes ?a =? N] =>
      destruct (Z.eqb_spec (level_nodes a) N); [done|] end.
  all: unfold MAX_LEAVES, TOKEN_LEAF_BITS, FANOUT; cbn [Z.add Pos.add] in *.
  all: repeat match goal with |- context [level_nodes ?a] =>
    let v := eval vm_compute in (level_nodes a) in change (level_nodes a) with v in * end.
  all: repeat match goal with |- context [4 ^ ?a] =>
    let v := eval vm_compute in (4 ^ a) in change (4 ^ a) with v in * end.
  all: repeat (match goal with |- context [?a <? ?b] => destruct (Z.ltb_spec a b) end; cbn [orb Z.eqb Pos.eqb];
    try done; try lia).
Qed.

Lemma level_nodes_succ k : 1 <= k <= 8 -> level_nodes k < level_nodes (k + 1).
Proof.
  intros Hk. assert (k = 1 \/ k = 2 \/ k = 3 \/ k = 4 \/ k = 5 \/ k = 6 \/ k = 7 \/ k = 8) as Hc by lia.
  by destruct Hc as [->|[->|[->|[->|[->|[->|[->| ->]]]]]]].
Qed.

Lemma level_nodes_mono j k : 1 <= j <= k -> k <= 9 -> level_nodes j <= level_nodes k.
Proof.
  intros Hj Hk. replace k with (j + Z.of_nat (Z.to_nat (k - j))) in * by lia.
  induction (Z.to_nat (k - j)) as [|d IH] in Hj, Hk |- *.
  - by rewrite Z.add_0_r.
  - replace (j + Z.of_nat (S d)) with (j + Z.of_nat d + 1) in * by lia.
    pose proof (level_nodes_succ (j + Z.of_nat d)). lia.
Qed.

Lemma valid_levels_iff fuel N k : 1 <= k <= 8 -> 0 <= N -> 9 - k <= Z.of_nat fuel ->
  valid_levels fuel N (level_nodes k) (4 ^ k) = true <-> exists j, k <= j <= 8 /\ N = level_nodes j.
Proof.
  revert k. induction fuel as [|fuel IH]; intros k Hk HN Hf; [lia|].
  rewrite valid_levels_step by done. destruct (Z.eqb_spec (level_nodes k) N) as [<-|Hne].
  { split; [|done]. exists k. split; [lia | done]. }
  destruct (Z.eqb_spec k 8) as [->|Hk8]; cbn [orb].
  { split; [done|]. intros (j & Hj & ->). destruct Hne. f_equal. lia. }
  destruct (Z.ltb_spec N (level_nodes (k + 1))) as [Hlt|Hge].
  - split; [done|]. intros (j & Hj & ->). destruct (decide (j = k)) as [->|]; [done|].
    pose proof (level_nodes_mono (k + 1) j). lia.
  - rewrite IH by lia. split; intros (j & Hj & ->).
    + exists j. split; [lia | done].
    + exists j. split; [|done]. assert (j <> k) by (by intros ->). lia.
Qed.

Lemma valid_node_count_iff N :
  is_valid_node_count N = true <-> exists k, 1 <= k <= 8 /\ N = level_nodes k.
Proof.
  unfold is_valid_node_count. destruct (Z.ltb_spec N FANOUT) as [Hlt|Hge]; unfold FANOUT in *.
  - split; [done|]. intros (k & Hk & ->). pose proof (level_nodes_mono 1 k) as Hm.
    change (level_nodes 1) with 4 in Hm. lia.
  - apply (valid_levels_iff 9 N 1); lia.
Qed.

Lemma leaf_count_level k : 1 <= k <= 8 ->
  layout_leaf_count (level_nodes k) = 4 ^ k /\ leaf_start (level_nodes k) = level_nodes (k - 1).
Proof.
  intros Hk. assert (k = 1 \/ k = 2 \/ k = 3 \/ k = 4 \/ k = 5 \/ k = 6 \/ k = 7 \/ k = 8) as Hc by lia.
  by destruct Hc as [->|[->|[->|[->|[->|[->|[->| ->]]]]]]].
Qed.

(** Following [k] parent links from a leaf of a [k]-level tree leads to the root. *)
Fixpoint ancestor (hops : nat) (n : Z) : Z :=
  match hops with O => n | S h => ancestor h ((n - 4) / 4) end.

(** The crate accepts exactly the complete trees of one to eight levels; such a
    tree of [k] levels has [4^k] leaves, they are its last nodes, and every leaf
    is exactly [k] parents away from the root (index [-1]). *)
Lemma level_nodes_parent k n : 1 <= k <= 8 -> level_nodes (k - 1) <= n < level_nodes k ->
  -1 <= (n - 4) / 4 /\ (k = 1 -> (n - 4) / 4 = -1) /\
  (2 <= k -> level_nodes (k - 2) <= (n - 4) / 4 < level_nodes (k - 1)).
Proof.
  intros Hk. assert (k = 1 \/ k = 2 \/ k = 3 \/ k = 4 \/ k = 5 \/ k = 6 \/ k = 7 \/ k = 8) as Hc by lia.
  destruct Hc as [->|[->|[->|[->|[->|[->|[->| ->]]]]]]];
  repeat match goal with |- context [level_nodes ?a] =>
    let v := eval vm_compute in (level_nodes a) in change (level_nodes a) with v in * end;
  intros Hn; dlia.
Qed.

Lemma ancestor_leaf k n : 1 <= k <= 8 -> level_nodes (k - 1) <= n < level_nodes k ->
  ancestor (Z.to_nat k) n = -1.
Proof.
  intros Hk. replace k with (Z.of_nat (Z.to_nat k)) in * by lia. rewrite Nat2Z.id.
  induction (Z.to_nat k) as [|d IH] in n, Hk |- *; [lia|]. intros Hn. cbn [ancestor].
  destruct (level_nodes_parent (Z.of_nat (S d)) n Hk Hn) as (_ & H1 & H2).
  destruct (decide (d = 0%nat)) as [->|Hd]; [by apply H1|].
  apply IH; [lia|]. replace (Z.of_nat d - 1) with (Z.of_nat (S d) - 2) by lia.
  replace (level_nodes (Z.of_nat d)) with (level_nodes (Z.of_nat (S d) - 1)) by (f_equal; lia).
  apply H2. lia.
Qed.

Lemma level_nodes_leaf k : 1 <= k <= 8 -> level_nodes (k - 1) + 4 ^ k = level_nodes k /\ 0 <= level_nodes (k - 1).
Proof.
  intros Hk. assert (k = 1 \/ k = 2 \/ k = 3 \/ k = 4 \/ k = 5 \/ k = 6 \/ k = 7 \/ k = 8) as Hc by lia.
  by destruct Hc as [->|[->|[->|[->|[->|[->|[->| ->]]]]]]].
Qed.

(** ** Tokens and geometry *)

(** A live token survives its scalar encoding: decoding the raw word of a
    token (16-bit leaf, generation in [1 ..= MAX_GENERATION]) gives the token back,
    and the word fits 63 bits, leaving the reserved bit clear. *)
Theorem snzi_token_roundtrip (t : ArrivalToken) :
  0 <= leaf t < MAX_LEAVES -> 1 <= generation t <= VERSION_MASK ->
  decode_raw (into_raw t) = Ok (leaf t, generation t) /\ 0 <= into_raw t < TOKEN_RESERVED_BIT.
Proof.
  destruct t as [lf g]. cbn [leaf generation]. unfold MAX_LEAVES, TOKEN_LEAF_BITS.
  intros Hl Hg. assert (Hg' : g < 2 ^ 47) by (change VERSION_MASK with (2 ^ 47 - 1) in Hg; lia).
  assert (Hraw : into_raw {| leaf := lf; generation := g |} = g * 2 ^ 16 + lf).
  { unfold into_raw, wrap, TOKEN_GENERATION_SHIFT, TOKEN_LEAF_BITS. cbn [leaf generation].
    rewrite Z.mod_small; [by apply lor_shiftl_add|]. rewrite Z.shiftl_mul_pow2 by lia.
    change (2 ^ 64) with (2 ^ 48 * 2 ^ 16). change (2 ^ 47) with 140737488355328 in *. cbn. lia. }
  rewrite Hraw. assert (Hb : 0 <= g * 2 ^ 16 + lf < TOKEN_RESERVED_BIT).
  { unfold TOKEN_RESERVED_BIT. change (2 ^ 63) with (2 ^ 47 * 2 ^ 16). lia. }
  split; [|done]. unfold decode_raw, TOKEN_RESERVED_BIT in *. rewrite land_bit_eqb by lia.
  rewrite (testbit_small _ 63) by lia. cbn [negb].
  unfold TOKEN_GENERATION_SHIFT, TOKEN_LEAF_MASK, TOKEN_LEAF_BITS.
  rewrite shiftr_div, land_mask, Z.div_add_l, Z.div_small, Z.add_0_r by lia.
  rewrite Z.add_comm, Z.mod_add, Z.mod_small by lia.
  destruct (Z.eqb_spec g 0); [lia|]. by destruct (Z.ltb_spec VERSION_MASK g); [lia|].
Qed.

Lemma snzi_token_roundtrip_witness :
  decode_raw (into_raw {| leaf := 65535; generation := 140737488355327 |}) = Ok (65535, 140737488355327) /\
  0 <= into_raw {| leaf := 65535; generation := 140737488355327 |} < TOKEN_RESERVED_BIT.
Proof.
  apply (snzi_token_roundtrip {| leaf := 65535; generation := 140737488355327 |});
    vm_compute; split; (discriminate || reflexivity).
Defined.

(** The crate accepts exactly the complete four-way trees of one to eight
    levels; a tree of [k] levels has [4^k] leaves, every leaf index names a node
    of the tree, and that node is exactly [k] parents away from the root. *)
Theorem snzi_geometry N : is_valid_node_count N = true ->
  exists k, 1 <= k <= 8 /\ N = level_nodes k /\ leaf_count N = 4 ^ k /\
    forall lf, 0 <= lf < 4 ^ k -> exists n, leaf_node N lf = Ok n /\ 0 <= n < N /\
      ancestor (Z.to_nat k) n = -1.
Proof.
  intros Hv. apply valid_node_count_iff in Hv as (k & Hk & ->). exists k.
  destruct (leaf_count_level k Hk) as [Hlc Hls].
  split; [done|]. split; [done|]. split; [exact Hlc|].
  intros lf Hl. assert (Hn : leaf_node (level_nodes k) lf = Ok (level_nodes (k - 1) + lf)).
  { unfold leaf_node, leaf_count. rewrite Hlc, Hls. by destruct (Z.leb_spec (4 ^ k) lf); [lia|]. }
  exists (level_nodes (k - 1) + lf). split; [done|].
  pose proof (level_nodes_leaf k Hk). split; [lia|]. apply ancestor_leaf; lia.
Qed.

Lemma snzi_geometry_witness :
  exists k, 1 <= k <= 8 /\ 84 = level_nodes k /\ leaf_count 84 = 4 ^ k /\
    forall lf, 0 <= lf < 4 ^ k -> exists n, leaf_node 84 lf = Ok n /\ 0 <= n < 84 /\
      ancestor (Z.to_nat k) n = -1.
Proof. apply (snzi_geometry 84). reflexivity. Defined.
