(* ===== verification/SnziInv.v ===== *)
(** Correctness of the SNZI tree under every interleaving.

    The tokens of the resource logic record what each thread owes the tree:
    [Own n g] is one arrival at node [n] (the root is node [-1]) that has to be
    departed, [Init n g] the obligation of the thread that moved node [n] to its
    [HALF] state of generation [g].  The invariant says that each count is the
    number of tokens and active children it stands for. *)

From stdpp Require Import countable.
From S2P Require Import Prelude Conc Snzi.

Inductive tok (X : Type) :=
| Own (n g : Z)
| Init (n g : Z)
| Other (x : X).
Arguments Own {X} _ _.
Arguments Init {X} _ _.
Arguments Other {X} _.

#[export] Instance tok_eq_dec `{EqDecision X} : EqDecision (tok X).
Proof. solve_decision. Defined.

#[export] Instance tok_countable `{Countable X} : Countable (tok X).
Proof.
  apply (inj_countable'
    (fun t => match t with
              | Own n g => inl (inl (n, g)) | Init n g => inl (inr (n, g)) | Other x => inr x end)
    (fun s => match s with
              | inl (inl (n, g)) => Own n g | inl (inr (n, g)) => Init n g | inr x => Other x end)).
  by intros [].
Defined.

(** ** Packed node words *)

Definition pack (g : Z) (h : bool) (c : Z) : Z := g * 2 ^ 17 + ((if h then 2 ^ 16 else 0) + c).

Definition word_ok (g c : Z) : Prop := 0 <= g <= VERSION_MASK /\ 0 <= c <= COUNT_MASK.

Lemma word_ok_1 g : word_ok g 0 -> word_ok g 1.
Proof. intros Hok. split; [apply Hok | unfold COUNT_MASK, COUNT_BITS; lia]. Qed.

Lemma pack_with_count g c : 0 <= c <= COUNT_MASK -> state_with_count g c = pack g false c.
Proof.
  intros Hc. unfold state_with_count, pack, VERSION_SHIFT, COUNT_BITS.
  rewrite lor_shiftl_add; [cbn; lia | lia |].
  unfold COUNT_MASK, COUNT_BITS in Hc. cbn in *. lia.
Qed.

Lemma pack_half g : state_half g = pack g true 0.
Proof. unfold state_half, pack. by rewrite lor_shiftl_add. Qed.

Lemma low_bits (h : bool) c : 0 <= c <= COUNT_MASK -> 0 <= (if h then 2 ^ 16 else 0) + c < 2 ^ 17.
Proof. unfold COUNT_MASK, COUNT_BITS. destruct h; cbn; lia. Qed.

Lemma count_pack g h c : word_ok g c -> state_count (pack g h c) = c.
Proof.
  intros [Hg Hc]. unfold state_count, COUNT_MASK. rewrite land_mask by done.
  unfold pack. replace (2 ^ 17) with (2 * 2 ^ COUNT_BITS) by done.
  replace (if h then 2 ^ 16 else 0) with ((if h then 1 else 0) * 2 ^ COUNT_BITS) by (by destruct h).
  rewrite Z.mul_assoc, Z.add_assoc, <- Z.mul_add_distr_r, Z.add_comm, Z.mod_add by done.
  apply Z.mod_small. unfold COUNT_MASK in Hc. lia.
Qed.

Lemma half_pack g h c : word_ok g c -> state_is_half (pack g h c) = h.
Proof.
  intros [Hg Hc]. unfold state_is_half, HALF_BIT. rewrite land_bit_eqb by done.
  rewrite negb_involutive. unfold pack.
  rewrite testbit_pack; [| lia | exact (low_bits h c Hc) | done].
  replace (if h then 2 ^ 16 else 0) with ((if h then 1 else 0) * 2 ^ 16) by (by destruct h).
  change (COUNT_BITS <? 17) with true. cbn iota.
  rewrite testbit_pack; [by destruct h | done | unfold COUNT_MASK, COUNT_BITS in Hc; lia | done].
Qed.

Lemma generation_pack g h c : word_ok g c -> state_generation (pack g h c) = g.
Proof.
  intros [Hg Hc]. unfold state_generation, pack. rewrite shiftr_div by done.
  rewrite Z.div_add_l by done. rewrite Z.div_small by apply (low_bits h c Hc). lia.
Qed.

Lemma pack_inj g h c g' h' c' : word_ok g c -> word_ok g' c' ->
  pack g h c = pack g' h' c' -> g = g' /\ h = h' /\ c = c'.
Proof.
  intros Hw Hw' Heq. split_and!.
  - by rewrite <- (generation_pack g h c Hw), Heq, generation_pack.
  - by rewrite <- (half_pack g h c Hw), Heq, half_pack.
  - by rewrite <- (count_pack g h c Hw), Heq, count_pack.
Qed.

Definition active (w : Z) : Z := if negb (state_is_half w) && negb (state_count w =? 0) then 1 else 0.

Lemma active_pack g h c : word_ok g c -> active (pack g h c) = if negb h && negb (c =? 0) then 1 else 0.
Proof. intros Hw. unfold active. by rewrite half_pack, count_pack. Qed.

(** The index of the parent node; the root is node [-1]. *)
Definition parent (n : Z) : Z := (n - 4) / 4.

(** What a node word, its active children, and the tokens at the node say. *)
Definition node_ok (w a : Z) (own init : Z -> Z) : Prop :=
  exists g h c, w = pack g h c /\ word_ok g c /\
    (forall g', g' <> g -> own g' = 0 /\ init g' = 0) /\
    if (h : bool) then c = 0 /\ init g = 1 /\ own g = 0 /\ a = 0
    else c = own g + init g + a.

Lemma node_ok_intro g (h : bool) c a own init : word_ok g c ->
  (forall g', g' <> g -> own g' = 0 /\ init g' = 0) ->
  (if h then c = 0 /\ init g = 1 /\ own g = 0 /\ a = 0 else c = own g + init g + a) ->
  node_ok (pack g h c) a own init.
Proof. intros Hw Hne Hh. by exists g, h, c. Qed.

Lemma node_ok_ext w a own init own' init' :
  (forall g, own' g = own g) -> (forall g, init' g = init g) ->
  node_ok w a own init -> node_ok w a own' init'.
Proof.
  intros Ho Hi (g & h & c & -> & Hw & Hne & Hh). exists g, h, c. rewrite !Ho, !Hi.
  split_and!; try done. intros g' Hg'. rewrite Ho, Hi. by apply Hne.
Qed.

Ltac blia := cbv beta in *; lia.

Section Invariant.
Context {X Y : Type} `{EqDecision Y} `{Countable X}.
Variable NODES : Z.
Implicit Types (m : cell Y -> Z) (r : gmultiset (tok X)).

Definition in_tree (n : Z) : Prop := 0 <= n < NODES.

Definition child_active m (j : Z) : Z :=
  if (0 <=? j) && (j <? NODES) then active (m (Node j)) else 0.
Definition act m (p : Z) : Z :=
  child_active m (4 * p + 4) + child_active m (4 * p + 5)
  + child_active m (4 * p + 6) + child_active m (4 * p + 7).

Record snzi_inv m r : Prop := {
  inv_node n : in_tree n ->
    node_ok (m (Node n)) (act m n) (fun g => mult (Own n g) r) (fun g => mult (Init n g) r);
  inv_root : m Root = mult (Own (-1) 0) r + act m (-1);
  inv_root_bound : m Root <= u64_max;
  inv_out n g : ~ in_tree n ->
    mult (Init n g) r = 0 /\ (mult (Own n g) r <> 0 -> n = -1 /\ g = 0);
  inv_poison : m Poison = 0 \/ m Poison = 1 \/ m Poison = 2 \/ m Poison = 3 \/ m Poison = 5
}.

Lemma active_bound w : 0 <= active w <= 1.
Proof. unfold active. destruct (_ && _); lia. Qed.

Lemma child_active_bound m j : 0 <= child_active m j <= 1.
Proof. unfold child_active. pose proof (active_bound (m (Node j))). destruct (_ && _); lia. Qed.

Lemma act_nonneg m p : 0 <= act m p.
Proof.
  unfold act. pose proof (child_active_bound m (4 * p + 4)).
  pose proof (child_active_bound m (4 * p + 5)). pose proof (child_active_bound m (4 * p + 6)).
  pose proof (child_active_bound m (4 * p + 7)). lia.
Qed.

Lemma act_child m n : in_tree n -> active (m (Node n)) <= act m (parent n).
Proof.
  intros Hn. unfold in_tree in Hn. assert (child_active m n = active (m (Node n))) as <-.
  { unfold child_active. destruct (Z.leb_spec 0 n); [|lia]. by destruct (Z.ltb_spec n NODES); [|lia]. }
  unfold act.
  assert (n = 4 * parent n + 4 \/ n = 4 * parent n + 5 \/ n = 4 * parent n + 6
          \/ n = 4 * parent n + 7) as Hc by (unfold parent; dlia).
  pose proof (child_active_bound m (4 * parent n + 4)).
  pose proof (child_active_bound m (4 * parent n + 5)).
  pose proof (child_active_bound m (4 * parent n + 6)).
  pose proof (child_active_bound m (4 * parent n + 7)).
  destruct Hc as [E|[E|[E|E]]]; rewrite E at 1; lia.
Qed.

Lemma parent_lt n : in_tree n -> -1 <= parent n < n.
Proof. unfold in_tree, parent. intros. dlia. Qed.

Lemma parent_cases n : in_tree n -> parent n = -1 \/ in_tree (parent n).
Proof. unfold in_tree, parent. intros. dlia. Qed.

Lemma child_active_upd m n w j : in_tree n ->
  child_active (upd m (Node n) w) j =
  child_active m j + (if decide (j = n) then active w - active (m (Node n)) else 0).
Proof.
  intros [Hn1 Hn2]. unfold child_active. case_decide as Hj.
  - subst j. destruct (Z.leb_spec 0 n); [|lia]. destruct (Z.ltb_spec n NODES); [|lia].
    cbn. rewrite upd_eq. lia.
  - rewrite upd_ne by (intros [=]; lia). lia.
Qed.

Lemma act_upd m n w p : in_tree n ->
  act (upd m (Node n) w) p =
  act m p + (if decide (p = parent n) then active w - active (m (Node n)) else 0).
Proof.
  intros Hn. unfold act. rewrite !child_active_upd by done.
  unfold in_tree, parent in *. repeat case_decide; dlia.
Qed.

Lemma act_upd_other m l w p : (forall n, l <> Node n) -> act (upd m l w) p = act m p.
Proof.
  intros Hl. unfold act, child_active. by rewrite !upd_ne by (intros Heq; by eapply Hl).
Qed.

(** The parent, node or root, once a child changed by [d] and its tokens follow. *)
Definition parent_ok m r (p d : Z) : Prop :=
  (p = -1 -> m Root = mult (Own (-1) 0) r + (act m (-1) + d) /\
             forall g, g <> 0 -> mult (Own (-1) g) r = 0) /\
  (in_tree p ->
    node_ok (m (Node p)) (act m p + d) (fun g => mult (Own p g) r) (fun g => mult (Init p g) r)).

Lemma inv_update m r n w r' :
  snzi_inv m r -> in_tree n ->
  node_ok w (act m n) (fun g => mult (Own n g) r') (fun g => mult (Init n g) r') ->
  (forall p g, p <> n -> mult (Init p g) r' = mult (Init p g) r) ->
  (forall p g, p <> n -> p <> parent n -> mult (Own p g) r' = mult (Own p g) r) ->
  parent_ok m r' (parent n) (active w - active (m (Node n))) ->
  snzi_inv (upd m (Node n) w) r'.
Proof.
  intros Hinv Hn Hok Hinit Hown [Hproot Hpnode]. pose proof (parent_lt n Hn) as Hlt.
  assert (HnotN : -1 <> n) by (unfold in_tree in Hn; lia).
  constructor.
  - intros p Hp. rewrite act_upd by done. destruct (decide (p = n)) as [->|Hne].
    + rewrite upd_eq, decide_False, Z.add_0_r by lia. exact Hok.
    + rewrite upd_ne by (intros [=]; lia). case_decide as Hpar.
      * subst p. by apply Hpnode.
      * rewrite Z.add_0_r. eapply node_ok_ext, (inv_node m r Hinv p Hp).
        -- intros g. by apply Hown.
        -- intros g. by apply Hinit.
  - rewrite act_upd, upd_ne by done. case_decide as Hpar.
    + by apply Hproot.
    + rewrite Hown by done. rewrite Z.add_0_r. apply (inv_root m r Hinv).
  - rewrite upd_ne by done. apply (inv_root_bound m r Hinv).
  - intros p g Hp. assert (p <> n) by (intros ->; done). rewrite Hinit by done.
    destruct (inv_out m r Hinv p g Hp) as [HA HB]. split; [done|]. intros Hnz.
    destruct (decide (p = parent n)) as [Hpar|Hpar].
    + destruct (parent_cases n Hn) as [Heq|Hin]; [|by rewrite <- Hpar in Hin].
      split; [congruence|]. destruct (decide (g = 0)) as [|Hg]; [done|].
      destruct Hnz. replace p with (-1) by congruence. by apply Hproot.
    + rewrite Hown in Hnz by done. by apply HB.
  - rewrite upd_ne by done. apply (inv_poison m r Hinv).
Qed.

(** A step that leaves the activity of the node, hence its parent, alone. *)
Lemma inv_update_same m r n w r' :
  snzi_inv m r -> in_tree n ->
  node_ok w (act m n) (fun g => mult (Own n g) r') (fun g => mult (Init n g) r') ->
  (forall p g, p <> n -> mult (Init p g) r' = mult (Init p g) r) ->
  (forall p g, p <> n -> mult (Own p g) r' = mult (Own p g) r) ->
  active w = active (m (Node n)) ->
  snzi_inv (upd m (Node n) w) r'.
Proof.
  intros Hinv Hn Hok Hinit Hown Hact. pose proof (parent_lt n Hn).
  apply (inv_update m r); auto. rewrite Hact, Z.sub_diag. split.
  - intros Hp. rewrite Z.add_0_r, Hown by lia. split; [apply Hinv|].
    intros g Hg. rewrite Hown by lia. destruct (inv_out m r Hinv (-1) g) as [_ Hz].
    { unfold in_tree. lia. }
    destruct (decide (mult (Own (-1) g) r = 0)) as [|Hnz]; [done|]. by apply Hz in Hnz as [_ ?].
  - intros Hp. rewrite Z.add_0_r. eapply node_ok_ext, (inv_node m r Hinv _ Hp).
    + intros g. apply Hown. lia.
    + intros g. apply Hinit. lia.
Qed.

(** ** One lemma per atomic step *)

(** [r'] is [r] with one more token [t]. *)
Definition tok_add r (t : tok X) r' : Prop :=
  forall t', mult t' r' = mult t' r + (if decide (t' = t) then 1 else 0).

Lemma node_view m r n g h c : snzi_inv m r -> in_tree n -> m (Node n) = pack g h c ->
  word_ok g c ->
  (forall g', g' <> g -> mult (Own n g') r = 0 /\ mult (Init n g') r = 0) /\
  if h then c = 0 /\ mult (Init n g) r = 1 /\ mult (Own n g) r = 0 /\ act m n = 0
  else c = mult (Own n g) r + mult (Init n g) r + act m n.
Proof.
  intros Hinv Hn Hw Hok. destruct (inv_node m r Hinv n Hn) as (g1 & h1 & c1 & Hw1 & Hok1 & Hv).
  rewrite Hw in Hw1. apply pack_inj in Hw1 as (<- & <- & <-); done.
Qed.

Lemma node_word m r n : snzi_inv m r -> in_tree n ->
  exists g h c, m (Node n) = pack g h c /\ word_ok g c.
Proof.
  intros Hinv Hn. destruct (inv_node m r Hinv n Hn) as (g & h & c & Hw & Hok & _). by exists g, h, c.
Qed.

(** A token pins the generation of its node, which counts it. *)
Lemma own_word m r n g : snzi_inv m r -> in_tree n -> 1 <= mult (Own n g) r ->
  exists c, m (Node n) = pack g false c /\ 1 <= c /\ word_ok g c.
Proof.
  intros Hinv Hn Hg. destruct (inv_node m r Hinv n Hn) as (g1 & h & c & Hw & Hok & Hne & Hh).
  destruct (decide (g = g1)) as [->|Hd]; [|apply Hne in Hd; lia].
  pose proof (act_nonneg m n). pose proof (mult_nonneg (Init n g1) r).
  destruct h; [lia|]. exists c. split_and!; [done | lia | done..].
Qed.

Ltac tok_at Hadd t := let E := fresh "Htok" in pose proof (Hadd t) as E; case_decide; [|try done].

Lemma inv_half m r n g r' : snzi_inv m r -> in_tree n -> m (Node n) = pack g false 0 ->
  word_ok g 0 -> g + 1 <= VERSION_MASK -> tok_add r (Init n (g + 1)) r' ->
  snzi_inv (upd m (Node n) (pack (g + 1) true 0)) r'.
Proof.
  intros Hinv Hn Hw Hok Hg Hadd. destruct (node_view m r n g false 0 Hinv Hn Hw Hok) as [Hne Hc].
  pose proof (act_nonneg m n). pose proof (mult_nonneg (Init n g) r).
  pose proof (mult_nonneg (Own n g) r).
  assert (Hz : forall g', mult (Own n g') r = 0 /\ mult (Init n g') r = 0).
  { intros g'. destruct (decide (g' = g)) as [->|Hd]; [lia | by apply Hne]. }
  assert (Hok' : word_ok (g + 1) 0) by (unfold word_ok in *; lia).
  apply (inv_update_same m r); try done.
  - apply node_ok_intro; [done| |].
    + intros g' Hd. destruct (Hz g'). rewrite !Hadd. repeat case_decide; naive_solver lia.
    + rewrite !Hadd. destruct (Hz (g + 1)). repeat case_decide; naive_solver lia.
  - intros p g' Hp. rewrite Hadd. case_decide; naive_solver lia.
  - intros p g' Hp. rewrite Hadd. case_decide; naive_solver lia.
  - by rewrite Hw, !active_pack.
Qed.

(** Giving back (or receiving) the parent arrival that an active child stands for. *)
Lemma parent_ok_move m r r' n gp d : snzi_inv m r -> in_tree n ->
  (d = 1 /\ tok_add r' (Own (parent n) gp) r \/ d = 0 /\ r' = r) ->
  parent_ok m r' (parent n) d.
Proof.
  intros Hinv Hn Hd. pose proof (parent_lt n Hn). split.
  - intros Hp. pose proof (inv_root m r Hinv).
    assert (Hout : forall g, g <> 0 -> mult (Own (-1) g) r = 0).
    { intros g Hg. destruct (inv_out m r Hinv (-1) g) as [_ Hz]; [unfold in_tree; lia|].
      destruct (decide (mult (Own (-1) g) r = 0)) as [|Hnz]; [done|]. by apply Hz in Hnz as [_ ?]. }
    destruct Hd as [[-> Hadd]|[-> ->]]; [|split; [lia | done]].
    assert (gp = 0) as ->.
    { destruct (decide (gp = 0)) as [|Hg]; [done|]. pose proof (Hout gp Hg) as Hz.
      pose proof (Hadd (Own (-1) gp)). rewrite decide_True in * by congruence.
      pose proof (mult_nonneg (Own (-1) gp) r'). lia. }
    pose proof (Hadd (Own (-1) 0)) as HA. rewrite decide_True in HA by congruence.
    split; [lia|]. intros g Hg. pose proof (Hadd (Own (-1) g)) as HB.
    rewrite decide_False, (Hout g Hg) in HB by congruence. lia.
  - intros Hp. destruct (inv_node m r Hinv _ Hp) as (g & h & c & Hw & Hok & Hne & Hh).
    destruct Hd as [[-> Hadd]|[-> ->]];
      [|rewrite Z.add_0_r; by exists g, h, c].
    pose proof (Hadd (Own (parent n) gp)) as Hgp. rewrite decide_True in Hgp by done.
    pose proof (mult_nonneg (Own (parent n) gp) r').
    destruct (decide (gp = g)) as [->|Hd]; [|apply Hne in Hd; lia].
    destruct h; [lia|]. rewrite Hw. apply node_ok_intro; [done| |].
    + intros g' Hd. destruct (Hne g' Hd) as [HA HB]. rewrite !Hadd in HA, HB.
      rewrite decide_False in HA by congruence. rewrite decide_False in HB by congruence. lia.
    + pose proof (Hadd (Init (parent n) g)) as Hi. rewrite decide_False in Hi by congruence. blia.
Qed.

Lemma inv_publish m r n g gp r' : snzi_inv m r -> in_tree n -> m (Node n) = pack g true 0 ->
  word_ok g 0 -> tok_add r' (Own (parent n) gp) r ->
  snzi_inv (upd m (Node n) (pack g false 1)) r'.
Proof.
  intros Hinv Hn Hw Hok Hadd. destruct (node_view m r n g true 0 Hinv Hn Hw Hok) as [Hne Hc].
  pose proof (parent_lt n Hn). assert (word_ok g 1) by by apply word_ok_1.
  assert (Hn' : forall t, (forall g', t <> Own (parent n) g') -> mult t r' = mult t r).
  { intros t Ht. rewrite (Hadd t), decide_False by (intros ->; by eapply Ht). lia. }
  apply (inv_update m r); try done.
  - apply node_ok_intro; [done| |].
    + intros g' Hd. rewrite !Hn' by (intros ? [=]; lia). by apply Hne.
    + rewrite !Hn' by (intros ? [=]; lia). lia.
  - intros p g' Hp. apply Hn'. by intros ? [=].
  - intros p g' Hp Hp'. apply Hn'. by intros ? [=].
  - rewrite Hw, !active_pack by done. apply (parent_ok_move m r r' n gp); auto.
Qed.

Lemma inv_convert m s r n g r' : snzi_inv m r -> m (Node n) <> pack g true 0 ->
  tok_add s (Init n g) r -> tok_add s (Own n g) r' -> snzi_inv m r'.
Proof.
  intros Hinv Hw Hr Hr'.
  assert (Hn : in_tree n).
  { destruct (decide (0 <= n < NODES)) as [|Hout]; [done|].
    destruct (inv_out m r Hinv n g Hout) as [Hz _]. rewrite Hr, decide_True in Hz by done.
    pose proof (mult_nonneg (Init n g) s). lia. }
  assert (Hsum : forall p g', p <> n \/ g' <> g ->
    mult (Own p g') r' = mult (Own p g') r /\ mult (Init p g') r' = mult (Init p g') r).
  { intros p g' Hd. rewrite !Hr, !Hr'. rewrite !decide_False by naive_solver. lia. }
  assert (Hat : mult (Own n g) r' = mult (Own n g) r + 1 /\
                mult (Init n g) r' = mult (Init n g) r - 1 /\ 1 <= mult (Init n g) r).
  { pose proof (mult_nonneg (Init n g) s). rewrite !Hr, !Hr'.
    repeat case_decide; (congruence || lia). }
  destruct Hinv as [I1 I2 I3 I4 I5]. constructor; try done.
  - intros p Hp. destruct (decide (p = n)) as [->|Hne].
    + destruct (I1 n Hn) as (g1 & h & c & Hw1 & Hok & Hneq & Hh).
      destruct (decide (g = g1)) as [<-|Hd]; [|apply Hneq in Hd; lia].
      destruct h; [destruct Hh as [-> _]; done|].
      rewrite Hw1. apply node_ok_intro; [done| |lia].
      intros g' Hd. destruct (Hsum n g') as [-> ->]; [by right|]. by apply Hneq.
    + eapply node_ok_ext, I1, Hp; intros g'; apply Hsum; by left.
  - assert (-1 <> n) by (unfold in_tree in Hn; lia). destruct (Hsum (-1) 0) as [-> _]; [by left | done].
  - intros p g' Hp. assert (p <> n) by (intros ->; done).
    destruct (Hsum p g') as [-> ->]; [by left | by apply I4].
Qed.

Lemma inv_inc m r n g c r' : snzi_inv m r -> in_tree n -> m (Node n) = pack g false c ->
  word_ok g c -> 1 <= c < COUNT_MASK -> tok_add r (Own n g) r' ->
  snzi_inv (upd m (Node n) (pack g false (c + 1))) r'.
Proof.
  intros Hinv Hn Hw Hok Hc Hadd. destruct (node_view m r n g false c Hinv Hn Hw Hok) as [Hne Hs].
  assert (word_ok g (c + 1)) by (unfold word_ok in *; lia).
  apply (inv_update_same m r); try done.
  - apply node_ok_intro; [done| |].
    + intros g' Hd. rewrite !Hadd, !decide_False by congruence. rewrite !Z.add_0_r. by apply Hne.
    + rewrite (Hadd (Own n g)), decide_True, (Hadd (Init n g)), decide_False by congruence. lia.
  - intros p g' Hp. rewrite Hadd, decide_False by congruence. lia.
  - intros p g' Hp. rewrite Hadd, decide_False by congruence. lia.
  - rewrite Hw, !active_pack by done. cbn. by destruct (Z.eqb_spec c 0), (Z.eqb_spec (c + 1) 0); try lia.
Qed.

Lemma dec_word m r s n g c : snzi_inv m r -> in_tree n -> m (Node n) = pack g false c ->
  word_ok g c -> tok_add s (Own n g) r ->
  node_ok (pack g false (c - 1)) (act m n) (fun g' => mult (Own n g') s) (fun g' => mult (Init n g') s).
Proof.
  intros Hinv Hn Hw Hok Hadd. destruct (node_view m r n g false c Hinv Hn Hw Hok) as [Hne Hs].
  rewrite (Hadd (Own n g)), decide_True, (Hadd (Init n g)), decide_False in Hs by congruence.
  pose proof (act_nonneg m n). pose proof (mult_nonneg (Init n g) s).
  pose proof (mult_nonneg (Own n g) s).
  apply node_ok_intro; [unfold word_ok in *; lia | | lia].
  intros g' Hd. destruct (Hne g' Hd) as [HA HB]. 
  rewrite (Hadd (Own n g')), decide_False in HA by congruence.
  rewrite (Hadd (Init n g')), decide_False in HB by congruence. lia.
Qed.

Lemma inv_dec m r n g c r' : snzi_inv m r -> in_tree n -> m (Node n) = pack g false c ->
  word_ok g c -> 2 <= c -> tok_add r' (Own n g) r ->
  snzi_inv (upd m (Node n) (pack g false (c - 1))) r'.
Proof.
  intros Hinv Hn Hw Hok Hc Hadd. apply (inv_update_same m r); try done.
  - by eapply dec_word.
  - intros p g' Hp. rewrite (Hadd (Init p g')), decide_False by congruence. lia.
  - intros p g' Hp. rewrite (Hadd (Own p g')), decide_False by congruence. lia.
  - rewrite Hw, !active_pack by (done || unfold word_ok in *; lia). cbn.
    by destruct (Z.eqb_spec c 0), (Z.eqb_spec (c - 1) 0); try lia.
Qed.

(** The last departure at a node leaves the thread with the node's arrival at
    its parent. *)
Lemma inv_dec_last m r n g s : snzi_inv m r -> in_tree n -> m (Node n) = pack g false 1 ->
  word_ok g 1 -> tok_add s (Own n g) r ->
  exists gp, forall r', tok_add s (Own (parent n) gp) r' ->
    snzi_inv (upd m (Node n) (pack g false 0)) r'.
Proof.
  intros Hinv Hn Hw Hok Hadd. pose proof (parent_lt n Hn) as Hlt.
  assert (Hok0 : word_ok g 0) by (unfold word_ok in *; lia).
  pose proof (act_child m n Hn) as Hact. rewrite Hw, active_pack in Hact by done. cbn in Hact.
  set (gp := if decide (parent n = -1) then 0 else state_generation (m (Node (parent n)))).
  exists gp. intros r' Hadd'.
  assert (Hsame : forall t, t <> Own n g -> t <> Own (parent n) gp -> mult t r' = mult t r).
  { intros t HA HB. rewrite Hadd, Hadd', !decide_False by done. done. }
  assert (Hpgp : mult (Own (parent n) gp) r' = mult (Own (parent n) gp) r + 1).
  { rewrite Hadd, Hadd', decide_True, decide_False by (done || intros [=]; lia). lia. }
  apply (inv_update m r); try done.
  - eapply node_ok_ext, (dec_word m r s n g 1); try done.
    + intros g'. rewrite Hadd', decide_False by (intros [=]; lia). lia.
    + intros g'. rewrite Hadd', decide_False by congruence. lia.
  - intros p g' Hp. by apply Hsame.
  - intros p g' Hp Hp'. apply Hsame; congruence.
  - rewrite Hw, !active_pack by done. cbn. split.
    + intros Hp. assert (gp = 0) as Hgp by (unfold gp; by rewrite decide_True).
      rewrite Hp, Hgp in Hpgp. pose proof (inv_root m r Hinv). split; [lia|].
      intros g' Hg'. rewrite Hsame by (intros [=]; (lia || congruence)).
      destruct (inv_out m r Hinv (-1) g') as [_ Hz]; [unfold in_tree; lia|].
      destruct (decide (mult (Own (-1) g') r = 0)) as [|Hnz]; [done|]. by apply Hz in Hnz as [_ ?].
    + intros Hp. destruct (inv_node m r Hinv _ Hp) as (g1 & h & c & Hw1 & Hok1 & Hne & Hh).
      assert (gp = g1) as Hgp.
      { unfold gp. rewrite decide_False by (unfold in_tree in Hp; lia).
        by rewrite Hw1, generation_pack. }
      destruct h; [lia|]. rewrite Hw1. apply node_ok_intro; [done| |].
      * intros g' Hd. rewrite !Hsame by (intros [=]; (lia || congruence)). by apply Hne.
      * rewrite Hgp in Hpgp. rewrite Hpgp. rewrite Hsame by done. lia.
Qed.

Lemma inv_cell m r l v : snzi_inv m r -> (forall n, l <> Node n) -> l <> Root -> l <> Poison ->
  snzi_inv (upd m l v) r.
Proof.
  intros [I1 I2 I3 I4 I5] Hn Hr Hp. constructor; rewrite ?act_upd_other, ?upd_ne by done; try done.
  intros n Hin. rewrite act_upd_other, upd_ne by done. by apply I1.
Qed.

Lemma inv_set_poison m r v : snzi_inv m r ->
  v = 0 \/ v = 1 \/ v = 2 \/ v = 3 \/ v = 5 -> snzi_inv (upd m Poison v) r.
Proof.
  intros [I1 I2 I3 I4 I5] Hv. constructor; rewrite ?act_upd_other, ?upd_ne, ?upd_eq by done; done.
Qed.

Lemma inv_set_root m r r' v : snzi_inv m r -> v <= u64_max ->
  (forall t, t <> Own (-1) 0 -> mult t r' = mult t r) ->
  v - m Root = mult (Own (-1) 0) r' - mult (Own (-1) 0) r ->
  snzi_inv (upd m Root v) r'.
Proof.
  intros [I1 I2 I3 I4 I5] Hv Hsame Hd. constructor.
  - intros n Hin. rewrite act_upd_other, upd_ne by done.
    assert (n <> -1) by (unfold in_tree in Hin; lia).
    eapply node_ok_ext, I1, Hin; intros g; by apply Hsame; intros [=].
  - rewrite act_upd_other, upd_eq by done. lia.
  - by rewrite upd_eq.
  - intros n g Hn. destruct (I4 n g Hn) as [HA HB]. rewrite Hsame by done. split; [done|].
    intros Hnz. destruct (decide (Own n g = Own (-1) 0 :> tok X)) as [[= -> ->]|Hne]; [done|].
    rewrite Hsame in Hnz by done. by apply HB.
  - by rewrite upd_ne.
Qed.

Lemma root_own m r : snzi_inv m r -> 1 <= mult (Own (-1) 0) r -> 1 <= m Root.
Proof. intros Hinv Hm. rewrite (inv_root m r Hinv). pose proof (act_nonneg m (-1)). lia. Qed.

Lemma own_root_gen m r g : snzi_inv m r -> 1 <= mult (Own (-1) g) r -> g = 0.
Proof.
  intros Hinv Hm. destruct (inv_out m r Hinv (-1) g) as [_ Hz]; [unfold in_tree; lia|].
  apply Hz. lia.
Qed.

(** ** Consequences of the invariant *)

Lemma active_count m r n : snzi_inv m r -> in_tree n -> 1 <= act m n -> active (m (Node n)) = 1.
Proof.
  intros Hinv Hn Ha. destruct (inv_node m r Hinv n Hn) as (g & h & c & Hw & Hok & _ & Hh).
  rewrite Hw, active_pack by done. pose proof (mult_nonneg (Own n g) r).
  pose proof (mult_nonneg (Init n g) r).
  destruct h; [lia|]. destruct (Z.eqb_spec c 0); [blia | done].
Qed.

(** Activity propagates to the root. *)
Lemma active_root m r n : snzi_inv m r -> in_tree n -> active (m (Node n)) = 1 -> 1 <= m Root.
Proof.
  intros Hinv. induction n as [n IH] using (well_founded_ind (Z.lt_wf 0)). intros Hn Ha.
  pose proof (act_child m n Hn) as Hp. pose proof (parent_lt n Hn) as Hlt.
  destruct (parent_cases n Hn) as [Hroot|Hin].
  - rewrite (inv_root m r Hinv), <- Hroot. pose proof (mult_nonneg (Own (parent n) 0) r). lia.
  - apply (IH (parent n)); [unfold in_tree in *; lia | done | by eapply active_count; [..|lia]].
Qed.

Lemma own_root m r n g : snzi_inv m r -> 1 <= mult (Own n g) r -> 1 <= m Root.
Proof.
  intros Hinv Hm. destruct (decide (0 <= n < NODES)) as [Hn|Hn].
  - destruct (own_word m r n g Hinv Hn Hm) as (c & Hw & Hc & Hok). apply (active_root m r n Hinv Hn).
    rewrite Hw, active_pack by done. by destruct (Z.eqb_spec c 0); [lia|].
  - destruct (inv_out m r Hinv n g Hn) as [_ Hz]. destruct Hz as [-> ->]; [lia|].
    by apply root_own with r.
Qed.

Definition idle (w : Z) : Prop := state_is_half w = false /\ state_count w = 0.

(** In an idle tree nobody holds a token. *)
Lemma idle_no_tokens m r : snzi_inv m r -> m Root = 0 -> (forall n, in_tree n -> idle (m (Node n))) ->
  forall n g, mult (Own n g) r = 0 /\ mult (Init n g) r = 0.
Proof.
  intros Hinv Hroot Hidle n g. pose proof (mult_nonneg (Own n g) r). split.
  - destruct (decide (mult (Own n g) r = 0)) as [|Hnz]; [done|].
    pose proof (own_root m r n g Hinv). lia.
  - destruct (decide (0 <= n < NODES)) as [Hn|Hn]; [|by apply (inv_out m r Hinv n g Hn)].
    destruct (inv_node m r Hinv n Hn) as (g1 & h & c & Hw & Hok & Hne & Hh).
    destruct (Hidle n Hn) as [Hi1 Hi2]. rewrite Hw, half_pack in Hi1 by done.
    rewrite Hw, count_pack in Hi2 by done. subst h c. pose proof (act_nonneg m n).
    destruct (decide (g = g1)) as [->|Hd]; [|by apply Hne].
    pose proof (mult_nonneg (Own n g1) r). pose proof (mult_nonneg (Init n g1) r). blia.
Qed.

(** Without tokens the tree is idle. *)
Lemma no_tokens_idle m r : snzi_inv m r ->
  (forall n g, mult (Own n g) r = 0 /\ mult (Init n g) r = 0) ->
  m Root = 0 /\ forall n, in_tree n -> idle (m (Node n)).
Proof.
  intros Hinv Hno.
  assert (Hidle : forall k n, NODES - n <= Z.of_nat k -> in_tree n -> idle (m (Node n))).
  { induction k as [|k IH]; intros n Hk Hn; [unfold in_tree in Hn; lia|].
    assert (Hact : act m n = 0).
    { assert (Hc : forall j, n < j -> child_active m j = 0).
      { intros j Hj. unfold child_active. destruct (Z.leb_spec 0 j), (Z.ltb_spec j NODES); try done.
        cbn. destruct (IH j) as [Ha Hb]; [lia | done |]. unfold active. by rewrite Ha, Hb. }
      unfold in_tree in Hn. unfold act. by rewrite !Hc by lia. }
    destruct (inv_node m r Hinv n Hn) as (g & h & c & Hw & Hok & _ & Hh).
    destruct (Hno n g) as [HA HB]. destruct h; [blia|].
    unfold idle. rewrite Hw, half_pack, count_pack by done. split; [done | blia]. }
  assert (Hall : forall n, in_tree n -> idle (m (Node n))).
  { intros n Hn. apply (Hidle (Z.to_nat (NODES - n))); [|done]. unfold in_tree in Hn. lia. }
  split; [|exact Hall]. rewrite (inv_root m r Hinv). destruct (Hno (-1) 0) as [-> _].
  assert (Hc : forall j, child_active m j = 0).
  { intros j. unfold child_active. destruct (Z.leb_spec 0 j), (Z.ltb_spec j NODES); try done.
    cbn. destruct (Hall j) as [Ha Hb]; [done|]. unfold active. by rewrite Ha, Hb. }
  unfold act. by rewrite !Hc.
Qed.

Lemma inv_new : snzi_inv new ∅.
Proof.
  assert (Hw : forall n, (new : cell Y -> Z) (Node n) = pack 0 false 0) by done.
  assert (Hok : word_ok 0 0) by (split; split; vm_compute; discriminate).
  assert (Hact : forall p, act new p = 0).
  { intros p. assert (Hc : forall j, child_active new j = 0).
    { intros j. unfold child_active. rewrite Hw, active_pack by done. by destruct (_ && _). }
    unfold act. by rewrite !Hc. }
  constructor.
  - intros n Hn. rewrite Hw, Hact. by apply node_ok_intro.
  - by rewrite Hact.
  - done.
  - intros n g _. by rewrite !mult_empty.
  - by left.
Qed.
End Invariant.

(** ** The operations keep the invariant *)

(** Tokens that concern the tree only. *)
Definition snzi_only {X} `{Countable X} (k : gmultiset (tok X)) : Prop :=
  forall x, mult (Other x) k = 0.

Lemma snzi_only_empty {X} `{Countable X} : snzi_only (∅ : gmultiset (tok X)).
Proof. intros x. apply mult_empty. Qed.
Lemma snzi_only_own {X} `{Countable X} n g : snzi_only ({[+ Own n g +]} : gmultiset (tok X)).
Proof. intros x. by rewrite mult_single, decide_False. Qed.
Lemma snzi_only_init {X} `{Countable X} n g : snzi_only ({[+ Init n g +]} : gmultiset (tok X)).
Proof. intros x. by rewrite mult_single, decide_False. Qed.
Lemma snzi_only_union {X} `{Countable X} (k1 k2 : gmultiset (tok X)) :
  snzi_only k1 -> snzi_only k2 -> snzi_only (k1 ⊎ k2).
Proof. intros H1 H2 x. by rewrite mult_union, H1, H2. Qed.

(** Several arrivals at the same node. *)
Definition owns {X} `{Countable X} (p : Z) (gs : list Z) : gmultiset (tok X) :=
  list_to_set_disj (Own p <$> gs).

Lemma owns_cons {X} `{Countable X} p g gs : owns p (g :: gs) = {[+ Own p g +]} ⊎ owns (X := X) p gs.
Proof. unfold owns. cbn. apply list_to_set_disj_cons. Qed.

Lemma snzi_only_owns {X} `{Countable X} p gs : snzi_only (owns (X := X) p gs).
Proof.
  induction gs as [|g gs IH]; [apply snzi_only_empty|]. rewrite owns_cons.
  by apply snzi_only_union; [apply snzi_only_own|].
Qed.

#[export] Hint Resolve snzi_only_empty snzi_only_own snzi_only_init snzi_only_union
  snzi_only_owns : pod.

(** A failed operation may leave tokens behind: they keep the tree nonzero. *)
Definition leaked {X} `{Countable X} (r r' : gmultiset (tok X)) : Prop :=
  exists k, snzi_only k /\ r' = r ⊎ k.

Lemma leaked_union {X} `{Countable X} (r k : gmultiset (tok X)) : snzi_only k -> leaked r (r ⊎ k).
Proof. intros Hk. by exists k. Qed.

Lemma leaked_refl {X} `{Countable X} (r : gmultiset (tok X)) : leaked r r.
Proof. exists ∅. split; [apply snzi_only_empty | multiset_solver]. Qed.

Lemma leaked_trans {X} `{Countable X} (r k r' : gmultiset (tok X)) :
  snzi_only k -> leaked (r ⊎ k) r' -> leaked r r'.
Proof.
  intros Hk (k' & Hk' & ->). exists (k ⊎ k'). split; [auto with pod | multiset_solver].
Qed.

(** What the object that embeds the tree promises: its own invariant [Rest] does
    not depend on the tree while the calling thread holds the guard [G]. *)
Class SnziClient {X Y} `{Countable X} (G : gmultiset (tok X) -> Prop)
    (Rest : (cell Y -> Z) -> gmultiset (tok X) -> Prop) : Prop := {
  client_guard r k : snzi_only k -> G r -> G (r ⊎ k);
  client_frame m m' r k k' fr : G r -> snzi_only k -> snzi_only k' ->
    (forall y, m' (Ext y) = m (Ext y)) -> Rest m (r ⊎ k ⊎ fr) -> Rest m' (r ⊎ k' ⊎ fr)
}.

(** Errors that operations may report: poison, and never a broken invariant. *)
Definition benign (e : SnziError) : Prop :=
  exists reason, e = Poisoned reason /\ reason <> InvariantViolation.

Section Specifications.
Context {X Y : Type} `{EqDecision Y} `{Countable X}.
Variable NODES : Z.
Variable G : gmultiset (tok X) -> Prop.
Variable Rest : (cell Y -> Z) -> gmultiset (tok X) -> Prop.
Context `{!SnziClient G Rest}.
Implicit Types (m : cell Y -> Z) (r k fr : gmultiset (tok X)).

Definition shared m r : Prop := snzi_inv NODES m r /\ Rest m r.

Lemma wp_snzi_load l r Φ :
  (forall m fr, shared m (r ⊎ fr) -> Φ (m l) r) -> wp shared (load l) r Φ.
Proof. intros HΦ. apply wp_load. intros m fr HI. exists r. split; [done | by apply (HΦ m fr)]. Qed.

Lemma wp_snzi_cas l old new r k Φ : (forall y, l <> Ext y) -> G r -> snzi_only k ->
  (forall m fr, snzi_inv NODES m (r ⊎ k ⊎ fr) -> m l = old ->
     exists k', snzi_only k' /\ snzi_inv NODES (upd m l new) (r ⊎ k' ⊎ fr) /\ Φ (Ok old) (r ⊎ k')) ->
  (forall m fr, snzi_inv NODES m (r ⊎ k ⊎ fr) -> m l <> old ->
     exists k', snzi_only k' /\ snzi_inv NODES m (r ⊎ k' ⊎ fr) /\ Φ (Err (m l)) (r ⊎ k')) ->
  wp shared (compare_exchange l old new) (r ⊎ k) Φ.
Proof.
  intros Hl HG Hk Hok Herr. apply wp_cas; intros m fr [Hinv HR] Hm.
  - destruct (Hok m fr Hinv Hm) as (k' & Hk' & Hinv' & HΦ). exists (r ⊎ k').
    split; [split|]; [done | | done]. apply (client_frame m _ r k k' fr); try done.
    intros y. apply upd_ne. intros Heq. by apply (Hl y).
  - destruct (Herr m fr Hinv Hm) as (k' & Hk' & Hinv' & HΦ). exists (r ⊎ k').
    split; [split|]; [done | | done]. by apply (client_frame m _ r k k' fr).
Qed.

Lemma wp_ensure_healthy r :
  wp shared ensure_healthy r (fun x r' => r' = r /\
    match x with Ok _ => True | Err e => benign e end).
Proof.
  apply wp_bind. apply wp_bind. apply wp_snzi_load. intros m fr [Hinv _].
  pose proof (inv_poison NODES m _ Hinv) as Hp.
  destruct Hp as [->|[->|[->|[->| ->]]]]; cbn; (split; [done|]); try done; by eexists.
Qed.

Lemma wp_poison_read reason r : reason <> InvariantViolation ->
  wp shared (let! recorded := poison_reason in
             Ret (Poisoned (match recorded with Some r => r | None => reason end)))
    (r ⊎ ∅) (fun e r' => r' = r /\ benign e).
Proof.
  intros Hne. apply wp_bind. apply wp_bind. apply wp_snzi_load. intros m fr [Hinv _].
  pose proof (inv_poison NODES m _ Hinv) as Hp.
  destruct Hp as [->|[->|[->|[->| ->]]]]; cbn; (split; [multiset_solver|]); by eexists.
Qed.

Lemma wp_poison_with reason r : G r -> reason <> InvariantViolation ->
  wp shared (poison_with reason) r (fun e r' => r' = r /\ benign e).
Proof.
  intros HG Hne. apply wp_bind. replace r with (r ⊎ ∅) at 1 by multiset_solver.
  apply wp_snzi_cas; auto with pod; try done.
  - intros m fr Hinv _. exists ∅. split_and!; [apply snzi_only_empty | | apply wp_poison_read; done].
    apply inv_set_poison; [done|]. destruct reason; cbn; tauto.
  - intros m fr Hinv _. exists ∅. by split_and!; [apply snzi_only_empty | | apply wp_poison_read].
Qed.

(** Contracts of an arrival at, and a departure from, node [p]. *)
Definition arrives (p : Z) (P : prog (cell Y) (result unit SnziError)) : Prop :=
  forall r, G r -> wp shared P r (fun x r' =>
    match x with Ok _ => exists g, r' = r ⊎ {[+ Own p g +]} | Err e => benign e /\ leaked r r' end).
Definition departs (p : Z) (P : prog (cell Y) (result unit SnziError)) : Prop :=
  forall r g, G r -> wp shared P (r ⊎ {[+ Own p g +]}) (fun x r' =>
    match x with Ok _ => r' = r | Err e => benign e /\ leaked r r' end).

(** Entering a loop body with [ensure_healthy()?]. *)
Lemma wp_healthy_then {St A} (k : prog (cell Y) (St + result A SnziError)) r Φ :
  (forall e, benign e -> Φ (inr (Err e)) r) -> wp shared k r Φ ->
  wp shared (do!^ ensure_healthy ;; k) r Φ.
Proof.
  intros Herr Hk. apply wp_bind. eapply wp_mono, wp_ensure_healthy.
  intros [[]|e] r' [-> He]; [done | by apply Herr].
Qed.

Lemma wp_poison_exit {St A} reason r (Φ : St + result A SnziError -> _ -> Prop) :
  G r -> reason <> InvariantViolation -> (forall e, benign e -> Φ (inr (Err e)) r) ->
  wp shared (let! e := poison_with reason in Ret (inr (Err e))) r Φ.
Proof.
  intros HG Hne HΦ. apply wp_bind. eapply wp_mono, wp_poison_with; try done.
  intros e r' [-> He]. by apply HΦ.
Qed.

Lemma root_arrives fuel : arrives (-1) (root_arrive fuel).
Proof.
  intros r HG. apply (wp_loop _ (fun _ r' => r' = r)); [|done]. intros [] ? ->.
  apply wp_healthy_then. { intros e He. split; [done | apply leaked_refl]. }
  apply wp_bind. apply wp_snzi_load. intros m fr [Hinv _].
  pose proof (inv_root_bound NODES m _ Hinv) as Hb.
  destruct (Z.eqb_spec (m Root) u64_max) as [Hmax|Hmax].
  { apply wp_poison_exit; [done..|]. intros e He. split; [done | apply leaked_refl]. }
  apply wp_bind. replace r with (r ⊎ ∅) at 1 by multiset_solver.
  apply wp_snzi_cas; auto with pod; try done.
  - intros m' fr' Hinv' Hm'. exists {[+ Own (-1) 0 +]}. split_and!; [auto with pod | | by exists 0].
    apply (inv_set_root NODES m' (r ⊎ ∅ ⊎ fr')); try done; [lia | |].
    + intros t Ht. autorewrite with mult. rewrite decide_False by done. lia.
    + autorewrite with mult. rewrite decide_True by done. lia.
  - intros m' fr' Hinv' Hm'. exists ∅. split_and!; [auto with pod | done | multiset_solver].
Qed.

Lemma root_departs fuel : departs (-1) (root_depart fuel).
Proof.
  intros r g HG. apply (wp_loop _ (fun _ r' => r' = r ⊎ {[+ Own (-1) g +]})); [|done]. intros [] ? ->.
  apply wp_healthy_then. { intros e He. split; [done | by apply leaked_union, snzi_only_own]. }
  apply wp_bind. apply wp_snzi_load. intros m fr [Hinv _].
  assert (1 <= m Root) as Hpos.
  { eapply (own_root NODES m _ (-1) g Hinv). autorewrite with mult. rewrite decide_True by done.
    pose proof (mult_nonneg (Own (-1) g) r). pose proof (mult_nonneg (Own (-1) g) fr). lia. }
  destruct (Z.eqb_spec (m Root) 0); [lia|].
  pose proof (inv_root_bound NODES m _ Hinv) as Hb.
  apply wp_bind. apply wp_snzi_cas; auto with pod; try done.
  - intros m' fr' Hinv' Hm'.
    assert (g = 0) as ->.
    { apply (own_root_gen NODES m' _ g Hinv'). autorewrite with mult. rewrite decide_True by done.
      pose proof (mult_nonneg (Own (-1) g) r). pose proof (mult_nonneg (Own (-1) g) fr'). lia. }
    exists ∅. split_and!; [auto with pod | | multiset_solver].
    apply (inv_set_root NODES m' (r ⊎ {[+ Own (-1) 0 +]} ⊎ fr')); try done; [lia | |].
    + intros t Ht. autorewrite with mult. rewrite decide_False by done. lia.
    + autorewrite with mult. rewrite decide_True by done. lia.
  - intros m' fr' Hinv' Hm'. exists {[+ Own (-1) g +]}. by split_and!; [auto with pod | done |].
Qed.

Lemma node_at_in n : in_tree NODES n -> node_at NODES n = (Ret (Node n) : prog (cell Y) _).
Proof.
  unfold in_tree, node_at. intros Hn. destruct (Z.leb_spec 0 n); [|lia].
  by destruct (Z.ltb_spec n NODES); [|lia].
Qed.

Lemma own_count r g n fr : 1 <= mult (Own n g) (r ⊎ {[+ Own n g +]} ⊎ fr).
Proof.
  autorewrite with mult. rewrite decide_True by done.
  pose proof (mult_nonneg (Own n g) r). pose proof (mult_nonneg (Own n g) fr). lia.
Qed.

Lemma word_ok_pred g c : word_ok g c -> 1 <= c -> 0 <= c - 1 <= COUNT_MASK.
Proof. unfold word_ok. lia. Qed.

Ltac tok_add_solve :=
  let t := fresh "t" in intros t; autorewrite with mult; repeat case_decide; subst; (done || lia).

(** The departure loop of one node, given a correct parent departure. *)
Lemma depart_loop_spec fuel dp n expected r g : in_tree NODES n -> G r ->
  departs (parent n) dp ->
  (expected = None \/ exists leaf, expected = Some (leaf, g)) ->
  wp shared (loop fuel (depart_node_body NODES dp n expected) tt) (r ⊎ {[+ Own n g +]}) (fun x r' =>
    match x with Ok _ => r' = r | Err e => benign e /\ leaked r r' end).
Proof.
  intros Hn HG Hdp Hexp.
  apply (wp_loop _ (fun _ r' => r' = r ⊎ {[+ Own n g +]})); [|done]. intros [] ? ->.
  apply wp_healthy_then. { intros e He. split; [done | by apply leaked_union, snzi_only_own]. }
  rewrite node_at_in by done. cbn [bind].
  apply wp_bind, wp_snzi_load. intros m fr [Hinv _].
  destruct (own_word NODES m _ n g Hinv Hn (own_count r g n fr)) as (c & Hw & Hc & Hok).
  rewrite Hw, half_pack, count_pack, generation_pack by done. cbn [andb orb].
  destruct (Z.eqb_spec c 0) as [|Hc0]; [lia|].
  apply wp_bind.
  apply wp_mono with (fun x r' => r' = r ⊎ {[+ Own n g +]} /\ x = Ok tt).
  2: { destruct Hexp as [->|(lf & ->)]; [done|]. by rewrite Z.eqb_refl. }
  intros [[]|e] r' [-> Hx]; [|done]. clear Hx.
  rewrite pack_with_count by (by eapply word_ok_pred).
  apply wp_bind. apply wp_snzi_cas; auto with pod; try done.
  - intros m' fr' Hinv' Hm'. destruct (Z.eqb_spec c 1) as [->|Hc1].
    + destruct (inv_dec_last NODES m' _ n g (r ⊎ fr') Hinv' Hn Hm' Hok) as (gp & Hgp);
        [tok_add_solve|].
      exists {[+ Own (parent n) gp +]}. split_and!; [auto with pod | apply Hgp; tok_add_solve |].
      apply wp_bind. eapply wp_mono, (Hdp r gp HG). by intros [[]|e] r' Hr'.
    + exists ∅. split_and!; [auto with pod | | cbn; multiset_solver].
      apply (inv_dec NODES m' (r ⊎ {[+ Own n g +]} ⊎ fr')); try done; [lia | tok_add_solve].
  - intros m' fr' Hinv' Hm'. exists {[+ Own n g +]}. by split_and!; [auto with pod | done |].
Qed.

Lemma parent_of_small n : in_tree NODES n -> n < FANOUT -> parent n = -1.
Proof. unfold in_tree, FANOUT, parent. intros. dlia. Qed.

Lemma parent_of_large n : in_tree NODES n -> FANOUT <= n ->
  in_tree NODES (parent n) /\ (n - FANOUT) / FANOUT = parent n.
Proof. unfold in_tree, FANOUT, parent. intros. split; dlia. Qed.

Lemma depart_node_at_spec fuel depth n expected r g : in_tree NODES n -> G r ->
  (expected = None \/ exists leaf, expected = Some (leaf, g)) ->
  wp shared (depart_node_at NODES fuel depth n expected) (r ⊎ {[+ Own n g +]}) (fun x r' =>
    match x with Ok _ => r' = r | Err e => benign e /\ leaked r r' end).
Proof.
  revert n expected r g. induction depth as [|depth IH]; intros n expected r g Hn HG Hexp; [done|].
  cbn. apply depart_loop_spec; try done. destruct (Z.ltb_spec n FANOUT).
  - rewrite parent_of_small by done. apply root_departs.
  - destruct (parent_of_large n Hn) as [Hp ->]; [done|]. intros r' g' HG'. apply IH; auto.
Qed.

Lemma depart_parent_departs fuel n : in_tree NODES n -> departs (parent n) (depart_parent NODES fuel n).
Proof.
  intros Hn. unfold depart_parent. destruct (Z.ltb_spec n FANOUT).
  - rewrite parent_of_small by done. apply root_departs.
  - destruct (parent_of_large n Hn) as [Hp ->]; [done|]. intros r' g' HG'.
    apply depart_node_at_spec; auto.
Qed.

(** ** Arrival *)

(** The tokens held at the head of the arrival loop: the redundant parent
    arrivals, and the node's own arrival once it is made. *)
Definition arrival_tokens (n : Z) (gs : list Z) (arrived : option Z) : gmultiset (tok X) :=
  owns (parent n) gs ⊎ match arrived with Some g => {[+ Own n g +]} | None => ∅ end.

Definition arrival_state (n : Z) r (st : option Z * Z) r' : Prop :=
  exists gs, st.2 = Z.of_nat (length gs) /\ r' = r ⊎ arrival_tokens n gs st.1.

Lemma snzi_only_arrival n gs a : snzi_only (arrival_tokens n gs a).
Proof. unfold arrival_tokens. destruct a; auto with pod. Qed.
Hint Resolve snzi_only_arrival : pod.

Definition arrival_exit (n : Z) r (x : (option Z * Z) + result (Z * Z) SnziError) r' : Prop :=
  match x with
  | inl st => arrival_state n r st r'
  | inr (Ok (g, k)) => arrival_state n r (Some g, k) r'
  | inr (Err e) => benign e /\ leaked r r'
  end.

Lemma wp_bump n r gs arrived gp : G r ->
  wp shared (let!^ k := bump_redundant (Z.of_nat (length gs)) in Ret (inl (arrived, k)))
    (r ⊎ (arrival_tokens n gs arrived ⊎ {[+ Own (parent n) gp +]})) (arrival_exit n r).
Proof.
  intros HG. apply wp_bind. unfold bump_redundant. destruct (checked_add _ _ _) as [k|] eqn:E.
  - apply checked_add_some in E as [-> _]. cbn. exists (gp :: gs). cbn [length fst snd].
    split; [lia|]. unfold arrival_tokens. rewrite owns_cons. multiset_solver.
  - apply wp_bind. eapply wp_mono, wp_poison_with; [| |done].
    2: { apply client_guard; auto with pod. }
    intros e r' [-> He]. cbn. split; [done|]. apply leaked_union. auto with pod.
Qed.

(** Running the parent arrival of node [n] while holding the tokens [k]. *)
Lemma wp_arrive_parent {A St} n r k ap (K : prog (cell Y) (St + result A SnziError)) Φ :
  G r -> snzi_only k -> arrives (parent n) ap ->
  (forall e k', benign e -> snzi_only k' -> Φ (inr (Err e)) (r ⊎ k')) ->
  (forall gp, wp shared K (r ⊎ (k ⊎ {[+ Own (parent n) gp +]})) Φ) ->
  wp shared (do!^ ap ;; K) (r ⊎ k) Φ.
Proof.
  intros HG Hk Hap Herr HK. apply wp_bind.
  eapply wp_mono, (Hap (r ⊎ k)); [|by apply client_guard].
  intros [[]|e] r'.
  - intros (gp & ->). specialize (HK gp).
    by replace (r ⊎ k ⊎ {[+ Own (parent n) gp +]}) with (r ⊎ (k ⊎ {[+ Own (parent n) gp +]}))
      by multiset_solver.
  - intros (He & k' & Hk' & ->). replace (r ⊎ k ⊎ k') with (r ⊎ (k ⊎ k')) by multiset_solver.
    by apply Herr; [|apply snzi_only_union].
Qed.

(** Helping a node found in its [HALF] state. *)
Lemma wp_help n r gs ap g : in_tree NODES n -> G r -> arrives (parent n) ap -> word_ok g 0 ->
  wp shared
    (do!^ ap ;;
     let active := state_with_count g 1 in
     let! x := compare_exchange (Node n) (pack g true 0) active in
     match x with
     | Ok _ => Ret (inl (None, Z.of_nat (length gs)))
     | Err _ => let!^ k := bump_redundant (Z.of_nat (length gs)) in Ret (inl (None, k))
     end)
    (r ⊎ arrival_tokens n gs None) (arrival_exit n r).
Proof.
  intros Hn HG Hap Hok. apply (wp_arrive_parent n); auto with pod.
  { intros e k' He Hk'. split; [done | by apply leaked_union]. }
  intros gp. rewrite pack_with_count by (unfold COUNT_MASK, COUNT_BITS; lia).
  apply wp_bind, wp_snzi_cas; auto with pod; try done.
  - intros m fr Hinv Hm. exists (arrival_tokens n gs None). split_and!; [auto with pod | |by exists gs].
    eapply (inv_publish NODES m _ n g gp); try done. tok_add_solve.
  - intros m fr Hinv Hm. exists (arrival_tokens n gs None ⊎ {[+ Own (parent n) gp +]}).
    split_and!; [auto with pod | done | by apply wp_bump].
Qed.

(** Activating an idle node: HALF first, then the parent, then the count. *)
Lemma wp_activate n r gs ap g : in_tree NODES n -> G r -> arrives (parent n) ap ->
  word_ok (g + 1) 0 ->
  wp shared
    (do!^ ap ;;
     let active := state_with_count (g + 1) 1 in
     let! y := compare_exchange (Node n) (state_half (g + 1)) active in
     match y with
     | Ok _ => Ret (inl (Some (g + 1), Z.of_nat (length gs)))
     | Err _ => let!^ k := bump_redundant (Z.of_nat (length gs)) in Ret (inl (Some (g + 1), k))
     end)
    (r ⊎ (arrival_tokens n gs None ⊎ {[+ Init n (g + 1) +]})) (arrival_exit n r).
Proof.
  intros Hn HG Hap Hok. apply (wp_arrive_parent n); auto with pod.
  { intros e k' He Hk'. split; [done | by apply leaked_union]. }
  intros gp. rewrite pack_with_count, pack_half by (unfold COUNT_MASK, COUNT_BITS; lia).
  pose proof (parent_lt NODES n Hn) as Hlt.
  apply wp_bind, wp_snzi_cas; auto with pod; try done.
  - intros m fr Hinv Hm. exists (arrival_tokens n gs (Some (g + 1))).
    split_and!; [auto with pod | | by exists gs]. unfold arrival_tokens in *.
    eapply (inv_convert NODES _ (r ⊎ owns (parent n) gs ⊎ fr)
      (r ⊎ (owns (parent n) gs ⊎ {[+ Init n (g + 1) +]}) ⊎ fr) n (g + 1)).
    + eapply (inv_publish NODES m _ n (g + 1) gp); try done. tok_add_solve.
    + rewrite upd_eq. intros Heq. 
      by apply pack_inj in Heq as (_ & ? & _); [|apply word_ok_1|].
    + tok_add_solve.
    + tok_add_solve.
  - intros m fr Hinv Hm.
    exists (arrival_tokens n gs (Some (g + 1)) ⊎ {[+ Own (parent n) gp +]}).
    split_and!; [auto with pod | | by apply wp_bump]. unfold arrival_tokens in *.
    eapply (inv_convert NODES m (r ⊎ owns (parent n) gs ⊎ {[+ Own (parent n) gp +]} ⊎ fr) _ n (g + 1)
      _ Hinv Hm); tok_add_solve.
Qed.

Lemma arrive_body_spec ap n r st r' : in_tree NODES n -> G r -> arrives (parent n) ap ->
  arrival_state n r st r' ->
  wp shared (arrive_node_body NODES ap n st) r' (arrival_exit n r).
Proof.
  intros Hn HG Hap (gs & Hk & ->). destruct st as [[g|] k]; cbn in Hk; subst k.
  { by exists gs. }
  apply wp_healthy_then. { intros e He. split; [done | apply leaked_union; auto with pod]. }
  rewrite node_at_in by done. cbn [bind fst snd].
  apply wp_bind, wp_snzi_load. intros m fr [Hinv _].
  destruct (node_word NODES m _ n Hinv Hn) as (g & h & c & Hw & Hok).
  pose proof (node_view NODES m _ n g h c Hinv Hn Hw Hok) as [_ Hview].
  rewrite Hw, half_pack, count_pack, generation_pack by done.
  assert (HG' : G (r ⊎ arrival_tokens n gs None)) by (apply client_guard; auto with pod).
  assert (Hexit : forall e, benign e ->
    arrival_exit n r (inr (Err e)) (r ⊎ arrival_tokens n gs None)).
  { intros e He. split; [done | apply leaked_union; auto with pod]. }
  destruct h.
  { destruct Hview as [-> _]. cbn [negb Z.eqb]. by apply wp_help. }
  destruct (Z.eqb_spec c 0) as [->|Hc].
  - destruct (Z.eqb_spec g VERSION_MASK) as [|Hg]; [by apply wp_poison_exit|].
    assert (Hok' : word_ok (g + 1) 0) by (unfold word_ok in *; lia).
    apply wp_bind, wp_snzi_cas; auto with pod; try done.
    + intros m' fr' Hinv' Hm'. exists (arrival_tokens n gs None ⊎ {[+ Init n (g + 1) +]}).
      split_and!; [auto with pod | | by apply wp_activate]. rewrite pack_half.
      eapply (inv_half NODES m' _ n g); try done; [apply Hok' | tok_add_solve].
    + intros m' fr' Hinv' Hm'. exists (arrival_tokens n gs None).
      split_and!; [auto with pod | done | by exists gs].
  - destruct (Z.eqb_spec c COUNT_MASK) as [|Hmax]; [by apply wp_poison_exit|].
    assert (Hb : 1 <= c < COUNT_MASK) by (unfold word_ok in Hok; lia).
    rewrite pack_with_count by lia.
    apply wp_bind, wp_snzi_cas; auto with pod; try done.
    + intros m' fr' Hinv' Hm'. exists (arrival_tokens n gs (Some g)).
      split_and!; [auto with pod | | by exists gs]. unfold arrival_tokens in *.
      eapply (inv_inc NODES m' _ n g c); try done. tok_add_solve.
    + intros m' fr' Hinv' Hm'. exists (arrival_tokens n gs None).
      split_and!; [auto with pod | done | by exists gs].
Qed.

Lemma compensate_spec fuel n gs r : in_tree NODES n -> G r ->
  wp shared (compensate NODES fuel n (length gs)) (r ⊎ owns (parent n) gs) (fun x r' =>
    match x with Ok _ => r' = r | Err e => benign e /\ leaked r r' end).
Proof.
  intros Hn. revert r. induction gs as [|g gs IH]; intros r HG; cbn [length compensate].
  - cbn. multiset_solver.
  - apply wp_try_bind. rewrite owns_cons.
    replace (r ⊎ ({[+ Own (parent n) g +]} ⊎ owns (parent n) gs))
      with (r ⊎ owns (parent n) gs ⊎ {[+ Own (parent n) g +]}) by multiset_solver.
    eapply wp_mono, (depart_parent_departs fuel n Hn); [|apply client_guard; auto with pod].
    intros [[]|e] r'; [intros ->; by apply IH|]. intros [He Hl]. split; [done|].
    by eapply leaked_trans; [apply snzi_only_owns|].
Qed.

Lemma arrive_node_at_spec fuel depth n r : in_tree NODES n -> G r ->
  wp shared (arrive_node_at NODES fuel depth n) r (fun x r' =>
    match x with Ok g => r' = r ⊎ {[+ Own n g +]} | Err e => benign e /\ leaked r r' end).
Proof.
  revert n r. induction depth as [|depth IH]; intros n r Hn HG; [done|].
  cbn [arrive_node_at]. apply wp_try_bind.
  eapply wp_mono, (wp_loop _ (arrival_state n r)).
  3: { exists []. split; [done|]. unfold arrival_tokens. cbn. multiset_solver. }
  2: { intros st r' Hst. eapply wp_mono, (arrive_body_spec _ n r st r' Hn HG); [|clear st r' Hst|done].
       - intros [st'|x] r'' Hx; [done | exact Hx].
       - destruct (Z.ltb_spec n FANOUT).
         + rewrite parent_of_small by done. apply root_arrives.
         + destruct (parent_of_large n Hn) as [Hp ->]; [done|]. intros r' HG'.
           apply wp_try_bind. eapply wp_mono, (IH _ _ Hp HG'). intros [g|e] r''; [|done].
           intros ->. by exists g. }
  intros [[g k]|e] r'; [|done]. intros (gs & Hk & ->). cbn in Hk. subst k.
  cbn [fst snd]. rewrite Nat2Z.id. apply wp_try_bind. unfold arrival_tokens.
  replace (r ⊎ (owns (parent n) gs ⊎ {[+ Own n g +]}))
    with (r ⊎ {[+ Own n g +]} ⊎ owns (parent n) gs) by multiset_solver.
  eapply wp_mono, compensate_spec; [|done|apply client_guard; auto with pod].
  intros [[]|e] r'; [by intros ->|]. intros [He Hl]. split; [done|].
  by eapply leaked_trans; [apply snzi_only_own|].
Qed.

Lemma leaf_node_in leaf n : 0 <= leaf -> leaf_node NODES leaf = Ok n -> in_tree NODES n.
Proof.
  intros Hl Hn. unfold leaf_node in Hn. destruct (Z.leb_spec (leaf_count NODES) leaf) as [|Hlt]; [done|].
  injection Hn as <-. revert Hlt. unfold leaf_count, layout_leaf_count, leaf_start.
  destruct (is_valid_node_count NODES) eqn:Hv; cbn [negb]; [|lia].
  unfold in_tree, is_valid_node_count, FANOUT in *. destruct (Z.ltb_spec NODES 4); [done|]. dlia.
Qed.

(** The token a participant holds between its arrival and its departure. *)
Definition arrival_owned (t : ArrivalToken) : gmultiset (tok X) :=
  {[+ Own (leaf_start NODES + leaf t) (generation t) +]}.

(** ** The public operations *)

Lemma leaf_bound leaf n : leaf_node NODES leaf = Ok n -> 0 <= leaf -> leaf < 2 ^ 16.
Proof.
  unfold leaf_node, leaf_count. intros Hn Hl.
  destruct (Z.leb_spec (layout_leaf_count NODES) leaf) as [|Hlt]; [done|].
  destruct (is_valid_node_count NODES) eqn:Hv.
  - apply valid_node_count_iff in Hv as (k & Hk & ->).
    destruct (leaf_count_level k Hk) as [Hc _]. rewrite Hc in Hlt.
    pose proof (Z.pow_le_mono_r 4 k 8). change (2 ^ 16) with (4 ^ 8). lia.
  - unfold layout_leaf_count in Hlt. rewrite Hv in Hlt. cbn in Hlt. lia.
Qed.

Lemma wp_healthy_try {A} (k : prog (cell Y) (result A SnziError)) r Φ :
  (forall e, benign e -> Φ (Err e) r) -> wp shared k r Φ ->
  wp shared (do!? ensure_healthy ;; k) r Φ.
Proof.
  intros Herr Hk. apply wp_try_bind. eapply wp_mono, wp_ensure_healthy.
  intros [[]|e] r' [-> He]; [done | by apply Herr].
Qed.

Definition arrive_post (lf : Z) r (x : result ArrivalToken SnziError) r' : Prop :=
  match x with
  | Ok t => leaf t = lf /\ 0 <= lf < leaf_count NODES /\ r' = r ⊎ arrival_owned t
  | Err e => (e = InvalidLeaf lf (leaf_count NODES) \/ benign e) /\ leaked r r'
  end.

Lemma arrive_spec fuel lf r : 0 <= lf -> G r ->
  wp shared (arrive NODES fuel lf) r (arrive_post lf r).
Proof.
  intros Hl HG. apply wp_try_bind, wp_ret. destruct (leaf_node NODES lf) as [n|e] eqn:Hn.
  2: { unfold leaf_node in Hn. destruct (_ <=? _); simplify_eq.
       split; [by left | apply leaked_refl]. }
  apply wp_healthy_try. { intros e He. split; [by right | apply leaked_refl]. }
  pose proof (leaf_node_in lf n Hl Hn) as Hin. pose proof (leaf_bound lf n Hn Hl).
  assert (n = leaf_start NODES + lf /\ lf < leaf_count NODES) as [-> Hlt].
  { unfold leaf_node in Hn. by destruct (Z.leb_spec (leaf_count NODES) lf); simplify_eq. }
  apply wp_try_bind. eapply wp_mono, (arrive_node_at_spec fuel _ _ r Hin HG).
  intros [g|e] r'; [|intros [He Hlk]; split; [by right | done]].
  intros ->. apply wp_healthy_try.
  { intros e He. split; [by right | apply leaked_union; auto with pod]. }
  cbn. unfold wrap. rewrite Z.mod_small by lia. by split_and!.
Qed.

Lemma depart_token_spec fuel t r : 0 <= leaf t < leaf_count NODES -> G r ->
  wp shared (depart NODES fuel t) (r ⊎ arrival_owned t) (fun x r' =>
    match x with Ok _ => r' = r | Err e => benign e /\ leaked r r' end).
Proof.
  intros Hl HG.
  assert (Hn : leaf_node NODES (leaf t) = Ok (leaf_start NODES + leaf t)).
  { unfold leaf_node. by destruct (Z.leb_spec (leaf_count NODES) (leaf t)); [lia|]. }
  unfold depart, depart_token. rewrite Hn. apply wp_try_bind, wp_ret.
  apply wp_healthy_try. { intros e He. split; [done | apply leaked_union, snzi_only_own]. }
  apply wp_try_bind. eapply wp_mono, depart_node_at_spec; try done.
  - intros [[]|e] r'; [|done]. intros ->. eapply wp_mono, wp_ensure_healthy.
    intros [[]|e] r' [-> He]; [done|]. split; [done | apply leaked_refl].
  - apply (leaf_node_in (leaf t)); [lia | done].
  - right. by exists (leaf t).
Qed.

Lemma query_owned r n g : wp shared query (r ⊎ {[+ Own n g +]}) (fun b r' =>
  b = true /\ r' = r ⊎ {[+ Own n g +]}).
Proof.
  apply wp_bind, wp_snzi_load. intros m fr [Hinv _].
  pose proof (own_root NODES m _ n g Hinv (own_count r g n fr)).
  destruct (Z.eqb_spec (m Root) 0); [lia|]. done.
Qed.
End Specifications.
