(* ===== verification/SnziCorrect.v ===== *)
(** The SNZI theorems: presence is never missed in any interleaving, an empty
    tree reads as empty, lone operations complete, and tokens round-trip. *)

From S2P Require Import Prelude Conc Snzi SnziInv.

(** ** Clients *)

(** A participant: for each leaf of its script it arrives, queries the indicator
    while it is present, and departs.  It panics on any observation the indicator
    promises to exclude: a false query while present, or a departure of a live
    token that is refused, or a reported invariant violation.  It returns [true]
    when every operation succeeded. *)
Fixpoint client (NODES : Z) (fuel : nat) (script : list nat) : prog (cell Empty_set) bool :=
  match script with
  | [] => Ret true
  | lf :: script =>
      let! x := arrive NODES fuel (Z.of_nat lf) in
      match x with
      | Ok t =>
          let! present := query in
          if negb present then Panic
          else
            let! d := depart NODES fuel t in
            match d with
            | Ok _ => client NODES fuel script
            | Err (Poisoned InvariantViolation) => Panic
            | Err (Poisoned _) => Ret false
            | Err _ => Panic
            end
      | Err (Poisoned InvariantViolation) => Panic
      | Err _ => Ret false
      end
  end.

#[local] Abbreviation toks := (gmultiset (tok Empty_set)).

Definition no_guard (r : toks) : Prop := True.
Definition no_rest (m : cell Empty_set -> Z) (r : toks) : Prop := True.

#[export] Instance standalone : SnziClient no_guard no_rest.
Proof. by split. Qed.

Definition client_post (b : bool) (r : toks) : Prop := b = true -> r = ∅.

Lemma client_spec NODES fuel script :
  wp (shared NODES no_rest) (client NODES fuel script) ∅ client_post.
Proof.
  induction script as [|lf script IH]; [done|]. cbn [client].
  apply wp_bind. eapply wp_mono, (arrive_spec NODES no_guard no_rest); [|lia|done].
  intros [t|e] r; cbn [arrive_post].
  - intros (Hl & Hb & ->). apply wp_bind. eapply wp_mono, (query_owned NODES no_rest).
    intros b r [-> ->]. cbn [negb]. apply wp_bind.
    eapply wp_mono, (depart_token_spec NODES no_guard no_rest); [|by rewrite Hl|done].
    intros [[]|e] r; [by intros ->|]. intros [(reason & -> & Hne) _]. by destruct reason.
  - intros [[->|(reason & -> & Hne)] _]; [done|]. by destruct reason.
Qed.

Lemma clients_ok NODES fuel scripts :
  pool_ok (shared NODES no_rest) client_post (new, client NODES fuel <$> scripts).
Proof.
  apply pool_ok_start.
  - split; [apply inv_new | done].
  - apply Forall_fmap, Forall_true. apply client_spec.
Qed.

(** C4.  In every interleaving of any number of participants on one indicator,
    whatever their scripts and wherever some of them stop, no participant ever
    observes a false query between its arrival and its departure, no departure
    of a live token is refused, and no invariant violation is reported. *)
Theorem snzi_presence_never_missed NODES fuel (scripts : list (list nat)) m ts i :
  rtc pstep (new, client NODES fuel <$> scripts) (m, ts) -> ts !! i <> Some Panic.
Proof. intros Hs. apply (pool_no_panic _ _ _ (m, ts) i Hs (clients_ok _ _ _)). Qed.

(** When every participant has run its script to the end with success, the
    tree is empty again: the root counts zero and every node is idle. *)
Theorem snzi_drains_to_idle NODES fuel (scripts : list (list nat)) m ts :
  rtc pstep (new, client NODES fuel <$> scripts) (m, ts) ->
  Forall (fun p => p = Ret true) ts ->
  m Root = 0 /\ forall n, 0 <= n < NODES -> idle (m (Node n)).
Proof.
  intros Hs Hdone. destruct (pool_adequacy _ _ _ _ Hs (clients_ok _ _ _)) as (rs & Hall & Hinv & _).
  cbn in *. assert (⋃+ rs = ∅) as Hr.
  { clear -Hall Hdone. induction Hall as [|p r ts rs Hp _ IH]; [done|].
    apply Forall_cons_1 in Hdone as [-> Hts]. cbn. rewrite (Hp eq_refl), IH by done. multiset_solver. }
  rewrite Hr in Hinv. apply (no_tokens_idle NODES m ∅ Hinv). by intros n g.
Qed.

(** Two participants alternating on the same leaf of a four-leaf tree: the second
    one helps the first out of its [HALF] state, and both run to the end. *)
Definition demo_run : (cell Empty_set -> Z) * list (prog (cell Empty_set) bool) :=
  run_schedule (new, client 4 5 <$> [[0%nat; 1%nat]; [0%nat]]) (round_robin 2 40).

Lemma snzi_presence_never_missed_witness : demo_run.2 !! 1%nat <> Some Panic.
Proof. apply (snzi_presence_never_missed 4 5 [[0%nat; 1%nat]; [0%nat]] demo_run.1 demo_run.2 1).
  rewrite <- surjective_pairing. apply run_schedule_steps. Defined.

Lemma snzi_drains_to_idle_witness : demo_run.1 Root = 0 /\ forall n, 0 <= n < 4 -> idle (demo_run.1 (Node n)).
Proof.
  apply (snzi_drains_to_idle 4 5 [[0%nat; 1%nat]; [0%nat]] demo_run.1 demo_run.2).
  - rewrite <- surjective_pairing. apply run_schedule_steps.
  - replace demo_run.2 with [Ret true; Ret true : prog (cell Empty_set) bool] by (vm_compute; reflexivity).
    repeat constructor.
Defined.

(** ** Lone operations complete *)

Section Solo.
Context {Y : Type} `{EqDecision Y}.
Variable NODES : Z.
Implicit Types (m : cell Y -> Z).

(** A node word with room for one more arrival. *)
Definition roomy_word (w : Z) : Prop :=
  exists g h c, w = pack g h c /\ word_ok g c /\ (h = true -> c = 0) /\
    g < VERSION_MASK /\ c < COUNT_MASK.

(** A healthy tree in which no counter of the nodes below [n] is exhausted. *)
Definition roomy_below n m : Prop :=
  m Poison = 0 /\ m Root < u64_max /\ forall j, 0 <= j < n -> roomy_word (m (Node j)).

(** [p] succeeds when run alone, leaves the nodes from [n] on alone, and
    reports no poison. *)
Definition lone_ok {A} (p : prog (cell Y) (result A SnziError)) n m : Prop :=
  solo p m (fun x m' => is_ok x = true /\ m' Poison = 0 /\
    forall j, n <= j -> m' (Node j) = m (Node j)).

Lemma solo_healthy {St A} (k : prog (cell Y) (St + result A SnziError)) m Φ :
  m Poison = 0 -> solo k m Φ -> solo (do!^ ensure_healthy ;; k) m Φ.
Proof. intros Hp Hk. cbn. unfold apply_rmw. by rewrite Hp. Qed.

Lemma solo_healthy_try {A} (k : prog (cell Y) (result A SnziError)) m Φ :
  m Poison = 0 -> solo k m Φ -> solo (do!? ensure_healthy ;; k) m Φ.
Proof. intros Hp Hk. cbn. unfold apply_rmw. by rewrite Hp. Qed.

Lemma lone_root_arrive f m : roomy_below 0 m -> lone_ok (root_arrive (S f)) 0 m.
Proof.
  intros (Hp & Hr & _). unfold lone_ok, root_arrive. apply solo_loop, solo_healthy; [done|].
  rewrite solo_bind, solo_load. destruct (Z.eqb_spec (m Root) u64_max); [lia|].
  rewrite solo_bind, solo_cas, Z.eqb_refl. cbn. by split_and!.
Qed.

Lemma solo_body_active ap n k m g c Φ : m Poison = 0 -> in_tree NODES n ->
  m (Node n) = pack g false c -> word_ok g c -> 1 <= c < COUNT_MASK ->
  Φ (inl (Some g, k)) (upd m (Node n) (pack g false (c + 1))) ->
  solo (arrive_node_body NODES ap n (None, k)) m Φ.
Proof.
  intros Hp Hn Hw Hok Hc HΦ. apply solo_healthy; [done|]. rewrite node_at_in by done. cbn [bind].
  rewrite solo_bind, solo_load, Hw, half_pack, count_pack, generation_pack by done.
  destruct (Z.eqb_spec c 0); [lia|]. destruct (Z.eqb_spec c COUNT_MASK); [lia|].
  rewrite solo_bind, solo_cas, Hw, Z.eqb_refl, pack_with_count by lia. done.
Qed.

Lemma solo_body_idle ap n k m g Φ : m Poison = 0 -> in_tree NODES n ->
  m (Node n) = pack g false 0 -> word_ok g 0 -> g < VERSION_MASK ->
  lone_ok ap n (upd m (Node n) (pack (g + 1) true 0)) ->
  (forall m', m' Poison = 0 -> (forall j, n < j -> m' (Node j) = m (Node j)) ->
     Φ (inl (Some (g + 1), k)) m') ->
  solo (arrive_node_body NODES ap n (None, k)) m Φ.
Proof.
  intros Hp Hn Hw Hok Hg Hap HΦ. apply solo_healthy; [done|]. rewrite node_at_in by done. cbn [bind].
  rewrite solo_bind, solo_load, Hw, half_pack, count_pack, generation_pack by done.
  cbn [Z.eqb]. destruct (Z.eqb_spec g VERSION_MASK); [lia|].
  rewrite solo_bind, solo_cas, Hw, Z.eqb_refl, pack_half.
  unfold try_loop. rewrite solo_bind. eapply solo_mono, Hap. intros [x|e] m' (Hx & Hp' & Hj); [|done].
  rewrite solo_bind, solo_cas, Hj, upd_eq, Z.eqb_refl by lia. apply HΦ.
  - by rewrite upd_ne.
  - intros j Hlt. by rewrite upd_ne, Hj, upd_ne by (lia || intros [=]; lia).
Qed.

Lemma solo_body_half ap n k m g Φ : m Poison = 0 -> in_tree NODES n ->
  m (Node n) = pack g true 0 -> word_ok g 0 -> lone_ok ap n m ->
  (forall m', m' Poison = 0 -> m' (Node n) = pack g false 1 ->
     (forall j, n < j -> m' (Node j) = m (Node j)) -> Φ (inl (None, k)) m') ->
  solo (arrive_node_body NODES ap n (None, k)) m Φ.
Proof.
  intros Hp Hn Hw Hok Hap HΦ. apply solo_healthy; [done|]. rewrite node_at_in by done. cbn [bind].
  rewrite solo_bind, solo_load, Hw, half_pack, count_pack, generation_pack by done.
  cbn [Z.eqb negb].
  unfold try_loop. rewrite solo_bind. eapply solo_mono, Hap. intros [x|e] m' (Hx & Hp' & Hj); [|done].
  rewrite solo_bind, solo_cas, Hj, Hw, Z.eqb_refl by lia.
  rewrite pack_with_count by (unfold COUNT_MASK, COUNT_BITS; lia). apply HΦ.
  - by rewrite upd_ne.
  - by rewrite upd_eq.
  - intros j Hlt. by rewrite upd_ne, Hj by (lia || intros [=]; lia).
Qed.

Lemma solo_loop_exit f ap n g k m Φ : Φ (Ok (g, k)) m ->
  solo (loop (S f) (arrive_node_body NODES ap n) (Some g, k)) m Φ.
Proof. intros HΦ. by apply solo_loop. Qed.

(** At most three iterations per level: help a node left half-way, count, leave. *)
Lemma lone_arrive_node f depth n m : in_tree NODES n -> (Z.to_nat n < depth)%nat ->
  roomy_below (n + 1) m -> lone_ok (arrive_node_at NODES (S (S (S f))) depth n) (n + 1) m.
Proof.
  revert n m. induction depth as [|depth IH]; intros n m Hn Hd Hroom; [lia|].
  unfold lone_ok. cbn [arrive_node_at]. set (ap := if n <? FANOUT then _ else _).
  assert (Hap : forall m', m' Poison = 0 -> m' Root = m Root ->
    (forall j, j < n -> m' (Node j) = m (Node j)) -> lone_ok ap n m').
  { intros m' Hp Hr Hj. destruct Hroom as (_ & Hr0 & Hw).
    unfold ap. destruct (Z.ltb_spec n FANOUT).
    - unfold in_tree in Hn. eapply solo_mono, (lone_root_arrive (S (S f)) m').
      + intros x m'' (Hx & Hp'' & Hj'). split_and!; try done. intros j ?. apply Hj'. lia.
      + split_and!; [done | by rewrite Hr | lia].
    - destruct (parent_of_large NODES n Hn) as [Hin ->]; [done|].
      pose proof (parent_lt NODES n Hn). unfold lone_ok. rewrite solo_try_bind.
      eapply solo_mono, (IH (parent n) m' Hin).
      + intros [x|e] m'' (Hx & Hp'' & Hj'); [|done]. cbn. split_and!; try done.
        intros j ?. apply Hj'. lia.
      + unfold in_tree in *. lia.
      + split_and!; [done | by rewrite Hr |]. intros j ?. rewrite Hj by lia. apply Hw.
        unfold in_tree in *. lia. }
  clearbody ap. destruct Hroom as (Hp & Hr & Hw).
  rewrite solo_try_bind.
  assert (Hfin : forall (g : Z) m', m' Poison = 0 -> (forall j, n < j -> m' (Node j) = m (Node j)) ->
    solo (do!? compensate NODES (S (S (S f))) n (Z.to_nat (g, 0).2) ;; Ret (Ok (g, 0).1)) m'
      (fun x m'' => is_ok x = true /\ m'' Poison = 0 /\
         forall j, n + 1 <= j -> m'' (Node j) = m (Node j))).
  { intros g m' Hp' Hj. cbn. split_and!; try done. intros j ?. apply Hj. lia. }
  destruct (Hw n) as (g & h & c & Hwn & Hok & Hh & Hg & Hc); [unfold in_tree in Hn; lia|].
  rewrite solo_loop. destruct h.
  - rewrite (Hh eq_refl) in *. eapply (solo_body_half ap n 0 m g); try done; [by apply Hap|].
    intros m1 Hp1 Hn1 Hj1. apply solo_loop.
    apply (solo_body_active ap n 0 m1 g 1 _ Hp1 Hn Hn1 (word_ok_1 _ Hok));
      [unfold COUNT_MASK, COUNT_BITS; lia|].
    apply solo_loop_exit, Hfin; [by rewrite upd_ne|].
    intros j ?. rewrite upd_ne by (intros [=]; lia). by apply Hj1.
  - destruct (decide (c = 0)) as [->|Hc0].
    + eapply (solo_body_idle ap n 0 m g); try done.
      * apply Hap; try by rewrite upd_ne. intros j ?. apply upd_ne. intros [=]; lia.
      * intros m1 Hp1 Hj1. by apply solo_loop_exit, Hfin.
    + eapply (solo_body_active ap n 0 m g c); try done; [unfold word_ok in Hok; lia|].
      apply solo_loop_exit, Hfin; [by rewrite upd_ne|].
      intros j ?. apply upd_ne. intros [=]; lia.
Qed.
End Solo.

(** C5.  An arrival that runs alone always completes with a token, whatever the
    state in which the other participants stopped (even in the middle of an
    activation), as long as the tree is healthy and no packed counter is
    exhausted; three iterations per retry loop are enough. *)
Theorem snzi_lone_arrival_completes NODES fuel lf (m : cell Empty_set -> Z) :
  (3 <= fuel)%nat -> 0 <= lf < leaf_count NODES -> roomy_below NODES m ->
  exists t m', run (arrive NODES fuel lf) m = (Done (Ok t), m').
Proof.
  intros Hf Hl Hroom. destruct fuel as [|[|[|f]]]; try lia.
  assert (Hn : leaf_node NODES lf = Ok (leaf_start NODES + lf)).
  { unfold leaf_node. by destruct (Z.leb_spec (leaf_count NODES) lf); [lia|]. }
  assert (Hin : in_tree NODES (leaf_start NODES + lf)) by (eapply leaf_node_in; [|done]; lia).
  edestruct (solo_run (arrive NODES (S (S (S f))) lf) m (fun x _ => is_ok x = true)) as (x & m' & Hrun & Hx).
  - unfold arrive. rewrite Hn. apply solo_try_bind. apply (solo_healthy_try _ m); [apply Hroom|].
    rewrite solo_try_bind. eapply solo_mono, lone_arrive_node; [|done|lia|].
    + intros [g|e] m' (Hx & Hp & _); [|done]. by apply solo_healthy_try.
    + destruct Hroom as (Hp & Hr & Hw). split_and!; try done. intros j Hj. apply Hw.
      unfold in_tree in Hin. lia.
  - destruct x as [t|e]; [|done]. by exists t, m'.
Qed.

(** A thread died right after moving leaf 1 to [HALF]; leaf 1 is then used. *)
Lemma snzi_lone_arrival_completes_witness :
  exists t (m' : cell Empty_set -> Z),
    run (arrive 4 3 1) (upd new (Node 1) (state_half 1)) = (Done (Ok t), m').
Proof.
  apply snzi_lone_arrival_completes; [lia | vm_compute; split; [discriminate|reflexivity] |].
  split; [reflexivity | split; [reflexivity |]]. intros j Hj.
  unfold roomy_word, upd. case_decide as Hd.
  - exists 1, true, 0. vm_compute. split_and!; try done; intros; discriminate.
  - exists 0, false, 0. vm_compute. split_and!; try done; intros; discriminate.
Defined.
