(* ===== verification/Admission.v ===== *)
(** The closeable admission barrier of [shmem_exec_obj/v2/src/admission.rs]: a
    one-shot gate word in front of a [Snzi].

    The cell [Gate] is the gate word of the barrier; [Payload] stands for the
    storage that the barrier protects and is touched by its clients only. *)

From S2P Require Import Prelude Conc Snzi.

Definition CLOSED_BIT : Z := 2 ^ 63.
Definition POISONED_BIT : Z := 2 ^ 62.
Definition CHECKING_BIT : Z := 2 ^ 61.
Definition DRAINED_BIT : Z := 2 ^ 60.
Definition RESERVATION_MASK : Z := DRAINED_BIT - 1.
Definition TERMINAL_DRAINED : Z := Z.lor CLOSED_BIT DRAINED_BIT.

Inductive TryEnterError :=
| EnterClosed
| EnterPoisoned
| EnterReservationExhausted
| EnterSnzi (e : SnziError).

Inductive DepartError :=
| DepartPoisoned
| DepartAlreadyDrained
| DepartReservationExhausted
| DepartSnzi (e : SnziError).

Record AdmissionSnapshot := {
  closed : bool;
  poisoned : bool;
  checking_drain : bool;
  drained : bool;
  transient_reservations : Z;
  snzi : SnziSnapshot
}.

Definition appears_drained (s : AdmissionSnapshot) : bool :=
  closed s && negb (poisoned s) && negb (checking_drain s) && drained s
  && (transient_reservations s =? 0) && snapshot_is_quiescent (snzi s).

Inductive acell := Gate | Payload.
#[export] Instance acell_eq_dec : EqDecision acell.
Proof. solve_decision. Defined.

(** [word & bit != 0] *)
Definition has (word bit : Z) : bool := negb (Z.land word bit =? 0).

Section Operations.
Variable NODES : Z.
Variable fuel : nat.
#[local] Abbreviation prog := (prog (cell acell)).

Definition poison_gate : prog unit := do! fetch_or (Ext Gate) POISONED_BIT ;; Ret tt.

Definition reserve_body (state : Z) : prog (Z + result unit TryEnterError) :=
  if has state CLOSED_BIT then Ret (inr (Err EnterClosed))
  else if has state POISONED_BIT then Ret (inr (Err EnterPoisoned))
  else if Z.land state RESERVATION_MASK =? RESERVATION_MASK then
    do! poison_gate ;; Ret (inr (Err EnterReservationExhausted))
  else
    let! x := compare_exchange_weak (Ext Gate) state (state + 1) in
    match x with Ok _ => Ret (inr (Ok tt)) | Err observed => Ret (inl observed) end.
Definition reserve : prog (result unit TryEnterError) :=
  let! state := load (Ext Gate) in loop fuel reserve_body state.

Definition reserve_departure_body (state : Z) : prog (Z + result unit DepartError) :=
  if has state POISONED_BIT then Ret (inr (Err DepartPoisoned))
  else if has state DRAINED_BIT then Ret (inr (Err DepartAlreadyDrained))
  else if has state CHECKING_BIT then
    let! state := load (Ext Gate) in Ret (inl state)
  else if Z.land state RESERVATION_MASK =? RESERVATION_MASK then
    do! poison_gate ;; Ret (inr (Err DepartReservationExhausted))
  else
    let! x := compare_exchange_weak (Ext Gate) state (state + 1) in
    match x with Ok _ => Ret (inr (Ok tt)) | Err observed => Ret (inl observed) end.
Definition reserve_departure : prog (result unit DepartError) :=
  let! state := load (Ext Gate) in loop fuel reserve_departure_body state.

(** [debug_assert!(false)] after an underflow panics. *)
Definition release_reservation_body (state : Z) : prog (Z + unit) :=
  if Z.land state RESERVATION_MASK =? 0 then do! poison_gate ;; Panic
  else
    let! x := compare_exchange_weak (Ext Gate) state (state - 1) in
    match x with Ok _ => Ret (inr tt) | Err observed => Ret (inl observed) end.
Definition release_reservation : prog unit :=
  let! state := load (Ext Gate) in loop fuel release_reservation_body state.

(** The reservation is dropped on every return. *)
Definition try_enter (leaf : Z) : prog (result ArrivalToken TryEnterError) :=
  do!? reserve ;;
  let! x := arrive NODES fuel leaf in
  match x with
  | Ok arrival => do! release_reservation ;; Ret (Ok arrival)
  | Err error =>
      do! (match error with Poisoned _ => poison_gate | _ => Ret tt end) ;;
      do! release_reservation ;;
      Ret (Err (EnterSnzi error))
  end.

(** [AdmissionToken::depart] *)
Definition token_depart (t : ArrivalToken) : prog (result unit DepartError) :=
  do!? reserve_departure ;;
  let! r := depart NODES fuel t in
  do! release_reservation ;;
  Ret (map_err DepartSnzi r).

Definition admission_depart_raw (raw : Z) : prog (result unit DepartError) :=
  do!? reserve_departure ;;
  let! r := depart_raw NODES fuel raw in
  do! release_reservation ;;
  Ret (map_err DepartSnzi r).

Definition close : prog bool :=
  let! w := fetch_or (Ext Gate) CLOSED_BIT in Ret (Z.land w CLOSED_BIT =? 0).

Definition is_closed : prog bool :=
  let! w := load (Ext Gate) in Ret (has w CLOSED_BIT).

Definition is_drained_body (gate : Z) : prog (Z + bool) :=
  if has gate DRAINED_BIT then Ret (inr (gate =? TERMINAL_DRAINED))
  else if negb (Z.land gate (Z.lor (Z.lor CLOSED_BIT POISONED_BIT) CHECKING_BIT) =? CLOSED_BIT)
          || has gate RESERVATION_MASK then Ret (inr false)
  else
    let! present := query in
    if present then Ret (inr false)
    else
      let checking := Z.lor gate CHECKING_BIT in
      let! x := compare_exchange_weak (Ext Gate) gate checking in
      match x with
      | Ok _ =>
          let! quiescent := is_quiescent NODES in
          let unchecked := Z.land checking (not_bits 64 CHECKING_BIT) in
          let next := if quiescent then Z.lor unchecked DRAINED_BIT else unchecked in
          let! y := compare_exchange (Ext Gate) checking next in
          match y with
          | Err _ =>
              do! fetch_and (Ext Gate) (not_bits 64 CHECKING_BIT) ;; Ret (inr false)
          | Ok _ => Ret (inr quiescent)
          end
      | Err observed => Ret (inl observed)
      end.
Definition is_drained : prog bool :=
  let! gate := load (Ext Gate) in loop fuel is_drained_body gate.

Definition admission_debug_snapshot : prog AdmissionSnapshot :=
  let! gate := load (Ext Gate) in
  let! s := debug_snapshot NODES in
  Ret {| closed := has gate CLOSED_BIT; poisoned := has gate POISONED_BIT;
         checking_drain := has gate CHECKING_BIT; drained := has gate DRAINED_BIT;
         transient_reservations := Z.land gate RESERVATION_MASK; snzi := s |}.
End Operations.
