(* ===== verification/AdmissionCorrect.v ===== *)
(** Safety of the closeable admission barrier in every interleaving: once a drain
    is reported, no participant is admitted any more. *)

From stdpp Require Import countable.
From S2P Require Import Prelude Conc Snzi SnziInv Admission.

(** [Res] is a transient reservation, [Chk k] the terminal scan that has found
    the nodes below [k] idle ([-1]: it has found an active one), [Sealed] the
    knowledge that the barrier has drained. *)
Inductive atok := Res | Chk (k : Z) | Sealed.
#[export] Instance atok_eq_dec : EqDecision atok.
Proof. solve_decision. Defined.
#[export] Instance atok_countable : Countable atok.
Proof.
  apply (inj_countable'
    (fun t => match t with Res => inl true | Sealed => inl false | Chk k => inr k end)
    (fun s => match s with inl true => Res | inl false => Sealed | inr k => Chk k end)).
  by intros [].
Defined.

#[local] Abbreviation toks := (gmultiset (tok atok)).
#[local] Abbreviation mem := (cell acell -> Z).

(** ** The gate word: four flags above a 60-bit reservation count *)

Definition gate (f c : Z) : Z := f * 2 ^ 60 + c.

Definition count_ok (c : Z) : Prop := 0 <= c < 2 ^ 60.

Lemma gate_has f c k : count_ok c -> 0 <= k ->
  has (gate f c) (2 ^ (60 + k)) = Z.testbit f k.
Proof.
  intros Hc Hk. unfold has, gate. rewrite land_bit_eqb, negb_involutive by lia.
  rewrite testbit_pack by (done || lia). destruct (Z.ltb_spec (60 + k) 60); [lia|]. f_equal. lia.
Qed.

Lemma gate_count f c : count_ok c -> Z.land (gate f c) RESERVATION_MASK = c.
Proof.
  intros Hc. unfold RESERVATION_MASK, DRAINED_BIT, gate. rewrite land_mask by lia.
  rewrite Z.add_comm, Z.mod_add, Z.mod_small by (done || lia). done.
Qed.

Lemma gate_lor f c b : count_ok c -> Z.lor (gate f c) (b * 2 ^ 60) = gate (Z.lor f b) c.
Proof.
  intros Hc. rewrite <- (Z.add_0_r (b * 2 ^ 60)). unfold gate.
  by rewrite lor_pack, Z.lor_0_r by (done || lia).
Qed.

Lemma gate_land_flags f c b : count_ok c -> Z.land (gate f c) (b * 2 ^ 60) = gate (Z.land f b) 0.
Proof.
  intros Hc. rewrite <- (Z.add_0_r (b * 2 ^ 60)). unfold gate.
  by rewrite land_pack, Z.land_0_r by (done || lia).
Qed.

Lemma gate_clear f c : count_ok c -> Z.land (gate f c) (not_bits 64 CHECKING_BIT) = gate (Z.land f 13) c.
Proof.
  intros Hc. change (not_bits 64 CHECKING_BIT) with (13 * 2 ^ 60 + (2 ^ 60 - 1)). unfold gate.
  rewrite land_pack by (unfold count_ok in Hc; lia). rewrite land_mask by lia.
  by rewrite (Z.mod_small c) by done.
Qed.

Lemma gate_inj f c f' c' : count_ok c -> count_ok c' -> gate f c = gate f' c' -> f = f' /\ c = c'.
Proof. unfold count_ok, gate. intros. lia. Qed.

(** ** The invariant *)

Section Barrier.
Variable NODES : Z.

Definition scanned (k : Z) (m : mem) : Prop :=
  (forall n, 0 <= n < NODES -> n < k -> idle (m (Node n))) /\ (NODES < k -> m Root = 0).

Inductive gate_state (m : mem) (r : toks) : Z -> Z -> Prop :=
| gate_normal f c : f = 0 \/ f = 4 \/ f = 8 \/ f = 12 ->
    (forall k, mult (Other (Chk k)) r = 0) -> mult (Other Sealed) r = 0 -> m (Ext Payload) = 0 ->
    gate_state m r f c
| gate_checking f k : f = 10 \/ f = 14 ->
    (forall k', mult (Other (Chk k')) r = if decide (k' = k) then 1 else 0) ->
    mult (Other Sealed) r = 0 -> m (Ext Payload) = 0 -> scanned k m ->
    gate_state m r f 0
| gate_drained f : f = 9 \/ f = 13 ->
    (forall k, mult (Other (Chk k)) r = 0) -> scanned (NODES + 1) m ->
    gate_state m r f 0.

Definition gate_inv (m : mem) (r : toks) : Prop :=
  exists f c, m (Ext Gate) = gate f c /\ count_ok c /\ c = mult (Other Res) r /\ gate_state m r f c.

Definition reserved (r : toks) : Prop := 1 <= mult (Other Res) r.

(** While a thread holds a reservation the gate is neither checking nor
    drained, so the gate does not constrain the tree. *)
#[export] Instance barrier_client : SnziClient reserved gate_inv.
Proof.
  split.
  - intros r k Hk Hr. unfold reserved in *. rewrite mult_union, Hk. lia.
  - intros m m' r k k' fr Hr Hk Hk' Hext (f & c & Hg & Hc & Hres & Hst). unfold reserved in Hr.
    pose proof (mult_nonneg (Other Res) fr).
    assert (Hsame : forall x, mult (Other x) (r ⊎ k' ⊎ fr) = mult (Other x) (r ⊎ k ⊎ fr)).
    { intros x. by rewrite !mult_union, Hk, Hk'. }
    exists f, c. rewrite Hext, Hsame. split_and!; try done; [apply Hc..|].
    rewrite !mult_union, Hk in Hres. inversion Hst; subst; try lia.
    apply gate_normal; try done; [|by rewrite Hsame|by rewrite Hext].
    intros k0. by rewrite Hsame.
Qed.

Definition barrier : mem -> toks -> Prop := shared NODES gate_inv.

(** A change of the gate word and of the gate tokens. *)
Lemma barrier_gate m r r' f c : barrier m r ->
  (forall n g, mult (Own n g) r' = mult (Own n g) r /\ mult (Init n g) r' = mult (Init n g) r) ->
  count_ok c -> c = mult (Other Res) r' -> gate_state (upd m (Ext Gate) (gate f c)) r' f c ->
  barrier (upd m (Ext Gate) (gate f c)) r'.
Proof.
  intros [Hinv _] Hsame Hc Hres Hst. split.
  - apply (inv_cell NODES) with (l := Ext Gate) (v := gate f c) in Hinv; try done.
    destruct Hinv as [I1 I2 I3 I4 I5]. constructor; try done.
    + intros n Hn. eapply node_ok_ext, I1, Hn; intros g; apply Hsame.
    + destruct (Hsame (-1) 0) as [-> _]. done.
    + intros n g Hn. destruct (Hsame n g) as [-> ->]. by apply I4.
  - exists f, c. by rewrite upd_eq.
Qed.

Lemma gate_state_of m r f c : barrier m r -> m (Ext Gate) = gate f c -> count_ok c ->
  c = mult (Other Res) r /\ gate_state m r f c.
Proof.
  intros [_ (f' & c' & Hg & Hc' & Hres & Hst)] Hm Hc. rewrite Hm in Hg.
  apply gate_inj in Hg as [-> ->]; done.
Qed.

Lemma gate_state_mono m r m' r' f c :
  (forall k, mult (Other (Chk k)) r' = mult (Other (Chk k)) r) ->
  mult (Other Sealed) r' = mult (Other Sealed) r ->
  (forall l, l <> Ext Gate -> m' l = m l) -> gate_state m r f c -> gate_state m' r' f c.
Proof.
  intros Hchk Hsealed Hm Hst.
  assert (Hsc : forall k, scanned k m -> scanned k m').
  { intros k [Ha Hb]. split; [intros n ? ?; rewrite Hm by done; by apply Ha|].
    rewrite Hm by done. done. }
  inversion Hst; subst.
  - apply gate_normal; try done; [|by rewrite Hsealed|by rewrite Hm].
    intros k. by rewrite Hchk.
  - eapply gate_checking; try done; [|by rewrite Hsealed|by rewrite Hm|by apply Hsc].
    intros k'. by rewrite Hchk.
  - apply gate_drained; try done; [|by apply Hsc]. intros k. by rewrite Hchk.
Qed.

Lemma wp_gate_cas_weak f c f' c' r r' Φ : count_ok c ->
  (forall m fr, barrier m (r ⊎ fr) -> m (Ext Gate) = gate f c ->
     barrier (upd m (Ext Gate) (gate f' c')) (r' ⊎ fr)) ->
  Φ (Ok (gate f c)) r' ->
  (forall m fr, barrier m (r ⊎ fr) -> exists r0, barrier m (r0 ⊎ fr) /\ Φ (Err (m (Ext Gate))) r0) ->
  wp barrier (compare_exchange_weak (Ext Gate) (gate f c) (gate f' c')) r Φ.
Proof.
  intros Hc Hok HΦ Herr. apply wp_cas_weak; [|done]. intros m fr HI Hm. exists r'. split; auto.
Qed.

(** Setting flags never disturbs the barrier. *)
Lemma wp_set_flag b r : b = 4 \/ b = 8 ->
  wp barrier (fetch_or (Ext Gate) (b * 2 ^ 60)) r (fun _ r' => r' = r).
Proof.
  intros Hb. apply wp_fetch_or. intros m fr HI. exists r. split; [|done].
  pose proof HI as [_ (f & c & Hg & Hc & Hres & Hst)]. rewrite Hg, gate_lor by done.
  apply (barrier_gate m (r ⊎ fr)); try done.
  apply (gate_state_mono m (r ⊎ fr)); try done.
  { intros l Hl. by rewrite upd_ne. }
  inversion Hst as [? ? Hf|? k Hf|? Hf]; subst.
  - apply gate_normal; try done. destruct Hb as [->| ->], Hf as [->|[->|[->| ->]]]; cbn; tauto.
  - apply (gate_checking _ _ _ k); try done. destruct Hb as [->| ->], Hf as [->| ->]; cbn; tauto.
  - apply gate_drained; try done. destruct Hb as [->| ->], Hf as [->| ->]; cbn; tauto.
Qed.

Lemma wp_poison_gate {A} (k : prog (cell acell) A) r Φ :
  wp barrier k r Φ -> wp barrier (do! poison_gate ;; k) r Φ.
Proof.
  intros Hk. apply wp_bind, wp_bind. eapply wp_mono, (wp_set_flag 4 r); [|by left].
  by intros w r' ->.
Qed.

(** Every gate word the barrier takes. *)
Definition some_gate (w : Z) : Prop := exists f c, w = gate f c /\ count_ok c /\
  (f = 0 \/ f = 4 \/ f = 8 \/ f = 12 \/ f = 10 \/ f = 14 \/ f = 9 \/ f = 13).

Lemma barrier_some_gate m r : barrier m r -> some_gate (m (Ext Gate)).
Proof.
  intros [_ (f & c & -> & Hc & _ & Hst)]. exists f, c. split; [done|]. split; [done|].
  inversion Hst; tauto.
Qed.

Lemma wp_gate_read r Φ : (forall w, some_gate w -> Φ w r) -> wp barrier (load (Ext Gate)) r Φ.
Proof.
  intros HΦ. apply wp_load. intros m fr HI. exists r. split; [done|].
  by eapply HΦ, barrier_some_gate.
Qed.

(** Taking and releasing a reservation. *)
Lemma barrier_take m f c r fr : barrier m (r ⊎ fr) -> m (Ext Gate) = gate f c ->
  count_ok (c + 1) -> 0 <= c -> f = 0 \/ f = 8 ->
  barrier (upd m (Ext Gate) (gate f (c + 1))) (r ⊎ {[+ Other Res +]} ⊎ fr).
Proof.
  intros HI Hm Hc H0 Hf. assert (Hc0 : count_ok c) by (unfold count_ok in *; lia).
  destruct (gate_state_of m _ f c HI Hm Hc0) as [Hres Hst].
  apply (barrier_gate m (r ⊎ fr)); try done.
  - intros n g. autorewrite with mult. rewrite !decide_False by done. lia.
  - autorewrite with mult in *. rewrite decide_True by done. lia.
  - inversion Hst as [? ? Hn Hk Hs Hp| |]; subst; try lia. apply gate_normal; try done.
    + intros k. specialize (Hk k). autorewrite with mult in *. rewrite decide_False by done. lia.
    + autorewrite with mult in *. rewrite decide_False by done. lia.
Qed.

Lemma barrier_release m f c r fr : barrier m (r ⊎ {[+ Other Res +]} ⊎ fr) ->
  m (Ext Gate) = gate f c -> count_ok c ->
  barrier (upd m (Ext Gate) (gate f (c - 1))) (r ⊎ fr).
Proof.
  intros HI Hm Hc. destruct (gate_state_of m _ f c HI Hm Hc) as [Hres Hst].
  autorewrite with mult in Hres. rewrite decide_True in Hres by done.
  pose proof (mult_nonneg (Other Res) r). pose proof (mult_nonneg (Other Res) fr).
  apply (barrier_gate m (r ⊎ {[+ Other Res +]} ⊎ fr)); try done.
  - intros n g. autorewrite with mult. rewrite !decide_False by done. lia.
  - unfold count_ok in *. lia.
  - autorewrite with mult. lia.
  - inversion Hst as [? ? Hn Hk Hs Hp| |]; subst; try lia. apply gate_normal; try done.
    + intros k. specialize (Hk k). autorewrite with mult in *. rewrite decide_False in Hk by done. lia.
    + autorewrite with mult in *. rewrite decide_False in Hs by done. lia.
Qed.

(** One retry of the compare-exchange that takes a reservation. *)
Lemma wp_take_reservation {A} f c r (a : A) : count_ok (c + 1) -> f = 0 \/ f = 8 -> 0 <= c ->
  wp barrier
    (let! x := compare_exchange_weak (Ext Gate) (gate f c) (gate f c + 1) in
     match x with Ok _ => Ret (inr a) | Err observed => Ret (inl observed) end) r
    (fun x r' => match x with
                 | inl w => some_gate w /\ r' = r
                 | inr b => b = a /\ r' = r ⊎ {[+ Other Res +]} end).
Proof.
  intros Hc Hf H0. assert (Hc0 : count_ok c) by (unfold count_ok in *; lia).
  replace (gate f c + 1) with (gate f (c + 1)) by (unfold gate; lia).
  apply wp_bind. apply (wp_gate_cas_weak f c f (c + 1) r (r ⊎ {[+ Other Res +]})); try done.
  - intros m fr HI Hm. by apply (barrier_take m f c).
  - intros m fr HI. exists r. split; [done|]. split; [by eapply barrier_some_gate | done].
Qed.

(** The guards of a packed gate word, as tests of its flags. *)
Lemma gate_tests f c : count_ok c ->
  has (gate f c) CLOSED_BIT = Z.testbit f 3 /\ has (gate f c) POISONED_BIT = Z.testbit f 2 /\
  has (gate f c) CHECKING_BIT = Z.testbit f 1 /\ has (gate f c) DRAINED_BIT = Z.testbit f 0.
Proof.
  intros Hc. split_and!.
  - by apply (gate_has f c 3). - by apply (gate_has f c 2).
  - by apply (gate_has f c 1). - by apply (gate_has f c 0).
Qed.

Lemma reserve_spec fuel r :
  wp barrier (reserve fuel) r (fun x r' =>
    match x with
    | Ok _ => r' = r ⊎ {[+ Other Res +]}
    | Err e => r' = r /\ (e = EnterClosed \/ e = EnterPoisoned \/ e = EnterReservationExhausted) end).
Proof.
  apply wp_bind, wp_gate_read. intros w0 Hw0.
  apply (wp_loop _ (fun w r' => some_gate w /\ r' = r)); [|done].
  clear w0 Hw0. intros w ? [(f & c & -> & Hc & Hf) ->]. unfold reserve_body.
  destruct (gate_tests f c Hc) as (-> & -> & _ & _). rewrite gate_count by done.
  destruct (Z.testbit f 3) eqn:E3; [cbn; by auto|].
  destruct (Z.testbit f 2) eqn:E2; [cbn; by auto|].
  destruct (Z.eqb_spec c RESERVATION_MASK) as [|Hmax]; [apply wp_poison_gate; cbn; by auto|].
  eapply wp_mono, (wp_take_reservation f c r (Ok tt)).
  - intros [w|[[]|e]] r' Hx; [done | by destruct Hx | by destruct Hx].
  - unfold count_ok, RESERVATION_MASK, DRAINED_BIT in *. lia.
  - destruct Hf as [->|[->|[->|[->|[->|[->|[->| ->]]]]]]]; try done; by left.
  - apply Hc.
Qed.

Lemma reserve_departure_spec fuel r n g :
  wp barrier (reserve_departure fuel) (r ⊎ {[+ Own n g +]}) (fun x r' =>
    match x with
    | Ok _ => r' = r ⊎ {[+ Own n g +]} ⊎ {[+ Other Res +]}
    | Err e => r' = r ⊎ {[+ Own n g +]} /\ (e = DepartPoisoned \/ e = DepartReservationExhausted) end).
Proof.
  (* the gate cannot drain while the token is held *)
  set (Jw := fun w => some_gate w /\ has w DRAINED_BIT = false).
  assert (Hread : forall m fr, barrier m (r ⊎ {[+ Own n g +]} ⊎ fr) -> Jw (m (Ext Gate))).
  { intros m fr HI. split; [by eapply barrier_some_gate|].
    pose proof HI as [Hinv (f & c & -> & Hc & _ & Hst)].
    pose proof (own_root NODES m _ n g Hinv (own_count r g n fr)).
    destruct (gate_tests f c Hc) as (_ & _ & _ & ->).
    inversion Hst as [? ? Hf|? k Hf|? Hf ? [_ Hs]]; subst;
      [by destruct Hf as [->|[->|[->| ->]]]|by destruct Hf as [->| ->]|lia]. }
  apply wp_bind, wp_load. intros m fr HI. exists (r ⊎ {[+ Own n g +]}). split; [done|].
  apply (wp_loop _ (fun w r' => Jw w /\ r' = r ⊎ {[+ Own n g +]})); [|split; [by eapply Hread | done]].
  clear m fr HI. intros w ? [[(f & c & -> & Hc & Hf) Hd] ->]. unfold reserve_departure_body.
  rewrite Hd. destruct (gate_tests f c Hc) as (_ & -> & -> & Hd'). rewrite Hd in Hd'.
  rewrite gate_count by done.
  destruct (Z.testbit f 2) eqn:E2; [split; [done | by left]|].
  destruct (Z.testbit f 1) eqn:E1.
  { apply wp_bind, wp_load. intros m fr HI. exists (r ⊎ {[+ Own n g +]}).
    split; [done|]. split; [by eapply Hread | done]. }
  destruct (Z.eqb_spec c RESERVATION_MASK) as [|Hmax].
  { apply wp_poison_gate. split; [done | by right]. }
  replace (gate f c + 1) with (gate f (c + 1)) by (unfold gate; lia).
  assert (Hf' : f = 0 \/ f = 8).
  { destruct Hf as [->|[->|[->|[->|[->|[->|[->| ->]]]]]]]; try done; auto. }
  assert (Hc1 : count_ok (c + 1)) by (unfold count_ok, RESERVATION_MASK, DRAINED_BIT in *; lia).
  apply wp_bind. apply wp_cas_weak.
  - intros m fr HI Hm. exists (r ⊎ {[+ Own n g +]} ⊎ {[+ Other Res +]}). split; [|done].
    apply (barrier_take m f c); try done. apply Hc.
  - intros m fr HI. exists (r ⊎ {[+ Own n g +]}). split; [done|]. split; [by eapply Hread | done].
Qed.

Lemma release_spec fuel r :
  wp barrier (release_reservation fuel) (r ⊎ {[+ Other Res +]}) (fun _ r' => r' = r).
Proof.
  set (Jw := fun w => some_gate w /\ Z.land w RESERVATION_MASK <> 0).
  assert (Hread : forall m fr, barrier m (r ⊎ {[+ Other Res +]} ⊎ fr) -> Jw (m (Ext Gate))).
  { intros m fr HI. split; [by eapply barrier_some_gate|].
    pose proof HI as [_ (f & c & -> & Hc & Hres & _)]. rewrite gate_count by done.
    autorewrite with mult in Hres. rewrite decide_True in Hres by done.
    pose proof (mult_nonneg (Other Res) r). pose proof (mult_nonneg (Other Res) fr). lia. }
  apply wp_bind, wp_load. intros m fr HI. exists (r ⊎ {[+ Other Res +]}). split; [done|].
  apply (wp_loop _ (fun w r' => Jw w /\ r' = r ⊎ {[+ Other Res +]})); [|split; [by eapply Hread | done]].
  clear m fr HI. intros w ? [[(f & c & -> & Hc & Hf) Hnz] ->]. unfold release_reservation_body.
  rewrite gate_count in * by done. destruct (Z.eqb_spec c 0) as [|Hne]; [done|].
  replace (gate f c - 1) with (gate f (c - 1)) by (unfold gate; lia).
  apply wp_bind. apply wp_cas_weak.
  - intros m fr HI Hm. exists r. split; [|done]. by apply (barrier_release m f c).
  - intros m fr HI. exists (r ⊎ {[+ Other Res +]}). split; [done|]. split; [by eapply Hread | done].
Qed.

Lemma reserved_res r : reserved (r ⊎ {[+ Other Res +]}).
Proof.
  unfold reserved. rewrite mult_union, mult_single, decide_True by done.
  pose proof (mult_nonneg (Other Res) r). lia.
Qed.

Lemma union_swap (r a b : toks) : r ⊎ a ⊎ b = r ⊎ b ⊎ a.
Proof. multiset_solver. Qed.

(** Admission: a token of the tree, and no reservation left behind. *)
Lemma try_enter_spec fuel lf r : 0 <= lf ->
  wp barrier (try_enter NODES fuel lf) r (fun x r' =>
    match x with
    | Ok t => leaf t = lf /\ 0 <= lf < leaf_count NODES /\ r' = r ⊎ arrival_owned NODES t
    | Err e => leaked r r' /\
        match e with EnterSnzi e => e = InvalidLeaf lf (leaf_count NODES) \/ benign e | _ => True end
    end).
Proof.
  intros Hl. apply wp_try_bind. eapply wp_mono, reserve_spec. intros [[]|e] r'.
  2: { intros [-> He]. split; [apply leaked_refl|]. by destruct He as [->|[->| ->]]. }
  intros ->. apply wp_bind.
  eapply wp_mono, (arrive_spec NODES reserved gate_inv); [|done|apply reserved_res].
  intros [t|e] r'; cbn [arrive_post].
  - intros (Ht & Hb & ->). rewrite union_swap. apply wp_bind.
    eapply wp_mono, release_spec. by intros _ ? ->.
  - intros [He (k & Hk & ->)]. rewrite union_swap.
    apply wp_bind, wp_mono with (fun _ r' => r' = r ⊎ k ⊎ {[+ Other Res +]}).
    + intros _ ? ->. apply wp_bind. eapply wp_mono, release_spec. intros _ ? ->.
      split; [by apply leaked_union | exact He].
    + destruct e; try done. apply wp_bind. eapply wp_mono, (wp_set_flag 4); [|by left].
      by intros w ? ->.
Qed.

(** Departure of a live token: never refused as already drained. *)
Lemma token_depart_spec fuel t r : 0 <= leaf t < leaf_count NODES ->
  wp barrier (token_depart NODES fuel t) (r ⊎ arrival_owned NODES t) (fun x r' =>
    match x with
    | Ok _ => r' = r
    | Err e => leaked r r' /\
        match e with
        | DepartSnzi e => benign e
        | DepartAlreadyDrained => False
        | _ => True
        end
    end).
Proof.
  intros Hl. apply wp_try_bind. eapply wp_mono, reserve_departure_spec. intros [[]|e] r'.
  2: { intros [-> He]. split; [apply leaked_union, snzi_only_own|]. by destruct He as [->| ->]. }
  intros ->. rewrite union_swap. apply wp_bind.
  eapply wp_mono, (depart_token_spec NODES reserved gate_inv); [|done|apply reserved_res].
  intros [[]|e] r'.
  - intros ->. apply wp_bind. eapply wp_mono, release_spec. by intros _ ? ->.
  - intros [He (k & Hk & ->)]. rewrite union_swap. apply wp_bind. eapply wp_mono, release_spec.
    intros _ ? ->. split; [by apply leaked_union | done].
Qed.

(** ** The terminal scan *)

Hypothesis NODES_nonneg : 0 <= NODES.

(** Changing only gate tokens, memory untouched. *)
Lemma barrier_tokens m r r' f c : barrier m r -> m (Ext Gate) = gate f c -> count_ok c ->
  (forall n g, mult (Own n g) r' = mult (Own n g) r /\ mult (Init n g) r' = mult (Init n g) r) ->
  c = mult (Other Res) r' -> gate_state m r' f c -> barrier m r'.
Proof.
  intros [[I1 I2 I3 I4 I5] _] Hm Hc Hsame Hres Hst. split; [constructor; try done|].
  - intros n Hn. eapply node_ok_ext, I1, Hn; intros g; apply Hsame.
  - destruct (Hsame (-1) 0) as [-> _]. done.
  - intros n g Hn. destruct (Hsame n g) as [-> ->]. by apply I4.
  - by exists f, c.
Qed.

Lemma gate_state_chk m r f c k : gate_state m r f c -> 1 <= mult (Other (Chk k)) r ->
  (f = 10 \/ f = 14) /\ c = 0 /\ (forall k', mult (Other (Chk k')) r = if decide (k' = k) then 1 else 0) /\
  mult (Other Sealed) r = 0 /\ m (Ext Payload) = 0 /\ scanned k m.
Proof.
  intros Hst Hpos. inversion Hst as [? ? Hf Hk|? k0 Hf Hk Hs Hp Hsc|? Hf Hk]; subst;
    [specialize (Hk k); lia | | specialize (Hk k); lia].
  assert (k0 = k) as -> by (specialize (Hk k); case_decide; [done | lia]). done.
Qed.

(** The scanning thread owns the checking state of the gate. *)
Lemma chk_gate m r k fr : barrier m (r ⊎ {[+ Other (Chk k) +]} ⊎ fr) ->
  exists f, (f = 10 \/ f = 14) /\ m (Ext Gate) = gate f 0 /\ scanned k m /\
    mult (Other Res) r = 0 /\ mult (Other Res) fr = 0 /\ m (Ext Payload) = 0 /\
    mult (Other Sealed) r = 0 /\ mult (Other Sealed) fr = 0 /\
    (forall k', mult (Other (Chk k')) r = 0 /\ mult (Other (Chk k')) fr = 0).
Proof.
  intros [_ (f & c & Hg & Hc & Hres & Hst)].
  assert (Hpos : 1 <= mult (Other (Chk k)) (r ⊎ {[+ Other (Chk k) +]} ⊎ fr)).
  { rewrite !mult_union, mult_single, decide_True by done.
    pose proof (mult_nonneg (Other (Chk k)) r). pose proof (mult_nonneg (Other (Chk k)) fr). lia. }
  destruct (gate_state_chk _ _ _ _ _ Hst Hpos) as (Hf & -> & Hk & Hs & Hp & Hsc).
  exists f. split; [done|]. split; [done|]. split; [done|].
  rewrite !mult_union, mult_single, decide_False in Hres by done.
  rewrite !mult_union, mult_single, decide_False in Hs by done.
  pose proof (mult_nonneg (Other Res) r). pose proof (mult_nonneg (Other Res) fr).
  pose proof (mult_nonneg (Other Sealed) r). pose proof (mult_nonneg (Other Sealed) fr).
  split_and!; try lia; try done; intros;
    specialize (Hk k'); rewrite !mult_union, mult_single in Hk;
    pose proof (mult_nonneg (Other (Chk k')) r); pose proof (mult_nonneg (Other (Chk k')) fr);
    repeat case_decide; simplify_eq; lia.
Qed.

(** Recording the progress of the scan. *)
Lemma chk_advance m r k k' fr : barrier m (r ⊎ {[+ Other (Chk k) +]} ⊎ fr) -> scanned k' m ->
  barrier m (r ⊎ {[+ Other (Chk k') +]} ⊎ fr).
Proof.
  intros HI Hsc. destruct (chk_gate m r k fr HI) as (f & Hf & Hg & _ & R1 & R2 & Hp & S1 & S2 & Hk).
  apply (barrier_tokens m (r ⊎ {[+ Other (Chk k) +]} ⊎ fr) _ f 0); try done.
  - intros n g. autorewrite with mult. rewrite !decide_False by done. lia.
  - autorewrite with mult. rewrite decide_False by done. lia.
  - apply (gate_checking _ _ _ k'); try done.
    + intros k0. destruct (Hk k0). autorewrite with mult. repeat case_decide; simplify_eq; lia.
    + autorewrite with mult. rewrite decide_False by done. lia.
Qed.

(** What the counters of the scan say: clean so far, or an active node seen. *)
Definition scan_state (k index active half invalid : Z) : Prop :=
  0 <= active /\ 0 <= half /\
  (active = 0 /\ half = 0 /\ invalid = 0 /\ k = index \/ 1 <= active + half /\ k = -1).

Lemma scanned_dirty m : scanned (-1) m.
Proof. split; intros; lia. Qed.

Lemma snapshot_nodes_spec n index active half sum invalid k r :
  index + Z.of_nat n = NODES -> 0 <= index -> scan_state k index active half invalid ->
  wp barrier (snapshot_nodes NODES n index active half sum invalid) (r ⊎ {[+ Other (Chk k) +]})
    (fun x r' => match x with (a, h, _, i) =>
       exists k', r' = r ⊎ {[+ Other (Chk k') +]} /\ scan_state k' NODES a h i end).
Proof.
  revert index active half sum invalid k.
  induction n as [|n IH]; intros index active half sum invalid k Hi H0 Hs.
  { exists k. split; [done|]. by replace NODES with index by lia. }
  cbn [snapshot_nodes]. rewrite node_at_in by (unfold in_tree; lia). cbn [bind].
  apply wp_bind, wp_load. intros m fr HI.
  destruct (chk_gate m r k fr HI) as (_ & _ & _ & Hsc & _).
  destruct (state_is_half (m (Node index))) eqn:Hh.
  - exists (r ⊎ {[+ Other (Chk (-1)) +]}). split; [by eapply chk_advance, scanned_dirty|].
    apply IH; [lia..|]. destruct Hs as (? & ? & _). split_and!; [lia..|]. right. lia.
  - destruct (Z.eqb_spec (state_count (m (Node index))) 0) as [Hc|Hc]; cbn [negb].
    + destruct Hs as (Ha & Hhf & [(-> & -> & -> & ->)|[Hd ->]]).
      * exists (r ⊎ {[+ Other (Chk (index + 1)) +]}). split.
        -- apply (chk_advance m r index); [done|]. destruct Hsc as [Hsc _]. split; [|lia].
           intros j Hj Hlt. destruct (decide (j = index)) as [->|]; [by split | apply Hsc; lia].
        -- apply IH; [lia..|]. split_and!; [lia..|]. left. lia.
      * exists (r ⊎ {[+ Other (Chk (-1)) +]}). split; [done|]. apply IH; [lia..|].
        split_and!; [lia..|]. right. lia.
    + exists (r ⊎ {[+ Other (Chk (-1)) +]}). split; [by eapply chk_advance, scanned_dirty|].
      apply IH; [lia..|]. destruct Hs as (? & ? & _). split_and!; [lia..|]. right. lia.
Qed.

Lemma is_quiescent_spec r :
  wp barrier (is_quiescent NODES) (r ⊎ {[+ Other (Chk 0) +]}) (fun b r' =>
    exists k, r' = r ⊎ {[+ Other (Chk k) +]} /\ (b = true -> k = NODES + 1)).
Proof.
  apply wp_bind, wp_bind. eapply wp_mono, (snapshot_nodes_spec _ 0 0 0 0 0 0); [|lia..|].
  2: { split_and!; [lia..|]. left. lia. }
  intros [[[a h] s] i] r' (k & -> & Ha & Hh & Hs). apply wp_bind, wp_load. intros m fr HI.
  destruct (chk_gate m r k fr HI) as (_ & _ & _ & Hsc & _).
  assert (Hend : forall rc k', (rc = 0 /\ a = 0 /\ h = 0 -> k' = NODES + 1) ->
    wp barrier
      (let! pr := poison_reason in
       Ret {| root_count := rc; active_nodes := a; half_nodes := h;
              local_count_sum := s; invalid_nodes := i; poison := pr |})
      (r ⊎ {[+ Other (Chk k') +]}) (fun s r' => wp barrier (Ret (snapshot_is_quiescent s)) r'
        (fun b r' => exists k, r' = r ⊎ {[+ Other (Chk k) +]} /\ (b = true -> k = NODES + 1)))).
  { intros rc k' Hk'. apply wp_bind, wp_bind, wp_load. intros m' fr' HI'.
    exists (r ⊎ {[+ Other (Chk k') +]}). split; [done|]. cbn. exists k'. split; [done|].
    intros Hq. unfold snapshot_is_quiescent in Hq. cbn in Hq.
    rewrite !andb_true_iff, !Z.eqb_eq in Hq. apply Hk'. tauto. }
  destruct (decide (m Root = 0 /\ a = 0 /\ h = 0)) as [(Hr & -> & ->)|Hnot].
  - destruct Hs as [(_ & _ & _ & ->)|[? _]]; [|lia].
    exists (r ⊎ {[+ Other (Chk (NODES + 1)) +]}). split; [|by apply Hend].
    apply (chk_advance m r NODES); [done|]. destruct Hsc as [Hsc _]. split; [|done].
    intros n Hn _. apply Hsc; lia.
  - exists (r ⊎ {[+ Other (Chk k) +]}). split; [done|]. by apply Hend.
Qed.

(** Entering the checking state: the gate was closed and without reservation. *)
Lemma barrier_check m r fr : barrier m (r ⊎ fr) -> m (Ext Gate) = gate 8 0 ->
  barrier (upd m (Ext Gate) (gate 10 0)) (r ⊎ {[+ Other (Chk 0) +]} ⊎ fr).
Proof.
  intros HI Hm. destruct (gate_state_of m _ 8 0 HI Hm) as [Hres Hst]; [done|].
  inversion Hst as [? ? Hf Hk Hs Hp|? ? Hf|? Hf]; subst; try lia.
  apply (barrier_gate m (r ⊎ fr)); try done.
  - intros n g. autorewrite with mult. rewrite !decide_False by done. lia.
  - autorewrite with mult in *. rewrite decide_False by done. lia.
  - apply (gate_checking _ _ _ 0); [by left | | |by rewrite upd_ne|split; lia].
    + intros k. specialize (Hk k). autorewrite with mult in *. repeat case_decide; simplify_eq; lia.
    + autorewrite with mult in *. rewrite decide_False by done. lia.
Qed.

(** Leaving it, sealed or not. *)
Lemma barrier_seal m r fr : barrier m (r ⊎ {[+ Other (Chk (NODES + 1)) +]} ⊎ fr) ->
  barrier (upd m (Ext Gate) (gate 9 0)) (r ⊎ {[+ Other Sealed +]} ⊎ fr).
Proof.
  intros HI. destruct (chk_gate m r _ fr HI) as (f & Hf & Hg & Hsc & R1 & R2 & Hp & S1 & S2 & Hk).
  apply (barrier_gate m (r ⊎ {[+ Other (Chk (NODES + 1)) +]} ⊎ fr)); try done.
  - intros n g. autorewrite with mult. rewrite !decide_False by done. lia.
  - autorewrite with mult. rewrite decide_False by done. lia.
  - apply gate_drained; [by left | |].
    + intros k. destruct (Hk k). autorewrite with mult. rewrite decide_False by done. lia.
    + destruct Hsc as [Ha Hb]. split; [intros n ? ?; rewrite upd_ne by done; by apply Ha|].
      by rewrite upd_ne.
Qed.

Lemma barrier_unseal m r k fr f : barrier m (r ⊎ {[+ Other (Chk k) +]} ⊎ fr) ->
  f = 8 \/ f = 12 -> barrier (upd m (Ext Gate) (gate f 0)) (r ⊎ fr).
Proof.
  intros HI Hf'. destruct (chk_gate m r _ fr HI) as (f0 & Hf & Hg & Hsc & R1 & R2 & Hp & S1 & S2 & Hk).
  apply (barrier_gate m (r ⊎ {[+ Other (Chk k) +]} ⊎ fr)); try done.
  - intros n g. autorewrite with mult. rewrite !decide_False by done. lia.
  - autorewrite with mult. lia.
  - apply gate_normal; [tauto | | |by rewrite upd_ne].
    + intros k'. destruct (Hk k'). autorewrite with mult. lia.
    + autorewrite with mult. lia.
Qed.

(** Evidence that the barrier has drained: any number of [Sealed] tokens. *)
Definition sealed_only (s : toks) : Prop := forall t, t <> Other Sealed -> mult t s = 0.

Lemma sealed_only_union s s' : sealed_only s -> sealed_only s' -> sealed_only (s ⊎ s').
Proof. intros Hs Hs' t Ht. by rewrite mult_union, Hs, Hs'. Qed.

Lemma sealed_only_single : sealed_only {[+ Other Sealed +]}.
Proof. intros t Ht. by rewrite mult_single, decide_False. Qed.

(** Observing the terminal state is evidence of it. *)
Definition seen (w : Z) (s : toks) : Prop :=
  some_gate w /\ sealed_only s /\ (w = gate 9 0 -> 1 <= mult (Other Sealed) s).

Lemma barrier_observe m r fr : barrier m (r ⊎ fr) ->
  exists s, seen (m (Ext Gate)) s /\ barrier m (r ⊎ s ⊎ fr).
Proof.
  intros HI. pose proof (barrier_some_gate _ _ HI) as Hg.
  destruct (decide (m (Ext Gate) = gate 9 0)) as [E|E].
  - exists {[+ Other Sealed +]}. split.
    { split_and!; [done | apply sealed_only_single | intros _; by rewrite mult_single, decide_True]. }
    destruct (gate_state_of m _ 9 0 HI E) as [Hres Hst]; [done|].
    inversion Hst as [? ? Hf|? ? Hf|? Hf Hk Hsc]; subst; try lia.
    apply (barrier_tokens m (r ⊎ fr) _ 9 0); try done.
    + intros n g. autorewrite with mult. rewrite !decide_False by done. lia.
    + autorewrite with mult in *. rewrite decide_False by done. lia.
    + apply gate_drained; [by left | | done]. intros k. specialize (Hk k).
      autorewrite with mult in *. rewrite decide_False by done. lia.
  - exists ∅. split; [by split_and!; [| intros ? ?; apply mult_empty |]|].
    by replace (r ⊎ ∅ ⊎ fr) with (r ⊎ fr) by multiset_solver.
Qed.

(** A drain is reported only with the evidence that the barrier is sealed. *)
Definition drain_post (r : toks) (b : bool) (r' : toks) : Prop :=
  exists s, sealed_only s /\ (b = true -> 1 <= mult (Other Sealed) s) /\ r' = r ⊎ s.

Lemma drain_false r : drain_post r false r.
Proof. exists ∅. split_and!; [intros ? ?; apply mult_empty | done | multiset_solver]. Qed.

Lemma drain_scan_spec r :
  wp barrier
    (let! quiescent := is_quiescent NODES in
     let unchecked := Z.land (gate 10 0) (not_bits 64 CHECKING_BIT) in
     let next := if quiescent then Z.lor unchecked DRAINED_BIT else unchecked in
     let! y := compare_exchange (Ext Gate) (gate 10 0) next in
     match y with
     | Err _ => do! fetch_and (Ext Gate) (not_bits 64 CHECKING_BIT) ;; Ret (inr false)
     | Ok _ => Ret (inr quiescent)
     end) (r ⊎ {[+ Other (Chk 0) +]})
    (fun (x : Z + bool) r' => match x with inl w => False | inr b => drain_post r b r' end).
Proof.
  apply wp_bind. eapply wp_mono, is_quiescent_spec. intros b r' (k & -> & Hb).
  rewrite gate_clear by done. change (Z.land 10 13) with 8.
  apply wp_bind, wp_cas; intros m fr HI Hm.
  - destruct b.
    + rewrite (Hb eq_refl) in HI. exists (r ⊎ {[+ Other Sealed +]}). split.
      * change (Z.lor (gate 8 0) DRAINED_BIT) with (gate 9 0). by apply barrier_seal.
      * exists {[+ Other Sealed +]}. split_and!; [apply sealed_only_single | | done].
        intros _. by rewrite mult_single, decide_True.
    + exists r. split; [|apply drain_false]. by eapply barrier_unseal; [|left].
  - exists (r ⊎ {[+ Other (Chk k) +]}). split; [done|].
    apply wp_bind, wp_fetch_and. intros m' fr' HI'.
    destruct (chk_gate m' r k fr' HI') as (f & Hf & Hg & _).
    exists r. split; [|apply drain_false]. rewrite Hg, gate_clear by done.
    eapply barrier_unseal; [done|]. destruct Hf as [->| ->]; [by left | by right].
Qed.

Lemma is_drained_spec fuel r : wp barrier (is_drained NODES fuel) r (drain_post r).
Proof.
  apply wp_bind, wp_load. intros m fr HI. destruct (barrier_observe m r fr HI) as (s & Hs & HI').
  exists (r ⊎ s). split; [done|].
  apply (wp_loop _ (fun w r' => exists s, seen w s /\ r' = r ⊎ s)); [|by exists s].
  clear m fr HI HI' s Hs. intros w ? (s & ((f & c & -> & Hc & Hf) & Hs & Hsealed) & ->).
  unfold is_drained_body. destruct (gate_tests f c Hc) as (_ & _ & _ & ->).
  destruct (Z.testbit f 0) eqn:E0.
  { exists s. split_and!; try done. rewrite Z.eqb_eq. change TERMINAL_DRAINED with (gate 9 0). done. }
  change (Z.lor (Z.lor CLOSED_BIT POISONED_BIT) CHECKING_BIT) with (14 * 2 ^ 60).
  unfold has. rewrite gate_land_flags, gate_count by done.
  assert (Hpost : drain_post r false (r ⊎ s)) by (exists s; by split_and!).
  destruct (Z.eqb_spec (gate (Z.land f 14) 0) CLOSED_BIT) as [Hcl|]; cbn [negb orb]; [|done].
  destruct (Z.eqb_spec c 0) as [->|]; cbn [negb]; [|done].
  assert (f = 8) as ->.
  { change CLOSED_BIT with (gate 8 0) in Hcl. apply gate_inj in Hcl as [Hcl _]; [|done..].
    destruct Hf as [->|[->|[->|[->|[->|[->|[->| ->]]]]]]]; done. }
  apply wp_bind. apply wp_mono with (fun _ r' => r' = r ⊎ s).
  2: { apply wp_bind, wp_load. intros m fr HI. exists (r ⊎ s). split; [done|].
       destruct (negb _); [done|]. apply wp_bind, wp_load. intros m' fr' HI'. by exists (r ⊎ s). }
  intros b ? ->. destruct b; [done|].
  change (Z.lor (gate 8 0) CHECKING_BIT) with (gate 10 0).
  apply wp_bind, wp_cas_weak; intros m fr HI.
  - intros Hm. exists (r ⊎ s ⊎ {[+ Other (Chk 0) +]}). split; [by apply barrier_check|].
    eapply wp_mono, drain_scan_spec. intros [w|b] r'; [done|].
    intros (s' & Hs' & Hb' & ->). exists (s ⊎ s').
    split_and!; [by apply sealed_only_union | | multiset_solver].
    intros Hb. rewrite mult_union. specialize (Hb' Hb). pose proof (mult_nonneg (Other Sealed) s). lia.
  - destruct (barrier_observe m _ fr HI) as (s' & (Hg & Hs' & Hw') & HI').
    exists (r ⊎ s ⊎ s'). split; [done|]. exists (s ⊎ s'). split; [|multiset_solver].
    split_and!; [done | by apply sealed_only_union |]. intros Hw. rewrite mult_union.
    specialize (Hw' Hw). pose proof (mult_nonneg (Other Sealed) s). lia.
Qed.

Lemma close_spec r : wp barrier close r (fun _ r' => r' = r).
Proof. apply wp_bind. eapply wp_mono, (wp_set_flag 8 r); [|by right]. by intros w ? ->. Qed.

(** A participant that holds a token finds the protected storage alive. *)
Lemma payload_alive r n g Φ : Φ 0 (r ⊎ {[+ Own n g +]}) ->
  wp barrier (load (Ext Payload)) (r ⊎ {[+ Own n g +]}) Φ.
Proof.
  intros HΦ. apply wp_load. intros m fr HI. exists (r ⊎ {[+ Own n g +]}). split; [done|].
  pose proof HI as [Hinv (f & c & _ & _ & _ & Hst)].
  pose proof (own_root NODES m _ n g Hinv (own_count r g n fr)).
  assert (m (Ext Payload) = 0) as ->; [|done].
  inversion Hst as [| |? _ _ [_ Hr]]; subst; try done. lia.
Qed.

(** With the evidence of a drain the storage may be reclaimed. *)
Lemma payload_reclaim r s v : sealed_only s -> 1 <= mult (Other Sealed) s ->
  wp barrier (store (Ext Payload) v) (r ⊎ s) (fun _ r' => r' = r ⊎ s).
Proof.
  intros Hs Hm. apply wp_store. intros m fr [Hinv (f & c & Hg & Hc & Hres & Hst)].
  exists (r ⊎ s). split; [|done]. split; [by apply inv_cell|].
  exists f, c. rewrite upd_ne by done. split_and!; try done; [apply Hc..|].
  assert (1 <= mult (Other Sealed) (r ⊎ s ⊎ fr)).
  { rewrite !mult_union. pose proof (mult_nonneg (Other Sealed) r).
    pose proof (mult_nonneg (Other Sealed) fr). lia. }
  inversion Hst as [| |? Hf Hk [Ha Hb]]; subst; try lia. apply gate_drained; try done.
Qed.
End Barrier.

(** ** Clients of the barrier *)

(** A participant: for each leaf of its script it enters, touches the protected
    storage, and departs.  It panics when the storage it is admitted to has been
    reclaimed, or when the departure of its live token is refused. *)
Fixpoint participant (NODES : Z) (fuel : nat) (script : list nat) : prog (cell acell) unit :=
  match script with
  | [] => Ret tt
  | lf :: script =>
      let! x := try_enter NODES fuel (Z.of_nat lf) in
      match x with
      | Err (EnterSnzi (Poisoned InvariantViolation)) => Panic
      | Err _ => Ret tt
      | Ok t =>
          let! reclaimed := load (Ext Payload) in
          if negb (reclaimed =? 0) then Panic
          else
            let! d := token_depart NODES fuel t in
            match d with
            | Ok _ => participant NODES fuel script
            | Err DepartAlreadyDrained => Panic
            | Err (DepartSnzi (Poisoned InvariantViolation)) => Panic
            | Err (DepartSnzi (Poisoned _)) => Ret tt
            | Err (DepartSnzi _) => Panic
            | Err _ => Ret tt
            end
      end
  end.

(** A supervisor: it closes the barrier, polls [is_drained] and reclaims the
    storage as soon as a drain is reported. *)
Fixpoint poll (NODES : Z) (fuel polls : nat) : prog (cell acell) unit :=
  match polls with
  | O => Ret tt
  | S polls =>
      let! d := is_drained NODES fuel in
      if (d : bool) then store (Ext Payload) 1 else poll NODES fuel polls
  end.
Definition supervisor (NODES : Z) (fuel polls : nat) : prog (cell acell) unit :=
  do! close ;; poll NODES fuel polls.

Lemma participant_spec NODES fuel script : 0 <= NODES ->
  wp (barrier NODES) (participant NODES fuel script) ∅ (fun _ _ => True).
Proof.
  intros HN. induction script as [|lf script IH]; [done|]. cbn [participant].
  apply wp_bind. eapply wp_mono, try_enter_spec; [|lia]. intros [t|e] r.
  - intros (Hl & Hb & ->). apply wp_bind, payload_alive. cbn [negb Z.eqb].
    apply wp_bind. eapply wp_mono, token_depart_spec; [|by rewrite Hl]. intros [[]|e] r.
    + by intros ->.
    + intros [_ He]. destruct e as [| | |e]; try done. destruct He as (reason & -> & Hne).
      by destruct reason.
  - intros [_ He]. destruct e as [| | |e]; try done.
    destruct He as [->|(reason & -> & Hne)]; [done|]. by destruct reason.
Qed.

Lemma poll_spec NODES fuel polls r : 0 <= NODES ->
  wp (barrier NODES) (poll NODES fuel polls) r (fun _ _ => True).
Proof.
  intros HN. revert r. induction polls as [|polls IH]; intros r; [done|]. cbn [poll].
  apply wp_bind. eapply wp_mono, is_drained_spec; [|done]. intros [|] r' (s & Hs & Hb & ->).
  - eapply wp_mono, payload_reclaim; [done|done|by apply Hb].
  - apply IH.
Qed.

Lemma supervisor_spec NODES fuel polls r : 0 <= NODES ->
  wp (barrier NODES) (supervisor NODES fuel polls) r (fun _ _ => True).
Proof.
  intros HN. apply wp_bind. eapply wp_mono, close_spec. intros b ? ->. by apply poll_spec.
Qed.

Lemma barrier_new NODES : barrier NODES new ∅.
Proof.
  split; [apply inv_new|]. exists 0, 0. split_and!; try done. apply gate_normal; try done. by left.
Qed.

(** C3.  In every interleaving of any number of participants and supervisors on
    one barrier, storage that a supervisor has reclaimed after a reported drain is
    never touched by an admitted participant, no live token is refused as already
    drained, and no invariant violation is reported: [is_drained] is a sound
    reclamation barrier, wherever some threads stop. *)
Theorem admission_no_use_after_reclaim NODES fuel (scripts : list (list nat)) (polls : list nat) m ts i :
  0 <= NODES ->
  rtc pstep (new, (participant NODES fuel <$> scripts) ++ (supervisor NODES fuel <$> polls)) (m, ts) ->
  ts !! i <> Some Panic.
Proof.
  intros HN Hs. apply (pool_no_panic (barrier NODES) (fun _ _ => True) _ (m, ts) i Hs).
  apply pool_ok_start; [apply barrier_new|]. apply Forall_app_2; apply Forall_fmap, Forall_true.
  - intros script. by apply participant_spec.
  - intros n. by apply supervisor_spec.
Qed.

(** Two participants enter and leave while a supervisor closes and drains: the
    run ends with the storage reclaimed. *)
Definition drain_run : (cell acell -> Z) * list (prog (cell acell) unit) :=
  run_schedule (new, (participant 4 9 <$> [[0%nat]; [1%nat; 1%nat]]) ++ (supervisor 4 9 <$> [90%nat]))
    (replicate 6 0%nat ++ replicate 6 1%nat ++ round_robin 3 100).

Lemma drain_run_reclaims : drain_run.1 (Ext Payload) = 1.
Proof. vm_compute. reflexivity. Qed.

Lemma admission_no_use_after_reclaim_witness : drain_run.2 !! 0%nat <> Some Panic.
Proof.
  apply (admission_no_use_after_reclaim 4 9 [[0%nat]; [1%nat; 1%nat]] [90%nat] drain_run.1 drain_run.2);
    [lia|]. rewrite <- surjective_pairing. apply run_schedule_steps.
Defined.
