(* ===== verification/Csnzi.v ===== *)
(** The one-shot closable nonzero indicator of [shmem_exec_obj/v2/src/csnzi.rs].

    A [Csnzi<NODES>] is a packed root word (three status bits and a 61-bit
    count), a poison word and [NODES] packed node words in a four-way tree.  Its
    cells are [Root], [Poison] and [Node i]; [Ext y] are the cells of the object
    around it.  Retry loops take [fuel] iterations; the recursion over the tree
    is bounded by the node index, which decreases at each parent.  A node access
    outside of the array (a failed [debug_assert]) is a panic. *)

From S2P Require Import Prelude Conc.

(** ** Constants and packed words *)

Definition FANOUT : Z := 4.
Definition NODE_COUNT_BITS : Z := 16.
Definition NODE_COUNT_MASK : Z := 2 ^ NODE_COUNT_BITS - 1.
Definition NODE_GENERATION_SHIFT : Z := NODE_COUNT_BITS.
Definition NODE_GENERATION_BITS : Z := 47.
Definition NODE_GENERATION_MASK : Z := 2 ^ NODE_GENERATION_BITS - 1.
Definition NODE_RESERVED_BIT : Z := 2 ^ 63.
Definition TOKEN_LEAF_BITS : Z := 16.
Definition TOKEN_LEAF_MASK : Z := 2 ^ TOKEN_LEAF_BITS - 1.
Definition TOKEN_GENERATION_SHIFT : Z := TOKEN_LEAF_BITS.
Definition TOKEN_RESERVED_BIT : Z := 2 ^ 63.
Definition MAX_LEAVES : Z := 2 ^ TOKEN_LEAF_BITS.
Definition ROOT_STATUS_SHIFT : Z := 61.
Definition ROOT_COUNT_MASK : Z := 2 ^ ROOT_STATUS_SHIFT - 1.
Definition ROOT_OPEN : Z := 0.
Definition ROOT_CLOSED : Z := 1 * 2 ^ ROOT_STATUS_SHIFT.
Definition ROOT_OPEN_TAIL : Z := 2 * 2 ^ ROOT_STATUS_SHIFT.
Definition ROOT_CLOSED_TAIL : Z := 3 * 2 ^ ROOT_STATUS_SHIFT.
Definition ROOT_DRAINED : Z := 4 * 2 ^ ROOT_STATUS_SHIFT.
Definition ROOT_CLOSING : Z := 5 * 2 ^ ROOT_STATUS_SHIFT.
Definition ROOT_STATUS_MASK : Z := not_bits 64 ROOT_COUNT_MASK.
Definition POISON_NONE : Z := 0.
Definition POISON_INVARIANT : Z := 1.
Definition POISON_COMPENSATION : Z := 2.
Definition POISON_ROOT_STATE : Z := 3.

Definition node_count (state : Z) : Z := Z.land state NODE_COUNT_MASK.
Definition node_generation (state : Z) : Z :=
  Z.land (Z.shiftr state NODE_GENERATION_SHIFT) NODE_GENERATION_MASK.
Definition node_state (generation count : Z) : Z :=
  Z.lor (Z.shiftl generation NODE_GENERATION_SHIFT) count.

(** ** Poison reasons, errors and outcomes *)

Inductive CsnziPoisonReason := InvariantViolation | CompensationSelectedTail | RootStateCorrupt.

Definition code (reason : CsnziPoisonReason) : Z :=
  match reason with
  | InvariantViolation => POISON_INVARIANT
  | CompensationSelectedTail => POISON_COMPENSATION
  | RootStateCorrupt => POISON_ROOT_STATE
  end.

Definition from_code (c : Z) : option CsnziPoisonReason :=
  if c =? POISON_NONE then None
  else if c =? POISON_INVARIANT then Some InvariantViolation
  else if c =? POISON_COMPENSATION then Some CompensationSelectedTail
  else if c =? POISON_ROOT_STATE then Some RootStateCorrupt
  else Some InvariantViolation.

Inductive CsnziCapacity := NodeCount | RootCount.

Inductive CsnziError :=
| InvalidLeaf (leaf leaf_count : Z)
| Closed
| DepartureTailBusy
| MalformedToken
| GenerationMismatch (leaf token_generation current_generation : Z)
| InactiveToken (leaf generation : Z)
| CapacityExhausted (capacity : CsnziCapacity)
| Poisoned (reason : CsnziPoisonReason).

Inductive CloseOutcome := Pending | CloseDrained | AlreadyClosed.
Inductive DepartOutcome := StillActive | Drained.

Inductive CsnziPhase :=
| PhaseOpen | PhaseClosed | PhaseClosing | OpenDepartureTail | ClosedDepartureTail
| PhaseDrained | Corrupt.

Record CsnziSnapshot := {
  phase : CsnziPhase;
  root_count : Z;
  active_nodes : Z;
  local_count_sum : Z;
  invalid_nodes : Z;
  poison : option CsnziPoisonReason
}.

Definition appears_drained (s : CsnziSnapshot) : bool :=
  (match phase s with PhaseDrained => true | _ => false end)
  && (root_count s =? 0) && (active_nodes s =? 0) && (local_count_sum s =? 0)
  && (invalid_nodes s =? 0) && (match poison s with None => true | Some _ => false end).

Inductive RootPhase := ROpen | RClosed | RClosing | ROpenTail | RClosedTail | RDrained.
Inductive TreeDepart := Active | Tail.

#[export] Instance RootPhase_eq_dec : EqDecision RootPhase.
Proof. solve_decision. Defined.

(** ** Tokens *)

Record CsnziToken := { leaf : Z; generation : Z }.

Definition into_raw (t : CsnziToken) : Z :=
  Z.lor (wrap 64 (Z.shiftl (generation t) TOKEN_GENERATION_SHIFT)) (leaf t).

Definition decode_raw (raw : Z) : result (Z * Z) CsnziError :=
  if negb (Z.land raw TOKEN_RESERVED_BIT =? 0) then Err MalformedToken
  else
    let generation := Z.shiftr raw TOKEN_GENERATION_SHIFT in
    if (generation =? 0) || (NODE_GENERATION_MASK <? generation) then Err MalformedToken
    else Ok (Z.land raw TOKEN_LEAF_MASK, generation).

(** ** The tree geometry *)

Fixpoint valid_levels (fuel : nat) (NODES total level_width : Z) : bool :=
  match fuel with
  | O => false
  | S fuel =>
      if total =? NODES then level_width <=? MAX_LEAVES
      else if (NODES <? total) || (MAX_LEAVES / FANOUT <? level_width) then false
      else
        let level_width := level_width * FANOUT in
        if NODES - total <? level_width then false
        else valid_levels fuel NODES (total + level_width) level_width
  end.

(** Level widths quadruple and are at most [MAX_LEAVES = 4^8]: nine iterations
    are enough for the loop to return. *)
Definition is_valid_node_count (NODES : Z) : bool :=
  if NODES <? FANOUT then false else valid_levels 9 NODES FANOUT FANOUT.

Definition layout_leaf_count (NODES : Z) : Z :=
  if negb (is_valid_node_count NODES) then 0 else NODES - (NODES - FANOUT) / FANOUT.

Definition leaf_start (NODES : Z) : Z := (NODES - FANOUT) / FANOUT.

(** ** Cells and operations *)

Inductive cell (Y : Type) :=
| Root
| Poison
| Node (i : Z)
| Ext (y : Y).
Arguments Root {Y}.
Arguments Poison {Y}.
Arguments Node {Y} _.
Arguments Ext {Y} _.

#[export] Instance c_cell_eq_dec `{EqDecision Y} : EqDecision (cell Y).
Proof. solve_decision. Defined.

Section Operations.
Context {Y : Type}.
Variable NODES : Z.
Variable fuel : nat.
#[local] Abbreviation prog := (prog (cell Y)).

(** [while index < NODES { initialize_cacheline(nodes.add(index), 0) }], [n] nodes to go. *)
Fixpoint initialize_nodes (n : nat) (index : Z) : prog unit :=
  match n with
  | O => Ret tt
  | S n => do! store (Node index) 0 ;; initialize_nodes n (index + 1)
  end.

Definition initialize_at : prog unit :=
  if negb (is_valid_node_count NODES) then Panic
  else
    do! store Root ROOT_OPEN ;;
    do! store Poison POISON_NONE ;;
    initialize_nodes (Z.to_nat NODES) 0.

Definition leaf_count : Z := layout_leaf_count NODES.

Definition leaf_node (leaf : Z) : result Z CsnziError :=
  if leaf_count <=? leaf then Err (InvalidLeaf leaf leaf_count)
  else Ok (leaf_start NODES + leaf).

Definition node_value (index : Z) : prog (cell Y) :=
  if (0 <=? index) && (index <? NODES) then Ret (Node index) else Panic.

Definition poison_reason : prog (option CsnziPoisonReason) :=
  let! c := load Poison in Ret (from_code c).

Definition ensure_healthy : prog (result unit CsnziError) :=
  let! reason := poison_reason in
  match reason with
  | Some reason => Ret (Err (Poisoned reason))
  | None => Ret (Ok tt)
  end.

Definition poison_with (reason : CsnziPoisonReason) : prog CsnziError :=
  let! _ignored := compare_exchange Poison POISON_NONE (code reason) in
  let! recorded := poison_reason in
  Ret (Poisoned (match recorded with Some r => r | None => reason end)).

Definition validate_node_state (state : Z) : prog (result unit CsnziError) :=
  if negb (Z.land state NODE_RESERVED_BIT =? 0)
     || (negb (node_count state =? 0) && (node_generation state =? 0))
  then let! e := poison_with InvariantViolation in Ret (Err e)
  else Ret (Ok tt).

Definition decode_root (root : Z) : prog (result (RootPhase * Z) CsnziError) :=
  let count := Z.land root ROOT_COUNT_MASK in
  let status := Z.land root ROOT_STATUS_MASK in
  if status =? ROOT_OPEN then Ret (Ok (ROpen, count))
  else if status =? ROOT_CLOSED then Ret (Ok (RClosed, count))
  else if (status =? ROOT_CLOSING) && (count =? 0) then Ret (Ok (RClosing, count))
  else if (status =? ROOT_OPEN_TAIL) && (count =? 0) then Ret (Ok (ROpenTail, count))
  else if (status =? ROOT_CLOSED_TAIL) && (count =? 0) then Ret (Ok (RClosedTail, count))
  else if (status =? ROOT_DRAINED) && (count =? 0) then Ret (Ok (RDrained, count))
  else let! e := poison_with RootStateCorrupt in Ret (Err e).

Definition observe_open : prog (result unit CsnziError) :=
  let! root := load Root in
  let!? pc := decode_root root in
  match pc.1 with
  | ROpen => Ret (Ok tt)
  | ROpenTail => Ret (Err DepartureTailBusy)
  | RClosed | RClosing | RClosedTail | RDrained => Ret (Err Closed)
  end.

(** One iteration of [root_arrive]; the loop state is the sampled root word. *)
Definition root_arrive_body (root : Z) : prog (Z + result unit CsnziError) :=
  do!^ ensure_healthy ;;
  let!^ pc := decode_root root in
  let count := pc.2 in
  let update :=
    if count =? ROOT_COUNT_MASK then Ret (inr (Err (CapacityExhausted RootCount)))
    else
      let incremented := Z.lor (Z.land root ROOT_STATUS_MASK) (count + 1) in
      let! x := compare_exchange_weak Root root incremented in
      match x with Ok _ => Ret (inr (Ok tt)) | Err observed => Ret (inl observed) end in
  match pc.1 with
  | ROpenTail => Ret (inr (Err DepartureTailBusy))
  | RClosing | RClosedTail | RDrained => Ret (inr (Err Closed))
  | RClosed => if count =? 0 then Ret (inr (Err Closed)) else update
  | ROpen => update
  end.
Definition root_arrive : prog (result unit CsnziError) :=
  let! root := load Root in loop fuel root_arrive_body root.

Definition root_depart_body (root : Z) : prog (Z + result TreeDepart CsnziError) :=
  do!^ ensure_healthy ;;
  let!^ pc := decode_root root in
  let phase := pc.1 in
  let count := pc.2 in
  if negb (bool_decide (phase = ROpen \/ phase = RClosed)) || (count =? 0) then
    let! e := poison_with InvariantViolation in Ret (inr (Err e))
  else
    let! next :=
      (if count =? 1 then
         match phase with
         | ROpen => Ret ROOT_OPEN_TAIL
         | RClosed => Ret ROOT_CLOSED_TAIL
         | _ => Panic
         end
       else Ret (Z.lor (Z.land root ROOT_STATUS_MASK) (count - 1))) in
    let! x := compare_exchange_weak Root root next in
    match x with
    | Ok _ => Ret (inr (Ok (if count =? 1 then Tail else Active)))
    | Err observed => Ret (inl observed)
    end.
Definition root_depart : prog (result TreeDepart CsnziError) :=
  let! root := load Root in loop fuel root_depart_body root.

(** One iteration of [depart_node]; [depart_parent] is the recursive call. *)
Definition depart_node_body (depart_parent : prog (result TreeDepart CsnziError))
    (node : Z) (expected : option (Z * Z)) (_ : unit) :
    prog (unit + result TreeDepart CsnziError) :=
  do!^ ensure_healthy ;;
  let! nd := node_value node in
  let! state := load nd in
  do!^ validate_node_state state ;;
  let count := node_count state in
  let generation := node_generation state in
  do!^ (match expected with
        | Some (leaf, expected_generation) =>
            if negb (generation =? expected_generation) then
              Ret (Err (GenerationMismatch leaf expected_generation generation))
            else if count =? 0 then Ret (Err (InactiveToken leaf expected_generation))
            else Ret (Ok tt)
        | None =>
            if count =? 0 then let! e := poison_with InvariantViolation in Ret (Err e)
            else Ret (Ok tt)
        end) ;;
  let decremented := node_state generation (count - 1) in
  let! nd := node_value node in
  let! x := compare_exchange_weak nd state decremented in
  match x with
  | Ok _ =>
      if count =? 1 then let! d := depart_parent in Ret (inr d)
      else Ret (inr (Ok Active))
  | Err _ => Ret (inl tt)
  end.

Fixpoint depart_node_at (depth : nat) (node : Z) (expected : option (Z * Z)) :
    prog (result TreeDepart CsnziError) :=
  match depth with
  | O => Spin
  | S depth =>
      let depart_parent :=
        if node <? FANOUT then root_depart
        else depart_node_at depth ((node - FANOUT) / FANOUT) None in
      loop fuel (depart_node_body depart_parent node expected) tt
  end.

(** The recursion depth: the parent of node [i] has a smaller index. *)
Definition depart_node (node : Z) (expected : option (Z * Z)) :
    prog (result TreeDepart CsnziError) :=
  depart_node_at (S (Z.to_nat node)) node expected.

Definition depart_parent (node : Z) : prog (result TreeDepart CsnziError) :=
  if node <? FANOUT then root_depart
  else depart_node ((node - FANOUT) / FANOUT) None.

(** One iteration of [arrive_node_with_parent_state]; the loop state is the flag
    [arrived_at_parent]. *)
Definition arrive_node_body (arrive_parent : prog (result unit CsnziError))
    (node : Z) (arrived_at_parent : bool) : prog (bool + result Z CsnziError) :=
  do!^ ensure_healthy ;;
  let! nd := node_value node in
  let! state := load nd in
  do!^ validate_node_state state ;;
  let count := node_count state in
  let generation := node_generation state in
  if (count =? 0) && negb arrived_at_parent then
    do!^ arrive_parent ;; Ret (inl true)
  else if count =? NODE_COUNT_MASK then
    if arrived_at_parent then Ret (inl arrived_at_parent)
    else Ret (inr (Err (CapacityExhausted NodeCount)))
  else
    let next_generation :=
      if count =? 0 then
        if generation =? NODE_GENERATION_MASK then 1 else generation + 1
      else generation in
    let incremented := node_state next_generation (count + 1) in
    let! nd := node_value node in
    let! x := compare_exchange_weak nd state incremented in
    match x with
    | Ok _ =>
        if arrived_at_parent && negb (count =? 0) then
          let!^ d := depart_parent node in
          match d with
          | Tail =>
              let! e := poison_with CompensationSelectedTail in Ret (inr (Err e))
          | Active => Ret (inr (Ok next_generation))
          end
        else Ret (inr (Ok next_generation))
    | Err _ => Ret (inl arrived_at_parent)
    end.

Fixpoint arrive_node_at (depth : nat) (node : Z) : prog (result Z CsnziError) :=
  match depth with
  | O => Spin
  | S depth =>
      let arrive_parent :=
        if node <? FANOUT then root_arrive
        else do!? arrive_node_at depth ((node - FANOUT) / FANOUT) ;; Ret (Ok tt) in
      loop fuel (arrive_node_body arrive_parent node) false
  end.

Definition arrive_node (node : Z) : prog (result Z CsnziError) :=
  arrive_node_at (S (Z.to_nat node)) node.

Definition try_enter (leaf : Z) : prog (result CsnziToken CsnziError) :=
  let!? node := Ret (leaf_node leaf) in
  do!? ensure_healthy ;;
  do!? observe_open ;;
  let!? generation := arrive_node node in
  do!? ensure_healthy ;;
  Ret (Ok {| leaf := wrap 16 leaf; generation := generation |}).

Fixpoint verify_nodes (n : nat) (index : Z) : prog (result unit CsnziError) :=
  match n with
  | O => Ret (Ok tt)
  | S n =>
      let! nd := node_value index in
      let! state := load nd in
      do!? validate_node_state state ;;
      if negb (node_count state =? 0) then
        let! e := poison_with InvariantViolation in Ret (Err e)
      else verify_nodes n (index + 1)
  end.
Definition verify_nodes_idle : prog (result unit CsnziError) := verify_nodes (Z.to_nat NODES) 0.

Definition close_body (root : Z) : prog (Z + result CloseOutcome CsnziError) :=
  let!^ pc := decode_root root in
  let count := pc.2 in
  match pc.1 with
  | ROpen =>
      if count =? 0 then
        let! x := compare_exchange_weak Root root ROOT_CLOSING in
        match x with
        | Ok _ =>
            do!^ verify_nodes_idle ;;
            let! y := compare_exchange Root ROOT_CLOSING ROOT_DRAINED in
            match y with
            | Ok _ => Ret (inr (Ok CloseDrained))
            | Err _ => let! e := poison_with RootStateCorrupt in Ret (inr (Err e))
            end
        | Err observed => Ret (inl observed)
        end
      else
        let closed := Z.lor ROOT_CLOSED count in
        let! x := compare_exchange_weak Root root closed in
        match x with Ok _ => Ret (inr (Ok Pending)) | Err observed => Ret (inl observed) end
  | ROpenTail =>
      let! x := compare_exchange_weak Root root ROOT_CLOSED_TAIL in
      match x with Ok _ => Ret (inr (Ok Pending)) | Err observed => Ret (inl observed) end
  | RClosed | RClosing | RClosedTail | RDrained => Ret (inr (Ok AlreadyClosed))
  end.
Definition close : prog (result CloseOutcome CsnziError) :=
  do!? ensure_healthy ;;
  let! root := load Root in loop fuel close_body root.

Definition is_closed : prog bool :=
  let! root := load Root in
  let status := Z.land root ROOT_STATUS_MASK in
  Ret ((status =? ROOT_CLOSED) || (status =? ROOT_CLOSING) || (status =? ROOT_CLOSED_TAIL)
       || (status =? ROOT_DRAINED)).

Definition is_drained : prog bool :=
  let! root := load Root in
  if root =? ROOT_DRAINED then
    let! p := load Poison in Ret (p =? POISON_NONE)
  else Ret false.

Definition query : prog bool :=
  let! root := load Root in
  let status := Z.land root ROOT_STATUS_MASK in
  if negb (Z.land root ROOT_COUNT_MASK =? 0)
     || ((status =? ROOT_OPEN_TAIL) || (status =? ROOT_CLOSED_TAIL)) then Ret true
  else let! p := load Poison in Ret (negb (p =? POISON_NONE)).

(** The scan of [debug_snapshot], from node [index], [n] nodes to go. *)
Fixpoint snapshot_nodes (n : nat) (index active sum invalid : Z) : prog (Z * Z * Z) :=
  match n with
  | O => Ret (active, sum, invalid)
  | S n =>
      let! nd := node_value index in
      let! state := load nd in
      let count := node_count state in
      let generation := node_generation state in
      let invalid :=
        if negb (Z.land state NODE_RESERVED_BIT =? 0) || (negb (count =? 0) && (generation =? 0))
        then invalid + 1 else invalid in
      if negb (count =? 0) then
        snapshot_nodes n (index + 1) (active + 1) (Z.min (sum + count) u64_max) invalid
      else snapshot_nodes n (index + 1) active sum invalid
  end.

Definition debug_snapshot : prog CsnziSnapshot :=
  let! root := load Root in
  let status := Z.land root ROOT_STATUS_MASK in
  let phase :=
    if status =? ROOT_OPEN then PhaseOpen
    else if status =? ROOT_CLOSED then PhaseClosed
    else if status =? ROOT_CLOSING then PhaseClosing
    else if status =? ROOT_OPEN_TAIL then OpenDepartureTail
    else if status =? ROOT_CLOSED_TAIL then ClosedDepartureTail
    else if status =? ROOT_DRAINED then PhaseDrained
    else Corrupt in
  let! c := snapshot_nodes (Z.to_nat NODES) 0 0 0 0 in
  let! pr := poison_reason in
  Ret {| phase := phase; root_count := Z.land root ROOT_COUNT_MASK; active_nodes := c.1.1;
         local_count_sum := c.1.2; invalid_nodes := c.2; poison := pr |}.

Definition finish_tail_body (root : Z) : prog (Z + result DepartOutcome CsnziError) :=
  do!^ ensure_healthy ;;
  let!^ pc := decode_root root in
  if negb (pc.2 =? 0) then
    let! e := poison_with InvariantViolation in Ret (inr (Err e))
  else
    let seal next outcome :=
      let! x := compare_exchange_weak Root root next in
      match x with
      | Ok _ => Ret (inr (Ok outcome))
      | Err observed => Ret (inl observed)
      end in
    match pc.1 with
    | ROpenTail => seal ROOT_OPEN StillActive
    | RClosedTail => seal ROOT_DRAINED Drained
    | _ => let! e := poison_with InvariantViolation in Ret (inr (Err e))
    end.
Definition finish_departure_tail : prog (result DepartOutcome CsnziError) :=
  do!? verify_nodes_idle ;;
  let! root := load Root in loop fuel finish_tail_body root.

Definition depart_token (leaf generation : Z) : prog (result DepartOutcome CsnziError) :=
  let!? node := Ret (leaf_node leaf) in
  do!? ensure_healthy ;;
  let!? d := depart_node node (Some (leaf, generation)) in
  match d with
  | Active => Ret (Ok StillActive)
  | Tail => finish_departure_tail
  end.

(** [CsnziToken::depart] *)
Definition depart (t : CsnziToken) : prog (result DepartOutcome CsnziError) :=
  depart_token (leaf t) (generation t).

Definition depart_raw (raw : Z) : prog (result DepartOutcome CsnziError) :=
  let!? lg := Ret (decode_raw raw) in
  depart_token lg.1 lg.2.
End Operations.

(** ** The scalar form of tokens *)

Lemma into_raw_val lf g : 0 <= lf < MAX_LEAVES -> 0 <= g <= NODE_GENERATION_MASK ->
  into_raw {| leaf := lf; generation := g |} = g * 2 ^ 16 + lf.
Proof.
  unfold MAX_LEAVES, TOKEN_LEAF_BITS. intros Hl Hg.
  assert (Hg' : g < 2 ^ 47) by (change NODE_GENERATION_MASK with (2 ^ 47 - 1) in Hg; lia).
  unfold into_raw, wrap, TOKEN_GENERATION_SHIFT, TOKEN_LEAF_BITS. cbn [leaf generation].
  rewrite Z.mod_small; [by apply lor_shiftl_add|]. rewrite Z.shiftl_mul_pow2 by lia.
  change (2 ^ 64) with (2 ^ 48 * 2 ^ 16). change (2 ^ 47) with 140737488355328 in *. cbn. lia.
Qed.

(** Decoding a 64-bit word, by its fields. *)
Lemma decode_raw_fields raw l' g' : in_width 64 raw ->
  raw = g' * 2 ^ 16 + l' -> 0 <= l' < 2 ^ 16 -> 0 <= g' ->
  decode_raw raw = if negb (raw <? 2 ^ 63) || ((g' =? 0) || (NODE_GENERATION_MASK <? g'))
                   then Err MalformedToken else Ok (l', g').
Proof.
  unfold in_width. intros Hw Hr Hl' Hg'. unfold decode_raw, TOKEN_RESERVED_BIT.
  rewrite land_bit_eqb by lia.
  assert (Z.testbit raw 63 = negb (raw <? 2 ^ 63)) as ->.
  { destruct (Z.ltb_spec raw (2 ^ 63)); [by apply (testbit_small raw 63); lia|].
    rewrite Z.testbit_odd, Z.shiftr_div_pow2 by lia.
    replace (raw / 2 ^ 63) with 1; [done|]. apply Z.div_unique with (raw - 2 ^ 63); lia. }
  rewrite !negb_involutive. destruct (raw <? 2 ^ 63); cbn [negb orb]; [|done].
  unfold TOKEN_GENERATION_SHIFT, TOKEN_LEAF_MASK, TOKEN_LEAF_BITS.
  rewrite shiftr_div, land_mask, Hr, Z.div_add_l, Z.div_small, Z.add_0_r by lia.
  by rewrite Z.add_comm, Z.mod_add, Z.mod_small by lia.
Qed.

Lemma csnzi_token_decodes lf g : 0 <= lf < MAX_LEAVES -> 1 <= g <= NODE_GENERATION_MASK ->
  decode_raw (into_raw {| leaf := lf; generation := g |}) = Ok (lf, g).
Proof.
  intros Hl Hg. rewrite into_raw_val by lia. change NODE_GENERATION_MASK with (2 ^ 47 - 1) in *.
  unfold MAX_LEAVES, TOKEN_LEAF_BITS in Hl.
  rewrite (decode_raw_fields _ lf g) by (unfold in_width; lia).
  change NODE_GENERATION_MASK with (2 ^ 47 - 1). destruct (Z.eqb_spec g 0); [lia|].
  destruct (Z.ltb_spec (2 ^ 47 - 1) g); [lia|]. cbn [orb].
  by destruct (Z.ltb_spec (g * 2 ^ 16 + lf) (2 ^ 63)); [|lia].
Qed.

(** The scalar form of a token is canonical: a 64-bit word decodes to the
    leaf and generation of a token exactly when it is the encoding of that token
    and the token is one the indicator can issue (16-bit leaf, nonzero 47-bit
    generation); every other word is rejected as malformed. *)
Theorem csnzi_token_canonical raw lf g : in_width 64 raw ->
  decode_raw raw = Ok (lf, g) <->
  (0 <= lf < MAX_LEAVES /\ 1 <= g <= NODE_GENERATION_MASK /\
   raw = into_raw {| leaf := lf; generation := g |}).
Proof.
  intros Hw. split.
  - assert (Hl : 0 <= raw mod 2 ^ 16 < MAX_LEAVES) by (unfold MAX_LEAVES, TOKEN_LEAF_BITS; dlia).
    assert (Hg : 0 <= raw / 2 ^ 16) by (unfold in_width in Hw; dlia).
    rewrite (decode_raw_fields raw (raw mod 2 ^ 16) (raw / 2 ^ 16)) by (done || dlia).
    destruct (negb _); [done|]. cbn [orb]. destruct (Z.eqb_spec (raw / 2 ^ 16) 0); [done|].
    destruct (Z.ltb_spec NODE_GENERATION_MASK (raw / 2 ^ 16)); [done|]. cbn [orb]. intros [= <- <-].
    rewrite into_raw_val by lia. split_and!; (lia || dlia).
  - intros (Hl & Hg & ->). by apply csnzi_token_decodes.
Qed.

Lemma csnzi_token_canonical_witness :
  decode_raw (7 * 2 ^ 16 + 3) = Ok (3, 7) <->
  (0 <= 3 < MAX_LEAVES /\ 1 <= 7 <= NODE_GENERATION_MASK /\
   7 * 2 ^ 16 + 3 = into_raw {| leaf := 3; generation := 7 |}).
Proof.
  apply (csnzi_token_canonical (7 * 2 ^ 16 + 3) 3 7). vm_compute. split; [discriminate | reflexivity].
Defined.
