(* ===== verification/CsnziInv.v ===== *)
(** The invariant of the closable indicator and the specifications of its
    operations, in every interleaving.

    The tokens record what the threads hold: [Own n g] is one arrival at node [n]
    in activation [g] (the root is node [-1]) that has to be departed, [TailT] is
    held by the thread that removed the last root contribution, [ClosingT] by the
    one that closed an empty root, [SealT] is the right won by the operation that
    sealed the drain, [SealedT] that right once used; [ClosedT] and [FinalT] are
    the knowledge that the indicator is closed, and that it is drained. *)

From stdpp Require Import countable.
From S2P Require Import Prelude Conc Csnzi.

Inductive tok := Own (n g : Z) | TailT | ClosingT | SealT | SealedT | ClosedT | FinalT.

#[export] Instance c_tok_eq_dec : EqDecision tok.
Proof. solve_decision. Defined.

#[export] Instance c_tok_countable : Countable tok.
Proof.
  apply (inj_countable'
    (fun t => match t with
              | Own n g => inl (n, g) | TailT => inr 0 | ClosingT => inr 1
              | SealT => inr 2 | SealedT => inr 3 | ClosedT => inr 4 | FinalT => inr 5 end)
    (fun s => match s with
              | inl (n, g) => Own n g | inr 0 => TailT | inr 1 => ClosingT
              | inr 2 => SealT | inr 3 => SealedT | inr 4 => ClosedT | inr _ => FinalT end)).
  by intros [].
Defined.

(** The cells of the clients: the storage that the indicator protects, and the
    mark left by the operation that sealed the drain. *)
Inductive client_cell := Payload | Sealed.
#[export] Instance client_cell_eq_dec : EqDecision client_cell.
Proof. solve_decision. Defined.

#[global] Abbreviation mem := (cell client_cell -> Z).
#[global] Abbreviation toks := (gmultiset tok).

(** ** Packed words *)

Definition pack (g c : Z) : Z := g * 2 ^ 16 + c.

Definition word_ok (g c : Z) : Prop :=
  0 <= g <= NODE_GENERATION_MASK /\ 0 <= c <= NODE_COUNT_MASK /\ (c <> 0 -> 1 <= g).

Lemma pack_state g c : 0 <= c <= NODE_COUNT_MASK -> node_state g c = pack g c.
Proof.
  intros Hc. unfold node_state, pack, NODE_GENERATION_SHIFT, NODE_COUNT_BITS.
  apply lor_shiftl_add; [lia|]. unfold NODE_COUNT_MASK, NODE_COUNT_BITS in Hc. lia.
Qed.

Lemma c_count_pack g c : word_ok g c -> node_count (pack g c) = c.
Proof.
  intros (Hg & Hc & _). unfold node_count, NODE_COUNT_MASK, NODE_COUNT_BITS in *.
  rewrite land_mask by done. unfold pack. rewrite Z.add_comm, Z.mod_add by done.
  apply Z.mod_small. lia.
Qed.

Lemma c_generation_pack g c : word_ok g c -> node_generation (pack g c) = g.
Proof.
  intros (Hg & Hc & _). unfold node_generation, NODE_GENERATION_MASK, NODE_GENERATION_SHIFT,
    NODE_GENERATION_BITS, NODE_COUNT_MASK, NODE_COUNT_BITS, pack in *.
  rewrite shiftr_div, land_mask, Z.div_add_l, Z.div_small, Z.add_0_r by lia. apply Z.mod_small. lia.
Qed.

Lemma reserved_pack g c : word_ok g c -> Z.land (pack g c) NODE_RESERVED_BIT = 0.
Proof.
  intros (Hg & Hc & _). unfold NODE_RESERVED_BIT. rewrite land_bit by done.
  rewrite (testbit_small _ 63); [done | |done].
  unfold pack, NODE_GENERATION_MASK, NODE_GENERATION_BITS, NODE_COUNT_MASK, NODE_COUNT_BITS in *.
  change (2 ^ 63) with (2 ^ 47 * 2 ^ 16). lia.
Qed.

Lemma c_pack_inj g c g' c' : word_ok g c -> word_ok g' c' -> pack g c = pack g' c' ->
  g = g' /\ c = c'.
Proof.
  intros Hw Hw' Heq. split.
  - by rewrite <- (c_generation_pack g c Hw), Heq, c_generation_pack.
  - by rewrite <- (c_count_pack g c Hw), Heq, c_count_pack.
Qed.

Definition status_code (ph : RootPhase) : Z :=
  match ph with
  | ROpen => 0 | RClosed => 1 | ROpenTail => 2 | RClosedTail => 3 | RDrained => 4 | RClosing => 5
  end.

Definition rpack (ph : RootPhase) (c : Z) : Z := status_code ph * 2 ^ 61 + c.

Definition root_ok (ph : RootPhase) (c : Z) : Prop :=
  0 <= c <= ROOT_COUNT_MASK /\
  match ph with ROpen => True | RClosed => 1 <= c | _ => c = 0 end.

Lemma rpack_fields ph c : 0 <= c <= ROOT_COUNT_MASK ->
  Z.land (rpack ph c) ROOT_COUNT_MASK = c /\
  Z.land (rpack ph c) ROOT_STATUS_MASK = status_code ph * 2 ^ 61.
Proof.
  intros Hc. unfold ROOT_STATUS_MASK, ROOT_COUNT_MASK, ROOT_STATUS_SHIFT in *.
  assert (Hm : rpack ph c mod 2 ^ 61 = c).
  { unfold rpack. rewrite Z.add_comm, Z.mod_add by done. apply Z.mod_small. lia. }
  rewrite land_mask, land_not_mask, Hm; [| lia | | lia].
  - unfold rpack. split; lia.
  - unfold rpack. change (2 ^ 64) with (8 * 2 ^ 61). destruct ph; cbn [status_code]; lia.
Qed.

Lemma rpack_lor ph c : 0 <= c <= ROOT_COUNT_MASK ->
  Z.lor (status_code ph * 2 ^ 61) c = rpack ph c.
Proof.
  intros Hc. unfold ROOT_COUNT_MASK, ROOT_STATUS_SHIFT in Hc.
  rewrite <- Z.shiftl_mul_pow2 by lia. apply lor_shiftl_add; lia.
Qed.

Lemma rpack_inj ph c ph' c' : 0 <= c <= ROOT_COUNT_MASK -> 0 <= c' <= ROOT_COUNT_MASK ->
  rpack ph c = rpack ph' c' -> ph = ph' /\ c = c'.
Proof.
  intros Hc Hc' Heq. destruct (rpack_fields ph c Hc) as [Ha Hb].
  destruct (rpack_fields ph' c' Hc') as [Ha' Hb']. split; [|congruence].
  rewrite Heq, Hb' in Hb. by destruct ph, ph'.
Qed.

Lemma decode_rpack ph c : root_ok ph c ->
  decode_root (rpack ph c) = (Ret (Ok (ph, c)) : prog (cell client_cell) _).
Proof.
  intros [Hc Hph]. destruct (rpack_fields ph c Hc) as [Ha Hb].
  unfold decode_root. rewrite Ha, Hb.
  destruct ph; cbn [status_code]; first [reflexivity | subst c; reflexivity].
Qed.

(** ** The invariant *)

Definition b2z (b : bool) : Z := if b then 1 else 0.
Definition active (w : Z) : Z := b2z (negb (node_count w =? 0)).

Lemma c_active_pack g c : word_ok g c -> active (pack g c) = b2z (negb (c =? 0)).
Proof. intros Hw. unfold active. by rewrite c_count_pack. Qed.

Definition parent (n : Z) : Z := (n - 4) / 4.

Definition is_tail (ph : RootPhase) : bool :=
  match ph with ROpenTail | RClosedTail => true | _ => false end.
Definition is_closing (ph : RootPhase) : bool := match ph with RClosing => true | _ => false end.
Definition is_final (ph : RootPhase) : bool := match ph with RDrained => true | _ => false end.
Definition is_open (ph : RootPhase) : bool :=
  match ph with ROpen | ROpenTail => true | _ => false end.

(** What the phase of the root says of the tokens. *)
Record ghosts (ph : RootPhase) (r : toks) : Prop := {
  ghost_tail : mult TailT r = b2z (is_tail ph);
  ghost_closing : mult ClosingT r = b2z (is_closing ph);
  ghost_seal : mult SealT r + mult SealedT r = b2z (is_final ph);
  (* nobody knows an open indicator to be closed *)
  ghost_closed : mult ClosedT r * b2z (is_open ph) = 0;
  (* nobody knows an indicator to be drained that is not *)
  ghost_final : mult FinalT r * b2z (negb (is_final ph)) = 0
}.

Section Invariant.
Variable NODES : Z.
Implicit Types (m : mem) (r fr : toks).

Definition in_tree (n : Z) : Prop := 0 <= n < NODES.

Definition child_active m (j : Z) : Z :=
  if (0 <=? j) && (j <? NODES) then active (m (Node j)) else 0.
(** The number of active children of node [p]. *)
Definition act m (p : Z) : Z :=
  child_active m (4 * p + 4) + child_active m (4 * p + 5)
  + child_active m (4 * p + 6) + child_active m (4 * p + 7).

(** Count and activation of a node; the root is node [-1] of activation 0. *)
Definition count_at m (p : Z) : Z :=
  if p =? -1 then Z.land (m Root) ROOT_COUNT_MASK else node_count (m (Node p)).
Definition gen_at m (p : Z) : Z := if p =? -1 then 0 else node_generation (m (Node p)).

(** The count of [p] is that of its tokens and of its active children. *)
Definition balanced m r (p : Z) : Prop :=
  forall g, mult (Own p g) r = if decide (g = gen_at m p) then count_at m p - act m p else 0.

Definition inhabited (p : Z) : Prop := p = -1 \/ in_tree p.

Record csnzi_inv m r : Prop := {
  inv_node n : in_tree n -> exists g c, m (Node n) = pack g c /\ word_ok g c;
  inv_root : exists ph c, m Root = rpack ph c /\ root_ok ph c /\ ghosts ph r;
  inv_balance p : inhabited p -> balanced m r p;
  inv_out p g : ~ inhabited p -> mult (Own p g) r = 0;
  inv_poison : m Poison = POISON_NONE;
  inv_payload : m (Ext Payload) <> 0 -> m Root = ROOT_DRAINED;
  inv_sealed : m (Ext Sealed) = mult SealedT r
}.

Lemma c_active_bound w : 0 <= active w <= 1.
Proof. unfold active, b2z. destruct (negb _); lia. Qed.

Lemma c_child_active_bound m j : 0 <= child_active m j <= 1.
Proof. unfold child_active. pose proof (c_active_bound (m (Node j))). destruct (_ && _); lia. Qed.

Ltac kids m p :=
  pose proof (c_child_active_bound m (4 * p + 4)); pose proof (c_child_active_bound m (4 * p + 5));
  pose proof (c_child_active_bound m (4 * p + 6)); pose proof (c_child_active_bound m (4 * p + 7)).

Lemma c_act_nonneg m p : 0 <= act m p.
Proof. unfold act. kids m p. lia. Qed.

Lemma c_act_child m n : in_tree n -> active (m (Node n)) <= act m (parent n).
Proof.
  intros Hn. unfold in_tree in Hn. assert (child_active m n = active (m (Node n))) as <-.
  { unfold child_active. destruct (Z.leb_spec 0 n); [|lia]. by destruct (Z.ltb_spec n NODES); [|lia]. }
  unfold act. kids m (parent n).
  assert (n = 4 * parent n + 4 \/ n = 4 * parent n + 5 \/ n = 4 * parent n + 6
          \/ n = 4 * parent n + 7) as Hc by (unfold parent; dlia).
  destruct Hc as [E|[E|[E|E]]]; rewrite E at 1; lia.
Qed.

Lemma c_parent_lt n : in_tree n -> -1 <= parent n < n.
Proof. unfold in_tree, parent. intros. dlia. Qed.

Lemma parent_inhabited n : in_tree n -> inhabited (parent n).
Proof. unfold inhabited, in_tree, parent. intros. dlia. Qed.

Lemma c_child_active_upd m n w j : in_tree n ->
  child_active (upd m (Node n) w) j =
  child_active m j + (if decide (j = n) then active w - active (m (Node n)) else 0).
Proof.
  intros [Hn1 Hn2]. unfold child_active. case_decide as Hj.
  - subst j. destruct (Z.leb_spec 0 n); [|lia]. destruct (Z.ltb_spec n NODES); [|lia].
    cbn. rewrite upd_eq. lia.
  - rewrite upd_ne by (intros [=]; lia). lia.
Qed.

Lemma c_act_upd m n w p : in_tree n ->
  act (upd m (Node n) w) p =
  act m p + (if decide (p = parent n) then active w - active (m (Node n)) else 0).
Proof.
  intros Hn. unfold act. rewrite !c_child_active_upd by done.
  unfold in_tree, parent in *. repeat case_decide; dlia.
Qed.

Lemma c_act_upd_other m l w p : (forall n, l <> Node n) -> act (upd m l w) p = act m p.
Proof.
  intros Hl. unfold act, child_active. by rewrite !upd_ne by (intros Heq; by eapply Hl).
Qed.

Lemma in_tree_pos n : in_tree n -> (n =? -1) = false.
Proof. unfold in_tree. intros. apply Z.eqb_neq. lia. Qed.

Lemma c_node_view m r n g c : csnzi_inv m r -> in_tree n -> m (Node n) = pack g c -> word_ok g c ->
  forall g', mult (Own n g') r = if decide (g' = g) then c - act m n else 0.
Proof.
  intros Hinv Hn Hw Hok g'. rewrite (inv_balance m r Hinv n (or_intror Hn) g').
  unfold gen_at, count_at. by rewrite in_tree_pos, Hw, c_generation_pack, c_count_pack.
Qed.

Lemma root_view m r ph c : csnzi_inv m r -> m Root = rpack ph c -> root_ok ph c ->
  ghosts ph r /\
  forall g, mult (Own (-1) g) r = if decide (g = 0) then c - act m (-1) else 0.
Proof.
  intros Hinv Hw [Hc Hok]. split.
  - destruct (inv_root m r Hinv) as (ph1 & c1 & Hw1 & [Hc1 _] & Hg).
    rewrite Hw in Hw1. by apply rpack_inj in Hw1 as [-> _].
  - intros g. rewrite (inv_balance m r Hinv (-1) (or_introl eq_refl) g).
    unfold gen_at, count_at. cbn. by rewrite Hw, (proj1 (rpack_fields ph c Hc)).
Qed.

(** A token pins the activation of its node, which counts it. *)
Lemma c_own_word m r n g : csnzi_inv m r -> in_tree n -> 1 <= mult (Own n g) r ->
  exists c, m (Node n) = pack g c /\ 1 <= c /\ word_ok g c.
Proof.
  intros Hinv Hn Hg. destruct (inv_node m r Hinv n Hn) as (g1 & c & Hw & Hok).
  rewrite (c_node_view m r n g1 c Hinv Hn Hw Hok) in Hg. case_decide; [subst g1|lia].
  exists c. pose proof (c_act_nonneg m n). split_and!; [done | lia | done].
Qed.

Lemma c_own_root m r g : csnzi_inv m r -> 1 <= mult (Own (-1) g) r -> g = 0.
Proof.
  intros Hinv Hg. rewrite (inv_balance m r Hinv (-1) (or_introl eq_refl)) in Hg.
  by case_decide; [|lia].
Qed.

(** ** One lemma per kind of atomic step *)

(** A node word changes; its tokens and those of its parent follow. *)
Lemma inv_node_step m r n g c g' c' r' : csnzi_inv m r -> in_tree n ->
  m (Node n) = pack g c -> word_ok g c -> word_ok g' c' ->
  (forall y, mult (Own n y) r' = if decide (y = g') then c' - act m n else 0) ->
  (forall y, mult (Own (parent n) y) r' = mult (Own (parent n) y) r
     - if decide (y = gen_at m (parent n)) then b2z (negb (c' =? 0)) - b2z (negb (c =? 0)) else 0) ->
  (forall t, (forall y, t <> Own n y /\ t <> Own (parent n) y) -> mult t r' = mult t r) ->
  csnzi_inv (upd m (Node n) (pack g' c')) r'.
Proof.
  intros Hinv Hn Hw Hok Hok' Hnode Hpar Hoth. pose proof (c_parent_lt n Hn) as Hlt.
  assert (Hd : active (pack g' c') - active (m (Node n))
               = b2z (negb (c' =? 0)) - b2z (negb (c =? 0))) by by rewrite Hw, !c_active_pack.
  assert (Hat : forall p, p <> n -> count_at (upd m (Node n) (pack g' c')) p = count_at m p /\
    gen_at (upd m (Node n) (pack g' c')) p = gen_at m p).
  { intros p Hp. unfold count_at, gen_at. by rewrite !upd_ne by (done || intros [=]; lia). }
  constructor.
  - intros p Hp. destruct (decide (p = n)) as [->|Hne].
    + rewrite upd_eq. by exists g', c'.
    + rewrite upd_ne by (intros [=]; lia). by apply (inv_node m r Hinv).
  - destruct (inv_root m r Hinv) as (ph & k & Hr & Hk & []). exists ph, k.
    rewrite upd_ne by done. split_and!; [done..|]. by split; rewrite !Hoth by (by intros y).
  - intros p Hp y. rewrite c_act_upd by done. destruct (decide (p = n)) as [->|Hne].
    + rewrite Hnode. unfold gen_at, count_at. rewrite in_tree_pos, upd_eq by done.
      rewrite c_generation_pack, c_count_pack by done. rewrite (decide_False (P := n = parent n)) by lia.
      case_decide; lia.
    + destruct (Hat p Hne) as [-> ->]. destruct (decide (p = parent n)) as [->|Hpar'].
      * rewrite Hpar, Hd, (inv_balance m r Hinv _ Hp y). case_decide; lia.
      * rewrite Hoth by (intros ?; split; congruence).
        rewrite (inv_balance m r Hinv _ Hp y). case_decide; lia.
  - intros p y Hp. pose proof (parent_inhabited n Hn).
    assert (p <> n) by (intros ->; by apply Hp; right).
    assert (p <> parent n) by congruence.
    rewrite Hoth by (intros ?; split; congruence). by apply (inv_out m r Hinv).
  - rewrite upd_ne by done. apply Hinv.
  - rewrite !upd_ne by done. apply Hinv.
  - rewrite upd_ne, Hoth by done. apply Hinv.
Qed.

(** The root word changes, and its tokens with it. *)
Lemma inv_root_step m r ph c ph' c' r' : csnzi_inv m r -> m Root = rpack ph c -> root_ok ph c ->
  ph <> RDrained -> root_ok ph' c' -> ghosts ph' r' ->
  (forall g, mult (Own (-1) g) r' = mult (Own (-1) g) r + if decide (g = 0) then c' - c else 0) ->
  (forall p g, p <> -1 -> mult (Own p g) r' = mult (Own p g) r) ->
  mult SealedT r' = mult SealedT r ->
  csnzi_inv (upd m Root (rpack ph' c')) r'.
Proof.
  intros Hinv Hw [Hc Hok] Hnd [Hc' Hok'] Hgh Hroot Hown Hseal. constructor.
  - intros n Hn. rewrite upd_ne by done. by apply (inv_node m r Hinv).
  - exists ph', c'. by rewrite upd_eq.
  - intros p Hp y. rewrite c_act_upd_other by done. destruct (decide (p = -1)) as [->|Hne].
    + rewrite Hroot, (inv_balance m r Hinv (-1) Hp y). unfold gen_at, count_at. cbn.
      rewrite upd_eq, Hw, (proj1 (rpack_fields ph c Hc)), (proj1 (rpack_fields ph' c' Hc')). case_decide; lia.
    + rewrite Hown, (inv_balance m r Hinv p Hp y) by done. unfold gen_at, count_at.
      destruct (Z.eqb_spec p (-1)); [done|]. by rewrite upd_ne.
  - intros p y Hp. rewrite Hown by (intros ->; by apply Hp; left). by apply (inv_out m r Hinv).
  - rewrite upd_ne by done. apply Hinv.
  - rewrite upd_ne by done. intros Hp. apply (inv_payload m r Hinv) in Hp.
    rewrite Hw in Hp. apply (rpack_inj ph c RDrained 0) in Hp as [-> _]; try done.
  - rewrite upd_ne, Hseal by done. apply Hinv.
Qed.

(** ** An empty root means an empty tree *)

Lemma empty_root m r : csnzi_inv m r -> Z.land (m Root) ROOT_COUNT_MASK = 0 ->
  forall n, in_tree n -> node_count (m (Node n)) = 0.
Proof.
  intros Hinv Hroot. assert (Hzero : forall p, inhabited p -> count_at m p = 0 -> act m p = 0).
  { intros p Hp Hc. pose proof (inv_balance m r Hinv p Hp (gen_at m p)) as Hb.
    rewrite decide_True in Hb by done. pose proof (c_act_nonneg m p).
    pose proof (mult_nonneg (Own p (gen_at m p)) r). lia. }
  intros n. induction n as [n IH] using (well_founded_ind (Z.lt_wf 0)). intros Hn.
  pose proof (c_parent_lt n Hn) as Hlt. pose proof (c_act_child m n Hn) as Hact.
  rewrite (Hzero (parent n)) in Hact.
  - destruct (c_active_bound (m (Node n))) as [Hb _]. unfold active, b2z in *.
    destruct (Z.eqb_spec (node_count (m (Node n))) 0); [done | cbn in *; lia].
  - by apply parent_inhabited.
  - unfold count_at. destruct (parent_inhabited n Hn) as [->|Hp]; [done|].
    rewrite in_tree_pos by done. apply IH; [unfold in_tree in *; lia | done].
Qed.

Lemma empty_no_own m r n g : csnzi_inv m r -> Z.land (m Root) ROOT_COUNT_MASK = 0 ->
  mult (Own n g) r = 0.
Proof.
  intros Hinv Hroot. pose proof (mult_nonneg (Own n g) r).
  assert (Hc : inhabited n \/ ~ inhabited n).
  { unfold inhabited, in_tree. lia. }
  destruct Hc as [Hin|Hout]; [|by apply (inv_out m r Hinv)].
  pose proof (c_act_nonneg m n). pose proof (inv_balance m r Hinv n Hin g) as Hb.
  assert (count_at m n = 0) as Hz.
  { unfold count_at. destruct Hin as [->|Hn]; [done|]. rewrite in_tree_pos by done.
    by apply (empty_root m r). }
  rewrite Hz in Hb. case_decide; lia.
Qed.

(** Without arrivals and without a drain under way, a closed indicator is drained. *)
Lemma no_own_drained m r : csnzi_inv m r -> (forall n g, mult (Own n g) r = 0) ->
  mult TailT r = 0 -> mult ClosingT r = 0 -> 1 <= mult ClosedT r ->
  m Root = ROOT_DRAINED /\ (forall n, in_tree n -> node_count (m (Node n)) = 0) /\
  m (Ext Sealed) = 1 - mult SealT r.
Proof.
  intros Hinv Hown HT HC Hcl. destruct (inv_root m r Hinv) as (ph & c & Hw & Hok & Hgh).
  assert (Hleaf : forall k n, NODES - n <= Z.of_nat k -> 0 <= n ->
    (in_tree n -> node_count (m (Node n)) = 0) /\ child_active m n = 0).
  { induction k as [|k IH]; intros n Hk Hn.
    - split; [unfold in_tree; lia|]. unfold child_active. destruct (Z.ltb_spec n NODES); [lia|].
      by rewrite andb_false_r.
    - assert (Hz : in_tree n -> node_count (m (Node n)) = 0).
      { intros Hin. pose proof (inv_balance m r Hinv n (or_intror Hin) (gen_at m n)) as Hb.
        rewrite Hown, decide_True in Hb by done. unfold count_at in Hb. rewrite in_tree_pos in Hb by done.
        assert (Hch : forall j, n < j -> child_active m j = 0) by (intros j Hj; apply IH; lia).
        unfold act in Hb. rewrite !Hch in Hb by lia. lia. }
      split; [done|]. unfold child_active. destruct (Z.leb_spec 0 n), (Z.ltb_spec n NODES); try done.
      cbn. unfold active. rewrite Hz; [done|]. by split. }
  assert (Hc0 : c = 0).
  { destruct (root_view m r ph c Hinv Hw Hok) as [_ Hr]. specialize (Hr 0).
    assert (Hch : forall j, 0 <= j -> child_active m j = 0)
      by (intros j Hj; apply (Hleaf (Z.to_nat NODES)); lia).
    rewrite Hown, decide_True in Hr by done. unfold act in Hr. rewrite !Hch in Hr by lia. lia. }
  destruct Hgh as [G1 G2 G3 G4 G5]. destruct Hok as [_ Hv].
  assert (ph = RDrained) as -> by (destruct ph; cbn in *; (done || lia)).
  split_and!.
  - by rewrite Hw, Hc0.
  - intros n Hin. apply (Hleaf (Z.to_nat NODES)); [unfold in_tree in Hin; lia.. | done].
  - rewrite (inv_sealed m r Hinv). cbn in G3. lia.
Qed.

(** The initial state. *)
Lemma inv_start m : m Root = ROOT_OPEN -> m Poison = POISON_NONE ->
  (forall n, in_tree n -> m (Node n) = 0) -> m (Ext Payload) = 0 -> m (Ext Sealed) = 0 ->
  csnzi_inv m ∅.
Proof.
  intros Hr Hp Hn Hpay Hseal.
  assert (Hok : word_ok 0 0) by (unfold word_ok; split_and!; (done || lia)).
  assert (Hact : forall p, act m p = 0).
  { intros p. assert (Hc : forall j, child_active m j = 0).
    { intros j. unfold child_active. destruct (Z.leb_spec 0 j), (Z.ltb_spec j NODES); try done.
      cbn. by rewrite Hn by done. }
    unfold act. by rewrite !Hc. }
  constructor; try done.
  - intros n Hin. exists 0, 0. by rewrite Hn.
  - exists ROpen, 0. by split_and!.
  - intros p Hin y. rewrite mult_empty, Hact. case_decide; [|done]. unfold count_at.
    destruct Hin as [->|Hin]; [by rewrite Hr|]. rewrite in_tree_pos, Hn by done. done.
Qed.
End Invariant.

(** ** The operations keep the invariant *)

(** Membership goals on token multisets. *)
Ltac mult_pos t r :=
  is_var r; lazymatch goal with
  | _ : 0 <= mult t r |- _ => fail
  | _ => pose proof (mult_nonneg t r)
  end.
Ltac msolve :=
  intros; autorewrite with mult in *; repeat (case_decide; try discriminate); simplify_eq;
  cbn [b2z is_tail is_closing is_final is_open negb] in *;
  repeat match goal with
  | |- context [mult ?t ?r] => mult_pos t r
  | _ : context [mult ?t ?r] |- _ => mult_pos t r
  end; try done; try lia.

(** Errors with which an admission may be refused: none of them is poison. *)
Definition refusal (e : CsnziError) : Prop :=
  e = Closed \/ e = DepartureTailBusy \/ exists k, e = CapacityExhausted k.

Definition no_own (r : toks) : Prop := forall n g, mult (Own n g) r = 0.

Lemma ghosts_same ph (r r' : toks) :
  (forall t, (forall n g, t <> Own n g) -> mult t r' = mult t r) -> ghosts ph r -> ghosts ph r'.
Proof. intros Hs []. by split; rewrite !Hs. Qed.

Section Specifications.
Variable NODES : Z.
Implicit Types (m : mem) (r fr : toks).
#[local] Abbreviation I := (csnzi_inv NODES).
#[local] Abbreviation prog := (prog (cell client_cell)).

Lemma wp_csnzi_load l r Φ : (forall m fr, I m (r ⊎ fr) -> Φ (m l) r) -> wp I (load l) r Φ.
Proof. intros HΦ. apply wp_load. intros m fr HI. exists r. split; [done | by apply (HΦ m fr)]. Qed.

Lemma wp_healthy r Φ : Φ (Ok tt) r -> wp I ensure_healthy r Φ.
Proof.
  intros HΦ. apply wp_bind, wp_bind, wp_csnzi_load. intros m fr HI.
  by rewrite (inv_poison NODES m _ HI).
Qed.

Lemma wp_healthy_loop {St A} (k : prog (St + result A CsnziError)) r Φ :
  wp I k r Φ -> wp I (do!^ ensure_healthy ;; k) r Φ.
Proof. intros Hk. by apply wp_bind, wp_healthy. Qed.

Lemma c_wp_healthy_try {A} (k : prog (result A CsnziError)) r Φ :
  wp I k r Φ -> wp I (do!? ensure_healthy ;; k) r Φ.
Proof. intros Hk. by apply wp_try_bind, wp_healthy. Qed.

Lemma validate_pack g c : word_ok g c ->
  validate_node_state (pack g c) = (Ret (Ok tt) : prog _).
Proof.
  intros Hok. unfold validate_node_state.
  rewrite reserved_pack, c_count_pack, c_generation_pack by done. cbn [negb Z.eqb orb].
  destruct (Z.eqb_spec c 0); [done|]. destruct Hok as (_ & _ & Hg).
  by destruct (Z.eqb_spec g 0); [lia|].
Qed.

Lemma node_value_in n : in_tree NODES n -> node_value NODES n = (Ret (Node n) : prog _).
Proof.
  unfold in_tree, node_value. intros Hn. destruct (Z.leb_spec 0 n); [|lia].
  by destruct (Z.ltb_spec n NODES); [|lia].
Qed.

(** Loops over samples of the root word: [P] holds of every sample, and a thread
    that holds [r] holds [R ph] once it has sampled the phase [ph]. *)
Section RootLoop.
Context {A : Type} (P : RootPhase -> Z -> Prop) (r : toks) (R : RootPhase -> toks).
Context (Φ : A -> toks -> Prop).

Definition root_exit (x : Z + A) (r' : toks) : Prop :=
  match x with
  | inl w => exists ph c, w = rpack ph c /\ root_ok ph c /\ P ph c /\ r' = R ph
  | inr a => Φ a r'
  end.

Definition sampled : Prop :=
  forall m fr ph c, I m (r ⊎ fr) -> m Root = rpack ph c -> root_ok ph c ->
    P ph c /\ I m (R ph ⊎ fr).

Lemma sample m fr : sampled -> I m (r ⊎ fr) ->
  exists r', I m (r' ⊎ fr) /\ root_exit (inl (m Root)) r'.
Proof.
  intros Hs HI. destruct (inv_root NODES m _ HI) as (ph & c & Hw & Hok & _).
  destruct (Hs m fr ph c HI Hw Hok) as [HP HI']. exists (R ph). split; [done|]. by exists ph, c.
Qed.

Lemma wp_root_loop fuel body : sampled ->
  (forall ph c, root_ok ph c -> P ph c -> wp I (body (rpack ph c)) (R ph) root_exit) ->
  wp I (let! root := load Root in loop fuel body root) r Φ.
Proof.
  intros Hs Hbody. apply wp_bind, wp_load. intros m fr HI.
  destruct (sample m fr Hs HI) as (r' & HI' & Hx). exists r'. split; [done|].
  apply (wp_loop _ (fun w r' => root_exit (inl w) r')); [|done].
  intros w r'' (ph & c & -> & Hok & HP & ->). eapply wp_mono, Hbody; [|done..]. by intros [].
Qed.

Lemma wp_root_cas old new (K : prog (Z + A)) : sampled ->
  (forall m fr, I m (r ⊎ fr) -> m Root = old ->
     exists r', I (upd m Root new) (r' ⊎ fr) /\ wp I K r' root_exit) ->
  wp I (let! x := compare_exchange_weak Root old new in
        match x with Ok _ => K | Err observed => Ret (inl observed) end) r root_exit.
Proof.
  intros Hs Hok. apply wp_bind, wp_cas_weak; [exact Hok|].
  intros m fr HI. by apply sample.
Qed.
End RootLoop.

(** Samples that change no token. *)
Lemma sampled_pure (P : RootPhase -> Z -> Prop) r :
  (forall m fr ph c, I m (r ⊎ fr) -> m Root = rpack ph c -> root_ok ph c -> P ph c) ->
  sampled P r (fun _ => r).
Proof. intros HP m fr ph c HI Hm Hok. split; [by eapply HP | done]. Qed.

(** Contracts of an arrival at, and a departure from, node [p]. *)
Definition arrives (p : Z) (P : prog (result unit CsnziError)) : Prop :=
  forall r, wp I P r (fun x r' =>
    match x with
    | Ok _ => exists g, r' = r ⊎ {[+ Own p g +]}
    | Err e => refusal e /\ r' = r
    end).
Definition depart_post r (x : result TreeDepart CsnziError) r' : Prop :=
  (x = Ok Active /\ r' = r) \/ (x = Ok Tail /\ r' = r ⊎ {[+ TailT +]} /\ no_own r).
Definition departs (p : Z) (P : prog (result TreeDepart CsnziError)) : Prop :=
  forall r g, wp I P (r ⊎ {[+ Own p g +]}) (depart_post r).

Lemma c_root_arrives fuel : arrives (-1) (root_arrive fuel).
Proof.
  intros r. apply (wp_root_loop (fun _ _ => True) _ (fun _ => r)); [by apply sampled_pure|]. intros ph c Hok _.
  apply wp_healthy_loop. apply wp_bind. rewrite decode_rpack by done. cbn [wp fst snd].
  assert (Hupd : ph = ROpen \/ ph = RClosed ->
    wp I (if c =? ROOT_COUNT_MASK then Ret (inr (Err (CapacityExhausted RootCount)))
          else
            let incremented := Z.lor (Z.land (rpack ph c) ROOT_STATUS_MASK) (c + 1) in
            let! x := compare_exchange_weak Root (rpack ph c) incremented in
            match x with Ok _ => Ret (inr (Ok tt)) | Err observed => Ret (inl observed) end) r
       (root_exit (fun _ _ => True) (fun _ => r) (fun x r' => match x with
          | Ok _ => exists g, r' = r ⊎ {[+ Own (-1) g +]} | Err e => refusal e /\ r' = r end))).
  { intros Hph. destruct (Z.eqb_spec c ROOT_COUNT_MASK) as [|Hmax].
    { split; [|done]. right. right. by eexists. }
    cbv zeta. pose proof (proj1 Hok) as Hc.
    rewrite (proj2 (rpack_fields ph c Hc)), rpack_lor by lia. apply wp_root_cas; [by apply sampled_pure|].
    intros m fr HI Hm. exists (r ⊎ {[+ Own (-1) 0 +]}). split; [|by exists 0].
    destruct (root_view NODES m _ ph c HI Hm Hok) as [Hgh _].
    apply (inv_root_step NODES m (r ⊎ fr) ph c); try done; try msolve.
    - by destruct Hph as [-> | ->].
    - destruct Hok as [Hb Hv]. split; [lia|]. destruct Hph as [-> | ->]; [done | lia].
    - eapply ghosts_same, Hgh. intros t Ht. msolve. by destruct (Ht (-1) 0). }
  destruct ph; try (split; [|done]; unfold refusal; by auto).
  - by apply Hupd; left.
  - destruct (Z.eqb_spec c 0); [split; [by left | done] |]. by apply Hupd; right.
Qed.

Lemma own_sampled r g : sampled (fun ph c => (ph = ROpen \/ ph = RClosed) /\ 1 <= c)
  (r ⊎ {[+ Own (-1) g +]}) (fun _ => r ⊎ {[+ Own (-1) g +]}).
Proof.
  apply sampled_pure. intros m fr ph c HI Hm Hok. destruct (root_view NODES m _ ph c HI Hm Hok) as [_ Hown].
  specialize (Hown g). pose proof (c_act_nonneg NODES m (-1)).
  assert (1 <= c) by (revert Hown; msolve). split; [|done].
  destruct Hok as [_ Hv]. destruct ph; auto; lia.
Qed.

Lemma c_root_departs fuel : departs (-1) (root_depart fuel).
Proof.
  intros r g. apply (wp_root_loop _ _ _ _ fuel _ (own_sampled r g)).
  intros ph c Hok [Hph Hc1]. pose proof (proj1 Hok) as Hc.
  apply wp_healthy_loop. apply wp_bind. rewrite decode_rpack by done. cbn [wp fst snd].
  rewrite bool_decide_eq_true_2 by done. cbn [negb orb]. destruct (Z.eqb_spec c 0); [lia|].
  assert (Hfin : forall m fr, I m (r ⊎ {[+ Own (-1) g +]} ⊎ fr) -> m Root = rpack ph c ->
    g = 0 /\ ghosts ph (r ⊎ {[+ Own (-1) g +]} ⊎ fr)).
  { intros m fr HI Hm. split; [|by apply (root_view NODES m _ ph c)].
    apply (c_own_root NODES m _ g HI). msolve. }
  destruct (Z.eqb_spec c 1) as [->|Hc2].
  - (* the last contribution: the thread takes the tail *)
    set (next := if decide (ph = ROpen) then ROpenTail else RClosedTail).
    assert (Hnext : match ph with ROpen => Ret ROOT_OPEN_TAIL | RClosed => Ret ROOT_CLOSED_TAIL
                    | _ => Panic end = (Ret (rpack next 0) : prog Z)).
    { by destruct Hph as [-> | ->]. }
    rewrite Hnext. cbn [bind]. apply wp_root_cas; [apply own_sampled|].
    intros m fr HI Hm. destruct (Hfin m fr HI Hm) as [-> Hgh].
    exists (r ⊎ {[+ TailT +]}).
    assert (HI' : I (upd m Root (rpack next 0)) (r ⊎ {[+ TailT +]} ⊎ fr)).
    { apply (inv_root_step NODES m _ ph 1 next 0 _ HI Hm Hok); try msolve.
      - by destruct Hph as [-> | ->].
      - unfold next. case_decide; done.
      - destruct Hgh. unfold next. destruct Hph as [-> | ->]; split; msolve. }
    split; [done|]. right. split_and!; [done..|]. intros n' g'.
    assert (Hz : Z.land (upd m Root (rpack next 0) Root) ROOT_COUNT_MASK = 0).
    { rewrite upd_eq. by apply rpack_fields. }
    pose proof (empty_no_own NODES _ _ n' g' HI' Hz) as Hno. revert Hno. msolve.
  - rewrite (proj2 (rpack_fields ph c Hc)), rpack_lor by lia. cbn [bind].
    apply wp_root_cas; [apply own_sampled|].
    intros m fr HI Hm. destruct (Hfin m fr HI Hm) as [-> Hgh]. exists r. split; [|by left].
    apply (inv_root_step NODES m _ ph c ph (c - 1) _ HI Hm Hok); try msolve.
    + by destruct Hph as [-> | ->].
    + destruct Hok as [Hb Hv]. split; [lia|]. destruct Hph as [-> | ->]; [done | lia].
    + eapply ghosts_same, Hgh. intros t Ht. msolve. by destruct (Ht (-1) 0).
Qed.

(** ** Steps on the tree *)

Lemma node_dec m r fr n g c : I m (r ⊎ {[+ Own n g +]} ⊎ fr) -> in_tree NODES n ->
  m (Node n) = pack g c -> word_ok g c -> 2 <= c ->
  I (upd m (Node n) (pack g (c - 1))) (r ⊎ fr).
Proof.
  intros HI Hn Hw Hok Hc. pose proof (c_parent_lt NODES n Hn).
  pose proof (c_node_view NODES m _ n g c HI Hn Hw Hok) as Hv.
  apply (inv_node_step NODES m _ n g c g (c - 1) _ HI Hn Hw Hok).
  - destruct Hok as (Hg & Hb & Hg1). split_and!; lia.
  - intros y. specialize (Hv y). revert Hv. msolve.
  - intros y. destruct (Z.eqb_spec c 0), (Z.eqb_spec (c - 1) 0); msolve.
  - intros t Ht. destruct (Ht g). msolve.
Qed.

Lemma node_dec_last m r fr n g : I m (r ⊎ {[+ Own n g +]} ⊎ fr) -> in_tree NODES n ->
  m (Node n) = pack g 1 -> word_ok g 1 ->
  I (upd m (Node n) (pack g 0)) (r ⊎ {[+ Own (parent n) (gen_at m (parent n)) +]} ⊎ fr).
Proof.
  intros HI Hn Hw Hok. pose proof (c_parent_lt NODES n Hn). pose proof (c_act_nonneg NODES m n).
  pose proof (c_node_view NODES m _ n g 1 HI Hn Hw Hok) as Hv.
  assert (Hact : act NODES m n = 0) by (specialize (Hv g); revert Hv; msolve).
  apply (inv_node_step NODES m _ n g 1 g 0 _ HI Hn Hw Hok).
  - destruct Hok as (Hg & Hb & Hg1). split_and!; (done || lia).
  - intros y. specialize (Hv y). revert Hv. msolve.
  - intros y. cbn [Z.eqb negb b2z]. msolve.
  - intros t Ht. destruct (Ht g), (Ht (gen_at m (parent n))). msolve.
Qed.

Lemma node_inc m r fr n g c : I m (r ⊎ fr) -> in_tree NODES n ->
  m (Node n) = pack g c -> word_ok g c -> 1 <= c < NODE_COUNT_MASK ->
  I (upd m (Node n) (pack g (c + 1))) (r ⊎ {[+ Own n g +]} ⊎ fr).
Proof.
  intros HI Hn Hw Hok Hc. pose proof (c_parent_lt NODES n Hn).
  pose proof (c_node_view NODES m _ n g c HI Hn Hw Hok) as Hv.
  apply (inv_node_step NODES m _ n g c g (c + 1) _ HI Hn Hw Hok).
  - destruct Hok as (Hg & Hb & Hg1). split_and!; lia.
  - intros y. specialize (Hv y). revert Hv. msolve.
  - intros y. destruct (Z.eqb_spec c 0), (Z.eqb_spec (c + 1) 0); msolve.
  - intros t Ht. destruct (Ht g). msolve.
Qed.

(** Activating an idle node spends the arrival made at its parent. *)
Lemma node_activate m r fr n g g' gp : I m (r ⊎ {[+ Own (parent n) gp +]} ⊎ fr) ->
  in_tree NODES n -> m (Node n) = pack g 0 -> word_ok g 0 -> word_ok g' 1 ->
  I (upd m (Node n) (pack g' 1)) (r ⊎ {[+ Own n g' +]} ⊎ fr).
Proof.
  intros HI Hn Hw Hok Hok'. pose proof (c_parent_lt NODES n Hn). pose proof (c_act_nonneg NODES m n).
  pose proof (c_node_view NODES m _ n g 0 HI Hn Hw Hok) as Hv.
  assert (Hact : act NODES m n = 0) by (specialize (Hv g); revert Hv; msolve).
  assert (gp = gen_at m (parent n)) as Hgp.
  { pose proof (inv_balance NODES m _ HI _ (parent_inhabited NODES n Hn) gp) as Hb.
    case_decide; [done|]. revert Hb. msolve. }
  apply (inv_node_step NODES m _ n g 0 g' 1 _ HI Hn Hw Hok Hok').
  - intros y. specialize (Hv y). revert Hv. msolve.
  - intros y. cbn [Z.eqb negb b2z]. subst gp. msolve.
  - intros t Ht. destruct (Ht g'), (Ht gp). msolve.
Qed.

Lemma c_parent_of_small n : in_tree NODES n -> n < FANOUT -> parent n = -1.
Proof. unfold in_tree, FANOUT, parent. intros. dlia. Qed.

Lemma c_parent_of_large n : in_tree NODES n -> FANOUT <= n ->
  in_tree NODES (parent n) /\ (n - FANOUT) / FANOUT = parent n.
Proof. unfold in_tree, FANOUT, parent. intros. split; dlia. Qed.

Lemma c_word_ok_pred g c : word_ok g c -> 1 <= c -> node_state g (c - 1) = pack g (c - 1).
Proof. intros (_ & Hc & _) H1. apply pack_state. lia. Qed.

(** The departure loop of one node, given a correct parent departure. *)
Lemma c_depart_loop_spec fuel dp n expected r g : in_tree NODES n -> departs (parent n) dp ->
  (expected = None \/ exists leaf, expected = Some (leaf, g)) ->
  wp I (loop fuel (depart_node_body NODES dp n expected) tt) (r ⊎ {[+ Own n g +]}) (depart_post r).
Proof.
  intros Hn Hdp Hexp.
  apply (wp_loop _ (fun _ r' => r' = r ⊎ {[+ Own n g +]})); [|done]. intros [] ? ->.
  apply wp_healthy_loop. rewrite node_value_in by done. cbn [bind].
  apply wp_bind, wp_csnzi_load. intros m fr HI.
  destruct (c_own_word NODES m _ n g HI Hn) as (c & Hw & Hc & Hok); [msolve|].
  rewrite Hw, validate_pack, c_count_pack, c_generation_pack by done.
  apply wp_bind, wp_ret. destruct (Z.eqb_spec c 0) as [|Hc0]; [lia|].
  apply wp_bind. apply wp_mono with (fun x r' => r' = r ⊎ {[+ Own n g +]} /\ x = Ok tt).
  2: { destruct Hexp as [->|(lf & ->)]; [done|]. by rewrite Z.eqb_refl. }
  intros [[]|e] r' [-> Hx]; [|done]. rewrite c_word_ok_pred by done.
  apply wp_bind, wp_cas_weak.
  - intros m' fr' HI' Hm'. destruct (Z.eqb_spec c 1) as [->|Hc1].
    + exists (r ⊎ {[+ Own (parent n) (gen_at m' (parent n)) +]}).
      split; [by apply node_dec_last|]. apply wp_bind. eapply wp_mono, Hdp. by intros x r'.
    + exists r. split; [apply (node_dec _ r fr' n g c HI'); (done || lia) | by left].
  - intros m' fr' HI'. by exists (r ⊎ {[+ Own n g +]}).
Qed.

Lemma c_depart_node_at_spec fuel depth n expected r g : in_tree NODES n ->
  (expected = None \/ exists leaf, expected = Some (leaf, g)) ->
  wp I (depart_node_at NODES fuel depth n expected) (r ⊎ {[+ Own n g +]}) (depart_post r).
Proof.
  revert n expected r g. induction depth as [|depth IH]; intros n expected r g Hn Hexp; [done|].
  cbn [depart_node_at]. apply c_depart_loop_spec; try done. destruct (Z.ltb_spec n FANOUT).
  - rewrite c_parent_of_small by done. apply c_root_departs.
  - destruct (c_parent_of_large n Hn) as [Hp ->]; [done|]. intros r' g'. by apply IH; [|left].
Qed.

Lemma c_depart_parent_departs fuel n : in_tree NODES n -> departs (parent n) (depart_parent NODES fuel n).
Proof.
  intros Hn. unfold depart_parent. destruct (Z.ltb_spec n FANOUT).
  - rewrite c_parent_of_small by done. apply c_root_departs.
  - destruct (c_parent_of_large n Hn) as [Hp ->]; [done|]. intros r' g'.
    apply c_depart_node_at_spec; [done | by left].
Qed.

(** ** Arrival *)

Definition arrive_post (n : Z) r (x : result Z CsnziError) r' : Prop :=
  match x with
  | Ok g => r' = r ⊎ {[+ Own n g +]} /\ 1 <= g <= NODE_GENERATION_MASK
  | Err e => refusal e /\ r' = r
  end.

(** The tokens at the head of the loop: the parent arrival, once it is made. *)
Definition arrival_state (n : Z) r (arrived : bool) r' : Prop :=
  if arrived then exists gp, r' = r ⊎ {[+ Own (parent n) gp +]} else r' = r.

Lemma compensation fuel n r g gp : in_tree NODES n -> 1 <= g <= NODE_GENERATION_MASK ->
  wp I (let!^ d := depart_parent NODES fuel n in
        match d with
        | Tail => let! e := poison_with CompensationSelectedTail in Ret (inr (Err e))
        | Active => Ret (inr (Ok g))
        end)
    (r ⊎ {[+ Own n g +]} ⊎ {[+ Own (parent n) gp +]})
    (fun x r' => match x with inl b => arrival_state n r b r' | inr a => arrive_post n r a r' end).
Proof.
  intros Hn Hg. apply wp_bind. eapply wp_mono, (c_depart_parent_departs fuel n Hn).
  intros x r' [[-> ->]|(-> & _ & Hno)]; [by split|].
  specialize (Hno n g). revert Hno. msolve.
Qed.

Lemma next_generation_ok g : word_ok g 0 ->
  word_ok (if g =? NODE_GENERATION_MASK then 1 else g + 1) 1.
Proof.
  intros (Hg & _ & _). unfold word_ok.
  destruct (Z.eqb_spec g NODE_GENERATION_MASK); split_and!; try lia; by vm_compute.
Qed.

Lemma c_arrive_body_spec fuel ap n r arrived r' : in_tree NODES n -> arrives (parent n) ap ->
  arrival_state n r arrived r' ->
  wp I (arrive_node_body NODES fuel ap n arrived) r' (fun x r'' =>
    match x with inl b => arrival_state n r b r'' | inr a => arrive_post n r a r'' end).
Proof.
  intros Hn Hap Hst. apply wp_healthy_loop. rewrite node_value_in by done. cbn [bind].
  apply wp_bind, wp_csnzi_load. intros m fr HI.
  destruct (inv_node NODES m _ HI n Hn) as (g & c & Hw & Hok).
  rewrite Hw, validate_pack, c_count_pack, c_generation_pack by done.
  apply wp_bind, wp_ret. pose proof Hok as (Hg & Hb & Hg1).
  destruct (Z.eqb_spec c 0) as [->|Hc].
  - destruct arrived; cbn [andb negb] in *.
    + destruct Hst as (gp & ->). change (0 =? NODE_COUNT_MASK) with false. cbv iota zeta.
      pose proof (next_generation_ok g Hok) as Hok'.
      set (g' := if g =? NODE_GENERATION_MASK then 1 else g + 1) in *.
      rewrite pack_state by (by vm_compute). apply wp_bind, wp_cas_weak.
      * intros m' fr' HI' Hm'. exists (r ⊎ {[+ Own n g' +]}).
        split; [by apply (node_activate m' r fr' n g g' gp)|]. cbn. split; [done|].
        destruct Hok' as (? & _ & ?). lia.
      * intros m' fr' HI'. eexists. split; [done|]. cbn. by exists gp.
    + rewrite Hst. apply wp_bind. eapply wp_mono, Hap.
      intros [[]|e] r''; [|by intros [? ->]]. intros (gp & ->). by exists gp.
  - cbn [andb]. destruct (Z.eqb_spec c NODE_COUNT_MASK) as [|Hmax].
    { destruct arrived; cbn; [done|]. rewrite Hst. split; [|done]. right. right. by eexists. }
    rewrite pack_state by lia. apply wp_bind, wp_cas_weak.
    + intros m' fr' HI' Hm'. exists (r' ⊎ {[+ Own n g +]}).
      split; [by apply node_inc; try done; lia|]. destruct arrived; cbn [andb negb].
      * destruct Hst as (gp & ->).
        replace (r ⊎ {[+ Own (parent n) gp +]} ⊎ {[+ Own n g +]})
          with (r ⊎ {[+ Own n g +]} ⊎ {[+ Own (parent n) gp +]}) by multiset_solver.
        apply compensation; [done | lia].
      * rewrite Hst. split; [done | lia].
    + intros m' fr' HI'. exists r'. by split.
Qed.

Lemma c_arrive_node_at_spec fuel depth n r : in_tree NODES n ->
  wp I (arrive_node_at NODES fuel depth n) r (arrive_post n r).
Proof.
  revert n r. induction depth as [|depth IH]; intros n r Hn; [done|].
  cbn [arrive_node_at]. apply (wp_loop _ (arrival_state n r)); [|done].
  intros b r' Hst. eapply wp_mono, (c_arrive_body_spec fuel _ n r b r' Hn); [|clear b r' Hst|done].
  { by intros [b'|a] r'' Hx. }
  destruct (Z.ltb_spec n FANOUT).
  - rewrite c_parent_of_small by done. apply c_root_arrives.
  - destruct (c_parent_of_large n Hn) as [Hp ->]; [done|]. intros r'.
    apply wp_try_bind. eapply wp_mono, (IH _ _ Hp). intros [g|e] r''; [|done].
    intros [-> _]. by exists g.
Qed.

(** ** Sealing the drain *)

(** While a thread holds [TailT] or [ClosingT] the whole tree is idle. *)
Definition quiet r : Prop := forall m fr, I m (r ⊎ fr) -> Z.land (m Root) ROOT_COUNT_MASK = 0.

Lemma quiet_root m r ph c : I m r -> m Root = rpack ph c -> root_ok ph c -> c = 0 ->
  Z.land (m Root) ROOT_COUNT_MASK = 0.
Proof. intros HI -> [Hc _] ->. by apply rpack_fields. Qed.

Lemma tail_phase m r fr ph c : I m (r ⊎ {[+ TailT +]} ⊎ fr) -> m Root = rpack ph c ->
  root_ok ph c -> is_tail ph = true /\ c = 0.
Proof.
  intros HI Hm Hok. destruct (root_view NODES m _ ph c HI Hm Hok) as [Hgh _].
  pose proof (ghost_tail _ _ Hgh) as Ht.
  destruct Hok as [_ Hv]. destruct ph; cbn in *; (split; [|try (done || lia)]); revert Ht; msolve.
Qed.

Lemma closing_phase m r fr ph c : I m (r ⊎ {[+ ClosingT +]} ⊎ fr) -> m Root = rpack ph c ->
  root_ok ph c -> ph = RClosing /\ c = 0.
Proof.
  intros HI Hm Hok. destruct (root_view NODES m _ ph c HI Hm Hok) as [Hgh _].
  pose proof (ghost_closing _ _ Hgh) as Ht.
  destruct Hok as [_ Hv]. destruct ph; cbn in *; (split; [|try (done || lia)]); revert Ht; msolve.
Qed.

Lemma quiet_tail r : quiet (r ⊎ {[+ TailT +]}).
Proof.
  intros m fr HI. destruct (inv_root NODES m _ HI) as (ph & c & Hw & Hok & _).
  eapply quiet_root; try done. by eapply tail_phase.
Qed.

Lemma quiet_closing r : quiet (r ⊎ {[+ ClosingT +]}).
Proof.
  intros m fr HI. destruct (inv_root NODES m _ HI) as (ph & c & Hw & Hok & _).
  eapply quiet_root; try done. by eapply closing_phase.
Qed.

Lemma verify_spec r Φ : quiet r -> Φ (Ok tt) r -> wp I (verify_nodes_idle NODES) r Φ.
Proof.
  intros Hq HΦ. unfold verify_nodes_idle.
  assert (Hscan : forall k i, 0 <= i -> i + Z.of_nat k <= Z.max 0 NODES -> wp I (verify_nodes NODES k i) r Φ).
  { induction k as [|k IH]; intros i Hi Hk; [done|]. cbn [verify_nodes].
    assert (Hn : in_tree NODES i) by (unfold in_tree; lia).
    rewrite node_value_in by done. cbn [bind]. apply wp_bind, wp_csnzi_load. intros m fr HI.
    destruct (inv_node NODES m _ HI i Hn) as (g & c & Hw & Hok).
    pose proof (empty_root NODES m _ HI (Hq m fr HI) i Hn) as Hz.
    rewrite Hw in *. rewrite validate_pack by done. apply wp_try_bind, wp_ret.
    rewrite Hz. apply IH; lia. }
  apply Hscan; lia.
Qed.

Definition seal_post r (x : result DepartOutcome CsnziError) r' : Prop :=
  (x = Ok StillActive /\ r' = r) \/ (x = Ok Drained /\ r' = r ⊎ {[+ SealT +]}).

Lemma finish_tail_spec fuel r :
  wp I (finish_departure_tail NODES fuel) (r ⊎ {[+ TailT +]}) (seal_post r).
Proof.
  apply wp_try_bind, verify_spec; [apply quiet_tail|].
  assert (Hs : sampled (fun ph c => is_tail ph = true /\ c = 0) (r ⊎ {[+ TailT +]})
    (fun _ => r ⊎ {[+ TailT +]})).
  { apply sampled_pure. intros m fr ph c. apply tail_phase. }
  apply (wp_root_loop _ _ _ _ fuel _ Hs). intros ph c Hok [Hph ->].
  apply wp_healthy_loop, wp_bind. rewrite decode_rpack by done. cbn [wp fst snd Z.eqb negb].
  destruct ph; try done; (apply wp_root_cas; [done|]); intros m fr HI Hm.
  - exists r. split; [|by left]. destruct (root_view NODES m _ _ _ HI Hm Hok) as [[] _].
    apply (inv_root_step NODES m _ ROpenTail 0 ROpen 0 _ HI Hm Hok); try done; try msolve.
    split; msolve.
  - exists (r ⊎ {[+ SealT +]}). split; [|by right].
    destruct (root_view NODES m _ _ _ HI Hm Hok) as [[] _].
    apply (inv_root_step NODES m _ RClosedTail 0 RDrained 0 _ HI Hm Hok); try done; try msolve.
    split; msolve.
Qed.

(** Closing: the caller learns that the indicator is closed, and wins the seal
    when it closed an empty one.  Closing never fails. *)
Definition close_post r (x : result CloseOutcome CsnziError) r' : Prop :=
  match x with
  | Ok CloseDrained => r' = r ⊎ {[+ ClosedT +]} ⊎ {[+ SealT +]}
  | Ok _ => r' = r ⊎ {[+ ClosedT +]}
  | Err _ => False
  end.

Lemma learn_closed m r fr ph c : I m (r ⊎ fr) -> m Root = rpack ph c -> root_ok ph c ->
  is_open ph = false -> I m (r ⊎ {[+ ClosedT +]} ⊎ fr).
Proof.
  intros HI Hm Hok Hph. destruct (root_view NODES m _ ph c HI Hm Hok) as [[H1 H2 H3 _ H5] _].
  destruct HI as [I1 I2 I3 I4 I5 I6 I7]. split; try done.
  - exists ph, c. split_and!; try done. split; try msolve. rewrite Hph. cbn. lia.
  - intros p Hp y. rewrite <- (I3 p Hp y). msolve.
  - intros p y Hp. rewrite <- (I4 p y Hp). msolve.
  - rewrite I7. msolve.
Qed.

Definition close_hold r (ph : RootPhase) : toks :=
  if is_open ph then r else r ⊎ {[+ ClosedT +]}.

Lemma close_sampled r : sampled (fun _ _ => True) r (close_hold r).
Proof.
  intros m fr ph c HI Hm Hok. split; [done|]. unfold close_hold.
  destruct (is_open ph) eqn:Hph; [done|]. by eapply learn_closed.
Qed.

(** Verifying and sealing an empty root that this call has closed. *)
Lemma close_seal r :
  wp I (do!^ verify_nodes_idle NODES ;;
        let! y := compare_exchange Root ROOT_CLOSING ROOT_DRAINED in
        match y with
        | Ok _ => Ret (inr (Ok CloseDrained))
        | Err _ => let! e := poison_with RootStateCorrupt in Ret (inr (Err e))
        end)
    (r ⊎ {[+ ClosedT +]} ⊎ {[+ ClosingT +]})
    (root_exit (fun _ _ => True) (close_hold r) (close_post r)).
Proof.
  apply wp_bind, verify_spec; [apply quiet_closing|]. apply wp_bind, wp_cas; intros m fr HI Hm.
  - exists (r ⊎ {[+ ClosedT +]} ⊎ {[+ SealT +]}). split; [|done].
    assert (Hok : root_ok RClosing 0) by (by vm_compute).
    destruct (root_view NODES m _ RClosing 0 HI Hm Hok) as [[] _].
    apply (inv_root_step NODES m _ RClosing 0 RDrained 0 _ HI Hm Hok); try done; try msolve.
    split; msolve.
  - destruct Hm. destruct (inv_root NODES m _ HI) as (ph & c & Hw & Hok & _).
    by destruct (closing_phase m _ fr ph c HI Hw Hok) as [-> ->].
Qed.

Lemma c_close_spec fuel r : wp I (close NODES fuel) r (close_post r).
Proof.
  apply c_wp_healthy_try, (wp_root_loop _ _ _ _ fuel _ (close_sampled r)). intros ph c Hok _.
  apply wp_bind. rewrite decode_rpack by done. cbn [wp fst snd]. unfold close_hold at 1.
  destruct ph; cbn [is_open]; try done.
  - destruct (Z.eqb_spec c 0) as [->|Hc].
    + apply wp_root_cas; [apply close_sampled|]. intros m fr HI Hm.
      exists (r ⊎ {[+ ClosedT +]} ⊎ {[+ ClosingT +]}). split; [|apply close_seal].
      destruct (root_view NODES m _ _ _ HI Hm Hok) as [[] _].
      apply (inv_root_step NODES m _ ROpen 0 RClosing 0 _ HI Hm Hok); try done; try msolve.
      split; msolve.
    + pose proof (proj1 Hok). change ROOT_CLOSED with (status_code RClosed * 2 ^ 61).
      rewrite rpack_lor by done. apply wp_root_cas; [apply close_sampled|]. intros m fr HI Hm.
      exists (r ⊎ {[+ ClosedT +]}). split; [|done].
      destruct (root_view NODES m _ _ _ HI Hm Hok) as [[] _].
      apply (inv_root_step NODES m _ ROpen c RClosed c _ HI Hm Hok); try done; try msolve.
      * split; [done | lia].
      * split; msolve.
  - apply wp_root_cas; [apply close_sampled|]. intros m fr HI Hm.
    exists (r ⊎ {[+ ClosedT +]}). split; [|done].
    destruct Hok as [Hc Hv]. subst c.
    destruct (root_view NODES m _ _ _ HI Hm (conj Hc eq_refl)) as [[] _].
    apply (inv_root_step NODES m _ ROpenTail 0 RClosedTail 0 _ HI Hm (conj Hc eq_refl)); try done; try msolve.
    split; msolve.
Qed.

(** ** The public operations *)

Lemma c_leaf_node_in leaf n : 0 <= leaf -> leaf_node NODES leaf = Ok n -> in_tree NODES n.
Proof.
  intros Hl Hn. unfold leaf_node in Hn. destruct (Z.leb_spec (leaf_count NODES) leaf) as [|Hlt]; [done|].
  injection Hn as <-. revert Hlt. unfold leaf_count, layout_leaf_count, leaf_start.
  destruct (is_valid_node_count NODES) eqn:Hv; cbn [negb]; [|lia].
  unfold in_tree, is_valid_node_count, FANOUT in *. destruct (Z.ltb_spec NODES 4); [done|]. dlia.
Qed.

(** The token a participant holds between its arrival and its departure. *)
Definition owned (t : CsnziToken) : toks := {[+ Own (leaf_start NODES + leaf t) (generation t) +]}.

Definition issued (t : CsnziToken) : Prop :=
  0 <= leaf t < leaf_count NODES /\ leaf t < MAX_LEAVES /\
  1 <= generation t <= NODE_GENERATION_MASK.

Definition enter_post lf r (x : result CsnziToken CsnziError) r' : Prop :=
  match x with
  | Ok t => leaf t = lf /\ issued t /\ r' = r ⊎ owned t
  | Err e => (e = InvalidLeaf lf (leaf_count NODES) \/ refusal e) /\ r' = r
  end.

Lemma observe_open_spec r :
  wp I observe_open r (fun x r' => r' = r /\ match x with Ok _ => True | Err e => refusal e end).
Proof.
  apply wp_bind, wp_csnzi_load. intros m fr HI.
  destruct (inv_root NODES m _ HI) as (ph & c & -> & Hok & _).
  apply wp_try_bind. rewrite decode_rpack by done. unfold refusal. by destruct ph; cbn; auto.
Qed.

Lemma c_try_enter_spec fuel lf r : 0 <= lf -> leaf_count NODES <= MAX_LEAVES ->
  wp I (try_enter NODES fuel lf) r (enter_post lf r).
Proof.
  intros Hl Hmax. apply wp_try_bind, wp_ret. destruct (leaf_node NODES lf) as [n|e] eqn:Hn.
  2: { unfold leaf_node in Hn. destruct (_ <=? _); simplify_eq. split; [by left | done]. }
  apply c_wp_healthy_try, wp_try_bind. pose proof (c_leaf_node_in lf n Hl Hn) as Hin.
  assert (n = leaf_start NODES + lf /\ lf < leaf_count NODES) as [-> Hlt].
  { unfold leaf_node in Hn. by destruct (Z.leb_spec (leaf_count NODES) lf); simplify_eq. }
  eapply wp_mono, observe_open_spec. intros [[]|e] r' [-> He]; [|split; [by right | done]].
  apply wp_try_bind. eapply wp_mono, (c_arrive_node_at_spec fuel _ _ r Hin).
  intros [g|e] r'; [|intros [He' ->]; split; [by right | done]].
  intros [-> Hg]. apply c_wp_healthy_try. unfold MAX_LEAVES, TOKEN_LEAF_BITS in Hmax. cbn.
  unfold wrap. rewrite Z.mod_small by lia. unfold issued, MAX_LEAVES, TOKEN_LEAF_BITS. cbn.
  split_and!; try done; lia.
Qed.

Lemma depart_spec fuel t r : issued t ->
  wp I (depart NODES fuel t) (r ⊎ owned t) (seal_post r).
Proof.
  intros (Hl & _ & _).
  assert (Hn : leaf_node NODES (leaf t) = Ok (leaf_start NODES + leaf t)).
  { unfold leaf_node. by destruct (Z.leb_spec (leaf_count NODES) (leaf t)); [lia|]. }
  unfold depart, depart_token. rewrite Hn. apply wp_try_bind, wp_ret, c_wp_healthy_try, wp_try_bind.
  eapply wp_mono, c_depart_node_at_spec.
  - intros x r' [[-> ->]|(-> & -> & _)]; [by left | apply finish_tail_spec].
  - apply (c_leaf_node_in (leaf t)); [lia | done].
  - right. by exists (leaf t).
Qed.

Lemma learn_final m r fr : I m (r ⊎ fr) -> m Root = ROOT_DRAINED ->
  I m (r ⊎ {[+ FinalT +]} ⊎ fr).
Proof.
  intros HI Hm. assert (Hok : root_ok RDrained 0) by (by vm_compute).
  destruct (root_view NODES m _ RDrained 0 HI Hm Hok) as [[] _].
  destruct HI as [I1 I2 I3 I4 I5 I6 I7]. split; try done.
  - exists RDrained, 0. split_and!; try done. split; msolve.
  - intros p Hp y. rewrite <- (I3 p Hp y). msolve.
  - intros p y Hp. rewrite <- (I4 p y Hp). msolve.
  - rewrite I7. msolve.
Qed.

Lemma c_is_drained_spec r :
  wp I is_drained r (fun b r' => r' = if b then r ⊎ {[+ FinalT +]} else r).
Proof.
  apply wp_bind, wp_load. intros m fr HI.
  destruct (Z.eqb_spec (m Root) ROOT_DRAINED) as [Hd|]; [|by exists r].
  exists (r ⊎ {[+ FinalT +]}). split; [by apply learn_final|].
  apply wp_bind, wp_csnzi_load. intros m' fr' HI'. by rewrite (inv_poison NODES m' _ HI').
Qed.
End Specifications.
