(* ===== verification/CsnziCorrect.v ===== *)
(** The theorems of the closable indicator, for any number of participants,
    closers and observers in every interleaving: no use of the protected storage
    after a drain, no poison, exactly one sealing operation, and no lost drain. *)

From S2P Require Import Prelude Conc Snzi.
From S2P Require Import Csnzi CsnziInv.

(** ** The clients *)

#[local] Abbreviation prog := (prog (cell client_cell)).

(** An access to the protected storage, which must not have been reclaimed. *)
Definition use_payload : prog unit :=
  let! v := load (Ext Payload) in if v =? 0 then Ret tt else Panic.

Definition reclaim : prog unit := store (Ext Payload) 1.

(** What the operation that reports the drain does with the right it has won:
    nobody else may have won it before. *)
Definition seal_once : prog unit :=
  let! s := fetch_or (Ext Sealed) 1 in if s =? 0 then reclaim else Panic.

Definition after_depart (x : result DepartOutcome CsnziError) : prog bool :=
  match x with
  | Ok Drained => do! seal_once ;; Ret false
  | Ok StillActive => Ret false
  | Err _ => Panic
  end.

Inductive role := Participant (lf : nat) | RawParticipant (lf : nat) | Closer | Watcher.

(** One thread.  A participant enters, uses the storage and departs, with its
    token or with the token's scalar form; a closer closes; a watcher reclaims
    the storage when it sees the indicator drained.  A departure or a close that
    fails is a panic.  Closers return [true]. *)
Definition agent (NODES : Z) (fuel : nat) (who : role) : prog bool :=
  match who with
  | Participant lf =>
      let! x := try_enter NODES fuel (Z.of_nat lf) in
      match x with
      | Ok t => do! use_payload ;; let! d := depart NODES fuel t in after_depart d
      | Err _ => Ret false
      end
  | RawParticipant lf =>
      let! x := try_enter NODES fuel (Z.of_nat lf) in
      match x with
      | Ok t => do! use_payload ;; let! d := depart_raw NODES fuel (into_raw t) in after_depart d
      | Err _ => Ret false
      end
  | Closer =>
      let! x := close NODES fuel in
      match x with
      | Ok CloseDrained => do! seal_once ;; Ret true
      | Ok _ => Ret true
      | Err _ => Panic
      end
  | Watcher =>
      let! d := is_drained in if d then do! reclaim ;; Ret false else Ret false
  end.

(** ** Geometry *)

Lemma leaf_count_max N : is_valid_node_count N = true -> leaf_count N <= MAX_LEAVES.
Proof.
  intros Hv. assert (Hv' : Snzi.is_valid_node_count N = true) by exact Hv.
  apply valid_node_count_iff in Hv' as (k & Hk & ->).
  destruct (leaf_count_level k Hk) as [Hc _].
  change (leaf_count (level_nodes k)) with (Snzi.layout_leaf_count (level_nodes k)). rewrite Hc.
  pose proof (Z.pow_le_mono_r 4 k 8). change MAX_LEAVES with (4 ^ 8). lia.
Qed.

(** ** Initialization *)

Lemma initialize_nodes_solo n i (m : mem) Φ :
  (forall m', (forall j, i <= j < i + Z.of_nat n -> m' (Node j) = 0) ->
     (forall l, (forall j, i <= j < i + Z.of_nat n -> l <> Node j) -> m' l = m l) -> Φ tt m') ->
  solo (initialize_nodes n i) m Φ.
Proof.
  revert i m. induction n as [|n IH]; intros i m HΦ; cbn [initialize_nodes].
  { apply HΦ; [lia | done]. }
  rewrite solo_bind, solo_store. apply IH. intros m' Hz Hsame. apply HΦ.
  - intros j Hj. destruct (decide (j = i)) as [->|Hne]; [|apply Hz; lia].
    rewrite Hsame; [apply upd_eq | intros j' Hj' [=]; lia].
  - intros l Hl. rewrite Hsame; [|intros j Hj; apply Hl; lia]. apply upd_ne, Hl. lia.
Qed.

Lemma initialize_start NODES (m0 : mem) : is_valid_node_count NODES = true ->
  m0 (Ext Payload) = 0 -> m0 (Ext Sealed) = 0 ->
  exists m, run (initialize_at NODES) m0 = (Done tt, m) /\ csnzi_inv NODES m ∅.
Proof.
  intros Hv Hp Hs.
  destruct (solo_run (initialize_at NODES) m0 (fun _ m => csnzi_inv NODES m ∅)) as ([] & m & Hrun & Hinv).
  - unfold initialize_at. rewrite Hv. cbn [negb]. rewrite !solo_bind, solo_store, !solo_bind, solo_store.
    apply initialize_nodes_solo. intros m Hz Hsame. apply inv_start.
    + rewrite Hsame by done. by rewrite upd_ne, upd_eq.
    + rewrite Hsame by done. by rewrite upd_eq.
    + intros n [Hn Hn']. apply Hz. lia.
    + rewrite Hsame by done. by rewrite !upd_ne.
    + rewrite Hsame by done. by rewrite !upd_ne.
  - by exists m.
Qed.

(** ** The clients keep the invariant *)

Section Clients.
Variable NODES : Z.
#[local] Abbreviation I := (csnzi_inv NODES).
Implicit Types (m : mem) (r fr : toks).

Lemma inv_ext m r y v r' : I m r -> (forall n g, mult (Own n g) r' = mult (Own n g) r) ->
  (forall ph, ghosts ph r -> ghosts ph r') ->
  (y = Payload -> v <> 0 -> m Root = ROOT_DRAINED) ->
  upd m (Ext y) v (Ext Sealed) = mult SealedT r' -> I (upd m (Ext y) v) r'.
Proof.
  intros [I1 I2 I3 I4 I5 I6 I7] Hown Hgh Hpay Hseal. split; [..|exact Hseal].
  - intros n Hn. rewrite upd_ne by done. by apply I1.
  - destruct I2 as (ph & c & Hw & Hok & Hg). exists ph, c. rewrite upd_ne by done. auto.
  - intros p Hp g. rewrite Hown, c_act_upd_other by done. rewrite (I3 p Hp g).
    unfold gen_at, count_at. by rewrite !upd_ne.
  - intros p g Hp. rewrite Hown. by apply I4.
  - by rewrite upd_ne.
  - rewrite (upd_ne m (Ext y) Root) by done. destruct (decide (y = Payload)) as [->|Hy].
    + rewrite upd_eq. auto.
    + rewrite upd_ne by congruence. exact I6.
Qed.

Lemma use_payload_spec r n g :
  wp I use_payload (r ⊎ {[+ Own n g +]}) (fun _ r' => r' = r ⊎ {[+ Own n g +]}).
Proof.
  apply wp_bind, wp_csnzi_load. intros m fr HI.
  destruct (Z.eqb_spec (m (Ext Payload)) 0) as [|Hp]; [done|].
  apply (inv_payload NODES m _ HI) in Hp.
  pose proof (empty_no_own NODES m _ n g HI) as Hno. rewrite Hp in Hno.
  specialize (Hno eq_refl). revert Hno. msolve.
Qed.

(** Threads that know of the drain reclaim the storage. *)
Lemma c_reclaim_spec r t : t = FinalT \/ t = SealedT ->
  wp I reclaim (r ⊎ {[+ t +]}) (fun _ r' => r' = r ⊎ {[+ t +]}).
Proof.
  intros Ht. apply wp_store. intros m fr HI. exists (r ⊎ {[+ t +]}). split; [|done].
  apply (inv_ext m _ _ _ _ HI); try done.
  - intros _ _. destruct (inv_root NODES m _ HI) as (ph & c & Hw & [_ Hok] & []).
    assert (ph = RDrained) as ->; [|by rewrite Hw, Hok].
    destruct Ht as [-> | ->]; destruct ph; try done; msolve.
  - rewrite upd_ne by done. apply HI.
Qed.

Lemma seal_once_spec r :
  wp I seal_once (r ⊎ {[+ SealT +]}) (fun _ r' => r' = r ⊎ {[+ SealedT +]}).
Proof.
  apply wp_bind, wp_fetch_or. intros m fr HI. exists (r ⊎ {[+ SealedT +]}).
  assert (Hz : m (Ext Sealed) = 0).
  { rewrite (inv_sealed NODES m _ HI). destruct (inv_root NODES m _ HI) as (ph & c & _ & _ & []).
    destruct ph; msolve. }
  rewrite Hz. cbn [Z.eqb]. split.
  - apply (inv_ext m _ _ _ _ HI); [msolve | | done |].
    + intros ph []. split; destruct ph; msolve.
    + rewrite upd_eq. change (Z.lor 0 1) with 1. pose proof (inv_sealed NODES m _ HI) as Hs. rewrite Hz in Hs. revert Hs. msolve.
  - apply c_reclaim_spec. by right.
Qed.

(** What a thread may still hold at its end. *)
Definition finished (b : bool) r : Prop :=
  no_own r /\ mult TailT r = 0 /\ mult ClosingT r = 0 /\ mult SealT r = 0 /\
  (b = true -> 1 <= mult ClosedT r).

Lemma after_depart_spec x r : seal_post ∅ x r -> wp I (after_depart x) r finished.
Proof.
  intros [[-> ->]|[-> ->]]; cbn [after_depart]; [by split_and!|].
  apply wp_bind. eapply wp_mono, seal_once_spec. intros [] r ->. cbn [wp]. unfold finished, no_own.
  split_and!; msolve.
Qed.

Lemma depart_raw_issued fuel t : issued NODES t ->
  depart_raw NODES fuel (into_raw t) = (depart NODES fuel t : prog _).
Proof.
  intros (Hl & Hm & Hg). destruct t as [lf g]. cbn in *. unfold depart_raw.
  assert (decode_raw (into_raw {| leaf := lf; generation := g |}) = Ok (lf, g)) as ->; [|done].
  apply csnzi_token_decodes; lia.
Qed.

Lemma agent_spec fuel who : is_valid_node_count NODES = true ->
  wp I (agent NODES fuel who) ∅ finished.
Proof.
  intros Hv. pose proof (leaf_count_max NODES Hv) as Hmax.
  assert (Hno : finished false ∅) by (by split_and!).
  destruct who as [lf|lf| |]; cbn [agent]; apply wp_bind.
  - eapply wp_mono, c_try_enter_spec; [|lia|done].
    intros [t|e] r; [|by intros [_ ->]]. intros (_ & Ht & ->). apply wp_bind.
    eapply wp_mono, use_payload_spec. intros [] r ->. apply wp_bind.
    eapply wp_mono, (depart_spec NODES fuel t ∅ Ht). intros x r. apply after_depart_spec.
  - eapply wp_mono, c_try_enter_spec; [|lia|done].
    intros [t|e] r; [|by intros [_ ->]]. intros (_ & Ht & ->). apply wp_bind.
    eapply wp_mono, use_payload_spec. intros [] r ->. apply wp_bind. rewrite depart_raw_issued by done.
    eapply wp_mono, (depart_spec NODES fuel t ∅ Ht). intros x r. apply after_depart_spec.
  - eapply wp_mono, c_close_spec. intros [[]|e] r; cbn [close_post]; try done; intros ->.
    + unfold finished, no_own. split_and!; msolve.
    + apply wp_bind. eapply wp_mono, seal_once_spec. intros [] r ->. cbn [wp].
      unfold finished, no_own. split_and!; msolve.
    + unfold finished, no_own. split_and!; msolve.
  - eapply wp_mono, c_is_drained_spec. intros [] r ->; [|done].
    apply wp_bind. eapply wp_mono, c_reclaim_spec; [|by left]. intros [] r ->. cbn [wp].
    unfold finished, no_own. split_and!; msolve.
Qed.
End Clients.

(** ** The theorems *)

Lemma pool_start NODES fuel (m0 : mem) (crew : list role) : is_valid_node_count NODES = true ->
  m0 (Ext Payload) = 0 -> m0 (Ext Sealed) = 0 ->
  pool_ok (csnzi_inv NODES) finished
    ((run (initialize_at NODES) m0).2, agent NODES fuel <$> crew).
Proof.
  intros Hv Hp Hs. destruct (initialize_start NODES m0 Hv Hp Hs) as (m & -> & HI).
  apply pool_ok_start; [done|]. apply Forall_fmap, Forall_true. intros who. by apply agent_spec.
Qed.

(** C8.  One generation of the indicator, from its initialization in place, with
    any number of participants, closers and watchers in any interleaving: the
    protected storage is never used after it was reclaimed on a reported drain,
    no departure and no close fails, at most one operation reports that it
    sealed the drain, and the indicator is never poisoned. *)
Theorem csnzi_no_use_after_drain NODES fuel (m0 : mem) (crew : list role) m ts i :
  is_valid_node_count NODES = true -> m0 (Ext Payload) = 0 -> m0 (Ext Sealed) = 0 ->
  rtc pstep ((run (initialize_at NODES) m0).2, agent NODES fuel <$> crew) (m, ts) ->
  ts !! i <> Some Panic /\ m Poison = POISON_NONE.
Proof.
  intros Hv Hp Hs Hsteps. pose proof (pool_start NODES fuel m0 crew Hv Hp Hs) as Hok. split.
  - by apply (pool_no_panic _ _ _ (m, ts) i Hsteps Hok).
  - destruct (pool_adequacy _ _ _ _ Hsteps Hok) as (rs & _ & HI).
    apply (inv_poison NODES m _ HI).
Qed.

(** Two participants on one leaf, a closer and a watcher, to the end. *)
Definition csnzi_demo : mem * list (prog bool) :=
  run_schedule ((run (initialize_at 4) (fun _ => 0)).2,
    agent 4 6 <$> [Participant 1; RawParticipant 1; Closer; Watcher]) (round_robin 3 60 ++ round_robin 4 10).

Lemma csnzi_no_use_after_drain_witness :
  csnzi_demo.2 !! 1%nat <> Some Panic /\ csnzi_demo.1 Poison = POISON_NONE.
Proof.
  apply (csnzi_no_use_after_drain 4 6 (fun _ => 0)
    [Participant 1; RawParticipant 1; Closer; Watcher] csnzi_demo.1 csnzi_demo.2 1); try reflexivity.
  rewrite <- surjective_pairing. apply run_schedule_steps.
Defined.

Lemma mult_list_zero (t : tok) (rs : list toks) :
  Forall (fun r => mult t r = 0) rs -> mult t (⋃+ rs) = 0.
Proof.
  induction 1 as [|r rs Hr _ IH]; [done|]. cbn. rewrite mult_union. lia.
Qed.

Lemma mult_list_elem (t : tok) (rs : list toks) r : r ∈ rs -> mult t r <= mult t (⋃+ rs).
Proof.
  induction 1 as [r rs|r r' rs _ IH]; cbn; rewrite mult_union;
    [pose proof (mult_nonneg t (⋃+ rs)) | pose proof (mult_nonneg t r')]; lia.
Qed.

(** A drain is never lost: when every thread has run to its end and at
    least one of them closed the indicator, the root is in its terminal drained
    state, every node of the tree is idle, and exactly one operation has sealed
    the drain. *)
Theorem csnzi_drain_completes NODES fuel (m0 : mem) (crew : list role) m ts :
  is_valid_node_count NODES = true -> m0 (Ext Payload) = 0 -> m0 (Ext Sealed) = 0 ->
  rtc pstep ((run (initialize_at NODES) m0).2, agent NODES fuel <$> crew) (m, ts) ->
  Forall (fun p => p = Ret true \/ p = Ret false) ts -> Ret true ∈ ts ->
  m Root = ROOT_DRAINED /\ (forall n, 0 <= n < NODES -> node_count (m (Node n)) = 0) /\
  m (Ext Sealed) = 1.
Proof.
  intros Hv Hp Hs Hsteps Hdone Hclosed.
  destruct (pool_adequacy _ _ _ _ Hsteps (pool_start NODES fuel m0 crew Hv Hp Hs)) as (rs & Hall & HI).
  cbn in Hall, HI.
  assert (Hfin : Forall (finished false) rs).
  { clear -Hall Hdone. induction Hall as [|p r ts rs Hr _ IH]; [done|].
    apply Forall_cons_1 in Hdone as [Hq Hts]. constructor; [|by apply IH].
    destruct Hq as [-> | ->]; [destruct Hr as (H1 & H2 & H3 & H4 & _); by split_and! | done]. }
  assert (Hcl : 1 <= mult ClosedT (⋃+ rs)).
  { apply list_elem_of_lookup in Hclosed as [i Hi].
    destruct (Forall2_lookup_l _ _ _ _ _ Hall Hi) as (r & Hr & _ & _ & _ & _ & Hc).
    pose proof (mult_list_elem ClosedT rs r (list_elem_of_lookup_2 _ _ _ Hr)). specialize (Hc eq_refl). lia. }
  assert (Hz : forall t, (forall r, finished false r -> mult t r = 0) -> mult t (⋃+ rs) = 0).
  { intros t Ht. apply mult_list_zero. by eapply Forall_impl. }
  assert (Hown : forall n g, mult (Own n g) (⋃+ rs) = 0).
  { intros n g. apply Hz. intros r Hr. apply Hr. }
  assert (HT : mult TailT (⋃+ rs) = 0) by (apply Hz; intros r Hr; apply Hr).
  assert (HC : mult ClosingT (⋃+ rs) = 0) by (apply Hz; intros r Hr; apply Hr).
  assert (HS : mult SealT (⋃+ rs) = 0) by (apply Hz; intros r Hr; apply Hr).
  destruct (no_own_drained NODES m (⋃+ rs) HI Hown HT HC Hcl) as (Hroot & Hidle & Hseal).
  split_and!; [done | exact Hidle | lia].
Qed.

Lemma csnzi_drain_completes_witness :
  csnzi_demo.1 Root = ROOT_DRAINED /\
  (forall n, 0 <= n < 4 -> node_count (csnzi_demo.1 (Node n)) = 0) /\ csnzi_demo.1 (Ext Sealed) = 1.
Proof.
  apply (csnzi_drain_completes 4 6 (fun _ => 0)
    [Participant 1; RawParticipant 1; Closer; Watcher] csnzi_demo.1 csnzi_demo.2); try reflexivity.
  - rewrite <- surjective_pairing. apply run_schedule_steps.
  - replace csnzi_demo.2 with [Ret false; Ret false; Ret true; Ret false : prog bool]
      by (vm_compute; reflexivity).
    repeat (constructor; [auto|]). constructor.
  - replace csnzi_demo.2 with [Ret false; Ret false; Ret true; Ret false : prog bool]
      by (vm_compute; reflexivity).
    right. right. left.
Defined.
