(* ===== verification/Injection.v ===== *)
(** Process bootstrap: [shmem_exec_obj/v2/src/injection.rs].

    [BootstrapContext] is the 160-byte record with which an injector describes a
    pod to the process it loads it into; [parse_bootstrap_fd] reads the number of
    the descriptor that holds it; [AdapterCallGate] admits the calls of injected
    hooks.  Byte arrays are lists of bytes, an [i32] is a [Z] in its signed range. *)

From S2P Require Import Prelude Conc.

(** ** Wire ranges and constants *)

Definition MAGIC_RANGE : nat * nat := (0, 8)%nat.
Definition VERSION_RANGE : nat * nat := (8, 10)%nat.
Definition SIZE_RANGE : nat * nat := (10, 12)%nat.
Definition FLAGS_RANGE : nat * nat := (12, 16)%nat.
Definition CONNECTOR_RANGE : nat * nat := (16, 20)%nat.
Definition RESERVED_WORD_RANGE : nat * nat := (20, 24)%nat.
Definition ARTIFACT_FD_RANGE : nat * nat := (24, 28)%nat.
Definition CODE_FD_RANGE : nat * nat := (28, 32)%nat.
Definition STATE_FD_RANGE : nat * nat := (32, 36)%nat.
Definition CONTROL_FD_RANGE : nat * nat := (36, 40)%nat.
Definition ARTIFACT_LEN_RANGE : nat * nat := (40, 48)%nat.
Definition STATE_LEN_RANGE : nat * nat := (48, 56)%nat.
Definition CODE_ADDRESS_RANGE : nat * nat := (56, 64)%nat.
Definition STATE_ADDRESS_RANGE : nat * nat := (64, 72)%nat.
Definition GENERATION_RANGE : nat * nat := (72, 80)%nat.
Definition API_FINGERPRINT_RANGE : nat * nat := (80, 96)%nat.
Definition ARTIFACT_SHA256_RANGE : nat * nat := (96, 128)%nat.
Definition INSTANCE_NONCE_RANGE : nat * nat := (128, 144)%nat.
Definition RESERVED_BYTES_RANGE : nat * nat := (144, 160)%nat.

Definition DISABLED_BIT : Z := 2 ^ 31.
Definition ACTIVE_MASK : Z := DISABLED_BIT - 1.

Definition BOOTSTRAP_PAGE_SIZE : Z := 4096.
Definition MAX_ARTIFACT_LEN : Z := 256 * 1024 * 1024.
Definition MAX_STATE_LEN : Z := 1024 * 1024 * 1024 * 1024.
Definition i32_max : Z := 2 ^ 31 - 1.

Inductive ConnectorKind := Cooperative | Preload | Ptrace | Trampoline.

(** The discriminants of the [repr(u32)] enum. *)
Definition connector_code (k : ConnectorKind) : Z :=
  match k with Cooperative => 1 | Preload => 2 | Ptrace => 3 | Trampoline => 4 end.

Definition from_u32 (value : Z) : option ConnectorKind :=
  if value =? 1 then Some Cooperative
  else if value =? 2 then Some Preload
  else if value =? 3 then Some Ptrace
  else if value =? 4 then Some Trampoline
  else None.

(** ** Policy flags *)

Definition REQUIRED : Z := Z.shiftl 1 0.
Definition INHERIT_ACROSS_EXEC : Z := Z.shiftl 1 1.
Definition FIXED_CODE_ADDRESS : Z := Z.shiftl 1 2.
Definition FIXED_STATE_ADDRESS : Z := Z.shiftl 1 3.
Definition SCM_RIGHTS_TRANSPORT : Z := Z.shiftl 1 4.
Definition KNOWN : Z :=
  Z.lor (Z.lor (Z.lor (Z.lor REQUIRED INHERIT_ACROSS_EXEC) FIXED_CODE_ADDRESS)
    FIXED_STATE_ADDRESS) SCM_RIGHTS_TRANSPORT.

Definition contains (flags other : Z) : bool := Z.land flags other =? other.
Definition union (flags other : Z) : Z := Z.lor flags other.

(** ** The bootstrap context *)

Record BootstrapContext := {
  magic : list Z;
  abi_version : Z;
  struct_size : Z;
  flags : Z;
  connector : Z;
  reserved_word : Z;
  artifact_fd : Z;
  code_fd : Z;
  state_fd : Z;
  control_fd : Z;
  artifact_len : Z;
  state_len : Z;
  code_address : Z;
  state_address : Z;
  generation : Z;
  api_fingerprint : list Z;
  artifact_sha256 : list Z;
  instance_nonce : list Z;
  reserved : list Z
}.

(** [*b"SHPODBC\0"] *)
Definition MAGIC : list Z := b_str "SHPODBC" ++ [0].
Definition ABI_VERSION : Z := 1.
Definition ENCODED_LEN : nat := 160.

Inductive DescriptorRole := ArtifactRole | CodeRole | StateRole | ControlRole.
Inductive AddressRole := CodeAddress | StateAddress.

Inductive BootstrapError :=
| EncodedLength (length : Z)
| BadMagic
| UnsupportedVersion (version : Z)
| WrongSize (size : Z)
| UnknownFlags (flags : Z)
| BuilderManagedFlags (flags : Z)
| UnknownConnector (connector : Z)
| NonzeroReserved
| InvalidDescriptor (role : DescriptorRole) (fd : Z)
| InvalidControlDescriptor (fd : Z)
| AliasedDescriptors
| IncoherentControlTransport
| InvalidArtifactLength (length : Z)
| InvalidStateLength (length : Z)
| InvalidAddress (role : AddressRole) (address : Z)
| AliasedFixedAddresses (address : Z)
| ZeroGeneration
| ZeroApiFingerprint
| ZeroArtifactDigest
| ZeroInstanceNonce.

Definition validate_fd (fd : Z) (role : DescriptorRole) : result unit BootstrapError :=
  if fd <=? 2 then Err (InvalidDescriptor role fd) else Ok tt.

Definition validate_address (address : Z) (required : bool) (role : AddressRole) :
    result unit BootstrapError :=
  if required then
    reject (address =? 0) || negb (address mod BOOTSTRAP_PAGE_SIZE =? 0)
      with InvalidAddress role address ;; Ok tt
  else
    reject negb (address =? 0) with InvalidAddress role address ;; Ok tt.

Definition all_zero (bytes : list Z) : bool := forallb (fun b => b =? 0) bytes.

Definition connector_kind (c : BootstrapContext) : option ConnectorKind := from_u32 (connector c).
Definition bootstrap_flags (c : BootstrapContext) : Z := flags c.
Definition api_fingerprint_value (c : BootstrapContext) : Z := of_le_bytes (api_fingerprint c).

Definition validate (c : BootstrapContext) : result unit BootstrapError :=
  reject negb (bool_decide (magic c = MAGIC)) with BadMagic ;;
  reject negb (abi_version c =? ABI_VERSION) with UnsupportedVersion (abi_version c) ;;
  reject negb (struct_size c =? Z.of_nat ENCODED_LEN) with WrongSize (struct_size c) ;;
  reject negb (Z.land (flags c) (not_bits 32 KNOWN) =? 0) with UnknownFlags (flags c) ;;
  reject negb (is_ok (ok_or (connector_kind c) tt)) with UnknownConnector (connector c) ;;
  reject negb (reserved_word c =? 0) || negb (all_zero (reserved c)) with NonzeroReserved ;;
  let? _x := validate_fd (artifact_fd c) ArtifactRole in
  let? _x := validate_fd (code_fd c) CodeRole in
  let? _x := validate_fd (state_fd c) StateRole in
  reject (artifact_fd c =? code_fd c) || (artifact_fd c =? state_fd c) || (code_fd c =? state_fd c)
    with AliasedDescriptors ;;
  reject control_fd c <? -1 with InvalidControlDescriptor (control_fd c) ;;
  let? _x :=
    (if 0 <=? control_fd c then
       let? _x := validate_fd (control_fd c) ControlRole in
       reject (control_fd c =? artifact_fd c) || (control_fd c =? code_fd c)
              || (control_fd c =? state_fd c) with AliasedDescriptors ;; Ok tt
     else Ok tt) in
  let claims_scm_rights := contains (bootstrap_flags c) SCM_RIGHTS_TRANSPORT in
  reject negb (eqb claims_scm_rights (0 <=? control_fd c)) with IncoherentControlTransport ;;
  reject (artifact_len c <? BOOTSTRAP_PAGE_SIZE) || (MAX_ARTIFACT_LEN <? artifact_len c)
    with InvalidArtifactLength (artifact_len c) ;;
  reject (state_len c <? BOOTSTRAP_PAGE_SIZE) || (MAX_STATE_LEN <? state_len c)
         || negb (state_len c mod BOOTSTRAP_PAGE_SIZE =? 0)
    with InvalidStateLength (state_len c) ;;
  let? _x := validate_address (code_address c) (contains (bootstrap_flags c) FIXED_CODE_ADDRESS)
              CodeAddress in
  let? _x := validate_address (state_address c) (contains (bootstrap_flags c) FIXED_STATE_ADDRESS)
              StateAddress in
  reject negb (code_address c =? 0) && (code_address c =? state_address c)
    with AliasedFixedAddresses (code_address c) ;;
  reject generation c =? 0 with ZeroGeneration ;;
  reject all_zero (api_fingerprint c) with ZeroApiFingerprint ;;
  reject all_zero (artifact_sha256 c) with ZeroArtifactDigest ;;
  reject all_zero (instance_nonce c) with ZeroInstanceNonce ;;
  Ok tt.

(** [BootstrapContext::new] *)
Definition new (kind : ConnectorKind) (flags artifact_fd code_fd state_fd artifact_len state_len
    generation api_fingerprint : Z) (artifact_sha256 instance_nonce : list Z) :
    result BootstrapContext BootstrapError :=
  let builder_managed := Z.lor (Z.lor FIXED_CODE_ADDRESS FIXED_STATE_ADDRESS) SCM_RIGHTS_TRANSPORT in
  reject negb (Z.land flags builder_managed =? 0)
    with BuilderManagedFlags (Z.land flags builder_managed) ;;
  let context := {|
    magic := MAGIC; abi_version := ABI_VERSION; struct_size := wrap 16 (Z.of_nat ENCODED_LEN);
    flags := flags; connector := connector_code kind; reserved_word := 0;
    artifact_fd := artifact_fd; code_fd := code_fd; state_fd := state_fd; control_fd := -1;
    artifact_len := artifact_len; state_len := state_len; code_address := 0; state_address := 0;
    generation := generation; api_fingerprint := to_le_bytes 16 api_fingerprint;
    artifact_sha256 := artifact_sha256; instance_nonce := instance_nonce;
    reserved := replicate 16 0 |} in
  let? _x := validate context in Ok context.

(** The same context with other flags, control descriptor and addresses. *)
Definition with_fields (c : BootstrapContext) (flags control_fd code_address state_address : Z) :
    BootstrapContext :=
  {| magic := magic c; abi_version := abi_version c; struct_size := struct_size c;
     flags := flags; connector := connector c; reserved_word := reserved_word c;
     artifact_fd := artifact_fd c; code_fd := code_fd c; state_fd := state_fd c;
     control_fd := control_fd; artifact_len := artifact_len c; state_len := state_len c;
     code_address := code_address; state_address := state_address; generation := generation c;
     api_fingerprint := api_fingerprint c; artifact_sha256 := artifact_sha256 c;
     instance_nonce := instance_nonce c; reserved := reserved c |}.

Definition with_scm_rights_provenance (c : BootstrapContext) (control_fd : Z) :
    result BootstrapContext BootstrapError :=
  let c := with_fields c (Z.lor (flags c) SCM_RIGHTS_TRANSPORT) control_fd
             (code_address c) (state_address c) in
  let? _x := validate c in Ok c.

Definition with_fixed_code_address (c : BootstrapContext) (code_address : Z) :
    result BootstrapContext BootstrapError :=
  let c := with_fields c (Z.lor (flags c) FIXED_CODE_ADDRESS) (control_fd c)
             code_address (state_address c) in
  let? _x := validate c in Ok c.

Definition with_fixed_state_address (c : BootstrapContext) (state_address : Z) :
    result BootstrapContext BootstrapError :=
  let c := with_fields c (Z.lor (flags c) FIXED_STATE_ADDRESS) (control_fd c)
             (code_address c) state_address in
  let? _x := validate c in Ok c.

Definition with_fixed_addresses (c : BootstrapContext) (code_address state_address : Z) :
    result BootstrapContext BootstrapError :=
  let c := with_fields c (Z.lor (flags c) (Z.lor FIXED_CODE_ADDRESS FIXED_STATE_ADDRESS))
             (control_fd c) code_address state_address in
  let? _x := validate c in Ok c.

(** ** The stable encoding *)

Definition put (range : nat * nat) (src output : list Z) : list Z := copy_at range.1 src output.

Definition encode (c : BootstrapContext) : list Z :=
  let output := replicate ENCODED_LEN 0 in
  let output := put MAGIC_RANGE (magic c) output in
  let output := put VERSION_RANGE (to_le_bytes 2 (abi_version c)) output in
  let output := put SIZE_RANGE (to_le_bytes 2 (struct_size c)) output in
  let output := put FLAGS_RANGE (to_le_bytes 4 (flags c)) output in
  let output := put CONNECTOR_RANGE (to_le_bytes 4 (connector c)) output in
  let output := put RESERVED_WORD_RANGE (to_le_bytes 4 (reserved_word c)) output in
  let output := put ARTIFACT_FD_RANGE (to_le_bytes 4 (artifact_fd c)) output in
  let output := put CODE_FD_RANGE (to_le_bytes 4 (code_fd c)) output in
  let output := put STATE_FD_RANGE (to_le_bytes 4 (state_fd c)) output in
  let output := put CONTROL_FD_RANGE (to_le_bytes 4 (control_fd c)) output in
  let output := put ARTIFACT_LEN_RANGE (to_le_bytes 8 (artifact_len c)) output in
  let output := put STATE_LEN_RANGE (to_le_bytes 8 (state_len c)) output in
  let output := put CODE_ADDRESS_RANGE (to_le_bytes 8 (code_address c)) output in
  let output := put STATE_ADDRESS_RANGE (to_le_bytes 8 (state_address c)) output in
  let output := put GENERATION_RANGE (to_le_bytes 8 (generation c)) output in
  let output := put API_FINGERPRINT_RANGE (api_fingerprint c) output in
  let output := put ARTIFACT_SHA256_RANGE (artifact_sha256 c) output in
  let output := put INSTANCE_NONCE_RANGE (instance_nonce c) output in
  put RESERVED_BYTES_RANGE (reserved c) output.

Definition array (bytes : list Z) (range : nat * nat) : list Z := slice range.1 range.2 bytes.

(** [u32::from_le_bytes] and the like, and [i32::from_le_bytes]. *)
Definition i32_from_le_bytes (bytes : list Z) : Z :=
  let x := of_le_bytes bytes in if x <? 2 ^ 31 then x else x - 2 ^ 32.

Definition decode (encoded : list Z) : result BootstrapContext BootstrapError :=
  reject negb (Nat.eqb (length encoded) ENCODED_LEN)
    with EncodedLength (Z.of_nat (length encoded)) ;;
  let context := {|
    magic := array encoded MAGIC_RANGE;
    abi_version := of_le_bytes (array encoded VERSION_RANGE);
    struct_size := of_le_bytes (array encoded SIZE_RANGE);
    flags := of_le_bytes (array encoded FLAGS_RANGE);
    connector := of_le_bytes (array encoded CONNECTOR_RANGE);
    reserved_word := of_le_bytes (array encoded RESERVED_WORD_RANGE);
    artifact_fd := i32_from_le_bytes (array encoded ARTIFACT_FD_RANGE);
    code_fd := i32_from_le_bytes (array encoded CODE_FD_RANGE);
    state_fd := i32_from_le_bytes (array encoded STATE_FD_RANGE);
    control_fd := i32_from_le_bytes (array encoded CONTROL_FD_RANGE);
    artifact_len := of_le_bytes (array encoded ARTIFACT_LEN_RANGE);
    state_len := of_le_bytes (array encoded STATE_LEN_RANGE);
    code_address := of_le_bytes (array encoded CODE_ADDRESS_RANGE);
    state_address := of_le_bytes (array encoded STATE_ADDRESS_RANGE);
    generation := of_le_bytes (array encoded GENERATION_RANGE);
    api_fingerprint := array encoded API_FINGERPRINT_RANGE;
    artifact_sha256 := array encoded ARTIFACT_SHA256_RANGE;
    instance_nonce := array encoded INSTANCE_NONCE_RANGE;
    reserved := array encoded RESERVED_BYTES_RANGE |} in
  let? _x := validate context in
  Ok {| magic := magic context; abi_version := abi_version context;
        struct_size := wrap 16 (Z.of_nat ENCODED_LEN); flags := flags context;
        connector := connector context; reserved_word := reserved_word context;
        artifact_fd := artifact_fd context; code_fd := code_fd context;
        state_fd := state_fd context; control_fd := control_fd context;
        artifact_len := artifact_len context; state_len := state_len context;
        code_address := code_address context; state_address := state_address context;
        generation := generation context; api_fingerprint := api_fingerprint context;
        artifact_sha256 := artifact_sha256 context; instance_nonce := instance_nonce context;
        reserved := reserved context |}.

(** ** The descriptor number in the environment *)

Inductive BootstrapFdError := Empty | NonDecimal | LeadingZero | Overflow | StandardIo (fd : Z).

Definition is_ascii_digit (b : Z) : bool := (48 <=? b) && (b <=? 57).

Fixpoint parse_digits (parsed : Z) (value : list Z) : result Z BootstrapFdError :=
  match value with
  | [] => Ok parsed
  | b :: value =>
      reject negb (is_ascii_digit b) with NonDecimal ;;
      let? parsed := ok_or (match checked_mul 32 parsed 10 with
                            | Some number => checked_add 32 number (b - 48)
                            | None => None
                            end) Overflow in
      reject i32_max <? parsed with Overflow ;;
      parse_digits parsed value
  end.

Definition parse_bootstrap_fd (value : list Z) : result Z BootstrapFdError :=
  match value with
  | [] => Err Empty
  | first :: _ =>
      reject Nat.ltb 1 (length value) && (first =? 48) with LeadingZero ;;
      let? fd := parse_digits 0 value in
      reject fd <=? 2 with StandardIo fd ;; Ok fd
  end.

(** ** The adapter call gate *)

(** The gate word, and the process-local context that the gate protects. *)
Inductive gcell := Gate | Context.
#[export] Instance gcell_eq_dec : EqDecision gcell.
Proof. solve_decision. Defined.

Record GateResetError := { disabled : bool; reset_active_calls : Z }.

Section Gate.
Variable fuel : nat.
#[local] Abbreviation prog := (prog gcell).

Definition try_enter_body (observed : Z) : prog (Z + option unit) :=
  if negb (Z.land observed DISABLED_BIT =? 0) || (Z.land observed ACTIVE_MASK =? ACTIVE_MASK) then
    Ret (inr None)
  else
    let! x := compare_exchange_weak Gate observed (wrap 32 (observed + 1)) in
    match x with
    | Ok _ => Ret (inr (Some tt))
    | Err actual => Ret (inl actual)
    end.

(** The result is the [AdapterCall] token, when the call is admitted. *)
Definition try_enter : prog (option unit) :=
  let! observed := load Gate in loop fuel try_enter_body observed.

Definition disable : prog Z :=
  let! s := fetch_or Gate DISABLED_BIT in Ret (Z.land s ACTIVE_MASK).

Definition active_calls : prog Z := let! s := load Gate in Ret (Z.land s ACTIVE_MASK).

Definition is_disabled : prog bool :=
  let! s := load Gate in Ret (negb (Z.land s DISABLED_BIT =? 0)).

Definition reset_after_fork : prog (result unit GateResetError) :=
  let! x := compare_exchange Gate DISABLED_BIT 0 in
  match x with
  | Ok _ => Ret (Ok tt)
  | Err state =>
      Ret (Err {| disabled := negb (Z.land state DISABLED_BIT =? 0);
                  reset_active_calls := Z.land state ACTIVE_MASK |})
  end.

Definition force_reset_in_fork_child : prog unit := store Gate 0.

(** [impl Drop for AdapterCall] *)
Definition call_drop : prog unit :=
  let! previous := fetch_sub 32 Gate 1 in
  if Z.land previous ACTIVE_MASK =? 0 then Panic else Ret tt.
End Gate.
