(* ===== verification/InjectionCorrect.v ===== *)
(** Theorems on process bootstrap: the context's encoding is canonical, validated
    contexts are coherent, the descriptor syntax is exactly strict decimal, and
    the call gate protects the adapter's context in every interleaving. *)

From S2P Require Import Prelude Wire Conc Injection.

(** ** Little-endian fields *)

Definition i32 (x : Z) : Prop := - 2 ^ 31 <= x <= i32_max.

Lemma i32_of_to x : i32 x -> i32_from_le_bytes (to_le_bytes 4 x) = x.
Proof.
  unfold i32, i32_max, i32_from_le_bytes. intros Hx. rewrite of_to_le_bytes_mod.
  change (2 ^ (8 * Z.of_nat 4)) with (2 ^ 32). destruct (Z.ltb_spec (x mod 2 ^ 32) (2 ^ 31)); dlia.
Qed.

Lemma i32_to_of bs : Forall byte bs -> length bs = 4%nat ->
  to_le_bytes 4 (i32_from_le_bytes bs) = bs /\ i32 (i32_from_le_bytes bs).
Proof.
  intros Hb Hl. pose proof (of_le_bytes_bound bs Hb) as Hr. rewrite Hl in Hr.
  change (2 ^ (8 * Z.of_nat 4)) with (2 ^ 32) in Hr. unfold i32, i32_max, i32_from_le_bytes.
  destruct (Z.ltb_spec (of_le_bytes bs) (2 ^ 31)).
  - split; [|lia]. rewrite <- Hl at 1. by apply to_of_le_bytes.
  - split; [|lia]. rewrite <- to_le_bytes_mod. change (2 ^ (8 * Z.of_nat 4)) with (2 ^ 32).
    replace ((of_le_bytes bs - 2 ^ 32) mod 2 ^ 32) with (of_le_bytes bs) by dlia.
    rewrite <- Hl at 1. by apply to_of_le_bytes.
Qed.

(** ** The fields in order *)

(** The values that the fields of a Rust context can take. *)
Record well_typed (c : BootstrapContext) : Prop := {
  wt_magic : Forall byte (magic c) /\ length (magic c) = 8%nat;
  wt_abi : in_width 16 (abi_version c);
  wt_size : in_width 16 (struct_size c);
  wt_flags : in_width 32 (flags c);
  wt_connector : in_width 32 (connector c);
  wt_reserved_word : in_width 32 (reserved_word c);
  wt_artifact_fd : i32 (artifact_fd c);
  wt_code_fd : i32 (code_fd c);
  wt_state_fd : i32 (state_fd c);
  wt_control_fd : i32 (control_fd c);
  wt_artifact_len : in_width 64 (artifact_len c);
  wt_state_len : in_width 64 (state_len c);
  wt_code_address : in_width 64 (code_address c);
  wt_state_address : in_width 64 (state_address c);
  wt_generation : in_width 64 (generation c);
  wt_api : Forall byte (api_fingerprint c) /\ length (api_fingerprint c) = 16%nat;
  wt_sha : Forall byte (artifact_sha256 c) /\ length (artifact_sha256 c) = 32%nat;
  wt_nonce : Forall byte (instance_nonce c) /\ length (instance_nonce c) = 16%nat;
  wt_reserved : Forall byte (reserved c) /\ length (reserved c) = 16%nat
}.

Definition fields (c : BootstrapContext) : list (list Z) :=
  [ magic c; to_le_bytes 2 (abi_version c); to_le_bytes 2 (struct_size c);
    to_le_bytes 4 (flags c); to_le_bytes 4 (connector c); to_le_bytes 4 (reserved_word c);
    to_le_bytes 4 (artifact_fd c); to_le_bytes 4 (code_fd c); to_le_bytes 4 (state_fd c);
    to_le_bytes 4 (control_fd c); to_le_bytes 8 (artifact_len c); to_le_bytes 8 (state_len c);
    to_le_bytes 8 (code_address c); to_le_bytes 8 (state_address c); to_le_bytes 8 (generation c);
    api_fingerprint c; artifact_sha256 c; instance_nonce c; reserved c ].

(** Writing the fields one behind the other. *)
Lemma put_next range pre src k : range.1 = length pre -> (length src <= k)%nat ->
  put range src (pre ++ replicate k 0) = (pre ++ src) ++ replicate (k - length src) 0.
Proof. apply copy_next. Qed.

Definition FIELD_LENGTHS : list nat := [8; 2; 2; 4; 4; 4; 4; 4; 4; 4; 8; 8; 8; 8; 8; 16; 32; 16; 16]%nat.

Lemma fields_lengths c : well_typed c -> length <$> fields c = FIELD_LENGTHS.
Proof.
  intros []. cbn [fields fmap list_fmap]. rewrite !to_le_bytes_length.
  destruct wt_magic0 as [_ ->], wt_api0 as [_ ->], wt_sha0 as [_ ->], wt_nonce0 as [_ ->],
    wt_reserved0 as [_ ->]. done.
Qed.

Lemma encode_fields c : well_typed c -> encode c = concat (fields c).
Proof.
  intros []. destruct wt_magic0 as [_ Hm], wt_api0 as [_ Ha], wt_sha0 as [_ Hs],
    wt_nonce0 as [_ Hn], wt_reserved0 as [_ Hr]. unfold encode.
  change (replicate ENCODED_LEN 0) with ([] ++ replicate 160 0). cbv zeta.
  repeat (rewrite put_next; [| rewrite ?length_app, ?to_le_bytes_length, ?Hm, ?Ha, ?Hs, ?Hn;
    reflexivity | rewrite ?to_le_bytes_length, ?Hm, ?Ha, ?Hs, ?Hn, ?Hr; lia]).
  rewrite !to_le_bytes_length, Hm, Ha, Hs, Hn, Hr.
  cbn [Nat.sub replicate fields concat]. by rewrite <- !app_assoc, !app_nil_r.
Qed.

(** The context that [decode] reads, before validation. *)
Definition raw_context (encoded : list Z) : BootstrapContext := {|
  magic := array encoded MAGIC_RANGE;
  abi_version := of_le_bytes (array encoded VERSION_RANGE);
  struct_size := of_le_bytes (array encoded SIZE_RANGE);
  flags := of_le_bytes (array encoded FLAGS_RANGE);
  connector := of_le_bytes (array encoded CONNECTOR_RANGE);
  reserved_word := of_le_bytes (array encoded RESERVED_WORD_RANGE);
  artifact_fd := i32_from_le_bytes (array encoded ARTIFACT_FD_RANGE);
  code_fd := i32_from_le_bytes (array encoded CODE_FD_RANGE);
  state_fd := i32_from_le_bytes (array encoded STATE_FD_RANGE);
  control_fd := i32_from_le_bytes (array encoded CONTROL_FD_RANGE);
  artifact_len := of_le_bytes (array encoded ARTIFACT_LEN_RANGE);
  state_len := of_le_bytes (array encoded STATE_LEN_RANGE);
  code_address := of_le_bytes (array encoded CODE_ADDRESS_RANGE);
  state_address := of_le_bytes (array encoded STATE_ADDRESS_RANGE);
  generation := of_le_bytes (array encoded GENERATION_RANGE);
  api_fingerprint := array encoded API_FINGERPRINT_RANGE;
  artifact_sha256 := array encoded ARTIFACT_SHA256_RANGE;
  instance_nonce := array encoded INSTANCE_NONCE_RANGE;
  reserved := array encoded RESERVED_BYTES_RANGE |}.

Lemma cut_arrays bs : cut FIELD_LENGTHS bs =
  array bs <$> [MAGIC_RANGE; VERSION_RANGE; SIZE_RANGE; FLAGS_RANGE; CONNECTOR_RANGE;
    RESERVED_WORD_RANGE; ARTIFACT_FD_RANGE; CODE_FD_RANGE; STATE_FD_RANGE; CONTROL_FD_RANGE;
    ARTIFACT_LEN_RANGE; STATE_LEN_RANGE; CODE_ADDRESS_RANGE; STATE_ADDRESS_RANGE;
    GENERATION_RANGE; API_FINGERPRINT_RANGE; ARTIFACT_SHA256_RANGE; INSTANCE_NONCE_RANGE;
    RESERVED_BYTES_RANGE].
Proof.
  unfold FIELD_LENGTHS. cbn [cut]. rewrite !drop_drop. cbn [Nat.add]. reflexivity.
Qed.

Lemma array_bytes bs range : Forall byte bs -> Forall byte (array bs range).
Proof. intros Hb. unfold array, slice. by apply Forall_take, Forall_drop. Qed.

Lemma array_length bs range : length bs = ENCODED_LEN -> (range.1 <= range.2 <= ENCODED_LEN)%nat ->
  length (array bs range) = (range.2 - range.1)%nat.
Proof. intros Hl Hr. unfold array, slice. rewrite length_take, length_drop. lia. Qed.

Ltac range_ok := split; apply Nat.leb_le; reflexivity.

Lemma raw_context_typed bs : Forall byte bs -> length bs = ENCODED_LEN ->
  well_typed (raw_context bs) /\ fields (raw_context bs) = cut FIELD_LENGTHS bs.
Proof.
  intros Hb Hl.
  assert (Hf : forall range, (range.1 <= range.2 <= ENCODED_LEN)%nat ->
    Forall byte (array bs range) /\ length (array bs range) = (range.2 - range.1)%nat).
  { intros range Hr. split; [by apply array_bytes | by apply array_length]. }
  assert (Hu : forall range, (range.1 <= range.2 <= ENCODED_LEN)%nat -> let n := (range.2 - range.1)%nat in
    to_le_bytes n (of_le_bytes (array bs range)) = array bs range /\
    in_width (8 * Z.of_nat n) (of_le_bytes (array bs range))).
  { intros range Hr. apply u_to_of; by apply Hf. }
  assert (Hi : forall range, (range.1 <= range.2 <= ENCODED_LEN)%nat -> (range.2 - range.1)%nat = 4%nat ->
    to_le_bytes 4 (i32_from_le_bytes (array bs range)) = array bs range /\
    i32 (i32_from_le_bytes (array bs range))).
  { intros range Hr H4. destruct (Hf range Hr) as [HA HB]. apply i32_to_of; [done | lia]. }
  clear Hb. split.
  - constructor; cbn [raw_context magic abi_version struct_size flags connector reserved_word
      artifact_fd code_fd state_fd control_fd artifact_len state_len code_address state_address
      generation api_fingerprint artifact_sha256 instance_nonce reserved].
    all: match goal with
         | |- in_width _ (of_le_bytes (array ?b ?range)) => exact (proj2 (Hu range ltac:(range_ok)))
         | |- i32 (i32_from_le_bytes (array ?b ?range)) =>
             exact (proj2 (Hi range ltac:(range_ok) eq_refl))
         | |- Forall _ (array ?b ?range) /\ _ => exact (Hf range ltac:(range_ok))
         end.
  - rewrite cut_arrays. unfold fields, raw_context.
    cbn [fmap list_fmap magic abi_version struct_size flags connector reserved_word
      artifact_fd code_fd state_fd control_fd artifact_len state_len code_address state_address
      generation api_fingerprint artifact_sha256 instance_nonce reserved].
    repeat match goal with
    | |- ?x :: _ = ?x :: _ => apply f_equal2; [reflexivity|]
    | |- [] = [] => reflexivity
    | |- to_le_bytes _ (of_le_bytes (array ?b ?range)) :: _ = _ =>
        apply f_equal2; [exact (proj1 (Hu range ltac:(range_ok)))|]
    | |- to_le_bytes _ (i32_from_le_bytes (array ?b ?range)) :: _ = _ =>
        apply f_equal2; [exact (proj1 (Hi range ltac:(range_ok) eq_refl))|]
    end.
Qed.

Lemma raw_context_encode c : well_typed c -> raw_context (encode c) = c.
Proof.
  intros Hwt. rewrite encode_fields by done. pose proof (concat_cut (fields c)) as Hcut.
  rewrite (fields_lengths c Hwt), cut_arrays in Hcut. unfold fields at 2 in Hcut.
  generalize dependent (concat (fields c)). intros bs Hcut. cbn [fmap list_fmap] in Hcut.
  unfold raw_context.
  repeat (apply list_cons_eq in Hcut as [Harr Hcut]; rewrite Harr; clear Harr).
  destruct Hwt. rewrite !of_to_le_bytes, !i32_of_to by done. by destruct c.
Qed.

Lemma validate_size c : validate c = Ok tt -> struct_size c = Z.of_nat ENCODED_LEN.
Proof.
  unfold validate. intros Hv. ok_inv Hv. by apply negb_false_iff, Z.eqb_eq in Hguard1.
Qed.

(** [decode] is validation of the raw context. *)
Lemma decode_raw_context bs : decode bs =
  if negb (Nat.eqb (length bs) ENCODED_LEN) then Err (EncodedLength (Z.of_nat (length bs)))
  else match validate (raw_context bs) with Ok _ => Ok (raw_context bs) | Err e => Err e end.
Proof.
  unfold decode. fold (raw_context bs). destruct (negb _); [done|].
  destruct (validate (raw_context bs)) as [[]|e] eqn:Hv; cbn [result_bind]; [|done].
  apply validate_size in Hv. change (wrap 16 (Z.of_nat ENCODED_LEN)) with (Z.of_nat ENCODED_LEN).
  rewrite <- Hv. by destruct (raw_context bs).
Qed.

(** The encoding of bootstrap contexts is canonical: a byte string decodes to
    a context exactly when it is the encoding of that context, its fields are in
    the range of their types and the context is valid.  In particular a valid
    context survives the transport unchanged, and no two byte strings decode to
    the same context. *)
Theorem bootstrap_wire_canonical bs c : Forall byte bs ->
  decode bs = Ok c <-> (well_typed c /\ validate c = Ok tt /\ bs = encode c).
Proof.
  intros Hb. rewrite decode_raw_context. split.
  - destruct (Nat.eqb_spec (length bs) ENCODED_LEN) as [Hl|]; [|done]. cbn [negb].
    destruct (validate (raw_context bs)) as [[]|e] eqn:Hv; [|done]. intros [= <-].
    destruct (raw_context_typed bs Hb Hl) as [Hwt Hf]. split_and!; [done..|].
    rewrite encode_fields, Hf by done. symmetry. by apply cut_concat.
  - intros (Hwt & Hv & ->). assert (Hl : length (encode c) = ENCODED_LEN).
    { rewrite encode_fields, length_concat by done.
      change (map length (fields c)) with (length <$> fields c). by rewrite fields_lengths. }
    rewrite Hl, Nat.eqb_refl, raw_context_encode, Hv by done. done.
Qed.

(** A launcher's context, as the adapter decodes it. *)
Definition demo_context : BootstrapContext := {|
  magic := MAGIC; abi_version := 1; struct_size := 160; flags := 15; connector := 2;
  reserved_word := 0; artifact_fd := 10; code_fd := 11; state_fd := 12; control_fd := -1;
  artifact_len := 12208; state_len := 65536; code_address := 8192; state_address := 4096;
  generation := 7; api_fingerprint := to_le_bytes 16 4660; artifact_sha256 := replicate 32 90;
  instance_nonce := replicate 16 165; reserved := replicate 16 0 |}.

Lemma demo_context_typed : well_typed demo_context.
Proof.
  constructor; vm_compute; try (split; (discriminate || reflexivity)).
  all: split; [|reflexivity]; repeat (constructor; [split; (discriminate || reflexivity)|]); constructor.
Qed.

Lemma bootstrap_wire_canonical_witness :
  Forall byte (encode demo_context) /\ decode (encode demo_context) = Ok demo_context.
Proof.
  assert (Hb : Forall byte (encode demo_context)).
  { vm_compute. repeat (constructor; [split; (discriminate || reflexivity)|]). constructor. }
  split; [exact Hb|]. apply (bootstrap_wire_canonical (encode demo_context) demo_context Hb).
  split; [exact demo_context_typed | split; reflexivity].
Defined.

(** ** What validation accepts *)

(** The coherence rules between the fields of a context. *)
Record coherent (c : BootstrapContext) : Prop := {
  co_header : magic c = MAGIC /\ abi_version c = 1 /\ struct_size c = 160;
  co_flags : flags c < 2 ^ 5;
  co_connector : exists k, connector c = connector_code k;
  co_reserved : reserved_word c = 0 /\ Forall (eq 0) (reserved c);
  co_fds : 2 < artifact_fd c /\ 2 < code_fd c /\ 2 < state_fd c /\
           artifact_fd c <> code_fd c /\ artifact_fd c <> state_fd c /\ code_fd c <> state_fd c;
  co_control : if Z.testbit (flags c) 4
               then 2 < control_fd c /\ control_fd c ∉ [artifact_fd c; code_fd c; state_fd c]
               else control_fd c = -1;
  co_artifact_len : 4096 <= artifact_len c <= 2 ^ 28;
  co_state_len : 4096 <= state_len c <= 2 ^ 40 /\ state_len c mod 4096 = 0;
  co_code_address : if Z.testbit (flags c) 2
                    then code_address c <> 0 /\ code_address c mod 4096 = 0
                    else code_address c = 0;
  co_state_address : if Z.testbit (flags c) 3
                     then state_address c <> 0 /\ state_address c mod 4096 = 0
                     else state_address c = 0;
  co_distinct : code_address c <> 0 -> code_address c <> state_address c;
  co_identity : generation c <> 0 /\ ~ Forall (eq 0) (api_fingerprint c) /\
                ~ Forall (eq 0) (artifact_sha256 c) /\ ~ Forall (eq 0) (instance_nonce c)
}.

Lemma contains_bit x k : 0 <= k -> contains x (Z.shiftl 1 k) = Z.testbit x k.
Proof.
  intros Hk. unfold contains. rewrite Z.shiftl_1_l, land_bit by done.
  destruct (Z.testbit x k); [apply Z.eqb_refl|]. apply Z.eqb_neq. lia.
Qed.

Lemma known_flags x : in_width 32 x -> Z.land x (not_bits 32 KNOWN) = 0 <-> x < 2 ^ 5.
Proof.
  unfold in_width. intros Hx. change KNOWN with (2 ^ 5 - 1). rewrite land_not_mask by lia. dlia.
Qed.

Lemma from_u32_ok x : is_ok (ok_or (from_u32 x) tt) = true <-> exists k, x = connector_code k.
Proof.
  unfold from_u32. split.
  - zb_case; subst; cbn; try done; intros _;
      [by exists Cooperative | by exists Preload | by exists Ptrace | by exists Trampoline].
  - by intros ([] & ->).
Qed.

Lemma all_zero_spec bs : all_zero bs = true <-> Forall (eq 0) bs.
Proof. apply forallb_zero. Qed.

Lemma validate_address_ok a (required : bool) role : validate_address a required role = Ok tt <->
  if required then a <> 0 /\ a mod 4096 = 0 else a = 0.
Proof.
  unfold validate_address, BOOTSTRAP_PAGE_SIZE. destruct required; rewrite reject_ok.
  - rewrite orb_false_iff, negb_false_iff, Z.eqb_eq, Z.eqb_neq. naive_solver.
  - rewrite negb_false_iff, Z.eqb_eq. naive_solver.
Qed.

Lemma validate_fd_ok fd role : validate_fd fd role = Ok tt <-> 2 < fd.
Proof. unfold validate_fd. rewrite reject_ok, Z.leb_gt. naive_solver. Qed.

Lemma control_ok c : 
  (if 0 <=? control_fd c then
     let? _x := validate_fd (control_fd c) ControlRole in
     reject (control_fd c =? artifact_fd c) || (control_fd c =? code_fd c)
            || (control_fd c =? state_fd c) with AliasedDescriptors ;; Ok tt
   else Ok tt) = Ok tt <->
  (0 <= control_fd c ->
   2 < control_fd c /\ control_fd c ∉ [artifact_fd c; code_fd c; state_fd c]).
Proof.
  destruct (Z.leb_spec 0 (control_fd c)).
  - rewrite bind_ok, validate_fd_ok, reject_ok, !orb_false_iff, !Z.eqb_neq.
    rewrite !not_elem_of_cons. assert (control_fd c ∉ ([] : list Z)) by apply not_elem_of_nil.
    intuition.
  - split; [lia | done].
Qed.

(** C9.  Validation accepts exactly the coherent contexts: descriptors above
    standard error and pairwise distinct, the control descriptor present exactly
    with its policy bit, bounded page-multiple lengths, fixed addresses present,
    page-aligned and distinct exactly with their policy bits, no unknown flag, a
    known connector, zero reserved bytes and nonzero identities. *)
Theorem bootstrap_validation_exact c : well_typed c -> validate c = Ok tt <-> coherent c.
Proof.
  intros Hwt. unfold validate, bootstrap_flags, connector_kind, REQUIRED, BOOTSTRAP_PAGE_SIZE,
    FIXED_CODE_ADDRESS, FIXED_STATE_ADDRESS, SCM_RIGHTS_TRANSPORT.
  rewrite !contains_bit by lia.
  repeat (rewrite ?reject_ok, ?bind_ok).
  rewrite !validate_address_ok, !validate_fd_ok, control_ok, !negb_false_iff, !orb_false_iff,
    !andb_false_iff, !negb_false_iff, bool_decide_eq_true, !Z.eqb_eq, !Z.eqb_neq, !Z.ltb_ge,
    from_u32_ok, known_flags, eqb_true_iff, all_zero_spec by apply Hwt.
  assert (Hnz : forall bs, all_zero bs = false <-> ~ Forall (eq 0) bs).
  { intros bs. rewrite <- all_zero_spec. by destruct (all_zero bs). }
  rewrite !Hnz.
  assert (Hbit : Z.testbit (flags c) 4 = (0 <=? control_fd c) <->
    (Z.testbit (flags c) 4 = true <-> 0 <= control_fd c)).
  { destruct (Z.leb_spec 0 (control_fd c)), (Z.testbit (flags c) 4); intuition (try done; lia). }
  rewrite Hbit. split.
  - intros H. decompose [and] H. constructor; auto.
    + by split_and!.
    + destruct (Z.testbit (flags c) 4); intuition lia.
    + tauto.
  - intros [(A1 & A2 & A3) A4 A5 (A6 & A7) (A8 & A9 & A10 & B1 & B2 & B3) A12 A13 (A14 & A15) A16 A17 A18 (A19 & A20 & A21 & A22)].
    unfold ABI_VERSION.
    assert (-1 <= control_fd c) by (destruct (Z.testbit (flags c) 4); lia).
    split_and!; try done; try tauto; try (destruct (Z.testbit (flags c) 4); intuition lia).
Qed.

Lemma bootstrap_validation_exact_witness : validate demo_context = Ok tt /\ coherent demo_context.
Proof.
  split; [reflexivity|].
  apply (bootstrap_validation_exact demo_context demo_context_typed). reflexivity.
Defined.

(** ** The descriptor syntax *)

(** The decimal numeral of [n]; [fuel] digits are enough below [10 ^ fuel]. *)
Fixpoint digits (fuel : nat) (n : Z) : list Z :=
  match fuel with
  | O => []
  | S fuel => if n <? 10 then [48 + n] else digits fuel (n / 10) ++ [48 + n mod 10]
  end.
Definition decimal (n : Z) : list Z := digits 10 n.

Definition push_digit (acc b : Z) : Z := acc * 10 + (b - 48).
Definition digit (b : Z) : Prop := 48 <= b <= 57.

Lemma is_ascii_digit_spec b : is_ascii_digit b = true <-> digit b.
Proof. unfold is_ascii_digit, digit. rewrite andb_true_iff, !Z.leb_le. done. Qed.

Lemma push_digits_le v acc : 0 <= acc -> Forall digit v -> acc <= foldl push_digit acc v.
Proof.
  intros Ha Hv. revert acc Ha. induction Hv as [|b v Hb Hv IH]; intros acc Ha; cbn; [lia|].
  unfold digit in Hb. etransitivity; [|apply IH]; unfold push_digit; lia.
Qed.

Lemma parse_digits_ok v p n : 0 <= p <= i32_max ->
  parse_digits p v = Ok n <-> (Forall digit v /\ n = foldl push_digit p v /\ n <= i32_max).
Proof.
  unfold i32_max. revert p. induction v as [|b v IH]; intros p Hp; cbn [parse_digits].
  { cbn. split; [intros [= <-]; split_and!; [constructor | done | lia] | by intros (_ & -> & _)]. }
  rewrite reject_ok, negb_false_iff, is_ascii_digit_spec, Forall_cons_iff. cbn [foldl].
  assert (Hpush : digit b -> match checked_mul 32 p 10 with Some k => checked_add 32 k (b - 48) | None => None end
    = if push_digit p b <? 2 ^ 32 then Some (push_digit p b) else None).
  { unfold digit, push_digit, checked_mul, checked_add. intros Hb.
    destruct (Z.ltb_spec (p * 10) (2 ^ 32)); [done|].
    destruct (Z.ltb_spec (p * 10 + (b - 48)) (2 ^ 32)); [lia | done]. }
  split.
  - intros [Hb Hk]. rewrite Hpush in Hk by done.
    destruct (Z.ltb_spec (push_digit p b) (2 ^ 32)); cbn in Hk; [|done].
    unfold i32_max in Hk. destruct (Z.ltb_spec (2 ^ 31 - 1) (push_digit p b)); [done|].
    apply IH in Hk as (H1 & H2 & H3); [by split_and!|]. unfold digit, push_digit in *. lia.
  - intros ((Hb & Hv) & -> & Hn). split; [done|]. rewrite Hpush by done.
    assert (Hpos : 0 <= push_digit p b) by (unfold digit, push_digit in *; lia).
    pose proof (push_digits_le v (push_digit p b) Hpos Hv) as Hle. unfold i32_max.
    destruct (Z.ltb_spec (push_digit p b) (2 ^ 32)); cbn; [|lia].
    destruct (Z.ltb_spec (2 ^ 31 - 1) (push_digit p b)); [lia|].
    apply IH; [lia | done].
Qed.

(** The value of a numeral without a redundant leading zero determines it. *)
Definition no_leading_zero (v : list Z) : Prop :=
  match v with [] => False | [b] => True | b :: _ => b <> 48 end.

Lemma numeral_positive b v : digit b -> b <> 48 -> Forall digit v -> 1 <= foldl push_digit 0 (b :: v).
Proof.
  intros Hb Hne Hv. cbn [foldl].
  assert (1 <= push_digit 0 b) by (unfold digit, push_digit in *; lia).
  pose proof (push_digits_le v (push_digit 0 b) ltac:(lia) Hv). lia.
Qed.

Lemma numeral_unique fuel v : Forall digit v -> no_leading_zero v -> (1 <= fuel)%nat ->
  foldl push_digit 0 v < 10 ^ Z.of_nat fuel -> digits fuel (foldl push_digit 0 v) = v.
Proof.
  revert fuel. induction v as [|d u IH] using rev_ind; [done|]. intros fuel Hd Hz Hf.
  apply Forall_app in Hd as [Hu Hd]. apply Forall_cons_1 in Hd as [Hd _]. unfold digit in Hd.
  rewrite foldl_app. cbn [foldl].
  assert (Hpush : forall w, push_digit w d = w * 10 + (d - 48)) by done.
  destruct fuel as [|fuel]; [lia|]. rewrite Hpush. intros Hlt. cbn [digits].
  destruct u as [|b u].
  { cbn [foldl app]. destruct (Z.ltb_spec (0 * 10 + (d - 48)) 10); [|lia]. f_equal. lia. }
  assert (Hb : b <> 48) by (by destruct u). pose proof Hu as Hu'.
  apply Forall_cons_1 in Hu' as [Hb' Hu'].
  pose proof (numeral_positive b u Hb' Hb Hu') as Hpos.
  set (w := foldl push_digit 0 (b :: u)) in *.
  destruct (Z.ltb_spec (w * 10 + (d - 48)) 10); [lia|].
  replace ((w * 10 + (d - 48)) / 10) with w by dlia.
  replace ((w * 10 + (d - 48)) mod 10) with (d - 48) by dlia.
  rewrite Nat2Z.inj_succ, Z.pow_succ_r in Hlt by lia.
  assert (fuel <> 0%nat) by (intros ->; change (10 ^ Z.of_nat 0) with 1 in Hlt; lia).
  rewrite IH; [f_equal; f_equal; lia | done | by destruct u | lia | lia].
Qed.

Lemma digits_numeral fuel n : 0 <= n < 10 ^ Z.of_nat fuel -> (1 <= fuel)%nat ->
  Forall digit (digits fuel n) /\ foldl push_digit 0 (digits fuel n) = n /\
  (1 <= n -> no_leading_zero (digits fuel n) /\ hd 48 (digits fuel n) <> 48).
Proof.
  revert n. induction fuel as [|fuel IH]; intros n Hn Hf; [lia|]. cbn [digits].
  destruct (Z.ltb_spec n 10) as [Hlt|Hge].
  { unfold push_digit, digit. cbn. split_and!; [|lia|split; [done | lia]].
    constructor; [lia | constructor]. }
  rewrite Nat2Z.inj_succ, Z.pow_succ_r in Hn by lia.
  assert (Hq : 0 <= n / 10 < 10 ^ Z.of_nat fuel) by (split; [dlia | apply Z.div_lt_upper_bound; lia]).
  destruct fuel as [|fuel]; [cbn in Hn; lia|].
  destruct (IH (n / 10) Hq) as (HA & HB & HC); [lia|]. destruct HC as [HC HD]; [dlia|].
  split_and!.
  - apply Forall_app. split; [done|]. constructor; [unfold digit; dlia | constructor].
  - rewrite foldl_app, HB. cbn. unfold push_digit. dlia.
  - intros _. destruct (digits (S fuel) (n / 10)) as [|b u]; [done|]. cbn in *.
    split; [by destruct u | done].
Qed.

(** The inherited-descriptor syntax is exactly strict decimal: a byte string
    is accepted as descriptor [n] if and only if [n] is above standard error, fits
    an [i32], and the string is its decimal numeral, so signs, blanks, leading
    zeros and overflowing values are all refused. *)
Theorem bootstrap_fd_exact v n :
  parse_bootstrap_fd v = Ok n <-> (2 < n <= i32_max /\ v = decimal n).
Proof.
  unfold parse_bootstrap_fd. split.
  - destruct v as [|b v]; [done|]. intros H. apply reject_ok in H as [Hz H].
    destruct (parse_digits 0 (b :: v)) as [fd|e] eqn:Hp; cbn in H; [|done].
    apply reject_ok in H as [H2 [= ->]]. apply Z.leb_gt in H2.
    apply parse_digits_ok in Hp as (Hd & -> & Hm); [|unfold i32_max; lia].
    split; [done|]. unfold decimal. symmetry. apply numeral_unique; [done| |lia|unfold i32_max in Hm; lia].
    destruct v as [|b' v]; [done|]. apply andb_false_iff in Hz as [Hz|Hz]; [done|].
    by apply Z.eqb_neq in Hz.
  - intros [Hn ->]. unfold i32_max in Hn.
    destruct (digits_numeral 10 n) as (HA & HB & HC); [lia..|]. fold (decimal n) in *.
    destruct HC as [HC HD]; [lia|]. destruct (decimal n) as [|b v] eqn:Hv; [done|]. cbn [hd] in HD.
    rewrite (proj2 (Z.eqb_neq b 48) HD), andb_false_r.
    assert (Hp : parse_digits 0 (b :: v) = Ok n).
    { apply parse_digits_ok; [unfold i32_max; lia|]. by split_and!; [| |unfold i32_max; lia]. }
    rewrite Hp. cbn. by destruct (Z.leb_spec n 2); [lia|].
Qed.

(** ** The call gate *)

Definition gate_word (d : bool) (c : Z) : Z := (if d then 1 else 0) * 2 ^ 31 + c.

Lemma gate_fields d c : 0 <= c <= ACTIVE_MASK ->
  Z.land (gate_word d c) ACTIVE_MASK = c /\ (Z.land (gate_word d c) DISABLED_BIT =? 0) = negb d /\
  Z.lor (gate_word d c) DISABLED_BIT = gate_word true c.
Proof.
  unfold ACTIVE_MASK, DISABLED_BIT, gate_word. intros Hc. split_and!.
  - rewrite land_mask by lia. rewrite Z.add_comm, Z.mod_add by lia. apply Z.mod_small. lia.
  - rewrite land_bit_eqb, testbit_pack by lia. by destruct d.
  - change (2 ^ 31) with (1 * 2 ^ 31 + 0) at 2. rewrite lor_pack, Z.lor_0_r by lia. by destruct d.
Qed.

Lemma gate_word_inj d c d' c' : 0 <= c <= ACTIVE_MASK -> 0 <= c' <= ACTIVE_MASK ->
  gate_word d c = gate_word d' c' -> d = d' /\ c = c'.
Proof. unfold gate_word, ACTIVE_MASK, DISABLED_BIT. destruct d, d'; lia || (split; [done|lia]). Qed.

(** A hook makes [calls] calls through the gate; it panics when the context that
    it uses has been retired.  The retiring thread disables the gate, waits for
    the admitted calls and retires the context. *)
Fixpoint hook (fuel : nat) (calls : nat) : prog gcell unit :=
  match calls with
  | O => Ret tt
  | S calls =>
      let! admitted := try_enter fuel in
      match admitted with
      | None => Ret tt
      | Some _ =>
          let! v := load Context in
          if v =? 0 then do! call_drop ;; hook fuel calls else Panic
      end
  end.

Definition retire (fuel : nat) : prog gcell unit :=
  let! n := disable in
  if n =? 0 then store Context 1
  else
    loop fuel (fun _ : unit =>
      let! a := active_calls in
      if a =? 0 then do! store Context 1 ;; Ret (inr tt) else Ret (inl tt)) tt.

(** [Call] is an admitted call; [Disabled] and [Drained] are knowledge. *)
Inductive gtok := Call | Disabled | Drained.
#[export] Instance gtok_eq_dec : EqDecision gtok.
Proof. solve_decision. Defined.
#[export] Instance gtok_countable : Countable gtok.
Proof.
  apply (inj_countable' (fun t => match t with Call => 0 | Disabled => 1 | Drained => 2 end)
    (fun n => match n with 0 => Call | 1 => Disabled | _ => Drained end)). by intros [].
Defined.

Definition gate_inv (m : gcell -> Z) (r : gmultiset gtok) : Prop :=
  exists d, m Gate = gate_word d (mult Call r) /\ mult Call r <= ACTIVE_MASK /\
    (mult Disabled r <> 0 -> d = true) /\
    (mult Drained r <> 0 \/ m Context <> 0 -> d = true /\ mult Call r = 0).

Ltac gtoks := autorewrite with mult in *; repeat (case_decide; try congruence); try lia.

Lemma try_enter_gate fuel r : wp gate_inv (try_enter fuel) r (fun x r' =>
  match x with Some _ => r' = r ⊎ {[+ Call +]} | None => r' = r end).
Proof.
  apply wp_bind, wp_load. intros m fr HI. exists r. split; [done|].
  apply (wp_loop _ (fun w r' => r' = r /\ exists d c, w = gate_word d c /\ 0 <= c <= ACTIVE_MASK)).
  2: { split; [done|]. destruct HI as (d & Hw & Hb & _). exists d, (mult Call (r ⊎ fr)).
       pose proof (mult_nonneg Call (r ⊎ fr)). split; [done | lia]. }
  intros w r' (-> & d & c & -> & Hc). unfold try_enter_body.
  destruct (gate_fields d c Hc) as (-> & -> & _). rewrite negb_involutive.
  destruct d; cbn [orb]; [done|]. destruct (Z.eqb_spec c ACTIVE_MASK); [done|].
  apply wp_bind, wp_cas_weak.
  - intros m' fr' (d & Hw & Hb & Hd & Hr) Hm. rewrite Hm in Hw. pose proof (mult_nonneg Call (r ⊎ fr')).
    apply gate_word_inj in Hw as [<- ->]; [|lia..]. exists (r ⊎ {[+ Call +]}). split; [|done].
    exists false. rewrite upd_eq, upd_ne by done.
    assert (mult Call (r ⊎ {[+ Call +]} ⊎ fr') = mult Call (r ⊎ fr') + 1) as -> by gtoks.
    assert (mult Disabled (r ⊎ {[+ Call +]} ⊎ fr') = mult Disabled (r ⊎ fr')) as -> by gtoks.
    assert (mult Drained (r ⊎ {[+ Call +]} ⊎ fr') = mult Drained (r ⊎ fr')) as -> by gtoks.
    split_and!; [| lia | done | by intros [? _]%Hr].
    unfold gate_word, wrap, ACTIVE_MASK, DISABLED_BIT in *. rewrite Z.mod_small by lia. lia.
  - intros m' fr' HI'. exists r. split; [done|]. cbn. split; [done|].
    destruct HI' as (d & Hw & Hb & _). exists d, (mult Call (r ⊎ fr')).
    pose proof (mult_nonneg Call (r ⊎ fr')). split; [done | lia].
Qed.

Lemma call_drop_gate r : wp gate_inv call_drop (r ⊎ {[+ Call +]}) (fun _ r' => r' = r).
Proof.
  apply wp_bind, wp_fetch_sub. intros m fr (d & Hw & Hb & Hd & Hr). exists r.
  assert (Hm : mult Call (r ⊎ {[+ Call +]} ⊎ fr) = mult Call (r ⊎ fr) + 1) by gtoks.
  assert (HD : mult Disabled (r ⊎ {[+ Call +]} ⊎ fr) = mult Disabled (r ⊎ fr)) by gtoks.
  assert (HR : mult Drained (r ⊎ {[+ Call +]} ⊎ fr) = mult Drained (r ⊎ fr)) by gtoks.
  rewrite Hm, HD, HR in *. pose proof (mult_nonneg Call (r ⊎ fr)). split.
  - exists d. rewrite upd_eq, upd_ne by done. split_and!; [| lia | done | intros [_ ?]%Hr; lia].
    rewrite Hw. unfold gate_word, wrap, ACTIVE_MASK, DISABLED_BIT in *. rewrite Z.mod_small; destruct d; lia.
  - rewrite Hw. destruct (gate_fields d (mult Call (r ⊎ fr) + 1)) as (-> & _); [lia|].
    by destruct (Z.eqb_spec (mult Call (r ⊎ fr) + 1) 0); [lia|].
Qed.

Lemma hook_gate fuel calls : wp gate_inv (hook fuel calls) ∅ (fun _ _ => True).
Proof.
  induction calls as [|calls IH]; [done|]. cbn [hook]. apply wp_bind.
  eapply wp_mono, try_enter_gate. intros [[]|] r ->; [|done].
  apply wp_bind, wp_load. intros m fr HI. exists (∅ ⊎ {[+ Call +]}). split; [done|].
  destruct (Z.eqb_spec (m Context) 0) as [|Hne].
  - apply wp_bind. eapply wp_mono, call_drop_gate. by intros [] r ->.
  - destruct HI as (d & _ & _ & _ & [_ Hz]); [by right|]. revert Hz.
    autorewrite with mult. pose proof (mult_nonneg Call fr). rewrite decide_True by done. lia.
Qed.

(** Learning that the gate is drained. *)
Lemma learn_drained m r fr : gate_inv m (r ⊎ fr) -> mult Disabled r <> 0 ->
  mult Call (r ⊎ fr) = 0 -> gate_inv m (r ⊎ {[+ Drained +]} ⊎ fr).
Proof.
  intros (d & Hw & Hb & Hd & Hr) Hk Hz.
  assert (d = true) as ->.
  { apply Hd. autorewrite with mult. pose proof (mult_nonneg Disabled r).
    pose proof (mult_nonneg Disabled fr). lia. }
  assert (Hm : mult Call (r ⊎ {[+ Drained +]} ⊎ fr) = 0) by (rewrite <- Hz; gtoks).
  exists true. rewrite Hm. rewrite Hz in Hw, Hb. by split_and!.
Qed.

Lemma store_context r : wp gate_inv (store Context 1) (r ⊎ {[+ Drained +]}) (fun _ _ => True).
Proof.
  apply wp_store. intros m fr (d & Hw & Hb & Hd & Hr). exists (r ⊎ {[+ Drained +]}). split; [|done].
  exists d. rewrite upd_ne by done. split_and!; try done. intros _. apply Hr. left.
  autorewrite with mult. rewrite decide_True by done. pose proof (mult_nonneg Drained r).
  pose proof (mult_nonneg Drained fr). lia.
Qed.

Lemma retire_gate fuel : wp gate_inv (retire fuel) ∅ (fun _ _ => True).
Proof.
  apply wp_bind, wp_bind, wp_fetch_or. intros m fr (d & Hw & Hb & Hd & Hr).
  pose proof (mult_nonneg Call (∅ ⊎ fr)).
  destruct (gate_fields d (mult Call (∅ ⊎ fr))) as (Hn & _ & Hlor); [lia|].
  assert (HI : gate_inv (upd m Gate (Z.lor (m Gate) DISABLED_BIT)) (∅ ⊎ {[+ Disabled +]} ⊎ fr)).
  { exists true. rewrite upd_eq, upd_ne, Hw, Hlor by done.
    assert (mult Call (∅ ⊎ {[+ Disabled +]} ⊎ fr) = mult Call (∅ ⊎ fr)) as -> by gtoks.
    assert (mult Drained (∅ ⊎ {[+ Disabled +]} ⊎ fr) = mult Drained (∅ ⊎ fr)) as -> by gtoks.
    split_and!; try done. intros Hx. split; [done|]. by apply Hr. }
  rewrite Hw, Hn. destruct (Z.eq_dec (mult Call (∅ ⊎ fr)) 0) as [Hz|n].
  - exists (∅ ⊎ {[+ Disabled +]} ⊎ {[+ Drained +]}). split; [|apply wp_ret; rewrite Hz; apply store_context].
    rewrite <- Hw. apply learn_drained; [done | |].
    + autorewrite with mult. by rewrite decide_True.
    + rewrite <- Hz. gtoks.
  - exists (∅ ⊎ {[+ Disabled +]}). rewrite <- Hw. split; [done|]. apply wp_ret.
    rewrite (proj2 (Z.eqb_neq _ _) n).
    apply (wp_loop _ (fun _ r => r = ∅ ⊎ {[+ Disabled +]})); [|done]. intros [] r ->.
    apply wp_bind, wp_bind, wp_load. intros m' fr' HI'.
    pose proof HI' as (d' & Hw' & Hb' & _). pose proof (mult_nonneg Call (∅ ⊎ {[+ Disabled +]} ⊎ fr')).
    rewrite Hw'. destruct (gate_fields d' (mult Call (∅ ⊎ {[+ Disabled +]} ⊎ fr'))) as (-> & _); [lia|].
    destruct (Z.eq_dec (mult Call (∅ ⊎ {[+ Disabled +]} ⊎ fr')) 0) as [Hz|n'].
    + exists (∅ ⊎ {[+ Disabled +]} ⊎ {[+ Drained +]}). split.
      * apply learn_drained; [done | | done]. autorewrite with mult. by rewrite decide_True.
      * apply wp_ret. rewrite Hz. apply wp_bind. eapply wp_mono, store_context. by intros [].
    + exists (∅ ⊎ {[+ Disabled +]}). split; [done|]. apply wp_ret. by rewrite (proj2 (Z.eqb_neq _ _) n').
Qed.

(** C10.  In every interleaving of any number of hooks and retiring threads on a
    fresh gate, no admitted call ever uses the adapter's context after it was
    retired, and no call is counted down below zero. *)
Theorem gate_protects_context fuel (hooks : list nat) (retirers : nat) m ts i :
  rtc pstep ((fun _ => 0), (hook fuel <$> hooks) ++ replicate retirers (retire fuel)) (m, ts) ->
  ts !! i <> Some Panic.
Proof.
  intros Hs. apply (pool_no_panic gate_inv (fun _ _ => True) _ (m, ts) i Hs). apply pool_ok_start.
  - exists false. rewrite !mult_empty. split_and!; try done. by intros [].
  - apply Forall_app. split.
    + apply Forall_fmap, Forall_true. intros n. apply hook_gate.
    + apply Forall_replicate, retire_gate.
Qed.

Definition gate_demo : (gcell -> Z) * list (prog gcell unit) :=
  run_schedule ((fun _ => 0), (hook 5 <$> [2; 1]%nat) ++ replicate 1 (retire 5)) (round_robin 3 12).

Lemma gate_protects_context_witness : gate_demo.1 Context = 1 /\ gate_demo.2 !! 0%nat <> Some Panic.
Proof.
  split; [vm_compute; reflexivity|].
  apply (gate_protects_context 5 [2; 1]%nat 1 gate_demo.1 gate_demo.2 0).
  rewrite <- surjective_pairing. apply run_schedule_steps.
Defined.

(** The fork barrier: disable, let [k] of the admitted calls end, reset. *)
Fixpoint drop_calls (k : nat) : prog gcell unit :=
  match k with O => Ret tt | S k => do! call_drop ;; drop_calls k end.

Definition fork_barrier (k : nat) : prog gcell (Z * result unit GateResetError) :=
  let! n := disable in do! drop_calls k ;; let! x := reset_after_fork in Ret (n, x).

Lemma drop_calls_solo k c (m : gcell -> Z) Φ : m Gate = gate_word true c ->
  Z.of_nat k <= c <= ACTIVE_MASK ->
  (forall m', m' Gate = gate_word true (c - Z.of_nat k) -> Φ tt m') -> solo (drop_calls k) m Φ.
Proof.
  revert c m. induction k as [|k IH]; intros c m Hw Hc HΦ.
  { apply HΦ. by rewrite Z.sub_0_r. }
  cbn [drop_calls]. rewrite solo_bind. unfold call_drop. rewrite solo_bind. cbn. unfold apply_rmw.
  rewrite Hw. destruct (gate_fields true c) as (-> & _); [lia|].
  destruct (Z.eqb_spec c 0); [lia|]. apply (IH (c - 1)); [|lia|].
  - rewrite upd_eq. unfold gate_word, wrap, ACTIVE_MASK, DISABLED_BIT in *. rewrite Z.mod_small; lia.
  - intros m' Hm'. apply HΦ. rewrite Hm'. f_equal. lia.
Qed.

(** The fork barrier is fail-closed: with [c] admitted calls of which [k] end
    after the gate is disabled, the reset succeeds and re-enables an empty gate
    exactly when all of them ended; otherwise it reports the disabled state and
    the exact number of live calls and leaves the gate word untouched. *)
Theorem gate_fork_barrier k c (m : gcell -> Z) : m Gate = c -> Z.of_nat k <= c <= ACTIVE_MASK ->
  exists m', run (fork_barrier k) m =
    (Done (c, if Z.of_nat k =? c then Ok tt
              else Err {| disabled := true; reset_active_calls := c - Z.of_nat k |}), m') /\
    m' Gate = if Z.of_nat k =? c then 0 else DISABLED_BIT + (c - Z.of_nat k).
Proof.
  intros Hw Hc. assert (Hword : m Gate = gate_word false c) by (rewrite Hw; unfold gate_word; lia).
  destruct (solo_run (fork_barrier k) m (fun a m' =>
    a = (c, if Z.of_nat k =? c then Ok tt
            else Err {| disabled := true; reset_active_calls := c - Z.of_nat k |}) /\
    m' Gate = if Z.of_nat k =? c then 0 else DISABLED_BIT + (c - Z.of_nat k)))
    as (a & m' & Hrun & -> & Hm'); [|by exists m'].
  unfold fork_barrier, disable. rewrite !solo_bind, solo_fetch_or, Hword.
  destruct (gate_fields false c) as (Hn & _ & ->); [lia|].
  cbn [solo]. rewrite solo_bind. apply (drop_calls_solo k c); [by rewrite upd_eq | lia |].
  intros m1 Hm1. rewrite Hn. unfold reset_after_fork. rewrite !solo_bind, solo_cas, Hm1.
  destruct (gate_fields true (c - Z.of_nat k)) as (HA & HB & _); [lia|].
  destruct (Z.eqb_spec (Z.of_nat k) c) as [<-|Hne].
  - rewrite Z.sub_diag. cbn. by rewrite upd_eq.
  - destruct (Z.eqb_spec (gate_word true (c - Z.of_nat k)) DISABLED_BIT) as [Heq|_].
    + exfalso. revert Heq. unfold gate_word, DISABLED_BIT. lia.
    + cbn. rewrite HA, HB. split; [done|]. rewrite Hm1. unfold gate_word, DISABLED_BIT. lia.
Qed.

Lemma gate_fork_barrier_witness :
  exists m', run (fork_barrier 2) (fun _ => 3) =
    (Done (3, Err {| disabled := true; reset_active_calls := 1 |}), m') /\ m' Gate = DISABLED_BIT + 1.
Proof.
  apply (gate_fork_barrier 2 3 (fun _ => 3)); [reflexivity|].
  split; vm_compute; discriminate.
Defined.
