(* ===== verification/Compose.v ===== *)
(** Composition of verified components.

    A component is verified over its own cells and its own tokens.  [lift] runs
    its programs at the place its cells have in a larger memory, [mproj] selects
    its tokens among those of the larger system, and [wp_lift] carries its
    specifications over. *)

From stdpp Require Import gmultiset.
From Stdlib Require Import FunctionalExtensionality.
From S2P Require Import Prelude Conc.

(** ** Selecting tokens *)

Section Projection.
Context {T U : Type} `{Countable T} `{Countable U}.
Implicit Types (r : gmultiset T) (f : T -> option U).

Definition mproj f r : gmultiset U := list_to_set_disj (omap f (elements r)).

Lemma mproj_empty f : mproj f ∅ = ∅.
Proof. unfold mproj. by rewrite gmultiset_elements_empty. Qed.

Lemma mproj_union f r1 r2 : mproj f (r1 ⊎ r2) = mproj f r1 ⊎ mproj f r2.
Proof.
  unfold mproj. rewrite <- list_to_set_disj_app, <- omap_app.
  by rewrite gmultiset_elements_disj_union.
Qed.

Lemma mproj_single f t :
  mproj f {[+ t +]} = match f t with Some u => {[+ u +]} | None => ∅ end.
Proof.
  unfold mproj. rewrite gmultiset_elements_singleton. cbn.
  destruct (f t) as [u|]; [|done]. by rewrite list_to_set_disj_cons, list_to_set_disj_nil, gmultiset_disj_union_right_id.
Qed.

Lemma mproj_map f (g : U -> T) (s : gmultiset U) : (forall u, f (g u) = Some u) ->
  mproj f (gmultiset_map g s) = s.
Proof.
  intros Hf. induction s as [|u s IH] using gmultiset_ind.
  - by rewrite gmultiset_map_empty, mproj_empty.
  - by rewrite gmultiset_map_disj_union, gmultiset_map_singleton, mproj_union, mproj_single, Hf, IH.
Qed.

Lemma mult_mproj f (g : U -> T) u r : (forall t, f t = Some u <-> t = g u) ->
  mult u (mproj f r) = mult (g u) r.
Proof.
  intros Hf. induction r as [|t r IH] using gmultiset_ind; [by rewrite mproj_empty|].
  rewrite mproj_union, !mult_union, IH, mproj_single. f_equal. rewrite mult_single.
  case_decide as Heq.
  - rewrite (proj2 (Hf t)) by done. by rewrite mult_single, decide_True.
  - destruct (f t) as [u'|] eqn:E; [|apply mult_empty].
    rewrite mult_single, decide_False; [done|]. intros ->. apply Heq. symmetry. by apply Hf.
Qed.

Lemma mult_map_other (g : U -> T) t (s : gmultiset U) : (forall u, t <> g u) ->
  mult t (gmultiset_map g s) = 0.
Proof.
  intros Ht. induction s as [|u s IH] using gmultiset_ind; [by rewrite gmultiset_map_empty|].
  rewrite gmultiset_map_disj_union, gmultiset_map_singleton, mult_union, IH, mult_single.
  by rewrite decide_False by apply Ht.
Qed.
End Projection.

Create Rewrite HintDb mproj.
#[export] Hint Rewrite @mproj_empty @mproj_union @mproj_single : mproj.

(** ** Programs at a place *)

Fixpoint lift {L L' A} (place : L -> L') (p : prog L A) : prog L' A :=
  match p with
  | Ret a => Ret a
  | Panic => Panic
  | Spin => Spin
  | Rmw l f k => Rmw (place l) f (fun v => lift place (k v))
  | Choose k => Choose (fun b => lift place (k b))
  end.

Lemma upd_id {L} `{EqDecision L} (m : L -> Z) l v : m l = v -> upd m l v = m.
Proof.
  intros <-. apply functional_extensionality. intros l'. unfold upd. by case_decide; subst.
Qed.

Section Lift.
Context {L L' T T' : Type} `{EqDecision L} `{EqDecision L'} `{Countable T} `{Countable T'}.
Variable place : L -> L'.
Context `{!Inj (=) (=) place}.

Lemma upd_place (m : L' -> Z) l v :
  (fun c => upd m (place l) v (place c)) = upd (fun c => m (place c)) l v.
Proof.
  apply functional_extensionality. intros c. unfold upd.
  destruct (decide (c = l)) as [->|Hne]; [by rewrite decide_True|].
  rewrite decide_False; [done|]. intros Heq. by apply Hne, (inj place).
Qed.

Lemma apply_rmw_place (m : L' -> Z) l f :
  (fun c => apply_rmw m (place l) f (place c)) = apply_rmw (fun c => m (place c)) l f.
Proof. unfold apply_rmw. destruct (f (m (place l))); [apply upd_place | done]. Qed.

(** The component's tokens [r] appear as [inject r] next to the tokens [c] that
    its thread keeps; any state of the large system contains a state of the
    component, and a step of the component yields a state of the large system. *)
Variable (I : (L -> Z) -> gmultiset T -> Prop) (I' : (L' -> Z) -> gmultiset T' -> Prop).
Variable inject : gmultiset T -> gmultiset T'.

Definition embeds (c : gmultiset T') : Prop := forall m r fr, I' m (inject r ⊎ c ⊎ fr) ->
  exists fr0, I (fun l => m (place l)) (r ⊎ fr0) /\
    forall m' r', I (fun l => m' (place l)) (r' ⊎ fr0) ->
      (forall l', (forall l, l' <> place l) -> m' l' = m l') -> I' m' (inject r' ⊎ c ⊎ fr).

Lemma wp_lift {A} c (p : prog L A) r Φ : embeds c -> wp I p r Φ ->
  wp I' (lift place p) (inject r ⊎ c) (fun a x => exists r', x = inject r' ⊎ c /\ Φ a r').
Proof.
  intros Hemb. revert r. induction p as [a| | |l f k IH|k IH]; cbn; intros r Hp; try done.
  - by exists r.
  - intros m fr HI. destruct (Hemb m r fr HI) as (fr0 & HI0 & Hback).
    destruct (Hp _ _ HI0) as (r' & HI1 & Hk). exists (inject r' ⊎ c). split; [|by apply IH].
    apply Hback; [by rewrite apply_rmw_place|]. intros l' Hl'. unfold apply_rmw.
    destruct (f (m (place l))); [|done]. by apply upd_ne.
  - intros b. by apply IH.
Qed.
End Lift.

(** Words that the invariant fixes are read as they are. *)
Lemma wp_load_all {L T} `{EqDecision L} `{Countable T} (I : (L -> Z) -> gmultiset T -> Prop)
    ls vs r Φ :
  length vs = length ls -> (forall m fr, I m (r ⊎ fr) -> map m ls = vs) -> Φ vs r ->
  wp I (load_all ls) r Φ.
Proof.
  revert vs Φ. induction ls as [|l ls IH]; intros [|v vs] Φ Hlen Hls HΦ; try done.
  cbn [load_all]. apply wp_bind, wp_load. intros m fr HI. exists r. split; [done|].
  pose proof (Hls m fr HI) as Hm. cbn in Hm. simplify_eq. apply wp_bind.
  apply (IH (map m ls)); [by rewrite length_map | | done].
  intros m' fr' HI'. specialize (Hls m' fr' HI'). cbn in Hls. by simplify_eq.
Qed.

(** ** Facts about a whole pool *)

Section Pools.
Context {L T A : Type} `{EqDecision L} `{Countable T}.
Variable I : (L -> Z) -> gmultiset T -> Prop.
Implicit Types (c : (L -> Z) * list (prog L A)) (Φ : A -> gmultiset T -> Prop).

(** The tokens of a thread that has returned. *)
Lemma pool_result Φ c i a : pool_ok I Φ c -> c.2 !! i = Some (Ret a) ->
  exists r fr, Φ a r /\ I c.1 (r ⊎ fr).
Proof.
  intros (rs & Hall & HI) Hi. destruct (Forall2_lookup_l _ _ _ _ _ Hall Hi) as (r & Hr & Hwp).
  destruct (disj_union_list_insert rs i r Hr) as (fr & Heq & _). exists r, fr.
  split; [exact Hwp|]. by rewrite <- Heq.
Qed.

Lemma pool_two_results Φ c i j a b : pool_ok I Φ c -> i <> j ->
  c.2 !! i = Some (Ret a) -> c.2 !! j = Some (Ret b) ->
  exists r r' fr, Φ a r /\ Φ b r' /\ I c.1 (r ⊎ r' ⊎ fr).
Proof.
  intros (rs & Hall & HI) Hij Hi Hj.
  destruct (Forall2_lookup_l _ _ _ _ _ Hall Hi) as (r & Hr & Hwp).
  destruct (Forall2_lookup_l _ _ _ _ _ Hall Hj) as (r' & Hr' & Hwp').
  destruct (disj_union_list_insert rs i r Hr) as (fr & Heq & Hins).
  destruct (disj_union_list_insert (<[i := ∅]> rs) j r') as (fr' & Heq' & _).
  { by rewrite list_lookup_insert_ne. }
  rewrite Hins in Heq'. exists r, r', fr'. split; [exact Hwp|]. split; [exact Hwp'|].
  rewrite Heq in HI. replace (r ⊎ r' ⊎ fr') with (r ⊎ fr); [done|].
  rewrite <- (gmultiset_disj_union_left_id fr), Heq'. multiset_solver.
Qed.

(** A thread that has returned takes no further step. *)
Lemma pool_ret_stays c c' i a : rtc pstep c c' -> c.2 !! i = Some (Ret a) -> c'.2 !! i = Some (Ret a).
Proof.
  induction 1 as [|x y z Hst _ IH]; [done|]. intros Hi. apply IH.
  destruct Hst as [m m' ts k p p' Hk Hst]. cbn in *.
  destruct (decide (k = i)) as [->|Hne]; [|by rewrite list_lookup_insert_ne].
  rewrite Hi in Hk. simplify_eq. by inversion Hst.
Qed.

(** Tokens kept aside by an observer stay valid. *)
Lemma wp_frame_inv x (p : prog L A) r Φ : wp I p r Φ -> wp (fun m r => I m (x ⊎ r)) p r Φ.
Proof.
  revert r. induction p as [a| | |l f k IH|k IH]; cbn; intros r Hp; try done.
  - intros m fr HI. destruct (Hp m (x ⊎ fr)) as (r' & HI' & Hk).
    + by replace (r ⊎ (x ⊎ fr)) with (x ⊎ (r ⊎ fr)) by multiset_solver.
    + exists r'. split; [|by apply IH].
      by replace (x ⊎ (r' ⊎ fr)) with (r' ⊎ (x ⊎ fr)) by multiset_solver.
  - intros b. by apply IH.
Qed.

Lemma pool_observe Φ c c' (P : gmultiset T -> Prop) : rtc pstep c c' -> pool_ok I Φ c ->
  (forall r, I c.1 r -> exists x, P x /\ I c.1 (x ⊎ r)) ->
  exists x r, P x /\ I c'.1 (x ⊎ r).
Proof.
  intros Hs (rs & Hall & HI) Hobs. destruct (Hobs _ HI) as (x & Hx & HI').
  destruct (pool_adequacy (fun m r => I m (x ⊎ r)) Φ c c' Hs) as (rs' & _ & HI2).
  - exists rs. split; [|done]. eapply Forall2_impl; [|exact Hall]. intros p r. apply wp_frame_inv.
  - by exists x, (⋃+ rs').
Qed.
End Pools.
