(* ===== verification/Migration.v ===== *)
(** Schema migration: [shmem_exec_obj/v2/src/migration.rs].

    Identities of schemas, backings and generations; migration plans; the one-shot
    control record; the linear handles of a migrator with their destructors; and
    the witnesses of source quiescence.

    The fields of [MigrationControl] are the cells of [ccell]; [Rest] holds the
    rest of the shared memory, where the source's admission gate lives.  A witness
    that borrows a gate is modelled with the place of the gate's cells. *)

From S2P Require Import Prelude Conc Compose Snzi Mapping Admission.

(** ** Identities *)

Record SchemaIdentity := { version : Z; fingerprint_low : Z; fingerprint_high : Z }.

Definition schema_new (version fingerprint : Z) : SchemaIdentity :=
  {| version := version;
     fingerprint_low := wrap 64 fingerprint;
     fingerprint_high := wrap 64 (Z.shiftr fingerprint 64) |}.

Definition fingerprint (s : SchemaIdentity) : Z :=
  Z.lor (Z.shiftl (fingerprint_high s) 64) (fingerprint_low s).

(** The constants of a type that implements the trait [MigrationSchema]. *)
Class MigrationSchema := { SCHEMA_VERSION : Z; SCHEMA_FINGERPRINT : Z }.

Definition schema_of (T : MigrationSchema) : SchemaIdentity :=
  schema_new SCHEMA_VERSION SCHEMA_FINGERPRINT.

(** [BackingIdentity([u64; 4])] and [AuthorityIdentity([u64; 2])] *)
Record BackingIdentity := { b0 : Z; b1 : Z; b2 : Z; b3 : Z }.
Record AuthorityIdentity := { a0 : Z; a1 : Z }.

Definition backing_new (bytes : list Z) : BackingIdentity :=
  {| b0 := of_le_bytes (slice 0 8 bytes); b1 := of_le_bytes (slice 8 16 bytes);
     b2 := of_le_bytes (slice 16 24 bytes); b3 := of_le_bytes (slice 24 32 bytes) |}.

Definition backing_to_bytes (b : BackingIdentity) : list Z :=
  to_le_bytes 8 (b0 b) ++ to_le_bytes 8 (b1 b) ++ to_le_bytes 8 (b2 b) ++ to_le_bytes 8 (b3 b).

Definition backing_is_zero (b : BackingIdentity) : bool :=
  (b0 b =? 0) && (b1 b =? 0) && (b2 b =? 0) && (b3 b =? 0).

Definition authority_new (bytes : list Z) : AuthorityIdentity :=
  {| a0 := of_le_bytes (slice 0 8 bytes); a1 := of_le_bytes (slice 8 16 bytes) |}.

Definition authority_to_bytes (a : AuthorityIdentity) : list Z :=
  to_le_bytes 8 (a0 a) ++ to_le_bytes 8 (a1 a).

Definition authority_is_zero (a : AuthorityIdentity) : bool := (a0 a =? 0) && (a1 a =? 0).

Record GenerationIdentity := {
  schema : SchemaIdentity;
  region_id : Z;
  sequence : Z;
  backing : BackingIdentity
}.

Definition for_schema (T : MigrationSchema) (region_id sequence : Z) (backing : BackingIdentity) :
    GenerationIdentity :=
  {| schema := schema_of T; region_id := region_id; sequence := sequence; backing := backing |}.

Record MigrationPlan := {
  transaction_id : Z;
  source : GenerationIdentity;
  target : GenerationIdentity;
  target_authority : AuthorityIdentity
}.

#[export] Instance schema_eq_dec : EqDecision SchemaIdentity.
Proof. solve_decision. Defined.
#[export] Instance backing_eq_dec : EqDecision BackingIdentity.
Proof. solve_decision. Defined.
#[export] Instance authority_eq_dec : EqDecision AuthorityIdentity.
Proof. solve_decision. Defined.
#[export] Instance generation_eq_dec : EqDecision GenerationIdentity.
Proof. solve_decision. Defined.
#[export] Instance plan_eq_dec : EqDecision MigrationPlan.
Proof. solve_decision. Defined.

(** ** Phases and errors *)

Definition UNINITIALIZED : Z := 0.
Definition INITIALIZING : Z := 1.
Definition COPYING : Z := 2.
Definition TARGET_READY : Z := 3.
Definition COMMITTED : Z := 4.
Definition RECLAIMED : Z := 5.
Definition POISONED : Z := 6.

Inductive MigrationPhase :=
| PUninitialized | PInitializing | PCopying | PTargetReady | PCommitted | PReclaimed | PPoisoned.
#[export] Instance migration_phase_eq_dec : EqDecision MigrationPhase.
Proof. solve_decision. Defined.

Inductive MigrationError :=
| ZeroSchemaVersion
| ZeroTransactionId
| ZeroRegionId
| ZeroGenerationSequence
| ZeroBackingIdentity
| ZeroAuthorityIdentity
| ReusedRegionId
| ReusedBackingIdentity
| GenerationDidNotIncrease (source target : Z)
| VersionDidNotIncrease (source target : Z)
| UnsupportedSchema (observed current : SchemaIdentity)
| SourceNotDrained
| SourcePlanMismatch
    (bound_transaction_id supplied_transaction_id bound_source_tag supplied_source_tag
     bound_target_tag supplied_target_tag : Z)
    (bound_authority supplied_authority : AuthorityIdentity)
    (transaction_matches source_matches target_matches authority_matches : bool)
| TargetGenerationMismatch (expected_tag observed_tag : Z)
| TargetAuthorityMismatch (expected observed : AuthorityIdentity)
| TargetAlreadyPublished
| MigrationWrongPhase (expected actual : MigrationPhase)
| CorruptPhase (raw : Z)
| CorruptMetadata
| TransactionMismatch
| NoAuthoritativeGeneration (phase : MigrationPhase)
| MappingFailure (e : MappingError).

Definition migration_phase_decode (raw : Z) : result MigrationPhase MigrationError :=
  if raw =? UNINITIALIZED then Ok PUninitialized
  else if raw =? INITIALIZING then Ok PInitializing
  else if raw =? COPYING then Ok PCopying
  else if raw =? TARGET_READY then Ok PTargetReady
  else if raw =? COMMITTED then Ok PCommitted
  else if raw =? RECLAIMED then Ok PReclaimed
  else if raw =? POISONED then Ok PPoisoned
  else Err (CorruptPhase raw).

Definition has_published_plan (p : MigrationPhase) : bool :=
  match p with PCopying | PTargetReady | PCommitted | PReclaimed => true | _ => false end.

Inductive AuthoritativeGeneration := AuthSource | AuthTarget.

Record MigrationSnapshot := { snap_phase : MigrationPhase; snap_plan : option MigrationPlan }.

Definition authoritative (s : MigrationSnapshot) : option AuthoritativeGeneration :=
  match snap_phase s with
  | PCopying | PTargetReady => Some AuthSource
  | PCommitted | PReclaimed => Some AuthTarget
  | _ => None
  end.

(** ** Validation and negotiation *)

Definition schema_validate (s : SchemaIdentity) : result unit MigrationError :=
  if version s =? 0 then Err ZeroSchemaVersion else Ok tt.

Definition generation_validate (g : GenerationIdentity) : result unit MigrationError :=
  let? _ := schema_validate (schema g) in
  reject region_id g =? 0 with ZeroRegionId ;;
  reject sequence g =? 0 with ZeroGenerationSequence ;;
  reject backing_is_zero (backing g) with ZeroBackingIdentity ;;
  Ok tt.

Definition plan_validate (p : MigrationPlan) : result unit MigrationError :=
  let? _ := generation_validate (source p) in
  let? _ := generation_validate (target p) in
  reject transaction_id p =? 0 with ZeroTransactionId ;;
  reject authority_is_zero (target_authority p) with ZeroAuthorityIdentity ;;
  reject region_id (source p) =? region_id (target p) with ReusedRegionId ;;
  reject bool_decide (backing (source p) = backing (target p)) with ReusedBackingIdentity ;;
  reject sequence (target p) <=? sequence (source p)
    with GenerationDidNotIncrease (sequence (source p)) (sequence (target p)) ;;
  reject version (schema (target p)) <=? version (schema (source p))
    with VersionDidNotIncrease (version (schema (source p))) (version (schema (target p))) ;;
  Ok tt.

Definition plan_new (transaction_id : Z) (source target : GenerationIdentity)
    (target_authority : AuthorityIdentity) : result MigrationPlan MigrationError :=
  let plan := {| transaction_id := transaction_id; source := source; target := target;
                 target_authority := target_authority |} in
  let? _ := plan_validate plan in Ok plan.

Inductive SchemaNegotiation := Exact | UpgradeRequired (source target : SchemaIdentity).

Definition negotiate_schema (T : MigrationSchema) (observed : SchemaIdentity)
    (accepted_sources : list SchemaIdentity) : result SchemaNegotiation MigrationError :=
  let? _ := schema_validate observed in
  let current := schema_of T in
  let? _ := schema_validate current in
  if bool_decide (observed = current) then Ok Exact
  else if (version observed <? version current) && bool_decide (observed ∈ accepted_sources)
  then Ok (UpgradeRequired observed current)
  else Err (UnsupportedSchema observed current).

(** ** Checksums *)

Definition checksum_mix (state value : Z) : Z :=
  wrapping_mul 64 (wrapping_add 64 (rotate_left 64 state 17) (Z.lxor value 0xa0761d6478bd642f))
    0xe7037ed1a0b428db.

Definition checksum_generation (state : Z) (g : GenerationIdentity) : Z :=
  let state := checksum_mix state (version (schema g)) in
  let state := checksum_mix state (fingerprint_low (schema g)) in
  let state := checksum_mix state (fingerprint_high (schema g)) in
  let state := checksum_mix state (region_id g) in
  let state := checksum_mix state (sequence g) in
  let state := checksum_mix state (b0 (backing g)) in
  let state := checksum_mix state (b1 (backing g)) in
  let state := checksum_mix state (b2 (backing g)) in
  checksum_mix state (b3 (backing g)).

Definition generation_tag (g : GenerationIdentity) : Z := checksum_generation 0xd6e8feb86659fd93 g.

Definition plan_checksum (p : MigrationPlan) : Z :=
  let state := 0x9e3779b97f4a7c15 in
  let state := checksum_mix state (transaction_id p) in
  let state := checksum_generation state (source p) in
  let state := checksum_generation state (target p) in
  let state := checksum_mix state (a0 (target_authority p)) in
  checksum_mix state (a1 (target_authority p)).

Definition source_plan_mismatch (bound supplied : MigrationPlan) : MigrationError :=
  SourcePlanMismatch
    (transaction_id bound) (transaction_id supplied)
    (generation_tag (source bound)) (generation_tag (source supplied))
    (generation_tag (target bound)) (generation_tag (target supplied))
    (target_authority bound) (target_authority supplied)
    (transaction_id bound =? transaction_id supplied)
    (bool_decide (source bound = source supplied))
    (bool_decide (target bound = target supplied))
    (bool_decide (target_authority bound = target_authority supplied)).

(** ** The control record *)

Inductive ccell (E : Type) :=
| CPhase
| CTransactionId
| CSourceVersion | CSourceFingerprintLow | CSourceFingerprintHigh | CSourceRegionId
| CSourceSequence | CSourceBacking0 | CSourceBacking1 | CSourceBacking2 | CSourceBacking3
| CTargetVersion | CTargetFingerprintLow | CTargetFingerprintHigh | CTargetRegionId
| CTargetSequence | CTargetBacking0 | CTargetBacking1 | CTargetBacking2 | CTargetBacking3
| CTargetAuthority0 | CTargetAuthority1
| CChecksum
| Rest (e : E).
Arguments CPhase {E}.
Arguments CTransactionId {E}.
Arguments CSourceVersion {E}.
Arguments CSourceFingerprintLow {E}.
Arguments CSourceFingerprintHigh {E}.
Arguments CSourceRegionId {E}.
Arguments CSourceSequence {E}.
Arguments CSourceBacking0 {E}.
Arguments CSourceBacking1 {E}.
Arguments CSourceBacking2 {E}.
Arguments CSourceBacking3 {E}.
Arguments CTargetVersion {E}.
Arguments CTargetFingerprintLow {E}.
Arguments CTargetFingerprintHigh {E}.
Arguments CTargetRegionId {E}.
Arguments CTargetSequence {E}.
Arguments CTargetBacking0 {E}.
Arguments CTargetBacking1 {E}.
Arguments CTargetBacking2 {E}.
Arguments CTargetBacking3 {E}.
Arguments CTargetAuthority0 {E}.
Arguments CTargetAuthority1 {E}.
Arguments CChecksum {E}.
Arguments Rest {E} _.
#[export] Instance ccell_eq_dec {E} `{EqDecision E} : EqDecision (ccell E).
Proof. solve_decision. Defined.

(** The metadata words in declaration order, and the words of a plan. *)
Definition plan_cells {E} : list (ccell E) :=
  [CTransactionId;
   CSourceVersion; CSourceFingerprintLow; CSourceFingerprintHigh; CSourceRegionId;
   CSourceSequence; CSourceBacking0; CSourceBacking1; CSourceBacking2; CSourceBacking3;
   CTargetVersion; CTargetFingerprintLow; CTargetFingerprintHigh; CTargetRegionId;
   CTargetSequence; CTargetBacking0; CTargetBacking1; CTargetBacking2; CTargetBacking3;
   CTargetAuthority0; CTargetAuthority1].

Definition generation_words (g : GenerationIdentity) : list Z :=
  [version (schema g); fingerprint_low (schema g); fingerprint_high (schema g);
   region_id g; sequence g; b0 (backing g); b1 (backing g); b2 (backing g); b3 (backing g)].
Definition plan_words (p : MigrationPlan) : list Z :=
  transaction_id p :: generation_words (source p) ++ generation_words (target p) ++
  [a0 (target_authority p); a1 (target_authority p)].

Definition generation_of_words (ws : list Z) : GenerationIdentity :=
  {| schema := {| version := nth 0 ws 0; fingerprint_low := nth 1 ws 0;
                  fingerprint_high := nth 2 ws 0 |};
     region_id := nth 3 ws 0; sequence := nth 4 ws 0;
     backing := {| b0 := nth 5 ws 0; b1 := nth 6 ws 0; b2 := nth 7 ws 0; b3 := nth 8 ws 0 |} |}.
Definition plan_of_words (ws : list Z) : MigrationPlan :=
  {| transaction_id := nth 0 ws 0;
     source := generation_of_words (drop 1 ws);
     target := generation_of_words (drop 10 ws);
     target_authority := {| a0 := nth 19 ws 0; a1 := nth 20 ws 0 |} |}.

Record ReclamationPermit := { permit_plan : MigrationPlan; resumed : bool }.

(** The linear handles: what a [Migration] or [TargetReadyMigration] carries
    besides the control record, and the target capability as its three answers. *)
Record PrecommitTargetBacking := {
  backing_generation : GenerationIdentity;
  recovery_authority : AuthorityIdentity;
  is_private : bool
}.
Record MigrationHandle Q := { mig_plan : MigrationPlan; mig_source : option Q; mig_armed : bool }.
Record TargetReadyMigration Q := {
  trm_plan : MigrationPlan;
  trm_source : option Q;
  trm_target : option PrecommitTargetBacking;
  trm_armed : bool
}.
Record CommittedMigration Q := {
  com_plan : MigrationPlan;
  com_source : Q;
  com_target : PrecommitTargetBacking
}.
Arguments mig_plan {Q} _.
Arguments mig_source {Q} _.
Arguments mig_armed {Q} _.
Arguments trm_plan {Q} _.
Arguments trm_source {Q} _.
Arguments trm_target {Q} _.
Arguments trm_armed {Q} _.
Arguments com_plan {Q} _.
Arguments com_source {Q} _.
Arguments com_target {Q} _.

(** The sealed trait [QuiescenceWitness]: the plan a witness is bound to, and the
    check that the source is still quiescent. *)
Class QuiescenceWitness (E Q : Type) := {
  witness_plan : Q -> MigrationPlan;
  still_quiescent : Q -> prog (ccell E) bool
}.

Section Control.
Context {E : Type} (fuel : nat).
#[local] Abbreviation prog := (prog (ccell E)).

Definition initialize_at : prog unit :=
  do! store CPhase UNINITIALIZED ;;
  do! store_all (map (fun c => (c, 0)) plan_cells) ;;
  store CChecksum 0.

Definition decode_or_poison (raw : Z) : prog (result MigrationPhase MigrationError) :=
  match migration_phase_decode raw with
  | Ok phase => Ret (Ok phase)
  | Err error => do! store CPhase POISONED ;; Ret (Err error)
  end.

Definition load_valid_plan : prog (result MigrationPlan MigrationError) :=
  let! words := load_all plan_cells in
  let plan := plan_of_words words in
  let expected_checksum := plan_checksum plan in
  let! found_checksum := load CChecksum in
  if negb (is_ok (plan_validate plan)) || negb (found_checksum =? expected_checksum) then
    do! store CPhase POISONED ;; Ret (Err CorruptMetadata)
  else Ret (Ok plan).

Definition snapshot : prog (result MigrationSnapshot MigrationError) :=
  let! raw := load CPhase in
  let!? phase := decode_or_poison raw in
  let!? plan := (if has_published_plan phase
                 then let!? p := load_valid_plan in Ret (Ok (Some p))
                 else Ret (Ok None)) in
  Ret (Ok {| snap_phase := phase; snap_plan := plan |}).

Definition poison_body (phase : Z) : prog (Z + unit) :=
  if (phase =? COMMITTED) || (phase =? RECLAIMED) || (phase =? POISONED) then Ret (inr tt)
  else if negb (is_ok (migration_phase_decode phase)) then
    do! store CPhase POISONED ;; Ret (inr tt)
  else
    let! x := compare_exchange_weak CPhase phase POISONED in
    match x with Ok _ => Ret (inr tt) | Err actual => Ret (inl actual) end.
Definition poison : prog unit :=
  let! phase := load CPhase in loop fuel poison_body phase.

(** [expect] on the plan of an authoritative phase panics on [None]. *)
Definition authoritative_generation :
    prog (result (AuthoritativeGeneration * MigrationPlan) MigrationError) :=
  let!? snapshot := snapshot in
  match authoritative snapshot with
  | None => Ret (Err (NoAuthoritativeGeneration (snap_phase snapshot)))
  | Some generation =>
      match snap_plan snapshot with
      | Some plan => Ret (Ok (generation, plan))
      | None => Panic
      end
  end.

Definition transition (plan : MigrationPlan) (expected : MigrationPhase)
    (expected_raw next_raw : Z) : prog (result unit MigrationError) :=
  let!? found := load_valid_plan in
  if negb (bool_decide (found = plan)) then
    do! store CPhase POISONED ;; Ret (Err TransactionMismatch)
  else
    let! x := compare_exchange CPhase expected_raw next_raw in
    match x with
    | Ok _ => Ret (Ok tt)
    | Err raw =>
        let!? actual := decode_or_poison raw in Ret (Err (MigrationWrongPhase expected actual))
    end.

Definition poison_if_incomplete_body (phase : Z) : prog (Z + unit) :=
  if negb (phase =? COPYING) && negb (phase =? TARGET_READY) then Ret (inr tt)
  else
    let! x := compare_exchange_weak CPhase phase POISONED in
    match x with Ok _ => Ret (inr tt) | Err actual => Ret (inl actual) end.
Definition poison_if_incomplete (transaction_id : Z) : prog unit :=
  let! id := load CTransactionId in
  if negb (id =? transaction_id) then Ret tt
  else let! phase := load CPhase in loop fuel poison_if_incomplete_body phase.

Definition mark_reclaimed (plan : MigrationPlan) (resumed : bool) :
    prog (result ReclamationPermit MigrationError) :=
  do!? transition plan PCommitted COMMITTED RECLAIMED ;;
  Ret (Ok {| permit_plan := plan; resumed := resumed |}).

Definition resume_reclamation : prog (result ReclamationPermit MigrationError) :=
  let!? snapshot := snapshot in
  if negb (bool_decide (snap_phase snapshot = PReclaimed)) then
    Ret (Err (MigrationWrongPhase PReclaimed (snap_phase snapshot)))
  else
    match snap_plan snapshot with
    | Some plan => Ret (Ok {| permit_plan := plan; resumed := true |})
    | None => Panic
    end.

(** [InitializationPoison::drop] *)
Definition migration_initialization_poison_drop (armed : bool) : prog unit :=
  if armed then store CPhase POISONED else Ret tt.

Section Witness.
Context {Q : Type} `{!QuiescenceWitness E Q}.

(** The guard [poison] is dropped, armed, when the publishing exchange fails. *)
Definition begin (source : Q) (plan : MigrationPlan) :
    prog (result (MigrationHandle Q) MigrationError) :=
  match plan_validate plan with
  | Err e => Ret (Err e)
  | Ok _ =>
      let! x := compare_exchange CPhase UNINITIALIZED INITIALIZING in
      match x with
      | Err actual =>
          let!? actual := decode_or_poison actual in
          Ret (Err (MigrationWrongPhase PUninitialized actual))
      | Ok _ =>
          do! store_all (combine plan_cells (plan_words plan)) ;;
          do! store CChecksum (plan_checksum plan) ;;
          let! y := compare_exchange CPhase INITIALIZING COPYING in
          match y with
          | Err actual =>
              let! r := decode_or_poison actual in
              do! migration_initialization_poison_drop true ;;
              Ret (match r with
                   | Ok actual => Err (MigrationWrongPhase PInitializing actual)
                   | Err e => Err e
                   end)
          | Ok _ =>
              do! migration_initialization_poison_drop false ;;
              Ret (Ok {| mig_plan := plan; mig_source := Some source; mig_armed := true |})
          end
      end
  end.

Definition begin_with_quiescent_source (source : Q) (plan : MigrationPlan) :
    prog (result (MigrationHandle Q) MigrationError) :=
  if negb (bool_decide (witness_plan source = plan)) then
    Ret (Err (source_plan_mismatch (witness_plan source) plan))
  else
    let! quiescent := still_quiescent source in
    if negb quiescent then Ret (Err SourceNotDrained) else begin source plan.

Definition authorize_reclamation (source : Q) : prog (result ReclamationPermit MigrationError) :=
  let!? snapshot := snapshot in
  match snap_plan snapshot with
  | None => Ret (Err (MigrationWrongPhase PCommitted (snap_phase snapshot)))
  | Some plan =>
      if negb (bool_decide (witness_plan source = plan)) then
        Ret (Err (source_plan_mismatch (witness_plan source) plan))
      else
        let! quiescent := still_quiescent source in
        if negb quiescent then Ret (Err SourceNotDrained)
        else if bool_decide (snap_phase snapshot = PReclaimed) then
          Ret (Ok {| permit_plan := plan; resumed := true |})
        else if negb (bool_decide (snap_phase snapshot = PCommitted)) then
          Ret (Err (MigrationWrongPhase PCommitted (snap_phase snapshot)))
        else mark_reclaimed plan false
  end.

(** The destructors of [Migration] and [TargetReadyMigration]. *)
Definition migration_drop (self : MigrationHandle Q) : prog unit :=
  if mig_armed self then poison_if_incomplete (transaction_id (mig_plan self)) else Ret tt.
Definition target_ready_drop (self : TargetReadyMigration Q) : prog unit :=
  if trm_armed self then poison_if_incomplete (transaction_id (trm_plan self)) else Ret tt.

(** The three checks that both [mark_target_ready] and [commit] make. *)
Definition check_target (plan : MigrationPlan) (t : PrecommitTargetBacking) :
    result unit MigrationError :=
  reject negb (bool_decide (backing_generation t = target plan))
    with TargetGenerationMismatch (generation_tag (target plan)) (generation_tag (backing_generation t)) ;;
  reject negb (bool_decide (recovery_authority t = target_authority plan))
    with TargetAuthorityMismatch (target_authority plan) (recovery_authority t) ;;
  reject negb (is_private t) with TargetAlreadyPublished ;;
  Ok tt.

(** Both methods consume the handle: on an error it is dropped while armed. *)
Definition mark_target_ready (self : MigrationHandle Q) (t : PrecommitTargetBacking) :
    prog (result (TargetReadyMigration Q) MigrationError) :=
  match check_target (mig_plan self) t with
  | Err e => do! migration_drop self ;; Ret (Err e)
  | Ok _ =>
      let! r := transition (mig_plan self) PCopying COPYING TARGET_READY in
      match r with
      | Err e => do! migration_drop self ;; Ret (Err e)
      | Ok _ =>
          let self := {| mig_plan := mig_plan self; mig_source := mig_source self;
                         mig_armed := false |} in
          do! migration_drop self ;;
          Ret (Ok {| trm_plan := mig_plan self; trm_source := mig_source self;
                     trm_target := Some t; trm_armed := true |})
      end
  end.

Definition commit (self : TargetReadyMigration Q) :
    prog (result (CommittedMigration Q) MigrationError) :=
  match trm_target self with
  | None => Panic
  | Some t =>
      match check_target (trm_plan self) t with
      | Err e => do! target_ready_drop self ;; Ret (Err e)
      | Ok _ =>
          let! r := transition (trm_plan self) PTargetReady TARGET_READY COMMITTED in
          match r with
          | Err e => do! target_ready_drop self ;; Ret (Err e)
          | Ok _ =>
              match trm_source self with
              | None => Panic
              | Some q =>
                  Ret (Ok {| com_plan := trm_plan self; com_source := q; com_target := t |})
              end
          end
      end
  end.
End Witness.
End Control.

(** ** The witnesses *)

(** [AdmissionQuiescence<'source, NODES, Authority>] *)
Record AdmissionQuiescence (E Authority : Type) := {
  aq_source : cell acell -> E;
  aq_plan : MigrationPlan;
  aq_authority : Authority
}.
Arguments aq_source {E Authority} _.
Arguments aq_plan {E Authority} _.
Arguments aq_authority {E Authority} _.

Definition gate_is_drained {E} (NODES : Z) (fuel : nat) (gate : cell acell -> E) :
    prog (ccell E) bool :=
  lift (fun c => Rest (gate c)) (Admission.is_drained NODES fuel).

Definition bind_with_authority {E Authority} (NODES : Z) (fuel : nat) (gate : cell acell -> E)
    (plan : MigrationPlan) (authority : Authority) :
    prog (ccell E) (result (AdmissionQuiescence E Authority) MigrationError) :=
  match plan_validate plan with
  | Err e => Ret (Err e)
  | Ok _ =>
      let! drained := gate_is_drained NODES fuel gate in
      if negb drained then Ret (Err SourceNotDrained)
      else Ret (Ok {| aq_source := gate; aq_plan := plan; aq_authority := authority |})
  end.

Definition admission_bind {E} (NODES : Z) (fuel : nat) (gate : cell acell -> E)
    (plan : MigrationPlan) : prog (ccell E) (result (AdmissionQuiescence E unit) MigrationError) :=
  match plan_validate plan with
  | Err e => Ret (Err e)
  | Ok _ =>
      let! drained := gate_is_drained NODES fuel gate in
      if negb drained then Ret (Err SourceNotDrained)
      else Ret (Ok {| aq_source := gate; aq_plan := plan; aq_authority := tt |})
  end.

Definition into_authority {E Authority} (self : AdmissionQuiescence E Authority)
    (permit : ReclamationPermit) :
    result Authority (MigrationError * AdmissionQuiescence E Authority) :=
  if negb (bool_decide (permit_plan permit = aq_plan self)) then
    Err (source_plan_mismatch (aq_plan self) (permit_plan permit), self)
  else Ok (aq_authority self).

#[export] Instance admission_quiescence {E Authority} (NODES : Z) (fuel : nat) :
    QuiescenceWitness E (AdmissionQuiescence E Authority) := {|
  witness_plan := aq_plan;
  still_quiescent q := gate_is_drained NODES fuel (aq_source q)
|}.

(** [MappingQuiescence<'source>]; the consumed close capability cannot be reopened. *)
Record MappingQuiescence := { mq_closed : ClosedMapping; mq_plan : MigrationPlan }.

Definition mapping_bind (closed : ClosedMapping) (plan : MigrationPlan) :
    result MappingQuiescence MigrationError :=
  let? _ := plan_validate plan in Ok {| mq_closed := closed; mq_plan := plan |}.

#[export] Instance mapping_quiescence {E} : QuiescenceWitness E MappingQuiescence := {|
  witness_plan := mq_plan;
  still_quiescent _ := Ret true
|}.

(** ** Identities, plans and negotiation *)

Lemma le_word_slice bs i j : Forall byte bs -> j = (i + 8)%nat -> (j <= length bs)%nat ->
  to_le_bytes 8 (of_le_bytes (slice i j bs)) = slice i j bs.
Proof.
  intros Hb -> Hl. unfold slice. replace (i + 8 - i)%nat with 8%nat by lia.
  assert (H8 : length (take 8 (drop i bs)) = 8%nat) by (rewrite length_take, length_drop; lia).
  rewrite <- H8 at 1. apply to_of_le_bytes. by apply Forall_take, Forall_drop.
Qed.

Lemma slice_join bs i j k : (i <= j <= k)%nat -> slice i j bs ++ slice j k bs = slice i k bs.
Proof.
  intros Hij. unfold slice. replace (drop j bs) with (drop (j - i) (drop i bs)).
  - replace (k - i)%nat with ((j - i) + (k - j))%nat by lia. by rewrite <- take_take_drop.
  - rewrite drop_drop. f_equal. lia.
Qed.

(** The identities are faithful: the digest bytes given to a backing identity and
    to an authority identity come back unchanged (so different digests are different
    identities), and the schema identity gives back its 128-bit fingerprint. *)
Theorem identity_roundtrip backing authority version fp :
  Forall byte backing -> length backing = 32%nat ->
  Forall byte authority -> length authority = 16%nat ->
  0 <= fp < 2 ^ 128 ->
  backing_to_bytes (backing_new backing) = backing /\
  authority_to_bytes (authority_new authority) = authority /\
  fingerprint (schema_new version fp) = fp.
Proof.
  intros Hb Hlb Ha Hla Hfp. split_and!.
  - unfold backing_to_bytes, backing_new. cbn [b0 b1 b2 b3].
    rewrite (le_word_slice backing 0), (le_word_slice backing 8), (le_word_slice backing 16),
      (le_word_slice backing 24) by (done || lia).
    rewrite !slice_join by lia. unfold slice. by rewrite drop_0, take_ge by lia.
  - unfold authority_to_bytes, authority_new. cbn [a0 a1].
    rewrite (le_word_slice authority 0), (le_word_slice authority 8) by (done || lia).
    rewrite !slice_join by lia. unfold slice. by rewrite drop_0, take_ge by lia.
  - unfold fingerprint, schema_new, wrap. cbn [fingerprint_high fingerprint_low].
    rewrite lor_shiftl_add by (try apply Z.mod_pos_bound; lia). rewrite shiftr_div by lia.
    rewrite (Z.mod_small (fp / 2 ^ 64)); [pose proof (Z.div_mod fp (2 ^ 64)); lia|].
    split; [apply Z.div_pos; lia|]. apply Z.div_lt_upper_bound; lia.
Qed.

Definition demo_digest (seed n : nat) : list Z := map Z.of_nat (seq seed n).

Lemma identity_roundtrip_witness :
  backing_to_bytes (backing_new (demo_digest 1 32)) = demo_digest 1 32 /\
  authority_to_bytes (authority_new (demo_digest 7 16)) = demo_digest 7 16 /\
  fingerprint (schema_new 3 (2 ^ 127 + 5)) = 2 ^ 127 + 5.
Proof.
  assert (Hbyte : forall s n, (s + n <= 256)%nat -> Forall byte (demo_digest s n)).
  { intros s n Hsn. apply Forall_fmap, Forall_seq. intros j Hj. unfold byte, compose. lia. }
  apply identity_roundtrip; [apply Hbyte; lia | reflexivity | apply Hbyte; lia | reflexivity | lia].
Defined.

(** A generation that may take part in a migration. *)
Record generation_ok (g : GenerationIdentity) : Prop := {
  g_version : version (schema g) <> 0;
  g_region : region_id g <> 0;
  g_sequence : sequence g <> 0;
  g_backing : ~ (b0 (backing g) = 0 /\ b1 (backing g) = 0 /\ b2 (backing g) = 0 /\ b3 (backing g) = 0)
}.

Lemma generation_validate_ok g : generation_validate g = Ok tt <-> generation_ok g.
Proof.
  unfold generation_validate, schema_validate, backing_is_zero. split.
  - intros Hv. ok_inv Hv. constructor; repeat case_match; try done; zb_case; try done; try lia.
    all: cbn in *; intros (? & ? & ? & ?); congruence.
  - intros [H1 H2 H3 H4]. zb_case; cbn; try done. tauto.
Qed.

(** A plan is accepted exactly when both generations are complete, transaction and
    authority are named, region and backing are new, and both the generation sequence
    and the schema version increase. *)
Theorem plan_validation_exact p : plan_validate p = Ok tt <->
  generation_ok (source p) /\ generation_ok (target p) /\
  transaction_id p <> 0 /\ ~ (a0 (target_authority p) = 0 /\ a1 (target_authority p) = 0) /\
  region_id (source p) <> region_id (target p) /\ backing (source p) <> backing (target p) /\
  sequence (source p) < sequence (target p) /\
  version (schema (source p)) < version (schema (target p)).
Proof.
  rewrite <- !generation_validate_ok. unfold plan_validate, authority_is_zero.
  destruct (generation_validate (source p)) as [[]|e]; cbn [result_bind]; [|naive_solver].
  destruct (generation_validate (target p)) as [[]|e]; cbn [result_bind]; [|naive_solver].
  destruct (Z.eqb_spec (transaction_id p) 0); [naive_solver|].
  destruct (Z.eqb_spec (a0 (target_authority p)) 0), (Z.eqb_spec (a1 (target_authority p)) 0); cbn [andb];
    try (by split; [done | naive_solver]).
  all: destruct (Z.eqb_spec (region_id (source p)) (region_id (target p))); [naive_solver|].
  all: case_bool_decide; [naive_solver|].
  all: destruct (Z.leb_spec (sequence (target p)) (sequence (source p))); [naive_solver lia|].
  all: destruct (Z.leb_spec (version (schema (target p))) (version (schema (source p)))); naive_solver lia.
Qed.

(** Negotiation is exact: the current schema is accepted as it is, an older one
    only if its version and fingerprint are listed, and everything else is refused. *)
Theorem negotiation_exact T observed accepted x :
  negotiate_schema T observed accepted = Ok x <->
  version observed <> 0 /\ version (schema_of T) <> 0 /\
  ((observed = schema_of T /\ x = Exact) \/
   (observed ∈ accepted /\ version observed < version (schema_of T) /\
    x = UpgradeRequired observed (schema_of T))).
Proof.
  unfold negotiate_schema, schema_validate.
  destruct (Z.eqb_spec (version observed) 0); cbn [result_bind]; [naive_solver|].
  destruct (Z.eqb_spec (version (schema_of T)) 0); cbn [result_bind]; [naive_solver|].
  case_bool_decide as Heq.
  - split; [naive_solver|]. intros (_ & _ & [[_ ->]|(_ & Hlt & _)]); [done|]. subst. lia.
  - destruct (Z.ltb_spec (version observed) (version (schema_of T))); cbn [andb]; [|naive_solver lia].
    case_bool_decide; naive_solver.
Qed.
