(* ===== verification/MigrationInv.v ===== *)
(** The migration control record in every interleaving: the abstract machine it
    implements, its invariant, and a specification of each operation.

    The invariant is parametric in the state of the rest of the shared memory
    ([J]): a client of the record says how its own data depends on the phase, and
    proves the two updates it makes itself (claiming the record, declaring the
    target ready). *)

From stdpp Require Import countable.
From S2P Require Import Prelude Conc Compose Migration.

(** ** The abstract machine *)

(** One migration of one source: a record is claimed once, publishes one plan, and
    from then on either makes the target of that plan authoritative or is dead. *)
Inductive astate :=
| Unused
| Claimed
| Copying (p : MigrationPlan)
| Ready (p : MigrationPlan)
| Live (p : MigrationPlan)
| Retired (p : MigrationPlan)
| Dead.

Definition abandonable (a : astate) : Prop :=
  match a with Live _ | Retired _ | Dead => False | _ => True end.

Inductive astep : astate -> astate -> Prop :=
| a_claim : astep Unused Claimed
| a_publish p : plan_validate p = Ok tt -> astep Claimed (Copying p)
| a_ready p : astep (Copying p) (Ready p)
| a_commit p : astep (Ready p) (Live p)
| a_reclaim p : astep (Live p) (Retired p)
| a_abandon a : abandonable a -> astep a Dead.

Definition phase_of (a : astate) : Z :=
  match a with
  | Unused => UNINITIALIZED | Claimed => INITIALIZING | Copying _ => COPYING
  | Ready _ => TARGET_READY | Live _ => COMMITTED | Retired _ => RECLAIMED | Dead => POISONED
  end.

Definition view (a : astate) : MigrationPhase :=
  match a with
  | Unused => PUninitialized | Claimed => PInitializing | Copying _ => PCopying
  | Ready _ => PTargetReady | Live _ => PCommitted | Retired _ => PReclaimed | Dead => PPoisoned
  end.

Definition plan_in (a : astate) : option MigrationPlan :=
  match a with Copying p | Ready p | Live p | Retired p => Some p | _ => None end.

Lemma decode_phase a : migration_phase_decode (phase_of a) = Ok (view a).
Proof. by destruct a. Qed.

Lemma phase_of_inj a a' : phase_of a = phase_of a' -> plan_in a = plan_in a' -> a = a'.
Proof.
  destruct a, a'; intros Hp Hq; solve [discriminate Hp | cbn in Hq; simplify_eq; reflexivity].
Qed.

Lemma published_view a : has_published_plan (view a) = match plan_in a with Some _ => true | None => false end.
Proof. by destruct a. Qed.

Lemma astep_live b a p : (b = Live p \/ b = Retired p) -> rtc astep b a -> a = Live p \/ a = Retired p.
Proof.
  intros Hb Hs. revert Hb. induction Hs as [|x y z Hxy _ IH]; [done|]. intros Hx. apply IH.
  by destruct Hx; subst; inversion Hxy; auto.
Qed.

Lemma astep_terminal a b : (a = Dead \/ exists p, a = Retired p) -> rtc astep a b -> b = a.
Proof.
  intros Ha Hs. destruct Hs as [|x y z Hxy _]; [done|].
  by destruct Ha as [->|[p ->]]; inversion Hxy.
Qed.

(** Before a commit the source is authoritative, after it the target. *)
Lemma astep_plan a b p q : rtc astep a b -> plan_in a = Some p -> plan_in b = Some q -> p = q.
Proof.
  intros Hs. induction Hs as [|x y z Hxy Hyz IH]; [congruence|]. intros Hx Hz.
  assert (plan_in y = Some p \/ y = Dead) as [Hy| ->].
  { inversion Hxy; subst; cbn in Hx; simplify_eq; auto. }
  - by apply IH.
  - apply astep_terminal in Hyz; [|by left]. by subst.
Qed.

(** ** Tokens *)

Lemma plan_words_inv p : plan_of_words (plan_words p) = p.
Proof. by destruct p as [? [[] ? ? []] [[] ? ? []] []]. Qed.

#[export] Instance plan_countable : Countable MigrationPlan.
Proof. apply (inj_countable' plan_words plan_of_words). apply plan_words_inv. Defined.

#[export] Instance astate_eq_dec : EqDecision astate.
Proof. solve_decision. Defined.
#[export] Instance astate_countable : Countable astate.
Proof.
  apply (inj_countable'
    (fun a => match a with
      | Unused => inl 0 | Claimed => inl 1 | Dead => inl 2
      | Copying p => inr (0, p) | Ready p => inr (1, p) | Live p => inr (2, p)
      | Retired p => inr (3, p) end)
    (fun s => match s with
      | inl 0 => Unused | inl 1 => Claimed | inl _ => Dead
      | inr (0, p) => Copying p | inr (1, p) => Ready p | inr (2, p) => Live p
      | inr (_, p) => Retired p end)).
  by intros [].
Defined.

(** The one process that has claimed the record: it has written the first [k]
    words of its plan, or it holds the handle of that stage. *)
Inductive holder :=
| Claimer (k : nat) (p : MigrationPlan)
| AtCopying (p : MigrationPlan)
| AtReady (p : MigrationPlan)
| Won (p : MigrationPlan).
#[export] Instance holder_eq_dec : EqDecision holder.
Proof. solve_decision. Defined.
#[export] Instance holder_countable : Countable holder.
Proof.
  apply (inj_countable'
    (fun h => match h with
      | Claimer k p => inl (k, p) | AtCopying p => inr (0, p) | AtReady p => inr (1, p)
      | Won p => inr (2, p) end)
    (fun s => match s with
      | inl (k, p) => Claimer k p | inr (0, p) => AtCopying p | inr (1, p) => AtReady p
      | inr (_, p) => Won p end)).
  by intros [].
Defined.

(** [Pub p]: the published plan is [p].  [Seen a]: the machine has been in state
    [a].  [Fresh]: this thread performed the reclamation.  [Src t]: a token of the
    rest of the system. *)
Inductive mtok (T : Type) :=
| Hold (h : holder)
| Pub (p : MigrationPlan)
| Seen (a : astate)
| Fresh
| Src (t : T).
Arguments Hold {T} _.
Arguments Pub {T} _.
Arguments Seen {T} _.
Arguments Fresh {T}.
Arguments Src {T} _.
#[export] Instance mig_mtok_eq_dec {T} `{EqDecision T} : EqDecision (mtok T).
Proof. solve_decision. Defined.
#[export] Instance mig_mtok_countable {T} `{Countable T} : Countable (mtok T).
Proof.
  apply (inj_countable'
    (fun t => match t with
      | Hold h => inl (inl h) | Pub p => inl (inr p) | Seen a => inr (inl a)
      | Fresh => inr (inr None) | Src t => inr (inr (Some t)) end)
    (fun s => match s with
      | inl (inl h) => Hold h | inl (inr p) => Pub p | inr (inl a) => Seen a
      | inr (inr None) => Fresh | inr (inr (Some t)) => Src t end)).
  by intros [].
Defined.

(** The plan that the holder has published. *)
Definition hplan (o : option holder) : option MigrationPlan :=
  match o with Some (AtCopying p) | Some (AtReady p) | Some (Won p) => Some p | _ => None end.

(** ** The metadata words *)

Definition all_cells {E} : list (ccell E) := plan_cells ++ [CChecksum].
Definition all_words (p : MigrationPlan) : list Z := plan_words p ++ [plan_checksum p].

Definition published {E} (m : ccell E -> Z) (p : MigrationPlan) : Prop :=
  map m all_cells = all_words p /\ plan_validate p = Ok tt.

Lemma published_words {E} (m : ccell E -> Z) p : published m p ->
  map m plan_cells = plan_words p /\ m CChecksum = plan_checksum p.
Proof.
  intros [Hw _]. unfold all_cells, all_words in Hw. rewrite map_app in Hw.
  by apply app_inj_tail in Hw as [-> ->].
Qed.

Lemma published_inj {E} (m : ccell E -> Z) p q : published m p -> published m q -> p = q.
Proof.
  intros [Hp _]%published_words [Hq _]%published_words.
  rewrite <- (plan_words_inv p), <- (plan_words_inv q). congruence.
Qed.

Lemma published_ext {E} (m m' : ccell E -> Z) p :
  (forall l, l ∈ all_cells -> m' l = m l) -> published m p -> published m' p.
Proof.
  intros Hm [Hw Hv]. split; [|done]. rewrite <- Hw. apply map_ext_in. intros l Hl.
  apply Hm. by apply list_elem_of_In.
Qed.

(** The position of a metadata cell; the cells are pairwise distinct. *)
Definition cidx {E} (l : ccell E) : option nat :=
  match l with
  | CTransactionId => Some 0
  | CSourceVersion => Some 1 | CSourceFingerprintLow => Some 2 | CSourceFingerprintHigh => Some 3
  | CSourceRegionId => Some 4 | CSourceSequence => Some 5 | CSourceBacking0 => Some 6
  | CSourceBacking1 => Some 7 | CSourceBacking2 => Some 8 | CSourceBacking3 => Some 9
  | CTargetVersion => Some 10 | CTargetFingerprintLow => Some 11
  | CTargetFingerprintHigh => Some 12 | CTargetRegionId => Some 13 | CTargetSequence => Some 14
  | CTargetBacking0 => Some 15 | CTargetBacking1 => Some 16 | CTargetBacking2 => Some 17
  | CTargetBacking3 => Some 18 | CTargetAuthority0 => Some 19 | CTargetAuthority1 => Some 20
  | CChecksum => Some 21
  | CPhase | Rest _ => None
  end%nat.

Lemma all_cells_idx {E} (l : ccell E) i : all_cells !! i = Some l -> cidx l = Some i.
Proof. intros Hi. do 22 (destruct i as [|i]; [by simplify_eq/=|]). done. Qed.

Lemma not_cell {E} (l : ccell E) : cidx l = None -> l ∉ all_cells.
Proof. intros Hl (i & Hi)%list_elem_of_lookup. apply all_cells_idx in Hi. congruence. Qed.

(** The first [k] words of [p] are in place. *)
Definition wrote {E} (m : ccell E -> Z) (k : nat) (p : MigrationPlan) : Prop :=
  take k (map m all_cells) = take k (all_words p).

Lemma wrote_step {E} `{EqDecision E} (m : ccell E -> Z) k p l v :
  all_cells !! k = Some l -> all_words p !! k = Some v -> wrote m k p -> wrote (upd m l v) (S k) p.
Proof.
  unfold wrote. intros Hl Hv Hw. apply list_eq. intros i.
  destruct (decide (i < S k)%nat) as [Hi|Hi]; [|by rewrite !lookup_take_ge by lia].
  rewrite !lookup_take_lt by done. rewrite list_lookup_fmap.
  destruct (decide (i = k)) as [->|Hne]; [by rewrite Hl, Hv; cbn; rewrite upd_eq|].
  assert (Hi' : (i < k)%nat) by lia.
  rewrite <- (lookup_take_lt (all_words p) k i Hi'), <- Hw, lookup_take_lt, list_lookup_fmap by done.
  destruct (all_cells !! i) as [l'|] eqn:E'; [|done]. cbn. f_equal. apply upd_ne.
  intros ->. apply all_cells_idx in Hl, E'. congruence.
Qed.

Lemma wrote_all {E} (m : ccell E -> Z) p : wrote m 22 p -> plan_validate p = Ok tt -> published m p.
Proof.
  unfold wrote, published. intros Hw Hv. split; [|done].
  rewrite !take_ge in Hw; [done | by destruct p as [? [[] ? ? []] [[] ? ? []] []] | done].
Qed.

(** ** The invariant *)

(** What the holder knows about the record. *)
Definition compat {E} (m : ccell E -> Z) (o : option holder) (a : astate) : Prop :=
  match o with
  | None => a = Unused \/ a = Dead
  | Some (Claimer k p) => (a = Claimed \/ a = Dead) /\ wrote m k p
  | Some (AtCopying p) => (a = Copying p \/ a = Dead) /\ published m p
  | Some (AtReady p) => (a = Ready p \/ a = Dead) /\ published m p
  | Some (Won p) => (a = Live p \/ a = Retired p) /\ published m p
  end.

(** A use of the control record.  [J a] is the state of the rest of the memory
    while the machine is in state [a]; the transitions that carry no obligation of
    the client preserve it. *)
Class MigrationClient {X R : Type} (J : astate -> X -> R -> Prop) : Prop := {
  client_abandon a x r : abandonable a -> J a x r -> J Dead x r;
  client_publish p x r : J Claimed x r -> J (Copying p) x r;
  client_commit p x r : J (Ready p) x r -> J (Live p) x r;
  client_reclaim p x r : J (Live p) x r -> J (Retired p) x r
}.

Section Protocol.
Context {E T : Type} `{EqDecision E} `{Countable T}.
Variable J : astate -> (E -> Z) -> gmultiset T -> Prop.
Context `{!MigrationClient J}.
#[local] Abbreviation mem := (ccell E -> Z).
#[local] Abbreviation toks := (gmultiset (mtok T)).

Definition rest (r : toks) : gmultiset T :=
  mproj (fun t => match t with Src x => Some x | _ => None end) r.
Definition src (r : gmultiset T) : toks := gmultiset_map Src r.

Lemma rest_union r1 r2 : rest (r1 ⊎ r2) = rest r1 ⊎ rest r2.
Proof. apply mproj_union. Qed.
Lemma rest_single t : rest {[+ t +]} = match t with Src x => {[+ x +]} | _ => ∅ end.
Proof. unfold rest. rewrite mproj_single. by destruct t. Qed.
Lemma rest_empty : rest ∅ = ∅.
Proof. apply mproj_empty. Qed.
Lemma rest_src r : rest (src r) = r.
Proof. by apply mproj_map. Qed.
Lemma mult_src t r : (forall x, t <> Src x) -> mult t (src r) = 0.
Proof. apply mult_map_other. Qed.

Record ctl (o : option holder) (a : astate) (m : mem) (r : toks) : Prop := {
  ctl_hold h : mult (Hold h) r = if decide (o = Some h) then 1 else 0;
  ctl_phase : m CPhase = phase_of a;
  ctl_compat : compat m o a;
  ctl_pub p : 1 <= mult (Pub p) r -> hplan o = Some p;
  ctl_seen b : 1 <= mult (Seen b) r -> rtc astep b a;
  ctl_fresh : mult Fresh r <= 1 /\ (1 <= mult Fresh r -> exists p, a = Retired p)
}.

Definition minv (m : mem) (r : toks) : Prop :=
  exists o a, ctl o a m r /\ J a (fun e => m (Rest e)) (rest r).

Lemma ctl_published o a m r p : ctl o a m r -> hplan o = Some p -> published m p.
Proof.
  intros Hc Ho. pose proof (ctl_compat _ _ _ _ Hc) as Hcc.
  destruct o as [[k q|q|q|q]|]; cbn in *; simplify_eq; apply Hcc.
Qed.

Lemma ctl_plan_in o a m r p : ctl o a m r -> plan_in a = Some p -> hplan o = Some p.
Proof.
  intros Hc Ha. pose proof (ctl_compat _ _ _ _ Hc) as Hcc.
  destruct o as [[k q|q|q|q]|]; cbn in *; destruct_and?;
    repeat match goal with Hx : _ \/ _ |- _ => destruct Hx end; by subst; cbn in *.
Qed.

(** What is read off the record alone determines the abstract state. *)
Definition reads (m : mem) (a : astate) : Prop :=
  m CPhase = phase_of a /\ forall p, plan_in a = Some p -> published m p.

Lemma reads_inj m a b : reads m a -> reads m b -> a = b.
Proof.
  intros [Ha Hpa] [Hb Hpb]. apply phase_of_inj; [congruence|].
  assert (Hs : is_Some (plan_in a) <-> is_Some (plan_in b)).
  { rewrite Ha in Hb. destruct a, b; try discriminate Hb; done || by split; eauto. }
  destruct (plan_in a) as [p|] eqn:Ea, (plan_in b) as [q|] eqn:Eb; try done.
  - f_equal. eapply published_inj; eauto.
  - by destruct (proj1 Hs) as [? ?]; [|discriminate].
  - by destruct (proj2 Hs) as [? ?]; [|discriminate].
Qed.

Lemma ctl_reads o a m r : ctl o a m r -> reads m a.
Proof.
  intros Hc. split; [apply (ctl_phase _ _ _ _ Hc)|]. intros p Hp.
  eapply ctl_published, ctl_plan_in; done.
Qed.

(** A step of the rest of the system. *)
Lemma ctl_ext o a m m' r r' : ctl o a m r -> (forall l, (forall e, l <> Rest e) -> m' l = m l) ->
  (forall t, (forall x, t <> Src x) -> mult t r' = mult t r) -> ctl o a m' r'.
Proof.
  intros [C1 C2 C3 C4 C5 C6] Hm Hr.
  assert (Hw : forall k p, wrote m k p -> wrote m' k p).
  { unfold wrote. intros k p <-. f_equal. apply map_ext_in. intros l Hl. apply Hm. intros e ->.
    by apply list_elem_of_In, not_cell in Hl. }
  assert (Hp : forall p, published m p -> published m' p).
  { intros p. apply published_ext. intros l Hl. apply Hm. intros e ->. by apply not_cell in Hl. }
  constructor.
  - intros h. by rewrite Hr.
  - by rewrite Hm.
  - destruct o as [[k q|q|q|q]|]; cbn in *; naive_solver.
  - intros p. rewrite Hr by done. apply C4.
  - intros b. rewrite Hr by done. apply C5.
  - by rewrite Hr.
Qed.

Lemma minv_rest m m' r r' : minv m r -> (forall l, (forall e, l <> Rest e) -> m' l = m l) ->
  (forall t, (forall x, t <> Src x) -> mult t r' = mult t r) ->
  (forall o a, ctl o a m r -> J a (fun e => m (Rest e)) (rest r) ->
     J a (fun e => m' (Rest e)) (rest r')) ->
  minv m' r'.
Proof.
  intros (o & a & Hc & HJ) Hm Hr Hstep. exists o, a. split; [by eapply ctl_ext | by eapply Hstep].
Qed.

(** Tokens that record knowledge may be added by anyone who has it. *)
Definition note (a : astate) : toks :=
  {[+ Seen a +]} ⊎ match plan_in a with Some p => {[+ Pub p +]} | None => ∅ end.

Lemma rest_note a : rest (note a) = ∅.
Proof.
  unfold note. rewrite rest_union, rest_single. destruct (plan_in a); rewrite ?rest_single, ?rest_empty; multiset_solver.
Qed.

Lemma mult_note t a : mult t (note a) =
  match t with
  | Seen b => if decide (b = a) then 1 else 0
  | Pub p => if decide (plan_in a = Some p) then 1 else 0
  | _ => 0
  end.
Proof.
  unfold note. rewrite mult_union, mult_single. destruct (plan_in a) as [q|];
    rewrite ?mult_single, ?mult_empty; destruct t; repeat case_decide; simplify_eq; try done.
Qed.

Lemma ctl_note o a m r fr : ctl o a m (r ⊎ fr) -> ctl o a m (r ⊎ note a ⊎ fr).
Proof.
  intros Hc. pose proof (fun p => ctl_plan_in o a m _ p Hc) as Hpl.
  destruct Hc as [C1 C2 C3 C4 C5 C6]. constructor; try done.
  - intros h. rewrite <- C1, !mult_union, mult_note. lia.
  - intros p. specialize (C4 p). rewrite !mult_union, mult_note in *. case_decide; [auto|]. intros. apply C4. lia.
  - intros b. specialize (C5 b). rewrite !mult_union, mult_note in *. case_decide; [by subst|]. intros. apply C5. lia.
  - rewrite !mult_union, mult_note in *. rewrite Z.add_0_r. exact C6.
Qed.

Lemma minv_note m r fr : minv m (r ⊎ fr) -> exists a, reads m a /\ minv m (r ⊎ note a ⊎ fr).
Proof.
  intros (o & a & Hc & HJ). exists a. split; [by eapply ctl_reads|].
  exists o, a. split; [by apply ctl_note|]. rewrite !rest_union, rest_note in *.
  by rewrite gmultiset_disj_union_right_id.
Qed.

(** A change of the phase word only. *)
Lemma ctl_set_phase o a m r o' a' r' : ctl o a m r ->
  (forall h, mult (Hold h) r' = if decide (o' = Some h) then 1 else 0) ->
  compat m o' a' ->
  (forall p, 1 <= mult (Pub p) r' -> hplan o' = Some p) ->
  astep a a' ->
  (forall b, 1 <= mult (Seen b) r' -> b = a' \/ 1 <= mult (Seen b) r) ->
  (mult Fresh r' <= 1 /\ (1 <= mult Fresh r' -> exists p, a' = Retired p)) ->
  ctl o' a' (upd m CPhase (phase_of a')) r'.
Proof.
  intros Hc Hh Hcomp Hp Hstep Hseen Hf. constructor; try done.
  intros b Hb. destruct (Hseen b Hb) as [->|Hb']; [done|].
  eapply rtc_r; [|done]. by apply (ctl_seen _ _ _ _ Hc).
Qed.

(** ** Reading and poisoning *)

Definition known (k : toks) : Prop :=
  forall t, match t with Seen _ | Pub _ => True | _ => mult t k = 0 end.

Lemma known_note a : known (note a).
Proof. intros t. rewrite mult_note. by destruct t. Qed.

Lemma known_union k k' : known k -> known k' -> known (k ⊎ k').
Proof. intros Hk Hk' t. specialize (Hk t). specialize (Hk' t). rewrite mult_union. by destruct t; lia. Qed.

Lemma known_empty : known ∅.
Proof. intros t. by destruct t. Qed.

Lemma known_hold k h : known k -> mult (Hold h) k = 0.
Proof. intros Hk. apply (Hk (Hold h)). Qed.
Lemma known_fresh k : known k -> mult Fresh k = 0.
Proof. intros Hk. apply (Hk Fresh). Qed.

Lemma known_rest k : known k -> rest k = ∅.
Proof.
  intros Hk. apply gmultiset_eq. intros x. apply Nat2Z.inj.
  change (mult x (rest k) = mult x ∅). rewrite mult_empty. unfold rest.
  rewrite (mult_mproj _ Src); [apply (Hk (Src x))|]. intros [| | | |t]; naive_solver.
Qed.

Lemma union_assoc_r (r a b : toks) : r ⊎ (a ⊎ b) = r ⊎ a ⊎ b.
Proof. multiset_solver. Qed.

Lemma wp_read_phase r Φ : (forall a, Φ (phase_of a) (r ⊎ note a)) -> wp minv (load CPhase) r Φ.
Proof.
  intros HΦ. apply wp_load. intros m fr HI. destruct (minv_note m r fr HI) as (a & Ha & HI').
  exists (r ⊎ note a). split; [done|]. rewrite (proj1 Ha). apply HΦ.
Qed.

Lemma minv_poison a m r fr : minv m (r ⊎ fr) -> m CPhase = phase_of a -> abandonable a ->
  minv (upd m CPhase POISONED) (r ⊎ note Dead ⊎ fr).
Proof.
  intros (o & b & Hc & HJ) Ha Hab. assert (Hb : abandonable b).
  { rewrite (ctl_phase _ _ _ _ Hc) in Ha. by destruct a, b; try discriminate Ha. }
  exists o, Dead. split.
  - destruct Hc as [C1 C2 C3 C4 C5 C6] eqn:HC. clear HC. apply (ctl_set_phase o b m (r ⊎ fr)); try done.
    + intros h. rewrite <- C1, !mult_union, mult_note. lia.
    + destruct o as [[k q|q|q|q]|]; cbn in *; [naive_solver..| |by right].
      destruct C3 as [[->| ->] _]; done.
    + intros p. specialize (C4 p). rewrite !mult_union, mult_note in *. rewrite decide_False by done.
      intros. apply C4. lia.
    + by constructor.
    + intros c. rewrite !mult_union, mult_note. case_decide; [by left|]. right. lia.
    + rewrite !mult_union, mult_note in *. rewrite Z.add_0_r. split; [apply C6|]. intros Hf.
      destruct C6 as [_ C6]. destruct (C6 Hf) as [p ->]. done.
  - rewrite !rest_union, rest_note, gmultiset_disj_union_right_id in *. by eapply client_abandon.
Qed.

Lemma wp_poison_cas a r Φ : abandonable a ->
  Φ (Ok (phase_of a)) (r ⊎ note Dead) -> (forall b, Φ (Err (phase_of b)) (r ⊎ note b)) ->
  wp minv (compare_exchange_weak CPhase (phase_of a) POISONED) r Φ.
Proof.
  intros Ha Hok Herr. apply wp_cas_weak; intros m fr HI.
  - intros Hm. exists (r ⊎ note Dead). split; [by eapply minv_poison | done].
  - destruct (minv_note m r fr HI) as (b & Hb & HI'). exists (r ⊎ note b).
    split; [done|]. rewrite (proj1 Hb). apply Herr.
Qed.

Lemma decode_or_poison_phase a : decode_or_poison (E := E) (phase_of a) = Ret (Ok (view a)).
Proof. by destruct a. Qed.

(** After [poison] the record is dead, or had committed. *)
Definition settled (a : astate) : Prop :=
  match a with Dead | Live _ | Retired _ => True | _ => False end.

Lemma seen_note k a : 1 <= mult (Seen a) (k ⊎ note a).
Proof.
  rewrite mult_union, mult_note, decide_True by done. pose proof (mult_nonneg (Seen a) k). lia.
Qed.

Lemma poison_spec fuel r : wp minv (poison fuel) r (fun _ r' =>
  exists k a, r' = r ⊎ k /\ known k /\ settled a /\ 1 <= mult (Seen a) k).
Proof.
  apply wp_bind, wp_read_phase. intros a.
  apply (wp_loop _ (fun w r' => exists b k, w = phase_of b /\ r' = r ⊎ (k ⊎ note b) /\ known k)).
  2: { exists a, ∅. split_and!; [done | multiset_solver | apply known_empty]. }
  clear a. intros w ? (b & k & -> & -> & Hk). unfold poison_body.
  assert (Hkn : known (k ⊎ note b)) by (apply known_union; [done | apply known_note]).
  assert (settled b \/ ~ settled b) as [Hb|Hb] by (destruct b; cbn; tauto).
  { assert ((phase_of b =? COMMITTED) || (phase_of b =? RECLAIMED) || (phase_of b =? POISONED) = true)
      as -> by (by destruct b).
    exists (k ⊎ note b), b. split_and!; try done. apply seen_note. }
  assert (Hab : abandonable b) by (by destruct b).
  assert ((phase_of b =? COMMITTED) || (phase_of b =? RECLAIMED) || (phase_of b =? POISONED) = false)
    as -> by (by destruct b).
  rewrite decode_phase. cbn [is_ok negb]. apply wp_bind, wp_poison_cas; [done| |].
  - exists (k ⊎ note b ⊎ note Dead), Dead. rewrite <- union_assoc_r. split_and!; try done.
    + apply known_union; [done | apply known_note].
    + apply seen_note.
  - intros c. exists c, (k ⊎ note b). split_and!; try done. by rewrite <- union_assoc_r.
Qed.

(** ** Reading the plan *)

Lemma pub_published m r p : minv m r -> 1 <= mult (Pub p) r -> published m p.
Proof.
  intros (o & a & Hc & _) Hp. eapply ctl_published; [done|]. by eapply ctl_pub.
Qed.

Lemma pub_union r fr p : 1 <= mult (Pub p) r -> 1 <= mult (Pub p : mtok T) (r ⊎ fr).
Proof. rewrite mult_union. pose proof (mult_nonneg (Pub p) fr). lia. Qed.

Lemma load_valid_plan_spec p r Φ : 1 <= mult (Pub p) r -> Φ (Ok p) r -> wp minv load_valid_plan r Φ.
Proof.
  intros Hp HΦ. apply wp_bind. apply (wp_load_all minv _ (plan_words p)).
  { by destruct p as [? [[] ? ? []] [[] ? ? []] []]. }
  { intros m fr HI. by apply published_words, (pub_published m (r ⊎ fr)), pub_union. }
  rewrite plan_words_inv. apply wp_bind, wp_load. intros m fr HI. exists r. split; [done|].
  pose proof (pub_published m (r ⊎ fr) p HI (pub_union _ _ _ Hp)) as Hpub.
  destruct (published_words m p Hpub) as [_ ->]. destruct Hpub as [_ Hv].
  rewrite Hv, Z.eqb_refl. exact HΦ.
Qed.

Lemma snapshot_spec r Φ :
  (forall a, Φ (Ok {| snap_phase := view a; snap_plan := plan_in a |}) (r ⊎ note a)) ->
  wp minv snapshot r Φ.
Proof.
  intros HΦ. apply wp_bind, wp_read_phase. intros a. rewrite decode_or_poison_phase.
  apply wp_try_bind, wp_ret, wp_try_bind. specialize (HΦ a). rewrite published_view.
  destruct (plan_in a) as [p|] eqn:Ha; [|by apply wp_ret].
  apply wp_try_bind, (load_valid_plan_spec p); [|by apply wp_ret].
  rewrite mult_union, mult_note, decide_True by done. pose proof (mult_nonneg (Pub p) r). lia.
Qed.

(** Routing: what the record says in state [a]. *)
Definition route (a : astate) : result (AuthoritativeGeneration * MigrationPlan) MigrationError :=
  match a with
  | Copying p | Ready p => Ok (AuthSource, p)
  | Live p | Retired p => Ok (AuthTarget, p)
  | _ => Err (NoAuthoritativeGeneration (view a))
  end.

Lemma authoritative_generation_spec r Φ : (forall a, Φ (route a) (r ⊎ note a)) ->
  wp minv authoritative_generation r Φ.
Proof.
  intros HΦ. apply wp_try_bind, snapshot_spec. intros a. specialize (HΦ a). by destruct a.
Qed.

(** ** Steps of the holder *)

Definition kit (h : holder) (rs : gmultiset T) (k : toks) : toks := src rs ⊎ {[+ Hold h +]} ⊎ k.

Lemma rest_kit h rs k : known k -> rest (kit h rs k) = rs.
Proof.
  intros Hk. unfold kit. rewrite !rest_union, rest_src, rest_single, known_rest by done.
  by rewrite !gmultiset_disj_union_right_id.
Qed.

Lemma mult_kit t h rs k : (forall x, t <> Src x) ->
  mult t (kit h rs k) = (if decide (t = Hold h) then 1 else 0) + mult t k.
Proof. intros Ht. unfold kit. rewrite !mult_union, mult_src, mult_single by done. lia. Qed.

(** The holder is unique, and the state is one its token allows. *)
Lemma kit_holder o a m h rs k fr : ctl o a m (kit h rs k ⊎ fr) -> known k ->
  o = Some h /\ forall h', mult (Hold h') fr = 0.
Proof.
  intros Hc Hk. assert (Ho : o = Some h).
  { pose proof (ctl_hold _ _ _ _ Hc h) as Hh. rewrite mult_union, mult_kit, decide_True in Hh by done.
    case_decide; [done|]. pose proof (mult_nonneg (Hold h) fr). pose proof (known_hold k h Hk). lia. }
  split; [done|]. intros h'. pose proof (ctl_hold _ _ _ _ Hc h') as Hh.
  rewrite mult_union, mult_kit in Hh by done. pose proof (known_hold k h' Hk) as Hk'.
  subst o. repeat case_decide; simplify_eq; lia.
Qed.

Lemma minv_advance h h' a a' (R : gmultiset T -> Prop) rs k m fr :
  minv m (kit h rs k ⊎ fr) -> known k -> m CPhase = phase_of a -> astep a a' ->
  (compat m (Some h) a -> compat m (Some h') a') ->
  (forall b, compat m (Some h) b -> phase_of b = phase_of a -> b = a) ->
  (forall p, hplan (Some h) = Some p -> hplan (Some h') = Some p) ->
  (forall p, plan_in a' = Some p -> hplan (Some h') = Some p) ->
  ~ (exists p, a = Retired p) ->
  (forall x fr, J a x (rs ⊎ fr) -> exists rs', R rs' /\ J a' x (rs' ⊎ fr)) ->
  exists rs', R rs' /\ minv (upd m CPhase (phase_of a')) (kit h' rs' (k ⊎ note a') ⊎ fr).
Proof.
  intros (o & b & Hc & HJ) Hk Ha Hstep Hcomp Hdet Hpl Hpl' Hret HR.
  destruct (kit_holder _ _ _ _ _ _ _ Hc Hk) as [-> Hfr].
  destruct Hc as [C1 C2 C3 C4 C5 C6] eqn:HC. clear HC. assert (b = a) as -> by (apply Hdet; [done | congruence]).
  rewrite rest_union, rest_kit in HJ by done. destruct (HR _ _ HJ) as (rs' & Hrs & HJ').
  exists rs'. split; [done|]. exists (Some h'), a'. assert (Hk' : known (k ⊎ note a')).
  { apply known_union; [done | apply known_note]. }
  split; [|by rewrite rest_union, rest_kit].
  apply (ctl_set_phase (Some h) a m (kit h rs k ⊎ fr)); try done; auto.
  - intros x. rewrite mult_union, mult_kit, Hfr by done. pose proof (known_hold _ x Hk') as Hx.
    rewrite Hx. repeat case_decide; simplify_eq; lia.
  - intros p. clear C1 C6. specialize (C4 p). specialize (Hpl' p). rewrite !mult_union, !mult_kit in * by done.
    rewrite mult_union, mult_note. rewrite !(decide_False (P := Pub p = Hold _)) in * by done.
    case_decide; [by auto|]. intros. apply Hpl, C4. lia.
  - intros c. clear C1 C6. rewrite !mult_union, !mult_kit, mult_union, mult_note by done.
    rewrite !(decide_False (P := Seen c = Hold _)) by done. case_decide; [by left|]. right. lia.
  - clear C1. rewrite !mult_union, !mult_kit in * by done.
    rewrite !(decide_False (P := Fresh = Hold _)) in * by done.
    rewrite (known_fresh k Hk) in C6. rewrite (known_fresh _ Hk'). destruct C6 as [C6 C6']. split; [lia|]. intros Hf. exfalso. apply Hret, C6'. lia.
Qed.

Lemma minv_claim p (R : gmultiset T -> Prop) rs k m fr :
  minv m (src rs ⊎ k ⊎ fr) -> known k -> m CPhase = UNINITIALIZED ->
  (forall x fr, J Unused x (rs ⊎ fr) -> exists rs', R rs' /\ J Claimed x (rs' ⊎ fr)) ->
  exists rs', R rs' /\ minv (upd m CPhase INITIALIZING) (kit (Claimer 0 p) rs' (k ⊎ note Claimed) ⊎ fr).
Proof.
  intros (o & a & Hc & HJ) Hk Hm HR. assert (Ha : a = Unused).
  { pose proof (ctl_phase _ _ _ _ Hc) as Hp. rewrite Hm in Hp. by destruct a. }
  subst a. destruct Hc as [C1 C2 C3 C4 C5 C6] eqn:HC. clear HC.
  assert (o = None) as ->.
  { destruct o as [[]|]; [..|done]; cbn in C3; destruct C3 as [[C3|C3] _]; discriminate C3. }
  rewrite !rest_union, rest_src, known_rest in HJ by done.
  replace (rs ⊎ ∅ ⊎ rest fr) with (rs ⊎ rest fr) in HJ by multiset_solver.
  destruct (HR _ _ HJ) as (rs' & Hrs & HJ'). exists rs'. split; [done|].
  assert (Hk' : known (k ⊎ note Claimed)) by (apply known_union; [done | apply known_note]).
  exists (Some (Claimer 0 p)), Claimed. split; [|by rewrite rest_union, rest_kit].
  apply (ctl_set_phase None Unused m (src rs ⊎ k ⊎ fr)); try done.
  - intros x. specialize (C1 x). rewrite !mult_union, mult_src, decide_False in C1 by done.
    rewrite mult_union, mult_kit by done. pose proof (known_hold _ x Hk') as Hx. rewrite Hx.
    pose proof (mult_nonneg (Hold x) k). pose proof (mult_nonneg (Hold x) fr).
    repeat case_decide; simplify_eq; lia.
  - split; [by left|done].
  - intros q. clear C1 C6. specialize (C4 q). rewrite !mult_union, mult_kit, mult_src in * by done.
    rewrite (decide_False (P := Pub q = Hold _)), mult_union, mult_note by done.
    rewrite decide_False by done. intros. discriminate C4. lia.
  - constructor.
  - intros c. clear C1 C6. rewrite !mult_union, mult_kit, mult_src, mult_union, mult_note by done.
    rewrite (decide_False (P := Seen c = Hold _)) by done. case_decide; [by left|]. right. lia.
  - clear C1. rewrite !mult_union, mult_src in C6 by done. rewrite mult_union, mult_kit by done.
    rewrite (decide_False (P := Fresh = Hold _)), (known_fresh _ Hk') by done.
    rewrite (known_fresh _ Hk) in C6. destruct C6 as [C6 C6']. split; [lia|]. intros Hf. destruct C6' as [? ?]; [lia|done].
Qed.

(** The claimer writes the words of its plan one by one. *)
Lemma minv_write n p l v rs k m fr : minv m (kit (Claimer n p) rs k ⊎ fr) -> known k ->
  all_cells !! n = Some l -> all_words p !! n = Some v ->
  minv (upd m l v) (kit (Claimer (S n) p) rs k ⊎ fr).
Proof.
  intros (o & a & Hc & HJ) Hk Hl Hv. destruct (kit_holder _ _ _ _ _ _ _ Hc Hk) as [-> Hfr].
  destruct Hc as [C1 C2 C3 C4 C5 C6]. pose proof (all_cells_idx l n Hl) as Hidx.
  exists (Some (Claimer (S n) p)), a. rewrite rest_union, rest_kit in * by done.
  assert ((fun e => upd m l v (Rest e)) = fun e => m (Rest e)) as ->.
  { apply FunctionalExtensionality.functional_extensionality. intros e. apply upd_ne.
    intros <-. done. }
  split; [|done]. constructor; try done.
  - intros x. rewrite mult_union, mult_kit, Hfr by done. pose proof (known_hold _ x Hk) as Hx.
    rewrite Hx. repeat case_decide; simplify_eq; lia.
  - rewrite upd_ne; [done|]. intros <-. done.
  - cbn in *. destruct C3 as [C3 Hw]. split; [done|]. by apply wrote_step.
  - intros q Hq. discriminate (C4 q). rewrite !mult_union, !mult_kit in * by done.
    by rewrite !(decide_False (P := Pub q = Hold _)) in * by done.
  - intros b Hb. apply C5. rewrite !mult_union, !mult_kit in * by done.
    by rewrite !(decide_False (P := Seen b = Hold _)) in * by done.
  - rewrite !mult_union, !mult_kit in * by done.
    by rewrite !(decide_False (P := Fresh = Hold _)) in * by done.
Qed.

(** Any thread may fence the reclamation of a committed migration. *)
Lemma minv_reclaim p r m fr : minv m (r ⊎ fr) -> m CPhase = COMMITTED -> 1 <= mult (Pub p) r ->
  minv (upd m CPhase RECLAIMED) (r ⊎ ({[+ Fresh +]} ⊎ note (Retired p)) ⊎ fr).
Proof.
  intros (o & a & Hc & HJ) Hm Hp.
  pose proof (ctl_pub _ _ _ _ Hc p (pub_union _ _ _ Hp)) as Ho.
  assert (Ha : a = Live p).
  { pose proof (ctl_phase _ _ _ _ Hc) as Hph. rewrite Hm in Hph. destruct a; try discriminate Hph.
    pose proof (ctl_plan_in _ _ _ _ p0 Hc eq_refl). congruence. }
  subst a. destruct Hc as [C1 C2 C3 C4 C5 C6] eqn:HC. clear HC. exists o, (Retired p). split.
  - apply (ctl_set_phase o (Live p) m (r ⊎ fr)); try done.
    + intros h. rewrite <- C1, !mult_union, mult_note, mult_single, decide_False by done. lia.
    + destruct o as [[k q|q|q|q]|]; cbn in *; simplify_eq; naive_solver.
    + intros q. clear C1 C6. specialize (C4 q). rewrite !mult_union, mult_note, mult_single in *.
      rewrite (decide_False (P := Pub q = Fresh)) by done. case_decide; [by simplify_eq/=|].
      intros. apply C4. lia.
    + constructor.
    + intros b. clear C1 C6. rewrite !mult_union, mult_note, mult_single, (decide_False (P := Seen b = Fresh)) by done.
      case_decide; [by left|]. right. lia.
    + destruct C6 as [C6 C6']. rewrite !mult_union, mult_note, mult_single, decide_True in * by done.
      split; [|by eauto]. assert (~ 1 <= mult Fresh r + mult Fresh fr); [|lia].
      intros Hf. by destruct (C6' Hf).
  - rewrite !rest_union, rest_note, rest_single in *.
    replace (rest r ⊎ (∅ ⊎ ∅) ⊎ rest fr) with (rest r ⊎ rest fr) by multiset_solver.
    by apply client_reclaim.
Qed.

(** ** The operations *)

Lemma mig_transition_spec p exp raw next r Φ : 1 <= mult (Pub p) r ->
  (forall m fr, minv m (r ⊎ fr) -> m CPhase = raw ->
     exists r', minv (upd m CPhase next) (r' ⊎ fr) /\ Φ (Ok tt) r') ->
  (forall a m fr, minv m (r ⊎ fr) -> reads m a -> m CPhase <> raw ->
     exists r', minv m (r' ⊎ fr) /\ Φ (Err (MigrationWrongPhase exp (view a))) r') ->
  wp minv (transition p exp raw next) r Φ.
Proof.
  intros Hp Hok Herr. apply wp_try_bind, (load_valid_plan_spec p); [done|].
  rewrite bool_decide_true by done. cbn [negb]. apply wp_bind, wp_cas; intros m fr HI Hm.
  - by apply Hok.
  - destruct (minv_note m r fr HI) as (a & Ha & _). destruct (Herr a m fr HI Ha Hm) as (r' & HI' & HΦ).
    exists r'. split; [done|]. by rewrite (proj1 Ha), decode_or_poison_phase.
Qed.

(** The states in which a handle of stage [h] can find the record. *)
Definition allowed (h : holder) (a : astate) : Prop :=
  a = Dead \/ match h with
  | Claimer _ _ => a = Claimed
  | AtCopying p => a = Copying p
  | AtReady p => a = Ready p
  | Won _ => False
  end.

Definition pending (h : holder) (p : MigrationPlan) : Prop := h = AtCopying p \/ h = AtReady p.

Lemma kit_allowed m h rs k fr : minv m (kit h rs k ⊎ fr) -> known k -> (forall p, h <> Won p) ->
  exists a, allowed h a /\ reads m a /\ minv m (kit h rs (k ⊎ note a) ⊎ fr).
Proof.
  intros (o & a & Hc & HJ) Hk Hh. exists a. destruct (kit_holder _ _ _ _ _ _ _ Hc Hk) as [-> _].
  split_and!.
  - pose proof (ctl_compat _ _ _ _ Hc) as Hcc. unfold allowed.
    destruct h as [n q|q|q|q]; [..|by destruct (Hh q)]; destruct Hcc as [[->| ->] _]; auto.
  - by eapply ctl_reads.
  - exists (Some h), a. assert (Hk' : known (k ⊎ note a)) by (apply known_union, known_note; done).
    rewrite rest_union, rest_kit in * by done. split; [|done].
    replace (kit h rs (k ⊎ note a)) with (kit h rs k ⊎ note a) by (unfold kit; multiset_solver).
    by apply ctl_note.
Qed.

Lemma wp_read_phase_held h rs k Φ : known k -> (forall p, h <> Won p) ->
  (forall a, allowed h a -> Φ (phase_of a) (kit h rs (k ⊎ note a))) ->
  wp minv (load CPhase) (kit h rs k) Φ.
Proof.
  intros Hk Hh HΦ. apply wp_load. intros m fr HI.
  destruct (kit_allowed m h rs k fr HI Hk Hh) as (a & Ha & Hr & HI').
  exists (kit h rs (k ⊎ note a)). split; [done|]. rewrite (proj1 Hr). by apply HΦ.
Qed.

Lemma dead_kit h rs k : 1 <= mult (Seen Dead) (kit h rs (k ⊎ note Dead)).
Proof.
  rewrite mult_kit, decide_False by done. pose proof (seen_note k Dead). lia.
Qed.

Lemma pending_phase h p a : pending h p -> allowed h a ->
  a = Dead \/ (abandonable a /\ (phase_of a = COPYING \/ phase_of a = TARGET_READY)).
Proof.
  intros [->| ->] [->|Ha]; try (by left); right; cbn in Ha; subst a; (split; [done|]); [by left | by right].
Qed.

(** An armed handle that is dropped leaves the record dead. *)
Lemma drop_spec fuel h p rs k : pending h p -> known k -> 1 <= mult (Pub p) k ->
  wp minv (poison_if_incomplete fuel (transaction_id p)) (kit h rs k)
    (fun _ r' => 1 <= mult (Seen Dead) r').
Proof.
  intros Hh Hk Hp. assert (Hw : forall q, h <> Won q) by (intros q ->; by destruct Hh).
  assert (Hpub : 1 <= mult (Pub p) (kit h rs k)) by (rewrite mult_kit, decide_False by done; lia).
  apply wp_bind, wp_load. intros m fr HI. exists (kit h rs k). split; [done|].
  assert (m CTransactionId = transaction_id p) as ->.
  { pose proof (pub_published m _ p HI (pub_union _ _ _ Hpub)) as [Hm _]%published_words.
    apply (f_equal head) in Hm. cbn in Hm. by simplify_eq. }
  clear m fr HI. rewrite Z.eqb_refl. cbn [negb]. apply wp_bind, wp_read_phase_held; [done..|].
  intros a Ha.
  apply (wp_loop _ (fun w r' => exists b k', w = phase_of b /\ allowed h b /\ known k' /\
    r' = kit h rs (k' ⊎ note b))); [|by exists a, k].
  clear a Ha Hp Hpub k Hk. intros w ? (b & k & -> & Hb & Hk & ->). unfold poison_if_incomplete_body.
  assert (Hkn : known (k ⊎ note b)) by (apply known_union, known_note; done).
  destruct (pending_phase h p b Hh Hb) as [->|[Hab Hph]].
  { apply wp_ret, dead_kit. }
  assert (negb (phase_of b =? COPYING) && negb (phase_of b =? TARGET_READY) = false) as ->.
  { by destruct Hph as [->| ->]. }
  apply wp_bind, wp_cas_weak; intros m fr HI.
  - intros Hm. exists (kit h rs (k ⊎ note b) ⊎ note Dead). split; [by eapply minv_poison|].
    apply wp_ret, seen_note.
  - destruct (kit_allowed m h rs _ fr HI Hkn Hw) as (c & Hc & Hr & HI').
    exists (kit h rs (k ⊎ note b ⊎ note c)). split; [done|]. rewrite (proj1 Hr).
    apply wp_ret. by exists c, (k ⊎ note b).
Qed.

Lemma seen_dead m r : minv m r -> 1 <= mult (Seen Dead) r -> m CPhase = POISONED.
Proof.
  intros (o & a & Hc & _) Hs. pose proof (ctl_seen _ _ _ _ Hc _ Hs) as Ha.
  apply astep_terminal in Ha; [|by left]. subst. apply (ctl_phase _ _ _ _ Hc).
Qed.

Lemma store_words_spec p rs k ws n Φ : known k -> ws = drop n (combine plan_cells (plan_words p)) ->
  Φ tt (kit (Claimer (n + length ws) p) rs k) ->
  wp minv (store_all ws) (kit (Claimer n p) rs k) Φ.
Proof.
  intros Hk. revert n. induction ws as [|[l v] ws IH]; intros n Hws HΦ.
  - apply wp_ret. by rewrite Nat.add_0_r in HΦ.
  - cbn [store_all]. assert (Hn : combine plan_cells (plan_words p) !! n = Some (l, v)).
    { by rewrite <- (Nat.add_0_r n), <- lookup_drop, <- Hws. }
    assert (Hlv : all_cells (E := E) !! n = Some l /\ all_words p !! n = Some v).
    { apply lookup_zip_with_Some in Hn as (l' & v' & Heq & Hl & Hv). simplify_eq.
      split; by apply lookup_app_l_Some. }
    apply wp_bind, wp_store. intros m fr HI. exists (kit (Claimer (S n) p) rs k).
    split; [by apply minv_write; try apply Hlv|]. apply IH.
    + by rewrite <- Nat.add_1_r, <- drop_drop, <- Hws.
    + by rewrite Nat.add_succ_l, <- Nat.add_succ_r.
Qed.

Context {Q : Type}.

Lemma begin_spec (q : Q) p (R : gmultiset T -> Prop) rs k : known k ->
  (forall x fr, J Unused x (rs ⊎ fr) -> exists rs', R rs' /\ J Claimed x (rs' ⊎ fr)) ->
  wp minv (begin q p) (src rs ⊎ k) (fun x r' =>
    match x with
    | Ok h => h = {| mig_plan := p; mig_source := Some q; mig_armed := true |} /\
        exists rs' k', R rs' /\ known k' /\ 1 <= mult (Pub p) k' /\ r' = kit (AtCopying p) rs' k'
    | Err e => (exists b, e = MigrationWrongPhase PInitializing b) -> 1 <= mult (Seen Dead) r'
    end).
Proof.
  intros Hk HR. unfold begin. destruct (plan_validate p) as [[]|e] eqn:Hv.
  2: { apply wp_ret. intros [b ->]. exfalso. revert Hv. clear.
       unfold plan_validate, generation_validate, schema_validate, result_bind.
       repeat case_match; congruence. }
  apply wp_bind, wp_cas; intros m fr HI Hm.
  2: { destruct (minv_note m _ fr HI) as (a & Ha & HI'). exists (src rs ⊎ k). split; [done|].
       rewrite (proj1 Ha), decode_or_poison_phase. apply wp_ret. by intros [b [=]]. }
  destruct (minv_claim p R rs k m fr HI Hk Hm HR) as (rs' & HR' & HI').
  eexists. split; [exact HI'|]. assert (Hk' : known (k ⊎ note Claimed)).
  { apply known_union, known_note; done. }
  apply wp_bind, (store_words_spec p _ _ _ 0); [done..|].
  apply wp_bind, wp_store. clear m fr HI HI' Hm. intros m fr HI.
  exists (kit (Claimer 22 p) rs' (k ⊎ note Claimed)). split; [by eapply minv_write in HI|].
  clear m fr HI. apply wp_bind, wp_cas; intros m fr HI Hm.
  - destruct (minv_advance (Claimer 22 p) (AtCopying p) Claimed (Copying p) (eq rs') _ _ m fr HI Hk')
      as (rs1 & <- & HI'); try done; try (by intros []); try (by apply a_publish).
    + intros [_ Hw]. split; [by left | by apply wrote_all].
    + intros x fr0 HJ. exists rs'. split; [done|]. by apply client_publish.
    + exists (kit (AtCopying p) rs' (k ⊎ note Claimed ⊎ note (Copying p))). split; [done|].
      apply wp_bind, wp_ret, wp_ret. split; [done|]. exists rs', (k ⊎ note Claimed ⊎ note (Copying p)).
      split_and!; try done; [by apply known_union, known_note|].
      rewrite mult_union, (mult_note (Pub p)), decide_True by done.
      pose proof (mult_nonneg (Pub p) (k ⊎ note Claimed)). lia.
  - destruct (kit_allowed m _ rs' _ fr HI Hk') as (a & Ha & Hr & HI'); [done|].
    destruct Ha as [->|Ha]; [|by subst; destruct Hr].
    exists (kit (Claimer 22 p) rs' (k ⊎ note Claimed ⊎ note Dead)). split; [done|].
    rewrite (proj1 Hr), decode_or_poison_phase. apply wp_bind, wp_ret, wp_bind, wp_store.
    intros m' fr' HI1. eexists. split; [|apply wp_ret; intros _; apply dead_kit].
    rewrite upd_id; [exact HI1|]. eapply seen_dead; [done|].
    rewrite mult_union. pose proof (dead_kit (Claimer 22 p) rs' (k ⊎ note Claimed)).
    pose proof (mult_nonneg (Seen Dead) fr'). lia.
Qed.

Lemma check_target_ok p t : check_target p t = Ok tt <->
  backing_generation t = target p /\ recovery_authority t = target_authority p /\ is_private t = true.
Proof.
  unfold check_target. repeat case_bool_decide; cbn; [|naive_solver..].
  destruct (is_private t); naive_solver.
Qed.

(** A step of the handle from stage [h] to [h'], or the death of the record. *)
Lemma stage_spec fuel h h' a a' exp (R : gmultiset T -> Prop) p rs k Φ :
  pending h p -> hplan (Some h') = Some p -> known k -> 1 <= mult (Pub p) k ->
  allowed h a -> a <> Dead -> plan_in a' = Some p -> astep a a' ->
  (forall m : mem, compat m (Some h) a -> compat m (Some h') a') ->
  (forall x fr, J a x (rs ⊎ fr) -> exists rs', R rs' /\ J a' x (rs' ⊎ fr)) ->
  (forall rs' k', R rs' -> known k' -> 1 <= mult (Pub p) k' -> 1 <= mult (Seen a') k' ->
     Φ (Ok tt) (kit h' rs' k')) ->
  (forall e, wp minv (poison_if_incomplete fuel (transaction_id p)) (kit h rs k)
     (fun _ r' => 1 <= mult (Seen Dead) r') -> Φ (Err e) (kit h rs k)) ->
  wp minv (transition p exp (phase_of a) (phase_of a')) (kit h rs k) Φ.
Proof.
  intros Hh Hh' Hk Hp Ha Hnd Ha' Hstep Hcomp HR Hok Herr.
  apply mig_transition_spec; [by rewrite mult_kit, decide_False by done| |].
  - intros m fr HI Hm.
    destruct (minv_advance h h' a a' R rs k m fr HI Hk Hm Hstep) as (rs' & HR' & HI'); try done.
    + apply Hcomp.
    + intros b Hb Hph. destruct Hh as [->| ->]; destruct Ha as [->|Ha]; try done;
        cbn in Ha; subst a; by destruct Hb as [[->| ->] _].
    + intros q Hq. rewrite Hh'. by destruct Hh as [->| ->].
    + intros q Hq. by rewrite Hh', <- Hq.
    + intros [q ->]. by inversion Hstep.
    + eexists. split; [exact HI'|]. apply Hok; try done; [by apply known_union, known_note| |apply seen_note].
      rewrite mult_union. pose proof (mult_nonneg (Pub p) (note a')). lia.
  - intros b m fr HI _ _. exists (kit h rs k). split; [done|]. by apply Herr, drop_spec.
Qed.

Lemma mark_target_ready_spec fuel (q : Q) p t (R : gmultiset T -> Prop) rs k :
  known k -> 1 <= mult (Pub p) k ->
  (forall x fr, J (Copying p) x (rs ⊎ fr) -> exists rs', R rs' /\ J (Ready p) x (rs' ⊎ fr)) ->
  wp minv (mark_target_ready fuel {| mig_plan := p; mig_source := Some q; mig_armed := true |} t)
    (kit (AtCopying p) rs k) (fun x r' =>
    match x with
    | Ok h => check_target p t = Ok tt /\
        h = {| trm_plan := p; trm_source := Some q; trm_target := Some t; trm_armed := true |} /\
        exists rs' k', R rs' /\ known k' /\ 1 <= mult (Pub p) k' /\ r' = kit (AtReady p) rs' k'
    | Err _ => 1 <= mult (Seen Dead) r'
    end).
Proof.
  intros Hk Hp HR. unfold mark_target_ready. cbn [mig_plan].
  destruct (check_target p t) as [[]|e] eqn:Ht.
  2: { apply wp_bind. eapply wp_mono, (drop_spec _ (AtCopying p)); try done. by left. }
  apply wp_bind, (stage_spec fuel (AtCopying p) (AtReady p) (Copying p) (Ready p) _ R); try done.
  - by left.
  - by right.
  - apply a_ready.
  - intros m [_ Hm]. split; [by left | done].
  - intros rs' k' HR' Hk' Hp' _. apply wp_bind, wp_ret, wp_ret. split_and!; try done. by exists rs', k'.
  - intros e Hd. apply wp_bind. eapply wp_mono, Hd. done.
Qed.

Lemma commit_spec fuel (q : Q) p t rs k : known k -> 1 <= mult (Pub p) k ->
  wp minv (commit fuel {| trm_plan := p; trm_source := Some q; trm_target := Some t; trm_armed := true |})
    (kit (AtReady p) rs k) (fun x r' =>
    match x with
    | Ok c => check_target p t = Ok tt /\ c = {| com_plan := p; com_source := q; com_target := t |} /\
        exists k', known k' /\ 1 <= mult (Pub p) k' /\ 1 <= mult (Seen (Live p)) k' /\
          r' = kit (Won p) rs k'
    | Err _ => 1 <= mult (Seen Dead) r'
    end).
Proof.
  intros Hk Hp. unfold commit. cbn [trm_target trm_plan].
  destruct (check_target p t) as [[]|e] eqn:Ht.
  2: { apply wp_bind. eapply wp_mono, (drop_spec _ (AtReady p)); try done. by right. }
  apply wp_bind, (stage_spec fuel (AtReady p) (Won p) (Ready p) (Live p) _ (eq rs)); try done.
  - by right.
  - by right.
  - apply a_commit.
  - intros m [_ Hm]. split; [by left | done].
  - intros x fr HJ. exists rs. split; [done|]. by apply client_commit.
  - intros rs' k' <- Hk' Hp' Hs. apply wp_ret. split_and!; try done. by exists k'.
  - intros e Hd. apply wp_bind. eapply wp_mono, Hd. done.
Qed.

(** ** Reclamation *)

(** What a permit for [p] is evidence of. *)
Definition permit_post (p : MigrationPlan) (fresh : bool) (x : toks) : Prop :=
  rest x = ∅ /\ 1 <= mult (Seen (Retired p)) x /\ (fresh = true -> 1 <= mult Fresh x).

Lemma permit_note p : permit_post p false (note (Retired p)).
Proof.
  split_and!; [apply rest_note | | done]. by rewrite mult_note, decide_True by done.
Qed.

Lemma resume_reclamation_spec r : wp minv resume_reclamation r (fun x r' =>
  match x with
  | Ok pm => resumed pm = true /\ exists k, permit_post (permit_plan pm) false k /\ r' = r ⊎ k
  | Err _ => True
  end).
Proof.
  apply wp_try_bind, snapshot_spec. intros a. destruct a; try done.
  apply wp_ret. split; [done|]. eexists. split; [apply permit_note | done].
Qed.

Lemma mark_reclaimed_spec p r : 1 <= mult (Pub p) r -> wp minv (mark_reclaimed p false) r (fun x r' =>
  match x with
  | Ok pm => pm = {| permit_plan := p; resumed := false |} /\
      exists k, permit_post p true k /\ r' = r ⊎ k
  | Err _ => True
  end).
Proof.
  intros Hp. apply wp_try_bind, mig_transition_spec; [done| |].
  - intros m fr HI Hm. eexists. split; [by eapply minv_reclaim|]. apply wp_ret. split; [done|].
    eexists. split; [|done]. split_and!.
    + rewrite rest_union, rest_single, rest_note. multiset_solver.
    + rewrite mult_union, mult_note, decide_True, mult_single, decide_False by done. lia.
    + intros _. rewrite mult_union, mult_note, mult_single, decide_True by done. lia.
  - intros a m fr HI _ _. by exists r.
Qed.

Context `{!QuiescenceWitness E Q} (evidence : gmultiset T -> Prop).

(** What a witness of source quiescence promises to the migration. *)
Class WitnessSpec (q : Q) : Prop := {
  witness_quiescent r : wp minv (still_quiescent q) r (fun b r' =>
    exists s, r' = r ⊎ src s /\ (b = true -> evidence s))
}.

Lemma authorize_reclamation_spec q `{!WitnessSpec q} r :
  wp minv (authorize_reclamation q) r (fun x r' =>
  match x with
  | Ok pm => permit_plan pm = witness_plan q /\
      exists s k, evidence s /\ permit_post (permit_plan pm) (negb (resumed pm)) k /\ r' = r ⊎ src s ⊎ k
  | Err _ => True
  end).
Proof.
  apply wp_try_bind, snapshot_spec. intros a. cbn [snap_plan snap_phase].
  destruct (plan_in a) as [p|] eqn:Ha; [|done]. case_bool_decide as Hq; [|done]. cbn [negb].
  apply wp_bind. eapply wp_mono, witness_quiescent. intros b ? (s & -> & Hs). destruct b; [|done].
  specialize (Hs eq_refl). cbn [negb]. case_bool_decide as Hret.
  { destruct a; try discriminate Hret. cbn in Ha. simplify_eq. apply wp_ret.
    split; [done|]. exists s, (note (Retired (witness_plan q))).
    split_and!; [done | apply permit_note | multiset_solver]. }
  case_bool_decide as Hcom; [|done]. cbn [negb]. destruct a; try discriminate Hcom. cbn in Ha. simplify_eq.
  eapply wp_mono, mark_reclaimed_spec.
  - intros [pm|e] r'; [|done]. intros (-> & k & (Hk1 & Hk2 & Hk3) & ->). split; [done|].
    exists s, (note (Live (witness_plan q)) ⊎ k). split_and!; [done| |multiset_solver]. split_and!.
    + rewrite rest_union, rest_note, Hk1. multiset_solver.
    + rewrite mult_union. pose proof (mult_nonneg (Seen (Retired (witness_plan q))) (note (Live (witness_plan q)))). cbn in *. lia.
    + intros _. rewrite mult_union. pose proof (mult_nonneg Fresh (note (Live (witness_plan q)))). specialize (Hk3 eq_refl). lia.
  - rewrite !mult_union, mult_note, decide_True by done.
    pose proof (mult_nonneg (Pub (witness_plan q)) r). pose proof (mult_nonneg (Pub (witness_plan q)) (src s)). lia.
Qed.

Lemma begin_with_quiescent_source_spec q `{!WitnessSpec q} p (R : gmultiset T -> Prop) r k :
  known k ->
  (forall s x fr, evidence s -> J Unused x (r ⊎ s ⊎ fr) -> exists rs', R rs' /\ J Claimed x (rs' ⊎ fr)) ->
  wp minv (begin_with_quiescent_source q p) (src r ⊎ k) (fun x r' =>
    match x with
    | Ok h => h = {| mig_plan := p; mig_source := Some q; mig_armed := true |} /\
        exists rs' k', R rs' /\ known k' /\ 1 <= mult (Pub p) k' /\ r' = kit (AtCopying p) rs' k'
    | Err e => (exists b, e = MigrationWrongPhase PInitializing b) -> 1 <= mult (Seen Dead) r'
    end).
Proof.
  intros Hk HR. unfold begin_with_quiescent_source. case_bool_decide; cbn [negb].
  2: { apply wp_ret. by intros [b [=]]. }
  apply wp_bind. eapply wp_mono, witness_quiescent. intros b ? (s & -> & Hs).
  destruct b; cbn [negb]; [|apply wp_ret; by intros [b [=]]].
  replace (src r ⊎ k ⊎ src s) with (src (r ⊎ s) ⊎ k).
  2: { unfold src. rewrite gmultiset_map_disj_union. multiset_solver. }
  apply begin_spec; [done|]. intros x fr. by apply HR, Hs.
Qed.
End Protocol.
