(* ===== verification/MigrationCorrect.v ===== *)
(** Migration end to end: participants of an admission gate, migrators, routers,
    supervisors and reclaimers on one control record.

    The source generation is one word behind a [CloseableSnzi]; participants update
    it while admitted.  A migrator copies it, converted, to the target word.  The
    gate is the verified component of [AdmissionCorrect], lifted to its place. *)

From stdpp Require Import countable.
From S2P Require Import Prelude Conc Compose Snzi SnziInv Admission AdmissionCorrect Migration MigrationInv.

(** ** The system *)

Inductive place := GateCell (c : cell acell) | SourceData | TargetData.
#[export] Instance place_eq_dec : EqDecision place.
Proof. solve_decision. Defined.

#[export] Instance gate_place_inj : Inj (=) (=) (fun c => Rest (GateCell c)).
Proof. by intros c c' [=]. Qed.

(** What a thread ends with. *)
Inductive verdict :=
| Quiet
| Refused (e : MigrationError)
| Aborted
| Committed (p : MigrationPlan) (v : Z)
| Routed (g : AuthoritativeGeneration) (p : MigrationPlan) (d : Z)
| Permitted (p : MigrationPlan) (fresh : bool).

Section System.
Variable (NODES : Z) (fuel : nat) (convert : Z -> Z).
#[local] Abbreviation prog := (prog (ccell place)).

#[local] Instance gate_witness : QuiescenceWitness place (AdmissionQuiescence place unit) :=
  admission_quiescence NODES fuel.

Definition at_gate {A} (p : Conc.prog (cell acell) A) : prog A :=
  lift (fun c => Rest (GateCell c)) p.

(** A participant updates the source word each time it is admitted; the reclaimed
    source reads [-1]. *)
Fixpoint source_user (script : list nat) : prog verdict :=
  match script with
  | [] => Ret Quiet
  | lf :: script =>
      let! x := at_gate (Admission.try_enter NODES fuel (Z.of_nat lf)) in
      match x with
      | Err _ => Ret Quiet
      | Ok t =>
          let! v := load (Rest SourceData) in
          if v <? 0 then Panic
          else
            do! store (Rest SourceData) (v + 1) ;;
            let! d := at_gate (token_depart NODES fuel t) in
            match d with
            | Ok _ => source_user script
            | Err DepartAlreadyDrained => Panic
            | Err _ => Ret Quiet
            end
      end
  end.

Definition closer : prog verdict := do! at_gate Admission.close ;; Ret Quiet.

Definition poisoner : prog verdict := do! poison fuel ;; Ret Quiet.

(** A migrator: binds the gate, claims the record, copies, declares the target
    ready and commits; [stop] says where its process gives up instead, [t] and
    [t'] are what the target capability answers at the two checks. *)
Definition migrator (p : MigrationPlan) (t t' : PrecommitTargetBacking) (stop : nat) : prog verdict :=
  let! w := admission_bind NODES fuel GateCell p in
  match w with
  | Err e => Ret (Refused e)
  | Ok w =>
      let! h := begin_with_quiescent_source w p in
      match h with
      | Err e => Ret (Refused e)
      | Ok h =>
          let! v := load (Rest SourceData) in
          if v <? 0 then Panic
          else
            do! store (Rest TargetData) (convert v) ;;
            match stop with
            | 0%nat => do! migration_drop fuel h ;; Ret Aborted
            | _ =>
                let! r := mark_target_ready fuel h t in
                match r with
                | Err _ => Ret Aborted
                | Ok r =>
                    match stop with
                    | 1%nat => do! target_ready_drop fuel r ;; Ret Aborted
                    | _ =>
                        let! c := commit fuel {| trm_plan := trm_plan r; trm_source := trm_source r;
                                                 trm_target := Some t'; trm_armed := trm_armed r |} in
                        match c with
                        | Err _ => Ret Aborted
                        | Ok c => Ret (Committed (com_plan c) v)
                        end
                    end
                end
            end
      end
  end.

(** A router that is sent to the target reads it. *)
Definition router : prog verdict :=
  let! x := authoritative_generation in
  match x with
  | Err e => Ret (Refused e)
  | Ok (AuthSource, p) => Ret (Routed AuthSource p 0)
  | Ok (AuthTarget, p) => let! d := load (Rest TargetData) in Ret (Routed AuthTarget p d)
  end.

(** Reclamation destroys the source word; the authority comes back for the permit. *)
Definition reclaimer (p : MigrationPlan) : prog verdict :=
  let! w := admission_bind NODES fuel GateCell p in
  match w with
  | Err e => Ret (Refused e)
  | Ok w =>
      let! x := authorize_reclamation w in
      match x with
      | Err e => Ret (Refused e)
      | Ok permit =>
          match into_authority w permit with
          | Err _ => Panic
          | Ok _ =>
              do! store (Rest SourceData) (-1) ;;
              Ret (Permitted (permit_plan permit) (negb (resumed permit)))
          end
      end
  end.

Definition resumer : prog verdict :=
  let! x := resume_reclamation in
  match x with
  | Err e => Ret (Refused e)
  | Ok permit =>
      do! store (Rest SourceData) (-1) ;;
      Ret (Permitted (permit_plan permit) (negb (resumed permit)))
  end.

Inductive role :=
| SourceUser (script : list nat)
| Closer
| Poisoner
| Migrator (p : MigrationPlan) (t t' : PrecommitTargetBacking) (stop : nat)
| Router
| Reclaimer (p : MigrationPlan)
| Resumer.

Definition play (x : role) : prog verdict :=
  match x with
  | SourceUser script => source_user script
  | Closer => closer
  | Poisoner => poisoner
  | Migrator p t t' stop => migrator p t t' stop
  | Router => router
  | Reclaimer p => reclaimer p
  | Resumer => resumer
  end.

(** A fresh gate, a fresh control record and a source that holds 0. *)
Definition boot : ccell place -> Z := fun _ => 0.
Definition system (roles : list role) : (ccell place -> Z) * list (prog verdict) :=
  (boot, play <$> roles).
End System.

(** ** The invariant of the data *)

(** [Copied v]: the final value of the source is [v].  [Tgt w]: the exclusive
    right to write the target word, which holds [w]. *)
Inductive dtok := Bar (t : tok atok) | Copied (v : Z) | Tgt (w : Z).
#[export] Instance dtok_eq_dec : EqDecision dtok.
Proof. solve_decision. Defined.
#[export] Instance dtok_countable : Countable dtok.
Proof.
  apply (inj_countable'
    (fun t => match t with Bar t => inl t | Copied v => inr (inl v) | Tgt w => inr (inr w) end)
    (fun s => match s with inl t => Bar t | inr (inl v) => Copied v | inr (inr w) => Tgt w end)).
  by intros [].
Defined.

#[local] Abbreviation btoks := (gmultiset (tok atok)).
#[local] Abbreviation dtoks := (gmultiset dtok).

Definition bars (r : dtoks) : btoks := mproj (fun t => match t with Bar t => Some t | _ => None end) r.
Definition bar (s : btoks) : dtoks := gmultiset_map Bar s.

Lemma bars_union r r' : bars (r ⊎ r') = bars r ⊎ bars r'.
Proof. apply mproj_union. Qed.
Lemma bars_bar s : bars (bar s) = s.
Proof. by apply mproj_map. Qed.
Lemma bars_copied v : bars {[+ Copied v +]} = ∅.
Proof. unfold bars. by rewrite mproj_single. Qed.
Lemma bars_tgt w : bars {[+ Tgt w +]} = ∅.
Proof. unfold bars. by rewrite mproj_single. Qed.
Lemma mult_bar t s : (forall x, t <> Bar x) -> mult t (bar s) = 0.
Proof. apply mult_map_other. Qed.

Definition sealing (s : btoks) : Prop := 1 <= mult (Other Sealed) s.
Definition retired (a : astate) : Prop := match a with Retired _ => True | _ => False end.
Definition ready (a : astate) : Prop := match a with Ready _ | Live _ | Retired _ => True | _ => False end.

(** The gate is a verified gate; once the record is claimed it is drained, so the
    source no longer changes; the source survives until it is retired; a ready
    target holds the conversion of the source's final value. *)
Record data_inv (NODES : Z) (convert : Z -> Z) (a : astate) (x : place -> Z) (r : dtoks)
    (s : btoks) (o : option Z) : Prop := {
  d_gate : barrier NODES (fun c => x (GateCell c)) (bars r ⊎ s);
  d_sealed : sealing s \/ ((a = Unused \/ a = Dead) /\ forall v, mult (Copied v) r = 0);
  d_alive : 0 <= x SourceData \/ retired a;
  d_copied v : 1 <= mult (Copied v) r -> 0 <= v /\ (x SourceData = v \/ retired a);
  d_target w : mult (Tgt w) r = if decide (o = Some w) then 1 else 0;
  d_target_word w : o = Some w -> x TargetData = w;
  d_unused : a = Unused -> o = None;
  d_ready : ready a -> o = None /\ exists v, x TargetData = convert v /\ 0 <= v /\
    (x SourceData = v \/ retired a) /\ forall v', 1 <= mult (Copied v') r -> v' = v
}.

Definition data (NODES : Z) (convert : Z -> Z) (a : astate) (x : place -> Z) (r : dtoks) : Prop :=
  exists s o, data_inv NODES convert a x r s o.

#[export] Instance data_client NODES convert : MigrationClient (data NODES convert).
Proof.
  split.
  - intros a x r Ha (s & o & [D1 D2 D3 D4 D5 D6 D7 D8]). exists s, o.
    assert (Hr : ~ retired a) by (destruct a; cbn in *; tauto). constructor; try done.
    + destruct D2 as [|[_ D2]]; [by left | right; split; [by right | done]].
    + by destruct D3; [left|].
    + intros v Hv. destruct (D4 v Hv) as [? [?|?]]; [by auto | done].
  - intros p x r (s & o & [D1 D2 D3 D4 D5 D6 D7 D8]). exists s, o. constructor; try done.
    by destruct D2 as [|[[|] _]]; [left| |].
  - intros p x r (s & o & [D1 D2 D3 D4 D5 D6 D7 D8]). exists s, o. constructor; try done.
    by destruct D2 as [|[[|] _]]; [left| |].
  - intros p x r (s & o & [D1 D2 D3 D4 D5 D6 D7 D8]). exists s, o. constructor; try done.
    + by destruct D2 as [|[[|] _]]; [left| |].
    + by right.
    + intros v Hv. split; [by apply D4 | by right].
    + intros _. destruct (D8 I) as (Ho & v & Hv & Hp & _ & Hc). split; [done|]. exists v.
      split_and!; try done. by right.
Qed.

(** A drained gate has no participant inside. *)
Lemma sealed_excludes NODES m r n g : barrier NODES m r ->
  1 <= mult (Own n g) r -> 1 <= mult (Other Sealed) r -> False.
Proof.
  intros [Hinv (f & c & _ & _ & _ & Hst)] Hown Hs.
  pose proof (own_root NODES m r n g Hinv Hown).
  inversion Hst as [| |? ? ? [_ Hroot]]; subst; lia.
Qed.

Section Verify.
Variable (NODES : Z) (fuel : nat) (convert : Z -> Z).
Hypothesis NODES_nonneg : 0 <= NODES.
#[local] Abbreviation inv := (minv (data NODES convert)).
#[local] Abbreviation toks := (gmultiset (mtok dtok)).
#[local] Instance this_gate : QuiescenceWitness place (AdmissionQuiescence place unit) :=
  gate_witness NODES fuel.

(** ** The gate inside the system *)

Lemma gate_embeds (c : toks) :
  embeds (fun l => Rest (GateCell l)) (barrier NODES) inv (fun r => src (bar r)) c.
Proof.
  intros m r fr (o & a & Hc & s & to & [D1 D2 D3 D4 D5 D6 D7 D8]).
  assert (Hrest : forall r, rest (src (bar r) ⊎ c ⊎ fr) = bar r ⊎ (rest c ⊎ rest fr)).
  { intros r0. rewrite !rest_union, rest_src. multiset_solver. }
  rewrite Hrest in *. rewrite bars_union, bars_bar in D1.
  exists (bars (rest c ⊎ rest fr) ⊎ s). split; [by rewrite (gmultiset_disj_union_assoc r)|].
  intros m' r' HI Hm. exists o, a. split.
  { eapply ctl_ext; [done| |].
    - intros l Hl. apply Hm. intros l' ->. by apply (Hl (GateCell l')).
    - intros t Ht. by rewrite !mult_union, !mult_src by done. }
  rewrite Hrest.
  assert (Hcp : forall v, mult (Copied v) (bar r' ⊎ (rest c ⊎ rest fr)) =
                          mult (Copied v) (bar r ⊎ (rest c ⊎ rest fr))).
  { intros v. by rewrite !(mult_union _ (bar _)), !mult_bar by done. }
  exists s, to. constructor.
  - by rewrite bars_union, bars_bar, <- (gmultiset_disj_union_assoc r').
  - destruct D2 as [|[Ha D2]]; [by left|]. right. split; [done|]. intros v. by rewrite Hcp.
  - by rewrite Hm.
  - intros v. rewrite Hcp, Hm by done. apply D4.
  - intros w. rewrite <- D5, !(mult_union _ (bar _)), !mult_bar by done. done.
  - by rewrite Hm.
  - done.
  - intros Ha. rewrite !Hm by done. destruct (D8 Ha) as (Ho & v & Hv & Hp & Hs & Hu).
    split; [done|]. exists v. split_and!; try done. intros v'. rewrite Hcp. apply Hu.
Qed.

Lemma wp_gate {A} (p : prog (cell acell) A) r c Φ : wp (barrier NODES) p r Φ ->
  wp inv (at_gate p) (src (bar r) ⊎ c) (fun a x => exists r', x = src (bar r') ⊎ c /\ Φ a r').
Proof.
  apply (wp_lift (fun l => Rest (GateCell l)) (barrier NODES) inv (fun r => src (bar r)) c).
  apply gate_embeds.
Qed.

Definition evidence (s : dtoks) : Prop := exists b, s = bar b /\ sealing b.

Lemma gate_drained_spec r : wp inv (gate_is_drained NODES fuel GateCell) r (fun b r' =>
  exists s, r' = r ⊎ src s /\ (b = true -> evidence s)).
Proof.
  assert (Hr : r = src (bar ∅) ⊎ r).
  { unfold src, bar. rewrite !gmultiset_map_empty. multiset_solver. }
  rewrite Hr at 1. eapply wp_mono, (wp_gate _ ∅ r), is_drained_spec; [|done].
  intros b ? (r' & -> & s & Hs & Hb & ->). exists (bar s).
  replace (∅ ⊎ s) with s by multiset_solver. split; [multiset_solver|]. intros Ht. exists s. by split; [|apply Hb].
Qed.

#[local] Instance gate_witness_spec (q : AdmissionQuiescence place unit) :
  aq_source q = GateCell -> WitnessSpec (data NODES convert) evidence q.
Proof. intros Hq. split. intros r. cbn. rewrite Hq. apply gate_drained_spec. Qed.

Lemma admission_bind_spec p r : wp inv (admission_bind NODES fuel GateCell p) r (fun x r' =>
  match x with
  | Ok w => w = {| aq_source := GateCell; aq_plan := p; aq_authority := tt |} /\
      exists s, evidence s /\ r' = r ⊎ src s
  | Err _ => True
  end).
Proof.
  unfold admission_bind. destruct (plan_validate p) as [[]|e]; [|done].
  apply wp_bind. eapply wp_mono, gate_drained_spec. intros b r' (s & -> & Hs).
  destruct b; [|done]. apply wp_ret. split; [done|]. exists s. auto.
Qed.

(** ** Steps on the data *)

(** While a participant is inside, nobody has claimed the record and the source
    is alive. *)
Lemma user_inside a x r0 s o n g (fr : dtoks) :
  data_inv NODES convert a x (bar r0 ⊎ fr) s o -> 1 <= mult (Own n g) r0 ->
  (a = Unused \/ a = Dead) /\ (forall v, mult (Copied v) (bar r0 ⊎ fr) = 0) /\ 0 <= x SourceData.
Proof.
  intros [D1 D2 D3 D4 D5 D6 D7 D8] Hown. destruct D2 as [Hs|[Ha Hc]].
  - exfalso. eapply (sealed_excludes NODES _ _ n g D1); rewrite bars_union, bars_bar, !mult_union.
    + pose proof (mult_nonneg (Own n g) (bars fr)). pose proof (mult_nonneg (Own n g) s). lia.
    + unfold sealing in Hs. pose proof (mult_nonneg (Other Sealed) r0). pose proof (mult_nonneg (Other Sealed) (bars fr)). lia.
  - split_and!; try done. destruct D3 as [|D3]; [done|]. by destruct Ha; subst.
Qed.

Lemma rest_src_union (r0 : dtoks) (fr : toks) : rest (src r0 ⊎ fr) = r0 ⊎ rest fr.
Proof. by rewrite rest_union, rest_src. Qed.

Lemma user_load r0 n g Φ : 1 <= mult (Own n g) r0 ->
  (forall v, 0 <= v -> Φ v (src (bar r0))) -> wp inv (load (Rest SourceData)) (src (bar r0)) Φ.
Proof.
  intros Hown HΦ. apply wp_load. intros m fr HI. exists (src (bar r0)). split; [done|]. apply HΦ.
  destruct HI as (o & a & _ & s & to & HD). rewrite rest_src_union in HD.
  apply (user_inside _ _ _ _ _ _ _ _ HD Hown).
Qed.

Lemma user_store r0 n g v Φ : 1 <= mult (Own n g) r0 -> 0 <= v ->
  Φ tt (src (bar r0)) -> wp inv (store (Rest SourceData) v) (src (bar r0)) Φ.
Proof.
  intros Hown Hv HΦ. apply wp_store. intros m fr HI. exists (src (bar r0)). split; [|done].
  eapply minv_rest; [done| |done|].
  { intros l Hl. apply upd_ne. apply Hl. }
  intros o a _ (s & to & HD). rewrite rest_src_union in *.
  destruct (user_inside _ _ _ _ _ _ _ _ HD Hown) as (Ha & Hc & _).
  destruct HD as [D1 D2 D3 D4 D5 D6 D7 D8]. exists s, to. constructor; try done.
  - by left.
  - intros v'. rewrite Hc. lia.
  - intros Hr. by destruct Ha; subst.
Qed.

(** The migrator reads the source that no longer changes. *)
Lemma copy_load p s0 w k Φ : sealing s0 -> known k ->
  (forall v, 0 <= v -> Φ v (kit (AtCopying p) ({[+ Copied v +]} ⊎ {[+ Tgt w +]}) k)) ->
  wp inv (load (Rest SourceData)) (kit (AtCopying p) (bar s0 ⊎ {[+ Tgt w +]}) k) Φ.
Proof.
  intros Hs0 Hk HΦ. apply wp_load. intros m fr HI.
  set (v := m (Rest SourceData)).
  assert (Ha : exists a s o, (a = Copying p \/ a = Dead) /\
    data_inv NODES convert a (fun e => m (Rest e)) (bar s0 ⊎ {[+ Tgt w +]} ⊎ rest fr) s o).
  { destruct HI as (o & a & Hc & s & to & HD). rewrite rest_union, rest_kit in HD by done.
    destruct (kit_holder _ _ _ _ _ _ _ Hc Hk) as [-> _]. exists a, s, to. split; [|done].
    apply (ctl_compat _ _ _ _ Hc). }
  destruct Ha as (a0 & s1 & o1 & Ha0 & HD0).
  assert (Hv : 0 <= v). { destruct (d_alive _ _ _ _ _ _ _ HD0); [done|]. by destruct Ha0; subst. }
  eexists. split; [|by apply HΦ].
  eapply minv_rest; [exact HI | done | |].
  { intros t Ht. by rewrite !mult_union, !mult_kit by done. }
  intros o a Hc (s & to & [D1 D2 D3 D4 D5 D6 D7 D8]). rewrite rest_union, rest_kit in * by done.
  destruct (kit_holder _ _ _ _ _ _ _ Hc Hk) as [-> _].
  destruct (ctl_compat _ _ _ _ Hc) as [Ha _].
  assert (Hsp : forall v', mult (Copied v') ({[+ Copied v +]} ⊎ {[+ Tgt w +]} ⊎ rest fr) =
    (if decide (v' = v) then 1 else 0) + mult (Copied v') (bar s0 ⊎ {[+ Tgt w +]} ⊎ rest fr)).
  { intros v'. rewrite !mult_union, !mult_single, mult_bar by done.
    rewrite (decide_False (P := Copied v' = Tgt w)) by done. repeat case_decide; simplify_eq; lia. }
  exists (s0 ⊎ s), to. constructor; try done.
  - rewrite !bars_union, bars_bar, bars_copied, bars_tgt in *.
    by replace (∅ ⊎ ∅ ⊎ bars (rest fr) ⊎ (s0 ⊎ s)) with (s0 ⊎ ∅ ⊎ bars (rest fr) ⊎ s) by multiset_solver.
  - left. unfold sealing in *. rewrite mult_union. pose proof (mult_nonneg (Other Sealed) s). lia.
  - intros v'. rewrite Hsp. case_decide; [subst; by auto|]. intros. apply D4. lia.
  - intros w'. rewrite <- D5, !mult_union, mult_single, mult_bar by done.
    by rewrite (decide_False (P := Tgt w' = Copied v)) by done.
  - intros Hr. by destruct Ha; subst.
Qed.

Lemma copy_store p v w u k Φ : known k ->
  Φ tt (kit (AtCopying p) ({[+ Copied v +]} ⊎ {[+ Tgt u +]}) k) ->
  wp inv (store (Rest TargetData) u) (kit (AtCopying p) ({[+ Copied v +]} ⊎ {[+ Tgt w +]}) k) Φ.
Proof.
  intros Hk HΦ. apply wp_store. intros m fr HI. eexists. split; [|exact HΦ].
  eapply minv_rest; [exact HI | | |].
  { intros l Hl. apply upd_ne. apply Hl. }
  { intros t Ht. by rewrite !mult_union, !mult_kit by done. }
  intros o a Hc (s & to & [D1 D2 D3 D4 D5 D6 D7 D8]). rewrite rest_union, rest_kit in * by done.
  destruct (kit_holder _ _ _ _ _ _ _ Hc Hk) as [-> _].
  destruct (ctl_compat _ _ _ _ Hc) as [Ha _].
  assert (Hcp : forall v' w', mult (Copied v') ({[+ Copied v +]} ⊎ {[+ Tgt w' +]} ⊎ rest fr) =
    mult (Copied v') {[+ Copied v +]} + mult (Copied v') (rest fr)).
  { intros v' w'. rewrite !mult_union, (mult_single _ (Tgt w')), decide_False by done. lia. }
  assert (Ht : forall w' w0, mult (Tgt w') ({[+ Copied v +]} ⊎ {[+ Tgt w0 +]} ⊎ rest fr) =
    (if decide (w' = w0) then 1 else 0) + mult (Tgt w') (rest fr)).
  { intros w' w0. rewrite !mult_union, !mult_single, decide_False by done.
    repeat case_decide; simplify_eq; lia. }
  assert (Hto : to = Some w).
  { specialize (D5 w). rewrite Ht, decide_True in D5 by done. case_decide; [done|].
    pose proof (mult_nonneg (Tgt w) (rest fr)). lia. }
  subst to. exists s, (Some u). constructor; try done.
  - rewrite !bars_union, bars_copied, bars_tgt in *. done.
  - destruct D2 as [D2|[Ha' D2]]; [by left|]. right. split; [done|]. intros v'.
    rewrite Hcp. specialize (D2 v'). by rewrite Hcp in D2.
  - intros v'. rewrite Hcp. specialize (D4 v'). by rewrite Hcp in D4.
  - intros w'. specialize (D5 w'). rewrite Ht in *. repeat case_decide; simplify_eq; lia.
  - intros w' [= ->]. apply upd_eq.
  - intros ->. by destruct Ha.
  - intros Hr. by destruct Ha; subst.
Qed.

Lemma ready_shift p v x fr :
  data NODES convert (Copying p) x ({[+ Copied v +]} ⊎ {[+ Tgt (convert v) +]} ⊎ fr) ->
  exists rs, rs = {[+ Copied v +]} /\ data NODES convert (Ready p) x (rs ⊎ fr).
Proof.
  intros (s & to & [D1 D2 D3 D4 D5 D6 D7 D8]). exists {[+ Copied v +]}. split; [done|].
  assert (Hcp : forall v', mult (Copied v') ({[+ Copied v +]} ⊎ {[+ Tgt (convert v) +]} ⊎ fr) =
    mult (Copied v') ({[+ Copied v +]} ⊎ fr)).
  { intros v'. rewrite !mult_union, (mult_single _ (Tgt _)), decide_False by done. lia. }
  assert (Ht : forall w', mult (Tgt w') ({[+ Copied v +]} ⊎ {[+ Tgt (convert v) +]} ⊎ fr) =
    (if decide (w' = convert v) then 1 else 0) + mult (Tgt w') ({[+ Copied v +]} ⊎ fr)).
  { intros w'. rewrite !mult_union, !mult_single, (decide_False (P := Tgt w' = Copied v)) by done.
    repeat case_decide; simplify_eq; lia. }
  assert (Hto : to = Some (convert v)).
  { specialize (D5 (convert v)). rewrite Ht, decide_True in D5 by done. case_decide; [done|].
    pose proof (mult_nonneg (Tgt (convert v)) ({[+ Copied v +]} ⊎ fr)). lia. }
  subst to. assert (Hv : 0 <= v /\ x SourceData = v).
  { destruct (D4 v) as [Hv [Hx|[]]]; [|done]. rewrite Hcp, mult_union, mult_single, decide_True by done.
    pose proof (mult_nonneg (Copied v) fr). lia. }
  exists s, None. constructor; try done.
  - rewrite !bars_union, bars_copied, bars_tgt in *. by rewrite gmultiset_disj_union_right_id in D1.
  - by destruct D2 as [D2|[[|] _]]; [left| |].
  - intros v' Hv'. rewrite <- Hcp in Hv'. by destruct (D4 v' Hv') as [? [?|[]]]; auto.
  - intros w'. specialize (D5 w'). rewrite Ht in D5. rewrite decide_False by done.
    repeat case_decide; simplify_eq; lia.
  - intros _. split; [done|]. exists v. split_and!; [by apply D6 | apply Hv | left; apply Hv|].
    intros v' Hv'. rewrite <- Hcp in Hv'. destruct (D4 v' Hv') as [_ [<-|[]]]. apply Hv.
Qed.

Definition claimed (s0 : btoks) (rs : dtoks) : Prop := exists w, rs = bar s0 ⊎ {[+ Tgt w +]}.

Lemma claim_shift s0 s x fr : evidence s -> data NODES convert Unused x (bar s0 ⊎ s ⊎ fr) ->
  exists rs, claimed s0 rs /\ data NODES convert Claimed x (rs ⊎ fr).
Proof.
  intros (b & -> & Hb) (s1 & to & [D1 D2 D3 D4 D5 D6 D7 D8]). rewrite (D7 eq_refl) in *.
  exists (bar s0 ⊎ {[+ Tgt (x TargetData) +]}). split; [by eexists|].
  exists (b ⊎ s1), (Some (x TargetData)). constructor; try done.
  - rewrite !bars_union, !bars_bar, bars_tgt in *.
    by replace (s0 ⊎ ∅ ⊎ bars fr ⊎ (b ⊎ s1)) with (s0 ⊎ b ⊎ bars fr ⊎ s1) by multiset_solver.
  - left. unfold sealing in *. rewrite mult_union. pose proof (mult_nonneg (Other Sealed) s1). lia.
  - intros v Hv. apply D4. rewrite !mult_union, !mult_bar in * by done.
    rewrite mult_single, decide_False in Hv by done. lia.
  - intros w. specialize (D5 w). rewrite !mult_union, !mult_bar, mult_single in * by done.
    rewrite decide_False in D5 by done. repeat case_decide; simplify_eq; lia.
  - by intros w [= <-].
Qed.

(** A router that has seen the commit reads the conversion of the final value. *)
Lemma committed_load p r Φ : (1 <= mult (Seen (Live p)) r \/ 1 <= mult (Seen (Retired p)) r) ->
  (forall v, Φ (convert v) (r ⊎ src {[+ Copied v +]})) -> wp inv (load (Rest TargetData)) r Φ.
Proof.
  intros Hseen HΦ. apply wp_load. intros m fr HI. pose proof HI as (o & a & Hc & s & to & HD).
  assert (Ha : a = Live p \/ a = Retired p).
  { pose proof (mult_nonneg (Seen (Live p)) fr). pose proof (mult_nonneg (Seen (Retired p)) fr).
    destruct Hseen as [Hs|Hs].
    - apply (astep_live (Live p)); [by left|]. apply (ctl_seen _ _ _ _ Hc). rewrite mult_union. lia.
    - apply (astep_live (Retired p)); [by right|]. apply (ctl_seen _ _ _ _ Hc). rewrite mult_union. lia. }
  assert (Hr : ready a) by (by destruct Ha as [->| ->]).
  destruct (d_ready _ _ _ _ _ _ _ HD Hr) as (-> & v & Hv & Hpos & Hsd & Huniq). rewrite Hv.
  exists (r ⊎ src {[+ Copied v +]}). split; [|apply HΦ]. clear HI.
  exists o, a. split.
  { eapply ctl_ext; [done..|]. intros t Ht. rewrite !mult_union, mult_src by done. lia. }
  assert (Hrest : rest (r ⊎ src {[+ Copied v +]} ⊎ fr) = {[+ Copied v +]} ⊎ rest (r ⊎ fr)).
  { rewrite !rest_union, rest_src. multiset_solver. }
  rewrite Hrest. destruct HD as [D1 D2 D3 D4 D5 D6 D7 D8]. exists s, None. constructor; try done.
  - rewrite bars_union, bars_copied. by rewrite gmultiset_disj_union_left_id.
  - left. destruct D2 as [|[D2 _]]; [done|]. by destruct Ha, D2; subst.
  - intros v'. rewrite mult_union, mult_single. case_decide; [simplify_eq; auto|]. intros. apply D4. lia.
  - intros w. rewrite <- D5, mult_union, mult_single, decide_False by done. lia.
  - intros _. split; [done|]. exists v. split_and!; try done. intros v'.
    rewrite mult_union, mult_single. case_decide; [by simplify_eq|]. intros. apply Huniq. lia.
Qed.

(** With a permit the source may be destroyed. *)
Lemma reclaim_store p r Φ : 1 <= mult (Seen (Retired p)) r -> Φ tt r ->
  wp inv (store (Rest SourceData) (-1)) r Φ.
Proof.
  intros Hs HΦ. apply wp_store. intros m fr HI. exists r. split; [|done].
  eapply minv_rest; [exact HI | | done |].
  { intros l Hl. apply upd_ne. apply Hl. }
  intros o a Hc (s & to & [D1 D2 D3 D4 D5 D6 D7 D8]).
  assert (a = Retired p) as ->.
  { eapply astep_terminal; [by eauto|]. apply (ctl_seen _ _ _ _ Hc). rewrite mult_union.
    pose proof (mult_nonneg (Seen (Retired p)) fr). lia. }
  exists s, to. constructor; try done.
  - by right.
  - intros v Hv. split; [by apply D4 | by right].
  - intros _. destruct (D8 I) as (-> & v & Hv & Hp & _ & Hu). split; [done|]. exists v.
    split_and!; try done. by right.
Qed.

(** ** The threads *)

Definition verdict_post (x : verdict) (r : toks) : Prop :=
  match x with
  | Quiet | Refused _ => True
  | Aborted => 1 <= mult (Seen Dead) r
  | Committed p v => 1 <= mult (Hold (Won p)) r /\ 1 <= mult (Pub p) r /\
      1 <= mult (Seen (Live p)) r /\ 1 <= mult (Src (Copied v)) r
  | Routed AuthSource p _ => 1 <= mult (Pub p) r
  | Routed AuthTarget p d => 1 <= mult (Pub p) r /\
      (1 <= mult (Seen (Live p)) r \/ 1 <= mult (Seen (Retired p)) r) /\
      exists v, d = convert v /\ 1 <= mult (Src (Copied v)) r
  | Permitted p fresh => 1 <= mult (Seen (Retired p)) r /\ (fresh = true -> 1 <= mult Fresh r)
  end.

Lemma wp_gate_only {A} (p : prog (cell acell) A) r Φ : wp (barrier NODES) p r Φ ->
  wp inv (at_gate p) (src (bar r)) (fun a x => exists r', x = src (bar r') /\ Φ a r').
Proof.
  intros Hp. rewrite <- (gmultiset_disj_union_right_id (src (bar r))).
  eapply wp_mono, (wp_gate p r ∅), Hp. intros a x (r' & -> & HΦ). exists r'.
  by rewrite gmultiset_disj_union_right_id.
Qed.

Lemma src_bar_empty : src (bar ∅) = (∅ : toks).
Proof. unfold src, bar. by rewrite !gmultiset_map_empty. Qed.

Lemma mult_src_in t (r : dtoks) : mult (Src t) (src r) = mult t r.
Proof.
  rewrite <- (rest_src r) at 2. unfold rest. rewrite (mult_mproj _ Src); [done|].
  intros [| | | |]; naive_solver.
Qed.

Lemma source_user_spec script :
  wp inv (source_user NODES fuel script) (src (bar ∅)) verdict_post.
Proof.
  induction script as [|lf script IH]; [done|]. cbn [source_user].
  apply wp_bind. eapply wp_mono, wp_gate_only, try_enter_spec; [|lia].
  intros [t|e] ? (r & -> & Hx); [|done]. destruct Hx as (Hl & Hb & ->).
  assert (Hown : 1 <= mult (Own (leaf_start NODES + leaf t) (generation t)) (∅ ⊎ arrival_owned NODES t : btoks)).
  { unfold arrival_owned. rewrite mult_union, mult_single, decide_True by done. by rewrite mult_empty. }
  apply wp_bind, (user_load _ _ _ _ Hown). intros v Hv.
  destruct (Z.ltb_spec v 0) as [|_]; [lia|]. apply wp_bind, (user_store _ _ _ _ _ Hown); [lia|].
  apply wp_bind. eapply wp_mono, wp_gate_only, token_depart_spec; [|by rewrite Hl].
  intros [[]|e] ? (r & -> & Hd); [by subst r|]. destruct Hd as [_ Hd]. by destruct e.
Qed.

Lemma closer_spec : wp inv closer (src (bar ∅)) verdict_post.
Proof. apply wp_bind. eapply wp_mono, wp_gate_only, close_spec. done. Qed.

Lemma poisoner_spec : wp inv (poisoner fuel) ∅ verdict_post.
Proof. apply wp_bind. eapply wp_mono, (poison_spec (data NODES convert)). done. Qed.

Lemma kit_copied h v k : 1 <= mult (Src (Copied v)) (kit h {[+ Copied v +]} k).
Proof.
  unfold kit. rewrite !mult_union, mult_src_in, mult_single, decide_True by done.
  pose proof (mult_nonneg (Src (Copied v)) ({[+ Hold h +]} : toks)).
  pose proof (mult_nonneg (Src (Copied v)) k). lia.
Qed.

Lemma migrator_spec p t t' stop : wp inv (migrator NODES fuel convert p t t' stop) ∅ verdict_post.
Proof.
  unfold migrator. apply wp_bind. eapply wp_mono, admission_bind_spec. intros [w|e] r; [|done].
  intros (-> & s & (b & -> & Hb) & ->).
  replace (∅ ⊎ src (bar b)) with (src (bar b) ⊎ (∅ : toks)) by multiset_solver.
  apply wp_bind.
  pose proof (gate_witness_spec {| aq_source := GateCell; aq_plan := p; aq_authority := tt |} eq_refl) as Hw.
  eapply wp_mono, (begin_with_quiescent_source_spec (data NODES convert) evidence _ p (claimed b));
    [|apply known_empty|intros s x fr; apply claim_shift].
  intros [h|e] r; [|done]. intros (-> & rs & k & (w & ->) & Hk & Hp & ->).
  apply wp_bind, copy_load; [done..|]. intros v Hv. destruct (Z.ltb_spec v 0) as [|_]; [lia|].
  apply wp_bind, copy_store; [done|].
  destruct stop as [|stop].
  { apply wp_bind. eapply wp_mono, (drop_spec _ _ (AtCopying p)); [|by left|done..]. done. }
  apply wp_bind. eapply wp_mono, (mark_target_ready_spec (data NODES convert) fuel _ p t (eq {[+ Copied v +]}));
    [|done..|].
  2: { intros x fr Hx. destruct (ready_shift p v x fr Hx) as (rs & -> & HJ). by eexists. }
  intros [h|e] r; [|done]. intros (_ & -> & rs & k1 & <- & Hk1 & Hp1 & ->).
  destruct stop as [|stop].
  { apply wp_bind. eapply wp_mono, (drop_spec _ _ (AtReady p)); [|by right|done..]. done. }
  apply wp_bind. eapply wp_mono, (commit_spec (data NODES convert)); [|exact Hk1|exact Hp1]. intros [c|e] r; [|done].
  intros (_ & -> & k2 & Hk2 & Hp2 & Hs2 & ->). apply wp_ret. split_and!; [..|apply kit_copied];
    rewrite mult_kit by done.
  - rewrite decide_True, (known_hold _ _ Hk2) by done. lia.
  - rewrite decide_False by done. exact Hp2.
  - rewrite decide_False by done. exact Hs2.
Qed.

Lemma note_pub (r : toks) a p : plan_in a = Some p -> 1 <= mult (Pub p) (r ⊎ note a).
Proof.
  intros Ha. rewrite mult_union, mult_note, decide_True by done. pose proof (mult_nonneg (Pub p) r). lia.
Qed.

Lemma router_spec : wp inv router ∅ verdict_post.
Proof.
  apply wp_bind, authoritative_generation_spec. intros a.
  assert (Hpub : forall p, plan_in a = Some p -> 1 <= mult (Pub p) (∅ ⊎ note a : toks)).
  { intros p. apply note_pub. }
  pose proof (seen_note (T := dtok) ∅ a) as Hseen.
  destruct a as [| |p|p|p|p|]; cbn [route]; try done; try (apply wp_ret, Hpub; done).
  all: apply wp_bind, (committed_load p); [by auto|]; intros v; apply wp_ret; split_and!.
  all: try (rewrite mult_union, mult_src by done; specialize (Hpub p eq_refl); lia).
  all: try (exists v; split; [done|]; rewrite mult_union, mult_src_in, mult_single, decide_True by done;
            match goal with |- 1 <= ?a + 1 => pose proof (mult_nonneg (Src (Copied v)) (∅ ⊎ note (Live p) : toks));
              pose proof (mult_nonneg (Src (Copied v)) (∅ ⊎ note (Retired p) : toks)); lia end).
  right. rewrite mult_union, mult_src, Z.add_0_r by done. exact Hseen.
Qed.

Lemma permit_verdict p fresh r k : permit_post p fresh k -> verdict_post (Permitted p fresh) (r ⊎ k).
Proof.
  intros (_ & Hs & Hf). split.
  - rewrite mult_union. pose proof (mult_nonneg (Seen (Retired p)) r). lia.
  - intros Ht. rewrite mult_union. specialize (Hf Ht). pose proof (mult_nonneg Fresh r). lia.
Qed.

Lemma reclaimer_spec p : wp inv (reclaimer NODES fuel p) ∅ verdict_post.
Proof.
  unfold reclaimer. apply wp_bind. eapply wp_mono, admission_bind_spec. intros [w|e] r; [|done].
  intros (-> & s & _ & ->). apply wp_bind.
  pose proof (gate_witness_spec {| aq_source := GateCell; aq_plan := p; aq_authority := tt |} eq_refl) as Hw.
  eapply wp_mono; [|exact (authorize_reclamation_spec (data NODES convert) evidence _ _)].
  intros [pm|e] r; [|done]. intros (Hpm & s' & k & _ & Hk & ->). unfold into_authority.
  rewrite bool_decide_true by done. cbn [negb]. pose proof (permit_verdict _ _ (∅ ⊎ src s ⊎ src s') _ Hk) as Hv.
  apply wp_bind, (reclaim_store (permit_plan pm)); [apply Hv|]. exact Hv.
Qed.

Lemma resumer_spec : wp inv resumer ∅ verdict_post.
Proof.
  apply wp_bind. eapply wp_mono, resume_reclamation_spec. intros [pm|e] r; [|done].
  intros (Hr & k & Hk & ->). pose proof (permit_verdict _ _ ∅ _ Hk) as Hv.
  apply wp_bind, (reclaim_store (permit_plan pm)); [apply Hv|]. rewrite Hr. exact Hv.
Qed.

Lemma play_spec x : wp inv (play NODES fuel convert x) ∅ verdict_post.
Proof.
  destruct x; cbn [play]; rewrite <- ?src_bar_empty.
  - apply source_user_spec.
  - apply closer_spec.
  - rewrite src_bar_empty. apply poisoner_spec.
  - rewrite src_bar_empty. apply migrator_spec.
  - rewrite src_bar_empty. apply router_spec.
  - rewrite src_bar_empty. apply reclaimer_spec.
  - rewrite src_bar_empty. apply resumer_spec.
Qed.

Lemma boot_inv : inv boot ∅.
Proof.
  exists None, Unused. split; [|rewrite rest_empty; exists ∅, None].
  - constructor; try done. by left.
  - constructor; try done.
    + apply (barrier_new NODES).
    + right. split; [by left|]. intros v. apply mult_empty.
    + by left.
Qed.

Lemma system_ok roles c : rtc pstep (system NODES fuel convert roles) c -> pool_ok inv verdict_post c.
Proof.
  intros Hs. eapply pool_adequacy, pool_ok_start; [done | apply boot_inv |].
  apply Forall_fmap, Forall_true. apply play_spec.
Qed.
End Verify.

(** ** Properties *)

(** The target is authoritative, for the plan [p]. *)
Definition committed (m : ccell place -> Z) (p : MigrationPlan) : Prop :=
  published m p /\ (m CPhase = COMMITTED \/ m CPhase = RECLAIMED).

(** What a verdict says about the shared memory. *)
Definition verdict_true (convert : Z -> Z) (m : ccell place -> Z) (x : verdict) : Prop :=
  match x with
  | Quiet | Refused _ => True
  | Aborted => m CPhase = POISONED
  | Committed p v => committed m p /\ m (Rest TargetData) = convert v /\
      (m (Rest SourceData) = v \/ m CPhase = RECLAIMED)
  | Routed AuthSource p _ => published m p
  | Routed AuthTarget p d => committed m p /\ m (Rest TargetData) = d
  | Permitted p _ => committed m p /\ m CPhase = RECLAIMED
  end.

Lemma live_committed NODES convert m r p : minv (data NODES convert) m r ->
  1 <= mult (Seen (Live p)) r \/ 1 <= mult (Seen (Retired p)) r ->
  exists o a, ctl o a m r /\ data NODES convert a (fun e => m (Rest e)) (rest r) /\
    (a = Live p \/ a = Retired p) /\ committed m p.
Proof.
  intros (o & a & Hc & HD) Hs. assert (Ha : a = Live p \/ a = Retired p).
  { destruct Hs as [Hs|Hs].
    - apply (astep_live (Live p)); [by left | by apply (ctl_seen _ _ _ _ Hc)].
    - apply (astep_live (Retired p)); [by right | by apply (ctl_seen _ _ _ _ Hc)]. }
  exists o, a. split_and!; try done. split.
  - eapply (proj2 (ctl_reads _ _ _ _ Hc)). by destruct Ha as [->| ->].
  - rewrite (ctl_phase _ _ _ _ Hc). destruct Ha as [->| ->]; [by left | by right].
Qed.

Lemma committed_data NODES convert a x r v : data NODES convert a x r -> ready a ->
  1 <= mult (Copied v) r -> x TargetData = convert v /\ (x SourceData = v \/ retired a).
Proof.
  intros (s & o & D) Ha Hv. destruct (d_ready _ _ _ _ _ _ _ D Ha) as (_ & v' & Ht & _ & Hs & Hu).
  by rewrite (Hu v Hv) in *.
Qed.

Lemma mult_rest (v : Z) (r : gmultiset (mtok dtok)) : mult (Copied v) (rest r) = mult (Src (Copied v)) r.
Proof. unfold rest. apply (mult_mproj _ Src). intros [| | | |]; naive_solver. Qed.

Lemma verdict_sound NODES convert m x r fr :
  minv (data NODES convert) m (r ⊎ fr) -> verdict_post convert x r -> verdict_true convert m x.
Proof.
  intros HI Hx. assert (Hup : forall t, 1 <= mult t r -> 1 <= mult t (r ⊎ fr)).
  { intros t. rewrite mult_union. pose proof (mult_nonneg t fr). lia. }
  destruct x as [| | |p v|[] p d|p fresh]; cbn in Hx |- *; try done.
  - eapply seen_dead; eauto.
  - destruct Hx as (_ & _ & Hs & Hv). apply Hup in Hs, Hv.
    destruct (live_committed NODES convert m _ p HI (or_introl Hs)) as (o & a & Hc & HD & Ha & Hcom).
    rewrite <- mult_rest in Hv.
    destruct (committed_data _ _ _ _ _ _ HD (ltac:(by destruct Ha as [->| ->])) Hv) as [Ht Hsd].
    split_and!; [done..|]. destruct Hsd as [|Hr]; [by left|]. right.
    rewrite (ctl_phase _ _ _ _ Hc). by destruct Ha as [->| ->].
  - by eapply pub_published, Hup.
  - destruct Hx as (_ & Hs & v & -> & Hv). apply Hup in Hv.
    destruct (live_committed NODES convert m _ p HI) as (o & a & Hc & HD & Ha & Hcom).
    { destruct Hs; [left|right]; by apply Hup. }
    rewrite <- mult_rest in Hv. split; [done|].
    by apply (committed_data _ _ _ _ _ _ HD (ltac:(by destruct Ha as [->| ->])) Hv).
  - destruct Hx as [Hs _]. apply Hup in Hs.
    destruct (live_committed NODES convert m _ p HI (or_intror Hs)) as (o & a & Hc & HD & Ha & Hcom).
    split; [done|]. pose proof (ctl_seen _ _ _ _ Hc _ Hs) as Hr.
    apply astep_terminal in Hr as ->; [|by eauto]. apply (ctl_phase _ _ _ _ Hc).
Qed.

(** C11.  In every interleaving of participants, closers, supervisors that poison,
    migrators that may give up or present a wrong target, routers and reclaimers on
    one gate and one control record, nothing panics: a participant that is admitted
    never finds the source destroyed and is never refused its departure as already
    drained, a migrator never copies a destroyed source, a permit returns the
    source authority, and the plan expected in an authoritative phase is there. *)
Theorem migration_no_use_after_reclaim NODES fuel convert roles m ts i :
  0 <= NODES -> rtc pstep (system NODES fuel convert roles) (m, ts) -> ts !! i <> Some Panic.
Proof.
  intros HN Hs. apply (pool_no_panic (minv (data NODES convert)) (verdict_post convert) (m, ts) (m, ts) i);
    [done|]. by eapply system_ok.
Qed.

(** The verdicts are true: a committed migrator's target holds the conversion of
    the last value of the source, which stays as it was copied until the source is
    reclaimed, a router that is sent to the target reads that value, a permit is
    given only after the commit of its plan, and an abandoned migration leaves the
    record poisoned.  Since the record holds one plan, all verdicts name the same. *)
Theorem migration_verdicts_true NODES fuel convert roles m ts i x :
  0 <= NODES -> rtc pstep (system NODES fuel convert roles) (m, ts) ->
  ts !! i = Some (Ret x) -> verdict_true convert m x.
Proof.
  intros HN Hs Hi. destruct (pool_result _ _ (m, ts) i x (system_ok _ _ _ HN _ _ Hs) Hi) as (r & fr & Hx & HI).
  by eapply verdict_sound.
Qed.

(** At most one thread commits and at most one thread performs the reclamation. *)
Definition unique_verdict (x : verdict) : bool :=
  match x with Committed _ _ | Permitted _ true => true | _ => false end.
Definition same_kind (x y : verdict) : bool :=
  match x, y with Committed _ _, Committed _ _ | Permitted _ _, Permitted _ _ => true | _, _ => false end.

(** At most one migrator commits, and at most one permit is fresh (all others
    resume a reclamation that was already fenced). *)
Theorem migration_commits_once NODES fuel convert roles m ts i j x y :
  0 <= NODES -> rtc pstep (system NODES fuel convert roles) (m, ts) ->
  ts !! i = Some (Ret x) -> ts !! j = Some (Ret y) ->
  unique_verdict x = true -> unique_verdict y = true -> same_kind x y = true -> i = j.
Proof.
  intros HN Hs Hi Hj Hux Huy Hxy. destruct (decide (i = j)) as [|Hne]; [done|]. exfalso.
  destruct (pool_two_results _ _ (m, ts) i j x y (system_ok _ _ _ HN _ _ Hs) Hne Hi Hj)
    as (r & r' & fr & Hx & Hy & o & a & Hc & _).
  destruct x as [| | |p v| |p []], y as [| | |q w| |q []]; try discriminate; cbn in Hx, Hy.
  - destruct Hx as [Hx _], Hy as [Hy _]. pose proof (ctl_hold _ _ _ _ Hc (Won p)) as Hp.
    pose proof (ctl_hold _ _ _ _ Hc (Won q)) as Hq. rewrite !mult_union in Hp, Hq.
    pose proof (mult_nonneg (Hold (Won p)) r'). pose proof (mult_nonneg (Hold (Won q)) r).
    pose proof (mult_nonneg (Hold (Won p)) fr). pose proof (mult_nonneg (Hold (Won q)) fr).
    repeat case_decide; simplify_eq; lia.
  - destruct Hx as [_ Hx], Hy as [_ Hy]. specialize (Hx eq_refl). specialize (Hy eq_refl).
    destruct (ctl_fresh _ _ _ _ Hc) as [Hf _]. rewrite !mult_union in Hf.
    pose proof (mult_nonneg Fresh fr). lia.
Qed.

(** C12.  The control record implements the abstract machine: at every moment its
    words denote one abstract state, and whatever the threads do next, the states
    they take it through are steps of the machine, so a commit is never undone, a
    dead record never revives and the published plan never changes. *)
Theorem migration_refines NODES fuel convert roles c c' :
  0 <= NODES -> rtc pstep (system NODES fuel convert roles) c -> rtc pstep c c' ->
  exists a a', reads c.1 a /\ reads c'.1 a' /\ rtc astep a a'.
Proof.
  intros HN Hs Hs'. pose proof (system_ok _ _ _ HN _ _ Hs) as Hok.
  destruct (pool_observe _ _ c c' (fun x => exists a, reads c.1 a /\ x = note a) Hs' Hok)
    as (x & r & (a & Ha & ->) & o & a' & Hc & _).
  { intros r HI. rewrite <- (gmultiset_disj_union_left_id r) in HI.
    destruct (minv_note _ _ _ _ HI) as (a & Ha & HI'). exists (note a). split; [by exists a|].
    by rewrite gmultiset_disj_union_left_id in HI'. }
  exists a, a'. split_and!; [done | by eapply ctl_reads |].
  apply (ctl_seen _ _ _ _ Hc). rewrite mult_union, mult_note, decide_True by done.
  pose proof (mult_nonneg (Seen a) r). lia.
Qed.

(** Fail closed: once a migrator has abandoned its migration (an error after the
    claim, or a dropped handle), the record is poisoned for good: no route names the
    target, no thread commits, and no permit is issued, however the others go on. *)
Theorem migration_fails_closed NODES fuel convert roles c c' i j x :
  0 <= NODES -> rtc pstep (system NODES fuel convert roles) c -> rtc pstep c c' ->
  c.2 !! i = Some (Ret Aborted) -> c'.2 !! j = Some (Ret x) ->
  c'.1 CPhase = POISONED /\
  match x with Committed _ _ | Routed AuthTarget _ _ | Permitted _ _ => False | _ => True end.
Proof.
  intros HN Hs Hs' Hi Hj. apply (pool_ret_stays _ _ _ _ Hs') in Hi.
  assert (Htrue : forall k y, c'.2 !! k = Some (Ret y) -> verdict_true convert c'.1 y).
  { intros k y Hk. destruct (pool_result (minv (data NODES convert)) (verdict_post convert) c' k y)
      as (r & fr & Hy & HI); [|done|].
    - eapply system_ok; [done|]. by etrans.
    - by eapply verdict_sound. }
  pose proof (Htrue i _ Hi) as Hp. specialize (Htrue j _ Hj). cbn in Hp. split; [done|].
  destruct x as [| | |p v|[] p d|p fresh]; cbn in Htrue; try done.
  - destruct Htrue as [[_ Hph] _]. rewrite Hp in Hph. by destruct Hph.
  - destruct Htrue as [[_ Hph] _]. rewrite Hp in Hph. by destruct Hph.
  - destruct Htrue as [_ Hph]. by rewrite Hp in Hph.
Qed.

(** Initialization in place gives, whatever the storage held, the record that
    [boot] starts from, and touches nothing else. *)
Lemma initialize_at_boots (m : ccell place -> Z) : exists m',
  run initialize_at m = (Done tt, m') /\ reads m' Unused /\
  forall l, m' l = match l with Rest e => m (Rest e) | _ => boot l end.
Proof. eexists. split; [reflexivity|]. split; [split; done|]. by intros []. Qed.

(** ** A run *)

(** One participant updates the source, a closer drains it, a migrator moves it, a
    router is sent to the target and a reclaimer destroys the source. *)
Definition demo_generation (v region seq : Z) (seed : nat) : GenerationIdentity :=
  {| schema := schema_new v (v * 17); region_id := region; sequence := seq;
     backing := backing_new (demo_digest seed 32) |}.
Definition demo_plan : MigrationPlan :=
  {| transaction_id := 9; source := demo_generation 1 5 1 1; target := demo_generation 2 6 2 50;
     target_authority := authority_new (demo_digest 100 16) |}.
Definition demo_target : PrecommitTargetBacking :=
  {| backing_generation := target demo_plan; recovery_authority := target_authority demo_plan;
     is_private := true |}.

Definition demo_roles (stop : nat) : list role :=
  [SourceUser [0%nat]; Closer; Migrator demo_plan demo_target demo_target stop; Router;
   Reclaimer demo_plan].
Definition demo_turns (l : list (nat * nat)) : list nat := concat (map (fun x => replicate x.2 x.1) l).
Definition demo_run (stop : nat) : (ccell place -> Z) * list (prog (ccell place) verdict) :=
  run_schedule (system 4 9 (fun v => 100 * v) (demo_roles stop))
    (demo_turns [(0, 40); (1, 5); (2, 220); (3, 60); (4, 150)]%nat).

Lemma demo_run_reaches stop :
  rtc pstep (system 4 9 (fun v => 100 * v) (demo_roles stop)) ((demo_run stop).1, (demo_run stop).2).
Proof. rewrite <- surjective_pairing. unfold demo_run. apply run_schedule_steps. Qed.

(** The run ends with the migration committed and the source reclaimed. *)
Example demo_run_verdicts :
  map (fun p => match p with Ret x => Some x | _ => None end) (demo_run 2).2 =
  [Some Quiet; Some Quiet; Some (Committed demo_plan 1); Some (Routed AuthTarget demo_plan 100);
   Some (Permitted demo_plan true)].
Proof. vm_compute. reflexivity. Qed.

Lemma migration_no_use_after_reclaim_witness : (demo_run 2).2 !! 0%nat <> Some Panic.
Proof.
  apply (migration_no_use_after_reclaim 4 9 (fun v => 100 * v) (demo_roles 2) (demo_run 2).1 (demo_run 2).2 0);
    [lia | apply demo_run_reaches].
Defined.

Lemma migration_verdicts_true_witness :
  verdict_true (fun v => 100 * v) (demo_run 2).1 (Routed AuthTarget demo_plan 100).
Proof.
  apply (migration_verdicts_true 4 9 (fun v => 100 * v) (demo_roles 2) (demo_run 2).1 (demo_run 2).2 3);
    [lia | apply demo_run_reaches | vm_compute; reflexivity].
Defined.

Lemma migration_commits_once_witness :
  (demo_run 2).2 !! 2%nat = Some (Ret (Committed demo_plan 1)) /\ 2%nat = 2%nat.
Proof.
  split; [vm_compute; reflexivity|].
  apply (migration_commits_once 4 9 (fun v => 100 * v) (demo_roles 2) (demo_run 2).1 (demo_run 2).2 2 2
    (Committed demo_plan 1) (Committed demo_plan 1));
    [lia | apply demo_run_reaches | vm_compute; reflexivity.. ].
Defined.

Lemma migration_refines_witness : exists a a',
  reads boot a /\ reads (demo_run 2).1 a' /\ rtc astep a a'.
Proof.
  apply (migration_refines 4 9 (fun v => 100 * v) (demo_roles 2)
    (system 4 9 (fun v => 100 * v) (demo_roles 2)) (demo_run 2)); [lia | apply rtc_refl |].
  rewrite (surjective_pairing (demo_run 2)). apply demo_run_reaches.
Defined.

Lemma migration_fails_closed_witness : (demo_run 0).1 CPhase = POISONED /\ True.
Proof.
  apply (migration_fails_closed 4 9 (fun v => 100 * v) (demo_roles 0) (demo_run 0) (demo_run 0) 2 3
    (Refused (NoAuthoritativeGeneration PPoisoned)));
    [lia | rewrite (surjective_pairing (demo_run 0)); apply demo_run_reaches | apply rtc_refl
    | vm_compute; reflexivity | vm_compute; reflexivity].
Defined.
