(* ===== verification/Sync.v ===== *)
(** Process-shared locks: [shmem_exec_obj/v2/src/sync.rs].

    [ProcessSpinMutex], [ProcessFutexMutex] and [ProcessSpinRawMutex] protect a
    value with one 32-bit word.  The system call [raw_futex] belongs to the kernel
    and is a parameter: a program over the shared cells.  So is the clock reading
    that [monotonic_deadline] starts from. *)

From S2P Require Import Prelude Conc Compose.

Definition UNLOCKED : Z := 0.
Definition LOCKED : Z := 1.
Definition CONTENDED : Z := 2.
Definition FUTEX_SPIN_LIMIT : nat := 64.
Definition FUTEX_WAIT : Z := 0.
Definition FUTEX_WAKE : Z := 1.
Definition FUTEX_WAIT_BITSET : Z := 9.
Definition FUTEX_BITSET_MATCH_ANY : Z := u32_max.
Definition EINTR : Z := 4.
Definition EAGAIN : Z := 11.
Definition EOVERFLOW : Z := 75.
Definition ETIMEDOUT : Z := 110.
Definition CLOCK_MONOTONIC : Z := 1.

(** The fields [state] and [value] of a mutex; the value is one word. *)
Inductive scell := State | Value.
#[export] Instance scell_eq_dec : EqDecision scell.
Proof. solve_decision. Defined.

Record KernelTimespec := { tv_sec : Z; tv_nsec : Z }.
Record FutexLockError := { errno : Z }.

(** [x as i32] *)
Definition as_i32 (x : Z) : Z := wrap 32 (x + 2 ^ 31) - 2 ^ 31.
Definition from_errno (errno : Z) : FutexLockError := {| errno := errno |}.
Definition from_syscall_result (result : Z) : FutexLockError := from_errno (as_i32 (- result)).

Definition raw_os_error (e : FutexLockError) : Z := errno e.

#[local] Abbreviation prog := (prog scell).

(** ** The lock word *)

Definition futex_try_acquire : prog bool :=
  let! x := compare_exchange State UNLOCKED LOCKED in Ret (is_ok x).

Definition futex_mark_contended : prog bool :=
  let! previous := swap State CONTENDED in Ret (previous =? UNLOCKED).

Definition futex_release : prog bool :=
  let! previous := swap State UNLOCKED in Ret (previous =? CONTENDED).

(** [while state.load() <cond> { spin_loop() }] *)
Definition spin_while (cond : Z -> bool) (fuel : nat) : prog unit :=
  loop fuel (fun _ => let! s := load State in Ret (if cond s then inl tt else inr tt)) tt.

(** ** [ProcessSpinMutex] and [ProcessSpinRawMutex] *)

Definition spin_new (value : Z) : scell -> Z :=
  fun c => match c with State => UNLOCKED | Value => value end.

Definition spin_try_lock : prog (option unit) :=
  let! x := compare_exchange State UNLOCKED LOCKED in
  Ret (match x with Ok _ => Some tt | Err _ => None end).

Definition spin_lock (fuel : nat) : prog unit :=
  loop fuel (fun _ =>
    let! g := spin_try_lock in
    match g with
    | Some _ => Ret (inr tt)
    | None => do! spin_while (fun s => s =? LOCKED) fuel ;; Ret (inl tt)
    end) tt.

Definition spin_is_locked : prog bool := let! s := load State in Ret (s =? LOCKED).

Definition spin_unlock : prog unit := store State UNLOCKED.

Definition raw_try_lock : prog bool :=
  let! x := compare_exchange State UNLOCKED LOCKED in Ret (is_ok x).

Definition raw_lock (fuel : nat) : prog unit :=
  loop fuel (fun _ =>
    let! acquired := raw_try_lock in
    if (acquired : bool) then Ret (inr tt)
    else do! spin_while (fun s => s =? LOCKED) fuel ;; Ret (inl tt)) tt.

Definition raw_unlock : prog unit := store State UNLOCKED.

(** [Deref] and [DerefMut] of a guard. *)
Definition guard_deref : prog Z := load Value.
Definition guard_deref_mut (v : Z) : prog unit := store Value v.

(** ** Deadlines *)

Definition i64_min : Z := - 2 ^ 63.
Definition i64_max : Z := 2 ^ 63 - 1.
Definition checked_add_i64 (x y : Z) : option Z :=
  if (i64_min <=? x + y) && (x + y <=? i64_max) then Some (x + y) else None.

(** [core::time::Duration] *)
Record Duration := { as_secs : Z; subsec_nanos : Z }.
Definition is_zero (d : Duration) : bool := (as_secs d =? 0) && (subsec_nanos d =? 0).

(** [clock] is the result of [raw_clock_gettime] and the [timespec] it wrote. *)
Definition monotonic_deadline (clock : Z * KernelTimespec) (timeout : Duration) :
    result KernelTimespec FutexLockError :=
  let (result, now) := clock in
  reject result <? 0 with from_syscall_result result ;;
  reject i64_max <? as_secs timeout with from_errno EOVERFLOW ;;
  let added_seconds := as_secs timeout in
  let added_nanoseconds := subsec_nanos timeout in
  let nanoseconds := tv_nsec now + added_nanoseconds in
  let carry := Z.quot nanoseconds 1000000000 in
  match checked_add_i64 (tv_sec now) added_seconds with
  | None => Err (from_errno EOVERFLOW)
  | Some value =>
      match checked_add_i64 value carry with
      | None => Err (from_errno EOVERFLOW)
      | Some seconds => Ok {| tv_sec := seconds; tv_nsec := Z.rem nanoseconds 1000000000 |}
      end
  end.

(** The libc shim reports errors through [errno]. *)
Definition normalize_libc_syscall_result (result errno : Z) : Z :=
  if result =? -1 then - errno else result.

(** ** [ProcessFutexMutex] *)

Section Futex.
(** [raw_futex operation value timeout bitset] *)
Variable raw_futex : Z -> Z -> option KernelTimespec -> Z -> prog Z.
Variable fuel : nat.

Definition futex_wait (expected : Z) : prog (result unit FutexLockError) :=
  loop fuel (fun _ =>
    let! result := raw_futex FUTEX_WAIT expected None 0 in
    if result =? - EINTR then Ret (inl tt)
    else if (0 <=? result) || (result =? - EAGAIN) then Ret (inr (Ok tt))
    else Ret (inr (Err (from_syscall_result result)))) tt.

Definition futex_wait_until (expected : Z) (deadline : KernelTimespec) :
    prog (result bool FutexLockError) :=
  loop fuel (fun _ =>
    let! result := raw_futex FUTEX_WAIT_BITSET expected (Some deadline) FUTEX_BITSET_MATCH_ANY in
    if (0 <=? result) || (result =? - EAGAIN) then Ret (inr (Ok false))
    else if result =? - EINTR then Ret (inl tt)
    else if result =? - ETIMEDOUT then Ret (inr (Ok true))
    else Ret (inr (Err (from_syscall_result result)))) tt.

Definition futex_wake_one : prog unit :=
  do! raw_futex FUTEX_WAKE 1 None 0 ;; Ret tt.

Definition futex_new (value : Z) : scell -> Z :=
  fun c => match c with State => UNLOCKED | Value => value end.

Definition try_lock : prog (option unit) :=
  let! acquired := futex_try_acquire in Ret (if acquired then Some tt else None).

Definition is_locked : prog bool := let! s := load State in Ret (negb (s =? UNLOCKED)).
Definition is_contended : prog bool := let! s := load State in Ret (s =? CONTENDED).

Definition lock_contended_fallible : prog (result unit FutexLockError) :=
  let! acquired := futex_mark_contended in
  if (acquired : bool) then Ret (Ok tt)
  else
    loop fuel (fun _ =>
      do!^ futex_wait CONTENDED ;;
      let! acquired := futex_mark_contended in
      Ret (if acquired : bool then inr (Ok tt) else inl tt)) tt.

Definition lock_contended_spin : prog unit :=
  loop fuel (fun _ =>
    let! acquired := futex_mark_contended in
    if (acquired : bool) then Ret (inr tt)
    else do! spin_while (fun s => negb (s =? UNLOCKED)) fuel ;; Ret (inl tt)) tt.

Definition lock_contended_until (deadline : KernelTimespec) :
    prog (result (option unit) FutexLockError) :=
  let! acquired := futex_mark_contended in
  if (acquired : bool) then Ret (Ok (Some tt))
  else
    loop fuel (fun _ =>
      let!^ timed_out := futex_wait_until CONTENDED deadline in
      let! acquired := futex_mark_contended in
      Ret (if acquired : bool then inr (Ok (Some tt))
           else if timed_out : bool then inr (Ok None) else inl tt)) tt.

(** [for _ in 0..FUTEX_SPIN_LIMIT { spin_loop(); if let Some(guard) = self.try_lock() ... }] *)
Definition spin_phase {A} (acquired : A) (slow_path : prog A) : prog A :=
  for_loop FUTEX_SPIN_LIMIT 0 (fun _ =>
    let! g := try_lock in
    Ret (match g with Some _ => Some acquired | None => None end)) slow_path.

Definition lock_fallible : prog (result unit FutexLockError) :=
  let! g := try_lock in
  match g with
  | Some _ => Ret (Ok tt)
  | None => spin_phase (Ok tt) lock_contended_fallible
  end.

Definition lock : prog unit :=
  let! r := lock_fallible in
  match r with
  | Ok _ => Ret tt
  | Err _ => lock_contended_spin
  end.

Definition try_lock_for (clock : Z * KernelTimespec) (timeout : Duration) :
    prog (result (option unit) FutexLockError) :=
  let! g := try_lock in
  match g with
  | Some _ => Ret (Ok (Some tt))
  | None =>
      if is_zero timeout then Ret (Ok None)
      else
        match monotonic_deadline clock timeout with
        | Err e => Ret (Err e)
        | Ok deadline => spin_phase (Ok (Some tt)) (lock_contended_until deadline)
        end
  end.

Definition unlock : prog unit :=
  let! wake := futex_release in
  if (wake : bool) then futex_wake_one else Ret tt.
End Futex.

(** ** Deadlines are exact *)

Definition nanos (t : KernelTimespec) : Z := tv_sec t * 1000000000 + tv_nsec t.
Definition duration_nanos (d : Duration) : Z := as_secs d * 1000000000 + subsec_nanos d.

(** What [clock_gettime] documents of the monotonic clock. *)
Definition timespec_ok (t : KernelTimespec) : Prop :=
  0 <= tv_sec t <= i64_max /\ 0 <= tv_nsec t < 1000000000.
Definition duration_ok (d : Duration) : Prop :=
  0 <= as_secs d < 2 ^ 64 /\ 0 <= subsec_nanos d < 1000000000.

(** For a clock reading in its documented range, the deadline is the exact sum of
    the clock and the timeout, in normal form, whenever its seconds fit an [i64], and
    [EOVERFLOW] is reported exactly when they do not; the intermediate sum of
    nanoseconds does not overflow. *)
Theorem deadline_exact ok now timeout : 0 <= ok -> timespec_ok now -> duration_ok timeout ->
  tv_nsec now + subsec_nanos timeout <= i64_max /\
  match monotonic_deadline (ok, now) timeout with
  | Ok t => timespec_ok t /\ nanos t = nanos now + duration_nanos timeout
  | Err e => e = from_errno EOVERFLOW /\
      2 ^ 63 * 1000000000 <= nanos now + duration_nanos timeout
  end.
Proof.
  unfold timespec_ok, duration_ok, nanos, duration_nanos, monotonic_deadline, checked_add_i64,
    i64_min, i64_max.
  destruct now as [s n], timeout as [ds dn]. cbn [tv_sec tv_nsec as_secs subsec_nanos].
  intros Hok [Hs Hn] [Hds Hdn]. split; [lia|].
  rewrite Z.quot_div_nonneg, Z.rem_mod_nonneg by lia.
  pose proof (Z.div_mod (n + dn) 1000000000 ltac:(lia)) as Hdm.
  pose proof (Z.mod_pos_bound (n + dn) 1000000000 ltac:(lia)) as Hmod.
  assert (Hq : 0 <= (n + dn) / 1000000000) by (apply Z.div_pos; lia).
  destruct (Z.ltb_spec ok 0); [lia|].
  destruct (Z.ltb_spec (2 ^ 63 - 1) ds); [split; [done | lia]|].
  destruct (Z.leb_spec (- 2 ^ 63) (s + ds)), (Z.leb_spec (s + ds) (2 ^ 63 - 1)); cbn [andb];
    try lia; [|split; [done | lia]].
  destruct (Z.leb_spec (- 2 ^ 63) (s + ds + (n + dn) / 1000000000)),
    (Z.leb_spec (s + ds + (n + dn) / 1000000000) (2 ^ 63 - 1)); cbn [andb tv_sec tv_nsec]; try lia.
  split; [done | lia].
Qed.

Lemma deadline_exact_witness :
  monotonic_deadline (0, {| tv_sec := 7; tv_nsec := 600000000 |})
    {| as_secs := 1; subsec_nanos := 500000000 |} = Ok {| tv_sec := 9; tv_nsec := 100000000 |} /\
  nanos {| tv_sec := 9; tv_nsec := 100000000 |} = 7600000000 + 1500000000.
Proof.
  split; [reflexivity|].
  apply (deadline_exact 0 {| tv_sec := 7; tv_nsec := 600000000 |} {| as_secs := 1; subsec_nanos := 500000000 |});
    unfold timespec_ok, duration_ok, i64_max; cbn; lia.
Defined.
