(* ===== verification/SyncCorrect.v ===== *)
(** Mutual exclusion of the process-shared locks.

    What a critical section needs of a lock is the interface [LockSpec]; the three
    mutexes implement it with every way to acquire them, for any kernel, and the
    clients are verified against the interface. *)

From stdpp Require Import countable.
From S2P Require Import Prelude Conc Compose Sync.

(** A system call that does not write the shared cells; it may sleep, read them
    and return anything. *)
Fixpoint read_only {L A} (p : prog L A) : Prop :=
  match p with
  | Ret _ | Spin => True
  | Panic => False
  | Rmw _ f k => (forall x, f x = None) /\ forall v, read_only (k v)
  | Choose k => forall b, read_only (k b)
  end.

Lemma wp_read_only {L A T} `{EqDecision L} `{Countable T} (I : (L -> Z) -> gmultiset T -> Prop)
    (p : prog L A) r Φ : read_only p -> (forall a, Φ a r) -> wp I p r Φ.
Proof.
  intros Hp HΦ. induction p as [a| | |l f k IH|k IH]; cbn in Hp |- *; [apply HΦ | done | done | |].
  - intros m fr HI. exists r. unfold apply_rmw. rewrite (proj1 Hp). split; [done|]. apply IH, Hp.
  - intros b. apply IH, Hp.
Qed.

(** ** The invariant of a counter behind a lock *)

(** [Own v d]: this thread holds the lock; the value is [v], with [d] of its own
    increments not yet published.  [Inc]: one published increment. *)
Inductive stok := Own (v d : Z) | Inc.
#[export] Instance stok_eq_dec : EqDecision stok.
Proof. solve_decision. Defined.
#[export] Instance stok_countable : Countable stok.
Proof.
  apply (inj_countable'
    (fun t => match t with Own v d => Some (v, d) | Inc => None end)
    (fun s => match s with Some (v, d) => Own v d | None => Inc end)).
  by intros [].
Defined.
#[local] Abbreviation toks := (gmultiset stok).

Definition incs (n : nat) : toks := n *: {[+ Inc +]}.

Lemma mult_incs t n : mult t (incs n) = if decide (t = Inc) then Z.of_nat n else 0.
Proof.
  unfold mult, incs. rewrite multiplicity_scalar_mul, multiplicity_singleton. case_decide; lia.
Qed.

Definition lock_inv (m : scell -> Z) (r : toks) : Prop :=
  (m State = UNLOCKED /\ (forall v d, mult (Own v d) r = 0) /\ m Value = wrap 64 (mult Inc r)) \/
  ((m State = LOCKED \/ m State = CONTENDED) /\
   exists v d, (forall v' d', mult (Own v' d') r = if decide (v' = v /\ d' = d) then 1 else 0) /\
     m Value = v /\ v = wrap 64 (mult Inc r + d)).

(** What a lock promises: acquisition gives the value as the last owner published
    it, release publishes it. *)
Class LockSpec (acquire : prog scell bool) (release : prog scell unit) : Prop := {
  acquire_spec r : wp lock_inv acquire r (fun ok r' =>
    if (ok : bool) then exists v, r' = r ⊎ {[+ Own v 0 +]} else r' = r);
  release_spec r v n : wp lock_inv release (r ⊎ {[+ Own v (Z.of_nat n) +]}) (fun _ r' =>
    r' = r ⊎ incs n)
}.

Lemma lock_free m r fr : lock_inv m (r ⊎ fr) -> m State = UNLOCKED -> forall w,
  w = LOCKED \/ w = CONTENDED -> lock_inv (upd m State w) (r ⊎ {[+ Own (m Value) 0 +]} ⊎ fr).
Proof.
  intros [(_ & Ho & Hv)|[[Hs|Hs] _]] Hf w Hw; [|by rewrite Hs in Hf..]. right. rewrite upd_eq.
  split; [done|]. exists (m Value), 0. split_and!.
  - intros v' d'. specialize (Ho v' d'). rewrite !mult_union, mult_single in *.
    repeat case_decide; simplify_eq; try naive_solver; lia.
  - done.
  - rewrite !mult_union, mult_single, decide_False in * by done. by rewrite !Z.add_0_r.
Qed.

Lemma lock_busy m r : lock_inv m r -> m State <> UNLOCKED -> lock_inv (upd m State CONTENDED) r.
Proof.
  intros [(Hs & _)|(_ & v & d & Ho & Hv & Hd)] Hn; [done|]. right. rewrite upd_eq.
  split; [by right|]. exists v, d. split_and!; try done.
Qed.

(** The holder's view of the value. *)
Lemma lock_held m r v d fr : lock_inv m (r ⊎ {[+ Own v d +]} ⊎ fr) ->
  m State <> UNLOCKED /\ m Value = v /\ v = wrap 64 (mult Inc (r ⊎ fr) + d) /\
  (forall v' d', mult (Own v' d') (r ⊎ fr) = 0).
Proof.
  assert (Hx : forall t, mult t (r ⊎ {[+ Own v d +]} ⊎ fr) = mult t (r ⊎ fr) + if decide (t = Own v d) then 1 else 0).
  { intros t. rewrite !mult_union, mult_single. lia. }
  intros [(_ & Ho & _)|(Hs & v0 & d0 & Ho & Hv & Hd)].
  - specialize (Ho v d). rewrite Hx, decide_True in Ho by done.
    pose proof (mult_nonneg (Own v d) (r ⊎ fr)). lia.
  - assert (v = v0 /\ d = d0) as [-> ->].
    { specialize (Ho v d). rewrite Hx, decide_True in Ho by done. case_decide; [done|].
      pose proof (mult_nonneg (Own v d) (r ⊎ fr)). lia. }
    rewrite Hx, decide_False in Hd by done. split_and!.
    + by destruct Hs as [->| ->].
    + done.
    + by rewrite Z.add_0_r in Hd.
    + intros v' d'. specialize (Ho v' d'). rewrite Hx in Ho.
      pose proof (mult_nonneg (Own v' d') (r ⊎ fr)). repeat case_decide; simplify_eq; try naive_solver; lia.
Qed.

Lemma lock_release m r v n fr : lock_inv m (r ⊎ {[+ Own v (Z.of_nat n) +]} ⊎ fr) ->
  lock_inv (upd m State UNLOCKED) (r ⊎ incs n ⊎ fr).
Proof.
  intros HI. destruct (lock_held _ _ _ _ _ HI) as (_ & Hv & Hd & Ho). left. rewrite upd_eq. split_and!; [done|..].
  - intros v' d'. specialize (Ho v' d'). rewrite !mult_union, mult_incs, decide_False in * by done. lia.
  - change (m Value = wrap 64 (mult Inc (r ⊎ incs n ⊎ fr))). rewrite Hv, Hd. f_equal.
    rewrite !mult_union, mult_incs, decide_True by done. lia.
Qed.

(** ** The mutexes implement the interface *)

Lemma wp_cas_acquire r (Φ : result Z Z -> toks -> Prop) :
  (forall v, Φ (Ok UNLOCKED) (r ⊎ {[+ Own v 0 +]})) -> (forall w, Φ (Err w) r) ->
  wp lock_inv (compare_exchange State UNLOCKED LOCKED) r Φ.
Proof.
  intros Hok Herr. apply wp_cas; intros m fr HI Hs.
  - exists (r ⊎ {[+ Own (m Value) 0 +]}). split; [|apply Hok]. by apply lock_free; [| |left].
  - by exists r.
Qed.

Lemma wp_mark_contended r (Φ : bool -> toks -> Prop) :
  (forall v, Φ true (r ⊎ {[+ Own v 0 +]})) -> Φ false r -> wp lock_inv futex_mark_contended r Φ.
Proof.
  intros Hok Herr. apply wp_bind, wp_swap. intros m fr HI. destruct (Z.eqb_spec (m State) UNLOCKED) as [Hs|Hs].
  - exists (r ⊎ {[+ Own (m Value) 0 +]}). split; [by apply lock_free; [| |right]|]. apply Hok.
  - exists r. split; [by apply lock_busy|]. exact Herr.
Qed.

Lemma wp_spin_while cond fuel r : wp lock_inv (spin_while cond fuel) r (fun _ r' => r' = r).
Proof.
  apply (wp_loop _ (fun _ r' => r' = r)); [|done]. intros [] ? ->. apply wp_bind, wp_load.
  intros m fr HI. exists r. split; [done|]. apply wp_ret. by destruct (cond _).
Qed.

Lemma wp_store_release r v n : wp lock_inv (store State UNLOCKED) (r ⊎ {[+ Own v (Z.of_nat n) +]})
  (fun _ r' => r' = r ⊎ incs n).
Proof. apply wp_store. intros m fr HI. eexists. split; [by eapply lock_release | done]. Qed.

(** The outcome of an acquisition, as a [bool]. *)
Definition taken {A} (p : prog scell A) (f : A -> bool) : prog scell bool := let! a := p in Ret (f a).

Definition acquired_post {A} (r : toks) (f : A -> bool) (a : A) (r' : toks) : Prop :=
  if f a then exists v, r' = r ⊎ {[+ Own v 0 +]} else r' = r.

Lemma taken_spec {A} (p : prog scell A) f r :
  wp lock_inv p r (acquired_post r f) -> wp lock_inv (taken p f) r (fun ok r' =>
    if (ok : bool) then exists v, r' = r ⊎ {[+ Own v 0 +]} else r' = r).
Proof. intros Hp. apply wp_bind. eapply wp_mono, Hp. done. Qed.

Lemma try_lock_spec r : wp lock_inv try_lock r (acquired_post r (fun g => bool_decide (is_Some g))).
Proof. apply wp_bind, wp_bind, wp_cas_acquire; [intros v; by exists v | done]. Qed.

Definition got (x : result (option unit) FutexLockError) : bool :=
  match x with Ok (Some _) => true | _ => false end.

Section Kernel.
Variable raw_futex : Z -> Z -> option KernelTimespec -> Z -> prog scell Z.
Variable fuel : nat.
Hypothesis kernel_reads : forall op v t b, read_only (raw_futex op v t b).

Lemma futex_wait_spec e r : wp lock_inv (futex_wait raw_futex fuel e) r (fun _ r' => r' = r).
Proof.
  apply (wp_loop _ (fun _ r' => r' = r)); [|done]. intros [] ? ->. apply wp_bind, wp_read_only; [done|].
  intros res. by repeat case_match.
Qed.

Lemma futex_wait_until_spec e d r :
  wp lock_inv (futex_wait_until raw_futex fuel e d) r (fun _ r' => r' = r).
Proof.
  apply (wp_loop _ (fun _ r' => r' = r)); [|done]. intros [] ? ->. apply wp_bind, wp_read_only; [done|].
  intros res. by repeat case_match.
Qed.

Lemma spin_phase_spec {A} (f : A -> bool) a (slow : prog scell A) r : f a = true ->
  wp lock_inv slow r (acquired_post r f) -> wp lock_inv (spin_phase a slow) r (acquired_post r f).
Proof.
  intros Hf Hslow. apply (wp_for _ (fun _ r' => r' = r)); [|by intros ? ->|done].
  intros i ? _ ->. apply wp_bind. eapply wp_mono, try_lock_spec.
  intros [[]|] r' Hr; apply wp_ret; [|exact Hr]. unfold acquired_post. by rewrite Hf.
Qed.

Lemma lock_contended_fallible_spec r :
  wp lock_inv (lock_contended_fallible raw_futex fuel) r (acquired_post r is_ok).
Proof.
  apply wp_bind, wp_mark_contended; [intros v; by exists v|].
  apply (wp_loop _ (fun _ r' => r' = r)); [|done]. intros [] ? ->. apply wp_bind.
  eapply wp_mono, futex_wait_spec. intros [[]|e] ? ->; [|by apply wp_ret].
  apply wp_bind, wp_mark_contended; [intros v; by exists v | done].
Qed.

Lemma lock_contended_until_spec d r :
  wp lock_inv (lock_contended_until raw_futex fuel d) r
    (acquired_post r got).
Proof.
  apply wp_bind, wp_mark_contended; [intros v; by exists v|].
  apply (wp_loop _ (fun _ r' => r' = r)); [|done]. intros [] ? ->. apply wp_bind.
  eapply wp_mono, futex_wait_until_spec. intros [b|e] ? ->; [|by apply wp_ret].
  apply wp_bind, wp_mark_contended; [intros v; by exists v|]. by destruct b.
Qed.

Lemma lock_fallible_spec r : wp lock_inv (lock_fallible raw_futex fuel) r (acquired_post r is_ok).
Proof.
  apply wp_bind. eapply wp_mono, try_lock_spec. intros [[]|] r' Hr; [exact Hr|]. cbn in Hr. subst r'.
  apply spin_phase_spec; [done|]. apply lock_contended_fallible_spec.
Qed.

Lemma lock_spec r : wp lock_inv (lock raw_futex fuel) r (acquired_post r (fun _ => true)).
Proof.
  apply wp_bind. eapply wp_mono, lock_fallible_spec. intros [[]|e] r' Hr; [exact Hr|]. cbn in Hr. subst r'.
  apply (wp_loop _ (fun _ r' => r' = r)); [|done]. intros [] ? ->.
  apply wp_bind, wp_mark_contended; [intros v; by exists v|].
  apply wp_bind. eapply wp_mono, wp_spin_while. by intros [] ? ->.
Qed.

Lemma try_lock_for_spec clock timeout r :
  wp lock_inv (try_lock_for raw_futex fuel clock timeout) r
    (acquired_post r got).
Proof.
  apply wp_bind. eapply wp_mono, try_lock_spec. intros [[]|] r' Hr; [exact Hr|]. cbn in Hr. subst r'.
  destruct (is_zero timeout); [done|]. destruct (monotonic_deadline clock timeout); [|done].
  apply spin_phase_spec; [done|]. apply lock_contended_until_spec.
Qed.

Lemma unlock_spec r v n : wp lock_inv (unlock raw_futex) (r ⊎ {[+ Own v (Z.of_nat n) +]})
  (fun _ r' => r' = r ⊎ incs n).
Proof.
  apply wp_bind, wp_bind, wp_swap. intros m fr HI. eexists. split; [by eapply lock_release|].
  apply wp_ret. destruct (m State =? CONTENDED); [|done].
  apply wp_bind, wp_read_only; [done|]. done.
Qed.

(** ** The three mutexes *)

Inductive kind := SpinMutex | RawMutex | FutexMutex.
Inductive spin_method := SpinLock | SpinTryLock.
Inductive futex_method :=
| FutexLock | FutexLockFallible | FutexTryLock
| FutexTryLockFor (clock : Z * KernelTimespec) (timeout : Duration).

Definition method (k : kind) : Type :=
  match k with SpinMutex | RawMutex => spin_method | FutexMutex => futex_method end.

Definition acquire (k : kind) : method k -> prog scell bool :=
  match k with
  | SpinMutex => fun x => match x with
      | SpinLock => taken (spin_lock fuel) (fun _ => true)
      | SpinTryLock => taken spin_try_lock (fun g => bool_decide (is_Some g))
      end
  | RawMutex => fun x => match x with
      | SpinLock => taken (raw_lock fuel) (fun _ => true)
      | SpinTryLock => taken raw_try_lock (fun b => b)
      end
  | FutexMutex => fun x => match x with
      | FutexLock => taken (lock raw_futex fuel) (fun _ => true)
      | FutexLockFallible => taken (lock_fallible raw_futex fuel) is_ok
      | FutexTryLock => taken try_lock (fun g => bool_decide (is_Some g))
      | FutexTryLockFor clock timeout =>
          taken (try_lock_for raw_futex fuel clock timeout) got
      end
  end.

Definition release (k : kind) : prog scell unit :=
  match k with SpinMutex => spin_unlock | RawMutex => raw_unlock | FutexMutex => unlock raw_futex end.

#[export] Instance mutex_spec k (x : method k) : LockSpec (acquire k x) (release k).
Proof.
  split.
  - intros r. destruct k, x; apply taken_spec.
    + apply (wp_loop _ (fun _ r' => r' = r)); [|done]. intros [] ? ->. apply wp_bind, wp_bind.
      apply wp_cas_acquire; [intros v; by exists v|]. intros w. apply wp_bind.
      eapply wp_mono, wp_spin_while. by intros [] ? ->.
    + apply wp_bind, wp_cas_acquire; [intros v; by exists v | done].
    + apply (wp_loop _ (fun _ r' => r' = r)); [|done]. intros [] ? ->. apply wp_bind, wp_bind.
      apply wp_cas_acquire; [intros v; by exists v|]. intros w. apply wp_bind.
      eapply wp_mono, wp_spin_while. by intros [] ? ->.
    + apply wp_bind, wp_cas_acquire; [intros v; by exists v | done].
    + apply lock_spec.
    + apply lock_fallible_spec.
    + apply try_lock_spec.
    + apply try_lock_for_spec.
  - intros r v n. destruct k; [apply wp_store_release | apply wp_store_release | apply unlock_spec].
Qed.
End Kernel.

(** ** Clients *)

(** [n] increments through the guard, none of them atomic. *)
Fixpoint increments (n : nat) : prog scell unit :=
  match n with
  | O => Ret tt
  | S n => let! v := guard_deref in do! guard_deref_mut (wrap 64 (v + 1)) ;; increments n
  end.

(** A critical section panics when the value has changed behind its back. *)
Definition critical (n : nat) : prog scell unit :=
  let! before := guard_deref in
  do! increments n ;;
  let! after := guard_deref in
  if after =? wrap 64 (before + Z.of_nat n) then Ret tt else Panic.

(** A worker acquires in the ways its script names, and counts what it has added;
    an acquisition that times out or fails adds nothing. *)
Fixpoint worker {M} (acquire : M -> prog scell bool) (release : prog scell unit)
    (script : list (M * nat)) (count : nat) : prog scell nat :=
  match script with
  | [] => Ret count
  | (x, n) :: script =>
      let! ok := acquire x in
      if (ok : bool) then
        do! critical n ;; do! release ;; worker acquire release script (count + n)
      else worker acquire release script count
  end.

Section Client.
Context {M : Type} (acquire : M -> prog scell bool) (release : prog scell unit).
Context `{!forall x, LockSpec (acquire x) release}.

Lemma wrap_succ x : wrap 64 (wrap 64 x + 1) = wrap 64 (x + 1).
Proof. unfold wrap. apply Zplus_mod_idemp_l. Qed.

Lemma deref_spec v d r Φ : (wrap 64 v = v -> Φ v (r ⊎ {[+ Own v d +]})) ->
  wp lock_inv guard_deref (r ⊎ {[+ Own v d +]}) Φ.
Proof.
  intros HΦ. apply wp_load. intros m fr HI. eexists. split; [exact HI|].
  destruct (lock_held _ _ _ _ _ HI) as (_ & -> & -> & _). apply HΦ. unfold wrap. by rewrite Z.mod_mod.
Qed.

Lemma deref_mut_spec v d r : wp lock_inv (guard_deref_mut (wrap 64 (v + 1))) (r ⊎ {[+ Own v d +]})
  (fun _ r' => r' = r ⊎ {[+ Own (wrap 64 (v + 1)) (d + 1) +]}).
Proof.
  apply wp_store. intros m fr HI. eexists. split; [|done].
  destruct (lock_held _ _ _ _ _ HI) as (Hs & Hv & Hd & Ho). right. split.
  { destruct HI as [[? _]|[HI _]]; [done | exact HI]. }
  exists (wrap 64 (v + 1)), (d + 1). split_and!.
  - intros v' d'. specialize (Ho v' d'). rewrite !mult_union, mult_single in *.
    repeat case_decide; simplify_eq; try naive_solver; lia.
  - apply upd_eq.
  - rewrite Hd, wrap_succ, !mult_union, mult_single, decide_False by done. f_equal. lia.
Qed.

Lemma increments_spec n v d r : wp lock_inv (increments n) (r ⊎ {[+ Own (wrap 64 v) d +]})
  (fun _ r' => r' = r ⊎ {[+ Own (wrap 64 (v + Z.of_nat n)) (d + Z.of_nat n) +]}).
Proof.
  revert v d. induction n as [|n IH]; intros v d; cbn [increments].
  - apply wp_ret. by rewrite !Z.add_0_r.
  - apply wp_bind, deref_spec. intros _. apply wp_bind. eapply wp_mono, deref_mut_spec. intros _ ? ->.
    rewrite wrap_succ. eapply wp_mono, IH. intros _ ? ->. do 3 f_equal; [f_equal|]; lia.
Qed.

Lemma critical_spec n v r : wp lock_inv (critical n) (r ⊎ {[+ Own v 0 +]})
  (fun _ r' => r' = r ⊎ {[+ Own (wrap 64 (v + Z.of_nat n)) (Z.of_nat n) +]}).
Proof.
  apply wp_bind, deref_spec. intros Hv. apply wp_bind. rewrite <- Hv at 1.
  eapply wp_mono, increments_spec. intros _ ? ->. apply wp_bind, deref_spec. intros _.
  rewrite Z.eqb_refl. by apply wp_ret.
Qed.

Lemma incs_add a b : incs (a + b) = incs a ⊎ incs b.
Proof. unfold incs. multiset_solver. Qed.

Lemma worker_spec script count :
  wp lock_inv (worker acquire release script count) (incs count) (fun n r => r = incs n).
Proof.
  revert count. induction script as [|[x n] script IH]; intros count; [done|]. cbn [worker].
  apply wp_bind. eapply wp_mono, acquire_spec. intros [] r; [|intros ->; apply IH].
  intros [v ->]. apply wp_bind. eapply wp_mono, critical_spec. intros _ ? ->.
  apply wp_bind. eapply wp_mono, (release_spec (acquire := acquire x)). intros _ ? ->.
  rewrite <- incs_add. apply IH.
Qed.

Lemma results_union ns (rs : list toks) :
  Forall2 (fun p r => wp lock_inv p r (fun n r => r = incs n)) (Ret <$> ns) rs ->
  ⋃+ rs = incs (sum_list ns).
Proof.
  revert rs. induction ns as [|n ns IH]; intros rs Hall; inversion Hall as [|? r ? rs' Hn Hns]; subst; [done|].
  change (r = incs n) in Hn. by rewrite gmultiset_disj_union_list_cons, Hn, (IH _ Hns), <- incs_add.
Qed.

Lemma workers_count scripts m ts :
  rtc pstep (spin_new 0, (fun s => worker acquire release s 0) <$> scripts) (m, ts) ->
  (forall i, ts !! i <> Some Panic) /\
  forall ns, ts = Ret <$> ns -> m State = UNLOCKED /\ m Value = wrap 64 (Z.of_nat (sum_list ns)).
Proof.
  intros Hs. assert (Hok : pool_ok lock_inv (fun n r => r = incs n) (m, ts)).
  { eapply pool_adequacy, pool_ok_start; [exact Hs| |].
    - left. split_and!; [done | intros v d; apply mult_empty | by rewrite mult_empty].
    - apply Forall_fmap, Forall_true. intros script. apply (worker_spec script 0). }
  split.
  - intros i. by eapply (pool_no_panic _ _ (m, ts) (m, ts)).
  - intros ns ->. destruct Hok as (rs & Hall & HI). cbn in Hall, HI.
    rewrite (results_union ns rs Hall) in HI. destruct HI as [(HS & _ & HV)|(_ & v & d & Ho & _)].
    + by rewrite mult_incs, decide_True in HV by done.
    + specialize (Ho v d). rewrite mult_incs, decide_False, decide_True in Ho by done. lia.
Qed.
End Client.

(** C13.  Every mutex of the module is a mutex, whatever the kernel answers to its system
    calls: in every interleaving of workers that acquire it in any of its ways (with
    timeouts and failures) and update the value non-atomically, a critical section
    never sees the value change under it, and when all workers have returned the lock
    is free and the value is the number of increments they report. *)
Theorem mutex_counts raw_futex fuel k (scripts : list (list (method k * nat))) m ts :
  (forall op v t b, read_only (raw_futex op v t b)) ->
  rtc pstep (spin_new 0,
    (fun s => worker (acquire raw_futex fuel k) (release raw_futex k) s 0) <$> scripts) (m, ts) ->
  (forall i, ts !! i <> Some Panic) /\
  forall ns, ts = Ret <$> ns -> m State = UNLOCKED /\ m Value = wrap 64 (Z.of_nat (sum_list ns)).
Proof.
  intros Hk. pose proof (mutex_spec raw_futex fuel Hk k) as Hspec. by apply workers_count.
Qed.

(** A kernel that compares the word before it sleeps and may be interrupted. *)
Definition demo_futex (op value : Z) (timeout : option KernelTimespec) (bitset : Z) : prog scell Z :=
  if op =? FUTEX_WAKE then Ret 1
  else
    let! w := load State in
    if w =? value then Choose (fun interrupted : bool => Ret (if interrupted then - EINTR else 0))
    else Ret (- EAGAIN).

Definition mutex_demo : (scell -> Z) * list (prog scell nat) :=
  run_schedule (spin_new 0,
    (fun s => worker (acquire demo_futex 9 FutexMutex) (release demo_futex FutexMutex) s 0) <$>
      [[(FutexLock, 2%nat)]; [(FutexTryLock, 3%nat); (FutexLockFallible, 1%nat)]])
    (replicate 3 0%nat ++ replicate 80 1%nat ++ replicate 20 0%nat ++ replicate 40 1%nat).

Lemma mutex_counts_witness :
  mutex_demo.2 = Ret <$> [2; 1]%nat /\ mutex_demo.1 State = UNLOCKED /\ mutex_demo.1 Value = 3.
Proof.
  split; [vm_compute; reflexivity|].
  apply (mutex_counts demo_futex 9 FutexMutex
    [[(FutexLock, 2%nat)]; [(FutexTryLock, 3%nat); (FutexLockFallible, 1%nat)]] mutex_demo.1 mutex_demo.2)
    with (ns := [2; 1]%nat).
  - intros op v t b. unfold demo_futex. destruct (op =? FUTEX_WAKE); [done|].
    cbn. split; [done|]. intros w. destruct (w =? v); cbn; [intros b0; exact I | exact I].
  - rewrite <- surjective_pairing. unfold mutex_demo. apply run_schedule_steps.
  - vm_compute. reflexivity.
Defined.
