(* ===== verification/FixedAllocator.v ===== *)
(** The fixed-address allocator: [shmem_exec_obj/v2/src/fixed_allocator.rs].

    The control object publishes one region, claimed by one initializer for Talc;
    the handles forward non-empty requests to Talc.  Talc is a library: its private
    cells are the [Talc] cells of the control object, claiming a region is a program
    over them that is passed in, and its allocation operations are the record
    [TalcOps]. *)

From S2P Require Import Prelude Conc Compose.

Definition UNINITIALIZED : Z := 0.
Definition INITIALIZING : Z := 1.
Definition READY : Z := 2.
Definition POISONED : Z := 3.

Inductive FixedRegionState := Uninitialized | Initializing | Ready | Poisoned.

Record FixedRegion := { region_base : Z; region_size : Z }.

Inductive FixedRegionError :=
| NullBase
| MisalignedBase (required : Z)
| MisalignedSize (required : Z)
| RegionTooSmall (minimum : Z)
| AddressOverflow
| OverlapsAllocator
| InitializationInProgress
| NotInitialized
| AlreadyInitialized
| RegionPoisoned
| RegionMismatch (expected_base expected_size actual_base actual_size : Z)
| ClaimFailed
| ClaimDidNotCoverRegion (claimed_end expected_end : Z).

(** The fields of the control object. *)
Inductive fcell (K : Type) := FState | FBase | FSize | Talc (k : K).
Arguments FState {K}.
Arguments FBase {K}.
Arguments FSize {K}.
Arguments Talc {K} _.
#[export] Instance fcell_eq_dec {K} `{EqDecision K} : EqDecision (fcell K).
Proof. solve_decision. Defined.

(** What the build fixes: Talc's chunk unit and smallest heap, the size of the
    control object, and its address in this process. *)
Class FixedBuild := {
  CHUNK_UNIT : Z;
  min_first_heap_size : Z;
  size_of_control : Z;
  control_address : Z
}.

Section Control.
Context `{Target} `{FixedBuild} {K : Type}.
#[local] Abbreviation prog := (prog (fcell K)).

Definition end_address (r : FixedRegion) : Z := region_base r + region_size r.

Definition contains (r : FixedRegion) (pointer size : Z) : bool :=
  match checked_add usize_bits pointer size with
  | None => false
  | Some e => (region_base r <=? pointer) && (e <=? end_address r)
  end.

Definition align_up (value alignment : Z) : Z :=
  Z.land (value + alignment - 1) (not_bits usize_bits (alignment - 1)).

Definition REGION_ALIGNMENT : Z := CHUNK_UNIT.
Definition MIN_REGION_SIZE : Z := align_up min_first_heap_size REGION_ALIGNMENT.

Definition validate_region (base size : Z) : result Z FixedRegionError :=
  reject base =? 0 with NullBase ;;
  reject negb (base mod REGION_ALIGNMENT =? 0) with MisalignedBase REGION_ALIGNMENT ;;
  reject negb (size mod REGION_ALIGNMENT =? 0) with MisalignedSize REGION_ALIGNMENT ;;
  reject size <? MIN_REGION_SIZE with RegionTooSmall MIN_REGION_SIZE ;;
  let? e := ok_or (checked_add usize_bits base size) AddressOverflow in
  let? allocator_end := ok_or (checked_add usize_bits control_address size_of_control) AddressOverflow in
  reject (base <? allocator_end) && (control_address <? e) with OverlapsAllocator ;;
  Ok e.

Definition new : fcell K -> Z := fun _ => 0.

Definition state : prog FixedRegionState :=
  let! s := load FState in
  Ret (if s =? UNINITIALIZED then Uninitialized
       else if s =? INITIALIZING then Initializing
       else if s =? READY then Ready
       else if s =? POISONED then Poisoned
       else Poisoned).

Definition region : prog (option FixedRegion) :=
  let! s := load FState in
  if negb (s =? READY) then Ret None
  else
    let! base := load FBase in
    let! size := load FSize in
    Ret (if base =? 0 then None else Some {| region_base := base; region_size := size |}).

(** [PoisonOnDrop::drop] *)
Definition poison_on_drop (armed : bool) : prog unit :=
  if armed then store FState POISONED else Ret tt.

(** [claim base size] locks Talc and claims the region; it may unwind. *)
Definition initialize (claim : Z -> Z -> prog (unwind (option Z))) (base size : Z) :
    prog (unwind (result unit FixedRegionError)) :=
  match validate_region base size with
  | Err e => Ret (Returned (Err e))
  | Ok expected_end =>
      let! x := compare_exchange FState UNINITIALIZED INITIALIZING in
      match x with
      | Err observed =>
          Ret (Returned (Err (if observed =? INITIALIZING then InitializationInProgress
                              else if observed =? READY then AlreadyInitialized
                              else if observed =? POISONED then RegionPoisoned
                              else RegionPoisoned)))
      | Ok _ =>
          let! claimed := claim base size in
          match claimed with
          | Unwound => do! poison_on_drop true ;; Ret Unwound
          | Returned None => do! poison_on_drop true ;; Ret (Returned (Err ClaimFailed))
          | Returned (Some claimed_end) =>
              if negb (claimed_end =? expected_end) then
                do! poison_on_drop true ;;
                Ret (Returned (Err (ClaimDidNotCoverRegion claimed_end expected_end)))
              else
                do! store FBase base ;;
                do! store FSize size ;;
                do! store FState READY ;;
                do! poison_on_drop false ;;
                Ret (Returned (Ok tt))
          end
      end
  end.

Definition attach (base size : Z) : prog (result unit FixedRegionError) :=
  match validate_region base size with
  | Err e => Ret (Err e)
  | Ok _ =>
      let! s := load FState in
      if s =? UNINITIALIZED then Ret (Err NotInitialized)
      else if s =? INITIALIZING then Ret (Err InitializationInProgress)
      else if s =? READY then
        let! expected_base := load FBase in
        let! expected_size := load FSize in
        if negb (base =? expected_base) || negb (size =? expected_size)
        then Ret (Err (RegionMismatch expected_base expected_size base size))
        else Ret (Ok tt)
      else Ret (Err RegionPoisoned)
  end.

(** [FixedRegionAllocatorHandle::region] *)
Definition handle_region : prog FixedRegion :=
  let! r := region in match r with Some r => Ret r | None => Panic end.
End Control.

(** ** The allocator of a handle *)

(** [core::alloc::Layout]; a [NonNull<[u8]>] is an address and a length. *)
Record Layout := { lsize : Z; lalign : Z }.
#[export] Instance layout_eq_dec : EqDecision Layout.
Proof. solve_decision. Defined.

(** Talc's implementation of [Allocator], over its state [S]. *)
Record TalcOps (S : Type) := {
  talc_allocate : Layout -> S -> option (Z * Z) * S;
  talc_allocate_zeroed : Layout -> S -> option (Z * Z) * S;
  talc_deallocate : Z -> Layout -> S -> S;
  talc_grow : Z -> Layout -> Layout -> S -> option (Z * Z) * S;
  talc_grow_zeroed : Z -> Layout -> Layout -> S -> option (Z * Z) * S;
  talc_shrink : Z -> Layout -> Layout -> S -> option (Z * Z) * S
}.
Arguments talc_allocate {S} _ _ _.
Arguments talc_allocate_zeroed {S} _ _ _.
Arguments talc_deallocate {S} _ _ _ _.
Arguments talc_grow {S} _ _ _ _ _.
Arguments talc_grow_zeroed {S} _ _ _ _ _.
Arguments talc_shrink {S} _ _ _ _ _.

Section Handle.
Context {S : Type} (talc : TalcOps S).

Definition dangling_slice (layout : Layout) : Z * Z := (lalign layout, 0).

Definition allocate (layout : Layout) (s : S) : option (Z * Z) * S :=
  if lsize layout =? 0 then (Some (dangling_slice layout), s) else talc_allocate talc layout s.

Definition allocate_zeroed (layout : Layout) (s : S) : option (Z * Z) * S :=
  if lsize layout =? 0 then (Some (dangling_slice layout), s)
  else talc_allocate_zeroed talc layout s.

Definition deallocate (pointer : Z) (layout : Layout) (s : S) : S :=
  if negb (lsize layout =? 0) then talc_deallocate talc pointer layout s else s.

Definition grow (pointer : Z) (old_layout new_layout : Layout) (s : S) : option (Z * Z) * S :=
  if lsize old_layout =? 0 then allocate new_layout s
  else talc_grow talc pointer old_layout new_layout s.

Definition grow_zeroed (pointer : Z) (old_layout new_layout : Layout) (s : S) : option (Z * Z) * S :=
  if lsize old_layout =? 0 then allocate_zeroed new_layout s
  else talc_grow_zeroed talc pointer old_layout new_layout s.

Definition shrink (pointer : Z) (old_layout new_layout : Layout) (s : S) : option (Z * Z) * S :=
  if lsize new_layout =? 0 then
    let s := if negb (lsize old_layout =? 0) then talc_deallocate talc pointer old_layout s else s in
    (Some (dangling_slice new_layout), s)
  else talc_shrink talc pointer old_layout new_layout s.
End Handle.
