(* ===== verification/FixedAllocatorCorrect.v ===== *)
(** The fixed-address allocator: one region is published, and Talc's contract is
    kept by the handles. *)

From stdpp Require Import countable.
From S2P Require Import Prelude Conc Compose FixedAllocator.

(** A program that accesses only the cells of [P] (and may not terminate). *)
Fixpoint confined {L A} (P : L -> Prop) (p : prog L A) : Prop :=
  match p with
  | Ret _ | Spin => True
  | Panic => False
  | Rmw l _ k => P l /\ forall v, confined P (k v)
  | Choose k => forall b, confined P (k b)
  end.

Lemma wp_confined {L A T} `{EqDecision L} `{Countable T} (P : L -> Prop)
    (I : (L -> Z) -> gmultiset T -> Prop) (p : prog L A) r Φ :
  (forall m l v r, P l -> I m r -> I (upd m l v) r) ->
  confined P p -> (forall a, Φ a r) -> wp I p r Φ.
Proof.
  intros HI Hp HΦ. induction p as [a| | |l f k IH|k IH]; cbn in Hp |- *; [apply HΦ | done | done | |].
  - intros m fr Hm. exists r. split; [|apply IH, Hp]. unfold apply_rmw.
    destruct (f (m l)); [|done]. by apply HI; [apply Hp|].
  - intros b. apply IH, Hp.
Qed.

(** ** The control object *)

(** [Ini k b s]: this thread initializes with the region [b], [s] and has stored [k]
    of its two words.  [Rdy b s]: the published region.  [Won]: this thread
    published it.  [Bad]: the object is poisoned. *)
Inductive ftok := Ini (k : nat) (b s : Z) | Rdy (b s : Z) | Won | Bad.
#[export] Instance ftok_eq_dec : EqDecision ftok.
Proof. solve_decision. Defined.
#[export] Instance ftok_countable : Countable ftok.
Proof.
  apply (inj_countable'
    (fun t => match t with Ini k b s => inl (k, b, s) | Rdy b s => inr (inl (b, s))
              | Won => inr (inr true) | Bad => inr (inr false) end)
    (fun x => match x with inl (k, b, s) => Ini k b s | inr (inl (b, s)) => Rdy b s
              | inr (inr true) => Won | inr (inr false) => Bad end)).
  by intros [].
Defined.
#[local] Abbreviation toks := (gmultiset ftok).

(** What a thread ends with: a handle to a region, a refusal that changed nothing,
    or a failed claim. *)
Inductive fverdict :=
| Handle (winner : bool) (base size : Z)
| Refused (e : FixedRegionError)
| Broken.

Section Threads.
Context `{Target} `{FixedBuild} {K : Type}.
Variable claim : Z -> Z -> prog (fcell K) (unwind (option Z)).

(** The client relies on the handle's region being the one it asked for. *)
Definition answer (winner : bool) (base size : Z) (r : FixedRegion) : prog (fcell K) fverdict :=
  if (FixedAllocator.region_base r =? base) && (FixedAllocator.region_size r =? size)
  then Ret (Handle winner base size) else Panic.

Definition initializer (base size : Z) : prog (fcell K) fverdict :=
  let! x := initialize claim base size in
  match x with
  | Unwound => Ret Broken
  | Returned (Err ClaimFailed) | Returned (Err (ClaimDidNotCoverRegion _ _)) => Ret Broken
  | Returned (Err e) => Ret (Refused e)
  | Returned (Ok _) =>
      let! r := handle_region in answer true base size r
  end.

Definition attacher (base size : Z) : prog (fcell K) fverdict :=
  let! x := attach base size in
  match x with
  | Err e => Ret (Refused e)
  | Ok _ => let! r := handle_region in answer false base size r
  end.

Inductive frole := Initializer (base size : Z) | Attacher (base size : Z).
Definition fplay (x : frole) : prog (fcell K) fverdict :=
  match x with Initializer b s => initializer b s | Attacher b s => attacher b s end.
End Threads.

Section Verify.
Context `{Target} `{FixedBuild} {K : Type} `{EqDecision K}.
Implicit Types (m : fcell K -> Z) (r : toks).

Definition region_ok (b s : Z) : Prop := validate_region b s = Ok (b + s).

Lemma validate_region_ok b s e : validate_region b s = Ok e -> region_ok b s /\ e = b + s /\ b <> 0.
Proof.
  intros Hv. assert (e = b + s /\ b <> 0) as [-> Hb]; [|done]. unfold validate_region in Hv. ok_inv Hv.
  apply ok_or_ok, checked_add_some in Hbind as [-> _]. apply Z.eqb_neq in Hguard. naive_solver.
Qed.

Definition quiet r : Prop := (forall b s, mult (Rdy b s) r = 0) /\ mult Won r = 0 /\ mult Bad r = 0.

Inductive fstate m r : option (nat * Z * Z) -> Prop :=
| fs_new : m FState = UNINITIALIZED -> quiet r -> fstate m r None
| fs_init k b s : m FState = INITIALIZING -> quiet r -> region_ok b s ->
    ((1 <= k)%nat -> m FBase = b) -> ((2 <= k)%nat -> m FSize = s) -> fstate m r (Some (k, b, s))
| fs_ready : m FState = READY -> region_ok (m FBase) (m FSize) ->
    (forall b s, 1 <= mult (Rdy b s) r -> m FBase = b /\ m FSize = s) ->
    mult Won r <= 1 -> mult Bad r = 0 -> fstate m r None
| fs_poisoned : m FState = POISONED -> (forall b s, mult (Rdy b s) r = 0) -> mult Won r = 0 ->
    fstate m r None.

Definition finv m r : Prop := exists o,
  (forall k b s, mult (Ini k b s) r = if decide (o = Some (k, b, s)) then 1 else 0) /\ fstate m r o.

Lemma finv_talc m r k v : finv m r -> finv (upd m (Talc k) v) r.
Proof.
  intros (o & Ho & Hs). exists o. split; [done|].
  destruct Hs; [by apply fs_new | by apply fs_init | by apply fs_ready | by apply fs_poisoned].
Qed.

(** The initializer is alone while it initializes. *)
Lemma finv_init m r k b s fr : finv m (r ⊎ {[+ Ini k b s +]} ⊎ fr) ->
  m FState = INITIALIZING /\ quiet (r ⊎ fr) /\ region_ok b s /\
  ((1 <= k)%nat -> m FBase = b) /\ ((2 <= k)%nat -> m FSize = s) /\
  (forall k' b' s', mult (Ini k' b' s') (r ⊎ fr) = 0).
Proof.
  assert (Hx : forall t, mult t (r ⊎ {[+ Ini k b s +]} ⊎ fr) =
    mult t (r ⊎ fr) + if decide (t = Ini k b s) then 1 else 0).
  { intros t. rewrite !mult_union, mult_single. lia. }
  intros (o & Ho & Hs). assert (o = Some (k, b, s)) as ->.
  { specialize (Ho k b s). rewrite Hx, decide_True in Ho by done. case_decide; [done|].
    pose proof (mult_nonneg (Ini k b s) (r ⊎ fr)). lia. }
  inversion Hs as [|? ? ? H1 [H2 [H3 H4]] H5 H6 H7| |]; subst. split_and!; try done.
  - unfold quiet. rewrite !Hx, !decide_False in * by done. split_and!; [|lia..].
    intros b' s'. specialize (H2 b' s'). rewrite Hx, decide_False in H2 by done. lia.
  - intros k' b' s'. specialize (Ho k' b' s'). rewrite Hx in Ho.
    repeat case_decide; simplify_eq; lia.
Qed.

Lemma quiet_add r fr t : quiet (r ⊎ fr) -> (forall b s, t <> Rdy b s) -> t <> Won -> t <> Bad ->
  quiet (r ⊎ {[+ t +]} ⊎ fr).
Proof.
  intros (Q1 & Q2 & Q3) N1 N2 N3. unfold quiet in *. rewrite !mult_union, !mult_single in *.
  rewrite !decide_False by done. split_and!; [|lia..]. intros b s. specialize (Q1 b s).
  rewrite !mult_union, mult_single in *. rewrite decide_False; [lia|]. intros Heq. by apply (N1 b s).
Qed.

Lemma ini_only r fr k b s : (forall k' b' s', mult (Ini k' b' s') (r ⊎ fr) = 0) ->
  forall k' b' s', mult (Ini k' b' s') (r ⊎ {[+ Ini k b s +]} ⊎ fr) =
    if decide (Some (k, b, s) = Some (k', b', s')) then 1 else 0.
Proof.
  intros Hn k' b' s'. specialize (Hn k' b' s'). rewrite !mult_union, mult_single in *.
  repeat case_decide; simplify_eq; try lia. all: exfalso; congruence.
Qed.

Lemma finv_start m b s fr : finv m fr -> m FState = UNINITIALIZED -> region_ok b s ->
  finv (upd m FState INITIALIZING) ({[+ Ini 0 b s +]} ⊎ fr).
Proof.
  intros (o & Ho & Hs) Hm Hok. inversion Hs as [_ Hq|? ? ? Hx|Hx|Hx]; subst; try (rewrite Hm in Hx; discriminate Hx).
  replace ({[+ Ini 0 b s +]} ⊎ fr) with (∅ ⊎ {[+ Ini 0 b s +]} ⊎ fr) by multiset_solver.
  replace fr with (∅ ⊎ fr) in Hq, Ho by multiset_solver.
  exists (Some (0%nat, b, s)). split; [apply ini_only; intros k' b' s'; by rewrite Ho|].
  apply fs_init; try done; [|lia..]. by apply quiet_add.
Qed.

Lemma finv_write m k b s fr : finv m (∅ ⊎ {[+ Ini k b s +]} ⊎ fr) ->
  (k = 0%nat -> finv (upd m FBase b) (∅ ⊎ {[+ Ini 1 b s +]} ⊎ fr)) /\
  (k = 1%nat -> finv (upd m FSize s) (∅ ⊎ {[+ Ini 2 b s +]} ⊎ fr)).
Proof.
  intros HI. destruct (finv_init _ _ _ _ _ _ HI) as (H1 & H2 & H3 & H4 & H5 & H6). split; intros ->.
  - exists (Some (1%nat, b, s)). split; [by apply ini_only|].
    apply fs_init; try done; [by apply quiet_add | lia].
  - exists (Some (2%nat, b, s)). split; [by apply ini_only|].
    apply fs_init; try done; [by apply quiet_add | intros _; by apply H4; lia].
Qed.

Lemma finv_publish m b s fr : finv m (∅ ⊎ {[+ Ini 2 b s +]} ⊎ fr) ->
  finv (upd m FState READY) ({[+ Won +]} ⊎ {[+ Rdy b s +]} ⊎ fr).
Proof.
  intros HI. destruct (finv_init _ _ _ _ _ _ HI) as (H1 & (Q1 & Q2 & Q3) & H3 & H4 & H5 & H6).
  rewrite gmultiset_disj_union_left_id in *. exists None. split.
  - intros k' b' s'. rewrite !mult_union, !mult_single, !decide_False by done.
    specialize (H6 k' b' s'). lia.
  - specialize (H4 ltac:(lia)). specialize (H5 ltac:(lia)).
    apply fs_ready; rewrite ?upd_eq; rewrite ?(upd_ne _ FState) by done; try done.
    + by rewrite H4, H5.
    + intros b' s'. rewrite H4, H5, !mult_union, !mult_single, (decide_False (P := Rdy b' s' = Won)) by done.
      specialize (Q1 b' s').
      case_decide; [by simplify_eq|]. lia.
    + rewrite !mult_union, !mult_single, decide_True, decide_False by done. lia.
    + rewrite !mult_union, !mult_single, !decide_False by done. lia.
Qed.

Lemma finv_poison m k b s fr : finv m (∅ ⊎ {[+ Ini k b s +]} ⊎ fr) ->
  finv (upd m FState POISONED) ({[+ Bad +]} ⊎ fr).
Proof.
  intros HI. destruct (finv_init _ _ _ _ _ _ HI) as (H1 & (Q1 & Q2 & Q3) & H3 & H4 & H5 & H6).
  rewrite gmultiset_disj_union_left_id in *. exists None. split.
  - intros k' b' s'. rewrite mult_union, mult_single, !decide_False by done.
    specialize (H6 k' b' s'). lia.
  - apply fs_poisoned; [done|..].
    + intros b' s'. rewrite mult_union, mult_single, !decide_False by done.
      specialize (Q1 b' s'). lia.
    + rewrite mult_union, mult_single, !decide_False by done. lia.
Qed.

Lemma finv_ready m r b s : finv m r -> 1 <= mult (Rdy b s) r ->
  m FState = READY /\ m FBase = b /\ m FSize = s /\ region_ok b s.
Proof.
  intros (o & _ & Hs) Hr. inversion Hs as [_ [Hq _]|? ? ? _ [Hq _]|H1 H2 H3|_ Hq]; subst.
  - specialize (Hq b s). lia.
  - specialize (Hq b s). lia.
  - destruct (H3 b s Hr) as [Hb Hs']. rewrite Hb, Hs' in H2. done.
  - specialize (Hq b s). lia.
Qed.

Lemma finv_learn m fr : finv m fr -> m FState = READY ->
  finv m ({[+ Rdy (m FBase) (m FSize) +]} ⊎ fr).
Proof.
  intros (o & Ho & Hs) Hm. inversion Hs as [Hx|? ? ? Hx|H1 H2 H3 H4 H5|Hx]; subst; try (rewrite Hm in Hx; discriminate Hx).
  exists None. split.
  - intros k b s. rewrite mult_union, mult_single, !decide_False by done. by rewrite Ho.
  - apply fs_ready; try done.
    + intros b s. rewrite mult_union, mult_single. case_decide; [by simplify_eq|]. intros. apply H3. lia.
    + rewrite mult_union, mult_single, !decide_False by done. lia.
    + rewrite mult_union, mult_single, !decide_False by done. lia.
Qed.

Variable claim : Z -> Z -> prog (fcell K) (unwind (option Z)).
Hypothesis claim_confined : forall b s, confined (fun l => exists k, l = Talc k) (claim b s).

Definition fverdict_post (x : fverdict) r : Prop :=
  match x with
  | Handle w b s => 1 <= mult (Rdy b s) r /\ (w = true -> 1 <= mult Won r)
  | Refused _ => True
  | Broken => 1 <= mult Bad r
  end.

Lemma rdy_union r fr b s : 1 <= mult (Rdy b s) r -> 1 <= mult (Rdy b s) (r ⊎ fr).
Proof. rewrite mult_union. pose proof (mult_nonneg (Rdy b s) fr). lia. Qed.

(** A handle always finds its region. *)
Lemma handle_region_spec b s r Φ : 1 <= mult (Rdy b s) r ->
  Φ {| region_base := b; region_size := s |} r -> wp finv handle_region r Φ.
Proof.
  intros Hr HΦ. assert (Hnow : forall m fr, finv m (r ⊎ fr) ->
    m FState = READY /\ m FBase = b /\ m FSize = s /\ region_ok b s).
  { intros m fr HI. by eapply finv_ready, rdy_union. }
  apply wp_bind, wp_bind, wp_load. intros m fr HI. exists r. split; [done|].
  destruct (Hnow m fr HI) as (-> & _). cbn [negb Z.eqb READY Pos.eqb].
  apply wp_bind, wp_load. intros m1 fr1 HI1. exists r. split; [done|].
  destruct (Hnow m1 fr1 HI1) as (_ & -> & _).
  apply wp_bind, wp_load. intros m2 fr2 HI2. exists r. split; [done|].
  destruct (Hnow m2 fr2 HI2) as (_ & _ & -> & Hok).
  destruct (validate_region_ok _ _ _ Hok) as (_ & _ & Hb). apply wp_ret.
  destruct (Z.eqb_spec b 0); [done|]. by apply wp_ret.
Qed.

Lemma initialize_fixed_spec b s : wp finv (initialize claim b s) ∅ (fun x r =>
  match x with
  | Returned (Ok _) => r = {[+ Won +]} ⊎ {[+ Rdy b s +]}
  | Returned (Err ClaimFailed) | Returned (Err (ClaimDidNotCoverRegion _ _)) | Unwound =>
      r = {[+ Bad +]}
  | Returned (Err _) => True
  end).
Proof.
  unfold initialize. destruct (validate_region b s) as [e|e] eqn:Hv.
  2: { apply wp_ret. unfold validate_region in Hv. destruct e; try done; exfalso; revert Hv; clear;
       unfold result_bind, ok_or; repeat case_match; congruence. }
  destruct (validate_region_ok _ _ _ Hv) as (Hok & -> & _).
  apply wp_bind, wp_cas; intros m fr HI Hm.
  2: { exists ∅. split; [done|]. apply wp_ret. by repeat case_match. }
  rewrite gmultiset_disj_union_left_id in HI.
  exists (∅ ⊎ {[+ Ini 0 b s +]}). split.
  { rewrite <- (gmultiset_disj_union_assoc ∅), gmultiset_disj_union_left_id. by apply finv_start. }
  clear m fr HI Hm. apply wp_bind, (wp_confined (fun l => exists k, l = Talc k)); [|apply claim_confined|].
  { intros m l v r [k ->]. apply finv_talc. }
  assert (Hpoison : forall A (x : A) (Φ : A -> toks -> Prop), Φ x {[+ Bad +]} ->
    wp finv (do! poison_on_drop true ;; Ret x) (∅ ⊎ {[+ Ini 0 b s +]}) Φ).
  { intros A x Φ HΦ. apply wp_bind, wp_store. intros m fr HI. exists {[+ Bad +]}.
    split; [by eapply finv_poison | done]. }
  intros [[e|]|]; [|by apply Hpoison..]. destruct (Z.eqb_spec e (b + s)); cbn [negb]; [|by apply Hpoison].
  apply wp_bind, wp_store. intros m fr HI. exists (∅ ⊎ {[+ Ini 1 b s +]}).
  split; [by apply (finv_write m 0 b s fr HI)|].
  apply wp_bind, wp_store. clear m fr HI. intros m fr HI. exists (∅ ⊎ {[+ Ini 2 b s +]}).
  split; [by apply (finv_write m 1 b s fr HI)|].
  apply wp_bind, wp_store. clear m fr HI. intros m fr HI. exists ({[+ Won +]} ⊎ {[+ Rdy b s +]}).
  split; [by apply finv_publish|]. apply wp_bind, wp_ret, wp_ret. done.
Qed.

Lemma attach_fixed_spec b s : wp finv (attach b s) ∅ (fun x r =>
  match x with Ok _ => 1 <= mult (Rdy b s) r | Err _ => True end).
Proof.
  unfold attach. destruct (validate_region b s) as [e|e]; [|done].
  apply wp_bind, wp_load. intros m fr HI. rewrite gmultiset_disj_union_left_id in HI.
  destruct (Z.eqb_spec (m FState) READY) as [Hm|Hm].
  2: { exists ∅. rewrite gmultiset_disj_union_left_id. split; [done|]. by repeat case_match. }
  set (b0 := m FBase). set (s0 := m FSize).
  exists {[+ Rdy b0 s0 +]}. split; [by apply finv_learn|]. rewrite Hm.
  change (READY =? UNINITIALIZED) with false. change (READY =? INITIALIZING) with false. cbn iota.
  clearbody b0 s0. clear m fr HI Hm.
  assert (Hr : 1 <= mult (Rdy b0 s0) {[+ Rdy b0 s0 +]}) by (by rewrite mult_single, decide_True).
  apply wp_bind, wp_load. intros m fr HI. exists {[+ Rdy b0 s0 +]}. split; [done|].
  destruct (finv_ready m _ b0 s0 HI (rdy_union _ _ _ _ Hr)) as (_ & -> & _).
  apply wp_bind, wp_load. clear m fr HI. intros m fr HI. exists {[+ Rdy b0 s0 +]}. split; [done|].
  destruct (finv_ready m _ b0 s0 HI (rdy_union _ _ _ _ Hr)) as (_ & _ & -> & _).
  destruct (Z.eqb_spec b b0) as [->|], (Z.eqb_spec s s0) as [->|]; cbn [negb orb]; by apply wp_ret.
Qed.

Lemma fplay_spec x : wp finv (fplay claim x) ∅ fverdict_post.
Proof.
  destruct x as [b s|b s]; cbn [fplay].
  - apply wp_bind. eapply wp_mono, initialize_fixed_spec.
    assert (Hbad : forall r : toks, r = {[+ Bad +]} -> fverdict_post Broken r).
    { intros r ->. cbn [fverdict_post]. by rewrite mult_single, decide_True. }
    intros [[[]|e]|] r Hr; [|destruct e; (apply wp_ret; auto; done) || idtac|by apply wp_ret, Hbad].
    subst r. apply wp_bind, (handle_region_spec b s).
    + rewrite mult_union, !mult_single, decide_False, decide_True by done. lia.
    + unfold answer. cbn [FixedAllocator.region_base FixedAllocator.region_size].
      rewrite !Z.eqb_refl. apply wp_ret. split; [|intros _]; rewrite mult_union, !mult_single.
      * rewrite decide_False, decide_True by done. lia.
      * rewrite decide_True, decide_False by done. lia.
  - apply wp_bind. eapply wp_mono, attach_fixed_spec. intros [[]|e] r Hr; [|done].
    apply wp_bind, (handle_region_spec b s); [done|]. unfold answer.
    cbn [FixedAllocator.region_base FixedAllocator.region_size]. rewrite !Z.eqb_refl. by apply wp_ret.
Qed.

Lemma region_ok_facts b s : region_ok b s ->
  b <> 0 /\ b mod REGION_ALIGNMENT = 0 /\ s mod REGION_ALIGNMENT = 0 /\ MIN_REGION_SIZE <= s /\
  (b + s <= control_address \/ control_address + size_of_control <= b).
Proof.
  unfold region_ok, validate_region. intros Hv. ok_inv Hv.
  repeat match goal with X : ok_or (checked_add _ _ _) _ = Ok _ |- _ =>
    apply ok_or_ok, checked_add_some in X as [-> _] end.
  rewrite ?andb_false_iff, ?negb_false_iff, ?Z.eqb_eq, ?Z.eqb_neq, ?Z.ltb_ge in *.
  split_and!; try done; lia.
Qed.

Lemma finv_bad m r : finv m r -> 1 <= mult Bad r -> m FState = POISONED.
Proof.
  intros (o & _ & Hs) Hr. inversion Hs as [_ (_ & _ & Hq)|? ? ? _ (_ & _ & Hq)|? ? ? ? Hq|]; subst; try done; lia.
Qed.

Lemma finv_won m r : finv m r -> mult Won r <= 1.
Proof.
  intros (o & _ & Hs). inversion Hs as [_ (_ & Hq & _)|? ? ? _ (_ & Hq & _)| |]; subst; lia.
Qed.

Lemma finv_new : finv new ∅.
Proof.
  exists None. split; [intros k b s; by rewrite mult_empty|]. apply fs_new; [done|].
  unfold quiet. by rewrite !mult_empty.
Qed.

Lemma fixed_pool roles m ts : rtc pstep (new, fplay claim <$> roles) (m, ts) ->
  pool_ok finv fverdict_post (m, ts).
Proof.
  intros Hs. eapply pool_adequacy, pool_ok_start; [exact Hs | apply finv_new |].
  apply Forall_fmap, Forall_true. intros x. apply fplay_spec.
Qed.
End Verify.

(** C14.  Initializers and attachers race on one control object, and the claim of Talc
    may fail, fall short or unwind.  A handle never panics and shows exactly the
    region its caller asked for; at any later moment every handle's region is the one
    published region, which is valid and clear of the control object; at most one
    initializer publishes; after a failed claim the object is poisoned for good. *)
Theorem fixed_region_published `{Target} `{FixedBuild} {K} `{EqDecision K}
    (claim : Z -> Z -> prog (fcell K) (unwind (option Z))) roles m ts :
  (forall b s, confined (fun l => exists k, l = Talc k) (claim b s)) ->
  rtc pstep (new, fplay claim <$> roles) (m, ts) ->
  (forall i, ts !! i <> Some Panic) /\
  (forall i w b s, ts !! i = Some (Ret (Handle w b s)) ->
     m FState = READY /\ m FBase = b /\ m FSize = s /\
     b <> 0 /\ b mod REGION_ALIGNMENT = 0 /\ s mod REGION_ALIGNMENT = 0 /\ MIN_REGION_SIZE <= s /\
     (b + s <= control_address \/ control_address + size_of_control <= b)) /\
  (forall i, ts !! i = Some (Ret Broken) -> m FState = POISONED) /\
  (forall i j b s b' s', ts !! i = Some (Ret (Handle true b s)) ->
     ts !! j = Some (Ret (Handle true b' s')) -> i = j).
Proof.
  intros Hc Hs. pose proof (fixed_pool claim Hc roles m ts Hs) as Hok. split_and!.
  - intros i. by eapply (pool_no_panic _ _ (m, ts) (m, ts)).
  - intros i w b s Hi. destruct (pool_result _ _ _ _ _ Hok Hi) as (r & fr & [Hr _] & HI).
    destruct (finv_ready _ _ b s HI (rdy_union _ _ _ _ Hr)) as (? & ? & ? & Hreg).
    by pose proof (region_ok_facts _ _ Hreg).
  - intros i Hi. destruct (pool_result _ _ _ _ _ Hok Hi) as (r & fr & Hr & HI).
    apply (finv_bad _ _ HI). rewrite mult_union. pose proof (mult_nonneg Bad fr). cbn in Hr. lia.
  - intros i j b s b' s' Hi Hj. destruct (decide (i = j)) as [|Hij]; [done|].
    destruct (pool_two_results _ _ _ _ _ _ _ Hok Hij Hi Hj) as (r & r' & fr & [_ Hr] & [_ Hr'] & HI).
    apply finv_won in HI. rewrite !mult_union in HI. pose proof (mult_nonneg Won fr).
    specialize (Hr eq_refl). specialize (Hr' eq_refl). lia.
Qed.

#[local] Instance demo_build : FixedBuild :=
  {| CHUNK_UNIT := 32; min_first_heap_size := 1000; size_of_control := 256; control_address := 4096 |}.

(** A claim that records its region in one word, and may fail. *)
Definition demo_claim (base size : Z) : prog (fcell unit) (unwind (option Z)) :=
  do! store (Talc tt) base ;;
  Choose (fun fails : bool => Ret (Returned (if fails then None else Some (base + size)))).

Definition fixed_demo : (fcell unit -> Z) * list (prog (fcell unit) fverdict) :=
  run_schedule (new, fplay demo_claim <$>
      [Initializer 65536 4096; Attacher 65536 4096; Initializer 65536 8192; Attacher 65536 4096])
    (replicate 2 0%nat ++ replicate 2 1%nat ++ replicate 2 2%nat ++ replicate 9 0%nat ++ replicate 9 3%nat).

Lemma fixed_region_published_witness :
  fixed_demo.2 = Ret <$> [Handle true 65536 4096; Refused InitializationInProgress;
                          Refused InitializationInProgress; Handle false 65536 4096] /\
  fixed_demo.1 FState = READY /\ fixed_demo.1 FBase = 65536 /\ fixed_demo.1 FSize = 4096.
Proof.
  split; [vm_compute; reflexivity|].
  destruct (fixed_region_published demo_claim
    [Initializer 65536 4096; Attacher 65536 4096; Initializer 65536 8192; Attacher 65536 4096]
    fixed_demo.1 fixed_demo.2) as (_ & Hh & _).
  - intros b s. cbn. split; [by exists tt|]. done.
  - rewrite <- surjective_pairing. unfold fixed_demo. apply run_schedule_steps.
  - destruct (Hh 3%nat false 65536 4096) as (H1 & H2 & H3 & _); [vm_compute; reflexivity|].
    exact (conj H1 (conj H2 H3)).
Defined.

(** ** The handles and Talc's contract *)

#[export] Instance layout_countable : Countable FixedAllocator.Layout.
Proof.
  apply (inj_countable' (fun l => (lsize l, lalign l)) (fun x => {| lsize := x.1; lalign := x.2 |})).
  by intros [].
Defined.

(** The outcome of a request for [l]: a block that is large enough and aligned joins
    [rest], or the live blocks stay [kept]. *)
Definition granted {S} (live : S -> gmultiset (Z * FixedAllocator.Layout)) (l : FixedAllocator.Layout)
    (rest kept : gmultiset (Z * FixedAllocator.Layout)) (x : option (Z * Z) * S) : Prop :=
  match x.1 with
  | Some (p, n) => live x.2 = {[+ (p, l) +]} ⊎ rest /\ lsize l <= n /\ p mod lalign l = 0
  | None => live x.2 = kept
  end.

(** What Talc promises, for requests of at least one byte and for blocks that are
    live with the layout they were allocated with; of other calls nothing is known. *)
Class TalcSpec {S} (talc : TalcOps S) := {
  live : S -> gmultiset (Z * FixedAllocator.Layout);
  spec_allocate l s : 0 < lsize l -> granted live l (live s) (live s) (talc_allocate talc l s);
  spec_allocate_zeroed l s : 0 < lsize l ->
    granted live l (live s) (live s) (talc_allocate_zeroed talc l s);
  spec_deallocate p l s rest : 0 < lsize l -> live s = {[+ (p, l) +]} ⊎ rest ->
    live (talc_deallocate talc p l s) = rest;
  spec_grow p l l' s rest : 0 < lsize l <= lsize l' -> live s = {[+ (p, l) +]} ⊎ rest ->
    granted live l' rest (live s) (talc_grow talc p l l' s);
  spec_grow_zeroed p l l' s rest : 0 < lsize l <= lsize l' -> live s = {[+ (p, l) +]} ⊎ rest ->
    granted live l' rest (live s) (talc_grow_zeroed talc p l l' s);
  spec_shrink p l l' s rest : 0 < lsize l' <= lsize l -> live s = {[+ (p, l) +]} ⊎ rest ->
    granted live l' rest (live s) (talc_shrink talc p l l' s)
}.

(** A client of a handle: it keeps its blocks and asks for what the [Allocator] trait
    allows, zero-sized layouts included. *)
Record block := { bptr : Z; blen : Z; blayout : FixedAllocator.Layout }.

Inductive command :=
| Allocate (zeroed : bool) (l : FixedAllocator.Layout)
| Deallocate (i : nat)
| Grow (zeroed : bool) (i : nat) (l : FixedAllocator.Layout)
| Shrink (i : nat) (l : FixedAllocator.Layout).

Section Client.
Context {S : Type} (talc : TalcOps S).

Definition receive (x : option (Z * Z) * S) (l : FixedAllocator.Layout) (old rest : list block) :
    list block * S :=
  match x.1 with
  | Some (p, n) => ({| bptr := p; blen := n; blayout := l |} :: rest, x.2)
  | None => (old, x.2)
  end.

Definition obey (c : list block * S) (x : command) : list block * S :=
  let '(bs, s) := c in
  match x with
  | Allocate zeroed l =>
      if 0 <=? lsize l
      then receive ((if zeroed then allocate_zeroed else allocate) talc l s) l bs bs else c
  | Deallocate i =>
      match bs !! i with
      | Some b => (delete i bs, deallocate talc (bptr b) (blayout b) s)
      | None => c
      end
  | Grow zeroed i l =>
      match bs !! i with
      | Some b =>
          if lsize (blayout b) <=? lsize l
          then receive ((if zeroed then grow_zeroed else grow) talc (bptr b) (blayout b) l s) l bs (delete i bs)
          else c
      | None => c
      end
  | Shrink i l =>
      match bs !! i with
      | Some b =>
          if (0 <=? lsize l) && (lsize l <=? lsize (blayout b))
          then receive (shrink talc (bptr b) (blayout b) l s) l bs (delete i bs) else c
      | None => c
      end
  end.

Definition run_commands (xs : list command) (s : S) : list block * S := foldl obey ([], s) xs.
End Client.

(** The blocks of the client that Talc must know: those of at least one byte. *)
Definition owed (bs : list block) : gmultiset (Z * FixedAllocator.Layout) :=
  list_to_set_disj ((fun b => (bptr b, blayout b)) <$> filter (fun b => lsize (blayout b) <> 0) bs).

Definition block_ok (b : block) : Prop :=
  0 <= lsize (blayout b) <= blen b /\ bptr b mod lalign (blayout b) = 0.

Section Contract.
Context {S : Type} (talc : TalcOps S) `{!TalcSpec talc}.

Definition tracks (c : list block * S) : Prop := live c.2 = owed c.1 /\ Forall block_ok c.1.

Definition owed1 (p : Z) (l : FixedAllocator.Layout) : gmultiset (Z * FixedAllocator.Layout) :=
  if decide (lsize l <> 0) then {[+ (p, l) +]} else ∅.

Lemma owed_cons b bs : owed (b :: bs) = owed1 (bptr b) (blayout b) ⊎ owed bs.
Proof.
  unfold owed, owed1. rewrite filter_cons. case_decide.
  - by rewrite fmap_cons, list_to_set_disj_cons.
  - by rewrite gmultiset_disj_union_left_id.
Qed.

Lemma owed_delete bs i b : bs !! i = Some b ->
  owed bs = owed1 (bptr b) (blayout b) ⊎ owed (delete i bs).
Proof.
  intros Hi. rewrite <- owed_cons. unfold owed.
  apply list_to_set_disj_perm, fmap_Permutation, filter_Permutation. by apply delete_Permutation.
Qed.

(** The handle's version of [granted], for every size. *)
Definition served (l : FixedAllocator.Layout) (rest kept : gmultiset (Z * FixedAllocator.Layout))
    (x : option (Z * Z) * S) : Prop :=
  match x.1 with
  | Some (p, n) => live x.2 = owed1 p l ⊎ rest /\ lsize l <= n /\ p mod lalign l = 0
  | None => live x.2 = kept
  end.

Lemma granted_served l rest kept x : 0 < lsize l -> granted live l rest kept x -> served l rest kept x.
Proof.
  intros Hl. unfold served, granted, owed1. destruct x as [[[p n]|] s]; cbn [fst snd]; [|done].
  by rewrite decide_True by lia.
Qed.

Lemma dangling_served l kept s : lsize l = 0 -> served l (live s) kept (Some (dangling_slice l), s).
Proof.
  intros Hl. unfold served, owed1. cbn. rewrite decide_False by lia.
  by rewrite gmultiset_disj_union_left_id, Z_mod_same_full, Hl.
Qed.

Lemma allocate_served (zeroed : bool) l s : 0 <= lsize l ->
  served l (live s) (live s) ((if zeroed then allocate_zeroed else allocate) talc l s).
Proof.
  intros Hl. destruct zeroed; unfold allocate, allocate_zeroed; destruct (Z.eqb_spec (lsize l) 0);
    try (by apply dangling_served); apply granted_served; try lia;
    [apply spec_allocate_zeroed | apply spec_allocate]; lia.
Qed.

Lemma grow_served (zeroed : bool) p l l' s rest : 0 <= lsize l <= lsize l' ->
  live s = owed1 p l ⊎ rest ->
  served l' rest (live s) ((if zeroed then grow_zeroed else grow) talc p l l' s).
Proof.
  intros Hl Hs. unfold owed1 in Hs. destruct (Z.eqb_spec (lsize l) 0) as [H0|H0].
  - rewrite decide_False, gmultiset_disj_union_left_id in Hs by lia. rewrite <- Hs.
    pose proof (allocate_served zeroed l' s ltac:(lia)) as Ha.
    destruct zeroed; unfold grow, grow_zeroed; by rewrite H0.
  - rewrite decide_True in Hs by done. apply Z.eqb_neq in H0 as Hb.
    destruct zeroed; unfold grow, grow_zeroed; rewrite Hb; apply granted_served; try lia;
      [apply spec_grow_zeroed | apply spec_grow]; auto with lia.
Qed.

Lemma deallocate_live p l s rest : 0 <= lsize l -> live s = owed1 p l ⊎ rest ->
  live (deallocate talc p l s) = rest.
Proof.
  intros Hl Hs. unfold owed1 in Hs. unfold deallocate. destruct (Z.eqb_spec (lsize l) 0); cbn [negb].
  - by rewrite decide_False, gmultiset_disj_union_left_id in Hs by lia.
  - rewrite decide_True in Hs by done. apply spec_deallocate; [lia | done].
Qed.

Lemma shrink_served p l l' s rest : 0 <= lsize l' <= lsize l -> live s = owed1 p l ⊎ rest ->
  served l' rest (live s) (shrink talc p l l' s).
Proof.
  intros Hl Hs. unfold shrink. destruct (Z.eqb_spec (lsize l') 0) as [H0|H0].
  - change (if negb (lsize l =? 0) then _ else _) with (deallocate talc p l s).
    rewrite <- (deallocate_live p l s rest) by (done || lia). by apply dangling_served.
  - unfold owed1 in Hs. rewrite decide_True in Hs by lia.
    apply granted_served; [lia|]. apply spec_shrink; [lia | done].
Qed.

Lemma receive_tracks x l old rest : 0 <= lsize l -> served l (owed rest) (owed old) x ->
  Forall block_ok old -> Forall block_ok rest -> tracks (receive x l old rest).
Proof.
  unfold served, receive, tracks. destruct x as [[[p n]|] s]; cbn [fst snd]; [|done].
  intros Hl (Hs & Hn & Hp) _ Hrest. rewrite owed_cons. split; [done|].
  constructor; [|done]. by repeat split.
Qed.

Lemma obey_tracks c x : tracks c -> tracks (obey talc c x).
Proof.
  destruct c as [bs s]. intros [Hs Hb]. cbn [fst snd] in Hs, Hb.
  assert (Hat : forall i b, bs !! i = Some b -> 0 <= lsize (blayout b) /\
    live s = owed1 (bptr b) (blayout b) ⊎ owed (delete i bs) /\ Forall block_ok (delete i bs)).
  { intros i b Hi. split_and!; [by apply (Forall_lookup_1 _ _ _ _ Hb Hi) | by rewrite Hs; apply owed_delete |].
    by apply Forall_delete. }
  destruct x as [z l|i|z i l|i l]; cbn [obey].
  - destruct (Z.leb_spec 0 (lsize l)); [|done]. apply receive_tracks; try done.
    rewrite <- Hs. by apply allocate_served.
  - destruct (bs !! i) as [b|] eqn:Hi; [|done]. destruct (Hat i b Hi) as (H0 & H1 & H2).
    split; [by apply deallocate_live | done].
  - destruct (bs !! i) as [b|] eqn:Hi; [|done]. destruct (Hat i b Hi) as (H0 & H1 & H2).
    destruct (Z.leb_spec (lsize (blayout b)) (lsize l)); [|done].
    apply receive_tracks; try done; [lia|]. rewrite <- Hs. by apply grow_served.
  - destruct (bs !! i) as [b|] eqn:Hi; [|done]. destruct (Hat i b Hi) as (H0 & H1 & H2).
    destruct (Z.leb_spec 0 (lsize l)), (Z.leb_spec (lsize l) (lsize (blayout b))); try done.
    apply receive_tracks; try done. rewrite <- Hs. by apply shrink_served.
Qed.
End Contract.

(** A handle keeps Talc's contract for its client: over every sequence of
    allocations, growths, shrinks and frees that the [Allocator] trait allows,
    zero-sized layouts and failures included, the blocks Talc has live are exactly the
    client's blocks of at least one byte, with their current layouts, and every block
    the client holds is large enough and aligned. *)
Theorem handle_keeps_contract {S} (talc : TalcOps S) `{!TalcSpec talc} xs s :
  live s = ∅ ->
  let '(bs, s') := run_commands talc xs s in live s' = owed bs /\ Forall block_ok bs.
Proof.
  intros Hs. assert (Hrun : tracks talc (run_commands talc xs s)).
  { unfold run_commands. assert (Hc : tracks talc ([], s)) by (split; [done | constructor]).
    revert Hc. generalize ([] : list block, s). induction xs as [|x xs IH]; intros c Hc; [done|].
    apply IH. by apply obey_tracks. }
  by destruct (run_commands talc xs s).
Qed.

(** A bump allocator that forgets everything when it is asked for no bytes. *)
Definition bump : Type := Z * gmultiset (Z * FixedAllocator.Layout).
Definition bump_place (l : FixedAllocator.Layout) (rest : gmultiset (Z * FixedAllocator.Layout)) (s : bump) :
    option (Z * Z) * bump :=
  if lsize l <=? 0 then (None, (0, ∅))
  else if 4096 <? s.1 + lsize l + lalign l then (None, s)
  else let p := (s.1 / lalign l + 1) * lalign l in
    (Some (p, lsize l), (p + lsize l, {[+ (p, l) +]} ⊎ rest)).
Definition bump_ops : TalcOps bump := {|
  talc_allocate l s := bump_place l s.2 s;
  talc_allocate_zeroed l s := bump_place l s.2 s;
  talc_deallocate p l s := (s.1, s.2 ∖ {[+ (p, l) +]});
  talc_grow p l l' s := bump_place l' (s.2 ∖ {[+ (p, l) +]}) s;
  talc_grow_zeroed p l l' s := bump_place l' (s.2 ∖ {[+ (p, l) +]}) s;
  talc_shrink p l l' s := bump_place l' (s.2 ∖ {[+ (p, l) +]}) s
|}.

Lemma bump_granted l rest s : 0 < lsize l -> granted snd l rest s.2 (bump_place l rest s).
Proof.
  intros Hl. unfold bump_place. destruct (Z.leb_spec (lsize l) 0); [lia|].
  case_match; [done|]. cbn. split_and!; [done | lia | apply Z_mod_mult].
Qed.

#[export] Instance bump_spec : TalcSpec bump_ops.
Proof.
  assert (Hdel : forall (p : Z) (l : FixedAllocator.Layout) (s : bump) rest,
    s.2 = {[+ (p, l) +]} ⊎ rest -> s.2 ∖ {[+ (p, l) +]} = rest).
  { intros p l s rest ->. multiset_solver. }
  refine {| live := snd : bump -> _ |}; cbn.
  - intros l s. apply bump_granted.
  - intros l s. apply bump_granted.
  - intros p l s rest _. apply Hdel.
  - intros p l l' s rest Hl Hs. rewrite (Hdel p l s rest Hs). apply bump_granted. lia.
  - intros p l l' s rest Hl Hs. rewrite (Hdel p l s rest Hs). apply bump_granted. lia.
  - intros p l l' s rest Hl Hs. rewrite (Hdel p l s rest Hs). apply bump_granted. lia.
Defined.

Definition bump_demo : list block * bump :=
  run_commands bump_ops
    [Allocate false {| lsize := 0; lalign := 8 |}; Grow true 0 {| lsize := 24; lalign := 8 |};
     Allocate true {| lsize := 16; lalign := 16 |}; Shrink 1 {| lsize := 0; lalign := 8 |};
     Allocate false {| lsize := 9000; lalign := 8 |}] (0, ∅).

Lemma handle_keeps_contract_witness :
  bptr <$> bump_demo.1 = [8; 48] /\ live bump_demo.2 = owed bump_demo.1 /\ Forall block_ok bump_demo.1.
Proof.
  split; [vm_compute; reflexivity|].
  pose proof (handle_keeps_contract bump_ops
    [Allocate false {| lsize := 0; lalign := 8 |}; Grow true 0 {| lsize := 24; lalign := 8 |};
     Allocate true {| lsize := 16; lalign := 16 |}; Shrink 1 {| lsize := 0; lalign := 8 |};
     Allocate false {| lsize := 9000; lalign := 8 |}] (0, ∅) eq_refl) as Hrun.
  unfold bump_demo. by destruct (run_commands _ _ _).
Defined.
