(* ===== verification/PodApi.v ===== *)
(** Method tables of executable pods: [shmem_exec_obj/v2/src/pod_api.rs]. *)

From S2P Require Import Prelude.

Inductive MethodSignature :=
| NoArgsU64 | StateU64Status | StateU64U64Status | StateU64OutU64Status | StateU64.
#[export] Instance method_signature_eq_dec : EqDecision MethodSignature.
Proof. solve_decision. Defined.

(** The discriminants of the [repr(u16)] enum. *)
Definition signature_code (s : MethodSignature) : Z :=
  match s with
  | NoArgsU64 => 1 | StateU64Status => 2 | StateU64U64Status => 3
  | StateU64OutU64Status => 4 | StateU64 => 5
  end.

Definition from_u16 (value : Z) : option MethodSignature :=
  if value =? 1 then Some NoArgsU64
  else if value =? 2 then Some StateU64Status
  else if value =? 3 then Some StateU64U64Status
  else if value =? 4 then Some StateU64OutU64Status
  else if value =? 5 then Some StateU64
  else None.

Record MethodSpec := { spec_id : Z; spec_signature : MethodSignature; symbol : list Z }.

Record PodApiDescriptor := {
  namespace : list Z;
  fingerprint : Z;
  api_methods : list MethodSpec
}.

Inductive BindError :=
| MissingMethod (id : Z)
| SignatureMismatch (id : Z) (expected actual : MethodSignature).

(** All elements of a list are related to the later ones. *)
Definition pairwise {A} (R : A -> A -> Prop) (xs : list A) : Prop :=
  forall i j x y, (i < j)%nat -> xs !! i = Some x -> xs !! j = Some y -> R x y.

Lemma pairwise_nil {A} (R : A -> A -> Prop) : pairwise R [].
Proof. by intros i j x y _. Qed.

Lemma pairwise_cons {A} (R : A -> A -> Prop) x xs :
  pairwise R (x :: xs) <-> Forall (R x) xs /\ pairwise R xs.
Proof.
  split.
  - intros Hp. split.
    + apply Forall_lookup. intros j y Hj. by apply (Hp 0%nat (S j)); [lia|..].
    + intros i j y z Hij Hi Hj. by apply (Hp (S i) (S j)); [lia|..].
  - intros [Hx Hp] [|i] [|j] y z Hij Hi Hj; cbn in *; [lia| |lia|].
    + simplify_eq. by apply (Forall_lookup_1 _ _ _ _ Hx Hj).
    + by apply (Hp i j); [lia|..].
Qed.

(** [slice::binary_search_by_key]: the window [base .. base + size] is halved until
    one element is left, which is then compared. *)
Section BinarySearch.
Context {A : Type} (key : A -> Z).

Fixpoint narrow (fuel : nat) (xs : list A) (k : Z) (base size : nat) : nat :=
  match fuel with
  | O => base
  | S fuel =>
      if Nat.ltb 1 size then
        let half := Nat.div2 size in
        let mid := (base + half)%nat in
        let base := match xs !! mid with
                    | Some x => if k <? key x then base else mid
                    | None => base
                    end in
        narrow fuel xs k base (size - half)%nat
      else base
  end.

Definition binary_search_by_key (xs : list A) (k : Z) : option nat :=
  if Nat.eqb (length xs) 0 then None
  else
    let base := narrow (length xs) xs k 0 (length xs) in
    match xs !! base with
    | Some x => if key x =? k then Some base else None
    | None => None
    end.

(** [binary_search_by_key(..).ok().map(|index| &xs[index])] *)
Definition find_by_key (xs : list A) (k : Z) : option A :=
  match binary_search_by_key xs k with Some i => xs !! i | None => None end.

Definition ascending (xs : list A) : Prop := pairwise (fun x y => key x < key y) xs.

Lemma ascending_index xs i j x y : ascending xs -> xs !! i = Some x -> xs !! j = Some y ->
  key x <= key y -> (i <= j)%nat.
Proof.
  intros Ha Hi Hj Hle. destruct (decide (j < i)%nat) as [Hlt|]; [|lia].
  specialize (Ha j i y x Hlt Hj Hi). cbn beta in Ha. lia.
Qed.

(** The window keeps the position of the key. *)
Lemma narrow_finds xs k fuel base size p x : ascending xs -> xs !! p = Some x -> key x = k ->
  (base <= p < base + size)%nat -> (base + size <= length xs)%nat -> (size <= fuel + 1)%nat ->
  narrow fuel xs k base size = p.
Proof.
  intros Ha Hp Hk. revert base size. induction fuel as [|fuel IH]; intros base size Hin Hlen Hf.
  - cbn. lia.
  - cbn [narrow]. destruct (Nat.ltb_spec 1 size) as [H1|H1]; [|lia].
    pose proof (Nat.div2_odd size) as Hd.
    assert (0 < Nat.div2 size < size)%nat by (destruct (Nat.odd size); cbn in Hd; lia).
    destruct (lookup_lt_is_Some_2 xs (base + Nat.div2 size)) as [y Hy]; [lia|]. rewrite Hy.
    destruct (Z.ltb_spec k (key y)).
    + apply IH; try lia. split; [lia|].
      destruct (decide (p < base + Nat.div2 size)%nat) as [|Hge]; [lia|].
      destruct (decide (p = base + Nat.div2 size)%nat) as [->|Hne]; [simplify_eq; lia|].
      specialize (Ha (base + Nat.div2 size)%nat p y x ltac:(lia) Hy Hp). cbn beta in Ha. lia.
    + apply IH; try lia. split; [|lia]. eapply (ascending_index xs); eauto. lia.
Qed.

(** On a table with ascending keys the search finds exactly the entries. *)
Lemma find_by_key_spec xs k x : ascending xs -> find_by_key xs k = Some x <-> x ∈ xs /\ key x = k.
Proof.
  intros Ha. unfold find_by_key, binary_search_by_key. split.
  - destruct (Nat.eqb_spec (length xs) 0); [done|]. cbv zeta.
    destruct (xs !! narrow _ _ _ _ _) as [y|] eqn:Hy; [|done].
    destruct (Z.eqb_spec (key y) k); [|done]. rewrite Hy. intros [= ->].
    split; [|done]. by eapply list_elem_of_lookup_2.
  - intros [Hin Hk]. apply list_elem_of_lookup_1 in Hin as [p Hp].
    pose proof (lookup_lt_Some _ _ _ Hp) as Hlt. destruct (Nat.eqb_spec (length xs) 0); [lia|]. cbv zeta.
    rewrite (narrow_finds xs k (length xs) 0 (length xs) p x) by (done || lia).
    by rewrite Hp, Hk, Z.eqb_refl.
Qed.
End BinarySearch.

(** [PodApiDescriptor::method] *)
Definition api_method (api : PodApiDescriptor) (id : Z) : option MethodSpec :=
  find_by_key spec_id (api_methods api) id.

(** ** Fingerprints of APIs: the helpers of the [pod] macro *)

Definition API_FINGERPRINT_SEED : Z := 0x95e478fca75b196725b396a2b04df711.

Definition mix_u128 (state value : Z) : Z :=
  wrapping_mul 128
    (wrapping_add 128 (rotate_left 128 state 31) (Z.lxor value 0x517cc1b727220a956eed0e9da4d94a4f))
    0x0000000001000000000000000000013b.

Definition mix_bytes (state : Z) (bytes : list Z) : Z :=
  mix_u128 (foldl mix_u128 state bytes) (Z.of_nat (length bytes)).

Definition finish (state : Z) : Z :=
  let state := Z.lxor state (Z.shiftr state 43) in
  let state := wrapping_mul 128 state 0x9e3779b97f4a7c156eed0e9da4d94a4f in
  Z.lxor state (Z.shiftr state 57).

Lemma from_u16_code s : from_u16 (signature_code s) = Some s.
Proof. by destruct s. Qed.

Lemma from_u16_some x s : from_u16 x = Some s <-> x = signature_code s.
Proof.
  split; [|intros ->; apply from_u16_code]. unfold from_u16. zb_case; subst; intros; by simplify_eq.
Qed.
