(* ===== verification/Image.v ===== *)
(** The header of an executable pod image: [shmem_exec_obj/v2/poc/api/src/lib.rs].

    A header is one page: identities, extents, requirements and the method table.
    An error message is a constructor of [HeaderError].  The fixed fields that
    [decode] reads lie below [METHOD_TABLE_OFFSET], and the entries of the table
    inside the page by the check of its extent, so no access is out of range. *)

From S2P Require Import Prelude PodApi.

(** [*b"SHPODI2\0"] *)
Definition IMAGE_MAGIC : list Z := b_str "SHPODI2" ++ [0].
Definition IMAGE_VERSION : Z := 2.
Definition IMAGE_ABI_REVISION : Z := 2.
Definition HEADER_SIZE : Z := 4096.
Definition PAGE_SIZE : Z := 4096.
Definition METHOD_ENTRY_SIZE : Z := 32.
Definition METHOD_TABLE_OFFSET : Z := 320.
Definition MAX_METHODS : Z := (HEADER_SIZE - METHOD_TABLE_OFFSET) / METHOD_ENTRY_SIZE.
Definition TARGET_OS_LINUX : Z := 1.
Definition TARGET_ARCH_X86_64 : Z := 0x3e.
Definition ENDIAN_LITTLE : Z := 1.
Definition POINTER_WIDTH_64 : Z := 64.
Definition STATE_ENVELOPE_SIZE : Z := PAGE_SIZE.
Definition DEFAULT_PAYLOAD_LEN : Z := 1024 * 1024.
Definition DEFAULT_STATE_FILE_LEN : Z := STATE_ENVELOPE_SIZE + DEFAULT_PAYLOAD_LEN.
Definition CAP_OFFSET_ARENA : Z := Z.shiftl 1 0.
Definition CAP_REQUIRES_SAME_VA : Z := Z.shiftl 1 1.
Definition CAP_ALLOCATOR_API : Z := Z.shiftl 1 2.
Definition KNOWN_CAPABILITIES : Z :=
  Z.lor (Z.lor CAP_OFFSET_ARENA CAP_REQUIRES_SAME_VA) CAP_ALLOCATOR_API.
Definition HARDENING_W_X : Z := Z.shiftl 1 0.
Definition HARDENING_NX_STATE : Z := Z.shiftl 1 1.
Definition KNOWN_HARDENING : Z := Z.lor HARDENING_W_X HARDENING_NX_STATE.
Definition CPU_X86_64_BASELINE : Z := Z.shiftl 1 0.
Definition KNOWN_CPU_FEATURES : Z := CPU_X86_64_BASELINE.

Record ImageMetadata := {
  api_fingerprint : Z;
  state_fingerprint : Z;
  build_sha256 : list Z;
  provenance_sha256 : list Z;
  required_capabilities : Z;
  optional_capabilities : Z;
  required_hardening : Z;
  required_cpu_features : Z;
  required_state_address : Z
}.

Record MethodEntry := {
  entry_id : Z;
  entry_signature : Z;
  entry_flags : Z;
  entry_offset : Z;
  entry_size : Z;
  entry_alignment : Z;
  entry_reserved : Z
}.

Record ImageHeader := {
  image_len : Z;
  code_offset : Z;
  code_len : Z;
  code_alignment : Z;
  state_file_len : Z;
  payload_offset : Z;
  payload_len : Z;
  state_alignment : Z;
  code_sha256 : list Z;
  metadata : ImageMetadata;
  methods : list MethodEntry
}.

Inductive HeaderError :=
| ImageLengthOverflow
| Truncated
| BadImageMagic
| UnsupportedTargetOrAbi
| InvalidMethodTableOffset
| MethodTableLengthOverflow
| InvalidMethodTableExtent
| NonzeroReservedBytes
| UnsupportedHost
| ApiFingerprintMismatch
| RequiredMethodAbsent (id : Z)
| SignatureDiffersFromBindings (id : Z)
| MethodsOutsideApi
| CodeExtentOverflow
| InvalidCodeExtent
| StateExtentOverflow
| InvalidStateExtent
| ZeroIdentity
| UnknownRequirements
| InvalidRequiredAddress
| RelocatableWithFixedAddress
| InvalidMethodCount
| MethodExtentOverflow (id : Z)
| MalformedMethod (id : Z)
| UnknownSignature (id : Z)
| OverlappingMethods (left right : Z).

Definition decoded_signature (m : MethodEntry) : result MethodSignature HeaderError :=
  ok_or (from_u16 (entry_signature m)) (UnknownSignature (entry_id m)).

Definition all_zero (bytes : list Z) : bool := forallb (fun b => b =? 0) bytes.

(** ** Validation *)

Section Validate.
Context `{Target}.

(** [x as usize] *)
Definition as_usize (x : Z) : Z := wrap usize_bits x.

(** The loop over the methods, with the previous identifier. *)
Fixpoint validate_methods (h : ImageHeader) (previous_id : Z) (ms : list MethodEntry) :
    result unit HeaderError :=
  match ms with
  | [] => Ok tt
  | m :: ms =>
      let? e := ok_or (checked_add 64 (entry_offset m) (entry_size m)) (MethodExtentOverflow (entry_id m)) in
      reject (entry_id m =? 0)
          || (entry_id m <=? previous_id)
          || (entry_offset m <? code_offset h)
          || (entry_size m =? 0)
          || (image_len h <? e)
          || (entry_alignment m =? 0)
          || negb (is_power_of_two (entry_alignment m))
          || (code_alignment h <? entry_alignment m)
          || negb (entry_offset m mod entry_alignment m =? 0)
          || negb (entry_flags m =? 0)
          || negb (entry_reserved m =? 0)
        with MalformedMethod (entry_id m) ;;
      let? _s := decoded_signature m in
      validate_methods h (entry_id m) ms
  end.

(** The inner and the outer loop of the overlap check. *)
Fixpoint apart_from (l : MethodEntry) (ms : list MethodEntry) : result unit HeaderError :=
  match ms with
  | [] => Ok tt
  | r :: ms =>
      let left_end := entry_offset l + entry_size l in
      let right_end := entry_offset r + entry_size r in
      reject (entry_offset l <? right_end) && (entry_offset r <? left_end)
        with OverlappingMethods (entry_id l) (entry_id r) ;;
      apart_from l ms
  end.

Fixpoint validate_disjoint (ms : list MethodEntry) : result unit HeaderError :=
  match ms with
  | [] => Ok tt
  | l :: ms => let? _x := apart_from l ms in validate_disjoint ms
  end.

Definition validate (h : ImageHeader) : result unit HeaderError :=
  let m := metadata h in
  let? code_end := ok_or (checked_add 64 (code_offset h) (code_len h)) CodeExtentOverflow in
  reject negb (as_usize (code_offset h) =? HEADER_SIZE)
      || negb (image_len h =? code_end)
      || (code_len h =? 0)
      || (code_alignment h =? 0)
      || negb (is_power_of_two (code_alignment h))
      || (PAGE_SIZE <? code_alignment h)
    with InvalidCodeExtent ;;
  let? payload_end := ok_or (checked_add 64 (payload_offset h) (payload_len h)) StateExtentOverflow in
  reject negb (as_usize (state_file_len h) =? DEFAULT_STATE_FILE_LEN)
      || negb (as_usize (payload_offset h) =? STATE_ENVELOPE_SIZE)
      || negb (as_usize (payload_len h) =? DEFAULT_PAYLOAD_LEN)
      || negb (payload_end =? state_file_len h)
      || (state_alignment h =? 0)
      || negb (is_power_of_two (state_alignment h))
      || (PAGE_SIZE <? state_alignment h)
    with InvalidStateExtent ;;
  reject all_zero (code_sha256 h)
      || all_zero (build_sha256 m)
      || all_zero (provenance_sha256 m)
      || (api_fingerprint m =? 0)
      || (state_fingerprint m =? 0)
    with ZeroIdentity ;;
  let capabilities := Z.lor (required_capabilities m) (optional_capabilities m) in
  reject (required_capabilities m =? 0)
      || negb (Z.land (required_capabilities m) (optional_capabilities m) =? 0)
      || negb (Z.land (optional_capabilities m) CAP_REQUIRES_SAME_VA =? 0)
      || negb (Z.land capabilities (not_bits 64 KNOWN_CAPABILITIES) =? 0)
      || (required_hardening m =? 0)
      || negb (Z.land (required_hardening m) (not_bits 64 KNOWN_HARDENING) =? 0)
      || (required_cpu_features m =? 0)
      || negb (Z.land (required_cpu_features m) (not_bits 64 KNOWN_CPU_FEATURES) =? 0)
    with UnknownRequirements ;;
  let? _x :=
    (if negb (Z.land capabilities CAP_REQUIRES_SAME_VA =? 0) then
       reject (required_state_address m =? 0)
           || negb (required_state_address m mod PAGE_SIZE =? 0)
         with InvalidRequiredAddress ;; Ok tt
     else
       reject negb (required_state_address m =? 0) with RelocatableWithFixedAddress ;; Ok tt) in
  reject (Z.of_nat (length (methods h)) =? 0) || (MAX_METHODS <? Z.of_nat (length (methods h)))
    with InvalidMethodCount ;;
  let? _x := validate_methods h 0 (methods h) in
  validate_disjoint (methods h).

Definition new (code_len code_alignment : Z) (code_sha256 : list Z) (metadata : ImageMetadata)
    (methods : list MethodEntry) : result ImageHeader HeaderError :=
  let? image_len := ok_or (checked_add usize_bits HEADER_SIZE code_len) ImageLengthOverflow in
  let header := {|
    image_len := image_len; code_offset := HEADER_SIZE; code_len := code_len;
    code_alignment := code_alignment; state_file_len := DEFAULT_STATE_FILE_LEN;
    payload_offset := STATE_ENVELOPE_SIZE; payload_len := DEFAULT_PAYLOAD_LEN;
    state_alignment := PAGE_SIZE; code_sha256 := code_sha256; metadata := metadata;
    methods := methods |} in
  let? _x := validate header in Ok header.

(** ** The methods of a header *)

Definition method (h : ImageHeader) (id : Z) : option MethodEntry :=
  find_by_key entry_id (methods h) id.

Definition flags (h : ImageHeader) : Z :=
  Z.lor (required_capabilities (metadata h)) (optional_capabilities (metadata h)).

Fixpoint bind_methods (h : ImageHeader) (expected : list MethodSpec) : result unit HeaderError :=
  match expected with
  | [] => Ok tt
  | spec :: expected =>
      let? actual := ok_or (method h (spec_id spec)) (RequiredMethodAbsent (spec_id spec)) in
      let? signature := decoded_signature actual in
      reject negb (bool_decide (signature = spec_signature spec))
        with SignatureDiffersFromBindings (spec_id spec) ;;
      bind_methods h expected
  end.

(** [supported_host] is the [cfg!] of the build: 64-bit little-endian x86 Linux. *)
Definition validate_for_host (supported_host : bool) (h : ImageHeader) (expected_api : PodApiDescriptor) :
    result unit HeaderError :=
  let? _x := validate h in
  reject negb supported_host with UnsupportedHost ;;
  reject negb (api_fingerprint (metadata h) =? fingerprint expected_api) with ApiFingerprintMismatch ;;
  let? _x := bind_methods h (api_methods expected_api) in
  reject negb (Nat.eqb (length (methods h)) (length (api_methods expected_api)))
    with MethodsOutsideApi ;;
  Ok tt.

(** ** The wire format *)

(** [put_u16] .. [put_u128] and [get_u16] .. [get_u128], for [n] bytes. *)
Definition put (n : nat) (bytes : list Z) (offset value : Z) : list Z :=
  copy_at (Z.to_nat offset) (to_le_bytes n value) bytes.
Definition get (n : nat) (bytes : list Z) (offset : Z) : Z :=
  of_le_bytes (slice (Z.to_nat offset) (Z.to_nat offset + n) bytes).

Definition encode_method (bytes : list Z) (offset : Z) (m : MethodEntry) : list Z :=
  let bytes := put 4 bytes offset (entry_id m) in
  let bytes := put 2 bytes (offset + 4) (entry_signature m) in
  let bytes := put 2 bytes (offset + 6) (entry_flags m) in
  let bytes := put 8 bytes (offset + 8) (entry_offset m) in
  let bytes := put 4 bytes (offset + 16) (entry_size m) in
  let bytes := put 4 bytes (offset + 20) (entry_alignment m) in
  put 8 bytes (offset + 24) (entry_reserved m).

Fixpoint encode_methods (bytes : list Z) (index : Z) (ms : list MethodEntry) : list Z :=
  match ms with
  | [] => bytes
  | m :: ms =>
      encode_methods (encode_method bytes (METHOD_TABLE_OFFSET + index * METHOD_ENTRY_SIZE) m) (index + 1) ms
  end.

Definition encode_fixed (h : ImageHeader) : list Z :=
  let m := metadata h in
  let bytes := replicate (Z.to_nat HEADER_SIZE) 0 in
  let bytes := copy_at 0 IMAGE_MAGIC bytes in
  let bytes := put 2 bytes 8 IMAGE_VERSION in
  let bytes := copy_at 10 [ENDIAN_LITTLE] bytes in
  let bytes := copy_at 11 [POINTER_WIDTH_64] bytes in
  let bytes := put 4 bytes 12 HEADER_SIZE in
  let bytes := put 2 bytes 16 TARGET_OS_LINUX in
  let bytes := put 2 bytes 18 TARGET_ARCH_X86_64 in
  let bytes := put 4 bytes 20 PAGE_SIZE in
  let bytes := put 2 bytes 24 METHOD_ENTRY_SIZE in
  let bytes := put 2 bytes 26 (Z.of_nat (length (methods h))) in
  let bytes := put 4 bytes 28 IMAGE_ABI_REVISION in
  let bytes := put 8 bytes 32 (image_len h) in
  let bytes := put 8 bytes 40 (code_offset h) in
  let bytes := put 8 bytes 48 (code_len h) in
  let bytes := put 8 bytes 56 (code_alignment h) in
  let bytes := put 8 bytes 64 (state_file_len h) in
  let bytes := put 8 bytes 72 (payload_offset h) in
  let bytes := put 8 bytes 80 (payload_len h) in
  let bytes := put 8 bytes 88 (state_alignment h) in
  let bytes := put 8 bytes 96 (required_state_address m) in
  let bytes := put 8 bytes 104 (required_capabilities m) in
  let bytes := put 8 bytes 112 (optional_capabilities m) in
  let bytes := put 8 bytes 120 (required_hardening m) in
  let bytes := put 8 bytes 128 (required_cpu_features m) in
  let bytes := put 16 bytes 136 (api_fingerprint m) in
  let bytes := put 16 bytes 152 (state_fingerprint m) in
  let bytes := copy_at 168 (code_sha256 h) bytes in
  let bytes := copy_at 200 (provenance_sha256 m) bytes in
  let bytes := copy_at 232 (build_sha256 m) bytes in
  let bytes := put 4 bytes 264 METHOD_TABLE_OFFSET in
  put 4 bytes 268 (Z.of_nat (length (methods h)) * METHOD_ENTRY_SIZE).

Definition encode (h : ImageHeader) : result (list Z) HeaderError :=
  let? _x := validate h in
  Ok (encode_methods (encode_fixed h) 0 (methods h)).

Definition decode_method (bytes : list Z) (offset : Z) : MethodEntry := {|
  entry_id := get 4 bytes offset;
  entry_signature := get 2 bytes (offset + 4);
  entry_flags := get 2 bytes (offset + 6);
  entry_offset := get 8 bytes (offset + 8);
  entry_size := get 4 bytes (offset + 16);
  entry_alignment := get 4 bytes (offset + 20);
  entry_reserved := get 8 bytes (offset + 24) |}.

Fixpoint decode_methods (bytes : list Z) (index : Z) (count : nat) : list MethodEntry :=
  match count with
  | O => []
  | S count =>
      decode_method bytes (METHOD_TABLE_OFFSET + index * METHOD_ENTRY_SIZE)
        :: decode_methods bytes (index + 1) count
  end.

Definition read_header (bytes : list Z) (method_count : Z) : ImageHeader := {|
  image_len := get 8 bytes 32;
  code_offset := get 8 bytes 40;
  code_len := get 8 bytes 48;
  code_alignment := get 8 bytes 56;
  state_file_len := get 8 bytes 64;
  payload_offset := get 8 bytes 72;
  payload_len := get 8 bytes 80;
  state_alignment := get 8 bytes 88;
  code_sha256 := slice 168 200 bytes;
  metadata := {|
    required_state_address := get 8 bytes 96;
    required_capabilities := get 8 bytes 104;
    optional_capabilities := get 8 bytes 112;
    required_hardening := get 8 bytes 120;
    required_cpu_features := get 8 bytes 128;
    api_fingerprint := get 16 bytes 136;
    state_fingerprint := get 16 bytes 152;
    provenance_sha256 := slice 200 232 bytes;
    build_sha256 := slice 232 264 bytes |};
  methods := decode_methods bytes 0 (Z.to_nat method_count) |}.

Definition decode (bytes : list Z) : result ImageHeader HeaderError :=
  reject Z.of_nat (length bytes) <? HEADER_SIZE with Truncated ;;
  reject negb (bool_decide (slice 0 8 bytes = IMAGE_MAGIC)) with BadImageMagic ;;
  reject negb (get 2 bytes 8 =? IMAGE_VERSION)
      || negb (get 1 bytes 10 =? ENDIAN_LITTLE)
      || negb (get 1 bytes 11 =? POINTER_WIDTH_64)
      || negb (as_usize (get 4 bytes 12) =? HEADER_SIZE)
      || negb (get 2 bytes 16 =? TARGET_OS_LINUX)
      || negb (get 2 bytes 18 =? TARGET_ARCH_X86_64)
      || negb (as_usize (get 4 bytes 20) =? PAGE_SIZE)
      || negb (as_usize (get 2 bytes 24) =? METHOD_ENTRY_SIZE)
      || negb (get 4 bytes 28 =? IMAGE_ABI_REVISION)
    with UnsupportedTargetOrAbi ;;
  reject negb (as_usize (get 4 bytes 264) =? METHOD_TABLE_OFFSET) with InvalidMethodTableOffset ;;
  let method_count := as_usize (get 2 bytes 26) in
  let? method_bytes := ok_or (checked_mul usize_bits method_count METHOD_ENTRY_SIZE)
                        MethodTableLengthOverflow in
  reject (method_count =? 0)
      || (MAX_METHODS <? method_count)
      || negb (as_usize (get 4 bytes 268) =? method_bytes)
      || (HEADER_SIZE <? METHOD_TABLE_OFFSET + method_bytes)
    with InvalidMethodTableExtent ;;
  reject negb (all_zero (slice 272 (Z.to_nat METHOD_TABLE_OFFSET) bytes))
      || negb (all_zero (slice (Z.to_nat (METHOD_TABLE_OFFSET + method_bytes)) (Z.to_nat HEADER_SIZE) bytes))
    with NonzeroReservedBytes ;;
  let header := read_header bytes method_count in
  let? _x := validate header in Ok header.
End Validate.
