(* ===== verification/ImageCorrect.v ===== *)
(** Theorems on image headers: what validation accepts, lookup and binding of
    methods, and the canonical encoding. *)

From S2P Require Import Prelude Wire PodApi Image.

(** ** What validation accepts *)

(** The values that the fields of a Rust header can take. *)
Record entry_typed (m : MethodEntry) : Prop := {
  et_id : in_width 32 (entry_id m);
  et_signature : in_width 16 (entry_signature m);
  et_flags : in_width 16 (entry_flags m);
  et_offset : in_width 64 (entry_offset m);
  et_size : in_width 32 (entry_size m);
  et_alignment : in_width 32 (entry_alignment m);
  et_reserved : in_width 64 (entry_reserved m)
}.

Definition digest (bs : list Z) : Prop := Forall byte bs /\ length bs = 32%nat.

Record header_typed (h : ImageHeader) : Prop := {
  ht_image_len : in_width 64 (image_len h);
  ht_code_offset : in_width 64 (code_offset h);
  ht_code_len : in_width 64 (code_len h);
  ht_code_alignment : in_width 64 (code_alignment h);
  ht_state_file_len : in_width 64 (state_file_len h);
  ht_payload_offset : in_width 64 (payload_offset h);
  ht_payload_len : in_width 64 (payload_len h);
  ht_state_alignment : in_width 64 (state_alignment h);
  ht_code_digest : digest (code_sha256 h);
  ht_provenance : digest (provenance_sha256 (metadata h));
  ht_build : digest (build_sha256 (metadata h));
  ht_required : in_width 64 (required_capabilities (metadata h));
  ht_optional : in_width 64 (optional_capabilities (metadata h));
  ht_hardening : in_width 64 (required_hardening (metadata h));
  ht_cpu : in_width 64 (required_cpu_features (metadata h));
  ht_address : in_width 64 (required_state_address (metadata h));
  ht_api : in_width 128 (api_fingerprint (metadata h));
  ht_state : in_width 128 (state_fingerprint (metadata h));
  ht_methods : Forall entry_typed (methods h)
}.

(** A method lies in the code, aligned, and has a known signature. *)
Record entry_ok (h : ImageHeader) (m : MethodEntry) : Prop := {
  eo_range : code_offset h <= entry_offset m /\ entry_offset m + entry_size m <= image_len h;
  eo_size : 0 < entry_size m;
  eo_alignment : (exists k, 0 <= k /\ entry_alignment m = 2 ^ k) /\ entry_alignment m <= code_alignment h;
  eo_aligned : entry_offset m mod entry_alignment m = 0;
  eo_zero : entry_flags m = 0 /\ entry_reserved m = 0;
  eo_signature : exists s, entry_signature m = signature_code s
}.

Definition apart (l r : MethodEntry) : Prop :=
  entry_offset r + entry_size r <= entry_offset l \/ entry_offset l + entry_size l <= entry_offset r.

Definition page_alignment (a : Z) : Prop := exists k, 0 <= k <= 12 /\ a = 2 ^ k.

Record header_ok (h : ImageHeader) : Prop := {
  ho_code : code_offset h = 4096 /\ 0 < code_len h /\ image_len h = 4096 + code_len h;
  ho_code_alignment : page_alignment (code_alignment h);
  ho_state : state_file_len h = 4096 + 1048576 /\ payload_offset h = 4096 /\ payload_len h = 1048576;
  ho_state_alignment : page_alignment (state_alignment h);
  ho_digests : ~ Forall (eq 0) (code_sha256 h) /\ ~ Forall (eq 0) (build_sha256 (metadata h)) /\
    ~ Forall (eq 0) (provenance_sha256 (metadata h));
  ho_fingerprints : api_fingerprint (metadata h) <> 0 /\ state_fingerprint (metadata h) <> 0;
  ho_capabilities : 0 < required_capabilities (metadata h) < 8 /\ optional_capabilities (metadata h) < 8 /\
    Z.land (required_capabilities (metadata h)) (optional_capabilities (metadata h)) = 0 /\
    Z.testbit (optional_capabilities (metadata h)) 1 = false;
  ho_hardening : 0 < required_hardening (metadata h) < 4;
  ho_cpu : required_cpu_features (metadata h) = 1;
  ho_address : if Z.testbit (required_capabilities (metadata h)) 1
    then required_state_address (metadata h) <> 0 /\ required_state_address (metadata h) mod 4096 = 0
    else required_state_address (metadata h) = 0;
  ho_count : (1 <= length (methods h) <= 118)%nat;
  ho_methods : Forall (entry_ok h) (methods h);
  ho_ids : Forall (fun m => 0 < entry_id m) (methods h) /\ ascending entry_id (methods h);
  ho_apart : pairwise apart (methods h)
}.

Lemma all_zero_iff bs : all_zero bs = true <-> Forall (eq 0) bs.
Proof. apply forallb_zero. Qed.

Lemma all_zero_false bs : all_zero bs = false <-> ~ Forall (eq 0) bs.
Proof. rewrite <- all_zero_iff. by destruct (all_zero bs). Qed.

(** Only known bits are set. *)
Lemma unknown_bits x k : 0 <= k <= 64 -> in_width 64 x -> Z.land x (not_bits 64 (2 ^ k - 1)) = 0 <-> x < 2 ^ k.
Proof.
  unfold in_width. intros Hk Hx. rewrite land_not_mask by lia.
  pose proof (Z.mod_pos_bound x (2 ^ k) ltac:(lia)). split; intros Hz; [lia|].
  rewrite Z.mod_small; lia.
Qed.

Lemma page_alignment_iff a : a <> 0 /\ is_power_of_two a = true /\ a <= 4096 <-> page_alignment a.
Proof.
  rewrite is_power_of_two_spec. split.
  - intros (_ & (k & Hk & ->) & Hle). exists k. split; [|done]. split; [done|].
    change 4096 with (2 ^ 12) in Hle. apply Z.pow_le_mono_r_iff in Hle; lia.
  - intros (k & Hk & ->). split; [lia|]. split; [exists k; split; [lia | done]|].
    change 4096 with (2 ^ 12). apply Z.pow_le_mono_r; lia.
Qed.

Lemma decoded_signature_ok m s : decoded_signature m = Ok s <-> entry_signature m = signature_code s.
Proof. unfold decoded_signature. by rewrite ok_or_ok, from_u16_some. Qed.

(** Turns a chain of rejected conditions into propositions. *)
Ltac conditions := repeat rewrite ?orb_false_iff, ?negb_false_iff, ?Z.eqb_eq, ?Z.eqb_neq, ?Z.leb_gt, ?Z.ltb_ge.

Lemma validate_methods_ok h prev ms : 0 <= prev -> image_len h < 2 ^ 64 -> Forall entry_typed ms ->
  validate_methods h prev ms = Ok tt <->
  Forall (entry_ok h) ms /\ Forall (fun m => prev < entry_id m) ms /\ ascending entry_id ms.
Proof.
  intros Hprev Hlen Ht. revert prev Hprev. induction Ht as [|m ms Hm _ IH]; intros prev Hprev.
  { cbn. split; [|done]. intros _. split_and!; [constructor..|apply pairwise_nil]. }
  cbn [validate_methods]. rewrite result_bind_ok. unfold ascending. rewrite pairwise_cons, !Forall_cons_iff.
  assert (Hid : 0 <= entry_id m) by apply Hm. assert (Hsz : 0 <= entry_size m) by apply Hm. split.
  - intros (e & He & Hk). apply ok_or_ok, checked_add_some in He as [-> He].
    apply reject_ok in Hk as [Hc Hk]. apply result_bind_ok in Hk as (s & Hs & Hrest).
    apply decoded_signature_ok in Hs. apply IH in Hrest as (H1 & H2 & H3); [|done].
    revert Hc. conditions. rewrite is_power_of_two_spec.
    intros [[[[[[[[[[C1 C2] C3] C4] C5] C6] C7] C8] C9] C10] C11].
    assert (entry_ok h m) by (constructor; [done | lia | done | done | done | by exists s]).
    assert (Forall (fun m => prev < entry_id m) ms) by (revert H2; apply Forall_impl; intros x; cbn; lia).
    done.
  - intros ((Hok & Hall) & (Hlt & _) & (Hasc & Hp)). destruct Hok as [[O1 O2] O3 [O4 O5] O6 [O7 O8] [s Hs]].
    exists (entry_offset m + entry_size m). split; [apply ok_or_ok, checked_add_some; split; [done | lia]|].
    apply reject_ok. split.
    + conditions. rewrite is_power_of_two_spec. destruct O4 as (k & Hk & Hk').
      split_and!; try done; try lia. by exists k.
    + apply result_bind_ok. exists s. split; [by apply decoded_signature_ok|]. by apply IH.
Qed.

Lemma apart_from_ok l ms : apart_from l ms = Ok tt <-> Forall (apart l) ms.
Proof.
  induction ms as [|r ms IH]; [cbn; split; [constructor | done]|].
  cbn [apart_from]. rewrite reject_ok, IH, Forall_cons_iff, andb_false_iff, !Z.ltb_ge. done.
Qed.

Lemma validate_disjoint_ok ms : validate_disjoint ms = Ok tt <-> pairwise apart ms.
Proof.
  induction ms as [|l ms IH]; [cbn; split; [intros _; apply pairwise_nil | done]|].
  cbn [validate_disjoint]. by rewrite bind_ok, pairwise_cons, apart_from_ok, IH.
Qed.

Section Exact.
Context `{Target} (H64 : usize_bits = 64).

Lemma as_usize_id x : in_width 64 x -> as_usize x = x.
Proof. unfold as_usize, wrap. rewrite H64. apply Z.mod_small. Qed.

Lemma address_rule m : in_width 64 (required_capabilities m) ->
  Z.testbit (optional_capabilities m) 1 = false ->
  (if negb (Z.land (Z.lor (required_capabilities m) (optional_capabilities m)) CAP_REQUIRES_SAME_VA =? 0) then
     reject (required_state_address m =? 0) || negb (required_state_address m mod PAGE_SIZE =? 0)
       with InvalidRequiredAddress ;; Ok tt
   else reject negb (required_state_address m =? 0) with RelocatableWithFixedAddress ;; Ok tt) = Ok tt <->
  if Z.testbit (required_capabilities m) 1
  then required_state_address m <> 0 /\ required_state_address m mod 4096 = 0
  else required_state_address m = 0.
Proof.
  intros _ Hopt. change CAP_REQUIRES_SAME_VA with (2 ^ 1). rewrite land_bit_eqb, Z.lor_spec, Hopt, orb_false_r by lia.
  rewrite negb_involutive. destruct (Z.testbit (required_capabilities m) 1).
  - rewrite reject_ok. conditions. unfold PAGE_SIZE. naive_solver.
  - rewrite reject_ok. conditions. naive_solver.
Qed.

Lemma capability_rule r o : in_width 64 r -> in_width 64 o ->
  Z.land (Z.lor r o) (not_bits 64 KNOWN_CAPABILITIES) = 0 <-> r < 8 /\ o < 8.
Proof.
  intros Hr Ho. change KNOWN_CAPABILITIES with (2 ^ 3 - 1).
  rewrite Z.land_lor_distr_l, Z.lor_eq_0_iff, !unknown_bits by (done || lia). done.
Qed.

(** The conditions of [validate], read as propositions. *)
Ltac read_conditions :=
  conditions; rewrite ?as_usize_id, ?all_zero_false, ?capability_rule by done;
  change KNOWN_HARDENING with (2 ^ 2 - 1); change KNOWN_CPU_FEATURES with (2 ^ 1 - 1);
  rewrite ?unknown_bits by (done || lia).

Lemma method_count_rule n : (Z.of_nat n =? 0) || (MAX_METHODS <? Z.of_nat n) = false <-> (1 <= n <= 118)%nat.
Proof. change MAX_METHODS with 118. conditions. lia. Qed.

Lemma same_va_rule o : Z.land o CAP_REQUIRES_SAME_VA = 0 <-> Z.testbit o 1 = false.
Proof. change CAP_REQUIRES_SAME_VA with (2 ^ 1). rewrite <- Z.eqb_eq, land_bit_eqb by lia. apply negb_true_iff. Qed.

Lemma validate_sound h : header_typed h -> validate h = Ok tt -> header_ok h.
Proof.
  intros [] Hv. unfold validate in Hv. cbv zeta in Hv. ok_inv Hv.
  repeat match goal with X : ok_or (checked_add _ _ _) _ = Ok _ |- _ =>
    apply ok_or_ok, checked_add_some in X as [-> X] end.
  revert Hguard Hguard0 Hguard1 Hguard2. read_conditions. rewrite same_va_rule. apply method_count_rule in Hguard3.
  intros (((((G1 & G2) & G3) & G4) & G5) & G6) ((((((S1 & S2) & S3) & S4) & S5) & S6) & S7)
    ((((I1 & I2) & I3) & I4) & I5) (((((((R1 & R2) & R3) & R4) & R5) & R6) & R7) & R8).
  destruct x1. apply address_rule in Hbind1; [|done..].
  destruct x2. apply validate_methods_ok in Hbind2 as (M1 & M2 & M3); [|lia|apply ht_image_len0|done].
  apply validate_disjoint_ok in Hv. unfold in_width in *.
  unfold HEADER_SIZE, PAGE_SIZE, DEFAULT_STATE_FILE_LEN, STATE_ENVELOPE_SIZE, PAGE_SIZE, DEFAULT_PAYLOAD_LEN in *.
  constructor; try done; try lia; try (by apply page_alignment_iff). destruct R4. split_and!; (done || lia).
Qed.

Lemma validate_complete h : header_typed h -> header_ok h -> validate h = Ok tt.
Proof.
  intros [] []. unfold validate. cbv zeta. unfold in_width in *.
  destruct ho_code0 as (C1 & C2 & C3), ho_state0 as (S1 & S2 & S3), ho_digests0 as (D1 & D2 & D3),
    ho_fingerprints0 as [F1 F2], ho_capabilities0 as (R1 & R2 & R3 & R4), ho_ids0 as [N1 N2].
  apply page_alignment_iff in ho_code_alignment0 as (A1 & A2 & A3).
  apply page_alignment_iff in ho_state_alignment0 as (B1 & B2 & B3).
  apply result_bind_ok. eexists. split; [apply ok_or_ok, checked_add_some; split; [done | lia]|].
  apply reject_ok. split; [read_conditions; unfold HEADER_SIZE, PAGE_SIZE; split_and!; (done || lia)|].
  apply result_bind_ok. eexists. split; [apply ok_or_ok, checked_add_some; split; [done | lia]|].
  apply reject_ok. split.
  { read_conditions. rewrite S1, S2, S3. unfold PAGE_SIZE. split_and!; done. }
  apply reject_ok. split; [read_conditions; done|].
  apply reject_ok. split.
  { read_conditions. rewrite same_va_rule. split_and!; try done; lia. }
  apply result_bind_ok. exists tt. split; [by apply address_rule|].
  apply reject_ok. split; [by apply method_count_rule|].
  apply result_bind_ok. exists tt. split; [|by apply validate_disjoint_ok].
  apply validate_methods_ok; [lia | apply ht_image_len0 | done | done].
Qed.
End Exact.

(** Validation is exact: of the headers whose fields are in the range of their
    types it accepts precisely those in which code and state have their fixed extents,
    identities are present, requirements are known, the state address fits the
    capability, and the methods lie aligned inside the code with known signatures and
    ascending identifiers, no two of them overlapping. *)
Theorem image_validation_exact `{Target} h : usize_bits = 64 -> header_typed h ->
  validate h = Ok tt <-> header_ok h.
Proof. intros H64 Ht. split; [by apply validate_sound | by apply validate_complete]. Qed.

(** ** Lookup and binding of methods *)

Lemma ascending_nodup {A} (key : A -> Z) xs : ascending key xs -> NoDup (key <$> xs).
Proof.
  intros Ha. apply NoDup_alt. intros i j k Hi Hj.
  apply list_lookup_fmap_Some in Hi as (x & -> & Hi). apply list_lookup_fmap_Some in Hj as (y & Hk & Hj).
  destruct (Nat.lt_trichotomy i j) as [Hlt|[?|Hlt]]; [|done|].
  - specialize (Ha _ _ _ _ Hlt Hi Hj). cbn beta in Ha. lia.
  - specialize (Ha _ _ _ _ Hlt Hj Hi). cbn beta in Ha. lia.
Qed.

(** A header offers a method, and an API declares one, with a signature. *)
Definition offers `{Target} (h : ImageHeader) (id : Z) (s : MethodSignature) : Prop :=
  exists e, method h id = Some e /\ decoded_signature e = Ok s.
Definition declares (api : PodApiDescriptor) (id : Z) (s : MethodSignature) : Prop :=
  exists spec, api_method api id = Some spec /\ spec_signature spec = s.

Section Binding.
Context `{Target}.
Variables (h : ImageHeader) (api : PodApiDescriptor).
Hypothesis Hh : ascending entry_id (methods h).
Hypothesis Ha : ascending spec_id (api_methods api).

Lemma offers_iff id s : offers h id s <->
  exists e, e ∈ methods h /\ entry_id e = id /\ decoded_signature e = Ok s.
Proof.
  unfold offers, method. setoid_rewrite find_by_key_spec; [|done]. naive_solver.
Qed.

Lemma declares_iff id s : declares api id s <->
  exists spec, spec ∈ api_methods api /\ spec_id spec = id /\ spec_signature spec = s.
Proof.
  unfold declares, api_method. setoid_rewrite find_by_key_spec; [|done]. naive_solver.
Qed.

Lemma bind_methods_ok specs : bind_methods h specs = Ok tt <->
  Forall (fun spec => offers h (spec_id spec) (spec_signature spec)) specs.
Proof.
  induction specs as [|spec specs IH]; [cbn; split; [constructor | done]|].
  cbn [bind_methods]. rewrite Forall_cons_iff, <- IH. unfold offers. rewrite result_bind_ok. split.
  - intros (e & He & Hk). apply ok_or_ok in He. apply result_bind_ok in Hk as (s & Hs & Hk).
    apply reject_ok in Hk as [Hd Hk]. apply negb_false_iff, bool_decide_eq_true in Hd as ->. naive_solver.
  - intros ((e & He & Hs) & Hk). exists e. rewrite ok_or_ok. split; [done|]. rewrite Hs. cbn [result_bind].
    by rewrite bool_decide_eq_true_2.
Qed.

(** Two tables of the same length, one inside the other, are the same. *)
Lemma same_ids : length (methods h) = length (api_methods api) ->
  (forall spec, spec ∈ api_methods api -> exists e, e ∈ methods h /\ entry_id e = spec_id spec) ->
  forall e, e ∈ methods h -> exists spec, spec ∈ api_methods api /\ spec_id spec = entry_id e.
Proof.
  intros Hlen Hsub e He.
  assert (Hp : spec_id <$> api_methods api ≡ₚ entry_id <$> methods h).
  { apply submseteq_length_Permutation; [|by rewrite !length_fmap, Hlen].
    apply NoDup_submseteq; [by apply ascending_nodup|]. intros k Hk.
    apply list_elem_of_fmap in Hk as (spec & -> & Hspec). destruct (Hsub spec Hspec) as (e' & He' & <-).
    by apply list_elem_of_fmap_2. }
  apply (list_elem_of_fmap_2 entry_id) in He. rewrite <- Hp in He.
  apply list_elem_of_fmap in He as (spec & Heq & Hspec). by exists spec.
Qed.

Lemma same_length :
  (forall spec, spec ∈ api_methods api -> exists e, e ∈ methods h /\ entry_id e = spec_id spec) ->
  (forall e, e ∈ methods h -> exists spec, spec ∈ api_methods api /\ spec_id spec = entry_id e) ->
  length (methods h) = length (api_methods api).
Proof.
  intros H1 H2. rewrite <- (length_fmap entry_id), <- (length_fmap spec_id (api_methods api)).
  apply Nat.le_antisymm; apply submseteq_length, NoDup_submseteq; try (by apply ascending_nodup);
    intros k Hk; apply list_elem_of_fmap in Hk as (x & -> & Hx).
  - destruct (H2 x Hx) as (y & Hy & <-). by apply list_elem_of_fmap_2.
  - destruct (H1 x Hx) as (y & Hy & <-). by apply list_elem_of_fmap_2.
Qed.

Lemma bound_exactly : Forall (entry_ok h) (methods h) ->
  bind_methods h (api_methods api) = Ok tt /\ length (methods h) = length (api_methods api) <->
  forall id s, offers h id s <-> declares api id s.
Proof.
  intros Hok. rewrite bind_methods_ok, list.Forall_forall. setoid_rewrite offers_iff.
  setoid_rewrite declares_iff. split.
  - intros [Hall Hlen] id s. split.
    + intros (e & He & <- & Hs). destruct (same_ids Hlen) with e as (spec & Hspec & Heq); [|done|].
      { intros spec Hspec. destruct (Hall spec Hspec) as (e' & ? & ? & _). by exists e'. }
      exists spec. split_and!; try done. destruct (Hall spec Hspec) as (e' & He' & Heq' & Hs').
      rewrite Heq in Heq'. assert (e' = e) as ->; [|congruence].
      apply (inj Some). rewrite <- (proj2 (find_by_key_spec entry_id (methods h) (entry_id e) e Hh)) by done.
      by rewrite <- (proj2 (find_by_key_spec entry_id (methods h) (entry_id e) e' Hh)).
    + intros (spec & Hspec & <- & <-). by apply Hall.
  - intros Hiff. assert (Hall : forall spec, spec ∈ api_methods api ->
      exists e, e ∈ methods h /\ entry_id e = spec_id spec /\ decoded_signature e = Ok (spec_signature spec)).
    { intros spec Hspec. apply Hiff. by exists spec. }
    split; [done|]. apply same_length.
    + intros spec Hspec. destruct (Hall spec Hspec) as (e & ? & ? & _). by exists e.
    + intros e He. rewrite list.Forall_forall in Hok. destruct (Hok e He) as [_ _ _ _ _ [s Hs]].
      apply decoded_signature_ok in Hs. destruct (proj1 (Hiff (entry_id e) s)) as (spec & ? & ? & _); [by exists e|].
      by exists spec.
Qed.
End Binding.

(** Binding is exact: an image passes the host's check for an API precisely when its
    header is valid, it carries the API's fingerprint, and under every identifier it
    offers exactly the method that the API declares, with the same signature. *)
Lemma host_check_iff `{Target} h api : usize_bits = 64 -> header_typed h ->
  ascending spec_id (api_methods api) ->
  validate_for_host true h api = Ok tt <->
  header_ok h /\ api_fingerprint (metadata h) = fingerprint api /\
  forall id s, offers h id s <-> declares api id s.
Proof.
  intros H64 Ht Ha. unfold validate_for_host. rewrite bind_ok. cbn [negb].
  rewrite reject_ok, bind_ok, reject_ok, !negb_false_iff, Z.eqb_eq, Nat.eqb_eq. split.
  - intros (Hv & Hf & Hb & Hl & _). apply validate_sound in Hv; [|done..].
    split; [done|]. split; [done|]. apply bound_exactly; try done; apply Hv.
  - intros (Hv & Hf & Hiff). apply bound_exactly in Hiff; try apply Hv; try done.
    split; [by apply validate_complete|]. naive_solver.
Qed.

(** ** The wire format *)

Definition entry_fields (m : MethodEntry) : list (list Z) :=
  [ to_le_bytes 4 (entry_id m); to_le_bytes 2 (entry_signature m); to_le_bytes 2 (entry_flags m);
    to_le_bytes 8 (entry_offset m); to_le_bytes 4 (entry_size m); to_le_bytes 4 (entry_alignment m);
    to_le_bytes 8 (entry_reserved m) ].
Definition ENTRY_LENGTHS : list nat := [4; 2; 2; 8; 4; 4; 8]%nat.

Definition fixed_fields (h : ImageHeader) : list (list Z) :=
  [ IMAGE_MAGIC; to_le_bytes 2 IMAGE_VERSION; to_le_bytes 1 ENDIAN_LITTLE; to_le_bytes 1 POINTER_WIDTH_64;
    to_le_bytes 4 HEADER_SIZE; to_le_bytes 2 TARGET_OS_LINUX; to_le_bytes 2 TARGET_ARCH_X86_64;
    to_le_bytes 4 PAGE_SIZE; to_le_bytes 2 METHOD_ENTRY_SIZE; to_le_bytes 2 (Z.of_nat (length (methods h)));
    to_le_bytes 4 IMAGE_ABI_REVISION; to_le_bytes 8 (image_len h); to_le_bytes 8 (code_offset h);
    to_le_bytes 8 (code_len h); to_le_bytes 8 (code_alignment h); to_le_bytes 8 (state_file_len h);
    to_le_bytes 8 (payload_offset h); to_le_bytes 8 (payload_len h); to_le_bytes 8 (state_alignment h);
    to_le_bytes 8 (required_state_address (metadata h)); to_le_bytes 8 (required_capabilities (metadata h));
    to_le_bytes 8 (optional_capabilities (metadata h)); to_le_bytes 8 (required_hardening (metadata h));
    to_le_bytes 8 (required_cpu_features (metadata h)); to_le_bytes 16 (api_fingerprint (metadata h));
    to_le_bytes 16 (state_fingerprint (metadata h)); code_sha256 h; provenance_sha256 (metadata h);
    build_sha256 (metadata h); to_le_bytes 4 METHOD_TABLE_OFFSET;
    to_le_bytes 4 (Z.of_nat (length (methods h)) * METHOD_ENTRY_SIZE) ].
Definition FIXED_LENGTHS : list nat :=
  [8; 2; 1; 1; 4; 2; 2; 4; 2; 2; 4; 8; 8; 8; 8; 8; 8; 8; 8; 8; 8; 8; 8; 8; 16; 16; 32; 32; 32; 4; 4]%nat.

Lemma put_next_field n pre k off v : Z.to_nat off = length pre -> (n <= k)%nat ->
  put n (pre ++ replicate k 0) off v = (pre ++ to_le_bytes n v) ++ replicate (k - n) 0.
Proof.
  intros Hoff Hk. unfold put. rewrite copy_next by (by rewrite ?to_le_bytes_length). by rewrite to_le_bytes_length.
Qed.

Lemma encode_method_fields pre k off m : 0 <= off -> Z.to_nat off = length pre -> (32 <= k)%nat ->
  encode_method (pre ++ replicate k 0) off m = (pre ++ concat (entry_fields m)) ++ replicate (k - 32) 0.
Proof.
  intros Hpos Hoff Hk. unfold encode_method. cbv zeta.
  repeat (rewrite put_next_field; [|rewrite ?length_app, ?to_le_bytes_length; lia|lia]).
  cbn [entry_fields concat]. rewrite app_nil_r, <- !app_assoc.
  by replace (k - 4 - 2 - 2 - 8 - 4 - 4 - 8)%nat with (k - 32)%nat by lia.
Qed.

Lemma entry_bytes_length m : length (concat (entry_fields m)) = 32%nat.
Proof. cbn [entry_fields concat]. by rewrite !length_app, !to_le_bytes_length. Qed.

Definition table (ms : list MethodEntry) : list Z := concat ((fun m => concat (entry_fields m)) <$> ms).

Lemma table_length ms : length (table ms) = (32 * length ms)%nat.
Proof.
  induction ms as [|m ms IH]; [done|]. unfold table in *. cbn [fmap list_fmap concat].
  rewrite length_app, entry_bytes_length, IH. cbn [length]. lia.
Qed.

Lemma encode_methods_fields ms pre k index : 0 <= index -> length pre = Z.to_nat (320 + index * 32) ->
  (32 * length ms <= k)%nat ->
  encode_methods (pre ++ replicate k 0) index ms = (pre ++ table ms) ++ replicate (k - 32 * length ms) 0.
Proof.
  revert pre k index. induction ms as [|m ms IH]; intros pre k index Hi Hpre Hk.
  - cbn. by rewrite app_nil_r, Nat.sub_0_r.
  - cbn [encode_methods length] in *. unfold METHOD_TABLE_OFFSET, METHOD_ENTRY_SIZE.
    rewrite encode_method_fields by lia. rewrite IH; [|lia| |lia].
    + unfold table. cbn [fmap list_fmap concat]. rewrite <- !app_assoc.
      by replace (k - 32 - 32 * length ms)%nat with (k - 32 * S (length ms))%nat by lia.
    + rewrite length_app, entry_bytes_length, Hpre. lia.
Qed.

Lemma fixed_lengths h : header_typed h -> length <$> fixed_fields h = FIXED_LENGTHS.
Proof.
  intros []. cbn [fixed_fields fmap list_fmap]. rewrite !to_le_bytes_length.
  destruct ht_code_digest0 as [_ ->], ht_provenance0 as [_ ->], ht_build0 as [_ ->]. done.
Qed.

Lemma encode_fixed_fields h : header_typed h ->
  encode_fixed h = concat (fixed_fields h) ++ replicate (Z.to_nat HEADER_SIZE - 272) 0.
Proof.
  intros []. destruct ht_code_digest0 as [_ Hc], ht_provenance0 as [_ Hp], ht_build0 as [_ Hb].
  assert (HK : (272 <= Z.to_nat HEADER_SIZE)%nat) by (unfold HEADER_SIZE; lia).
  unfold encode_fixed. cbv zeta. generalize dependent (Z.to_nat HEADER_SIZE). intros K HK.
  change [ENDIAN_LITTLE] with (to_le_bytes 1 ENDIAN_LITTLE).
  change [POINTER_WIDTH_64] with (to_le_bytes 1 POINTER_WIDTH_64).
  change (replicate K 0) with ([] ++ replicate K 0).
  repeat (rewrite put_next_field || rewrite copy_next);
    rewrite ?length_app, ?to_le_bytes_length, ?Hc, ?Hp, ?Hb; try reflexivity; try (cbn; lia).
  cbn [fixed_fields concat]. rewrite app_nil_r, app_nil_l, <- !app_assoc.
  match goal with |- context [replicate ?k 0] => replace k with (K - 272)%nat by (cbn; lia) end. done.
Qed.

Lemma get_slice n bs off : Forall byte bs -> (Z.to_nat off + n <= length bs)%nat ->
  to_le_bytes n (get n bs off) = slice (Z.to_nat off) (Z.to_nat off + n) bs /\
  in_width (8 * Z.of_nat n) (get n bs off).
Proof.
  intros Hb Hl. apply u_to_of; [by apply slice_bytes|]. rewrite length_slice by done. lia.
Qed.

Lemma get_eq n bs off v : slice (Z.to_nat off) (Z.to_nat off + n) bs = to_le_bytes n v ->
  in_width (8 * Z.of_nat n) v -> get n bs off = v.
Proof. intros Hs Hv. unfold get. rewrite Hs. by apply of_to_le_bytes. Qed.

Lemma slice_drop i n bs k : i = k -> take n (drop i bs) = slice k (k + n) bs.
Proof. intros ->. unfold slice. f_equal. lia. Qed.

Lemma cut_entry bs off : 0 <= off -> cut ENTRY_LENGTHS (drop (Z.to_nat off) bs) =
  (fun x => slice (Z.to_nat (off + x.1)) (Z.to_nat (off + x.1) + x.2) bs) <$>
    [(0, 4%nat); (4, 2%nat); (6, 2%nat); (8, 8%nat); (16, 4%nat); (20, 4%nat); (24, 8%nat)].
Proof.
  intros Hoff. unfold ENTRY_LENGTHS. cbn [cut fmap list_fmap fst snd]. rewrite !drop_drop.
  repeat (apply f_equal2; [apply slice_drop; lia|]). done.
Qed.

Lemma decode_method_fields bs off : Forall byte bs -> 0 <= off -> (Z.to_nat off + 32 <= length bs)%nat ->
  entry_typed (decode_method bs off) /\
  concat (entry_fields (decode_method bs off)) = slice (Z.to_nat off) (Z.to_nat off + 32) bs.
Proof.
  intros Hb Hoff Hl. assert (Hg : forall n k, (k + n <= 32)%nat ->
    to_le_bytes n (get n bs (off + Z.of_nat k)) = slice (Z.to_nat (off + Z.of_nat k)) (Z.to_nat (off + Z.of_nat k) + n) bs /\
    in_width (8 * Z.of_nat n) (get n bs (off + Z.of_nat k))).
  { intros n k Hk. apply get_slice; [done | lia]. }
  pose proof (Hg 4%nat 0%nat ltac:(lia)) as [A1 B1]. rewrite Z.add_0_r in A1, B1. split.
  - constructor; cbn [decode_method entry_id entry_signature entry_flags entry_offset entry_size entry_alignment
      entry_reserved]; [exact B1 | apply (Hg 2%nat 4%nat); lia | apply (Hg 2%nat 6%nat); lia | apply (Hg 8%nat 8%nat); lia
      | apply (Hg 4%nat 16%nat); lia | apply (Hg 4%nat 20%nat); lia | apply (Hg 8%nat 24%nat); lia].
  - replace (slice (Z.to_nat off) (Z.to_nat off + 32) bs) with (take (sum_list ENTRY_LENGTHS) (drop (Z.to_nat off) bs))
      by (apply slice_drop; done).
    rewrite <- concat_cut_take, cut_entry by done. f_equal. unfold entry_fields.
    cbn [decode_method entry_id entry_signature entry_flags entry_offset entry_size entry_alignment
      entry_reserved fmap list_fmap fst snd]. rewrite Z.add_0_r.
    repeat apply f_equal2; try done;
      [apply (Hg 2%nat 4%nat) | apply (Hg 2%nat 6%nat) | apply (Hg 8%nat 8%nat) | apply (Hg 4%nat 16%nat) | apply (Hg 4%nat 20%nat) | apply (Hg 8%nat 24%nat) ]; lia.
Qed.

Lemma decode_encoded_method pre m rest off : 0 <= off -> Z.to_nat off = length pre -> entry_typed m ->
  decode_method (pre ++ concat (entry_fields m) ++ rest) off = m.
Proof.
  intros Hpos Hoff []. pose proof (cut_concat_app (entry_fields m) rest) as Hcut.
  change (length <$> entry_fields m) with ((fun bs : list Z => length bs) <$> entry_fields m) in Hcut.
  cbn [entry_fields fmap list_fmap] in Hcut. rewrite !to_le_bytes_length in Hcut.
  change [4; 2; 2; 8; 4; 4; 8]%nat with ENTRY_LENGTHS in Hcut.
  set (bs := pre ++ concat (entry_fields m) ++ rest).
  change (concat _ ++ rest) with (concat (entry_fields m) ++ rest) in Hcut.
  replace (concat (entry_fields m) ++ rest) with (drop (Z.to_nat off) bs) in Hcut
    by (unfold bs; by rewrite Hoff, drop_app_length).
  rewrite cut_entry in Hcut by done. cbn [fmap list_fmap fst snd] in Hcut. clearbody bs.
  rewrite Z.add_0_r in Hcut. unfold decode_method.
  repeat (apply list_cons_eq in Hcut as [Hx Hcut]; erewrite get_eq by (exact Hx || done); clear Hx).
  by destruct m.
Qed.

Lemma decode_methods_length bs i n : length (decode_methods bs i n) = n.
Proof. revert i. induction n as [|n IH]; intros i; cbn; [done | by rewrite IH]. Qed.

Lemma decode_methods_table bs i n : Forall byte bs -> 0 <= i ->
  (Z.to_nat (320 + i * 32) + 32 * n <= length bs)%nat ->
  Forall entry_typed (decode_methods bs i n) /\
  table (decode_methods bs i n) = slice (Z.to_nat (320 + i * 32)) (Z.to_nat (320 + i * 32) + 32 * n) bs.
Proof.
  intros Hb. revert i. induction n as [|n IH]; intros i Hi Hl.
  - cbn [decode_methods]. split; [constructor|]. unfold slice.
    by replace (_ - _)%nat with 0%nat by lia.
  - cbn [decode_methods]. unfold METHOD_TABLE_OFFSET, METHOD_ENTRY_SIZE.
    destruct (decode_method_fields bs (320 + i * 32) Hb) as [Ht Hf]; [lia..|].
    destruct (IH (i + 1)) as [Hts Hfs]; [lia..|]. split; [by constructor|].
    unfold table. cbn [fmap list_fmap concat]. fold (table (decode_methods bs (i + 1) n)).
    rewrite Hf, Hfs, (slice_split (Z.to_nat (320 + i * 32)) (Z.to_nat (320 + i * 32) + 32)%nat
      (Z.to_nat (320 + i * 32) + 32 * S n)%nat bs) by lia. f_equal. f_equal; lia.
Qed.

Lemma decode_encoded_methods ms pre rest i : 0 <= i -> Z.to_nat (320 + i * 32) = length pre ->
  Forall entry_typed ms -> decode_methods (pre ++ table ms ++ rest) i (length ms) = ms.
Proof.
  intros Hi Hpre Ht. revert pre i Hi Hpre. induction Ht as [|m ms Hm _ IH]; intros pre i Hi Hpre; [done|].
  cbn [length decode_methods]. unfold table, METHOD_TABLE_OFFSET, METHOD_ENTRY_SIZE. cbn [fmap list_fmap concat].
  fold (table ms). rewrite <- app_assoc. f_equal; [by apply decode_encoded_method; [lia|..]|].
  rewrite app_assoc. apply IH; [lia|]. rewrite length_app, entry_bytes_length, <- Hpre. lia.
Qed.

(** The fixed part of the header. *)
Definition FIXED_SLICES : list (nat * nat) :=
  [(0, 8); (8, 10); (10, 11); (11, 12); (12, 16); (16, 18); (18, 20); (20, 24); (24, 26); (26, 28); (28, 32);
   (32, 40); (40, 48); (48, 56); (56, 64); (64, 72); (72, 80); (80, 88); (88, 96); (96, 104); (104, 112);
   (112, 120); (120, 128); (128, 136); (136, 152); (152, 168); (168, 200); (200, 232); (232, 264); (264, 268);
   (268, 272)]%nat.

Lemma cut_fixed bs : cut FIXED_LENGTHS bs = (fun x => slice x.1 x.2 bs) <$> FIXED_SLICES.
Proof. unfold FIXED_LENGTHS. cbn [cut]. rewrite !drop_drop. cbn [Nat.add]. reflexivity. Qed.

Section Wire.
Context `{Target} (H64 : usize_bits = 64).

Lemma as_usize_small x k : 0 <= k <= 64 -> in_width k x -> as_usize x = x.
Proof.
  intros Hk [Hx Hx']. apply as_usize_id; [done|]. split; [done|].
  apply Z.lt_le_trans with (1 := Hx'). apply Z.pow_le_mono_r; lia.
Qed.

(** The checks of [decode] before the fields are read, as propositions. *)
Definition preamble (bs : list Z) (n : Z) : Prop :=
  slice 0 8 bs = IMAGE_MAGIC /\ get 2 bs 8 = IMAGE_VERSION /\ get 1 bs 10 = ENDIAN_LITTLE /\
  get 1 bs 11 = POINTER_WIDTH_64 /\ get 4 bs 12 = HEADER_SIZE /\ get 2 bs 16 = TARGET_OS_LINUX /\
  get 2 bs 18 = TARGET_ARCH_X86_64 /\ get 4 bs 20 = PAGE_SIZE /\ get 2 bs 24 = METHOD_ENTRY_SIZE /\
  get 2 bs 26 = n /\ get 4 bs 28 = IMAGE_ABI_REVISION /\ get 4 bs 264 = METHOD_TABLE_OFFSET /\
  get 4 bs 268 = n * METHOD_ENTRY_SIZE.

Lemma decode_iff bs h : Forall byte bs -> length bs = Z.to_nat HEADER_SIZE ->
  decode bs = Ok h <-> exists n, preamble bs n /\ 1 <= n <= 118 /\
    Forall (eq 0) (slice 272 320 bs) /\ Forall (eq 0) (slice (Z.to_nat (320 + n * 32)) (Z.to_nat HEADER_SIZE) bs) /\
    validate h = Ok tt /\ h = read_header bs n.
Proof.
  intros Hb Hl. assert (Hw : forall k off, 0 <= off -> off <= 272 -> (k <= 16)%nat ->
    in_width (8 * Z.of_nat k) (get k bs off)).
  { intros k off H0 H1 H2. apply get_slice; [done|]. rewrite Hl. unfold HEADER_SIZE. lia. }
  unfold decode. rewrite Hl. destruct (Z.ltb_spec (Z.of_nat (Z.to_nat HEADER_SIZE)) HEADER_SIZE); [unfold HEADER_SIZE in *; lia|].
  rewrite !reject_ok. rewrite (as_usize_small (get 2 bs 26) 16), (as_usize_small (get 4 bs 12) 32),
    (as_usize_small (get 4 bs 20) 32), (as_usize_small (get 2 bs 24) 16), (as_usize_small (get 4 bs 264) 32),
    (as_usize_small (get 4 bs 268) 32) by (lia || (apply Hw; lia)).
  cbv zeta. rewrite result_bind_ok. unfold checked_mul. rewrite H64.
  pose proof (Hw 2%nat 26 ltac:(lia) ltac:(lia) ltac:(lia)) as [_ Hn]. change (8 * Z.of_nat 2) with 16 in Hn.
  destruct (Z.ltb_spec (get 2 bs 26 * METHOD_ENTRY_SIZE) (2 ^ 64)) as [_|]; [|unfold METHOD_ENTRY_SIZE in *; lia].
  cbn [ok_or]. change MAX_METHODS with 118. split.
  - intros (G1 & G2 & G3 & a & [= <-] & Hk). apply reject_ok in Hk as [G4 Hk].
    apply reject_ok in Hk as [G5 Hk]. apply bind_ok in Hk as [Hv [= <-]].
    revert G1 G2 G3 G4 G5. unfold preamble. conditions. rewrite bool_decide_eq_true, !all_zero_iff.
    intros. exists (get 2 bs 26). pose proof (Hw 2%nat 26 ltac:(lia) ltac:(lia) ltac:(lia)) as [Hn0 _].
    naive_solver lia.
  - intros (n & Hp & Hn' & Hz1 & Hz2 & Hv & ->). destruct Hp as (P1 & P2 & P3 & P4 & P5 & P6 & P7 & P8 & P9 & <- & P10 & P11 & P12).
    split_and!; try done; [conditions; by rewrite bool_decide_eq_true | conditions; done | by conditions |].
    eexists. split; [done|]. apply reject_ok. split.
    { conditions. unfold METHOD_TABLE_OFFSET, METHOD_ENTRY_SIZE, HEADER_SIZE in *. lia. }
    apply reject_ok. split; [conditions; by rewrite !all_zero_iff|]. by apply bind_ok.
Qed.

(** What is read is written back. *)
Lemma read_typed bs n : Forall byte bs -> length bs = Z.to_nat HEADER_SIZE -> 0 <= n <= 118 ->
  header_typed (read_header bs n).
Proof.
  intros Hb Hl Hn.
  assert (Hw : forall k off, 0 <= off -> off <= 272 -> (k <= 16)%nat -> in_width (8 * Z.of_nat k) (get k bs off)).
  { intros k off H0 H1 H2. apply get_slice; [done|]. rewrite Hl. unfold HEADER_SIZE. lia. }
  assert (Hd : forall i, (i <= 272)%nat -> digest (slice i (i + 32) bs)).
  { intros i Hi. split; [by apply slice_bytes|]. rewrite length_slice; [lia|]. rewrite Hl. unfold HEADER_SIZE. lia. }
  constructor; cbn [read_header image_len code_offset code_len code_alignment state_file_len payload_offset
    payload_len state_alignment code_sha256 metadata methods provenance_sha256 build_sha256 required_capabilities
    optional_capabilities required_hardening required_cpu_features required_state_address api_fingerprint
    state_fingerprint].
  all: try (apply (Hw 8%nat); lia). all: try (apply (Hw 16%nat); lia).
  - apply (Hd 168%nat). lia.
  - apply (Hd 200%nat). lia.
  - apply (Hd 232%nat). lia.
  - apply decode_methods_table; [done | lia|]. rewrite Hl. unfold HEADER_SIZE. lia.
Qed.

Lemma read_fixed bs n : Forall byte bs -> length bs = Z.to_nat HEADER_SIZE -> 0 <= n -> preamble bs n ->
  fixed_fields (read_header bs n) = cut FIXED_LENGTHS bs.
Proof.
  intros Hb Hl Hn (P1 & P2 & P3 & P4 & P5 & P6 & P7 & P8 & P9 & P10 & P11 & P12 & P13).
  assert (Hg : forall k off, 0 <= off -> off <= 272 -> (k <= 16)%nat ->
    to_le_bytes k (get k bs off) = slice (Z.to_nat off) (Z.to_nat off + k) bs).
  { intros k off H0 H1 H2. apply get_slice; [done|]. rewrite Hl. unfold HEADER_SIZE. lia. }
  rewrite cut_fixed. unfold fixed_fields, FIXED_SLICES.
  cbn [read_header image_len code_offset code_len code_alignment state_file_len payload_offset
    payload_len state_alignment code_sha256 metadata methods provenance_sha256 build_sha256 required_capabilities
    optional_capabilities required_hardening required_cpu_features required_state_address api_fingerprint
    state_fingerprint fmap list_fmap fst snd].
  rewrite decode_methods_length, Z2Nat.id by done.
  rewrite <- P13, <- P1, <- P2, <- P3, <- P4, <- P5, <- P6, <- P7, <- P8, <- P9, <- P10, <- P11, <- P12.
  repeat (apply f_equal2; [first [reflexivity | apply Hg; lia]|]). done.
Qed.

Lemma bytes_regions bs n : length bs = Z.to_nat HEADER_SIZE -> 0 <= n <= 118 ->
  bs = take 272 bs ++ slice 272 320 bs ++ slice 320 (320 + 32 * Z.to_nat n) bs ++
       slice (Z.to_nat (320 + n * 32)) (Z.to_nat HEADER_SIZE) bs.
Proof.
  intros Hl Hn. change (take 272 bs) with (slice 0 272 bs).
  replace (Z.to_nat (320 + n * 32)) with (320 + 32 * Z.to_nat n)%nat by lia.
  rewrite <- !slice_split by (unfold HEADER_SIZE; lia). unfold slice. rewrite drop_0.
  rewrite take_ge; [done|]. rewrite Hl. lia.
Qed.

Lemma encode_header_bytes h : header_typed h -> (length (methods h) <= 118)%nat ->
  encode_methods (encode_fixed h) 0 (methods h) =
  concat (fixed_fields h) ++ replicate 48 0 ++ table (methods h) ++
    replicate (Z.to_nat HEADER_SIZE - 320 - 32 * length (methods h)) 0.
Proof.
  intros Ht Hn. rewrite encode_fixed_fields by done.
  replace (Z.to_nat HEADER_SIZE - 272)%nat with (48 + (Z.to_nat HEADER_SIZE - 320))%nat by (unfold HEADER_SIZE; lia).
  rewrite replicate_add, app_assoc, encode_methods_fields.
  - by rewrite <- !app_assoc.
  - lia.
  - rewrite length_app, length_replicate, length_concat.
    change (map length (fixed_fields h)) with (length <$> fixed_fields h). rewrite fixed_lengths by done. reflexivity.
  - unfold HEADER_SIZE. lia.
Qed.

Lemma decode_sound bs h : Forall byte bs -> length bs = Z.to_nat HEADER_SIZE ->
  decode bs = Ok h -> header_typed h /\ encode h = Ok bs.
Proof.
  intros Hb Hl Hd. apply decode_iff in Hd as (n & Hp & Hn & Hz1 & Hz2 & Hv & ->); [|done..].
  assert (Ht : header_typed (read_header bs n)) by (apply read_typed; (done || lia)). split; [done|].
  unfold encode. rewrite Hv. cbn [result_bind]. f_equal.
  assert (Hm : methods (read_header bs n) = decode_methods bs 0 (Z.to_nat n)) by done.
  rewrite encode_header_bytes, read_fixed, concat_cut_take by (done || lia || (rewrite Hm, decode_methods_length; lia)).
  destruct (decode_methods_table bs 0 (Z.to_nat n) Hb) as [_ Htab];
    [lia | rewrite Hl; unfold HEADER_SIZE; lia |].
  rewrite Hm, Htab, decode_methods_length. etransitivity; [|symmetry; apply (bytes_regions bs n Hl); lia].
  apply Forall_zero_replicate in Hz1, Hz2. rewrite length_slice in Hz1, Hz2 by (rewrite Hl; unfold HEADER_SIZE; lia).
  rewrite Hz1, Hz2. change (Z.to_nat (320 + 0 * 32)) with 320%nat. change (320 - 272)%nat with 48%nat.
  replace (Z.to_nat HEADER_SIZE - Z.to_nat (320 + n * 32))%nat
    with (Z.to_nat HEADER_SIZE - 320 - 32 * Z.to_nat n)%nat by lia. done.
Qed.

(** What is written is read back. *)
Lemma read_encoded h rest : header_typed h -> (1 <= length (methods h) <= 118)%nat ->
  let bs := concat (fixed_fields h) ++ replicate 48 0 ++ table (methods h) ++ rest in
  let n := Z.of_nat (length (methods h)) in
  preamble bs n /\ read_header bs n = h.
Proof.
  intros Ht Hn bs n.
  assert (Hm : decode_methods bs 0 (Z.to_nat n) = methods h).
  { unfold n, bs. rewrite Nat2Z.id, app_assoc. apply decode_encoded_methods; [lia| |apply Ht].
    rewrite length_app, length_replicate, length_concat.
    change (map length (fixed_fields h)) with (length <$> fixed_fields h). by rewrite fixed_lengths. }
  assert (Hcut : cut FIXED_LENGTHS bs = fixed_fields h).
  { unfold bs. rewrite <- (fixed_lengths h Ht). apply cut_concat_app. }
  assert (Hn16 : in_width (8 * Z.of_nat 2) n) by (unfold in_width, n; cbn; lia).
  assert (Hn32 : in_width (8 * Z.of_nat 4) (n * METHOD_ENTRY_SIZE)).
  { unfold in_width, METHOD_ENTRY_SIZE, n. cbn. lia. }
  clearbody bs. rewrite cut_fixed in Hcut. unfold fixed_fields, FIXED_SLICES in Hcut.
  cbn [fmap list_fmap fst snd] in Hcut. fold n in Hcut. clearbody n.
  do 31 (let F := fresh "F" in apply list_cons_eq in Hcut as [F Hcut]). clear Hcut.
  unfold preamble. split.
  - split; [done|]. split_and!; (eapply get_eq; [eassumption|]); try done; split; (discriminate || reflexivity).
  - unfold read_header. rewrite Hm. destruct Ht.
    repeat match goal with
    | |- context [get ?k bs ?off] => erewrite (get_eq k bs off); [|eassumption|assumption]
    end.
    repeat match goal with X : slice _ _ bs = ?d |- context [slice _ _ bs] => rewrite X; clear X end.
    destruct h as [? ? ? ? ? ? ? ? ? [] ?]. reflexivity.
Qed.

Lemma slice_app_mid pre mid post i j : i = length pre -> j = (length pre + length mid)%nat ->
  slice i j (pre ++ mid ++ post) = mid.
Proof.
  intros -> ->. unfold slice. rewrite drop_app_length. by replace (_ - _)%nat with (length mid) by lia; rewrite take_app_length.
Qed.

Lemma fixed_bytes_length h : header_typed h -> length (concat (fixed_fields h)) = 272%nat.
Proof.
  intros Ht. rewrite length_concat. change (map length (fixed_fields h)) with (length <$> fixed_fields h).
  by rewrite fixed_lengths.
Qed.

Lemma decode_complete bs h : Forall byte bs -> length bs = Z.to_nat HEADER_SIZE ->
  header_typed h -> encode h = Ok bs -> decode bs = Ok h.
Proof.
  intros Hb Hl Ht He. unfold encode in He. apply bind_ok in He as [Hv [= Hbs]].
  pose proof (validate_sound H64 h Ht Hv) as Hok. pose proof (ho_count h Hok) as Hn.
  rewrite encode_header_bytes in Hbs by (done || lia).
  destruct (read_encoded h (replicate (Z.to_nat HEADER_SIZE - 320 - 32 * length (methods h)) 0) Ht Hn) as [Hp Hr].
  cbv zeta in Hp, Hr. rewrite Hbs in Hp, Hr. apply decode_iff; [done..|].
  exists (Z.of_nat (length (methods h))). split_and!; try done; try lia.
  - rewrite <- Hbs, slice_app_mid; [by apply Forall_replicate | by rewrite fixed_bytes_length |].
    by rewrite fixed_bytes_length, length_replicate.
  - rewrite <- Hbs, !app_assoc, <- (app_nil_r (replicate (_ - _ - _) 0)).
    rewrite slice_app_mid; [by apply Forall_replicate | |];
      rewrite ?length_app, ?length_replicate, ?fixed_bytes_length, ?table_length by done; unfold HEADER_SIZE; lia.
Qed.
End Wire.

(** The encoding of image headers is canonical: one page of bytes decodes to a header
    exactly when it is the encoding of that header (which includes that the header is
    valid) and the fields are in the range of their types.  So a header survives
    the trip through an artifact, and no two pages decode to the same header. *)
Theorem image_wire_canonical `{Target} bs h : usize_bits = 64 -> Forall byte bs ->
  length bs = Z.to_nat HEADER_SIZE ->
  decode bs = Ok h <-> header_typed h /\ encode h = Ok bs.
Proof.
  intros H64 Hb Hl. split; [by apply decode_sound|]. intros [Ht He]. by apply decode_complete.
Qed.

(** ** Examples *)

Definition demo_methods : list MethodEntry :=
  [ {| entry_id := 1; entry_signature := 1; entry_flags := 0; entry_offset := 4096; entry_size := 16;
       entry_alignment := 16; entry_reserved := 0 |};
    {| entry_id := 20; entry_signature := 3; entry_flags := 0; entry_offset := 4128; entry_size := 40;
       entry_alignment := 16; entry_reserved := 0 |} ].

Definition demo_header : ImageHeader := {|
  image_len := 5120; code_offset := 4096; code_len := 1024; code_alignment := 16;
  state_file_len := 1052672; payload_offset := 4096; payload_len := 1048576; state_alignment := 4096;
  code_sha256 := replicate 32 7;
  metadata := {| api_fingerprint := 77; state_fingerprint := 7; build_sha256 := replicate 32 8;
    provenance_sha256 := replicate 32 9; required_capabilities := 3; optional_capabilities := 4;
    required_hardening := 3; required_cpu_features := 1; required_state_address := 8192 |};
  methods := demo_methods |}.

Definition demo_api : PodApiDescriptor := {|
  namespace := b_str "demo"; fingerprint := 77;
  api_methods := [ {| spec_id := 1; spec_signature := NoArgsU64; symbol := b_str "a" |};
                   {| spec_id := 20; spec_signature := StateU64U64Status; symbol := b_str "b" |} ] |}.

Lemma demo_header_typed : header_typed demo_header.
Proof.
  constructor; try (split; (discriminate || reflexivity)).
  all: try (split; [by apply Forall_replicate | reflexivity]).
  repeat constructor; (discriminate || reflexivity).
Qed.

Lemma image_validation_exact_witness : new 1024 16 (replicate 32 7) (metadata demo_header) demo_methods = Ok demo_header /\
  header_ok demo_header.
Proof.
  split; [vm_compute; reflexivity|].
  apply (image_validation_exact (H := target64) demo_header eq_refl demo_header_typed). vm_compute. reflexivity.
Defined.

Definition demo_page : list Z :=
  match encode demo_header with Ok bytes => bytes | Err _ => [] end.

Lemma image_wire_canonical_witness : length demo_page = Z.to_nat HEADER_SIZE /\ decode demo_page = Ok demo_header.
Proof.
  assert (Hl : length demo_page = Z.to_nat HEADER_SIZE) by (vm_compute; reflexivity).
  split; [exact Hl|]. apply (image_wire_canonical (H := target64) demo_page demo_header eq_refl); [|exact Hl|].
  - apply forallb_byte. vm_compute. reflexivity.
  - split; [exact demo_header_typed | vm_compute; reflexivity].
Defined.
