(* ===== verification/OffsetTable.v ===== *)
(** The code of the demonstration pod: [shmem_exec_obj/v2/poc/code/src/lib.rs].

    A table of 64-bit counters in a growable vector of a bump arena, all inside one
    mapped region, and the C entry points of an embedded indicator.  A region is its
    [State] and the words behind it, addressed by byte offset from the base.  The
    table's entry points hold the state's lock from validation to return, so each is
    one step on the region; the indicator's entry points take no lock and are
    programs over its cells. *)

From S2P Require Import Prelude Conc.
From S2P Require Snzi.

(** [u64::from_le_bytes] of [b"POD2RUST"] *)
Definition STATE_MAGIC : Z := Eval vm_compute in of_le_bytes (b_str "POD2RUST").
Definition STATUS_OK : Z := 0.
Definition STATUS_NULL : Z := -1.
Definition STATUS_BAD_STATE : Z := -2.
Definition STATUS_OUT_OF_MEMORY : Z := -3.
Definition STATUS_NOT_FOUND : Z := -4.
Definition STATUS_BAD_ARGUMENT : Z := -5.
Definition STATUS_SNZI_INVALID_LEAF : Z := -10.
Definition STATUS_SNZI_MALFORMED_TOKEN : Z := -11.
Definition STATUS_SNZI_GENERATION_MISMATCH : Z := -12.
Definition STATUS_SNZI_INACTIVE_TOKEN : Z := -13.
Definition STATUS_SNZI_POISONED : Z := -14.
Definition MIN_CAPACITY : Z := 4.
Definition INVALID_U64 : Z := u64_max.
Definition SNZI_NODES : Z := 20.
Definition SNZI_LEAF_COUNT : Z := Snzi.leaf_count SNZI_NODES.
Definition SNZI_TOKEN_LEAF_MASK : Z := Z.shiftl 1 16 - 1.
Definition SNZI_TOKEN_RESERVED_BIT : Z := Z.shiftl 1 63.
Definition SNZI_TOKEN_GENERATION_SHIFT : Z := 16.

(** [*b"offset-snzi-v1!!"] *)
Definition LAYOUT_TAG : list Z := b_str "offset-snzi-v1!!".

Record OffsetArena := { first : Z; next : Z; end_ : Z; allocations : Z }.
Record OffsetVec := { offset : Z; len : Z; capacity : Z; generations : Z }.
Record Entry := { key : Z; value : Z }.

(** [snzi_poison] is what the embedded indicator reports as its poison reason. *)
Record State := {
  magic : Z;
  layout_hash : Z;
  region_len : Z;
  arena : OffsetArena;
  entries : OffsetVec;
  operations : Z;
  snzi_poison : option Snzi.PoisonReason
}.

Record region := { state : State; words : Z -> Z }.

(** What the compiler chose for the [repr(Rust)] types: size and alignment of
    [State], the places of an entry's two words, and the words that describe the
    layout and the fingerprints of the lock and the indicator. *)
Class PodLayout := {
  size_of_State : Z;
  align_of_State : Z;
  key_first : bool;
  layout_words : list Z;
  size_of_State_ok : 0 < size_of_State < 2 ^ 32 /\ size_of_State mod 8 = 0
}.

Definition size_of_Entry : Z := 16.
Definition align_of_Entry : Z := 8.

Definition align_up (value alignment : Z) : Z :=
  Z.land (wrapping_add 32 value (alignment - 1)) (not_bits 32 (alignment - 1)).

Definition mix (hash value : Z) : Z := wrapping_mul 64 (Z.lxor hash value) 0x100000001b3.

Section Pod.
Context `{PodLayout}.

Definition layout_hash_impl : Z :=
  foldl mix (foldl mix 0xcbf29ce484222325 LAYOUT_TAG) layout_words.

(** [state.is_null() || state & (align_of::<State>() - 1) != 0] *)
Definition bad_pointer (pointer : Z) : bool :=
  (pointer =? 0) || negb (Z.land pointer (align_of_State - 1) =? 0).

Definition checked_state (base : Z) (r : region) : result unit Z :=
  reject bad_pointer base with STATUS_NULL ;;
  reject negb (magic (state r) =? STATE_MAGIC) || negb (layout_hash (state r) =? layout_hash_impl)
    with STATUS_BAD_STATE ;;
  Ok tt.

Definition validate_inner (s : State) (supplied_len : Z) : bool :=
  let a := arena s in
  let v := entries s in
  if negb (region_len s =? supplied_len) || (region_len s <? size_of_State) || (u32_max <? region_len s)
  then false
  else if (first a <? size_of_State) || (next a <? first a) || (end_ a <? next a)
          || negb (end_ a =? region_len s)
  then false
  else if capacity v <? len v then false
  else if match snzi_poison s with Some _ => true | None => false end then false
  else if capacity v =? 0 then (offset v =? 0) && (len v =? 0)
  else
    let bytes := wrapping_mul 64 (capacity v) size_of_Entry in
    (first a <=? offset v) && (offset v + bytes <=? next a) && (offset v mod align_of_Entry =? 0).

(** Reading and writing entry [index] of the vector at [offset]. *)
Definition entry_at (offset index : Z) : Z := offset + index * size_of_Entry.
Definition key_word (at_ : Z) : Z := if key_first then at_ else at_ + 8.
Definition value_word (at_ : Z) : Z := if key_first then at_ + 8 else at_.
Definition read_entry (m : Z -> Z) (at_ : Z) : Entry :=
  {| key := m (key_word at_); value := m (value_word at_) |}.
Definition write_entry (m : Z -> Z) (at_ : Z) (e : Entry) : Z -> Z :=
  upd (upd m (key_word at_) (key e)) (value_word at_) (value e).

Definition with_state (r : region) (s : State) : region := {| state := s; words := words r |}.
Definition with_arena (s : State) (a : OffsetArena) : State :=
  {| magic := magic s; layout_hash := layout_hash s; region_len := region_len s; arena := a;
     entries := entries s; operations := operations s; snzi_poison := snzi_poison s |}.
Definition with_entries (s : State) (v : OffsetVec) : State :=
  {| magic := magic s; layout_hash := layout_hash s; region_len := region_len s; arena := arena s;
     entries := v; operations := operations s; snzi_poison := snzi_poison s |}.
Definition count_operation (s : State) : State :=
  {| magic := magic s; layout_hash := layout_hash s; region_len := region_len s; arena := arena s;
     entries := entries s; operations := wrapping_add 64 (operations s) 1; snzi_poison := snzi_poison s |}.

Definition arena_allocate (s : State) (size alignment : Z) : option Z * State :=
  let a := arena s in
  let aligned := align_up (next a) alignment in
  if aligned <? next a then (None, s)
  else
    let e := wrapping_add 32 aligned size in
    if (e <? aligned) || (end_ a <? e) then (None, s)
    else (Some aligned, with_arena s {| first := first a; next := e; end_ := end_ a;
                                       allocations := wrapping_add 32 (allocations a) 1 |}).

(** The copy loop of [grow_vector], [n] entries to go. *)
Fixpoint copy_entries (m : Z -> Z) (old_offset new_offset index : Z) (n : nat) : Z -> Z :=
  match n with
  | O => m
  | S n =>
      let old := read_entry m (entry_at old_offset index) in
      copy_entries (write_entry m (entry_at new_offset index) old) old_offset new_offset (index + 1) n
  end.

Definition grow_vector (r : region) : bool * region :=
  let v := entries (state r) in
  let new_capacity := if capacity v =? 0 then MIN_CAPACITY else wrapping_mul 32 (capacity v) 2 in
  if new_capacity <=? capacity v then (false, r)
  else
    let bytes_u64 := wrapping_mul 64 new_capacity size_of_Entry in
    if u32_max <? bytes_u64 then (false, r)
    else
      match arena_allocate (state r) bytes_u64 align_of_Entry with
      | (None, s) => (false, with_state r s)
      | (Some new_offset, s) =>
          let m := copy_entries (words r) (offset v) new_offset 0 (Z.to_nat (len v)) in
          let s := with_entries s {| offset := new_offset; len := len v; capacity := new_capacity;
                                     generations := wrapping_add 32 (generations v) 1 |} in
          (true, {| state := s; words := m |})
      end.

(** ** The entry points of the table *)

Definition shmem_pod_layout_size : Z := size_of_State.
Definition shmem_pod_layout_align : Z := align_of_State.
Definition shmem_pod_layout_hash : Z := layout_hash_impl.

Definition shmem_pod_init (base region_len : Z) (r : region) : Z * region :=
  if bad_pointer base then (STATUS_NULL, r)
  else if (region_len <? size_of_State) || (u32_max <? region_len) then (STATUS_BAD_ARGUMENT, r)
  else
    let first := align_up size_of_State align_of_Entry in
    (STATUS_OK, with_state r {|
       magic := STATE_MAGIC; layout_hash := layout_hash_impl; region_len := region_len;
       arena := {| first := first; next := first; end_ := region_len; allocations := 0 |};
       entries := {| offset := 0; len := 0; capacity := 0; generations := 0 |};
       operations := 0; snzi_poison := None |}).

Definition shmem_pod_validate (base region_len : Z) (r : region) : Z :=
  match checked_state base r with
  | Err status => status
  | Ok _ => if validate_inner (state r) region_len then STATUS_OK else STATUS_BAD_STATE
  end.

(** The search loop: the index of the entry with [k], [n] entries to go. *)
Fixpoint find_entry (m : Z -> Z) (offset k index : Z) (n : nat) : option Z :=
  match n with
  | O => None
  | S n =>
      if key (read_entry m (entry_at offset index)) =? k then Some index
      else find_entry m offset k (index + 1) n
  end.

Definition lookup_entry (r : region) (k : Z) : option Z :=
  find_entry (words r) (offset (entries (state r))) k 0 (Z.to_nat (len (entries (state r)))).

(** [entry.write(Entry { key, value: delta })] behind the last entry. *)
Definition append_entry (r : region) (e : Entry) : region :=
  let v := entries (state r) in
  let index := len v in
  {| state := count_operation (with_entries (state r)
       {| offset := offset v; len := index + 1; capacity := capacity v; generations := generations v |});
     words := write_entry (words r) (entry_at (offset v) index) e |}.

Definition shmem_pod_upsert (base k delta : Z) (r : region) : Z * region :=
  match checked_state base r with
  | Err status => (status, r)
  | Ok _ =>
      if negb (validate_inner (state r) (region_len (state r))) then (STATUS_BAD_STATE, r)
      else
        match lookup_entry r k with
        | Some index =>
            let at_ := entry_at (offset (entries (state r))) index in
            let old := read_entry (words r) at_ in
            (STATUS_OK, {| state := count_operation (state r);
                           words := upd (words r) (value_word at_) (wrapping_add 64 (value old) delta) |})
        | None =>
            if len (entries (state r)) =? capacity (entries (state r)) then
              match grow_vector r with
              | (false, r) => (STATUS_OUT_OF_MEMORY, r)
              | (true, r) => (STATUS_OK, append_entry r {| key := k; value := delta |})
              end
            else (STATUS_OK, append_entry r {| key := k; value := delta |})
        end
  end.

(** The status, and what is written to [*output]. *)
Definition shmem_pod_get (base k output : Z) (r : region) : Z * option Z :=
  if output =? 0 then (STATUS_BAD_ARGUMENT, None)
  else
    match checked_state base r with
    | Err status => (status, None)
    | Ok _ =>
        if negb (validate_inner (state r) (region_len (state r))) then (STATUS_BAD_STATE, None)
        else
          match lookup_entry r k with
          | Some index =>
              (STATUS_OK, Some (value (read_entry (words r) (entry_at (offset (entries (state r))) index))))
          | None => (STATUS_NOT_FOUND, None)
          end
    end.

Definition read_stat (base : Z) (which : nat) (r : region) : Z :=
  match checked_state base r with
  | Err _ => INVALID_U64
  | Ok _ =>
      if negb (validate_inner (state r) (region_len (state r))) then INVALID_U64
      else
        match which with
        | O => len (entries (state r))
        | S O => next (arena (state r))
        | _ => capacity (entries (state r))
        end
  end.

Definition shmem_pod_len (base : Z) (r : region) : Z := read_stat base 0 r.
Definition shmem_pod_allocated (base : Z) (r : region) : Z := read_stat base 1 r.
Definition shmem_pod_capacity (base : Z) (r : region) : Z := read_stat base 2 r.

(** ** The entry points of the indicator *)

Definition snzi_error_status (e : Snzi.SnziError) : Z :=
  match e with
  | Snzi.InvalidLeaf _ _ => STATUS_SNZI_INVALID_LEAF
  | Snzi.MalformedToken => STATUS_SNZI_MALFORMED_TOKEN
  | Snzi.GenerationMismatch _ _ _ => STATUS_SNZI_GENERATION_MISMATCH
  | Snzi.InactiveToken _ _ => STATUS_SNZI_INACTIVE_TOKEN
  | Snzi.Poisoned _ => STATUS_SNZI_POISONED
  end.

Definition validate_raw_snzi_token (raw : Z) : result unit Z :=
  reject negb (Z.land raw SNZI_TOKEN_RESERVED_BIT =? 0) || (Z.shiftr raw SNZI_TOKEN_GENERATION_SHIFT =? 0)
    with STATUS_SNZI_MALFORMED_TOKEN ;;
  reject SNZI_LEAF_COUNT <=? Z.land raw SNZI_TOKEN_LEAF_MASK with STATUS_SNZI_INVALID_LEAF ;;
  Ok tt.

Definition shmem_pod_snzi_leaf_count : Z := SNZI_LEAF_COUNT.

Section Indicator.
Context `{Target} {Y : Type} (fuel : nat).
#[local] Abbreviation prog := (prog (Snzi.cell Y)).

(** [checked] is the outcome of [checked_state] on the state that holds the indicator. *)
Definition shmem_pod_snzi_arrive (checked : result unit Z) (leaf output : Z) : prog (Z * option Z) :=
  if (output =? 0) || negb (Z.land output 7 =? 0) then Ret (STATUS_BAD_ARGUMENT, None)
  else
    match checked with
    | Err status => Ret (status, None)
    | Ok _ =>
        match usize_try_from leaf with
        | None => Ret (STATUS_SNZI_INVALID_LEAF, None)
        | Some leaf =>
            let! arrived := Snzi.arrive SNZI_NODES fuel leaf in
            Ret (match arrived with
                 | Ok token => (STATUS_OK, Some (Snzi.into_raw token))
                 | Err e => (snzi_error_status e, None)
                 end)
        end
    end.

Definition shmem_pod_snzi_depart (checked : result unit Z) (token : Z) : prog Z :=
  match checked with
  | Err status => Ret status
  | Ok _ =>
      match validate_raw_snzi_token token with
      | Err status => Ret status
      | Ok _ =>
          let! departed := Snzi.depart_raw SNZI_NODES fuel token in
          Ret (match departed with Ok _ => STATUS_OK | Err e => snzi_error_status e end)
      end
  end.

Definition shmem_pod_snzi_query (checked : result unit Z) : prog Z :=
  match checked with
  | Err _ => Ret INVALID_U64
  | Ok _ => let! b := Snzi.query in Ret (Z.b2z b)
  end.

Definition shmem_pod_snzi_quiescent (checked : result unit Z) : prog Z :=
  match checked with
  | Err _ => Ret INVALID_U64
  | Ok _ => let! b := Snzi.is_quiescent SNZI_NODES in Ret (Z.b2z b)
  end.
End Indicator.
End Pod.
