(* ===== verification/OffsetTableCorrect.v ===== *)
(** The pod's table implements a map of wrapping 64-bit counters that runs out of
    memory exactly when its next vector does not fit the region. *)

From stdpp Require Import gmap.
From S2P Require Import Prelude Conc OffsetTable.

(** ** Entries in memory *)

Section Entries.
Context `{PodLayout}.

Lemma key_word_bounds a : a <= key_word a <= a + 8.
Proof. unfold key_word. destruct key_first; lia. Qed.
Lemma value_word_bounds a : a <= value_word a <= a + 8.
Proof. unfold value_word. destruct key_first; lia. Qed.
Lemma key_value_ne a : key_word a <> value_word a.
Proof. unfold key_word, value_word. destruct key_first; lia. Qed.

Lemma read_write_entry m a e : read_entry (write_entry m a e) a = e.
Proof.
  unfold read_entry, write_entry. rewrite upd_eq, upd_ne, upd_eq by apply key_value_ne. by destruct e.
Qed.

Lemma write_entry_other m a e x : x < a \/ a + 8 < x -> write_entry m a e x = m x.
Proof.
  intros Hx. pose proof (key_word_bounds a). pose proof (value_word_bounds a).
  unfold write_entry. rewrite !upd_ne by lia. done.
Qed.

Lemma read_entry_ext m m' a : (forall x, a <= x <= a + 8 -> m x = m' x) -> read_entry m a = read_entry m' a.
Proof.
  intros Hm. pose proof (key_word_bounds a). pose proof (value_word_bounds a).
  unfold read_entry. f_equal; apply Hm; lia.
Qed.

Lemma read_write_other m a e b : b + 8 < a \/ a + 8 < b -> read_entry (write_entry m a e) b = read_entry m b.
Proof. intros Hb. apply read_entry_ext. intros x Hx. apply write_entry_other. lia. Qed.

Lemma copy_entries_spec n m old new idx : 0 <= idx -> old + 16 * (idx + Z.of_nat n) <= new ->
  (forall x, x < new + 16 * idx -> copy_entries m old new idx n x = m x) /\
  (forall i, idx <= i < idx + Z.of_nat n ->
     read_entry (copy_entries m old new idx n) (entry_at new i) = read_entry m (entry_at old i)).
Proof.
  unfold entry_at, size_of_Entry. revert m idx. induction n as [|n IH]; intros m idx Hidx Hfit.
  { cbn. split; [done | lia]. }
  cbn [copy_entries]. unfold entry_at, size_of_Entry.
  set (m1 := write_entry m (new + idx * 16) _).
  destruct (IH m1 (idx + 1)) as [Hout Hin]; [lia..|]. split.
  - intros x Hx. rewrite Hout by lia. apply write_entry_other. lia.
  - intros i Hi. destruct (decide (i = idx)) as [->|Hne].
    + etransitivity; [apply read_entry_ext; intros x Hx; apply Hout; lia|]. apply read_write_entry.
    + rewrite Hin by lia. apply read_write_other. lia.
Qed.

(** The entries of a list, as they lie in memory. *)
Definition stored (m : Z -> Z) (off : Z) (l : list (Z * Z)) : Prop :=
  forall i k x, l !! i = Some (k, x) -> read_entry m (entry_at off (Z.of_nat i)) = {| key := k; value := x |}.

Lemma find_entry_spec m off k l idx :
  (forall i k' x, l !! i = Some (k', x) -> key (read_entry m (entry_at off (idx + Z.of_nat i))) = k') ->
  find_entry m off k idx (length l) =
  (fun ix => idx + Z.of_nat ix.1) <$> list_find (fun p : Z * Z => p.1 = k) l.
Proof.
  revert idx. induction l as [|[k0 x0] l IH]; intros idx Hl; [done|].
  cbn [length find_entry list_find fst]. pose proof (Hl 0%nat k0 x0 eq_refl) as H0.
  change (Z.of_nat 0) with 0 in H0. rewrite Z.add_0_r in H0. rewrite H0. clear H0.
  destruct (Z.eqb_spec k0 k) as [->|Hne].
  - rewrite decide_True by done. cbn. f_equal. lia.
  - rewrite decide_False by done. rewrite IH.
    + destruct (list_find _ l) as [[i p]|]; [|done]. cbn. f_equal. lia.
    + intros i k' x Hi. rewrite <- (Hl (S i) k' x Hi). do 3 f_equal. lia.
Qed.

Lemma stored_insert m off l i k x x' : stored m off l -> l !! i = Some (k, x) ->
  stored (upd m (value_word (entry_at off (Z.of_nat i))) x') off (<[i := (k, x')]> l).
Proof.
  intros Hl Hi j k0 x0 Hj. unfold read_entry.
  destruct (decide (j = i)) as [->|Hne].
  - rewrite list_lookup_insert_eq in Hj by (by eapply lookup_lt_Some). simplify_eq.
    rewrite upd_eq, upd_ne by apply key_value_ne. specialize (Hl i _ _ Hi). unfold read_entry in Hl. by simplify_eq.
  - rewrite list_lookup_insert_ne in Hj by done. specialize (Hl j k0 x0 Hj). unfold read_entry in Hl.
    pose proof (value_word_bounds (entry_at off (Z.of_nat i))). pose proof (key_word_bounds (entry_at off (Z.of_nat j))).
    pose proof (value_word_bounds (entry_at off (Z.of_nat j))). unfold entry_at, size_of_Entry in *.
    rewrite !upd_ne by lia. done.
Qed.

Lemma stored_app m off l k x : stored m off l ->
  stored (write_entry m (entry_at off (Z.of_nat (length l))) {| key := k; value := x |}) off (l ++ [(k, x)]).
Proof.
  intros Hl j k0 x0 Hj. apply lookup_app_Some in Hj as [Hj|[Hge Hj]].
  - rewrite <- (Hl j k0 x0 Hj). apply read_write_other. apply lookup_lt_Some in Hj.
    unfold entry_at, size_of_Entry. lia.
  - apply list_lookup_singleton_Some in Hj as [Hj ?]. simplify_eq. assert (j = length l) as -> by lia.
    apply read_write_entry.
Qed.

Lemma stored_copy m old new l : old + 16 * Z.of_nat (length l) <= new -> stored m old l ->
  stored (copy_entries m old new 0 (length l)) new l.
Proof.
  intros Hfit Hl i k x Hi. destruct (copy_entries_spec (length l) m old new 0) as [_ Hin]; [lia..|].
  rewrite Hin; [by apply Hl|]. apply lookup_lt_Some in Hi. lia.
Qed.
End Entries.

(** ** The invariant *)

Section Invariant.
Context `{PodLayout}.

(** Vectors of 4, 8, 16, .. entries are laid out one behind the other. *)
Definition vec_shape (s : State) : Prop :=
  let a := arena s in let v := entries s in
  (capacity v = 0 /\ offset v = 0 /\ len v = 0 /\ next a = first a) \/
  (exists j, 0 <= j /\ capacity v = 4 * 2 ^ j /\ next a = first a + 16 * (2 * capacity v - 4) /\
     offset v = next a - 16 * capacity v /\ len v <= capacity v).

Record table_core (r : region) (l : list (Z * Z)) : Prop := {
  tc_magic : magic (state r) = STATE_MAGIC;
  tc_hash : layout_hash (state r) = layout_hash_impl;
  tc_region : size_of_State <= region_len (state r) <= u32_max;
  tc_first : first (arena (state r)) = size_of_State;
  tc_end : end_ (arena (state r)) = region_len (state r);
  tc_next : next (arena (state r)) <= region_len (state r);
  tc_poison : snzi_poison (state r) = None;
  tc_len : len (entries (state r)) = Z.of_nat (length l);
  tc_shape : vec_shape (state r);
  tc_stored : stored (words r) (offset (entries (state r))) l;
  tc_keys : NoDup l.*1
}.

(** No vector is larger than its entries need. *)
Definition tight (r : region) : Prop :=
  let v := entries (state r) in
  capacity v = 0 \/ (capacity v = 4 /\ 0 < len v) \/ capacity v < 2 * len v.

Lemma checked_state_ok base r l : bad_pointer base = false -> table_core r l -> checked_state base r = Ok tt.
Proof.
  intros Hb []. unfold checked_state. by rewrite Hb, tc_magic0, tc_hash0, !Z.eqb_refl.
Qed.

Lemma validate_inner_ok r l : table_core r l -> validate_inner (state r) (region_len (state r)) = true.
Proof.
  intros []. unfold validate_inner. cbv zeta. rewrite tc_first0, tc_end0, tc_poison0, !Z.eqb_refl. cbn [negb orb].
  pose proof size_of_State_ok as [Hs Hm]. unfold u32_max in *.
  destruct (Z.ltb_spec (region_len (state r)) size_of_State); [lia|].
  destruct (Z.ltb_spec (2 ^ 32 - 1) (region_len (state r))); [lia|]. cbn [orb].
  destruct (Z.ltb_spec size_of_State size_of_State); [lia|]. cbn [orb].
  destruct (Z.ltb_spec (region_len (state r)) (next (arena (state r)))); [lia|].
  destruct tc_shape0 as [(C & O & L & N)|(j & Hj & C & N & O & L)].
  - rewrite C, O, L, N, tc_first0. destruct (Z.ltb_spec size_of_State size_of_State); [lia|]. done.
  - rewrite tc_first0 in *. assert (1 <= 2 ^ j) by lia.
    destruct (Z.ltb_spec (next (arena (state r))) size_of_State); [lia|]. cbn [orb].
    destruct (Z.ltb_spec (capacity (entries (state r))) (len (entries (state r)))); [lia|].
    destruct (Z.eqb_spec (capacity (entries (state r))) 0); [lia|].
    unfold wrapping_mul, wrap, size_of_Entry, align_of_Entry. rewrite (Z.mod_small (_ * 16)) by lia.
    rewrite !andb_true_iff, !Z.leb_le, Z.eqb_eq. split_and!; [lia..|]. rewrite O, N. dlia.
Qed.

Lemma lookup_entry_spec r l k : table_core r l ->
  lookup_entry r k = (fun ix => Z.of_nat ix.1) <$> list_find (fun p : Z * Z => p.1 = k) l.
Proof.
  intros []. unfold lookup_entry. rewrite tc_len0, Nat2Z.id, (find_entry_spec _ _ _ l).
  - by destruct (list_find _ _) as [[]|].
  - intros i k' x Hi. by rewrite Z.add_0_l, (tc_stored0 i k' x Hi).
Qed.

Lemma align_up_8 x : 0 <= x < 2 ^ 32 -> x mod 8 = 0 -> align_up x 8 = x.
Proof.
  intros Hx Hm. unfold align_up, wrapping_add, wrap. rewrite Z.mod_small by dlia.
  change (8 - 1) with (2 ^ 3 - 1). rewrite land_not_mask by (split; lia || dlia). dlia.
Qed.

(** The capacity after growth, and the end of the vector it needs. *)
Definition new_capacity (s : State) : Z :=
  if capacity (entries s) =? 0 then 4 else 2 * capacity (entries s).
Definition new_end (s : State) : Z := next (arena s) + 16 * new_capacity s.

Lemma next_aligned r l : table_core r l ->
  0 <= next (arena (state r)) < 2 ^ 32 /\ next (arena (state r)) mod 8 = 0 /\ 0 <= capacity (entries (state r)) < 2 ^ 28.
Proof.
  intros []. pose proof size_of_State_ok as [Hs Hm]. unfold u32_max in *.
  destruct tc_shape0 as [(C & O & L & N)|(j & Hj & C & N & O & L)]; rewrite tc_first0 in *.
  - rewrite N, C. split_and!; (lia || done).
  - assert (1 <= 2 ^ j) by lia. split_and!; try lia. rewrite N. dlia.
Qed.

Lemma arena_allocate_spec r l size : table_core r l -> 0 < size < 2 ^ 32 ->
  arena_allocate (state r) size align_of_Entry =
  if region_len (state r) <? next (arena (state r)) + size then (None, state r)
  else (Some (next (arena (state r))), with_arena (state r)
    {| first := first (arena (state r)); next := next (arena (state r)) + size; end_ := end_ (arena (state r));
       allocations := wrapping_add 32 (allocations (arena (state r))) 1 |}).
Proof.
  intros Hc Hsize. destruct (next_aligned r l Hc) as (Hn & Hm & _). destruct Hc.
  unfold arena_allocate. cbv zeta. unfold align_of_Entry. rewrite align_up_8, tc_end0 by done.
  destruct (Z.ltb_spec (next (arena (state r))) (next (arena (state r)))); [lia|].
  unfold wrapping_add at 1 2 3, wrap. unfold u32_max in *.
  destruct (Z.ltb_spec (region_len (state r)) (next (arena (state r)) + size)).
  - assert ((((next (arena (state r)) + size) mod 2 ^ 32 <? next (arena (state r)))
      || (region_len (state r) <? (next (arena (state r)) + size) mod 2 ^ 32)) = true) as ->; [|done].
    rewrite orb_true_iff, !Z.ltb_lt.
    destruct (decide (next (arena (state r)) + size < 2 ^ 32)); [right; rewrite Z.mod_small; lia | left; dlia].
  - rewrite Z.mod_small by lia.
    destruct (Z.ltb_spec (next (arena (state r)) + size) (next (arena (state r)))); [lia|].
    destruct (Z.ltb_spec (region_len (state r)) (next (arena (state r)) + size)); [lia|]. done.
Qed.

Lemma new_capacity_spec r l : table_core r l ->
  (if capacity (entries (state r)) =? 0 then MIN_CAPACITY else wrapping_mul 32 (capacity (entries (state r))) 2)
    = new_capacity (state r) /\
  capacity (entries (state r)) < new_capacity (state r) <= 2 ^ 29 /\
  exists j, 0 <= j /\ new_capacity (state r) = 4 * 2 ^ j /\
    next (arena (state r)) + 16 * new_capacity (state r) =
    first (arena (state r)) + 16 * (2 * new_capacity (state r) - 4).
Proof.
  intros Hc. destruct (next_aligned r l Hc) as (_ & _ & Hcap).
  unfold new_capacity, MIN_CAPACITY, wrapping_mul, wrap.
  destruct (Z.eqb_spec (capacity (entries (state r))) 0) as [H0|H0]; split_and!; try lia.
  - exists 0. destruct (tc_shape r l Hc) as [(C & O & L & N)|(j & Hj & C & N & O & L)]; lia.
  - rewrite Z.mod_small; lia.
  - destruct (tc_shape r l Hc) as [(C & O & L & N)|(j & Hj & C & N & O & L)]; [done|].
    exists (j + 1). rewrite Z.pow_add_r by lia. lia.
Qed.

Lemma grow_vector_spec r l : table_core r l -> len (entries (state r)) = capacity (entries (state r)) ->
  if region_len (state r) <? new_end (state r) then grow_vector r = (false, r)
  else exists r', grow_vector r = (true, r') /\ table_core r' l /\
    capacity (entries (state r')) = new_capacity (state r) /\
    region_len (state r') = region_len (state r).
Proof.
  intros Hc Hfull. destruct (next_aligned r l Hc) as (Hn & Hm & Hcap).
  unfold new_end. destruct (new_capacity_spec r l Hc) as (Hnew & Hcr & Hshape).
  set (c := new_capacity (state r)) in *. unfold grow_vector. cbv zeta. rewrite Hnew. clearbody c.
  destruct (Z.leb_spec c (capacity (entries (state r)))); [lia|].
  replace (wrapping_mul 64 c size_of_Entry) with (16 * c)
    by (unfold wrapping_mul, wrap, size_of_Entry; rewrite Z.mod_small; lia).
  pose proof (tc_region r l Hc) as Hreg. unfold u32_max in *.
  destruct (Z.ltb_spec (2 ^ 32 - 1) (16 * c)).
  { by destruct (Z.ltb_spec (region_len (state r)) (next (arena (state r)) + 16 * c)); [|lia]. }
  rewrite (arena_allocate_spec r l) by (done || lia).
  destruct (Z.ltb_spec (region_len (state r)) (next (arena (state r)) + 16 * c)); [by destruct r|].
  eexists. split; [reflexivity|]. split; [|done]. destruct Hc. constructor; cbn; try done.
  - rewrite tc_len0 in Hfull. destruct Hshape as (j & Hj & C & N). right. exists j. cbn. split_and!; (done || lia).
  - rewrite tc_len0, Nat2Z.id. apply stored_copy; [|done].
    destruct tc_shape0 as [(C & O & L & N)|(j & Hj & C & N & O & L)]; lia.
Qed.
End Invariant.

(** ** The operations *)

(** A table of [n] entries in a region of [rl] bytes cannot take another key: its
    vector is full and the next one does not fit behind those it has used. *)
Definition table_full `{PodLayout} (rl n : Z) : bool :=
  ((n =? 0) || ((4 <=? n) && is_power_of_two n)) &&
  (rl <? size_of_State + (if n =? 0 then 64 else 16 * (4 * n - 4))).

Section Operations.
Context `{PodLayout}.

Lemma full_vector r l : table_core r l -> tight r ->
  (len (entries (state r)) =? capacity (entries (state r))) =
  ((len (entries (state r)) =? 0) || ((4 <=? len (entries (state r))) && is_power_of_two (len (entries (state r))))).
Proof.
  intros [] Ht. unfold tight in Ht. apply eq_true_iff_eq.
  rewrite orb_true_iff, andb_true_iff, !Z.eqb_eq, Z.leb_le, is_power_of_two_spec.
  destruct tc_shape0 as [(C & O & L & N)|(j & Hj & C & N & O & L)]; [naive_solver lia|].
  assert (1 <= 2 ^ j) by lia. split.
  - intros ->. right. split; [lia|]. exists (j + 2). rewrite Z.pow_add_r by lia. lia.
  - intros [?|[H4 (k & Hk & Hk')]]; [lia|]. destruct Ht as [?|[?|Ht]]; [lia..|].
    rewrite Hk' in *. assert (4 * 2 ^ j = 2 ^ (j + 2)) as Hp by (rewrite Z.pow_add_r by lia; lia).
    rewrite C, Hp in *. f_equal. assert (2 ^ (k + 1) = 2 * 2 ^ k) as Hk1 by (rewrite Z.pow_add_r by lia; lia).
    rewrite <- Hk1 in Ht. apply Z.pow_lt_mono_r_iff in Ht; [|lia..].
    apply Z.pow_le_mono_r_iff in L; lia.
Qed.

Lemma table_full_spec r l : table_core r l -> tight r ->
  (len (entries (state r)) =? capacity (entries (state r))) && (region_len (state r) <? new_end (state r)) =
  table_full (region_len (state r)) (Z.of_nat (length l)).
Proof.
  intros Hc Ht. unfold table_full. rewrite <- (tc_len r l Hc), <- (full_vector r l Hc Ht).
  destruct (Z.eqb_spec (len (entries (state r))) (capacity (entries (state r)))) as [Hf|]; [|done]. cbn [andb].
  f_equal. unfold new_end, new_capacity. destruct Hc. rewrite Hf, <- tc_first0.
  destruct tc_shape0 as [(C & O & L & N)|(j & Hj & C & N & O & L)]; rewrite N.
  - by rewrite C.
  - destruct (Z.eqb_spec (capacity (entries (state r))) 0); lia.
Qed.

Lemma append_core r l k d : table_core r l -> len (entries (state r)) < capacity (entries (state r)) -> k ∉ l.*1 ->
  table_core (append_entry r {| key := k; value := d |}) (l ++ [(k, d)]).
Proof.
  intros [] Hlt Hk. constructor; cbn; try done.
  - rewrite length_app, tc_len0. cbn. lia.
  - destruct tc_shape0 as [(C & O & L & N)|(j & Hj & C & N & O & L)]; [lia|].
    right. exists j. cbn. split_and!; (done || lia).
  - rewrite tc_len0. by apply stored_app.
  - rewrite fmap_app. apply list.NoDup_app. split_and!; [done | | apply NoDup_singleton].
    intros x Hx Hx'. by apply list_elem_of_singleton in Hx' as ->.
Qed.

Lemma update_core r l i k x x' : table_core r l -> l !! i = Some (k, x) ->
  table_core {| state := count_operation (state r);
    words := upd (words r) (value_word (entry_at (offset (entries (state r))) (Z.of_nat i))) x' |} (<[i := (k, x')]> l).
Proof.
  intros [] Hi. constructor; cbn; try done.
  - by rewrite length_insert.
  - by eapply stored_insert.
  - rewrite list_fmap_insert. cbn. rewrite list_insert_id; [done|]. by rewrite list_lookup_fmap, Hi.
Qed.

(** [upsert] on every branch. *)
Lemma upsert_spec base k d r l : bad_pointer base = false -> table_core r l -> tight r ->
  match list_find (fun p : Z * Z => p.1 = k) l with
  | Some (i, (_, x)) => exists r', shmem_pod_upsert base k d r = (STATUS_OK, r') /\
      table_core r' (<[i := (k, wrap 64 (x + d))]> l) /\ tight r' /\ region_len (state r') = region_len (state r)
  | None =>
      if table_full (region_len (state r)) (Z.of_nat (length l))
      then shmem_pod_upsert base k d r = (STATUS_OUT_OF_MEMORY, r)
      else exists r', shmem_pod_upsert base k d r = (STATUS_OK, r') /\
        table_core r' (l ++ [(k, d)]) /\ tight r' /\ region_len (state r') = region_len (state r)
  end.
Proof.
  intros Hb Hc Ht. unfold shmem_pod_upsert.
  rewrite (checked_state_ok base r l), (validate_inner_ok r l), (lookup_entry_spec r l) by done. cbn [negb].
  destruct (list_find _ l) as [[i [k' x]]|] eqn:Hf; cbn [fmap option_fmap option_map fst].
  - apply list_find_Some in Hf as (Hi & Hk & _). cbn in Hk. subst k'. eexists. split; [reflexivity|].
    rewrite (tc_stored r l Hc i k x Hi). cbn [value]. split; [by apply update_core with x | done].
  - assert (Hk : k ∉ l.*1).
    { apply list_find_None in Hf. intros Hin. apply list_elem_of_fmap in Hin as (p & -> & Hp).
      rewrite list.Forall_forall in Hf. by apply (Hf p Hp). }
    rewrite <- (table_full_spec r l) by done. pose proof (tc_len r l Hc) as Hlen.
    destruct (Z.eqb_spec (len (entries (state r))) (capacity (entries (state r)))) as [Hfull|Hnf]; cbn [andb].
    + pose proof (grow_vector_spec r l Hc Hfull) as Hg.
      destruct (region_len (state r) <? new_end (state r)); [by rewrite Hg|].
      destruct Hg as (r' & -> & Hc' & Hcap & Hreg). eexists. split; [reflexivity|].
      pose proof (tc_len r' l Hc') as Hlen'. destruct (new_capacity_spec r l Hc) as (_ & Hlt & _). split_and!.
      * apply append_core; [done | lia | done].
      * unfold tight. cbn. unfold new_capacity in Hcap. destruct (Z.eqb_spec (capacity (entries (state r))) 0); lia.
      * done.
    + eexists. split; [reflexivity|]. assert (len (entries (state r)) < capacity (entries (state r))).
      { destruct (tc_shape r l Hc) as [(C & O & L & N)|(j & Hj & C & N & O & L)]; lia. }
      split_and!; [by apply append_core | | done]. unfold tight in *. cbn. lia.
Qed.
End Operations.

(** ** The table as a map *)

Inductive call := Upsert (k d : Z) | Get (k : Z) | Length | Validate.

(** A reply is a status or number, and what was written to the caller's output. *)
Definition reply : Type := Z * option Z.

Fixpoint replies {S} (step : call -> S -> reply * S) (cs : list call) (s : S) : list reply :=
  match cs with
  | [] => []
  | c :: cs => let '(x, s) := step c s in x :: replies step cs s
  end.

Definition perform `{PodLayout} (base output rl : Z) (c : call) (r : region) : reply * region :=
  match c with
  | Upsert k d => let '(status, r) := shmem_pod_upsert base k d r in ((status, None), r)
  | Get k => (shmem_pod_get base k output r, r)
  | Length => ((shmem_pod_len base r, None), r)
  | Validate => ((shmem_pod_validate base rl r, None), r)
  end.

(** The specification: a finite map of wrapping counters. *)
Definition spec_perform `{PodLayout} (rl : Z) (c : call) (m : gmap Z Z) : reply * gmap Z Z :=
  match c with
  | Upsert k d =>
      match m !! k with
      | Some x => ((STATUS_OK, None), <[k := wrap 64 (x + d)]> m)
      | None => if table_full rl (Z.of_nat (size m)) then ((STATUS_OUT_OF_MEMORY, None), m)
                else ((STATUS_OK, None), <[k := d]> m)
      end
  | Get k => (match m !! k with Some x => (STATUS_OK, Some x) | None => (STATUS_NOT_FOUND, None) end, m)
  | Length => ((Z.of_nat (size m), None), m)
  | Validate => ((STATUS_OK, None), m)
  end.

Lemma list_to_map_update l i k x x' : NoDup l.*1 -> l !! i = Some (k, x) ->
  list_to_map (<[i := (k, x')]> l) = <[k := x']> (list_to_map l : gmap Z Z).
Proof.
  revert i. induction l as [|[k0 x0] l IH]; intros i Hnd Hi; [done|].
  apply list.NoDup_cons in Hnd as [Hk0 Hnd]. destruct i as [|i]; cbn in Hi.
  - simplify_eq. change (<[0%nat := (k, x')]> ((k, x) :: l)) with ((k, x') :: l).
    by rewrite !list_to_map_cons, insert_insert_eq.
  - change (<[S i := (k, x')]> ((k0, x0) :: l)) with ((k0, x0) :: <[i := (k, x')]> l).
    rewrite !list_to_map_cons, (IH i) by done. apply insert_insert_ne. intros ->. apply Hk0.
    apply list_elem_of_fmap. exists (k, x). split; [done|]. by eapply list_elem_of_lookup_2.
Qed.

Lemma list_to_map_find l k : NoDup l.*1 ->
  (list_to_map l : gmap Z Z) !! k = (fun ix => ix.2.2) <$> list_find (fun p : Z * Z => p.1 = k) l.
Proof.
  intros Hnd. destruct (list_find _ l) as [[i [k' x]]|] eqn:Hf; cbn.
  - apply list_find_Some in Hf as (Hi & Hk & _). cbn in Hk. subst k'.
    apply elem_of_list_to_map; [done|]. by eapply list_elem_of_lookup_2.
  - apply not_elem_of_list_to_map. apply list_find_None in Hf. intros Hin.
    apply list_elem_of_fmap in Hin as (p & -> & Hp). rewrite list.Forall_forall in Hf. by apply (Hf p Hp).
Qed.

Section Refinement.
Context `{PodLayout}.
Variables (base output rl : Z).
Hypothesis Hbase : bad_pointer base = false.
Hypothesis Houtput : output <> 0.

(** A region represents a map. *)
Definition represents (r : region) (m : gmap Z Z) : Prop :=
  exists l, table_core r l /\ tight r /\ region_len (state r) = rl /\ m = list_to_map l.

Lemma perform_simulates c r m : represents r m ->
  (perform base output rl c r).1 = (spec_perform rl c m).1 /\
  represents (perform base output rl c r).2 (spec_perform rl c m).2.
Proof.
  intros (l & Hc & Ht & Hrl & ->). pose proof (tc_keys r l Hc) as Hnd.
  assert (Hsize : Z.of_nat (size (list_to_map l : gmap Z Z)) = Z.of_nat (length l)) by (by rewrite map_size_list_to_map).
  destruct c as [k d|k| |]; cbn [perform spec_perform].
  - rewrite (list_to_map_find l k Hnd), Hsize. pose proof (upsert_spec base k d r l Hbase Hc Ht) as Hu.
    destruct (list_find _ l) as [[i [k' x]]|] eqn:Hf; cbn [fmap option_fmap option_map snd].
    + destruct Hu as (r' & -> & Hc' & Ht' & Hr'). apply list_find_Some in Hf as (Hi & Hk & _). cbn in Hk. subst k'.
      split; [done|]. eexists. split_and!; [exact Hc' | exact Ht' | exact (eq_trans Hr' Hrl) |]. symmetry. by apply list_to_map_update with x.
    + rewrite Hrl in Hu. destruct (table_full rl (Z.of_nat (length l))).
      * rewrite Hu. split; [done|]. by exists l.
      * destruct Hu as (r' & -> & Hc' & Ht' & Hr'). split; [done|]. eexists.
        split_and!; [exact Hc' | exact Ht' | exact Hr' |]. symmetry. apply list_to_map_snoc.
        intros Hin. apply list_find_None in Hf. apply list_elem_of_fmap in Hin as (p & -> & Hp).
        rewrite list.Forall_forall in Hf. by apply (Hf p Hp).
  - split; [|by exists l]. cbn [fst]. unfold shmem_pod_get. destruct (Z.eqb_spec output 0); [done|].
    rewrite (checked_state_ok base r l), (validate_inner_ok r l), (lookup_entry_spec r l) by done. cbn [negb].
    rewrite (list_to_map_find l k Hnd). destruct (list_find _ l) as [[i [k' x]]|] eqn:Hf; [|done].
    cbn [fmap option_fmap option_map fst snd].
    apply list_find_Some in Hf as (Hi & Hk & _). by rewrite (tc_stored r l Hc i k' x Hi).
  - split; [|by exists l]. cbn [fst]. unfold shmem_pod_len, read_stat.
    rewrite (checked_state_ok base r l), (validate_inner_ok r l) by done. cbn [negb]. by rewrite (tc_len r l Hc), Hsize.
  - split; [|by exists l]. cbn [fst]. unfold shmem_pod_validate.
    rewrite (checked_state_ok base r l) by done. rewrite <- Hrl, (validate_inner_ok r l) by done. done.
Qed.

Lemma replies_simulate cs r m : represents r m ->
  replies (perform base output rl) cs r = replies (spec_perform rl) cs m.
Proof.
  revert r m. induction cs as [|c cs IH]; intros r m Hr; [done|]. cbn [replies].
  destruct (perform_simulates c r m Hr) as [Heq Hr'].
  destruct (perform base output rl c r) as [x r'], (spec_perform rl c m) as [y m']. cbn in Heq, Hr'. subst y.
  f_equal. by apply IH.
Qed.

Lemma init_represents r : size_of_State <= rl <= u32_max ->
  exists r', shmem_pod_init base rl r = (STATUS_OK, r') /\ represents r' ∅.
Proof.
  intros Hl. pose proof size_of_State_ok as [Hs Hm]. unfold shmem_pod_init. rewrite Hbase.
  destruct (Z.ltb_spec rl size_of_State); [lia|]. destruct (Z.ltb_spec u32_max rl); [lia|]. cbn [orb]. cbv zeta.
  unfold align_of_Entry. rewrite align_up_8 by (done || lia).
  eexists. split; [reflexivity|]. exists []. split_and!; [|by left | done | done].
  constructor; cbn; try done; try lia; [by left | apply NoDup_nil_2].
Qed.
End Refinement.

(** C16.  The pod's table refines a finite map: after initialization of any region that is
    large enough, every sequence of upserts, lookups, length queries and validations
    gets exactly the replies of a map of wrapping 64-bit counters, and an upsert is
    refused for lack of memory exactly when the key is new, the vector is full and the
    doubled vector does not fit the region; a refused upsert changes nothing. *)
Theorem offset_table_refines_map `{PodLayout} base output rl cs r :
  bad_pointer base = false -> output <> 0 -> size_of_State <= rl <= u32_max ->
  let '(status, r') := shmem_pod_init base rl r in
  status = STATUS_OK /\ replies (perform base output rl) cs r' = replies (spec_perform rl) cs ∅.
Proof.
  intros Hb Ho Hl. destruct (init_represents base rl Hb r Hl) as (r' & -> & Hr').
  split; [done|]. by apply replies_simulate.
Qed.

#[local] Instance demo_layout : PodLayout := {|
  size_of_State := 320; align_of_State := 8; key_first := true; layout_words := [320; 8];
  size_of_State_ok := conj (conj eq_refl eq_refl) eq_refl |}.

Definition demo_region : region := {|
  state := {| magic := 0; layout_hash := 0; region_len := 0;
    arena := {| first := 0; next := 0; end_ := 0; allocations := 0 |};
    entries := {| offset := 0; len := 0; capacity := 0; generations := 0 |};
    operations := 0; snzi_poison := None |};
  words := fun _ => 170 |}.

Definition demo_calls : list call :=
  [Upsert 5 1; Upsert 6 2; Upsert 5 (2 ^ 64 - 1); Upsert 7 3; Upsert 8 4; Upsert 9 1;
   Upsert 8 1; Get 5; Get 8; Get 9; Length; Validate].

(** 320 + 64 bytes hold one vector of four entries and no second one. *)
Lemma offset_table_refines_map_witness :
  let '(status, r') := shmem_pod_init 4096 384 demo_region in
  status = STATUS_OK /\
  replies (perform 4096 8 384) demo_calls r' =
  [(0, None); (0, None); (0, None); (0, None); (0, None); (-3, None); (0, None); (0, Some 0); (0, Some 5);
   (-4, None); (4, None); (0, None)].
Proof.
  assert (Hs : replies (spec_perform 384) demo_calls ∅ =
    [(0, None); (0, None); (0, None); (0, None); (0, None); (-3, None); (0, None); (0, Some 0); (0, Some 5);
     (-4, None); (4, None); (0, None)]) by (vm_compute; reflexivity).
  rewrite <- Hs. apply (offset_table_refines_map 4096 8 384 demo_calls demo_region).
  - reflexivity.
  - lia.
  - change size_of_State with 320. unfold u32_max. lia.
Defined.
