(* ===== verification/Loader.v ===== *)
(** The loader of executable pods: [shmem_exec_obj/v2/poc/runtime/src/lib.rs].

    Artifacts are authenticated, their methods resolved to addresses of the mapped
    code, and the envelope of a state file ties it to the artifact it belongs to.
    The hash function is a parameter; an error message is a constructor of [Error];
    a Rust panic is [Unwound]. *)

From S2P Require Import Prelude Conc PodApi Image.

Definition INVALID_U64 : Z := u64_max.
Definition STATUS_SNZI_INVALID_LEAF : Z := -10.
Definition STATUS_SNZI_MALFORMED_TOKEN : Z := -11.
Definition STATUS_SNZI_GENERATION_MISMATCH : Z := -12.
Definition STATUS_SNZI_INACTIVE_TOKEN : Z := -13.
Definition STATUS_SNZI_POISONED : Z := -14.
Definition SNZI_TOKEN_LEAF_MASK : Z := Z.shiftl 1 16 - 1.
Definition SNZI_TOKEN_RESERVED_BIT : Z := Z.shiftl 1 63.
Definition SNZI_TOKEN_GENERATION_SHIFT : Z := 16.

Inductive Error :=
| ZeroTrustedDigest
| ArtifactHashMismatch
| ShorterThanHeader
| Header (e : HeaderError)
| LengthDiffersFromHeader
| CodeOffsetTooLarge
| CodeLengthTooLarge
| CodeExtentOverflows
| CodeOutsideArtifact
| WrongCodeHash
| Sha256Length
| Sha256Digit
| PageRoundingOverflow
| InvalidLayoutMetadata
| NotEmpty (found : Z)
| PodStatus (status : Z)
| StateNotInitialized
| StateInitializing
| StatePoisoned
| UnknownLifecycle (status : Z)
| EnvelopeMismatch
| WrongStateAddress
| NotPaired
| StateNotReady
| MalformedSnziToken.

(** ** Hexadecimal digests; a [str] is the list of its bytes *)

(** [char::to_digit(16)] *)
Definition to_digit (c : Z) : option Z :=
  if (48 <=? c) && (c <=? 57) then Some (c - 48)
  else if (97 <=? c) && (c <=? 102) then Some (c - 87)
  else if (65 <=? c) && (c <=? 70) then Some (c - 55)
  else None.

(** [u8::from_str_radix(s, 16)] of a two-byte string: a leading plus sign is allowed. *)
Definition from_str_radix (a b : Z) : option Z :=
  if a =? 43 then to_digit b
  else match to_digit a, to_digit b with
       | Some x, Some y => Some (16 * x + y)
       | _, _ => None
       end.

(** [str::is_char_boundary]: the byte does not continue a character. *)
Definition is_char_boundary (value : list Z) (i : nat) : bool :=
  match value !! i with Some b => (b <? 128) || (192 <=? b) | None => Nat.eqb i (length value) end.

(** The loop over the [n] remaining bytes of the digest. *)
Fixpoint parse_digest (value : list Z) (index n : nat) : unwind (result (list Z) Error) :=
  match n with
  | O => Returned (Ok [])
  | S n =>
      let offset := (index * 2)%nat in
      if negb (is_char_boundary value offset && is_char_boundary value (offset + 2)) then Unwound
      else
        match value !! offset, value !! (offset + 1)%nat with
        | Some a, Some b =>
            match from_str_radix a b with
            | None => Returned (Err Sha256Digit)
            | Some x =>
                match parse_digest value (S index) n with
                | Returned (Ok digest) => Returned (Ok (x :: digest))
                | r => r
                end
            end
        | _, _ => Unwound
        end
  end.

Definition parse_sha256 (value : list Z) : unwind (result (list Z) Error) :=
  if negb (Nat.eqb (length value) 64) then Returned (Err Sha256Length)
  else parse_digest value 0 32.

(** One digit of [{byte:02x}]. *)
Definition hex_digit (x : Z) : Z := if x <? 10 then x + 48 else x + 87.
Definition hex (bytes : list Z) : list Z :=
  concat (map (fun b => [hex_digit (b / 16); hex_digit (b mod 16)]) bytes).

(** ** Artifacts *)

Record PodArtifact := { bytes : list Z; header : ImageHeader; artifact_digest : list Z }.

Section Artifacts.
Context `{Target}.
Variable sha256 : list Z -> list Z.
Variables (supported_host : bool) (api : PodApiDescriptor).

Definition from_bytes (bytes expected_digest : list Z) : result PodArtifact Error :=
  reject all_zero expected_digest with ZeroTrustedDigest ;;
  let actual_digest := sha256 bytes in
  reject negb (bool_decide (actual_digest = expected_digest)) with ArtifactHashMismatch ;;
  reject Z.of_nat (length bytes) <? HEADER_SIZE with ShorterThanHeader ;;
  let? header := map_err Header (decode (take (Z.to_nat HEADER_SIZE) bytes)) in
  let? _x := map_err Header (validate_for_host supported_host header api) in
  reject negb (bool_decide (usize_try_from (image_len header) = Some (Z.of_nat (length bytes))))
    with LengthDiffersFromHeader ;;
  let? code_start := ok_or (usize_try_from (code_offset header)) CodeOffsetTooLarge in
  let? code_len := ok_or (usize_try_from (code_len header)) CodeLengthTooLarge in
  let? code_end := ok_or (checked_add usize_bits code_start code_len) CodeExtentOverflows in
  reject (code_end <? code_start) || (Z.of_nat (length bytes) <? code_end) with CodeOutsideArtifact ;;
  reject negb (bool_decide (sha256 (slice (Z.to_nat code_start) (Z.to_nat code_end) bytes) = code_sha256 header))
    with WrongCodeHash ;;
  Ok {| bytes := bytes; header := header; artifact_digest := actual_digest |}.

(** [PodArtifact::code] *)
Definition code (a : PodArtifact) : list Z :=
  let start := Z.to_nat (as_usize (code_offset (header a))) in
  slice start (start + Z.to_nat (as_usize (code_len (header a)))) (bytes a).

Definition page_round (len : Z) : result Z Error :=
  match checked_add usize_bits len (PAGE_SIZE - 1) with
  | Some value => Ok (Z.land value (not_bits usize_bits (PAGE_SIZE - 1)))
  | None => Err PageRoundingOverflow
  end.

(** [ImageResolver::resolve], for code mapped at [data]. *)
Definition resolve (h : ImageHeader) (data id : Z) (signature : MethodSignature) :
    unwind (result Z BindError) :=
  match method h id with
  | None => Returned (Err (MissingMethod id))
  | Some m =>
      match decoded_signature m with
      | Err _ => Unwound
      | Ok actual =>
          if negb (bool_decide (actual = signature))
          then Returned (Err (SignatureMismatch id signature actual))
          else if entry_offset m <? code_offset h then Unwound
          else
            match usize_try_from (entry_offset m - code_offset h) with
            | None => Unwound
            | Some relative =>
                let entry := data + relative in
                if entry =? 0 then Unwound else Returned (Ok entry)
            end
      end
  end.
End Artifacts.

(** ** Statuses of pod calls *)

Definition status_result (status : Z) : result unit Error :=
  if status =? 0 then Ok tt else Err (PodStatus status).

Definition validate_snzi_token (raw expected_leaf : Z) : result unit Error :=
  reject (raw =? INVALID_U64)
      || negb (Z.land raw SNZI_TOKEN_RESERVED_BIT =? 0)
      || (Z.shiftr raw SNZI_TOKEN_GENERATION_SHIFT =? 0)
      || negb (Z.land raw SNZI_TOKEN_LEAF_MASK =? expected_leaf)
    with MalformedSnziToken ;;
  Ok tt.

(** ** The envelope of a state file *)

(** [*b"SHPODS2\0"] *)
Definition STATE_MAGIC : list Z := b_str "SHPODS2" ++ [0].
Definition STATE_VERSION : Z := 2.
Definition STATE_STATUS_EMPTY : Z := 0.
Definition STATE_STATUS_INITIALIZING : Z := 1.
Definition STATE_STATUS_READY : Z := 2.
Definition STATE_STATUS_POISONED : Z := 3.
Definition ENVELOPE_MAGIC_OFFSET : nat := 0.
Definition ENVELOPE_VERSION_OFFSET : nat := 8.
Definition ENVELOPE_STATUS_OFFSET : nat := 16.
Definition ENVELOPE_FAILURE_OFFSET : nat := 28.
Definition ENVELOPE_CODE_HASH_OFFSET : nat := 32.
Definition ENVELOPE_LAYOUT_HASH_OFFSET : nat := 64.
Definition ENVELOPE_LAYOUT_SIZE_OFFSET : nat := 72.
Definition ENVELOPE_LAYOUT_ALIGN_OFFSET : nat := 80.
Definition ENVELOPE_PAYLOAD_LEN_OFFSET : nat := 88.
Definition ENVELOPE_GENERATION_OFFSET : nat := 96.
Definition ENVELOPE_OWNER_PID_OFFSET : nat := 104.
Definition ENVELOPE_ARTIFACT_HASH_OFFSET : nat := 112.
Definition ENVELOPE_FLAGS_OFFSET : nat := 144.
Definition ENVELOPE_REQUIRED_ADDRESS_OFFSET : nat := 152.
Definition ENVELOPE_API_FINGERPRINT_OFFSET : nat := 160.
Definition ENVELOPE_STATE_FINGERPRINT_OFFSET : nat := 176.

(** The fields of [PodImage] that the envelope depends on. *)
Record PodImage := {
  image_header : ImageHeader;
  image_digest : list Z;
  layout_size : Z;
  layout_align : Z;
  layout_hash : Z
}.

Definition attach_checks (h : ImageHeader) (layout_size layout_align layout_hash snzi_leaf_count : Z) :
    result unit Error :=
  reject (layout_size =? 0)
      || (payload_len h <? layout_size)
      || (layout_align =? 0)
      || negb (is_power_of_two layout_align)
      || (PAGE_SIZE <? layout_align)
      || (layout_hash =? 0)
      || (snzi_leaf_count =? 0)
      || (2 ^ 16 - 1 + 1 <? snzi_leaf_count)
    with InvalidLayoutMetadata ;;
  Ok tt.

(** [write_bytes], [write_u32] .. [write_u128], [read_bytes], [read_u32] .. [read_u128];
    the offsets of the envelope all lie inside it. *)
Definition write_bytes (env : list Z) (offset : nat) (value : list Z) : list Z := copy_at offset value env.
Definition write_int (n : nat) (env : list Z) (offset : nat) (value : Z) : list Z :=
  write_bytes env offset (to_le_bytes n value).
Definition read_bytes (n : nat) (env : list Z) (offset : nat) : list Z := slice offset (offset + n) env.
Definition read_int (n : nat) (env : list Z) (offset : nat) : Z := of_le_bytes (read_bytes n env offset).

(** The fields that [initialize_state] writes between the two lifecycle states. *)
Definition write_identity (self : PodImage) (pid : Z) (env : list Z) : list Z :=
  let h := image_header self in
  let env := write_bytes env ENVELOPE_MAGIC_OFFSET STATE_MAGIC in
  let env := write_int 4 env ENVELOPE_VERSION_OFFSET STATE_VERSION in
  let env := write_int 4 env ENVELOPE_FAILURE_OFFSET 0 in
  let env := write_bytes env ENVELOPE_CODE_HASH_OFFSET (code_sha256 h) in
  let env := write_int 8 env ENVELOPE_LAYOUT_HASH_OFFSET (layout_hash self) in
  let env := write_int 8 env ENVELOPE_LAYOUT_SIZE_OFFSET (layout_size self) in
  let env := write_int 8 env ENVELOPE_LAYOUT_ALIGN_OFFSET (layout_align self) in
  let env := write_int 8 env ENVELOPE_PAYLOAD_LEN_OFFSET (payload_len h) in
  let env := write_int 8 env ENVELOPE_GENERATION_OFFSET 1 in
  let env := write_int 8 env ENVELOPE_OWNER_PID_OFFSET pid in
  let env := write_bytes env ENVELOPE_ARTIFACT_HASH_OFFSET (image_digest self) in
  let env := write_int 8 env ENVELOPE_FLAGS_OFFSET (flags h) in
  let env := write_int 8 env ENVELOPE_REQUIRED_ADDRESS_OFFSET (required_state_address (metadata h)) in
  let env := write_int 16 env ENVELOPE_API_FINGERPRINT_OFFSET (api_fingerprint (metadata h)) in
  write_int 16 env ENVELOPE_STATE_FINGERPRINT_OFFSET (state_fingerprint (metadata h)).

(** [init_status] and [validate_status] are what the pod's methods return on the payload. *)
Definition initialize_state (self : PodImage) (pid init_status validate_status : Z) (env : list Z) :
    result unit Error * list Z :=
  let found := read_int 4 env ENVELOPE_STATUS_OFFSET in
  if negb (found =? STATE_STATUS_EMPTY) then (Err (NotEmpty found), env)
  else
    let env := write_int 4 env ENVELOPE_STATUS_OFFSET STATE_STATUS_INITIALIZING in
    let env := write_identity self pid env in
    let result := let? _x := status_result init_status in status_result validate_status in
    match result with
    | Ok _ => (Ok tt, write_int 4 env ENVELOPE_STATUS_OFFSET STATE_STATUS_READY)
    | Err e =>
        let env := write_int 4 env ENVELOPE_FAILURE_OFFSET 1 in
        (Err e, write_int 4 env ENVELOPE_STATUS_OFFSET STATE_STATUS_POISONED)
    end.

Definition validate_envelope `{Target} (self : PodImage) (data_address : Z) (env : list Z) : result unit Error :=
  let h := image_header self in
  let status := read_int 4 env ENVELOPE_STATUS_OFFSET in
  let? _x :=
    (if status =? STATE_STATUS_READY then Ok tt
     else if status =? STATE_STATUS_EMPTY then Err StateNotInitialized
     else if status =? STATE_STATUS_INITIALIZING then Err StateInitializing
     else if status =? STATE_STATUS_POISONED then Err StatePoisoned
     else Err (UnknownLifecycle status)) in
  reject negb (bool_decide (read_bytes 8 env ENVELOPE_MAGIC_OFFSET = STATE_MAGIC))
      || negb (read_int 4 env ENVELOPE_VERSION_OFFSET =? STATE_VERSION)
      || negb (read_int 4 env ENVELOPE_FAILURE_OFFSET =? 0)
      || negb (bool_decide (read_bytes 32 env ENVELOPE_CODE_HASH_OFFSET = code_sha256 h))
      || negb (read_int 8 env ENVELOPE_LAYOUT_HASH_OFFSET =? layout_hash self)
      || negb (read_int 8 env ENVELOPE_LAYOUT_SIZE_OFFSET =? layout_size self)
      || negb (read_int 8 env ENVELOPE_LAYOUT_ALIGN_OFFSET =? layout_align self)
      || negb (read_int 8 env ENVELOPE_PAYLOAD_LEN_OFFSET =? payload_len h)
      || (read_int 8 env ENVELOPE_GENERATION_OFFSET =? 0)
      || (read_int 8 env ENVELOPE_OWNER_PID_OFFSET =? 0)
      || negb (bool_decide (read_bytes 32 env ENVELOPE_ARTIFACT_HASH_OFFSET = image_digest self))
      || negb (read_int 8 env ENVELOPE_FLAGS_OFFSET =? flags h)
      || negb (read_int 8 env ENVELOPE_REQUIRED_ADDRESS_OFFSET =? required_state_address (metadata h))
      || negb (read_int 16 env ENVELOPE_API_FINGERPRINT_OFFSET =? api_fingerprint (metadata h))
      || negb (read_int 16 env ENVELOPE_STATE_FINGERPRINT_OFFSET =? state_fingerprint (metadata h))
    with EnvelopeMismatch ;;
  reject negb (Z.land (flags h) CAP_REQUIRES_SAME_VA =? 0)
      && negb (data_address =? as_usize (required_state_address (metadata h)))
    with WrongStateAddress ;;
  Ok tt.

Record PodState := { state_digest : list Z; state_layout_hash : Z; state_payload_len : Z; envelope : list Z }.

Definition ensure_pair (self : PodImage) (s : PodState) : result unit Error :=
  reject negb (bool_decide (state_digest s = image_digest self))
      || negb (state_layout_hash s =? layout_hash self)
      || negb (state_payload_len s =? payload_len (image_header self))
    with NotPaired ;;
  reject negb (read_int 4 (envelope s) ENVELOPE_STATUS_OFFSET =? STATE_STATUS_READY) with StateNotReady ;;
  Ok tt.
