(* ===== verification/LoaderCorrect.v ===== *)
(** Theorems on the loader: what an accepted artifact guarantees, that methods resolve
    exactly to the declared entry points, that envelopes pair states with their
    artifacts, and what digest strings are accepted. *)

From S2P Require Import Prelude Wire Conc PodApi Image ImageCorrect Loader.

(** ** Authenticated artifacts *)

Record authentic `{Target} (sha256 : list Z -> list Z) (api : PodApiDescriptor) (digest : list Z) (a : PodArtifact) : Prop := {
  au_digest : sha256 (bytes a) = digest /\ artifact_digest a = digest /\ ~ Forall (eq 0) digest;
  au_header : exists page, encode (header a) = Ok page /\ take (Z.to_nat HEADER_SIZE) (bytes a) = page;
  au_typed : header_typed (header a);
  au_valid : header_ok (header a);
  au_api : api_fingerprint (metadata (header a)) = fingerprint api /\
    forall id s, offers (header a) id s <-> declares api id s;
  au_length : Z.of_nat (length (bytes a)) = 4096 + code_len (header a);
  au_code : sha256 (code a) = code_sha256 (header a)
}.

Section Artifacts.
Context `{Target} (H64 : usize_bits = 64).
Variable sha256 : list Z -> list Z.
Variable api : PodApiDescriptor.
Hypothesis Hapi : ascending spec_id (api_methods api).

Lemma map_err_ok {A E F} (f : E -> F) (r : result A E) a : map_err f r = Ok a <-> r = Ok a.
Proof. destruct r; cbn; naive_solver. Qed.

Lemma usize_try_from_some x y : usize_try_from x = Some y <-> y = x /\ x < 2 ^ 64.
Proof.
  unfold usize_try_from, usize_max. rewrite H64. destruct (Z.leb_spec x (2 ^ 64 - 1)); naive_solver lia.
Qed.

Lemma code_slice bs h d : header_typed h -> header_ok h ->
  code {| bytes := bs; header := h; artifact_digest := d |} = slice 4096 (Z.to_nat (4096 + code_len h)) bs.
Proof.
  intros Ht Hok. unfold code. cbn [header bytes]. rewrite !as_usize_id by (done || apply Ht).
  destruct (ho_code h Hok) as (-> & Hl & _). change (Z.to_nat 4096) with 4096%nat. f_equal. lia.
Qed.

Lemma from_bytes_sound bs digest a : Forall byte bs -> from_bytes sha256 true api bs digest = Ok a ->
  bytes a = bs /\ authentic sha256 api digest a.
Proof.
  intros Hb Hf. unfold from_bytes in Hf. cbv zeta in Hf. ok_inv Hf. injection Hf as <-. cbn [bytes]. split; [done|].
  apply negb_false_iff, bool_decide_eq_true in Hguard0 as Hd. apply all_zero_false in Hguard.
  apply map_err_ok in Hbind, Hbind0. apply Z.ltb_ge in Hguard1.
  destruct x0. assert (Hl : length (take (Z.to_nat HEADER_SIZE) bs) = Z.to_nat HEADER_SIZE).
  { rewrite length_take. lia. }
  apply (decode_sound H64) in Hbind as [Ht He]; [|by apply Forall_take|done].
  apply (host_check_iff x api H64 Ht Hapi) in Hbind0 as (Hok & Hfp & Hiff).
  apply negb_false_iff, bool_decide_eq_true, usize_try_from_some in Hguard2 as [Hlen _].
  apply ok_or_ok, usize_try_from_some in Hbind1 as [-> _]. apply ok_or_ok, usize_try_from_some in Hbind2 as [-> _].
  apply ok_or_ok, checked_add_some in Hbind3 as [-> _].
  apply negb_false_iff, bool_decide_eq_true in Hguard4 as Hcode. destruct (ho_code x Hok) as (C1 & C2 & C3).
  constructor; cbn [bytes header artifact_digest]; try done.
  - by eexists.
  - by rewrite Hlen, C3.
  - rewrite code_slice by done. rewrite C1 in Hcode. exact Hcode.
Qed.

Lemma from_bytes_complete digest a : Forall byte (bytes a) -> authentic sha256 api digest a ->
  from_bytes sha256 true api (bytes a) digest = Ok a.
Proof.
  intros Hb []. destruct au_digest0 as (Hs & Had & Hz), au_header0 as (page & He & Htake), au_api0 as [Hfp Hiff].
  destruct (ho_code _ au_valid0) as (C1 & C2 & C3). assert (Hil : in_width 64 (image_len (header a))) by apply au_typed0.
  unfold from_bytes. cbv zeta. apply reject_ok. split; [by apply all_zero_false|].
  apply reject_ok. split; [by rewrite bool_decide_eq_true_2|].
  apply reject_ok. split; [apply Z.ltb_ge; unfold HEADER_SIZE; lia|].
  apply result_bind_ok. exists (header a). split.
  { apply map_err_ok. rewrite Htake. apply (decode_complete H64); try done; rewrite <- Htake.
    - by apply Forall_take.
    - rewrite length_take. unfold HEADER_SIZE. lia. }
  apply bind_ok. split; [apply map_err_ok; by apply host_check_iff|].
  apply reject_ok. split.
  { apply negb_false_iff, bool_decide_eq_true, usize_try_from_some. unfold in_width in Hil. lia. }
  unfold in_width in Hil.
  apply result_bind_ok. exists (code_offset (header a)). split; [apply ok_or_ok, usize_try_from_some; lia|].
  apply result_bind_ok. exists (code_len (header a)). split; [apply ok_or_ok, usize_try_from_some; lia|].
  apply result_bind_ok. exists (code_offset (header a) + code_len (header a)).
  split; [apply ok_or_ok, checked_add_some; rewrite H64; lia|].
  apply reject_ok. split; [rewrite orb_false_iff, !Z.ltb_ge; lia|].
  apply reject_ok. split; [|destruct a; cbn in *; by subst].
  apply negb_false_iff, bool_decide_eq_true. rewrite C1.
  rewrite <- au_code0. f_equal. destruct a as [bs h d]. cbn [bytes header] in *. rewrite code_slice by done. f_equal.
Qed.

(** ** Resolution of methods *)

Lemma resolve_spec h data id s : header_typed h -> header_ok h -> 0 < data ->
  match method h id with
  | None => resolve h data id s = Returned (Err (MissingMethod id))
  | Some m => exists actual, decoded_signature m = Ok actual /\
      resolve h data id s = if decide (actual = s) then Returned (Ok (data + (entry_offset m - code_offset h)))
                            else Returned (Err (SignatureMismatch id s actual))
  end.
Proof.
  intros Ht Hok Hdata. unfold resolve. destruct (method h id) as [m|] eqn:Hm; [|done].
  apply find_by_key_spec in Hm as [Hin Hid]; [|apply Hok].
  pose proof (ho_methods h Hok) as Hall. rewrite list.Forall_forall in Hall. destruct (Hall m Hin) as [[R1 R2] R3 _ _ _ [x Hx]].
  apply decoded_signature_ok in Hx. exists x. split; [done|]. rewrite Hx. case_decide as Hs.
  - rewrite bool_decide_eq_true_2 by done. cbn [negb]. destruct (Z.ltb_spec (entry_offset m) (code_offset h)); [lia|].
    assert (image_len h < 2 ^ 64) by apply Ht. assert (0 <= code_offset h) by apply Ht.
    rewrite (proj2 (usize_try_from_some (entry_offset m - code_offset h) _)) by (split; [done | lia]).
    destruct (Z.eqb_spec (data + (entry_offset m - code_offset h)) 0); [lia | done].
  - by rewrite bool_decide_eq_false_2.
Qed.
End Artifacts.

Lemma entry_aligned h m : header_ok h -> entry_ok h m -> (entry_offset m - 4096) mod entry_alignment m = 0.
Proof.
  intros Hok [_ _ [(k & Hk & ->) Hle] Ha _ _]. destruct (ho_code_alignment h Hok) as (j & Hj & Hca).
  rewrite Hca in Hle. apply Z.pow_le_mono_r_iff in Hle; [|lia..].
  rewrite Zminus_mod, Ha. replace 4096 with (2 ^ (12 - k) * 2 ^ k); [by rewrite Z_mod_mult|].
  rewrite <- Z.pow_add_r by lia. by replace (12 - k + k) with 12 by lia.
Qed.

(** C15.  The loader accepts exactly the authentic artifacts: the trusted digest is the hash
    of the complete bytes and not zero, the first page is the encoding of a valid header
    that offers precisely the methods of the API with their signatures, the length is
    that of the header, and the code hashes to the header's code digest. *)
Theorem artifact_exact `{Target} sha256 api bs digest a : usize_bits = 64 ->
  ascending spec_id (api_methods api) -> Forall byte bs ->
  from_bytes sha256 true api bs digest = Ok a <-> bytes a = bs /\ authentic sha256 api digest a.
Proof.
  intros H64 Hapi Hb. split; [by apply from_bytes_sound|]. intros [<- Ha]. by apply from_bytes_complete.
Qed.

(** Resolution is exact on a loaded artifact, wherever its code is mapped: resolving a
    method never panics, succeeds exactly for the identifiers and signatures that the
    API declares, and the address it returns starts the method's body, which lies
    completely inside the mapped code at the method's alignment. *)
Theorem resolution_exact `{Target} sha256 api bs digest a data id s : usize_bits = 64 ->
  ascending spec_id (api_methods api) -> Forall byte bs ->
  from_bytes sha256 true api bs digest = Ok a -> 0 < data ->
  resolve (header a) data id s <> Unwound /\
  ((exists e, resolve (header a) data id s = Returned (Ok e)) <-> declares api id s) /\
  forall e, resolve (header a) data id s = Returned (Ok e) -> exists m,
    m ∈ methods (header a) /\ entry_id m = id /\ decoded_signature m = Ok s /\
    data <= e /\ e + entry_size m <= data + Z.of_nat (length (code a)) /\
    (e - data) mod entry_alignment m = 0.
Proof.
  intros H64 Hapi Hb Hf Hdata. destruct (from_bytes_sound H64 sha256 api Hapi bs digest a Hb Hf) as [_ []].
  destruct au_api0 as [_ Hiff]. pose proof (resolve_spec H64 (header a) data id s au_typed0 au_valid0 Hdata) as Hr.
  rewrite <- Hiff. unfold offers. destruct (method (header a) id) as [m|] eqn:Hm.
  2: { rewrite Hr. split; [done|]. split; [|done]. split; [by intros [e ?] | by intros (e & ? & _)]. }
  destruct Hr as (actual & Hact & ->). destruct (decide (actual = s)) as [->|Hne].
  2: { split; [done|]. split; [|done]. split; [by intros [e ?]|]. intros (e & [= <-] & Hs). congruence. }
  split; [done|]. split; [split; intros _; by eexists|]. intros e [= <-]. exists m.
  apply find_by_key_spec in Hm as [Hin Hid]; [|apply au_valid0].
  pose proof (ho_methods _ au_valid0) as Hall. rewrite list.Forall_forall in Hall.
  destruct (ho_code _ au_valid0) as (C1 & C2 & C3), (Hall m Hin) as [[R1 R2] R3 _ _ _ _].
  assert (Hlen : Z.of_nat (length (code a)) = code_len (header a)).
  { destruct a as [bs' h d]. cbn [header bytes] in *. rewrite code_slice, length_slice by (done || lia). lia. }
  rewrite Hlen. split_and!; try done; try lia. rewrite Z.add_simpl_l, C1. by apply (entry_aligned (header a)), Hall.
Qed.

(** ** Envelopes *)

Record image_typed (p : PodImage) : Prop := {
  it_header : header_typed (image_header p);
  it_digest : digest (image_digest p);
  it_size : in_width 64 (layout_size p);
  it_align : in_width 64 (layout_align p);
  it_hash : in_width 64 (layout_hash p)
}.

(** What ties a state to an image. *)
Definition identity (p : PodImage) : list Z * list Z * Z * Z * Z * Z * Z * Z * Z * Z :=
  let h := image_header p in
  (code_sha256 h, image_digest p, layout_hash p, layout_size p, layout_align p, payload_len h, flags h,
   required_state_address (metadata h), api_fingerprint (metadata h), state_fingerprint (metadata h)).

(** A sequence of writes, by offset and bytes. *)
Definition apply_writes (env : list Z) (ws : list (nat * list Z)) : list Z :=
  foldl (fun env w => write_bytes env w.1 w.2) env ws.
Definition extent (w : nat * list Z) : nat * nat := (w.1, length w.2).

(** The later writes do not touch the extent of write [i], and all are inside. *)
Definition undisturbed (len : nat) (es : list (nat * nat)) (i : nat) : bool :=
  forallb (fun e => Nat.leb (e.1 + e.2) len) es &&
  match es !! i with
  | None => false
  | Some (off, n) => forallb (fun e => Nat.leb (off + n) e.1 || Nat.leb (e.1 + e.2) off) (drop (S i) es)
  end.

Lemma apply_writes_length env ws : forallb (fun e => Nat.leb (e.1 + e.2) (length env)) (extent <$> ws) = true ->
  length (apply_writes env ws) = length env.
Proof.
  revert env. induction ws as [|[off v] ws IH]; intros env Hf; [done|].
  cbn in Hf. apply andb_true_iff in Hf as [H1 H2]. apply Nat.leb_le in H1.
  unfold apply_writes in *. cbn [foldl fst snd]. assert (Hl : length (write_bytes env off v) = length env).
  { by apply copy_at_length. }
  rewrite IH; [done|]. by rewrite Hl.
Qed.

Lemma read_later env ws off n :
  forallb (fun e => Nat.leb (e.1 + e.2) (length env)) (extent <$> ws) = true ->
  forallb (fun e => Nat.leb (off + n) e.1 || Nat.leb (e.1 + e.2) off) (extent <$> ws) = true ->
  read_bytes n (apply_writes env ws) off = read_bytes n env off.
Proof.
  revert env. induction ws as [|[o v] ws IH]; intros env Hf Hd; [done|].
  cbn in Hf, Hd. apply andb_true_iff in Hf as [H1 H2]. apply andb_true_iff in Hd as [D1 D2].
  apply Nat.leb_le in H1. apply orb_true_iff in D1. rewrite !Nat.leb_le in D1.
  unfold apply_writes in *. cbn [foldl fst snd]. rewrite IH; [|unfold write_bytes; by rewrite copy_at_length|done].
  apply slice_copy_other; [done | lia].
Qed.

(** A write that is not disturbed is read back. *)
Lemma read_write env ws es i off v : extent <$> ws = es -> undisturbed (length env) es i = true ->
  ws !! i = Some (off, v) -> read_bytes (length v) (apply_writes env ws) off = v.
Proof.
  intros <- Hu Hi. unfold undisturbed in Hu. apply andb_true_iff in Hu as [Hf Hd].
  rewrite list_lookup_fmap, Hi in Hd. cbn [fmap option_fmap option_map extent fst snd] in Hd.
  rewrite <- (take_drop_middle ws i (off, v) Hi) in Hf |- *. rewrite fmap_app, forallb_app in Hf.
  apply andb_true_iff in Hf as [Hf1 Hf2]. cbn in Hf2. apply andb_true_iff in Hf2 as [Hf2 Hf3]. apply Nat.leb_le in Hf2.
  assert (Hl : length (apply_writes env (take i ws)) = length env) by (by apply apply_writes_length).
  replace (apply_writes env (take i ws ++ (off, v) :: drop (S i) ws))
    with (apply_writes (write_bytes (apply_writes env (take i ws)) off v) (drop (S i) ws))
    by (unfold apply_writes; by rewrite foldl_app).
  rewrite read_later; [apply slice_copy_same; rewrite Hl; done | | by rewrite fmap_drop].
  unfold write_bytes. rewrite copy_at_length, Hl; [exact Hf3 | by rewrite Hl].
Qed.

(** The writes of [initialize_state] up to the final lifecycle state. *)
Definition identity_writes (self : PodImage) (pid : Z) : list (nat * list Z) :=
  let h := image_header self in
  [ (ENVELOPE_STATUS_OFFSET, to_le_bytes 4 STATE_STATUS_INITIALIZING);
    (ENVELOPE_MAGIC_OFFSET, STATE_MAGIC); (ENVELOPE_VERSION_OFFSET, to_le_bytes 4 STATE_VERSION);
    (ENVELOPE_FAILURE_OFFSET, to_le_bytes 4 0); (ENVELOPE_CODE_HASH_OFFSET, code_sha256 h);
    (ENVELOPE_LAYOUT_HASH_OFFSET, to_le_bytes 8 (layout_hash self));
    (ENVELOPE_LAYOUT_SIZE_OFFSET, to_le_bytes 8 (layout_size self));
    (ENVELOPE_LAYOUT_ALIGN_OFFSET, to_le_bytes 8 (layout_align self));
    (ENVELOPE_PAYLOAD_LEN_OFFSET, to_le_bytes 8 (payload_len h));
    (ENVELOPE_GENERATION_OFFSET, to_le_bytes 8 1); (ENVELOPE_OWNER_PID_OFFSET, to_le_bytes 8 pid);
    (ENVELOPE_ARTIFACT_HASH_OFFSET, image_digest self); (ENVELOPE_FLAGS_OFFSET, to_le_bytes 8 (flags h));
    (ENVELOPE_REQUIRED_ADDRESS_OFFSET, to_le_bytes 8 (required_state_address (metadata h)));
    (ENVELOPE_API_FINGERPRINT_OFFSET, to_le_bytes 16 (api_fingerprint (metadata h)));
    (ENVELOPE_STATE_FINGERPRINT_OFFSET, to_le_bytes 16 (state_fingerprint (metadata h))) ].

Definition IDENTITY_EXTENTS : list (nat * nat) :=
  [(16, 4); (0, 8); (8, 4); (28, 4); (32, 32); (64, 8); (72, 8); (80, 8); (88, 8); (96, 8); (104, 8); (112, 32);
   (144, 8); (152, 8); (160, 16); (176, 16)]%nat.

Section Envelope.
Variables (A : PodImage) (pid : Z) (env : list Z).
Hypothesis HA : image_typed A.
Hypothesis Hlen : length env = Z.to_nat STATE_ENVELOPE_SIZE.

Lemma identity_extents : extent <$> identity_writes A pid = IDENTITY_EXTENTS.
Proof.
  unfold identity_writes, extent. cbn [fmap list_fmap fst snd]. rewrite !to_le_bytes_length.
  rewrite (proj2 (ht_code_digest _ (it_header A HA))), (proj2 (it_digest A HA)). done.
Qed.

Definition published : list Z :=
  apply_writes env (identity_writes A pid ++ [(ENVELOPE_STATUS_OFFSET, to_le_bytes 4 STATE_STATUS_READY)]).

Lemma published_bytes i off v n : (identity_writes A pid ++ [(ENVELOPE_STATUS_OFFSET, to_le_bytes 4 STATE_STATUS_READY)]) !! i
    = Some (off, v) -> undisturbed (Z.to_nat STATE_ENVELOPE_SIZE) (IDENTITY_EXTENTS ++ [(16, 4)]%nat) i = true -> length v = n ->
  read_bytes n published off = v.
Proof.
  intros Hi Hu <-. apply (read_write env _ (IDENTITY_EXTENTS ++ [(16, 4)%nat]) i); [|by rewrite Hlen|done].
  rewrite fmap_app, identity_extents. done.
Qed.

Lemma published_int i off v n : (identity_writes A pid ++ [(ENVELOPE_STATUS_OFFSET, to_le_bytes 4 STATE_STATUS_READY)]) !! i
    = Some (off, to_le_bytes n v) -> undisturbed (Z.to_nat STATE_ENVELOPE_SIZE) (IDENTITY_EXTENTS ++ [(16, 4)]%nat) i = true ->
  in_width (8 * Z.of_nat n) v -> read_int n published off = v.
Proof.
  intros Hi Hu Hv. unfold read_int. rewrite (published_bytes i off (to_le_bytes n v) n Hi Hu (to_le_bytes_length n v)).
  by apply of_to_le_bytes.
Qed.

Lemma flags_width h : header_typed h -> in_width 64 (flags h).
Proof. intros []. unfold in_width, flags in *. apply lor_low_bound; lia. Qed.

(** The fields of a published envelope. *)
Lemma published_fields : in_width 64 pid ->
  let h := image_header A in
  read_int 4 published ENVELOPE_STATUS_OFFSET = STATE_STATUS_READY /\
  read_bytes 8 published ENVELOPE_MAGIC_OFFSET = STATE_MAGIC /\
  read_int 4 published ENVELOPE_VERSION_OFFSET = STATE_VERSION /\
  read_int 4 published ENVELOPE_FAILURE_OFFSET = 0 /\
  read_bytes 32 published ENVELOPE_CODE_HASH_OFFSET = code_sha256 h /\
  read_int 8 published ENVELOPE_LAYOUT_HASH_OFFSET = layout_hash A /\
  read_int 8 published ENVELOPE_LAYOUT_SIZE_OFFSET = layout_size A /\
  read_int 8 published ENVELOPE_LAYOUT_ALIGN_OFFSET = layout_align A /\
  read_int 8 published ENVELOPE_PAYLOAD_LEN_OFFSET = payload_len h /\
  read_int 8 published ENVELOPE_GENERATION_OFFSET = 1 /\
  read_int 8 published ENVELOPE_OWNER_PID_OFFSET = pid /\
  read_bytes 32 published ENVELOPE_ARTIFACT_HASH_OFFSET = image_digest A /\
  read_int 8 published ENVELOPE_FLAGS_OFFSET = flags h /\
  read_int 8 published ENVELOPE_REQUIRED_ADDRESS_OFFSET = required_state_address (metadata h) /\
  read_int 16 published ENVELOPE_API_FINGERPRINT_OFFSET = api_fingerprint (metadata h) /\
  read_int 16 published ENVELOPE_STATE_FINGERPRINT_OFFSET = state_fingerprint (metadata h).
Proof.
  intros Hpid h. destruct HA as [Hh Hd Hs Ha Hl]. pose proof (flags_width _ Hh) as Hf.
  pose proof (ht_code_digest _ Hh) as [_ Hcd]. destruct Hd as [_ Hdg], Hh.
  split; [eapply (published_int 16); [reflexivity | vm_compute; reflexivity | split; (discriminate || reflexivity)]|].
  split; [eapply (published_bytes 1); [reflexivity | vm_compute; reflexivity | reflexivity]|].
  split; [eapply (published_int 2); [reflexivity | vm_compute; reflexivity | split; (discriminate || reflexivity)]|].
  split; [eapply (published_int 3); [reflexivity | vm_compute; reflexivity | split; (discriminate || reflexivity)]|].
  split; [eapply (published_bytes 4); [reflexivity | vm_compute; reflexivity | assumption]|].
  split; [eapply (published_int 5); [reflexivity | vm_compute; reflexivity | assumption]|].
  split; [eapply (published_int 6); [reflexivity | vm_compute; reflexivity | assumption]|].
  split; [eapply (published_int 7); [reflexivity | vm_compute; reflexivity | assumption]|].
  split; [eapply (published_int 8); [reflexivity | vm_compute; reflexivity | assumption]|].
  split; [eapply (published_int 9); [reflexivity | vm_compute; reflexivity | split; (discriminate || reflexivity)]|].
  split; [eapply (published_int 10); [reflexivity | vm_compute; reflexivity | assumption]|].
  split; [eapply (published_bytes 11); [reflexivity | vm_compute; reflexivity | assumption]|].
  split; [eapply (published_int 12); [reflexivity | vm_compute; reflexivity | assumption]|].
  split; [eapply (published_int 13); [reflexivity | vm_compute; reflexivity | assumption]|].
  split; [eapply (published_int 14); [reflexivity | vm_compute; reflexivity | assumption]|].
  eapply (published_int 15); [reflexivity | vm_compute; reflexivity | assumption].
Qed.

(** A failed initialization leaves the envelope poisoned. *)
Definition poisoned : list Z :=
  apply_writes env (identity_writes A pid ++ [(ENVELOPE_FAILURE_OFFSET, to_le_bytes 4 1);
    (ENVELOPE_STATUS_OFFSET, to_le_bytes 4 STATE_STATUS_POISONED)]).

Lemma poisoned_status : read_int 4 poisoned ENVELOPE_STATUS_OFFSET = STATE_STATUS_POISONED.
Proof.
  unfold read_int. replace (read_bytes 4 poisoned ENVELOPE_STATUS_OFFSET) with (to_le_bytes 4 STATE_STATUS_POISONED); [done|].
  symmetry. change 4%nat with (length (to_le_bytes 4 STATE_STATUS_POISONED)) at 1.
  eapply (read_write env _ (IDENTITY_EXTENTS ++ [(28, 4); (16, 4)]%nat) 17).
  - by rewrite fmap_app, identity_extents.
  - rewrite Hlen. vm_compute. reflexivity.
  - reflexivity.
Qed.
End Envelope.

Lemma apply_writes_app env ws ws' : apply_writes env (ws ++ ws') = apply_writes (apply_writes env ws) ws'.
Proof. apply foldl_app. Qed.

Lemma write_identity_writes A pid env :
  write_identity A pid (write_int 4 env ENVELOPE_STATUS_OFFSET STATE_STATUS_INITIALIZING) =
  apply_writes env (identity_writes A pid).
Proof. unfold write_identity, identity_writes, apply_writes, write_int. cbn [foldl fst snd]. reflexivity. Qed.

Lemma initialize_state_cases A pid i v env : read_int 4 env ENVELOPE_STATUS_OFFSET = STATE_STATUS_EMPTY ->
  initialize_state A pid i v env =
  if (i =? 0) && (v =? 0) then (Ok tt, published A pid env)
  else (Err (PodStatus (if i =? 0 then v else i)), poisoned A pid env).
Proof.
  intros He. unfold initialize_state. rewrite He. change (negb (STATE_STATUS_EMPTY =? STATE_STATUS_EMPTY)) with false.
  cbv zeta iota. rewrite write_identity_writes. unfold published, poisoned, status_result.
  rewrite !apply_writes_app. generalize (apply_writes env (identity_writes A pid)). intros w.
  unfold apply_writes. cbn [foldl fst snd]. unfold write_int. by destruct (i =? 0), (v =? 0).
Qed.

Lemma validate_published `{Target} A B pid env addr : usize_bits = 64 -> image_typed A -> image_typed B ->
  length env = Z.to_nat STATE_ENVELOPE_SIZE -> in_width 64 pid -> pid <> 0 ->
  validate_envelope B addr (published A pid env) = Ok tt <->
  identity A = identity B /\
  (Z.testbit (flags (image_header B)) 1 = true -> addr = required_state_address (metadata (image_header B))).
Proof.
  intros H64 HA HB Hlen Hpid Hpid0. destruct (published_fields A pid env HA Hlen Hpid)
    as (F1 & F2 & F3 & F4 & F5 & F6 & F7 & F8 & F9 & F10 & F11 & F12 & F13 & F14 & F15 & F16).
  unfold validate_envelope. cbv zeta.
  rewrite F1, F2, F3, F4, F5, F6, F7, F8, F9, F10, F11, F12, F13, F14, F15, F16.
  rewrite Z.eqb_refl. cbn [result_bind]. rewrite !reject_ok.
  rewrite (as_usize_id H64) by apply HB. change CAP_REQUIRES_SAME_VA with (2 ^ 1). rewrite land_bit_eqb by lia.
  rewrite negb_involutive, andb_false_iff. conditions. rewrite !bool_decide_eq_true.
  unfold identity. destruct (Z.testbit (flags (image_header B)) 1); split.
  - intros [Hid [Haddr _]]. destruct Haddr as [?|Haddr]; [done|].
    destruct Hid as ((((((((((((((_ & _) & _) & I1) & I2) & I3) & I4) & I5) & _) & _) & I6) & I7) & I8) & I9) & I10).
    split; [congruence|]. done.
  - intros [Hid Haddr]. injection Hid as I1 I2 I3 I4 I5 I6 I7 I8 I9 I10. split; [split_and!; done|]. split; [right; by apply Haddr | done].
  - intros [Hid _].
    destruct Hid as ((((((((((((((_ & _) & _) & I1) & I2) & I3) & I4) & I5) & _) & _) & I6) & I7) & I8) & I9) & I10).
    split; [congruence|]. done.
  - intros [Hid Haddr]. injection Hid as I1 I2 I3 I4 I5 I6 I7 I8 I9 I10. split; [split_and!; done|]. split; [by left | done].
Qed.

Lemma validate_poisoned `{Target} A B pid env addr : image_typed A -> length env = Z.to_nat STATE_ENVELOPE_SIZE ->
  validate_envelope B addr (poisoned A pid env) = Err StatePoisoned.
Proof. intros HA Hlen. unfold validate_envelope. cbv zeta. by rewrite (poisoned_status A pid env HA Hlen). Qed.

Lemma initialize_again A pid i v env s : read_int 4 env ENVELOPE_STATUS_OFFSET = s -> s <> STATE_STATUS_EMPTY ->
  initialize_state A pid i v env = (Err (NotEmpty s), env).
Proof. intros Hr Hs. unfold initialize_state. rewrite Hr. by apply Z.eqb_neq in Hs as ->. Qed.

(** An envelope pairs a state with one image.  After an image has initialized an empty
    envelope, another image validates it exactly when the pod's own initialization
    succeeded, all identities of the two images agree, and a fixed-address state is
    mapped at its address; and no image can initialize the envelope a second time, also
    not after a failure. *)
Theorem envelope_pairs `{Target} A B C pid pid' i v i' v' env addr : usize_bits = 64 ->
  image_typed A -> image_typed B -> length env = Z.to_nat STATE_ENVELOPE_SIZE -> in_width 64 pid -> pid <> 0 ->
  read_int 4 env ENVELOPE_STATUS_OFFSET = STATE_STATUS_EMPTY ->
  let '(r, env') := initialize_state A pid i v env in
  (r = Ok tt <-> i = 0 /\ v = 0) /\
  (validate_envelope B addr env' = Ok tt <->
     i = 0 /\ v = 0 /\ identity A = identity B /\
     (Z.testbit (flags (image_header B)) 1 = true -> addr = required_state_address (metadata (image_header B)))) /\
  initialize_state C pid' i' v' env' = (Err (NotEmpty (if (i =? 0) && (v =? 0) then STATE_STATUS_READY else STATE_STATUS_POISONED)), env').
Proof.
  intros H64 HA HB Hlen Hpid Hpid0 He. rewrite initialize_state_cases by done.
  destruct ((i =? 0) && (v =? 0)) eqn:Hs; rewrite ?andb_true_iff, ?andb_false_iff, ?Z.eqb_eq, ?Z.eqb_neq in Hs.
  - split; [done|]. rewrite validate_published by done. split; [tauto|].
    apply initialize_again; [|done]. by apply published_fields.
  - split; [split; [discriminate | lia]|]. rewrite validate_poisoned by done.
    split; [split; [discriminate | intros (? & ? & _); lia]|].
    apply initialize_again; [by apply poisoned_status | done].
Qed.

(** ** Digests as text *)

Lemma hex_digit_value x : 0 <= x < 16 ->
  to_digit (hex_digit x) = Some x /\ hex_digit x <> 43 /\ 0 <= hex_digit x < 128.
Proof.
  intros Hx. assert (Hall : Forall (fun x => to_digit (hex_digit x) = Some x /\ hex_digit x <> 43 /\ 0 <= hex_digit x < 128)
    (seqZ 0 16)) by (repeat constructor; (discriminate || reflexivity)).
  rewrite list.Forall_forall in Hall. apply Hall, elem_of_seqZ. lia.
Qed.

Lemma hex_length bs : length (hex bs) = (2 * length bs)%nat.
Proof. unfold hex. induction bs as [|b bs IH]; [done|]. cbn [map concat length]. rewrite length_app, IH. cbn. lia. Qed.

Lemma hex_app bs bs' : hex (bs ++ bs') = hex bs ++ hex bs'.
Proof. unfold hex. by rewrite map_app, concat_app. Qed.

Lemma hex_ascii bs i c : Forall byte bs -> hex bs !! i = Some c -> 0 <= c < 128.
Proof.
  intros Hb Hi. apply list_elem_of_lookup_2 in Hi. unfold hex in Hi. apply list_elem_of_In, in_concat in Hi as (l & Hl & Hc).
  apply in_map_iff in Hl as (b & <- & Hin). apply list_elem_of_In in Hin. rewrite list.Forall_forall in Hb.
  specialize (Hb b Hin). unfold byte in Hb. destruct Hc as [<-|[<-|[]]]; apply hex_digit_value; dlia.
Qed.

Lemma hex_boundary bs i : Forall byte bs -> (i <= length (hex bs))%nat -> is_char_boundary (hex bs) i = true.
Proof.
  intros Hb Hi. unfold is_char_boundary. destruct (hex bs !! i) as [c|] eqn:Hc.
  - apply hex_ascii in Hc; [|done]. apply orb_true_iff. left. apply Z.ltb_lt. lia.
  - apply lookup_ge_None in Hc. apply Nat.eqb_eq. lia.
Qed.

Lemma hex_pair bs i b : bs !! i = Some b ->
  hex bs !! (i * 2)%nat = Some (hex_digit (b / 16)) /\ hex bs !! (i * 2 + 1)%nat = Some (hex_digit (b mod 16)).
Proof.
  intros Hi. rewrite <- (take_drop_middle bs i b Hi), hex_app. apply lookup_lt_Some in Hi.
  assert (Hl : length (hex (take i bs)) = (i * 2)%nat) by (rewrite hex_length, length_take; lia).
  rewrite !lookup_app_r by lia. rewrite Hl, Nat.sub_diag. by replace (i * 2 + 1 - i * 2)%nat with 1%nat by lia.
Qed.

Lemma parse_hex bs i n : Forall byte bs -> (i + n = length bs)%nat ->
  parse_digest (hex bs) i n = Returned (Ok (drop i bs)).
Proof.
  intros Hb. revert i. induction n as [|n IH]; intros i Hn; cbn [parse_digest].
  - by rewrite drop_ge by lia.
  - rewrite !hex_boundary by (done || rewrite hex_length; lia). cbn [negb andb].
    destruct (lookup_lt_is_Some_2 bs i) as [b Hi]; [lia|]. destruct (hex_pair bs i b Hi) as [-> ->].
    assert (Hbyte : byte b) by (by apply (Forall_lookup_1 _ _ _ _ Hb Hi)). unfold byte in Hbyte.
    destruct (hex_digit_value (b / 16)) as (D1 & D2 & _); [dlia|]. destruct (hex_digit_value (b mod 16)) as (D3 & _); [dlia|].
    unfold from_str_radix. apply Z.eqb_neq in D2 as ->. rewrite D1, D3, IH by lia.
    rewrite (drop_S bs b i Hi). do 4 f_equal. dlia.
Qed.

(** A printed digest is parsed back. *)
Lemma parse_sha256_hex d : digest d -> parse_sha256 (hex d) = Returned (Ok d).
Proof.
  intros [Hb Hl]. unfold parse_sha256. rewrite hex_length, Hl. cbn [Nat.mul Nat.add Nat.eqb negb].
  by rewrite parse_hex.
Qed.

(** Texts that are no digests are accepted: a plus sign stands for the high digit. *)
Lemma parse_sha256_accepts_sign :
  parse_sha256 (concat (replicate 32 (b_str "+1"))) = Returned (Ok (replicate 32 1)).
Proof. reflexivity. Qed.

(** A character of two bytes across a pair of digits is a panic, not an error. *)
Lemma parse_sha256_panics :
  parse_sha256 (b_str "0" ++ [195; 169] ++ concat (replicate 30 (b_str "00")) ++ b_str "0") = Unwound.
Proof. reflexivity. Qed.

(** ** Examples *)

(** A checksum in place of the hash. *)
Definition demo_hash (bs : list Z) : list Z := to_le_bytes 32 (1 + foldl Z.add 0 bs).
Definition demo_code : list Z := replicate 1024 144.

Definition loaded_header : ImageHeader := {|
  image_len := image_len demo_header; code_offset := code_offset demo_header; code_len := code_len demo_header;
  code_alignment := code_alignment demo_header; state_file_len := state_file_len demo_header;
  payload_offset := payload_offset demo_header; payload_len := payload_len demo_header;
  state_alignment := state_alignment demo_header; code_sha256 := demo_hash demo_code;
  metadata := metadata demo_header; methods := demo_methods |}.

Definition demo_artifact : PodArtifact :=
  let bs := match encode loaded_header with Ok page => page ++ demo_code | Err _ => [] end in
  {| bytes := bs; header := loaded_header; artifact_digest := demo_hash bs |}.

Lemma demo_artifact_bytes : Forall byte (bytes demo_artifact).
Proof. apply forallb_byte. vm_compute. reflexivity. Qed.

Lemma demo_api_ascending : ascending spec_id (api_methods demo_api).
Proof. repeat (apply pairwise_cons; split; [repeat constructor|]). apply pairwise_nil. Qed.

Lemma artifact_exact_witness :
  from_bytes demo_hash true demo_api (bytes demo_artifact) (artifact_digest demo_artifact) = Ok demo_artifact /\
  authentic demo_hash demo_api (artifact_digest demo_artifact) demo_artifact.
Proof.
  assert (Hf : from_bytes demo_hash true demo_api (bytes demo_artifact) (artifact_digest demo_artifact) = Ok demo_artifact)
    by (vm_compute; reflexivity).
  split; [exact Hf|].
  apply (artifact_exact (H := target64) demo_hash demo_api (bytes demo_artifact) (artifact_digest demo_artifact)
    demo_artifact eq_refl demo_api_ascending demo_artifact_bytes). exact Hf.
Defined.

Lemma resolution_exact_witness :
  resolve (header demo_artifact) 65536 20 StateU64U64Status = Returned (Ok 65568) /\
  exists m, entry_id m = 20 /\ 65568 + entry_size m <= 65536 + Z.of_nat (length (code demo_artifact)).
Proof.
  assert (Hr : resolve (header demo_artifact) 65536 20 StateU64U64Status = Returned (Ok 65568)) by (vm_compute; reflexivity).
  split; [exact Hr|].
  destruct (resolution_exact (H := target64) demo_hash demo_api (bytes demo_artifact) (artifact_digest demo_artifact)
    demo_artifact 65536 20 StateU64U64Status eq_refl demo_api_ascending demo_artifact_bytes) as (_ & _ & Hin).
  - vm_compute. reflexivity.
  - reflexivity.
  - destruct (Hin 65568 Hr) as (m & _ & Hid & _ & _ & Hend & _). exists m. exact (conj Hid Hend).
Defined.

Definition demo_image : PodImage := {|
  image_header := demo_header; image_digest := replicate 32 5; layout_size := 320; layout_align := 8; layout_hash := 99 |}.

Lemma demo_image_typed : image_typed demo_image.
Proof.
  constructor; [exact demo_header_typed | split; [by apply Forall_replicate | reflexivity] |..];
    split; (discriminate || reflexivity).
Qed.

Lemma envelope_pairs_witness :
  exists env', initialize_state demo_image 77 0 0 (replicate (Z.to_nat STATE_ENVELOPE_SIZE) 0) = (Ok tt, env') /\
    validate_envelope demo_image 8192 env' = Ok tt.
Proof.
  pose proof (envelope_pairs (H := target64) demo_image demo_image demo_image 77 78 0 0 0 0
    (replicate (Z.to_nat STATE_ENVELOPE_SIZE) 0) 8192 eq_refl demo_image_typed demo_image_typed) as Hp.
  destruct (initialize_state demo_image 77 0 0 _) as [r env'].
  destruct Hp as (Hr & Hv & _); [by rewrite length_replicate | split; (discriminate || reflexivity) | discriminate
    | vm_compute; reflexivity |].
  exists env'. rewrite (proj2 Hr) by done. split; [reflexivity|]. apply Hv. done.
Defined.
