(* ===== verification/Reloc.v ===== *)
(** The relocatable fixed-capacity allocator:
    [shmem_exec_obj/v2/src/reloc_allocator.rs].

    The fields of [RelocAllocator<SLOTS>] are shared cells; [Data off] stands for
    the arena bytes at displacement [off].  A [RelocRegion] is the view of one
    process: its base address and length.  The address of the allocator object
    in that process and its [size_of] are arguments.  Indexing out of range is a
    panic.  The operation lock is released by [guard_drop] on every return path,
    as the destructor of [OperationGuard] does. *)

From S2P Require Import Prelude Conc Layout.

Definition UNINITIALIZED : Z := 0.
Definition INITIALIZING : Z := 1.
Definition READY : Z := 2.
Definition POISONED : Z := 3.
Definition UNLOCKED : Z := 0.
Definition LOCKED : Z := 1.
Definition ALLOCATED_BIT : Z := Z.shiftl 1 63.
Definition GENERATION_MASK : Z := not_bits 64 ALLOCATED_BIT.
Definition INITIAL_GENERATION : Z := 1.
Definition MAX_BITMAP_WORDS : Z := 16.
Definition BITS_PER_WORD : Z := 64.
Definition LOCK_ATTEMPTS : nat := 128.
Definition MAX_RELOC_SLOTS : Z := MAX_BITMAP_WORDS * BITS_PER_WORD.
Definition RELOC_SLOT_ALIGNMENT : Z := 64.

Inductive RelocAllocatorState := SUninitialized | SInitializing | SReady | SPoisoned.

Record AllocationDescriptor := {
  region_id : Z;
  slot : Z;
  generation : Z;
  offset : Z;
  byte_len : Z;
  alignment : Z;
  fingerprint_low : Z;
  fingerprint_high : Z
}.
#[export] Instance AllocationDescriptor_eq_dec : EqDecision AllocationDescriptor.
Proof. solve_decision. Defined.

Definition from_raw (region_id slot generation offset byte_len alignment fingerprint_low fingerprint_high : Z) :
    AllocationDescriptor :=
  {| region_id := region_id; slot := slot; generation := generation; offset := offset;
     byte_len := byte_len; alignment := alignment;
     fingerprint_low := fingerprint_low; fingerprint_high := fingerprint_high |}.

Definition null : AllocationDescriptor := from_raw 0 u32_max 0 u64_max 0 1 0 0.

Definition is_null (d : AllocationDescriptor) : bool :=
  (region_id d =? 0) && (slot d =? u32_max) && (generation d =? 0) && (offset d =? u64_max)
  && (byte_len d =? 0) && (alignment d =? 1) && (fingerprint_low d =? 0) && (fingerprint_high d =? 0).

Definition descriptor_fingerprint (d : AllocationDescriptor) : Z :=
  Z.lor (Z.shiftl (fingerprint_high d) 64) (fingerprint_low d).

Inductive RelocError :=
| NullBase
| RegionTooLarge
| AddressOverflow
| AllocatorOutsideRegion
| UnsupportedSlotCount (requested maximum : Z)
| ZeroRegionId
| SlotSizeAlignment (required : Z)
| ArenaAlignment (required : Z)
| ArenaOverlapsAllocator
| ArenaOutOfBounds (offset byte_len mapping_len : Z)
| GeometryOverflow
| MappingLength (expected found : Z)
| ControlOffset (expected found : Z)
| NotInitialized
| InitializationInProgress
| AlreadyInitialized
| Poisoned
| Busy
| Exhausted
| AllocationTooLarge (requested slot_size : Z)
| UnsupportedAlignment (requested maximum : Z)
| LengthOverflow
| WrongRegion (expected found : Z)
| SlotOutOfRange (slot capacity : Z)
| StaleGeneration (slot expected found : Z)
| DescriptorMismatch (slot : Z)
| CorruptMetadata (slot : Z)
| GenerationExhausted (slot : Z)
| ResolvedMisalignment (address required : Z)
| CapacityExceeded
| Empty.

Definition state_error (raw : Z) : RelocError :=
  if raw =? UNINITIALIZED then NotInitialized
  else if raw =? INITIALIZING then InitializationInProgress
  else if raw =? READY then AlreadyInitialized
  else Poisoned.

Record RelocAllocatorSnapshot := {
  snapshot_state : RelocAllocatorState;
  capacity : Z;
  allocated : Z;
  operation_locked : bool
}.

(** The fields of [RelocAllocator] and of its [SlotMetadata], and the arena. *)
Inductive rcell :=
| State | OperationLock | RegionId | ControlOffsetCell | MappingLen | ArenaOffset | SlotSize
| Bitmap (word : Z)
| Token (slot : Z) | ByteLen (slot : Z) | Alignment (slot : Z)
| FingerprintLow (slot : Z) | FingerprintHigh (slot : Z)
| Data (off : Z).
#[export] Instance rcell_eq_dec : EqDecision rcell.
Proof. solve_decision. Defined.

Record RelocRegion := { base : Z; len : Z }.
Record ValidatedGeometry := { geometry_base : Z; control_offset : Z }.

(** [u64::count_ones] *)
Fixpoint count_ones_from (n : nat) (x : Z) : Z :=
  match n with
  | O => 0
  | S n => Z.b2z (Z.testbit x (Z.of_nat n)) + count_ones_from n x
  end.
Definition count_ones (x : Z) : Z := count_ones_from 64 x.

Definition div_ceil (a b : Z) : Z := (a + b - 1) / b.

(** The allocator as [RelocAllocator::new] builds it; the arena is untouched. *)
Definition new (arena : Z -> Z) : rcell -> Z := fun l =>
  match l with
  | State => UNINITIALIZED
  | OperationLock => UNLOCKED
  | RegionId | ControlOffsetCell | MappingLen | ArenaOffset | SlotSize => 0
  | Bitmap _ => 0
  | Token _ => INITIAL_GENERATION
  | ByteLen _ => 0
  | Alignment _ => 1
  | FingerprintLow _ | FingerprintHigh _ => 0
  | Data off => arena off
  end.

Section Allocator.
Context `{Target}.
Variable SLOTS : Z.
Variable control_size : Z.
#[local] Abbreviation prog := (prog rcell).

(** [self.slots[slot]] and [self.bitmap[word]] *)
Definition at_slot {A} (s : Z) (k : prog A) : prog A :=
  if (0 <=? s) && (s <? SLOTS) then k else Panic.
Definition at_word {A} (w : Z) (k : prog A) : prog A :=
  if (0 <=? w) && (w <? MAX_BITMAP_WORDS) then k else Panic.

Definition word_of (slot : Z) : Z := slot / BITS_PER_WORD.
Definition mask_of (slot : Z) : Z := Z.shiftl 1 (slot mod BITS_PER_WORD).

(** ** Lifecycle *)

Definition state : prog RelocAllocatorState :=
  let! raw := load State in
  Ret (if raw =? UNINITIALIZED then SUninitialized
       else if raw =? INITIALIZING then SInitializing
       else if raw =? READY then SReady
       else SPoisoned).

(** [saturating_add] on [usize] *)
Definition saturating_add (x y : Z) : Z := Z.min (x + y) usize_max.

Fixpoint snapshot_words (n : nat) (word allocated : Z) : prog Z :=
  match n with
  | O => Ret allocated
  | S n =>
      let! w := load (Bitmap word) in
      snapshot_words n (word + 1) (saturating_add allocated (count_ones w))
  end.
Definition snapshot : prog RelocAllocatorSnapshot :=
  let words := Z.min (div_ceil SLOTS BITS_PER_WORD) MAX_BITMAP_WORDS in
  let! allocated := snapshot_words (Z.to_nat words) 0 0 in
  let! state := state in
  let! lock := load OperationLock in
  Ret {| snapshot_state := state; capacity := SLOTS; allocated := Z.min allocated SLOTS;
         operation_locked := negb (lock =? UNLOCKED) |}.

Definition poison : prog unit := store State POISONED.

(** [Drop for OperationGuard] *)
Definition guard_drop (poison_on_drop : bool) : prog unit :=
  do! (if poison_on_drop then poison else Ret tt) ;;
  store OperationLock UNLOCKED.

Definition validate_geometry (control_start base mapping_len arena_offset slot_size : Z) :
    result ValidatedGeometry RelocError :=
  reject (SLOTS =? 0) || (MAX_RELOC_SLOTS <? SLOTS) with UnsupportedSlotCount SLOTS MAX_RELOC_SLOTS ;;
  reject base =? 0 with NullBase ;;
  reject isize_max <? mapping_len with RegionTooLarge ;;
  let? mapping_end := ok_or (checked_add usize_bits base mapping_len) AddressOverflow in
  let? control_end := ok_or (checked_add usize_bits control_start control_size) AddressOverflow in
  reject (control_start <? base) || (mapping_end <? control_end) with AllocatorOutsideRegion ;;
  let control_offset := control_start - base in
  reject (slot_size =? 0) || negb (slot_size mod RELOC_SLOT_ALIGNMENT =? 0)
    with SlotSizeAlignment RELOC_SLOT_ALIGNMENT ;;
  let? arena_offset_usize := ok_or (usize_try_from arena_offset) GeometryOverflow in
  let? arena_start := ok_or (checked_add usize_bits base arena_offset_usize) GeometryOverflow in
  reject negb (arena_start mod RELOC_SLOT_ALIGNMENT =? 0) with ArenaAlignment RELOC_SLOT_ALIGNMENT ;;
  let? arena_len := ok_or (checked_mul usize_bits slot_size SLOTS) GeometryOverflow in
  let? arena_end := ok_or (checked_add usize_bits arena_start arena_len) GeometryOverflow in
  reject mapping_end <? arena_end with ArenaOutOfBounds arena_offset arena_len mapping_len ;;
  reject (control_start <? arena_end) && (arena_start <? control_end) with ArenaOverlapsAllocator ;;
  Ok {| geometry_base := base; control_offset := control_offset |}.

Definition publish_ready : prog (result unit RelocError) :=
  let! x := compare_exchange State INITIALIZING READY in
  Ret (match x with Ok _ => Ok tt | Err actual => Err (state_error actual) end).

(** [SlotMetadata::reset] *)
Definition slot_reset (s : Z) : prog unit :=
  do! store (ByteLen s) 0 ;;
  do! store (Alignment s) 1 ;;
  do! store (FingerprintLow s) 0 ;;
  do! store (FingerprintHigh s) 0 ;;
  store (Token s) INITIAL_GENERATION.

Fixpoint clear_bitmap (n : nat) (word : Z) : prog unit :=
  match n with
  | O => Ret tt
  | S n => do! store (Bitmap word) 0 ;; clear_bitmap n (word + 1)
  end.
Fixpoint reset_slots (n : nat) (s : Z) : prog unit :=
  match n with
  | O => Ret tt
  | S n => do! slot_reset s ;; reset_slots n (s + 1)
  end.

Definition initialize (control_start base mapping_len region_id arena_offset slot_size : Z) :
    prog (result RelocRegion RelocError) :=
  if region_id =? 0 then Ret (Err ZeroRegionId)
  else match validate_geometry control_start base mapping_len arena_offset slot_size with
  | Err e => Ret (Err e)
  | Ok geometry =>
      let! x := compare_exchange State UNINITIALIZED INITIALIZING in
      match x with
      | Err actual => Ret (Err (state_error actual))
      | Ok _ =>
          do! store OperationLock UNLOCKED ;;
          do! store RegionId region_id ;;
          do! store ControlOffsetCell (control_offset geometry) ;;
          do! store MappingLen mapping_len ;;
          do! store ArenaOffset arena_offset ;;
          do! store SlotSize slot_size ;;
          do! clear_bitmap (Z.to_nat MAX_BITMAP_WORDS) 0 ;;
          do! reset_slots (Z.to_nat SLOTS) 0 ;;
          let! r := publish_ready in
          match r with
          | Err e => do! store State POISONED (* armed InitializationPoison *) ;; Ret (Err e)
          | Ok _ => Ret (Ok {| base := geometry_base geometry; len := mapping_len |})
          end
      end
  end.

(** ** The bounded operation lock *)

Definition try_operation : prog (result unit RelocError) :=
  for_loop LOCK_ATTEMPTS 0
    (fun _ =>
      let! state := load State in
      if negb (state =? READY) then Ret (Some (Err (state_error state)))
      else
        let! x := compare_exchange_weak OperationLock UNLOCKED LOCKED in
        match x with
        | Ok _ =>
            let! state := load State in
            if negb (state =? READY) then
              do! store OperationLock UNLOCKED ;; Ret (Some (Err Poisoned))
            else Ret (Some (Ok tt))
        | Err _ => Ret None
        end)
    (Ret (Err Busy)).

(** ** Attaching *)

Definition validate_slot (slot_size slot : Z) : prog (option (result unit RelocError)) :=
  at_slot slot (
  let! token := load (Token slot) in
  let generation := Z.land token GENERATION_MASK in
  let allocated := negb (Z.land token ALLOCATED_BIT =? 0) in
  at_word (word_of slot) (
  let! word := load (Bitmap (word_of slot)) in
  let bitmap_allocated := negb (Z.land word (mask_of slot) =? 0) in
  let! byte_len := load (ByteLen slot) in
  let! alignment := load (Alignment slot) in
  let! low := load (FingerprintLow slot) in
  let! high := load (FingerprintHigh slot) in
  let fingerprint := Z.lor low high in
  let valid_free := negb allocated && negb bitmap_allocated && (byte_len =? 0) && (alignment =? 1)
                    && (fingerprint =? 0) in
  let valid_allocated := allocated && bitmap_allocated && (byte_len <=? slot_size)
                         && is_power_of_two alignment && (alignment <=? RELOC_SLOT_ALIGNMENT) in
  if (generation =? 0) || negb (valid_free || valid_allocated) then
    do! poison ;; Ret (Some (Err (CorruptMetadata slot)))
  else Ret None)).

Definition valid_bits (word : Z) : Z :=
  let first_slot := word * BITS_PER_WORD in
  if SLOTS <=? first_slot then 0
  else
    let remaining := SLOTS - first_slot in
    if BITS_PER_WORD <=? remaining then u64_max else Z.shiftl 1 remaining - 1.

Definition validate_word (word : Z) : prog (option (result unit RelocError)) :=
  at_word word (
  let! w := load (Bitmap word) in
  if negb (Z.land w (not_bits 64 (valid_bits word)) =? 0) then
    do! poison ;; Ret (Some (Err (CorruptMetadata SLOTS)))
  else Ret None).

Definition validate_metadata_locked : prog (result unit RelocError) :=
  let! slot_size := load SlotSize in
  for_loop (Z.to_nat SLOTS) 0 (validate_slot slot_size)
    (for_loop (Z.to_nat MAX_BITMAP_WORDS) 0 validate_word (Ret (Ok tt))).

Definition attach (control_start base mapping_len expected_region_id : Z) :
    prog (result RelocRegion RelocError) :=
  let! state := load State in
  if negb (state =? READY) then Ret (Err (state_error state))
  else
  let! found_region := load RegionId in
  if negb (found_region =? expected_region_id) then Ret (Err (WrongRegion expected_region_id found_region))
  else
  let! recorded_len := load MappingLen in
  if negb (recorded_len =? mapping_len) then Ret (Err (MappingLength recorded_len mapping_len))
  else
  let! arena_offset := load ArenaOffset in
  let! raw_slot_size := load SlotSize in
  match usize_try_from raw_slot_size with
  | None => Ret (Err GeometryOverflow)
  | Some slot_size =>
      match validate_geometry control_start base mapping_len arena_offset slot_size with
      | Err e => Ret (Err e)
      | Ok geometry =>
          let! recorded_control := load ControlOffsetCell in
          if negb (control_offset geometry =? recorded_control) then
            Ret (Err (ControlOffset recorded_control (control_offset geometry)))
          else
          do!? try_operation ;;
          let! v := validate_metadata_locked in
          do! guard_drop false ;;
          Ret (match v with
               | Ok _ => Ok {| base := geometry_base geometry; len := mapping_len |}
               | Err e => Err e
               end)
      end
  end.

(** ** Regions *)

Variable self : RelocRegion.

Definition expected_offset (slot : Z) : prog (result Z RelocError) :=
  let! stride := load SlotSize in
  match checked_mul 64 stride slot with
  | None => Ret (Err GeometryOverflow)
  | Some relative =>
      let! arena_offset := load ArenaOffset in
      Ret (ok_or (checked_add 64 arena_offset relative) GeometryOverflow)
  end.

Definition validate_request (byte_len alignment : Z) : prog (result unit RelocError) :=
  if negb (is_power_of_two alignment) || (RELOC_SLOT_ALIGNMENT <? alignment) then
    Ret (Err (UnsupportedAlignment alignment RELOC_SLOT_ALIGNMENT))
  else if isize_max <? byte_len then Ret (Err LengthOverflow)
  else
    let! raw := load SlotSize in
    Ret (let? slot_size := ok_or (usize_try_from raw) GeometryOverflow in
         reject slot_size <? byte_len with AllocationTooLarge byte_len slot_size ;;
         Ok tt).

Definition find_free_slot : prog (result Z RelocError) :=
  for_loop (Z.to_nat SLOTS) 0
    (fun slot => at_word (word_of slot) (
       let! w := load (Bitmap (word_of slot)) in
       Ret (if Z.land w (mask_of slot) =? 0 then Some (Ok slot) else None)))
    (Ret (Err Exhausted)).

Definition pointer (offset byte_len alignment : Z) : result Z RelocError :=
  let? offset := ok_or (usize_try_from offset) GeometryOverflow in
  let? end_ := ok_or (checked_add usize_bits offset byte_len) GeometryOverflow in
  reject len self <? end_ with ArenaOutOfBounds offset byte_len (len self) ;;
  let pointer := base self + offset in
  reject negb (pointer mod alignment =? 0) with ResolvedMisalignment pointer alignment ;;
  Ok pointer.

(** [fingerprint as u64] and [(fingerprint >> 64) as u64] *)
Definition low64 (fingerprint : Z) : Z := wrap 64 fingerprint.
Definition high64 (fingerprint : Z) : Z := wrap 64 (Z.shiftr fingerprint 64).

(** The closure receives its pointer as a displacement into the mapping. *)
Definition allocate_with (descriptor : LayoutDescriptor) (byte_len alignment : Z)
    (init : Z -> prog (unwind unit)) : prog (unwind (result AllocationDescriptor RelocError)) :=
  let! v := validate_request byte_len alignment in
  match v with Err e => Ret (Returned (Err e)) | Ok _ =>
  let! o := try_operation in
  match o with Err e => Ret (Returned (Err e)) | Ok _ =>
  let! f := find_free_slot in
  match f with Err e => do! guard_drop false ;; Ret (Returned (Err e)) | Ok slot =>
  at_slot slot (
  let! token := load (Token slot) in
  let generation := Z.land token GENERATION_MASK in
  if negb (Z.land token ALLOCATED_BIT =? 0) || (generation =? 0) then
    do! guard_drop true ;; Ret (Returned (Err (CorruptMetadata slot)))
  else
  let! eo := expected_offset slot in
  match eo with Err e => do! guard_drop false ;; Ret (Returned (Err e)) | Ok offset =>
  let fingerprint := fingerprint descriptor in
  do! store (ByteLen slot) byte_len ;;
  do! store (Alignment slot) alignment ;;
  do! store (FingerprintLow slot) (low64 fingerprint) ;;
  do! store (FingerprintHigh slot) (high64 fingerprint) ;;
  match pointer offset byte_len alignment with
  | Err e => do! guard_drop true ;; Ret (Returned (Err e))
  | Ok pointer =>
  let! u := init (pointer - base self) in
  match u with Unwound => do! guard_drop true ;; Ret Unwound | Returned _ =>
  do! store (Token slot) (Z.lor ALLOCATED_BIT generation) ;;
  at_word (word_of slot) (
  let! previous := fetch_or (Bitmap (word_of slot)) (mask_of slot) in
  if negb (Z.land previous (mask_of slot) =? 0) then
    do! guard_drop true ;; Ret (Returned (Err (CorruptMetadata slot)))
  else
  let! region_id := load RegionId in
  do! guard_drop false ;;
  Ret (Returned (Ok (from_raw region_id slot generation offset byte_len alignment
         (low64 fingerprint) (high64 fingerprint)))))
  end end end) end end end.

Definition validate_allocation (allocation : AllocationDescriptor) (descriptor : LayoutDescriptor)
    (byte_len_ alignment_ : Z) (lock_held : bool) : prog (result unit RelocError) :=
  let! st := load State in
  if negb (st =? READY) then Ret (Err (state_error st)) else
  let! busy := (if lock_held then Ret false
                else let! l := load OperationLock in Ret (negb (l =? UNLOCKED))) in
  if busy then Ret (Err Busy) else
  let! expected_region := load RegionId in
  if negb (region_id allocation =? expected_region) then
    Ret (Err (WrongRegion expected_region (region_id allocation))) else
  let slot := slot allocation in
  if SLOTS <=? slot then Ret (Err (SlotOutOfRange slot SLOTS)) else
  let! eo := expected_offset slot in
  match eo with Err e => Ret (Err e) | Ok expected_offset =>
  let expected_fingerprint := fingerprint descriptor in
  if negb (offset allocation =? expected_offset) || negb (byte_len allocation =? byte_len_)
     || negb (alignment allocation =? alignment_)
     || negb (descriptor_fingerprint allocation =? expected_fingerprint)
  then Ret (Err (DescriptorMismatch slot)) else
  at_slot slot (
  let! token := load (Token slot) in
  let observed_generation := Z.land token GENERATION_MASK in
  if negb (observed_generation =? generation allocation) || (Z.land token ALLOCATED_BIT =? 0) then
    Ret (Err (StaleGeneration slot (generation allocation) observed_generation)) else
  at_word (word_of slot) (
  let! word := load (Bitmap (word_of slot)) in
  if Z.land word (mask_of slot) =? 0 then do! poison ;; Ret (Err (CorruptMetadata slot)) else
  let! high := load (FingerprintHigh slot) in
  let! low := load (FingerprintLow slot) in
  let found_fingerprint := Z.lor (Z.shiftl high 64) low in
  let! found_len := load (ByteLen slot) in
  let! bad := (if negb (found_len =? byte_len_) then Ret true
               else let! found_alignment := load (Alignment slot) in
                    Ret (negb (found_alignment =? alignment_)
                         || negb (found_fingerprint =? expected_fingerprint))) in
  if bad then do! poison ;; Ret (Err (CorruptMetadata slot)) else
  let! busy := (if lock_held then Ret false
                else let! l := load OperationLock in Ret (negb (l =? UNLOCKED))) in
  if busy then Ret (Err Busy) else
  let! token_after := load (Token slot) in
  if negb (token_after =? token) then
    Ret (Err (StaleGeneration slot (generation allocation) (Z.land token_after GENERATION_MASK)))
  else Ret (Ok tt)))
  end.

Definition release_locked (allocation : AllocationDescriptor) : prog (result unit RelocError) :=
  let slot := slot allocation in
  at_slot slot (
  if generation allocation =? GENERATION_MASK then
    do! poison ;; Ret (Err (GenerationExhausted slot))
  else
  match checked_add 64 (generation allocation) 1 with
  | None => Panic
  | Some next_generation =>
      do! store (Token slot) next_generation ;;
      do! store (ByteLen slot) 0 ;;
      do! store (Alignment slot) 1 ;;
      do! store (FingerprintLow slot) 0 ;;
      do! store (FingerprintHigh slot) 0 ;;
      at_word (word_of slot) (
      let! previous := fetch_and (Bitmap (word_of slot)) (not_bits 64 (mask_of slot)) in
      if Z.land previous (mask_of slot) =? 0 then do! poison ;; Ret (Err (CorruptMetadata slot))
      else Ret (Ok tt))
  end).

Definition release (allocation : AllocationDescriptor) (descriptor : LayoutDescriptor)
    (byte_len_ alignment_ : Z) : prog (result unit RelocError) :=
  do!? try_operation ;;
  let! v := validate_allocation allocation descriptor byte_len_ alignment_ true in
  match v with
  | Err e => do! guard_drop false ;; Ret (Err e)
  | Ok _ =>
      let! r := release_locked allocation in
      match r with
      | Err e => do! guard_drop true ;; Ret (Err e)
      | Ok _ => do! guard_drop false ;; Ret (Ok tt)
      end
  end.

Context `{PodType}.

Definition resolve (allocation : AllocationDescriptor) (element_capacity : Z) (descriptor : LayoutDescriptor) :
    prog (result Z RelocError) :=
  match checked_mul usize_bits size_of element_capacity with
  | None => Ret (Err LengthOverflow)
  | Some bytes =>
      do!? validate_request bytes align_of ;;
      do!? validate_allocation allocation descriptor bytes align_of false ;;
      Ret (pointer (offset allocation) bytes align_of)
  end.

(** The value moved out is what the arena holds at the allocation. *)
Definition take_value (allocation : AllocationDescriptor) (descriptor : LayoutDescriptor) :
    prog (result Z RelocError) :=
  do!? try_operation ;;
  let! v := validate_allocation allocation descriptor size_of align_of true in
  match v with
  | Err e => do! guard_drop false ;; Ret (Err e)
  | Ok _ =>
      match pointer (offset allocation) size_of align_of with
      | Err e => do! guard_drop false ;; Ret (Err e)
      | Ok pointer =>
          let! value := load (Data (pointer - base self)) in
          let! r := release_locked allocation in
          match r with
          | Err e => do! guard_drop true ;; Ret (Err e)
          | Ok _ => do! guard_drop false ;; Ret (Ok value)
          end
      end
  end.
End Allocator.

(** ** Fingerprints.  [lay] gives the compiler's placement of a field. *)

Definition mix_fields (lay : String.string -> FieldLayout) (state : Z) (fields : list (String.string * Z)) : Z :=
  foldl (fun state f => mix_field state (b_str f.1) (lay f.1) f.2) state fields.

Definition allocation_descriptor_fingerprint (lay : String.string -> FieldLayout)
    (size align u64_fingerprint u32_fingerprint : Z) : Z :=
  let state := mix_bytes FINGERPRINT_SEED (b_str "shmem-pod-allocation-descriptor-v1") in
  let state := mix_usize state size in
  let state := mix_usize state align in
  let state := mix_fields lay state
    [("region_id"%string, u64_fingerprint); ("slot"%string, u32_fingerprint);
     ("generation"%string, u64_fingerprint); ("offset"%string, u64_fingerprint);
     ("byte_len"%string, u64_fingerprint); ("alignment"%string, u64_fingerprint);
     ("fingerprint_low"%string, u64_fingerprint); ("fingerprint_high"%string, u64_fingerprint)] in
  finish state.

Definition slot_metadata_fingerprint (lay : String.string -> FieldLayout)
    (size align atomic_u64_fingerprint : Z) : Z :=
  let state := mix_bytes FINGERPRINT_SEED (b_str "shmem-pod-reloc-slot-metadata-v1") in
  let state := mix_usize state size in
  let state := mix_usize state align in
  let state := mix_fields lay state
    [("token"%string, atomic_u64_fingerprint); ("byte_len"%string, atomic_u64_fingerprint);
     ("alignment"%string, atomic_u64_fingerprint); ("fingerprint_low"%string, atomic_u64_fingerprint);
     ("fingerprint_high"%string, atomic_u64_fingerprint)] in
  finish state.

Definition allocator_fingerprint (SLOTS : Z) (lay : String.string -> FieldLayout)
    (size align atomic_u32_fingerprint atomic_u64_fingerprint bitmap_fingerprint slots_fingerprint : Z) : Z :=
  let state := mix_bytes FINGERPRINT_SEED (b_str "shmem-pod-reloc-allocator-v1") in
  let state := mix_usize state SLOTS in
  let state := mix_usize state size in
  let state := mix_usize state align in
  let state := mix_fields lay state
    [("state"%string, atomic_u32_fingerprint); ("operation_lock"%string, atomic_u32_fingerprint);
     ("region_id"%string, atomic_u64_fingerprint); ("control_offset"%string, atomic_u64_fingerprint);
     ("mapping_len"%string, atomic_u64_fingerprint); ("arena_offset"%string, atomic_u64_fingerprint);
     ("slot_size"%string, atomic_u64_fingerprint); ("bitmap"%string, bitmap_fingerprint);
     ("slots"%string, slots_fingerprint)] in
  finish state.

(** ** Geometry *)

Section Geometry.
Context `{Target}.
Variable SLOTS control_size : Z.

(** What [validate_geometry] has checked. *)
Record geometry_ok (control_start base mapping_len arena_offset slot_size : Z) : Prop := {
  go_slots : 1 <= SLOTS <= MAX_RELOC_SLOTS;
  go_base : 0 < base;
  go_len : mapping_len <= isize_max /\ base + mapping_len <= usize_max;
  go_control : base <= control_start /\ control_start + control_size <= base + mapping_len;
  go_size : 0 < slot_size /\ slot_size mod RELOC_SLOT_ALIGNMENT = 0;
  go_align : (base + arena_offset) mod RELOC_SLOT_ALIGNMENT = 0;
  go_arena : arena_offset + slot_size * SLOTS <= mapping_len;
  go_apart : base + arena_offset + slot_size * SLOTS <= control_start \/ control_start + control_size <= base + arena_offset
}.

Lemma validate_geometry_ok cs b ml ao ss g :
  in_width usize_bits b -> 0 <= SLOTS -> 0 <= ss -> 0 <= ao ->
  validate_geometry SLOTS control_size cs b ml ao ss = Ok g ->
  g = {| geometry_base := b; control_offset := cs - b |} /\ geometry_ok cs b ml ao ss.
Proof.
  unfold validate_geometry, usize_try_from, in_width. intros Hb HS Hss Hao Hg. ok_inv Hg. injection Hg as <-.
  repeat match goal with H : ok_or _ _ = Ok _ |- _ => apply ok_or_ok in H end.
  repeat match goal with
  | H : checked_add _ _ _ = Some _ |- _ => apply checked_add_some in H as [-> ?]
  | H : checked_mul _ _ _ = Some _ |- _ => apply checked_mul_some in H as [-> ?]
  | H : (if _ then Some _ else None) = Some _ |- _ => destruct (Z.leb_spec ao usize_max); [injection H as ->|discriminate H]
  | H : _ || _ = false |- _ => apply orb_false_iff in H as [? ?]
  | H : negb _ = false |- _ => apply negb_false_iff in H
  end.
  split; [done|]. zb_case; try discriminate. all: constructor; unfold usize_max in *; try lia.
Qed.
End Geometry.

(** An arena that passes the geometry check is sound: every slot lies
    inside the mapping, starts on a 64-byte boundary, is disjoint from every
    other slot and from the allocator's own metadata. *)
Theorem reloc_slots_disjoint `{Target} (SLOTS control_size cs b ml ao ss : Z) g :
  in_width usize_bits b -> 0 <= SLOTS -> 0 <= ss -> 0 <= ao -> 0 < control_size ->
  validate_geometry SLOTS control_size cs b ml ao ss = Ok g ->
  forall i j, 0 <= i < SLOTS -> 0 <= j < SLOTS -> i <> j ->
  let start k := b + ao + ss * k in
  b <= start i /\ start i + ss <= b + ml /\ start i mod RELOC_SLOT_ALIGNMENT = 0 /\
  (start i + ss <= start j \/ start j + ss <= start i) /\
  (start i + ss <= cs \/ cs + control_size <= start i).
Proof.
  intros Hb HS Hss Hao Hc Hg i j Hi Hj Hij start.
  apply validate_geometry_ok in Hg as [_ [G1 G2 [G3 G3'] [G4 G4'] [G5 G5'] G6 G7 G8]]; [|done..].
  assert (ss * i + ss <= ss * SLOTS) by nia. assert (0 <= ss * i) by nia.
  subst start. cbn beta. split; [lia|]. split; [lia|]. split; [|split].
  - rewrite Z.add_mod, G6, Z.mul_mod, G5' by done. rewrite Z.mul_0_l. done.
  - destruct (Z.lt_ge_cases i j); [left|right]; nia.
  - lia.
Qed.

Lemma reloc_slots_disjoint_witness :
  exists g, validate_geometry 4 336 4096 4096 1024 512 64 = Ok g /\ 4096 + 512 + 64 * 3 + 64 <= 4096 + 1024.
Proof.
  exists {| geometry_base := 4096; control_offset := 0 |}. split; [reflexivity|].
  refine (proj1 (proj2 (reloc_slots_disjoint 4 336 4096 4096 1024 512 64
    {| geometry_base := 4096; control_offset := 0 |} _ _ _ _ _ _ 3 0 _ _ _)));
    try (vm_compute; split; congruence); try (vm_compute; congruence); reflexivity.
Defined.
