(* ===== verification/RelocInv.v ===== *)
(** The invariant of the relocatable allocator and the specifications of its
    operations, in every interleaving of the processes that use it. *)

From stdpp Require Import countable.
From S2P Require Import Prelude Conc Layout Reloc.

(** ** Slot records and tokens *)

(** The metadata of one slot: the five atomics and its bitmap bit. *)
Record srec := SRec { r_tok : Z; r_len : Z; r_al : Z; r_lo : Z; r_hi : Z; r_bit : bool }.
#[export] Instance srec_eq_dec : EqDecision srec.
Proof. solve_decision. Defined.
#[export] Instance srec_countable : Countable srec.
Proof.
  apply (inj_countable' (fun x => (r_tok x, r_len x, r_al x, r_lo x, r_hi x, r_bit x))
    (fun x => match x with (a, b, c, d, e, f) => SRec a b c d e f end)). by intros [].
Defined.

Inductive field := FTok | FLen | FAl | FLo | FHi.
#[export] Instance field_eq_dec : EqDecision field.
Proof. solve_decision. Defined.
Definition fcell (f : field) (s : Z) : rcell :=
  match f with
  | FTok => Token s | FLen => ByteLen s | FAl => Alignment s
  | FLo => FingerprintLow s | FHi => FingerprintHigh s
  end.
Definition fget (x : srec) (f : field) : Z :=
  match f with FTok => r_tok x | FLen => r_len x | FAl => r_al x | FLo => r_lo x | FHi => r_hi x end.
Definition fset (x : srec) (f : field) (v : Z) : srec :=
  match f with
  | FTok => SRec v (r_len x) (r_al x) (r_lo x) (r_hi x) (r_bit x)
  | FLen => SRec (r_tok x) v (r_al x) (r_lo x) (r_hi x) (r_bit x)
  | FAl => SRec (r_tok x) (r_len x) v (r_lo x) (r_hi x) (r_bit x)
  | FLo => SRec (r_tok x) (r_len x) (r_al x) v (r_hi x) (r_bit x)
  | FHi => SRec (r_tok x) (r_len x) (r_al x) (r_lo x) v (r_bit x)
  end.

Lemma fset_get x f v f' : fget (fset x f v) f' = if decide (f = f') then v else fget x f'.
Proof. by destruct f, f'. Qed.

Lemma fset_bit x f v : r_bit (fset x f v) = r_bit x.
Proof. by destruct f. Qed.

Lemma fcell_inj f s f' s' : fcell f s = fcell f' s' -> f = f' /\ s = s'.
Proof. destruct f, f'; cbn; by intros [= ->]. Qed.

(** What the holder of the operation lock is doing: nothing yet, reading the
    metadata of a slot, or rewriting a slot that nobody owns. *)
Inductive lstage := LIdle | LLook (s : Z) (x : srec) | LWork (s : Z) (x : srec) (data : Z).
#[export] Instance lstage_eq_dec : EqDecision lstage.
Proof. solve_decision. Defined.
#[export] Instance lstage_countable : Countable lstage.
Proof.
  apply (inj_countable'
    (fun t => match t with LIdle => inl tt | LLook s x => inr (inl (s, x)) | LWork s x d => inr (inr (s, x, d)) end)
    (fun t => match t with inl _ => LIdle | inr (inl (s, x)) => LLook s x | inr (inr (s, x, d)) => LWork s x d end)).
  by intros [].
Defined.

(** [Alloc s x v] owns the allocation in slot [s] with metadata [x] and value
    [v]; [Lk st] is the operation lock; [Stale s g] is the knowledge that slot
    [s] has moved past generation [g]. *)
Inductive rtok := Alloc (s : Z) (x : srec) (v : Z) | Lk (st : lstage) | Stale (s g : Z).
#[export] Instance rtok_eq_dec : EqDecision rtok.
Proof. solve_decision. Defined.
#[export] Instance rtok_countable : Countable rtok.
Proof.
  apply (inj_countable'
    (fun t => match t with Alloc s x v => inl (s, x, v) | Lk st => inr (inl st) | Stale s g => inr (inr (s, g)) end)
    (fun t => match t with inl (s, x, v) => Alloc s x v | inr (inl st) => Lk st | inr (inr (s, g)) => Stale s g end)).
  by intros [].
Defined.

#[local] Abbreviation toks := (gmultiset rtok).
#[local] Abbreviation mem := (rcell -> Z).

(** ** Tokens as generation and flag *)

Definition gen (t : Z) : Z := t mod 2 ^ 63.

Lemma token_gen t : Z.land t GENERATION_MASK = gen t.
Proof. change GENERATION_MASK with (2 ^ 63 - 1). by rewrite land_mask. Qed.

Lemma token_flag t : (Z.land t ALLOCATED_BIT =? 0) = negb (Z.testbit t 63).
Proof. change ALLOCATED_BIT with (2 ^ 63). by rewrite land_bit_eqb. Qed.

Lemma live_token g : 1 <= g < 2 ^ 63 -> Z.lor ALLOCATED_BIT g = 2 ^ 63 + g.
Proof. intros Hg. change ALLOCATED_BIT with (Z.shiftl 1 63). rewrite lor_shiftl_add by lia. lia. Qed.

Lemma live_gen g : 1 <= g < 2 ^ 63 -> gen (2 ^ 63 + g) = g.
Proof.
  intros Hg. unfold gen. replace (2 ^ 63 + g) with (g + 1 * 2 ^ 63) by lia. rewrite Z.mod_add by lia.
  apply Z.mod_small. lia.
Qed.

Lemma live_flag g : 1 <= g < 2 ^ 63 -> Z.testbit (2 ^ 63 + g) 63 = true.
Proof.
  intros Hg. replace (2 ^ 63 + g) with (1 * 2 ^ 63 + g) by lia. by rewrite testbit_pack by lia.
Qed.

Lemma free_gen g : 1 <= g < 2 ^ 63 -> gen g = g.
Proof. intros Hg. apply Z.mod_small. lia. Qed.

Lemma free_flag g : 1 <= g < 2 ^ 63 -> Z.testbit g 63 = false.
Proof. intros Hg. apply (testbit_small g 63); lia. Qed.

(** ** Bitmap words *)

Lemma mask_test w s : (Z.land w (mask_of s) =? 0) = negb (Z.testbit w (s mod 64)).
Proof.
  unfold mask_of, BITS_PER_WORD. rewrite Z.shiftl_1_l. apply land_bit_eqb.
  apply Z.mod_pos_bound. lia.
Qed.

Lemma mask_set w s i : 0 <= i -> Z.testbit (Z.lor w (mask_of s)) i = Z.testbit w i || (i =? s mod 64).
Proof.
  intros Hi. unfold mask_of, BITS_PER_WORD. pose proof (Z.mod_pos_bound s 64).
  rewrite Z.shiftl_1_l, Z.lor_spec, Z.pow2_bits_eqb, (Z.eqb_sym i) by lia. done.
Qed.

Lemma mask_clear w s i : 0 <= i ->
  Z.testbit (Z.land w (not_bits 64 (mask_of s))) i = Z.testbit w i && (i <? 64) && negb (i =? s mod 64).
Proof.
  intros Hi. unfold mask_of, BITS_PER_WORD. pose proof (Z.mod_pos_bound s 64).
  assert (2 ^ (s mod 64) < 2 ^ 64) by (apply Z.pow_lt_mono_r; lia).
  rewrite Z.shiftl_1_l, Z.land_spec, not_bits_testbit, Z.pow2_bits_eqb, (Z.eqb_sym i) by lia.
  by rewrite andb_assoc.
Qed.

(** Two slots share a bitmap bit only if they are the same slot. *)
Lemma bit_slot s j : s / 64 = j / 64 -> s mod 64 = j mod 64 -> s = j.
Proof. intros. dlia. Qed.

Section Inv.
Context `{Target}.
Variable SLOTS rid co ml ao ss : Z.

(** ** The invariant *)

Definition off (s : Z) : Z := ao + ss * s.

Definition bit_of (m : mem) (s : Z) : bool := Z.testbit (m (Bitmap (s / 64))) (s mod 64).

Definition slot_vals (m : mem) (s : Z) (x : srec) : Prop :=
  (forall f, m (fcell f s) = fget x f) /\ bit_of m s = r_bit x.

Definition free_rec (g : Z) : srec := SRec g 0 1 0 0 false.
Definition free_ok (x : srec) : Prop := exists g, 1 <= g < 2 ^ 63 /\ x = free_rec g.
Definition live_ok (x : srec) : Prop := exists g, 1 <= g < 2 ^ 63 /\ r_tok x = 2 ^ 63 + g /\ r_bit x = true /\
  0 <= r_len x <= ss /\ is_power_of_two (r_al x) = true /\ r_al x <= 64.

Definition no_alloc (r : toks) (s : Z) : Prop := forall x v, mult (Alloc s x v) r = 0.

(** A slot nobody rewrites: free and unowned, or owned by exactly one token that
    knows its metadata and value. *)
Definition stable (r : toks) (m : mem) (s : Z) (x : srec) : Prop :=
  (free_ok x /\ no_alloc r s) \/
  (live_ok x /\ forall x' v', mult (Alloc s x' v') r =
     if decide (x' = x /\ v' = m (Data (off s))) then 1 else 0).

Definition slot_inv (lk : option lstage) (r : toks) (m : mem) (s : Z) : Prop :=
  exists x, slot_vals m s x /\ (forall g, 0 < mult (Stale s g) r -> g < gen (r_tok x)) /\
  match lk with
  | Some (LWork s' x' v) =>
      if decide (s' = s) then x = x' /\ m (Data (off s)) = v /\ no_alloc r s else stable r m s x
  | Some (LLook s' x') => (s' = s -> x = x') /\ stable r m s x
  | _ => stable r m s x
  end.

Definition lock_slot (lk : option lstage) : option Z :=
  match lk with Some (LWork s _ _) | Some (LLook s _) => Some s | _ => None end.

Record consts (m : mem) : Prop := {
  c_rid : m RegionId = rid;
  c_co : m ControlOffsetCell = co;
  c_ml : m MappingLen = ml;
  c_ao : m ArenaOffset = ao;
  c_ss : m SlotSize = ss;
  c_state : m State = READY \/ m State = POISONED;
  c_stray : forall w i, 0 <= w < 16 -> 0 <= i -> 64 <= i \/ SLOTS <= w * 64 + i -> Z.testbit (m (Bitmap w)) i = false
}.

Record locks (lk : option lstage) (m : mem) (r : toks) : Prop := {
  k_lock : m OperationLock = match lk with None => UNLOCKED | Some _ => LOCKED end;
  k_tok : forall st, mult (Lk st) r = if decide (lk = Some st) then 1 else 0;
  k_slot : forall s, lock_slot lk = Some s -> 0 <= s < SLOTS;
  k_range : forall s, ~ 0 <= s < SLOTS -> no_alloc r s
}.

Definition rinv (lk : option lstage) (m : mem) (r : toks) : Prop :=
  consts m /\ locks lk m r /\ forall s, 0 <= s < SLOTS -> slot_inv lk r m s.

Definition inv (m : mem) (r : toks) : Prop := exists lk, rinv lk m r.

(** ** Framing *)

Definition same_slot (m m' : mem) (j : Z) : Prop :=
  (forall f, m' (fcell f j) = m (fcell f j)) /\ bit_of m' j = bit_of m j /\ m' (Data (off j)) = m (Data (off j)).

Definition same_toks (r r' : toks) (j : Z) : Prop :=
  (forall x v, mult (Alloc j x v) r' = mult (Alloc j x v) r) /\ (forall g, mult (Stale j g) r' = mult (Stale j g) r).

Lemma stable_frame r r' m m' s x : same_slot m m' s -> same_toks r r' s -> stable r m s x -> stable r' m' s x.
Proof.
  intros (_ & _ & Hd) [Ha _] [[Hf Hn]|[Hl Hn]]; [left|right]; split; try done.
  - intros x' v. by rewrite Ha.
  - intros x' v'. by rewrite Ha, Hd.
Qed.

Lemma vals_frame m m' s x : same_slot m m' s -> slot_vals m s x -> slot_vals m' s x.
Proof. intros (Hf & Hb & _) [H1 H2]. split; [intros f; by rewrite Hf|by rewrite Hb]. Qed.

Lemma slot_frame lk lk' r r' m m' j : same_slot m m' j -> same_toks r r' j ->
  lock_slot lk <> Some j -> lock_slot lk' <> Some j -> slot_inv lk r m j -> slot_inv lk' r' m' j.
Proof.
  intros Hs Ht Hlk Hlk' (x & Hv & Hst & Hx). exists x. split; [by eapply vals_frame|].
  split; [intros g; destruct Ht as [_ ->]; apply Hst|].
  assert (stable r m j x) as Hstab.
  { destruct lk as [[|s' x'|s' x' v]|]; cbn in Hlk; try done; [by destruct Hx|].
    destruct (decide (s' = j)); [congruence|done]. }
  apply (stable_frame r r' m m') in Hstab; [|done..].
  destruct lk' as [[|s' x'|s' x' v]|]; cbn in Hlk'; try done.
  - split; [congruence|done].
  - destruct (decide (s' = j)); [congruence|done].
Qed.

(** The tokens of the lock among others. *)
Lemma lk_here lk m r fr st : locks lk m (r ⊎ {[+ Lk st +]} ⊎ fr) -> lk = Some st /\
  forall st', mult (Lk st') r = 0 /\ mult (Lk st') fr = 0.
Proof.
  intros [_ Ht _ _]. pose proof (Ht st) as Hst. autorewrite with mult in Hst.
  rewrite (decide_True (P := Lk st = Lk st)) in Hst by done.
  pose proof (mult_nonneg (Lk st) r). pose proof (mult_nonneg (Lk st) fr).
  case_decide as Hlk; [|lia]. split; [done|]. intros st'. specialize (Ht st'). autorewrite with mult in Ht.
  pose proof (mult_nonneg (Lk st') r). pose proof (mult_nonneg (Lk st') fr). subst lk.
  destruct (decide (st' = st)) as [->|Hne].
  - rewrite !decide_True in Ht by done. lia.
  - rewrite !decide_False in Ht by congruence. lia.
Qed.

(** Tokens that concern slot [s] only. *)
Definition about (s : Z) (ra : toks) : Prop :=
  (forall st, mult (Lk st) ra = 0) /\ (forall j x v, j <> s -> mult (Alloc j x v) ra = 0) /\
  (forall j g, j <> s -> mult (Stale j g) ra = 0).

Lemma about_empty s : about s ∅.
Proof. split; [|split]; intros; apply mult_empty. Qed.

Lemma about_alloc s x v : about s {[+ Alloc s x v +]}.
Proof. split; [|split]; intros; rewrite mult_single, decide_False; congruence. Qed.

Lemma about_stale s g : about s {[+ Stale s g +]}.
Proof. split; [|split]; intros; rewrite mult_single, decide_False; congruence. Qed.

(** One step of the holder of the lock: it changes slot [s], exchanges tokens
    about slot [s], and moves to another stage on slot [s]. *)
Lemma rinv_step lk m m' r rb ra fr st st' s :
  rinv lk m (r ⊎ rb ⊎ {[+ Lk st +]} ⊎ fr) -> 0 <= s < SLOTS ->
  lock_slot (Some st) = None \/ lock_slot (Some st) = Some s ->
  lock_slot (Some st') = None \/ lock_slot (Some st') = Some s ->
  about s rb -> about s ra -> consts m' -> m' OperationLock = m OperationLock ->
  (forall j, j <> s -> same_slot m m' j) ->
  slot_inv (Some st') (r ⊎ ra ⊎ {[+ Lk st' +]} ⊎ fr) m' s ->
  rinv (Some st') m' (r ⊎ ra ⊎ {[+ Lk st' +]} ⊎ fr).
Proof.
  intros (Hc & Hl & Hs) Hrange Hst Hst' (B1 & B2 & B3) (A1 & A2 & A3) Hc' Hm Hsame Hslot.
  pose proof (lk_here _ _ _ _ _ Hl) as [-> H0]. destruct Hl as [L1 L2 L3 L4]. split; [done|]. split.
  - constructor; [by rewrite Hm, L1| | |].
    + intros st0. destruct (H0 st0) as [Hr0 Hf0]. autorewrite with mult in *. rewrite A1, Hf0. rewrite B1 in Hr0.
      destruct (decide (st' = st0)) as [->|Hne]; [rewrite !decide_True by done; lia|].
      rewrite !decide_False by congruence. lia.
    + intros j Hj. assert (j = s) as -> by (destruct Hst' as [E|E]; congruence). done.
    + intros j Hns x v. specialize (L4 j Hns x v). autorewrite with mult in *.
      rewrite A2 by (intros ->; done). rewrite B2 in L4 by (intros ->; done).
      rewrite decide_False in L4 by congruence. rewrite decide_False by congruence. lia.
  - intros j Hj. destruct (decide (j = s)) as [->|Hne]; [done|].
    eapply slot_frame, Hs; [by apply Hsame| |destruct Hst; congruence|destruct Hst'; congruence|done].
    split.
    + intros x v. autorewrite with mult. rewrite A2, B2, !decide_False by congruence. done.
    + intros g. autorewrite with mult. rewrite A3, B3, !decide_False by congruence. done.
Qed.

Lemma inv_rinv lk m r : rinv lk m r -> inv m r.
Proof. by exists lk. Qed.

(** ** Changing one cell *)

Hypothesis ss_pos : 0 < ss.

Lemma off_inj s j : off s = off j -> s = j.
Proof. unfold off. nia. Qed.

Lemma same_field m f s v j : j <> s -> same_slot m (upd m (fcell f s) v) j.
Proof.
  intros Hne. split; [|split].
  - intros f'. rewrite upd_ne; [done|]. intros [-> ->]%fcell_inj. done.
  - unfold bit_of. rewrite upd_ne by (by destruct f). done.
  - rewrite upd_ne by (by destruct f). done.
Qed.

Lemma same_data m s v j : j <> s -> same_slot m (upd m (Data (off s)) v) j.
Proof.
  intros Hne. split; [|split].
  - intros f'. rewrite upd_ne by (by destruct f'). done.
  - unfold bit_of. rewrite upd_ne by done. done.
  - rewrite upd_ne; [done|]. intros [= Heq]. apply Hne. by apply off_inj.
Qed.

Lemma same_bitmap m s v j : j <> s ->
  (forall i, 0 <= i -> i <> s mod 64 -> Z.testbit v i = Z.testbit (m (Bitmap (s / 64))) i) ->
  same_slot m (upd m (Bitmap (s / 64)) v) j.
Proof.
  intros Hne Hv. split; [|split].
  - intros f'. rewrite upd_ne by (by destruct f'). done.
  - unfold bit_of. unfold upd. case_decide as E; [|done]. injection E as E. rewrite E. apply Hv.
    + apply Z.mod_pos_bound. lia.
    + intros Em. apply Hne. by apply bit_slot.
  - by rewrite upd_ne.
Qed.

Lemma consts_upd m l v : consts m ->
  match l with Token _ | ByteLen _ | Alignment _ | FingerprintLow _ | FingerprintHigh _ | Data _ | OperationLock => True
          | State => v = READY \/ v = POISONED | _ => False end ->
  consts (upd m l v).
Proof.
  intros [] Hl. destruct l; try done; constructor; intros; rewrite ?upd_eq; rewrite ?upd_ne by done; auto.
Qed.

Lemma consts_bitmap m s v : consts m ->
  (forall i, 0 <= i -> 64 <= i \/ SLOTS <= s / 64 * 64 + i -> Z.testbit v i = false) ->
  consts (upd m (Bitmap (s / 64)) v).
Proof.
  intros [] Hv. constructor; try (rewrite upd_ne by done; auto).
  intros w i Hw Hi Ho. unfold upd. case_decide as E; [injection E as ->; auto|auto].
Qed.

(** ** The lock *)

Lemma wp_const l c r Φ : (forall m, consts m -> m l = c) -> Φ c r -> wp inv (load l) r Φ.
Proof.
  intros Hl HΦ. apply wp_load. intros m fr HI. exists r. split; [done|].
  destruct HI as (lk & Hc & _). by rewrite Hl.
Qed.

Lemma wp_state r Φ : (forall st, st = READY \/ st = POISONED -> Φ st r) -> wp inv (load State) r Φ.
Proof.
  intros HΦ. apply wp_load. intros m fr HI. exists r. split; [done|].
  destruct HI as (lk & Hc & _). apply HΦ, Hc.
Qed.

(** Changing the state word or the lock word leaves the slots alone. *)
Lemma slots_cell m l v r lk : l = State \/ l = OperationLock ->
  (forall s, 0 <= s < SLOTS -> slot_inv lk r m s) -> forall s, 0 <= s < SLOTS -> slot_inv lk r (upd m l v) s.
Proof.
  intros Hl Hs s Hr. destruct (Hs s Hr) as (x & [Hf Hb] & Hst & Hx).
  assert (Hd : upd m l v (Data (off s)) = m (Data (off s))) by (destruct Hl as [->| ->]; by rewrite upd_ne).
  exists x. split.
  { split; [intros f; destruct Hl as [->| ->]; rewrite upd_ne by (by destruct f); apply Hf|].
    unfold bit_of in *. destruct Hl as [->| ->]; by rewrite upd_ne. }
  split; [done|]. unfold stable in *. rewrite Hd. exact Hx.
Qed.

Lemma wp_poison r : wp inv poison r (fun _ r' => r' = r).
Proof.
  apply wp_store. intros m fr (lk & Hc & Hl & Hs). exists r. split; [|done]. exists lk.
  split; [apply consts_upd; [done|by right]|]. split; [|apply slots_cell; [by left|done]].
  destruct Hl as [L1 L2 L3 L4]. by constructor.
Qed.

(** Exchanging a stage that concerns no slot. *)
Lemma slots_unlocked lk lk' r r' m : lock_slot lk = None -> lock_slot lk' = None ->
  (forall s, same_toks r r' s) ->
  (forall s, 0 <= s < SLOTS -> slot_inv lk r m s) -> forall s, 0 <= s < SLOTS -> slot_inv lk' r' m s.
Proof.
  intros Hn Hn' Ht Hs s Hr. eapply slot_frame, Hs; [done| |congruence|congruence|done]. apply Ht.
Qed.

Lemma same_toks_lk r fr st s : same_toks (r ⊎ {[+ Lk st +]} ⊎ fr) (r ⊎ fr) s.
Proof. split; intros; autorewrite with mult; rewrite decide_False by congruence; lia. Qed.

Lemma same_toks_lk' r fr st s : same_toks (r ⊎ fr) (r ⊎ {[+ Lk st +]} ⊎ fr) s.
Proof. split; intros; autorewrite with mult; rewrite decide_False by congruence; lia. Qed.

Lemma wp_unlock r : wp inv (store OperationLock UNLOCKED) (r ⊎ {[+ Lk LIdle +]}) (fun _ r' => r' = r).
Proof.
  apply wp_store. intros m fr (lk & Hc & Hl & Hs). exists r. split; [|done]. exists None.
  pose proof (lk_here _ _ _ _ _ Hl) as [-> H0]. split; [by apply consts_upd|]. split.
  - destruct Hl as [L1 L2 L3 L4]. constructor; [apply upd_eq| |done|].
    + intros st. rewrite mult_union. destruct (H0 st) as [-> ->]. by rewrite decide_False.
    + intros s Hns x v. specialize (L4 s Hns x v). autorewrite with mult in *. rewrite decide_False in L4 by congruence. lia.
  - apply slots_cell; [by right|]. apply (slots_unlocked (Some LIdle) None (r ⊎ {[+ Lk LIdle +]} ⊎ fr));
      [done|done|intros; apply same_toks_lk|done].
Qed.

Lemma wp_lock r Φ : Φ (Ok UNLOCKED) (r ⊎ {[+ Lk LIdle +]}) -> (forall v, Φ (Err v) r) ->
  wp inv (compare_exchange_weak OperationLock UNLOCKED LOCKED) r Φ.
Proof.
  intros Hok Herr. apply wp_cas_weak; [|intros m fr HI; exists r; by split].
  intros m fr (lk & Hc & Hl & Hs) Hm. exists (r ⊎ {[+ Lk LIdle +]}). split; [|done]. exists (Some LIdle).
  assert (lk = None) as -> by (destruct Hl as [L1 _ _ _]; rewrite Hm in L1; by destruct lk).
  split; [by apply consts_upd|]. split.
  - destruct Hl as [L1 L2 L3 L4]. constructor; [apply upd_eq| |done|].
    + intros st. specialize (L2 st). autorewrite with mult in *. rewrite decide_False in L2 by done.
      pose proof (mult_nonneg (Lk st) r). pose proof (mult_nonneg (Lk st) fr).
      destruct (decide (LIdle = st)) as [<-|Hne]; [rewrite !decide_True by done; lia|].
      rewrite !decide_False by congruence. lia.
    + intros s Hns x v. specialize (L4 s Hns x v). autorewrite with mult in *. rewrite decide_False by congruence. lia.
  - apply slots_cell; [by right|]. apply (slots_unlocked None (Some LIdle) (r ⊎ fr));
      [done|done|intros; apply same_toks_lk'|done].
Qed.

Lemma try_operation_spec r : wp inv try_operation r (fun x r' =>
  match x with Ok _ => r' = r ⊎ {[+ Lk LIdle +]} | Err e => r' = r /\ (e = Poisoned \/ e = Busy) end).
Proof.
  apply (wp_for inv (fun _ r' => r' = r)); [|intros r' ->; apply wp_ret; by split; [|right]|done].
  intros _ r0 _ ->. apply wp_bind, wp_state. intros st [->| ->]; cbn [negb Z.eqb READY POISONED Pos.eqb];
    [|apply wp_ret; split; [done|by left]].
  apply wp_bind, wp_lock; [|intros v; by apply wp_ret].
  apply wp_bind, wp_state. intros st [->| ->]; cbn [negb Z.eqb READY POISONED Pos.eqb]; [by apply wp_ret|].
  apply wp_bind. eapply wp_mono, wp_unlock. intros [] r' ->. apply wp_ret. split; [done|by left].
Qed.

Lemma reloc_guard_drop_spec b r : wp inv (guard_drop b) (r ⊎ {[+ Lk LIdle +]}) (fun _ r' => r' = r).
Proof.
  apply wp_bind. destruct b; [|apply wp_ret, wp_unlock].
  eapply wp_mono, wp_poison. intros [] r' ->. apply wp_unlock.
Qed.

(** ** One slot under the lock *)

Lemma mem_same m j : same_slot m m j.
Proof. done. Qed.

Lemma slot_at lk m r fr st s : rinv lk m (r ⊎ {[+ Lk st +]} ⊎ fr) -> 0 <= s < SLOTS ->
  slot_inv (Some st) (r ⊎ {[+ Lk st +]} ⊎ fr) m s.
Proof. intros (Hc & Hl & Hs) Hr. pose proof (lk_here _ _ _ _ _ Hl) as [-> _]. by apply Hs. Qed.

(** A step that exchanges no token but the stage. *)
Lemma rinv_stage lk m m' r fr st st' s :
  rinv lk m (r ⊎ {[+ Lk st +]} ⊎ fr) -> 0 <= s < SLOTS ->
  lock_slot (Some st) = None \/ lock_slot (Some st) = Some s ->
  lock_slot (Some st') = None \/ lock_slot (Some st') = Some s ->
  consts m' -> m' OperationLock = m OperationLock ->
  (forall j, j <> s -> same_slot m m' j) ->
  slot_inv (Some st') (r ⊎ {[+ Lk st' +]} ⊎ fr) m' s ->
  inv m' (r ⊎ {[+ Lk st' +]} ⊎ fr).
Proof.
  intros Hi Hr Hst Hst' Hc Hm Hsame Hs. exists (Some st').
  rewrite <- (gmultiset_disj_union_right_id r). rewrite <- (gmultiset_disj_union_right_id r) in Hi, Hs.
  apply (rinv_step lk m m' r ∅ ∅ fr st st' s); auto using about_empty.
Qed.

(** Multiplicities of slot tokens do not see the lock. *)
Lemma mult_alloc_lk r fr st s x v : mult (Alloc s x v) (r ⊎ {[+ Lk st +]} ⊎ fr) = mult (Alloc s x v) (r ⊎ fr).
Proof. autorewrite with mult. rewrite decide_False by congruence. lia. Qed.
Lemma mult_stale_lk r fr st s g : mult (Stale s g) (r ⊎ {[+ Lk st +]} ⊎ fr) = mult (Stale s g) (r ⊎ fr).
Proof. autorewrite with mult. rewrite decide_False by congruence. lia. Qed.

Lemma stable_lk r fr st st' m s x : stable (r ⊎ {[+ Lk st +]} ⊎ fr) m s x -> stable (r ⊎ {[+ Lk st' +]} ⊎ fr) m s x.
Proof.
  apply stable_frame; [done|]. split; intros; by rewrite ?mult_alloc_lk, ?mult_stale_lk.
Qed.
Lemma no_alloc_lk r fr st st' s : no_alloc (r ⊎ {[+ Lk st +]} ⊎ fr) s -> no_alloc (r ⊎ {[+ Lk st' +]} ⊎ fr) s.
Proof. intros Hn x v. rewrite mult_alloc_lk, <- (mult_alloc_lk r fr st). apply Hn. Qed.

(** The bitmap scan: a clear bit is a free slot, which the scanner takes. *)
Lemma wp_scan s r : 0 <= s < SLOTS ->
  wp inv (load (Bitmap (word_of s))) (r ⊎ {[+ Lk LIdle +]}) (fun w r' =>
    if Z.testbit w (s mod 64) then r' = r ⊎ {[+ Lk LIdle +]}
    else exists g d, 1 <= g < 2 ^ 63 /\ r' = r ⊎ {[+ Lk (LWork s (free_rec g) d) +]}).
Proof.
  intros Hr. apply wp_load. intros m fr (lk & Hi). pose proof (slot_at _ _ _ _ _ s Hi Hr) as (x & Hv & Hst & Hx).
  change (m (Bitmap (word_of s))) with (m (Bitmap (s / 64))). fold (bit_of m s). rewrite (proj2 Hv).
  destruct Hx as [[(g & Hg & ->) Hn]|[(g & Hg & _ & Hb & _) _]]; cbn [r_bit free_rec].
  - exists (r ⊎ {[+ Lk (LWork s (free_rec g) (m (Data (off s)))) +]}). split; [|by exists g, (m (Data (off s)))].
    eapply rinv_stage; [exact Hi|done|by left|by right|apply Hi|done|intros; apply mem_same|].
    exists (free_rec g). split; [done|]. split; [intros g' Hg'; apply Hst; by rewrite mult_stale_lk in *|].
    cbn. rewrite decide_True by done. split; [done|]. split; [done|]. by eapply no_alloc_lk.
  - rewrite Hb. exists (r ⊎ {[+ Lk LIdle +]}). split; [by exists lk|done].
Qed.

(** Metadata stores of the worker; the generation never goes back. *)
Lemma wp_work_store f s x d v r : 0 <= s < SLOTS -> gen (r_tok x) <= gen (r_tok (fset x f v)) ->
  wp inv (store (fcell f s) v) (r ⊎ {[+ Lk (LWork s x d) +]})
    (fun _ r' => r' = r ⊎ {[+ Lk (LWork s (fset x f v) d) +]}).
Proof.
  intros Hr Hg. apply wp_store. intros m fr (lk & Hi). eexists. split; [|done].
  pose proof (slot_at _ _ _ _ _ s Hi Hr) as (x' & [Hf Hb] & Hst & Hx). cbn in Hx. rewrite decide_True in Hx by done.
  destruct Hx as (-> & Hd & Hn).
  eapply rinv_stage; [exact Hi|done|by right|by right| | |intros; by apply same_field|].
  - apply consts_upd; [apply Hi|by destruct f].
  - by rewrite upd_ne by (by destruct f).
  - exists (fset x f v). split; [split|split].
    + intros f'. rewrite fset_get. case_decide as E; [subst; apply upd_eq|].
      rewrite upd_ne; [apply Hf|]. intros [-> _]%fcell_inj. done.
    + rewrite fset_bit. unfold bit_of in *. by rewrite upd_ne by (by destruct f).
    + intros g Hg'. rewrite mult_stale_lk, <- (mult_stale_lk r fr (LWork s x d)) in Hg'. specialize (Hst g Hg'). lia.
    + cbn. rewrite decide_True by done. split; [done|]. split; [by rewrite upd_ne by (by destruct f)|].
      by eapply no_alloc_lk.
Qed.

Lemma wp_work_data s x d v r : 0 <= s < SLOTS ->
  wp inv (store (Data (off s)) v) (r ⊎ {[+ Lk (LWork s x d) +]}) (fun _ r' => r' = r ⊎ {[+ Lk (LWork s x v) +]}).
Proof.
  intros Hr. apply wp_store. intros m fr (lk & Hi). eexists. split; [|done].
  pose proof (slot_at _ _ _ _ _ s Hi Hr) as (x' & [Hf Hb] & Hst & Hx). cbn in Hx. rewrite decide_True in Hx by done.
  destruct Hx as (-> & Hd & Hn).
  eapply rinv_stage; [exact Hi|done|by right|by right| | |intros; by apply same_data|].
  - by apply consts_upd; [apply Hi|].
  - by rewrite upd_ne.
  - exists x. split; [split|split].
    + intros f. rewrite upd_ne by (by destruct f). apply Hf.
    + unfold bit_of in *. by rewrite upd_ne.
    + intros g Hg'. rewrite mult_stale_lk, <- (mult_stale_lk r fr (LWork s x d)) in Hg'. by apply Hst.
    + cbn. rewrite decide_True by done. split; [done|]. split; [apply upd_eq|]. by eapply no_alloc_lk.
Qed.

(** Reads of the slot under the lock. *)
Lemma wp_stage_read f s x st r : 0 <= s < SLOTS -> st = LLook s x \/ (exists d, st = LWork s x d) ->
  wp inv (load (fcell f s)) (r ⊎ {[+ Lk st +]}) (fun v r' => v = fget x f /\ r' = r ⊎ {[+ Lk st +]}).
Proof.
  intros Hr Hst. apply wp_load. intros m fr (lk & Hi). eexists. split; [by exists lk|]. split; [|done].
  pose proof (slot_at _ _ _ _ _ s Hi Hr) as (x' & [Hf Hb] & _ & Hx). rewrite Hf.
  destruct Hst as [->|[d ->]]; cbn in Hx.
  - destruct Hx as [-> _]; done.
  - rewrite decide_True in Hx by done. by destruct Hx as [-> _].
Qed.

(** ** Publishing an allocation *)

Definition set_bit (x : srec) (b : bool) : srec := SRec (r_tok x) (r_len x) (r_al x) (r_lo x) (r_hi x) b.

Hypothesis slots_max : SLOTS <= 1024.

Lemma word_range s : 0 <= s < SLOTS -> 0 <= s / 64 < 16.
Proof. intros. split; [apply Z.div_pos; lia|apply Z.div_lt_upper_bound; lia]. Qed.

Lemma wp_publish s x d r : 0 <= s < SLOTS -> live_ok (set_bit x true) -> r_bit x = false ->
  wp inv (fetch_or (Bitmap (word_of s)) (mask_of s)) (r ⊎ {[+ Lk (LWork s x d) +]}) (fun w r' =>
    Z.testbit w (s mod 64) = false /\ r' = r ⊎ {[+ Alloc s (set_bit x true) d +]} ⊎ {[+ Lk LIdle +]}).
Proof.
  intros Hr Hlive Hbit. apply wp_fetch_or. intros m fr (lk & Hi).
  exists (r ⊎ {[+ Alloc s (set_bit x true) d +]} ⊎ {[+ Lk LIdle +]}).
  pose proof (slot_at _ _ _ _ _ s Hi Hr) as (x' & [Hf Hb] & Hst & Hx). cbn in Hx. rewrite decide_True in Hx by done.
  destruct Hx as (-> & Hd & Hn). change (word_of s) with (s / 64). unfold bit_of in Hb. pose proof (Z.mod_pos_bound s 64).
  split; [|by rewrite Hb, Hbit]. exists (Some LIdle).
  pose proof (proj1 Hi) as Hc.
  rewrite <- (gmultiset_disj_union_right_id r) in Hi.
  eapply rinv_step; [exact Hi|done|by right|by left|apply about_empty|apply about_alloc| | | |].
  - apply consts_bitmap; [done|]. intros i Hi0 Ho. rewrite mask_set by done.
    rewrite (c_stray _ Hc) by (done || by apply word_range). destruct (Z.eqb_spec i (s mod 64)); [dlia|done].
  - by rewrite upd_ne.
  - intros j Hj. apply same_bitmap; [done|]. intros i Hi0 Hne. rewrite mask_set by done.
    destruct (Z.eqb_spec i (s mod 64)); [done|apply orb_false_r].
  - exists (set_bit x true). split; [split|split].
    + intros f. rewrite upd_ne by (by destruct f). rewrite Hf. by destruct f.
    + unfold bit_of. rewrite upd_eq, mask_set, Z.eqb_refl by lia. apply orb_true_r.
    + intros g Hg. cbn. apply Hst. autorewrite with mult in *. rewrite !decide_False in Hg by congruence.
      rewrite decide_False by congruence. lia.
    + right. split; [done|]. rewrite upd_ne by done. intros x' v'. specialize (Hn x' v'). autorewrite with mult in *.
      rewrite !(decide_False (P := _ = Lk _)) in * by congruence. rewrite Hd.
      destruct (decide (x' = set_bit x true /\ v' = d)) as [[-> ->]|Hne].
      * rewrite decide_True by done. lia.
      * rewrite decide_False by (intros [= -> ->]; tauto). lia.
Qed.

(** ** The owner of an allocation *)

Lemma owner_slot m r s x v : inv m r -> 0 < mult (Alloc s x v) r ->
  0 <= s < SLOTS /\ slot_vals m s x /\ live_ok x /\ m (Data (off s)) = v /\
  (forall x' v', mult (Alloc s x' v') r = if decide (x' = x /\ v' = v) then 1 else 0).
Proof.
  intros (lk & Hc & [L1 L2 L3 L4] & Hs) Hm.
  destruct (decide (0 <= s < SLOTS)) as [Hr|Hr]; [|rewrite (L4 s Hr) in Hm; lia].
  split; [done|]. destruct (Hs s Hr) as (y & Hv & _ & Hx).
  assert (Hstab : stable r m s y).
  { destruct lk as [[|s' x'|s' x' v']|]; try done; [by destruct Hx|].
    destruct (decide (s' = s)); [|done]. destruct Hx as (_ & _ & Hn). rewrite (Hn x v) in Hm. lia. }
  destruct Hstab as [[_ Hn]|[Hl Hn]]; [rewrite (Hn x v) in Hm; lia|].
  pose proof (Hn x v) as Hxv. case_decide as E; [|lia]. destruct E as [-> Hvd].
  split; [done|]. split; [done|]. split; [done|]. intros x' v'. rewrite Hn, <- Hvd. done.
Qed.

Lemma mult_frame_pos (t : rtok) r fr : 0 < mult t r -> 0 < mult t (r ⊎ fr).
Proof. rewrite mult_union. pose proof (mult_nonneg t fr). lia. Qed.

Lemma wp_owner_read f s x v r : 0 < mult (Alloc s x v) r ->
  wp inv (load (fcell f s)) r (fun w r' => w = fget x f /\ r' = r).
Proof.
  intros Hm. apply wp_load. intros m fr HI. exists r. split; [done|]. split; [|done].
  destruct (owner_slot _ _ _ _ _ HI (mult_frame_pos _ _ fr Hm)) as (_ & [Hf _] & _). apply Hf.
Qed.

Lemma wp_owner_bit s x v r : 0 < mult (Alloc s x v) r ->
  wp inv (load (Bitmap (word_of s))) r (fun w r' => Z.testbit w (s mod 64) = true /\ r' = r).
Proof.
  intros Hm. apply wp_load. intros m fr HI. exists r. split; [done|]. split; [|done].
  destruct (owner_slot _ _ _ _ _ HI (mult_frame_pos _ _ fr Hm)) as (_ & [_ Hb] & (g & _ & _ & Hbit & _) & _).
  rewrite <- Hbit. exact Hb.
Qed.

Lemma wp_owner_data s x v r : 0 < mult (Alloc s x v) r ->
  wp inv (load (Data (off s))) r (fun w r' => w = v /\ r' = r).
Proof.
  intros Hm. apply wp_load. intros m fr HI. exists r. split; [done|]. split; [|done].
  by destruct (owner_slot _ _ _ _ _ HI (mult_frame_pos _ _ fr Hm)) as (_ & _ & _ & Hd & _).
Qed.

(** ** Releasing *)

Lemma wp_release_token s x v g r : r_tok x = 2 ^ 63 + g -> 1 <= g -> g + 1 < 2 ^ 63 ->
  wp inv (store (Token s) (g + 1)) (r ⊎ {[+ Alloc s x v +]} ⊎ {[+ Lk LIdle +]})
    (fun _ r' => 0 <= s < SLOTS /\ r' = r ⊎ {[+ Stale s g +]} ⊎ {[+ Lk (LWork s (fset x FTok (g + 1)) v) +]}).
Proof.
  intros Htok Hg1 Hg2. apply wp_store. intros m fr HI.
  exists (r ⊎ {[+ Stale s g +]} ⊎ {[+ Lk (LWork s (fset x FTok (g + 1)) v) +]}).
  assert (Hin : 0 < mult (Alloc s x v) (r ⊎ {[+ Alloc s x v +]} ⊎ {[+ Lk LIdle +]} ⊎ fr)).
  { autorewrite with mult. rewrite decide_True by done. pose proof (mult_nonneg (Alloc s x v) r).
    pose proof (mult_nonneg (Alloc s x v) fr). case_decide; lia. }
  destruct (owner_slot _ _ _ _ _ HI Hin) as (Hr & [Hf Hb] & Hl & Hd & Hone). destruct HI as (lk & Hi).
  split; [|done]. eexists. eapply rinv_step;
    [exact Hi|done|by left|by right|apply about_alloc|apply about_stale| | |intros; by apply (same_field m FTok)|].
  - by apply consts_upd; [apply Hi|].
  - by rewrite upd_ne.
  - exists (fset x FTok (g + 1)). split; [split|split].
    + intros f. rewrite fset_get. case_decide as E; [subst; apply upd_eq|].
      rewrite upd_ne; [apply Hf|]. intros [-> _]%(fcell_inj f s FTok s). done.
    + unfold bit_of in *. by rewrite upd_ne.
    + intros g' Hg'. cbn [r_tok fset]. rewrite free_gen by lia. autorewrite with mult in Hg'.
      rewrite (decide_False (P := _ = Lk _)) in Hg' by congruence. case_decide as E; [injection E as ->; lia|].
      destruct (slot_at _ _ _ _ _ s Hi Hr) as (y & [Hf' _] & Hst & _).
      assert (r_tok y = 2 ^ 63 + g) as Hy by (rewrite <- Htok; specialize (Hf FTok); specialize (Hf' FTok); cbn in *; congruence).
      assert (g' < gen (r_tok y)); [|rewrite Hy, live_gen in * by lia; lia].
      apply Hst. autorewrite with mult. rewrite !decide_False by congruence. lia.
    + cbn. rewrite decide_True by done. split; [done|]. split; [by rewrite upd_ne|].
      intros x' v'. specialize (Hone x' v'). autorewrite with mult in *.
      rewrite !(decide_False (P := _ = Lk _)), !(decide_False (P := _ = Stale _ _)) by congruence.
      rewrite !(decide_False (P := _ = Lk _)) in Hone by congruence.
      destruct (decide (x' = x /\ v' = v)) as [[-> ->]|Hne].
      * rewrite decide_True in Hone by done. lia.
      * rewrite decide_False in Hone by (intros [= -> ->]; tauto). lia.
Qed.

Lemma wp_release_bit s g v r : 0 <= s < SLOTS -> 1 <= g < 2 ^ 63 ->
  wp inv (fetch_and (Bitmap (word_of s)) (not_bits 64 (mask_of s))) (r ⊎ {[+ Lk (LWork s (SRec g 0 1 0 0 true) v) +]})
    (fun w r' => Z.testbit w (s mod 64) = true /\ r' = r ⊎ {[+ Lk LIdle +]}).
Proof.
  intros Hr Hg. apply wp_fetch_and. intros m fr (lk & Hi). exists (r ⊎ {[+ Lk LIdle +]}).
  pose proof (slot_at _ _ _ _ _ s Hi Hr) as (x' & [Hf Hb] & Hst & Hx). cbn in Hx. rewrite decide_True in Hx by done.
  destruct Hx as (-> & Hd & Hn). change (word_of s) with (s / 64). unfold bit_of in Hb. pose proof (Z.mod_pos_bound s 64).
  split; [|by rewrite Hb]. pose proof (proj1 Hi) as Hc.
  eapply rinv_stage; [exact Hi|done|by right|by left| | | |].
  - apply consts_bitmap; [done|]. intros i Hi0 Ho. rewrite mask_clear by done.
    rewrite (c_stray _ Hc) by (done || by apply word_range). done.
  - by rewrite upd_ne.
  - intros j Hj. apply same_bitmap; [done|]. intros i Hi0 Hne. rewrite mask_clear by done.
    destruct (Z.eqb_spec i (s mod 64)); [done|]. rewrite andb_true_r. destruct (Z.ltb_spec i 64); [apply andb_true_r|].
    rewrite (c_stray _ Hc) by (auto || by apply word_range). done.
  - exists (free_rec g). split; [split|split].
    + intros f. rewrite upd_ne by (by destruct f). rewrite Hf. by destruct f.
    + unfold bit_of. rewrite upd_eq, mask_clear, Z.eqb_refl by lia. apply andb_false_r.
    + intros g' Hg'. apply Hst. by rewrite mult_stale_lk in *.
    + left. split; [by exists g|]. by eapply no_alloc_lk.
Qed.

(** ** Geometry *)

Hypothesis slots_pos : 1 <= SLOTS.
Hypothesis ss_align : ss mod 64 = 0.
Hypothesis ao_nonneg : 0 <= ao.
Hypothesis arena_fits : ao + ss * SLOTS <= ml.
Hypothesis ml_max : ml <= isize_max.

(** A view of the region as [initialize] and [attach] return it. *)
Definition region_ok (self : RelocRegion) : Prop :=
  0 < base self /\ len self = ml /\ (base self + ao) mod 64 = 0.

Lemma isize_64 : isize_max < 2 ^ 63 /\ isize_max < usize_max /\ isize_max < 2 ^ usize_bits.
Proof. unfold isize_max, usize_max. destruct usize_bits_ok as [->| ->]; lia. Qed.

Lemma off_bounds s : 0 <= s < SLOTS -> 0 <= ss * s /\ 0 <= off s /\ off s + ss <= ml.
Proof. intros Hs. unfold off. assert (ss * s + ss <= ss * SLOTS) by nia. assert (0 <= ss * s) by nia. lia. Qed.

Lemma pow2_divides x al : is_power_of_two al = true -> al <= 64 -> x mod 64 = 0 -> x mod al = 0.
Proof.
  intros (k & Hk & ->)%is_power_of_two_spec Hle Hx.
  assert (k < 7) by (apply (Z.pow_lt_mono_r_iff 2); lia).
  assert (k = 0 \/ k = 1 \/ k = 2 \/ k = 3 \/ k = 4 \/ k = 5 \/ k = 6) as Hc by lia.
  destruct Hc as [->|[->|[->|[->|[->|[->| ->]]]]]];
    match goal with |- _ mod ?b = _ => let b' := eval compute in b in change b with b' end; dlia.
Qed.

Lemma pointer_spec self s n al : region_ok self -> 0 <= s < SLOTS -> 0 <= n <= ss ->
  is_power_of_two al = true -> al <= 64 -> pointer self (off s) n al = Ok (base self + off s).
Proof.
  intros (Hb & Hl & Hal) Hs Hn Hp Hle. pose proof (off_bounds s Hs). pose proof isize_64.
  unfold pointer, usize_try_from, checked_add.
  destruct (Z.leb_spec (off s) usize_max); [|lia]. cbn [ok_or result_bind].
  destruct (Z.ltb_spec (off s + n) (2 ^ usize_bits)); [|lia]. cbn [ok_or result_bind].
  destruct (Z.ltb_spec (len self) (off s + n)); [lia|].
  rewrite (pow2_divides (base self + off s) al); [done..|]. unfold off.
  replace (base self + (ao + ss * s)) with (base self + ao + ss * s) by lia.
  rewrite Z.add_mod, Hal, Z.mul_mod, ss_align by lia. done.
Qed.

Lemma wp_expected_offset s r Φ : 0 <= s < SLOTS -> Φ (Ok (off s)) r -> wp inv (expected_offset s) r Φ.
Proof.
  intros Hs HΦ. pose proof (off_bounds s Hs). pose proof isize_64. unfold off in *.
  apply wp_bind, (wp_const _ ss); [by intros m []|]. unfold checked_mul.
  destruct (Z.ltb_spec (ss * s) (2 ^ 64)); [|lia].
  apply wp_bind, (wp_const _ ao); [by intros m []|]. apply wp_ret. unfold checked_add.
  destruct (Z.ltb_spec (ao + ss * s) (2 ^ 64)); [done|lia].
Qed.

Lemma validate_request_spec n al r : wp inv (validate_request n al) r (fun x r' => r' = r /\
  match x with Ok _ => n <= ss /\ is_power_of_two al = true /\ al <= 64
             | Err e => e = UnsupportedAlignment al 64 \/ e = LengthOverflow \/ e = AllocationTooLarge n ss end).
Proof.
  unfold validate_request. destruct (is_power_of_two al) eqn:Hp; cbn [negb orb]; [|apply wp_ret; auto].
  destruct (Z.ltb_spec RELOC_SLOT_ALIGNMENT al) as [|Hal]; [apply wp_ret; auto|].
  destruct (Z.ltb_spec isize_max n); [apply wp_ret; auto|].
  apply wp_bind, (wp_const _ ss); [by intros m []|]. apply wp_ret. split; [done|].
  pose proof isize_64. pose proof (off_bounds 0). unfold usize_try_from. destruct (Z.leb_spec ss usize_max); [|lia].
  cbn [ok_or result_bind]. destruct (Z.ltb_spec ss n); [auto|done].
Qed.

Lemma at_slot_in {A} s (p : prog rcell A) : 0 <= s < SLOTS -> at_slot SLOTS s p = p.
Proof. intros Hs. unfold at_slot. destruct (Z.leb_spec 0 s), (Z.ltb_spec s SLOTS); done || lia. Qed.

Lemma at_word_in {A} s (p : prog rcell A) : 0 <= s < SLOTS -> at_word (word_of s) p = p.
Proof.
  intros Hs. pose proof (word_range s Hs). unfold at_word, word_of, MAX_BITMAP_WORDS, BITS_PER_WORD.
  destruct (Z.leb_spec 0 (s / 64)), (Z.ltb_spec (s / 64) 16); done || lia.
Qed.

Lemma find_free_slot_spec r : wp inv (find_free_slot SLOTS) (r ⊎ {[+ Lk LIdle +]}) (fun x r' =>
  match x with
  | Ok s => 0 <= s < SLOTS /\ exists g d, 1 <= g < 2 ^ 63 /\ r' = r ⊎ {[+ Lk (LWork s (free_rec g) d) +]}
  | Err e => e = Exhausted /\ r' = r ⊎ {[+ Lk LIdle +]}
  end).
Proof.
  apply (wp_for inv (fun _ r' => r' = r ⊎ {[+ Lk LIdle +]})); [|intros r' ->; by apply wp_ret|done].
  intros s r0 Hs ->. assert (0 <= s < SLOTS) by lia. rewrite at_word_in by done.
  apply wp_bind. eapply wp_mono, wp_scan; [|done]. cbn beta. intros w r' Hw. apply wp_ret. rewrite mask_test.
  destruct (Z.testbit w (s mod 64)); [exact Hw|]. split; [done|exact Hw].
Qed.

(** ** Allocating *)

(** The metadata a successful allocation publishes. *)
Definition alloc_rec (g n al fp : Z) : srec := SRec (2 ^ 63 + g) n al (low64 fp) (high64 fp) true.
Definition alloc_desc (s g n al fp : Z) : AllocationDescriptor :=
  from_raw rid s g (off s) n al (low64 fp) (high64 fp).

Definition alloc_error (e : RelocError) : Prop :=
  match e with
  | UnsupportedAlignment _ _ | LengthOverflow | AllocationTooLarge _ _ | Poisoned | Busy | Exhausted => True
  | _ => False
  end.

Lemma allocate_spec self desc n al init v r : region_ok self -> 0 <= n ->
  (forall s x d r, 0 <= s < SLOTS -> wp inv (init (off s)) (r ⊎ {[+ Lk (LWork s x d) +]})
     (fun u r' => u = Returned tt /\ r' = r ⊎ {[+ Lk (LWork s x v) +]})) ->
  wp inv (allocate_with SLOTS self desc n al init) r (fun x r' =>
    match x with
    | Returned (Ok a) => exists s g, 0 <= s < SLOTS /\ 1 <= g < 2 ^ 63 /\ a = alloc_desc s g n al (fingerprint desc) /\
        n <= ss /\ is_power_of_two al = true /\ al <= 64 /\
        r' = r ⊎ {[+ Alloc s (alloc_rec g n al (fingerprint desc)) v +]}
    | Returned (Err e) => r' = r /\ alloc_error e
    | Unwound => False
    end).
Proof.
  intros Hreg Hn Hinit. unfold allocate_with. apply wp_bind. eapply wp_mono, validate_request_spec.
  intros [[]|e] r' [-> Hv]; [|apply wp_ret; split; [done|]; by destruct Hv as [->|[->| ->]]].
  destruct Hv as (Hns & Hp & Hal). apply wp_bind. eapply wp_mono, try_operation_spec.
  intros [[]|e] r'; [intros ->|intros [-> He]; apply wp_ret; split; [done|]; by destruct He as [->| ->]].
  apply wp_bind. eapply wp_mono, find_free_slot_spec. intros [s|e] r'.
  2: { intros [-> ->]. apply wp_bind. eapply wp_mono, reloc_guard_drop_spec. by intros [] r' ->. }
  intros (Hs & g & d & Hg & ->). rewrite at_slot_in by done.
  apply wp_bind. eapply wp_mono, (wp_stage_read FTok s (free_rec g)); [|done|right; by exists d].
  intros t r' [-> ->]. cbn [fget free_rec r_tok]. rewrite token_flag, token_gen, free_flag, free_gen by done.
  cbn [negb orb]. destruct (Z.eqb_spec g 0); [lia|].
  apply wp_bind, wp_expected_offset; [done|].
  apply wp_bind. eapply wp_mono, (wp_work_store FLen); [|done|done]. intros [] r' ->.
  apply wp_bind. eapply wp_mono, (wp_work_store FAl); [|done|done]. intros [] r' ->.
  apply wp_bind. eapply wp_mono, (wp_work_store FLo); [|done|done]. intros [] r' ->.
  apply wp_bind. eapply wp_mono, (wp_work_store FHi); [|done|done]. intros [] r' ->.
  rewrite pointer_spec by done. replace (base self + off s - base self) with (off s) by lia.
  apply wp_bind. eapply wp_mono, Hinit; [|done]. intros u r' [-> ->].
  rewrite live_token by done.
  apply wp_bind. eapply wp_mono, (wp_work_store FTok); [|done|].
  2: { cbn [fset r_tok free_rec]. rewrite live_gen, free_gen by done. done. }
  intros [] r' ->. rewrite at_word_in by done.
  apply wp_bind. eapply wp_mono, wp_publish; [|done| |done].
  2: { exists g. cbn. done. }
  intros w r' [Hw ->]. rewrite mask_test, Hw. cbn [negb].
  apply wp_bind, (wp_const _ rid); [by intros m []|].
  apply wp_bind. eapply wp_mono, reloc_guard_drop_spec. intros [] r' ->. apply wp_ret. exists s, g. done.
Qed.

(** ** Validating a descriptor *)

Lemma wp_any l r Φ : (forall v, Φ v r) -> wp inv (load l) r Φ.
Proof. intros HΦ. apply wp_load. intros m fr HI. exists r. by split. Qed.

Lemma split_fingerprint fp : 0 <= fp < 2 ^ 128 -> Z.lor (Z.shiftl (high64 fp) 64) (low64 fp) = fp.
Proof.
  intros Hfp. unfold high64, low64, wrap. rewrite lor_shiftl_add by (try lia; apply Z.mod_pos_bound; lia).
  rewrite shiftr_div by lia. rewrite (Z.mod_small (fp / 2 ^ 64)).
  - rewrite (Z.div_mod fp (2 ^ 64)) at 3 by lia. lia.
  - split; [apply Z.div_pos; lia|apply Z.div_lt_upper_bound; lia].
Qed.

Lemma wp_busy (b : bool) r Φ : (forall x, (b = true -> x = false) -> Φ x r) ->
  wp inv (if b then Ret false else let! l := load OperationLock in Ret (negb (l =? UNLOCKED))) r Φ.
Proof. intros HΦ. destruct b; [apply wp_ret; by apply HΦ|]. apply wp_bind, wp_any. intros v. apply wp_ret. by apply HΦ. Qed.

Definition transient (lock_held : bool) (e : RelocError) : Prop := e = Poisoned \/ (lock_held = false /\ e = Busy).

(** The owner's descriptor is accepted, unless the allocator is poisoned or a
    transaction is in progress. *)
Lemma validate_owner_spec desc s g n al v b r : 0 <= s < SLOTS -> 1 <= g < 2 ^ 63 -> 0 <= fingerprint desc < 2 ^ 128 ->
  0 < mult (Alloc s (alloc_rec g n al (fingerprint desc)) v) r ->
  wp inv (validate_allocation SLOTS (alloc_desc s g n al (fingerprint desc)) desc n al b) r (fun x r' => r' = r /\
    match x with Ok _ => True | Err e => transient b e end).
Proof.
  intros Hs Hg Hfp Hm. unfold validate_allocation. set (x := alloc_rec _ _ _ _) in *.
  apply wp_bind, wp_state. intros st [->| ->]; cbn [negb Z.eqb READY POISONED Pos.eqb]; [|apply wp_ret; split; [done|by left]].
  apply wp_bind, wp_busy. intros [] Hb; [apply wp_ret; split; [done|]; right; split; [|done]; by destruct b; [discriminate Hb|]|].
  apply wp_bind, (wp_const _ rid); [by intros m []|]. cbn [alloc_desc from_raw region_id slot offset byte_len alignment generation].
  rewrite Z.eqb_refl. cbn [negb]. destruct (Z.leb_spec SLOTS s); [lia|].
  apply wp_bind, wp_expected_offset; [done|]. unfold descriptor_fingerprint. cbn [alloc_desc from_raw fingerprint_low fingerprint_high].
  rewrite split_fingerprint, !Z.eqb_refl by done. cbn [negb orb]. rewrite at_slot_in by done.
  apply wp_bind. eapply wp_mono, (wp_owner_read FTok s x v); [|done]. intros t r' [-> ->]. cbn [fget r_tok x alloc_rec].
  rewrite token_gen, token_flag, live_gen, live_flag, Z.eqb_refl by done. cbn [negb orb].
  rewrite at_word_in by done.
  apply wp_bind. eapply wp_mono, (wp_owner_bit s x v); [|done]. intros w r' [Hw ->]. rewrite mask_test, Hw. cbn [negb].
  apply wp_bind. eapply wp_mono, (wp_owner_read FHi s x v); [|done]. intros hi r' [-> ->].
  apply wp_bind. eapply wp_mono, (wp_owner_read FLo s x v); [|done]. intros lo r' [-> ->].
  apply wp_bind. eapply wp_mono, (wp_owner_read FLen s x v); [|done]. intros n' r' [-> ->].
  cbn [fget r_len r_hi r_lo x alloc_rec]. rewrite split_fingerprint, !Z.eqb_refl by done. cbn [negb orb].
  apply wp_bind, wp_bind. eapply wp_mono, (wp_owner_read FAl s x v); [|done]. intros al' r' [-> ->].
  cbn [fget r_al x alloc_rec]. rewrite !Z.eqb_refl. cbn [negb orb]. apply wp_ret.
  apply wp_bind, wp_busy. intros [] Hb2; [apply wp_ret; split; [done|]; right; split; [|done]; by destruct b; [discriminate Hb2|]|].
  apply wp_bind. eapply wp_mono, (wp_owner_read FTok s x v); [|done]. intros t r' [-> ->].
  cbn [fget r_tok x alloc_rec]. rewrite Z.eqb_refl. cbn [negb]. by apply wp_ret.
Qed.

Lemma wp_stale_read s g r : 0 <= s < SLOTS -> 0 < mult (Stale s g) r ->
  wp inv (load (Token s)) r (fun t r' => g < gen t /\ r' = r).
Proof.
  intros Hs Hm. apply wp_load. intros m fr HI. exists r. split; [done|]. split; [|done].
  destruct HI as (lk & _ & _ & Hi). destruct (Hi s Hs) as (x & [Hf _] & Hst & _).
  pose proof (Hf FTok) as Ht. cbn in Ht. rewrite Ht. apply Hst. by apply mult_frame_pos.
Qed.

(** A descriptor of a past generation is refused, whatever the other fields
    say, and never mistaken for corruption. *)
Lemma validate_stale_spec a desc n al b r : 0 <= slot a -> 0 < mult (Stale (slot a) (generation a)) r ->
  wp inv (validate_allocation SLOTS a desc n al b) r (fun x r' => r' = r /\
    match x with Ok _ => False | Err e => (forall s, e <> CorruptMetadata s) end).
Proof.
  intros H0 Hm. unfold validate_allocation.
  apply wp_bind, wp_state. intros st [->| ->]; cbn [negb Z.eqb READY POISONED Pos.eqb]; [|by apply wp_ret].
  apply wp_bind, wp_busy. intros [] _; [by apply wp_ret|].
  apply wp_bind, (wp_const _ rid); [by intros m []|]. destruct (negb (region_id a =? rid)); [by apply wp_ret|].
  destruct (Z.leb_spec SLOTS (slot a)); [by apply wp_ret|].
  apply wp_bind, wp_expected_offset; [lia|]. destruct (_ || _); [by apply wp_ret|]. rewrite at_slot_in by lia.
  apply wp_bind. eapply wp_mono, (wp_stale_read _ (generation a)); [|lia|done]. intros t r' [Ht ->].
  rewrite token_gen. destruct (Z.eqb_spec (gen t) (generation a)); [lia|]. cbn [negb orb]. by apply wp_ret.
Qed.

(** ** Destroying *)

Lemma release_locked_spec s g n al fp v r : 0 <= s < SLOTS -> 1 <= g < 2 ^ 63 ->
  wp inv (release_locked SLOTS (alloc_desc s g n al fp)) (r ⊎ {[+ Alloc s (alloc_rec g n al fp) v +]} ⊎ {[+ Lk LIdle +]})
    (fun x r' =>
      match x with
      | Ok _ => r' = r ⊎ {[+ Stale s g +]} ⊎ {[+ Lk LIdle +]}
      | Err e => e = GenerationExhausted s /\ g = 2 ^ 63 - 1 /\
                 r' = r ⊎ {[+ Alloc s (alloc_rec g n al fp) v +]} ⊎ {[+ Lk LIdle +]}
      end).
Proof.
  intros Hs Hg. unfold release_locked. cbn [alloc_desc from_raw slot generation]. rewrite at_slot_in by done.
  change GENERATION_MASK with (2 ^ 63 - 1). destruct (Z.eqb_spec g (2 ^ 63 - 1)) as [->|Hne].
  { apply wp_bind. eapply wp_mono, wp_poison. intros [] r' ->. by apply wp_ret. }
  unfold checked_add. destruct (Z.ltb_spec (g + 1) (2 ^ 64)); [|lia].
  apply wp_bind. eapply wp_mono, (wp_release_token s _ v g); [|done|lia|lia]. intros [] r' [_ ->].
  apply wp_bind. eapply wp_mono, (wp_work_store FLen); [|done|done]. intros [] r' ->.
  apply wp_bind. eapply wp_mono, (wp_work_store FAl); [|done|done]. intros [] r' ->.
  apply wp_bind. eapply wp_mono, (wp_work_store FLo); [|done|done]. intros [] r' ->.
  apply wp_bind. eapply wp_mono, (wp_work_store FHi); [|done|done]. intros [] r' ->.
  rewrite at_word_in by done. cbn [fset r_tok r_len r_al r_lo r_hi r_bit alloc_rec].
  apply wp_bind. eapply wp_mono, (wp_release_bit s (g + 1)); [|done|lia]. intros w r' [Hw ->].
  rewrite mask_test, Hw. cbn [negb]. by apply wp_ret.
Qed.

Definition destroy_error (g : Z) (e : RelocError) : Prop :=
  e = Poisoned \/ e = Busy \/ (exists s, e = GenerationExhausted s /\ g = 2 ^ 63 - 1).

Lemma reloc_release_spec desc s g n al v r : 0 <= s < SLOTS -> 1 <= g < 2 ^ 63 -> 0 <= fingerprint desc < 2 ^ 128 ->
  let a := alloc_desc s g n al (fingerprint desc) in let t := Alloc s (alloc_rec g n al (fingerprint desc)) v in
  wp inv (release SLOTS a desc n al) (r ⊎ {[+ t +]}) (fun x r' =>
    match x with Ok _ => r' = r ⊎ {[+ Stale s g +]} | Err e => r' = r ⊎ {[+ t +]} /\ destroy_error g e end).
Proof.
  intros Hs Hg Hfp a t. apply wp_try_bind. eapply wp_mono, try_operation_spec.
  intros [[]|e] r'; [intros ->|intros [-> He]; split; [done|]; unfold destroy_error; tauto].
  apply wp_bind. eapply wp_mono, (validate_owner_spec _ _ _ _ _ v); [|done..|].
  2: { autorewrite with mult. rewrite decide_True by done. pose proof (mult_nonneg t r). subst t. case_decide; lia. }
  intros [[]|e] r' [-> He].
  2: { apply wp_bind. eapply wp_mono, reloc_guard_drop_spec. intros [] r' ->. apply wp_ret. split; [done|].
       destruct He as [->|[? _]]; [by left|done]. }
  apply wp_bind. eapply wp_mono, release_locked_spec; [|done..]. intros [[]|e] r'.
  - intros ->. apply wp_bind. eapply wp_mono, reloc_guard_drop_spec. intros [] r' ->. by apply wp_ret.
  - intros (-> & -> & ->). apply wp_bind. eapply wp_mono, reloc_guard_drop_spec. intros [] r' ->. apply wp_ret.
    split; [done|]. right. right. by exists s.
Qed.

Lemma take_value_spec (t : PodType) self desc s g v r : region_ok self -> 0 <= s < SLOTS -> 1 <= g < 2 ^ 63 ->
  0 <= fingerprint desc < 2 ^ 128 -> 0 <= size_of <= ss -> is_power_of_two align_of = true -> align_of <= 64 ->
  let a := alloc_desc s g size_of align_of (fingerprint desc) in
  let tk := Alloc s (alloc_rec g size_of align_of (fingerprint desc)) v in
  wp inv (take_value SLOTS self a desc) (r ⊎ {[+ tk +]}) (fun x r' =>
    match x with Ok w => w = v /\ r' = r ⊎ {[+ Stale s g +]} | Err e => r' = r ⊎ {[+ tk +]} /\ destroy_error g e end).
Proof.
  intros Hreg Hs Hg Hfp Hsz Hp Hal a tk. apply wp_try_bind. eapply wp_mono, try_operation_spec.
  intros [[]|e] r'; [intros ->|intros [-> He]; split; [done|]; unfold destroy_error; tauto].
  assert (Hin : 0 < mult tk (r ⊎ {[+ tk +]} ⊎ {[+ Lk LIdle +]})).
  { autorewrite with mult. rewrite decide_True by done. pose proof (mult_nonneg tk r). subst tk. case_decide; lia. }
  apply wp_bind. eapply wp_mono, (validate_owner_spec _ _ _ _ _ v); [|done..]. intros [[]|e] r' [-> He].
  2: { apply wp_bind. eapply wp_mono, reloc_guard_drop_spec. intros [] r' ->. apply wp_ret. split; [done|].
       destruct He as [->|[? _]]; [by left|done]. }
  cbn [a alloc_desc from_raw offset]. rewrite pointer_spec by done.
  replace (base self + off s - base self) with (off s) by lia.
  apply wp_bind. eapply wp_mono, wp_owner_data, Hin. intros w r' [-> ->].
  apply wp_bind. eapply wp_mono, release_locked_spec; [|done..]. intros [[]|e] r'.
  - intros ->. apply wp_bind. eapply wp_mono, reloc_guard_drop_spec. intros [] r' ->. by apply wp_ret.
  - intros (-> & -> & ->). apply wp_bind. eapply wp_mono, reloc_guard_drop_spec. intros [] r' ->. apply wp_ret.
    split; [done|]. right. right. by exists s.
Qed.

(** ** Resolving *)

Lemma validate_request_ok n al r Φ : n <= ss -> is_power_of_two al = true -> al <= 64 -> Φ (Ok tt) r ->
  wp inv (validate_request n al) r Φ.
Proof.
  intros Hn Hp Hal HΦ. unfold validate_request, RELOC_SLOT_ALIGNMENT. rewrite Hp. cbn [negb orb].
  destruct (Z.ltb_spec 64 al); [lia|]. pose proof isize_64. pose proof (off_bounds 0).
  destruct (Z.ltb_spec isize_max n); [lia|]. apply wp_bind, (wp_const _ ss); [by intros m []|]. apply wp_ret.
  unfold usize_try_from. destruct (Z.leb_spec ss usize_max); [|lia]. cbn [ok_or result_bind].
  destruct (Z.ltb_spec ss n); [lia|done].
Qed.

Lemma resolve_owner_spec (t : PodType) self desc s g c n v r : region_ok self -> 0 <= s < SLOTS -> 1 <= g < 2 ^ 63 ->
  0 <= fingerprint desc < 2 ^ 128 -> n = size_of * c -> 0 <= n <= ss -> is_power_of_two align_of = true -> align_of <= 64 ->
  0 < mult (Alloc s (alloc_rec g n align_of (fingerprint desc)) v) r ->
  wp inv (resolve SLOTS self (alloc_desc s g n align_of (fingerprint desc)) c desc) r (fun x r' => r' = r /\
    match x with Ok p => p = base self + off s | Err e => e = Poisoned \/ e = Busy end).
Proof.
  intros Hreg Hs Hg Hfp -> Hn Hp Hal Hm. unfold resolve, checked_mul. pose proof isize_64. pose proof (off_bounds 0).
  destruct (Z.ltb_spec (size_of * c) (2 ^ usize_bits)); [|lia].
  apply wp_try_bind, validate_request_ok; [lia|done|done|].
  apply wp_try_bind. eapply wp_mono, (validate_owner_spec _ _ _ _ _ v); [|done..]. intros [[]|e] r' [-> He].
  - apply wp_ret. cbn [alloc_desc from_raw offset]. rewrite pointer_spec by done. done.
  - split; [done|]. destruct He as [->|[_ ->]]; auto.
Qed.

Lemma resolve_stale_spec (t : PodType) self a c desc r : 0 <= slot a -> 0 < mult (Stale (slot a) (generation a)) r ->
  wp inv (resolve SLOTS self a c desc) r (fun x r' => r' = r /\ match x with Ok _ => False | Err _ => True end).
Proof.
  intros H0 Hm. unfold resolve. destruct (checked_mul _ _ _); [|by apply wp_ret].
  apply wp_try_bind. eapply wp_mono, validate_request_spec. intros [[]|e] r' [-> _]; [|done].
  apply wp_try_bind. eapply wp_mono, validate_stale_spec; [|done..]. intros [x|e] r' [-> He]; done.
Qed.

Lemma take_value_stale_spec (t : PodType) self a desc r : 0 <= slot a -> 0 < mult (Stale (slot a) (generation a)) r ->
  wp inv (take_value SLOTS self a desc) r (fun x r' => r' = r /\ match x with Ok _ => False | Err _ => True end).
Proof.
  intros H0 Hm. apply wp_try_bind. eapply wp_mono, try_operation_spec.
  intros [[]|e] r'; [intros ->|by intros [-> He]].
  apply wp_bind. eapply wp_mono, validate_stale_spec; [|done|by apply mult_frame_pos]. intros [x|e] r' [-> He]; [done|].
  apply wp_bind. eapply wp_mono, reloc_guard_drop_spec. intros [] r' ->. by apply wp_ret.
Qed.

(** ** Attaching: a healthy allocator always validates *)

Lemma wp_look s r : 0 <= s < SLOTS -> wp inv (load (Token s)) (r ⊎ {[+ Lk LIdle +]}) (fun t r' =>
  exists x, t = r_tok x /\ (free_ok x \/ live_ok x) /\ r' = r ⊎ {[+ Lk (LLook s x) +]}).
Proof.
  intros Hs. apply wp_load. intros m fr (lk & Hi). pose proof (slot_at _ _ _ _ _ s Hi Hs) as (x & Hv & Hst & Hx).
  cbn in Hx. exists (r ⊎ {[+ Lk (LLook s x) +]}). split.
  - eapply rinv_stage; [exact Hi|done|by left|by right|apply Hi|done|intros; apply mem_same|].
    exists x. split; [done|]. split; [intros g Hg; apply Hst; by rewrite mult_stale_lk in *|].
    split; [done|]. by eapply stable_lk.
  - exists x. split; [apply (proj1 Hv FTok)|]. split; [|done]. destruct Hx as [[Hf _]|[Hl _]]; auto.
Qed.

Lemma wp_look_bit s x r : 0 <= s < SLOTS ->
  wp inv (load (Bitmap (word_of s))) (r ⊎ {[+ Lk (LLook s x) +]}) (fun w r' =>
    Z.testbit w (s mod 64) = r_bit x /\ r' = r ⊎ {[+ Lk (LLook s x) +]}).
Proof.
  intros Hs. apply wp_load. intros m fr (lk & Hi). eexists. split; [by exists lk|]. split; [|done].
  pose proof (slot_at _ _ _ _ _ s Hi Hs) as (x' & [_ Hb] & _ & Hx). destruct Hx as [Hx _]. rewrite <- (Hx eq_refl). exact Hb.
Qed.

Lemma wp_look_done f s x r : 0 <= s < SLOTS ->
  wp inv (load (fcell f s)) (r ⊎ {[+ Lk (LLook s x) +]}) (fun v r' => v = fget x f /\ r' = r ⊎ {[+ Lk LIdle +]}).
Proof.
  intros Hs. apply wp_load. intros m fr (lk & Hi). exists (r ⊎ {[+ Lk LIdle +]}).
  pose proof (slot_at _ _ _ _ _ s Hi Hs) as (x' & Hv & Hst & Hx). destruct Hx as [Hxx Hx].
  specialize (Hxx eq_refl). subst x'.
  split; [|split; [apply (proj1 Hv)|done]].
  eapply rinv_stage; [exact Hi|done|by right|by left|apply Hi|done|intros; apply mem_same|].
  exists x. split; [done|]. split; [intros g Hg; apply Hst; by rewrite mult_stale_lk in *|]. by eapply stable_lk.
Qed.

Lemma validate_slot_spec s r : 0 <= s < SLOTS ->
  wp inv (validate_slot SLOTS ss s) (r ⊎ {[+ Lk LIdle +]}) (fun x r' => x = None /\ r' = r ⊎ {[+ Lk LIdle +]}).
Proof.
  intros Hs. unfold validate_slot. rewrite at_slot_in by done.
  apply wp_bind. eapply wp_mono, wp_look; [|done]. intros t r' (x & -> & Hok & ->). rewrite at_word_in by done.
  apply wp_bind. eapply wp_mono, wp_look_bit; [|done]. intros w r' [Hw ->]. rewrite mask_test, Hw.
  apply wp_bind. eapply wp_mono, (wp_stage_read FLen s x); [|done|by left]. intros n r' [-> ->].
  apply wp_bind. eapply wp_mono, (wp_stage_read FAl s x); [|done|by left]. intros al r' [-> ->].
  apply wp_bind. eapply wp_mono, (wp_stage_read FLo s x); [|done|by left]. intros lo r' [-> ->].
  apply wp_bind. eapply wp_mono, (wp_look_done FHi s x); [|done]. intros hi r' [-> ->].
  rewrite token_gen, token_flag. destruct Hok as [(g & Hg & ->)|(g & Hg & Ht & Hb & Hn & Hp & Hal)].
  - cbn [free_rec r_tok r_bit r_len r_al r_lo r_hi fget]. rewrite free_gen, free_flag by done.
    destruct (Z.eqb_spec g 0); [lia|]. by apply wp_ret.
  - cbn [fget]. rewrite Ht, Hb, live_gen, live_flag, Hp by done. unfold RELOC_SLOT_ALIGNMENT.
    destruct (Z.eqb_spec g 0); [lia|]. destruct (Z.leb_spec (r_len x) ss); [|lia].
    destruct (Z.leb_spec (r_al x) 64); [|lia]. by apply wp_ret.
Qed.

Lemma valid_bits_test w i : 0 <= w -> 0 <= i < 64 ->
  0 <= valid_bits SLOTS w < 2 ^ 64 /\ Z.testbit (valid_bits SLOTS w) i = (w * 64 + i <? SLOTS).
Proof.
  intros Hw Hi. unfold valid_bits, BITS_PER_WORD, u64_max. destruct (Z.leb_spec SLOTS (w * 64)).
  { split; [lia|]. rewrite Z.bits_0. destruct (Z.ltb_spec (w * 64 + i) SLOTS); [lia|done]. }
  destruct (Z.leb_spec 64 (SLOTS - w * 64)).
  { split; [lia|]. rewrite ones_mask, Z.testbit_ones_nonneg by lia.
    destruct (Z.ltb_spec i 64), (Z.ltb_spec (w * 64 + i) SLOTS); done || lia. }
  rewrite Z.shiftl_1_l. split.
  - assert (2 ^ (SLOTS - w * 64) < 2 ^ 64) by (apply Z.pow_lt_mono_r; lia). lia.
  - rewrite ones_mask, Z.testbit_ones_nonneg by lia.
    destruct (Z.ltb_spec i (SLOTS - w * 64)), (Z.ltb_spec (w * 64 + i) SLOTS); done || lia.
Qed.

Lemma validate_word_spec w r : 0 <= w < 16 -> wp inv (validate_word SLOTS w) r (fun x r' => x = None /\ r' = r).
Proof.
  intros Hw. unfold validate_word, at_word, MAX_BITMAP_WORDS.
  destruct (Z.leb_spec 0 w), (Z.ltb_spec w 16); try lia. cbn [andb].
  apply wp_bind, wp_load. intros m fr HI. exists r. split; [done|]. destruct HI as (lk & Hc & _).
  assert (Hz : Z.land (m (Bitmap w)) (not_bits 64 (valid_bits SLOTS w)) = 0).
  { apply Z.bits_inj'. intros i Hi. rewrite Z.land_spec, Z.bits_0. destruct (valid_bits_test w 0) as [Hb _]; [lia..|].
    rewrite not_bits_testbit by lia. destruct (Z.ltb_spec i 64) as [Hi64|]; [|by rewrite andb_false_r].
    rewrite (proj2 (valid_bits_test w i ltac:(lia) ltac:(lia))). cbn [andb].
    destruct (Z.ltb_spec (w * 64 + i) SLOTS); [by rewrite andb_false_r|].
    rewrite (c_stray _ Hc) by (done || auto). done. }
  rewrite Hz. by apply wp_ret.
Qed.

Lemma validate_metadata_spec r :
  wp inv (validate_metadata_locked SLOTS) (r ⊎ {[+ Lk LIdle +]}) (fun x r' => x = Ok tt /\ r' = r ⊎ {[+ Lk LIdle +]}).
Proof.
  apply wp_bind, (wp_const _ ss); [by intros m []|].
  apply (wp_for inv (fun _ r' => r' = r ⊎ {[+ Lk LIdle +]})); [| |done].
  - intros s r0 Hs ->. eapply wp_mono, validate_slot_spec; [|lia]. intros x r' [-> ->]. done.
  - intros r0 ->. apply (wp_for inv (fun _ r' => r' = r ⊎ {[+ Lk LIdle +]})); [| |done].
    + intros w r0 Hw ->. eapply wp_mono, validate_word_spec; [|change (Z.of_nat (Z.to_nat MAX_BITMAP_WORDS)) with 16 in Hw; lia]. intros x r' [-> ->]. done.
    + intros r0 ->. by apply wp_ret.
Qed.

Lemma reloc_attach_spec control_size cs b l id r : in_width usize_bits b ->
  wp inv (attach SLOTS control_size cs b l id) r (fun x r' => r' = r /\
    match x with
    | Ok self => self = {| base := b; len := l |} /\ region_ok self /\ id = rid
    | Err e => forall s, e <> CorruptMetadata s
    end).
Proof.
  intros Hb. unfold attach. apply wp_bind, wp_state. intros st [->| ->]; cbn [negb Z.eqb READY POISONED Pos.eqb]; [|by apply wp_ret].
  apply wp_bind, (wp_const _ rid); [by intros m []|]. destruct (Z.eqb_spec rid id) as [Hid|]; [|by apply wp_ret]. cbn [negb].
  apply wp_bind, (wp_const _ ml); [by intros m []|]. destruct (Z.eqb_spec ml l) as [Hl|]; [|by apply wp_ret]. cbn [negb].
  apply wp_bind, (wp_const _ ao); [by intros m []|]. apply wp_bind, (wp_const _ ss); [by intros m []|].
  destruct (usize_try_from ss) as [z|] eqn:Hz; [|by apply wp_ret]. unfold usize_try_from in Hz.
  destruct (ss <=? usize_max); [injection Hz as <-|done].
  destruct (validate_geometry _ _ _ _ _ _ _) as [geo|e] eqn:Hgeo; [|apply wp_ret; split; [done|]].
  2: { clear -Hgeo. intros s ->. unfold validate_geometry in Hgeo.
       repeat match type of Hgeo with
       | (if ?c then _ else _) = _ => destruct c; [discriminate Hgeo|]
       | result_bind (ok_or ?o _) _ = _ => destruct o; cbn [ok_or result_bind] in Hgeo; [|discriminate Hgeo]
       end. discriminate Hgeo. }
  apply validate_geometry_ok in Hgeo as [-> Hgo]; [|done|lia..]. cbn [control_offset].
  apply wp_bind, (wp_const _ co); [by intros m []|]. destruct (negb (cs - b =? co)); [by apply wp_ret|].
  apply wp_try_bind. eapply wp_mono, try_operation_spec.
  intros [[]|e] r'; [intros ->|intros [-> [->| ->]]; done].
  apply wp_bind. eapply wp_mono, validate_metadata_spec. intros x r' [-> ->].
  apply wp_bind. eapply wp_mono, reloc_guard_drop_spec. intros [] r' ->. apply wp_ret. split; [done|].
  cbn [geometry_base]. split; [done|]. split; [|done]. split; [apply Hgo|]. split; [done|]. apply Hgo.
Qed.
End Inv.

(** First fit: on any bitmap, the search returns the lowest slot whose bit
    is clear, and reports [Exhausted] exactly when every slot's bit is set; it
    never writes and never indexes outside the bitmap. *)
Theorem reloc_first_fit (SLOTS : Z) (m : rcell -> Z) : 1 <= SLOTS <= MAX_RELOC_SLOTS ->
  solo (find_free_slot SLOTS) m (fun x m' => m' = m /\
    match x with
    | Ok s => 0 <= s < SLOTS /\ bit_of m s = false /\ forall j, 0 <= j < s -> bit_of m j = true
    | Err e => e = Exhausted /\ forall j, 0 <= j < SLOTS -> bit_of m j = true
    end).
Proof.
  change MAX_RELOC_SLOTS with 1024. intros Hmax.
  apply (solo_for (L := rcell) (fun i m' => m' = m /\ forall j, 0 <= j < i -> bit_of m j = true)).
  - intros s m0 Hs [-> Hj]. rewrite (at_word_in SLOTS) by lia. rewrite solo_bind, solo_load. cbn.
    rewrite mask_test. change (m (Bitmap (word_of s))) with (m (Bitmap (s / 64))). fold (bit_of m s).
    destruct (bit_of m s) eqn:Hb; cbn; split; try done.
    + intros j Hlt. destruct (decide (j = s)) as [->|]; [done|]. apply Hj. lia.
    + split; [lia|done].
  - intros m0 [-> Hj]. split; [done|]. split; [done|]. intros j Hlt. apply Hj. lia.
  - split; [done|]. intros; lia.
Qed.

Definition demo_bitmap : rcell -> Z :=
  fun l => match l with Bitmap 0 => u64_max | Bitmap 1 => 5 | _ => 0 end.

Lemma reloc_first_fit_witness : fst (run (find_free_slot 70) demo_bitmap) = Done (Ok 65).
Proof.
  assert (Hs : 1 <= 70 <= MAX_RELOC_SLOTS) by (split; discriminate).
  destruct (solo_run (find_free_slot 70) demo_bitmap _ (reloc_first_fit 70 demo_bitmap Hs)) as ([s|e] & m' & Hrun & _ & Hx).
  - rewrite Hrun. vm_compute in Hrun. injection Hrun as <- _. reflexivity.
  - rewrite Hrun. vm_compute in Hrun. discriminate Hrun.
Defined.
