(* ===== verification/Collections.v ===== *)
(** Owning descriptors over the relocatable allocator:
    [shmem_exec_obj/v2/src/collections.rs].

    [SharedBox<T>] and [SharedVec<T>] are records of integers held by a process;
    methods that take [&mut self] return the new record.  A [T] value occupies
    one arena cell; element [i] of a vector is at displacement
    [i * size_of::<T>()] from the start of its allocation. *)

From S2P Require Import Prelude Conc Layout Reloc.

Section Layouts.
Context `{Target} `{PodType}.

(** The zero-sized allocation tags have size 0 and alignment 1. *)
Definition box_fingerprint : Z :=
  let state := mix_bytes FINGERPRINT_SEED (b_str "shmem-pod-shared-box-allocation-v1") in
  finish (mix_u128 state FINGERPRINT).
Definition vec_fingerprint : Z :=
  let state := mix_bytes FINGERPRINT_SEED (b_str "shmem-pod-shared-vec-allocation-v1") in
  finish (mix_u128 state FINGERPRINT).

Definition box_layout : LayoutDescriptor :=
  layout_of (H := {| FINGERPRINT := box_fingerprint; size_of := 0; align_of := 1 |}).
Definition vec_layout : LayoutDescriptor :=
  layout_of (H := {| FINGERPRINT := vec_fingerprint; size_of := 0; align_of := 1 |}).
End Layouts.

Record SharedBox := { allocation : AllocationDescriptor }.
Record SharedVec := { vec_allocation : AllocationDescriptor; vec_len : Z; vec_capacity : Z }.

Definition box_from_descriptor (a : AllocationDescriptor) : SharedBox := {| allocation := a |}.
Definition box_descriptor (b : SharedBox) : AllocationDescriptor := allocation b.

Definition vec_new : SharedVec := {| vec_allocation := null; vec_len := 0; vec_capacity := 0 |}.
Definition vec_from_raw_parts (a : AllocationDescriptor) (len capacity : Z) : SharedVec :=
  {| vec_allocation := a; vec_len := len; vec_capacity := capacity |}.
Definition raw_parts (v : SharedVec) : AllocationDescriptor * Z * Z :=
  (vec_allocation v, vec_len v, vec_capacity v).
Definition is_empty (v : SharedVec) : bool := vec_len v =? 0.

Section Operations.
Context `{Target} `{PodType}.
Variable SLOTS : Z.
Variable region : RelocRegion.
#[local] Abbreviation prog := (prog rcell).

(** ** [SharedBox] *)

Definition try_new_in_place (init : Z -> prog (unwind unit)) : prog (unwind (result SharedBox RelocError)) :=
  let! x := allocate_with SLOTS region box_layout size_of align_of init in
  Ret (match x with
       | Returned (Ok a) => Returned (Ok {| allocation := a |})
       | Returned (Err e) => Returned (Err e)
       | Unwound => Unwound
       end).

Definition box_new (value : Z) : prog (unwind (result SharedBox RelocError)) :=
  try_new_in_place (fun target => do! store (Data target) value ;; Ret (Returned tt)).

(** The reference is the address it points to. *)
Definition box_get (self : SharedBox) : prog (result Z RelocError) :=
  if is_null (allocation self) then Ret (Err Empty)
  else resolve SLOTS region (allocation self) 1 box_layout.
Definition box_get_mut (self : SharedBox) : prog (result Z RelocError) :=
  if is_null (allocation self) then Ret (Err Empty)
  else resolve SLOTS region (allocation self) 1 box_layout.

Definition box_destroy (self : SharedBox) : prog (SharedBox * result Z RelocError) :=
  if is_null (allocation self) then Ret (self, Err Empty)
  else
    let! x := take_value SLOTS region (allocation self) box_layout in
    match x with
    | Err e => Ret (self, Err e)
    | Ok value => Ret ({| allocation := null |}, Ok value)
    end.

(** ** [SharedVec] *)

Definition with_capacity (capacity : Z) : prog (unwind (result SharedVec RelocError)) :=
  if capacity =? 0 then Ret (Returned (Ok vec_new))
  else if isize_max <? capacity then Ret (Returned (Err LengthOverflow))
  else match checked_mul usize_bits size_of capacity with
  | None => Ret (Returned (Err LengthOverflow))
  | Some byte_len =>
      let! x := allocate_with SLOTS region vec_layout byte_len align_of (fun _ => Ret (Returned tt)) in
      Ret (match x with
           | Returned (Ok a) =>
               Returned (Ok {| vec_allocation := a; vec_len := 0; vec_capacity := capacity |})
           | Returned (Err e) => Returned (Err e)
           | Unwound => Unwound
           end)
  end.

Definition checked_lengths (self : SharedVec) : result (Z * Z) RelocError :=
  let? len := ok_or (usize_try_from (vec_len self)) LengthOverflow in
  let? capacity := ok_or (usize_try_from (vec_capacity self)) LengthOverflow in
  reject (isize_max <? capacity) || (capacity <? len) with LengthOverflow ;;
  if capacity =? 0 then
    reject negb (len =? 0) || negb (is_null (vec_allocation self)) with DescriptorMismatch usize_max ;;
    Ok (len, capacity)
  else
    reject is_null (vec_allocation self) with DescriptorMismatch usize_max ;;
    Ok (len, capacity).

(** The slice is its address and its length; the empty slice has no address. *)
Definition as_slice (self : SharedVec) : prog (result (option Z * Z) RelocError) :=
  match checked_lengths self with
  | Err e => Ret (Err e)
  | Ok (len, capacity) =>
      if capacity =? 0 then Ret (Ok (None, 0))
      else
        let!? pointer := resolve SLOTS region (vec_allocation self) capacity vec_layout in
        Ret (Ok (Some pointer, len))
  end.
Definition as_mut_slice (self : SharedVec) : prog (result (option Z * Z) RelocError) := as_slice self.

Definition push (self : SharedVec) (value : Z) : prog (SharedVec * result unit RelocError) :=
  match checked_lengths self with
  | Err e => Ret (self, Err e)
  | Ok (len, capacity) =>
      if len =? capacity then Ret (self, Err CapacityExceeded)
      else
        let! x := resolve SLOTS region (vec_allocation self) capacity vec_layout in
        match x with
        | Err e => Ret (self, Err e)
        | Ok pointer =>
            do! store (Data (pointer - base region + len * size_of)) value ;;
            Ret ({| vec_allocation := vec_allocation self; vec_len := vec_len self + 1;
                    vec_capacity := vec_capacity self |}, Ok tt)
        end
  end.

Definition pop (self : SharedVec) : prog (SharedVec * result (option Z) RelocError) :=
  match checked_lengths self with
  | Err e => Ret (self, Err e)
  | Ok (len, capacity) =>
      if len =? 0 then Ret (self, Ok None)
      else
        let! x := resolve SLOTS region (vec_allocation self) capacity vec_layout in
        match x with
        | Err e => Ret (self, Err e)
        | Ok pointer =>
            let new_len := len - 1 in
            let! value := load (Data (pointer - base region + new_len * size_of)) in
            Ret ({| vec_allocation := vec_allocation self; vec_len := new_len;
                    vec_capacity := vec_capacity self |}, Ok (Some value))
        end
  end.

Definition vec_destroy (self : SharedVec) : prog (SharedVec * result unit RelocError) :=
  match checked_lengths self with
  | Err e => Ret (self, Err e)
  | Ok (_, capacity) =>
      if capacity =? 0 then
        Ret ({| vec_allocation := vec_allocation self; vec_len := 0; vec_capacity := vec_capacity self |}, Ok tt)
      else match checked_mul usize_bits size_of capacity with
      | None => Ret (self, Err LengthOverflow)
      | Some byte_len =>
          let! x := release SLOTS (vec_allocation self) vec_layout byte_len align_of in
          match x with
          | Err e => Ret (self, Err e)
          | Ok _ => Ret ({| vec_allocation := null; vec_len := 0; vec_capacity := 0 |}, Ok tt)
          end
      end
  end.
End Operations.

(** ** Fingerprints of the descriptors themselves *)

Definition shared_box_fingerprint (lay : String.string -> FieldLayout)
    (size align allocation_fingerprint element : Z) : Z :=
  let state := mix_bytes FINGERPRINT_SEED (b_str "shmem-pod-shared-box-v1") in
  let state := mix_usize state size in
  let state := mix_usize state align in
  finish (mix_fields lay state
    [("allocation"%string, allocation_fingerprint); ("marker"%string, element)]).

Definition shared_vec_fingerprint (lay : String.string -> FieldLayout)
    (size align allocation_fingerprint u64_fingerprint element : Z) : Z :=
  let state := mix_bytes FINGERPRINT_SEED (b_str "shmem-pod-shared-vec-v1") in
  let state := mix_usize state size in
  let state := mix_usize state align in
  finish (mix_fields lay state
    [("allocation"%string, allocation_fingerprint); ("len"%string, u64_fingerprint);
     ("capacity"%string, u64_fingerprint); ("marker"%string, element)]).
