(* ===== verification/CollectionsCorrect.v ===== *)
(** Correctness of shared boxes and vectors over the relocatable allocator:
    initialization establishes the allocator invariant, boxes of concurrent
    processes are isolated from each other, stale descriptors never resolve, and
    vectors are stacks. *)

From S2P Require Import Prelude Conc Layout Reloc RelocInv Collections.

#[local] Abbreviation mem := (rcell -> Z).

(** ** Initialization *)

Section Initialize.
Context `{Target}.
Variable SLOTS control_size cs b ml rid ao ss : Z.

Lemma solo_clear_bitmap n w m (Φ : unit -> mem -> Prop) :
  (forall m', (forall i, w <= i < w + Z.of_nat n -> m' (Bitmap i) = 0) ->
     (forall l, (forall i, w <= i < w + Z.of_nat n -> l <> Bitmap i) -> m' l = m l) -> Φ tt m') ->
  solo (clear_bitmap n w) m Φ.
Proof.
  revert w m. induction n as [|n IH]; intros w m HΦ; cbn [clear_bitmap].
  - apply HΦ; [intros; lia|done].
  - rewrite solo_bind, solo_store. apply IH. intros m' H0 Hl. apply HΦ.
    + intros i Hi. destruct (decide (i = w)) as [->|]; [|apply H0; lia].
      rewrite Hl, upd_eq; [done|]. intros j Hj [= E]. lia.
    + intros l Hne. rewrite Hl; [apply upd_ne, Hne; lia|]. intros i Hi. apply Hne. lia.
Qed.

Lemma solo_reset_slots n s m (Φ : unit -> mem -> Prop) :
  (forall m', (forall i f, s <= i < s + Z.of_nat n -> m' (fcell f i) = fget (free_rec 1) f) ->
     (forall l, (forall i f, s <= i < s + Z.of_nat n -> l <> fcell f i) -> m' l = m l) -> Φ tt m') ->
  solo (reset_slots n s) m Φ.
Proof.
  revert s m. induction n as [|n IH]; intros s m HΦ; cbn [reset_slots].
  - apply HΦ; [intros; lia|done].
  - rewrite solo_bind. unfold slot_reset. repeat (rewrite ?solo_bind, ?solo_store; cbn beta).
    apply IH. intros m' H0 Hl. apply HΦ.
    + intros i f Hi. destruct (decide (i = s)) as [->|]; [|apply H0; lia].
      rewrite Hl; [|intros j f' Hj [_ E]%fcell_inj; lia].
      destruct f; cbn; rewrite ?upd_eq; rewrite ?upd_ne by done; rewrite ?upd_eq; rewrite ?upd_ne by done; rewrite ?upd_eq; done.
    + intros l Hne. rewrite Hl by (intros i f Hi; apply Hne; lia).
      rewrite !upd_ne; [done|..].
      * apply (Hne s FLen). lia.
      * apply (Hne s FAl). lia.
      * apply (Hne s FLo). lia.
      * apply (Hne s FHi). lia.
      * apply (Hne s FTok). lia.
Qed.

(** Freshly reset metadata satisfies the invariant with no tokens. *)
Lemma fresh_inv (m : mem) : SLOTS <= 1024 ->
  m RegionId = rid -> m ControlOffsetCell = cs - b -> m MappingLen = ml -> m ArenaOffset = ao -> m SlotSize = ss ->
  m State = READY -> m OperationLock = UNLOCKED -> (forall w, 0 <= w < 16 -> m (Bitmap w) = 0) ->
  (forall s f, 0 <= s < SLOTS -> m (fcell f s) = fget (free_rec 1) f) ->
  inv SLOTS rid (cs - b) ml ao ss m ∅.
Proof.
  intros Hmax H1 H2 H3 H4 H5 H6 H7 Hw Hs. exists None. split; [|split].
  - constructor; try done; [by left|]. intros w i Hwr Hi _. by rewrite Hw, Z.bits_0.
  - constructor; try done.
  - intros s Hr. exists (free_rec 1). split; [split|split].
    + intros f. by apply Hs.
    + unfold bit_of. rewrite Hw, Z.bits_0; [done|]. split; [apply Z.div_pos; lia|apply Z.div_lt_upper_bound; lia].
    + intros g Hg. rewrite mult_empty in Hg. lia.
    + left. split; [by exists 1|done].
Qed.

Lemma solo_initialize m : in_width usize_bits b -> 0 <= SLOTS -> 0 <= ss -> 0 <= ao ->
  solo (initialize SLOTS control_size cs b ml rid ao ss) m (fun x m' =>
    match x with
    | Ok self => self = {| base := b; len := ml |} /\ geometry_ok SLOTS control_size cs b ml ao ss /\
                 inv SLOTS rid (cs - b) ml ao ss m' ∅
    | Err _ => m' = m
    end).
Proof.
  intros Hb HS Hss Hao. unfold initialize. destruct (rid =? 0); [done|].
  destruct (validate_geometry _ _ _ _ _ _ _) as [g|e] eqn:Hg; [|done].
  apply validate_geometry_ok in Hg as [-> Hgo]; [|done..]. rewrite solo_bind, solo_cas.
  destruct (m State =? UNINITIALIZED); [|done].
  do 6 rewrite solo_bind, solo_store. rewrite solo_bind.
  apply solo_clear_bitmap. intros m1 Hw1 Hl1. rewrite solo_bind. apply solo_reset_slots. intros m2 Hs2 Hl2.
  assert (Hval : forall l, (forall i, l <> Bitmap i) -> (forall i f, l <> fcell f i) ->
    m2 l = upd (upd (upd (upd (upd (upd (upd m State INITIALIZING) OperationLock UNLOCKED) RegionId rid)
      ControlOffsetCell (cs - b)) MappingLen ml) ArenaOffset ao) SlotSize ss l).
  { intros l HB Hf. rewrite Hl2 by (intros; apply Hf). apply Hl1. intros; apply HB. }
  assert (Hst : m2 State = INITIALIZING).
  { rewrite Hval; [|done|by intros ? []]. repeat rewrite upd_ne by done. apply upd_eq. }
  rewrite solo_bind. unfold publish_ready. rewrite solo_bind, solo_cas, Hst. cbn [Z.eqb INITIALIZING Pos.eqb].
  cbn. split; [done|]. split; [done|].
  apply fresh_inv; rewrite ?upd_eq; try done; try (rewrite upd_ne by done).
  - apply Hgo.
  - rewrite Hval; [|done|by intros ? []]. repeat rewrite upd_ne by done. apply upd_eq.
  - rewrite Hval; [|done|by intros ? []]. repeat rewrite upd_ne by done. apply upd_eq.
  - rewrite Hval; [|done|by intros ? []]. repeat rewrite upd_ne by done. apply upd_eq.
  - rewrite Hval; [|done|by intros ? []]. repeat rewrite upd_ne by done. apply upd_eq.
  - rewrite Hval; [|done|by intros ? []]. apply upd_eq.
  - rewrite Hval; [|done|by intros ? []]. repeat rewrite upd_ne by done. apply upd_eq.
  - intros w Hw. rewrite upd_ne by done. rewrite Hl2 by (by intros ? []). apply Hw1. done.
  - intros s f Hs. rewrite upd_ne by (by destruct f). apply Hs2. lia.
Qed.
End Initialize.

(** ** Processes that share boxes *)

(** Errors that leave a live box alone: retry or give up. *)
Definition is_transient (e : RelocError) : bool :=
  match e with Poisoned | Busy | GenerationExhausted _ => true | _ => false end.
(** Errors an allocation may report on a healthy allocator. *)
Definition is_refusal (e : RelocError) : bool :=
  match e with
  | UnsupportedAlignment _ _ | LengthOverflow | AllocationTooLarge _ _ | Poisoned | Busy | Exhausted => true
  | _ => false
  end.

(** A process maps the region at [p_base], finds the allocator object at
    [p_control], and handles boxes of its own type; it allocates each value of
    its script, reads it back some number of times, takes it out again and then
    tries the stale descriptor. *)
Record process := {
  p_control : Z;
  p_base : Z;
  p_type : PodType;
  p_script : list (Z * nat)
}.

Section Processes.
Context `{Target}.
Variable SLOTS control_size ml rid : Z.

Section Script.
Context `{PodType}.
Variable region : RelocRegion.

Fixpoint read_box (bx : SharedBox) (v : Z) (reads : nat) : prog rcell unit :=
  match reads with
  | O => Ret tt
  | S reads =>
      let! x := box_get SLOTS region bx in
      match x with
      | Ok p =>
          let! w := load (Data (p - base region)) in
          if w =? v then read_box bx v reads else Panic
      | Err e => if is_transient e then read_box bx v reads else Panic
      end
  end.

Definition use_box (v : Z) (reads : nat) (k : prog rcell unit) : prog rcell unit :=
  let! u := box_new SLOTS region v in
  match u with
  | Unwound => Panic
  | Returned (Err e) => if is_refusal e then k else Panic
  | Returned (Ok bx) =>
      do! read_box bx v reads ;;
      let! y := box_destroy SLOTS region bx in
      match y with
      | (_, Err e) => if is_transient e then k else Panic
      | (bx', Ok w) =>
          if negb (w =? v) then Panic
          else
          let! x := box_get SLOTS region bx in
          if is_ok x then Panic
          else
          let! z := box_destroy SLOTS region bx in
          if is_ok (snd z) then Panic
          else
          let! x' := box_get SLOTS region bx' in
          match x' with Err Empty => k | _ => Panic end
      end
  end.

Fixpoint run_script (script : list (Z * nat)) : prog rcell unit :=
  match script with
  | [] => Ret tt
  | (v, reads) :: script => use_box v reads (run_script script)
  end.
End Script.

Definition process_prog (p : process) : prog rcell unit :=
  let! a := attach SLOTS control_size (p_control p) (p_base p) ml rid in
  match a with
  | Ok region => run_script (H0 := p_type p) region (p_script p)
  | Err (CorruptMetadata _) => Panic
  | Err _ => Ret tt
  end.

(** The supervisor that poisons the allocator at some point. *)
Definition poisoner : prog rcell unit := poison.

Definition process_ok (p : process) : Prop :=
  in_width usize_bits (p_base p) /\ 0 <= size_of (PodType := p_type p).

(** ** Verification *)

Variable co ao ss : Z.
Hypothesis ss_pos : 0 < ss.
Hypothesis slots_max : SLOTS <= 1024.
Hypothesis slots_pos : 1 <= SLOTS.
Hypothesis ss_align : ss mod 64 = 0.
Hypothesis ao_nonneg : 0 <= ao.
Hypothesis arena_fits : ao + ss * SLOTS <= ml.
Hypothesis ml_max : ml <= isize_max.
#[local] Abbreviation I := (inv SLOTS rid co ml ao ss).
#[local] Abbreviation boxed t s g := (alloc_desc rid ao ss s g (size_of (PodType := t)) (align_of (PodType := t)) (fingerprint (box_layout (H0 := t)))).
#[local] Abbreviation owned t s g v := (Alloc s (alloc_rec g (size_of (PodType := t)) (align_of (PodType := t)) (fingerprint (box_layout (H0 := t)))) v).

Lemma box_layout_width (t : PodType) : 0 <= fingerprint (box_layout (H0 := t)) < 2 ^ 128.
Proof. apply finish_width. Qed.
#[local] Opaque box_layout vec_layout.

Lemma boxed_not_null t s g : 1 <= g -> is_null (boxed t s g) = false.
Proof.
  intros Hg. unfold is_null. cbn [alloc_desc from_raw generation]. destruct (Z.eqb_spec g 0); [lia|].
  by rewrite !andb_false_r.
Qed.

Lemma mult_own (t : rtok) r : 0 < mult t (r ⊎ {[+ t +]}).
Proof. rewrite mult_union, mult_single, decide_True by done. pose proof (mult_nonneg t r). lia. Qed.

Lemma box_new_spec (t : PodType) region v r : region_ok ml ao region -> 0 <= size_of ->
  wp I (box_new SLOTS region v) r (fun x r' =>
    match x with
    | Unwound => False
    | Returned (Err e) => r' = r /\ is_refusal e = true
    | Returned (Ok bx) => exists s g, 0 <= s < SLOTS /\ 1 <= g < 2 ^ 63 /\ bx = {| allocation := boxed t s g |} /\
        0 <= size_of <= ss /\ is_power_of_two align_of = true /\ align_of <= 64 /\ r' = r ⊎ {[+ owned t s g v +]}
    end).
Proof.
  intros Hreg Hsz. unfold box_new, try_new_in_place. apply wp_bind.
  eapply wp_mono, (allocate_spec SLOTS rid co ml ao ss) with (v := v); try done.
  - intros [[a|e]|] r'; [|intros [-> He]; apply wp_ret; split; [done|]; by destruct e|done].
    intros (s & g & Hs & Hg & -> & Hn & Hp & Hal & ->). apply wp_ret. exists s, g. do 3 (split; [done|]).
    split; [lia|]. done.
  - intros s x d r0 Hs. apply wp_bind. eapply wp_mono, wp_work_data; [|done..]. intros [] r' ->. by apply wp_ret.
Qed.

Lemma read_box_spec (t : PodType) region s g v n r : region_ok ml ao region -> 0 <= s < SLOTS -> 1 <= g < 2 ^ 63 ->
  0 <= size_of <= ss -> is_power_of_two align_of = true -> align_of <= 64 -> 0 < mult (owned t s g v) r ->
  wp I (read_box region {| allocation := boxed t s g |} v n) r (fun _ r' => r' = r).
Proof.
  intros Hreg Hs Hg Hsz Hp Hal Hm. induction n as [|n IH]; cbn [read_box]; [by apply wp_ret|].
  apply wp_bind. unfold box_get. cbn [allocation]. rewrite boxed_not_null by lia.
  assert (Hn : size_of = size_of * 1) by lia.
  pose proof (resolve_owner_spec SLOTS rid co ml ao ss ss_pos slots_max slots_pos ss_align ao_nonneg arena_fits ml_max
    t region (box_layout (H0 := t)) s g 1 size_of v r Hreg Hs Hg (box_layout_width t) Hn Hsz Hp Hal Hm) as Hres.
  eapply wp_mono, Hres.
  intros [p|e] r' [-> Hx].
  - subst p. replace (base region + off ao ss s - base region) with (off ao ss s) by lia.
    apply wp_bind. eapply wp_mono, wp_owner_data, Hm. intros w r' [-> ->]. rewrite Z.eqb_refl. exact IH.
  - destruct Hx as [->| ->]; exact IH.
Qed.

Lemma box_destroy_spec (t : PodType) region s g v r : region_ok ml ao region -> 0 <= s < SLOTS -> 1 <= g < 2 ^ 63 ->
  0 <= size_of <= ss -> is_power_of_two align_of = true -> align_of <= 64 ->
  wp I (box_destroy SLOTS region {| allocation := boxed t s g |}) (r ⊎ {[+ owned t s g v +]}) (fun y r' =>
    match y with
    | (bx, Ok w) => bx = {| allocation := null |} /\ w = v /\ r' = r ⊎ {[+ Stale s g +]}
    | (_, Err e) => r' = r ⊎ {[+ owned t s g v +]} /\ is_transient e = true
    end).
Proof.
  intros Hreg Hs Hg Hsz Hp Hal. unfold box_destroy. cbn [allocation]. rewrite boxed_not_null by lia.
  pose proof (take_value_spec SLOTS rid co ml ao ss ss_pos slots_max slots_pos ss_align ao_nonneg arena_fits ml_max
    t region (box_layout (H0 := t)) s g v r Hreg Hs Hg (box_layout_width t) Hsz Hp Hal) as Htake.
  apply wp_bind. eapply wp_mono, Htake. intros [w|e] r'.
  - intros [-> ->]. by apply wp_ret.
  - intros [-> He]. apply wp_ret. split; [done|]. by destruct He as [->|[->|(s' & -> & _)]].
Qed.

Lemma stale_box_get (t : PodType) region s g r : 0 <= s < SLOTS -> 1 <= g < 2 ^ 63 -> 0 < mult (Stale s g) r ->
  wp I (box_get SLOTS region {| allocation := boxed t s g |}) r (fun x r' => is_ok x = false /\ r' = r).
Proof.
  intros Hs Hg Hm. unfold box_get. cbn [allocation]. rewrite boxed_not_null by lia.
  eapply wp_mono, (resolve_stale_spec SLOTS rid co ml ao ss ss_pos slots_max slots_pos ao_nonneg arena_fits ml_max
    t region (boxed t s g) 1 (box_layout (H0 := t)) r); [|apply Hs|exact Hm].
  by intros [p|e] r' [-> Hx].
Qed.

Lemma stale_box_destroy (t : PodType) region s g r : 0 <= s < SLOTS -> 1 <= g < 2 ^ 63 -> 0 < mult (Stale s g) r ->
  wp I (box_destroy SLOTS region {| allocation := boxed t s g |}) r (fun x r' => is_ok (snd x) = false /\ r' = r).
Proof.
  intros Hs Hg Hm. unfold box_destroy. cbn [allocation]. rewrite boxed_not_null by lia.
  apply wp_bind. eapply wp_mono, (take_value_stale_spec SLOTS rid co ml ao ss ss_pos slots_max slots_pos ao_nonneg
    arena_fits ml_max t region (boxed t s g) (box_layout (H0 := t)) r); [|apply Hs|exact Hm].
  intros [p|e] r' [-> Hx]; [done|]. by apply wp_ret.
Qed.

Lemma use_box_spec (t : PodType) region v n k r : region_ok ml ao region -> 0 <= size_of ->
  (forall r, wp I k r (fun _ _ => True)) -> wp I (use_box region v n k) r (fun _ _ => True).
Proof.
  intros Hreg Hsz Hk. unfold use_box. apply wp_bind. eapply wp_mono, box_new_spec; [|done..].
  intros [[bx|e]|] r'; [|intros [-> ->]; apply Hk|done].
  intros (s & g & Hs & Hg & -> & Hszs & Hp & Hal & ->).
  apply wp_bind. eapply wp_mono, read_box_spec; try done; [|apply mult_own]. intros [] r' ->.
  apply wp_bind. eapply wp_mono, box_destroy_spec; [|done..]. intros [bx [w|e]] r'; [|intros [-> ->]; apply Hk].
  intros (-> & -> & ->). rewrite Z.eqb_refl. cbn [negb].
  apply wp_bind. eapply wp_mono, stale_box_get; [|done|done|apply mult_own]. intros x r' [-> ->].
  apply wp_bind. eapply wp_mono, stale_box_destroy; [|done|done|apply mult_own]. intros z r' [-> ->].
  apply wp_bind. unfold box_get. cbn [allocation]. apply wp_ret. apply Hk.
Qed.

Lemma process_spec p : process_ok p -> wp I (process_prog p) ∅ (fun _ _ => True).
Proof.
  intros [Hb Hsz]. apply wp_bind.
  eapply wp_mono, (reloc_attach_spec SLOTS rid co ml ao ss); try done.
  intros [region|e] r' [-> Hx]; [|destruct e; try (by apply wp_ret); by destruct (Hx slot)].
  destruct Hx as (-> & Hreg & _). generalize (∅ : gmultiset rtok).
  induction (p_script p) as [|[v n] script IH]; intros r; cbn [run_script]; [done|]. by apply use_box_spec.
Qed.
End Processes.

(** C1.  Isolation: after any successful initialization, in every interleaving
    of any number of processes that attach at their own base addresses, allocate
    boxes of their own types, read them, destroy them and then try the stale
    descriptors, with poisoning at any point and processes that stop anywhere:
    a live box always reads back the value put into it, destruction returns that
    value, live descriptors are never refused except while the allocator is busy,
    poisoned or out of generations, stale descriptors never resolve, attaching
    never reports corruption, and no index is out of range. *)
Theorem box_isolation `{Target} (SLOTS control_size cs b ml rid ao ss : Z) m m0 self (ps : list process)
    (poisons : nat) m1 ts i :
  in_width usize_bits b -> 0 <= SLOTS -> 0 <= ss -> 0 <= ao ->
  run (initialize SLOTS control_size cs b ml rid ao ss) m = (Done (Ok self), m0) ->
  Forall process_ok ps ->
  rtc pstep (m0, map (process_prog SLOTS control_size ml rid) ps ++ replicate poisons poisoner) (m1, ts) ->
  ts !! i <> Some Panic.
Proof.
  intros Hb HS Hss Hao Hrun Hps Hsteps.
  destruct (solo_run _ _ _ (solo_initialize SLOTS control_size cs b ml rid ao ss m Hb HS Hss Hao)) as (x & m' & Hr & HΦ).
  rewrite Hrun in Hr. injection Hr as <- <-. destruct HΦ as (_ & [G1 G2 G3 G4 G5 G6 G7 G8] & Hinv).
  apply (pool_no_panic (inv SLOTS rid (cs - b) ml ao ss) (fun _ _ => True) _ (m1, ts) i Hsteps).
  apply pool_ok_start; [done|]. apply Forall_app. split.
  - apply Forall_fmap. eapply Forall_impl, Hps. intros p Hp.
    apply process_spec; try done; try lia; [apply G1|apply G5].
  - apply Forall_replicate. eapply wp_mono, wp_poison. done.
Qed.

(** Two processes at different bases share a two-slot arena. *)
Definition demo_alloc := initialize 2 256 4096 4096 1024 7 512 64.
Definition demo_mem : mem := snd (run demo_alloc (new (fun _ => 0))).
Definition demo_processes : list process :=
  let t := {| FINGERPRINT := 5; size_of := 8; align_of := 8 |} in
  [{| p_control := 4096; p_base := 4096; p_type := t; p_script := [(11, 1%nat); (12, 1%nat)] |};
   {| p_control := 65536; p_base := 65536; p_type := t; p_script := [(21, 2%nat)] |}].
Definition demo_pool : mem * list (prog rcell unit) :=
  run_schedule (demo_mem, map (process_prog 2 256 1024 7) demo_processes ++ replicate 0 poisoner) (round_robin 2 420).

Lemma demo_initialized : run demo_alloc (new (fun _ => 0)) = (Done (Ok {| base := 4096; len := 1024 |}), demo_mem).
Proof.
  unfold demo_mem. rewrite (surjective_pairing (run demo_alloc _)) at 1. f_equal.
Qed.

Lemma box_isolation_witness : demo_pool.2 = [Ret tt; Ret tt] /\ demo_pool.2 !! 0%nat <> Some Panic.
Proof.
  split; [vm_compute; reflexivity|].
  apply (box_isolation 2 256 4096 4096 1024 7 512 64 (new (fun _ => 0)) demo_mem {| base := 4096; len := 1024 |}
    demo_processes 0 demo_pool.1 demo_pool.2 0).
  - split; [discriminate|reflexivity].
  - discriminate.
  - discriminate.
  - discriminate.
  - apply demo_initialized.
  - repeat constructor; try discriminate.
  - rewrite <- surjective_pairing. apply run_schedule_steps.
Defined.

(** ** Vectors are stacks *)

(** A program that never touches the arena. *)
Fixpoint no_data {A} (p : prog rcell A) : Prop :=
  match p with
  | Ret _ | Panic | Spin => True
  | Rmw l _ k => (forall o, l <> Data o) /\ forall v, no_data (k v)
  | Choose k => forall b, no_data (k b)
  end.

Lemma no_data_bind {A B} (p : prog rcell A) (k : A -> prog rcell B) :
  no_data p -> (forall a, no_data (k a)) -> no_data (bind p k).
Proof.
  intros Hp Hk. induction p as [a| | |l f c IH|c IH]; cbn in *; try done.
  - destruct Hp as [Hl Hc]. split; [done|]. intros v. by apply IH.
  - intros b. by apply IH.
Qed.

Lemma upd_comm (m : mem) l l' v v' x : l <> l' -> upd (upd m l v) l' v' x = upd (upd m l' v') l v x.
Proof. intros Hne. unfold upd. repeat case_decide; congruence. Qed.

(** It runs the same way when the arena changes under it. *)
Lemma run_ext {A} (p : prog rcell A) (m m' : mem) : (forall l, m l = m' l) ->
  fst (run p m) = fst (run p m') /\ forall l, snd (run p m) l = snd (run p m') l.
Proof.
  revert m m'. induction p as [a| | |l f c IH|c IH]; intros m m' Hm; cbn; try done.
  - rewrite Hm. apply IH. intros x. unfold apply_rmw. rewrite Hm. destruct (f (m' l)); [|apply Hm].
    unfold upd. case_decide; [done|apply Hm].
  - by apply IH.
Qed.

Lemma run_no_data {A} (p : prog rcell A) (m : mem) o v : no_data p ->
  fst (run p (upd m (Data o) v)) = fst (run p m) /\
  forall l, snd (run p (upd m (Data o) v)) l = upd (snd (run p m)) (Data o) v l.
Proof.
  revert m. induction p as [a| | |l f c IH|c IH]; intros m; cbn; try done.
  - intros [Hl Hc]. rewrite upd_ne by apply Hl. unfold apply_rmw. rewrite upd_ne by apply Hl.
    destruct (f (m l)) as [w|]; [|by apply IH].
    destruct (IH (m l) (upd m l w) (Hc _)) as [IH1 IH2].
    destruct (run_ext (c (m l)) (upd (upd m (Data o) v) l w) (upd (upd m l w) (Data o) v)) as [E1 E2].
    { intros x. apply upd_comm. intros E. by apply (Hl o). }
    rewrite E1, IH1. split; [done|]. intros x. by rewrite E2, IH2.
  - intros Hc. by apply IH.
Qed.

Ltac no_data_tac :=
  repeat first
    [ progress intros
    | apply no_data_bind
    | match goal with
      | |- no_data (Ret _) => exact I
      | |- no_data Panic => exact I
      | |- no_data (load _) => split; [discriminate | intros; exact I]
      | |- no_data (store _ _) => split; [discriminate | intros; exact I]
      | |- no_data (match ?x with _ => _ end) => destruct x
      | |- no_data (at_slot _ _ _) => unfold at_slot
      | |- no_data (at_word _ _) => unfold at_word
      end ].

Lemma resolve_no_data `{Target} SLOTS region (t : PodType) a c d : no_data (resolve SLOTS region a c d).
Proof.
  unfold resolve, try_bind, validate_request, validate_allocation, expected_offset, poison. no_data_tac.
Qed.

(** Running alone to a result and a memory. *)
Definition runs {A} (p : prog rcell A) (m : mem) (x : A) (m' : mem) : Prop :=
  fst (run p m) = Done x /\ forall l, snd (run p m) l = m' l.

Lemma run_bind_done {A B} (p : prog rcell A) (k : A -> prog rcell B) m a :
  fst (run p m) = Done a -> run (bind p k) m = run (k a) (snd (run p m)).
Proof.
  revert m. induction p as [a'| | |l f c IH|c IH]; intros m Hp; cbn in *; try done; [|by apply IH..].
  by injection Hp as ->.
Qed.

Lemma runs_bind {A B} (p : prog rcell A) (k : A -> prog rcell B) m x m1 y m2 :
  runs p m x m1 -> runs (k x) m1 y m2 -> runs (bind p k) m y m2.
Proof.
  intros [Hp1 Hp2] [Hk1 Hk2]. unfold runs. rewrite (run_bind_done _ _ _ _ Hp1).
  destruct (run_ext (k x) (snd (run p m)) m1 Hp2) as [-> E]. split; [done|]. intros l. by rewrite E, Hk2.
Qed.

Section Vector.
Context `{Target} (SLOTS : Z) (region : RelocRegion) (t : PodType).

(** The elements of a vector whose allocation starts at displacement [o]. *)
Definition elements (m : mem) (o n : Z) : list Z :=
  map (fun i => m (Data (o + Z.of_nat i * size_of))) (seq 0 (Z.to_nat n)).

(** The allocation of the vector resolves at displacement [o]. *)
Definition resolves (self : SharedVec) (m : mem) (o : Z) : Prop :=
  runs (resolve SLOTS region (vec_allocation self) (vec_capacity self) vec_layout) m (Ok (base region + o)) m.

Lemma elements_push m o n v : 0 < size_of -> 0 <= n ->
  elements (upd m (Data (o + n * size_of)) v) o (n + 1) = elements m o n ++ [v].
Proof.
  intros Hs Hn. unfold elements. rewrite Z2Nat.inj_add, Nat.add_1_r, seq_S, map_app by lia. f_equal.
  - apply map_ext_in. intros i [_ Hi]%in_seq. apply upd_ne. intros [= E]. nia.
  - cbn. rewrite Z2Nat.id by lia. by rewrite upd_eq.
Qed.

Lemma checked_lengths_ok self n c : checked_lengths self = Ok (n, c) ->
  vec_len self = n /\ vec_capacity self = c /\ n <= c <= isize_max /\ n <= usize_max.
Proof.
  unfold checked_lengths, usize_try_from. intros Hc. ok_inv Hc. apply ok_or_ok in Hbind, Hbind0.
  destruct (Z.leb_spec (vec_len self) usize_max); [|done]. injection Hbind as <-.
  destruct (Z.leb_spec (vec_capacity self) usize_max); [|done]. injection Hbind0 as <-.
  apply orb_false_iff in Hguard as [?%Z.ltb_ge ?%Z.ltb_ge].
  destruct (vec_capacity self =? 0); ok_inv Hc; injection Hc as <- <-; done.
Qed.

Lemma resolves_upd self self' m o d v : vec_allocation self' = vec_allocation self -> vec_capacity self' = vec_capacity self ->
  resolves self m o -> resolves self' (upd m (Data d) v) o.
Proof.
  unfold resolves. intros -> -> [H1 H2].
  destruct (run_no_data (resolve SLOTS region (vec_allocation self) (vec_capacity self) vec_layout) m d v)
    as [E1 E2]; [apply resolve_no_data|].
  split; [by rewrite E1|]. intros l. rewrite E2. unfold upd. case_decide; [done|apply H2].
Qed.

Lemma push_runs self m o n c v : checked_lengths self = Ok (n, c) -> n <> c -> resolves self m o ->
  runs (push SLOTS region self v) m
    ({| vec_allocation := vec_allocation self; vec_len := n + 1; vec_capacity := c |}, Ok tt)
    (upd m (Data (o + n * size_of)) v).
Proof.
  intros Hc Hne Hres. unfold push. rewrite Hc. destruct (Z.eqb_spec n c); [done|].
  apply checked_lengths_ok in Hc as (<- & <- & _).
  eapply runs_bind; [exact Hres|]. cbn beta match. replace (base region + o - base region) with o by lia.
  split; [reflexivity|]. intros l. reflexivity.
Qed.

Lemma pop_runs self m o n c : checked_lengths self = Ok (n, c) -> n <> 0 -> resolves self m o ->
  runs (pop SLOTS region self) m
    ({| vec_allocation := vec_allocation self; vec_len := n - 1; vec_capacity := c |},
     Ok (Some (m (Data (o + (n - 1) * size_of))))) m.
Proof.
  intros Hc Hne Hres. unfold pop. rewrite Hc. destruct (Z.eqb_spec n 0); [done|].
  apply checked_lengths_ok in Hc as (<- & <- & _).
  eapply runs_bind; [exact Hres|]. cbn beta match. replace (base region + o - base region) with o by lia.
  split; [reflexivity|]. intros l. reflexivity.
Qed.

Lemma checked_lengths_push self n c : checked_lengths self = Ok (n, c) -> 0 <= n -> n < c ->
  checked_lengths {| vec_allocation := vec_allocation self; vec_len := n + 1; vec_capacity := c |} = Ok (n + 1, c).
Proof.
  intros Hc Hn Hlt. pose proof (checked_lengths_ok _ _ _ Hc) as (<- & <- & Hle & _). unfold checked_lengths in *.
  cbn [vec_len vec_capacity vec_allocation]. ok_inv Hc. apply ok_or_ok in Hbind, Hbind0.
  unfold usize_try_from in *. destruct (Z.leb_spec (vec_len self) usize_max); [|done]. injection Hbind as <-.
  destruct (Z.leb_spec (vec_capacity self) usize_max); [|done]. injection Hbind0 as <-.
  destruct (Z.leb_spec (vec_len self + 1) usize_max); [|lia]. cbn [ok_or result_bind].
  destruct (Z.ltb_spec isize_max (vec_capacity self)); [lia|].
  destruct (Z.ltb_spec (vec_capacity self) (vec_len self + 1)); [lia|]. cbn [orb].
  destruct (Z.eqb_spec (vec_capacity self) 0); [lia|]. ok_inv Hc. done.
Qed.
End Vector.

(** A shared vector is a bounded stack: with its allocation resolvable, a
    push on a vector with room appends the value behind the elements it has and
    the next pop returns that value and the vector it was pushed on; a push on a
    full vector is refused with [CapacityExceeded] and a pop on an empty one
    returns [None], both without a write. *)
Theorem shared_vec_stack `{Target} (SLOTS : Z) (region : RelocRegion) (t : PodType) (self : SharedVec) (m : mem) (o n c v : Z) :
  0 < size_of -> 0 <= n -> checked_lengths self = Ok (n, c) -> resolves SLOTS region t self m o ->
  (n < c -> exists self' m',
     runs (push SLOTS region self v) m (self', Ok tt) m' /\ vec_len self' = n + 1 /\
     elements t m' o (n + 1) = elements t m o n ++ [v] /\ resolves SLOTS region t self' m' o /\
     runs (pop SLOTS region self') m' (self, Ok (Some v)) m') /\
  (n = c -> runs (push SLOTS region self v) m (self, Err CapacityExceeded) m) /\
  (n = 0 -> runs (pop SLOTS region self) m (self, Ok None) m).
Proof.
  intros Hs Hn Hc Hres. pose proof (checked_lengths_ok _ _ _ Hc) as (Hlen & Hcap & _). split; [|split].
  - intros Hlt. eexists _, _. split; [apply (push_runs SLOTS region t self m o n c); [done|lia|done]|].
    split; [done|]. split; [by apply elements_push|].
    assert (Hres' : resolves SLOTS region t {| vec_allocation := vec_allocation self; vec_len := n + 1; vec_capacity := c |}
      (upd m (Data (o + n * size_of)) v) o) by (apply (resolves_upd SLOTS region t self); [done|cbn; lia|done]).
    split; [done|].
    pose proof (pop_runs SLOTS region t _ _ o (n + 1) c (checked_lengths_push self n c Hc Hn Hlt) ltac:(lia) Hres') as Hpop.
    cbn [vec_allocation] in Hpop. replace (n + 1 - 1) with n in Hpop by lia. rewrite upd_eq in Hpop.
    replace self with {| vec_allocation := vec_allocation self; vec_len := n; vec_capacity := c |} at 2; [exact Hpop|].
    destruct self. cbn in *. by subst.
  - intros ->. unfold push. rewrite Hc, Z.eqb_refl. by split.
  - intros ->. unfold pop. rewrite Hc. by split.
Qed.

(** A vector of four [u64] elements in the arena of [demo_alloc], one pushed. *)
Definition demo_u64 : PodType := {| FINGERPRINT := 5; size_of := 8; align_of := 8 |}.
Definition demo_region : RelocRegion := {| base := 4096; len := 1024 |}.
Definition demo_vec_run := run (with_capacity (H0 := demo_u64) 2 demo_region 4) demo_mem.
Definition demo_vec : SharedVec :=
  match fst demo_vec_run with Done (Returned (Ok v)) => v | _ => vec_new end.

Lemma shared_vec_stack_witness : exists self' m',
  runs (push (H0 := demo_u64) 2 demo_region demo_vec 77) (snd demo_vec_run) (self', Ok tt) m' /\ vec_len self' = 1.
Proof.
  destruct (shared_vec_stack 2 demo_region demo_u64 demo_vec (snd demo_vec_run) 512 0 4 77) as [Hpush _].
  - reflexivity.
  - discriminate.
  - vm_compute. reflexivity.
  - split; [vm_compute; reflexivity|]. intros l. reflexivity.
  - destruct (Hpush eq_refl) as (self' & m' & Hr & Hl & _). exists self', m'. split; assumption.
Defined.
